(* ===== verification/_CoqProject ===== *)
-Q . S2P
Prelude.v
Algebra.v
Crypto.v
Partitioning.v
Handel.v
HandelSafety.v
Overlay.v
Multicast.v
Kes.v
Vrf.v
SigmaCrypto.v
SigmaAggregation.v
SigmaSafety.v
Validation.v
Consensus.v
Ledger.v
VersionedStore.v
AvlStorage.v
Diffusion.v
DiffusionSafety.v
PeerManager.v
PeerSafety.v
Substream.v
ConnHandler.v
ConnSafety.v
NetworkController.v
NetworkSafety.v
ProtocolHandler.v
ProtocolSafety.v
KvStore.v
RetryScheduler.v
ErgoStores.v
NodeView.v
ErgoBoxes.v
ErgoContracts.v
ErgoCells.v
ContractSafety.v
ErgoTx.v
VaultSelection.v
ErgoConnector.v
ErgoSafety.v
ErgoSync.v
Cardano.v
CardanoSafety.v
ErgoSamples.v
MoveFormat.v
MoveBounds.v
MoveCfg.v
MoveSearch.v
MoveFunction.v
MoveSignatures.v
MoveConsistency.v
MoveStack.v
MoveLoops.v
MoveSpanning.v
MoveReducible.v
MoveControlV5.v
MoveAbsint.v
MoveLocals.v
MoveTypes.v
MoveTyping.v
MoveTypeSafety.v
MoveStackMaps.v
MoveModuleChecks.v
MoveAcquires.v
MoveAbilities.v
MoveStructDefs.v
MoveInstLoops.v
