(* ===== verification/Prelude.v ===== *)
(** * Spectrum: a verification development

    Spectrum is a cross-chain network of nodes written in Rust.  A committee
    of nodes agrees on reports about other chains with aggregated Schnorr
    signatures; blocks are led by stake pools chosen by a lottery; a ledger of
    cells is kept in a versioned store and diffused among peers.  This
    library models the crates that hold the logic of the node and proves the
    properties they rely on.

    ** Conventions

    Rust functions are Rocq functions.  A function that can panic (an index
    out of range, an [unwrap] of nothing, an overflow, [todo!]) returns an
    [outcome]: [Done], [Panic], or [NoFuel] for a loop whose bound was too
    small.  Machine integers are [Z] with [checked] at the operations that can
    overflow; indexes into vectors are [nat].  [HashMap] and [BTreeMap] are
    [gmap], sets are [gset], vectors and queues are lists.  A struct is a
    [Record] and an enum an [Inductive] with the names of the source, up to
    clashes.  Methods that take [&mut self] return the new state.  Traits are
    type classes, and what a client may assume about an instance is a second
    class of laws.  [poll] functions take as arguments what the environment
    decides: which timers expired, which tasks progressed, what arrived.
    Logging is left out, except where it can panic.

    The Move verifier reports errors as values, so its files have a monad of
    their own, [vm]: a result, an error, a panic or exhausted fuel.  It is
    modelled as a build with debug assertions, in which arithmetic is checked
    and a failed assertion panics; [settles] says that neither a panic nor
    exhausted fuel happens.

    ** The parts and their files

    - [Prelude]: outcomes and their tactics, machine integers, sorting,
      bytes, lemmas on lists and maps.
    - [Algebra]: partial semigroups, weighted and verifiable values
      (algebra-core, spectrum-crypto/src/lib.rs) and the contributions of
      spectrum-sigma/src/lib.rs.
    - [Crypto]: the elliptic curve, hash functions and ECDSA as classes with
      their laws, and an instance over the integers that shows the laws can
      hold.
    - [Partitioning]: spectrum-handel/src/partitioning.rs, the binomial levels
      of the committee.
    - [Handel], [HandelSafety]: spectrum-handel/src/lib.rs, a round of Handel
      aggregation as a state with [inject_message] and [poll]; its invariant,
      progress and panics.
    - [Overlay], [Multicast]: spectrum-mcast, the trees of the multicast
      overlay and the stage that forwards verified statements.
    - [Kes]: spectrum-kes, key-evolving signatures over a tree of keys.
    - [Vrf]: spectrum-vrf, the verifiable random function and its lottery.
    - [SigmaCrypto]: spectrum-sigma/src/crypto.rs and the verification of
      commitments and responses in lib.rs.
    - [SigmaAggregation], [SigmaSafety]: spectrum-sigma/src/sigma_aggregation.rs,
      the machine that runs three Handel rounds and two broadcasts in order
      and returns a certificate.
    - [Validation]: spectrum-validation, rules and validations.
    - [Consensus]: spectrum-consensus, validation of block headers, with the
      data of spectrum-ledger/src/block.rs.
    - [Ledger]: linking and evaluation of transactions
      (spectrum-view/src/state), with the data of spectrum-ledger.
    - [VersionedStore]: spectrum-view/src/versioned_avl_storage/versioned_storage.rs.
    - [Diffusion], [DiffusionSafety]: spectrum-diffusion, synchronisation of
      chains and exchange of modifiers, over the task pool of spectrum-network.
    - [PeerManager], [PeerSafety]: peer_manager.rs of spectrum-network and the
      files under it, the repository of peers and the manager of connections.
    - [Substream]: protocol_upgrade.rs, one_shot_upgrade.rs, message_sink.rs,
      protocol.rs and types.rs of spectrum-network.
    - [ConnHandler], [ConnSafety]: peer_conn_handler.rs, the states of the
      protocols of one connection.
    - [NetworkController], [NetworkSafety]: network_controller.rs with the
      events of protocol_api.rs, alone and composed with the handlers of its
      connections.
    - [ProtocolHandler], [ProtocolSafety]: protocol_handler.rs and the
      discovery protocol, alone and composed with the peer manager.
    - [AvlStorage]: spectrum-view/src/versioned_avl_storage.rs, the nodes of an
      authenticated tree over [VersionedStore].
    - [NodeView]: spectrum-node/src/node_view.rs, over the validation of
      headers.
    - [KvStore]: RocksDB as a map of byte strings, its scans, and the classes
      of codecs the connectors store values with.
    - [RetryScheduler]: spectrum-ergo-connector/src/rocksdb/tx_retry_scheduler.rs,
      the store of the transaction to be submitted again.
    - [ErgoStores]: rocksdb/deposit.rs, withdrawals.rs, vault_boxes.rs and
      ergo_tx_event_history.rs of spectrum-ergo-connector: deposits, boxes and
      events.
    - [ErgoBoxes]: committee.rs and vault_utxo.rs, with the data of the Ergo
      chain.
    - [ErgoContracts]: contracts/deposit.sc and withdrawal_and_deposit.sc, as
      functions of the context of a transaction.
    - [ErgoCells], [ContractSafety]: script.rs and tx_event.rs, the conversions
      between cells of the ledger, of the chain and of the contracts; the
      contract's arithmetic against that of [SigmaCrypto].
    - [ErgoTx]: the transactions of process_deposits and withdraw_value of
      ergo_connector.rs, and what the contracts make of them.
    - [VaultSelection]: collect of vault_boxes.rs.
    - [ErgoConnector], [ErgoSafety], [ErgoSync]: ergo_connector.rs,
      tx_in_progress.rs, data_bridge.rs and the loop of main.rs, with the types
      of spectrum-chain-connector; the invariant of its stores, rollbacks and
      the pages of events it gives to the driver.
    - [ErgoSamples]: instances of the parameters of the connector, with which
      its theorems are applied.
    - [Cardano], [CardanoSafety]: spectrum-cardano-connector, the cache of the
      chain and the loop of the bridge.
    - [MoveFormat]: file_format.rs, binary_views.rs and errors.rs of
      external/move/move-binary-format, the tables of a compiled Move module,
      and the monad [vm] of the verifier.
    - [MoveBounds]: check_bounds.rs, the bounds checker.
    - [MoveCfg], [MoveSearch]: control_flow_graph.rs, its construction and the
      depth-first search behind it.
    - [MoveFunction]: what the bounds checker and the graph promise to the
      passes over one function.
    - [MoveStack]: stack_usage_verifier.rs of move-bytecode-verifier.
    - [MoveLoops], [MoveSpanning], [MoveReducible]: loop_summary.rs and
      control_flow.rs, the spanning tree, the partition of loops and the
      decision of reducibility.
    - [MoveControlV5]: control_flow_v5.rs, the check of older binaries.
    - [MoveAbsint]: absint.rs and meter.rs, the abstract interpreter.
    - [MoveLocals]: locals_safety, its client.
    - [MoveSignatures], [MoveConsistency]: signature.rs, and
      instruction_consistency.rs, constants.rs and constant.rs.
    - [MoveTypes], [MoveTyping], [MoveTypeSafety], [MoveStackMaps]:
      type_safety.rs, its typing rules, that the code follows them, and what
      acceptance means.
    - [MoveModuleChecks]: limits.rs, check_duplication.rs, friends.rs and
      script_signature.rs.
    - [MoveAcquires], [MoveAbilities], [MoveStructDefs], [MoveInstLoops]:
      acquires_list_verifier.rs, ability_field_requirements.rs, struct_defs.rs
      and instantiation_loops.rs.

    The Handel round is generic in the values it aggregates and in the
    partitioning of its peers: [Handel] is written against the classes of
    [Algebra] and the class [PeerPartitions], and [Partitioning] and
    [SigmaCrypto] give the instances the aggregation machine uses.  The
    machine composes rounds, broadcasts and the cryptography; its theorems
    use the theorems of those components.

    The Ergo connector composes in the same way: the stores refine abstract
    maps, the connector's invariant is stated on the maps, and what it says of
    stored boxes is what the theorems on transactions assume.  [ErgoTx] joins
    the two sides of the vault: the transaction one of them builds is run
    through the contract of the other, whose certificate check is shown to be
    that of [SigmaCrypto].

    The passes of the Move verifier build on each other: the bounds checker
    makes every lookup of the later passes safe, the graph is built for code
    with branches in range, and [MoveFunction] collects both for a function.
    The abstract interpreter is generic in its domain, and [MoveLocals] gives
    the instance with its laws.  The relation [decides] states that a check
    returns a verdict and accepts exactly what satisfies a predicate; the checks
    compose by its lemmas, and what one decides is the hypothesis of the next.

    ** What is proved

    Partitioning: levels are complete and symmetric, and the table meets the
    interface of the round.  Handel: complete aggregates are verified and
    heavy enough, rounds only progress, honest peers are never banned, messages
    for existing levels never panic.  Overlay and multicast: trees are heaps
    that span the peers and agree between peers, only verified statements are
    forwarded, once per child.  Signatures: keys of every period sign, keys of
    past periods are gone, VRF proofs verify, the lottery stays in range.
    Aggregation: in a committee without fillers certificates verify exactly when
    enough members responded, every certificate has a run of complete rounds and
    broadcasts behind it, polling ends.
    Validation, consensus and ledger: pipelines accumulate violations, header
    validation decides the conditions it checks, consumed cells were signed
    for, outputs stay anchored.  Store: rollbacks to versions before the newest
    restore snapshots.  Diffusion: a node behind a peer catches up, one
    announcement at a time, outputs are justified by inputs, only delivered
    modifiers are applied.
    Peers: connections follow the log of events and the repository stays
    consistent.  Substreams and sinks: approvals precede messages, sinks
    deliver in order within their bounds.  Connections: handlers keep their
    contract, a negotiation, one side after the other, opens the protocol on both,
    open protocols send in order.  Controller: protocols are enabled only if asked for, and the cases
    in which it panics are exact.  Discovery: peers spread between two nodes,
    and the handler acts only on what it was given.  Retries: the store refines
    a tracked transaction and gives up after the configured number of failures.
    Node view: it applies exactly the headers that meet the conditions the
    validator checks and keeps a linked chain.
    Tree storage: a rollback gives the prover the tree of the version back.
    Ergo: the contracts accept the withdrawals and deposits the connector
    builds, the connector's own stores included; withdrawals roll back,
    selections of boxes cover their cells, the driver's pages are complete,
    cells convert to the ledger and back.  Where the code falls short this is
    proved too: the contract of the vault does not bind the spender, withdrawn
    tokens are not taken from the vault, rolling back a deposit panics; filler
    peers break certificates, and the VRF of a header is not checked.
    Cardano: the cache gives its blocks back in order, up to its depth; the
    bridge panics on every real rollback.  Move: the bounds checker accepts
    exactly the modules whose indexes are in range; graphs partition the code
    and their back edges are those that go back in the traversal; the check of
    control flow decides reducibility, and accepts what the older one accepted;
    stack usage keeps one height per instruction; the analysis of locals ends,
    and is sound as long as no block has two back edges, but not without that.
    Type safety accepts exactly the bodies that have a stack map and never fails
    inside; the checks of signatures, limits, duplicates and recursive structures
    decide their rules; a value can be copied, dropped or stored only if its
    contents can; chains of generic calls make types of bounded depth; what a
    call can access is on the acquires list, and without recursion nothing else.

    ** Bounds

    Loops over data are structural.  Fuel is used where the source loops until
    a condition: [bin_partition] has one step per peer and needs the logarithm;
    [normalize] doubles a [u32] and has 33 steps; the tree loops of [Kes] have
    the height; [gcd] has its second argument, which decreases; level
    activation has the number of levels; a rollback has one step per undo
    record; the loops of a substream have three and five turns, one per state
    they pass through; the sending loop of a connection has one turn per queued
    notification and one more; the poll of the controller has one per answer
    and command and two more; loading a tree has its height; a rollback of the
    Cardano bridge has one per cached block; the pages of a driver have one per
    event; the searches of a control-flow graph have three per block, the body
    of a loop one per node, and the abstract interpreter one per block, block
    and height of the domain.  The theorems show that the fuel is enough
    wherever they claim a result.  The polls take one element of a schedule
    per iteration, and [sigma_poll_returns] bounds their number.

    ** Not modelled

    Of the Move repository under external/move the reference safety pass and
    its borrow graph, the checks across modules, the interpreter, the compiler,
    the prover and the tools are not modelled.  Of the duplicates of Handel,
    multicasting and sigma aggregation inside spectrum-network the first two
    differ from the crates modelled here in imports and derived traits only;
    the third keeps the exclusion set as a map and hashes individual inputs
    differently.  The collective signing stages of spectrum-network are used by
    no other file.  The history of spectrum-view is a trait whose
    implementation is [todo!] throughout.  Chain synchronisation with Ergo and
    Cardano is that of other crates, and what it reports is an argument.  The
    simulation of a report in script.rs is modelled only in what it inserts
    into the tree.  The tools, the mock consensus driver and the Scala programs
    are not part of the node. *)

From Stdlib Require Export ZArith Lia.
From stdpp Require Export base numbers list gmap sorting.
From coqutil Require Export Datatypes.RecordSettersUsingExistingGetters.

(** ** Panics and loops

    Rust code that indexes a slice, unwraps an option or overflows an
    arithmetic operation panics.  [outcome] separates such a run from a run
    that returns; [NoFuel] marks a loop model whose fuel ran out and is
    shown unreachable by the theorems on the loops. *)

Inductive outcome (A : Type) : Type :=
| Done (a : A)
| Panic
| NoFuel.

Arguments Done {A} a.
Arguments Panic {A}.
Arguments NoFuel {A}.

#[export] Instance outcome_ret : MRet outcome := fun A a => Done a.

#[export] Instance outcome_bind : MBind outcome := fun A B f m =>
  match m with
  | Done a => f a
  | Panic => Panic
  | NoFuel => NoFuel
  end.

#[export] Instance outcome_fmap : FMap outcome := fun A B f m =>
  match m with
  | Done a => Done (f a)
  | Panic => Panic
  | NoFuel => NoFuel
  end.

(** [unwrap o]: [Option::unwrap], [Option::expect] and slice indexing. *)
Definition unwrap {A} (o : option A) : outcome A :=
  match o with
  | Some a => Done a
  | None => Panic
  end.

(** [mapO f l]: run [f] on every element from left to right, stopping at the
    first panic. *)
Fixpoint mapO {A B} (f : A -> outcome B) (l : list A) : outcome (list B) :=
  match l with
  | [] => Done []
  | x :: r => y ← f x; ys ← mapO f r; Done (y :: ys)
  end.

(** [foldO f l s]: a [for] loop over [l] with state [s]. *)
Fixpoint foldO {A S} (f : S -> A -> outcome S) (l : list A) (s : S) : outcome S :=
  match l with
  | [] => Done s
  | x :: r => s' ← f s x; foldO f r s'
  end.

Fixpoint filterO {A} (f : A -> outcome bool) (l : list A) : outcome (list A) :=
  match l with
  | [] => Done []
  | x :: r => b ← f x; ys ← filterO f r; Done (if (b : bool) then x :: ys else ys)
  end.

Definition is_done {A} (o : outcome A) : bool :=
  match o with Done _ => true | _ => false end.

Lemma bind_Done {A B} (m : outcome A) (f : A -> outcome B) b :
  m ≫= f = Done b <-> exists a, m = Done a /\ f a = Done b.
Proof.
  destruct m as [a| |]; cbn; split; try done; [by exists a|..];
    by intros (a' & [= ?] & Hf); subst.
Qed.

Lemma is_done_exists {A} (o : outcome A) : is_done o = true -> exists a, o = Done a.
Proof. destruct o; cbn; [by eexists|done..]. Qed.

(** What an observation of a result says about the result. *)
Lemma fmap_Done {A B} (f : A -> B) (o : outcome A) a b : o = Done a -> f <$> o = Done b -> f a = b.
Proof. intros ->. by intros [= ?]. Qed.

Lemma bind_assoc {A B C} (m : outcome A) (f : A -> outcome B) (g : B -> outcome C) :
  (m ≫= f) ≫= g = m ≫= (fun a => f a ≫= g).
Proof. by destruct m. Qed.

Lemma foldO_app {A S} (f : S -> A -> outcome S) l1 l2 s :
  foldO f (l1 ++ l2) s = foldO f l1 s ≫= foldO f l2.
Proof.
  revert s. induction l1 as [|x r IH]; intros s; [done|]. cbn.
  destruct (f s x); [apply IH|done..].
Qed.

(** Loop invariants. *)
Lemma foldO_inv {A S} (P : S -> Prop) (f : S -> A -> outcome S) l s s' :
  (forall s x s', x ∈ l -> P s -> f s x = Done s' -> P s') -> P s -> foldO f l s = Done s' -> P s'.
Proof.
  revert s. induction l as [|x r IH]; intros s Hstep Hs Hf; cbn in Hf; [by injection Hf as <-|].
  apply bind_Done in Hf as (s1 & H1 & Hf). eapply IH; [|eapply Hstep; [left|exact Hs|exact H1]|exact Hf].
  intros s2 y s3 Hy. apply Hstep. by right.
Qed.

Lemma unwrap_Done {A} (o : option A) a : unwrap o = Done a <-> o = Some a.
Proof. destruct o; cbn; naive_solver. Qed.

(** Run a computation past the steps whose results are known. *)
Tactic Notation "outcome_cbn" := cbn [unwrap mbind outcome_bind].
Tactic Notation "outcome_cbn" "in" hyp(H) := cbn [unwrap mbind outcome_bind] in H.

(** Two results of the same computation are equal. *)
Ltac outcome_eq :=
  repeat match goal with
  | H1 : ?e = Done ?a, H2 : ?e = Done ?b |- _ =>
    assert (b = a) by congruence; clear H2; subst
  end; simplify_eq.

(** Split the hypotheses on sequences of computations that returned. *)
Ltac bind_inv :=
  repeat match goal with
  | H : (_ ≫= _) = Done _ |- _ =>
    let a := fresh "v" in let Ha := fresh "Hv" in
    apply bind_Done in H as (a & Ha & H)
  | H : unwrap _ = Done _ |- _ => apply unwrap_Done in H
  | H : Done _ = Done _ |- _ => injection H as H
  | H : Panic = Done _ |- _ => discriminate H
  | H : NoFuel = Done _ |- _ => discriminate H
  end.

(** Both return and the results are related, or neither returns, for the same
    reason. *)
Definition agrees {A B} (R : A -> B -> Prop) (x : outcome A) (y : outcome B) : Prop :=
  match x, y with
  | Done a, Done b => R a b
  | Panic, Panic | NoFuel, NoFuel => True
  | _, _ => False
  end.

Lemma agrees_bind {A B A' B'} (R : A -> B -> Prop) (Q : A' -> B' -> Prop) x y (f : A -> outcome A') (g : B -> outcome B') :
  agrees R x y -> (forall a b, R a b -> agrees Q (f a) (g b)) -> agrees Q (x ≫= f) (y ≫= g).
Proof. destruct x, y; cbn; naive_solver. Qed.

(** A refinement lifts to sequences of operations. *)
Lemma agrees_foldO {A B O} (R : A -> B -> Prop) (f : A -> O -> outcome A) (g : B -> O -> outcome B) :
  (forall a b o, R a b -> agrees R (f a o) (g b o)) ->
  forall os a b, R a b -> agrees R (foldO f os a) (foldO g os b).
Proof.
  intros Hstep os. induction os as [|o os IH]; intros a b Hab; [done|]. cbn [foldO].
  eapply agrees_bind; [by apply Hstep|done].
Qed.

(** ** Fixed-width integers *)

Definition u8_max : Z := 2 ^ 8 - 1.
Definition u32_max : Z := 2 ^ 32 - 1.
Definition u64_max : Z := 2 ^ 64 - 1.
Definition i32_min : Z := - 2 ^ 31.
Definition i32_max : Z := 2 ^ 31 - 1.

(** [checked lo hi x]: the result of an arithmetic operation whose exact
    value is [x]; out of range the operation panics (overflow checks on). *)
Definition checked (lo hi x : Z) : outcome Z :=
  if bool_decide (lo <= x <= hi)%Z then Done x else Panic.

Lemma checked_Done lo hi x y : checked lo hi x = Done y <-> (lo <= x <= hi)%Z /\ y = x.
Proof. unfold checked. case_bool_decide; split; [by intros [= ->]|by intros [_ ->]|done|tauto]. Qed.

Lemma checked_in lo hi x : (lo <= x <= hi)%Z -> checked lo hi x = Done x.
Proof. intros. by apply checked_Done. Qed.

(** A computation without loops of its own returns or panics. *)
Definition fueled {A} (x : outcome A) : Prop := x <> NoFuel.

Lemma fueled_bind {A B} (x : outcome A) (f : A -> outcome B) : fueled x -> (forall a, x = Done a -> fueled (f a)) -> fueled (x ≫= f).
Proof. unfold fueled. destruct x; cbn; naive_solver. Qed.

Lemma fueled_foldO {A O} (f : A -> O -> outcome A) l a : (forall a o, fueled (f a o)) -> fueled (foldO f l a).
Proof. intros Hf. revert a. induction l as [|o l IH]; intros a; [done|]. cbn [foldO]. apply fueled_bind; [done|]. intros. apply IH. Qed.

Lemma fueled_checked lo hi x : fueled (checked lo hi x).
Proof. unfold checked. by case_bool_decide. Qed.

Lemma fueled_unwrap {A} (o : option A) : fueled (unwrap o).
Proof. by destruct o. Qed.

Create HintDb fueled.
#[export] Hint Resolve fueled_bind fueled_foldO fueled_checked fueled_unwrap : fueled.
#[export] Hint Extern 1 (fueled (if _ then _ else _)) => case_match : fueled.
#[export] Hint Extern 1 (fueled (match _ with _ => _ end)) => case_match : fueled.
#[export] Hint Extern 0 (fueled (Done _)) => discriminate : fueled.
#[export] Hint Extern 0 (fueled Panic) => discriminate : fueled.

(** Facts about results: [eauto with outcome] finds the steps of a run. *)
Create HintDb outcome.
#[export] Hint Resolve is_done_exists checked_in list_elem_of_lookup_2 lookup_lt_Some : outcome.
#[export] Hint Extern 1 (exists a, Done ?x = Done a) => exists x; reflexivity : outcome.
#[export] Hint Extern 2 (_ <= _ <= _)%Z => lia : outcome.
#[export] Hint Rewrite @bind_assoc @foldO_app : outcome.

(** [usize::count_ones] *)
Definition count_ones (x : Z) : Z :=
  Z.of_nat (length (filter (fun i => Z.testbit x (Z.of_nat i) = true) (seq 0 64))).

Definition clamp (lo hi x : Z) : Z := Z.max lo (Z.min hi x).

(** ** Stable sorting

    [slice::sort_by_key] is stable; insertion from the right keeps equal keys
    in their original order. *)

Section Sorting.
Context {A : Type} (leb : A -> A -> bool).

Fixpoint insert_by (x : A) (l : list A) : list A :=
  match l with
  | [] => [x]
  | y :: r => if leb x y then x :: y :: r else y :: insert_by x r
  end.

Definition sort_by (l : list A) : list A := foldr insert_by [] l.

Lemma insert_by_perm x l : insert_by x l ≡ₚ x :: l.
Proof.
  induction l as [|y r IH]; simpl; [done|].
  destruct (leb x y); [done|]. rewrite IH. apply perm_swap.
Qed.

Lemma sort_by_perm l : sort_by l ≡ₚ l.
Proof.
  induction l as [|x r IH]; simpl; [done|]. by rewrite insert_by_perm, IH.
Qed.

Lemma sort_by_length l : length (sort_by l) = length l.
Proof. apply Permutation_length, sort_by_perm. Qed.

Lemma elem_of_sort_by x l : x ∈ sort_by l <-> x ∈ l.
Proof. by rewrite sort_by_perm. Qed.

Lemma NoDup_sort_by l : NoDup (sort_by l) <-> NoDup l.
Proof. by rewrite sort_by_perm. Qed.

Context (leb_total : forall x y, leb x y = false -> leb y x = true).
Context (leb_trans : forall x y z, leb x y = true -> leb y z = true -> leb x z = true).

Lemma insert_by_sorted x l :
  StronglySorted (fun a b => leb a b = true) l ->
  StronglySorted (fun a b => leb a b = true) (insert_by x l).
Proof.
  induction 1 as [|y r Hs IH Hall]; simpl.
  - repeat constructor.
  - destruct (leb x y) eqn:E; constructor; try (by constructor); auto.
    + constructor; [done|]. eapply Forall_impl; [exact Hall|]. eauto.
    + rewrite insert_by_perm. constructor; auto.
Qed.

Lemma sort_by_sorted l : StronglySorted (fun a b => leb a b = true) (sort_by l).
Proof.
  induction l as [|x r IH]; simpl; [constructor|]. by apply insert_by_sorted.
Qed.
End Sorting.

(** [sort_by_key leb key l]: [l.sort_by_key(key)]. *)
Definition sort_by_key {A K} (leb : K -> K -> bool) (key : A -> K) (l : list A) : list A :=
  sort_by (fun a b => leb (key a) (key b)) l.

(** The key of [sort_by_key] may panic; it is not evaluated on a list with
    fewer than two elements. *)
Definition sort_by_keyO {A K} (leb : K -> K -> bool) (key : A -> outcome K)
    (l : list A) : outcome (list A) :=
  match l with
  | [] | [_] => Done l
  | _ =>
    keyed ← mapO (fun x => k ← key x; Done (x, k)) l;
    Done (fst <$> sort_by_key leb snd keyed)
  end.

(** [iter().position(|y| y == x)] *)
Definition position {A} `{EqDecision A} (x : A) (l : list A) : option nat :=
  fst <$> list_find (x =.) l.

(** [collect::<HashMap<_, _>>()]: on equal keys the last binding wins. *)
Definition collect_map {K V} `{Countable K} (l : list (K * V)) : gmap K V :=
  list_to_map (reverse l).

(** ** Bytes, most significant first *)

Fixpoint le_bytes (n : nat) (x : Z) : list Z :=
  match n with
  | 0%nat => []
  | S n => (x mod 256)%Z :: le_bytes n (x / 256)%Z
  end.

Fixpoint le_value (l : list Z) : Z :=
  match l with
  | [] => 0%Z
  | b :: r => (b + 256 * le_value r)%Z
  end.

Definition be_bytes (n : nat) (x : Z) : list Z := reverse (le_bytes n x).
Definition be_value (l : list Z) : Z := le_value (reverse l).

Definition is_byte (b : Z) : Prop := (0 <= b < 256)%Z.

Lemma le_bytes_length n x : length (le_bytes n x) = n.
Proof. revert x. induction n; simpl; auto. Qed.

Lemma le_value_bytes n x :
  (0 <= x < 256 ^ Z.of_nat n)%Z -> le_value (le_bytes n x) = x.
Proof.
  revert x. induction n as [|n IH]; intros x Hx; simpl; [lia|].
  rewrite Nat2Z.inj_succ, Z.pow_succ_r in Hx by lia.
  rewrite IH; [pose proof (Z.div_mod x 256); lia|].
  split; [apply Z.div_pos; lia|]. apply Z.div_lt_upper_bound; lia.
Qed.

Lemma le_value_range l : Forall is_byte l -> (0 <= le_value l < 256 ^ Z.of_nat (length l))%Z.
Proof.
  induction 1 as [|b r Hb Hr IH]; cbn [length le_value]; [lia|].
  rewrite Nat2Z.inj_succ, Z.pow_succ_r by lia. unfold is_byte in Hb. lia.
Qed.

Lemma be_bytes_length n x : length (be_bytes n x) = n.
Proof. unfold be_bytes. by rewrite length_reverse, le_bytes_length. Qed.

Lemma be_value_bytes n x :
  (0 <= x < 256 ^ Z.of_nat n)%Z -> be_value (be_bytes n x) = x.
Proof. intros. unfold be_value, be_bytes. rewrite reverse_involutive. by apply le_value_bytes. Qed.

Lemma be_value_range l : Forall is_byte l -> (0 <= be_value l < 256 ^ Z.of_nat (length l))%Z.
Proof.
  intros Hl. unfold be_value. rewrite <- length_reverse. apply le_value_range.
  by apply Forall_reverse.
Qed.

Lemma le_bytes_byte n x : Forall is_byte (le_bytes n x).
Proof.
  revert x. induction n as [|n IH]; intros x; simpl; constructor; auto.
  unfold is_byte. apply Z.mod_pos_bound. lia.
Qed.

Lemma be_bytes_byte n x : Forall is_byte (be_bytes n x).
Proof. apply Forall_reverse, le_bytes_byte. Qed.

(** ** Loops that do not panic *)

Lemma mapO_Done {A B} (f : A -> outcome B) (g : A -> B) (l : list A) :
  (forall x, x ∈ l -> f x = Done (g x)) -> mapO f l = Done (g <$> l).
Proof.
  induction l as [|x r IH]; intros Hf; simpl; [done|].
  rewrite (Hf x) by set_solver. cbn. rewrite IH by set_solver. done.
Qed.

Lemma mapO_length {A B} (f : A -> outcome B) l l' : mapO f l = Done l' -> length l' = length l.
Proof.
  revert l'. induction l as [|x r IH]; intros l'; simpl; [by intros [= <-]|].
  destruct (f x); try done. cbn. destruct (mapO f r); try done. cbn.
  intros [= <-]. simpl. by rewrite (IH _ eq_refl).
Qed.

Lemma mapO_exists {A B} (f : A -> outcome B) (P : A -> B -> Prop) l :
  (forall x, x ∈ l -> exists y, f x = Done y /\ P x y) ->
  exists l', mapO f l = Done l' /\ Forall2 P l l'.
Proof.
  induction l as [|x r IH]; intros Hf; simpl; [by eexists|].
  destruct (Hf x) as (y & -> & Hy); [set_solver|].
  destruct IH as (ys & -> & Hys); [set_solver|]. cbn. eauto.
Qed.

Lemma mapO_Forall2 {A B} (f : A -> outcome B) l l' :
  mapO f l = Done l' <-> Forall2 (fun x y => f x = Done y) l l'.
Proof.
  split.
  - revert l'. induction l as [|x r IH]; intros l' Hm; cbn in Hm; bind_inv; subst; eauto.
  - induction 1 as [|x y l l' Hxy _ IH]; cbn; [done|]. by rewrite Hxy, IH.
Qed.

Lemma filterO_Done {A} (f : A -> outcome bool) (g : A -> bool) l :
  (forall x, x ∈ l -> f x = Done (g x)) -> filterO f l = Done (filter (fun x => g x = true) l).
Proof.
  induction l as [|x r IH]; intros Hf; simpl; [done|].
  rewrite (Hf x) by set_solver. cbn. rewrite IH by set_solver. cbn.
  by destruct (g x).
Qed.

Lemma sort_by_keyO_perm {A K} leb (key : A -> outcome K) l :
  (forall x, x ∈ l -> exists k, key x = Done k) ->
  exists l', sort_by_keyO leb key l = Done l' /\ l' ≡ₚ l.
Proof.
  intros Hkey. destruct l as [|a [|b r]]; [by eexists..|].
  destruct (mapO_exists (fun x => k ← key x; Done (x, k)) (fun x p => p.1 = x) (a :: b :: r))
    as (kl & Hkl & Hf).
  { intros x Hx. destruct (Hkey x Hx) as (k & ->). by eexists. }
  unfold sort_by_keyO. rewrite Hkl. cbn. eexists. split; [done|].
  unfold sort_by_key. rewrite sort_by_perm. clear Hkl Hkey.
  induction Hf as [|x p xs ps Hp _ IH]; simpl; [done|]. by rewrite Hp, IH.
Qed.

Lemma position_elem {A} `{EqDecision A} (x : A) l :
  x ∈ l -> exists i, position x l = Some i /\ l !! i = Some x.
Proof.
  intros Hx. destruct (list_find_elem_of (x =.) l x Hx eq_refl) as [[i y] Hi].
  unfold position. rewrite Hi. apply list_find_Some in Hi as (Hi & -> & _). by exists i.
Qed.

Lemma position_None {A} `{EqDecision A} (x : A) l : position x l = None <-> x ∉ l.
Proof.
  unfold position. rewrite fmap_None, list_find_None, Forall_forall. split.
  - intros Hn Hin. by eapply Hn.
  - intros Hn y Hy <-. done.
Qed.

(** ** Maps collected from lists *)

Lemma lookup_collect_index {A} `{Countable A} (l : list A) x i :
  NoDup l -> collect_map (imap (fun ix y => (y, ix)) l) !! x = Some i <-> l !! i = Some x.
Proof.
  intros Hnd. unfold collect_map. rewrite <- elem_of_list_to_map.
  - rewrite elem_of_reverse, elem_of_lookup_imap. split.
    + intros (i' & y & [= -> ->] & Hy). done.
    + intros Hi. by exists i, x.
  - rewrite fmap_reverse, reverse_Permutation.
    replace ((imap (fun ix y => (y, ix)) l).*1) with l; [done|].
    rewrite fmap_imap. clear. symmetry.
    transitivity (imap (fun _ y => id y) l); [by apply imap_ext|].
    by rewrite (imap_const id), list_fmap_id.
Qed.

Lemma lookup_collect_map {K V} `{Countable K} (l : list (K * V)) k v :
  NoDup l.*1 -> collect_map l !! k = Some v <-> (k, v) ∈ l.
Proof.
  intros Hnd. unfold collect_map. rewrite <- elem_of_list_to_map; [by rewrite elem_of_reverse|].
  by rewrite fmap_reverse, reverse_Permutation.
Qed.

Lemma concat_Forall2_perm {A} (l l' : list (list A)) :
  Forall2 Permutation l l' -> concat l ≡ₚ concat l'.
Proof. induction 1 as [|x y l l' Hxy _ IH]; simpl; [done|]. by rewrite Hxy, IH. Qed.

Lemma forallb_perm {A} (f : A -> bool) l l' : l ≡ₚ l' -> forallb f l = forallb f l'.
Proof. induction 1; cbn; [done|congruence|by destruct (f x), (f y)|congruence]. Qed.

Lemma filter_concat {A} (P : A -> Prop) `{forall x, Decision (P x)} (l : list (list A)) :
  concat (filter P <$> l) = filter P (concat l).
Proof.
  induction l as [|x r IH]; [done|].
  rewrite fmap_cons. cbn [concat]. by rewrite filter_app, <- IH.
Qed.

Lemma omap_of_fmap {A B C} (f : B -> option C) (g : A -> B) (l : list A) :
  omap f (g <$> l) = omap (fun x => f (g x)) l.
Proof. induction l as [|x r IH]; [done|]. cbn. destruct (f (g x)); [f_equal|]; exact IH. Qed.

Lemma omap_lookup_seq {A} (l : list A) : omap (fun i => l !! i) (seq 0 (length l)) = l.
Proof.
  induction l as [|x r IH]; simpl; [done|].
  f_equal. rewrite <- fmap_S_seq, omap_of_fmap. exact IH.
Qed.

Lemma elem_of_concat {A} (x : A) (ls : list (list A)) :
  x ∈ concat ls <-> exists l, x ∈ l /\ l ∈ ls.
Proof.
  setoid_rewrite list_elem_of_In. rewrite in_concat.
  split; intros (l & ? & ?); by exists l.
Qed.

Section FilterAll.
Context {A : Type} (P : A -> Prop) `{forall x, Decision (P x)}.

Lemma filter_all (l : list A) : (forall x, x ∈ l -> P x) -> filter P l = l.
Proof.
  induction l as [|x r IH]; intros HP; [done|].
  rewrite filter_cons_True by set_solver. f_equal. set_solver.
Qed.

Lemma filter_none (l : list A) : (forall x, x ∈ l -> ~ P x) -> filter P l = [].
Proof.
  induction l as [|x r IH]; intros HP; [done|].
  rewrite filter_cons_False by set_solver. set_solver.
Qed.
End FilterAll.

Lemma foldO_total {A S} (f : S -> A -> outcome S) l s :
  (forall s x, x ∈ l -> exists s', f s x = Done s') -> exists s', foldO f l s = Done s'.
Proof.
  revert s. induction l as [|x r IH]; intros s Hf; cbn; [by eexists|].
  destruct (Hf s x) as (s' & ->); [set_solver|]. cbn. apply IH. set_solver.
Qed.

Lemma mapO_total {A B} (f : A -> outcome B) l :
  (forall x, x ∈ l -> exists y, f x = Done y) -> exists l', mapO f l = Done l'.
Proof.
  intros Hf. destruct (mapO_exists f (fun _ _ => True) l) as (l' & Hl & _); [|by exists l'].
  intros x (y & Hy)%Hf. eauto.
Qed.

Lemma mapO_elem {A B} (f : A -> outcome B) l l' y :
  mapO f l = Done l' -> y ∈ l' -> exists x, x ∈ l /\ f x = Done y.
Proof.
  revert l'. induction l as [|x r IH]; intros l' Hm Hy; cbn in Hm; bind_inv; subst; [set_solver|].
  apply elem_of_cons in Hy as [->|Hy]; [exists x; set_solver|].
  destruct (IH _ Hv0 Hy) as (z & Hz & Hf). exists z. set_solver.
Qed.

(** ** Maps over an initial segment of the naturals *)

Lemma omap_imap_seq {A B} (F : nat -> A -> option B) (l : list A) :
  omap id (imap F l) = omap (fun i => l !! i ≫= F i) (seq 0 (length l)).
Proof.
  revert F. induction l as [|x r IH]; intros F; [done|].
  cbn [imap length seq]. rewrite <- fmap_S_seq. cbn. rewrite omap_of_fmap.
  specialize (IH (fun i => F (S i))). change (imap (F ∘ S) r) with (imap (fun i => F (S i)) r).
  rewrite IH. by destruct (F 0 x).
Qed.

Lemma omap_imap {A B C} (f : B -> option C) (g : nat -> A -> B) (l : list A) :
  omap f (imap g l) = omap (fun i => l !! i ≫= fun x => f (g i x)) (seq 0 (length l)).
Proof.
  rewrite <- (omap_imap_seq (fun i x => f (g i x))). revert g.
  induction l as [|x r IH]; intros g; [done|]. cbn.
  destruct (f (g 0 x)); cbn; [f_equal|]; apply (IH (fun i => g (S i))).
Qed.

Lemma omap_ext_in {A B} (f g : A -> option B) (l : list A) :
  (forall x, x ∈ l -> f x = g x) -> omap f l = omap g l.
Proof.
  induction l as [|x r IH]; intros Hfg; [done|]. cbn. rewrite (Hfg x) by set_solver.
  rewrite IH by set_solver. done.
Qed.

Lemma map_to_list_seq {A} (m : gmap nat A) n :
  (forall i, is_Some (m !! i) -> i < n) ->
  map_to_list m ≡ₚ omap (fun i => (i,.) <$> m !! i) (seq 0 n).
Proof.
  intros Hn. apply NoDup_Permutation.
  - apply NoDup_map_to_list.
  - clear Hn. generalize 0. induction n as [|n IH]; intros k; cbn; [constructor|].
    destruct (m !! k) eqn:E; cbn; [|apply IH]. constructor; [|apply IH].
    intros (i & Hi & Hs)%list_elem_of_omap. apply elem_of_seq in Hi.
    destruct (m !! i); simplify_eq/=. lia.
  - intros [i x]. rewrite elem_of_map_to_list, list_elem_of_omap. split.
    + intros Hx. exists i. rewrite Hx. split; [|done]. apply elem_of_seq.
      pose proof (Hn i ltac:(by eexists)). lia.
    + intros (j & _ & Hj). destruct (m !! j) eqn:E; by simplify_eq/=.
Qed.

(** The values of a map in the order of its keys. *)
Definition sorted_values {A} (m : gmap nat A) : list A :=
  (sort_by_key Nat.leb fst (map_to_list m)).*2.

Lemma imap_pair_sorted {A} (g : nat -> nat) (l : list A) :
  (forall i j, i < j -> g i < g j) ->
  StronglySorted (fun a b => (a.1 <=? b.1)%nat = true) (imap (fun i x => (g i, x)) l).
Proof.
  revert g. induction l as [|x r IH]; intros g Hg; cbn; constructor.
  - apply (IH (fun i => g (S i))). intros i j Hij. apply Hg. lia.
  - apply Forall_forall. intros [k y] (i & z & [= -> ->] & _)%elem_of_lookup_imap.
    apply Nat.leb_le. cbn. pose proof (Hg 0 (S i)). lia.
Qed.

Lemma sorted_values_lookup {A} (m : gmap nat A) (l : list A) :
  (forall i, m !! i = l !! i) -> sorted_values m = l.
Proof.
  intros Hl. unfold sorted_values.
  assert (forall a, a ∈ sort_by_key Nat.leb fst (map_to_list m) <-> l !! a.1 = Some a.2) as Hm.
  { intros [i x]. unfold sort_by_key. by rewrite elem_of_sort_by, elem_of_map_to_list, Hl. }
  assert (forall a, a ∈ imap pair l <-> l !! a.1 = Some a.2) as Hp.
  { intros [i x]. rewrite elem_of_lookup_imap. split; [by intros (? & ? & [= -> ->] & ?)|eauto]. }
  assert (sort_by_key Nat.leb fst (map_to_list m) = imap pair l) as ->.
  { apply (StronglySorted_unique_strong (fun a b => (a.1 <=? b.1)%nat = true)).
    - intros [i x] [j y] Hx%Hm Hy%Hp Hij%Nat.leb_le Hji%Nat.leb_le. cbn in *.
      assert (i = j) as -> by lia. by simplify_eq.
    - apply sort_by_sorted; intros; rewrite ?Nat.leb_le, ?Nat.leb_gt in *; lia.
    - apply (imap_pair_sorted id). auto.
    - apply NoDup_Permutation; [| |intros a; by rewrite Hm, Hp].
      + unfold sort_by_key. rewrite NoDup_sort_by. apply NoDup_map_to_list.
      + apply NoDup_alt. intros i j x Hi Hj. rewrite !list_lookup_imap in *.
        destruct (l !! i), (l !! j); by simplify_eq/=. }
  rewrite fmap_imap. transitivity (imap (fun _ => @id A) l); [by apply imap_ext|].
  by rewrite (imap_const id), list_fmap_id.
Qed.

(** A map on the indexes below [n] is a list. *)
Lemma dense_map_list {A} (m : gmap nat A) n :
  (forall i, is_Some (m !! i) <-> i < n) -> exists l, length l = n /\ forall i, m !! i = l !! i.
Proof.
  revert m. induction n as [|n IH]; intros m Hm.
  - exists []. split; [done|]. intros i. cbn. apply eq_None_not_Some. rewrite Hm. lia.
  - destruct (proj2 (Hm n) ltac:(lia)) as [x Hx].
    destruct (IH (delete n m)) as (l & Hlen & Hl).
    { intros i. destruct (decide (i = n)) as [->|Hne].
      - rewrite lookup_delete_eq, is_Some_alt. lia.
      - rewrite lookup_delete_ne, Hm by done. lia. }
    exists (l ++ [x]). rewrite length_app, Hlen. split; [cbn; lia|]. intros i.
    destruct (decide (i = n)) as [->|Hne].
    + rewrite lookup_app_r, Hlen, Nat.sub_diag by lia. done.
    + rewrite <- (lookup_delete_ne m n i), Hl by done.
      destruct (decide (i < n)); [rewrite lookup_app_l by lia; done|].
      rewrite !lookup_ge_None_2; rewrite ?length_app; cbn; auto; lia.
Qed.
