(* ===== verification/Algebra.v ===== *)
(** * Partial semigroups and contributions

    Model of [algebra-core/src] and of the [Contributions] of
    [spectrum-sigma/src/lib.rs]: the traits an aggregated value implements,
    as classes with their laws, and the map of per-peer contributions that
    implements them. *)

From S2P Require Import Prelude.

(** ** [combinators.rs] *)

Inductive EitherOrBoth (A B : Type) : Type :=
| ELeft (a : A)
| ERight (b : B)
| EBoth (a : A) (b : B).

Arguments ELeft {A B} a.
Arguments ERight {A B} b.
Arguments EBoth {A B} a b.

Module Either.
Section Ops.
Context {A B : Type}.

Definition swap (e : EitherOrBoth A B) : EitherOrBoth B A :=
  match e with
  | ELeft o1 => ERight o1
  | ERight o2 => ELeft o2
  | EBoth o1 o2 => EBoth o2 o1
  end.

Definition left (e : EitherOrBoth A B) : option A :=
  match e with ELeft l | EBoth l _ => Some l | _ => None end.

Definition right (e : EitherOrBoth A B) : option B :=
  match e with ERight r | EBoth _ r => Some r | _ => None end.

Definition both (e : EitherOrBoth A B) : option (A * B) :=
  match e with EBoth a b => Some (a, b) | _ => None end.

Definition collect (iso_into : A -> B) (e : EitherOrBoth A B) : list B :=
  match e with
  | ELeft a => [iso_into a]
  | ERight b => [b]
  | EBoth a b => [iso_into a; b]
  end.

Definition either_try_from (pair : option A * option B) : option (EitherOrBoth A B) :=
  match pair with
  | (Some l, Some r) => Some (EBoth l r)
  | (Some l, None) => Some (ELeft l)
  | (None, Some r) => Some (ERight r)
  | (None, None) => None
  end.
End Ops.
End Either.

(** ** The traits of aggregated values *)

(** [CommutativePartialSemigroup] *)
Class PartialSemigroup (A : Type) := try_combine : A -> A -> option A.

(** [Weighted] *)
Class Weighted (A : Type) := weight : A -> nat.

(** [VerifiableAgainst<P>] *)
Class VerifiableAgainst (P A : Type) := verify : A -> P -> bool.

Class PartialSemigroupLaws (A : Type) `{PartialSemigroup A} : Prop := {
  try_combine_comm a b : try_combine a b = try_combine b a;
  try_combine_assoc a b c :
    try_combine a b ≫= (fun ab => try_combine ab c) =
    try_combine b c ≫= (fun bc => try_combine a bc);
  try_combine_idem a : try_combine a a = Some a;
}.

(** A combination weighs at least as much as its parts, and at most as much
    as their sum. *)
Class WeightedLaws (A : Type) `{PartialSemigroup A, Weighted A} : Prop := {
  weight_combine_l a b c : try_combine a b = Some c -> weight a <= weight c;
  weight_combine_sum a b c : try_combine a b = Some c -> weight c <= weight a + weight b;
}.

(** A combination is verified exactly when both parts are. *)
Class VerifiableLaws (P A : Type) `{PartialSemigroup A, VerifiableAgainst P A} : Prop :=
  verify_combine a b c p : try_combine a b = Some c -> verify c p = verify a p && verify b p.

(** ** [Threshold] *)

Record Threshold := { num : Z; denom : Z }.

(** [Threshold::min]: [n * num / denom] on [usize]. *)
Definition threshold_min (t : Threshold) (n : Z) : outcome Z :=
  x ← checked 0 u64_max (n * num t);
  if (denom t =? 0)%Z then Panic else Done (x / denom t)%Z.

(** ** [Contributions] *)

Section Contributions.
Context {V : Type} `{EqDecision V}.

Definition contributions_unit (peer : nat) (v : V) : gmap nat V := {[ peer := v ]}.

Definition contributions_entries (m : gmap nat V) : list (nat * V) := map_to_list m.

Definition contributions_values (m : gmap nat V) : list V := (map_to_list m).*2.

(** The loop over the entries of [that], with its early return. *)
Fixpoint combine_entries (bf : gmap nat V) (l : list (nat * V)) : option (gmap nat V) :=
  match l with
  | [] => Some bf
  | (k, v) :: l =>
    match bf !! k with
    | Some v0 => if decide (v = v0) then combine_entries bf l else None
    | None => combine_entries (<[k := v]> bf) l
    end
  end.

#[export] Instance contributions_combine : PartialSemigroup (gmap nat V) :=
  fun a b => combine_entries a (map_to_list b).

#[export] Instance contributions_weight : Weighted (gmap nat V) := size.

(** No peer is bound to two values. *)
Definition agree (a b : gmap nat V) : Prop :=
  forall k v w, a !! k = Some v -> b !! k = Some w -> v = w.

Lemma union_insert_known (bf m : gmap nat V) k v :
  bf !! k = Some v -> bf ∪ <[k := v]> m = bf ∪ m.
Proof.
  intros Hk. apply map_eq. intros j. rewrite !lookup_union.
  destruct (decide (j = k)) as [->|Hne]; [|by rewrite lookup_insert_ne].
  rewrite Hk, lookup_insert_eq. by destruct (m !! k).
Qed.

Lemma combine_entries_spec bf l :
  NoDup l.*1 ->
  combine_entries bf l = Some (bf ∪ list_to_map l) /\ agree bf (list_to_map l) \/
  combine_entries bf l = None /\ ~ agree bf (list_to_map l).
Proof.
  revert bf. induction l as [|[k v] l IH]; intros bf Hnd.
  - left. cbn. rewrite map_union_empty. split; [done|]. intros k v w _ Hw. by rewrite lookup_empty in Hw.
  - cbn in Hnd. apply NoDup_cons in Hnd as [Hk Hnd].
    assert ((list_to_map l : gmap nat V) !! k = None) as Hlk by by apply not_elem_of_list_to_map.
    cbn. destruct (bf !! k) as [v0|] eqn:Hbk; [case_decide as Hv|].
    + subst v0. destruct (IH bf Hnd) as [[-> Ha]|[-> Ha]]; [left|right]; split; try done.
      * by rewrite union_insert_known.
      * intros j x y Hx Hy. destruct (decide (j = k)) as [->|Hne].
        -- rewrite lookup_insert_eq in Hy. congruence.
        -- rewrite lookup_insert_ne in Hy by done. eauto.
      * intros Ha'. apply Ha. intros j x y Hx Hy. apply (Ha' j); [done|].
        rewrite lookup_insert_ne; [done|congruence].
    + right. split; [done|]. intros Ha. apply Hv. symmetry.
      apply (Ha k); [done|]. by rewrite lookup_insert_eq.
    + destruct (IH (<[k := v]> bf) Hnd) as [[-> Ha]|[-> Ha]]; [left|right]; split; try done.
      * by rewrite <- insert_union_l, <- insert_union_r.
      * intros j x y Hx Hy. destruct (decide (j = k)) as [->|Hne]; [congruence|].
        rewrite lookup_insert_ne in Hy by done. apply (Ha j); [|done]. by rewrite lookup_insert_ne.
      * intros Ha'. apply Ha. intros j x y Hx Hy. destruct (decide (j = k)) as [->|Hne]; [congruence|].
        rewrite lookup_insert_ne in Hx by done. apply (Ha' j); [done|]. by rewrite lookup_insert_ne.
Qed.

Lemma try_combine_spec a b :
  try_combine a b = Some (a ∪ b) /\ agree a b \/ try_combine a b = None /\ ~ agree a b.
Proof.
  pose proof (combine_entries_spec a (map_to_list b) (NoDup_fst_map_to_list b)) as Hs.
  by rewrite list_to_map_to_list in Hs.
Qed.

Lemma try_combine_Some a b c : try_combine a b = Some c <-> agree a b /\ c = a ∪ b.
Proof.
  destruct (try_combine_spec a b) as [[-> Ha]|[-> Ha]].
  - split; [by intros [= <-]|by intros [_ ->]].
  - split; [done|by intros [Hb _]].
Qed.

Lemma try_combine_agree a b : agree a b -> try_combine a b = Some (a ∪ b).
Proof. intros. by apply try_combine_Some. Qed.

Lemma try_combine_conflict a b : ~ agree a b -> try_combine a b = None.
Proof. by destruct (try_combine_spec a b) as [[-> ?]|[-> ?]]. Qed.

Lemma agree_sym a b : agree a b -> agree b a.
Proof. intros Ha k v w Hv Hw. symmetry. by apply (Ha k). Qed.

Lemma agree_union_comm a b : agree a b -> a ∪ b = b ∪ a.
Proof.
  intros Ha. apply map_eq. intros k. rewrite !lookup_union.
  destruct (a !! k) as [v|] eqn:Hv, (b !! k) as [w|] eqn:Hw; cbn; try done.
  f_equal. by apply (Ha k).
Qed.

Lemma agree_union_l a b c : agree a b -> agree (a ∪ b) c <-> agree a c /\ agree b c.
Proof.
  intros Hab. split.
  - intros Hc. split; intros k v w Hv Hw; apply (Hc k); try done.
    + by apply lookup_union_Some_l.
    + rewrite agree_union_comm by done. by apply lookup_union_Some_l.
  - intros [Ha Hb] k v w [Hv|[_ Hv]]%lookup_union_Some_raw Hw; eauto.
Qed.

#[export] Instance contributions_laws : PartialSemigroupLaws (gmap nat V).
Proof.
  split.
  - intros a b. destruct (try_combine_spec a b) as [[-> Ha]|[-> Ha]].
    + rewrite try_combine_agree by by apply agree_sym. by rewrite agree_union_comm.
    + rewrite try_combine_conflict; [done|]. intros Hb. by apply Ha, agree_sym.
  - intros a b c. apply option_eq. intros d. rewrite !bind_Some.
    setoid_rewrite try_combine_Some. split.
    + intros (? & (Hab & ->) & Hc & ->). apply agree_union_l in Hc as [Hac Hbc]; [|done].
      exists (b ∪ c). split_and!; try done; [|by rewrite map_union_assoc].
      apply agree_sym, agree_union_l; [done|]. split; by apply agree_sym.
    + intros (? & (Hbc & ->) & Ha & ->). apply agree_sym, agree_union_l in Ha as [Hba Hca]; [|done].
      exists (a ∪ b). split_and!; try done; [by apply agree_sym| |by rewrite map_union_assoc].
      apply agree_union_l; [by apply agree_sym|]. split; [by apply agree_sym|done].
  - intros a. apply try_combine_Some. split; [|by rewrite map_union_idemp].
    intros k v w Hv Hw. congruence.
Qed.

#[export] Instance contributions_weight_laws : WeightedLaws (gmap nat V).
Proof.
  split; intros a b c [_ ->]%try_combine_Some; unfold weight, contributions_weight;
    rewrite <- !size_dom.
  - apply subseteq_size. rewrite dom_union. set_solver.
  - rewrite dom_union, size_union_alt. 
    assert (size (dom b ∖ dom a) <= size (dom b)) by (apply subseteq_size; set_solver). lia.
Qed.

(** Entry-wise checks, as the verifiers of contributions are written. *)
Definition verify_entries (check : nat -> V -> bool) (m : gmap nat V) : bool :=
  forallb (fun '(k, v) => check k v) (map_to_list m).

Lemma verify_entries_true check m :
  verify_entries check m = true <-> map_Forall (fun k v => check k v = true) m.
Proof.
  unfold verify_entries. rewrite forallb_forall, map_Forall_to_list, Forall_forall.
  setoid_rewrite list_elem_of_In. split; intros Hm [k v] Hin; by apply (Hm (k, v)).
Qed.

Lemma verify_entries_union check a b :
  agree a b -> verify_entries check (a ∪ b) = verify_entries check a && verify_entries check b.
Proof.
  intros Ha. apply eq_true_iff_eq. rewrite andb_true_iff, !verify_entries_true. split.
  - intros Hu. split; intros k v Hk; apply Hu.
    + by apply lookup_union_Some_l.
    + rewrite agree_union_comm by done. by apply lookup_union_Some_l.
  - intros [Hma Hmb] k v [Hk|[_ Hk]]%lookup_union_Some_raw; eauto.
Qed.
End Contributions.

(** ** Correctness *)

(** Combining contributions is a commutative, associative and idempotent
    partial operation: it returns the union when no peer is bound to two
    different values, and nothing otherwise. *)
Theorem contributions_semigroup {V} `{EqDecision V} (a b c : gmap nat V) :
  (try_combine a b = Some c <-> agree a b /\ c = a ∪ b) /\
  try_combine a b = try_combine b a /\
  try_combine a b ≫= (fun ab => try_combine ab c) =
  try_combine b c ≫= (fun bc => try_combine a bc) /\
  try_combine a a = Some a.
Proof.
  split_and!.
  - apply try_combine_Some.
  - apply try_combine_comm.
  - apply try_combine_assoc.
  - apply try_combine_idem.
Qed.

(** The optional pair and [EitherOrBoth] carry the same information, and
    swapping exchanges the components. *)
Theorem either_or_both_roundtrip {A B} (e : EitherOrBoth A B) :
  Either.either_try_from (Either.left e, Either.right e) = Some e /\
  Either.swap (Either.swap e) = e /\
  Either.left (Either.swap e) = Either.right e /\
  (Either.both e = None <-> Either.left e = None \/ Either.right e = None).
Proof. destruct e; split_and!; try done; cbn; naive_solver. Qed.
