(* ===== verification/Crypto.v ===== *)
(** * Digests, scalars and points

    The interface of the primitives the signature schemes are built from.
    Hash functions, the curve arithmetic of [elliptic_curve] and ECDSA are
    third-party code: [Hasher], [Curve] and [Ecdsa] name their operations,
    [CurveLaws] and [EcdsaLaws] state what is documented of them.  The
    helpers of [spectrum-vrf/src/utils.rs] and [spectrum-crypto/src/digest.rs]
    are translated on top. *)

From Stdlib Require Export Ring.
From S2P Require Import Prelude.

(** ** Interfaces *)

Abbreviation bytes := (list Z) (only parsing).

(** One run of a hasher: [new], a sequence of [update]s, [finalize]. *)
Class Hasher := hf : bytes -> bytes.

Class Curve := {
  Scalar : Type;
  Point : Type;
  scalar_eq_dec :: EqDecision Scalar;
  point_eq_dec :: EqDecision Point;
  s0 : Scalar;
  s1 : Scalar;
  sadd : Scalar -> Scalar -> Scalar;
  smul : Scalar -> Scalar -> Scalar;
  ssub : Scalar -> Scalar -> Scalar;
  sopp : Scalar -> Scalar;
  identity : Point;
  generator : Point;
  padd : Point -> Point -> Point;
  psub : Point -> Point -> Point;
  pmul : Point -> Scalar -> Point;
  (** [ScalarPrimitive::from_bytes]: fails on values not below the order. *)
  scalar_from_bytes : bytes -> option Scalar;
  scalar_to_bytes : Scalar -> bytes;
  (** [to_sec1_bytes] of a point other than the identity. *)
  sec1_bytes : Point -> bytes;
}.

Declare Scope crypto_scope.
Delimit Scope crypto_scope with crypto.
Infix "+s" := sadd (at level 50, left associativity) : crypto_scope.
Infix "-s" := ssub (at level 50, left associativity) : crypto_scope.
Infix "*s" := smul (at level 40, left associativity) : crypto_scope.
Infix "+p" := padd (at level 50, left associativity) : crypto_scope.
Infix "-p" := psub (at level 50, left associativity) : crypto_scope.
Infix "*p" := pmul (at level 40, left associativity) : crypto_scope.
Open Scope crypto_scope.

(** The scalars are a commutative ring, the points a module over it, and no
    non-zero multiple of the generator is the identity. *)
Class CurveLaws (C : Curve) : Prop := {
  scalar_ring : ring_theory s0 s1 sadd smul ssub sopp eq;
  padd_comm p q : p +p q = q +p p;
  padd_assoc p q r : p +p (q +p r) = p +p q +p r;
  padd_identity p : p +p identity = p;
  psub_cancel p q : p +p q -p q = p;
  pmul_padd p q s : (p +p q) *p s = p *p s +p q *p s;
  pmul_sadd p s t : p *p (s +s t) = p *p s +p p *p t;
  pmul_smul p s t : p *p (s *s t) = p *p s *p t;
  pmul_s0 p : p *p s0 = identity;
  pmul_s1 p : p *p s1 = p;
  generator_order s : s <> s0 -> generator *p s <> identity;
}.

Class Ecdsa `{C : Curve} := {
  Signature : Type;
  ecdsa_sign : Scalar -> bytes -> Signature;
  ecdsa_verify : Point -> bytes -> Signature -> bool;
}.

(** A signature verifies under the public key of its signing key. *)
Class EcdsaLaws `{E : Ecdsa} : Prop :=
  ecdsa_correct sk m : ecdsa_verify (generator *p sk) m (ecdsa_sign sk m) = true.

(** ** Keys and digests *)

Section Helpers.
Context `{H : Hasher, C : Curve}.

(** [hash::<H>] and the digests it returns. *)
Definition hash (b : bytes) : bytes := hf b.

(** [SecretKey::from_slice]: a canonical non-zero scalar. *)
Definition secret_key_from_slice (b : bytes) : option Scalar :=
  s ← scalar_from_bytes b; if decide (s = s0) then None else Some s.

Definition public_key_from_secret (sk : Scalar) : Point := generator *p sk.

Definition key_pair_gen (seed : bytes) : outcome (Scalar * Point) :=
  sk ← unwrap (secret_key_from_slice seed);
  Done (sk, public_key_from_secret sk).

Definition projective_point_to_bytes (p : Point) : outcome bytes :=
  if decide (p = identity) then Panic else Done (sec1_bytes p).

Definition hash_to_projective_point (h : bytes) : outcome Point :=
  scalar ← unwrap (scalar_from_bytes h);
  if decide (scalar = s0) then Panic else Done (generator *p scalar).

Definition hash_to_public_key (h : bytes) : outcome Point :=
  scalar ← unwrap (scalar_from_bytes h);
  if decide (scalar = s0) then Panic else Done (public_key_from_secret scalar).
End Helpers.

(** ** Consequences of the laws *)

Section Laws.
Context `{C : Curve, L : !CurveLaws C} `{H : Hasher}.

Add Ring scalar_ring_inst : scalar_ring.

Lemma identity_padd p : identity +p p = p.
Proof. by rewrite padd_comm, padd_identity. Qed.

Lemma padd_swap p q r : p +p (q +p r) = q +p (p +p r).
Proof. by rewrite !padd_assoc, (padd_comm p q). Qed.

Lemma padd_cancel_r p q r : p +p r = q +p r -> p = q.
Proof. intros E. by rewrite <- (psub_cancel p r), E, psub_cancel. Qed.

Lemma identity_pmul s : identity *p s = identity.
Proof.
  apply (padd_cancel_r _ _ (identity *p s)).
  by rewrite <- pmul_padd, padd_identity, identity_padd.
Qed.

Lemma pmul_comm p s t : p *p s *p t = p *p t *p s.
Proof. rewrite <- !pmul_smul. f_equal. ring. Qed.

Lemma key_pair_gen_Done seed sk pk :
  key_pair_gen seed = Done (sk, pk) -> sk <> s0 /\ pk = generator *p sk.
Proof.
  unfold key_pair_gen, secret_key_from_slice. intros Hk. bind_inv. simplify_eq.
  destruct (scalar_from_bytes seed) as [s|]; [|done]. cbn in Hv.
  by case_decide; simplify_eq.
Qed.

Lemma key_pair_gen_point seed sk pk :
  key_pair_gen seed = Done (sk, pk) -> pk <> identity.
Proof. intros [Hsk ->]%key_pair_gen_Done. by apply generator_order. Qed.

Lemma hash_to_public_key_point h pk : hash_to_public_key h = Done pk -> pk <> identity.
Proof.
  unfold hash_to_public_key. intros Hk. bind_inv. case_decide; [done|]. bind_inv. subst.
  by apply generator_order.
Qed.

Lemma point_bytes_Done p : p <> identity -> projective_point_to_bytes p = Done (sec1_bytes p).
Proof. intros. unfold projective_point_to_bytes. by rewrite decide_False. Qed.
End Laws.

(** ** A small instance, for evaluation *)

Module IntCurve.
Definition toy_hash (b : bytes) : bytes :=
  [foldl (fun acc x => (acc * 31 + x + 7) mod 65521)%Z 1%Z b].

#[export] Instance toy_hasher : Hasher := toy_hash.

#[export] Instance int_curve : Curve := {|
  Scalar := Z; Point := Z;
  s0 := 0%Z; s1 := 1%Z; sadd := Z.add; smul := Z.mul; ssub := Z.sub; sopp := Z.opp;
  identity := 0%Z; generator := 1%Z;
  padd := Z.add; psub := Z.sub; pmul := Z.mul;
  scalar_from_bytes := fun b => Some (be_value b + 1)%Z;
  scalar_to_bytes := fun s => [s];
  sec1_bytes := fun p => [p];
|}.

#[export] Instance int_curve_laws : CurveLaws int_curve.
Proof.
  split; simpl; try lia. split; simpl; lia.
Qed.

#[export] Instance int_ecdsa : Ecdsa := {|
  Signature := (Z * bytes);
  ecdsa_sign := fun sk m => (sk, m);
  ecdsa_verify := fun pk m s => bool_decide (s = (pk, m));
|}.

#[export] Instance int_ecdsa_laws : EcdsaLaws.
Proof. intros sk m. apply bool_decide_eq_true. f_equal. simpl. lia. Qed.
End IntCurve.
