(* ===== verification/Partitioning.v ===== *)
(** * Binomial partitioning of the Handel peer set

    Model of [spectrum-handel/src/partitioning.rs]: the index space of the
    peers, the binomial split of that space relative to one peer
    ([bin_partition]), the rounding of the number of peers to a power of two
    ([normalize]), the orderings by verification priority and the table
    [BinomialPeerPartitions] the protocol queries. *)

From S2P Require Import Prelude.

(** ** The index space *)

(** [PeerIx(usize)]: indices of a vector that exists in memory. *)
Abbreviation PeerIx := nat (only parsing).

Inductive PeerOrd : Set := VP | CVP.

(** The loop of [bin_partition]: one iteration splits [min..=max] at its
    middle and pushes the half that does not hold [own_index]. *)
Fixpoint bin_partition_loop (fuel own_index min max : nat)
    (partitions : list (list PeerIx)) : outcome (list (list PeerIx)) :=
  match fuel with
  | 0 => NoFuel
  | S fuel =>
    if (max <? min)%nat then Panic else
    let mid := min + (max - min) / 2 in
    let '(partitions, min, max) :=
      if (mid <? own_index)%nat
      then (partitions ++ [seq min (mid + 1 - min)], mid + 1, max)
      else (partitions ++ [seq (mid + 1) (max + 1 - (mid + 1))], min, mid) in
    if (min =? max)%nat then Done partitions
    else bin_partition_loop fuel own_index min max partitions
  end.

Definition bin_partition (own_index num_nodes : nat) : outcome (list (list PeerIx)) :=
  if (num_nodes =? 0)%nat then Panic else
  partitions ← bin_partition_loop (S num_nodes) own_index 0 (num_nodes - 1) [];
  Done (reverse (partitions ++ [[]])).

(** [normalize] on [u32]: [2u32.pow(32)] overflows. *)
Fixpoint normalize_loop (fuel : nat) (power n : Z) : outcome Z :=
  match fuel with
  | 0%nat => NoFuel
  | S fuel =>
    p ← checked 0 u32_max (2 ^ power)%Z;
    if (n <=? p)%Z then Done p else normalize_loop fuel (power + 1)%Z n
  end.

Definition normalize (n : Z) : outcome Z := normalize_loop 33 0 n.

(** ** Permutations of the peers *)

(** [GenPermutation]: the seeded priorities, [u128] values. *)
Class GenPermutation (Rng PeerId : Type) := {
  gen_priority : Rng -> PeerId -> Z;
  gen_vp : Rng -> PeerIx -> PeerIx -> Z;
}.

(** [hash256_to_u128]: the digest is 32 bytes long, so both slices exist and
    the sixteen xored bytes fit the array. *)
Definition hash256_to_u128 (hash : list Z) : Z :=
  be_value (zip_with Z.lxor (take 16 hash) (drop 16 hash)).

Section PseudoRandom.
Context {PeerId : Type} (sha256 : list Z -> list Z) (to_bytes : PeerId -> list Z).

Record PseudoRandomGenPerm := { seed : list Z }.

Definition prgp_gen_priority (r : PseudoRandomGenPerm) (peer_id : PeerId) : Z :=
  hash256_to_u128 (sha256 (seed r ++ to_bytes peer_id)).

Definition prgp_gen_vp (r : PseudoRandomGenPerm) (host_peer_ix peer_ix : PeerIx) : Z :=
  hash256_to_u128
    (sha256 (seed r ++ be_bytes 8 (Z.of_nat host_peer_ix) ++ be_bytes 8 (Z.of_nat peer_ix))).
End PseudoRandom.

(** ** The partition table *)

Section Table.
Context {PeerId Multiaddr Rng : Type} `{EqDecision PeerId, Countable PeerId}.
Context `{!GenPermutation Rng PeerId}.

Record BinomialPeerPartitions := {
  peers : list PeerId;
  peer_index : gmap PeerId PeerIx;
  partitions_by_vp : list (list PeerIx);
  partitions_by_cvp : list (list PeerIx);
  addr_book : gmap PeerId Multiaddr;
  rng : Rng;
}.

Definition ordered_by_vp (rng : Rng) (partitions : list (list PeerIx))
    (host_peer_ix : PeerIx) : list (list PeerIx) :=
  (fun pt => sort_by_key Z.leb (gen_vp rng host_peer_ix) pt) <$> partitions.

(** The peer's own view of level [l], where the host's place is looked up. *)
Definition cvp_key (rng : Rng) (host_peer_ix : PeerIx) (num_nodes l : nat)
    (pix : PeerIx) : outcome nat :=
  pts ← bin_partition pix num_nodes;
  pt ← unwrap (pts !! l);
  unwrap (position host_peer_ix (sort_by_key Z.leb (gen_vp rng pix) pt)).

Definition ordered_by_cvp (rng : Rng) (partitions : list (list PeerIx))
    (host_peer_ix : PeerIx) (num_nodes : nat) : outcome (list (list PeerIx)) :=
  mapO (fun '(l, pt) => sort_by_keyO Nat.leb (cvp_key rng host_peer_ix num_nodes l) pt)
    (imap pair partitions).

(** [new]: [random_peers n] stands for [n] calls of [PeerId::random],
    collected into a set and listed in the set's order. *)
Definition new (random_peers : nat -> list PeerId) (host_peer_id : PeerId)
    (ps : list (PeerId * option Multiaddr)) (rng : Rng) : outcome BinomialPeerPartitions :=
  num_real_peers ← checked 0 u32_max (Z.of_nat (length ps));
  normalized_num_peers ← normalize num_real_peers;
  num_fake_peers ← checked 0 u32_max (normalized_num_peers - num_real_peers)%Z;
  let fake_peers := random_peers (Z.to_nat num_fake_peers) in
  let all_peers := sort_by_key Z.leb (gen_priority rng) (ps.*1 ++ fake_peers) in
  let total_index := collect_map (imap (fun ix pid => (pid, ix)) all_peers) in
  host_peer_ix ← unwrap (position host_peer_id all_peers);
  let num_nodes := length all_peers in
  partitions ← bin_partition host_peer_ix num_nodes;
  cleared_partitions ← mapO (filterO (fun pix =>
      pid ← unwrap (all_peers !! pix); Done (negb (bool_decide (pid ∈ fake_peers))))) partitions;
  by_cvp ← ordered_by_cvp rng cleared_partitions host_peer_ix num_nodes;
  Done {|
    peers := all_peers;
    peer_index := total_index;
    partitions_by_vp := ordered_by_vp rng cleared_partitions host_peer_ix;
    partitions_by_cvp := by_cvp;
    addr_book := collect_map (omap (fun '(pid, maybe_addr) => (pair pid) <$> maybe_addr) ps);
    rng := rng;
  |}.

Definition peers_at_level (t : BinomialPeerPartitions) (level : nat) (ord : PeerOrd)
    : outcome (list PeerIx) :=
  match ord with
  | VP => unwrap (partitions_by_vp t !! level)
  | CVP => unwrap (partitions_by_cvp t !! level)
  end.

Definition identify_peer (t : BinomialPeerPartitions) (peer_ix : PeerIx) : outcome PeerId :=
  unwrap (peers t !! peer_ix).

Definition try_index_peer (t : BinomialPeerPartitions) (peer_id : PeerId) : option PeerIx :=
  peer_index t !! peer_id.

Definition addr_hint (t : BinomialPeerPartitions) (peer_id : PeerId) : option Multiaddr :=
  addr_book t !! peer_id.

Definition num_levels (t : BinomialPeerPartitions) : nat := length (partitions_by_vp t).
End Table.

Arguments BinomialPeerPartitions PeerId Multiaddr Rng {_ _}.

(** ** Level [l] of a peer is the sibling of its block of width [2^(l-1)] *)

Definition sibling (b : nat) : nat := if Nat.even b then b + 1 else b - 1.

Definition sibling_block (own l : nat) : list PeerIx :=
  let w := 2 ^ (l - 1) in seq (w * sibling (own / w)) w.

(** The levels of [own] among [2^k] peers, as the split is meant to be. *)
Definition levels_of (k own : nat) : list (list PeerIx) :=
  [] :: (sibling_block own <$> seq 1 k).

Lemma pow2_pos k : 0 < 2 ^ k.
Proof. induction k; simpl; lia. Qed.

Lemma div_pow2_succ own m : own / 2 ^ S m = own / 2 ^ m / 2.
Proof.
  rewrite Nat.pow_succ_r', Nat.mul_comm, Nat.Div0.div_div. done.
Qed.

Lemma div_pow2_split own m :
  2 ^ m * (own / 2 ^ m) <= own < 2 ^ m * (own / 2 ^ m) + 2 ^ m.
Proof.
  pose proof (pow2_pos m). pose proof (Nat.div_mod_eq own (2 ^ m)).
  pose proof (Nat.mod_upper_bound own (2 ^ m)). lia.
Qed.

Lemma half_parity b : b = 2 * (b / 2) + (if Nat.even b then 0 else 1).
Proof.
  pose proof (Nat.div_mod_eq b 2). rewrite <- Nat.bit0_mod in H.
  unfold Nat.even. rewrite Nat.bit0_odd in H. unfold Nat.odd in H.
  destruct (Nat.even b) eqn:E; unfold Nat.even in E; rewrite E in *; simpl in *; lia.
Qed.

(** One iteration on the block of width [2^(m+1)] around [own]: it pushes the
    sibling of the half that holds [own] and keeps that half. *)
Lemma bin_partition_loop_step fuel own m acc :
  let w := 2 ^ S m in
  bin_partition_loop (S fuel) own (w * (own / w)) (w * (own / w) + w - 1) acc =
  let w' := 2 ^ m in
  let acc' := acc ++ [sibling_block own (S m)] in
  if (m =? 0)%nat then Done acc' else
  bin_partition_loop fuel own (w' * (own / w')) (w' * (own / w') + w' - 1) acc'.
Proof.
  cbv zeta. rewrite div_pow2_succ, Nat.pow_succ_r'.
  unfold sibling_block. rewrite (Nat.sub_succ m 0), Nat.sub_0_r.
  pose proof (pow2_pos m). pose proof (div_pow2_split own m) as Hown.
  pose proof (half_parity (own / 2 ^ m)) as Hpar.
  assert (2 ^ m = 1 <-> m = 0) as Hm0.
  { split; [|by intros ->]. destruct m as [|m']; [done|].
    pose proof (pow2_pos m'). simpl. lia. }
  revert H Hown Hpar Hm0. generalize (own / 2 ^ m) as b. generalize (2 ^ m) as w.
  intros w b Hw Hown Hpar Hm0. set (c := b / 2) in *. clearbody c.
  assert ((2 * w * c + 2 * w - 1 - 2 * w * c) / 2 = w - 1) as Hmid.
  { replace (2 * w * c + 2 * w - 1 - 2 * w * c) with ((w - 1) * 2 + 1) by lia.
    rewrite Nat.div_add_l by lia. simpl. lia. }
  cbn [bin_partition_loop]. unfold sibling.
  rewrite Hmid. rewrite (proj2 (Nat.ltb_ge _ _)) by lia.
  destruct (Nat.even b).
  -
    assert (2 * w * c = w * b) as -> by (subst b; lia).
    rewrite (proj2 (Nat.ltb_ge _ _)) by lia.
    replace (w * b + (w - 1) + 1) with (w * (b + 1)) by lia.
    replace (w * b + 2 * w - 1 + 1 - w * (b + 1)) with w by lia.
    replace (w * b + (w - 1)) with (w * b + w - 1) by lia.
    destruct (Nat.eqb_spec m 0), (Nat.eqb_spec (w * b) (w * b + w - 1)); try done; lia.
  - assert (w * b = 2 * w * c + w) by (subst b; lia).
    rewrite (proj2 (Nat.ltb_lt _ _)) by lia.
    replace (2 * w * c + (w - 1) + 1 - 2 * w * c) with w by lia.
    replace (w * (b - 1)) with (2 * w * c) by (subst b; lia).
    replace (2 * w * c + (w - 1) + 1) with (w * b) by lia.
    replace (2 * w * c + 2 * w - 1) with (w * b + w - 1) by lia.
    destruct (Nat.eqb_spec m 0), (Nat.eqb_spec (w * b) (w * b + w - 1)); try done; lia.
Qed.

Lemma bin_partition_loop_blocks m fuel own acc :
  m <> 0 -> m <= fuel ->
  bin_partition_loop fuel own (2 ^ m * (own / 2 ^ m)) (2 ^ m * (own / 2 ^ m) + 2 ^ m - 1) acc =
  Done (acc ++ (sibling_block own <$> reverse (seq 1 m))).
Proof.
  revert fuel acc. induction m as [|m IH]; [done|]. intros [|fuel] acc _ Hf; [lia|].
  rewrite bin_partition_loop_step. cbv zeta.
  rewrite seq_S, reverse_app. cbn [reverse app fmap list_fmap].
  destruct (Nat.eqb_spec m 0) as [->|Hm]; [done|].
  rewrite IH by lia. by rewrite <- app_assoc.
Qed.

Lemma bin_partition_levels k own :
  k <> 0 -> own < 2 ^ k -> bin_partition own (2 ^ k) = Done (levels_of k own).
Proof.
  intros Hk Hown. pose proof (pow2_pos k). unfold bin_partition.
  destruct (Nat.eqb_spec (2 ^ k) 0); [lia|].
  pose proof (bin_partition_loop_blocks k (S (2 ^ k)) own [] Hk) as Hl.
  rewrite Nat.div_small, Nat.mul_0_r, Nat.add_0_l in Hl by done. simpl app in Hl.
  pose proof (Nat.pow_gt_lin_r 2 k). rewrite Hl by lia.
  cbn. unfold levels_of. by rewrite fmap_reverse, reverse_app, reverse_involutive.
Qed.

Lemma sibling_involutive b : sibling (sibling b) = b.
Proof.
  unfold sibling. destruct (Nat.even b) eqn:E.
  - rewrite Nat.add_1_r, Nat.even_succ, <- Nat.negb_even, E. simpl. lia.
  - destruct b as [|b]; [done|].
    rewrite Nat.even_succ, <- Nat.negb_even in E. apply negb_false_iff in E.
    replace (S b - 1) with b by lia. rewrite E. lia.
Qed.

Lemma elem_of_sibling_block own l j :
  j ∈ sibling_block own l <-> j / 2 ^ (l - 1) = sibling (own / 2 ^ (l - 1)).
Proof.
  unfold sibling_block. cbv zeta. rewrite elem_of_seq.
  pose proof (div_pow2_split j (l - 1)). pose proof (pow2_pos (l - 1)).
  revert H H0. generalize (2 ^ (l - 1)) as w. intros w Hj Hw.
  split; [|intros <-; lia]. intros Hb. symmetry.
  apply (Nat.div_unique j w _ (j - w * sibling (own / w))); lia.
Qed.

Lemma sibling_block_sym own j l : j ∈ sibling_block own l <-> own ∈ sibling_block j l.
Proof.
  rewrite !elem_of_sibling_block. split; intros ->; by rewrite sibling_involutive.
Qed.

Lemma own_not_in_sibling_block own l : own ∉ sibling_block own l.
Proof.
  rewrite elem_of_sibling_block. unfold sibling.
  generalize (own / 2 ^ (l - 1)). intros b. destruct (Nat.even b) eqn:E; [lia|].
  destruct b; [done|lia].
Qed.

(** The own block of width [2^m] is [own] together with its levels [1..m]. *)
Lemma levels_cover_block own m :
  own :: concat (sibling_block own <$> seq 1 m) ≡ₚ seq (2 ^ m * (own / 2 ^ m)) (2 ^ m).
Proof.
  induction m as [|m IH].
  - rewrite Nat.pow_0_r, Nat.div_1_r, Nat.mul_1_l. done.
  - rewrite seq_S, fmap_app, concat_app, app_comm_cons, IH. cbn [fmap list_fmap concat].
    rewrite app_nil_r, div_pow2_succ, Nat.pow_succ_r'.
    unfold sibling_block, sibling. replace (1 + m - 1) with m by lia.
    pose proof (half_parity (own / 2 ^ m)) as Hpar. revert Hpar.
    generalize (own / 2 ^ m) as b. generalize (2 ^ m) as w. intros w b Hpar.
    replace (2 * w) with (w + w) by lia. rewrite seq_app.
    set (c := b / 2) in *. clearbody c. destruct (Nat.even b); subst b.
    + replace (w * (2 * c + 0)) with ((w + w) * c) by lia.
      by replace (w * (2 * c + 0 + 1)) with ((w + w) * c + w) by lia.
    + replace (w * (2 * c + 1)) with ((w + w) * c + w) by lia.
      replace (w * (2 * c + 1 - 1)) with ((w + w) * c) by lia. apply Permutation_app_comm.
Qed.

Lemma levels_of_cover k own :
  own < 2 ^ k -> own :: concat (levels_of k own) ≡ₚ seq 0 (2 ^ k).
Proof.
  intros Hown. pose proof (levels_cover_block own k) as Hc.
  rewrite Nat.div_small, Nat.mul_0_r in Hc by done. exact Hc.
Qed.

Lemma levels_of_lookup k own l pt :
  levels_of k own !! l = Some pt ->
  (l = 0 /\ pt = []) \/ (1 <= l <= k /\ pt = sibling_block own l).
Proof.
  destruct l as [|l]; simpl; [intros [= <-]; auto|].
  rewrite list_lookup_fmap, fmap_Some. intros (x & Hx & ->).
  apply lookup_seq in Hx. right. destruct Hx as [-> ?]. split; [lia|]. f_equal; lia.
Qed.

(** What the table needs of [bin_partition], for any power of two. *)
Lemma bin_partition_table k own :
  own < 2 ^ k ->
  exists pts, bin_partition own (2 ^ k) = Done pts /\
    own :: concat pts ≡ₚ seq 0 (2 ^ k) /\
    forall l pt j, pts !! l = Some pt -> j ∈ pt ->
      exists pts' pt', bin_partition j (2 ^ k) = Done pts' /\ pts' !! l = Some pt' /\ own ∈ pt'.
Proof.
  intros Hown. destruct (decide (k = 0)) as [->|Hk].
  - exists [[]; []]. assert (own = 0) as -> by (simpl in Hown; lia).
    split_and!; [done..|]. intros l pt j Hl Hj.
    destruct l as [|[|l]]; simplify_eq/=; set_solver.
  - exists (levels_of k own). split_and!; [by apply bin_partition_levels|by apply levels_of_cover|].
    intros l pt j Hl Hj.
    assert (j < 2 ^ k) as Hjk.
    { assert (j ∈ own :: concat (levels_of k own)) as Hin.
      { right. apply elem_of_concat. exists pt. split; [done|]. by eapply list_elem_of_lookup_2. }
      rewrite levels_of_cover, elem_of_seq in Hin by done. lia. }
    exists (levels_of k j). destruct (levels_of_lookup _ _ _ _ Hl) as [[-> ->]|[Hr ->]]; [set_solver|].
    exists (sibling_block j l). split_and!.
    + by apply bin_partition_levels.
    + destruct l as [|l]; [lia|].
      change (levels_of k j !! S l) with ((sibling_block j <$> seq 1 k) !! l).
      rewrite list_lookup_fmap, lookup_seq_lt by lia. done.
    + by apply sibling_block_sym.
Qed.

Lemma normalize_loop_spec fuel power n :
  (0 <= power)%Z -> (power + Z.of_nat fuel = 33)%Z -> (n <= 2 ^ 31)%Z ->
  (power = 0 \/ 2 ^ (power - 1) < n)%Z ->
  exists k, normalize_loop fuel power n = Done (2 ^ k)%Z /\ (0 <= k <= 31)%Z /\
    (n <= 2 ^ k)%Z /\ (k = 0 \/ 2 ^ (k - 1) < n)%Z.
Proof.
  revert power. induction fuel as [|fuel IH]; intros power Hp Hf Hn Hlow.
  - exfalso. assert (2 ^ 32 < n)%Z; [|lia]. destruct Hlow as [->|Hlow]; [lia|].
    by replace (power - 1)%Z with 32%Z in Hlow by lia.
  - assert (power <= 31)%Z as Hp31.
    { destruct Hlow as [->|Hlow]; [lia|]. apply Z.nlt_ge. intros Hgt.
      pose proof (Z.pow_le_mono_r 2 31 (power - 1)). lia. }
    assert (0 < 2 ^ power <= 2 ^ 31)%Z as Hpow.
    { split; [apply Z.pow_pos_nonneg; lia|apply Z.pow_le_mono_r; lia]. }
    cbn [normalize_loop]. unfold checked. rewrite bool_decide_true by (unfold u32_max; lia).
    cbn. destruct (Z.leb_spec n (2 ^ power)) as [Hle|Hgt].
    + exists power. split_and!; try done; lia.
    + apply IH; try lia. right. by replace (power + 1 - 1)%Z with power by lia.
Qed.

Lemma normalize_loop_panic fuel power n :
  fuel <> 0 -> (0 <= power)%Z -> (power + Z.of_nat fuel = 33)%Z -> (2 ^ 31 < n)%Z ->
  normalize_loop fuel power n = Panic.
Proof.
  revert power. induction fuel as [|fuel IH]; intros power Hf0 Hp Hf Hn; [done|].
  cbn [normalize_loop]. unfold checked. destruct (decide (power = 32)%Z) as [->|Hne]; [done|].
  assert (0 < 2 ^ power <= 2 ^ 31)%Z as Hpow.
  { split; [apply Z.pow_pos_nonneg; lia|apply Z.pow_le_mono_r; lia]. }
  rewrite bool_decide_true by (unfold u32_max; lia). cbn.
  rewrite (proj2 (Z.leb_gt _ _)) by lia. apply IH; lia.
Qed.

Lemma normalize_spec n :
  (n <= 2 ^ 31)%Z ->
  exists k : nat, normalize n = Done (Z.of_nat (2 ^ k)) /\ k <= 31 /\
    (n <= Z.of_nat (2 ^ k))%Z /\ (k = 0 \/ (Z.of_nat (2 ^ (k - 1)) < n)%Z).
Proof.
  intros Hn. destruct (normalize_loop_spec 33 0 n) as (k & He & Hk & Hle & Hmin);
    [lia..|by left|].
  exists (Z.to_nat k).
  assert (forall j, (0 <= j)%Z -> Z.of_nat (2 ^ Z.to_nat j) = (2 ^ j)%Z) as Hpow.
  { intros j Hj. rewrite Nat2Z.inj_pow, Z2Nat.id by done. done. }
  split_and!; [unfold normalize; rewrite He, Hpow; [done|lia]|lia|rewrite Hpow; lia|].
  destruct (decide (k = 0%Z)) as [->|]; [by left|right].
  replace (Z.to_nat k - 1) with (Z.to_nat (k - 1)) by lia. rewrite Hpow; lia.
Qed.

Section TableProofs.
Context {PeerId Multiaddr Rng : Type} `{EqDecision PeerId, Countable PeerId}.
Context `{!GenPermutation Rng PeerId}.
Context (random_peers : nat -> list PeerId) (host_peer_id : PeerId).
Context (ps : list (PeerId * option Multiaddr)) (r : Rng).

(** The peers of the table that are not fillers. *)
Definition real_peer (t : BinomialPeerPartitions PeerId Multiaddr Rng) (pix : PeerIx) : bool :=
  match peers t !! pix with
  | Some pid => bool_decide (pid ∈ ps.*1)
  | None => false
  end.

(** [PeerId::random] draws identities that are fresh and distinct. *)
Definition fresh_peers : Prop :=
  forall n, NoDup (random_peers n) /\ length (random_peers n) = n /\
    forall p, p ∈ random_peers n -> p ∉ ps.*1.

(** A committee the table can be built for. *)
Definition committee_ok : Prop :=
  host_peer_id ∈ ps.*1 /\ NoDup ps.*1 /\ (Z.of_nat (length ps) <= 2 ^ 31)%Z.

Lemma cvp_key_done k h pts l pt pix :
  bin_partition h (2 ^ k) = Done pts -> h < 2 ^ k -> pts !! l = Some pt -> pix ∈ pt ->
  exists n, cvp_key r h (2 ^ k) l pix = Done n.
Proof.
  intros Hpts Hh Hl Hpix. destruct (bin_partition_table k h Hh) as (pts0 & Hpts0 & _ & Hsym).
  rewrite Hpts in Hpts0. injection Hpts0 as <-.
  destruct (Hsym l pt pix Hl Hpix) as (pts' & pt' & Hpts' & Hl' & Hin).
  unfold cvp_key. rewrite Hpts'. cbn. rewrite Hl'. cbn.
  destruct (position_elem h (sort_by_key Z.leb (gen_vp r pix) pt')) as (i & -> & _).
  { by apply elem_of_sort_by. }
  by exists i.
Qed.

Lemma ordered_by_cvp_done k h pts cl :
  bin_partition h (2 ^ k) = Done pts -> h < 2 ^ k ->
  Forall2 (fun c p => c ⊆ p) cl pts ->
  exists o, ordered_by_cvp r cl h (2 ^ k) = Done o /\ Forall2 Permutation o cl.
Proof.
  intros Hpts Hh Hsub. unfold ordered_by_cvp.
  destruct (mapO_exists (fun '(l, pt) => sort_by_keyO Nat.leb (cvp_key r h (2 ^ k) l) pt)
    (fun lp o => o ≡ₚ lp.2) (imap pair cl)) as (o & Ho & Hf).
  { intros [l c] Hin. apply elem_of_lookup_imap in Hin as (l' & c' & [= <- <-] & Hc).
    apply sort_by_keyO_perm. intros pix Hpix.
    destruct (Forall2_lookup_l _ _ _ _ _ Hsub Hc) as (p & Hp & Hcp).
    eapply cvp_key_done; eauto. }
  exists o. split; [done|].
  replace cl with ((imap pair cl).*2); [|by rewrite fmap_imap, (imap_const id), list_fmap_id].
  apply Forall2_fmap_r. apply Forall2_flip. exact Hf.
Qed.

Lemma cleared_done (all fake : list PeerId) (pts : list (list PeerIx)) :
  (forall pix, pix ∈ concat pts -> pix < length all) ->
  mapO (filterO (fun pix => pid ← unwrap (all !! pix);
    Done (negb (bool_decide (pid ∈ fake))))) pts =
  Done ((filter (fun pix => match all !! pix with
    | Some pid => negb (bool_decide (pid ∈ fake))
    | None => false end = true)) <$> pts).
Proof.
  intros Hr. apply mapO_Done. intros pt Hpt.
  apply (filterO_Done _ (fun pix => match all !! pix with
    | Some pid => negb (bool_decide (pid ∈ fake)) | None => false end)).
  intros pix Hpix. destruct (lookup_lt_is_Some_2 all pix) as [pid Hpid].
  { apply Hr, elem_of_concat. eauto. }
  by rewrite Hpid.
Qed.

Lemma cleared_real (all fake : list PeerId) (pts : list (list PeerIx)) :
  all ≡ₚ ps.*1 ++ fake -> (forall p, p ∈ fake -> p ∉ ps.*1) ->
  (filter (fun pix => match all !! pix with
    | Some pid => negb (bool_decide (pid ∈ fake)) | None => false end = true) <$> pts) =
  (filter (fun pix => match all !! pix with
    | Some pid => bool_decide (pid ∈ ps.*1) | None => false end = true) <$> pts).
Proof.
  intros Hall Hdis. apply list_fmap_ext. intros _ pt _. apply list_filter_iff. intros pix.
  destruct (all !! pix) as [pid|] eqn:Hpid; [|done].
  apply list_elem_of_lookup_2 in Hpid. rewrite Hall, elem_of_app in Hpid.
  specialize (Hdis pid). rewrite negb_true_iff, bool_decide_eq_true, bool_decide_eq_false. tauto.
Qed.

Lemma new_shape :
  committee_ok -> fresh_peers ->
  exists t k h pts,
    new random_peers host_peer_id ps r = Done t /\
    length (peers t) = 2 ^ k /\
    (exists n, peers t ≡ₚ ps.*1 ++ random_peers n) /\
    peers t !! h = Some host_peer_id /\
    peer_index t = collect_map (imap (fun ix pid => (pid, ix)) (peers t)) /\
    bin_partition h (2 ^ k) = Done pts /\
    partitions_by_vp t = ordered_by_vp r (filter (fun pix => real_peer t pix = true) <$> pts) h /\
    Forall2 Permutation (partitions_by_cvp t) (filter (fun pix => real_peer t pix = true) <$> pts).
Proof.
  intros (Hhost & Hnd & Hlen) Hfresh.
  destruct (normalize_spec (Z.of_nat (length ps)) Hlen) as (k & Hnorm & Hk & Hle & _).
  assert (Z.of_nat (2 ^ k) <= 2 ^ 31)%Z as Hk31.
  { rewrite Nat2Z.inj_pow. apply Z.pow_le_mono_r; lia. }
  specialize (Hfresh (Z.to_nat (Z.of_nat (2 ^ k) - Z.of_nat (length ps)))).
  set (m := Z.to_nat (Z.of_nat (2 ^ k) - Z.of_nat (length ps))) in *.
  set (all := sort_by_key Z.leb (gen_priority r) (ps.*1 ++ random_peers m)).
  assert (all ≡ₚ ps.*1 ++ random_peers m) as Hall by apply sort_by_perm.
  assert (length all = 2 ^ k) as Hlall.
  { rewrite Hall, length_app, length_fmap. destruct Hfresh as (_ & -> & _). lia. }
  destruct (position_elem host_peer_id all) as (h & Hpos & Hh).
  { rewrite Hall. apply elem_of_app. by left. }
  assert (h < 2 ^ k) as Hhk by (rewrite <- Hlall; by eapply lookup_lt_Some).
  destruct (bin_partition_table k h Hhk) as (pts & Hpts & Hcov & _).
  pose proof (cleared_done all (random_peers m) pts) as Hclr.
  set (cl := filter _ <$> pts) in Hclr.
  destruct (ordered_by_cvp_done k h pts cl Hpts Hhk) as (cvp & Hcvp & Hperm).
  { apply Forall2_fmap_l, Forall_Forall2_diag, Forall_forall. intros pt _ x Hx.
    by apply list_elem_of_filter in Hx as [_ Hx]. }
  eexists _, k, h, pts. unfold new, checked.
  rewrite bool_decide_true by (unfold u32_max; lia). cbn -[Z.of_nat normalize].
  rewrite Hnorm. cbn -[Z.of_nat]. rewrite bool_decide_true by (unfold u32_max; lia).
  cbn -[Z.of_nat]. fold m. fold all. rewrite Hpos. cbn -[Z.of_nat].
  rewrite Hlall, Hpts. cbn -[Z.of_nat]. rewrite Hclr.
  2: { intros pix Hpix. assert (pix ∈ h :: concat pts) as Hin by by right.
    rewrite Hcov, elem_of_seq in Hin. lia. }
  cbn -[Z.of_nat]. rewrite Hcvp. cbn -[Z.of_nat].
  destruct Hfresh as (_ & _ & Hdis).
  unfold cl in *. rewrite (cleared_real all) in * by done.
  split_and!; try done. by exists m.
Qed.

Lemma NoDup_peers t n :
  committee_ok -> fresh_peers -> peers t ≡ₚ ps.*1 ++ random_peers n ->
  NoDup (peers (Multiaddr := Multiaddr) (Rng := Rng) t).
Proof.
  intros (_ & Hnd & _) Hfresh ->. destruct (Hfresh n) as (Hf & _ & Hdis).
  apply NoDup_app. split_and!; [done| |done]. intros p Hp Hp'. by apply (Hdis p).
Qed.

(** The real peers of the levels, with the host, are the committee. *)
Lemma real_levels_cover t k h pts n :
  committee_ok -> fresh_peers ->
  peers t ≡ₚ ps.*1 ++ random_peers n -> length (peers t) = 2 ^ k ->
  peers t !! h = Some host_peer_id -> bin_partition h (2 ^ k) = Done pts ->
  host_peer_id :: omap (fun ix => peers t !! ix)
    (concat (filter (fun pix => real_peer t pix = true) <$> pts)) ≡ₚ ps.*1.
Proof.
  intros Hok Hfresh Hpeers Hlen Hh Hpts.
  assert (h < 2 ^ k) as Hhk by (rewrite <- Hlen; by eapply lookup_lt_Some).
  destruct (bin_partition_table k h Hhk) as (pts' & Hpts' & Hcov & _).
  rewrite Hpts in Hpts'. injection Hpts' as <-. rewrite filter_concat.
  transitivity (omap (fun ix => peers t !! ix)
    (filter (fun pix => real_peer t pix = true) (h :: concat pts))).
  { rewrite filter_cons, decide_True; [cbn; by rewrite Hh|].
    unfold real_peer. rewrite Hh. apply bool_decide_eq_true, Hok. }
  rewrite Hcov, <- Hlen.
  transitivity (filter (fun p => p ∈ ps.*1) (peers t)).
  - transitivity (filter (fun p => p ∈ ps.*1)
      (omap (fun ix => peers t !! ix) (seq 0 (length (peers t)))));
      [|by rewrite omap_lookup_seq].
    unfold real_peer.
    induction (seq 0 (length (peers t))) as [|i il IH]; [done|].
    rewrite filter_cons. cbn. destruct (peers t !! i) as [p|] eqn:Hp; [|exact IH].
    rewrite filter_cons. destruct (decide (p ∈ ps.*1)) as [Hin|Hin].
    + rewrite decide_True by by apply bool_decide_eq_true. cbn. rewrite Hp. by f_equiv.
    + rewrite decide_False by by rewrite bool_decide_eq_true. exact IH.
  - rewrite Hpeers, filter_app, (filter_all _ ps.*1), (filter_none _ (random_peers n)); [|apply Hfresh|done].
    by rewrite app_nil_r.
Qed.
End TableProofs.

Lemma ordered_by_vp_perm {PeerId Rng} `{!GenPermutation Rng PeerId} (r : Rng) pts h :
  Forall2 Permutation (ordered_by_vp r pts h) pts.
Proof.
  apply Forall2_fmap_l, Forall_Forall2_diag, Forall_forall. intros pt _. apply sort_by_perm.
Qed.

(** ** Correctness of the partitioning *)

(** Levels are symmetric.  Among [2^k] peers, peer [j] is on level [l] of
    peer [i] exactly when [i] is on level [l] of [j]. *)
Theorem bin_partition_symmetric k i j pi pj l :
  i < 2 ^ k -> j < 2 ^ k ->
  bin_partition i (2 ^ k) = Done pi -> bin_partition j (2 ^ k) = Done pj ->
  (exists pt, pi !! l = Some pt /\ j ∈ pt) <-> (exists pt, pj !! l = Some pt /\ i ∈ pt).
Proof.
  intros Hi Hj Hpi Hpj.
  destruct (bin_partition_table k i Hi) as (pi' & Hpi' & _ & Hsi).
  destruct (bin_partition_table k j Hj) as (pj' & Hpj' & _ & Hsj).
  outcome_eq. split; intros (pt & Hpt & Hin).
  - destruct (Hsi _ _ _ Hpt Hin) as (p & pt' & Hp & Hl & Hin'). outcome_eq. eauto.
  - destruct (Hsj _ _ _ Hpt Hin) as (p & pt' & Hp & Hl & Hin'). outcome_eq. eauto.
Qed.

Lemma bin_partition_symmetric_witness :
  (exists pt, [[]; [11]; [8; 9]; [12; 13; 14; 15]; [0; 1; 2; 3; 4; 5; 6; 7]] !! 4 = Some pt /\ 4 ∈ pt) <->
  (exists pt, [[]; [5]; [6; 7]; [0; 1; 2; 3]; [8; 9; 10; 11; 12; 13; 14; 15]] !! 4 = Some pt /\ 10 ∈ pt).
Proof.
  apply (bin_partition_symmetric 4 10 4); [simpl; lia|simpl; lia|reflexivity|reflexivity].
Defined.

(** C6: [bin_partition] returns, with [k + 1] levels; level [0] is empty and
    level [l] has [2^(l-1)] peers; every peer but the own one is on exactly
    one level. *)
Theorem bin_partition_complete k own :
  k <> 0 -> own < 2 ^ k ->
  exists pts, bin_partition own (2 ^ k) = Done pts /\
    length pts = k + 1 /\
    own :: concat pts ≡ₚ seq 0 (2 ^ k) /\
    forall l pt, pts !! l = Some pt -> length pt = if (l =? 0)%nat then 0 else 2 ^ (l - 1).
Proof.
  intros Hk Hown. exists (levels_of k own).
  split_and!; [by apply bin_partition_levels| |by apply levels_of_cover|].
  - unfold levels_of. rewrite length_cons, length_fmap, length_seq. lia.
  - intros l pt Hl. apply levels_of_lookup in Hl as [[-> ->]|[Hl ->]]; [done|].
    destruct (Nat.eqb_spec l 0); [lia|]. apply length_seq.
Qed.

Lemma bin_partition_complete_witness :
  exists pts, bin_partition 10 (2 ^ 4) = Done pts /\ length pts = 5 /\
    10 :: concat pts ≡ₚ seq 0 (2 ^ 4) /\
    forall l pt, pts !! l = Some pt -> length pt = if (l =? 0)%nat then 0 else 2 ^ (l - 1).
Proof. apply (bin_partition_complete 4 10); [lia|simpl; lia]. Defined.

(** On a committee of at most [2^31] distinct peers that holds the host,
    with fresh fillers, [new] returns (no index, key or overflow panic), and
    with either ordering the levels hold every committee member other than
    the host exactly once and nothing else; each level of the first ordering
    is sorted by verification priority. *)
Theorem new_levels_are_committee {PeerId Multiaddr Rng : Type} `{Countable PeerId}
    `{!GenPermutation Rng PeerId} (random_peers : nat -> list PeerId) host_peer_id
    (ps : list (PeerId * option Multiaddr)) (r : Rng) :
  committee_ok host_peer_id ps -> fresh_peers random_peers ps ->
  exists t h, new random_peers host_peer_id ps r = Done t /\
    peers t !! h = Some host_peer_id /\
    host_peer_id :: omap (fun ix => peers t !! ix) (concat (partitions_by_vp t)) ≡ₚ ps.*1 /\
    host_peer_id :: omap (fun ix => peers t !! ix) (concat (partitions_by_cvp t)) ≡ₚ ps.*1 /\
    forall l pt, partitions_by_vp t !! l = Some pt ->
      StronglySorted (fun a b => (gen_vp r h a <=? gen_vp r h b)%Z = true) pt.
Proof.
  intros Hok Hfresh.
  destruct (new_shape random_peers host_peer_id ps r Hok Hfresh)
    as (t & k & h & pts & Hnew & Hlen & (n & Hpeers) & Hh & _ & Hpts & Hvp & Hcvp).
  exists t, h. split_and!; [done..| | |].
  - rewrite Hvp, (concat_Forall2_perm _ _ (ordered_by_vp_perm _ _ _)).
    by apply (real_levels_cover random_peers host_peer_id ps t k h pts n).
  - rewrite (concat_Forall2_perm _ _ Hcvp).
    by apply (real_levels_cover random_peers host_peer_id ps t k h pts n).
  - intros l pt Hl. rewrite Hvp in Hl. unfold ordered_by_vp in Hl.
    apply list_lookup_fmap_Some in Hl as (pt' & -> & _).
    apply sort_by_sorted; intros *; rewrite ?Z.leb_le, ?Z.leb_gt; lia.
Qed.

(** Indexing and identifying peers are inverse to each other. *)
Theorem index_identify_roundtrip {PeerId Multiaddr Rng : Type} `{Countable PeerId}
    `{!GenPermutation Rng PeerId} (random_peers : nat -> list PeerId) host_peer_id
    (ps : list (PeerId * option Multiaddr)) (r : Rng) t pid ix :
  committee_ok host_peer_id ps -> fresh_peers random_peers ps ->
  new random_peers host_peer_id ps r = Done t ->
  try_index_peer t pid = Some ix <-> identify_peer t ix = Done pid.
Proof.
  intros Hok Hfresh Hnew.
  destruct (new_shape random_peers host_peer_id ps r Hok Hfresh)
    as (t' & k & h & pts & Hnew' & _ & (n & Hpeers) & _ & Hix & _). outcome_eq.
  unfold try_index_peer, identify_peer. rewrite Hix, unwrap_Done.
  apply lookup_collect_index. by eapply NoDup_peers.
Qed.

(** [normalize] returns the least power of two that is not below [n], up
    to [2^31], and panics on the [u32] values above. *)
Theorem normalize_least_power n :
  ((0 <= n <= 2 ^ 31)%Z -> exists k : nat, normalize n = Done (2 ^ Z.of_nat k)%Z /\
    (n <= 2 ^ Z.of_nat k)%Z /\ forall j : nat, (n <= 2 ^ Z.of_nat j)%Z -> k <= j) /\
  ((2 ^ 31 < n)%Z -> normalize n = Panic).
Proof.
  split.
  - intros [_ Hn]. destruct (normalize_spec n Hn) as (k & -> & _ & Hle & Hmin).
    rewrite Nat2Z.inj_pow in Hle |- *. exists k. split_and!; [done..|].
    intros j Hj. destruct Hmin as [->|Hlt]; [lia|]. rewrite Nat2Z.inj_pow in Hlt.
    apply Nat.le_ngt. intros Hjk.
    pose proof (Z.pow_le_mono_r 2 (Z.of_nat j) (Z.of_nat (k - 1))). simpl in *. lia.
  - intros Hn. apply normalize_loop_panic; lia.
Qed.

(** A committee of three, for the witnesses. *)
Module Sample.
#[export] Instance perm : GenPermutation unit nat :=
  { gen_priority := fun _ p => Z.of_nat p; gen_vp := fun _ h p => ((Z.of_nat p * 7) mod 5)%Z }.

Definition fillers (n : nat) : list nat := seq 100 n.
Definition members : list (nat * option nat) := [(3, None); (1, Some 80); (2, None)].

Lemma members_ok : committee_ok 1 members.
Proof. split_and!; [set_solver|apply (bool_decide_unpack _); vm_compute; exact I|simpl; lia]. Qed.

Lemma fillers_fresh : fresh_peers fillers members.
Proof.
  intros n. split_and!; [apply NoDup_seq|apply length_seq|].
  intros p [Hp _]%elem_of_seq Hm. simpl in Hm. set_unfold. lia.
Qed.
End Sample.
#[local] Existing Instance Sample.perm.

Lemma new_levels_are_committee_witness :
  exists t h, new Sample.fillers 1 Sample.members tt = Done t /\
    peers t !! h = Some 1 /\
    1 :: omap (fun ix => peers t !! ix) (concat (partitions_by_vp t)) ≡ₚ Sample.members.*1 /\
    1 :: omap (fun ix => peers t !! ix) (concat (partitions_by_cvp t)) ≡ₚ Sample.members.*1 /\
    forall l pt, partitions_by_vp t !! l = Some pt ->
      StronglySorted (fun a b => (gen_vp (PeerId := nat) tt h a <=? gen_vp (PeerId := nat) tt h b)%Z = true) pt.
Proof. apply (new_levels_are_committee Sample.fillers 1 Sample.members tt Sample.members_ok Sample.fillers_fresh). Defined.

Lemma index_identify_roundtrip_witness :
  exists t, new Sample.fillers 1 Sample.members tt = Done t /\
    (try_index_peer t 3 = Some 2 <-> identify_peer t 2 = Done 3).
Proof.
  eexists. split; [vm_compute; reflexivity|].
  apply (index_identify_roundtrip Sample.fillers 1 Sample.members tt _ 3 2
    Sample.members_ok Sample.fillers_fresh). vm_compute. reflexivity.
Defined.

Lemma normalize_least_power_witness : normalize 60 = Done 64%Z /\ normalize (2 ^ 31 + 1) = Panic.
Proof.
  split; [reflexivity|]. apply (normalize_least_power (2 ^ 31 + 1)). lia.
Defined.
