(* ===== verification/Handel.v ===== *)
(** * The Handel aggregation round

    Model of [spectrum-handel/src/lib.rs]: the levels of one peer, the
    scoring and verification of incoming contributions, the fast path, the
    dissemination and the polling of the round.  The contributed value is any
    partial semigroup with a weight and a verifier, the partitioning any
    implementation of [PeerPartitions]. *)

From S2P Require Import Prelude Algebra Partitioning.

(** ** The partitioning interface *)

(** The trait [PeerPartitions]. *)
Class PeerPartitions (PP PeerId Addr : Type) := {
  pp_peers_at_level : PP -> nat -> PeerOrd -> outcome (list nat);
  pp_identify_peer : PP -> nat -> outcome PeerId;
  pp_try_index_peer : PP -> PeerId -> option nat;
  pp_addr_hint : PP -> PeerId -> option Addr;
  pp_num_levels : PP -> nat;
}.

(** Both orders of a level are defined for every level and list the same
    peers, all of them identified. *)
Class PeerPartitionsLaws {PP PeerId Addr} `{PeerPartitions PP PeerId Addr} (pp : PP) : Prop := {
  pp_levels_defined l o : l < pp_num_levels pp -> exists pts, pp_peers_at_level pp l o = Done pts;
  pp_orders_agree l vp cvp : pp_peers_at_level pp l VP = Done vp ->
    pp_peers_at_level pp l CVP = Done cvp -> cvp ≡ₚ vp;
  pp_identified l o pts pix : pp_peers_at_level pp l o = Done pts -> pix ∈ pts ->
    exists pid, pp_identify_peer pp pix = Done pid;
}.

#[export] Instance binomial_partitions {PeerId Addr Rng} `{Countable PeerId}
    : PeerPartitions (BinomialPeerPartitions PeerId Addr Rng) PeerId Addr := {
  pp_peers_at_level := peers_at_level;
  pp_identify_peer := identify_peer;
  pp_try_index_peer := try_index_peer;
  pp_addr_hint := addr_hint;
  pp_num_levels := num_levels;
}.

(** ** Data *)

Section Handel.
Context {C P PP PeerId Addr : Type}.
Context `{!PartialSemigroup C, !Weighted C, !VerifiableAgainst P C}.
Context `{!PeerPartitions PP PeerId Addr}.

Record HandelMessage := {
  msg_level : nat;
  msg_individual_contribution : option C;
  msg_aggregate_contribution : C;
  msg_contact_sender : bool;
}.

(** [NetworkAction::SendOneShotMessage] *)
Record SendOneShot := { out_peer : PeerId; out_addr_hint : option Addr; out_message : HandelMessage }.

Record PendingContribution := {
  sender_id : nat;
  aggregate_contribution : C;
  individual_contribution : option C;
}.

Record ScoredContribution := { score : nat; contribution : C }.

Record ScoredContributionTraced := {
  sct_score : nat;
  sct_sender_id : nat;
  sct_contribution : C;
}.

Definition scored_of_traced (sct : ScoredContributionTraced) : ScoredContribution :=
  {| score := sct_score sct; contribution := sct_contribution sct |}.

Record ActiveLevel := {
  prioritized_contributions : list PendingContribution;
  individual_contributions : list C;
  best_contribution : ScoredContribution;
  last_contacted_peer_ix : option nat;
  sent_contribution_scores : list nat;
  is_completed : bool;
}.

Definition active_level_new (best : ScoredContribution) (num_nodes_at_level : nat) : ActiveLevel := {|
  prioritized_contributions := [];
  individual_contributions := [];
  best_contribution := best;
  last_contacted_peer_ix := None;
  sent_contribution_scores := replicate num_nodes_at_level 0;
  is_completed := false;
|}.

Definition active_level_unit (c : ScoredContribution) : ActiveLevel := {|
  prioritized_contributions := [];
  individual_contributions := [];
  best_contribution := c;
  last_contacted_peer_ix := None;
  sent_contribution_scores := [0];
  is_completed := true;
|}.

Definition completed (l : ActiveLevel) : ActiveLevel := l <| is_completed := true |>.

Record HandelConfig := {
  threshold : Threshold;
  window_shrinking_factor : Z;
  initial_scoring_window : Z;
  fast_path_window : nat;
}.

(** The round; [next_processing] is [true] while the throttling delay of
    [poll] is armed. *)
Record Handel := {
  conf : HandelConfig;
  public_data : P;
  scoring_window : Z;
  unverified_contributions : list (gmap nat PendingContribution);
  peer_partitions : PP;
  levels : list (option ActiveLevel);
  byzantine_nodes : gset nat;
  own_contribution_recvs : gset nat;
  outbox : list SendOneShot;
  own_peer_ix : nat;
  peers_completed_levels : gmap nat (gset nat);
  next_processing : bool;
}.

Definition new (conf : HandelConfig) (own_contribution : C) (public_data : P)
    (peer_partitions : PP) (own_peer_ix : nat) : outcome Handel :=
  let num_levels := pp_num_levels peer_partitions in
  let own_contribution_scored := {| score := 1; contribution := own_contribution |} in
  if (num_levels <? 2)%nat then Panic else
  Done {|
    conf := conf;
    public_data := public_data;
    scoring_window := initial_scoring_window conf;
    unverified_contributions := replicate num_levels ∅;
    peer_partitions := peer_partitions;
    levels := <[0 := Some (active_level_unit own_contribution_scored)]>
      (<[1 := Some (active_level_new own_contribution_scored 1)]> (replicate num_levels None));
    byzantine_nodes := ∅;
    own_contribution_recvs := ∅;
    outbox := [];
    own_peer_ix := own_peer_ix;
    peers_completed_levels := ∅;
    next_processing := false;
  |}.

(** ** Aggregation *)

(** [max(scoring_window.saturating_div(factor), 1)]; the division by zero
    panics. *)
Definition shrink_window (factor w : Z) : outcome Z :=
  if (factor =? 0)%Z then Panic else Done (Z.max (w / factor) 1).

(** [scoring_window.saturating_mul(factor)] *)
Definition grow_window (factor w : Z) : Z := Z.min u64_max (w * factor).

(** The loop that moves unverified contributions of the level's peers, in
    verification priority, until the window is full. *)
Fixpoint prioritize (peers : list nat) (window : Z) (unverified : gmap nat PendingContribution)
    (prioritized : list PendingContribution)
    : gmap nat PendingContribution * list PendingContribution :=
  match peers with
  | [] => (unverified, prioritized)
  | pix :: peers =>
    let '(unverified, prioritized) :=
      match unverified !! pix with
      | Some uc => (delete pix unverified, prioritized ++ [uc])
      | None => (unverified, prioritized)
      end in
    if (window <=? Z.of_nat (length prioritized))%Z then (unverified, prioritized)
    else prioritize peers window unverified prioritized
  end.

(** [BTreeSet::insert] under an order that compares scores only: an element
    with the score of a present one is not inserted. *)
Fixpoint insert_scored (x : ScoredContributionTraced) (l : list ScoredContributionTraced)
    : list ScoredContributionTraced :=
  match l with
  | [] => [x]
  | y :: l =>
    match Nat.compare (sct_score x) (sct_score y) with
    | Lt => x :: y :: l
    | Eq => y :: l
    | Gt => y :: insert_scored x l
    end
  end.

(** What the scoring loop changes. *)
Record Scoring := {
  sc_individual : list C;
  sc_byzantine : gset nat;
  sc_window : Z;
  sc_scored : list ScoredContributionTraced;
}.

(** Adding the verified individual contributions that combine. *)
Definition combine_individual (acc : C) (ics : list C) : C :=
  foldl (fun acc ic => default acc (try_combine acc ic)) acc ics.

(** Scoring of one contribution whose individual part, if any, is verified. *)
Definition score_aggregate (best : ScoredContribution) (s : Scoring) (c : PendingContribution) : Scoring :=
  let aggr :=
    match try_combine (contribution best) (aggregate_contribution c) with
    | Some aggr => aggr
    | None => combine_individual (aggregate_contribution c) (sc_individual s)
    end in
  s <| sc_scored ::= insert_scored
    {| sct_score := weight aggr; sct_sender_id := sender_id c; sct_contribution := aggr |} |>.

(** One iteration of [while let Some(c) = lvl.prioritized_contributions.pop()]. *)
Definition score_step (factor : Z) (pd : P) (best : ScoredContribution) (s : Scoring)
    (c : PendingContribution) : outcome Scoring :=
  match individual_contribution c with
  | Some ic =>
    if verify ic pd then
      Done (score_aggregate best (s <| sc_individual ::= fun l => l ++ [ic] |>) c)
    else
      w ← shrink_window factor (sc_window s);
      Done (s <| sc_byzantine ::= union {[ sender_id c ]} |> <| sc_window := w |>)
  | None => Done (score_aggregate best s c)
  end.

(** One iteration of the verification loop. *)
Definition verify_step (factor : Z) (pd : P) (st : ScoredContribution * gset nat * Z)
    (sc : ScoredContributionTraced) : outcome (ScoredContribution * gset nat * Z) :=
  let '(best, byzantine, window) := st in
  if verify (sct_contribution sc) pd then
    let best := if (score best <? sct_score sc)%nat then scored_of_traced sc else best in
    Done (best, byzantine, grow_window factor window)
  else
    w ← shrink_window factor window;
    Done (best, {[ sct_sender_id sc ]} ∪ byzantine, w).

(** [is_complete]: [2^level] on [usize]. *)
Definition is_complete (c : C) (level : nat) (t : Threshold) : outcome bool :=
  max_score_at_level ← checked 0 u64_max (2 ^ Z.of_nat level);
  m ← threshold_min t max_score_at_level;
  Done (m <=? Z.of_nat (weight c))%Z.

Definition is_active (h : Handel) (level : nat) : bool :=
  match levels h !! level with Some (Some _) => true | _ => false end.

(** Activation skips the empty levels; each call moves up one level, so the
    number of levels bounds the calls. *)
Fixpoint try_activate_level_fuel (fuel : nat) (h : Handel) (level : nat) : outcome Handel :=
  match fuel with
  | 0 => NoFuel
  | S fuel =>
    if (length (levels h) <=? level)%nat then Done h else
    if is_active h level then Done h else
    if (level =? 0)%nat then Panic else
    prev ← unwrap (levels h !! (level - 1));
    match prev with
    | None => Done h
    | Some prev_level =>
      peers_at_level ← pp_peers_at_level (peer_partitions h) level VP;
      match peers_at_level with
      | [] =>
        try_activate_level_fuel fuel
          (h <| levels ::= <[level := Some (active_level_unit (best_contribution prev_level))]> |>)
          (level + 1)
      | _ :: _ =>
        Done (h <| levels ::= <[level := Some (active_level_new (best_contribution prev_level)
                                                 (length peers_at_level))]> |>)
      end
    end
  end.

Definition try_activate_level (h : Handel) (level : nat) : outcome Handel :=
  try_activate_level_fuel (S (length (levels h) - level)) h level.

(** Whether the peer has said that it completed the level. *)
Definition peer_completed (h : Handel) (peer_ix level : nat) : bool :=
  match peers_completed_levels h !! peer_ix with
  | Some completed_levels => bool_decide (level ∈ completed_levels)
  | None => false
  end.

(** [Vec::dedup]: consecutive equal elements. *)
Fixpoint dedup (l : list nat) : list nat :=
  match l with
  | x :: ((y :: _) as r) => if (x =? y)%nat then dedup r else x :: dedup r
  | _ => l
  end.

(** The message of a completed level, sent on the fast path. *)
Definition fast_path_message (h : Handel) (level : nat) (own_contrib : option C)
    (lvl : ActiveLevel) (pix : nat) : outcome SendOneShot :=
  pid ← pp_identify_peer (peer_partitions h) pix;
  let maybe_own_contrib :=
    if bool_decide (pix ∈ own_contribution_recvs h) then None else own_contrib in
  Done {|
    out_peer := pid;
    out_addr_hint := pp_addr_hint (peer_partitions h) pid;
    out_message := {|
      msg_level := level;
      msg_individual_contribution := maybe_own_contrib;
      msg_aggregate_contribution := contribution (best_contribution lvl);
      msg_contact_sender := false;
    |};
  |}.

Definition run_fast_path (h : Handel) (level : nat) : outcome Handel :=
  l0 ← unwrap (levels h !! 0);
  let own_contrib := (fun l => contribution (best_contribution l)) <$> l0 in
  ol ← unwrap (levels h !! level);
  match ol with
  | None => Done h
  | Some lvl =>
    if negb (is_completed lvl) then Panic else
    let offset := match last_contacted_peer_ix lvl with Some x => x + 1 | None => 0 end in
    nodes_at_level ← pp_peers_at_level (peer_partitions h) level CVP;
    indexes ← mapO (fun ix =>
        if (length nodes_at_level =? 0)%nat then Panic
        else Done ((ix + offset) mod length nodes_at_level))
      (seq 0 (fast_path_window (conf h)));
    candidates ← mapO (fun ix => unwrap (nodes_at_level !! ix)) indexes;
    let nodes := dedup (sort_by Nat.leb
      (filter (fun pix => peer_completed h pix level = false) candidates)) in
    msgs ← mapO (fast_path_message h level own_contrib lvl) nodes;
    Done (h <| outbox ::= fun o => o ++ msgs |>)
  end.

(** The part of [run_aggregation] that works on the level: prioritization,
    scoring and verification. *)
Definition aggregate_level (h : Handel) (level : nat) (lvl : ActiveLevel)
    (unverified : gmap nat PendingContribution) : outcome (Handel * ActiveLevel) :=
  peers_at_level ← pp_peers_at_level (peer_partitions h) level VP;
  let '(unverified, prioritized) :=
    prioritize peers_at_level (scoring_window h) unverified (prioritized_contributions lvl) in
  let factor := window_shrinking_factor (conf h) in
  sc ← foldO (score_step factor (public_data h) (best_contribution lvl)) (reverse prioritized)
    {| sc_individual := individual_contributions lvl; sc_byzantine := byzantine_nodes h;
       sc_window := scoring_window h; sc_scored := [] |};
  '(best, byzantine, window) ← foldO (verify_step factor (public_data h)) (sc_scored sc)
    (best_contribution lvl, sc_byzantine sc, sc_window sc);
  Done (h <| unverified_contributions ::= <[level := unverified]> |>
          <| byzantine_nodes := byzantine |> <| scoring_window := window |>,
        lvl <| prioritized_contributions := [] |>
            <| individual_contributions := sc_individual sc |>
            <| best_contribution := best |>).

Definition run_aggregation (h : Handel) (level : nat) : outcome Handel :=
  ol ← unwrap (levels h !! level);
  match ol with
  | None => Done h
  | Some lvl =>
    unverified ← unwrap (unverified_contributions h !! level);
    if decide (unverified = ∅) then Done h else
    '(h, lvl) ← aggregate_level h level lvl unverified;
    complete ← is_complete (contribution (best_contribution lvl)) level (threshold (conf h));
    if (complete : bool) then
      h ← run_fast_path (h <| levels ::= <[level := Some (completed lvl)]> |>) level;
      try_activate_level h (level + 1)
    else Done (h <| levels ::= <[level := Some lvl]> |>)
  end.

(** [Ok(())] and [Err(())] as [true] and [false]. *)
Definition handle_contribution (h : Handel) (peer_id : PeerId) (level : nat)
    (contact_sender : bool) (aggregate : C) (individual : option C) : outcome (Handel * bool) :=
  match pp_try_index_peer (peer_partitions h) peer_id with
  | Some peer_ix =>
    let is_byzantine := bool_decide (peer_ix ∈ byzantine_nodes h) in
    let h := if contact_sender then h else
      h <| peers_completed_levels ::= partial_alter
        (fun o => Some ({[ level ]} ∪ default ∅ o)) peer_ix |> in
    ol ← unwrap (levels h !! level);
    let level_uncompleted :=
      negb (match ol with Some lvl => is_completed lvl | None => false end) in
    if negb is_byzantine && level_uncompleted then
      unverified ← unwrap (unverified_contributions h !! level);
      Done (h <| unverified_contributions ::= <[level := <[peer_ix := {|
               sender_id := peer_ix; aggregate_contribution := aggregate;
               individual_contribution := individual |}]> unverified]> |>, true)
    else Done (h, false)
  | None => Done (h, false)
  end.

Definition inject_message (h : Handel) (peer_id : PeerId) (msg : HandelMessage) : outcome Handel :=
  '(h, ok) ← handle_contribution h peer_id (msg_level msg) (msg_contact_sender msg)
    (msg_aggregate_contribution msg) (msg_individual_contribution msg);
  if (ok : bool) then run_aggregation h (msg_level msg) else Done h.

(** ** Dissemination *)

Definition get_own_contribution (h : Handel) : outcome C :=
  l0 ← unwrap (levels h !! 0);
  l ← unwrap l0;
  Done (contribution (best_contribution l)).

(** [all] stops at the first peer that has not completed the level; the host
    among the peers trips the assertion. *)
Fixpoint all_completed (h : Handel) (level : nat) (peers : list nat) : outcome bool :=
  match peers with
  | [] => Done true
  | p :: peers =>
    if (p =? own_peer_ix h)%nat then Panic
    else if peer_completed h p level then all_completed h level peers else Done false
  end.

(** The first position among [ixs] whose peer has not completed the level. *)
Fixpoint find_uncompleted (h : Handel) (level : nat) (peers : list nat) (ixs : list nat)
    : outcome (option (nat * nat)) :=
  match ixs with
  | [] => Done None
  | i :: ixs =>
    p ← unwrap (peers !! i);
    if peer_completed h p level then find_uncompleted h level peers ixs else Done (Some (p, i))
  end.

(** The next peer after the last contacted one, then those before it, then
    itself; with no contact yet only the first peer is considered. *)
Definition next_peer (h : Handel) (level : nat) (peers : list nat) (last : option nat)
    : outcome (option (nat * nat)) :=
  match last with
  | Some ix =>
    n1 ← find_uncompleted h level peers (seq (ix + 1) (length peers - (ix + 1)));
    match n1 with
    | Some n => Done (Some n)
    | None =>
      n2 ← find_uncompleted h level peers (seq 0 ix);
      match n2 with
      | Some n => Done (Some n)
      | None => find_uncompleted h level peers [ix]
      end
    end
  | None => find_uncompleted h level peers [0]
  end.

(** One iteration of the loop of [run_dissemination]. *)
Definition disseminate_level (own_contrib : C) (h : Handel) (lix : nat) : outcome Handel :=
  ol ← unwrap (levels h !! lix);
  match ol with
  | None => Done h
  | Some active_lvl =>
    peers_at_level ← pp_peers_at_level (peer_partitions h) lix CVP;
    all ← all_completed h lix peers_at_level;
    if (all : bool) then Done h else
    next ← next_peer h lix peers_at_level (last_contacted_peer_ix active_lvl);
    match next with
    | None => Done h
    | Some (next_peer_ix, next_peer_level_ix) =>
      pid ← pp_identify_peer (peer_partitions h) next_peer_ix;
      let maybe_own_contrib :=
        if bool_decide (next_peer_ix ∈ own_contribution_recvs h) then None else Some own_contrib in
      let best := best_contribution active_lvl in
      sent ← unwrap (sent_contribution_scores active_lvl !! next_peer_level_ix);
      let scores :=
        if (sent <? score best)%nat
        then <[next_peer_level_ix := score best]> (sent_contribution_scores active_lvl)
        else sent_contribution_scores active_lvl in
      Done (h <| levels ::= <[lix := Some (active_lvl
                  <| last_contacted_peer_ix := Some next_peer_level_ix |>
                  <| sent_contribution_scores := scores |>)]> |>
              <| outbox ::= fun o => o ++ [{|
                  out_peer := pid;
                  out_addr_hint := pp_addr_hint (peer_partitions h) pid;
                  out_message := {|
                    msg_level := lix;
                    msg_individual_contribution := maybe_own_contrib;
                    msg_aggregate_contribution := contribution best;
                    msg_contact_sender := negb (is_completed active_lvl);
                  |} |}] |>)
    end
  end.

Definition run_dissemination (h : Handel) : outcome Handel :=
  own_contrib ← get_own_contribution h;
  foldO (disseminate_level own_contrib) (seq 1 (length (levels h) - 1)) h.

(** [best_contribution]: the best value of the last level of the active
    prefix. *)
Fixpoint best_of_prefix (acc : C) (ls : list (option ActiveLevel)) : C :=
  match ls with
  | Some l :: ls => best_of_prefix (contribution (best_contribution l)) ls
  | _ => acc
  end.

Definition round_best_contribution (h : Handel) : outcome C :=
  own ← get_own_contribution h;
  Done (best_of_prefix own (levels h)).

Definition get_complete_aggregate (h : Handel) : outcome (option C) :=
  if (length (levels h) =? 0)%nat then Panic else
  ol ← unwrap (levels h !! (length (levels h) - 1));
  Done (match ol with
        | Some last_level =>
          if is_completed last_level then Some (contribution (best_contribution last_level)) else None
        | None => None
        end).

Definition next_non_active_level (h : Handel) : option nat :=
  match list_find (fun l : option ActiveLevel => l = None) (levels h) with
  | Some (lvl, _) =>
    if (lvl <? pp_num_levels (peer_partitions h))%nat then Some lvl else None
  | None => None
  end.

(** ** Polling *)

Inductive Polled :=
| PollPending
| PollOut (o : SendOneShot)
| PollAggregate (c : C).

(** Which of the three delays have elapsed. *)
Record Timers := {
  dissemination_ready : bool;
  activation_ready : bool;
  processing_ready : bool;
}.

Definition poll (h : Handel) (t : Timers) : outcome (Handel * Polled) :=
  h ← (if dissemination_ready t then run_dissemination h else Done h);
  h ← (if activation_ready t then
         match next_non_active_level h with
         | Some lvl => try_activate_level h lvl
         | None => Done h
         end
       else Done h);
  if next_processing h && negb (processing_ready t) then Done (h, PollPending) else
  match outbox h with
  | out :: rest => Done (h <| outbox := rest |> <| next_processing := true |>, PollOut out)
  | [] =>
    ca ← get_complete_aggregate h;
    match ca with
    | Some ca => Done (h <| next_processing := false |>, PollAggregate ca)
    | None => Done (h <| next_processing := true |>, PollPending)
    end
  end.

(** ** Runs of a round *)

Inductive step : Handel -> Handel -> Prop :=
| step_inject h h' peer_id msg : inject_message h peer_id msg = Done h' -> step h h'
| step_poll h h' t o : poll h t = Done (h', o) -> step h h'.

Definition reachable (conf : HandelConfig) (own : C) (pd : P) (pp : PP) (ix : nat) (h : Handel) : Prop :=
  exists h0, new conf own pd pp ix = Done h0 /\ rtc step h0 h.
End Handel.
