(* ===== verification/HandelSafety.v ===== *)
(** * Safety of the Handel round

    Invariants of the rounds of [Handel.v] over all sequences of injected
    messages and polls: every level holds a verified aggregate, a completed
    level meets its threshold, aggregates only improve, and a peer whose
    contributions verify is never banned. *)

From S2P Require Import Prelude Algebra Partitioning Handel.

Section Safety.
Context {C P PP PeerId Addr : Type}.
Context `{!PartialSemigroup C, !Weighted C, !VerifiableAgainst P C, !VerifiableLaws P C}.
Context `{!PeerPartitions PP PeerId Addr}.

(** Peers assumed to send only contributions that verify. *)
Context (honest : nat -> Prop) (pd : P).

Abbreviation verified c := (verify (c : C) pd = true) (only parsing).

Definition pending_ok (c : PendingContribution (C := C)) : Prop :=
  honest (sender_id c) ->
  verified (aggregate_contribution c) /\
  forall ic, individual_contribution c = Some ic -> verified ic.

Definition scoring_ok (s : Scoring (C := C)) : Prop :=
  Forall (fun ic => verified ic) (sc_individual s) /\
  (forall sc, sc ∈ sc_scored s -> honest (sct_sender_id sc) -> verified (sct_contribution sc)) /\
  (forall p, honest p -> p ∉ sc_byzantine s).

(** ** Scoring *)

Lemma combine_individual_verified acc ics :
  verified acc -> Forall (fun ic => verified ic) ics -> verified (combine_individual acc ics).
Proof.
  intros Hacc Hics. unfold combine_individual. revert acc Hacc.
  induction Hics as [|ic ics Hic _ IH]; intros acc Hacc; [done|]. cbn. apply IH.
  destruct (try_combine acc ic) as [c|] eqn:E; cbn; [|done].
  by rewrite (verify_combine _ _ _ _ E), Hacc, Hic.
Qed.

Lemma elem_of_insert_scored (x y : ScoredContributionTraced (C := C)) l :
  y ∈ insert_scored x l -> y = x \/ y ∈ l.
Proof.
  induction l as [|z l IH]; cbn; [set_solver|].
  destruct (Nat.compare _ _); set_solver.
Qed.

Lemma score_aggregate_ok best s c :
  verified (contribution best) -> pending_ok c -> scoring_ok s ->
  scoring_ok (score_aggregate best s c).
Proof.
  intros Hbest Hc (Hi & Hs & Hb). unfold score_aggregate. split_and!; [done| |done].
  cbn. intros sc [->|Hsc]%elem_of_insert_scored Hh; [|by apply Hs]. cbn in Hh |- *.
  destruct (Hc Hh) as [Hagg _].
  destruct (try_combine (contribution best) (aggregate_contribution c)) as [a|] eqn:E.
  - by rewrite (verify_combine _ _ _ _ E), Hbest, Hagg.
  - by apply combine_individual_verified.
Qed.

Lemma score_step_ok factor best s c s' :
  verified (contribution best) -> pending_ok c -> scoring_ok s ->
  score_step factor pd best s c = Done s' ->
  scoring_ok s' /\ sc_byzantine s ⊆ sc_byzantine s'.
Proof.
  intros Hbest Hc Hs. unfold score_step.
  destruct (individual_contribution c) as [ic|] eqn:Eic; [destruct (verify ic pd) eqn:Hv|].
  - intros [= <-]. split; [|done]. apply score_aggregate_ok; [done..|].
    destruct Hs as (Hi & Hsc & Hb). split_and!; [|done..]. cbn.
    apply Forall_app. split; [done|]. by constructor.
  - intros Hd. bind_inv. subst s'. destruct Hs as (Hi & Hsc & Hb). cbn.
    split; [|set_solver]. split_and!; [done..|]. cbn. intros p Hp [->%elem_of_singleton|Hin]%elem_of_union.
    + destruct (Hc Hp) as [_ Hic]. specialize (Hic ic Eic). congruence.
    + by apply (Hb p).
  - intros [= <-]. split; [|done]. by apply score_aggregate_ok.
Qed.

Lemma score_fold_ok factor best cs s s' :
  verified (contribution best) -> (forall c, c ∈ cs -> pending_ok c) -> scoring_ok s ->
  foldO (score_step factor pd best) cs s = Done s' ->
  scoring_ok s' /\ sc_byzantine s ⊆ sc_byzantine s'.
Proof.
  intros Hbest. revert s. induction cs as [|c cs IH]; intros s Hcs Hs Hf; cbn in Hf.
  - bind_inv. by subst.
  - bind_inv. destruct (score_step_ok _ _ _ _ _ Hbest (Hcs c ltac:(set_solver)) Hs Hv) as [Hs' Hsub].
    destruct (IH v) as [? ?]; [set_solver|done..|]. split; [done|set_solver].
Qed.

(** ** Verification of the scored aggregates *)

Lemma verify_fold_ok factor scs best byz w best' byz' w' :
  verified (contribution best) ->
  (forall sc, sc ∈ scs -> honest (sct_sender_id sc) -> verified (sct_contribution sc)) ->
  (forall p, honest p -> p ∉ byz) ->
  foldO (verify_step factor pd) scs (best, byz, w) = Done (best', byz', w') ->
  verified (contribution best') /\ score best <= score best' /\
  (forall p, honest p -> p ∉ byz') /\ byz ⊆ byz'.
Proof.
  revert best byz w. induction scs as [|sc scs IH]; intros best byz w Hb Hscs Hbyz Hf; cbn [foldO] in Hf.
  - by simplify_eq.
  - apply bind_Done in Hf as (st & Hst & Hf). unfold verify_step in Hst.
    destruct (verify (sct_contribution sc) pd) eqn:Hv.
    + injection Hst as <-. destruct (Nat.ltb_spec (score best) (sct_score sc)) as [Hlt|Hge].
      * destruct (IH (scored_of_traced sc) byz (grow_window factor w))
          as (? & Hle & ? & ?); [done|set_solver|done..|]. cbn in Hle. split_and!; auto with lia.
      * destruct (IH best byz (grow_window factor w)) as (? & ? & ? & ?); [done|set_solver|done..|]. done.
    + bind_inv. subst st. destruct (IH best ({[sct_sender_id sc]} ∪ byz) v) as (? & ? & ? & ?);
        [done|set_solver| |done|].
      * intros p Hp [->%elem_of_singleton|Hin]%elem_of_union; [|by apply (Hbyz p)].
        rewrite (Hscs sc) in Hv; [done|set_solver|done].
      * split_and!; [done..|set_solver].
Qed.

(** ** Aggregation on a level *)

Lemma prioritize_sub peers window (unv unv' : gmap nat (PendingContribution (C := C))) prio prio' :
  prioritize peers window unv prio = (unv', prio') ->
  unv' ⊆ unv /\
  forall c, c ∈ prio' -> c ∈ prio \/ exists pix, unv !! pix = Some c.
Proof.
  revert unv prio. induction peers as [|pix peers IH]; intros unv prio; cbn.
  - intros [= <- <-]. split; [done|]. auto.
  - destruct (unv !! pix) as [uc|] eqn:Huc.
    + assert (forall c, c ∈ prio ++ [uc] -> c ∈ prio \/ exists pix, unv !! pix = Some c) as Hprio.
      { intros c [Hc|Hc]%elem_of_app; [by left|]. apply list_elem_of_singleton in Hc as ->. eauto. }
      destruct (window <=? _)%Z.
      * intros [= <- <-]. split; [apply delete_subseteq|done].
      * intros Hpr. apply IH in Hpr as [Hsub Hc]. split; [by etrans; [|apply delete_subseteq]|].
        intros c Hcin. destruct (Hc c Hcin) as [Hin|(p & Hp)]; [by apply Hprio|]. right. exists p.
        by apply lookup_delete_Some in Hp as [_ Hp].
    + destruct (window <=? _)%Z; [|apply IH]. intros [= <- <-]. split; [done|]. auto.
Qed.

Lemma aggregate_level_ok h level lvl unv h' lvl' :
  public_data h = pd ->
  verified (contribution (best_contribution lvl)) ->
  Forall (fun ic => verified ic) (individual_contributions lvl) ->
  prioritized_contributions lvl = [] ->
  (forall pix c, unv !! pix = Some c -> pending_ok c) ->
  (forall p, honest p -> p ∉ byzantine_nodes h) ->
  aggregate_level h level lvl unv = Done (h', lvl') ->
  exists unv' byz w best ics,
    h' = h <| unverified_contributions ::= <[level := unv']> |>
           <| byzantine_nodes := byz |> <| scoring_window := w |> /\
    lvl' = lvl <| prioritized_contributions := [] |>
               <| individual_contributions := ics |> <| best_contribution := best |> /\
    unv' ⊆ unv /\ verified (contribution best) /\ score (best_contribution lvl) <= score best /\
    Forall (fun ic => verified ic) ics /\
    (forall p, honest p -> p ∉ byz) /\ byzantine_nodes h ⊆ byz.
Proof.
  intros Hpd Hbest Hics Hprio Hunv Hbyz Hag. unfold aggregate_level in Hag.
  apply bind_Done in Hag as (peers & _ & Hag).
  destruct (prioritize peers _ unv _) as [unv' prio] eqn:Epr.
  rewrite Hprio in Epr. destruct (prioritize_sub _ _ _ _ _ _ Epr) as [Hsub Hin].
  apply bind_Done in Hag as (sc & Hsc & Hag). apply bind_Done in Hag as (((best & byz) & w) & Hver & Hag).
  rewrite Hpd in Hsc, Hver.
  assert (scoring_ok sc /\ byzantine_nodes h ⊆ sc_byzantine sc) as [(Hi & Hs & Hb) Hsubz].
  { pose proof (fun Hcs Hs => score_fold_ok _ _ _ _ _ Hbest Hcs Hs Hsc) as Hfold.
    apply Hfold; [|split_and!; cbn; [done|set_solver|done]].
    intros c Hc. rewrite elem_of_reverse in Hc.
    destruct (Hin c Hc) as [?|(pix & Hpix)]; [set_solver|eauto]. }
  destruct (verify_fold_ok _ _ _ _ _ _ _ _ Hbest Hs Hb Hver) as (? & ? & ? & ?).
  injection Hag as <- <-. exists unv', byz, w, best, (sc_individual sc).
  split_and!; try done. set_solver.
Qed.

(** ** The invariant *)

Context (cf : HandelConfig) (pp : PP).

Definition level_ok (i : nat) (l : ActiveLevel (C := C)) : Prop :=
  verified (contribution (best_contribution l)) /\
  Forall (fun ic => verified ic) (individual_contributions l) /\
  prioritized_contributions l = [] /\
  (is_completed l = true -> i <> 0 -> pp_peers_at_level pp i VP <> Done [] ->
   is_complete (contribution (best_contribution l)) i (threshold cf) = Done true) /\
  (is_completed l = false -> i = 1 \/ pp_peers_at_level pp i VP <> Done []).

Record inv (h : Handel (C := C) (P := P) (PP := PP) (PeerId := PeerId) (Addr := Addr)) : Prop := {
  inv_conf : conf h = cf;
  inv_pd : public_data h = pd;
  inv_pp : peer_partitions h = pp;
  inv_len : length (levels h) = pp_num_levels pp;
  inv_unv_len : length (unverified_contributions h) = pp_num_levels pp;
  inv_level i l : levels h !! i = Some (Some l) -> level_ok i l;
  inv_own : exists l0, levels h !! 0 = Some (Some l0) /\ is_completed l0 = true;
  inv_unv i m pix c : unverified_contributions h !! i = Some m -> m !! pix = Some c -> pending_ok c;
  inv_honest p : honest p -> p ∉ byzantine_nodes h;
}.

(** A level of the later state is at least as good; a completed level does
    not change any more; bans are not lifted. *)
Definition level_le (l l' : ActiveLevel (C := C)) : Prop :=
  score (best_contribution l) <= score (best_contribution l') /\
  (is_completed l = true -> is_completed l' = true /\ best_contribution l' = best_contribution l).

Definition progress (h h' : Handel (C := C) (P := P) (PP := PP) (PeerId := PeerId) (Addr := Addr)) : Prop :=
  (forall i l, levels h !! i = Some (Some l) ->
    exists l', levels h' !! i = Some (Some l') /\ level_le l l') /\
  byzantine_nodes h ⊆ byzantine_nodes h'.

#[export] Instance level_le_preorder : PreOrder level_le.
Proof.
  split.
  - intros l. split; [lia|done].
  - intros l1 l2 l3 [Hs1 Hc1] [Hs2 Hc2]. split; [lia|]. intros Hc.
    destruct (Hc1 Hc) as [Hc' Hb]. destruct (Hc2 Hc') as [Hc'' Hb']. split; [done|congruence].
Qed.

#[export] Instance progress_preorder : PreOrder progress.
Proof.
  split.
  - intros h. split; [|done]. intros i l Hl. exists l. split; [done|reflexivity].
  - intros h1 h2 h3 [Hl1 Hb1] [Hl2 Hb2]. split; [|set_solver]. intros i l Hl.
    destruct (Hl1 i l Hl) as (l' & Hl' & Hle). destruct (Hl2 i l' Hl') as (l'' & Hl'' & Hle').
    exists l''. split; [done|]. by transitivity l'.
Qed.

Lemma set_level_inv h i l :
  inv h -> level_ok i l -> (i = 0 -> is_completed l = true) ->
  inv (h <| levels ::= <[i := Some l]> |>).
Proof.
  intros [] Hl Hi0. split; cbn; try done.
  - by rewrite length_insert.
  - intros j l' Hj. apply list_lookup_insert_Some in Hj as [(<- & [= <-] & _)|[_ Hj]]; eauto.
  - destruct inv_own0 as (l0 & Hl0 & Hc). destruct (decide (i = 0)) as [->|Hne].
    + exists l. split; [|auto]. apply list_lookup_insert_eq. by eapply lookup_lt_Some.
    + exists l0. rewrite list_lookup_insert_ne by done. done.
Qed.

Lemma set_level_progress h i l :
  (forall l0, levels h !! i = Some (Some l0) -> level_le l0 l) ->
  progress h (h <| levels ::= <[i := Some l]> |>).
Proof.
  intros Hle. split; [|done]. cbn. intros j l0 Hj. destruct (decide (i = j)) as [->|Hne].
  - exists l. split; [|by apply Hle]. apply list_lookup_insert_eq. by eapply lookup_lt_Some.
  - exists l0. rewrite list_lookup_insert_ne by done. split; [done|reflexivity].
Qed.

(** Two states with the same levels, pending contributions and bans. *)
Definition same_core (h h' : Handel (C := C) (P := P) (PP := PP) (PeerId := PeerId) (Addr := Addr)) : Prop :=
  conf h' = conf h /\ public_data h' = public_data h /\ peer_partitions h' = peer_partitions h /\
  levels h' = levels h /\ unverified_contributions h' = unverified_contributions h /\
  byzantine_nodes h' = byzantine_nodes h.

Lemma same_core_inv h h' : same_core h h' -> inv h -> inv h'.
Proof. intros (E1 & E2 & E3 & E4 & E5 & E6) []. split; rewrite ?E1, ?E2, ?E3, ?E4, ?E5, ?E6; done. Qed.

Lemma same_levels_progress h h' :
  levels h' = levels h -> byzantine_nodes h ⊆ byzantine_nodes h' -> progress h h'.
Proof. intros El Hb. split; [|done]. rewrite El. apply progress_preorder. Qed.

Lemma same_core_progress h h' : same_core h h' -> progress h h'.
Proof. intros (_ & _ & _ & E4 & _ & E6). apply same_levels_progress; [done|by rewrite E6]. Qed.

(** An operation keeps the invariant and makes progress. *)
Definition good h h' : Prop := inv h' /\ progress h h'.

Lemma same_core_good h h' : same_core h h' -> inv h -> good h h'.
Proof. intros Hs Hi. split; [by eapply same_core_inv|by apply same_core_progress]. Qed.

Lemma good_trans h1 h2 h3 : good h1 h2 -> good h2 h3 -> good h1 h3.
Proof. intros [_ H12] [Hi H23]. split; [done|]. by transitivity h2. Qed.

Lemma run_fast_path_core h level h' : run_fast_path h level = Done h' -> same_core h h'.
Proof.
  unfold run_fast_path. intros Hr. bind_inv. destruct v0 as [lvl|]; [|by simplify_eq].
  destruct (negb _); [done|]. bind_inv. by subst h'.
Qed.

Lemma try_activate_good fuel h level h' :
  inv h -> try_activate_level_fuel fuel h level = Done h' -> good h h'.
Proof.
  revert h level. induction fuel as [|fuel IH]; intros h level Hinv Ht; [done|].
  cbn -[is_active] in Ht. destruct (length (levels h) <=? level)%nat; [by simplify_eq|].
  destruct (is_active h level) eqn:Hact; [by simplify_eq|].
  destruct (Nat.eqb_spec level 0) as [|Hl0]; [done|]. bind_inv.
  destruct v as [prev|]; [|by simplify_eq].
  apply bind_Done in Ht as (pts & Hpts & Ht). rewrite (inv_pp h Hinv) in Hpts.
  destruct (inv_level h Hinv _ _ Hv) as (Hver & _).
  assert (forall l0, levels h !! level = Some (Some l0) -> False) as Hno.
  { intros l0 Hl. unfold is_active in Hact. by rewrite Hl in Hact. }
  destruct pts as [|p pts].
  - eapply good_trans; [|eapply IH; [|exact Ht]].
    + split; [|apply set_level_progress; by intros l0 Hact0%Hno].
      apply set_level_inv; [done| |done]. split_and!; [done..| |done]. intros _ _ Hne. by rewrite Hpts in Hne.
    + apply set_level_inv; [done| |done]. split_and!; [done..| |done]. intros _ _ Hne. by rewrite Hpts in Hne.
  - injection Ht as <-. split; [|apply set_level_progress; by intros l0 Hact0%Hno].
    apply set_level_inv; [done| |done]. split_and!; [done..|]. intros _. right. by rewrite Hpts.
Qed.

Lemma handle_contribution_good h peer_id level contact agg ind h' ok :
  inv h ->
  (forall pix, pp_try_index_peer pp peer_id = Some pix ->
    pending_ok {| sender_id := pix; aggregate_contribution := agg; individual_contribution := ind |}) ->
  handle_contribution h peer_id level contact agg ind = Done (h', ok) ->
  good h h' /\ (ok = true -> forall l, levels h' !! level = Some (Some l) -> is_completed l = false).
Proof.
  intros Hinv Hok Hh. unfold handle_contribution in Hh. rewrite (inv_pp h Hinv) in Hh.
  destruct (pp_try_index_peer pp peer_id) as [pix|] eqn:Hix;
    [|simplify_eq; split; [split; [done|apply progress_preorder]|done]].
  set (h1 := if contact then h else _) in Hh.
  assert (same_core h h1) as Hcore by (unfold h1; by destruct contact).
  destruct (same_core_good _ _ Hcore Hinv) as [Hinv1 Hprog1].
  apply bind_Done in Hh as (ol & Hol & Hh). apply unwrap_Done in Hol.
  destruct (_ && _) eqn:Hcond; [|simplify_eq; done].
  apply andb_true_iff in Hcond as [_ Hunc].
  apply bind_Done in Hh as (m & Hm & Hh). apply unwrap_Done in Hm. simplify_eq. split.
  - split; [|by etrans; [exact Hprog1|]; apply same_levels_progress]. destruct Hinv1. split; cbn; try done.
    + by rewrite length_insert.
    + intros i m' pix' c Hi Hc.
      apply list_lookup_insert_Some in Hi as [(<- & <- & _)|[_ Hi]]; [|eauto].
      apply lookup_insert_Some in Hc as [[<- <-]|[_ Hc]]; [by apply Hok|eauto].
  - intros _ l Hl. cbn in Hl. rewrite Hol in Hl. simplify_eq.
    by apply negb_true_iff in Hunc.
Qed.

Lemma run_aggregation_good h level h' :
  inv h -> (forall l, levels h !! level = Some (Some l) -> is_completed l = false) ->
  run_aggregation h level = Done h' -> good h h'.
Proof.
  intros Hinv Hunc Hr. unfold run_aggregation in Hr.
  assert (good h h) as Hrefl by (split; [done|apply progress_preorder]).
  apply bind_Done in Hr as (ol & Hol & Hr). apply unwrap_Done in Hol.
  destruct ol as [lvl|]; [|by simplify_eq].
  apply bind_Done in Hr as (unv & Hunv & Hr). apply unwrap_Done in Hunv.
  case_decide; [by simplify_eq|]. apply bind_Done in Hr as ([h1 lvl1] & Hag & Hr).
  destruct (inv_level h Hinv _ _ Hol) as (Hver & Hics & Hprio & _ & Hne).
  destruct (aggregate_level_ok _ _ _ _ _ _ (inv_pd h Hinv) Hver Hics Hprio
    (fun pix c => inv_unv h Hinv level unv pix c Hunv) (inv_honest h Hinv) Hag)
    as (unv' & byz & w & best & ics & -> & -> & Hsub & Hbv & Hbs & Hicv & Hhon & Hbyz).
  assert (good h (h <| unverified_contributions ::= <[level := unv']> |>
      <| byzantine_nodes := byz |> <| scoring_window := w |>)) as [Hinv1 Hprog1].
  { split; [|by apply same_levels_progress]. destruct Hinv. split; cbn; try done; [by rewrite length_insert|].
    intros i m pix c Hi Hc. apply list_lookup_insert_Some in Hi as [(<- & <- & _)|[_ Hi]]; [|eauto].
    eapply inv_unv0; [exact Hunv|]. by eapply lookup_weaken. }
  apply bind_Done in Hr as (compl & Hcompl & Hr). cbn in Hcompl.
  assert (is_completed lvl = false) as Hlc by auto.
  destruct compl.
  - apply bind_Done in Hr as (h2 & Hfp & Hr). apply run_fast_path_core in Hfp.
    eapply good_trans; [|eapply try_activate_good; [|exact Hr]]; cycle 1.
    { eapply same_core_inv; [exact Hfp|]. apply set_level_inv; [done| |done].
      split_and!; [done..| |done]. intros _ _ _. cbn. by rewrite <- (inv_conf h Hinv). }
    eapply good_trans; [|eapply same_core_good; [exact Hfp|]].
    + split; [apply set_level_inv; [done| |done]|].
      * split_and!; [done..| |done]. intros _ _ _. cbn. by rewrite <- (inv_conf h Hinv).
      * etrans; [exact Hprog1|]. apply set_level_progress. cbn. intros l0 Hl0.
        rewrite Hol in Hl0. simplify_eq. split; [done|]. by rewrite Hlc.
    + apply set_level_inv; [done| |done].
      split_and!; [done..| |done]. intros _ _ _. cbn. by rewrite <- (inv_conf h Hinv).
  - injection Hr as <-. split; [apply set_level_inv; [done| |]|].
    + split_and!; [done..| |]; cbn; [by rewrite Hlc|]. intros _. by apply Hne.
    + intros ->. destruct (inv_own h Hinv) as (l0 & Hl0 & Hc0). rewrite Hol in Hl0. simplify_eq. congruence.
    + etrans; [exact Hprog1|]. apply set_level_progress. cbn. intros l0 Hl0.
      rewrite Hol in Hl0. simplify_eq. split; [done|]. by rewrite Hlc.
Qed.

Lemma inject_message_good h peer_id msg h' :
  inv h ->
  (forall pix, pp_try_index_peer pp peer_id = Some pix -> honest pix ->
    verified (msg_aggregate_contribution msg) /\
    forall ic, msg_individual_contribution msg = Some ic -> verified ic) ->
  inject_message h peer_id msg = Done h' -> good h h'.
Proof.
  intros Hinv Hmsg Hi. unfold inject_message in Hi.
  apply bind_Done in Hi as ([h1 ok] & Hh & Hi).
  destruct (handle_contribution_good _ _ _ _ _ _ _ _ Hinv Hmsg Hh) as [Hg Hunc].
  destruct ok; [|by simplify_eq]. eapply good_trans; [exact Hg|].
  eapply run_aggregation_good; [apply Hg|by apply Hunc|done].
Qed.

Lemma disseminate_level_good own h lix h' :
  inv h -> disseminate_level own h lix = Done h' -> good h h'.
Proof.
  intros Hinv Hd. assert (good h h) as Hrefl by (split; [done|apply progress_preorder]).
  unfold disseminate_level in Hd. apply bind_Done in Hd as (ol & Hol & Hd). apply unwrap_Done in Hol.
  destruct ol as [lvl|]; [|by simplify_eq].
  apply bind_Done in Hd as (peers & _ & Hd). apply bind_Done in Hd as (all & _ & Hd).
  destruct all; [by simplify_eq|]. apply bind_Done in Hd as (next & _ & Hd).
  destruct next as [[pix pos]|]; [|by simplify_eq].
  apply bind_Done in Hd as (pid & _ & Hd). apply bind_Done in Hd as (sent & _ & Hd).
  injection Hd as <-. destruct (inv_level h Hinv _ _ Hol) as (? & ? & ? & ? & ?).
  set (lvl' := lvl <| last_contacted_peer_ix := _ |> <| sent_contribution_scores := _ |>).
  eapply (good_trans _ (h <| levels ::= <[lix := Some lvl']> |>)); [|apply same_core_good; [done|]].
  - split; [apply set_level_inv; [done|done|]|apply set_level_progress].
    + intros ->. destruct (inv_own h Hinv) as (l0 & Hl0 & Hc). by simplify_eq.
    + intros l0 Hl0. rewrite Hol in Hl0. simplify_eq. by split.
  - apply set_level_inv; [done|done|].
    intros ->. destruct (inv_own h Hinv) as (l0 & Hl0 & Hc). by simplify_eq.
Qed.

Lemma foldO_good {A} (f : Handel -> A -> outcome Handel) l h h' :
  (forall h x h', inv h -> f h x = Done h' -> good h h') ->
  inv h -> foldO f l h = Done h' -> good h h'.
Proof.
  intros Hf. revert h. induction l as [|x l IH]; intros h Hinv Hl; cbn in Hl.
  - simplify_eq. split; [done|apply progress_preorder].
  - bind_inv. pose proof (Hf _ _ _ Hinv Hv) as Hg. eapply good_trans; [exact Hg|].
    by apply IH; [apply Hg|].
Qed.

Lemma poll_good h t h' o : inv h -> poll h t = Done (h', o) -> good h h'.
Proof.
  intros Hinv Hp. unfold poll in Hp.
  assert (good h h) as Hrefl by (split; [done|apply progress_preorder]).
  apply bind_Done in Hp as (h1 & H1 & Hp). assert (good h h1) as Hg1.
  { destruct (dissemination_ready t); [|by simplify_eq]. unfold run_dissemination in H1.
    apply bind_Done in H1 as (own & _ & H1). eapply foldO_good; [|done|exact H1].
    intros ????. by apply disseminate_level_good. }
  apply bind_Done in Hp as (h2 & H2 & Hp). assert (good h h2) as Hg2.
  { destruct (activation_ready t); [|by simplify_eq].
    destruct (next_non_active_level h1); [|by simplify_eq].
    eapply good_trans; [exact Hg1|]. eapply try_activate_good; [apply Hg1|exact H2]. }
  destruct (_ && _); [by simplify_eq|].
  eapply good_trans; [exact Hg2|]. apply same_core_good; [|apply Hg2].
  destruct (outbox h2); [|by simplify_eq]. apply bind_Done in Hp as (ca & _ & Hp).
  destruct ca; by simplify_eq.
Qed.

Lemma new_inv own ix h :
  verified own -> new cf own pd pp ix = Done h -> inv h.
Proof.
  intros Hown Hn. unfold new in Hn. destruct (Nat.ltb_spec (pp_num_levels pp) 2) as [|Hlen]; [done|].
  injection Hn as <-. split; cbn; try done.
  - by rewrite !length_insert, length_replicate.
  - by rewrite length_replicate.
  - intros i l Hl.
    apply list_lookup_insert_Some in Hl as [(<- & [= <-] & _)|[_ Hl]]; [by split_and!|].
    apply list_lookup_insert_Some in Hl as [(<- & [= <-] & _)|[_ Hl]]; [split_and!; auto; done|].
    by apply lookup_replicate in Hl as [? _].
  - exists (active_level_unit {| score := 1; contribution := own |}). split; [|done].
    apply list_lookup_insert_eq.
    rewrite length_insert, length_replicate. lia.
  - intros i m pix c Hi Hc. apply lookup_replicate in Hi as [-> _]. by rewrite lookup_empty in Hc.
Qed.

(** Steps in which honest peers send contributions that verify. *)
Inductive honest_step : Handel (C := C) (P := P) (PP := PP) (PeerId := PeerId) (Addr := Addr) ->
    Handel (C := C) (P := P) (PP := PP) (PeerId := PeerId) (Addr := Addr) -> Prop :=
| honest_inject h h' peer_id msg :
    (forall pix, pp_try_index_peer pp peer_id = Some pix -> honest pix ->
      verified (msg_aggregate_contribution msg) /\
      forall ic, msg_individual_contribution msg = Some ic -> verified ic) ->
    inject_message h peer_id msg = Done h' -> honest_step h h'
| honest_poll h h' t o : poll h t = Done (h', o) -> honest_step h h'.

Lemma honest_step_good h h' : inv h -> honest_step h h' -> good h h'.
Proof.
  intros Hinv Hs. inversion Hs; subst; [eapply inject_message_good; eassumption|].
  eapply poll_good; eassumption.
Qed.

Lemma honest_steps_good h h' : inv h -> rtc honest_step h h' -> good h h'.
Proof.
  intros Hinv Hr. induction Hr as [h|h1 h2 h3 Hs _ IH]; [split; [done|apply progress_preorder]|].
  pose proof (honest_step_good _ _ Hinv Hs) as Hg. eapply good_trans; [exact Hg|]. apply IH, Hg.
Qed.
End Safety.

(** ** Absence of panics *)

Section Totality.
Context {C P PP PeerId Addr : Type}.
Context `{!PartialSemigroup C, !Weighted C, !VerifiableAgainst P C, !VerifiableLaws P C}.
Context `{!PeerPartitions PP PeerId Addr}.
Context (pd : P) (cf : HandelConfig) (pp : PP) `{!PeerPartitionsLaws pp}.

Abbreviation Round := (Handel (C := C) (P := P) (PP := PP) (PeerId := PeerId) (Addr := Addr)).
Abbreviation any_inv := (inv (fun _ => False) pd cf pp).

(** The configuration does not divide by zero, and the thresholds of all
    levels fit [usize]. *)
Definition config_ok : Prop :=
  window_shrinking_factor cf <> 0%Z /\ denom (threshold cf) <> 0%Z /\ (0 <= num (threshold cf))%Z /\
  forall l, l < pp_num_levels pp -> (2 ^ Z.of_nat l * Z.max 1 (num (threshold cf)) <= u64_max)%Z.

Lemma is_complete_total c l :
  config_ok -> l < pp_num_levels pp -> exists b, is_complete (C := C) c l (threshold cf) = Done b.
Proof.
  intros (_ & Hd & Hn & Hb) Hl. specialize (Hb l Hl). unfold is_complete, threshold_min, checked.
  pose proof (Z.pow_pos_nonneg 2 (Z.of_nat l)).
  rewrite bool_decide_true by nia. cbn -[Z.pow]. rewrite bool_decide_true by nia. cbn -[Z.pow].
  rewrite (proj2 (Z.eqb_neq _ _)) by done. eauto.
Qed.

Lemma shrink_window_total w : config_ok -> exists w', shrink_window (window_shrinking_factor cf) w = Done w'.
Proof. intros (Hf & _). unfold shrink_window. rewrite (proj2 (Z.eqb_neq _ _)) by done. eauto. Qed.

Lemma aggregate_level_total (h : Round) level lvl unv :
  config_ok -> any_inv h -> level < pp_num_levels pp ->
  exists h' lvl', aggregate_level h level lvl unv = Done (h', lvl').
Proof.
  intros Hcf Hinv Hl. unfold aggregate_level. rewrite (inv_pp _ _ _ _ _ Hinv), (inv_conf _ _ _ _ _ Hinv).
  destruct (pp_levels_defined level VP Hl) as (pts & ->). outcome_cbn.
  destruct (prioritize _ _ _ _) as [unv' prio].
  match goal with |- context [foldO ?f ?l ?s] => destruct (foldO_total f l s) as (sc & ->) end.
  { intros s c _. unfold score_step. destruct (individual_contribution c) as [ic|]; [|eauto].
    destruct (verify ic _); [eauto|].
    destruct (shrink_window_total (sc_window s) Hcf) as (w & ->). cbn. eauto. }
  outcome_cbn.
  match goal with |- context [foldO ?f ?l ?s] => destruct (foldO_total f l s) as ([[b z] w] & ->) end;
    [|cbn; eauto].
  intros [[b z] w] sc' _. unfold verify_step. destruct (verify _ _); [eauto|].
  destruct (shrink_window_total w Hcf) as (w' & ->). cbn. eauto.
Qed.

Lemma run_fast_path_total (h : Round) level lvl cvp :
  any_inv h -> levels h !! level = Some (Some lvl) -> is_completed lvl = true ->
  pp_peers_at_level pp level CVP = Done cvp -> cvp <> [] ->
  exists h', run_fast_path h level = Done h'.
Proof.
  intros Hinv Hl Hc Hcvp Hne. unfold run_fast_path. rewrite (inv_pp _ _ _ _ _ Hinv).
  destruct (inv_own _ _ _ _ _ Hinv) as (l0 & -> & _). cbn [mbind outcome_bind unwrap].
  rewrite Hl. cbn [mbind outcome_bind unwrap]. rewrite Hc, Hcvp. cbn [negb mbind outcome_bind].
  assert (length cvp <> 0) as Hlen by by destruct cvp.
  set (offset := match last_contacted_peer_ix lvl with Some x => x + 1 | None => 0 end).
  rewrite (mapO_Done _ (fun ix => (ix + offset) mod length cvp)); cycle 1.
  { intros ix _. rewrite (proj2 (Nat.eqb_neq _ _)) by done. done. }
  outcome_cbn.
  match goal with |- context [mapO ?f ?l] => destruct (mapO_total f l) as (cands & Hcands) end.
  { intros ix (j & -> & _)%list_elem_of_fmap.
    destruct (lookup_lt_is_Some_2 cvp ((j + offset) mod length cvp)) as [x Hx];
      [by apply Nat.mod_upper_bound|]. rewrite Hx. by eexists. }
  rewrite Hcands. outcome_cbn.
  match goal with |- context [mapO ?f ?l] => destruct (mapO_total f l) as (msgs & ->) end; [|cbn; eauto].
  intros pix Hpix. assert (pix ∈ cvp) as Hin.
  { assert (forall l x, x ∈ dedup l -> x ∈ l) as Hded.
    { intros l x. induction l as [|a [|b l] IH]; [done|done|]. cbn -[Nat.eqb].
      destruct (Nat.eqb a b); set_solver. }
    apply Hded, elem_of_sort_by, list_elem_of_filter in Hpix as [_ Hpix].
    destruct (mapO_elem _ _ _ _ Hcands Hpix) as (ix & _ & Hix).
    apply unwrap_Done in Hix. by eapply list_elem_of_lookup_2. }
  unfold fast_path_message. rewrite (inv_pp _ _ _ _ _ Hinv).
  destruct (pp_identified _ _ _ _ Hcvp Hin) as (pid & ->). cbn. eauto.
Qed.

Lemma try_activate_total fuel (h : Round) level :
  any_inv h -> level <> 0 -> pp_num_levels pp - level < fuel ->
  exists h', try_activate_level_fuel fuel h level = Done h'.
Proof.
  revert h level. induction fuel as [|fuel IH]; intros h level Hinv Hl0 Hf; [lia|].
  cbn -[is_active]. destruct (Nat.leb_spec (length (levels h)) level) as [|Hlt]; [eauto|].
  rewrite (inv_len _ _ _ _ _ Hinv) in Hlt.
  destruct (is_active h level); [eauto|]. rewrite (proj2 (Nat.eqb_neq _ _)) by done.
  destruct (lookup_lt_is_Some_2 (levels h) (level - 1)) as [prev Hprev];
    [rewrite (inv_len _ _ _ _ _ Hinv); lia|]. rewrite Hprev. cbn -[is_active].
  destruct prev as [prev|]; [|eauto]. rewrite (inv_pp _ _ _ _ _ Hinv).
  destruct (pp_levels_defined level VP Hlt) as (pts & Hpts). rewrite Hpts. cbn -[is_active].
  destruct pts; [|eauto]. apply IH; [|lia|lia].
  destruct (inv_level _ _ _ _ _ Hinv _ _ Hprev) as (Hv & _).
  apply set_level_inv; [done| |done]. split_and!; [done..| |done]. intros _ _ Hne. by rewrite Hpts in Hne.
Qed.

Lemma run_aggregation_total (h : Round) level :
  config_ok -> any_inv h -> pp_peers_at_level pp 1 VP <> Done [] ->
  level < pp_num_levels pp ->
  (forall l, levels h !! level = Some (Some l) -> is_completed l = false) ->
  exists h', run_aggregation h level = Done h'.
Proof.
  intros Hcf Hinv H1 Hl Hunc. unfold run_aggregation.
  destruct (lookup_lt_is_Some_2 (levels h) level) as [ol Hol]; [by rewrite (inv_len _ _ _ _ _ Hinv)|].
  rewrite Hol. cbn [mbind outcome_bind unwrap]. destruct ol as [lvl|]; [|eauto].
  destruct (lookup_lt_is_Some_2 (unverified_contributions h) level) as [unv Hunv];
    [by rewrite (inv_unv_len _ _ _ _ _ Hinv)|].
  rewrite Hunv. cbn [mbind outcome_bind unwrap]. case_decide; [eauto|].
  destruct (aggregate_level_total h level lvl unv Hcf Hinv Hl) as (h1 & lvl1 & Hag). rewrite Hag.
  outcome_cbn.
  destruct (inv_level _ _ _ _ _ Hinv _ _ Hol) as (Hver & Hics & Hprio & _ & Hne).
  destruct (aggregate_level_ok (fun _ => False) pd _ _ _ _ _ _ (inv_pd _ _ _ _ _ Hinv) Hver Hics Hprio
    (fun pix c => inv_unv _ _ _ _ _ Hinv level unv pix c Hunv) (inv_honest _ _ _ _ _ Hinv) Hag)
    as (unv' & byz & w & best & ics & Hh1 & Hlvl1 & Hsub & Hbv & _ & Hicv & Hhon & Hbyz).
  assert (conf h1 = cf) as -> by (subst h1; apply Hinv).
  destruct (is_complete_total (contribution (best_contribution lvl1)) level Hcf Hl) as (b & Hcompl).
  rewrite Hcompl. outcome_cbn. destruct b; [|eauto].
  assert (any_inv (h1 <| levels ::= <[level := Some (completed lvl1)]> |>)) as Hinv2.
  { apply set_level_inv; [subst h1|subst lvl1|done].
    - destruct Hinv. split; cbn; try done. by rewrite length_insert.
    - split_and!; try done. }
  assert (pp_peers_at_level pp level VP <> Done []) as Hnev.
  { destruct (Hne (Hunc _ Hol)) as [->|]; done. }
  destruct (pp_levels_defined level VP Hl) as (vp & Hvp).
  destruct (pp_levels_defined level CVP Hl) as (cvp & Hcvp).
  assert (cvp <> []) as Hcne.
  { intros ->. pose proof (pp_orders_agree _ _ _ Hvp Hcvp) as Hp%Permutation_nil. congruence. }
  edestruct (run_fast_path_total _ level (completed lvl1) cvp Hinv2) as (h2 & Hfp); [|done..|].
  { cbn. apply list_lookup_insert_eq. subst h1. cbn. by eapply lookup_lt_Some. }
  rewrite Hfp. outcome_cbn. apply run_fast_path_core in Hfp.
  pose proof (same_core_inv _ _ _ _ _ _ Hfp Hinv2) as Hinv3.
  apply try_activate_total; [done|lia|]. rewrite (inv_len _ _ _ _ _ Hinv3). lia.
Qed.

Lemma inject_message_total (h : Round) peer_id msg :
  config_ok -> any_inv h -> pp_peers_at_level pp 1 VP <> Done [] ->
  msg_level msg < pp_num_levels pp ->
  exists h', inject_message h peer_id msg = Done h'.
Proof.
  intros Hcf Hinv H1 Hl. unfold inject_message.
  assert (exists h1 ok, handle_contribution h peer_id (msg_level msg) (msg_contact_sender msg)
    (msg_aggregate_contribution msg) (msg_individual_contribution msg) = Done (h1, ok)) as (h1 & ok & Hh).
  { unfold handle_contribution. destruct (pp_try_index_peer _ _) as [pix|]; [|eauto].
    set (h1 := if msg_contact_sender msg then h else _).
    assert (levels h1 = levels h /\ unverified_contributions h1 = unverified_contributions h) as [-> ->]
      by (unfold h1; by destruct (msg_contact_sender msg)).
    destruct (lookup_lt_is_Some_2 (levels h) (msg_level msg)) as [ol ->];
      [by rewrite (inv_len _ _ _ _ _ Hinv)|]. cbn [mbind outcome_bind unwrap].
    destruct (lookup_lt_is_Some_2 (unverified_contributions h) (msg_level msg)) as [m ->];
      [by rewrite (inv_unv_len _ _ _ _ _ Hinv)|].
    destruct (_ && _); cbn; eauto. }
  rewrite Hh. outcome_cbn. destruct ok; [|eauto].
  pose proof (fun Hm => handle_contribution_good (fun _ => False) pd cf pp _ _ _ _ _ _ _ _ Hinv Hm Hh)
    as Hgood.
  destruct Hgood as [[Hinv1 _] Hunc]; [by intros pix _ []|].
  apply run_aggregation_total; auto.
Qed.

Lemma step_honest (h h' : Round) : step h h' -> honest_step (fun _ => False) pd pp h h'.
Proof.
  intros [? ? ? ? Hi|? ? ? ? Hp]; [eapply honest_inject; [|exact Hi]|eapply honest_poll; exact Hp].
  by intros pix _ [].
Qed.

Lemma reachable_inv own ix (h : Round) :
  verify own pd = true -> reachable cf own pd pp ix h -> any_inv h.
Proof.
  intros Hown (h0 & Hnew & Hrtc). pose proof (new_inv (fun _ => False) pd cf pp own ix h0 Hown Hnew) as Hinv.
  eapply (honest_steps_good (fun _ => False) pd cf pp h0 h Hinv).
  eapply rtc_subrel; [|exact Hrtc]. intros ??. apply step_honest.
Qed.

Lemma complete_aggregate_verified own ix (h : Round) c :
  verify own pd = true -> reachable cf own pd pp ix h ->
  get_complete_aggregate h = Done (Some c) -> verify c pd = true.
Proof.
  intros Hown Hreach Hg. pose proof (reachable_inv own ix h Hown Hreach) as Hinv.
  unfold get_complete_aggregate in Hg. destruct (length (levels h) =? 0)%nat; [done|]. bind_inv.
  destruct v as [l|]; [|done]. destruct (is_completed l); [|done]. simplify_eq.
  by destruct (inv_level _ _ _ _ _ Hinv _ _ Hv) as (Hver & _).
Qed.
End Totality.

(** ** The partition table implements the interface *)

(** A table built by [BinomialPeerPartitions::new] meets the interface the
    round relies on: every level is defined in both orders, the orders list
    the same peers, and every listed peer is identified. *)
Theorem binomial_partitions_laws {PeerId Addr Rng} `{Countable PeerId} `{!GenPermutation Rng PeerId}
    (random_peers : nat -> list PeerId) host (ps : list (PeerId * option Addr)) (r : Rng) t :
  committee_ok host ps -> fresh_peers random_peers ps ->
  Partitioning.new random_peers host ps r = Done t -> PeerPartitionsLaws t.
Proof.
  intros Hok Hfresh Hnew.
  destruct (new_shape random_peers host ps r Hok Hfresh)
    as (t' & k & h & pts & Hnew' & _ & _ & _ & _ & _ & Hvp & Hcvp). outcome_eq.
  assert (Forall2 Permutation (partitions_by_vp t) (filter (fun pix => real_peer ps t pix = true) <$> pts))
    as Hvp' by (rewrite Hvp; apply ordered_by_vp_perm).
  assert (length (partitions_by_cvp t) = length (partitions_by_vp t)) as Hlen
    by by rewrite (Forall2_length _ _ _ Hvp'), (Forall2_length _ _ _ Hcvp).
  split.
  - cbn. unfold num_levels. intros l [] Hl; cbn.
    + destruct (lookup_lt_is_Some_2 (partitions_by_vp t) l Hl) as [x ->]. by eexists.
    + rewrite <- Hlen in Hl. destruct (lookup_lt_is_Some_2 (partitions_by_cvp t) l Hl) as [x ->]. by eexists.
  - cbn. intros l vp cvp Hl Hl'. bind_inv.
    destruct (Forall2_lookup_l _ _ _ _ _ Hvp' Hl) as (x & Hx & ->).
    destruct (Forall2_lookup_l _ _ _ _ _ Hcvp Hl') as (y & Hy & ->). by simplify_eq.
  - cbn. intros l o lv pix Hl Hin.
    assert (real_peer ps t pix = true) as Hreal.
    { destruct o; cbn in Hl; bind_inv.
      - destruct (Forall2_lookup_l _ _ _ _ _ Hvp' Hl) as (x & Hx & Hperm). rewrite Hperm in Hin.
        apply list_lookup_fmap_Some in Hx as (y & -> & _). by apply list_elem_of_filter in Hin as [? _].
      - destruct (Forall2_lookup_l _ _ _ _ _ Hcvp Hl) as (x & Hx & Hperm). rewrite Hperm in Hin.
        apply list_lookup_fmap_Some in Hx as (y & -> & _). by apply list_elem_of_filter in Hin as [? _]. }
    unfold real_peer in Hreal. unfold identify_peer. destruct (peers t !! pix); [by eexists|done].
Qed.

(** ** Correctness of a round *)

(** C2: in every reachable state, the aggregate a round reports as complete is
    verified and weighs at least the threshold of the last level, provided
    the own contribution verifies and the last level has peers. *)
Theorem complete_aggregate_valid {C P PP PeerId Addr : Type}
    `{!PartialSemigroup C, !Weighted C, !VerifiableAgainst P C, !VerifiableLaws P C}
    `{!PeerPartitions PP PeerId Addr} (cf : HandelConfig) (own : C) (pd : P) (pp : PP) ix h c :
  verify own pd = true -> reachable (Addr := Addr) cf own pd pp ix h ->
  pp_peers_at_level pp (pp_num_levels pp - 1) VP <> Done [] -> 2 <= pp_num_levels pp ->
  get_complete_aggregate h = Done (Some c) ->
  verify c pd = true /\
  exists required, threshold_min (threshold cf) (2 ^ Z.of_nat (pp_num_levels pp - 1)) = Done required /\
    (required <= Z.of_nat (weight c))%Z.
Proof.
  intros Hown Hreach Hlast Hn Hg. pose proof (reachable_inv pd cf pp own ix h Hown Hreach) as Hinv.
  unfold get_complete_aggregate in Hg. rewrite (inv_len _ _ _ _ _ Hinv) in Hg.
  rewrite (proj2 (Nat.eqb_neq _ _)) in Hg by lia. bind_inv.
  destruct v as [l|]; [|done]. destruct (is_completed l) eqn:Hc; [|done]. simplify_eq.
  destruct (inv_level _ _ _ _ _ Hinv _ _ Hv) as (Hver & _ & _ & Hcomp & _). split; [done|].
  specialize (Hcomp Hc ltac:(lia) Hlast). unfold is_complete in Hcomp. bind_inv.
  apply checked_Done in Hv0 as [? ->].
  exists v0. split; [done|]. by apply Z.leb_le in Hcomp.
Qed.

(** Along any run, the best score of a level never decreases, a completed
    level keeps its aggregate, active levels stay active and bans are never
    lifted. *)
Theorem round_progress {C P PP PeerId Addr : Type}
    `{!PartialSemigroup C, !Weighted C, !VerifiableAgainst P C, !VerifiableLaws P C}
    `{!PeerPartitions PP PeerId Addr} (cf : HandelConfig) (own : C) (pd : P) (pp : PP) ix h h' :
  verify own pd = true -> reachable (Addr := Addr) cf own pd pp ix h -> rtc step h h' ->
  progress h h'.
Proof.
  intros Hown Hreach Hr. pose proof (reachable_inv pd cf pp own ix h Hown Hreach) as Hinv.
  eapply (honest_steps_good (fun _ => False) pd cf pp h h' Hinv).
  eapply rtc_subrel; [|exact Hr]. intros ??. apply step_honest.
Qed.

(** A peer whose messages carry only contributions that verify is never
    banned, whatever the other peers send. *)
Theorem honest_never_banned {C P PP PeerId Addr : Type}
    `{!PartialSemigroup C, !Weighted C, !VerifiableAgainst P C, !VerifiableLaws P C}
    `{!PeerPartitions PP PeerId Addr} (honest : nat -> Prop) (cf : HandelConfig) (own : C) (pd : P)
    (pp : PP) ix h0 h p :
  verify own pd = true -> new (Addr := Addr) cf own pd pp ix = Done h0 ->
  rtc (honest_step honest pd pp) h0 h -> honest p -> p ∉ byzantine_nodes h.
Proof.
  intros Hown Hnew Hr. pose proof (new_inv honest pd cf pp own ix h0 Hown Hnew) as Hinv.
  destruct (honest_steps_good honest pd cf pp h0 h Hinv Hr) as [Hinv' _]. apply (inv_honest _ _ _ _ _ Hinv').
Qed.

(** A reachable round handles every message for one of its levels without
    panicking, over a partitioning that meets its interface and has a peer on
    level 1. *)
Theorem inject_message_no_panic {C P PP PeerId Addr : Type}
    `{!PartialSemigroup C, !Weighted C, !VerifiableAgainst P C, !VerifiableLaws P C}
    `{!PeerPartitions PP PeerId Addr} (cf : HandelConfig) (own : C) (pd : P) (pp : PP)
    `{!PeerPartitionsLaws pp} ix h peer_id msg :
  config_ok cf pp -> pp_peers_at_level pp 1 VP <> Done [] ->
  verify own pd = true -> reachable (Addr := Addr) cf own pd pp ix h ->
  msg_level msg < pp_num_levels pp -> exists h', inject_message h peer_id msg = Done h'.
Proof.
  intros Hcf H1 Hown Hreach Hl. pose proof (reachable_inv pd cf pp own ix h Hown Hreach) as Hinv.
  by apply (inject_message_total pd cf pp h peer_id msg).
Qed.

(** A message from a known peer for a level the round does not have makes
    it panic. *)
Theorem out_of_range_level_panics {C P PP PeerId Addr : Type}
    `{!PartialSemigroup C, !Weighted C, !VerifiableAgainst P C, !PeerPartitions PP PeerId Addr}
    (h : Handel (C := C) (P := P) (PP := PP) (PeerId := PeerId) (Addr := Addr)) peer_id msg pix :
  pp_try_index_peer (peer_partitions h) peer_id = Some pix ->
  length (levels h) <= msg_level msg -> inject_message h peer_id msg = Panic.
Proof.
  intros Hix Hl. unfold inject_message, handle_contribution. rewrite Hix.
  set (h1 := if msg_contact_sender msg then h else _).
  assert (levels h1 = levels h) as -> by (unfold h1; by destruct (msg_contact_sender msg)).
  rewrite (lookup_ge_None_2 (levels h) (msg_level msg) Hl). reflexivity.
Qed.

(** ** A round of four peers, for the witnesses *)

Module Round.
(** Contributions are maps of values below a public bound. *)
#[export] Instance below : VerifiableAgainst nat (gmap nat nat) :=
  fun m bound => verify_entries (fun _ v => (v <? bound)%nat) m.

#[export] Instance below_laws : VerifiableLaws nat (gmap nat nat).
Proof. intros a b c p [Ha ->]%try_combine_Some. by apply verify_entries_union. Qed.

(** The levels of peer [0] among four peers; [first] is its level 1. *)
Record Four := { first : list nat }.

#[export] Instance four : PeerPartitions Four nat nat := {
  pp_peers_at_level := fun f l _ =>
    match l with 0 => Done [] | 1 => Done (first f) | 2 => Done [2; 3] | _ => Panic end;
  pp_identify_peer := fun _ p => Done p;
  pp_try_index_peer := fun _ p => Some p;
  pp_addr_hint := fun _ _ => None;
  pp_num_levels := fun _ => 3;
}.

#[export] Instance four_laws f : PeerPartitionsLaws f.
Proof.
  split; cbn.
  - intros [|[|[|l]]] o Hl; eauto. lia.
  - intros [|[|[|l]]] vp cvp Hv Hc; by simplify_eq.
  - eauto.
Qed.

Definition cf (n d : Z) : HandelConfig := {|
  threshold := {| num := n; denom := d |};
  window_shrinking_factor := 2; initial_scoring_window := 2; fast_path_window := 2;
|}.

Definition full : Four := {| first := [1] |}.

Definition msg (l : nat) (m : gmap nat nat) : HandelMessage := {|
  msg_level := l; msg_individual_contribution := None;
  msg_aggregate_contribution := m; msg_contact_sender := true |}.

Definition start (n d : Z) (f : Four) : outcome (Handel (Addr := nat)) :=
  new (cf n d) ({[ 0 := 5 ]} : gmap nat nat) 10 f 0.

(** Peer 1 contributes on level 1, peers 2 and 3 on level 2. *)
Definition run : outcome (Handel (Addr := nat)) :=
  h ← start 1 1 full;
  h ← inject_message h 1 (msg 1 {[ 1 := 6 ]});
  inject_message h 2 (msg 2 {[ 2 := 7; 3 := 8 ]}).
End Round.

Import Round.

Lemma start_reachable h : start 1 1 full = Done h -> reachable (cf 1 1) ({[ 0 := 5 ]} : gmap nat nat) 10 full 0 h.
Proof. intros Hs. exists h. split; [exact Hs|reflexivity]. Qed.

Lemma run_reachable h : run = Done h -> reachable (cf 1 1) ({[ 0 := 5 ]} : gmap nat nat) 10 full 0 h.
Proof.
  unfold run. intros Hr. apply bind_Done in Hr as (h0 & H0 & Hr). apply bind_Done in Hr as (h1 & H1 & Hr).
  exists h0. split; [exact H0|]. eapply rtc_l; [by eapply step_inject|]. apply rtc_once. by eapply step_inject.
Qed.

Lemma complete_aggregate_valid_witness :
  exists h c, run = Done h /\ get_complete_aggregate h = Done (Some c) /\
    verify c 10 = true /\ 4 <= weight c.
Proof.
  destruct run as [h| |] eqn:E; [|vm_compute in E; discriminate..].
  exists h. destruct (get_complete_aggregate h) as [[c|]| |] eqn:Eg;
    [|vm_compute in E; injection E as <-; vm_compute in Eg; discriminate..].
  exists c. destruct (complete_aggregate_valid (cf 1 1) ({[ 0 := 5 ]} : gmap nat nat) 10 full 0 h c)
    as (Hv & m & Hm & Hw); [reflexivity|by apply run_reachable|discriminate|cbn; lia|exact Eg|].
  vm_compute in Hm. injection Hm as <-. split_and!; [done..|lia].
Defined.

Lemma round_progress_witness : exists h h', start 1 1 full = Done h /\ run = Done h' /\ progress h h'.
Proof.
  destruct run as [h'| |] eqn:E; [|vm_compute in E; discriminate..].
  destruct (start 1 1 full) as [h| |] eqn:Es; [|vm_compute in Es; discriminate..].
  exists h, h'. split_and!; [done..|].
  apply (round_progress (cf 1 1) ({[ 0 := 5 ]} : gmap nat nat) 10 full 0);
    [reflexivity|by apply start_reachable|].
  unfold run in E. rewrite Es in E. outcome_cbn in E. apply bind_Done in E as (h1 & H1 & Hr).
  eapply rtc_l; [by eapply step_inject|]. apply rtc_once. by eapply step_inject.
Defined.

Lemma honest_never_banned_witness :
  exists h0 h, start 1 1 full = Done h0 /\ inject_message h0 1 (msg 1 {[ 1 := 60 ]}) = Done h /\
    1 ∈ byzantine_nodes h /\ 2 ∉ byzantine_nodes h.
Proof.
  destruct (start 1 1 full) as [h0| |] eqn:Es; [|vm_compute in Es; discriminate..].
  destruct (inject_message h0 1 (msg 1 {[ 1 := 60 ]})) as [h| |] eqn:E;
    [|vm_compute in Es; injection Es as <-; vm_compute in E; discriminate..].
  exists h0, h. split_and!; [done..| |].
  - vm_compute in Es. injection Es as <-. vm_compute in E. injection E as <-.
    apply (bool_decide_unpack _). vm_compute. exact I.
  - apply (honest_never_banned (fun p => p = 2) (cf 1 1) ({[ 0 := 5 ]} : gmap nat nat) 10 full 0 h0 h 2);
      [reflexivity|exact Es| |reflexivity].
    apply rtc_once. eapply honest_inject; [|exact E]. cbn. intros pix [= <-]. done.
Defined.

Lemma inject_message_no_panic_witness :
  exists h h', start 1 1 full = Done h /\ inject_message h 3 (msg 2 {[ 3 := 90 ]}) = Done h'.
Proof.
  destruct (start 1 1 full) as [h| |] eqn:Es; [|vm_compute in Es; discriminate..].
  destruct (inject_message_no_panic (cf 1 1) ({[ 0 := 5 ]} : gmap nat nat) 10 full 0 h 3 (msg 2 {[ 3 := 90 ]}))
    as (h' & Hh'); [|discriminate|reflexivity|by apply start_reachable|cbn; lia|by exists h, h'].
  split_and!; [done..|]. cbn. intros [|[|[|l]]] Hl; [vm_compute; discriminate..|lia].
Defined.

Lemma out_of_range_level_panics_witness :
  exists h, start 1 1 full = Done h /\ inject_message h 1 (msg 3 ∅) = Panic.
Proof.
  destruct (start 1 1 full) as [h| |] eqn:Es; [|vm_compute in Es; discriminate..].
  exists h. split; [done|].
  apply (out_of_range_level_panics h 1 (msg 3 ∅) 1); vm_compute in Es; injection Es as <-;
    [reflexivity|cbn; lia].
Defined.

(** When the peer on level 1 is a filler, the level is active and empty: a
    message of any peer for it completes it under a threshold of one half,
    and the fast path divides by the number of its peers. *)
Lemma empty_first_level_panics :
  exists h, start 1 2 {| first := [] |} = Done h /\ inject_message h 2 (msg 1 ∅) = Panic.
Proof. eexists. split; [reflexivity|]. vm_compute. reflexivity. Qed.

(** Of two aggregates with the same score only one is kept and verified. *)
Lemma equal_scores_collapse :
  let a := {| sct_score := 2; sct_sender_id := 1; sct_contribution := ({[ 1 := 60 ]} : gmap nat nat) |} in
  let b := {| sct_score := 2; sct_sender_id := 2; sct_contribution := {[ 2 := 7 ]} |} in
  insert_scored b (insert_scored a []) = [a].
Proof. reflexivity. Qed.

Lemma binomial_partitions_laws_witness :
  exists t, Partitioning.new (GenPermutation0 := Partitioning.Sample.perm)
      Partitioning.Sample.fillers 1 Partitioning.Sample.members tt = Done t /\
    PeerPartitionsLaws t.
Proof.
  eexists. split; [vm_compute; reflexivity|].
  apply (binomial_partitions_laws (GenPermutation0 := Partitioning.Sample.perm)
    Partitioning.Sample.fillers 1 Partitioning.Sample.members tt _
    Partitioning.Sample.members_ok Partitioning.Sample.fillers_fresh).
  vm_compute. reflexivity.
Defined.
