(* ===== verification/Overlay.v ===== *)
(** * Multicast overlays

    Model of [spectrum-mcast/src/overlay.rs]: the binary tree laid over an
    ordered peer set, and the redundant overlay that unites several such
    trees.  The order of the peer set after each pass comes from a seeded
    shuffle, a parameter known to permute its argument. *)

From S2P Require Import Prelude Algebra.

Section Overlay.
Context {PeerId Addr : Type} `{Countable PeerId}.

Abbreviation Peer := (PeerId * option Addr)%type.

Record DagOverlay := {
  parent_nodes : gset PeerId;
  child_nodes : list Peer;
}.

Inductive Links :=
| RootLinks (l r : option Peer)
| NodeLinks (parent : PeerId) (children : EitherOrBoth Peer Peer)
| LeafLinks (parent : PeerId).

(** The links of the peer at [cur_ix], in the partition [lower .. upper). *)
Definition links_at (peers : list Peer) (lower upper prev_pt_lower cur_ix : nat) : Links :=
  let ix_in_pt := cur_ix - lower in
  let parent_ix := prev_pt_lower + ix_in_pt / 2 in
  match peers !! parent_ix with
  | Some (parent_pid, _) =>
    if (parent_ix =? cur_ix)%nat then RootLinks (peers !! 1) (peers !! 2) else
    let left_child_ix := 2 * ix_in_pt + upper in
    let right_child_ix := left_child_ix + 1 in
    match Either.either_try_from (peers !! left_child_ix, peers !! right_child_ix) with
    | Some children => NodeLinks parent_pid children
    | None => LeafLinks parent_pid
    end
  | None => RootLinks (peers !! 1) (peers !! 2)
  end.

(** The loop: [rest] is what [peers.get(cur_ix)] and the later calls see. *)
Fixpoint build_links_loop (host_peer : PeerId) (peers rest : list Peer)
    (lower upper prev_pt_lower cur_pt_ix cur_ix : nat) : outcome Links :=
  match rest with
  | [] => Panic
  | (pid, _) :: rest =>
    let '(lower, upper, prev_pt_lower, cur_pt_ix) :=
      if (upper <=? cur_ix)%nat
      then (upper, upper + 2 ^ (cur_pt_ix + 1), lower, cur_pt_ix + 1)
      else (lower, upper, prev_pt_lower, cur_pt_ix) in
    if decide (pid = host_peer) then Done (links_at peers lower upper prev_pt_lower cur_ix)
    else build_links_loop host_peer peers rest lower upper prev_pt_lower cur_pt_ix (cur_ix + 1)
  end.

Definition build_links (host_peer : PeerId) (peers : list Peer) : outcome Links :=
  build_links_loop host_peer peers peers 0 1 0 0 0.

(** One pass of [make]. *)
Definition add_links (acc : DagOverlay) (links : Links) : DagOverlay :=
  match links with
  | RootLinks l r => acc <| child_nodes ::= fun c => c ++ option_list l ++ option_list r |>
  | NodeLinks parent children =>
    acc <| child_nodes ::= fun c => c ++ Either.collect id children |>
        <| parent_nodes ::= union {[ parent ]} |>
  | LeafLinks parent => acc <| parent_nodes ::= union {[ parent ]} |>
  end.

(** [shuffle i]: the [i]-th call of [peers.shuffle(&mut rng)]. *)
Fixpoint make_passes (shuffle : nat -> list Peer -> list Peer) (host_peer : PeerId)
    (n pass : nat) (peers : list Peer) (acc : DagOverlay) : outcome DagOverlay :=
  match n with
  | 0 => Done acc
  | S n =>
    links ← build_links host_peer peers;
    make_passes shuffle host_peer n (pass + 1) (shuffle pass peers) (add_links acc links)
  end.

(** The peers sorted by identity, the fixed root in front. *)
Definition arrange_peers (leb : PeerId -> PeerId -> bool) (fixed_root_peer : option PeerId)
    (peers : list Peer) : outcome (list Peer) :=
  let peers := sort_by_key leb fst peers in
  match fixed_root_peer with
  | Some root_peer =>
    ix ← unwrap (position root_peer peers.*1);
    root ← unwrap (peers !! ix);
    Done (root :: delete ix peers)
  | None => Done peers
  end.

Definition make (leb : PeerId -> PeerId -> bool) (shuffle : nat -> list Peer -> list Peer)
    (redundancy_factor : nat) (fixed_root_peer : option PeerId) (host_peer : PeerId)
    (peers : list Peer) : outcome DagOverlay :=
  peers ← arrange_peers leb fixed_root_peer peers;
  make_passes shuffle host_peer redundancy_factor 0 peers
    {| parent_nodes := ∅; child_nodes := [] |}.

(** ** The links are those of a binary heap *)

Definition heap_links (peers : list Peer) (i : nat) : Links :=
  if (i =? 0)%nat then RootLinks (peers !! 1) (peers !! 2) else
  match peers !! ((i - 1) / 2) with
  | Some (parent, _) =>
    match Either.either_try_from (peers !! (2 * i + 1), peers !! (2 * i + 2)) with
    | Some children => NodeLinks parent children
    | None => LeafLinks parent
    end
  | None => RootLinks (peers !! 1) (peers !! 2)
  end.

(** A partition of the tree: its width is a power of two and it follows the
    previous one. *)
Definition partition_ok (lower upper prev d : nat) : Prop :=
  upper + 1 = 2 ^ (d + 1) /\ upper = 2 * lower + 1 /\ (lower = 0 /\ prev = 0 \/ lower = 2 * prev + 1).

Lemma partition_next lower upper prev d :
  partition_ok lower upper prev d ->
  partition_ok upper (upper + 2 ^ (d + 1)) lower (d + 1) /\ upper < upper + 2 ^ (d + 1).
Proof.
  intros (Hw & Hu & _). split; [|lia].
  split_and!; [|lia..]. rewrite (Nat.add_1_r (d + 1)), Nat.pow_succ_r'. lia.
Qed.

Lemma links_at_heap peers lower upper prev d i :
  partition_ok lower upper prev d -> lower <= i < upper -> i < length peers ->
  links_at peers lower upper prev i = heap_links peers i.
Proof.
  intros (_ & Hu & Hp) Hi Hlen. unfold links_at, heap_links.
  assert (prev + (i - lower) / 2 = if (i =? 0)%nat then 0 else (i - 1) / 2) as Hparent.
  { destruct (Nat.eqb_spec i 0) as [->|Hi0]; [destruct Hp as [[-> ->]|]; [done|lia]|].
    destruct Hp as [[-> ->]|Hp]; [lia|].
    replace (i - 1) with (prev * 2 + (i - lower)) by lia. by rewrite Nat.div_add_l. }
  rewrite Hparent. destruct (Nat.eqb_spec i 0) as [->|Hi0].
  - destruct (peers !! 0) as [[]|]; done.
  - destruct (lookup_lt_is_Some_2 peers ((i - 1) / 2)) as [[pp a] Hpp].
    { assert ((i - 1) / 2 <= i - 1) by (apply Nat.Div0.div_le_upper_bound; lia). lia. }
    rewrite Hpp. destruct (Nat.eqb_spec ((i - 1) / 2) i) as [He|_].
    { assert ((i - 1) / 2 <= i - 1) by (apply Nat.Div0.div_le_upper_bound; lia). lia. }
    replace (2 * (i - lower) + upper) with (2 * i + 1) by lia.
    by replace (2 * i + 1 + 1) with (2 * i + 2) by lia.
Qed.

Lemma build_links_loop_heap host peers pre x rest lower upper prev d :
  peers = pre ++ x ++ rest -> host ∉ x.*1 ->
  (exists a, head rest = Some (host, a)) ->
  partition_ok lower upper prev d -> lower <= length pre <= upper ->
  build_links_loop host peers (x ++ rest) lower upper prev d (length pre) =
  Done (heap_links peers (length (pre ++ x))).
Proof.
  revert pre lower upper prev d.
  induction x as [|[pid a] x IH]; intros pre lower upper prev d Hpeers Hx Hr Hpt Hi.
  - destruct rest as [|[p b] rest]; [by destruct Hr|]. destruct Hr as (b' & [= -> ->]).
    cbn -[Nat.leb Nat.pow]. rewrite app_nil_r.
    assert (length pre < length peers) by (rewrite Hpeers, length_app; cbn; lia).
    destruct (Nat.leb_spec upper (length pre)) as [Hge|Hlt]; rewrite decide_True by done; f_equal.
    + destruct (partition_next _ _ _ _ Hpt). eapply links_at_heap; [done|lia|done].
    + eapply links_at_heap; [exact Hpt|lia|done].
  - cbn -[Nat.leb Nat.pow]. cbn in Hx. apply not_elem_of_cons in Hx as [Hne Hx].
    assert (peers = (pre ++ [(pid, a)]) ++ x ++ rest) as Hpeers' by by rewrite Hpeers, <- app_assoc.
    assert (length (pre ++ [(pid, a)]) = length pre + 1) as Hlen by by rewrite length_app.
    rewrite <- Hlen. replace (pre ++ (pid, a) :: x) with ((pre ++ [(pid, a)]) ++ x)
      by by rewrite <- app_assoc.
    destruct (Nat.leb_spec upper (length pre)) as [Hge|Hlt]; rewrite decide_False by congruence.
    + destruct (partition_next _ _ _ _ Hpt). apply IH; try done. lia.
    + apply IH; try done. lia.
Qed.

Lemma build_links_heap host peers i a :
  NoDup peers.*1 -> peers !! i = Some (host, a) ->
  build_links host peers = Done (heap_links peers i).
Proof.
  intros Hnd Hi. unfold build_links.
  assert (peers = [] ++ take i peers ++ (host, a) :: drop (S i) peers) as Hsplit
    by by rewrite app_nil_l, take_drop_middle.
  assert (length (take i peers) = i) as Hlen
    by (apply length_take_le, Nat.lt_le_incl; by eapply lookup_lt_Some).
  rewrite Hsplit at 2. change 0 with (length (@nil Peer)) at 4.
  rewrite (build_links_loop_heap _ _ _ _ _ _ _ _ _ Hsplit).
  - cbn. by rewrite Hlen.
  - rewrite Hsplit, fmap_app in Hnd. cbn in Hnd. rewrite fmap_app in Hnd.
    apply NoDup_app in Hnd as (_ & Hd & _). intros Hin. apply (Hd host Hin). cbn. set_solver.
  - cbn. eauto.
  - split_and!; try done. left. done.
  - cbn. lia.
Qed.

(** ** Parents and children agree *)

Definition links_parent (l : Links) : option PeerId :=
  match l with RootLinks _ _ => None | NodeLinks p _ => Some p | LeafLinks p => Some p end.

Definition links_children (l : Links) : list Peer :=
  match l with
  | RootLinks l r => option_list l ++ option_list r
  | NodeLinks _ children => Either.collect id children
  | LeafLinks _ => []
  end.

Lemma heap_links_children peers i :
  i < length peers ->
  links_children (heap_links peers i) = option_list (peers !! (2 * i + 1)) ++ option_list (peers !! (2 * i + 2)).
Proof.
  intros Hi. unfold heap_links. destruct (Nat.eqb_spec i 0) as [->|Hi0]; [done|].
  destruct (lookup_lt_is_Some_2 peers ((i - 1) / 2)) as [[pp a] ->].
  { assert ((i - 1) / 2 <= i - 1) by (apply Nat.Div0.div_le_upper_bound; lia). lia. }
  destruct (peers !! (2 * i + 1)) as [x|], (peers !! (2 * i + 2)) as [y|]; done.
Qed.

Lemma heap_links_parent peers i :
  links_parent (heap_links peers i) = if (i =? 0)%nat then None else fst <$> peers !! ((i - 1) / 2).
Proof.
  unfold heap_links. destruct (Nat.eqb_spec i 0) as [->|Hi0]; [done|].
  destruct (peers !! ((i - 1) / 2)) as [[pp a]|]; [|done].
  by destruct (Either.either_try_from _).
Qed.

Lemma heap_child_index i j : j <> 0 /\ (j - 1) / 2 = i <-> j = 2 * i + 1 \/ j = 2 * i + 2.
Proof.
  split.
  - intros [Hj <-]. pose proof (Nat.div_mod_eq (j - 1) 2).
    pose proof (Nat.mod_upper_bound (j - 1) 2). lia.
  - intros [->| ->]; (split; [lia|]); symmetry.
    + apply (Nat.div_unique _ 2 i 0); lia.
    + apply (Nat.div_unique _ 2 i 1); lia.
Qed.

Lemma elem_of_link (x : Peer) (o : option Peer) : x ∈ option_list o <-> o = Some x.
Proof. destruct o; cbn; set_solver. Qed.

Lemma heap_links_dual peers i j a b xa xb :
  NoDup peers.*1 -> peers !! i = Some (a, xa) -> peers !! j = Some (b, xb) ->
  b ∈ (links_children (heap_links peers i)).*1 <-> links_parent (heap_links peers j) = Some a.
Proof.
  intros Hnd Hi Hj. rewrite heap_links_children by by eapply lookup_lt_Some.
  rewrite heap_links_parent.
  assert (forall k l p x y, peers !! k = Some (p, x) -> peers !! l = Some (p, y) -> k = l) as Hinj.
  { intros k l p x y Hk Hl. eapply NoDup_lookup; [exact Hnd|..]; rewrite list_lookup_fmap;
      [rewrite Hk|rewrite Hl]; done. }
  transitivity (j = 2 * i + 1 \/ j = 2 * i + 2).
  - rewrite fmap_app, elem_of_app, !list_elem_of_fmap. setoid_rewrite elem_of_link. split.
    + intros [([p x] & -> & Hp)|([p x] & -> & Hp)]; cbn in *; [left|right]; by eapply Hinj.
    + intros [->| ->]; [left|right]; by exists (b, xb).
  - rewrite <- heap_child_index. destruct (Nat.eqb_spec j 0) as [->|Hj0]; [by split; [intros [? _]|]|].
    split.
    + intros [_ ->]. by rewrite Hi.
    + intros Hp. split; [done|]. apply fmap_Some in Hp as ([p x] & Hp & ->). by eapply Hinj.
Qed.

Lemma add_links_children acc l : child_nodes (add_links acc l) = child_nodes acc ++ links_children l.
Proof. destruct l; cbn; by rewrite ?app_nil_r. Qed.

Lemma add_links_parents acc l p :
  p ∈ parent_nodes (add_links acc l) <-> p ∈ parent_nodes acc \/ links_parent l = Some p.
Proof. destruct l; cbn; set_solver. Qed.

Lemma make_passes_dual shuffle a b n pass peers accA accB ovA ovB :
  (forall k l, shuffle k l ≡ₚ l) -> NoDup peers.*1 -> a ∈ peers.*1 -> b ∈ peers.*1 ->
  (b ∈ (child_nodes accA).*1 <-> a ∈ parent_nodes accB) ->
  make_passes shuffle a n pass peers accA = Done ovA ->
  make_passes shuffle b n pass peers accB = Done ovB ->
  b ∈ (child_nodes ovA).*1 <-> a ∈ parent_nodes ovB.
Proof.
  intros Hsh. revert pass peers accA accB.
  induction n as [|n IH]; intros pass peers accA accB Hnd Ha Hb Hacc HA HB; [by simplify_eq/=|].
  cbn in HA, HB. apply bind_Done in HA as (la & Hla & HA). apply bind_Done in HB as (lb & Hlb & HB).
  apply list_elem_of_fmap in Ha as ([a' xa] & -> & Ha). apply list_elem_of_lookup in Ha as [i Hi].
  apply list_elem_of_fmap in Hb as ([b' xb] & -> & Hb). apply list_elem_of_lookup in Hb as [j Hj].
  cbn in *. rewrite (build_links_heap _ _ _ _ Hnd Hi) in Hla. rewrite (build_links_heap _ _ _ _ Hnd Hj) in Hlb.
  simplify_eq. eapply (IH _ (shuffle pass peers)); [..|exact HA|exact HB].
  - by rewrite Hsh.
  - rewrite Hsh. apply list_elem_of_fmap. exists (a', xa). split; [done|]. by eapply list_elem_of_lookup_2.
  - rewrite Hsh. apply list_elem_of_fmap. exists (b', xb). split; [done|]. by eapply list_elem_of_lookup_2.
  - rewrite add_links_children, fmap_app, elem_of_app, add_links_parents, Hacc.
    by rewrite (heap_links_dual _ _ _ _ _ _ _ Hnd Hi Hj).
Qed.

Lemma make_passes_done shuffle host n pass peers acc :
  (forall k l, shuffle k l ≡ₚ l) -> NoDup peers.*1 -> host ∈ peers.*1 ->
  exists ov, make_passes shuffle host n pass peers acc = Done ov.
Proof.
  intros Hsh. revert pass peers acc. induction n as [|n IH]; intros pass peers acc Hnd Hin; [by eexists|].
  apply list_elem_of_fmap in Hin as ([h x] & -> & Hin). cbn -[build_links]. pose proof Hin as [i Hi]%list_elem_of_lookup.
  rewrite (build_links_heap _ _ _ _ Hnd Hi). cbn -[build_links]. apply IH; rewrite Hsh; [done|].
  apply list_elem_of_fmap. by exists (h, x).
Qed.

Lemma arrange_peers_perm leb root peers :
  match root with Some r => r ∈ peers.*1 | None => True end ->
  exists peers', arrange_peers leb root peers = Done peers' /\ peers' ≡ₚ peers.
Proof.
  intros Hr. unfold arrange_peers. assert (sort_by_key leb fst peers ≡ₚ peers) as Hs by apply sort_by_perm.
  destruct root as [r|]; [|by eexists].
  destruct (position_elem r (sort_by_key leb fst peers).*1) as (ix & -> & Hix); [by rewrite Hs|].
  cbn. apply list_lookup_fmap_Some in Hix as (p & -> & Hp). rewrite Hp. cbn. eexists. split; [done|].
  etrans; [|exact Hs]. symmetry. by apply delete_Permutation.
Qed.

(** The links of one tree: [q] is a child of [p]. *)
Definition child_of (peers : list Peer) (p q : PeerId) : Prop :=
  exists links, build_links p peers = Done links /\ q ∈ (links_children links).*1.

Lemma heap_reachable peers i p x r y :
  NoDup peers.*1 -> peers !! 0 = Some (r, y) -> peers !! i = Some (p, x) ->
  rtc (child_of peers) r p.
Proof.
  intros Hnd Hr. revert p x. induction (lt_wf i) as [i _ IH]. intros p x Hi.
  destruct (decide (i = 0)) as [->|Hi0]; [simplify_eq; reflexivity|].
  assert ((i - 1) / 2 < i) as Hlt.
  { assert ((i - 1) / 2 <= i - 1) by (apply Nat.Div0.div_le_upper_bound; lia). lia. }
  destruct (lookup_lt_is_Some_2 peers ((i - 1) / 2)) as [[q z] Hq].
  { apply lookup_lt_Some in Hi. lia. }
  eapply rtc_r; [eapply IH; [exact Hlt|exact Hq]|].
  exists (heap_links peers ((i - 1) / 2)). split; [by eapply build_links_heap|].
  apply (heap_links_dual _ _ i q p z x Hnd Hq Hi). rewrite heap_links_parent, Hq.
  by rewrite (proj2 (Nat.eqb_neq _ _)).
Qed.

(** For distinct peers, the links of the peer at index [i] are those of a
    binary heap: parent at [(i-1)/2], children at [2i+1] and [2i+2]. *)
Theorem build_links_is_heap host peers i a :
  NoDup peers.*1 -> peers !! i = Some (host, a) ->
  exists links, build_links host peers = Done links /\
    links_parent links = (if (i =? 0)%nat then None else fst <$> peers !! ((i - 1) / 2)) /\
    links_children links = option_list (peers !! (2 * i + 1)) ++ option_list (peers !! (2 * i + 2)).
Proof.
  intros Hnd Hi. exists (heap_links peers i). split_and!.
  - by eapply build_links_heap.
  - apply heap_links_parent.
  - apply heap_links_children. by eapply lookup_lt_Some.
Qed.

(** In every tree, each peer is reached from the root by child links. *)
Theorem overlay_tree_spans_peers peers root x p :
  NoDup peers.*1 -> peers !! 0 = Some (root, x) -> p ∈ peers.*1 -> rtc (child_of peers) root p.
Proof.
  intros Hnd Hr Hp. apply list_elem_of_fmap in Hp as ([q y] & -> & Hq).
  apply list_elem_of_lookup in Hq as [i Hi]. by eapply heap_reachable.
Qed.

(** Overlays built by different peers fit together.  For members [a] and
    [b] of a peer set without duplicates (that holds the fixed root, if any),
    both overlays are built, and [b] is a child of [a] exactly when [a] is a
    parent of [b]. *)
Theorem overlays_fit leb shuffle n root peers a b :
  (forall k l, shuffle k l ≡ₚ l) -> NoDup peers.*1 ->
  match root with Some r => r ∈ peers.*1 | None => True end ->
  a ∈ peers.*1 -> b ∈ peers.*1 ->
  exists ovA ovB, make leb shuffle n root a peers = Done ovA /\ make leb shuffle n root b peers = Done ovB /\
    (b ∈ (child_nodes ovA).*1 <-> a ∈ parent_nodes ovB).
Proof.
  intros Hsh Hnd Hr Ha Hb. destruct (arrange_peers_perm leb root peers Hr) as (ps & Hps & Hperm).
  unfold make. rewrite Hps. cbn. rewrite <- Hperm in Hnd, Ha, Hb.
  destruct (make_passes_done shuffle a n 0 ps {| parent_nodes := ∅; child_nodes := [] |} Hsh Hnd Ha) as (ovA & HA).
  destruct (make_passes_done shuffle b n 0 ps {| parent_nodes := ∅; child_nodes := [] |} Hsh Hnd Hb) as (ovB & HB).
  exists ovA, ovB. split_and!; [done..|].
  eapply (make_passes_dual shuffle a b n 0 ps _ _ _ _ Hsh Hnd Ha Hb); [|exact HA|exact HB]. set_solver.
Qed.
End Overlay.

Lemma build_links_is_heap_witness :
  exists links, build_links (Addr := unit) 5 ((fun p => (p, None)) <$> seq 0 15) = Done links /\
    links_parent links = Some 2 /\ (links_children links).*1 = [11; 12].
Proof.
  destruct (build_links_is_heap (Addr := unit) 5 ((fun p => (p, None)) <$> seq 0 15) 5 None)
    as (links & Hl & Hp & Hc); [apply (bool_decide_unpack _); vm_compute; exact I|reflexivity|].
  exists links. rewrite Hl, Hp, Hc. done.
Defined.

Lemma overlay_tree_spans_peers_witness :
  rtc (child_of (Addr := unit) ((fun p => (p, None)) <$> seq 0 15)) 0 12.
Proof.
  apply (overlay_tree_spans_peers _ 0 None 12);
    [apply (bool_decide_unpack _); vm_compute; exact I|reflexivity|].
  apply (bool_decide_unpack _). vm_compute. exact I.
Defined.

Lemma overlays_fit_witness :
  exists ovA ovB,
    make (Addr := unit) Nat.leb (fun _ l => reverse l) 3 (Some 4) 1 ((fun p => (p, None)) <$> seq 0 6) = Done ovA /\
    make (Addr := unit) Nat.leb (fun _ l => reverse l) 3 (Some 4) 4 ((fun p => (p, None)) <$> seq 0 6) = Done ovB /\
    (4 ∈ (child_nodes ovA).*1 <-> 1 ∈ parent_nodes ovB).
Proof.
  apply (overlays_fit Nat.leb (fun _ l => reverse l) 3 (Some 4) ((fun p => (p, None)) <$> seq 0 6) 1 4);
    [intros; apply reverse_Permutation|..]; apply (bool_decide_unpack _); vm_compute; exact I.
Defined.
