(* ===== verification/Multicast.v ===== *)
(** * Multicasting over the overlay

    Model of [spectrum-mcast/src/behaviour.rs]: [DagMulticasting], which
    accumulates the statements received from parents and forwards them to
    children, and [DagMulticastingAsync], which applies the first statement
    whose asynchronous verification succeeds.  Timers and the completion of
    verification tasks are arguments of the polls. *)

From S2P Require Import Prelude Algebra Partitioning Handel HandelSafety Overlay.

Section Multicast.
Context {St P PP PeerId Addr : Type} `{Countable PeerId}.
Context `{!PartialSemigroup St, !Weighted St, !VerifiableAgainst P St}.
Context `{!PeerPartitions PP PeerId Addr}.

(** The network actions the stage emits. *)
Inductive Action :=
| BanPeer (peer : PeerId)
| SendOneShotMessage (peer : PeerId) (addr_hint : option Addr) (message : St).

Record DagMulticasting := {
  statement : option St;
  public_data : P;
  overlay : DagOverlay (PeerId := PeerId) (Addr := Addr);
  contacted_peers : gset PeerId;
  outbox : list Action;
  partitions : PP;
  next_processing : bool;
}.

Definition index_all (pp : PP) (ids : list PeerId) : outcome (list nat) :=
  mapO (fun id => unwrap (pp_try_index_peer pp id)) ids.

Definition multicast_new (statement : option St) (public_data : P) (overlay : DagOverlay)
    (partitions : PP) : outcome DagMulticasting :=
  _ ← index_all partitions (elements (parent_nodes overlay));
  _ ← index_all partitions (child_nodes overlay).*1;
  Done {|
    statement := statement;
    public_data := public_data;
    overlay := overlay;
    contacted_peers := ∅;
    outbox := [];
    partitions := partitions;
    next_processing := true;
  |}.

Definition multicast_inject_message (m : DagMulticasting) (peer_id : PeerId) (content : St)
    : outcome DagMulticasting :=
  if bool_decide (peer_id ∈ parent_nodes (overlay m)) then
    if verify content (public_data m) then
      match statement m with
      | Some stmt =>
        let m := m <| statement := None |> in
        match try_combine stmt content with
        | Some combined =>
          if (weight stmt <? weight combined)%nat then
            _ ← index_all (partitions m) (elements (contacted_peers m));
            Done (m <| contacted_peers := ∅ |> <| statement := Some combined |>)
          else Done (m <| statement := Some combined |>)
        | None => Done m
        end
      | None => Done (m <| statement := Some content |>)
      end
    else Done (m <| outbox ::= fun o => o ++ [BanPeer peer_id] |>)
  else Done m.

(** The loop over the children: each uncontacted one is sent the statement. *)
Fixpoint contact_children (stmt : St) (children : list (PeerId * option Addr))
    (contacted : gset PeerId) (outbox : list Action) : gset PeerId * list Action :=
  match children with
  | [] => (contacted, outbox)
  | (peer, addr) :: children =>
    if bool_decide (peer ∈ contacted) then contact_children stmt children contacted outbox
    else contact_children stmt children ({[ peer ]} ∪ contacted)
           (outbox ++ [SendOneShotMessage peer addr stmt])
  end.

Definition forward_statement (m : DagMulticasting) : DagMulticasting :=
  match statement m with
  | Some stmt =>
    let '(contacted, out) :=
      contact_children stmt (child_nodes (overlay m)) (contacted_peers m) (outbox m) in
    m <| contacted_peers := contacted |> <| outbox := out |>
  | None => m
  end.

Inductive MPolled :=
| MPending
| MOut (a : Action)
| MDone (s : St).

(** [ready]: the processing delay has elapsed; [expired]: the multicasting
    duration has. *)
Definition multicast_poll (m : DagMulticasting) (ready expired : bool) : DagMulticasting * MPolled :=
  if next_processing m && negb ready then (m, MPending) else
  let m := m <| next_processing := false |> in
  match expired, statement m with
  | true, Some stmt => (m <| statement := None |>, MDone stmt)
  | _, _ =>
    let m := forward_statement m in
    match outbox m with
    | out :: rest => (m <| outbox := rest |> <| next_processing := true |>, MOut out)
    | [] => (m <| next_processing := true |>, MPending)
    end
  end.

(** ** [DagMulticastingAsync] *)

(** The results waiting in [from_tasks]. *)
Inductive FromTask :=
| ToBehaviour (stmt : St)
| ToHandler (a : Action).

Record DagMulticastingAsync := {
  a_statement : option St;
  a_overlay : DagOverlay (PeerId := PeerId) (Addr := Addr);
  a_contacted_peers : gset PeerId;
  a_outbox : list Action;
  a_from_tasks : list FromTask;
  a_tasks : list (PeerId * St);
}.

Definition on_apply_statement (m : DagMulticastingAsync) (stmt : St) : DagMulticastingAsync :=
  match a_statement m with
  | None => m <| a_statement := Some stmt |>
  | Some _ => m
  end.

(** Messages of parents spawn a verification task. *)
Definition async_inject_message (m : DagMulticastingAsync) (peer_id : PeerId) (content : St)
    : DagMulticastingAsync :=
  if bool_decide (peer_id ∈ parent_nodes (a_overlay m))
  then m <| a_tasks ::= fun t => t ++ [(peer_id, content)] |> else m.

(** A task completes with the result of the verification. *)
Definition task_result (verified : St -> option St) (t : PeerId * St) : FromTask :=
  match verified t.2 with
  | Some s => ToBehaviour s
  | None => ToHandler (BanPeer t.1)
  end.

Definition async_poll (m : DagMulticastingAsync) : DagMulticastingAsync * MPolled :=
  let m :=
    match a_from_tasks m with
    | ToBehaviour input :: r => on_apply_statement (m <| a_from_tasks := r |>) input
    | ToHandler out :: r => m <| a_from_tasks := r |> <| a_outbox ::= fun o => o ++ [out] |>
    | [] => m
    end in
  let m :=
    match a_statement m with
    | Some stmt =>
      let '(contacted, out) :=
        contact_children stmt (child_nodes (a_overlay m)) (a_contacted_peers m) (a_outbox m) in
      m <| a_contacted_peers := contacted |> <| a_outbox := out |>
    | None => m
    end in
  match a_outbox m with
  | out :: rest => (m <| a_outbox := rest |>, MOut out)
  | [] =>
    match a_statement m with
    | Some stmt => (m <| a_statement := None |>, MDone stmt)
    | None => (m, MPending)
    end
  end.
(** ** Runs *)

Inductive mstep : DagMulticasting -> DagMulticasting -> Prop :=
| mstep_inject m m' p c : multicast_inject_message m p c = Done m' -> mstep m m'
| mstep_poll m ready expired : mstep m (multicast_poll m ready expired).1.

(** The statement held, and those waiting to be sent, are verified. *)
Definition statements_verified (m : DagMulticasting) : Prop :=
  (forall s, statement m = Some s -> verify s (public_data m) = true) /\
  (forall p x s, SendOneShotMessage p x s ∈ outbox m -> verify s (public_data m) = true).

(** The peers a list of actions sends the statement to. *)
Definition sent_to (out : list Action) : list PeerId :=
  omap (fun a => match a with SendOneShotMessage p _ _ => Some p | BanPeer _ => None end) out.

Lemma contact_children_spec stmt children contacted out contacted' out' :
  contact_children stmt children contacted out = (contacted', out') ->
  contacted' = contacted ∪ list_to_set children.*1 /\
  exists sent, out' = out ++ sent /\
    (forall a, a ∈ sent -> exists p x, a = SendOneShotMessage p x stmt) /\
    NoDup (sent_to sent) /\
    (forall p, p ∈ sent_to sent <-> p ∈ children.*1 /\ p ∉ contacted).
Proof.
  revert contacted out. induction children as [|[p x] children IH]; intros contacted out Hc; cbn in Hc.
  - simplify_eq. split; [set_solver|]. exists []. rewrite app_nil_r.
    split_and!; [done|set_solver|constructor|set_solver].
  - case_bool_decide as Hp.
    + destruct (IH _ _ Hc) as (-> & sent & Ho & Hs & Hnd & Hin). split; [set_solver|].
      exists sent. split_and!; [done..|]. intros q. rewrite Hin. cbn. clear -Hp. set_solver.
    + destruct (IH _ _ Hc) as (-> & sent & Ho & Hs & Hnd & Hin). split; [set_solver|].
      exists (SendOneShotMessage p x stmt :: sent). split_and!.
      * by rewrite Ho, <- app_assoc.
      * intros a [->|Ha]%elem_of_cons; eauto.
      * cbn. constructor; [|done]. rewrite Hin. clear. set_solver.
      * intros q. cbn. rewrite !elem_of_cons, Hin. clear -Hp.
        destruct (decide (q = p)) as [->|]; set_solver.
Qed.

Lemma forward_statement_verified m : statements_verified m -> statements_verified (forward_statement m).
Proof.
  intros [Hs Ho]. unfold forward_statement. destruct (statement m) as [stmt|] eqn:Est; [|by split; [rewrite Est|]].
  destruct (contact_children _ _ _ _) as [con out] eqn:Ec.
  destruct (contact_children_spec _ _ _ _ _ _ Ec) as (_ & sent & -> & Hsent & _).
  split; cbn; [rewrite Est; exact Hs|]. intros p x s [Hin|Hin]%elem_of_app; [by eapply Ho|].
  destruct (Hsent _ Hin) as (p' & x' & [= -> -> ->]). by apply Hs.
Qed.

Lemma poll_verified m ready expired :
  statements_verified m -> statements_verified (multicast_poll m ready expired).1.
Proof.
  intros Hv. unfold multicast_poll. destruct (_ && _); [done|].
  assert (statements_verified (m <| next_processing := false |>)) as Hv' by exact Hv.
  set (m0 := m <| next_processing := false |>) in *.
  assert (forall m1, statements_verified m1 -> statements_verified
    (match outbox m1 with
     | out :: rest => (m1 <| outbox := rest |> <| next_processing := true |>, MOut out)
     | [] => (m1 <| next_processing := true |>, MPending)
     end).1) as Hpop.
  { intros m1 [H1 H2]. destruct (outbox m1) as [|a rest] eqn:Eo; split; cbn; try done.
    - intros p x s Hin. by rewrite Eo in Hin; apply (H2 p x).
    - intros p x s Hin. apply (H2 p x). by right. }
  destruct expired, (statement m0) eqn:Est; [|by apply Hpop, forward_statement_verified..].
  split; cbn; [done|]. apply Hv.
Qed.

Lemma inject_verified `{!VerifiableLaws P St} m p c m' :
  statements_verified m -> multicast_inject_message m p c = Done m' -> statements_verified m'.
Proof.
  intros [Hs Ho] Hi. unfold multicast_inject_message in Hi.
  case_bool_decide; [|by simplify_eq]. destruct (verify c (public_data m)) eqn:Hv.
  - destruct (statement m) as [stmt|] eqn:Est; [|simplify_eq; split; cbn; [by intros s [= <-]|done]].
    destruct (try_combine stmt c) as [comb|] eqn:Ec; [|by simplify_eq; split].
    assert (verify comb (public_data m) = true) as Hcomb
      by by rewrite (verify_combine _ _ _ _ Ec), Hv, (Hs stmt).
    destruct (_ <? _)%nat; [apply bind_Done in Hi as (? & _ & Hi)|]; injection Hi as <-;
      (split; cbn; [by intros s [= <-]|done]).
  - simplify_eq. split; cbn; [done|]. intros q x s [Hin|Hin]%elem_of_app; [by eapply Ho|set_solver].
Qed.

Lemma mstep_data m m' : mstep m m' -> public_data m' = public_data m.
Proof.
  intros [m0 m1 p c Hi|m0 ready expired].
  - unfold multicast_inject_message in Hi. repeat case_match; bind_inv; by simplify_eq.
  - unfold multicast_poll, forward_statement. repeat case_match; by simplify_eq.
Qed.
End Multicast.

(** ** Correctness *)

(** C22: whatever messages arrive, and whenever the stage is polled, the
    statement it holds, and every statement it sends or returns, is verified,
    if the initial one is. *)
Theorem multicast_statements_verified {St P PP PeerId Addr : Type} `{Countable PeerId}
    `{!PartialSemigroup St, !Weighted St, !VerifiableAgainst P St, !VerifiableLaws P St}
    `{!PeerPartitions PP PeerId Addr} (s0 : option St) (pd : P) ov (pp : PP) m0 m ready expired m' s :
  (forall s, s0 = Some s -> verify s pd = true) ->
  multicast_new s0 pd ov pp = Done m0 -> rtc mstep m0 m ->
  multicast_poll (Addr := Addr) m ready expired = (m', MDone s) \/
  (exists p x, multicast_poll m ready expired = (m', MOut (SendOneShotMessage p x s))) ->
  verify s pd = true.
Proof.
  intros Hs0 Hnew Hr Hpoll.
  assert (statements_verified m0 /\ public_data m0 = pd) as [Hv0 Hpd0].
  { unfold multicast_new in Hnew. bind_inv. subst m0. split; [|done]. split; cbn; [done|]. intros ??? Hin.
    by apply not_elem_of_nil in Hin. }
  assert (statements_verified m /\ public_data m = pd) as [Hv Hpd].
  { clear Hpoll Hnew. induction Hr as [|m1 m2 m3 Hs _ IH]; [done|]. apply IH.
    - pose proof Hs as Hs'. destruct Hs'; [by eapply inject_verified|by apply poll_verified].
    - by rewrite (mstep_data _ _ Hs). }
  rewrite <- Hpd. unfold multicast_poll in Hpoll.
  destruct (_ && _); [by destruct Hpoll as [[=]|(? & ? & [=])]|].
  set (m1 := m <| next_processing := false |>) in *.
  assert (statements_verified m1) as Hv1 by exact Hv.
  destruct expired, (statement m1) as [s1|] eqn:Est;
    [destruct Hpoll as [[= _ ->]|(? & ? & [=])]; by apply Hv1|..].
  all: destruct (forward_statement_verified m1 Hv1) as [_ Ho];
    assert (public_data (forward_statement m1) = public_data m) as Hpdf
      by (unfold forward_statement; rewrite Est; by repeat case_match).
  all: destruct (outbox (forward_statement m1)) as [|a rest] eqn:Eo;
    destruct Hpoll as [[=]|(p & x & [= _ ->])]; rewrite <- Hpdf; apply (Ho p x); by left.
Qed.

(** Forwarding contacts every child, and sends the statement exactly once
    to each child not contacted before. *)
Theorem forward_statement_exactly_once {St P PP PeerId Addr : Type} `{Countable PeerId}
    (m : DagMulticasting (St := St) (P := P) (PP := PP) (Addr := Addr)) stmt :
  statement m = Some stmt ->
  contacted_peers (forward_statement m) = contacted_peers m ∪ list_to_set (child_nodes (overlay m)).*1 /\
  exists sent, outbox (forward_statement m) = outbox m ++ sent /\ NoDup (sent_to sent) /\
    (forall a, a ∈ sent -> exists p x, a = SendOneShotMessage p x stmt) /\
    (forall p : PeerId, p ∈ sent_to sent <-> p ∈ (child_nodes (overlay m)).*1 /\ p ∉ contacted_peers m).
Proof.
  intros Hs. unfold forward_statement. rewrite Hs.
  destruct (contact_children _ _ _ _) as [con out] eqn:Ec.
  destruct (contact_children_spec _ _ _ _ _ _ Ec) as (-> & sent & -> & Ha & Hnd & Hin).
  split; [done|]. by exists sent.
Qed.

(** A verified statement of a parent that conflicts with the held one
    leaves the stage with no statement at all. *)
Theorem conflicting_statement_is_lost {St P PP PeerId Addr : Type} `{Countable PeerId}
    `{!PartialSemigroup St, !Weighted St, !VerifiableAgainst P St} `{!PeerPartitions PP PeerId Addr}
    (m : DagMulticasting (St := St) (P := P) (PP := PP) (Addr := Addr)) peer_id stmt content :
  peer_id ∈ parent_nodes (overlay m) -> verify content (public_data m) = true ->
  statement m = Some stmt -> try_combine stmt content = None ->
  exists m', multicast_inject_message m peer_id content = Done m' /\ statement m' = None.
Proof.
  intros Hp Hv Hs Hc. unfold multicast_inject_message.
  rewrite bool_decide_true, Hv, Hs, Hc by done. by eexists.
Qed.

(** ** Witnesses *)

Import Round.

Definition sample_overlay : DagOverlay (PeerId := nat) (Addr := nat) :=
  {| parent_nodes := {[ 7 ]}; child_nodes := [(1, None); (2, None); (1, None)] |}.

Definition sample_multicast (s : option (gmap nat nat)) : DagMulticasting (PP := Four) := {|
  statement := s; public_data := 10; overlay := sample_overlay; contacted_peers := ∅; outbox := [];
  partitions := full; next_processing := true |}.

Lemma multicast_statements_verified_witness :
  exists m m' s, multicast_inject_message (sample_multicast None) 7 ({[ 1 := 6 ]} : gmap nat nat) = Done m /\
    multicast_poll m true true = (m', MDone s) /\ verify s 10 = true.
Proof.
  exists (sample_multicast (Some {[ 1 := 6 ]})). eexists _, _.
  split; [reflexivity|]. split; [reflexivity|].
  eapply (multicast_statements_verified None 10 sample_overlay full (sample_multicast None)
    (sample_multicast (Some {[ 1 := 6 ]})) true true); [done|reflexivity| |left; reflexivity].
  apply rtc_once. apply (mstep_inject _ _ 7 ({[ 1 := 6 ]} : gmap nat nat)). reflexivity.
Defined.

Lemma forward_statement_exactly_once_witness :
  contacted_peers (forward_statement (sample_multicast (Some {[ 1 := 6 ]}))) = {[ 1; 2 ]} /\
  exists sent, outbox (forward_statement (sample_multicast (Some {[ 1 := 6 ]}))) = sent /\ NoDup (sent_to sent).
Proof.
  destruct (forward_statement_exactly_once (sample_multicast (Some {[ 1 := 6 ]})) {[ 1 := 6 ]} eq_refl)
    as (Hc & sent & Ho & Hnd & _).
  split; [rewrite Hc; reflexivity|]. by exists sent.
Defined.

Lemma conflicting_statement_is_lost_witness :
  exists m', multicast_inject_message (sample_multicast (Some {[ 1 := 6 ]})) 7 ({[ 1 := 7 ]} : gmap nat nat) = Done m' /\
    statement m' = None.
Proof.
  apply (conflicting_statement_is_lost _ 7 {[ 1 := 6 ]} {[ 1 := 7 ]});
    [apply (bool_decide_unpack _); vm_compute; exact I|reflexivity..].
Defined.
