(* ===== verification/Kes.v ===== *)
(** * Key-evolving signatures

    Model of [spectrum-kes/src/{lib,utils,composition_utils}.rs]: the sum
    composition over a Merkle tree of one-time keys.  [kes_gen] builds the
    secret of the first period, [kes_update] moves to the next one and
    forgets the used keys, [kes_sign] and [kes_verify] tie a signature to the
    slot and to the root key. *)

From S2P Require Import Prelude Crypto.

Section Kes.
Context `{H : Hasher, C : Curve, E : !Ecdsa}.

Record KESSecret := {
  initial_merkle_tree_high : nat;
  n_hot_sk_updates : Z;
  hot_sk : Scalar;
  hot_pk : Point;
  merkle_seeds : list bytes;
  merkle_public_keys : list (Point * Point);
}.

Record KESSignature := {
  sig : Signature;
  sig_hot_pk : Point;
  other_pks : list Point;
}.

(** ** [utils.rs] *)

Definition merge_public_keys (pk1 pk2 : Point) : outcome Point :=
  b1 ← projective_point_to_bytes pk1;
  b2 ← projective_point_to_bytes pk2;
  hash_to_public_key (hash (hf (b1 ++ b2))).

Definition concat (current_slot : Z) (message : bytes) : bytes :=
  message ++ be_bytes 4 current_slot.

Definition partial_seed (seed : bytes) (if_left : bool) : bytes :=
  hash (hf ((if if_left then 1%Z else 2%Z) :: seed)).

Definition double_the_seed (seed : bytes) : bytes * bytes :=
  (partial_seed seed true, partial_seed seed false).

(** ** [composition_utils.rs] *)

(** The loop counts [h] down to [1]; started at [0], [h -= 1] underflows. *)
Fixpoint get_left_merkle_tree_branch_loop (h : nat) (actual_seed : bytes)
    (branch_seeds : list bytes) : outcome (Scalar * Point * list bytes) :=
  match h with
  | 0 => Panic
  | S h' =>
    let '(seed_0, seed_1) := double_the_seed actual_seed in
    let branch_seeds := branch_seeds ++ [seed_1] in
    match h' with
    | 0 => '(sk, pk) ← key_pair_gen seed_0; Done (sk, pk, branch_seeds)
    | S _ => get_left_merkle_tree_branch_loop h' seed_0 branch_seeds
    end
  end.

Definition get_left_merkle_tree_branch (merkle_tree_high : nat) (seed : bytes) :=
  get_left_merkle_tree_branch_loop merkle_tree_high seed [].

(** The recursive calls are on smaller heights; the fuel bounds the height. *)
Fixpoint sum_composition_pk_gen_fuel (fuel merkle_tree_high : nat) (seed : bytes)
    : outcome Point :=
  match fuel with
  | 0 => NoFuel
  | S fuel =>
    if (merkle_tree_high =? 0)%nat then '(_, pk) ← key_pair_gen seed; Done pk else
    '(_, pk0, branch_seeds) ← get_left_merkle_tree_branch merkle_tree_high seed;
    '(pk, _) ← foldO (fun '(pk, high) seed =>
        pk_right ← (if (high =? 0)%nat then '(_, pk) ← key_pair_gen seed; Done pk
                    else sum_composition_pk_gen_fuel fuel high seed);
        pk ← merge_public_keys pk pk_right;
        Done (pk, high + 1))
      (reverse branch_seeds) (pk0, 0);
    Done pk
  end.

Definition sum_composition_pk_gen (merkle_tree_high : nat) (seed : bytes) : outcome Point :=
  sum_composition_pk_gen_fuel (S merkle_tree_high) merkle_tree_high seed.

(** [signing_period & (1 << (len - i - 1)) != 0], a shift of a [u32]. *)
Definition period_bit (signing_period : Z) (k : nat) : outcome bool :=
  if (32 <=? k)%nat then Panic
  else Done (negb (Z.land signing_period (Z.shiftl 1 (Z.of_nat k)) =? 0)%Z).

Definition calculate_scheme_pk_from_signature (signature : KESSignature)
    (signing_period : Z) : outcome Point :=
  let len := length (other_pks signature) in
  foldO (fun scheme_pk i =>
      pk_ ← unwrap (other_pks signature !! i);
      right ← period_bit signing_period (len - i - 1);
      if (right : bool) then merge_public_keys pk_ scheme_pk
      else merge_public_keys scheme_pk pk_)
    (reverse (seq 0 len)) (sig_hot_pk signature).

(** [insert_in_vec(source_vec, cloned_vec, 0..hi)] *)
Definition insert_in_vec {T} (source_vec cloned_vec : list T) (hi : nat) : outcome (list T) :=
  foldO (fun v i => x ← unwrap (cloned_vec !! i); Done (v ++ [x])) (seq 0 hi) source_vec.

(** ** [lib.rs] *)

Definition kes_gen (merkle_tree_high : nat) (seed : bytes) : outcome (KESSecret * Point) :=
  '(sk_actual, pk_actual, pk_all_scheme, seeds, pks) ←
    (if (merkle_tree_high =? 0)%nat then
      '(sk_, pk_) ← key_pair_gen seed;
      Done (sk_, pk_, pk_, [], [])
    else
      '(sk_0, pk_0, merkle_seeds_) ← get_left_merkle_tree_branch merkle_tree_high seed;
      '(pk_all_scheme_, _, merkle_public_keys_) ←
        foldO (fun '(pk_all_scheme_, high, merkle_public_keys_) seed =>
            pk_right ← sum_composition_pk_gen high seed;
            pk_all_scheme_' ← merge_public_keys pk_all_scheme_ pk_right;
            Done (pk_all_scheme_', high + 1,
                  merkle_public_keys_ ++ [(pk_all_scheme_, pk_right)]))
          (reverse merkle_seeds_) (pk_0, 0, []);
      Done (sk_0, pk_0, pk_all_scheme_, merkle_seeds_, reverse merkle_public_keys_));
  if negb (length pks =? merkle_tree_high)%nat then Panic else
  if negb (length seeds =? merkle_tree_high)%nat then Panic else
  Done ({|
    initial_merkle_tree_high := merkle_tree_high;
    n_hot_sk_updates := 0;
    hot_sk := sk_actual;
    hot_pk := pk_actual;
    merkle_seeds := seeds;
    merkle_public_keys := pks;
  |}, pk_all_scheme).

(** The branch of [kes_update] for [anc_num == 1]: the next leaf is the right
    sibling of the current one. *)
Definition kes_update_sibling (secret : KESSecret) (last_seed_ind : nat)
    : outcome (Scalar * Point * list bytes * list (Point * Point)) :=
  '(seeds_new, pks_new) ←
    (if (1 <=? length (merkle_seeds secret))%nat then
      seeds_new ← insert_in_vec [] (merkle_seeds secret) last_seed_ind;
      pks_new ← insert_in_vec [] (merkle_public_keys secret) (initial_merkle_tree_high secret);
      Done (seeds_new, pks_new)
    else Done ([], []));
  seed ← unwrap (merkle_seeds secret !! last_seed_ind);
  '(sk_new, pk_new) ← key_pair_gen seed;
  Done (sk_new, pk_new, seeds_new, pks_new).

(** The other branch: the next leaf opens the subtree of the last seed. *)
Definition kes_update_subtree (secret : KESSecret) (last_seed_ind anc_num : nat)
    : outcome (Scalar * Point * list bytes * list (Point * Point)) :=
  seed ← unwrap (merkle_seeds secret !! last_seed_ind);
  '(secret_child, pk_child) ← kes_gen (anc_num - 1) seed;
  let seeds := merkle_seeds secret in
  let pks := merkle_public_keys secret in
  let child_pks := merkle_public_keys secret_child in
  seeds_new ←
    (if (1 <? length pks)%nat then
      if (initial_merkle_tree_high secret <? anc_num)%nat then Panic else
      p ← unwrap (pks !! (initial_merkle_tree_high secret - anc_num));
      if decide (p.2 = pk_child) then insert_in_vec [] seeds (length seeds - 1) else Panic
    else Done []);
  if (length pks <? length child_pks)%nat then Panic else
  pks_new ← insert_in_vec [] pks (length pks - length child_pks);
  pks_new ← insert_in_vec pks_new child_pks (length child_pks);
  seeds_new ← insert_in_vec seeds_new (merkle_seeds secret_child) (length child_pks);
  if negb (length pks_new =? initial_merkle_tree_high secret)%nat then Panic else
  Done (hot_sk secret_child, hot_pk secret_child, seeds_new, pks_new).

Definition kes_update (secret : KESSecret) : outcome KESSecret :=
  if (length (merkle_seeds secret) =? 0)%nat then Panic else
  let last_seed_ind := length (merkle_seeds secret) - 1 in
  let anc_num :=
    count_ones (Z.lxor (n_hot_sk_updates secret) (n_hot_sk_updates secret + 1)) in
  '(sk_new, pk_new, seeds_new, pks_new) ←
    (if (anc_num =? 1)%Z then kes_update_sibling secret last_seed_ind
     else kes_update_subtree secret last_seed_ind (Z.to_nat anc_num));
  n ← checked 0 u32_max (n_hot_sk_updates secret + 1);
  Done {|
    initial_merkle_tree_high := initial_merkle_tree_high secret;
    n_hot_sk_updates := n;
    hot_sk := sk_new;
    hot_pk := pk_new;
    merkle_seeds := seeds_new;
    merkle_public_keys := pks_new;
  |}.

(** One iteration of the loop of [kes_sign] over the depths of the path. *)
Definition kes_sign_step (high : nat) (pks : list (Point * Point))
    (st : Z * list Point) (i : nat) : outcome (Z * list Point) :=
  let '(h, keys) := st in
  leaf_high ← checked 0 u32_max (Z.of_nat high - Z.of_nat i);
  e ← checked 0 u32_max (leaf_high - 1);
  actual_high ← checked 0 u32_max (2 ^ e);
  p ← unwrap (pks !! i);
  if (actual_high <=? h)%Z then Done ((h - actual_high)%Z, keys ++ [p.1])
  else Done (h, keys ++ [p.2]).

Definition kes_sign (message : bytes) (secret : KESSecret) (current_slot : Z)
    : outcome KESSignature :=
  '(_, leaf_related_public_keys) ←
    foldO (kes_sign_step (initial_merkle_tree_high secret) (merkle_public_keys secret))
      (seq 0 (length (merkle_public_keys secret))) (current_slot, []);
  Done {|
    sig := ecdsa_sign (hot_sk secret) (concat current_slot message);
    sig_hot_pk := hot_pk secret;
    other_pks := leaf_related_public_keys;
  |}.

Definition kes_verify (signature : KESSignature) (message : bytes) (all_scheme_pk : Point)
    (signing_slot : Z) : outcome bool :=
  let message_is_verified :=
    ecdsa_verify (sig_hot_pk signature) (concat signing_slot message) (sig signature) in
  sig_scheme_pk ← calculate_scheme_pk_from_signature signature signing_slot;
  b1 ← projective_point_to_bytes sig_scheme_pk;
  b2 ← projective_point_to_bytes all_scheme_pk;
  Done (message_is_verified && bool_decide (hash b1 = hash b2)).

(** [n] periods of a fresh secret. *)
Fixpoint kes_updates (n : nat) (secret : KESSecret) : outcome KESSecret :=
  match n with
  | 0 => Done secret
  | S n => secret ← kes_update secret; kes_updates n secret
  end.

(** ** The Merkle tree of one-time keys *)

Inductive ktree :=
| KLeaf (seed : bytes) (sk : Scalar) (pk : Point)
| KNode (seed : bytes) (pk : Point) (l r : ktree).

Definition tree_pk (T : ktree) : Point :=
  match T with KLeaf _ _ pk => pk | KNode _ pk _ _ => pk end.

Definition tree_seed (T : ktree) : bytes :=
  match T with KLeaf s _ _ => s | KNode s _ _ _ => s end.

Fixpoint build (h : nat) (seed : bytes) : outcome ktree :=
  match h with
  | 0 => '(sk, pk) ← key_pair_gen seed; Done (KLeaf seed sk pk)
  | S h =>
    l ← build h (partial_seed seed true);
    r ← build h (partial_seed seed false);
    pk ← merge_public_keys (tree_pk l) (tree_pk r);
    Done (KNode seed pk l r)
  end.

(** What is kept for leaf [t] of a tree of height [h]: the seeds of the right
    siblings not yet opened, and the key pairs along the path. *)
Fixpoint path_seeds (T : ktree) (h : nat) (t : Z) : list bytes :=
  match T, h with
  | KNode _ _ l r, S h =>
    if (2 ^ Z.of_nat h <=? t)%Z then path_seeds r h (t - 2 ^ Z.of_nat h)
    else tree_seed r :: path_seeds l h t
  | _, _ => []
  end.

Fixpoint path_pks (T : ktree) (h : nat) (t : Z) : list (Point * Point) :=
  match T, h with
  | KNode _ _ l r, S h =>
    (tree_pk l, tree_pk r) ::
    if (2 ^ Z.of_nat h <=? t)%Z then path_pks r h (t - 2 ^ Z.of_nat h) else path_pks l h t
  | _, _ => []
  end.

Fixpoint leaf_keys (T : ktree) (h : nat) (t : Z) : Scalar * Point :=
  match T, h with
  | KNode _ _ l r, S h =>
    if (2 ^ Z.of_nat h <=? t)%Z then leaf_keys r h (t - 2 ^ Z.of_nat h) else leaf_keys l h t
  | KLeaf _ sk pk, _ => (sk, pk)
  | KNode _ pk _ _, 0 => (s0, pk)
  end.

Definition secret_at (T : ktree) (h : nat) (t : Z) : KESSecret := {|
  initial_merkle_tree_high := h;
  n_hot_sk_updates := t;
  hot_sk := (leaf_keys T h t).1;
  hot_pk := (leaf_keys T h t).2;
  merkle_seeds := path_seeds T h t;
  merkle_public_keys := path_pks T h t;
|}.

(** ** Generation builds the tree *)

#[local] Arguments sum_composition_pk_gen : simpl never.
#[local] Arguments insert_in_vec : simpl never.
#[local] Arguments Z.of_nat : simpl never.
#[local] Arguments Z.pow : simpl never.
#[local] Arguments reverse : simpl never.

Fixpoint left_seed (h : nat) (seed : bytes) : bytes :=
  match h with
  | 0 => seed
  | S h => left_seed h (partial_seed seed true)
  end.

Fixpoint right_seeds (h : nat) (seed : bytes) : list bytes :=
  match h with
  | 0 => []
  | S h => partial_seed seed false :: right_seeds h (partial_seed seed true)
  end.

Lemma get_left_branch_loop h seed acc :
  get_left_merkle_tree_branch_loop (S h) seed acc =
  ('(sk, pk) ← key_pair_gen (left_seed (S h) seed);
   Done (sk, pk, acc ++ right_seeds (S h) seed)).
Proof.
  revert seed acc. induction h as [|h IH]; intros seed acc; [done|].
  change (get_left_merkle_tree_branch_loop (S (S h)) seed acc) with
    (get_left_merkle_tree_branch_loop (S h) (partial_seed seed true)
      (acc ++ [partial_seed seed false])).
  rewrite IH. cbn [left_seed right_seeds]. by rewrite <- app_assoc.
Qed.

(** The key of the tree of height [h] over [seed]. *)
Definition root_pk (h : nat) (seed : bytes) : outcome Point :=
  T ← build h seed; Done (tree_pk T).

(** The loops fold the right siblings into the keys of the left spine,
    bottom up; [right] computes the key of a right sibling. *)
Lemma spine_fold (right : nat -> bytes -> outcome Point) h seed :
  (forall i s, i < h -> right i s = root_pk i s) ->
  ('(_, pk0) ← key_pair_gen (left_seed h seed);
   foldO (fun '(pk, high) seed =>
       pk_right ← right high seed;
       pk ← merge_public_keys pk pk_right;
       Done (pk, high + 1)) (reverse (right_seeds h seed)) (pk0, 0)) =
  (T ← build h seed; Done (tree_pk T, h)).
Proof.
  revert seed. induction h as [|h IH]; intros seed Hr.
  - cbn. by destruct (key_pair_gen seed) as [[sk pk]| |].
  - cbn [left_seed right_seeds build]. rewrite reverse_cons.
    specialize (IH (partial_seed seed true) (fun i s Hi => Hr i s (Nat.lt_lt_succ_r _ _ Hi))).
    destruct (key_pair_gen (left_seed h (partial_seed seed true))) as [[sk pk]| |];
      cbn -[foldO] in IH |- *; rewrite ?foldO_app, ?IH;
      destruct (build h (partial_seed seed true)) as [l| |]; try done.
    cbn.
    rewrite Hr by lia. unfold root_pk.
    destruct (build h (partial_seed seed false)) as [r| |]; cbn; try done.
    destruct (merge_public_keys _ _); cbn; try done. by rewrite Nat.add_1_r.
Qed.

Lemma sum_composition_pk_gen_root fuel h seed :
  h < fuel -> sum_composition_pk_gen_fuel fuel h seed = root_pk h seed.
Proof.
  revert h seed. induction fuel as [|fuel IH]; intros h seed Hf; [lia|].
  unfold root_pk. cbn [sum_composition_pk_gen_fuel]. destruct (Nat.eqb_spec h 0) as [->|Hh].
  - cbn. by destruct (key_pair_gen seed) as [[sk pk]| |].
  - destruct h as [|h]; [done|].
    unfold get_left_merkle_tree_branch. rewrite get_left_branch_loop, bind_assoc. cbn [app].
    pose proof (spine_fold (fun high s => if (high =? 0)%nat then '(_, pk) ← key_pair_gen s; Done pk
      else sum_composition_pk_gen_fuel fuel high s) (S h) seed) as Hs.
    ospecialize* Hs.
    { intros i s Hi. destruct (Nat.eqb_spec i 0) as [->|Hi0]; [|apply IH; lia].
      unfold root_pk. cbn. by destruct (key_pair_gen s) as [[? ?]| |]. }
    destruct (key_pair_gen (left_seed (S h) seed)) as [[sk pk]| |];
      cbn -[foldO build] in Hs |- *; rewrite ?Hs; by destruct (build (S h) seed).
Qed.

Lemma sum_composition_root h seed : sum_composition_pk_gen h seed = root_pk h seed.
Proof. apply sum_composition_pk_gen_root. lia. Qed.

Lemma pow2_pos_Z h : (0 < 2 ^ Z.of_nat h)%Z.
Proof. apply Z.pow_pos_nonneg; lia. Qed.

Lemma pow2_not_le_0 h : (2 ^ Z.of_nat h <=? 0)%Z = false.
Proof. apply Z.leb_gt, pow2_pos_Z. Qed.

Lemma gen_fold h seed :
  ('(_, pk0) ← key_pair_gen (left_seed h seed);
   foldO (fun '(pk_all_scheme_, high, merkle_public_keys_) seed =>
       pk_right ← sum_composition_pk_gen high seed;
       pk_all_scheme_' ← merge_public_keys pk_all_scheme_ pk_right;
       Done (pk_all_scheme_', high + 1,
             merkle_public_keys_ ++ [(pk_all_scheme_, pk_right)]))
     (reverse (right_seeds h seed)) (pk0, 0, [])) =
  (T ← build h seed; Done (tree_pk T, h, reverse (path_pks T h 0))).
Proof.
  revert seed. induction h as [|h IH]; intros seed.
  - cbn. by destruct (key_pair_gen seed) as [[sk pk]| |].
  - cbn [left_seed right_seeds build]. rewrite reverse_cons.
    specialize (IH (partial_seed seed true)).
    destruct (key_pair_gen (left_seed h (partial_seed seed true))) as [[sk pk]| |];
      cbn -[foldO] in IH |- *; rewrite ?foldO_app, ?IH;
      destruct (build h (partial_seed seed true)) as [l| |]; try done.
    cbn -[sum_composition_pk_gen]. rewrite sum_composition_root. unfold root_pk.
    destruct (build h (partial_seed seed false)) as [r| |]; cbn; try done.
    destruct (merge_public_keys _ _); cbn; try done.
    by rewrite Nat.add_1_r, pow2_not_le_0, reverse_cons.
Qed.

Lemma build_first_leaf h seed T :
  build h seed = Done T ->
  key_pair_gen (left_seed h seed) = Done (leaf_keys T h 0) /\
  path_seeds T h 0 = right_seeds h seed /\ tree_seed T = seed /\ length (path_pks T h 0) = h.
Proof.
  revert seed T. induction h as [|h IH]; intros seed T HT; cbn in HT; bind_inv.
  - destruct v as [sk pk]. bind_inv. subst. done.
  - subst T. destruct (IH _ _ Hv) as (Hk & Hs & Ht & Hl). destruct (IH _ _ Hv0) as (_ & _ & Htr & _).
    cbn. rewrite pow2_not_le_0. cbn. rewrite Hs, Htr, Hl. done.
Qed.

Lemma right_seeds_length h seed : length (right_seeds h seed) = h.
Proof. revert seed. induction h; intros; cbn; auto. Qed.

(** Generation is the first period of the tree, and panics when building the
    tree does. *)
Lemma kes_gen_build h seed :
  kes_gen h seed = (T ← build h seed; Done (secret_at T h 0, tree_pk T)).
Proof.
  unfold kes_gen. destruct (Nat.eqb_spec h 0) as [->|Hh].
  - cbn. by destruct (key_pair_gen seed) as [[sk pk]| |].
  - destruct h as [|h]; [done|]. unfold get_left_merkle_tree_branch.
    rewrite get_left_branch_loop, !bind_assoc. cbn [app].
    pose proof (gen_fold (S h) seed) as Hg. pose proof (build_first_leaf (S h) seed) as Hb.
    destruct (key_pair_gen (left_seed (S h) seed)) as [[sk pk]| |] eqn:Hk;
      cbn -[foldO build] in Hg |- *; rewrite ?Hg;
      destruct (build (S h) seed) as [T| |]; try done.
    destruct (Hb T eq_refl) as ([= Hlk] & Hs & _ & Hlen).
    cbn -[right_seeds path_pks]. rewrite reverse_involutive, Hlen, right_seeds_length, Nat.eqb_refl.
    unfold secret_at. rewrite <- Hlk, Hs, Nat.eqb_refl. done.
Qed.

(** ** Moving to the next leaf *)

Lemma insert_in_vec_take {T} (source cloned : list T) hi :
  hi <= length cloned -> insert_in_vec source cloned hi = Done (source ++ take hi cloned).
Proof.
  unfold insert_in_vec. induction hi as [|hi IH]; intros Hhi; [by rewrite take_0, app_nil_r|].
  rewrite seq_S, foldO_app, IH by lia. cbn.
  destruct (lookup_lt_is_Some_2 cloned hi) as [x Hx]; [lia|].
  by rewrite Hx, (take_S_r _ _ x), app_assoc.
Qed.

Lemma build_node h seed T :
  build (S h) seed = Done T ->
  exists pk l r, T = KNode seed pk l r /\
    build h (partial_seed seed true) = Done l /\ build h (partial_seed seed false) = Done r /\
    merge_public_keys (tree_pk l) (tree_pk r) = Done pk.
Proof. intros HT. cbn in HT. bind_inv. eauto 10. Qed.

Lemma build_tree_seed h seed T : build h seed = Done T -> build h (tree_seed T) = Done T.
Proof. intros HT. by destruct (build_first_leaf _ _ _ HT) as (_ & _ & -> & _). Qed.

Lemma path_pks_length h seed T t : build h seed = Done T -> length (path_pks T h t) = h.
Proof.
  revert seed T t. induction h as [|h IH]; intros seed T t HT.
  - cbn in HT. bind_inv. destruct v. by simplify_eq.
  - apply build_node in HT as (pk & l & r & -> & Hl & Hr & _). cbn. destruct (_ <=? t)%Z; eauto.
Qed.

Lemma path_seeds_last h seed T : build h seed = Done T -> path_seeds T h (2 ^ Z.of_nat h - 1) = [].
Proof.
  revert seed T. induction h as [|h IH]; intros seed T HT.
  - cbn in HT. bind_inv. destruct v. by simplify_eq.
  - apply build_node in HT as (pk & l & r & -> & Hl & Hr & _). cbn.
    rewrite Nat2Z.inj_succ, Z.pow_succ_r by lia. pose proof (pow2_pos_Z h).
    rewrite (proj2 (Z.leb_le _ _)) by lia. erewrite <- IH; [|exact Hr]. f_equal. lia.
Qed.

(** The last seed kept at leaf [t] opens, at leaf [t + 1], a subtree [S] of
    height [j], where [2^j] is the power of two in [t + 1]. *)
Definition next_leaf (T : ktree) (h : nat) (t : Z) (j : nat) (S : ktree) (init : list bytes) : Prop :=
  j < h /\ ((t + 1) mod 2 ^ (Z.of_nat j + 1) = 2 ^ Z.of_nat j)%Z /\
  build j (tree_seed S) = Done S /\
  path_seeds T h t = init ++ [tree_seed S] /\
  path_seeds T h (t + 1) = init ++ path_seeds S j 0 /\
  path_pks T h (t + 1) = take (h - j) (path_pks T h t) ++ path_pks S j 0 /\
  leaf_keys T h (t + 1) = leaf_keys S j 0 /\
  exists pk, path_pks T h t !! (h - j - 1) = Some (pk, tree_pk S).

Lemma next_leaf_right seed pk l r h t j S init :
  (2 ^ Z.of_nat h <= t)%Z -> next_leaf r h (t - 2 ^ Z.of_nat h) j S init ->
  next_leaf (KNode seed pk l r) (Datatypes.S h) t j S init.
Proof.
  intros Ht (Hj & Hmod & HS & Hs & Hs' & Hp & Hk & pk' & Hl).
  unfold next_leaf. cbn [path_seeds path_pks leaf_keys].
  rewrite !(proj2 (Z.leb_le _ _)) by lia.
  replace (t + 1 - 2 ^ Z.of_nat h)%Z with (t - 2 ^ Z.of_nat h + 1)%Z by lia.
  split_and!; try done; [lia| | |].
  - rewrite <- Hmod.
    replace (t + 1)%Z with (t - 2 ^ Z.of_nat h + 1
      + 2 ^ (Z.of_nat h - (Z.of_nat j + 1)) * 2 ^ (Z.of_nat j + 1))%Z; [apply Z_mod_plus_full|].
    rewrite <- Z.pow_add_r by lia.
    replace (Z.of_nat h - (Z.of_nat j + 1) + (Z.of_nat j + 1))%Z with (Z.of_nat h) by lia. lia.
  - rewrite Hp. by replace (Datatypes.S h - j) with (Datatypes.S (h - j)) by lia.
  - exists pk'. by replace (Datatypes.S h - j - 1) with (Datatypes.S (h - j - 1)) by lia.
Qed.

Lemma next_leaf_left seed pk l r h t j S init :
  (t + 1 < 2 ^ Z.of_nat h)%Z -> next_leaf l h t j S init ->
  next_leaf (KNode seed pk l r) (Datatypes.S h) t j S (tree_seed r :: init).
Proof.
  intros Ht (Hj & Hmod & HS & Hs & Hs' & Hp & Hk & pk' & Hl).
  unfold next_leaf. cbn [path_seeds path_pks leaf_keys].
  rewrite !(proj2 (Z.leb_gt _ _)) by lia. rewrite Hs, Hs', Hp.
  replace (Datatypes.S h - j) with (Datatypes.S (h - j)) by lia.
  replace (Datatypes.S (h - j) - 1) with (Datatypes.S (h - j - 1)) by lia.
  split_and!; try done; [lia|]. by exists pk'.
Qed.

Lemma next_leaf_exists h seed T t :
  build h seed = Done T -> (0 <= t)%Z -> (t + 1 < 2 ^ Z.of_nat h)%Z ->
  exists j S init, next_leaf T h t j S init.
Proof.
  revert seed T t. induction h as [|h IH]; intros seed T t HT Ht Hlt; [cbn in Hlt; lia|].
  apply build_node in HT as (pk & l & r & -> & Hl & Hr & _).
  rewrite Nat2Z.inj_succ, Z.pow_succ_r in Hlt by lia. pose proof (pow2_pos_Z h).
  destruct (Z.lt_trichotomy (t + 1) (2 ^ Z.of_nat h)) as [Hc|[Hc|Hc]].
  - destruct (IH _ _ t Hl) as (j & S & init & Hn); [lia..|].
    eauto using next_leaf_left.
  - exists h, r, []. unfold next_leaf. cbn [path_seeds path_pks leaf_keys].
    rewrite Hc, Z.leb_refl, Z.sub_diag, (proj2 (Z.leb_gt _ _)) by lia.
    replace t with (2 ^ Z.of_nat h - 1)%Z by lia. erewrite path_seeds_last by done.
    replace (Datatypes.S h - h) with 1 by lia.
    split_and!; try done; [lia| |by eapply build_tree_seed|by exists (tree_pk l)].
    apply Z.mod_small. rewrite Z.pow_add_r by lia. lia.
  - destruct (IH _ _ (t - 2 ^ Z.of_nat h)%Z Hr) as (j & S & init & Hn); [lia..|].
    exists j, S, init. apply next_leaf_right; [lia|done].
Qed.

(** ** The number of anchors between consecutive leaves *)

Lemma count_ones_ones m : m <= 64 -> count_ones (Z.ones (Z.of_nat m)) = Z.of_nat m.
Proof.
  intros Hm. unfold count_ones. f_equal.
  replace 64 with (m + (64 - m)) by lia. rewrite seq_app, filter_app, length_app.
  rewrite filter_all, filter_none, length_seq; [cbn; lia|..];
    intros i Hi%elem_of_seq.
  - rewrite Z.ones_spec_high; [done|lia].
  - rewrite Z.ones_spec_low; [done|lia].
Qed.

Lemma lxor_succ t j :
  (0 <= t)%Z -> (0 <= j)%Z -> ((t + 1) mod 2 ^ (j + 1) = 2 ^ j)%Z ->
  Z.lxor t (t + 1) = Z.ones (j + 1).
Proof.
  intros Ht Hj Hmod. pose proof (Z.pow_pos_nonneg 2 j).
  assert (2 ^ (j + 1) = 2 * 2 ^ j)%Z as Hpow by (rewrite Z.pow_add_r; lia).
  pose proof (Z.div_mod (t + 1) (2 ^ (j + 1))) as Hdm.
  assert (t mod 2 ^ (j + 1) = Z.ones j /\ t / 2 ^ (j + 1) = (t + 1) / 2 ^ (j + 1))%Z as [Hlow Hhigh].
  { rewrite Z.ones_equiv. unfold Z.pred. split; symmetry.
    - apply (Z.mod_unique_pos _ _ ((t + 1) / 2 ^ (j + 1))); lia.
    - apply (Z.div_unique_pos _ _ _ (2 ^ j - 1)); lia. }
  apply Z.bits_inj'. intros n Hn. rewrite Z.lxor_spec, Z.testbit_ones_nonneg by lia.
  destruct (Z.ltb_spec n (j + 1)) as [Hlt|Hge].
  - rewrite <- (Z.mod_pow2_bits_low t (j + 1) n), <- (Z.mod_pow2_bits_low (t + 1) (j + 1) n),
      Hlow, Hmod by lia.
    rewrite Z.testbit_ones_nonneg, Z.pow2_bits_eqb by lia.
    destruct (Z.ltb_spec n j), (Z.eqb_spec j n); done || lia.
  - replace n with (n - (j + 1) + (j + 1))%Z by lia.
    rewrite <- (Z.div_pow2_bits t), <- (Z.div_pow2_bits (t + 1)), Hhigh by lia. apply xorb_nilpotent.
Qed.

Lemma anchors_of_next_leaf T h t j S init :
  next_leaf T h t j S init -> h <= 32 -> (0 <= t)%Z ->
  count_ones (Z.lxor t (t + 1)) = (Z.of_nat j + 1)%Z.
Proof.
  intros (Hj & Hmod & _) Hh Ht. rewrite (lxor_succ t (Z.of_nat j)) by (done || lia).
  replace (Z.of_nat j + 1)%Z with (Z.of_nat (j + 1)) by lia. apply count_ones_ones. lia.
Qed.

Lemma take_app_last {T} (l : list T) x : take (length (l ++ [x]) - 1) (l ++ [x]) = l.
Proof. rewrite length_app. cbn. rewrite Nat.add_sub. apply take_app_length. Qed.

Lemma lookup_app_last {T} (l : list T) x : (l ++ [x]) !! (length (l ++ [x]) - 1) = Some x.
Proof. rewrite length_app. cbn. rewrite Nat.add_sub. by apply list_lookup_middle. Qed.

Lemma update_sibling T h t S init seed :
  build h seed = Done T -> next_leaf T h t 0 S init ->
  kes_update_sibling (secret_at T h t) (length (path_seeds T h t) - 1) =
  Done ((leaf_keys T h (t + 1)).1, (leaf_keys T h (t + 1)).2,
        path_seeds T h (t + 1), path_pks T h (t + 1)).
Proof.
  intros HT (_ & _ & HS & Hs & Hs' & Hp & Hk & _).
  destruct (build_first_leaf _ _ _ HS) as (Hkp & Hr & _ & _). cbn in Hkp.
  pose proof (path_pks_length _ _ _ t HT) as Hlen.
  unfold kes_update_sibling. cbn [merkle_seeds merkle_public_keys initial_merkle_tree_high secret_at].
  rewrite Hs', Hp, Hk, Hs, Hr.
  rewrite (proj2 (Nat.leb_le _ _)) by (rewrite length_app; cbn; lia).
  rewrite !insert_in_vec_take, take_app_last by lia. cbn.
  rewrite lookup_app_last. cbn. rewrite Hkp. cbn.
  destruct S as [sd sk pk|]; [|by cbn in HS; bind_inv; destruct v].
  cbn. rewrite app_nil_r, Nat.sub_0_r, app_nil_r. done.
Qed.

Lemma update_subtree T h t j S init seed :
  build h seed = Done T -> next_leaf T h t j S init -> j <> 0 ->
  kes_update_subtree (secret_at T h t) (length (path_seeds T h t) - 1) (j + 1) =
  Done ((leaf_keys T h (t + 1)).1, (leaf_keys T h (t + 1)).2,
        path_seeds T h (t + 1), path_pks T h (t + 1)).
Proof.
  intros HT (Hj & _ & HS & Hs & Hs' & Hp & Hk & pk & Hl) Hj0.
  pose proof (path_pks_length _ _ _ t HT) as Hlen.
  pose proof (path_pks_length _ _ _ 0 HS) as HlenS.
  destruct (build_first_leaf _ _ _ HS) as (_ & Hr & _ & _).
  unfold kes_update_subtree. cbn [merkle_seeds merkle_public_keys initial_merkle_tree_high secret_at].
  rewrite Hs', Hp, Hk, Hs, lookup_app_last. cbn -[kes_gen Nat.ltb].
  rewrite Nat.add_sub, kes_gen_build, HS. cbn -[Nat.ltb].
  rewrite Hlen, HlenS, (proj2 (Nat.ltb_lt 1 h)), (proj2 (Nat.ltb_ge h (j + 1))) by lia.
  rewrite Nat.sub_add_distr, Hl. cbn -[Nat.ltb]. rewrite decide_True by done.
  rewrite (insert_in_vec_take [] (init ++ _)), take_app_last by lia. cbn -[Nat.ltb].
  rewrite (proj2 (Nat.ltb_ge h j)), (insert_in_vec_take [] (path_pks T h t)) by lia. cbn.
  rewrite (insert_in_vec_take _ (path_pks S j 0)) by lia. cbn.
  rewrite insert_in_vec_take by (rewrite Hr, right_seeds_length; lia). cbn.
  rewrite length_app, !length_take, HlenS, Hlen.
  rewrite (proj2 (Nat.eqb_eq _ _)) by lia. cbn.
  rewrite !(take_ge _ j) by (rewrite ?Hr, ?right_seeds_length; lia). done.
Qed.

Lemma kes_update_next h seed T t :
  build h seed = Done T -> h <= 32 -> (0 <= t)%Z -> (t + 1 < 2 ^ Z.of_nat h)%Z ->
  kes_update (secret_at T h t) = Done (secret_at T h (t + 1)).
Proof.
  intros HT Hh Ht Hlt. destruct (next_leaf_exists h seed T t HT Ht Hlt) as (j & S & init & Hn).
  unfold kes_update. cbn -[kes_update_sibling kes_update_subtree].
  rewrite (anchors_of_next_leaf _ _ _ _ _ _ Hn Hh Ht).
  assert (length (path_seeds T h t) <> 0) as Hne.
  { destruct Hn as (_ & _ & _ & -> & _). rewrite length_app. cbn. lia. }
  rewrite (proj2 (Nat.eqb_neq _ _) Hne). unfold checked.
  rewrite bool_decide_true; cycle 1.
  { pose proof (Z.pow_le_mono_r 2 (Z.of_nat h) 32). unfold u32_max. lia. }
  destruct (Z.eqb_spec (Z.of_nat j + 1) 1) as [Hj|Hj].
  - replace j with 0 in Hn by lia. by rewrite (update_sibling T h t S init seed HT Hn).
  - replace (Z.to_nat (Z.of_nat j + 1)) with (j + 1) by lia.
    by rewrite (update_subtree T h t j S init seed HT Hn) by lia.
Qed.

Lemma kes_update_last h seed T :
  build h seed = Done T -> kes_update (secret_at T h (2 ^ Z.of_nat h - 1)) = Panic.
Proof. intros HT. unfold kes_update. cbn. by erewrite path_seeds_last. Qed.

Lemma kes_updates_at h seed T n t :
  build h seed = Done T -> h <= 32 -> (0 <= t)%Z -> (t + Z.of_nat n < 2 ^ Z.of_nat h)%Z ->
  kes_updates n (secret_at T h t) = Done (secret_at T h (t + Z.of_nat n)).
Proof.
  intros HT Hh. revert t. induction n as [|n IH]; intros t Ht Hn.
  - cbn. by rewrite Z.add_0_r.
  - cbn. rewrite (kes_update_next h seed T t) by (done || lia). cbn.
    rewrite IH by lia. do 2 f_equal. lia.
Qed.

Lemma kes_updates_add n m s : kes_updates (n + m) s = kes_updates n s ≫= kes_updates m.
Proof.
  revert s. induction n as [|n IH]; intros s; [done|]. cbn. destruct (kes_update s); cbn; auto.
Qed.

(** ** Signing along the path and recomputing the root *)

(** The keys beside the path to leaf [t], from the root down. *)
Fixpoint siblings (T : ktree) (h : nat) (t : Z) : list Point :=
  match T, h with
  | KNode _ _ l r, S h =>
    if (2 ^ Z.of_nat h <=? t)%Z then tree_pk l :: siblings r h (t - 2 ^ Z.of_nat h)
    else tree_pk r :: siblings l h t
  | _, _ => []
  end.

Lemma siblings_length h seed T t : build h seed = Done T -> length (siblings T h t) = h.
Proof.
  revert seed T t. induction h as [|h IH]; intros seed T t HT.
  - cbn in HT. bind_inv. destruct v. by simplify_eq.
  - apply build_node in HT as (pk & l & r & -> & Hl & Hr & _). cbn.
    destruct (_ <=? t)%Z; cbn; eauto.
Qed.

Lemma kes_sign_step_eq high pks h i p t keys :
  i + S h = high -> high <= 32 -> pks !! i = Some p ->
  kes_sign_step high pks (t, keys) i =
  Done (if (2 ^ Z.of_nat h <=? t)%Z then ((t - 2 ^ Z.of_nat h)%Z, keys ++ [p.1])
        else (t, keys ++ [p.2])).
Proof.
  intros Hi Hh Hp. pose proof (Z.pow_le_mono_r 2 (Z.of_nat h) 31). pose proof (pow2_pos_Z h).
  unfold kes_sign_step, checked. rewrite bool_decide_true by (unfold u32_max; lia). cbn -[Z.sub Z.leb].
  rewrite bool_decide_true by (unfold u32_max; lia). cbn -[Z.sub Z.leb].
  replace (Z.of_nat high - Z.of_nat i - 1)%Z with (Z.of_nat h) by lia.
  rewrite bool_decide_true by (unfold u32_max; lia). cbn -[Z.sub Z.leb].
  rewrite Hp. cbn -[Z.sub Z.leb]. by destruct (_ <=? t)%Z.
Qed.

Lemma sign_fold h seed T pre t keys :
  build h seed = Done T -> length pre + h <= 32 ->
  exists t', foldO (kes_sign_step (length pre + h) (pre ++ path_pks T h t))
    (seq (length pre) h) (t, keys) = Done (t', keys ++ siblings T h t).
Proof.
  revert seed T pre t keys. induction h as [|h IH]; intros seed T pre t keys HT Hlen.
  - cbn. destruct T; cbn; rewrite app_nil_r; eauto.
  - apply build_node in HT as (pk & l & r & -> & Hl & Hr & _).
    cbn [seq foldO path_pks siblings].
    rewrite (kes_sign_step_eq _ _ h _ (tree_pk l, tree_pk r))
      by (lia || by apply list_lookup_middle).
    cbn -[seq foldO Z.sub Z.leb].
    rewrite (cons_middle (tree_pk l, tree_pk r)), app_assoc.
    set (pre' := pre ++ [(tree_pk l, tree_pk r)]).
    assert (S (length pre) = length pre') as -> by (unfold pre'; rewrite length_app; cbn; lia).
    replace (length pre + S h) with (length pre' + h) in *
      by (unfold pre'; rewrite length_app; cbn; lia).
    destruct (2 ^ Z.of_nat h <=? t)%Z.
    + destruct (IH _ r pre' (t - 2 ^ Z.of_nat h)%Z (keys ++ [tree_pk l]) Hr) as (t' & ->); [done|].
      exists t'. by rewrite <- app_assoc.
    + destruct (IH _ l pre' t (keys ++ [tree_pk r]) Hl) as (t' & ->); [done|].
      exists t'. by rewrite <- app_assoc.
Qed.

Lemma land_pow2 p k : (0 <= k)%Z -> negb (Z.land p (2 ^ k) =? 0)%Z = Z.testbit p k.
Proof.
  intros Hk. destruct (Z.testbit p k) eqn:Hb.
  - apply negb_true_iff, Z.eqb_neq. intros H0. apply (f_equal (fun x => Z.testbit x k)) in H0.
    rewrite Z.land_spec, Hb, Z.pow2_bits_true, Z.bits_0 in H0 by done. done.
  - apply negb_false_iff, Z.eqb_eq, Z.bits_inj'. intros n Hn.
    rewrite Z.land_spec, Z.pow2_bits_eqb, Z.bits_0 by done.
    destruct (Z.eqb_spec k n) as [<-|]; [by rewrite Hb|apply andb_false_r].
Qed.

Lemma period_bit_top p h t :
  h < 32 -> (p mod 2 ^ (Z.of_nat h + 1) = t)%Z -> period_bit p h = Done (2 ^ Z.of_nat h <=? t)%Z.
Proof.
  intros Hh <-. unfold period_bit. rewrite (proj2 (Nat.leb_gt _ _)) by lia.
  rewrite Z.shiftl_1_l, land_pow2 by lia. f_equal.
  rewrite <- (Z.mod_pow2_bits_low p (Z.of_nat h + 1)) by lia.
  pose proof (pow2_pos_Z h). assert (2 ^ (Z.of_nat h + 1) = 2 ^ Z.of_nat h * 2)%Z as Hp
    by (rewrite Z.pow_add_r; lia).
  pose proof (Z.mod_pos_bound p (2 ^ (Z.of_nat h + 1))) as Hb.
  revert Hb. generalize (p mod 2 ^ (Z.of_nat h + 1))%Z. intros t Hb.
  destruct (Z.leb_spec (2 ^ Z.of_nat h) t) as [Hle|Hgt].
  - apply Z.testbit_true; [lia|].
    rewrite <- (Z.div_unique_pos t (2 ^ Z.of_nat h) 1 (t - 2 ^ Z.of_nat h)); [done|lia..].
  - apply Z.testbit_false; [lia|]. by rewrite Z.div_small by lia.
Qed.

(** One iteration of [calculate_scheme_pk_from_signature]. *)
Definition scheme_pk_step (pks : list Point) (p : Z) (scheme_pk : Point) (i : nat) : outcome Point :=
  pk_ ← unwrap (pks !! i);
  right ← period_bit p (length pks - i - 1);
  if (right : bool) then merge_public_keys pk_ scheme_pk else merge_public_keys scheme_pk pk_.

Lemma scheme_pk_fold h seed T pre t p :
  build h seed = Done T -> h <= 32 -> (p mod 2 ^ Z.of_nat h = t)%Z ->
  foldO (scheme_pk_step (pre ++ siblings T h t) p)
    (reverse (seq (length pre) h)) (leaf_keys T h t).2 = Done (tree_pk T).
Proof.
  revert seed T pre t. induction h as [|h IH]; intros seed T pre t HT Hh Hp.
  - cbn in HT. bind_inv. destruct v. by simplify_eq.
  - apply build_node in HT as (pk & l & r & -> & Hl & Hr & Hm).
    rewrite Nat2Z.inj_succ, <- Z.add_1_r in Hp.
    pose proof (pow2_pos_Z h). assert (2 ^ (Z.of_nat h + 1) = 2 ^ Z.of_nat h * 2)%Z as Hpow
      by (rewrite Z.pow_add_r; lia).
    pose proof (Z.mod_pos_bound p (2 ^ (Z.of_nat h + 1))) as Hb. rewrite Hp in Hb.
    assert (p mod 2 ^ Z.of_nat h = t mod 2 ^ Z.of_nat h)%Z as Hlow.
    { rewrite <- Hp, Hpow. symmetry. apply Z.mod_mod_divide. exists 2%Z. lia. }
    cbn [seq siblings leaf_keys tree_pk]. rewrite reverse_cons, foldO_app.
    pose proof (period_bit_top p h t) as Hbit.
    assert (forall c sib, length (pre ++ sib :: c) - length pre - 1 = length c) as Hlen.
    { intros. rewrite length_app. cbn. lia. }
    destruct (Z.leb_spec (2 ^ Z.of_nat h) t) as [Hle|Hgt].
    + pose proof (IH _ r (pre ++ [tree_pk l]) (t - 2 ^ Z.of_nat h)%Z Hr) as IHr.
      rewrite <- app_assoc, length_app, Nat.add_1_r in IHr. cbn [app] in IHr.
      rewrite IHr; [|lia|rewrite Hlow; symmetry; apply (Z.mod_unique_pos _ _ 1); lia].
      cbn. unfold scheme_pk_step. rewrite list_lookup_middle, Hlen by done. cbn.
      rewrite (siblings_length _ _ _ _ Hr), Hbit by (done || lia). cbn. by rewrite Hm.
    + pose proof (IH _ l (pre ++ [tree_pk r]) t Hl) as IHl.
      rewrite <- app_assoc, length_app, Nat.add_1_r in IHl. cbn [app] in IHl.
      rewrite IHl; [|lia|rewrite Hlow; apply Z.mod_small; lia].
      cbn. unfold scheme_pk_step. rewrite list_lookup_middle, Hlen by done. cbn.
      rewrite (siblings_length _ _ _ _ Hl), Hbit by (done || lia). cbn. by rewrite Hm.
Qed.

Context {CL : CurveLaws C} {EL : EcdsaLaws}.

Lemma leaf_key_pair h seed T t :
  build h seed = Done T -> (leaf_keys T h t).2 = generator *p (leaf_keys T h t).1.
Proof.
  revert seed T t. induction h as [|h IH]; intros seed T t HT.
  - cbn in HT. bind_inv. destruct v. simplify_eq. cbn. by apply key_pair_gen_Done in Hv as [_ ->].
  - apply build_node in HT as (pk & l & r & -> & Hl & Hr & _). cbn. destruct (_ <=? t)%Z; eauto.
Qed.

Lemma tree_pk_point h seed T : build h seed = Done T -> tree_pk T <> identity.
Proof.
  destruct h as [|h]; intros HT.
  - cbn in HT. bind_inv. destruct v. simplify_eq. cbn. by eapply key_pair_gen_point.
  - apply build_node in HT as (pk & l & r & -> & _ & _ & Hm). cbn.
    unfold merge_public_keys in Hm. bind_inv. by eapply hash_to_public_key_point.
Qed.

Lemma sign_then_verify h seed T t m :
  build h seed = Done T -> h <= 32 -> (0 <= t < 2 ^ Z.of_nat h)%Z ->
  exists sg, kes_sign m (secret_at T h t) t = Done sg /\ kes_verify sg m (tree_pk T) t = Done true.
Proof.
  intros HT Hh Ht. destruct (sign_fold h seed T [] t [] HT) as (t' & Hsign); [done|].
  unfold kes_sign. cbn -[foldO Z.pow] in *.
  rewrite (path_pks_length _ _ _ _ HT), Hsign. cbn -[foldO Z.pow]. eexists. split; [done|].
  unfold kes_verify, calculate_scheme_pk_from_signature. cbn -[foldO Z.pow].
  rewrite (siblings_length _ _ _ _ HT).
  pose proof (scheme_pk_fold h seed T [] t t HT Hh) as Hroot. cbn [app length] in Hroot.
  unfold scheme_pk_step in Hroot. rewrite (siblings_length _ _ _ _ HT) in Hroot.
  rewrite Hroot by (apply Z.mod_small; lia). cbn.
  rewrite point_bytes_Done by (by eapply tree_pk_point). cbn.
  rewrite (leaf_key_pair _ _ _ _ HT), ecdsa_correct, bool_decide_true by done. done.
Qed.

(** ** What a secret still knows *)

Fixpoint leaves (T : ktree) : list (Scalar * Point) :=
  match T with
  | KLeaf _ sk pk => [(sk, pk)]
  | KNode _ _ l r => leaves l ++ leaves r
  end.

Lemma leaves_length h seed T : build h seed = Done T -> length (leaves T) = 2 ^ h.
Proof.
  revert seed T. induction h as [|h IH]; intros seed T HT.
  - cbn in HT. bind_inv. destruct v. by simplify_eq.
  - apply build_node in HT as (pk & l & r & -> & Hl & Hr & _). cbn.
    rewrite length_app, (IH _ _ Hl), (IH _ _ Hr). lia.
Qed.

Lemma future_leaves h seed T t :
  build h seed = Done T -> (0 <= t < 2 ^ Z.of_nat h)%Z ->
  exists subtrees, tree_seed <$> subtrees = path_seeds T h t /\
    (forall S, S ∈ subtrees -> exists j, j < h /\ build j (tree_seed S) = Done S) /\
    drop (Z.to_nat t) (leaves T) =
      leaf_keys T h t :: List.concat (leaves <$> reverse subtrees).
Proof.
  revert seed T t. induction h as [|h IH]; intros seed T t HT Ht.
  - cbn in HT. bind_inv. destruct v. simplify_eq. exists []. cbn in *.
    assert (t = 0)%Z as -> by lia. split_and!; [done|set_solver|done].
  - apply build_node in HT as (pk & l & r & -> & Hl & Hr & _).
    rewrite Nat2Z.inj_succ, Z.pow_succ_r in Ht by lia. pose proof (pow2_pos_Z h).
    pose proof (leaves_length _ _ _ Hl) as Hlen. cbn [path_seeds leaf_keys leaves].
    assert (Z.of_nat (2 ^ h) = 2 ^ Z.of_nat h)%Z as Hp by by rewrite Nat2Z.inj_pow.
    destruct (Z.leb_spec (2 ^ Z.of_nat h) t) as [Hle|Hgt].
    + destruct (IH _ _ (t - 2 ^ Z.of_nat h)%Z Hr) as (Ss & Hs & HS & Hd); [lia|].
      exists Ss. split_and!; [done|intros S (j & ? & ?)%HS; exists j; split; [lia|done]|].
      rewrite drop_app_ge, Hlen by lia. rewrite <- Hd. f_equal. lia.
    + destruct (IH _ _ t Hl) as (Ss & Hs & HS & Hd); [lia|].
      exists (r :: Ss). split_and!.
      * cbn. by rewrite Hs.
      * intros S [->|(j & ? & ?)%HS]%elem_of_cons.
        -- exists h. split; [lia|by eapply build_tree_seed].
        -- exists j. split; [lia|done].
      * rewrite drop_app_le, Hd by lia. rewrite reverse_cons, fmap_app, concat_app. cbn.
        by rewrite app_nil_r.
Qed.

(** ** Correctness of the scheme *)

(** C5: in every period [t] of a tree of height up to [32], the secret
    reached by [t] updates signs, and the signature verifies for slot [t]
    under the public key returned by [kes_gen]. *)
Theorem kes_sign_verify_every_period h seed secret pk t m :
  h <= 32 -> kes_gen h seed = Done (secret, pk) -> t < 2 ^ h ->
  exists secret_t sg, kes_updates t secret = Done secret_t /\
    kes_sign m secret_t (Z.of_nat t) = Done sg /\
    kes_verify sg m pk (Z.of_nat t) = Done true.
Proof.
  intros Hh Hgen Ht. rewrite kes_gen_build in Hgen. bind_inv. simplify_eq.
  assert (Z.of_nat t < 2 ^ Z.of_nat h)%Z as Htz
    by (change 2%Z with (Z.of_nat 2); rewrite <- Nat2Z.inj_pow; lia).
  rewrite (kes_updates_at h seed) by (done || lia). rewrite Z.add_0_l.
  destruct (sign_then_verify h seed v (Z.of_nat t) m Hv Hh) as (sg & Hs & Hver); [lia|]. eauto.
Qed.

(** After the last period there is no further update: [2^h - 1] updates
    return, the next one panics. *)
Theorem kes_update_exhausted h seed secret pk :
  h <= 32 -> kes_gen h seed = Done (secret, pk) ->
  (exists secret', kes_updates (2 ^ h - 1) secret = Done secret') /\
  kes_updates (2 ^ h) secret = Panic.
Proof.
  intros Hh Hgen. rewrite kes_gen_build in Hgen. bind_inv. simplify_eq.
  assert (0 < 2 ^ h) by (apply Nat.neq_0_lt_0, Nat.pow_nonzero; lia).
  assert (Z.of_nat (2 ^ h) = 2 ^ Z.of_nat h)%Z as Hp by by rewrite Nat2Z.inj_pow.
  assert (kes_updates (2 ^ h - 1) (secret_at v h 0) = Done (secret_at v h (2 ^ Z.of_nat h - 1)))
    as Hlast.
  { rewrite (kes_updates_at h seed) by (done || lia). do 2 f_equal. lia. }
  split; [by eexists|].
  replace (2 ^ h) with (2 ^ h - 1 + 1) by lia. rewrite kes_updates_add, Hlast. cbn -[kes_update].
  by rewrite (kes_update_last h seed).
Qed.

(** The secret of period [t] holds the key of leaf [t] and, for the later
    periods, exactly the seeds whose subtrees generate the keys of leaves
    [t + 1, .., 2^h - 1] of the tree, in order; no earlier key is among them. *)
Theorem kes_secret_keeps_future_leaves h seed secret pk t :
  h <= 32 -> kes_gen h seed = Done (secret, pk) -> t < 2 ^ h ->
  exists T secret_t subtrees,
    build h seed = Done T /\ pk = tree_pk T /\
    kes_updates t secret = Done secret_t /\
    merkle_seeds secret_t = tree_seed <$> subtrees /\
    (forall S, S ∈ subtrees -> exists j, j < h /\ build j (tree_seed S) = Done S) /\
    drop t (leaves T) =
      (hot_sk secret_t, hot_pk secret_t) :: List.concat (leaves <$> reverse subtrees).
Proof.
  intros Hh Hgen Ht. rewrite kes_gen_build in Hgen. bind_inv. simplify_eq.
  assert (Z.of_nat t < 2 ^ Z.of_nat h)%Z as Htz
    by (change 2%Z with (Z.of_nat 2); rewrite <- Nat2Z.inj_pow; lia).
  destruct (future_leaves h seed v (Z.of_nat t) Hv) as (Ss & Hs & HS & Hd); [lia|].
  exists v, (secret_at v h (Z.of_nat t)), Ss. rewrite Nat2Z.id in Hd.
  rewrite (kes_updates_at h seed) by (done || lia).
  split_and!; try done. rewrite Hd. f_equal. apply surjective_pairing.
Qed.
End Kes.

Import IntCurve.

Lemma kes_sign_verify_every_period_witness :
  exists secret pk secret_t sg, kes_gen 3 [5%Z] = Done (secret, pk) /\
    kes_updates 5 secret = Done secret_t /\ kes_sign [1%Z; 2%Z] secret_t 5 = Done sg /\
    kes_verify sg [1%Z; 2%Z] pk 5 = Done true.
Proof.
  destruct (kes_gen 3 [5%Z]) as [[s pk]| |] eqn:E; [|vm_compute in E; discriminate..].
  destruct (kes_sign_verify_every_period 3 [5%Z] s pk 5 [1%Z; 2%Z]) as (st & sg & Hsg);
    [lia|exact E|simpl; lia|]. by exists s, pk, st, sg.
Defined.

Lemma kes_update_exhausted_witness :
  exists secret pk, kes_gen 3 [5%Z] = Done (secret, pk) /\ kes_updates 8 secret = Panic.
Proof.
  destruct (kes_gen 3 [5%Z]) as [[s pk]| |] eqn:E; [|vm_compute in E; discriminate..].
  exists s, pk. split; [done|]. apply (kes_update_exhausted 3 [5%Z] s pk); [lia|exact E].
Defined.

Lemma kes_secret_keeps_future_leaves_witness :
  exists secret pk secret_t subtrees T, kes_gen 3 [5%Z] = Done (secret, pk) /\
    kes_updates 2 secret = Done secret_t /\ build 3 [5%Z] = Done T /\
    merkle_seeds secret_t = tree_seed <$> subtrees /\
    drop 2 (leaves T) = (hot_sk secret_t, hot_pk secret_t) :: List.concat (leaves <$> reverse subtrees).
Proof.
  destruct (kes_gen 3 [5%Z]) as [[s pk]| |] eqn:E; [|vm_compute in E; discriminate..].
  destruct (kes_secret_keeps_future_leaves 3 [5%Z] s pk 2) as (T & st & Ss & HT & _ & Hu & Hs & _ & Hd);
    [lia|exact E|simpl; lia|]. by exists s, pk, st, Ss, T.
Defined.
