(* ===== verification/Vrf.v ===== *)
(** * Verifiable random function and lottery numbers

    Model of [spectrum-vrf/src/lib.rs] and of the integer part of
    [spectrum-vrf/src/lottery.rs].  The random scalar drawn by [vrf_prove] is
    an argument.  [lottery_threshold] and [to_rational] compute with [f64] and
    are not modelled; the Euclidean loop they call is. *)

From S2P Require Import Prelude Crypto.

Section Vrf.
Context `{H : Hasher, C : Curve}.

Record ECVRFProof := { gamma : Point; c : Scalar; s : Scalar }.

(** The transcript hashed by the prover and by the verifier. *)
Definition vrf_challenge (ps : list Point) : outcome Scalar :=
  bs ← mapO projective_point_to_bytes ps;
  unwrap (scalar_from_bytes (hf (concat bs))).

Definition vrf_prove (random_scalar : Scalar) (sk : Scalar) (message_hash : bytes)
    : outcome ECVRFProof :=
  let base_point := generator in
  message_point ← hash_to_projective_point message_hash;
  let gamma_point := message_point *p sk in
  c_scalar ← vrf_challenge [base_point; message_point; base_point *p sk; message_point *p sk;
    base_point *p random_scalar; message_point *p random_scalar];
  let s_scalar := random_scalar -s c_scalar *s sk in
  Done {| gamma := gamma_point; c := c_scalar; s := s_scalar |}.

Definition vrf_verify (pk : Point) (message_hash : bytes) (proof : ECVRFProof) : outcome bool :=
  let base_point := generator in
  message_point ← hash_to_projective_point message_hash;
  let u_point := pk *p c proof +p base_point *p s proof in
  let v_point := gamma proof *p c proof +p message_point *p s proof in
  local_c_scalar ← vrf_challenge [base_point; message_point; pk; gamma proof; u_point; v_point];
  Done (bool_decide (local_c_scalar = c proof)).

(** [vrf_gen], with the scalar the generator of random numbers returned. *)
Definition vrf_gen (random_scalar : Scalar) : Scalar * Point :=
  (random_scalar, public_key_from_secret random_scalar).

(** A 256-bit digest scaled to [0 ..= 2^vrf_range]; [U256::pow] overflows
    from [vrf_range = 256] on. *)
Definition proof_to_random_number (proof : ECVRFProof) (constant_bytes : bytes) (vrf_range : Z)
    : outcome Z :=
  g ← projective_point_to_bytes (gamma proof);
  let random_bytes :=
    concat [constant_bytes; g; scalar_to_bytes (c proof); scalar_to_bytes (s proof)] in
  let random_num := be_value (hash random_bytes) in
  mul ← checked 0 (2 ^ 256 - 1) (2 ^ vrf_range);
  checked 0 (2 ^ 256 - 1) (random_num * mul / (2 ^ 256 - 1)).
End Vrf.

(** [gcd]: [while y > 0]; the remainder decreases, so [S y] iterations are
    enough. *)
Fixpoint gcd_loop (fuel : nat) (x y : Z) : outcome Z :=
  match fuel with
  | 0%nat => NoFuel
  | S fuel => if (0 <? y)%Z then gcd_loop fuel y (x mod y)%Z else Done x
  end.

Definition gcd (x y : Z) : outcome Z := gcd_loop (S (Z.to_nat y)) x y.

Lemma gcd_loop_spec fuel x y :
  (0 <= x)%Z -> (0 <= y)%Z -> (y < Z.of_nat fuel)%Z -> gcd_loop fuel x y = Done (Z.gcd x y).
Proof.
  revert x y. induction fuel as [|fuel IH]; intros x y Hx Hy Hf; [lia|]. cbn [gcd_loop].
  destruct (Z.ltb_spec 0 y) as [Hpos|Hz].
  - pose proof (Z.mod_pos_bound x y Hpos). rewrite IH by lia.
    f_equal. rewrite Z.gcd_comm, Z.gcd_mod by lia. apply Z.gcd_comm.
  - assert (y = 0)%Z as -> by lia. rewrite Z.gcd_0_r, Z.abs_eq by done. done.
Qed.

(** The Euclidean loop terminates with the greatest common divisor. *)
Theorem gcd_correct x y : (0 <= x)%Z -> (0 <= y)%Z -> gcd x y = Done (Z.gcd x y).
Proof. intros. apply gcd_loop_spec; lia. Qed.

Lemma gcd_correct_witness : gcd 48 180 = Done 12%Z.
Proof. apply (gcd_correct 48 180); lia. Defined.

Section VrfProofs.
Context `{H : Hasher, C : Curve, L : !CurveLaws C}.

Add Ring vrf_scalar_ring : scalar_ring.

(** The prover's commitments are recovered from the response. *)
Lemma recover_commitment p sk r ch : p *p sk *p ch +p p *p (r -s ch *s sk) = p *p r.
Proof. rewrite <- pmul_smul, <- pmul_sadd. f_equal. ring. Qed.

(** A proof made with the secret key verifies under its public key, for
    any random scalar. *)
Theorem vrf_prove_verify random_scalar sk message_hash proof :
  vrf_prove random_scalar sk message_hash = Done proof ->
  vrf_verify (public_key_from_secret sk) message_hash proof = Done true.
Proof.
  unfold vrf_prove, vrf_verify, public_key_from_secret. intros Hp. bind_inv. subst proof.
  rewrite Hv. cbn [gamma c s mbind outcome_bind]. rewrite !recover_commitment, Hv0.
  cbn. by rewrite bool_decide_true.
Qed.

(** For a range below [256] and a digest of [32] bytes, the random number
    of a proof lies between [0] and [2^vrf_range], and is never out of range
    as a 256-bit value. *)
Theorem random_number_range proof constant_bytes vrf_range :
  (forall b, length (hf b) = 32 /\ Forall is_byte (hf b)) ->
  gamma proof <> identity -> (0 <= vrf_range < 256)%Z ->
  exists n, proof_to_random_number proof constant_bytes vrf_range = Done n /\
    (0 <= n <= 2 ^ vrf_range)%Z.
Proof.
  intros Hhash Hg Hr. unfold proof_to_random_number.
  rewrite point_bytes_Done by done. cbn -[Z.pow Z.div].
  pose proof (Z.pow_pos_nonneg 2 vrf_range). pose proof (Z.pow_le_mono_r 2 vrf_range 255).
  unfold checked. rewrite bool_decide_true by lia. cbn -[Z.pow Z.div].
  set (b := constant_bytes ++ _). destruct (Hhash b) as [Hlen Hb].
  pose proof (be_value_range _ Hb) as Hv. rewrite Hlen in Hv.
  change (256 ^ Z.of_nat 32)%Z with (2 ^ 256)%Z in Hv. unfold hash.
  assert (0 <= be_value (hf b) * 2 ^ vrf_range / (2 ^ 256 - 1) <= 2 ^ vrf_range)%Z as Hq.
  { split; [apply Z.div_pos; lia|]. apply Z.div_le_upper_bound; nia. }
  rewrite bool_decide_true by lia. eauto.
Qed.
End VrfProofs.

Import IntCurve.

Lemma vrf_prove_verify_witness :
  exists proof, vrf_prove (H := toy_hasher) (C := int_curve) 11%Z 5%Z [7%Z] = Done proof /\
    vrf_verify (H := toy_hasher) (C := int_curve) (public_key_from_secret (C := int_curve) 5%Z) [7%Z] proof = Done true.
Proof.
  eexists. split; [reflexivity|].
  apply (vrf_prove_verify (H := toy_hasher) (C := int_curve) 11%Z 5%Z [7%Z]). reflexivity.
Defined.

Definition wide_hash (b : bytes) : bytes := be_bytes 32 (be_value (toy_hash b)).

Lemma random_number_range_witness :
  exists n, proof_to_random_number (H := wide_hash) (C := int_curve) (Build_ECVRFProof (C := int_curve) 3%Z 4%Z 5%Z) [9%Z] 16 = Done n /\
    (0 <= n <= 2 ^ 16)%Z.
Proof.
  apply (random_number_range (H := wide_hash) (C := int_curve)); [|simpl; lia|lia].
  intros b. split; [apply be_bytes_length|apply be_bytes_byte].
Defined.
