(* ===== verification/SigmaCrypto.v ===== *)
(** * Aggregation of sigma protocols

    Model of [spectrum-sigma/src/crypto.rs] and of the verifiable
    contributions of [spectrum-sigma/src/lib.rs]: commitments, challenges,
    responses, their aggregation over a committee, and the verification of an
    aggregate with an exclusion set.  Schnorr signatures over x-only keys are
    third-party code ([Schnorr], [SchnorrLaws]). *)

From S2P Require Import Prelude Crypto Algebra.

(** [k256::schnorr]: a point is a verifying key when it is not the identity
    and its [y] coordinate is even. *)
Class Schnorr `{C : Curve} := {
  SchnorrSig : Type;
  schnorr_sig_eq_dec :: EqDecision SchnorrSig;
  schnorr_sign : Scalar -> bytes -> SchnorrSig;
  schnorr_verify : Point -> bytes -> SchnorrSig -> bool;
  even_y : Point -> bool;
}.

Class SchnorrLaws `{SG : Schnorr} : Prop :=
  schnorr_correct sk m : sk <> s0 -> even_y (generator *p sk) = true ->
    schnorr_verify (generator *p sk) m (schnorr_sign sk m) = true.

(** [Blake2b] with 32 bytes of output. *)
Class Blake2b := blake2b : bytes -> bytes.

Section Sigma.
Context `{H : Hasher, B : Blake2b, C : Curve, SG : !Schnorr}.

(** [Iterator::sum] *)
Definition point_sum (l : list Point) : Point := foldl padd identity l.
Definition scalar_sum (l : list Scalar) : Scalar := foldl sadd s0 l.

Definition individual_input (committee : list Point) (pki : Point) : outcome Scalar :=
  let o := hf (concat (sec1_bytes <$> committee)) in
  unwrap (scalar_from_bytes (hf (o ++ sec1_bytes pki))).

(** [k256::PublicKey::try_from(point).unwrap()] *)
Definition public_key_of_point (p : Point) : outcome Point :=
  if decide (p = identity) then Panic else Done p.

Definition aggregate_pk (committee : list Point) (individual_inputs : list Scalar) : outcome Point :=
  terms ← mapO (fun '(i, xi) => ai ← unwrap (individual_inputs !! i); Done (xi *p ai))
    (imap pair committee);
  public_key_of_point (point_sum terms).

Definition aggregate_commitment (individual_commitments : list Point) : outcome Point :=
  public_key_of_point (point_sum individual_commitments).

Definition aggregate_response (individual_responses : list Scalar) : Scalar :=
  scalar_sum individual_responses.

Definition challenge (aggr_pk aggr_commitment : Point) (md : bytes) : outcome Scalar :=
  unwrap (scalar_from_bytes (hf (sec1_bytes aggr_pk ++ sec1_bytes aggr_commitment ++ md))).

Definition schnorr_commitment (sk : Scalar) : option Point :=
  let point := generator *p sk in
  if decide (point = identity) then None else if even_y point then Some point else None.

(** [schnorr_commitment_pair] draws secrets until one has a commitment; the
    draws are the list [rng]. *)
Fixpoint schnorr_commitment_pair (rng : list Scalar) : option (Scalar * Point) :=
  match rng with
  | [] => None
  | sk :: rng =>
    match schnorr_commitment sk with
    | Some c => Some (sk, c)
    | None => schnorr_commitment_pair rng
    end
  end.

Definition exclusion_proof (sk : Scalar) (md : bytes) : SchnorrSig := schnorr_sign sk md.

Definition pre_commitment (pk : Point) : bytes := blake2b (sec1_bytes pk).

Definition response (host_commitment_sk host_sk challenge individual_input : Scalar) : Scalar :=
  host_commitment_sk +s challenge *s individual_input *s host_sk.

Definition verify_response (z a challenge : Scalar) (commitment pk : Point) : bool :=
  bool_decide (generator *p z = commitment +p pk *p a *p challenge).

(** The members outside the exclusion set, weighted by their inputs. *)
Definition partial_pk (exclusion_set : list (nat * option (Point * SchnorrSig)))
    (individual_inputs : list Scalar) (committee : list Point) : outcome Point :=
  terms ← mapO (fun '(i, x) =>
      if bool_decide (i ∈ exclusion_set.*1) then Done None
      else ai ← unwrap (individual_inputs !! i); Done (Some (x *p ai)))
    (imap pair committee);
  Done (point_sum (omap id terms)).

Definition verify_aggregate (aggregate_commitment : Point) (aggregate_response : Scalar)
    (exclusion_set : list (nat * option (Point * SchnorrSig)))
    (committee : list Point) (md : bytes) (threshold : Threshold) : outcome bool :=
  individual_inputs ← mapO (individual_input committee) committee;
  aggregate_x ← aggregate_pk committee individual_inputs;
  partial_x ← partial_pk exclusion_set individual_inputs committee;
  let excluded_y := point_sum (omap (fun '(_, maybe_yi) => fst <$> maybe_yi) exclusion_set) in
  c ← challenge aggregate_x aggregate_commitment md;
  if decide (generator *p aggregate_response =
             partial_x *p c +p aggregate_commitment -p excluded_y) then
    if forallb (fun '(_, maybe_pair) =>
         match maybe_pair with
         | Some (yi, proof) => schnorr_verify yi md proof
         | None => true
         end) exclusion_set then
      num_succeeded ← checked 0 u64_max (Z.of_nat (length committee) - Z.of_nat (length exclusion_set));
      m ← threshold_min threshold (Z.of_nat (length committee));
      Done (m <=? num_succeeded)%Z
    else Done false
  else Done false.

(** ** Verifiable contributions ([lib.rs]) *)

Record CommitmentsVerifInput := {
  pre_commitments : gmap nat bytes;
  message_digest_bytes : bytes;
}.

Definition verify_commitment (input : CommitmentsVerifInput) (i : nat)
    (v : Point * SchnorrSig) : bool :=
  match pre_commitments input !! i with
  | Some t => bool_decide (t = blake2b (sec1_bytes v.1)) &&
      schnorr_verify v.1 (message_digest_bytes input) v.2
  | None => false
  end.

Record ResponseVerifInput := {
  rvi_commitment : Point;
  rvi_pk : Point;
  rvi_individual_input : Scalar;
}.

Record ResponsesVerifInput := {
  rvi_inputs : gmap nat ResponseVerifInput;
  rvi_challenge : Scalar;
}.

(** [ResponsesVerifInput::new]: the committed peers with a key and an input. *)
Definition new_responses_verif_input (commitments : gmap nat (Point * SchnorrSig))
    (committee : gmap nat Point) (individual_inputs : gmap nat Scalar) (challenge : Scalar)
    : ResponsesVerifInput := {|
  rvi_inputs := map_imap (fun pix '(yi, _) =>
    xi ← committee !! pix;
    ii ← individual_inputs !! pix;
    Some {| rvi_commitment := yi; rvi_pk := xi; rvi_individual_input := ii |}) commitments;
  rvi_challenge := challenge;
|}.

Definition verify_one_response (input : ResponsesVerifInput) (k : nat) (zi : Scalar) : bool :=
  match rvi_inputs input !! k with
  | Some r => verify_response zi (rvi_individual_input r) (rvi_challenge input)
      (rvi_commitment r) (rvi_pk r)
  | None => false
  end.

(** [VerifiableAgainst] of the three kinds of contributions. *)
#[export] Instance verify_pre_commitments : VerifiableAgainst unit (gmap nat bytes) :=
  fun _ _ => true.

(** The broadcast stage takes any commitments. *)
#[export] Instance verify_any_commitments : VerifiableAgainst unit (gmap nat (Point * SchnorrSig)) :=
  fun _ _ => true.

#[export] Instance verify_commitments
    : VerifiableAgainst CommitmentsVerifInput (gmap nat (Point * SchnorrSig)) :=
  fun m input => verify_entries (verify_commitment input) m.

#[export] Instance verify_responses : VerifiableAgainst ResponsesVerifInput (gmap nat Scalar) :=
  fun m input => verify_entries (verify_one_response input) m.

#[export] Instance verify_commitments_laws
    : VerifiableLaws CommitmentsVerifInput (gmap nat (Point * SchnorrSig)).
Proof. intros a b c p [Ha ->]%try_combine_Some. by apply verify_entries_union. Qed.

#[export] Instance verify_responses_laws : VerifiableLaws ResponsesVerifInput (gmap nat Scalar).
Proof. intros a b c p [Ha ->]%try_combine_Some. by apply verify_entries_union. Qed.

(** ** Sums *)

Context {CL : CurveLaws C}.

Add Ring sigma_scalar_ring : scalar_ring.

Lemma point_sum_acc l p : foldl padd p l = p +p point_sum l.
Proof.
  unfold point_sum. revert p. induction l as [|q l IH]; intros p; cbn; [by rewrite padd_identity|].
  rewrite (IH (p +p q)), (IH (identity +p q)), identity_padd. by rewrite padd_assoc.
Qed.

Lemma point_sum_cons p l : point_sum (p :: l) = p +p point_sum l.
Proof. unfold point_sum at 1. cbn. by rewrite point_sum_acc, identity_padd. Qed.

Lemma scalar_sum_acc l x : foldl sadd x l = x +s scalar_sum l.
Proof.
  unfold scalar_sum. revert x. induction l as [|q l IH]; intros x; cbn; [ring|].
  rewrite (IH (x +s q)), (IH (s0 +s q)). ring.
Qed.

Lemma scalar_sum_cons x l : scalar_sum (x :: l) = x +s scalar_sum l.
Proof. unfold scalar_sum at 1. cbn. rewrite scalar_sum_acc. ring. Qed.

Lemma psub_of_sum p q r : p +p q = r -> p = r -p q.
Proof. intros <-. by rewrite psub_cancel. Qed.

#[local] Arguments point_sum : simpl never.
#[local] Arguments scalar_sum : simpl never.

(** An honest response verifies. *)
Lemma response_verifies y x c a :
  verify_response (response y x c a) a c (generator *p y) (generator *p x) = true.
Proof.
  apply bool_decide_eq_true. unfold response. rewrite <- !pmul_smul, <- pmul_sadd. f_equal. ring.
Qed.

(** ** Committees with silent and absent members *)

(** What one member of the committee contributed. *)
Inductive part :=
| Responded (x y : Point) (z : Scalar)
| Silent (x y : Point) (proof : SchnorrSig)
| Absent (x : Point).

Definition part_pk (p : part) : Point :=
  match p with Responded x _ _ | Silent x _ _ | Absent x => x end.

Definition part_commitment (p : part) : option Point :=
  match p with Responded _ y _ | Silent _ y _ => Some y | Absent _ => None end.

Definition part_response (p : part) : option Scalar :=
  match p with Responded _ _ z => Some z | _ => None end.

Definition part_exclusion (i : nat) (p : part) : option (nat * option (Point * SchnorrSig)) :=
  match p with
  | Responded _ _ _ => None
  | Silent _ y proof => Some (i, Some (y, proof))
  | Absent _ => Some (i, None)
  end.

(** The exclusion set of a run: the members without a response, by index. *)
Definition exclusions (ps : list part) : list (nat * option (Point * SchnorrSig)) :=
  omap id (imap part_exclusion ps).

(** The checks the aggregation makes on each member's data. *)
Definition part_ok (md : bytes) (c : Scalar) (p : part) (a : Scalar) : Prop :=
  match p with
  | Responded x y z => verify_response z a c y x = true
  | Silent _ y proof => schnorr_verify y md proof = true
  | Absent _ => True
  end.

Definition part_term (p : part) (a : Scalar) : option Point :=
  match p with Responded x _ _ => Some (x *p a) | _ => None end.

(** The equation of the aggregate, before the excluded commitments move to
    the other side. *)
Lemma aggregate_equation md c ps inputs :
  Forall2 (part_ok md c) ps inputs ->
  generator *p scalar_sum (omap part_response ps) +p
    point_sum (omap (fun p => match p with Silent _ y _ => Some y | _ => None end) ps) =
  point_sum (omap id (zip_with part_term ps inputs)) *p c +p point_sum (omap part_commitment ps).
Proof.
  induction 1 as [|p a ps inputs Hp _ IH].
  - cbn. change (scalar_sum []) with s0. change (point_sum []) with identity.
    by rewrite pmul_s0, identity_pmul.
  - destruct p as [x y z|x y proof|x]; cbn in Hp |- *.
    + apply bool_decide_eq_true in Hp.
      rewrite scalar_sum_cons, !point_sum_cons, pmul_sadd, Hp, pmul_padd.
      rewrite <- (padd_assoc (_ +p _)), IH, (padd_comm y), <- !padd_assoc. f_equal. apply padd_swap.
    + rewrite !point_sum_cons, padd_swap, IH. by rewrite padd_swap.
    + exact IH.
Qed.

Definition silent_commitment (p : part) : option Point :=
  match p with Silent _ y _ => Some y | _ => None end.

Lemma excluded_commitments ps (g : nat -> nat) :
  omap (fun '(_, maybe_yi) => fst <$> maybe_yi) (omap id (imap (fun i p => part_exclusion (g i) p) ps))
  = omap silent_commitment ps.
Proof.
  revert g. induction ps as [|p ps IH]; intros g; [done|].
  specialize (IH (fun i => g (S i))). destruct p; cbn in IH |- *; by rewrite <- IH.
Qed.

Lemma excluded_indices ps i :
  i ∈ (exclusions ps).*1 <-> exists p, ps !! i = Some p /\ part_response p = None.
Proof.
  unfold exclusions. rewrite list_elem_of_fmap. setoid_rewrite list_elem_of_omap.
  setoid_rewrite elem_of_lookup_imap. split.
  - intros ([j e] & -> & o & (j' & p & -> & Hp) & He). exists p.
    destruct p; cbn in He; simplify_eq; eauto.
  - intros (p & Hp & Hr). destruct p as [|x y pr|x]; [done|..].
    + exists (i, Some (y, pr)). split; [done|]. exists (Some (i, Some (y, pr))). split; [|done].
      by exists i, (Silent x y pr).
    + exists (i, None). split; [done|]. exists (Some (i, None)). split; [|done]. by exists i, (Absent x).
Qed.

Lemma partial_pk_terms ps inputs :
  length inputs = length ps ->
  partial_pk (exclusions ps) inputs (part_pk <$> ps) =
  Done (point_sum (omap id (zip_with part_term ps inputs))).
Proof.
  intros Hlen. unfold partial_pk.
  rewrite (mapO_Done _ (fun '(i, _) => p ← ps !! i; a ← inputs !! i; part_term p a)).
  - cbn. do 3 f_equal. apply list_eq. intros i.
    rewrite list_lookup_fmap, list_lookup_imap, list_lookup_fmap, lookup_zip_with.
    destruct (ps !! i) as [p|] eqn:Hp; cbn; [|done].
    destruct (lookup_lt_is_Some_2 inputs i) as [a Ha]; [rewrite Hlen; by eapply lookup_lt_Some|].
    rewrite Hp, Ha. done.
  - intros [i x] Hx. apply elem_of_lookup_imap in Hx as (i' & x' & [= <- <-] & Hx).
    apply list_lookup_fmap_Some in Hx as (p & -> & Hp). rewrite Hp. cbn.
    destruct (lookup_lt_is_Some_2 inputs i) as [a Ha]; [rewrite Hlen; by eapply lookup_lt_Some|].
    rewrite Ha. cbn. destruct (decide (part_response p = None)) as [Hr|Hr].
    + rewrite bool_decide_true by (apply excluded_indices; eauto). by destruct p.
    + rewrite bool_decide_false; [by destruct p|]. rewrite excluded_indices.
      intros (p' & Hp' & Hr'). by simplify_eq.
Qed.

Lemma exclusion_proofs_ok md c ps inputs (g : nat -> nat) :
  Forall2 (part_ok md c) ps inputs ->
  forallb (fun '(_, maybe_pair) =>
    match maybe_pair with
    | Some (yi, proof) => schnorr_verify yi md proof
    | None => true
    end) (omap id (imap (fun i p => part_exclusion (g i) p) ps)) = true.
Proof.
  intros Hok. revert g. induction Hok as [|p a ps inputs Hp _ IH]; intros g; [done|].
  specialize (IH (fun i => g (S i))). destruct p; cbn in Hp, IH |- *; [done| |done].
  by rewrite Hp.
Qed.

Lemma point_sum_perm l l' : l ≡ₚ l' -> point_sum l = point_sum l'.
Proof.
  induction 1 as [| |p q l|]; [done|..]; rewrite ?point_sum_cons; [by f_equal|apply padd_swap|congruence].
Qed.

Lemma scalar_sum_perm l l' : l ≡ₚ l' -> scalar_sum l = scalar_sum l'.
Proof.
  induction 1 as [| |p q l|]; [done|..]; rewrite ?scalar_sum_cons; [by f_equal|ring|congruence].
Qed.

Lemma partial_pk_perm excl excl' inputs committee :
  excl ≡ₚ excl' -> partial_pk excl inputs committee = partial_pk excl' inputs committee.
Proof.
  intros Hp. unfold partial_pk. f_equal.
  induction (imap pair committee) as [|[i x] l IH]; cbn; [done|]. rewrite IH.
  erewrite (bool_decide_ext (i ∈ excl.*1)); [reflexivity|]. by rewrite Hp.
Qed.

(** The aggregate of parts checked on their own verifies; the order in which
    the maps of contributions are traversed does not matter. *)
Lemma verify_aggregate_parts ps excl ys zs md threshold inputs X Y c succeeded required :
  let committee := part_pk <$> ps in
  excl ≡ₚ exclusions ps -> ys ≡ₚ omap part_commitment ps -> zs ≡ₚ omap part_response ps ->
  mapO (individual_input committee) committee = Done inputs ->
  aggregate_pk committee inputs = Done X ->
  aggregate_commitment ys = Done Y ->
  challenge X Y md = Done c ->
  Forall2 (part_ok md c) ps inputs ->
  checked 0 u64_max (Z.of_nat (length committee) - Z.of_nat (length excl)) = Done succeeded ->
  threshold_min threshold (Z.of_nat (length committee)) = Done required ->
  verify_aggregate Y (aggregate_response zs) excl committee md threshold =
    Done (required <=? succeeded)%Z.
Proof.
  intros committee Hexcl Hys Hzs Hin HX HY Hc Hok Hs Hr. subst committee. unfold verify_aggregate.
  rewrite Hin. outcome_cbn. rewrite HX. outcome_cbn.
  pose proof (mapO_length _ _ _ Hin) as Hlen. rewrite length_fmap in Hlen.
  rewrite (partial_pk_perm _ _ _ _ Hexcl), partial_pk_terms by done.
  outcome_cbn. rewrite Hc. outcome_cbn.
  assert (Y = point_sum (omap part_commitment ps)) as HYp.
  { unfold aggregate_commitment, public_key_of_point in HY. case_decide; [done|]. bind_inv. subst Y.
    by apply point_sum_perm. }
  rewrite decide_True.
  - pose proof (exclusion_proofs_ok md c ps inputs (fun i => i) Hok) as Hproofs.
    change (imap _ ps) with (imap part_exclusion ps) in Hproofs. fold (exclusions ps) in Hproofs.
    rewrite (forallb_perm _ _ _ Hexcl), Hproofs, Hs. outcome_cbn. by rewrite Hr.
  - pose proof (excluded_commitments ps (fun i => i)) as Hex.
    change (imap _ ps) with (imap part_exclusion ps) in Hex. fold (exclusions ps) in Hex.
    apply psub_of_sum. unfold aggregate_response. rewrite (scalar_sum_perm _ _ Hzs).
    rewrite (point_sum_perm _ (omap silent_commitment ps)); [|by rewrite Hexcl, Hex].
    rewrite HYp. by eapply aggregate_equation.
Qed.

(** If every response and every exclusion proof was checked on its own,
    the aggregate of the commitments and responses verifies against the
    committee, exactly when enough members responded. *)
Theorem verified_parts_aggregate ps md threshold inputs X Y c succeeded required :
  let committee := part_pk <$> ps in
  mapO (individual_input committee) committee = Done inputs ->
  aggregate_pk committee inputs = Done X ->
  aggregate_commitment (omap part_commitment ps) = Done Y ->
  challenge X Y md = Done c ->
  Forall2 (part_ok md c) ps inputs ->
  checked 0 u64_max (Z.of_nat (length committee) - Z.of_nat (length (exclusions ps))) = Done succeeded ->
  threshold_min threshold (Z.of_nat (length committee)) = Done required ->
  verify_aggregate Y (aggregate_response (omap part_response ps)) (exclusions ps)
    committee md threshold = Done (required <=? succeeded)%Z.
Proof. intros committee. by apply verify_aggregate_parts. Qed.

Lemma generator_injective s t : generator *p s = generator *p t -> s = t.
Proof.
  intros Heq. assert (generator *p (s -s t) = identity) as Hz.
  { apply (padd_cancel_r _ _ (generator *p t)). rewrite <- pmul_sadd, identity_padd, <- Heq.
    f_equal. ring. }
  destruct (decide (s -s t = s0)) as [Hd|Hd].
  - transitivity (s -s t +s t); [ring|]. rewrite Hd. ring.
  - by apply generator_order in Hd.
Qed.

(** For the keys [x] and [y] behind a member's public key and commitment,
    the only response that verifies is [y + c * a * x]. *)
Theorem verify_response_exact z a c y x :
  verify_response z a c (generator *p y) (generator *p x) = true <-> z = response y x c a.
Proof.
  split; [|intros ->; apply response_verifies]. intros Hz%bool_decide_eq_true.
  pose proof (response_verifies y x c a) as Hr. apply bool_decide_eq_true in Hr.
  apply generator_injective. by rewrite Hz, Hr.
Qed.

(** A combination of commitments, or of responses, is verified exactly
    when both of the combined maps are. *)
Theorem sigma_verify_combine (a b c : gmap nat (Point * SchnorrSig)) (r s t : gmap nat Scalar) pc pr :
  try_combine a b = Some c -> try_combine r s = Some t ->
  verify c pc = verify a pc && verify b pc /\
  verify (P := ResponsesVerifInput) t pr = verify r pr && verify s pr.
Proof. intros Hc Ht. split; by apply verify_combine. Qed.

Lemma commitment_pair_spec rng sk y :
  schnorr_commitment_pair rng = Some (sk, y) ->
  sk ∈ rng /\ y = generator *p sk /\ even_y y = true.
Proof.
  induction rng as [|s rng IH]; [done|]. cbn. intros Hp.
  destruct (schnorr_commitment s) as [y'|] eqn:E; [|destruct (IH Hp); set_solver].
  injection Hp as <- <-. unfold schnorr_commitment in E. case_decide; [done|].
  destruct (even_y (generator *p s)) eqn:He; [|done]. injection E as <-. set_solver.
Qed.

(** [schnorr_commitment_pair] returns the first draw whose point is a
    valid verifying key; a commitment returned with its secret passes both
    checks of the commitment stage. *)
Theorem commitment_pair_verifies (SL : SchnorrLaws) rng sk y md t i :
  schnorr_commitment_pair rng = Some (sk, y) -> sk <> s0 ->
  t !! i = Some (pre_commitment y) ->
  sk ∈ rng /\ y = generator *p sk /\
  verify {[ i := (y, exclusion_proof sk md) ]}
    {| pre_commitments := t; message_digest_bytes := md |} = true.
Proof.
  intros (Hin & -> & He)%commitment_pair_spec Hsk Ht. split_and!; [done..|].
  apply verify_entries_true, map_Forall_singleton. unfold verify_commitment. cbn.
  rewrite Ht. apply andb_true_iff. split; [by apply bool_decide_eq_true|].
  by apply schnorr_correct.
Qed.
End Sigma.

(** ** A committee of three, for the witnesses *)

Import IntCurve.

Module SigmaSample.
#[export] Instance schnorr : Schnorr := {|
  SchnorrSig := (Z * bytes);
  schnorr_sign := fun sk m => (sk, m);
  schnorr_verify := fun pk m s => bool_decide (s = (pk, m));
  even_y := Z.even;
|}.

#[export] Instance schnorr_laws : SchnorrLaws.
Proof. intros sk m _ _. apply bool_decide_eq_true. f_equal. simpl. lia. Qed.

#[export] Instance blake : Blake2b := toy_hash.

Definition md : bytes := [1%Z; 2%Z].
Definition thr : Threshold := {| num := 1; denom := 3 |}.
Definition committee : list Z := [3%Z; 5%Z; 8%Z].
Definition commitments : list Z := [4%Z; 6%Z].

Definition inputs : outcome (list Z) := mapO (individual_input (C := int_curve) committee) committee.

Definition chal : outcome Z :=
  as_ ← inputs;
  X ← aggregate_pk (C := int_curve) committee as_;
  Y ← aggregate_commitment (C := int_curve) commitments;
  challenge (C := int_curve) X Y md.

Definition z1 : Z :=
  match inputs, chal with
  | Done (a :: _), Done c => response (C := int_curve) 4%Z 3%Z c a
  | _, _ => 0%Z
  end.

(** The first member responds, the second only commits, the third is absent. *)
Definition parts : list (part (C := int_curve)) :=
  [Responded (C := int_curve) 3%Z 4%Z z1;
   Silent (C := int_curve) 5%Z 6%Z (exclusion_proof (C := int_curve) 6%Z md);
   Absent (C := int_curve) 8%Z].
End SigmaSample.

Import SigmaSample.

Lemma verified_parts_aggregate_witness :
  exists Y, aggregate_commitment (C := int_curve) commitments = Done Y /\
    verify_aggregate (C := int_curve) Y
      (aggregate_response (C := int_curve) (omap part_response parts)) (exclusions parts)
      committee md thr = Done true.
Proof.
  destruct (inputs) as [as_| |] eqn:Ei; [|vm_compute in Ei; discriminate..].
  destruct chal as [c| |] eqn:Ec; [|vm_compute in Ec; discriminate..].
  vm_compute in Ei, Ec. injection Ei as <-. injection Ec as <-.
  eexists. split; [reflexivity|].
  refine (verified_parts_aggregate (C := int_curve) parts md thr _ _ _ _ 1%Z 1%Z _ _ _ _ _ _ _);
    try (vm_compute; reflexivity).
  repeat constructor; vm_compute; reflexivity.
Defined.

Lemma verify_response_exact_witness :
  verify_response (C := int_curve) 19%Z 2%Z 1%Z 5%Z 7%Z = true.
Proof. apply (verify_response_exact (C := int_curve) 19%Z 2%Z 1%Z 5%Z 7%Z). reflexivity. Defined.

Lemma sigma_verify_combine_witness :
  verify (P := ResponsesVerifInput (C := int_curve)) (A := gmap nat Z) {[ 0 := 7%Z; 1 := 8%Z ]}
    {| rvi_inputs := ∅; rvi_challenge := (1%Z : Scalar (Curve := int_curve)) |} = false.
Proof.
  pose proof (sigma_verify_combine (C := int_curve) ∅ ∅ ∅
    ({[ 0 := 7%Z ]} : gmap nat Z) {[ 1 := 8%Z ]} {[ 0 := 7%Z; 1 := 8%Z ]}
    {| pre_commitments := ∅; message_digest_bytes := [] |}
    {| rvi_inputs := ∅; rvi_challenge := (1%Z : Scalar (Curve := int_curve)) |}
    eq_refl eq_refl) as [_ Hr].
  exact Hr.
Defined.

Lemma commitment_pair_verifies_witness :
  exists y, schnorr_commitment_pair (C := int_curve) [3%Z; 4%Z] = Some (4%Z, y) /\
    verify (P := CommitmentsVerifInput) {[ 2 := (y, exclusion_proof (C := int_curve) 4%Z md) ]}
      {| pre_commitments := {[ 2 := pre_commitment (C := int_curve) y ]};
         message_digest_bytes := md |} = true.
Proof.
  exists 4%Z. split; [reflexivity|].
  apply (commitment_pair_verifies (C := int_curve) schnorr_laws [3%Z; 4%Z] 4%Z 4%Z md
    {[ 2 := pre_commitment (C := int_curve) 4%Z ]} 2);
    [reflexivity|simpl; lia|reflexivity].
Defined.
