(* ===== verification/SigmaAggregation.v ===== *)
(** * The sigma aggregation protocol

    Model of [spectrum-sigma/src/sigma_aggregation.rs]: the five stages of an
    aggregation (three Handel rounds, two broadcasts), the stash of early
    messages and the polling loop that drives them.  The partitioner, the
    overlay builder and the derivation of a peer identity from a public key
    are parameters; [tracing] says whether trace logging evaluates its
    arguments. *)

From S2P Require Import Prelude Crypto Algebra Partitioning Handel HandelSafety Overlay Multicast SigmaCrypto.

Section SigmaAggregation.
Context `{H : Hasher, B : Blake2b, C : Curve, SG : !Schnorr}.
Context {PP PeerId Addr : Type} `{Countable PeerId} `{!PeerPartitions PP PeerId Addr}.

Abbreviation PreCommitments := (gmap nat bytes).
Abbreviation CommitmentsWithProofs := (gmap nat (Point * SchnorrSig)).
Abbreviation Responses := (gmap nat Scalar).
Abbreviation Overlay := (DagOverlay (PeerId := PeerId) (Addr := Addr)).
Abbreviation Round K P := (Handel (C := K) (P := P) (PP := PP) (PeerId := PeerId) (Addr := Addr)).
Abbreviation Broadcast K := (DagMulticasting (St := K) (P := unit) (PP := PP) (PeerId := PeerId) (Addr := Addr)).

Context (tracing : bool) (pid_of : Point -> PeerId).
Context (make_partitions : PeerId -> list (PeerId * option Addr) -> outcome PP).
Context (make_overlay : option PeerId -> PeerId -> list (PeerId * option Addr) -> outcome Overlay).

(** ** Stages *)

(** The fields every stage before the last one carries along. *)
Record HostData := {
  host_sk : Scalar;
  host_ix : nat;
  committee : gmap nat Point;
  individual_inputs : gmap nat Scalar;
  message_digest : bytes;
  host_secret : Scalar;
  host_commitment : Point;
  host_explusion_proof : SchnorrSig;
}.

Record AggregatePreCommitments := {
  apc_host : HostData;
  apc_mcast_overlay : Overlay;
  apc_partitions : PP;
  apc_handel : Round PreCommitments unit;
}.

Record BroadcastPreCommitments := {
  bpc_host : HostData;
  bpc_handel_partitions : PP;
  bpc_mcast_overlay : Overlay;
  bpc_mcast : Broadcast PreCommitments;
}.

Record AggregateCommitments := {
  ac_host : HostData;
  ac_mcast_overlay : Overlay;
  ac_partitions : PP;
  ac_handel : Round CommitmentsWithProofs CommitmentsVerifInput;
}.

Record BroadcastCommitments := {
  bc_host : HostData;
  bc_handel_partitions : PP;
  bc_mcast : Broadcast CommitmentsWithProofs;
}.

Record AggregateResponses := {
  ar_message_digest : bytes;
  ar_aggr_commitment : Point;
  ar_commitments_with_proofs : CommitmentsWithProofs;
  ar_host_ix : nat;
  ar_partitions : PP;
  ar_handel : Round Responses ResponsesVerifInput;
}.

Record AggregateCertificate := {
  cert_message_digest : bytes;
  cert_aggregate_commitment : Point;
  cert_aggregate_response : Scalar;
  cert_exclusion_set : list (nat * option (Point * SchnorrSig));
}.

(** The index of every key of the committee. *)
Definition index_committee (partitions : PP) (new_committee : list (Point * option Addr))
    : outcome (list (nat * Point)) :=
  mapO (fun '(pk, _) => pix ← unwrap (pp_try_index_peer partitions (pid_of pk)); Done (pix, pk))
    new_committee.

(** [a_i] of every member, over the keys sorted by index. *)
Definition committee_inputs (committee : gmap nat Point) : outcome (gmap nat Scalar) :=
  let committee_keys := sorted_values committee in
  ais ← mapO (fun '(pix, pk) => ai ← individual_input committee_keys pk; Done (pix, ai))
    (map_to_list committee);
  Done (collect_map ais).

(** [AggregatePreCommitments::init]; [rng] are the draws of
    [schnorr_commitment_pair], which keeps drawing until one is usable. *)
Definition init (host_sk : Scalar) (new_committee : list (Point * option Addr)) (md : bytes)
    (handel_conf : HandelConfig) (rng : list Scalar) : outcome AggregatePreCommitments :=
  let host_pid := pid_of (public_key_from_secret host_sk) in
  let peers := (fun '(pk, maddr) => (pid_of pk, maddr)) <$> new_committee in
  mcast_overlay ← make_overlay None host_pid peers;
  partitions ← make_partitions host_pid peers;
  indexed ← index_committee partitions new_committee;
  let committee_indexed := collect_map indexed in
  ais ← committee_inputs committee_indexed;
  '(secret, commitment) ← match schnorr_commitment_pair rng with Some p => Done p | None => NoFuel end;
  host_ix ← unwrap (pp_try_index_peer partitions host_pid);
  handel ← Handel.new handel_conf (contributions_unit host_ix (pre_commitment commitment)) tt
    partitions host_ix;
  Done {|
    apc_host := {|
      host_sk := host_sk;
      host_ix := host_ix;
      committee := committee_indexed;
      individual_inputs := ais;
      message_digest := md;
      host_secret := secret;
      host_commitment := commitment;
      host_explusion_proof := exclusion_proof secret md;
    |};
    apc_mcast_overlay := mcast_overlay;
    apc_partitions := partitions;
    apc_handel := handel;
  |}.

Definition complete_pre_commitments (st : AggregatePreCommitments) (pre_commitments : PreCommitments)
    : outcome BroadcastPreCommitments :=
  let handel_partitions := peer_partitions (apc_handel st) in
  mcast ← multicast_new (Some pre_commitments) tt (apc_mcast_overlay st) handel_partitions;
  Done {|
    bpc_host := apc_host st;
    bpc_handel_partitions := handel_partitions;
    bpc_mcast_overlay := apc_mcast_overlay st;
    bpc_mcast := mcast;
  |}.

Definition complete_broadcast_pre_commitments (st : BroadcastPreCommitments)
    (pre_commitments : PreCommitments) (handel_conf : HandelConfig) : outcome AggregateCommitments :=
  let hd := bpc_host st in
  let verif_input := {| pre_commitments := pre_commitments;
                        message_digest_bytes := message_digest hd |} in
  handel ← Handel.new handel_conf
    (contributions_unit (host_ix hd) (host_commitment hd, host_explusion_proof hd))
    verif_input (bpc_handel_partitions st) (host_ix hd);
  Done {|
    ac_host := hd;
    ac_mcast_overlay := bpc_mcast_overlay st;
    ac_partitions := bpc_handel_partitions st;
    ac_handel := handel;
  |}.

Definition complete_commitments (st : AggregateCommitments)
    (commitments_with_proofs : CommitmentsWithProofs) : outcome BroadcastCommitments :=
  let handel_partitions := peer_partitions (ac_handel st) in
  mcast ← multicast_new (Some commitments_with_proofs) tt (ac_mcast_overlay st) handel_partitions;
  Done {| bc_host := ac_host st; bc_handel_partitions := handel_partitions; bc_mcast := mcast |}.

Definition complete_broadcast_commitments (st : BroadcastCommitments)
    (commitments : CommitmentsWithProofs) (handel_conf : HandelConfig) : outcome AggregateResponses :=
  let hd := bc_host st in
  aggr_pk ← aggregate_pk (sorted_values (committee hd)) (sorted_values (individual_inputs hd));
  aggr_commitment ← aggregate_commitment (contributions_values commitments).*1;
  challenge ← challenge aggr_pk aggr_commitment (message_digest hd);
  individual_input ← unwrap (individual_inputs hd !! host_ix hd);
  let host_response := response (host_secret hd) (host_sk hd) challenge individual_input in
  let verif_inputs := new_responses_verif_input commitments (committee hd)
    (individual_inputs hd) challenge in
  handel ← Handel.new handel_conf (contributions_unit (host_ix hd) host_response) verif_inputs
    (bc_handel_partitions st) (host_ix hd);
  Done {|
    ar_message_digest := message_digest hd;
    ar_aggr_commitment := aggr_commitment;
    ar_commitments_with_proofs := commitments;
    ar_host_ix := host_ix hd;
    ar_partitions := bc_handel_partitions st;
    ar_handel := handel;
  |}.

Definition complete_responses (st : AggregateResponses) (responses : Responses)
    : AggregateCertificate := {|
  cert_message_digest := ar_message_digest st;
  cert_aggregate_commitment := ar_aggr_commitment st;
  cert_aggregate_response := aggregate_response (contributions_values responses);
  cert_exclusion_set := omap (fun '(pix, (yi, sig)) =>
      match responses !! pix with None => Some (pix, Some (yi, sig)) | Some _ => None end)
    (contributions_entries (ar_commitments_with_proofs st));
|}.

Inductive AggregationState :=
| StAggregatePreCommitments (st : AggregatePreCommitments)
| StBroadcastPreCommitments (st : BroadcastPreCommitments)
| StAggregateCommitments (st : AggregateCommitments)
| StBroadcastCommitments (st : BroadcastCommitments)
| StAggregateResponses (st : AggregateResponses).

(** A task and the channel (by identity) its certificate is sent on. *)
Record AggregationTask := { state : AggregationState; channel : nat }.

(** ** Messages and their stash *)

Inductive SigmaAggrMessageV1 :=
| MPreCommitments (m : HandelMessage (C := PreCommitments))
| MCommitments (m : HandelMessage (C := CommitmentsWithProofs))
| MBroadcastPreCommitments (m : PreCommitments)
| MBroadcastCommitments (m : CommitmentsWithProofs)
| MResponses (m : HandelMessage (C := Responses)).

Inductive StageTag :=
| PreCommit
| Commit
| TagBroadcastPreCommitments
| TagBroadcastCommitments
| Response.

Definition tag_index (t : StageTag) : nat :=
  match t with
  | PreCommit => 0
  | Commit => 1
  | TagBroadcastPreCommitments => 2
  | TagBroadcastCommitments => 3
  | Response => 4
  end.

Definition tag_of_message (m : SigmaAggrMessageV1) : StageTag :=
  match m with
  | MPreCommitments _ => PreCommit
  | MCommitments _ => Commit
  | MBroadcastPreCommitments _ => TagBroadcastPreCommitments
  | MBroadcastCommitments _ => TagBroadcastCommitments
  | MResponses _ => Response
  end.

Abbreviation MessageStash := (list (gmap PeerId SigmaAggrMessageV1)).

Definition stash_new : MessageStash := replicate 5 ∅.

Definition stash (s : MessageStash) (peer : PeerId) (m : SigmaAggrMessageV1) : MessageStash :=
  alter (<[peer := m]>) (tag_index (tag_of_message m)) s.

(** The messages of a stage, and the stash without them. *)
Definition unstash (s : MessageStash) (t : StageTag)
    : gmap PeerId SigmaAggrMessageV1 * MessageStash :=
  (default ∅ (s !! tag_index t), <[tag_index t := ∅]> s).

Definition flush (s : MessageStash) : MessageStash := replicate 5 ∅.

(** ** The behaviour *)

Inductive AggregationAction :=
| Reset (new_committee : list (Point * option Addr)) (new_message : bytes) (channel : nat).

Inductive SigmaOut :=
| OutSend (peer : PeerId) (addr_hint : option Addr) (m : SigmaAggrMessageV1)
| OutBan (peer : PeerId).

(** [inbox] are the actions still to be received, [results] the certificates
    sent on the channels so far. *)
Record SigmaAggregation := {
  sa_host_sk : Scalar;
  handel_conf : HandelConfig;
  task : option AggregationTask;
  message_stash : MessageStash;
  inbox : list AggregationAction;
  sa_outbox : list SigmaOut;
  results : list (nat * AggregateCertificate);
}.

Definition sigma_new (host_sk : Scalar) (handel_conf : HandelConfig) (inbox : list AggregationAction)
    : SigmaAggregation := {|
  sa_host_sk := host_sk;
  handel_conf := handel_conf;
  task := None;
  message_stash := stash_new;
  inbox := inbox;
  sa_outbox := [];
  results := [];
|}.

(** The argument of a [trace!] that unwraps the index of the sender. *)
Definition trace_sender (partitions : PP) (peer_id : PeerId) : outcome unit :=
  if tracing then _ ← unwrap (pp_try_index_peer partitions peer_id); Done tt else Done tt.

(** What a stage does with a message: hand it to its round, or keep it. *)
Definition stage_inject (st : AggregationState) (peer_id : PeerId) (msg : SigmaAggrMessageV1)
    : outcome (option AggregationState) :=
  match st, msg with
  | StAggregatePreCommitments st, MPreCommitments m =>
    h ← inject_message (apc_handel st) peer_id m;
    Done (Some (StAggregatePreCommitments (st <| apc_handel := h |>)))
  | StBroadcastPreCommitments st, MBroadcastPreCommitments m =>
    c ← multicast_inject_message (bpc_mcast st) peer_id m;
    Done (Some (StBroadcastPreCommitments (st <| bpc_mcast := c |>)))
  | StAggregateCommitments st, MCommitments m =>
    h ← inject_message (ac_handel st) peer_id m;
    Done (Some (StAggregateCommitments (st <| ac_handel := h |>)))
  | StBroadcastCommitments st, MBroadcastCommitments m =>
    c ← multicast_inject_message (bc_mcast st) peer_id m;
    Done (Some (StBroadcastCommitments (st <| bc_mcast := c |>)))
  | StAggregateResponses st, MResponses m =>
    h ← inject_message (ar_handel st) peer_id m;
    Done (Some (StAggregateResponses (st <| ar_handel := h |>)))
  | st, _ =>
    _ ← trace_sender (match st with
                      | StAggregatePreCommitments st => apc_partitions st
                      | StBroadcastPreCommitments st => bpc_handel_partitions st
                      | StAggregateCommitments st => ac_partitions st
                      | StBroadcastCommitments st => bc_handel_partitions st
                      | StAggregateResponses st => ar_partitions st
                      end) peer_id;
    Done None
  end.

Definition sigma_inject_message (s : SigmaAggregation) (peer_id : PeerId) (msg : SigmaAggrMessageV1)
    : outcome SigmaAggregation :=
  match task s with
  | Some t =>
    r ← stage_inject (state t) peer_id msg;
    Done (match r with
          | Some st => s <| task := Some (t <| state := st |>) |>
          | None => s <| message_stash ::= fun st => stash st peer_id msg |>
          end)
  | None => Done s
  end.

Definition unstash_stage (s : SigmaAggregation) (t : StageTag) : outcome SigmaAggregation :=
  let '(msgs, st) := unstash (message_stash s) t in
  foldO (fun s '(p, m) => sigma_inject_message s p m) (map_to_list msgs) (s <| message_stash := st |>).
(** ** Polling *)

(** What one iteration of the loop of [poll] finds in its environment:
    whether the next action of the inbox has arrived, the delays that have
    elapsed, and the draws a reset would make. *)
Record Tick := {
  tk_inbox_ready : bool;
  tk_timers : Timers;
  tk_mcast_ready : bool;
  tk_mcast_expired : bool;
  tk_rng : list Scalar;
}.

(** How an iteration ends. *)
Inductive Iter :=
| Continue
| Return (o : option SigmaOut).

(** The rest of an iteration after a stage was polled: [None] is
    [Poll::Pending], which leaves the loop. *)
Definition requeue (s : SigmaAggregation) (st : AggregationState) (ch : nat) (o : option SigmaOut)
    : SigmaAggregation * Iter :=
  let s := s <| task := Some {| state := st; channel := ch |} |> in
  match o with
  | Some out => (s <| sa_outbox ::= fun l => l ++ [out] |>, Continue)
  | None => (s, Return None)
  end.

Definition out_of_handel {K} (wrap : HandelMessage (C := K) -> SigmaAggrMessageV1)
    (o : SendOneShot (C := K) (PeerId := PeerId) (Addr := Addr)) : SigmaOut :=
  OutSend (out_peer o) (out_addr_hint o) (wrap (out_message o)).

Definition out_of_mcast {K} (wrap : K -> SigmaAggrMessageV1)
    (a : Action (St := K) (PeerId := PeerId) (Addr := Addr)) : SigmaOut :=
  match a with
  | BanPeer p => OutBan p
  | SendOneShotMessage p addr m => OutSend p addr (wrap m)
  end.

(** One stage of the loop each; the task has been taken out of [s]. *)
Definition poll_pre_commitments (s : SigmaAggregation) (st : AggregatePreCommitments) (ch : nat)
    (tk : Tick) : outcome (SigmaAggregation * Iter) :=
  '(h, r) ← poll (apc_handel st) (tk_timers tk);
  let st := st <| apc_handel := h |> in
  match r with
  | PollOut cmd =>
    Done (requeue s (StAggregatePreCommitments st) ch (Some (out_of_handel MPreCommitments cmd)))
  | PollAggregate pre_commitments =>
    s ← unstash_stage s Commit;
    next ← complete_pre_commitments st pre_commitments;
    Done (s <| task := Some {| state := StBroadcastPreCommitments next; channel := ch |} |>, Continue)
  | PollPending => Done (requeue s (StAggregatePreCommitments st) ch None)
  end.

Definition poll_broadcast_pre_commitments (s : SigmaAggregation) (st : BroadcastPreCommitments)
    (ch : nat) (tk : Tick) : outcome (SigmaAggregation * Iter) :=
  let '(m, r) := multicast_poll (bpc_mcast st) (tk_mcast_ready tk) (tk_mcast_expired tk) in
  let st := st <| bpc_mcast := m |> in
  match r with
  | MOut cmd =>
    Done (requeue s (StBroadcastPreCommitments st) ch
            (Some (out_of_mcast MBroadcastPreCommitments cmd)))
  | MDone pre_commitments =>
    s ← unstash_stage s Response;
    next ← complete_broadcast_pre_commitments st pre_commitments (handel_conf s);
    Done (s <| task := Some {| state := StAggregateCommitments next; channel := ch |} |>, Continue)
  | MPending => Done (requeue s (StBroadcastPreCommitments st) ch None)
  end.

Definition poll_commitments (s : SigmaAggregation) (st : AggregateCommitments) (ch : nat)
    (tk : Tick) : outcome (SigmaAggregation * Iter) :=
  '(h, r) ← poll (ac_handel st) (tk_timers tk);
  let st := st <| ac_handel := h |> in
  match r with
  | PollOut cmd =>
    Done (requeue s (StAggregateCommitments st) ch (Some (out_of_handel MCommitments cmd)))
  | PollAggregate commitments =>
    s ← unstash_stage s TagBroadcastCommitments;
    next ← complete_commitments st commitments;
    Done (s <| task := Some {| state := StBroadcastCommitments next; channel := ch |} |>, Continue)
  | PollPending => Done (requeue s (StAggregateCommitments st) ch None)
  end.

Definition poll_broadcast_commitments (s : SigmaAggregation) (st : BroadcastCommitments)
    (ch : nat) (tk : Tick) : outcome (SigmaAggregation * Iter) :=
  let '(m, r) := multicast_poll (bc_mcast st) (tk_mcast_ready tk) (tk_mcast_expired tk) in
  let st := st <| bc_mcast := m |> in
  match r with
  | MOut cmd =>
    Done (requeue s (StBroadcastCommitments st) ch (Some (out_of_mcast MBroadcastCommitments cmd)))
  | MDone commitments =>
    s ← unstash_stage s Response;
    next ← complete_broadcast_commitments st commitments (handel_conf s);
    Done (s <| task := Some {| state := StAggregateResponses next; channel := ch |} |>, Continue)
  | MPending => Done (requeue s (StBroadcastCommitments st) ch None)
  end.

Definition poll_responses (s : SigmaAggregation) (st : AggregateResponses) (ch : nat) (tk : Tick)
    : outcome (SigmaAggregation * Iter) :=
  '(h, r) ← poll (ar_handel st) (tk_timers tk);
  let st := st <| ar_handel := h |> in
  match r with
  | PollOut cmd =>
    Done (requeue s (StAggregateResponses st) ch (Some (out_of_handel MResponses cmd)))
  | PollAggregate responses =>
    Done (s <| message_stash ::= flush |>
            <| results ::= fun r => r ++ [(ch, complete_responses st responses)] |>, Continue)
  | PollPending => Done (requeue s (StAggregateResponses st) ch None)
  end.

Definition poll_task (s : SigmaAggregation) (tk : Tick) : outcome (SigmaAggregation * Iter) :=
  match task s with
  | Some {| state := st; channel := ch |} =>
    let s := s <| task := None |> in
    match st with
    | StAggregatePreCommitments st => poll_pre_commitments s st ch tk
    | StBroadcastPreCommitments st => poll_broadcast_pre_commitments s st ch tk
    | StAggregateCommitments st => poll_commitments s st ch tk
    | StBroadcastCommitments st => poll_broadcast_commitments s st ch tk
    | StAggregateResponses st => poll_responses s st ch tk
    end
  | None => Done (s, Return None)
  end.

Definition handle_inbox (s : SigmaAggregation) (tk : Tick) : outcome SigmaAggregation :=
  match tk_inbox_ready tk, inbox s with
  | true, Reset new_committee new_message ch :: rest =>
    st ← init (sa_host_sk s) new_committee new_message (handel_conf s) (tk_rng tk);
    Done (s <| inbox := rest |> <| message_stash ::= flush |>
            <| task := Some {| state := StAggregatePreCommitments st; channel := ch |} |>)
  | _, _ => Done s
  end.

(** One iteration of the loop. *)
Definition poll_iter (s : SigmaAggregation) (tk : Tick) : outcome (SigmaAggregation * Iter) :=
  match sa_outbox s with
  | out :: rest => Done (s <| sa_outbox := rest |>, Return (Some out))
  | [] => s ← handle_inbox s tk; poll_task s tk
  end.

(** The loop, over what its iterations find; it runs out of fuel only if it
    outlives them. *)
Fixpoint sigma_poll (s : SigmaAggregation) (tks : list Tick)
    : outcome (SigmaAggregation * option SigmaOut) :=
  match tks with
  | [] => NoFuel
  | tk :: tks =>
    '(s, it) ← poll_iter s tk;
    match it with
    | Continue => sigma_poll s tks
    | Return o => Done (s, o)
    end
  end.
End SigmaAggregation.
