(* ===== verification/SigmaSafety.v ===== *)
(** * Correctness of the sigma aggregation

    The certificates an aggregation sends verify, the stages follow each
    other in order, the polling loop returns, and what happens to messages
    that arrive before their stage. *)

From S2P Require Import Prelude Crypto Algebra Partitioning Handel HandelSafety Overlay Multicast SigmaCrypto SigmaAggregation.

Section Certificates.
Context `{H : Hasher, B : Blake2b, C : Curve, SG : !Schnorr, CL : !CurveLaws C}.

(** What member [i] contributed to a certificate. *)
Definition member_part (cs : gmap nat (Point * SchnorrSig)) (rs : gmap nat Scalar) (i : nat) (x : Point)
    : part :=
  match cs !! i, rs !! i with
  | Some (y, _), Some z => Responded x y z
  | Some (y, sig), None => Silent x y sig
  | None, _ => Absent x
  end.

Definition member_parts cs rs (keys : list Point) : list part := imap (member_part cs rs) keys.

Lemma member_parts_pk cs rs keys : part_pk <$> member_parts cs rs keys = keys.
Proof.
  unfold member_parts. rewrite fmap_imap.
  transitivity (imap (fun _ => @id Point) keys).
  - apply imap_ext. intros i x _. cbn. unfold member_part.
    by destruct (cs !! i) as [[]|], (rs !! i).
  - by rewrite (imap_const id), list_fmap_id.
Qed.

Section Parts.
Context (cs : gmap nat (Point * SchnorrSig)) (rs : gmap nat Scalar) (keys : list Point).
Context (Hcs : forall i, is_Some (cs !! i) <-> i < length keys).
Context (Hrs : forall i, is_Some (rs !! i) -> is_Some (cs !! i)).

(** Induction over the indexes of the members, each of which committed. *)
Ltac over_members i IH :=
  let l := fresh "l" in let Hl := fresh "Hl" in let x := fresh "x" in let Hx := fresh "Hx" in
  let y := fresh "y" in let sig := fresh "sig" in let Hy := fresh "Hy" in
  generalize (seq 0 (length keys)) (elem_of_seq 0 (length keys)); intros l Hl;
  assert (forall i, i ∈ l -> i < length keys) as Hl' by (intros ? [_ ?]%Hl; lia); clear Hl;
  induction l as [|i l IH]; [done|]; cbn;
  destruct (lookup_lt_is_Some_2 keys i) as [x Hx]; [apply Hl'; set_solver|];
  destruct (proj2 (Hcs i)) as [[y sig] Hy]; [apply Hl'; set_solver|];
  rewrite ?Hx, ?Hy; cbn; unfold member_part; rewrite Hy.

Lemma member_commitments :
  (contributions_values cs).*1 ≡ₚ omap part_commitment (member_parts cs rs keys).
Proof.
  clear Hrs. unfold contributions_values, member_parts. rewrite (map_to_list_seq cs (length keys)) by (intros i; apply Hcs).
  rewrite omap_imap, <- !list_fmap_compose. over_members i IH.
  destruct (rs !! i); cbn; f_equiv; apply IH; set_solver.
Qed.

Lemma member_responses :
  contributions_values rs ≡ₚ omap part_response (member_parts cs rs keys).
Proof.
  unfold contributions_values, member_parts.
  rewrite (map_to_list_seq rs (length keys)) by (intros i Hi; by apply Hcs, Hrs).
  rewrite omap_imap. over_members i IH.
  destruct (rs !! i); cbn; [f_equiv|]; apply IH; set_solver.
Qed.

(** The exclusion set of the certificate: the members that committed without
    responding. *)
Lemma member_exclusions :
  omap (fun '(pix, (yi, sig)) =>
      match rs !! pix with None => Some (pix, Some (yi, sig)) | Some _ => None end)
    (contributions_entries cs) ≡ₚ exclusions (member_parts cs rs keys).
Proof.
  clear Hrs. unfold contributions_entries, exclusions, member_parts.
  rewrite (map_to_list_seq cs (length keys)) by (intros i; apply Hcs).
  replace (imap part_exclusion (imap (member_part cs rs) keys))
    with (imap (fun i x => part_exclusion i (member_part cs rs i x)) keys);
    [|apply list_eq; intros i; rewrite !list_lookup_imap; by destruct (keys !! i)].
  rewrite omap_imap_seq. over_members i IH.
  destruct (rs !! i); cbn; [|f_equiv]; apply IH; set_solver.
Qed.
End Parts.

Lemma exclusions_length ps :
  length (exclusions ps) + length (omap part_response ps) = length ps.
Proof.
  unfold exclusions. enough (forall g : nat -> nat,
    length (omap id (imap (fun i p => part_exclusion (g i) p) ps)) + length (omap part_response ps)
    = length ps) as Hg by apply (Hg (fun i => i)).
  induction ps as [|p ps IH]; intros g; [done|]. specialize (IH (fun i => g (S i))).
  destruct p; cbn in IH |- *; rewrite <- IH; unfold compose; lia.
Qed.

Lemma response_checked cs keys inputs c rs i z :
  verify rs (new_responses_verif_input cs keys inputs c) = true -> rs !! i = Some z ->
  exists y sig x a, cs !! i = Some (y, sig) /\ keys !! i = Some x /\ inputs !! i = Some a /\
    verify_response z a c y x = true.
Proof.
  intros Hv Hz. apply (proj1 (verify_entries_true _ _)) in Hv. specialize (Hv i z Hz). cbn in Hv.
  unfold verify_one_response, new_responses_verif_input in Hv. cbn in Hv.
  rewrite map_lookup_imap in Hv. destruct (cs !! i) as [[y sig]|] eqn:Hy; [|done]. cbn in Hv.
  destruct (keys !! i) as [x|] eqn:Hx; [|done]. cbn in Hv.
  destruct (inputs !! i) as [a|] eqn:Ha; [|done]. cbn in Hv. naive_solver.
Qed.

Lemma member_parts_ok md c cs rs keys inputs (keym : gmap nat Point) (inputm : gmap nat Scalar) :
  length inputs = length keys -> (forall i, keym !! i = keys !! i) -> (forall i, inputm !! i = inputs !! i) ->
  (forall i, is_Some (cs !! i) <-> i < length keys) ->
  (forall i y sig, cs !! i = Some (y, sig) -> schnorr_verify y md sig = true) ->
  verify rs (new_responses_verif_input cs keym inputm c) = true ->
  Forall2 (part_ok md c) (member_parts cs rs keys) inputs.
Proof.
  intros Hlen Hk Hi Hcs Hproofs Hv. apply Forall2_same_length_lookup_2.
  { unfold member_parts. by rewrite length_imap. }
  intros i p a Hp Ha. unfold member_parts in Hp. rewrite list_lookup_imap in Hp.
  destruct (keys !! i) as [x|] eqn:Hx; cbn in Hp; [|done]. injection Hp as <-. unfold member_part.
  destruct (cs !! i) as [[y sig]|] eqn:Hy; [|done].
  destruct (rs !! i) as [z|] eqn:Hz; cbn; [|by eapply Hproofs].
  destruct (response_checked _ _ _ _ _ _ _ Hv Hz) as (y' & sig' & x' & a' & ? & Hx' & Ha' & Hr).
  rewrite Hk in Hx'. rewrite Hi in Ha'. by simplify_eq.
Qed.
End Certificates.

(** ** Runs of the stages *)

Section Runs.
Context `{H : Hasher, B : Blake2b, C : Curve, SG : !Schnorr, CL : !CurveLaws C}.
Context {PP PeerId Addr : Type} `{Countable PeerId} `{!PeerPartitions PP PeerId Addr}.
Context (tracing : bool) (pid_of : Point -> PeerId).
Context (make_partitions : PeerId -> list (PeerId * option Addr) -> outcome PP).
Context (make_overlay : option PeerId -> PeerId -> list (PeerId * option Addr) ->
  outcome (DagOverlay (PeerId := PeerId) (Addr := Addr))).

Abbreviation Stage := (AggregationState (PP := PP) (PeerId := PeerId) (Addr := Addr)).
Abbreviation Start := (AggregatePreCommitments (PP := PP) (PeerId := PeerId) (Addr := Addr)).

(** A broadcast that is polled when its time is over ends with [c]. *)
Definition mcast_ends {St P} `{!PartialSemigroup St, !Weighted St, !VerifiableAgainst P St}
    (m : DagMulticasting (St := St) (P := P) (PP := PP) (PeerId := PeerId) (Addr := Addr)) (c : St) : Prop :=
  exists ready, (multicast_poll m ready true).2 = MDone c.

(** The states of an aggregation that started as [st1].  Within a stage its
    round or its broadcast runs, from the state the stage was made with and by
    its own steps; the next stage is made from the complete aggregate of the
    round, or from the statement with which the broadcast ended. *)
Inductive stage_run (cf : HandelConfig) (st1 : Start) : Stage -> Prop :=
| run_pre_commitments h :
    rtc step (apc_handel st1) h -> stage_run cf st1 (StAggregatePreCommitments (st1 <| apc_handel := h |>))
| run_broadcast_pre_commitments st c st' m :
    stage_run cf st1 (StAggregatePreCommitments st) -> get_complete_aggregate (apc_handel st) = Done (Some c) ->
    complete_pre_commitments st c = Done st' -> rtc mstep (bpc_mcast st') m ->
    stage_run cf st1 (StBroadcastPreCommitments (st' <| bpc_mcast := m |>))
| run_commitments st c st' h :
    stage_run cf st1 (StBroadcastPreCommitments st) -> mcast_ends (bpc_mcast st) c ->
    complete_broadcast_pre_commitments st c cf = Done st' -> rtc step (ac_handel st') h ->
    stage_run cf st1 (StAggregateCommitments (st' <| ac_handel := h |>))
| run_broadcast_commitments st c st' m :
    stage_run cf st1 (StAggregateCommitments st) -> get_complete_aggregate (ac_handel st) = Done (Some c) ->
    complete_commitments st c = Done st' -> rtc mstep (bc_mcast st') m ->
    stage_run cf st1 (StBroadcastCommitments (st' <| bc_mcast := m |>))
| run_responses st c st' h :
    stage_run cf st1 (StBroadcastCommitments st) -> mcast_ends (bc_mcast st) c ->
    complete_broadcast_commitments st c cf = Done st' -> rtc step (ar_handel st') h ->
    stage_run cf st1 (StAggregateResponses (st' <| ar_handel := h |>)).

(** The host data of a stage, for the stages that carry it. *)
Definition stage_host (st : Stage) : option HostData :=
  match st with
  | StAggregatePreCommitments st => Some (apc_host st)
  | StBroadcastPreCommitments st => Some (bpc_host st)
  | StAggregateCommitments st => Some (ac_host st)
  | StBroadcastCommitments st => Some (bc_host st)
  | StAggregateResponses _ => None
  end.

Lemma stage_run_host cf st1 st hd :
  stage_run cf st1 st -> stage_host st = Some hd -> hd = apc_host st1.
Proof.
  intros Hr. revert hd. induction Hr as [h _|st c st' m _ IH _ Hc _|st c st' h _ IH _ Hc _|st c st' m _ IH _ Hc _|];
    intros hd [= <-]; cbn in *; [done|..]; rewrite <- (IH _ eq_refl).
  - unfold complete_pre_commitments in Hc. bind_inv. by subst.
  - unfold complete_broadcast_pre_commitments in Hc. bind_inv. by subst.
  - unfold complete_commitments in Hc. bind_inv. by subst.
Qed.

(** The members hold the overlay indexes below their number, the host is one
    of them, everybody's commitment and a valid proof of it arrived, and the
    host's own among them. *)
Record full_participation (sk : Scalar) (members : list (Point * option Addr)) (md : bytes)
    (st1 : Start) (cs : gmap nat (Point * SchnorrSig)) : Prop := {
  fp_indexes : exists ixs, index_committee pid_of (apc_partitions st1) members = Done ixs /\
    ixs.*1 ≡ₚ seq 0 (length members);
  fp_host : public_key_from_secret sk ∈ members.*1;
  fp_committed i : is_Some (cs !! i) <-> i < length members;
  fp_host_commitment : exists sig, cs !! host_ix (apc_host st1) = Some (host_commitment (apc_host st1), sig);
  fp_proofs i y sig : cs !! i = Some (y, sig) -> schnorr_verify y md sig = true;
}.

Lemma index_committee_keys (pp : PP) members ixs :
  index_committee pid_of pp members = Done ixs -> ixs.*2 = members.*1 /\
  forall i pk, (i, pk) ∈ ixs -> pp_try_index_peer pp (pid_of pk) = Some i.
Proof.
  unfold index_committee. revert ixs. induction members as [|[pk a] members IH]; intros ixs Hm;
    cbn in Hm; bind_inv; subst; [split; [done|set_solver]|].
  destruct (IH _ Hv0) as [Heq Hin]. cbn. rewrite Heq. split; [done|].
  intros i pk' [[= -> ->]|Hi]%elem_of_cons; eauto.
Qed.

Lemma committee_inputs_lookup m ais i :
  committee_inputs m = Done ais ->
  match m !! i with
  | Some pk => exists a, individual_input (sorted_values m) pk = Done a /\ ais !! i = Some a
  | None => ais !! i = None
  end.
Proof.
  unfold committee_inputs. intros Ha. bind_inv. subst ais. rename v into l.
  apply mapO_Forall2 in Hv.
  assert (l.*1 = (map_to_list m).*1) as Hk.
  { clear -Hv. induction Hv as [|[k x] [k' y] l l' Hxy _ IH]; [done|]. cbn in *. bind_inv.
    simplify_eq. by f_equal. }
  assert (NoDup l.*1) as Hnd by (rewrite Hk; apply NoDup_fst_map_to_list).
  destruct (m !! i) as [pk|] eqn:Hi.
  - apply elem_of_map_to_list, list_elem_of_lookup in Hi as [n Hn].
    destruct (Forall2_lookup_l _ _ _ _ _ Hv Hn) as ([k a] & Hla & Hf). cbn in Hf. bind_inv. simplify_eq.
    exists a. split; [done|]. apply lookup_collect_map; [done|]. by eapply list_elem_of_lookup_2.
  - apply eq_None_not_Some. intros [a Ha%lookup_collect_map]; [|done].
    apply (list_elem_of_fmap_2 fst) in Ha. rewrite Hk in Ha. cbn in Ha.
    apply list_elem_of_fmap in Ha as ([k pk] & -> & Hin%elem_of_map_to_list). cbn in Hi. congruence.
Qed.
(** A committee on the first [n] indexes, as lists. *)
Record committee_lists (hd : HostData) (keys : list Point) (inputs : list Scalar) : Prop := {
  cl_keys i : committee hd !! i = keys !! i;
  cl_inputs i : individual_inputs hd !! i = inputs !! i;
  cl_made : mapO (individual_input keys) keys = Done inputs;
}.

Lemma committee_lists_of members (pp : PP) ixs ais (hd : HostData) :
  index_committee pid_of pp members = Done ixs -> ixs.*1 ≡ₚ seq 0 (length members) ->
  committee hd = collect_map ixs -> committee_inputs (committee hd) = Done ais ->
  individual_inputs hd = ais ->
  exists keys inputs, length keys = length members /\ committee_lists hd keys inputs.
Proof.
  intros Hix Hseq Hm Hais Hin. assert (NoDup ixs.*1) as Hnd by (rewrite Hseq; apply NoDup_seq).
  destruct (dense_map_list (committee hd) (length members)) as (keys & Hlen & Hkeys).
  { intros i. rewrite Hm. transitivity (i ∈ ixs.*1); [|rewrite Hseq, elem_of_seq; lia].
    rewrite list_elem_of_fmap. split.
    - intros [pk Hpk%lookup_collect_map]; [|done]. by exists (i, pk).
    - intros ([j pk] & -> & Hj). exists pk. by apply lookup_collect_map. }
  pose proof (fun i => committee_inputs_lookup _ _ i Hais) as Hl.
  destruct (dense_map_list ais (length members)) as (inputs & Hilen & Hinputs).
  { intros i. specialize (Hl i). rewrite Hkeys in Hl. rewrite <- Hlen. split.
    - intros [a Ha]. destruct (keys !! i) eqn:E; [by eapply lookup_lt_Some|congruence].
    - intros [pk Hpk]%lookup_lt_is_Some_2. rewrite Hpk in Hl. destruct Hl as (a & _ & ->). by eexists. }
  exists keys, inputs. split; [done|]. split; [done|by rewrite Hin|].
  apply mapO_Forall2, Forall2_same_length_lookup_2; [congruence|]. intros i pk a Hpk Ha.
  specialize (Hl i). rewrite Hkeys, Hpk, (sorted_values_lookup _ _ Hkeys), Hinputs, Ha in Hl.
  destruct Hl as (a' & Ha' & [= <-]). done.
Qed.

Lemma init_lists sk members md cf rng st1 ixs :
  init pid_of make_partitions make_overlay sk members md cf rng = Done st1 ->
  index_committee pid_of (apc_partitions st1) members = Done ixs ->
  ixs.*1 ≡ₚ seq 0 (length members) -> public_key_from_secret sk ∈ members.*1 ->
  let hd := apc_host st1 in
  exists keys inputs, length keys = length members /\ committee_lists hd keys inputs /\
    keys !! host_ix hd = Some (public_key_from_secret sk) /\ host_sk hd = sk /\
    message_digest hd = md /\ host_commitment hd = generator *p host_secret hd.
Proof.
  intros Hinit Hix Hseq Hhost. unfold init in Hinit.
  apply bind_Done in Hinit as (ov & Hov & Hinit). apply bind_Done in Hinit as (pp & Hpp & Hinit).
  apply bind_Done in Hinit as (ixs' & Hix' & Hinit). apply bind_Done in Hinit as (ais & Hais & Hinit).
  destruct (schnorr_commitment_pair rng) as [[y Y]|] eqn:HY; [|done]. outcome_cbn in Hinit.
  bind_inv. subst st1. cbn in *. outcome_eq. rename ixs' into ixs.
  match goal with |- context [committee_lists ?hd] =>
    destruct (committee_lists_of members pp ixs ais hd) as (keys & inputs & Hlen & Hcl); [done..|]
  end.
  exists keys, inputs. split_and!; [done|exact Hcl| |done|done|by apply commitment_pair_spec in HY as (_ & -> & _)].
  destruct (index_committee_keys _ _ _ Hix') as [Hpks Hidx]. rewrite <- Hpks in Hhost.
  apply list_elem_of_fmap in Hhost as ([i pk] & Heq & Hi). pose proof (Hidx i pk Hi).
  cbn in Heq. subst pk. simplify_eq. rewrite <- (cl_keys _ _ _ Hcl). cbn.
  apply lookup_collect_map; [|done]. rewrite Hseq. apply NoDup_seq.
Qed.
Lemma own_response_verifies (hd : HostData) cs keys inputs c a sig :
  committee_lists hd keys inputs -> keys !! host_ix hd = Some (public_key_from_secret (host_sk hd)) ->
  host_commitment hd = generator *p host_secret hd ->
  cs !! host_ix hd = Some (host_commitment hd, sig) -> individual_inputs hd !! host_ix hd = Some a ->
  verify (contributions_unit (host_ix hd) (response (host_secret hd) (host_sk hd) c a))
    (new_responses_verif_input cs (committee hd) (individual_inputs hd) c) = true.
Proof.
  intros Hcl Hpk HY Hcs Ha. apply verify_entries_true, map_Forall_singleton.
  unfold verify_one_response, new_responses_verif_input. cbn.
  rewrite map_lookup_imap, Hcs. cbn. rewrite (cl_keys _ _ _ Hcl), Hpk. cbn. rewrite Ha. cbn.
  rewrite HY. apply response_verifies.
Qed.

(** C1: the certificate that ends a run of the stages verifies, against the
    committee sorted by index, exactly when enough members responded.  This
    supposes that the members hold exactly the indexes below their number, that
    the host is one of them, and that the commitments with which the broadcast
    ended have one entry per member, with a valid proof, the host's own among
    them.  Without fillers in the table the indexes are these
    ([full_table_indexes]); with a filler among the members the certificate can
    fail ([filler_breaks_certificate]). *)
Theorem certificate_verifies sk members md cf rng st1 (st : AggregateResponses) rs thr required :
  init pid_of make_partitions make_overlay sk members md cf rng = Done st1 ->
  stage_run cf st1 (StAggregateResponses st) ->
  get_complete_aggregate (ar_handel st) = Done (Some rs) ->
  full_participation sk members md st1 (ar_commitments_with_proofs st) ->
  (Z.of_nat (length members) <= u64_max)%Z ->
  threshold_min thr (Z.of_nat (length members)) = Done required ->
  let cert := complete_responses st rs in
  verify_aggregate (cert_aggregate_commitment cert) (cert_aggregate_response cert)
    (cert_exclusion_set cert) (sorted_values (committee (apc_host st1))) md thr =
  Done (required <=? Z.of_nat (size rs))%Z.
Proof.
  intros Hinit Hrun Hrs Hfp Hmax Hthr.
  inversion Hrun as [| | | |st0 cs st5 h Hrun0 Hends Hcomplete Hrtc]. subst. cbn in *.
  pose proof (stage_run_host _ _ _ _ Hrun0 eq_refl) as Hhd.
  unfold complete_broadcast_commitments in Hcomplete. rewrite Hhd in Hcomplete.
  destruct (fp_indexes _ _ _ _ _ Hfp) as (ixs & Hix & Hseq).
  destruct (init_lists _ _ _ _ _ _ _ Hinit Hix Hseq (fp_host _ _ _ _ _ Hfp))
    as (keys & inputs & Hlen & Hcl & Hpk & Hsk & Hmd & HY). set (hd := apc_host st1) in *.
  rewrite (sorted_values_lookup _ _ (cl_keys _ _ _ Hcl)) in Hcomplete |- *.
  rewrite (sorted_values_lookup _ _ (cl_inputs _ _ _ Hcl)) in Hcomplete.
  bind_inv. subst st5. cbn in *.
  destruct (fp_host_commitment _ _ _ _ _ Hfp) as [sig Hsig]. change (const h v3) with h in Hrs.
  rewrite Hmd in Hv1. rewrite <- Hsk in Hpk.
  assert (verify rs (new_responses_verif_input cs (committee hd) (individual_inputs hd) v1) = true)
    as Hver.
  { eapply complete_aggregate_verified; [|by exists v3|exact Hrs]. by eapply own_response_verifies. }
  pose proof (fp_committed _ _ _ _ _ Hfp) as Hcs. rewrite <- Hlen in Hcs, Hmax, Hthr.
  assert (forall i, is_Some (rs !! i) -> is_Some (cs !! i)) as Hdom.
  { intros i [z Hz]. destruct (response_checked _ _ _ _ _ _ _ Hver Hz) as (? & ? & ? & ? & -> & _). eauto. }
  pose proof (cl_made _ _ _ Hcl) as Hmade. pose proof (mapO_length _ _ _ Hmade) as Hil.
  rewrite <- (member_parts_pk cs rs keys) in Hv, Hmade, Hmax, Hthr |- *.
  eapply verify_aggregate_parts; [by apply member_exclusions|by eapply member_commitments|
    by eapply member_responses|exact Hmade|exact Hv|exact Hv0|exact Hv1| | |exact Hthr].
  - rewrite member_parts_pk in Hv. 
    eapply member_parts_ok; [exact Hil|apply (cl_keys _ _ _ Hcl)|apply (cl_inputs _ _ _ Hcl)|
      exact Hcs|apply (fp_proofs _ _ _ _ _ Hfp)|exact Hver].
  - rewrite (member_exclusions cs rs keys Hcs).
    pose proof (exclusions_length (member_parts cs rs keys)) as Hex.
    rewrite <- (member_responses cs rs keys Hcs Hdom) in Hex.
    unfold contributions_values in Hex. rewrite length_fmap, length_map_to_list in Hex.
    unfold checked. rewrite length_fmap, <- Hex in Hmax |- *.
    rewrite bool_decide_true by lia. f_equal. lia.
Qed.
(** ** The machine *)

Abbreviation Machine := (SigmaAggregation (PP := PP) (PeerId := PeerId) (Addr := Addr)).

Inductive sigma_step : Machine -> Machine -> Prop :=
| sigma_step_inject s s' p m : sigma_inject_message tracing s p m = Done s' -> sigma_step s s'
| sigma_step_poll s s' tk it :
    poll_iter tracing pid_of make_partitions make_overlay s tk = Done (s', it) -> sigma_step s s'.

Context (ibx : list (AggregationAction (Addr := Addr))).

(** A certificate that ends a run of the stages, requested on channel [ch]. *)
Definition cert_of_run (sk : Scalar) (cf : HandelConfig) (ch : nat) (cert : AggregateCertificate) : Prop :=
  exists members md rng st1 (st : AggregateResponses) rs, Reset members md ch ∈ ibx /\
    init pid_of make_partitions make_overlay sk members md cf rng = Done st1 /\
    stage_run cf st1 (StAggregateResponses st) /\
    get_complete_aggregate (ar_handel st) = Done (Some rs) /\ cert = complete_responses st rs.

Definition stage_of_run (sk : Scalar) (cf : HandelConfig) (ch : nat) (st : Stage) : Prop :=
  exists members md rng st1, Reset members md ch ∈ ibx /\
    init pid_of make_partitions make_overlay sk members md cf rng = Done st1 /\ stage_run cf st1 st.

Record sigma_inv (sk : Scalar) (cf : HandelConfig) (s : Machine) : Prop := {
  si_sk : sa_host_sk s = sk;
  si_conf : handel_conf s = cf;
  si_task t : task s = Some t -> stage_of_run sk cf (channel t) (state t);
  si_inbox a : a ∈ inbox s -> a ∈ ibx;
  si_results ch cert : (ch, cert) ∈ results s -> cert_of_run sk cf ch cert;
}.

(** While the task is out, unstashed messages find no stage to go to. *)
Lemma unstash_taken (s : Machine) t :
  task s = None ->
  unstash_stage tracing s t = Done (s <| message_stash ::= <[tag_index t := ∅]> |>).
Proof.
  intros Ht. unfold unstash_stage, unstash.
  set (s1 := s <| message_stash := _ |>). assert (task s1 = None) as Ht1 by done.
  change (s <| message_stash ::= _ |>) with s1. clearbody s1.
  assert (forall p m, sigma_inject_message tracing s1 p m = Done s1) as Hinj
    by (intros p m; unfold sigma_inject_message; by rewrite Ht1).
  induction (map_to_list _) as [|[p m] l IH]; [done|]. cbn [foldO]. rewrite Hinj. exact IH.
Qed.

Lemma poll_step_complete {K P} `{!PartialSemigroup K, !Weighted K, !VerifiableAgainst P K}
    (h h' : Handel (C := K) (P := P) (PP := PP) (PeerId := PeerId) (Addr := Addr)) t c :
  poll h t = Done (h', PollAggregate c) -> get_complete_aggregate h' = Done (Some c).
Proof.
  unfold poll. intros Hp. bind_inv. rename v0 into h0. destruct (_ && _); [done|].
  destruct (Handel.outbox h0); [|done]. bind_inv. destruct v0 as [ca|]; [|done]. by simplify_eq.
Qed.

Lemma mcast_poll_ends {St P} `{!PartialSemigroup St, !Weighted St, !VerifiableAgainst P St}
    (m m' : DagMulticasting (St := St) (P := P) (PP := PP) (PeerId := PeerId) (Addr := Addr)) ready expired r :
  multicast_poll m ready expired = (m', r) -> mstep m m' /\ forall c, r = MDone c -> mcast_ends m c.
Proof.
  intros Hp. split; [replace m' with (multicast_poll m ready expired).1 by (by rewrite Hp); constructor|].
  intros c ->. exists ready. destruct expired; [by rewrite Hp|].
  unfold multicast_poll in Hp. repeat case_match; by simplify_eq.
Qed.

(** What a stage does between its start and its end. *)
Lemma stage_run_continues cf (st1 : Start) st st' : stage_run cf st1 st ->
  match st, st' with
  | StAggregatePreCommitments s, StAggregatePreCommitments s' => exists h, step (apc_handel s) h /\ s' = s <| apc_handel := h |>
  | StBroadcastPreCommitments s, StBroadcastPreCommitments s' => exists m, mstep (bpc_mcast s) m /\ s' = s <| bpc_mcast := m |>
  | StAggregateCommitments s, StAggregateCommitments s' => exists h, step (ac_handel s) h /\ s' = s <| ac_handel := h |>
  | StBroadcastCommitments s, StBroadcastCommitments s' => exists m, mstep (bc_mcast s) m /\ s' = s <| bc_mcast := m |>
  | StAggregateResponses s, StAggregateResponses s' => exists h, step (ar_handel s) h /\ s' = s <| ar_handel := h |>
  | _, _ => False
  end -> stage_run cf st1 st'.
Proof.
  intros [h Hs|s c s0 m Hr Hg Hc Hs|s c s0 h Hr Hg Hc Hs|s c s0 m Hr Hg Hc Hs|s c s0 h Hr Hg Hc Hs];
    destruct st' as [s'|s'|s'|s'|s']; try done; intros (x & Hx & ->).
  - refine (run_pre_commitments cf st1 x _). eapply rtc_r; [exact Hs|exact Hx].
  - refine (run_broadcast_pre_commitments cf st1 s c s0 x Hr Hg Hc _). eapply rtc_r; [exact Hs|exact Hx].
  - refine (run_commitments cf st1 s c s0 x Hr Hg Hc _). eapply rtc_r; [exact Hs|exact Hx].
  - refine (run_broadcast_commitments cf st1 s c s0 x Hr Hg Hc _). eapply rtc_r; [exact Hs|exact Hx].
  - refine (run_responses cf st1 s c s0 x Hr Hg Hc _). eapply rtc_r; [exact Hs|exact Hx].
Qed.

Lemma stage_run_inject cf st1 st st' p m :
  stage_run cf st1 st -> stage_inject tracing st p m = Done (Some st') -> stage_run cf st1 st'.
Proof.
  intros Hr Hi. eapply stage_run_continues; [exact Hr|].
  destruct st, m; cbn in Hi; bind_inv; try done; simplify_eq; eexists; (split; [|done]); by econstructor.
Qed.
(** An iteration leaves the machine with its keys and with a stage of the
    same run, the next one, or a certificate. *)
Definition iter_ok (sk : Scalar) (cf : HandelConfig) (s s' : Machine) : Prop :=
  sa_host_sk s' = sa_host_sk s /\ inbox s' = inbox s /\ handel_conf s' = handel_conf s /\
  (forall t, task s' = Some t -> stage_of_run sk cf (channel t) (state t)) /\
  (forall ch cert, (ch, cert) ∈ results s' -> (ch, cert) ∈ results s \/ cert_of_run sk cf ch cert).

Lemma requeue_ok sk cf (s s' : Machine) st ch o it :
  stage_of_run sk cf ch st -> Done (requeue s st ch o) = Done (s', it) -> iter_ok sk cf s s'.
Proof.
  intros Hst. unfold requeue.
  destruct o; intros [= <- _]; split_and!; try done; cbn; auto; by intros t [= <-].
Qed.

Lemma next_stage_ok sk cf (s : Machine) t st ch :
  stage_of_run sk cf ch st ->
  iter_ok sk cf s (s <| message_stash ::= <[tag_index t := ∅]> |>
                     <| task := Some {| state := st; channel := ch |} |>).
Proof. intros Hst. split_and!; try done; cbn; [by intros ? [= <-]|auto]. Qed.

Section Stages.
Context (sk : Scalar) (cf : HandelConfig) (s s' : Machine) (ch : nat) (tk : Tick).
Context (it : Iter (PeerId := PeerId) (Addr := Addr)).
Context (Htaken : task s = None) (Hcf : handel_conf s = cf).

Ltac stage_done Hp st' tag :=
  rewrite unstash_taken in Hp by done; outcome_cbn in Hp;
  apply bind_Done in Hp as (st' & Hc & Hp); simplify_eq; apply (next_stage_ok _ _ s tag).

Lemma poll_pre_commitments_ok st :
  stage_of_run sk cf ch (StAggregatePreCommitments st) ->
  poll_pre_commitments tracing s st ch tk = Done (s', it) -> iter_ok sk cf s s'.
Proof.
  intros (members & md & rng & st1 & Hreq & Hinit & Hrun) Hp. unfold poll_pre_commitments in Hp.
  apply bind_Done in Hp as ([x r] & Hpoll & Hp).
  assert (stage_run cf st1 (StAggregatePreCommitments (st <| apc_handel := x |>))) as Hrun'
    by (eapply stage_run_continues; [exact Hrun|]; exists x; split; [by eapply step_poll|done]).
  assert (stage_of_run sk cf ch (StAggregatePreCommitments (st <| apc_handel := x |>))) as Hst by (exists members, md, rng, st1; done).
  destruct r as [|o|c]; [by eapply requeue_ok..|]. pose proof (poll_step_complete _ _ _ _ Hpoll) as Hg.
  stage_done Hp st' Commit. exists members, md, rng, st1. split; [done|]. split; [done|]. destruct st'.
  exact (run_broadcast_pre_commitments _ st1 _ _ _ _ Hrun' Hg Hc (rtc_refl _ _)).
Qed.

Lemma poll_broadcast_pre_commitments_ok st :
  stage_of_run sk cf ch (StBroadcastPreCommitments st) ->
  poll_broadcast_pre_commitments tracing s st ch tk = Done (s', it) -> iter_ok sk cf s s'.
Proof.
  intros (members & md & rng & st1 & Hreq & Hinit & Hrun) Hp. unfold poll_broadcast_pre_commitments in Hp.
  destruct (multicast_poll _ _ _) as [x r] eqn:Hpoll. apply mcast_poll_ends in Hpoll as [Hx Hends].
  assert (stage_run cf st1 (StBroadcastPreCommitments (st <| bpc_mcast := x |>))) as Hrun'
    by (eapply stage_run_continues; [exact Hrun|]; exists x; done).
  assert (stage_of_run sk cf ch (StBroadcastPreCommitments (st <| bpc_mcast := x |>))) as Hst by (exists members, md, rng, st1; done).
  destruct r as [|o|c]; [by eapply requeue_ok..|].
  stage_done Hp st' Response. exists members, md, rng, st1. split; [done|]. split; [done|]. destruct st'.
  exact (run_commitments _ st1 _ _ _ _ Hrun (Hends _ eq_refl) Hc (rtc_refl _ _)).
Qed.

Lemma poll_commitments_ok st :
  stage_of_run sk cf ch (StAggregateCommitments st) ->
  poll_commitments tracing s st ch tk = Done (s', it) -> iter_ok sk cf s s'.
Proof.
  intros (members & md & rng & st1 & Hreq & Hinit & Hrun) Hp. unfold poll_commitments in Hp.
  apply bind_Done in Hp as ([x r] & Hpoll & Hp).
  assert (stage_run cf st1 (StAggregateCommitments (st <| ac_handel := x |>))) as Hrun'
    by (eapply stage_run_continues; [exact Hrun|]; exists x; split; [by eapply step_poll|done]).
  assert (stage_of_run sk cf ch (StAggregateCommitments (st <| ac_handel := x |>))) as Hst by (exists members, md, rng, st1; done).
  destruct r as [|o|c]; [by eapply requeue_ok..|]. pose proof (poll_step_complete _ _ _ _ Hpoll) as Hg.
  stage_done Hp st' TagBroadcastCommitments. exists members, md, rng, st1. split; [done|]. split; [done|]. destruct st'.
  exact (run_broadcast_commitments _ st1 _ _ _ _ Hrun' Hg Hc (rtc_refl _ _)).
Qed.

Lemma poll_broadcast_commitments_ok st :
  stage_of_run sk cf ch (StBroadcastCommitments st) ->
  poll_broadcast_commitments tracing s st ch tk = Done (s', it) -> iter_ok sk cf s s'.
Proof.
  intros (members & md & rng & st1 & Hreq & Hinit & Hrun) Hp. unfold poll_broadcast_commitments in Hp.
  destruct (multicast_poll _ _ _) as [x r] eqn:Hpoll. apply mcast_poll_ends in Hpoll as [Hx Hends].
  assert (stage_run cf st1 (StBroadcastCommitments (st <| bc_mcast := x |>))) as Hrun'
    by (eapply stage_run_continues; [exact Hrun|]; exists x; done).
  assert (stage_of_run sk cf ch (StBroadcastCommitments (st <| bc_mcast := x |>))) as Hst by (exists members, md, rng, st1; done).
  destruct r as [|o|c]; [by eapply requeue_ok..|].
  stage_done Hp st' Response. exists members, md, rng, st1. split; [done|]. split; [done|]. destruct st'.
  exact (run_responses _ st1 _ _ _ _ Hrun (Hends _ eq_refl) Hc (rtc_refl _ _)).
Qed.

Lemma poll_responses_ok st :
  stage_of_run sk cf ch (StAggregateResponses st) ->
  poll_responses s st ch tk = Done (s', it) -> iter_ok sk cf s s'.
Proof.
  intros (members & md & rng & st1 & Hreq & Hinit & Hrun) Hp. unfold poll_responses in Hp.
  apply bind_Done in Hp as ([x r] & Hpoll & Hp).
  assert (stage_run cf st1 (StAggregateResponses (st <| ar_handel := x |>))) as Hrun'
    by (eapply stage_run_continues; [exact Hrun|]; exists x; split; [by eapply step_poll|done]).
  assert (stage_of_run sk cf ch (StAggregateResponses (st <| ar_handel := x |>))) as Hst by (exists members, md, rng, st1; done).
  destruct r as [|o|c]; [by eapply requeue_ok..|].
  simplify_eq. split_and!; [done|done|done|cbn; congruence|]. cbn.
  intros ch' cert [Hin|[= -> ->]%list_elem_of_singleton]%elem_of_app; [by left|right].
  exists members, md, rng, st1, (st <| ar_handel := x |>), c. split_and!; [done..| |done].
  by eapply poll_step_complete.
Qed.
End Stages.

Lemma poll_task_ok sk cf (s s' : Machine) tk it :
  sigma_inv sk cf s -> poll_task tracing s tk = Done (s', it) -> iter_ok sk cf s s'.
Proof.
  intros [Hsk Hcf Htask Hibx Hres] Hp. unfold poll_task in Hp. destruct (task s) as [[st ch]|] eqn:Et.
  2: { simplify_eq. split_and!; auto. congruence. }
  pose proof (Htask _ eq_refl) as Hst. cbn in Hst.
  assert (iter_ok sk cf (s <| task := None |>) s') as Hok; [|exact Hok].
  destruct st; [eapply poll_pre_commitments_ok|eapply poll_broadcast_pre_commitments_ok|
    eapply poll_commitments_ok|eapply poll_broadcast_commitments_ok|eapply poll_responses_ok]; done.
Qed.

Lemma iter_ok_inv sk cf (s s' : Machine) : sigma_inv sk cf s -> iter_ok sk cf s s' -> sigma_inv sk cf s'.
Proof.
  intros [Hsk Hcf Htask Hibx Hres] (Hsk' & Hibx' & Hcf' & Htask' & Hres').
  split; [congruence..|done|by rewrite Hibx'|].
  intros ch cert [Hin|Hc]%Hres'; eauto.
Qed.

Lemma handle_inbox_inv sk cf (s s' : Machine) tk :
  sigma_inv sk cf s -> handle_inbox pid_of make_partitions make_overlay s tk = Done s' ->
  sigma_inv sk cf s'.
Proof.
  intros [Hsk Hcf Htask Hibx Hres] Hi. unfold handle_inbox in Hi.
  destruct (tk_inbox_ready tk); [|by simplify_eq].
  destruct (inbox s) as [|[members md ch] rest] eqn:Ei; [by injection Hi as <-; split; rewrite ?Ei|].
  apply bind_Done in Hi as (st & Hinit & Hi). simplify_eq. split; cbn; try done; [|set_solver].
  intros t [= <-]. cbn. exists members, md, (tk_rng tk), st. split; [set_solver|]. split; [done|].
  destruct st. exact (run_pre_commitments _ _ _ (rtc_refl _ _)).
Qed.

Lemma sigma_step_inv sk cf (s s' : Machine) : sigma_inv sk cf s -> sigma_step s s' -> sigma_inv sk cf s'.
Proof.
  intros Hinv Hs. destruct Hs as [s s' p m Hi|s s' tk it Hp].
  - unfold sigma_inject_message in Hi. destruct (task s) as [t|] eqn:Et; [|by simplify_eq].
    apply bind_Done in Hi as (r & Hr & Hi). destruct Hinv as [Hsk Hcf Htask Hibx Hres].
    destruct r as [st|]; injection Hi as <-; split; cbn; auto.
    intros t' [= <-]. cbn. destruct (Htask t Et) as (ms & md & rng & st1 & Hreq & Hinit & Hrun).
    exists ms, md, rng, st1. split_and!; [done..|]. by eapply stage_run_inject.
  - unfold poll_iter in Hp. destruct (sa_outbox s) as [|out rest].
    + apply bind_Done in Hp as (s1 & Hi & Hp). pose proof (handle_inbox_inv _ _ _ _ _ Hinv Hi) as Hinv1.
      eapply iter_ok_inv; [exact Hinv1|]. by eapply poll_task_ok.
    + simplify_eq. by destruct Hinv.
Qed.

Lemma sigma_reachable_inv sk cf (s : Machine) :
  rtc sigma_step (sigma_new sk cf ibx) s -> sigma_inv sk cf s.
Proof.
  intros Hr. assert (sigma_inv sk cf (sigma_new sk cf ibx)) as Hnew.
  { split; cbn; try done. set_solver. }
  clear -CL Hr Hnew. induction Hr as [|s1 s2 s3 Hs _ IH]; [done|]. apply IH. by eapply sigma_step_inv.
Qed.
End Runs.

(** C7: every certificate the machine sends on a channel answers a reset it
    received with that channel, and is the result of a complete run of the five
    stages started by that reset.  No stage is skipped.  The round of a stage
    runs from its first state by its own steps until it has a complete
    aggregate, a broadcast until its time is over; the next stage is made from
    that aggregate, or from the statement with which the broadcast ended, and
    the certificate from the complete aggregate of the responses. *)
Theorem sent_certificates_have_runs
    `{H : Hasher, B : Blake2b, C : Curve, SG : !Schnorr, CL : !CurveLaws C}
    {PP PeerId Addr : Type} `{Countable PeerId} `{!PeerPartitions PP PeerId Addr}
    tracing pid_of make_partitions
    (make_overlay : option PeerId -> PeerId -> list (PeerId * option Addr) ->
      outcome (DagOverlay (PeerId := PeerId) (Addr := Addr))) sk cf ibx
    (s : SigmaAggregation (PP := PP)) ch cert :
  rtc (sigma_step tracing pid_of make_partitions make_overlay) (sigma_new sk cf ibx) s ->
  (ch, cert) ∈ results s ->
  cert_of_run pid_of make_partitions make_overlay ibx sk cf ch cert.
Proof. intros Hr. exact (si_results _ _ _ _ _ _ _ (sigma_reachable_inv _ _ _ _ _ _ _ _ Hr) ch cert). Qed.

(** ** Committees without fillers *)

(** The table of a committee whose size is a power of two has no fillers. *)
Lemma full_table_peers {PeerId Addr Rng} `{Countable PeerId} `{!GenPermutation Rng PeerId}
    (random_peers : nat -> list PeerId) host (ps : list (PeerId * option Addr)) (r : Rng) t k :
  committee_ok host ps -> fresh_peers random_peers ps -> length ps = 2 ^ k ->
  Partitioning.new random_peers host ps r = Done t -> peers t ≡ₚ ps.*1.
Proof.
  intros (_ & _ & Hlen) Hfresh Hk Hnew. destruct (normalize_spec _ Hlen) as (j & Hnorm & _ & Hle & Hmin).
  assert (2 ^ j = 2 ^ k) as Hj.
  { rewrite Hk in Hle, Hmin. apply Nat.le_antisymm; [|lia]. destruct Hmin as [->|Hlt]; [pose proof (pow2_pos k); cbn; lia|].
    apply Nat.pow_le_mono_r; [lia|]. assert (j - 1 < k); [|lia]. apply (Nat.pow_lt_mono_r_iff 2); lia. }
  unfold Partitioning.new in Hnew. rewrite Hk in Hnew, Hnorm. bind_inv. subst t.
  unfold checked in Hv. case_bool_decide; [|done]. injection Hv as <-. rewrite Hnorm in Hv0. injection Hv0 as <-.
  unfold checked in Hv1. case_bool_decide; [|done]. injection Hv1 as <-. cbn [peers]. rewrite Hj, Z.sub_diag. change (Z.to_nat 0) with 0.
  destruct (Hfresh 0) as (_ & ->%nil_length_inv & _). rewrite app_nil_r. apply sort_by_perm.
Qed.

Lemma NoDup_omap_inv {A B} (f : A -> option B) l : Forall (fun x => is_Some (f x)) l -> NoDup (omap f l) -> NoDup l.
Proof.
  induction 1 as [|x l [y Hy] _ IH]; [constructor|]. cbn. rewrite Hy. intros [Hn Hl]%NoDup_cons. constructor; [|by apply IH].
  intros Hx. apply Hn. apply list_elem_of_omap. by exists x.
Qed.

(** There the members hold exactly the indexes below their number. *)
Lemma full_table_indexes `{C : Curve} {PeerId Addr Rng} `{Countable PeerId} `{!GenPermutation Rng PeerId}
    (random_peers : nat -> list PeerId) host (pid_of : Point -> PeerId) (members : list (Point * option Addr)) (r : Rng) t k :
  let ps := (fun '(pk, a) => (pid_of pk, a)) <$> members in
  committee_ok host ps -> fresh_peers random_peers ps -> length members = 2 ^ k ->
  Partitioning.new random_peers host ps r = Done t ->
  exists ixs, index_committee pid_of t members = Done ixs /\ ixs.*1 ≡ₚ seq 0 (length members).
Proof.
  intros ps Hok Hfresh Hk Hnew. assert (ps.*1 = pid_of <$> members.*1) as Hps.
  { unfold ps. rewrite <- !list_fmap_compose. apply list_fmap_ext. by intros _ [] _. }
  pose proof (full_table_peers _ _ _ _ _ k Hok Hfresh ltac:(unfold ps; by rewrite length_fmap) Hnew) as Hperm.
  assert (NoDup (peers t)) as Hnd by (rewrite Hperm; apply Hok).
  destruct (new_shape random_peers host ps r Hok Hfresh) as (t' & _ & _ & _ & Hnew' & _ & _ & _ & Hix & _). outcome_eq.
  assert (forall pid i, try_index_peer t pid = Some i <-> peers t !! i = Some pid) as Hindex.
  { intros pid i. unfold try_index_peer. rewrite Hix. by apply lookup_collect_index. }
  assert (forall l, (forall pk, pk ∈ l.*1 -> pid_of pk ∈ peers t) ->
    exists ixs, index_committee pid_of t l = Done ixs /\ omap (fun i => peers t !! i) ixs.*1 = pid_of <$> l.*1 /\
      Forall (fun i => i < length (peers t)) ixs.*1) as Hall.
  { induction l as [|[pk a] l IH]; intros Hin; [by exists []|].
    destruct IH as (ixs & Hixs & Hom & Hlt); [intros; apply Hin; by right|].
    destruct (proj1 (list_elem_of_lookup _ _) (Hin pk ltac:(left))) as [i Hi].
    exists ((i, pk) :: ixs). split.
    { change (index_committee pid_of t ((pk, a) :: l)) with
        (x ← (pix ← unwrap (try_index_peer t (pid_of pk)); Done (pix, pk)); r ← index_committee pid_of t l; Done (x :: r)).
      rewrite (proj2 (Hindex _ _) Hi), Hixs. done. }
    cbn [fmap list_fmap omap list_omap fst]. rewrite Hi, Hom. split; [done|]. constructor; [by eapply lookup_lt_Some|done]. }
  destruct (Hall members) as (ixs & Hixs & Hom & Hlt).
  { intros pk Hpk. rewrite Hperm, Hps. by apply list_elem_of_fmap_2. }
  exists ixs. split; [done|].
  assert (length (peers t) = length members) as Hlen by (rewrite Hperm; unfold ps; by rewrite !length_fmap).
  apply submseteq_length_Permutation.
  - apply NoDup_submseteq.
    + apply (NoDup_omap_inv (fun i => peers t !! i)); [|rewrite Hom, <- Hps; apply Hok].
      eapply Forall_impl; [exact Hlt|]. intros i. apply lookup_lt_is_Some_2.
    + intros i Hi. rewrite Forall_forall in Hlt. apply Hlt in Hi. apply elem_of_seq. lia.
  - apply mapO_length in Hixs. by rewrite length_seq, length_fmap, Hixs.
Qed.

(** ** The polling loop *)

Section Polling.
Context `{H : Hasher, B : Blake2b, C : Curve, SG : !Schnorr}.
Context {PP PeerId Addr : Type} `{Countable PeerId} `{!PeerPartitions PP PeerId Addr}.
Context (tracing : bool) (pid_of : Point -> PeerId).
Context (make_partitions : PeerId -> list (PeerId * option Addr) -> outcome PP).
Context (make_overlay : option PeerId -> PeerId -> list (PeerId * option Addr) ->
  outcome (DagOverlay (PeerId := PeerId) (Addr := Addr))).

Abbreviation M := (SigmaAggregation (PP := PP) (PeerId := PeerId) (Addr := Addr)).
Abbreviation iter := (poll_iter tracing pid_of make_partitions make_overlay).

(** The stages still ahead. *)
Definition stage_rank (st : AggregationState (PP := PP) (PeerId := PeerId) (Addr := Addr)) : nat :=
  match st with
  | StAggregatePreCommitments _ => 5
  | StBroadcastPreCommitments _ => 4
  | StAggregateCommitments _ => 3
  | StBroadcastCommitments _ => 2
  | StAggregateResponses _ => 1
  end.

Definition task_rank (t : option (AggregationTask (PP := PP) (PeerId := PeerId) (Addr := Addr))) : nat :=
  match t with Some t => stage_rank (state t) | None => 0 end.

(** A bound on the iterations of one poll. *)
Definition poll_bound (s : M) : nat :=
  match sa_outbox s with
  | [] => 1 + 6 * length (inbox s) + task_rank (task s)
  | _ => 1
  end.

(** What an iteration on a stage can lead to: the same stage with something
    to send or nothing to do, the next stage, or a certificate. *)
Inductive stage_moves (s : M) (st : AggregationState) (ch : nat) : M -> Iter (PeerId := PeerId) (Addr := Addr) -> Prop :=
| move_wait st' : stage_rank st' = stage_rank st -> stage_host st' = stage_host st ->
    stage_moves s st ch (s <| task := Some {| state := st'; channel := ch |} |>) (Return None)
| move_send st' o : stage_rank st' = stage_rank st -> stage_host st' = stage_host st ->
    stage_moves s st ch (s <| task := Some {| state := st'; channel := ch |} |>
                           <| sa_outbox ::= fun l => l ++ [o] |>) Continue
| move_next st' tag : S (stage_rank st') = stage_rank st ->
    (stage_rank st' <> 1 -> stage_host st' = stage_host st) ->
    stage_moves s st ch (s <| message_stash ::= <[tag_index tag := ∅]> |>
                           <| task := Some {| state := st'; channel := ch |} |>) Continue
| move_certificate cert : stage_rank st = 1 ->
    stage_moves s st ch (s <| task := None |> <| message_stash ::= flush |>
                           <| results ::= fun r => r ++ [(ch, cert)] |>) Continue.

Lemma requeue_moves (s s' : M) st st' ch o it :
  stage_rank st' = stage_rank st -> stage_host st' = stage_host st ->
  Done (requeue (s <| task := None |>) st' ch o) = Done (s', it) -> stage_moves s st ch s' it.
Proof. intros Hr Hh. unfold requeue. destruct o; intros [= <- <-]; [by apply (move_send s st ch st')|by apply (move_wait s st ch st')]. Qed.

Ltac requeues Hp := eapply requeue_moves; [| |exact Hp]; done.

Lemma poll_task_moves (s s' : M) st ch tk it :
  task s = Some {| state := st; channel := ch |} ->
  poll_task tracing s tk = Done (s', it) -> stage_moves s st ch s' it.
Proof.
  intros Ht Hp. unfold poll_task in Hp. rewrite Ht in Hp. destruct st as [st|st|st|st|st].
  - apply bind_Done in Hp as ([x r] & _ & Hp). destruct r; [requeues Hp..|].
    rewrite unstash_taken in Hp by done. outcome_cbn in Hp.
    apply bind_Done in Hp as (st' & Hc & [= <- <-]). apply (move_next s _ ch _ Commit); [done|].
    unfold complete_pre_commitments in Hc. bind_inv. by subst.
  - unfold poll_broadcast_pre_commitments in Hp. destruct (multicast_poll _ _ _) as [x r].
    destruct r; [requeues Hp..|].
    rewrite unstash_taken in Hp by done. outcome_cbn in Hp.
    apply bind_Done in Hp as (st' & Hc & [= <- <-]). apply (move_next s _ ch _ Response); [done|].
    unfold complete_broadcast_pre_commitments in Hc. bind_inv. by subst.
  - apply bind_Done in Hp as ([x r] & _ & Hp). destruct r; [requeues Hp..|].
    rewrite unstash_taken in Hp by done. outcome_cbn in Hp.
    apply bind_Done in Hp as (st' & Hc & [= <- <-]).
    apply (move_next s _ ch _ TagBroadcastCommitments); [done|].
    unfold complete_commitments in Hc. bind_inv. by subst.
  - unfold poll_broadcast_commitments in Hp. destruct (multicast_poll _ _ _) as [x r].
    destruct r; [requeues Hp..|].
    rewrite unstash_taken in Hp by done. outcome_cbn in Hp.
    apply bind_Done in Hp as (st' & Hc & [= <- <-]). by apply (move_next s _ ch _ Response).
  - apply bind_Done in Hp as ([x r] & _ & Hp). destruct r; [requeues Hp..|].
    injection Hp as <- <-. by apply (move_certificate s).
Qed.

Lemma iter_decreases (s s' : M) tk : iter s tk = Done (s', Continue) -> poll_bound s' < poll_bound s.
Proof.
  unfold poll_iter. destruct (sa_outbox s) as [|o r] eqn:Eo; [|done]. intros Hp.
  apply bind_Done in Hp as (s1 & Hi & Hp).
  assert (sa_outbox s1 = [] /\ 6 * length (inbox s1) + task_rank (task s1) <=
    6 * length (inbox s) + task_rank (task s)) as [Ho1 Hle].
  { unfold handle_inbox in Hi. destruct (tk_inbox_ready tk); [|by simplify_eq].
    destruct (inbox s) as [|[] rest] eqn:Ei; [simplify_eq; rewrite Ei; done|].
    apply bind_Done in Hi as (st & _ & [= <-]). split; [done|]. cbn. unfold const. lia. }
  assert (poll_bound s' < 1 + 6 * length (inbox s1) + task_rank (task s1)) as Hlt;
    [|unfold poll_bound at 2; rewrite Eo; lia].
  destruct (task s1) as [[st ch]|] eqn:Et; [|unfold poll_task in Hp; by rewrite Et in Hp].
  pose proof (poll_task_moves s1 s' st ch tk Continue Et Hp) as Hm. inversion Hm; subst; unfold poll_bound; cbn.
  - rewrite Ho1. cbn. assert (1 <= stage_rank st) by (destruct st; cbn; lia). lia.
  - rewrite Ho1. lia.
  - rewrite Ho1. lia.
Qed.

(** The loop of [poll] ends within [poll_bound] iterations, with an
    answer unless one of the iterations it reached panicked. *)
Theorem sigma_poll_returns (s : M) tks :
  poll_bound s <= length tks ->
  (exists s' o, sigma_poll tracing pid_of make_partitions make_overlay s tks = Done (s', o)) \/
  (exists s' tk, rtc (fun a b => exists tk, iter a tk = Done (b, Continue)) s s' /\ tk ∈ tks /\
    is_done (iter s' tk) = false).
Proof.
  revert s. induction tks as [|tk tks IH]; intros s Hb.
  { exfalso. assert (1 <= poll_bound s) by (unfold poll_bound; destruct (sa_outbox s); lia).
    cbn in Hb. lia. }
  destruct (iter s tk) as [[s1 it]| |] eqn:Ei; [|right; exists s, tk; rewrite Ei; set_solver..].
  cbn [sigma_poll]. rewrite Ei. outcome_cbn. destruct it as [|o]; [|by left; eauto].
  destruct (IH s1) as [Hd|(s' & tk' & Hr & Hin & Hn)]; [|by left|].
  - pose proof (iter_decreases s s1 tk Ei). cbn in Hb. lia.
  - right. exists s', tk'. split; [|set_solver]. eapply rtc_l; [|exact Hr]. by exists tk.
Qed.

(** An iteration that finds no new request leaves a stage in place, moves
    it to the stage after it with the same keys, inputs and secrets, or, from
    the last stage, sends one certificate on the channel of the task. *)
Theorem sigma_stage_order (s s' : M) st ch tk it :
  task s = Some {| state := st; channel := ch |} -> sa_outbox s = [] -> tk_inbox_ready tk = false ->
  iter s tk = Done (s', it) -> stage_moves s st ch s' it.
Proof.
  intros Ht Ho Hn Hi. unfold poll_iter, handle_inbox in Hi. rewrite Ho, Hn in Hi.
  by eapply poll_task_moves.
Qed.

(** Responses stashed before the response stage are gone when it starts:
    the stage begins with a fresh round and an empty stash for its tag,
    because the stash is replayed while the task is taken out. *)
Theorem early_responses_lost (s : M) st ch tk m cs st' :
  task s = Some {| state := StBroadcastCommitments st; channel := ch |} -> sa_outbox s = [] ->
  tk_inbox_ready tk = false ->
  multicast_poll (bc_mcast st) (tk_mcast_ready tk) (tk_mcast_expired tk) = (m, MDone cs) ->
  complete_broadcast_commitments (st <| bc_mcast := m |>) cs (handel_conf s) = Done st' ->
  iter s tk = Done (s <| message_stash ::= <[tag_index Response := ∅]> |>
                      <| task := Some {| state := StAggregateResponses st'; channel := ch |} |>,
                    Continue) /\
  Forall (fun u => u = ∅) (unverified_contributions (ar_handel st')).
Proof.
  intros Ht Ho Hn Hm Hc. split.
  - unfold poll_iter, handle_inbox, poll_task. rewrite Ho, Hn. outcome_cbn.
    rewrite Ht. unfold poll_broadcast_commitments. rewrite Hm, unstash_taken by done.
    outcome_cbn. match goal with |- ?e ≫= _ = _ => replace e with (Done st') by (symmetry; exact Hc) end. done.
  - unfold complete_broadcast_commitments in Hc. bind_inv. subst st'. cbn. unfold Handel.new in Hv3.
    destruct (_ <? 2)%nat; [done|]. injection Hv3 as <-. cbn. by apply Forall_replicate.
Qed.

(** With trace logging on, a message for another stage from a peer outside
    the committee panics. *)
Lemma traced_unknown_sender_panics (s : M) st ch p m :
  tracing = true -> task s = Some {| state := StAggregateResponses st; channel := ch |} ->
  tag_of_message m <> Response -> pp_try_index_peer (ar_partitions st) p = None ->
  sigma_inject_message tracing s p m = Panic.
Proof.
  intros Htr Ht Hm Hp. unfold sigma_inject_message. rewrite Ht. cbn.
  destruct m; try done; cbn; unfold trace_sender; by rewrite Htr, Hp.
Qed.
End Polling.

(** ** A committee of two, for the witnesses *)

Import IntCurve SigmaSample.

Module Duo.
(** The partitioning of two peers, seen from the first. *)
Inductive Two := two.

#[export] Instance two_partitions : PeerPartitions Two Z nat := {
  pp_peers_at_level := fun _ l _ => match l with 0 => Done [] | 1 => Done [1] | _ => Panic end;
  pp_identify_peer := fun _ ix => match ix with 0 => Done 3%Z | 1 => Done 5%Z | _ => Panic end;
  pp_try_index_peer := fun _ p => if (p =? 3)%Z then Some 0 else if (p =? 5)%Z then Some 1 else None;
  pp_addr_hint := fun _ _ => None;
  pp_num_levels := fun _ => 2;
}.

Definition pid_of (p : Z) : Z := p.
Definition parts_of (_ : Z) (_ : list (Z * option nat)) : outcome Two := Done two.
Definition overlay_of (_ : option Z) (_ : Z) (_ : list (Z * option nat))
    : outcome (DagOverlay (PeerId := Z) (Addr := nat)) :=
  Done {| parent_nodes := ∅; child_nodes := [] |}.

Definition duo : list (Z * option nat) := [(3%Z, None); (5%Z, None)].
Definition cf : HandelConfig := {|
  threshold := {| num := 1; denom := 1 |};
  window_shrinking_factor := 2; initial_scoring_window := 2; fast_path_window := 1;
|}.

Definition cs : gmap nat (Z * (Z * bytes)) :=
  {[ 0 := (4%Z, exclusion_proof (C := int_curve) 4%Z md); 1 := (6%Z, exclusion_proof (C := int_curve) 6%Z md) ]}.

Definition start : outcome (AggregatePreCommitments (C := int_curve) (PP := Two) (PeerId := Z) (Addr := nat)) :=
  init (C := int_curve) pid_of parts_of overlay_of 3%Z duo md cf [4%Z].

Definition handel_msg {K} (c : K) : HandelMessage := {|
  msg_level := 1; msg_individual_contribution := None;
  msg_aggregate_contribution := c; msg_contact_sender := true |}.

(** The round of a stage when the contribution of the second member has come. *)
Definition hears {K P} `{!PartialSemigroup K, !Weighted K, !VerifiableAgainst P K}
    (h : Handel (C := K) (P := P) (PP := Two) (PeerId := Z) (Addr := nat)) (c : K) : outcome (Handel * K) :=
  h ← inject_message h 5%Z (handel_msg c);
  r ← get_complete_aggregate h;
  c ← unwrap r;
  Done (h, c).

(** What a broadcast ends with when its time is over at once. *)
Definition ends {St P} `{!PartialSemigroup St, !Weighted St, !VerifiableAgainst P St}
    (m : DagMulticasting (St := St) (P := P) (PP := Two) (PeerId := Z) (Addr := nat)) : outcome St :=
  match (multicast_poll m true true).2 with MDone c => Done c | _ => Panic end.

Definition broadcasting : outcome (BroadcastPreCommitments (C := int_curve) (PP := Two) (PeerId := Z) (Addr := nat)) :=
  st ← start;
  '(h, ys) ← hears (apc_handel st) {[ 1 := pre_commitment (C := int_curve) 6%Z ]};
  complete_pre_commitments (st <| apc_handel := h |>) ys.

Definition committing : outcome (AggregateCommitments (C := int_curve) (PP := Two) (PeerId := Z) (Addr := nat)) :=
  st ← broadcasting;
  ys ← ends (bpc_mcast st);
  complete_broadcast_pre_commitments st ys cf.

Definition committed : outcome (BroadcastCommitments (C := int_curve) (PP := Two) (PeerId := Z) (Addr := nat)) :=
  st ← committing;
  '(h, cs) ← hears (ac_handel st) {[ 1 := (6%Z, exclusion_proof (C := int_curve) 6%Z md) ]};
  complete_commitments (st <| ac_handel := h |>) cs.

Definition responding : outcome (AggregateResponses (C := int_curve) (PP := Two) (PeerId := Z) (Addr := nat)) :=
  st ← committed;
  cs ← ends (bc_mcast st);
  complete_broadcast_commitments st cs cf.

(** The response of the second member, whose secrets are 5 and 6. *)
Definition answer : outcome Z :=
  st ← responding;
  let input := Handel.public_data (ar_handel st) in
  r ← unwrap (rvi_inputs input !! 1);
  Done (response (C := int_curve) 6%Z 5%Z (rvi_challenge input) (rvi_individual_input r)).

Definition responded : outcome (AggregateResponses (C := int_curve) (PP := Two) (PeerId := Z) (Addr := nat)) :=
  st ← responding;
  z ← answer;
  '(h, _) ← hears (ar_handel st) {[ 1 := z ]};
  Done (st <| ar_handel := h |>).

Lemma hears_step {K P} `{!PartialSemigroup K, !Weighted K, !VerifiableAgainst P K}
    (h h' : Handel (C := K) (P := P) (PP := Two) (PeerId := Z) (Addr := nat)) c c' :
  hears h c = Done (h', c') -> step h h' /\ get_complete_aggregate h' = Done (Some c').
Proof.
  unfold hears. intros E. apply bind_Done in E as (h1 & H1 & E). apply bind_Done in E as ([x|] & H2 & E); [|done].
  injection E as <- <-. split; [by eapply step_inject|done].
Qed.

Lemma ends_mcast {St P} `{!PartialSemigroup St, !Weighted St, !VerifiableAgainst P St}
    (m : DagMulticasting (St := St) (P := P) (PP := Two) (PeerId := Z) (Addr := nat)) c : ends m = Done c -> mcast_ends m c.
Proof. unfold ends. intros E. exists true. by destruct (multicast_poll m true true).2; simplify_eq. Qed.

(** The number of responses a stage has collected. *)
Definition collected (st : AggregateResponses (C := int_curve) (PP := Two) (PeerId := Z) (Addr := nat)) : nat :=
  match get_complete_aggregate (ar_handel st) with Done (Some rs) => size rs | _ => 0 end.

(** Scripts of the whole machine: a message, or an iteration of the loop. *)
Abbreviation M := (SigmaAggregation (C := int_curve) (PP := Two) (PeerId := Z) (Addr := nat)).

Inductive event :=
| Deliver (p : Z) (m : SigmaAggrMessageV1 (C := int_curve))
| Iterate (t : Tick (C := int_curve)).

Definition tick (arrived : bool) : Tick (C := int_curve) := {|
  tk_inbox_ready := arrived;
  tk_timers := {| dissemination_ready := false; activation_ready := false; processing_ready := true |};
  tk_mcast_ready := true;
  tk_mcast_expired := true;
  tk_rng := [4%Z];
|}.

Definition exec (s : M) (e : event) : outcome M :=
  match e with
  | Deliver p m => sigma_inject_message false s p m
  | Iterate t => '(s, _) ← poll_iter (C := int_curve) false pid_of parts_of overlay_of s t; Done s
  end.

Definition requests : list (AggregationAction (C := int_curve) (Addr := nat)) :=
  [Reset (C := int_curve) duo md 7].

Definition fresh : M := sigma_new (C := int_curve) 3%Z cf requests.

(** The two pre-commitments, the two commitments; then a response that comes
    too early, while the commitments are broadcast. *)
Definition until_broadcast : list event :=
  [Iterate (tick true); Deliver 5%Z (MPreCommitments (handel_msg {[ 1 := pre_commitment (C := int_curve) 6%Z ]}));
   Iterate (tick false); Iterate (tick false); Iterate (tick false); Iterate (tick false);
   Deliver 5%Z (MCommitments (handel_msg {[ 1 := (6%Z, exclusion_proof (C := int_curve) 6%Z md) ]}));
   Iterate (tick false); Iterate (tick false); Iterate (tick false);
   Deliver 5%Z (MResponses (handel_msg {[ 1 := 9%Z ]}))].

Definition until_certificate : list event :=
  [Iterate (tick false);
   Deliver 5%Z (MResponses (handel_msg {[ 1 := match answer with Done z => z | _ => 0%Z end ]}));
   Iterate (tick false); Iterate (tick false); Iterate (tick false)].

Definition certified : outcome M :=
  s ← foldO exec until_broadcast fresh; foldO exec until_certificate s.

Definition stashed_responses (s : M) : nat :=
  match message_stash s !! tag_index Response with Some m => size m | None => 0 end.

(** The channel of a broadcast of commitments, the outbox, the stash. *)
Definition view (s : M) : option nat * nat * nat :=
  (match task s with Some {| state := StBroadcastCommitments _; channel := c |} => Some c | _ => None end,
   length (sa_outbox s), stashed_responses s).

(** Whether the broadcast of the commitments is over and the response stage
    can be made. *)
Definition finishes (s : M) : bool :=
  match task s with
  | Some {| state := StBroadcastCommitments st |} =>
    match multicast_poll (bc_mcast st) true true with
    | (m, MDone cs) => is_done (complete_broadcast_commitments (st <| bc_mcast := m |>) cs (handel_conf s))
    | _ => false
    end
  | _ => false
  end.

Lemma exec_steps es (s s' : M) :
  foldO exec es s = Done s' ->
  rtc (sigma_step (C := int_curve) false pid_of parts_of overlay_of) s s'.
Proof.
  revert s. induction es as [|e es IH]; intros s Hs; cbn in Hs; [by simplify_eq|].
  apply bind_Done in Hs as (s1 & H1 & Hs). eapply rtc_l; [|by apply IH]. destruct e as [p m|t]; cbn in H1.
  - by eapply sigma_step_inject.
  - apply bind_Done in H1 as ([s2 it] & Hp & [= <-]). by eapply sigma_step_poll.
Qed.
End Duo.

#[local] Existing Instance Duo.two_partitions.

Lemma duo_run st1 st :
  Duo.start = Done st1 -> Duo.responded = Done st -> stage_run Duo.cf st1 (StAggregateResponses st).
Proof.
  intros E1 E. unfold Duo.responded in E. apply bind_Done in E as (st5 & E5 & E).
  apply bind_Done in E as (z & _ & E). apply bind_Done in E as ([h5 rs] & [H5 _]%Duo.hears_step & [= <-]).
  unfold Duo.responding in E5. apply bind_Done in E5 as (st4 & E4 & E5). apply bind_Done in E5 as (cs & D4%Duo.ends_mcast & E5).
  unfold Duo.committed in E4. apply bind_Done in E4 as (st3 & E3 & E4).
  apply bind_Done in E4 as ([h3 cs0] & [H3 G3]%Duo.hears_step & E4).
  unfold Duo.committing in E3. apply bind_Done in E3 as (st2 & E2 & E3). apply bind_Done in E3 as (ys & D2%Duo.ends_mcast & E3).
  unfold Duo.broadcasting in E2. rewrite E1 in E2. outcome_cbn in E2. apply bind_Done in E2 as ([h1 ys0] & [H1 G1]%Duo.hears_step & E2).
  refine (run_responses _ _ st4 cs st5 h5 _ D4 E5 (rtc_once _ _ H5)). destruct st4 as [hd4 pp4 m4].
  refine (run_broadcast_commitments _ _ (st3 <| ac_handel := h3 |>) cs0 _ m4 _ G3 E4 (rtc_refl _ _)).
  refine (run_commitments _ _ st2 ys st3 h3 _ D2 E3 (rtc_once _ _ H3)). destruct st2 as [hd2 pp2 ov2 m2].
  refine (run_broadcast_pre_commitments _ _ (st1 <| apc_handel := h1 |>) ys0 _ m2 _ G1 E2 (rtc_refl _ _)).
  exact (run_pre_commitments _ st1 h1 (rtc_once _ _ H1)).
Qed.

Lemma duo_participation st1 st :
  Duo.start = Done st1 -> Duo.responded = Done st ->
  full_participation Duo.pid_of 3%Z Duo.duo md st1 (ar_commitments_with_proofs st).
Proof.
  intros E1 E. pose proof (fmap_Done ar_commitments_with_proofs _ _ Duo.cs E ltac:(vm_compute; reflexivity)) as ->.
  split.
  - destruct (apc_partitions st1). eexists. split; vm_compute; reflexivity.
  - left.
  - intros i. unfold Duo.cs. cbn [length Duo.duo]. destruct i as [|[|i]].
    + split; [lia|by eexists].
    + split; [lia|by eexists].
    + split; [|lia]. rewrite lookup_insert_ne, lookup_singleton_ne by done. intros [? [=]].
  - exists (exclusion_proof (C := int_curve) 4%Z md).
    rewrite (fmap_Done (fun st => host_ix (apc_host st)) _ _ 0 E1 ltac:(vm_compute; reflexivity)).
    rewrite (fmap_Done (fun st => host_commitment (C := int_curve) (apc_host st)) _ _ 4%Z E1 ltac:(vm_compute; reflexivity)).
    reflexivity.
  - intros i y sig Hi. unfold Duo.cs in Hi.
    apply lookup_insert_Some in Hi as [[_ [= <- <-]]|[_ Hi]]; [reflexivity|].
    by apply lookup_singleton_Some in Hi as [_ [= <- <-]].
Qed.

Lemma certificate_verifies_witness :
  exists st1 st rs, Duo.start = Done st1 /\ Duo.responded = Done st /\
    get_complete_aggregate (ar_handel st) = Done (Some rs) /\
    let cert := complete_responses st rs in
    verify_aggregate (C := int_curve) (cert_aggregate_commitment cert) (cert_aggregate_response cert)
      (cert_exclusion_set cert) (sorted_values (SigmaAggregation.committee (apc_host st1))) md
      {| num := 1; denom := 1 |} = Done (2 <=? Z.of_nat (size rs))%Z /\ size rs = 2.
Proof.
  destruct (is_done_exists Duo.start ltac:(vm_compute; reflexivity)) as [st1 E1].
  destruct (is_done_exists Duo.responded ltac:(vm_compute; reflexivity)) as [st E].
  pose proof (fmap_Done Duo.collected _ _ 2 E ltac:(vm_compute; reflexivity)) as Hsize.
  unfold Duo.collected in Hsize.
  destruct (get_complete_aggregate (ar_handel st)) as [[rs|]| |] eqn:Eg; [|discriminate Hsize..].
  exists st1, st, rs. cbn zeta. split_and!; [done..| |done].
  eapply (certificate_verifies (C := int_curve) Duo.pid_of Duo.parts_of Duo.overlay_of 3%Z Duo.duo md
      Duo.cf [4%Z] st1 st rs); [exact E1|by apply duo_run|exact Eg|by apply duo_participation|
      vm_compute; discriminate|reflexivity].
Defined.

Lemma sent_certificates_have_runs_witness :
  exists s cert, Duo.certified = Done s /\ (7, cert) ∈ results s /\
    cert_of_run (C := int_curve) Duo.pid_of Duo.parts_of Duo.overlay_of Duo.requests 3%Z Duo.cf 7 cert.
Proof.
  destruct (is_done_exists Duo.certified ltac:(vm_compute; reflexivity)) as [s E].
  pose proof (fmap_Done (fun s : Duo.M => map fst (results s)) _ _ [7] E ltac:(vm_compute; reflexivity)) as Hr.
  cbn beta in Hr. destruct (results s) as [|[ch cert] r] eqn:Er; [discriminate Hr|]. injection Hr as -> _.
  exists s, cert. assert ((7, cert) ∈ results s) as Hin by (rewrite Er; left).
  split; [exact E|]. split; [exact Hin|].
  refine (sent_certificates_have_runs (C := int_curve) false Duo.pid_of Duo.parts_of Duo.overlay_of
    3%Z Duo.cf Duo.requests s 7 cert _ Hin).
  unfold Duo.certified in E. apply bind_Done in E as (s1 & H1 & H2).
  etransitivity; eapply Duo.exec_steps; [exact H1|exact H2].
Defined.


Lemma sigma_poll_returns_witness :
  let ticks := replicate 7 (Duo.tick true) in
  (exists s' o, sigma_poll (C := int_curve) false Duo.pid_of Duo.parts_of Duo.overlay_of Duo.fresh ticks
     = Done (s', o)) \/
  (exists s' tk, rtc (fun a b => exists tk, poll_iter (C := int_curve) false Duo.pid_of Duo.parts_of
      Duo.overlay_of a tk = Done (b, Continue)) Duo.fresh s' /\ tk ∈ ticks /\
    is_done (poll_iter (C := int_curve) false Duo.pid_of Duo.parts_of Duo.overlay_of s' tk) = false).
Proof. apply (sigma_poll_returns (C := int_curve)). vm_compute. lia. Defined.

(** The machine while the commitments are broadcast. *)
Lemma broadcast_state :
  exists s st, foldO Duo.exec Duo.until_broadcast Duo.fresh = Done s /\
    task s = Some {| state := StBroadcastCommitments st; channel := 7 |} /\ sa_outbox s = [] /\
    Duo.stashed_responses s = 1.
Proof.
  destruct (is_done_exists (foldO Duo.exec Duo.until_broadcast Duo.fresh) ltac:(vm_compute; reflexivity))
    as [s E].
  pose proof (fmap_Done Duo.view _ _ (Some 7, 0, 1) E ltac:(vm_compute; reflexivity)) as Hs.
  unfold Duo.view in Hs. injection Hs as Ht Ho Hst.
  destruct (task s) as [[[] ch]|] eqn:Et; try discriminate Ht.
  injection Ht as ->. exists s, st. split_and!; [exact E|exact Et|by apply nil_length_inv|exact Hst].
Qed.

Lemma sigma_stage_order_witness :
  exists s st s' it, foldO Duo.exec Duo.until_broadcast Duo.fresh = Done s /\
    poll_iter (C := int_curve) false Duo.pid_of Duo.parts_of Duo.overlay_of s (Duo.tick false) = Done (s', it) /\
    stage_moves s (StBroadcastCommitments st) 7 s' it.
Proof.
  destruct broadcast_state as (s & st & E & Et & Ho & _).
  destruct (is_done_exists (foldO Duo.exec (Duo.until_broadcast ++ [Duo.Iterate (Duo.tick false)]) Duo.fresh)
    ltac:(vm_compute; reflexivity)) as [s2 E2].
  rewrite foldO_app, E in E2. cbn [mbind outcome_bind foldO Duo.exec] in E2.
  apply bind_Done in E2 as (s3 & E3 & _). apply bind_Done in E3 as ([s' it] & Hp & _).
  exists s, st, s', it. split; [exact E|]. split; [exact Hp|].
  exact (sigma_stage_order (C := int_curve) false Duo.pid_of Duo.parts_of Duo.overlay_of s s' _ 7
    (Duo.tick false) it Et Ho eq_refl Hp).
Defined.

Lemma early_responses_lost_witness :
  exists s s' st', foldO Duo.exec Duo.until_broadcast Duo.fresh = Done s /\ Duo.stashed_responses s = 1 /\
    poll_iter (C := int_curve) false Duo.pid_of Duo.parts_of Duo.overlay_of s (Duo.tick false) = Done (s', Continue) /\
    task s' = Some {| state := StAggregateResponses st'; channel := 7 |} /\
    Forall (fun u => u = ∅) (unverified_contributions (ar_handel st')).
Proof.
  destruct broadcast_state as (s & st & E & Et & Ho & Hst).
  pose proof (fmap_Done Duo.finishes _ _ true E ltac:(vm_compute; reflexivity)) as Hf.
  unfold Duo.finishes in Hf. rewrite Et in Hf.
  destruct (multicast_poll (bc_mcast st) true true) as [m [|a|cs]] eqn:Em; [discriminate Hf..|].
  apply is_done_exists in Hf as [st' Hc].
  destruct (early_responses_lost (C := int_curve) false Duo.pid_of Duo.parts_of Duo.overlay_of s st 7
    (Duo.tick false) m cs st' Et Ho eq_refl Em Hc) as [Hp Hu].
  eexists s, _, st'. split; [exact E|]. split; [exact Hst|]. split; [exact Hp|]. split; [reflexivity|exact Hu].
Defined.

(** A certificate made when one of the two members never committed: the
    member is not in the exclusion set, its key stays in the verification
    equation, and the certificate does not verify although a response of one
    half of the committee is asked for. *)
Definition lone_certificate : outcome bool :=
  st ← Duo.committed;
  st ← complete_broadcast_commitments (C := int_curve) st
    {[ 0 := (4%Z, exclusion_proof (C := int_curve) 4%Z md) ]} Duo.cf;
  rs ← get_own_contribution (ar_handel st);
  let cert := complete_responses st rs in
  verify_aggregate (C := int_curve) (cert_aggregate_commitment cert) (cert_aggregate_response cert)
    (cert_exclusion_set cert) [3%Z; 5%Z] md {| num := 1; denom := 2 |}.

Lemma absent_member_breaks_certificate : lone_certificate = Done false.
Proof. vm_compute. reflexivity. Qed.

(** A committee of three with one filler between its members: the indexes are
    0, 1 and 3.  The third member commits and does not respond; it is excluded
    under its index, at which the sorted committee has no member, and the
    certificate does not verify although two responses of three are enough. *)
Module Trio.
#[export] Instance by_id : GenPermutation unit Z := { gen_priority := fun _ p => p; gen_vp := fun _ _ p => Z.of_nat p }.

Abbreviation Table := (BinomialPeerPartitions Z nat unit).
Definition trio : list (Z * option nat) := [(3%Z, None); (5%Z, None); (7%Z, None)].
Definition filler (n : nat) : list Z := replicate n 6%Z.
Definition parts_of (host : Z) (ps : list (Z * option nat)) : outcome (Table) :=
  Partitioning.new filler host ps tt.

Definition proof_of (y : Z) : Z * (Z * bytes) := (y, exclusion_proof (C := int_curve) y md).
Definition cs : gmap nat (Z * (Z * bytes)) := {[ 0 := proof_of 4%Z; 1 := proof_of 6%Z; 3 := proof_of 8%Z ]}.
Definition ys : gmap nat bytes := (fun c => pre_commitment (C := int_curve) c.1) <$> cs.

Definition broadcasting : outcome (BroadcastPreCommitments (C := int_curve) (PP := Table) (PeerId := Z) (Addr := nat)) :=
  st ← init (C := int_curve) Duo.pid_of parts_of Duo.overlay_of 3%Z trio md Duo.cf [4%Z];
  complete_pre_commitments (C := int_curve) (PP := Table) (PeerId := Z) (Addr := nat) st ys.
Definition committing : outcome (AggregateCommitments (C := int_curve) (PP := Table) (PeerId := Z) (Addr := nat)) :=
  st ← broadcasting; complete_broadcast_pre_commitments (C := int_curve) (PP := Table) (PeerId := Z) (Addr := nat) st ys Duo.cf.
Definition committed : outcome (BroadcastCommitments (C := int_curve) (PP := Table) (PeerId := Z) (Addr := nat)) :=
  st ← committing; complete_commitments (C := int_curve) (PP := Table) (PeerId := Z) (Addr := nat) st cs.
Definition responding : outcome (AggregateResponses (C := int_curve) (PP := Table) (PeerId := Z) (Addr := nat)) :=
  st ← committed; complete_broadcast_commitments (C := int_curve) (PP := Table) (PeerId := Z) (Addr := nat) st cs Duo.cf.

(** The responses of the first two members, and whether they verify. *)
Definition certificate : outcome (bool * bool) :=
  st ← responding;
  own ← get_own_contribution (ar_handel st);
  let input := Handel.public_data (ar_handel st) in
  r ← unwrap (rvi_inputs input !! 1);
  let rs := <[1 := response (C := int_curve) 6%Z 5%Z (rvi_challenge input) (rvi_individual_input r)]> own in
  let cert := complete_responses st rs in
  ok ← verify_aggregate (C := int_curve) (cert_aggregate_commitment cert) (cert_aggregate_response cert)
    (cert_exclusion_set cert) [3%Z; 5%Z; 7%Z] md {| num := 2; denom := 3 |};
  Done (verify rs input, ok).
End Trio.

Lemma filler_breaks_certificate : Trio.certificate = Done (true, false).
Proof. vm_compute. reflexivity. Qed.
