(* ===== verification/Validation.v ===== *)
(** * The validation effect

    Model of [spectrum-validation/src]: consensus rules, the state of a
    validation and its combinators.  The closures given to [and_then] and
    [flat_tap] may panic, so the combinators that run them return an
    [outcome]; the text of an error message is a value of any type [D]. *)

From S2P Require Import Prelude.

(** ** Rules *)

(** The specifications of rules, without their descriptions. *)
Record NonTermRuleSpec := { active : bool }.
Record TermRuleSpec := { fatal : bool }.

Class ConsensusRuleSet (RS : Type) := {
  get_rule : RS -> Z -> NonTermRuleSpec;
  get_term_rule : RS -> Z -> TermRuleSpec;
}.

Inductive ModifierType := TBlockHeader | TBlockBody | TTransaction.

(** The trait [Modifier] of [spectrum-ledger/src/block.rs]. *)
Class Modifier (A : Type) := {
  modifier_id_of : A -> list Z;
  modifier_type_of : ModifierType;
}.
Arguments modifier_type_of A {_}.

Section Validation.
Context {D : Type}.

Record ModifierErr := {
  err_modifier_id : list Z;
  err_modifier_type : ModifierType;
  err_details : D;
}.

Definition as_invalid {A} `{Modifier A} (m : A) (details : D) : ModifierErr := {|
  err_modifier_id := modifier_id_of m;
  err_modifier_type := modifier_type_of A;
  err_details := details;
|}.

Record RuleViolation := {
  rule : Z;
  viol_modifier_id : list Z;
  viol_modifier_type : ModifierType;
  viol_details : D;
}.

Definition into_violation (e : ModifierErr) (r : Z) : RuleViolation := {|
  rule := r;
  viol_modifier_id := err_modifier_id e;
  viol_modifier_type := err_modifier_type e;
  viol_details := err_details e;
|}.

Record InvalidModifier := {
  inv_modifier_id : list Z;
  inv_modifier_type : ModifierType;
  inv_fatal : bool;
  violations : list RuleViolation;
}.

(** ** [ValidationState] *)

Inductive ValidationState (T E : Type) :=
| VOk (t : T)
| NonTermError (t : T) (errs : list RuleViolation)
| TermError (e : E) (is_fatal : bool) (err : RuleViolation).
Arguments VOk {T E} t.
Arguments NonTermError {T E} t errs.
Arguments TermError {T E} e is_fatal err.

Definition vmap {T T1 E} (f : T -> T1) (v : ValidationState T E) : ValidationState T1 E :=
  match v with
  | VOk s => VOk (f s)
  | NonTermError s errs => NonTermError (f s) errs
  | TermError e f err => TermError e f err
  end.

Definition discard {T E} (v : ValidationState T E) : ValidationState unit E := vmap (fun _ => tt) v.

(** What a later result becomes after the errors [acc] of the earlier steps. *)
Definition after {T E} (acc : list RuleViolation) (v : ValidationState T E) : ValidationState T E :=
  match v with
  | VOk t1 => NonTermError t1 acc
  | NonTermError t1 errs => NonTermError t1 (acc ++ errs)
  | fatal => fatal
  end.

Definition and_then {T T1 E} (v : ValidationState T E) (func : T -> outcome (ValidationState T1 E))
    : outcome (ValidationState T1 E) :=
  match v with
  | VOk t => func t
  | NonTermError s err_acc => after err_acc <$> func s
  | TermError e f err => Done (TermError e f err)
  end.

Definition flat_tap {T T1 E} (v : ValidationState T E) (func : T -> outcome (ValidationState T1 E))
    : outcome (ValidationState T E) :=
  match v with
  | VOk t => vmap (fun _ => t) <$> func t
  | NonTermError t err_acc => (fun r => after err_acc (vmap (fun _ => t) r)) <$> func t
  | TermError e f err => Done (TermError e f err)
  end.

Context {RS : Type} `{!ConsensusRuleSet RS}.

Definition fail {A} (rule_id : Z) (rules : RS) (err : ModifierErr) : ValidationState A unit :=
  TermError tt (fatal (get_term_rule rules rule_id)) (into_violation err rule_id).

Definition fail_out {T E} (rule_id : Z) (rules : RS) (out : E) (err : ModifierErr) : ValidationState T E :=
  TermError out (fatal (get_term_rule rules rule_id)) (into_violation err rule_id).

Definition assert_static (rule_id : Z) (rules : RS) (cond : bool) (err : ModifierErr)
    : ValidationState unit unit :=
  if cond then VOk tt
  else TermError tt (fatal (get_term_rule rules rule_id)) (into_violation err rule_id).

Definition v_unwrap {A} (rule_id : Z) (rules : RS) (extracted : option A) (err : ModifierErr)
    : ValidationState A unit :=
  match extracted with
  | Some t1 => VOk t1
  | None => TermError tt (fatal (get_term_rule rules rule_id)) (into_violation err rule_id)
  end.

Definition assert_defined {A A1} (v : ValidationState A unit) (rule_id : Z) (rules : RS)
    (cond : A -> option A1) (err : A -> ModifierErr) : outcome (ValidationState A1 unit) :=
  and_then v (fun t => Done
    match cond t with
    | Some t1 => VOk t1
    | None => TermError tt (fatal (get_term_rule rules rule_id)) (into_violation (err t) rule_id)
    end).

Definition v_assert {A} (v : ValidationState A unit) (rule_id : Z) (rules : RS)
    (cond : A -> bool) (err : A -> ModifierErr) : outcome (ValidationState A unit) :=
  and_then v (fun t => Done
    (if cond t then VOk t
     else TermError tt (fatal (get_term_rule rules rule_id)) (into_violation (err t) rule_id))).

Definition assert_non_terminal {T E} (v : ValidationState T E) (rule_id : Z) (rules : RS)
    (cond : T -> bool) (if_failed : T -> ModifierErr) : outcome (ValidationState T E) :=
  and_then v (fun t => Done
    (if negb (active (get_rule rules rule_id)) || cond t then VOk t
     else NonTermError t [into_violation (if_failed t) rule_id])).

Definition asset_out {T E} (v : ValidationState T E) (rule_id : Z) (rules : RS)
    (cond : T -> bool) (if_failed : T -> E * ModifierErr) : outcome (ValidationState T E) :=
  and_then v (fun t => Done
    (if cond t then VOk t
     else let '(out, err) := if_failed t in
          TermError out (fatal (get_term_rule rules rule_id)) (into_violation err rule_id))).

(** ** [Validation] *)

Record Validation (A T E : Type) := { modifier : A; vstate : ValidationState T E }.
Arguments modifier {A T E} _.
Arguments vstate {A T E} _.

Definition validation_new {A E} (m : A) : Validation A unit E := {| modifier := m; vstate := VOk tt |}.

Definition validation_and_then {A T T1 E} (v : Validation A T E)
    (func : A -> T -> outcome (ValidationState T1 E)) : outcome (Validation A T1 E) :=
  next_result ←
    match vstate v with
    | VOk t => func (modifier v) t
    | NonTermError t err_acc => after err_acc <$> func (modifier v) t
    | TermError e f err => Done (TermError e f err)
    end;
  Done {| modifier := modifier v; vstate := next_result |}.

(** [Ok(ValidModifier(modifier))] or the violations. *)
Definition result {A} `{Modifier A} (v : Validation A unit unit) : A + InvalidModifier :=
  match vstate v with
  | VOk _ => inl (modifier v)
  | NonTermError _ errs => inr {|
      inv_modifier_id := modifier_id_of (modifier v); inv_modifier_type := modifier_type_of A;
      inv_fatal := false; violations := errs |}
  | TermError _ fatal err => inr {|
      inv_modifier_id := modifier_id_of (modifier v); inv_modifier_type := modifier_type_of A;
      inv_fatal := fatal; violations := [err] |}
  end.

(** ** Properties *)

Lemma after_after {T E} (acc acc' : list RuleViolation) (v : ValidationState T E) :
  after acc (after acc' v) = after (acc ++ acc') v.
Proof. destruct v; cbn; by rewrite ?app_assoc. Qed.

Lemma and_then_after {T T1 E} (acc : list RuleViolation) (v : ValidationState T E)
    (g : T -> outcome (ValidationState T1 E)) :
  and_then (after acc v) g = after acc <$> and_then v g.
Proof. destruct v as [t|t errs|e f err]; cbn; [done| |done]. destruct (g t); cbn; by rewrite ?after_after. Qed.

(** The combinators of a validation are associative, whatever errors the
    steps accumulate or stop with: a pipeline can be cut anywhere. *)
Theorem and_then_assoc {T T1 T2 E} (v : ValidationState T E)
    (f : T -> outcome (ValidationState T1 E)) (g : T1 -> outcome (ValidationState T2 E)) :
  (v1 ← and_then v f; and_then v1 g) = and_then v (fun t => v1 ← f t; and_then v1 g).
Proof.
  destruct v as [t|t acc|e b err]; cbn; [done| |done].
  destruct (f t) as [v1| |]; cbn; [|done..]. apply and_then_after.
Qed.

(** A list of non-terminal rules, checked one after the other. *)
Definition check_all {T E} (rules : RS) (checks : list (Z * (T -> bool) * (T -> ModifierErr)))
    (v : ValidationState T E) : outcome (ValidationState T E) :=
  foldO (fun v '(r, cond, err) => assert_non_terminal v r rules cond err) checks v.

(** The violations of the active rules whose condition fails. *)
Definition violated {T} (rules : RS) (checks : list (Z * (T -> bool) * (T -> ModifierErr))) (t : T)
    : list RuleViolation :=
  omap (fun '(r, cond, err) =>
    if negb (active (get_rule rules r)) || cond t then None else Some (into_violation (err t) r)) checks.

Lemma check_all_nonterm {T E} (rules : RS) checks (t : T) acc :
  check_all (E := E) rules checks (NonTermError t acc) = Done (NonTermError t (acc ++ violated rules checks t)).
Proof.
  revert acc. induction checks as [|[[r cond] err] checks IH]; intros acc; cbn; [by rewrite app_nil_r|].
  destruct (negb _ || cond t); cbn; [apply IH|].
  unfold check_all in IH. rewrite IH, <- app_assoc. done.
Qed.

Lemma check_all_ok {T E} (rules : RS) checks (t : T) :
  check_all (E := E) rules checks (VOk t) =
  Done (match violated rules checks t with [] => VOk t | vs => NonTermError t vs end).
Proof.
  induction checks as [|[[r cond] err] checks IH]; [done|]. cbn.
  destruct (negb _ || cond t); cbn; [exact IH|]. exact (check_all_nonterm rules checks t [into_violation (err t) r]).
Qed.

(** A pipeline of non-terminal rules runs every rule, and its result is
    the modifier when no active rule is violated, and otherwise a non-fatal
    rejection with exactly the violations of the active rules, in order. *)
Theorem non_terminal_accumulate {A} `{Modifier A} (rules : RS)
    (checks : list (Z * (unit -> bool) * (unit -> ModifierErr))) (m : A) :
  exists v, check_all rules checks (VOk tt) = Done v /\
    result {| modifier := m; vstate := v |} =
    match violated rules checks tt with
    | [] => inl m
    | vs => inr {| inv_modifier_id := modifier_id_of m; inv_modifier_type := modifier_type_of A;
                   inv_fatal := false; violations := vs |}
    end.
Proof. eexists. split; [apply check_all_ok|]. by destruct (violated rules checks tt). Qed.
End Validation.

Arguments VOk {D T E} t.
Arguments NonTermError {D T E} t errs.
Arguments TermError {D T E} e is_fatal err.
Arguments modifier {D A T E} _.
Arguments vstate {D A T E} _.
