(* ===== verification/Consensus.v ===== *)
(** * Validation of block headers

    Model of [spectrum-consensus/src] and of the slot numbers and headers of
    [spectrum-ledger/src].  The history, the ledger state, the protocol
    parameters, the encoding of a header and the floating-point
    [lottery_threshold] are parameters of the model. *)

From S2P Require Import Prelude Crypto Vrf Validation.

(** ** Ledger data *)

Definition SLOTS_PER_EPOCH : Z := 1000.

(** [SlotNo::epoch_num] *)
Definition epoch_num (slot : Z) : Z := slot / SLOTS_PER_EPOCH.

(** ** Rules *)

Definition HEADER_PARENT_LINK : Z := 0.
Definition HEADER_NON_DESC_SLOT : Z := 1.
Definition HEADER_PARENT_SLOT_DELTA : Z := 2.
Definition HEADER_VALIDATOR_CREDS : Z := 2.
Definition HEADER_VALIDATOR_MEMBER : Z := 2.
Definition HEADER_VALIDATOR_LEADER : Z := 2.
Definition HEADER_EPOCH_SEED : Z := 3.
Definition HEADER_SPO_VERIFIED : Z := 1.
Definition HEADER_VRF : Z := 2.

(** ["EMS"] *)
Definition EPOCH_MEMBERSHIP_SALT : list Z := [69; 77; 83]%Z.

(** The messages of the violations, with what they interpolate. *)
Inductive Details :=
| ParentNotFound (prev_id : list Z)
| NonIncreasingSlot (parent_slot slot : Z)
| SlotDeltaOutOfBounds (allowed actual : Z)
| AuthorNotRegistered
| EpochProofNotFound (epoch : Z)
| AuthorNotMember.

Section Consensus.
Context `{H : Hasher, C : Curve}.

Record HeaderBody := {
  prev_id : list Z;
  block_num : Z;
  slot_num : Z;
  vrf_vk : Point;
  vrf_proof : ECVRFProof;
  block_body_root : list Z;
  protocol_version : Z;
}.

(** The KES signature of the body is not inspected by the validation. *)
Record BlockHeader := { body : HeaderBody; body_signature : list Z }.

(** The encoding hashed for the identifier of a header. *)
Context (encode_body : HeaderBody -> list Z).

#[local] Instance header_modifier : Modifier BlockHeader := {
  modifier_id_of := fun h => hash (encode_body (body h));
  modifier_type_of := TBlockHeader;
}.

(** The traits of the collaborators. *)
Class LedgerHistoryReadSync (Hst : Type) := get_header : Hst -> list Z -> option BlockHeader.

Class LedgerState (S : Type) := {
  PoolCreds : Type;
  get_pool_creds : S -> list Z -> option PoolCreds;
  get_stake : S -> list Z -> Z;
  get_total_stake : S -> Z;
  get_epoch_rand_proof : S -> Z -> option ECVRFProof;
}.

Class ProtocolParams (PP : Type) := {
  fk : PP -> Z;
  base_vrf_range : PP -> Z;
  consensus_selection_frac : PP -> Z * Z;
}.

Context {Hst S RS PP : Type} `{!LedgerHistoryReadSync Hst, !LedgerState S, !ConsensusRuleSet RS, !ProtocolParams PP}.
Context (lottery_threshold : Z -> Z -> Z -> Z * Z -> Z).

(** [StakePoolId::from(vk)] *)
Definition stake_pool_id (vk : Point) : list Z := hash (sec1_bytes vk).

(** [derive_more::Sub] on [SlotNo]. *)
Definition slot_sub (a b : Z) : outcome Z := checked 0 u64_max (a - b).

(** The membership check, from the randomness proof of the epoch. *)
Definition validate_membership (hdr : BlockHeader) (state : S) (rules : RS) (protocol : PP)
    (epoch_rand_proof : ECVRFProof) : outcome (ValidationState (D := Details) unit unit) :=
  let vrf_range := base_vrf_range protocol in
  let pool := stake_pool_id (vrf_vk (body hdr)) in
  let epoch_threshold := lottery_threshold vrf_range (get_stake state pool) (get_total_stake state)
    (consensus_selection_frac protocol) in
  epoch_seed ← proof_to_random_number epoch_rand_proof EPOCH_MEMBERSHIP_SALT vrf_range;
  Done (assert_static HEADER_VALIDATOR_MEMBER rules (epoch_seed <? epoch_threshold)%Z
          (as_invalid hdr AuthorNotMember)).

Definition validate_child_block_header (hdr parent_hdr : BlockHeader) (state : S) (rules : RS)
    (protocol : PP) : outcome (ValidationState (D := Details) unit unit) :=
  v ← v_assert (VOk hdr) HEADER_NON_DESC_SLOT rules
    (fun hdr => slot_num (body parent_hdr) <? slot_num (body hdr))%Z
    (fun hdr => as_invalid hdr (NonIncreasingSlot (slot_num (body parent_hdr)) (slot_num (body hdr))));
  v ← flat_tap v (fun hdr =>
    delta ← slot_sub (slot_num (body hdr)) (slot_num (body parent_hdr));
    let allowed_delta := fk protocol in
    Done (assert_static HEADER_PARENT_SLOT_DELTA rules (delta <=? allowed_delta)%Z
            (as_invalid hdr (SlotDeltaOutOfBounds allowed_delta delta))));
  v ← and_then v (fun hdr => Done (vmap (fun creds => (hdr, creds))
    (v_unwrap HEADER_VALIDATOR_CREDS rules (get_pool_creds state (stake_pool_id (vrf_vk (body hdr))))
       (as_invalid hdr AuthorNotRegistered))));
  v ← flat_tap v (fun '(hdr, creds) =>
    let epoch := epoch_num (slot_num (body hdr)) in
    and_then (v_unwrap HEADER_EPOCH_SEED rules (get_epoch_rand_proof state epoch)
                (as_invalid hdr (EpochProofNotFound epoch)))
      (validate_membership hdr state rules protocol));
  Done (discard v).

Definition validate_block_header (hdr : BlockHeader) (history : Hst) (state : S) (rules : RS)
    (protocol : PP) : outcome (Validation (D := Details) BlockHeader unit unit) :=
  validation_and_then (validation_new hdr) (fun hdr _ =>
    match get_header history (prev_id (body hdr)) with
    | Some parent_hdr => validate_child_block_header hdr parent_hdr state rules protocol
    | None => Done (fail HEADER_PARENT_LINK rules (as_invalid hdr (ParentNotFound (prev_id (body hdr)))))
    end).

(** ** What the validator accepts *)

(** The conditions a header has to satisfy: its parent is known, its slot is
    later and not too far away, its author is registered, and the seed of the
    epoch falls below the threshold of the author's stake.  The rules
    [HEADER_SPO_VERIFIED] and [HEADER_VRF], which rules.rs declares besides,
    are not checked by the source. *)
Definition admissible (hdr : BlockHeader) (history : Hst) (state : S) (protocol : PP) : Prop :=
  let b := body hdr in
  let pool := stake_pool_id (vrf_vk b) in
  exists parent proof seed,
    get_header history (prev_id b) = Some parent /\
    (slot_num (body parent) < slot_num b <= slot_num (body parent) + fk protocol)%Z /\
    is_Some (get_pool_creds state pool) /\
    get_epoch_rand_proof state (epoch_num (slot_num b)) = Some proof /\
    proof_to_random_number proof EPOCH_MEMBERSHIP_SALT (base_vrf_range protocol) = Done seed /\
    (seed < lottery_threshold (base_vrf_range protocol) (get_stake state pool) (get_total_stake state)
              (consensus_selection_frac protocol))%Z.

(** The validator returns the header if it is admissible and otherwise one
    violation; it panics only where the seed of the epoch cannot be computed. *)
Definition verdict_ok (hdr : BlockHeader) (history : Hst) (state : S) (protocol : PP)
    (r : outcome (BlockHeader + InvalidModifier (D := Details))) : Prop :=
  match r with
  | Done (inl hdr') => hdr' = hdr /\ admissible hdr history state protocol
  | Done (inr e) => ~ admissible hdr history state protocol /\ inv_modifier_id e = modifier_id_of hdr /\ length (violations e) = 1
  | _ => exists proof, get_epoch_rand_proof state (epoch_num (slot_num (body hdr))) = Some proof /\
      is_done (proof_to_random_number proof EPOCH_MEMBERSHIP_SALT (base_vrf_range protocol)) = false
  end.

Lemma header_verdict (hdr : BlockHeader) (history : Hst) (state : S) (rules : RS) (protocol : PP) :
  (0 <= slot_num (body hdr) <= u64_max)%Z ->
  (forall id parent, get_header history id = Some parent -> 0 <= slot_num (body parent) <= u64_max)%Z ->
  verdict_ok hdr history state protocol (result <$> validate_block_header hdr history state rules protocol).
Proof.
  intros Hslot Hparents. unfold validate_block_header. cbn.
  destruct (get_header history (prev_id (body hdr))) as [parent|] eqn:Hp;
    [|cbn; split; [|done]; intros (? & ? & ? & ? & _); congruence].
  specialize (Hparents _ _ Hp). unfold validate_child_block_header. cbn.
  destruct (Z.ltb_spec (slot_num (body parent)) (slot_num (body hdr)));
    [|cbn; split; [|done]; intros (? & ? & ? & ? & ? & _); simplify_eq; lia].
  cbn. unfold slot_sub, checked. rewrite bool_decide_true by lia. cbn.
  destruct (Z.leb_spec (slot_num (body hdr) - slot_num (body parent)) (fk protocol));
    [|cbn; split; [|done]; intros (? & ? & ? & ? & ? & _); simplify_eq; lia].
  cbn. destruct (get_pool_creds state _) as [creds|] eqn:Hcreds;
    [|cbn; split; [|done]; intros (? & ? & ? & _ & _ & [? ?] & _); congruence].
  cbn. destruct (get_epoch_rand_proof state _) as [proof|] eqn:Hproof;
    [|cbn; split; [|done]; intros (? & ? & ? & _ & _ & _ & ? & _); congruence].
  cbn. unfold validate_membership. destruct (proof_to_random_number _ _ _) as [seed| |] eqn:Hseed;
    [|cbn; exists proof; split; [done|by rewrite Hseed]..].
  cbn. destruct (Z.ltb_spec seed (lottery_threshold (base_vrf_range protocol) (get_stake state (stake_pool_id (vrf_vk (body hdr))))
    (get_total_stake state) (consensus_selection_frac protocol))); cbn.
  - split; [done|]. exists parent, proof, seed. split_and!; first [done|lia].
  - split; [|done]. intros (? & proof' & seed' & _ & _ & _ & Hp' & Hs' & ?). rewrite Hproof in Hp'. injection Hp' as <-.
    rewrite Hseed in Hs'. injection Hs' as <-. lia.
Qed.

(** Neither the header's own VRF proof nor its signature matters. *)
Lemma vrf_proof_not_checked hdr hdr' history state protocol :
  prev_id (body hdr') = prev_id (body hdr) -> slot_num (body hdr') = slot_num (body hdr) ->
  vrf_vk (body hdr') = vrf_vk (body hdr) ->
  admissible hdr' history state protocol <-> admissible hdr history state protocol.
Proof. intros E1 E2 E3. unfold admissible. by rewrite E1, E2, E3. Qed.
End Consensus.

(** ** A chain of one header, for witnesses *)

Import IntCurve.

Module ConsensusSample.
Abbreviation Header := (BlockHeader (C := int_curve)).

Definition proof : ECVRFProof (C := int_curve) :=
  {| gamma := (3%Z : Point (Curve := int_curve)); c := (1%Z : Scalar (Curve := int_curve));
     s := (2%Z : Scalar (Curve := int_curve)) |}.

Definition header (prev : list Z) (slot : Z) : Header := {|
  body := {| prev_id := prev; block_num := 0; slot_num := slot;
             vrf_vk := (5%Z : Point (Curve := int_curve)); vrf_proof := proof;
             block_body_root := []; protocol_version := 1 |};
  body_signature := [] |}.

Definition encode (b : HeaderBody (C := int_curve)) : list Z := [slot_num b].

(** The only known header has the identifier [[9]]. *)
#[export] Instance history : LedgerHistoryReadSync (C := int_curve) unit :=
  fun _ id => if bool_decide (id = [9%Z]) then Some (header [] 10) else None.

#[export] Instance ledger : LedgerState (C := int_curve) unit := {|
  PoolCreds := unit;
  get_pool_creds := fun _ _ => Some tt;
  get_stake := fun _ _ => 1%Z;
  get_total_stake := fun _ => 2%Z;
  get_epoch_rand_proof := fun _ _ => Some proof;
|}.

#[export] Instance rule_set : ConsensusRuleSet unit := {|
  get_rule := fun _ _ => {| active := true |};
  get_term_rule := fun _ _ => {| fatal := true |};
|}.

#[export] Instance params : ProtocolParams unit := {|
  fk := fun _ => 100%Z;
  base_vrf_range := fun _ => 8%Z;
  consensus_selection_frac := fun _ => (1%Z, 2%Z);
|}.

(** A threshold of one half of the range. *)
Definition half (range stake total : Z) (frac : Z * Z) : Z := 2 ^ range / 2.
End ConsensusSample.
