(* ===== verification/Ledger.v ===== *)
(** * Cells and transactions: linking and evaluation

    Model of the cells and transactions of [spectrum-ledger/src] and of
    [spectrum-view/src/state/linking.rs] and [eval.rs].  The pool of cells is
    an interface, the encoding hashed for a transaction's digest a parameter.
    Scripts, data, function names and type arguments are bytes. *)

From S2P Require Import Prelude Crypto SigmaCrypto.

(** ** Cells *)

(** [CellRef(CellId, Serial)] *)
Record CellRef := { cell_id : list Z; serial : Z }.

Inductive CellPtr := PtrId (id : list Z) | PtrRef (r : CellRef).

Record SValue := {
  native : Z;
  assets : gmap (list Z) (gmap (list Z) Z);
}.

Record ProgressPoint := { chain_id : Z; point : Z }.

Definition SERIAL_INITIAL : Z := 0.

Section Ledger.
Context `{B : Blake2b, C : Curve, SG : !Schnorr}.

Inductive Owner := ProveDlog (pk : Point) | OwnerScriptHash (h : list Z).

Record ActiveCell := {
  value : SValue;
  owner : Owner;
  datum : option (list Z);
  reference_script : option (list Z);
  reference_datum : option (list Z);
  tx_id : list Z;
  index : Z;
  ver : Z;
}.

(** [dst] is the destination chain, address and bridge inputs, encoded. *)
Record TermCell := {
  term_value : SValue;
  term_tx_id : list Z;
  term_index : Z;
  dst : Z * list Z * option (list Z);
}.

Inductive AnyCell := Mut (c : ActiveCell) | Term (c : TermCell).

Definition any_cell_ver (c : AnyCell) : Z :=
  match c with Term _ => SERIAL_INITIAL | Mut mc => ver mc end.

Record CellMeta (A : Type) := { cell : A; ancors : list ProgressPoint }.
Arguments cell {A} _.
Arguments ancors {A} _.

(** The trait [Cells]. *)
Class Cells (P : Type) := {
  get_cell : P -> CellPtr -> option (CellMeta AnyCell);
  progress_of : P -> Z -> Z;
  get_ref_script : P -> CellRef -> option (list Z);
  get_ref_datum : P -> CellRef -> option (list Z);
}.

(** ** Transactions *)

Record TxInputs := { head : CellRef * option nat; tail : list (CellPtr * option nat) }.

(** [IntoIterator for TxInputs] *)
Definition inputs_iter (i : TxInputs) : list (CellPtr * option nat) :=
  (PtrRef (head i).1, (head i).2) :: tail i.

Record ScriptInv := {
  inv_script : nat;
  inv_datum : option nat;
  inv_function : list Z;
  inv_args : list (list Z);
  inv_targs : list (list Z);
}.

Inductive ScriptWitness := WScriptRef (r : CellRef) | WScript (s : list Z).
Inductive DatumWitness := WDatumRef (r : CellRef) | WDatum (d : list Z).

Record Witness := {
  scripts : list ScriptWitness;
  data : list DatumWitness;
  signatures : list SchnorrSig;
}.

Record TransactionBody := {
  inputs : TxInputs;
  reference_inputs : list CellPtr;
  invocations : list ScriptInv;
  evaluated_outputs : list AnyCell;
}.

Record Transaction := { tx_body : TransactionBody; tx_witness : Witness }.

Record LinkedScriptInv := {
  linked_script : list Z;
  linked_datum : option (list Z);
  linked_function : list Z;
  linked_args : list (list Z);
  linked_targs : list (list Z);
}.

Record LinkedTransaction := {
  linked_inputs : list (CellMeta ActiveCell * option SchnorrSig);
  linked_reference_inputs : list AnyCell;
  linked_invokations : list LinkedScriptInv;
  linked_evaluated_outputs : list AnyCell;
  linked_hash : list Z;
}.

Record EvaluatedTransaction := {
  ev_inputs : list ActiveCell;
  ev_outputs : list (CellMeta AnyCell);
}.

(** ** Linking *)

Inductive LinkingError :=
| MissingInput (p : CellPtr)
| NonConsumableInput (p : CellPtr)
| MissingRefInput (p : CellPtr)
| MissingScript
| MissingDatum (r : CellRef)
| MissingSignature (ix : nat)
| MalformedInput (ix : nat)
| UnresolvedScriptRef (r : CellRef).

(** [Result<A, LinkingError>], the error on the right. *)
Abbreviation Linked A := (A + LinkingError)%type.

Context {P : Type} `{!Cells P}.
Context (encode_body : TransactionBody -> list Z).

(** [Transaction::digest] *)
Definition tx_digest (tx : Transaction) : list Z := blake2b (encode_body (tx_body tx)).

Definition link_input (pool : P) (sigs : list SchnorrSig) (ix : nat) (input : CellPtr * option nat)
    : Linked (CellMeta ActiveCell * option SchnorrSig) :=
  let '(pt, maybe_sig_ix) := input in
  match get_cell pool pt with
  | Some {| cell := Mut active_cell; ancors := a |} =>
    match owner active_cell, maybe_sig_ix with
    | ProveDlog _, Some sig_ix =>
      match sigs !! sig_ix with
      | Some sig => inl ({| cell := active_cell; ancors := a |}, Some sig)
      | None => inr (MissingSignature ix)
      end
    | OwnerScriptHash _, None => inl ({| cell := active_cell; ancors := a |}, None)
    | _, _ => inr (MalformedInput ix)
    end
  | Some _ => inr (NonConsumableInput pt)
  | None => inr (MissingInput pt)
  end.

(** A loop that stops at the first error; [ix] counts the elements. *)
Fixpoint link_all {A L} (f : nat -> A -> Linked L) (ix : nat) (l : list A) : Linked (list L) :=
  match l with
  | [] => inl []
  | x :: l =>
    match f ix x with
    | inl y => match link_all f (S ix) l with inl ys => inl (y :: ys) | inr e => inr e end
    | inr e => inr e
    end
  end.

Definition link_ref_input (pool : P) (pt : CellPtr) : Linked AnyCell :=
  match get_cell pool pt with
  | Some mcell => inl (cell mcell)
  | None => inr (MissingRefInput pt)
  end.

(** The datum of an invocation: only a resolved reference yields one. *)
Definition link_datum (pool : P) (data : list DatumWitness) (maybe_datum_ix : option nat)
    : option (list Z) :=
  datum_ix ← maybe_datum_ix;
  datum_wit ← data !! datum_ix;
  match datum_wit with
  | WDatumRef datum_ref => get_ref_datum pool datum_ref
  | WDatum _ => None
  end.

Definition link_invocation (pool : P) (w : Witness) (i : ScriptInv) : Linked LinkedScriptInv :=
  match scripts w !! inv_script i with
  | Some script_wit =>
    let maybe_datum := link_datum pool (data w) (inv_datum i) in
    let linked script := {|
      linked_script := script; linked_datum := maybe_datum; linked_function := inv_function i;
      linked_args := inv_args i; linked_targs := inv_targs i |} in
    match script_wit with
    | WScriptRef sc_ref =>
      match get_ref_script pool sc_ref with
      | Some script => inl (linked script)
      | None => inr (UnresolvedScriptRef sc_ref)
      end
    | WScript script => inl (linked script)
    end
  | None => inr MissingScript
  end.

Definition link_transaction (pool : P) (tx : Transaction) : Linked LinkedTransaction :=
  let digest := tx_digest tx in
  let b := tx_body tx in
  let w := tx_witness tx in
  match link_all (link_input pool (signatures w)) 0 (inputs_iter (inputs b)) with
  | inr e => inr e
  | inl linked_inputs =>
    match link_all (fun _ => link_ref_input pool) 0 (reference_inputs b) with
    | inr e => inr e
    | inl linked_ref_inputs =>
      match link_all (fun _ => link_invocation pool w) 0 (invocations b) with
      | inr e => inr e
      | inl linked_invokations => inl {|
          linked_inputs := linked_inputs;
          linked_reference_inputs := linked_ref_inputs;
          linked_invokations := linked_invokations;
          linked_evaluated_outputs := evaluated_outputs b;
          linked_hash := digest |}
      end
    end
  end.

(** ** Evaluation *)

Record EvaluationError := { at_input : nat; gas_consumed : Z }.

Record InvokationScope := { scope_script : list Z; owned_inputs : list ActiveCell }.

Definition scope_new (script : list Z) : InvokationScope := {| scope_script := script; owned_inputs := [] |}.

Definition add_owned_input (s : InvokationScope) (c : ActiveCell) : InvokationScope :=
  s <| owned_inputs ::= fun l => l ++ [c] |>.

(** [ScriptHash::from(module)] *)
Definition script_hash (script : list Z) : list Z := blake2b script.

(** The loop over the anchors of one input. *)
Definition converge (converged : gmap Z Z) (l : list ProgressPoint) : gmap Z Z :=
  foldl (fun acc pp =>
    match acc !! chain_id pp with
    | Some max_point =>
      if (point pp <=? max_point)%Z then acc else <[chain_id pp := point pp]> acc
    | None => <[chain_id pp := point pp]> acc
    end) converged l.

(** What the loop over the inputs changes. *)
Record EvalState := {
  verified_inputs : list ActiveCell;
  invokation_scopes : gmap (list Z) InvokationScope;
  converged_ancors : gmap Z Z;
}.

(** One input; [VerifyingKey::try_from(pk).unwrap()] panics on a key whose
    [y] coordinate is odd. *)
Definition eval_input (hash : list Z) (s : EvalState) (ix : nat)
    (input : CellMeta ActiveCell * option SchnorrSig) : outcome (EvalState + EvaluationError) :=
  let '({| cell := i; ancors := a |}, maybe_sig) := input in
  let s := s <| converged_ancors ::= fun m => converge m a |> in
  match maybe_sig with
  | Some sig =>
    match owner i with
    | ProveDlog pk =>
      if even_y pk then
        if schnorr_verify pk hash sig
        then Done (inl (s <| verified_inputs ::= fun l => l ++ [i] |>))
        else Done (inr {| at_input := ix; gas_consumed := 0 |})
      else Panic
    | OwnerScriptHash sh =>
      match invokation_scopes s !! sh with
      | Some iscope => Done (inl (s <| invokation_scopes ::= <[sh := add_owned_input iscope i]> |>))
      | None => Done (inl s)
      end
    end
  | None => Done (inl s)
  end.

Fixpoint eval_inputs (hash : list Z) (s : EvalState) (ix : nat)
    (l : list (CellMeta ActiveCell * option SchnorrSig)) : outcome (EvalState + EvaluationError) :=
  match l with
  | [] => Done (inl s)
  | input :: l =>
    r ← eval_input hash s ix input;
    match r with
    | inl s => eval_inputs hash s (S ix) l
    | inr e => Done (inr e)
    end
  end.

(** The anchors of the outputs: those not reached yet. *)
Definition unreached (pool : P) (converged : gmap Z Z) : list ProgressPoint :=
  omap (fun '(c, p) => if (progress_of pool c <? p)%Z then Some {| chain_id := c; point := p |} else None)
    (map_to_list converged).

Definition evaluate_transaction (pool : P) (tx : LinkedTransaction)
    : outcome (EvaluatedTransaction + EvaluationError) :=
  let scopes := collect_map ((fun i => (script_hash (linked_script i), scope_new (linked_script i))) <$>
    linked_invokations tx) in
  r ← eval_inputs (linked_hash tx)
    {| verified_inputs := []; invokation_scopes := scopes; converged_ancors := ∅ |} 0 (linked_inputs tx);
  Done (match r with
        | inr e => inr e
        | inl s => inl {|
            ev_inputs := verified_inputs s;
            ev_outputs := (fun c => {| cell := c; ancors := unreached pool (converged_ancors s) |}) <$>
              linked_evaluated_outputs tx |}
        end).

(** ** Properties *)

(** The key-owned cell an input points to. *)
Definition key_owned (pool : P) (pt : CellPtr) : option ActiveCell :=
  match get_cell pool pt with
  | Some {| cell := Mut c |} => match owner c with ProveDlog _ => Some c | OwnerScriptHash _ => None end
  | _ => None
  end.

(** An input whose owner, if a key, signed [hash] with the signature the
    input refers to. *)
Definition input_signed (pool : P) (sigs : list SchnorrSig) (hash : list Z)
    (input : CellPtr * option nat) : Prop :=
  forall c pk, key_owned pool input.1 = Some c -> owner c = ProveDlog pk ->
    exists ix sig, input.2 = Some ix /\ sigs !! ix = Some sig /\ schnorr_verify pk hash sig = true.

Lemma linked_eval_input pool sigs hash ix jx input y s s1 :
  link_input pool sigs ix input = inl y -> eval_input hash s jx y = Done (inl s1) ->
  verified_inputs s1 = verified_inputs s ++ option_list (key_owned pool input.1) /\
  input_signed pool sigs hash input.
Proof.
  destruct input as [pt six]. unfold link_input, input_signed, key_owned. cbn. intros Hy Hr.
  destruct (get_cell pool pt) as [[[c|c] a]|]; [|done..].
  destruct (owner c) as [pk|sh] eqn:Ho, six as [sx|]; try done.
  - destruct (sigs !! sx) as [sig|] eqn:Hs; [|done]. injection Hy as <-. cbn in Hr. rewrite Ho in Hr.
    destruct (even_y pk); [|done]. destruct (schnorr_verify pk hash sig) eqn:Hv; [|done].
    injection Hr as <-. split; [done|]. intros c' pk' [= <-] Ho'. rewrite Ho in Ho'. injection Ho' as <-. by exists sx, sig.
  - injection Hy as <-. cbn in Hr. injection Hr as <-. cbn. by rewrite app_nil_r.
Qed.

Lemma linked_eval_inputs pool sigs hash l ls ix jx s s' :
  link_all (link_input pool sigs) ix l = inl ls -> eval_inputs hash s jx ls = Done (inl s') ->
  verified_inputs s' = verified_inputs s ++ omap (fun i => key_owned pool i.1) l /\
  Forall (input_signed pool sigs hash) l.
Proof.
  revert ls ix jx s. induction l as [|i l IH]; intros ls ix jx s Hl He.
  { injection Hl as <-. injection He as <-. by rewrite app_nil_r. }
  cbn [link_all] in Hl. destruct (link_input pool sigs ix i) as [y|] eqn:Hy; [|done].
  destruct (link_all _ (S ix) l) as [ys|] eqn:Hys; [|done]. injection Hl as <-.
  cbn [eval_inputs] in He. apply bind_Done in He as (r & Hr & He). destruct r as [s1|]; [|done].
  destruct (IH _ _ _ _ Hys He) as [-> Hsig]. destruct (linked_eval_input _ _ _ _ _ _ _ _ _ Hy Hr) as [-> Hi].
  split; [|by constructor]. rewrite <- app_assoc. cbn. by destruct (key_owned pool i.1).
Qed.

(** C9: a transaction that links and evaluates consumes exactly the cells its
    inputs point to that are owned by a key, in order, and each of those keys
    signed the digest of the transaction. *)
Theorem pipeline_inputs_signed (pool : P) tx lt e :
  link_transaction pool tx = inl lt -> evaluate_transaction pool lt = Done (inl e) ->
  ev_inputs e = omap (fun i => key_owned pool i.1) (inputs_iter (inputs (tx_body tx))) /\
  Forall (input_signed pool (signatures (tx_witness tx)) (tx_digest tx)) (inputs_iter (inputs (tx_body tx))).
Proof.
  unfold link_transaction, evaluate_transaction. intros Hl He.
  destruct (link_all (link_input _ _) 0 _) as [ls|] eqn:Hls; [|done].
  destruct (link_all _ 0 (reference_inputs _)); [|done].
  destruct (link_all _ 0 (invocations _)); [|done]. injection Hl as <-. cbn in He.
  apply bind_Done in He as (r & Hr & He). destruct r as [s|]; [|done]. injection He as <-. cbn.
  exact (linked_eval_inputs _ _ _ _ _ _ _ _ _ Hls Hr).
Qed.

(** The anchors of a list of linked inputs. *)
Definition all_ancors (ls : list (CellMeta ActiveCell * option SchnorrSig)) : list ProgressPoint :=
  concat ((fun l => ancors l.1) <$> ls).

(** The points of a chain. *)
Definition points_of (c : Z) (l : list ProgressPoint) : list Z :=
  omap (fun pp => if (chain_id pp =? c)%Z then Some (point pp) else None) l.

(** [m] holds the greatest point of every chain of [l]. *)
Definition greatest (m : gmap Z Z) (l : list ProgressPoint) : Prop :=
  forall c, match m !! c with
            | Some p => p ∈ points_of c l /\ Forall (fun q => q <= p)%Z (points_of c l)
            | None => points_of c l = []
            end.

Lemma converge_greatest m l l' : greatest m l -> greatest (converge m l') (l ++ l').
Proof.
  revert m l. induction l' as [|[c0 p0] l' IH]; intros m l Hg; cbn; [by rewrite app_nil_r|].
  rewrite cons_middle, app_assoc. apply IH. clear IH. intros c. unfold points_of. rewrite omap_app.
  fold (points_of c l). cbn. specialize (Hg c) as Hc. specialize (Hg c0) as Hc0.
  destruct (Z.eqb_spec c0 c) as [->|Hne].
  - destruct (m !! c) as [mp|] eqn:Hm.
    + destruct Hc as [Hin Hall]. destruct (Z.leb_spec p0 mp).
      * rewrite Hm. split; [set_solver|]. apply Forall_app. split; [done|]. by constructor.
      * rewrite lookup_insert_eq. split; [set_solver|]. apply Forall_app. split; [|by constructor].
        eapply Forall_impl; [exact Hall|]. cbn. lia.
    + rewrite lookup_insert_eq, Hc. split; [set_solver|by constructor].
  - rewrite app_nil_r.
    assert (forall m' : gmap Z Z, m' !! c = m !! c -> match m' !! c with
      | Some p => p ∈ points_of c l /\ Forall (fun q => q <= p)%Z (points_of c l)
      | None => points_of c l = [] end) as Hsame by (intros m' ->; done).
    apply Hsame. destruct (m !! c0) as [mp|]; [destruct (p0 <=? mp)%Z; [done|]|];
      by rewrite lookup_insert_ne.
Qed.

Lemma eval_inputs_greatest hash ls jx s s' l :
  eval_inputs hash s jx ls = Done (inl s') -> greatest (converged_ancors s) l ->
  greatest (converged_ancors s') (l ++ all_ancors ls).
Proof.
  revert jx s l. induction ls as [|[[i a] sig] ls IH]; intros jx s l He Hg.
  { injection He as <-. cbn. by rewrite app_nil_r. }
  cbn [eval_inputs] in He. apply bind_Done in He as (r & Hr & He). destruct r as [s1|]; [|done].
  unfold all_ancors. cbn. rewrite app_assoc. apply (IH _ _ _ He).
  assert (converged_ancors s1 = converge (converged_ancors s) a) as ->; [|by apply converge_greatest].
  cbn in Hr. destruct sig as [sig|]; [|by simplify_eq]. destruct (owner i).
  - destruct (even_y pk); [|done]. destruct (schnorr_verify pk hash sig); by simplify_eq.
  - destruct (invokation_scopes s !! h); by simplify_eq.
Qed.

(** Every output of an evaluated transaction waits, for each chain, for
    the greatest point its inputs were anchored to, unless the chain already
    reached that point; it waits for nothing else. *)
Theorem outputs_anchored (pool : P) lt e out c p :
  evaluate_transaction pool lt = Done (inl e) -> out ∈ ev_outputs e ->
  {| chain_id := c; point := p |} ∈ ancors out <->
  p ∈ points_of c (all_ancors (linked_inputs lt)) /\
  Forall (fun q => q <= p)%Z (points_of c (all_ancors (linked_inputs lt))) /\
  (progress_of pool c < p)%Z.
Proof.
  unfold evaluate_transaction. intros He Hout. apply bind_Done in He as (r & Hr & He).
  destruct r as [s|]; [|done]. injection He as <-. cbn in Hout.
  apply (eval_inputs_greatest _ _ _ _ _ []) in Hr; [|by intros c'].
  apply list_elem_of_fmap in Hout as (o & -> & _). cbn. specialize (Hr c). cbn [app] in Hr.
  unfold unreached. rewrite list_elem_of_omap. split.
  - intros ([c' p'] & Hin%elem_of_map_to_list & Hp). cbn in Hp.
    destruct (Z.ltb_spec (progress_of pool c') p'); simplify_eq. rewrite Hin in Hr. naive_solver.
  - intros (Hin & Hall & Hlt). destruct (converged_ancors s !! c) as [p'|] eqn:Hc.
    + destruct Hr as [Hin' Hall']. assert (p' = p) as ->.
      { rewrite Forall_forall in Hall, Hall'. pose proof (Hall _ Hin'). pose proof (Hall' _ Hin). lia. }
      exists (c, p). split; [by apply elem_of_map_to_list|]. by rewrite (proj2 (Z.ltb_lt _ _)).
    + rewrite Hr in Hin. by apply elem_of_nil in Hin.
Qed.

(** Inline data never reach the linked invocation. *)
Lemma inline_datum_dropped (pool : P) ds ix d :
  ds !! ix = Some (WDatum d) -> link_datum pool ds (Some ix) = None.
Proof. intros Hd. cbn. by rewrite Hd. Qed.
End Ledger.
Arguments cell {A} _.
Arguments ancors {A} _.

(** ** A pool of two cells, for the witnesses *)

Import IntCurve.
#[local] Existing Instance SigmaSample.schnorr.
#[local] Existing Instance SigmaSample.blake.

Module LedgerSample.
Definition coins : SValue := {| native := 5; assets := ∅ |}.

Definition owned_by (o : Owner (C := int_curve)) : ActiveCell := {|
  value := coins; owner := o; datum := None; reference_script := None; reference_datum := None;
  tx_id := []; index := 0; ver := 1 |}.

Definition key_cell : ActiveCell := owned_by (ProveDlog (C := int_curve) 4%Z).
Definition script_cell : ActiveCell := owned_by (OwnerScriptHash (C := int_curve) [7%Z]).

Definition ref (n : Z) : CellRef := {| cell_id := [n]; serial := 1 |}.

#[export] Instance pool : Cells (C := int_curve) unit := {|
  get_cell := fun _ p =>
    match p with
    | PtrRef {| cell_id := [1%Z] |} =>
      Some {| cell := Mut key_cell; ancors := [{| chain_id := 0; point := 8 |}; {| chain_id := 1; point := 2 |}] |}
    | PtrRef {| cell_id := [2%Z] |} =>
      Some {| cell := Mut script_cell; ancors := [{| chain_id := 0; point := 9 |}] |}
    | _ => None
    end;
  progress_of := fun _ _ => 3%Z;
  get_ref_script := fun _ _ => None;
  get_ref_datum := fun _ _ => None;
|}.

Definition encode (b : TransactionBody (C := int_curve)) : list Z := [1%Z; 2%Z].

(** It consumes both cells; only the first is signed for. *)
Definition body : TransactionBody (C := int_curve) := {|
  inputs := {| head := (ref 1, Some 0); tail := [(PtrRef (ref 2), None)] |};
  reference_inputs := []; invocations := [];
  evaluated_outputs := [Mut key_cell] |}.

Definition tx : Transaction (C := int_curve) := {|
  tx_body := body;
  tx_witness := {| scripts := []; data := [];
    signatures := [schnorr_sign (C := int_curve) 4%Z (blake2b (encode body))] |} |}.

Definition linked : LinkedTransaction (C := int_curve) :=
  match link_transaction (C := int_curve) encode tt tx with
  | inl l => l
  | inr _ => {| linked_inputs := []; linked_reference_inputs := []; linked_invokations := [];
                linked_evaluated_outputs := []; linked_hash := [] |}
  end.

Definition evaluated : EvaluatedTransaction (C := int_curve) :=
  match evaluate_transaction (C := int_curve) tt linked with
  | Done (inl e) => e
  | _ => {| ev_inputs := []; ev_outputs := [] |}
  end.
End LedgerSample.

Import LedgerSample.

Lemma pipeline_inputs_signed_witness :
  ev_inputs evaluated = [key_cell] /\
  Forall (input_signed (C := int_curve) tt (signatures (tx_witness tx)) (tx_digest encode tx))
    (inputs_iter (inputs (tx_body tx))).
Proof.
  destruct (pipeline_inputs_signed (C := int_curve) encode tt tx linked evaluated) as [He Hs];
    [vm_compute; reflexivity..|]. split; [rewrite He; reflexivity|exact Hs].
Defined.

Lemma outputs_anchored_witness :
  exists out, out ∈ ev_outputs evaluated /\
    {| chain_id := 0; point := 9 |} ∈ ancors out /\ {| chain_id := 1; point := 2 |} ∉ ancors out.
Proof.
  assert (exists out, out ∈ ev_outputs evaluated) as [out Hout] by (eexists; left).
  assert (evaluate_transaction (C := int_curve) tt linked = Done (inl evaluated)) as He
    by (vm_compute; reflexivity).
  pose proof (fun c p => outputs_anchored (C := int_curve) tt linked evaluated out c p He Hout) as Ha.
  exists out. split; [exact Hout|]. split.
  - apply Ha. split; [right; left|]. split; [repeat constructor; vm_compute; discriminate|]. cbn. lia.
  - rewrite Ha. cbn. lia.
Defined.
