(* ===== verification/VersionedStore.v ===== *)
(** * The versioned key-value store

    Model of [spectrum-view/src/versioned_avl_storage/versioned_storage.rs]:
    undo records, updates, reads and rollbacks.  RocksDB is a parameter in
    the sense that only its documented behaviour is used: an ordered map with
    transactions that commit at once.  Its three key spaces are separate maps
    here; under their prefixes ([04..p:db], [06..p:undo], [p:bound]) the data
    keys come first, then the undo keys in the order of their serial
    numbers, then the boundaries.  The codecs of keys, values and versions
    are parameters. *)

From S2P Require Import Prelude.

Section VersionedStore.
Context {K V T : Type} `{EqDecision T}.

(** [bincode] of keys and values, and the conversions of version ids. *)
Record Codec := {
  ser_key : K -> list Z;
  ser_value : V -> list Z;
  de_value : list Z -> option V;
  version_bytes : T -> list Z;
  version_of_bytes : list Z -> option T;
}.
Context (cd : Codec).

(** ** Undo records *)

Record Undo := { undo_version : T; undo_key : list Z; undo_value : list Z }.

(** [Vec<u8>::from(undo)], with its assertions. *)
Definition encode_undo (u : Undo) : outcome (list Z) :=
  let vb := version_bytes cd (undo_version u) in
  if (length vb <=? 255)%nat && (length (undo_key u) <=? 255)%nat && (0 <? length (undo_value u))%nat
  then Done (Z.of_nat (length vb) :: Z.of_nat (length (undo_key u)) :: vb ++ undo_key u ++ undo_value u)
  else Panic.

(** [Undo::from(bytes)]; the subtraction on [usize] panics below zero. *)
Definition decode_undo (bytes : list Z) : outcome Undo :=
  b0 ← unwrap (bytes !! 0);
  b1 ← unwrap (bytes !! 1);
  let version_size := Z.to_nat b0 in
  let key_size := Z.to_nat b1 in
  if (length bytes <? version_size + key_size + 2)%nat then Panic else
  let value_size := length bytes - version_size - key_size - 2 in
  if (0 <? value_size)%nat then
    version ← unwrap (version_of_bytes cd (take version_size (drop 2 bytes)));
    Done {|
      undo_version := version;
      undo_key := take key_size (drop (2 + version_size) bytes);
      undo_value := drop (2 + version_size + key_size) bytes;
    |}
  else Panic.

(** ** The store *)

Record VersionIdBoundaries := { version_id : T; first_lsn : Z; last_lsn : Z }.

Record VersionedStore := {
  db : gmap (list Z) (list Z);
  undos : gmap Z (list Z);
  boundaries : list VersionIdBoundaries;
  num_versions_to_store : nat;
}.

(** [VersionedStore::new] on what the path holds: the boundaries are
    overwritten. *)
Definition store_new (db : gmap (list Z) (list Z)) (undos : gmap Z (list Z)) (num : nat)
    : VersionedStore :=
  {| db := db; undos := undos; boundaries := []; num_versions_to_store := num |}.

(** [get_last_lsn]: the last key of the undo space, [0] when it is empty. *)
Definition get_last_lsn (u : gmap Z (list Z)) : Z := foldr Z.max 0%Z (map_to_list u).*1.

(** What a transaction has written so far. *)
Record Tx := { tx_db : gmap (list Z) (list Z); tx_undos : gmap Z (list Z); tx_lsn : Z }.

(** The undo record of a key that had the value [old]. *)
Definition record_undo (v : T) (tx : Tx) (key_bytes old : list Z) : outcome Tx :=
  lsn ← checked 0 u32_max (tx_lsn tx + 1);
  bytes ← encode_undo {| undo_version := v; undo_key := key_bytes; undo_value := old |};
  Done (tx <| tx_lsn := lsn |> <| tx_undos ::= <[lsn := bytes]> |>).

(** One iteration of the loop over [to_remove]; reads see the committed
    data. *)
Definition remove_step (v : T) (committed : gmap (list Z) (list Z)) (tx : Tx) (key : K) : outcome Tx :=
  let key_bytes := ser_key cd key in
  match committed !! key_bytes with
  | Some old => record_undo v (tx <| tx_db ::= delete key_bytes |>) key_bytes old
  | None => Done tx
  end.

(** One iteration of the loop over [to_update]. *)
Definition update_step (v : T) (committed : gmap (list Z) (list Z)) (tx : Tx) (kv : K * V) : outcome Tx :=
  let key_bytes := ser_key cd kv.1 in
  tx ← match committed !! key_bytes with
       | Some old => record_undo v tx key_bytes old
       | None => Done tx
       end;
  Done (tx <| tx_db ::= <[key_bytes := ser_value cd kv.2]> |>).

(** The undo records [first ..= last] are deleted. *)
Definition delete_range (u : gmap Z (list Z)) (first last : Z) : gmap Z (list Z) :=
  filter (fun '(l, _) => ~ (first <= l <= last)%Z) u.

(** The oldest version is dropped when there are too many. *)
Definition prune (num : nat) (bs : list VersionIdBoundaries) (u : gmap Z (list Z))
    : list VersionIdBoundaries * gmap Z (list Z) :=
  if (length bs =? num + 1)%nat then
    match bs with
    | b :: bs => (bs, delete_range u (first_lsn b) (last_lsn b))
    | [] => (bs, u)
    end
  else (bs, u).

Definition update (s : VersionedStore) (v : T) (to_remove : list K) (to_update : list (K * V))
    : outcome VersionedStore :=
  match to_remove, to_update with
  | [], [] => Done s
  | _, _ =>
    let old_last_lsn := get_last_lsn (undos s) in
    tx ← foldO (remove_step v (db s)) to_remove
      {| tx_db := db s; tx_undos := undos s; tx_lsn := old_last_lsn |};
    tx ← foldO (update_step v (db s)) to_update tx;
    let '(bs, u) := prune (num_versions_to_store s) (boundaries s) (tx_undos tx) in
    let first := if (tx_lsn tx =? old_last_lsn)%Z then tx_lsn tx else (old_last_lsn + 1)%Z in
    Done (s <| db := tx_db tx |> <| undos := u |>
            <| boundaries := bs ++ [{| version_id := v; first_lsn := first; last_lsn := tx_lsn tx |}] |>)
  end.

Definition get (s : VersionedStore) (keys : list K) : outcome (list (K * option V)) :=
  mapO (fun key =>
    match db s !! ser_key cd key with
    | Some value_bytes => v ← unwrap (de_value cd value_bytes); Done (key, Some v)
    | None => Done (key, None)
    end) keys.

(** [iter.seek]: the least undo key from [lsn] on; past them come the
    boundaries, which do not parse as an undo key. *)
Definition seek (u : gmap Z (list Z)) (lsn : Z) : option Z :=
  let later := filter (fun l => lsn <= l)%Z (map_to_list u).*1 in
  match later with
  | [] => None
  | l :: r => Some (foldr Z.min l r)
  end.

(** [iter.prev]: the greatest undo key below [lsn]; before them come the
    data, or nothing. *)
Definition prev (u : gmap Z (list Z)) (lsn : Z) : option Z :=
  let earlier := filter (fun l => l < lsn)%Z (map_to_list u).*1 in
  match earlier with
  | [] => None
  | l :: r => Some (foldr Z.max l r)
  end.

(** The backwards loop from the record at [lsn]; reads see the committed undo
    records [u], so each record is visited at most once. *)
Fixpoint undo_loop (fuel : nat) (u : gmap Z (list Z)) (first lsn : Z) (tx : Tx) : outcome Tx :=
  match fuel with
  | 0 => NoFuel
  | S fuel =>
    bytes ← unwrap (u !! lsn);
    undo ← decode_undo bytes;
    let tx := tx <| tx_db ::= <[undo_key undo := undo_value undo]> |> <| tx_undos ::= delete lsn |> in
    if (lsn =? first)%Z then Done tx
    else match prev u lsn with
         | Some l => undo_loop fuel u first l tx
         | None => Panic
         end
  end.

Definition rollback_to (s : VersionedStore) (v : T) : outcome VersionedStore :=
  version_id_ix ← unwrap (fst <$> list_find (fun b => version_id b = v) (boundaries s));
  last_b ← unwrap (last (boundaries s));
  target ← unwrap (boundaries s !! version_id_ix);
  first ← checked 0 u32_max (last_lsn target + 1);
  start ← unwrap (seek (undos s) (last_lsn last_b));
  tx ← undo_loop (S (size (undos s))) (undos s) first start
    {| tx_db := db s; tx_undos := undos s; tx_lsn := 0 |};
  Done (s <| db := tx_db tx |> <| undos := tx_undos tx |>
          <| boundaries ::= take (version_id_ix + 1) |>).

(** ** Properties *)

Context (version_law : forall v, version_of_bytes cd (version_bytes cd v) = Some v).

Lemma decode_encode u b : encode_undo u = Done b -> decode_undo b = Done u.
Proof.
  unfold encode_undo. pose proof (version_law (undo_version u)) as Hvl.
  set (vb := version_bytes cd (undo_version u)) in *.
  destruct (_ && _) eqn:Hok; [|done]. intros [= <-].
  apply andb_true_iff in Hok as [[Hv%Nat.leb_le Hk%Nat.leb_le]%andb_true_iff Hval%Nat.ltb_lt].
  unfold decode_undo. cbn [lookup list_lookup unwrap mbind outcome_bind]. cbv zeta.
  cbn [length]. rewrite !length_app, !Nat2Z.id.
  rewrite (proj2 (Nat.ltb_ge _ _)), (proj2 (Nat.ltb_lt _ _)) by lia.
  cbn [drop]. replace (2 + length vb)%nat with (S (S (length vb))) by lia. cbn [drop].
  rewrite drop_0, take_app_length. rewrite Hvl. outcome_cbn.
  rewrite drop_app_length, take_app_length. cbn [drop plus].
  rewrite <- drop_drop, drop_app_length, drop_app_length. by destruct u.
Qed.

(** [replay u l n d]: the [n] records from [l] down, applied to [d]. *)
Fixpoint replay (u : gmap Z (list Z)) (l : Z) (n : nat) (d : gmap (list Z) (list Z))
    : option (gmap (list Z) (list Z)) :=
  match n with
  | 0 => Some d
  | S n =>
    bytes ← u !! l;
    match decode_undo bytes with
    | Done undo => replay u (l - 1) n (<[undo_key undo := undo_value undo]> d)
    | _ => None
    end
  end.

Lemma replay_ext u u' l n d :
  (forall i, l - Z.of_nat n < i <= l -> u' !! i = u !! i)%Z -> replay u' l n d = replay u l n d.
Proof.
  revert l d. induction n as [|n IH]; intros l d Hu; cbn; [done|]. rewrite Hu by lia.
  destruct (u !! l); cbn; [|done]. destruct (decode_undo _); [|done..]. apply IH. intros i Hi. apply Hu. lia.
Qed.

Lemma replay_app u l n m d :
  replay u l (n + m) d = replay u l n d ≫= replay u (l - Z.of_nat n) m.
Proof.
  revert l d. induction n as [|n IH]; intros l d; cbn [plus replay].
  - cbn. f_equal. lia.
  - destruct (u !! l); cbn; [|done]. destruct (decode_undo _); [|done..]. rewrite IH.
    destruct (replay u (l - 1) n _); cbn; [|done]. f_equal. lia.
Qed.

Lemma prev_pred u l : is_Some (u !! (l - 1)%Z) -> prev u l = Some (l - 1)%Z.
Proof.
  intros [b Hb]. unfold prev. set (e := filter _ _).
  assert (forall x, x ∈ e -> x <= l - 1)%Z as Hle.
  { intros x [Hx _]%list_elem_of_filter. lia. }
  assert ((l - 1)%Z ∈ e) as Hin.
  { apply list_elem_of_filter. split; [lia|]. apply list_elem_of_fmap. exists ((l - 1)%Z, b).
    split; [done|]. by apply elem_of_map_to_list. }
  clearbody e. destruct e as [|x r]; [by apply elem_of_nil in Hin|]. f_equal.
  apply Z.le_antisymm.
  - clear Hin. induction r as [|y r IH]; cbn; [apply Hle; set_solver|].
    apply Z.max_lub; [apply Hle; set_solver|]. apply IH. set_solver.
  - clear Hle. apply elem_of_cons in Hin as [->|Hin].
    + induction r as [|y r IH]; cbn [foldr]; lia.
    + clear Hb. induction Hin as [y r|y z r _ IH]; cbn [foldr]; lia.
Qed.

(** The loop of a rollback replays the records from [l] down to [l - n]. *)
Lemma undo_loop_replay u l n d d' fuel tx :
  replay u l (S n) d = Some d' -> n < fuel -> tx_db tx = d ->
  exists tx', undo_loop fuel u (l - Z.of_nat n) l tx = Done tx' /\ tx_db tx' = d' /\
    forall i, tx_undos tx' !! i = if bool_decide (l - Z.of_nat n <= i <= l)%Z then None else tx_undos tx !! i.
Proof.
  revert l d fuel tx. induction n as [|n IH]; intros l d fuel tx Hr Hfuel <-;
    (destruct fuel as [|fuel]; [lia|]); cbn [undo_loop replay] in *;
    (destruct (u !! l) as [b|] eqn:Hb; [|done]); cbn in Hr;
    (destruct (decode_undo b) as [undo| |] eqn:Hdec; [|done..]); outcome_cbn;
    rewrite Hdec; outcome_cbn.
  - rewrite (proj2 (Z.eqb_eq _ _)) by lia. eexists. split; [done|]. injection Hr as <-.
    split; [done|]. intros i. cbn. destruct (decide (i = l)) as [->|Hne].
    + rewrite bool_decide_true by lia. apply lookup_delete_eq.
    + rewrite bool_decide_false by lia. by apply lookup_delete_ne.
  - rewrite (proj2 (Z.eqb_neq _ _)) by lia.
    assert (is_Some (u !! (l - 1)%Z)) as Hp by (cbn in Hr; destruct (u !! (l - 1)%Z); [by eexists|done]).
    rewrite (prev_pred u l Hp).
    destruct (IH (l - 1)%Z (<[undo_key undo := undo_value undo]> (tx_db tx)) fuel
      (tx <| tx_db ::= <[undo_key undo := undo_value undo]> |> <| tx_undos ::= delete l |>))
      as (tx' & Htx & Hdb & Hu); [exact Hr|lia|done|].
    exists tx'. split_and!; [|done|].
    + replace (l - Z.of_nat (S n))%Z with (l - 1 - Z.of_nat n)%Z by lia. exact Htx.
    + intros i. rewrite Hu. cbn. destruct (decide (i = l)) as [->|Hne].
      * rewrite bool_decide_false, bool_decide_true by lia. apply lookup_delete_eq.
      * rewrite lookup_delete_ne by done. erewrite bool_decide_ext; [reflexivity|]. lia.
Qed.

Lemma replay_present u l n d d' i :
  replay u l n d = Some d' -> (l - Z.of_nat n < i <= l)%Z -> is_Some (u !! i).
Proof.
  revert l d. induction n as [|n IH]; intros l d Hr Hi; cbn in Hr; [lia|].
  destruct (u !! l) eqn:Hl; cbn in Hr; [|done]. destruct (decode_undo _); [|done..].
  destruct (decide (i = l)) as [->|]; [by eexists|]. eapply IH; [exact Hr|lia].
Qed.

Lemma replay_size u l n d d' : replay u l n d = Some d' -> n <= size u.
Proof.
  intros Hr. transitivity (length (seqZ (l - Z.of_nat n + 1) (Z.of_nat n))).
  { rewrite length_seqZ. lia. }
  rewrite <- length_map_to_list, <- (length_fmap fst). apply submseteq_length, NoDup_submseteq; [apply NoDup_seqZ|].
  intros i Hi%elem_of_seqZ. destruct (replay_present _ _ _ _ _ i Hr) as [b Hb]; [lia|].
  apply list_elem_of_fmap. exists (i, b). split; [done|]. by apply elem_of_map_to_list.
Qed.

(** [d'] is [d] with the keys [ks] as in [base]. *)
Definition restores (base : gmap (list Z) (list Z)) (ks : list (list Z)) (d d' : gmap (list Z) (list Z)) : Prop :=
  forall k, d' !! k = if bool_decide (k ∈ ks) then base !! k else d !! k.

(** A transaction that recorded the old values of [ks] after [old]. *)
Record recorded (base : gmap (list Z) (list Z)) (u : gmap Z (list Z)) (old : Z) (ks : list (list Z)) (tx : Tx)
    : Prop := {
  rec_lsn : tx_lsn tx = (old + Z.of_nat (length ks))%Z;
  rec_outside i : (i <= old \/ tx_lsn tx < i)%Z -> tx_undos tx !! i = u !! i;
  rec_replay d : exists d', replay (tx_undos tx) (tx_lsn tx) (length ks) d = Some d' /\ restores base ks d d';
}.

Lemma record_undo_recorded base u old ks tx v k val tx' :
  recorded base u old ks tx -> base !! k = Some val -> record_undo v tx k val = Done tx' ->
  recorded base u old (k :: ks) tx' /\ tx_db tx' = tx_db tx.
Proof.
  intros [Hl Ho Hr] Hk Hrec. unfold record_undo in Hrec. apply bind_Done in Hrec as (lsn & Hlsn & Hrec).
  apply bind_Done in Hrec as (b & Hb & [= <-]). apply checked_Done in Hlsn as [? ->]. split; [|done]. split; cbn [tx_lsn tx_undos length].
  - cbn. unfold const. lia.
  - cbn. unfold const. intros i Hi. rewrite lookup_insert_ne by lia. apply Ho. lia.
  - cbn. unfold const. intros d. cbn [replay]. rewrite lookup_insert_eq. cbn [mbind option_bind].
    rewrite (decode_encode _ _ Hb). cbn [undo_key undo_value].
    destruct (Hr (<[k := val]> d)) as (d' & Hd & Hres). exists d'. split.
    + replace (tx_lsn tx + 1 - 1)%Z with (tx_lsn tx) by lia. rewrite <- Hd. apply replay_ext.
      intros i Hi. apply lookup_insert_ne. lia.
    + intros k'. rewrite Hres. destruct (decide (k' ∈ ks)).
      * rewrite !bool_decide_true by set_solver. done.
      * rewrite (bool_decide_false (k' ∈ ks)) by done. destruct (decide (k' = k)) as [->|].
        -- rewrite bool_decide_true, lookup_insert_eq by set_solver. done.
        -- rewrite bool_decide_false, lookup_insert_ne by set_solver. done.
Qed.

Lemma remove_loop_recorded v base u old rem ks tx tx' :
  recorded base u old ks tx -> (forall k, k ∈ rem -> is_Some (base !! ser_key cd k)) ->
  foldO (remove_step v base) rem tx = Done tx' ->
  exists ks', recorded base u old ks' tx' /\ length ks' = length ks + length rem /\ ks ⊆ ks' /\
    forall k, k ∉ ks' -> tx_db tx' !! k = tx_db tx !! k.
Proof.
  revert ks tx. induction rem as [|k rem IH]; intros ks tx Hrec Hex Hf.
  { cbn in Hf. injection Hf as <-. exists ks. cbn. split_and!; auto. }
  cbn [foldO] in Hf. apply bind_Done in Hf as (tx1 & H1 & Hf). unfold remove_step in H1.
  destruct (Hex k) as [val Hval]; [left|]. rewrite Hval in H1.
  destruct (record_undo_recorded base u old ks (tx <| tx_db ::= delete (ser_key cd k) |>) v
    (ser_key cd k) val tx1) as [Hrec1 Hdb1]; [by destruct Hrec|done|done|].
  destruct (IH _ _ Hrec1 ltac:(set_solver) Hf) as (ks' & Hrec' & Hlen & Hsub & Hsame).
  exists ks'. split_and!; [done|cbn in *; lia|set_solver|].
  intros k' Hk'. rewrite Hsame, Hdb1 by done. cbn. apply lookup_delete_ne. set_solver.
Qed.

Lemma update_loop_recorded v base u old upd ks tx tx' :
  recorded base u old ks tx -> (forall kv, kv ∈ upd -> is_Some (base !! ser_key cd kv.1)) ->
  foldO (update_step v base) upd tx = Done tx' ->
  exists ks', recorded base u old ks' tx' /\ length ks' = length ks + length upd /\ ks ⊆ ks' /\
    forall k, k ∉ ks' -> tx_db tx' !! k = tx_db tx !! k.
Proof.
  revert ks tx. induction upd as [|[k x] upd IH]; intros ks tx Hrec Hex Hf.
  { cbn in Hf. injection Hf as <-. exists ks. cbn. split_and!; auto. }
  cbn [foldO] in Hf. apply bind_Done in Hf as (tx1 & H1 & Hf). unfold update_step in H1. cbn in H1.
  destruct (Hex (k, x)) as [val Hval]; [left|]. cbn in Hval. rewrite Hval in H1.
  apply bind_Done in H1 as (tx0 & H0 & [= <-]).
  destruct (record_undo_recorded base u old ks tx v (ser_key cd k) val tx0) as [Hrec1 Hdb1]; [done..|].
  destruct (IH (ser_key cd k :: ks) (tx0 <| tx_db ::= <[ser_key cd k := ser_value cd x]> |>))
    as (ks' & Hrec' & Hlen & Hsub & Hsame); [by destruct Hrec1|set_solver|done|].
  exists ks'. split_and!; [done|cbn in *; lia|set_solver|].
  intros k' Hk'. rewrite Hsame by done. cbn. rewrite lookup_insert_ne by set_solver. by rewrite Hdb1.
Qed.

(** Both loops: the recorded keys [ks] restore the committed data. *)
Lemma update_tx_restores v base u old rem upd tx1 tx :
  (forall k, k ∈ rem -> is_Some (base !! ser_key cd k)) ->
  (forall kv, kv ∈ upd -> is_Some (base !! ser_key cd kv.1)) ->
  foldO (remove_step v base) rem {| tx_db := base; tx_undos := u; tx_lsn := old |} = Done tx1 ->
  foldO (update_step v base) upd tx1 = Done tx ->
  tx_lsn tx = (old + Z.of_nat (length rem + length upd))%Z /\
  (forall i, (i <= old \/ tx_lsn tx < i)%Z -> tx_undos tx !! i = u !! i) /\
  replay (tx_undos tx) (tx_lsn tx) (length rem + length upd) (tx_db tx) = Some base.
Proof.
  intros Hrem Hupd H1 H2.
  assert (recorded base u old [] {| tx_db := base; tx_undos := u; tx_lsn := old |}) as Hrec.
  { split; cbn; [lia|done|]. intros d. exists d. split; [done|]. by intros k. }
  destruct (remove_loop_recorded v base u old rem [] _ _ Hrec Hrem H1) as (ks1 & Hrec1 & Hlen1 & _ & Hs1).
  destruct (update_loop_recorded v base u old upd ks1 tx1 tx Hrec1 Hupd H2)
    as (ks & [Hl Ho Hr] & Hlen & Hsub & Hs).
  cbn in Hlen1. rewrite Hlen1 in Hlen. rewrite Hlen in Hl, Hr. split_and!; [exact Hl|exact Ho|].
  destruct (Hr (tx_db tx)) as (d' & Hd & Hres). rewrite Hd. f_equal. apply map_eq. intros k. rewrite Hres.
  case_bool_decide as Hk; [done|]. rewrite Hs by done. rewrite Hs1 by set_solver. done.
Qed.

(** ** The last serial number *)

Lemma get_last_lsn_bound u i : is_Some (u !! i) -> (i <= get_last_lsn u)%Z.
Proof.
  intros [b Hb]. unfold get_last_lsn.
  assert (i ∈ (map_to_list u).*1) as Hin.
  { apply list_elem_of_fmap. exists (i, b). split; [done|]. by apply elem_of_map_to_list. }
  clear Hb. induction Hin as [y r|y z r _ IH]; cbn [foldr]; lia.
Qed.

Lemma get_last_lsn_present u : get_last_lsn u = 0%Z \/ is_Some (u !! get_last_lsn u).
Proof.
  unfold get_last_lsn. assert (forall i, i ∈ (map_to_list u).*1 -> is_Some (u !! i)) as Hin.
  { intros i ([j b] & -> & Hj%elem_of_map_to_list)%list_elem_of_fmap. by eexists. }
  induction (map_to_list u).*1 as [|y r IH]; cbn [foldr]; [by left|].
  destruct (Z.max_spec y (foldr Z.max 0%Z r)) as [[_ ->]|[_ ->]]; [apply IH; set_solver|right; apply Hin; set_solver].
Qed.

Lemma get_last_lsn_nonneg u : (0 <= get_last_lsn u)%Z.
Proof. unfold get_last_lsn. induction (map_to_list u).*1 as [|y r IH]; cbn [foldr]; lia. Qed.

Lemma get_last_lsn_unique u m :
  (0 <= m)%Z -> (forall i, is_Some (u !! i) -> (i <= m)%Z) -> m = 0%Z \/ is_Some (u !! m) -> get_last_lsn u = m.
Proof.
  intros Hm Hle Hp. pose proof (get_last_lsn_nonneg u). destruct Hp as [->|Hp].
  - destruct (get_last_lsn_present u) as [|Hs]; [done|]. apply Hle in Hs. lia.
  - apply get_last_lsn_bound in Hp as Hb. destruct (get_last_lsn_present u) as [|Hs]; [lia|]. apply Hle in Hs. lia.
Qed.

Lemma seek_present u l : is_Some (u !! l) -> seek u l = Some l.
Proof.
  intros [b Hb]. unfold seek. set (e := filter _ _).
  assert (forall x, x ∈ e -> l <= x)%Z as Hle by (by intros x [Hx _]%list_elem_of_filter).
  assert (l ∈ e) as Hin.
  { apply list_elem_of_filter. split; [lia|]. apply list_elem_of_fmap. exists (l, b).
    split; [done|]. by apply elem_of_map_to_list. }
  clearbody e. clear Hb. destruct e as [|x r]; [by apply elem_of_nil in Hin|]. f_equal.
  apply Z.le_antisymm.
  - clear Hle. apply elem_of_cons in Hin as [->|Hin].
    + induction r as [|y r IH]; cbn [foldr]; lia.
    + induction Hin as [y r|y z r _ IH]; cbn [foldr]; lia.
  - clear Hin. induction r as [|y r IH]; cbn [foldr]; [apply Hle; set_solver|].
    apply Z.min_glb; [apply Hle; set_solver|]. apply IH. set_solver.
Qed.

(** Serial numbers stay within [u32]. *)
Lemma record_undo_u32 v tx k old tx' : record_undo v tx k old = Done tx' -> (tx_lsn tx' <= u32_max)%Z.
Proof.
  intros H. apply bind_Done in H as (lsn & Hlsn & H). apply bind_Done in H as (b & _ & [= <-]).
  apply checked_Done in Hlsn as [? ->]. cbn. unfold const. lia.
Qed.

Lemma update_tx_u32 v base rem upd tx0 tx1 tx :
  (tx_lsn tx0 <= u32_max)%Z -> foldO (remove_step v base) rem tx0 = Done tx1 ->
  foldO (update_step v base) upd tx1 = Done tx -> (tx_lsn tx <= u32_max)%Z.
Proof.
  intros H0 H1 H2. pose (P t := (tx_lsn t <= u32_max)%Z). change (P tx).
  eapply (foldO_inv P); [|eapply (foldO_inv P); [|exact H0|exact H1]|exact H2].
  - intros t kv t' _ Ht Hs. apply bind_Done in Hs as (t1 & Hs & [= <-]). unfold P. cbn.
    destruct (base !! _); [by eapply record_undo_u32|by injection Hs as <-].
  - intros t k t' _ Ht Hs. unfold remove_step in Hs.
    destruct (base !! _); [by eapply record_undo_u32|by injection Hs as <-].
Qed.

(** ** Refinement of a list of snapshots *)

Abbreviation data := (gmap (list Z) (list Z)).

(** The snapshots kept once one more version comes. *)
Definition retained (num : nat) (hist : list (T * data)) : list (T * data) :=
  if (length hist =? num + 1)%nat then tail hist else hist.

(** Two consecutive versions: the records between their boundaries turn the
    data of the later one into the data of the earlier one. *)
Definition linked (u : gmap Z (list Z)) (b b' : VersionIdBoundaries) (d d' : data) : Prop :=
  (last_lsn b < last_lsn b')%Z /\
  replay u (last_lsn b') (Z.to_nat (last_lsn b' - last_lsn b)) d' = Some d.

(** The boundaries [bs] and the records [u] hold the snapshots [hist]. *)
Record chain (u : gmap Z (list Z)) (bs : list VersionIdBoundaries) (hist : list (T * data)) : Prop := {
  ch_versions : map version_id bs = hist.*1;
  ch_nodup : NoDup hist.*1;
  ch_present b : b ∈ bs -> (0 <= last_lsn b)%Z /\ (last_lsn b = 0%Z \/ is_Some (u !! last_lsn b));
  ch_linked i b b' p p' :
    bs !! i = Some b -> bs !! S i = Some b' -> hist !! i = Some p -> hist !! S i = Some p' ->
    linked u b b' p.2 p'.2;
}.

(** The store holds the snapshots [hist], the newest last. *)
Record refines (s : VersionedStore) (hist : list (T * data)) : Prop := {
  rf_chain : chain (undos s) (boundaries s) hist;
  rf_current : snd <$> last hist = Some (db s);
  rf_lsn : last_lsn <$> last (boundaries s) = Some (get_last_lsn (undos s));
  rf_u32 : (get_last_lsn (undos s) <= u32_max)%Z;
}.

Lemma chain_length u bs hist : chain u bs hist -> length bs = length hist.
Proof. intros R. pose proof (f_equal length (ch_versions _ _ _ R)) as H. by rewrite length_map, length_fmap in H. Qed.

(** The records from version [i + n] down to version [i]. *)
Lemma chain_replay u bs hist i n b bn p pn :
  chain u bs hist -> bs !! i = Some b -> bs !! (i + n) = Some bn ->
  hist !! i = Some p -> hist !! (i + n) = Some pn ->
  (Z.of_nat n <= last_lsn bn - last_lsn b)%Z /\
  replay u (last_lsn bn) (Z.to_nat (last_lsn bn - last_lsn b)) pn.2 = Some p.2.
Proof.
  intros R. revert i b p. induction n as [|n IH]; intros i b p Hb Hbn Hp Hpn.
  { rewrite Nat.add_0_r in *. rewrite Hb in Hbn. rewrite Hp in Hpn. injection Hbn as ->. injection Hpn as ->.
    rewrite Z.sub_diag. split; [lia|done]. }
  pose proof (chain_length _ _ _ R) as Hlen. pose proof (lookup_lt_Some _ _ _ Hbn) as Hlt.
  destruct (lookup_lt_is_Some_2 bs (S i)) as [b' Hb']; [lia|].
  destruct (lookup_lt_is_Some_2 hist (S i)) as [p' Hp']; [lia|].
  destruct (IH (S i) b' p') as [Hd Hr]; [done|by rewrite Nat.add_succ_comm|done|by rewrite Nat.add_succ_comm|].
  destruct (ch_linked _ _ _ R i b b' p p') as [Hlt' Hl]; [done..|].
  split; [lia|].
  replace (Z.to_nat (last_lsn bn - last_lsn b))
    with (Z.to_nat (last_lsn bn - last_lsn b') + Z.to_nat (last_lsn b' - last_lsn b))%nat by lia.
  rewrite replay_app, Hr. cbn. rewrite <- Hl. f_equal. lia.
Qed.

Lemma chain_lt u bs hist i j b b' :
  chain u bs hist -> bs !! i = Some b -> bs !! j = Some b' -> i < j -> (last_lsn b < last_lsn b')%Z.
Proof.
  intros R Hb Hb' Hij. pose proof (chain_length _ _ _ R) as Hlen.
  pose proof (lookup_lt_Some _ _ _ Hb') as Hlt.
  destruct (lookup_lt_is_Some_2 hist i) as [p Hp]; [lia|].
  destruct (lookup_lt_is_Some_2 hist j) as [p' Hp']; [lia|].
  replace j with (i + (j - i)) in * by lia.
  destruct (chain_replay u bs hist i (j - i) b b' p p') as [H _]; [done..|]. lia.
Qed.

Lemma linked_ext u u' b b' d d' :
  (forall i, last_lsn b < i <= last_lsn b' -> u' !! i = u !! i)%Z -> linked u b b' d d' -> linked u' b b' d d'.
Proof.
  intros Hu [Hlt Hr]. split; [done|]. rewrite <- Hr. apply replay_ext. intros i Hi. apply Hu. lia.
Qed.

(** Records outside the chain may change. *)
Lemma chain_ext u u' bs hist :
  (forall b i, b ∈ bs -> i <= last_lsn b -> u' !! i = u !! i)%Z -> chain u bs hist -> chain u' bs hist.
Proof.
  intros Hu [Hv Hn Hp Hl]. split; [done|done| |].
  - intros b Hb. rewrite (Hu b) by (done || lia). auto.
  - intros i b b' p p' Hb Hb' Hp1 Hp2. eapply linked_ext; [|by eapply Hl].
    intros j Hj. apply (Hu b'); [|lia]. by eapply list_elem_of_lookup_2.
Qed.

(** Dropping the oldest version deletes only its own records. *)
Lemma chain_tail u b bs p hist :
  chain u (b :: bs) (p :: hist) -> chain (delete_range u (first_lsn b) (last_lsn b)) bs hist.
Proof.
  intros R. assert (forall i, last_lsn b < i -> delete_range u (first_lsn b) (last_lsn b) !! i = u !! i)%Z as Hu.
  { intros i Hi. unfold delete_range. rewrite map_lookup_filter. destruct (u !! i); cbn; [|done].
    rewrite option_guard_True by lia. done. }
  assert (forall b', b' ∈ bs -> last_lsn b < last_lsn b')%Z as Hlt.
  { intros b' [j Hj]%list_elem_of_lookup. by eapply (chain_lt _ _ _ 0 (S j)); eauto with lia. }
  destruct R as [Hv Hn Hp Hl]. split.
  - by injection Hv.
  - by apply NoDup_cons in Hn as [_ Hn].
  - intros b' Hb'. rewrite Hu by auto. apply Hp. by right.
  - intros i b1 b2 p1 p2 Hb1 Hb2 Hp1 Hp2. eapply linked_ext; [|by eapply (Hl (S i))].
    intros j Hj. apply Hu. assert (last_lsn b < last_lsn b1)%Z; [|lia].
    apply Hlt. by eapply list_elem_of_lookup_2.
Qed.

Lemma chain_snoc u bs hist b d :
  chain u bs hist -> version_id b ∉ hist.*1 ->
  (0 <= last_lsn b)%Z -> (last_lsn b = 0%Z \/ is_Some (u !! last_lsn b)) ->
  (forall b0 p0, last bs = Some b0 -> last hist = Some p0 -> linked u b0 b p0.2 d) ->
  chain u (bs ++ [b]) (hist ++ [(version_id b, d)]).
Proof.
  intros R Hv Hb0 Hb Hlink. pose proof (chain_length _ _ _ R) as Hlen. destruct R as [Hvs Hn Hp Hl]. split.
  - by rewrite map_app, fmap_app, Hvs.
  - rewrite fmap_app. apply NoDup_app. split_and!; [done| |apply NoDup_singleton]. cbn. set_solver.
  - intros b' [Hb'| ->%list_elem_of_singleton]%elem_of_app; auto.
  - intros i b1 b2 p1 p2 Hb1 Hb2 Hp1 Hp2.
    pose proof (lookup_lt_Some _ _ _ Hb2) as Hlt. rewrite length_app in Hlt. cbn in Hlt.
    rewrite lookup_app_l in Hb1 by lia. rewrite lookup_app_l in Hp1 by lia. destruct (decide (S i = length bs)) as [Hi|Hi].
    + rewrite Hi, lookup_app_r, Nat.sub_diag in Hb2 by lia.
      rewrite Hi, Hlen, lookup_app_r, Nat.sub_diag in Hp2 by lia.
      injection Hb2 as <-. injection Hp2 as <-. apply Hlink; rewrite last_lookup.
      * by rewrite <- Hi.
      * by rewrite <- Hlen, <- Hi.
    + rewrite lookup_app_l in Hb2 by lia. rewrite lookup_app_l in Hp2 by lia. by eapply Hl.
Qed.

Lemma chain_take u bs hist n : chain u bs hist -> chain u (take n bs) (take n hist).
Proof.
  intros [Hv Hn Hp Hl]. split.
  - rewrite <- firstn_map, Hv. symmetry. apply fmap_take.
  - rewrite fmap_take. eapply sublist_NoDup; [exact Hn|apply sublist_take].
  - intros b [i [Hb _]%lookup_take_Some]%list_elem_of_lookup. apply Hp. by eapply list_elem_of_lookup_2.
  - intros i b b' p p' [Hb _]%lookup_take_Some [Hb' _]%lookup_take_Some [Hp1 _]%lookup_take_Some
      [Hp2 _]%lookup_take_Some. by eapply Hl.
Qed.

(** Every key an update names exists. *)
Definition touches_existing (s : VersionedStore) (rem : list K) (upd : list (K * V)) : Prop :=
  (forall k, k ∈ rem -> is_Some (db s !! ser_key cd k)) /\
  (forall kv, kv ∈ upd -> is_Some (db s !! ser_key cd kv.1)).

Lemma update_unfold s v rem upd s' :
  length rem + length upd <> 0 -> update s v rem upd = Done s' ->
  exists tx1 tx, let old := get_last_lsn (undos s) in
    let b := {| version_id := v; first_lsn := if (tx_lsn tx =? old)%Z then tx_lsn tx else (old + 1)%Z;
                last_lsn := tx_lsn tx |} in
    let '(bs, u) := prune (num_versions_to_store s) (boundaries s) (tx_undos tx) in
    foldO (remove_step v (db s)) rem {| tx_db := db s; tx_undos := undos s; tx_lsn := old |} = Done tx1 /\
    foldO (update_step v (db s)) upd tx1 = Done tx /\
    db s' = tx_db tx /\ undos s' = u /\ boundaries s' = bs ++ [b] /\
    num_versions_to_store s' = num_versions_to_store s.
Proof.
  intros Hne. unfold update.
  set (tx0 := {| tx_db := _; tx_undos := _; tx_lsn := _ |}).
  assert (forall A (a c : A), match rem, upd with [], [] => a | _, _ => c end = c) as ->.
  { intros A a c. by destruct rem, upd. }
  intros Hs. apply bind_Done in Hs as (tx1 & H1 & Hs). apply bind_Done in Hs as (tx & H2 & Hs).
  exists tx1, tx. cbv zeta. destruct (prune _ _ _) as [bs u]. injection Hs as <-. by split_and!.
Qed.

Lemma prune_snoc num u bs b hist d :
  chain u (bs ++ [b]) (hist ++ [(version_id b, d)]) ->
  let '(bs', u') := prune num bs u in
  chain u' (bs' ++ [b]) (retained num hist ++ [(version_id b, d)]) /\
  forall i, (i > last_lsn b \/ i = last_lsn b)%Z -> u' !! i = u !! i.
Proof.
  intros R. pose proof (chain_length _ _ _ R) as Hlen. rewrite !length_app in Hlen. cbn in Hlen.
  unfold prune, retained. replace (length hist) with (length bs) by lia.
  destruct (_ =? _) eqn:Heq; [|done]. apply Nat.eqb_eq in Heq.
  destruct bs as [|b0 bs], hist as [|p0 hist]; cbn in Hlen, Heq; try lia. cbn [app tail] in *.
  split; [by eapply chain_tail|]. intros i Hi. unfold delete_range. rewrite map_lookup_filter.
  destruct (u !! i); cbn; [|done]. rewrite option_guard_True; [done|].
  assert (last_lsn b0 < last_lsn b)%Z; [|lia].
  eapply (chain_lt _ _ _ 0 (S (length bs))); [exact R|done| |lia].
  change ((bs ++ [b]) !! length bs = Some b). by rewrite lookup_app_r, Nat.sub_diag by lia.
Qed.

Lemma chain_le_last u bs hist b m :
  chain u bs hist -> last_lsn <$> last bs = Some m -> b ∈ bs -> (last_lsn b <= m)%Z.
Proof.
  intros R Hl [i Hi]%list_elem_of_lookup. rewrite last_lookup in Hl.
  destruct (bs !! pred (length bs)) as [bl|] eqn:Hbl; [|done]. injection Hl as <-.
  pose proof (lookup_lt_Some _ _ _ Hi). destruct (decide (i = pred (length bs))) as [->|]; [naive_solver lia|].
  assert (last_lsn b < last_lsn bl)%Z; [|lia]. eapply chain_lt; [done..|lia].
Qed.

Lemma update_refines s hist v rem upd s' :
  refines s hist -> touches_existing s rem upd -> length rem + length upd <> 0 -> v ∉ hist.*1 ->
  update s v rem upd = Done s' ->
  refines s' (retained (num_versions_to_store s) hist ++ [(v, db s')]).
Proof.
  intros [R Hcur Hlsn Hmax] [Hrem Hupd] Hne Hv Hs.
  apply update_unfold in Hs as (tx1 & tx & Hs); [|done]. cbv zeta in Hs.
  set (old := get_last_lsn (undos s)) in *. set (b := {| version_id := v |}) in *.
  destruct (prune _ _ _) as [bs u] eqn:Hprune. destruct Hs as (H1 & H2 & Hdb & Hu & Hbs & _).
  destruct (update_tx_restores v (db s) (undos s) old rem upd tx1 tx) as (Hl & Ho & Hr); [done..|].
  assert (chain (tx_undos tx) (boundaries s ++ [b]) (hist ++ [(version_id b, tx_db tx)])) as R'.
  { apply chain_snoc; [|done| | |].
    - eapply chain_ext; [|exact R]. intros b' i Hb' Hi. apply Ho.
      pose proof (chain_le_last _ _ _ _ _ R Hlsn Hb'). lia.
    - cbn. pose proof (get_last_lsn_nonneg (undos s)). lia.
    - right. cbn. eapply replay_present; [exact Hr|lia].
    - intros b0 p0 Hb0 Hp0. rewrite Hb0 in Hlsn. rewrite Hp0 in Hcur. injection Hlsn as Hlsn.
      injection Hcur as Hcur. split; cbn; rewrite Hlsn; [lia|]. rewrite Hcur, <- Hr. f_equal. lia. }
  apply (prune_snoc (num_versions_to_store s)) in R'. rewrite Hprune in R'. destruct R' as [R' Hsame].
  assert (get_last_lsn u = tx_lsn tx) as Hlast.
  { apply get_last_lsn_unique; [pose proof (get_last_lsn_nonneg (undos s)); lia| |].
    - intros i Hi. destruct (decide (i <= tx_lsn tx)%Z); [done|]. exfalso.
      rewrite Hsame, Ho in Hi by (cbn; lia). apply get_last_lsn_bound in Hi. lia.
    - right. rewrite Hsame by (cbn; lia). eapply replay_present; [exact Hr|lia]. }
  split; rewrite ?Hdb, ?Hu, ?Hbs, ?last_snoc; [exact R'|done|cbn; by rewrite Hlast|].
  rewrite Hlast. by eapply update_tx_u32; [|exact H1|exact H2].
Qed.

(** The first version of an empty store writes no undo records. *)
Lemma first_update_refines num v rem upd s' :
  length rem + length upd <> 0 -> update (store_new ∅ ∅ num) v rem upd = Done s' ->
  refines s' [(v, db s')] /\ num_versions_to_store s' = num.
Proof.
  intros Hne Hs. apply update_unfold in Hs as (tx1 & tx & Hs); [|done]. cbv zeta in Hs.
  cbn [store_new boundaries undos db num_versions_to_store] in Hs.
  pose (P t := tx_lsn t = 0%Z /\ tx_undos t = ∅).
  unfold prune in Hs. rewrite (proj2 (Nat.eqb_neq _ _)) in Hs by (cbn; lia).
  destruct Hs as (H1 & H2 & Hdb & Hu & Hbs & Hnum).
  assert (P tx) as [Hl Ht].
  { eapply (foldO_inv P); [|eapply (foldO_inv P); [| |exact H1]|exact H2]; [..|done].
    - intros t kv t' _ Hp Hst. unfold update_step in Hst. rewrite lookup_empty in Hst. by injection Hst as <-.
    - intros t k t' _ Hp Hst. unfold remove_step in Hst. rewrite lookup_empty in Hst. by injection Hst as <-. }
  split; [|done]. rewrite Hl in Hbs. rewrite Ht in Hu. split; rewrite ?Hu, ?Hbs; [|done..]. split; cbn.
  - done.
  - apply NoDup_singleton.
  - intros b ->%list_elem_of_singleton. cbn. split; [lia|by left].
  - intros i b b' p p' _ Hb'. by destruct i.
Qed.

Lemma chain_find u bs hist i v d b :
  chain u bs hist -> hist !! i = Some (v, d) -> bs !! i = Some b ->
  list_find (fun b => version_id b = v) bs = Some (i, b).
Proof.
  intros R Hi Hb. pose proof (ch_versions _ _ _ R) as Hv.
  assert (forall j b', bs !! j = Some b' -> hist.*1 !! j = Some (version_id b')) as Hat.
  { intros j b' Hj. rewrite <- Hv. apply list_lookup_fmap_Some. by exists b'. }
  assert (hist.*1 !! i = Some v) as Hiv by (rewrite list_lookup_fmap, Hi; done).
  apply list_find_Some. split_and!; [done| |].
  - apply Hat in Hb. congruence.
  - intros j y Hj Hlt <-. apply Hat in Hj.
    pose proof (NoDup_lookup _ _ _ _ (ch_nodup _ _ _ R) Hiv Hj). lia.
Qed.

(** Keeping the versions up to [i] and their records. *)
Lemma truncate_refines s hist i v d b s' :
  refines s hist -> hist !! i = Some (v, d) -> boundaries s !! i = Some b ->
  (forall j, undos s' !! j = if bool_decide (j <= last_lsn b)%Z then undos s !! j else None) ->
  db s' = d -> boundaries s' = take (S i) (boundaries s) -> refines s' (take (S i) hist).
Proof.
  intros [R Hcur Hlsn Hmax] Hi Hb Hu Hdb Hbs.
  pose proof (take_S_r _ _ _ Hi) as Hth. pose proof (take_S_r _ _ _ Hb) as Htb.
  assert (last_lsn <$> last (take (S i) (boundaries s)) = Some (last_lsn b)) as Hl by by rewrite Htb, last_snoc.
  assert (b ∈ boundaries s) as Hin by by eapply list_elem_of_lookup_2.
  destruct (ch_present _ _ _ R b Hin) as [Hb0 Hbp].
  pose proof (chain_le_last _ _ _ _ _ R Hlsn Hin) as Hle.
  assert (get_last_lsn (undos s') = last_lsn b) as Hlast.
  { apply get_last_lsn_unique; [done| |].
    - intros j. rewrite Hu. case_bool_decide; [done|]. by intros [? ?].
    - by rewrite Hu, bool_decide_true by lia. }
  split; rewrite ?Hbs, ?Hlast; [| |done|lia].
  - eapply chain_ext; [|by apply chain_take]. intros b' j Hb' Hj. rewrite Hu, bool_decide_true; [done|].
    pose proof (chain_le_last _ _ _ _ _ (chain_take _ _ _ (S i) R) Hl Hb'). lia.
  - by rewrite Hth, last_snoc, Hdb.
Qed.

(** The records from the newest version down to version [i], and the way the
    loop starts. *)
Lemma refines_undo s hist i v d :
  refines s hist -> hist !! i = Some (v, d) -> S i < length hist ->
  exists b bl N, boundaries s !! i = Some b /\ last (boundaries s) = Some bl /\
    last_lsn b = (last_lsn bl - Z.of_nat (S N))%Z /\ last_lsn bl = get_last_lsn (undos s) /\
    replay (undos s) (last_lsn bl) (S N) (db s) = Some d.
Proof.
  intros [R Hcur Hlsn Hmax] Hi Hlt. pose proof (chain_length _ _ _ R) as Hlen.
  destruct (lookup_lt_is_Some_2 (boundaries s) i) as [b Hb]; [lia|].
  destruct (last (boundaries s)) as [bl|] eqn:Hbl; [|done]. injection Hlsn as Hlsn.
  destruct (last hist) as [pl|] eqn:Hpl; [|done]. injection Hcur as Hcur.
  rewrite last_lookup, Hlen in Hbl. rewrite last_lookup in Hpl.
  set (n := pred (length hist) - i).
  replace (pred (length hist)) with (i + n) in Hbl by lia.
  replace (pred (length hist)) with (i + n) in Hpl by lia.
  destruct (chain_replay _ _ _ i n b bl (v, d) pl R) as [Hn Hr]; [done..|]. cbn in Hr. rewrite Hcur in Hr.
  exists b, bl, (pred (Z.to_nat (last_lsn bl - last_lsn b))). split_and!; [done..|lia|done|].
  by replace (S (pred _)) with (Z.to_nat (last_lsn bl - last_lsn b)) by lia.
Qed.

Lemma rollback_refines s hist i v d :
  refines s hist -> hist !! i = Some (v, d) -> S i < length hist ->
  exists s', rollback_to s v = Done s' /\ db s' = d /\ refines s' (take (S i) hist) /\
    num_versions_to_store s' = num_versions_to_store s.
Proof.
  intros Href Hi Hlt. pose proof (rf_chain _ _ Href) as R.
  destruct (refines_undo s hist i v d) as (b & bl & N & Hb & Hbl & HN & Htop & Hr); [done..|].
  destruct (ch_present _ _ _ R b) as [Hb0 _]; [by eapply list_elem_of_lookup_2|].
  pose proof (rf_u32 _ _ Href). pose proof (replay_size _ _ _ _ _ Hr) as Hsize.
  destruct (undo_loop_replay (undos s) (last_lsn bl) N (db s) d (S (size (undos s)))
    {| tx_db := db s; tx_undos := undos s; tx_lsn := 0 |}) as (tx & Hloop & Hdb & Hu); [done|lia|done|].
  exists (s <| db := tx_db tx |> <| undos := tx_undos tx |> <| boundaries ::= take (i + 1) |>). split_and!.
  - unfold rollback_to. rewrite (chain_find _ _ _ _ _ _ _ R Hi Hb), Hbl.
    cbn [unwrap mbind outcome_bind fmap option_fmap option_map fst]. rewrite Hb. outcome_cbn.
    rewrite checked_in by lia. outcome_cbn.
    rewrite seek_present by (eapply replay_present; [exact Hr|lia]). outcome_cbn.
    replace (last_lsn b + 1)%Z with (last_lsn bl - Z.of_nat N)%Z by lia. by rewrite Hloop.
  - exact Hdb.
  - eapply truncate_refines; [done..| |exact Hdb|cbn; by rewrite Nat.add_1_r].
    intros j. cbn. unfold const. rewrite Hu. cbn. destruct (decide (j <= last_lsn b)%Z).
    + by rewrite bool_decide_false, bool_decide_true by lia.
    + rewrite (bool_decide_false (j <= _)%Z) by done. case_bool_decide; [done|].
      apply eq_None_not_Some. intros Hs%get_last_lsn_bound. lia.
  - done.
Qed.

(** ** Runs of the store *)

(** The states reached from an empty store by updates of existing keys, after
    a first one that writes the keys, and by rollbacks; with the snapshots the
    store promises to keep. *)
Inductive store_run (num : nat) : VersionedStore -> list (T * data) -> Prop :=
  | run_first v rem upd s :
      length rem + length upd <> 0 -> update (store_new ∅ ∅ num) v rem upd = Done s ->
      store_run num s [(v, db s)]
  | run_update s hist v rem upd s' :
      store_run num s hist -> touches_existing s rem upd -> length rem + length upd <> 0 -> v ∉ hist.*1 ->
      update s v rem upd = Done s' ->
      store_run num s' (retained num hist ++ [(v, db s')])
  | run_rollback s hist i v d s' :
      store_run num s hist -> hist !! i = Some (v, d) -> S i < length hist ->
      rollback_to s v = Done s' ->
      store_run num s' (take (S i) hist).

Lemma store_run_refines num s hist :
  store_run num s hist -> refines s hist /\ num_versions_to_store s = num.
Proof.
  induction 1 as [v rem upd s Hne Hs|s hist v rem upd s' _ [R Hnum] Ht Hne Hv Hs|s hist i v d s' _ [R Hnum] Hi Hlt Hs].
  - by eapply first_update_refines.
  - split; [rewrite <- Hnum; by eapply update_refines|].
    apply update_unfold in Hs as (tx1 & tx & Hs); [|done]. cbv zeta in Hs. destruct (prune _ _ _). naive_solver.
  - destruct (rollback_refines s hist i v d) as (s1 & Hs1 & _ & R1 & Hnum1); [done..|].
    rewrite Hs in Hs1. injection Hs1 as ->. split; [done|congruence].
Qed.

Lemma store_run_length num s hist : store_run num s hist -> length hist <= num + 1.
Proof.
  induction 1 as [|s hist v rem upd s' _ IH _ _ _ _|s hist i v d s' _ IH _ _ _]; cbn; [lia| |].
  - rewrite length_app. cbn. unfold retained. destruct (_ =? _) eqn:E; [apply Nat.eqb_eq in E|apply Nat.eqb_neq in E; lia].
    destruct hist; cbn in *; lia.
  - rewrite length_take. lia.
Qed.

(** C3: in every reachable state of the store, rolling back to a retained
    version other than the newest returns (no panic, within the fuel of one
    step per undo record), restores exactly the data as it was when that
    version was written and forgets the later versions; and at most
    [num + 1] versions are retained. *)
Theorem rollback_restores num s hist i v d :
  store_run num s hist -> hist !! i = Some (v, d) -> S i < length hist ->
  exists s', rollback_to s v = Done s' /\ db s' = d /\
    map version_id (boundaries s') = (take (S i) hist).*1 /\ length hist <= num + 1.
Proof.
  intros Hrun Hi Hlt. destruct (store_run_refines _ _ _ Hrun) as [R _].
  destruct (rollback_refines s hist i v d) as (s' & Hs & Hd & R' & _); [done..|].
  exists s'. split_and!; [done..| |by eapply store_run_length]. exact (ch_versions _ _ _ (rf_chain _ _ R')).
Qed.

(** An undo record that encodes decodes to itself; encoding fails exactly
    on version ids or keys of more than 255 bytes and on empty values. *)
Theorem undo_roundtrip u :
  match encode_undo u with
  | Done bytes => decode_undo bytes = Done u
  | o => o = Panic /\
      (255 < length (version_bytes cd (undo_version u)) \/ 255 < length (undo_key u) \/ undo_value u = [])
  end.
Proof.
  destruct (encode_undo u) as [b| |] eqn:He; [by apply decode_encode|split; [done|]|];
    unfold encode_undo in He; destruct (_ && _) eqn:Hok; try discriminate He.
  apply andb_false_iff in Hok as [[H|H]%andb_false_iff|H];
    [apply Nat.leb_gt in H; auto..|apply Nat.ltb_ge in H].
  right; right. by destruct (undo_value u); [|cbn in H; lia].
Qed.

(** *** Rolling back to the newest version *)

Lemma prev_spec u l l' : prev u l = Some l' -> (l' < l)%Z.
Proof.
  unfold prev. set (e := filter _ _). assert (forall x, x ∈ e -> x < l)%Z as Hlt.
  { by intros x [Hx _]%list_elem_of_filter. }
  clearbody e. destruct e as [|x r]; [done|]. intros [= <-].
  induction r as [|y r IH]; cbn [foldr]; [apply Hlt; set_solver|].
  apply Z.max_lub_lt; [apply Hlt; set_solver|]. apply IH. set_solver.
Qed.

Lemma undo_loop_below fuel u first l tx tx' : (l < first)%Z -> undo_loop fuel u first l tx <> Done tx'.
Proof.
  revert l tx. induction fuel as [|fuel IH]; intros l tx Hl; cbn [undo_loop]; [done|]. intros H.
  apply bind_Done in H as (bytes & _ & H). apply bind_Done in H as (undo & _ & H). cbv zeta in H.
  rewrite (proj2 (Z.eqb_neq _ _)) in H by lia. destruct (prev u l) as [l'|] eqn:Hp; [|discriminate H].
  apply prev_spec in Hp. eapply IH; [|exact H]. lia.
Qed.

Lemma seek_last u l l' : (get_last_lsn u <= l)%Z -> seek u l = Some l' -> (l' <= l)%Z.
Proof.
  intros Hl Hs. unfold seek in Hs. set (e := filter _ _) in Hs. assert (forall x, x ∈ e -> x <= l)%Z as Hle.
  { intros x [_ ([j b] & -> & Hj%elem_of_map_to_list)%list_elem_of_fmap]%list_elem_of_filter. cbn.
    transitivity (get_last_lsn u); [|done]. apply get_last_lsn_bound. by eexists. }
  clearbody e. destruct e as [|x r]; [done|]. injection Hs as <-.
  clear Hl. induction r as [|y r IH]; cbn [foldr]; [apply Hle; set_solver|].
  transitivity (foldr Z.min x r); [lia|]. apply IH. set_solver.
Qed.

(** Rolling back to the newest version never succeeds: there is no record
    after its last one. *)
Lemma rollback_to_newest_fails num s hist v d s' :
  store_run num s hist -> last hist = Some (v, d) -> rollback_to s v <> Done s'.
Proof.
  intros [R _]%store_run_refines Hlast Hs. pose proof (rf_chain _ _ R) as C.
  pose proof (chain_length _ _ _ C) as Hlen. pose proof (rf_lsn _ _ R) as Hl.
  destruct (last (boundaries s)) as [b|] eqn:Hb; [|done]. injection Hl as Hl.
  pose proof Hb as Hb'. rewrite last_lookup, Hlen in Hb'. rewrite last_lookup in Hlast.
  unfold rollback_to in Hs. rewrite (chain_find _ _ _ _ _ _ _ C Hlast Hb'), Hb in Hs.
  cbn [unwrap mbind outcome_bind fmap option_fmap option_map fst] in Hs. rewrite Hb' in Hs.
  outcome_cbn in Hs. apply bind_Done in Hs as (first & Hf & Hs).
  apply checked_Done in Hf as [? ->].
  apply bind_Done in Hs as (start & Hst%unwrap_Done & Hs). apply bind_Done in Hs as (tx & Hloop & _).
  apply seek_last in Hst; [|lia]. eapply undo_loop_below; [|exact Hloop]. lia.
Qed.
End VersionedStore.

(** ** A store of numbers *)

Module StoreSample.
Definition codec : Codec (K := Z) (V := Z) (T := Z) := {|
  ser_key k := [112; k]%Z;
  ser_value v := [v];
  de_value bytes := head bytes;
  version_bytes v := [v];
  version_of_bytes bytes := head bytes;
|}.

Lemma codec_law v : version_of_bytes codec (version_bytes codec v) = Some v.
Proof. done. Qed.

Definition s1 : outcome (VersionedStore (T := Z)) :=
  update codec (store_new ∅ ∅ 2) 1%Z [] [(1, 10); (2, 20)]%Z.
Definition s2 : outcome (VersionedStore (T := Z)) := s ← s1; update codec s 2%Z [2%Z] [(1, 11)]%Z.
Definition s3 : outcome (VersionedStore (T := Z)) := s ← s2; update codec s 3%Z [] [(1, 12)]%Z.
Definition d1 : gmap (list Z) (list Z) := {[ [112; 1]%Z := [10%Z]; [112; 2]%Z := [20%Z] ]}.
Definition d2 : gmap (list Z) (list Z) := {[ [112; 1]%Z := [11%Z] ]}.

(** Version 1 is brought back from version 3. *)
Lemma rollback_restores_witness : exists s3' s,
  s3 = Done s3' /\ rollback_to codec s3' 1%Z = Done s /\ db s = d1.
Proof.
  destruct (is_done_exists s1 ltac:(vm_compute; reflexivity)) as [a1 E1].
  destruct (is_done_exists s2 ltac:(vm_compute; reflexivity)) as [a2 E2].
  destruct (is_done_exists s3 ltac:(vm_compute; reflexivity)) as [a3 E3].
  pose proof (fmap_Done db _ _ d1 E1 ltac:(vm_compute; reflexivity)) as D1.
  pose proof (fmap_Done db _ _ d2 E2 ltac:(vm_compute; reflexivity)) as D2.
  pose proof E2 as U2. unfold s2 in U2. rewrite E1 in U2. outcome_cbn in U2.
  pose proof E3 as U3. unfold s3 in U3. rewrite E2 in U3. outcome_cbn in U3.
  assert (store_run codec 2 a3 [(1, db a1); (2, db a2); (3, db a3)]%Z) as Hrun.
  { refine (run_update codec 2 a2 [(1, db a1); (2, db a2)]%Z _ _ _ a3 _ _ _ _ U3); [|split; rewrite D2|done|by apply (bool_decide_unpack _); vm_compute].
    - refine (run_update codec 2 a1 [(1, db a1)]%Z _ _ _ a2 _ _ _ _ U2); [|split; rewrite D1|done|by apply (bool_decide_unpack _); vm_compute].
      + by refine (run_first codec 2 _ _ _ a1 _ E1).
      + intros k ->%list_elem_of_singleton. vm_compute. by eexists.
      + intros kv ->%list_elem_of_singleton. vm_compute. by eexists.
    - intros k Hk%elem_of_nil. done.
    - intros kv ->%list_elem_of_singleton. vm_compute. by eexists. }
  destruct (rollback_restores codec codec_law 2 a3 _ 0 1%Z (db a1) Hrun eq_refl) as (s & Hs & Hd & _); [cbn; lia|].
  exists a3, s. rewrite <- D1. split_and!; [exact E3|exact Hs|exact Hd].
Defined.

(** Keys inserted after a version survive the rollback to it: inserting
    leaves no undo record. *)
Definition s3' : outcome (VersionedStore (T := Z)) := s ← s2; update codec s 3%Z [] [(1, 12); (7, 70)]%Z.
Definition back : outcome (list (Z * option Z)) :=
  s ← s3'; s ← rollback_to codec s 2%Z; get codec s [1; 7]%Z.

Lemma inserted_key_survives : back = Done [(1, Some 11); (7, Some 70)]%Z.
Proof. vm_compute. reflexivity. Qed.

(** A record of two key bytes and one value byte. *)
Definition undo_sample : Undo (T := Z) := {| undo_version := 5; undo_key := [112; 1]; undo_value := [9] |}%Z.

Lemma undo_roundtrip_witness :
  encode_undo codec undo_sample = Done [1; 2; 5; 112; 1; 9]%Z /\
  decode_undo codec [1; 2; 5; 112; 1; 9]%Z = Done undo_sample.
Proof. split; [reflexivity|]. exact (undo_roundtrip codec codec_law undo_sample). Defined.
End StoreSample.
