(* ===== verification/AvlStorage.v ===== *)
(** * Authenticated trees in the versioned store

    Model of [spectrum-view/src/versioned_avl_storage.rs]: the nodes of an
    authenticated tree are stored under their labels, versions are the digests
    of the prover, and a rollback reads the tree of a version back.  The tree
    and its prover are those of the crate [scorex_crypto_avltree]: the labels
    and the encoding of nodes are parameters.

    The first part extends what is known of [VersionedStore] to updates that
    write new keys, which is how trees are stored: a rollback keeps such keys. *)

From S2P Require Import Prelude VersionedStore.

Section General.
Context {K V T : Type} `{EqDecision T} (cd : Codec (K := K) (V := V) (T := T)).
Context (version_law : forall v, version_of_bytes cd (version_bytes cd v) = Some v).

Abbreviation data := (gmap (list Z) (list Z)).

(** ** Updates that write new keys *)

(** The records of the keys [ks] that existed; other existing keys are as they were. *)
Record logged (base : data) (u : gmap Z (list Z)) (old : Z) (ks : list (list Z)) (tx : Tx) : Prop := {
  lg_recorded : recorded cd base u old ks tx;
  lg_existing : forall k, k ∈ ks -> is_Some (base !! k);
  lg_same : forall k, k ∉ ks -> is_Some (base !! k) -> tx_db tx !! k = base !! k;
}.

Lemma remove_step_logged v base u old ks tx k tx' : logged base u old ks tx -> remove_step cd v base tx k = Done tx' ->
  exists ks', logged base u old ks' tx' /\ ks ⊆ ks' /\ (is_Some (base !! ser_key cd k) -> ser_key cd k ∈ ks').
Proof.
  intros [Hr He Hs] Hst. unfold remove_step in Hst. destruct (base !! ser_key cd k) as [val|] eqn:Hk.
  - destruct (record_undo_recorded cd version_law base u old ks (tx <| tx_db ::= delete (ser_key cd k) |>) v (ser_key cd k) val tx') as [Hrec Hdb];
      [by destruct Hr|done|done|]. exists (ser_key cd k :: ks). split_and!; [|set_solver|set_solver]. split; [done| |].
    + intros k' [->|]%elem_of_cons; [by eexists|by apply He].
    + intros k' [Hne Hk']%not_elem_of_cons Hb. rewrite Hdb. cbn. rewrite lookup_delete_ne by done. by apply Hs.
  - injection Hst as <-. exists ks. split_and!; [by split|set_solver|by intros [? [=]]].
Qed.

Lemma update_step_logged v base u old ks tx kv tx' : logged base u old ks tx -> update_step cd v base tx kv = Done tx' ->
  exists ks', logged base u old ks' tx' /\ ks ⊆ ks' /\ (is_Some (base !! ser_key cd kv.1) -> ser_key cd kv.1 ∈ ks').
Proof.
  intros [Hr He Hs] Hst. unfold update_step in Hst. apply bind_Done in Hst as (tx1 & H1 & [= <-]). destruct (base !! ser_key cd kv.1) as [val|] eqn:Hk.
  - destruct (record_undo_recorded cd version_law base u old ks tx v (ser_key cd kv.1) val tx1) as [Hrec Hdb]; [done..|].
    exists (ser_key cd kv.1 :: ks). split_and!; [|set_solver|set_solver]. split; [by destruct Hrec| |].
    + intros k' [->|]%elem_of_cons; [by eexists|by apply He].
    + intros k' [Hne Hk']%not_elem_of_cons Hb. cbn. rewrite lookup_insert_ne by done. rewrite Hdb. by apply Hs.
  - injection H1 as <-. exists ks. split_and!; [|set_solver|by intros [? [=]]]. split; [by destruct Hr|done|].
    intros k' Hk' Hb. cbn. rewrite lookup_insert_ne; [by apply Hs|]. intros <-. rewrite Hk in Hb. by destruct Hb.
Qed.

Lemma foldO_logged {A} (step : Tx -> A -> outcome Tx) (key : A -> list Z) base u old l :
  (forall ks tx x tx', logged base u old ks tx -> step tx x = Done tx' ->
    exists ks', logged base u old ks' tx' /\ ks ⊆ ks' /\ (is_Some (base !! key x) -> key x ∈ ks')) ->
  forall ks tx tx', logged base u old ks tx -> foldO step l tx = Done tx' ->
  exists ks', logged base u old ks' tx' /\ ks ⊆ ks' /\ forall x, x ∈ l -> is_Some (base !! key x) -> key x ∈ ks'.
Proof.
  intros Hstep. induction l as [|x l IH]; intros ks tx tx' Hl Hf; cbn [foldO] in Hf.
  - injection Hf as <-. exists ks. split_and!; [done..|set_solver].
  - apply bind_Done in Hf as (tx1 & H1 & Hf). destruct (Hstep _ _ _ _ Hl H1) as (ks1 & Hl1 & Hsub1 & Hx).
    destruct (IH _ _ _ Hl1 Hf) as (ks' & Hl' & Hsub & Hall). exists ks'. split_and!; [done|set_solver|].
    intros y [->|Hy]%elem_of_cons Hb; [by apply Hsub, Hx|by apply Hall].
Qed.

(** The records of an update restore the committed data, next to the new keys. *)
Lemma update_tx_keeps v base u old rem upd tx1 tx :
  foldO (remove_step cd v base) rem {| tx_db := base; tx_undos := u; tx_lsn := old |} = Done tx1 ->
  foldO (update_step cd v base) upd tx1 = Done tx ->
  exists n, tx_lsn tx = (old + Z.of_nat n)%Z /\
    (forall i, (i <= old \/ tx_lsn tx < i)%Z -> tx_undos tx !! i = u !! i) /\
    replay cd (tx_undos tx) (tx_lsn tx) n (tx_db tx) = Some (base ∪ tx_db tx) /\
    ((exists k, k ∈ rem /\ is_Some (base !! ser_key cd k)) -> 0 < n).
Proof.
  intros H1 H2. assert (logged base u old [] {| tx_db := base; tx_undos := u; tx_lsn := old |}) as Hl.
  { split; [split; cbn; [lia|done|]|set_solver|done]. intros d. exists d. split; [done|]. by intros k. }
  destruct (foldO_logged _ (ser_key cd) base u old rem ltac:(intros; by eapply remove_step_logged) _ _ _ Hl H1) as (ks1 & Hl1 & _ & Hrem).
  destruct (foldO_logged _ (fun kv => ser_key cd kv.1) base u old upd ltac:(intros; by eapply update_step_logged) _ _ _ Hl1 H2)
    as (ks & [[Hlsn Ho Hr] He Hs] & Hsub & _).
  exists (length ks). split_and!; [done|done| |].
  - destruct (Hr (tx_db tx)) as (d' & -> & Hres). f_equal. apply map_eq. intros k. rewrite Hres, lookup_union. case_bool_decide as Hk.
    + destruct (He k Hk) as [x ->]. by destruct (tx_db tx !! k).
    + destruct (base !! k) as [x|] eqn:Hb; [rewrite Hs by (done || by eexists); rewrite Hb; by destruct (tx_db tx !! k)|by rewrite (left_id None _)].
  - intros (k & Hk & Hb). specialize (Hsub _ (Hrem k Hk Hb)). destruct ks; [by apply elem_of_nil in Hsub|cbn; lia].
Qed.

(** ** Versions with what was written since *)

Lemma replay_union (u : gmap Z (list Z)) (l : Z) (n : nat) (d d' f : data) : replay cd u l n d = Some d' -> replay cd u l n (d ∪ f) = Some (d' ∪ f).
Proof.
  revert l d. induction n as [|n IH]; intros l d Hr; cbn [replay] in *; [by injection Hr as <-|].
  destruct (u !! l) as [b|]; [|done]. cbn in *. destruct (decode_undo cd b) as [x| |]; [|done..]. rewrite insert_union_l. by apply IH.
Qed.

(** The snapshots, each next to [f]. *)
Definition grow (f : data) (hist : list (T * data)) : list (T * data) := (fun p => (p.1, p.2 ∪ f)) <$> hist.

Lemma grow_versions f hist : (grow f hist).*1 = hist.*1.
Proof. unfold grow. by rewrite <- list_fmap_compose. Qed.

Lemma chain_grow u bs hist f : chain cd u bs hist -> chain cd u bs (grow f hist).
Proof.
  intros [Hv Hn Hp Hl]. split; rewrite ?grow_versions; [done..|]. intros i b b' p p' Hb Hb' Hi Hi'. unfold grow in Hi, Hi'.
  rewrite list_lookup_fmap in Hi, Hi'. apply fmap_Some in Hi as (q & Hq & ->). apply fmap_Some in Hi' as (q' & Hq' & ->).
  destruct (Hl i b b' q q' Hb Hb' Hq Hq') as [Hlt Hr]. split; [done|]. by apply replay_union.
Qed.

Lemma last_grow f hist : last (grow f hist) = (fun p => (p.1, p.2 ∪ f)) <$> last hist.
Proof. apply fmap_last. Qed.

Lemma grow_length f hist : length (grow f hist) = length hist.
Proof. apply length_fmap. Qed.

(** An update removes a key that exists. *)
Definition removes_existing (s : VersionedStore (T := T)) (rem : list K) : Prop := exists k, k ∈ rem /\ is_Some (db s !! ser_key cd k).

Lemma update_keeps s hist v rem upd s' : refines cd s hist -> removes_existing s rem -> v ∉ hist.*1 -> update cd s v rem upd = Done s' ->
  refines cd s' (retained (num_versions_to_store s) (grow (db s') hist) ++ [(v, db s')]).
Proof.
  intros [R Hcur Hlsn Hmax] Hex Hv Hs. assert (length rem + length upd <> 0) as Hne by (destruct Hex as (k & Hk & _); destruct rem; [by apply elem_of_nil in Hk|cbn; lia]).
  apply update_unfold in Hs as (tx1 & tx & Hs); [|done]. cbv zeta in Hs. set (old := get_last_lsn (undos s)) in *. set (b := {| version_id := v |}) in *.
  destruct (prune _ _ _) as [bs u] eqn:Hprune. destruct Hs as (H1 & H2 & Hdb & Hu & Hbs & _).
  destruct (update_tx_keeps v (db s) (undos s) old rem upd tx1 tx H1 H2) as (n & Hl & Ho & Hr & Hn). specialize (Hn Hex).
  assert (chain cd (tx_undos tx) (boundaries s ++ [b]) (grow (tx_db tx) hist ++ [(version_id b, tx_db tx)])) as R'.
  { apply (chain_snoc cd version_law); [|by rewrite grow_versions| | |].
    - apply chain_grow. eapply chain_ext; [|exact R]. intros b' i Hb' Hi. apply Ho.
      pose proof (chain_le_last cd _ _ _ _ _ R Hlsn Hb'). lia.
    - cbn. pose proof (get_last_lsn_nonneg (undos s)). lia.
    - right. cbn. eapply (replay_present cd); [exact Hr|lia].
    - intros b0 p0 Hb0 Hp0. rewrite last_grow in Hp0. apply fmap_Some in Hp0 as (q & Hq & ->). rewrite Hb0 in Hlsn. rewrite Hq in Hcur.
      injection Hlsn as Hlsn. injection Hcur as Hcur. split; cbn [last_lsn b snd]; rewrite Hlsn; [lia|]. rewrite Hcur, <- Hr. f_equal. lia. }
  apply (prune_snoc cd (num_versions_to_store s)) in R'. rewrite Hprune in R'. destruct R' as [R' Hsame].
  assert (get_last_lsn u = tx_lsn tx) as Hlast.
  { apply (get_last_lsn_unique cd version_law); [pose proof (get_last_lsn_nonneg (undos s)); lia| |].
    - intros i Hi. destruct (decide (i <= tx_lsn tx)%Z); [done|]. exfalso. rewrite Hsame, Ho in Hi by (cbn; lia). apply get_last_lsn_bound in Hi. lia.
    - right. rewrite Hsame by (cbn; lia). eapply (replay_present cd); [exact Hr|lia]. }
  split; rewrite ?Hdb, ?Hu, ?Hbs, ?last_snoc; [exact R'|done|cbn; by rewrite Hlast|].
  rewrite Hlast. by eapply (update_tx_u32 cd); [|exact H1|exact H2].
Qed.

(** Runs of the store in which every update replaces something, with the data of
    the versions when they were written. *)
Inductive growing_run (num : nat) : VersionedStore (T := T) -> list (T * data) -> Prop :=
| GrowFirst v rem upd s : length rem + length upd <> 0 -> update cd (store_new ∅ ∅ num) v rem upd = Done s -> growing_run num s [(v, db s)]
| GrowUpdate s hist v rem upd s' : growing_run num s hist -> removes_existing s rem -> v ∉ hist.*1 -> update cd s v rem upd = Done s' ->
    growing_run num s' (retained num hist ++ [(v, db s')])
| GrowRollback s hist i v d s' : growing_run num s hist -> hist !! i = Some (v, d) -> S i < length hist -> rollback_to cd s v = Done s' ->
    growing_run num s' (take (S i) hist).

Definition within (p p' : T * data) : Prop := p.1 = p'.1 /\ p.2 ⊆ p'.2.

Lemma within_versions hist hist' : Forall2 within hist hist' -> hist.*1 = hist'.*1.
Proof. induction 1 as [|p p' hist hist' [E _] _ IH]; [done|]. cbn. congruence. Qed.

Lemma within_grow f hist hist' : Forall2 within hist hist' -> Forall2 within hist (grow f hist').
Proof.
  induction 1 as [|p p' hist hist' [E Hs] _ IH]; constructor; [|done]. split; [done|]. cbn. etransitivity; [exact Hs|]. apply map_union_subseteq_l.
Qed.

Lemma within_retained num hist hist' : Forall2 within hist hist' -> Forall2 within (retained num hist) (retained num hist').
Proof.
  intros Hw. unfold retained. rewrite (Forall2_length _ _ _ Hw). destruct (_ =? _); [|done]. by destruct Hw.
Qed.

Lemma growing_refines num s hist : growing_run num s hist ->
  num_versions_to_store s = num /\ exists hist', refines cd s hist' /\ Forall2 within hist hist'.
Proof.
  induction 1 as [v rem upd s Hne Hs|s hist v rem upd s' _ (Hnum & hist' & R & Hw) Hex Hv Hs|s hist i v d s' _ (Hnum & hist' & R & Hw) Hi Hlt Hs].
  - destruct (first_update_refines cd num v rem upd s Hne Hs) as [R Hnum]. split; [done|]. exists [(v, db s)]. split; [done|]. by repeat constructor.
  - pose proof (update_keeps s hist' v rem upd s' R Hex) as R'. rewrite <- (within_versions _ _ Hw), Hnum in R'. specialize (R' Hv Hs). split.
    + apply update_unfold in Hs as (tx1 & tx & Hs).
      * cbv zeta in Hs. destruct (prune _ _ _). naive_solver.
      * destruct Hex as (k & Hk & _). destruct rem; [by apply elem_of_nil in Hk|cbn; lia].
    + eexists. split; [exact R'|]. apply Forall2_app; [by apply within_retained, within_grow|]. by repeat constructor.
  - destruct (Forall2_lookup_l _ _ _ _ _ Hw Hi) as ([v' d'] & Hi' & [Hv Hd]). cbn in Hv, Hd. subst v'. rewrite (Forall2_length _ _ _ Hw) in Hlt.
    destruct (rollback_refines cd version_law s hist' i v d' R Hi' Hlt) as (s1 & Hs1 & _ & R1 & Hn1). rewrite Hs in Hs1. injection Hs1 as <-.
    split; [congruence|]. eexists. split; [exact R1|]. by apply Forall2_take.
Qed.

(** A rollback brings back all data of the version. *)
Lemma growing_rollback num s hist i v d : growing_run num s hist -> hist !! i = Some (v, d) -> S i < length hist ->
  exists s', rollback_to cd s v = Done s' /\ d ⊆ db s' /\ growing_run num s' (take (S i) hist).
Proof.
  intros Hrun Hi Hlt. destruct (growing_refines _ _ _ Hrun) as (_ & hist' & R & Hw).
  destruct (Forall2_lookup_l _ _ _ _ _ Hw Hi) as ([v' d'] & Hi' & [Hv Hd]). cbn in Hv, Hd. subst v'.
  destruct (rollback_refines cd version_law s hist' i v d' R Hi') as (s1 & Hs1 & Hdb & _); [by rewrite <- (Forall2_length _ _ _ Hw)|].
  exists s1. split; [done|]. rewrite Hdb. split; [done|]. by eapply GrowRollback.
Qed.
End General.

(** ** The storage *)

Abbreviation Digest32 := (list Z) (only parsing).

Section Nodes.
(** What a node holds besides its header and its children: the keys and the
    balance of an internal node; the key, the value and the next key of a leaf. *)
Context {ND LD : Type}.

Inductive Node :=
| Internal (is_new : bool) (d : ND) (lt rt : Node)
| Leaf (is_new : bool) (d : LD)
| LabelOnly (label : option Digest32).

(** The labels of nodes and [AVLTree::pack] and [AVLTree::unpack]. *)
Context (label : Node -> Digest32) (pack : Node -> list Z) (unpack : list Z -> Node).

Abbreviation codec := (Codec (K := Digest32) (V := list Z) (T := Digest32)).
Abbreviation store := (VersionedStore (T := Digest32)).
Context (cd : codec).

(** The part of [BatchAVLProver] the storage uses, and the method [digest]. *)
Record Prover := {
  tree_root : option Node;
  tree_height : Z;
  removed_nodes : list Node;
}.
Context (digest : Prover -> option Digest32).

(** [serialize_visited_nodes]: the stack is that of a walk that goes right
    before left. *)
Fixpoint serialize_visited_nodes (node : Node) (is_top : bool) : outcome (list (Digest32 * list Z)) :=
  match node with
  | Internal is_new _ lt rt =>
    if is_top || is_new then
      r ← serialize_visited_nodes rt false;
      l ← serialize_visited_nodes lt false;
      Done ((label node, pack node) :: r ++ l)
    else Done []
  | Leaf is_new _ => Done (if is_top || is_new then [(label node, pack node)] else [])
  | LabelOnly _ => Panic
  end.

(** [ADDigest::try_from(bytes).unwrap()]: 33 bytes. *)
Definition ad_digest (bytes : list Z) : outcome Digest32 := if decide (length bytes = 33) then Done bytes else Panic.

Definition avl_update (s : store) (prover : Prover) : outcome store :=
  digest_bytes ← unwrap (digest prover);
  digest ← ad_digest digest_bytes;
  top_node ← unwrap (tree_root prover);
  to_insert ← serialize_visited_nodes top_node true;
  let to_remove := label <$> removed_nodes prover in
  update cd s digest to_remove to_insert.

(** Read one node that must be there. *)
Definition load_node (s : store) (l : Digest32) : outcome Node :=
  r ← get cd s [l];
  e ← unwrap (r !! 0);
  bytes ← unwrap e.2;
  Done (unpack bytes).

Definition load_child (s : store) (child : Node) : outcome Node :=
  match child with
  | LabelOnly l => l ← unwrap l; load_node s l
  | _ => Done child
  end.

(** [load_all_nodes]; the fuel bounds the height. *)
Fixpoint load_all_nodes (fuel : nat) (s : store) (node : Node) : outcome Node :=
  match fuel with
  | 0 => NoFuel
  | S fuel =>
    match node with
    | Internal is_new d lt rt =>
      lt ← load_child s lt;
      rt ← load_child s rt;
      rt ← load_all_nodes fuel s rt;
      lt ← load_all_nodes fuel s lt;
      Done (Internal is_new d lt rt)
    | _ => Done node
    end
  end.

Definition avl_get (fuel : nat) (s : store) (keys : list Digest32) : outcome (list (Digest32 * option Node)) :=
  r ← get cd s keys;
  mapO (fun e =>
      match e.2 with
      | Some bytes => node ← load_all_nodes fuel s (unpack bytes); Done (e.1, Some node)
      | None => Done (e.1, None)
      end) r.

Definition unpack_ad_digest (d : Digest32) : outcome (Digest32 * Z) :=
  h ← unwrap (d !! 32);
  Done (take 32 d, h).

Definition avl_rollback_to (fuel : nat) (s : store) (v : Digest32) (prover : Prover) : outcome (store * Prover) :=
  s ← rollback_to cd s v;
  lh ← unpack_ad_digest v;
  r ← avl_get fuel s [lh.1];
  e ← unwrap (r !! 0);
  root ← unwrap e.2;
  Done (s, {| tree_root := Some root; tree_height := lh.2; removed_nodes := removed_nodes prover |}).

(** ** Properties *)

(** A packed node is read back with the labels of its children, the digest of a
    prover is the label of the root and the height, and the codec of the store
    round-trips. *)
Class TreeLaws := {
  unpack_internal : forall b d lt rt, unpack (pack (Internal b d lt rt)) = Internal false d (LabelOnly (Some (label lt))) (LabelOnly (Some (label rt)));
  unpack_leaf : forall b d, unpack (pack (Leaf b d)) = Leaf false d;
  digest_label : forall p root, tree_root p = Some root -> digest p = Some (label root ++ [tree_height p]);
  label_length : forall n, length (label n) = 32;
  key_injective : forall k k', ser_key cd k = ser_key cd k' -> k = k';
  value_roundtrip : forall v, de_value cd (ser_value cd v) = Some v;
  version_roundtrip : forall v, version_of_bytes cd (version_bytes cd v) = Some v;
}.
Context `{TL : TreeLaws}.

(** The nodes of a tree whose children are all there. *)
Fixpoint whole (t : Node) : Prop :=
  match t with Internal _ _ lt rt => whole lt /\ whole rt | Leaf _ _ => True | LabelOnly _ => False end.

Fixpoint height (t : Node) : nat := match t with Internal _ _ lt rt => S (Nat.max (height lt) (height rt)) | _ => 0 end.

(** The tree once it is stored. *)
Fixpoint settled (t : Node) : Node :=
  match t with Internal _ d lt rt => Internal false d (settled lt) (settled rt) | Leaf _ d => Leaf false d | LabelOnly l => LabelOnly l end.

Fixpoint subnodes (t : Node) : list Node := t :: match t with Internal _ _ lt rt => subnodes lt ++ subnodes rt | _ => [] end.

Abbreviation data := (gmap (list Z) (list Z)).

(** A node is stored under its label. *)
Definition holds_node (d : data) (n : Node) : Prop := d !! ser_key cd (label n) = Some (ser_value cd (pack n)).

(** Every node of the tree is stored. *)
Definition covered (d : data) (t : Node) : Prop := Forall (holds_node d) (subnodes t).

Lemma covered_mono d d' t : d ⊆ d' -> covered d t -> covered d' t.
Proof. intros Hd Hc. eapply Forall_impl; [exact Hc|]. intros n Hn. by eapply lookup_weaken. Qed.

Lemma covered_label d t : covered d t -> holds_node d t.
Proof. unfold covered. destruct t; by intros [Hk _]%Forall_cons. Qed.

Lemma load_node_covered s t : covered (db s) t -> load_node s (label t) = Done (unpack (pack t)).
Proof.
  intros Hc. unfold load_node, get. cbn [mapO]. rewrite (covered_label _ _ Hc). rewrite value_roundtrip. by outcome_cbn.
Qed.

(** A tree is loaded from its root. *)
Lemma load_all_covered s t fuel : whole t -> covered (db s) t -> height t < fuel -> load_all_nodes fuel s (unpack (pack t)) = Done (settled t).
Proof.
  revert fuel. induction t as [b x lt IHl rt IHr|b x|l]; intros fuel Hw Hc Hf; (destruct fuel as [|fuel]; [lia|]); cbn [load_all_nodes].
  - rewrite unpack_internal. destruct Hw as [Hwl Hwr]. apply Forall_cons in Hc as [_ [Hcl Hcr]%Forall_app]. cbn [load_child unwrap mbind outcome_bind].
    rewrite (load_node_covered s lt Hcl). outcome_cbn. rewrite (load_node_covered s rt Hcr). outcome_cbn. cbn [height] in Hf.
    rewrite IHr by (done || lia). outcome_cbn. rewrite IHl by (done || lia). done.
  - by rewrite unpack_leaf.
  - done.
Qed.

(** *** What an update writes *)

Lemma record_undo_db v tx k old tx' : record_undo cd v tx k old = Done tx' -> tx_db tx' = tx_db tx.
Proof. intros Hr. unfold record_undo in Hr. bind_inv. by subst. Qed.

Lemma remove_loop_other v base rem tx tx' k : foldO (remove_step cd v base) rem tx = Done tx' -> k ∉ ser_key cd <$> rem -> tx_db tx' !! k = tx_db tx !! k.
Proof.
  revert tx. induction rem as [|x rem IH]; intros tx Hf Hk; cbn [foldO] in Hf; [by injection Hf as <-|].
  apply bind_Done in Hf as (tx1 & H1 & Hf). rewrite fmap_cons, not_elem_of_cons in Hk. rewrite (IH _ Hf) by tauto. unfold remove_step in H1.
  destruct (base !! _); [|by injection H1 as <-]. apply record_undo_db in H1 as ->. cbn. apply lookup_delete_ne. naive_solver.
Qed.

Lemma update_loop_db v base upd tx tx' : foldO (update_step cd v base) upd tx = Done tx' ->
  tx_db tx' = foldl (fun d kv => <[ser_key cd kv.1 := ser_value cd kv.2]> d) (tx_db tx) upd.
Proof.
  revert tx. induction upd as [|x upd IH]; intros tx Hf; cbn [foldO foldl] in *; [by injection Hf as <-|].
  apply bind_Done in Hf as (tx1 & H1 & Hf). rewrite (IH _ Hf). unfold update_step in H1. apply bind_Done in H1 as (tx0 & H0 & [= <-]). cbn. f_equal. f_equal.
  destruct (base !! _); [by apply record_undo_db in H0|by injection H0 as <-].
Qed.

Lemma foldl_insert_lookup (upd : list (Digest32 * list Z)) (d : data) k x : (forall y, (k, y) ∈ upd -> y = x) ->
  foldl (fun d kv => <[ser_key cd kv.1 := ser_value cd kv.2]> d) d upd !! ser_key cd k =
    if decide ((k, x) ∈ upd) then Some (ser_value cd x) else d !! ser_key cd k.
Proof.
  revert d. induction upd as [|[k' y] upd IH]; intros d Hx; cbn [foldl]; [done|]. rewrite IH by (intros; apply Hx; by right).
  destruct (decide ((k, x) ∈ upd)) as [Hin|Hin]; [by rewrite decide_True by (by right)|]. cbn [fst snd]. destruct (decide (k' = k)) as [->|Hne].
  - rewrite lookup_insert_eq. rewrite (Hx y ltac:(left)). by rewrite decide_True by left.
  - rewrite lookup_insert_ne by (by intros E%key_injective). rewrite decide_False; [done|]. by intros [[= -> ->]|]%elem_of_cons.
Qed.

(** What holds of the prover: a node that is not written is in the store and
    stays there, and nodes with the same label are stored alike. *)
Record prover_ok (d : data) (p : Prover) (t : Node) (to_insert : list (Digest32 * list Z)) : Prop := {
  pk_root : tree_root p = Some t;
  pk_whole : whole t;
  pk_visited : serialize_visited_nodes t true = Done to_insert;
  pk_old : forall n, n ∈ subnodes t -> (label n, pack n) ∉ to_insert -> holds_node d n /\ label n ∉ label <$> removed_nodes p;
  pk_labels : forall n m, n ∈ subnodes t -> m ∈ subnodes t -> label n = label m -> pack n = pack m;
}.

Lemma visited_subnodes t top l : serialize_visited_nodes t top = Done l -> forall e, e ∈ l -> exists n, n ∈ subnodes t /\ e = (label n, pack n).
Proof.
  revert top l. induction t as [b x lt IHl rt IHr|b x|o]; intros top l Hv e He; cbn [serialize_visited_nodes subnodes] in *; [|..|done].
  - destruct (top || b); [|injection Hv as <-; by apply elem_of_nil in He]. bind_inv. subst l.
    apply elem_of_cons in He as [->|[He|He]%elem_of_app]; [eexists; split; [left|done]|..].
    + destruct (IHr _ _ Hv0 _ He) as (n & Hn & ->). exists n. split; [set_solver|done].
    + destruct (IHl _ _ Hv1 _ He) as (n & Hn & ->). exists n. split; [set_solver|done].
  - injection Hv as <-. destruct (top || b); [|by apply elem_of_nil in He]. apply list_elem_of_singleton in He as ->. eexists. split; [left|done].
Qed.

Lemma avl_update_covers s p t to_insert s' : prover_ok (db s) p t to_insert -> avl_update s p = Done s' -> covered (db s') t.
Proof.
  intros [Hr Hw Hv Ho Hl] Hu. unfold avl_update in Hu. rewrite Hr in Hu. apply bind_Done in Hu as (dg & _ & Hu). apply bind_Done in Hu as (v & _ & Hu).
  outcome_cbn in Hu. rewrite Hv in Hu. outcome_cbn in Hu.
  assert (to_insert <> []) as Hne by (destruct t; cbn in Hv; bind_inv; subst; done).
  apply update_unfold in Hu as (tx1 & tx & Hu); [|destruct to_insert; cbn; [done|lia]]. cbv zeta in Hu. destruct (prune _ _ _) as [bs u].
  destruct Hu as (H1 & H2 & Hdb & _). apply Forall_forall. intros n Hn. unfold holds_node. rewrite Hdb, (update_loop_db _ _ _ _ _ H2).
  rewrite (foldl_insert_lookup _ _ (label n) (pack n)).
  - case_decide as Hin; [done|]. destruct (Ho n Hn Hin) as [Hh Hrem]. rewrite (remove_loop_other _ _ _ _ _ _ H1); [done|].
    intros (k & Hk%key_injective & Hkr)%list_elem_of_fmap. by subst k.
  - intros y Hy. destruct (visited_subnodes _ _ _ Hv _ Hy) as (m & Hm & [= E ->]). symmetry. by apply Hl.
Qed.

(** *** Runs *)

(** The versions kept once one more comes. *)
Definition kept_versions {A} (num : nat) (l : list A) : list A := if (length l =? num + 1)%nat then tail l else l.

(** Commits of a prover and rollbacks, with the provers as they were committed. *)
Inductive avl_run (num : nat) : store -> list Prover -> Prop :=
| AvlFirst p t ins s : prover_ok ∅ p t ins -> avl_update (store_new ∅ ∅ num) p = Done s -> avl_run num s [p]
| AvlUpdate s ps p t ins s' : avl_run num s ps -> prover_ok (db s) p t ins -> Exists (holds_node (db s)) (removed_nodes p) ->
    digest p ∉ digest <$> ps -> avl_update s p = Done s' -> avl_run num s' (kept_versions num ps ++ [p])
| AvlRollback s ps i p v fuel q s' q' : avl_run num s ps -> ps !! i = Some p -> digest p = Some v -> S i < length ps ->
    avl_rollback_to fuel s v q = Done (s', q') -> avl_run num s' (take (S i) ps).

(** A version of the store holds the tree of a prover. *)
Definition version_of (h : Digest32 * data) (p : Prover) : Prop :=
  digest p = Some h.1 /\ exists t, tree_root p = Some t /\ whole t /\ covered h.2 t.

Lemma versions_digests hist ps : Forall2 version_of hist ps -> digest <$> ps = Some <$> hist.*1.
Proof. induction 1 as [|h p hist ps [E _] _ IH]; [done|]. cbn. by rewrite E, IH. Qed.

(** The update of the store that commits a prover. *)
Lemma avl_update_version s p t ins s' : prover_ok (db s) p t ins -> avl_update s p = Done s' ->
  exists v, update cd s v (label <$> removed_nodes p) ins = Done s' /\ version_of (v, db s') p /\ ins <> [].
Proof.
  intros Hp Hu. pose proof (avl_update_covers _ _ _ _ _ Hp Hu) as Hc. destruct Hp as [Hr Hw Hv Ho Hl]. unfold avl_update in Hu.
  apply bind_Done in Hu as (dg & Hdg & Hu). apply unwrap_Done in Hdg. apply bind_Done in Hu as (v & Had & Hu). unfold ad_digest in Had. case_decide; [|done].
  injection Had as <-. rewrite Hr in Hu. outcome_cbn in Hu. rewrite Hv in Hu. outcome_cbn in Hu. exists dg. split_and!; [done| |].
  - split; [done|]. by exists t.
  - destruct t; cbn in Hv; bind_inv; subst; done.
Qed.

Lemma kept_retained num hist ps : Forall2 version_of hist ps -> Forall2 version_of (retained num hist) (kept_versions num ps).
Proof. intros Hw. unfold retained, kept_versions. rewrite (Forall2_length _ _ _ Hw). destruct (_ =? _); [|done]. by destruct Hw. Qed.

Lemma avl_run_grows num s ps : avl_run num s ps -> exists hist, growing_run cd num s hist /\ Forall2 version_of hist ps.
Proof.
  induction 1 as [p t ins s Hp Hu|s ps p t ins s' _ (hist & Hg & Hv) Hp Hex Hdg Hu|s ps i p v fuel q s' q' _ (hist & Hg & Hv) Hi Hd Hlt Hr].
  - destruct (avl_update_version (store_new ∅ ∅ num) _ _ _ _ Hp Hu) as (v & Hup & Hver & Hne). exists [(v, db s)].
    split; [|by apply Forall2_cons]. eapply GrowFirst; [|exact Hup]. destruct ins; cbn; [done|lia].
  - destruct (avl_update_version _ _ _ _ _ Hp Hu) as (v & Hup & Hver & Hne). eexists. split.
    + eapply GrowUpdate; [exact Hg| | |exact Hup].
      * apply Exists_exists in Hex as (n & Hn & Hh). exists (label n). split; [by apply list_elem_of_fmap_2|by eexists].
      * destruct Hver as [Hdv _]. rewrite (versions_digests _ _ Hv), Hdv in Hdg. intros Hin. apply Hdg. by apply list_elem_of_fmap_2.
    + apply Forall2_app; [by apply kept_retained|by apply Forall2_cons].
  - destruct (Forall2_lookup_r _ _ _ _ _ Hv Hi) as ([v' d] & Hi' & Hver). assert (v' = v) as -> by (destruct Hver as [E _]; cbn in E; congruence).
    exists (take (S i) hist). split; [|by apply Forall2_take]. unfold avl_rollback_to in Hr. apply bind_Done in Hr as (s1 & H1 & Hr).
    assert (s1 = s') as ->. { bind_inv. by simplify_eq. }
    eapply GrowRollback; [exact Hg|exact Hi'|by rewrite (Forall2_length _ _ _ Hv)|exact H1].
Qed.

(** C18: rolling back to a committed version other than the newest brings its
    tree back: whatever was committed and rolled back before, the storage
    returns, within a fuel above the height of the tree, and the prover is
    left with the very tree and height of that version, all nodes loaded. *)
Theorem avl_rollback_restores num s ps i p t v fuel q : avl_run num s ps -> ps !! i = Some p -> S i < length ps ->
  digest p = Some v -> tree_root p = Some t -> height t < fuel ->
  exists s', avl_rollback_to fuel s v q =
      Done (s', {| tree_root := Some (settled t); tree_height := tree_height p; removed_nodes := removed_nodes q |}) /\
    avl_run num s' (take (S i) ps).
Proof.
  intros Hrun Hi Hlt Hd Ht Hf. destruct (avl_run_grows _ _ _ Hrun) as (hist & Hg & Hv).
  destruct (Forall2_lookup_r _ _ _ _ _ Hv Hi) as ([v' d] & Hi' & E & t' & Ht' & Hw & Hc). cbn in E, Hc. assert (v' = v) as -> by congruence. assert (t' = t) as -> by congruence.
  destruct (growing_rollback cd version_roundtrip num s hist i v d Hg Hi') as (s' & Hs' & Hsub & _); [by rewrite (Forall2_length _ _ _ Hv)|].
  assert (avl_rollback_to fuel s v q =
    Done (s', {| tree_root := Some (settled t); tree_height := tree_height p; removed_nodes := removed_nodes q |})) as Hr.
  { unfold avl_rollback_to. rewrite Hs'. outcome_cbn. rewrite (digest_label p t Ht) in Hd. injection Hd as <-. unfold unpack_ad_digest.
    rewrite lookup_app_r by (rewrite label_length; lia). rewrite label_length. cbn [Nat.sub lookup list_lookup].
    outcome_cbn. rewrite <- (label_length t), take_app_length. cbn [fst snd]. pose proof (covered_mono _ _ _ Hsub Hc) as Hc'.
    unfold avl_get, get. cbn [mapO]. rewrite (covered_label _ _ Hc'), value_roundtrip. outcome_cbn. cbn [mapO fst snd].
    rewrite (load_all_covered s' t fuel Hw Hc' Hf). by outcome_cbn. }
  exists s'. split; [exact Hr|]. by eapply AvlRollback.
Qed.
End Nodes.

(** ** A sample tree *)

Module Sample.
Abbreviation N := (Node (ND := Z) (LD := Z)).

Fixpoint number (n : N) : Z :=
  match n with
  | Internal _ d lt rt => (2 * (d + 3 * number lt + 5 * number rt))%Z
  | Leaf _ d => (2 * d + 1)%Z
  | LabelOnly l => match l with Some (x :: _) => x | _ => 0%Z end
  end.

Definition label (n : N) : list Z := number n :: replicate 31 0%Z.

Definition pack (n : N) : list Z :=
  match n with Internal _ d lt rt => 1%Z :: d :: label lt ++ label rt | Leaf _ d => [0; d]%Z | LabelOnly _ => [2]%Z end.

Definition unpack (b : list Z) : N :=
  match b with
  | [0; d]%Z => Leaf false d
  | _ :: d :: l => Internal false d (LabelOnly (Some (take 32 l))) (LabelOnly (Some (drop 32 l)))
  | _ => LabelOnly None
  end.

Definition codec : Codec (K := list Z) (V := list Z) (T := list Z) :=
  {| ser_key k := k; ser_value v := v; de_value b := Some b; version_bytes v := v; version_of_bytes b := Some b |}.

Definition digest (p : Prover (ND := Z) (LD := Z)) : option (list Z) := (fun r => label r ++ [tree_height p]) <$> tree_root p.

#[local] Instance sample_laws : TreeLaws label pack unpack codec digest.
Proof. split; [done|done|by intros p root Hr; unfold digest; rewrite Hr|done|by intros k k'|done|done]. Qed.

Definition p1 : Prover := {| tree_root := Some (Internal true 1 (Leaf true 10) (Leaf true 20))%Z; tree_height := 1; removed_nodes := [] |}.
Definition p2 : Prover := {| tree_root := Some (Internal true 2 (Leaf false 10) (Leaf true 21))%Z; tree_height := 1;
  removed_nodes := [Internal false 1 (Leaf false 10) (Leaf false 20); Leaf false 20]%Z |}.

Definition first_store : outcome (VersionedStore (T := list Z)) := avl_update label pack codec digest (store_new ∅ ∅ 5) p1.
Definition second_store : outcome (VersionedStore (T := list Z)) := s ← first_store; avl_update label pack codec digest s p2.

Definition inserted (p : Prover) : list (list Z * list Z) :=
  match tree_root p with Some t => match serialize_visited_nodes label pack t true with Done l => l | _ => [] end | None => [] end.

(** What can be computed about the nodes that are kept. *)
Lemma sample_ok d p t : tree_root p = Some t -> whole t -> is_done (serialize_visited_nodes label pack t true) = true ->
  Forall (fun n => (label n, pack n) ∉ inserted p -> holds_node label pack codec d n /\ label n ∉ label <$> removed_nodes p) (subnodes t) ->
  Forall (fun n => Forall (fun m => label n = label m -> pack n = pack m) (subnodes t)) (subnodes t) ->
  prover_ok label pack codec d p t (inserted p).
Proof.
  intros Hr Hw [l Hl]%is_done_exists Ho Hp. split; [done|done|unfold inserted; by rewrite Hr, Hl| |].
  - intros n Hn. by apply (proj1 (Forall_forall _ _) Ho n).
  - intros n m Hn Hm. by apply (proj1 (Forall_forall _ _) (proj1 (Forall_forall _ _) Hp n Hn) m).
Qed.

Lemma avl_rollback_restores_witness : exists s s' q, second_store = Done s /\
  avl_rollback_to unpack codec 3 s (label (Internal true 1 (Leaf true 10) (Leaf true 20))%Z ++ [1]%Z) q =
    Done (s', {| tree_root := Some (Internal false 1 (Leaf false 10) (Leaf false 20))%Z; tree_height := 1; removed_nodes := removed_nodes q |}).
Proof.
  destruct (is_done_exists first_store) as [s1 H1]; [by vm_compute|].
  destruct (is_done_exists second_store) as [s H2]; [by vm_compute|].
  assert (avl_run label pack unpack codec digest 5 s [p1; p2]) as Hrun.
  { assert (db s1 !! label (Leaf false 10)%Z = Some [0; 10]%Z /\ db s1 !! label (Leaf false 20)%Z = Some [0; 20]%Z) as [Hd1 Hd2].
    { enough (match first_store with Done s1 => bool_decide (db s1 !! label (Leaf false 10)%Z = Some [0; 10]%Z /\ db s1 !! label (Leaf false 20)%Z = Some [0; 20]%Z)
        | _ => false end = true) as Hb by (rewrite H1 in Hb; by apply bool_decide_eq_true in Hb). by vm_compute. }
    change [p1; p2] with (kept_versions 5 [p1] ++ [p2]). eapply AvlUpdate.
    - eapply (AvlFirst _ _ _ _ _ 5 p1); [|exact H1]. eapply sample_ok; [done|by vm_compute|by vm_compute| |];
        [|by apply (bool_decide_unpack _); vm_compute].
      all: repeat (apply Forall_cons; split); try apply Forall_nil_2; intros Hn; destruct Hn; by apply (bool_decide_unpack _); vm_compute.
    - eapply sample_ok; [done|by vm_compute|by vm_compute| |by apply (bool_decide_unpack _); vm_compute].
      repeat (apply Forall_cons; split); try apply Forall_nil_2; intros Hn.
      + destruct Hn. by apply (bool_decide_unpack _); vm_compute.
      + split; [exact Hd1|by apply (bool_decide_unpack _); vm_compute].
      + destruct Hn. by apply (bool_decide_unpack _); vm_compute.
    - right. left. exact Hd2.
    - by apply (bool_decide_unpack _); vm_compute.
    - unfold second_store in H2. rewrite H1 in H2. exact H2. }
  destruct (avl_rollback_restores label pack unpack codec digest 5 s [p1; p2] 0 p1 (Internal true 1 (Leaf true 10) (Leaf true 20))%Z
    (label (Internal true 1 (Leaf true 10) (Leaf true 20))%Z ++ [1]%Z) 3 p2 Hrun) as (s' & Hs' & _).
  - reflexivity.
  - cbn. lia.
  - reflexivity.
  - reflexivity.
  - cbn. lia.
  - exists s, s', p2. split; [exact H2|exact Hs'].
Defined.
End Sample.
