(* ===== verification/Diffusion.v ===== *)
(** * Diffusion of blocks and transactions

    Model of [spectrum-diffusion]: the comparison of a peer's chain with the
    local one ([service.rs]), the messages ([message.rs]) and the protocol
    behaviour ([behaviour.rs]) over the task pool of
    [spectrum-network/src/protocol_handler/pool.rs].  The asynchronous tasks
    are values of a free monad: each [await] on the history reads the history
    of that moment, each [await] on the channel is a step of its own, and the
    behaviour runs any interleaving of them.  The history and the [ciborium]
    decoders are parameters. *)

From S2P Require Import Prelude Crypto Validation.

(** ** Messages *)

Record SyncStatus := { height : Z; last_blocks : list bytes }.

Inductive DiffusionMessageV1 :=
| Inv (mod_type : ModifierType) (modifiers : list bytes)
| RequestModifiers (mod_type : ModifierType) (modifiers : list bytes)
| Modifiers (mod_type : ModifierType) (modifiers : list bytes)
| MSyncStatus (status : SyncStatus).

(** [BlockId::ORIGIN] *)
Definition ORIGIN : bytes := replicate 32 0%Z.

(** ** The history of the ledger *)

Class HeaderLike (Hd : Type) := slot_num : Hd -> Z.

Record ModifierRecord (Hd : Type) := { rec_id : bytes; rec_modifier : Hd }.
Arguments rec_id {Hd}.
Arguments rec_modifier {Hd}.

Inductive BlockSectionType := SHeader | SBody.

(** [LedgerHistoryReadAsync]; the tail is a [NonEmpty], given by its first
    element and the others. *)
Class LedgerHistoryReadAsync (Hst Hd : Type) := {
  member : Hst -> bytes -> bool;
  contains : Hst -> bytes -> bool;
  get_tip : Hst -> ModifierRecord Hd;
  get_tail : Hst -> nat -> ModifierRecord Hd * list (ModifierRecord Hd);
  follow : Hst -> bytes -> nat -> list bytes;
  multi_get_raw : Hst -> BlockSectionType -> list bytes -> list bytes;
}.

(** ** Comparison of chains *)

Inductive RemoteChainCmp :=
| Equal
| Longer (wanted_suffix : option (list bytes))
| Shorter (remote_best_block : bytes)
| Fork (intersection_at : option bytes)
| Nonsense.

Record SyncState := { st_height : Z; st_cmp : RemoteChainCmp }.

Inductive ModifierStatus :=
| Wanted
| Requested (at_ : Z)
| Received
| Unknown.

#[export] Instance ModifierStatus_eq_dec : EqDecision ModifierStatus.
Proof. solve_decision. Defined.

Section Diffusion.
Context {Hst Hd Bd Tx PeerId : Type} `{Countable PeerId}.
Context `{!HeaderLike Hd} `{!LedgerHistoryReadAsync Hst Hd}.

(** [Modifier] and what [ciborium] reads. *)
Inductive AnyModifier :=
| MBlockHeader (h : Hd)
| MBlockBody (b : Bd)
| MTransaction (t : Tx).

Record Decoders := {
  de_header : bytes -> option Hd;
  de_body : bytes -> option Bd;
  de_transaction : bytes -> option Tx;
  header_digest : Hd -> bytes;
  transaction_id : Tx -> bytes;
}.
Context (dec : Decoders).

(** [Modifier::id]; the digest of a block body is not implemented. *)
Definition modifier_id (m : AnyModifier) : outcome bytes :=
  match m with
  | MBlockHeader h => Done (header_digest dec h)
  | MBlockBody _ => Panic
  | MTransaction t => Done (transaction_id dec t)
  end.

Definition decode_modifier (mod_type : ModifierType) (bf : bytes) : option AnyModifier :=
  match mod_type with
  | TBlockHeader => MBlockHeader <$> de_header dec bf
  | TBlockBody => MBlockBody <$> de_body dec bf
  | TTransaction => MTransaction <$> de_transaction dec bf
  end.

(** What the behaviour emits.  The protocol has one version, [1]; a
    handshake is the status of the node. *)
Inductive DiffusionBehaviourOut :=
| Send (peer_id : PeerId) (message : DiffusionMessageV1)
| EnablePeer (peer_id : PeerId) (handshakes : list (Z * option SyncStatus))
| BanPeer (peer_id : PeerId).

(** What a task sends over the channel, apart from requests for a status. *)
Inductive FromTask :=
| UpdatePeer (peer_id : PeerId) (peer_state : SyncState)
| UpdateModifier (mid : bytes) (status : ModifierStatus)
| ToHandler (out : DiffusionBehaviourOut).

(** Asynchronous code. *)
Inductive Task (A : Type) :=
| Ret (a : A)
| Stop
| Read (k : Hst -> Task A)
| Push (m : FromTask) (k : Task A)
| Ask (mid : bytes) (k : ModifierStatus -> Task A)
| Apply (md : AnyModifier) (k : Task A).
Arguments Ret {A}.
Arguments Stop {A}.
Arguments Read {A}.
Arguments Push {A}.
Arguments Ask {A}.
Arguments Apply {A}.

#[export] Instance task_ret : MRet Task := fun A => Ret.
#[export] Instance task_bind : MBind Task := fun A B f =>
  fix go t :=
    match t with
    | Ret a => f a
    | Stop => Stop
    | Read k => Read (fun h => go (k h))
    | Push m k => Push m (go k)
    | Ask mid k => Ask mid (fun s => go (k s))
    | Apply md k => Apply md (go k)
    end.

Definition read {A} (f : Hst -> A) : Task A := Read (fun h => Ret (f h)).
Definition push (m : FromTask) : Task unit := Push m (Ret tt).
Definition modifier_status (mid : bytes) : Task ModifierStatus := Ask mid Ret.
Definition apply_modifier (md : AnyModifier) : Task unit := Apply md (Ret tt).
Definition of_outcome {A} (o : outcome A) : Task A :=
  match o with Done a => Ret a | _ => Stop end.

(** *** [service.rs] *)

Definition SYNC_HEADERS : nat := 256.

Definition local_status : Task SyncStatus :=
  tail ← read (fun h => get_tail h SYNC_HEADERS);
  let height := slot_num (rec_modifier (default tail.1 (last tail.2))) in
  tail ← read (fun h => get_tail h SYNC_HEADERS);
  mret {| height := height; last_blocks := reverse (rec_id <$> tail.1 :: tail.2) |}.

Definition make_poly_handshake : Task (list (Z * option SyncStatus)) :=
  status ← local_status; mret [(1%Z, Some status)].

(** The point where the remote chain meets the local one. *)
Fixpoint common_point (remote_tail : list bytes) : Task (option bytes) :=
  match remote_tail with
  | [] => mret None
  | blk :: rest =>
    found ← read (fun h => member h blk);
    if (found : bool) then mret (Some blk) else common_point rest
  end.

(** The blocks of a tail before the first [stop]. *)
Fixpoint take_until (stop : bytes) (blks : list bytes) : list bytes :=
  match blks with
  | [] => []
  | blk :: rest => if bool_decide (blk = stop) then [] else blk :: take_until stop rest
  end.

Definition compare_remote (peer_status : SyncStatus) : Task RemoteChainCmp :=
  local_tip ← read get_tip;
  let tip_slot := slot_num (rec_modifier local_tip) in
  let peer_height := height peer_status in
  let peer_tail := last_blocks peer_status in
  match peer_tail with
  | [] => mret (Shorter ORIGIN)
  | peer_tip :: _ =>
    let delta := Z.max 0 (peer_height - tip_slot) in
    if (Z.of_nat (length peer_tail) <? delta)%Z then mret (Longer None)
    else match snd <$> list_find (fun blk => blk = rec_id local_tip) peer_tail with
         | Some common_sl =>
           if (tip_slot <=? peer_height)%Z then
             if bool_decide (common_sl = peer_tip) then mret Equal
             else mret (Longer (Some (reverse (take_until common_sl peer_tail))))
           else mret Nonsense
         | None =>
           common ← common_point peer_tail;
           mret match common with
                | Some p => if bool_decide (p = peer_tip) then Shorter p else Fork (Some p)
                | None => Fork None
                end
         end
  end.

Definition remote_state (peer_status : SyncStatus) : Task SyncState :=
  cmp ← compare_remote peer_status;
  mret {| st_height := height peer_status; st_cmp := cmp |}.

Definition extension (remote_tip : bytes) (cap : nat) : Task (list bytes) :=
  read (fun h => follow h remote_tip cap).

(** There is no access to the mempool yet. *)
Definition get_modifiers (mod_type : ModifierType) (modifiers : list bytes) : Task (list bytes) :=
  match mod_type with
  | TBlockHeader => read (fun h => multi_get_raw h SHeader modifiers)
  | TBlockBody => read (fun h => multi_get_raw h SBody modifiers)
  | TTransaction => Stop
  end.

(** *** The tasks of [behaviour.rs] *)

(** The reaction of [on_sync] to the outcome of the comparison. *)
Definition sync_reply (max_inv_size : nat) (peer_id : PeerId) (initial : bool) (cmp : RemoteChainCmp)
    : Task unit :=
  match cmp with
  | Equal | Nonsense => mret tt
  | Longer None | Fork None =>
    if initial then mret tt
    else status ← local_status; push (ToHandler (Send peer_id (MSyncStatus status)))
  | Longer (Some wanted_suffix) =>
    push (ToHandler (Send peer_id (RequestModifiers TBlockHeader wanted_suffix)))
  | Shorter remote_tip | Fork (Some remote_tip) =>
    ext ← extension remote_tip max_inv_size;
    push (ToHandler (Send peer_id (Inv TBlockHeader ext)))
  end.

Definition on_sync_task (max_inv_size : nat) (peer_id : PeerId) (peer_status : SyncStatus) (initial : bool)
    : Task unit :=
  peer_state ← remote_state peer_status;
  _ ← push (UpdatePeer peer_id peer_state);
  _ ← (if initial then
         handshakes ← make_poly_handshake;
         push (ToHandler (EnablePeer peer_id handshakes))
       else mret tt);
  sync_reply max_inv_size peer_id initial (st_cmp peer_state).

Definition on_modifiers_request_task (peer_id : PeerId) (mod_type : ModifierType) (modifiers : list bytes)
    : Task unit :=
  raw_modifiers ← get_modifiers mod_type modifiers;
  push (ToHandler (Send peer_id (Modifiers mod_type raw_modifiers))).

(** The decoding loop of [on_modifiers]; it stops at the first modifier that
    does not decode. *)
Fixpoint decode_all (peer_id : PeerId) (mod_type : ModifierType) (raw_modifiers : list bytes)
    : Task (list AnyModifier) :=
  match raw_modifiers with
  | [] => mret []
  | m :: rest =>
    match decode_modifier mod_type m with
    | Some md =>
      mid ← of_outcome (modifier_id md);
      _ ← push (UpdateModifier mid Received);
      mds ← decode_all peer_id mod_type rest;
      mret (md :: mds)
    | None =>
      _ ← push (ToHandler (BanPeer peer_id));
      mret []
    end
  end.

Fixpoint apply_all (modifiers : list AnyModifier) : Task unit :=
  match modifiers with
  | [] => mret tt
  | md :: rest => _ ← apply_modifier md; apply_all rest
  end.

Definition on_modifiers_task (peer_id : PeerId) (mod_type : ModifierType) (raw_modifiers : list bytes)
    : Task unit :=
  modifiers ← decode_all peer_id mod_type raw_modifiers;
  apply_all modifiers.

(** The filter of [select_wanted], with its two questions for a status. *)
Definition is_wanted (mid : bytes) : Task bool :=
  s1 ← modifier_status mid;
  ask ← (if bool_decide (s1 = Wanted) then mret true
         else s2 ← modifier_status mid; mret (bool_decide (s2 = Unknown)));
  if (ask : bool) then found ← read (fun h => contains h mid); mret (negb found) else mret false.

Fixpoint select_wanted (proposed_modifiers : list bytes) : Task (list bytes) :=
  match proposed_modifiers with
  | [] => mret []
  | mid :: rest =>
    wanted ← is_wanted mid;
    others ← select_wanted rest;
    mret (if (wanted : bool) then mid :: others else others)
  end.

Definition on_inv_task (peer_id : PeerId) (mod_type : ModifierType) (modifiers : list bytes) : Task unit :=
  wanted ← select_wanted modifiers;
  match wanted with
  | [] => mret tt
  | _ => push (ToHandler (Send peer_id (RequestModifiers mod_type wanted)))
  end.

Definition enable_task (peer_id : PeerId) : Task unit :=
  handshakes ← make_poly_handshake;
  push (ToHandler (EnablePeer peer_id handshakes)).

(** ** The behaviour *)

(** A spawned task; [Waiting] has asked for the status of a modifier. *)
Inductive Spawned :=
| Running (t : Task unit)
| Waiting (k : ModifierStatus -> Task unit).

(** A message in the channel; a request for a status names the task that
    waits for the answer. *)
Inductive InChannel :=
| FromT (m : FromTask)
| GetModifierStatus (mid : bytes) (status_future : nat).

(** [history] is the shared history, [applied] what the ledger view was
    given. *)
Record DiffusionBehaviour := {
  max_inv_size : nat;
  from_tasks : list InChannel;
  outbox : list DiffusionBehaviourOut;
  tasks : gmap nat Spawned;
  next_task : nat;
  peers : gmap PeerId SyncState;
  delivery : gmap bytes ModifierStatus;
  history : Hst;
  applied : list AnyModifier;
}.

Definition FROM_TASK_BUFFER_SIZE : nat := 1000.

Definition diffusion_new (max_inv_size : nat) (history : Hst) : DiffusionBehaviour := {|
  max_inv_size := max_inv_size;
  from_tasks := [];
  outbox := [];
  tasks := ∅;
  next_task := 0;
  peers := ∅;
  delivery := ∅;
  history := history;
  applied := [];
|}.

Definition status (delivery : gmap bytes ModifierStatus) (mid : bytes) : ModifierStatus :=
  default Unknown (delivery !! mid).

Definition set_status (mid : bytes) (st : ModifierStatus) (delivery : gmap bytes ModifierStatus)
    : gmap bytes ModifierStatus :=
  match st with
  | Unknown => delete mid delivery
  | _ => <[mid := st]> delivery
  end.

Definition spawn (t : Task unit) (s : DiffusionBehaviour) : DiffusionBehaviour :=
  s <| tasks ::= <[next_task s := Running t]> |> <| next_task ::= S |>.

(** [TaskPool::poll_next] runs some tasks for some steps, and drops those
    whose timeout expired. *)
Inductive PoolEvent := Progress (id : nat) | Timeout (id : nat).

Definition send (m : InChannel) (id : nat) (t : Spawned) (s : DiffusionBehaviour) : DiffusionBehaviour :=
  if (length (from_tasks s) <? FROM_TASK_BUFFER_SIZE)%nat
  then s <| from_tasks ::= fun q => q ++ [m] |> <| tasks ::= <[id := t]> |>
  else s.

Definition task_step (s : DiffusionBehaviour) (id : nat) : outcome DiffusionBehaviour :=
  match tasks s !! id with
  | Some (Running t) =>
    match t with
    | Ret _ => Done (s <| tasks ::= delete id |>)
    | Stop => Panic
    | Read k => Done (s <| tasks ::= <[id := Running (k (history s))]> |>)
    | Push m k => Done (send (FromT m) id (Running k) s)
    | Ask mid k => Done (send (GetModifierStatus mid id) id (Waiting k) s)
    | Apply md k => Done (s <| applied ::= fun l => l ++ [md] |> <| tasks ::= <[id := Running k]> |>)
    end
  | _ => Done s
  end.

Definition pool_event (s : DiffusionBehaviour) (e : PoolEvent) : outcome DiffusionBehaviour :=
  match e with
  | Progress id => task_step s id
  | Timeout id => Done (s <| tasks ::= delete id |>)
  end.

(** [on_event]; an answer to a task that is gone fails to send. *)
Definition on_event (s : DiffusionBehaviour) (m : InChannel) : outcome DiffusionBehaviour :=
  match m with
  | FromT (UpdatePeer peer_id peer_state) => Done (s <| peers ::= <[peer_id := peer_state]> |>)
  | FromT (UpdateModifier mid st) => Done (s <| delivery ::= set_status mid st |>)
  | FromT (ToHandler out) => Done (s <| outbox ::= fun o => o ++ [out] |>)
  | GetModifierStatus mid id =>
    match tasks s !! id with
    | Some (Waiting k) => Done (s <| tasks ::= <[id := Running (k (status (delivery s) mid))]> |>)
    | _ => Panic
    end
  end.

Definition is_output (m : InChannel) : bool :=
  match m with FromT (ToHandler _) => true | _ => false end.

(** The loop of [poll]: one iteration per element of [scheds], which says how
    the tasks progress. *)
Fixpoint poll_loop (s : DiffusionBehaviour) (scheds : list (list PoolEvent)) : outcome DiffusionBehaviour :=
  match scheds with
  | [] => NoFuel
  | sched :: scheds =>
    s ← foldO pool_event sched s;
    match from_tasks s with
    | [] => Done s
    | m :: q =>
      s ← on_event (s <| from_tasks := q |>) m;
      if is_output m then Done s else poll_loop s scheds
    end
  end.

Definition diffusion_poll (s : DiffusionBehaviour) (scheds : list (list PoolEvent))
    : outcome (DiffusionBehaviour * option DiffusionBehaviourOut) :=
  s ← poll_loop s scheds;
  match outbox s with
  | out :: o => Done (s <| outbox := o |>, Some out)
  | [] => Done (s, None)
  end.

Definition diffusion_inject_message (s : DiffusionBehaviour) (peer_id : PeerId) (msg : DiffusionMessageV1)
    : DiffusionBehaviour :=
  match msg with
  | Inv mod_type modifiers => spawn (on_inv_task peer_id mod_type modifiers) s
  | RequestModifiers mod_type modifiers => spawn (on_modifiers_request_task peer_id mod_type modifiers) s
  | Modifiers mod_type modifiers => spawn (on_modifiers_task peer_id mod_type modifiers) s
  | MSyncStatus st => spawn (on_sync_task (max_inv_size s) peer_id st false) s
  end.

Definition inject_protocol_requested (s : DiffusionBehaviour) (peer_id : PeerId) (handshake : option SyncStatus)
    : DiffusionBehaviour :=
  match handshake with
  | Some st => spawn (on_sync_task (max_inv_size s) peer_id st true) s
  | None => s
  end.

Definition inject_protocol_requested_locally (s : DiffusionBehaviour) (peer_id : PeerId) : DiffusionBehaviour :=
  spawn (enable_task peer_id) s.
End Diffusion.

Arguments Ret {Hst Hd Bd Tx PeerId A}.
Arguments Stop {Hst Hd Bd Tx PeerId A}.
Arguments Read {Hst Hd Bd Tx PeerId A}.
Arguments Push {Hst Hd Bd Tx PeerId A}.
Arguments Ask {Hst Hd Bd Tx PeerId A}.
Arguments Apply {Hst Hd Bd Tx PeerId A}.
