(* ===== verification/DiffusionSafety.v ===== *)
(** * Synchronisation of chains

    What the tasks of [Diffusion] do against fixed histories: the comparison
    of two honest chains is exact, and the reply of a node names exactly the
    blocks the other side lacks.  Then the behaviour as a whole: every output
    is justified by an input of the same peer. *)

From S2P Require Import Prelude Crypto Validation Diffusion.

Section Sync.
Context {Hst Hd Bd Tx PeerId : Type} `{Countable PeerId}.
Context `{!HeaderLike Hd} `{!LedgerHistoryReadAsync Hst Hd}.
Context (dec : Decoders (Hd := Hd) (Bd := Bd) (Tx := Tx)).

Abbreviation T := (Task (Hst := Hst) (Hd := Hd) (Bd := Bd) (Tx := Tx) (PeerId := PeerId)).
Abbreviation AnyMod := (AnyModifier (Hd := Hd) (Bd := Bd) (Tx := Tx)).
Abbreviation From := (FromTask (PeerId := PeerId)).

(** ** Running a task alone *)

(** What a task did: its messages and the modifiers it applied, in order. *)
Definition effects : Type := list (From + AnyMod).

(** The run of a task against a fixed history and fixed statuses. *)
Fixpoint exec {A} (h : Hst) (ask : bytes -> ModifierStatus) (t : T A) : outcome (A * effects) :=
  match t with
  | Ret a => Done (a, [])
  | Stop => Panic
  | Read k => exec h ask (k h)
  | Push m k => r ← exec h ask k; Done (r.1, inl m :: r.2)
  | Ask mid k => exec h ask (k (ask mid))
  | Apply md k => r ← exec h ask k; Done (r.1, inr md :: r.2)
  end.

Lemma exec_bind {A B} h ask (t : T A) (f : A -> T B) :
  exec h ask (t ≫= f) =
  r ← exec h ask t; s ← exec h ask (f r.1); Done (s.1, r.2 ++ s.2).
Proof.
  induction t as [a| |k IH|m k IH|mid k IH|md k IH]; cbn.
  - by destruct (exec h ask (f a)) as [[b e]| |].
  - done.
  - apply IH.
  - rewrite IH. destruct (exec h ask k) as [[a e]| |]; cbn; [|done..].
    by destruct (exec h ask (f a)) as [[b e']| |].
  - apply IH.
  - rewrite IH. destruct (exec h ask k) as [[a e]| |]; cbn; [|done..].
    by destruct (exec h ask (f a)) as [[b e']| |].
Qed.

Lemma exec_read {A} h ask (f : Hst -> A) : exec h ask (read f : T A) = Done (f h, []).
Proof. done. Qed.

Lemma exec_ret {A} h ask (a : A) : exec h ask (mret a : T A) = Done (a, []).
Proof. done. Qed.

Lemma exec_push h ask (m : From) : exec h ask (push m : T unit) = Done (tt, [inl m]).
Proof. done. Qed.

(** Run the first steps of a task. *)
Ltac exec_step := rewrite ?exec_bind, ?exec_ret, ?exec_read, ?exec_push; outcome_cbn; cbn [fst snd app].

(** ** Histories and chains *)

Lemma last_drop_lt {A} (l : list A) n : n < length l -> last (drop n l) = last l.
Proof. intros Hn. rewrite !last_lookup, lookup_drop, length_drop. f_equal. lia. Qed.

Abbreviation Record_ := (ModifierRecord Hd).
Definition ids (c : list Record_) : list bytes := rec_id <$> c.
Definition slot (r : Record_) : Z := slot_num (rec_modifier r).

(** [h] holds the chain [c], oldest block first. *)
Record history_of (h : Hst) (c : list Record_) : Prop := {
  ho_nodup : NoDup (ids c);
  ho_slots : StronglySorted (fun a b => slot a < slot b)%Z c;
  ho_member id : member h id = bool_decide (id ∈ ids c);
  ho_tip : last c = Some (get_tip h);
  ho_tail n : n <> 0 -> (get_tail h n).1 :: (get_tail h n).2 = drop (length c - n) c;
  ho_follow pre p l cap : c = p ++ pre :: l -> follow h (rec_id pre) cap = take cap (ids l);
}.

(** The status of a node: its newest slot and its newest 256 blocks. *)
Definition status_of (c : list Record_) (st : SyncStatus) : Prop :=
  (slot <$> last c) = Some (height st) /\
  last_blocks st = reverse (drop (length c - SYNC_HEADERS) (ids c)).

Lemma local_status_of h ask c : history_of h c ->
  exists st, exec h ask (local_status : T SyncStatus) = Done (st, []) /\ status_of c st.
Proof.
  intros Hh. destruct (get_tail h SYNC_HEADERS) as [x r] eqn:Ht.
  pose proof (ho_tail _ _ Hh SYNC_HEADERS ltac:(done)) as Htail. rewrite Ht in Htail. cbn in Htail.
  eexists. split.
  - unfold local_status. rewrite exec_bind, exec_read. outcome_cbn. cbn [fst snd].
    rewrite exec_bind, exec_read. outcome_cbn. cbn [fst snd]. rewrite Ht. reflexivity.
  - split; cbn [height last_blocks].
    + transitivity (slot <$> last (drop (length c - SYNC_HEADERS) c)).
      * f_equal. symmetry. apply last_drop_lt. unfold SYNC_HEADERS.
        pose proof (ho_tip _ _ Hh) as Htip. apply last_Some in Htip as [c' ->]. rewrite length_app. cbn. lia.
      * rewrite <- Htail. cbn [snd fst]. rewrite last_cons. by destruct (last r).
    + f_equal. unfold ids. rewrite <- fmap_drop, <- Htail. done.
Qed.

(** ** The comparison of two honest chains *)

(** The verdict on a peer whose chain leaves the local one after [p]: the
    local chain continues with [l], the remote one with [r]. *)
Definition classify (delta : Z) (shared : nat) (p : Record_) (l r : list Record_) : RemoteChainCmp :=
  if (Z.of_nat shared <? delta)%Z then Longer None
  else match l, r with
       | [], [] => Equal
       | [], _ => if (length r <? SYNC_HEADERS)%nat then Longer (Some (ids r)) else Fork None
       | _, [] => Shorter (rec_id p)
       | _, _ => if (length r <? SYNC_HEADERS)%nat then Fork (Some (rec_id p)) else Fork None
       end.

(** The newest blocks of a chain, newest first. *)
Lemma newest_blocks p0 p r :
  exists older, reverse (drop (length (p0 ++ p :: r) - SYNC_HEADERS) (ids (p0 ++ p :: r))) =
    if (length r <? SYNC_HEADERS)%nat then reverse (ids r) ++ rec_id p :: older
    else reverse (drop (length r - SYNC_HEADERS) (ids r)).
Proof.
  unfold ids. rewrite length_app. cbn [length]. rewrite fmap_app, fmap_cons.
  destruct (Nat.ltb_spec (length r) SYNC_HEADERS) as [Hlt|Hge].
  - exists (reverse (drop (length p0 + S (length r) - SYNC_HEADERS) (rec_id <$> p0))).
    rewrite drop_app_le by (rewrite length_fmap; lia).
    rewrite reverse_app, reverse_cons, <- app_assoc. done.
  - exists []. rewrite drop_app_ge by (rewrite length_fmap; lia). rewrite length_fmap.
    replace (length p0 + S (length r) - SYNC_HEADERS - length p0) with (S (length r - SYNC_HEADERS)) by lia.
    done.
Qed.

Lemma find_first (id : bytes) pre post :
  id ∉ pre -> snd <$> list_find (fun b => b = id) (pre ++ id :: post) = Some id.
Proof.
  intros Hid. rewrite list_find_app_r; [cbn; by rewrite decide_True|].
  apply list_find_None, Forall_forall. intros b Hb ->. done.
Qed.

Lemma find_none (id : bytes) l : id ∉ l -> snd <$> list_find (fun b => b = id) l = None.
Proof.
  intros Hid. assert (list_find (fun b => b = id) l = None) as ->; [|done].
  apply list_find_None, Forall_forall. intros b Hb ->. done.
Qed.

Lemma take_until_app (id : bytes) pre post : id ∉ pre -> take_until id (pre ++ id :: post) = pre.
Proof.
  induction pre as [|x pre IH]; intros Hid; cbn; [by rewrite bool_decide_true|].
  rewrite bool_decide_false by set_solver. f_equal. apply IH. set_solver.
Qed.

Lemma common_point_first h ask pre post (id : bytes) :
  Forall (fun b => member h b = false) pre -> member h id = true ->
  exec h ask (common_point (pre ++ id :: post) : T _) = Done (Some id, []).
Proof.
  intros Hpre Hid. induction Hpre as [|b pre Hb _ IH]; cbn [app common_point];
    rewrite exec_bind, exec_read; outcome_cbn; cbn [fst snd].
  - by rewrite Hid.
  - rewrite Hb, IH. done.
Qed.

Lemma common_point_none h ask l :
  Forall (fun b => member h b = false) l -> exec h ask (common_point l : T _) = Done (None, []).
Proof.
  intros Hl. induction Hl as [|b l Hb _ IH]; cbn [common_point]; [done|].
  rewrite exec_bind, exec_read. outcome_cbn. cbn [fst snd]. rewrite Hb, IH. done.
Qed.

(** Two chains that part after [p]. *)
Record fork_at (h : Hst) (p0 : list Record_) (p : Record_) (l r : list Record_) : Prop := {
  fk_local : history_of h (p0 ++ p :: l);
  fk_nodup : NoDup (ids (p0 ++ p :: r));
  fk_slots : StronglySorted (fun a b => slot a < slot b)%Z (p0 ++ p :: r);
  fk_apart id : id ∈ ids l -> id ∉ ids r;
}.

Lemma ids_split p0 p r id : id ∈ ids (p0 ++ p :: r) <-> id ∈ ids p0 \/ id = rec_id p \/ id ∈ ids r.
Proof. unfold ids. rewrite fmap_app, fmap_cons, elem_of_app, elem_of_cons. done. Qed.

Lemma fork_remote_only h p0 p l r id : fork_at h p0 p l r -> id ∈ ids r -> member h id = false.
Proof.
  intros F Hid. rewrite (ho_member _ _ (fk_local _ _ _ _ _ F)). apply bool_decide_false.
  pose proof (fk_nodup _ _ _ _ _ F) as Hn. unfold ids in Hn. rewrite fmap_app, fmap_cons in Hn.
  apply NoDup_app in Hn as (_ & Hdis & [Hp _]%NoDup_cons). intros [H0|[->|Hl]]%ids_split.
  - apply (Hdis id H0). by right.
  - done.
  - by apply (fk_apart _ _ _ _ _ F id).
Qed.

Lemma fork_point_member h p0 p l r : fork_at h p0 p l r -> member h (rec_id p) = true.
Proof.
  intros F. rewrite (ho_member _ _ (fk_local _ _ _ _ _ F)). apply bool_decide_true, ids_split. auto.
Qed.

(** The local tip is the fork point, or not in the remote chain. *)
Lemma fork_tip h p0 p l r : fork_at h p0 p l r ->
  match l with
  | [] => get_tip h = p
  | _ => rec_id (get_tip h) ∉ ids (p0 ++ p :: r)
  end.
Proof.
  intros F. pose proof (ho_tip _ _ (fk_local _ _ _ _ _ F)) as Ht. destruct l as [|x l].
  { rewrite last_snoc in Ht. by injection Ht. }
  pose proof (ho_nodup _ _ (fk_local _ _ _ _ _ F)) as Hn. rewrite last_app in Ht. cbn [last] in Ht.
  assert (get_tip h ∈ x :: l) as Hin.
  { destruct (last (x :: l)) as [t|] eqn:E; cbn in Ht; [|by apply last_None in E].
    change (Some t = Some (get_tip h)) in Ht. injection Ht as <-. apply last_Some in E as [l' ->]. set_solver. }
  assert (rec_id (get_tip h) ∈ ids (x :: l)) as Hid by (by apply list_elem_of_fmap_2).
  unfold ids in Hn. rewrite fmap_app, fmap_cons in Hn. apply NoDup_app in Hn as (_ & Hdis & [Hp _]%NoDup_cons).
  intros [H0|[He|Hr]]%ids_split.
  - apply (Hdis _ H0). by right.
  - apply Hp. by rewrite <- He.
  - by apply (fk_apart _ _ _ _ _ F _ Hid).
Qed.

Lemma slot_le_last p0 p r t : StronglySorted (fun a b => slot a < slot b)%Z (p0 ++ p :: r) ->
  last (p0 ++ p :: r) = Some t -> (slot p <= slot t)%Z.
Proof.
  intros Hs Hl. apply StronglySorted_app in Hs as (_ & _ & Hs). rewrite last_app in Hl.
  destruct (last (p :: r)) as [t'|] eqn:E; [|by apply last_None in E]. injection Hl as <-.
  apply last_Some_elem_of in E as [->|Ht]%elem_of_cons; [done|].
  apply StronglySorted_inv in Hs as [_ Hf]. rewrite Forall_forall in Hf. specialize (Hf _ Ht). lia.
Qed.

Lemma status_height p0 p r st : StronglySorted (fun a b => slot a < slot b)%Z (p0 ++ p :: r) ->
  status_of (p0 ++ p :: r) st -> (slot p <= height st)%Z.
Proof.
  intros Hs [Hh _]. destruct (last (p0 ++ p :: r)) as [t|] eqn:E; [|done]. injection Hh as <-.
  by eapply slot_le_last.
Qed.

(** The newest block of the remote chain comes first in its status. *)
Lemma newest_first p0 p r st : status_of (p0 ++ p :: r) st ->
  exists tip rest, last_blocks st = tip :: rest /\
    match r with [] => tip = rec_id p | _ => tip ∈ ids r end.
Proof.
  intros [_ Hb]. destruct (newest_blocks p0 p r) as [older Ho]. rewrite Hb, Ho. clear Hb Ho.
  destruct r as [|x r]; [by eexists _, _|].
  assert (forall n (l : list Record_), n < length l -> exists tip rest,
    reverse (drop n (ids l)) = tip :: rest /\ tip ∈ ids l) as Hhead.
  { intros n l' Hn. destruct (reverse (drop n (ids l'))) as [|tip rest] eqn:E.
    - apply (f_equal length) in E. unfold ids in E. rewrite length_reverse, length_drop, length_fmap in E. cbn in E. lia.
    - exists tip, rest. split; [done|]. assert (tip ∈ reverse (drop n (ids l'))) as Hin by (rewrite E; left).
      apply elem_of_reverse in Hin. rewrite <- (take_drop n (ids l')). set_solver. }
  destruct (Nat.ltb_spec (length (x :: r)) SYNC_HEADERS) as [Hlt|Hge].
  - destruct (Hhead 0 (x :: r)) as (tip & rest & Htip & Hin); [cbn; lia|]. rewrite drop_0 in Htip.
    rewrite Htip. exists tip, (rest ++ rec_id p :: older). done.
  - destruct (Hhead (length (x :: r) - SYNC_HEADERS) (x :: r)) as (tip & rest & Htip & Hin); [unfold SYNC_HEADERS in *; lia|].
    rewrite Htip. by exists tip, rest.
Qed.

Lemma elem_of_newest n (l : list bytes) b : b ∈ reverse (drop n l) -> b ∈ l.
Proof. intros Hin%elem_of_reverse. rewrite <- (take_drop n l). set_solver. Qed.

(** Against the status an honest node sends, [compare_remote] returns the
    relation of the two chains: equal, longer with exactly the missing
    blocks, shorter by its newest block, or forked at the last common block.
    It falls back to [Longer None] when the slots are further apart than the
    status reaches, and to [Fork None] when the common block is older than
    the status. *)
Lemma compare_remote_exec h ask p0 p l r st :
  fork_at h p0 p l r -> status_of (p0 ++ p :: r) st ->
  exec h ask (compare_remote st : T RemoteChainCmp) =
  Done (classify (Z.max 0 (height st - slot (get_tip h))) (length (last_blocks st)) p l r, []).
Proof.
  intros F Hs. destruct (newest_first _ _ _ _ Hs) as (tip & rest & Hbl & Htip).
  pose proof (status_height _ _ _ _ (fk_slots _ _ _ _ _ F) Hs) as Hheight.
  pose proof (fork_tip _ _ _ _ _ F) as Hlt. pose proof (fork_point_member _ _ _ _ _ F) as Hpm.
  assert (forall b, b ∈ ids r -> member h b = false) as Hro by (intros b; by eapply fork_remote_only).
  assert (rec_id p ∉ ids r) as Hpr by (intros Hin; rewrite (Hro _ Hin) in Hpm; done).
  destruct (newest_blocks p0 p r) as [older Hnew]. pose proof (proj2 Hs) as Hb. rewrite Hnew in Hb. clear Hnew.
  unfold compare_remote. rewrite exec_bind, exec_read. outcome_cbn. cbn [fst snd]. rewrite Hbl.
  change (slot_num (rec_modifier (get_tip h))) with (slot (get_tip h)).
  unfold classify. destruct (Z.of_nat _ <? _)%Z; [done|]. rewrite <- Hbl. clear Hbl.
  destruct l as [|y l].
  - rewrite Hlt. destruct (length r <? SYNC_HEADERS)%nat eqn:Hlen; rewrite Hb.
    + rewrite find_first by (by rewrite elem_of_reverse). rewrite (proj2 (Z.leb_le _ _)) by done.
      destruct r as [|x r]; [by rewrite bool_decide_true|]. rewrite bool_decide_false by congruence.
      rewrite take_until_app by (by rewrite elem_of_reverse). by rewrite reverse_involutive.
    + rewrite find_none by eauto using elem_of_newest.
      rewrite exec_bind, common_point_none by (apply Forall_forall; eauto using elem_of_newest). by destruct r.
  - rewrite find_none by (rewrite (proj2 Hs); eauto using elem_of_newest). rewrite exec_bind, Hb.
    destruct (length r <? SYNC_HEADERS)%nat eqn:Hlen.
    + rewrite common_point_first; [|apply Forall_forall; intros b; rewrite elem_of_reverse; auto|done].
      outcome_cbn. cbn [fst snd]. destruct r as [|x r]; [by rewrite bool_decide_true|].
      by rewrite bool_decide_false by congruence.
    + rewrite common_point_none by (apply Forall_forall; eauto using elem_of_newest). by destruct r.
Qed.

(** Against the status of an honest peer, [compare_remote] returns, and
    its verdict is true: equal chains are equal, a longer chain lacks exactly
    the wanted blocks, a shorter chain ends where the verdict says, and a fork
    is located at the last common block.  The verdict is left open only when
    the slots are further apart than the status has blocks, or when the common
    block is older than the status; an honest peer is never called nonsense. *)
Theorem compare_remote_sound h ask p0 p l r st :
  fork_at h p0 p l r -> status_of (p0 ++ p :: r) st ->
  exists cmp, exec h ask (compare_remote st : T RemoteChainCmp) = Done (cmp, []) /\
    match cmp with
    | Equal => l = [] /\ r = []
    | Longer (Some wanted) => l = [] /\ r <> [] /\ wanted = ids r
    | Shorter tip => l <> [] /\ r = [] /\ tip = rec_id p
    | Fork (Some point) => l <> [] /\ r <> [] /\ point = rec_id p
    | Longer None => (Z.of_nat (length (last_blocks st)) < height st - slot (get_tip h))%Z
    | Fork None => SYNC_HEADERS <= length r
    | Nonsense => False
    end.
Proof.
  intros F Hs. eexists. split; [by eapply compare_remote_exec|].
  unfold classify. destruct (Z.ltb_spec (Z.of_nat (length (last_blocks st)))
    (Z.max 0 (height st - slot (get_tip h)))); [lia|].
  destruct (Nat.ltb_spec (length r) SYNC_HEADERS) as [Hlt|Hge]; destruct l, r; naive_solver.
Qed.

(** ** The reply to a status *)

(** What a node answers, besides recording the peer and, on a handshake,
    enabling it. *)
Definition reply (cap : nat) (peer : PeerId) (own : SyncStatus) (initial : bool) (l : list Record_)
    (cmp : RemoteChainCmp) : list From :=
  match cmp with
  | Equal | Nonsense => []
  | Longer None | Fork None => if initial then [] else [ToHandler (Send peer (MSyncStatus own))]
  | Longer (Some wanted) => [ToHandler (Send peer (RequestModifiers TBlockHeader wanted))]
  | Shorter _ | Fork (Some _) => [ToHandler (Send peer (Inv TBlockHeader (take cap (ids l))))]
  end.

Lemma classify_tip delta shared p l r t :
  classify delta shared p l r = Shorter t \/ classify delta shared p l r = Fork (Some t) -> t = rec_id p.
Proof.
  unfold classify. destruct (_ <? _)%Z; [naive_solver|].
  destruct l, r; try destruct (_ <? _)%nat; naive_solver.
Qed.

Lemma exec_reply h ask cap peer initial p0 p l r own cmp :
  fork_at h p0 p l r -> exec h ask (local_status : T SyncStatus) = Done (own, []) ->
  (forall t, cmp = Shorter t \/ cmp = Fork (Some t) -> t = rec_id p) ->
  exec h ask (sync_reply cap peer initial cmp : T unit) = Done (tt, inl <$> reply cap peer own initial l cmp).
Proof.
  intros F Hown Ht.
  assert (follow h (rec_id p) cap = take cap (ids l)) as Hf by (by apply (ho_follow _ _ (fk_local _ _ _ _ _ F) p p0)).
  destruct cmp as [|[w|]|t|[t|]|]; cbn [reply sync_reply]; try done.
  - destruct initial; [done|]. by rewrite exec_bind, Hown.
  - rewrite (Ht t) by auto. unfold extension. rewrite exec_bind, exec_read. outcome_cbn. cbn [fst snd].
    by rewrite exec_push, Hf.
  - rewrite (Ht t) by auto. unfold extension. rewrite exec_bind, exec_read. outcome_cbn. cbn [fst snd].
    by rewrite exec_push, Hf.
  - destruct initial; [done|]. by rewrite exec_bind, Hown.
Qed.

(** The task for the status of an honest peer records the comparison,
    on a handshake enables the peer with the own status, and then asks for
    exactly the blocks the node lacks, announces exactly the blocks the peer
    lacks (up to the cap), or sends the own status when the two chains could
    not be related. *)
Lemma on_sync_exec h ask cap peer st initial p0 p l r :
  fork_at h p0 p l r -> status_of (p0 ++ p :: r) st ->
  let cmp := classify (Z.max 0 (height st - slot (get_tip h))) (length (last_blocks st)) p l r in
  exists own, status_of (p0 ++ p :: l) own /\
    exec h ask (on_sync_task cap peer st initial : T unit) =
    Done (tt, inl <$>
      (UpdatePeer peer {| st_height := height st; st_cmp := cmp |} ::
       (if initial then [ToHandler (EnablePeer peer [(1%Z, Some own)])] else []) ++
       reply cap peer own initial l cmp)).
Proof.
  intros F Hs cmp. destruct (local_status_of h ask _ (fk_local _ _ _ _ _ F)) as (own & Hown & Ho).
  exists own. split; [done|]. unfold on_sync_task, remote_state.
  rewrite !exec_bind, (compare_remote_exec h ask p0 p l r st) by done. outcome_cbn. cbn [fst snd].
  do 2 exec_step. fold cmp. cbn [st_cmp].
  assert (exec h ask (sync_reply cap peer initial cmp : T unit) =
    Done (tt, inl <$> reply cap peer own initial l cmp)) as Hr.
  { eapply exec_reply; [done..|]. intros t. apply classify_tip. }
  destruct initial; [|exec_step; by rewrite Hr].
  unfold make_poly_handshake. rewrite !exec_bind, Hown. do 2 exec_step. by rewrite Hr.
Qed.

(** ** Catching up *)

Lemma is_wanted_exec h ask mid :
  exec h ask (is_wanted mid : T bool) =
  Done (bool_decide (ask mid = Wanted \/ ask mid = Unknown) && negb (contains h mid), []).
Proof.
  unfold is_wanted, modifier_status. cbn. destruct (ask mid) eqn:E; repeat (case_bool_decide; cbn; rewrite ?E);
    naive_solver.
Qed.

Lemma select_wanted_all h ask mids :
  Forall (fun mid => ask mid = Unknown /\ contains h mid = false) mids ->
  exec h ask (select_wanted mids : T _) = Done (mids, []).
Proof.
  induction 1 as [|mid mids [Hu Hc] _ IH]; [done|]. cbn [select_wanted].
  rewrite exec_bind, is_wanted_exec, Hu, Hc. do 2 exec_step. by rewrite IH.
Qed.

Lemma apply_all_exec h ask (mds : list AnyMod) :
  exec h ask (apply_all mds : T unit) = Done (tt, inr <$> mds).
Proof. induction mds as [|md mds IH]; [done|]. cbn [apply_all]. rewrite exec_bind. cbn. by rewrite IH. Qed.

Lemma decode_all_exec h ask peer raws (hs : list Hd) :
  Forall2 (fun raw hd => de_header dec raw = Some hd) raws hs ->
  exec h ask (decode_all dec peer TBlockHeader raws : T _) =
  Done (MBlockHeader <$> hs, inl <$> ((fun hd => UpdateModifier (header_digest dec hd) Received) <$> hs)).
Proof.
  induction 1 as [|raw hd raws hs Hraw _ IH]; [done|]. cbn [decode_all].
  unfold decode_modifier. rewrite Hraw. cbn [fmap option_fmap option_map modifier_id of_outcome].
  rewrite exec_bind. cbn [exec]. do 3 exec_step. rewrite IH. do 2 exec_step. by rewrite app_nil_r.
Qed.

(** One exchange between [A] and a node [B] whose chain is a prefix of the chain
    of [A]: [A] answers the status of [B] with the announcement of the first
    blocks [B] lacks, [B] requests all of them, [A] sends them, and [B] marks
    each header as received and applies them in the order of the chain. *)
Lemma exchange_steps hA hB askA askB cap A B p0 p l st :
  fork_at hA p0 p l [] -> status_of (p0 ++ [p]) st -> l <> [] -> cap <> 0 ->
  (forall mid, mid ∈ take cap (ids l) -> askB mid = Unknown /\ contains hB mid = false) ->
  Forall2 (fun raw rec => de_header dec raw = Some (rec_modifier rec))
    (multi_get_raw hA SHeader (take cap (ids l))) (take cap l) ->
  let wanted := take cap (ids l) in
  let raws := multi_get_raw hA SHeader wanted in
  exec hA askA (on_sync_task cap B st false : T unit) =
    Done (tt, [inl (UpdatePeer B {| st_height := height st; st_cmp := Shorter (rec_id p) |});
               inl (ToHandler (Send B (Inv TBlockHeader wanted)))]) /\
  exec hB askB (on_inv_task A TBlockHeader wanted : T unit) =
    Done (tt, [inl (ToHandler (Send A (RequestModifiers TBlockHeader wanted)))]) /\
  exec hA askA (on_modifiers_request_task B TBlockHeader wanted : T unit) =
    Done (tt, [inl (ToHandler (Send B (Modifiers TBlockHeader raws)))]) /\
  exec hB askB (on_modifiers_task dec A TBlockHeader raws : T unit) =
    Done (tt, (inl <$> ((fun rec => UpdateModifier (header_digest dec (rec_modifier rec)) Received) <$> take cap l)) ++
              (inr <$> ((fun rec => MBlockHeader (rec_modifier rec)) <$> take cap l))).
Proof.
  intros F Hs Hl Hcap Hunknown Hraws wanted raws.
  assert (height st <= slot (get_tip hA))%Z as Hh.
  { pose proof (proj1 Hs) as Hh. rewrite last_snoc in Hh. injection Hh as <-.
    pose proof (fk_local _ _ _ _ _ F) as Ha. eapply slot_le_last; [apply (ho_slots _ _ Ha)|apply (ho_tip _ _ Ha)]. }
  split_and!.
  - destruct (on_sync_exec hA askA cap B st false p0 p l []) as (own & _ & ->); [done..|].
    unfold classify. rewrite Z.max_l by lia. rewrite (proj2 (Z.ltb_ge _ _)) by lia. by destruct l.
  - unfold on_inv_task. rewrite exec_bind, select_wanted_all by (apply Forall_forall; auto). exec_step.
    unfold wanted. destruct cap, l as [|x l]; done.
  - unfold on_modifiers_request_task. by do 2 exec_step.
  - unfold on_modifiers_task. rewrite exec_bind.
    rewrite (decode_all_exec _ _ _ _ (rec_modifier <$> take cap l)) by (by apply Forall2_fmap_r).
    outcome_cbn. cbn [fst snd]. rewrite apply_all_exec. outcome_cbn. cbn [fst snd].
    by rewrite <- !list_fmap_compose.
Qed.
(** *** Conversations *)

(** The task a message spawns. *)
Definition message_task (cap : nat) (peer : PeerId) (msg : DiffusionMessageV1) : T unit :=
  match msg with
  | Inv mod_type modifiers => on_inv_task peer mod_type modifiers
  | RequestModifiers mod_type modifiers => on_modifiers_request_task peer mod_type modifiers
  | Modifiers mod_type modifiers => on_modifiers_task dec peer mod_type modifiers
  | MSyncStatus st => on_sync_task cap peer st false
  end.

Lemma inject_spawns s peer msg :
  diffusion_inject_message dec s peer msg = spawn (message_task (max_inv_size s) peer msg) s.
Proof. by destruct msg. Qed.

(** A node: its identity, its history, the statuses of modifiers. *)
Record Side := { sd_id : PeerId; sd_history : Hst; sd_status : bytes -> ModifierStatus }.

(** The messages sent to a peer and the modifiers applied, in order. *)
Definition sent (to : PeerId) (e : effects) : list DiffusionMessageV1 :=
  omap (fun x => match x with
                 | inl (ToHandler (Send p m)) => if bool_decide (p = to) then Some m else None
                 | _ => None
                 end) e.
Definition mods_of (e : effects) : list AnyMod :=
  omap (fun x => match x with inr md => Some md | inl _ => None end) e.

Fixpoint handle_all (cap : nat) (me peer : Side) (msgs : list DiffusionMessageV1) : outcome effects :=
  match msgs with
  | [] => Done []
  | msg :: msgs =>
    r ← exec (sd_history me) (sd_status me) (message_task cap (sd_id peer) msg);
    e ← handle_all cap me peer msgs;
    Done (r.2 ++ e)
  end.

(** Two nodes answer each other until there is nothing to send: what the one
    did that gets the first messages, and what the other did. *)
Fixpoint converse (fuel cap : nat) (me peer : Side) (msgs : list DiffusionMessageV1) : outcome (effects * effects) :=
  match msgs, fuel with
  | [], _ => Done ([], [])
  | _, 0 => NoFuel
  | _, S fuel =>
    e ← handle_all cap me peer msgs;
    r ← converse fuel cap peer me (sent (sd_id peer) e);
    Done (e ++ r.2, r.1)
  end.

(** How the node view stores a header, with what it promises. *)
Context (apply_header : Hst -> Hd -> Hst).

Definition stores_headers : Prop := forall h c rec, history_of h c ->
  NoDup (ids (c ++ [rec])) -> StronglySorted (fun a b => slot a < slot b)%Z (c ++ [rec]) ->
  header_digest dec (rec_modifier rec) = rec_id rec ->
  history_of (apply_header h (rec_modifier rec)) (c ++ [rec]) /\
  forall id, contains (apply_header h (rec_modifier rec)) id = contains h id || bool_decide (id = rec_id rec).

Definition apply_mod (h : Hst) (md : AnyMod) : Hst :=
  match md with MBlockHeader hd => apply_header h hd | _ => h end.

Definition mark (ask : bytes -> ModifierStatus) (x : From + AnyMod) : bytes -> ModifierStatus :=
  match x with
  | inl (UpdateModifier mid st) => fun id => if bool_decide (id = mid) then st else ask id
  | _ => ask
  end.

(** The node after the effects of its tasks have reached the node view and the
    delivery store. *)
Definition settle (b : Side) (e : effects) : Side := {|
  sd_id := sd_id b;
  sd_history := foldl apply_mod (sd_history b) (mods_of e);
  sd_status := foldl mark (sd_status b) e;
|}.

(** [n] times the status of [b] reaches [a], each time after the effects of the
    conversation before. *)
Fixpoint sync_rounds (n cap : nat) (a b : Side) : outcome Side :=
  match n with
  | 0 => Done b
  | S n =>
    st ← exec (sd_history b) (sd_status b) (local_status : T SyncStatus);
    r ← converse 4 cap a b [MSyncStatus st.1];
    sync_rounds n cap a (settle b r.2)
  end.

(** The headers [recs], as a conversation delivers them. *)
Definition header_effects (recs : list Record_) : effects :=
  (inl <$> ((fun rec => UpdateModifier (header_digest dec (rec_modifier rec)) Received) <$> recs)) ++
  (inr <$> ((fun rec => MBlockHeader (rec_modifier rec)) <$> recs)).

Lemma applied_header_effects recs : mods_of (header_effects recs) = (fun rec => MBlockHeader (rec_modifier rec)) <$> recs.
Proof.
  unfold mods_of, header_effects. rewrite omap_app, <- !list_fmap_compose.
  assert (forall l : list Record_, omap (fun x : From + AnyMod => match x with inr md => Some md | inl _ => None end)
    ((inl ∘ fun rec => UpdateModifier (header_digest dec (rec_modifier rec)) Received) <$> l) = []) as -> by (induction l; done).
  cbn [app]. induction recs as [|x r IH]; [done|]. cbn in *. by rewrite IH.
Qed.

Lemma mark_header_effects recs ask id :
  (forall rec, rec ∈ recs -> header_digest dec (rec_modifier rec) <> id) -> foldl mark ask (header_effects recs) id = ask id.
Proof.
  unfold header_effects. rewrite foldl_app. assert (forall l ask, foldl mark ask (inr <$> l) = ask) as -> by (induction l; done).
  revert ask. induction recs as [|x r IH]; intros ask Hid; [done|]. cbn. rewrite IH by (intros; apply Hid; by right).
  rewrite bool_decide_false; [done|]. intros ->. by apply (Hid x); [left|].
Qed.

(** What [a] can serve: the records of [l], decodable and named by their digest. *)
Definition serves (a : Side) (l : list Record_) : Prop :=
  (forall l', l' ⊆ l -> Forall2 (fun raw rec => de_header dec raw = Some (rec_modifier rec))
    (multi_get_raw (sd_history a) SHeader (ids l')) l') /\
  forall rec, rec ∈ l -> header_digest dec (rec_modifier rec) = rec_id rec.

(** [b] has never heard of the records of [l]. *)
Definition unheard (b : Side) (l : list Record_) : Prop :=
  forall id, id ∈ ids l -> sd_status b id = Unknown /\ contains (sd_history b) id = false.

Lemma fork_of_prefix h p0 p l : history_of h (p0 ++ p :: l) -> fork_at h p0 p l [].
Proof.
  intros Hh. pose proof (ho_nodup _ _ Hh) as Hn. pose proof (ho_slots _ _ Hh) as Hs.
  replace (p0 ++ p :: l) with ((p0 ++ [p]) ++ l) in Hn, Hs by (by rewrite <- app_assoc).
  unfold ids in Hn. rewrite fmap_app in Hn. apply NoDup_app in Hn as (Hn & _ & _). apply StronglySorted_app_1_l in Hs.
  split; try done. intros id _. apply not_elem_of_nil.
Qed.

Lemma converse_one fuel cap (me peer : Side) msg e :
  exec (sd_history me) (sd_status me) (message_task cap (sd_id peer) msg) = Done (tt, e) ->
  converse (S fuel) cap me peer [msg] = r ← converse fuel cap peer me (sent (sd_id peer) e); Done (e ++ r.2, r.1).
Proof. intros E. cbn [converse handle_all]. rewrite E. outcome_cbn. cbn [fst snd]. by rewrite app_nil_r. Qed.

Lemma sent_header_effects to recs : sent to (header_effects recs) = [].
Proof.
  assert (forall (f : Record_ -> From + AnyMod) (l : list Record_), (forall x, match f x with inl (ToHandler _) => False | _ => True end) ->
    sent to (f <$> l) = []) as Hs.
  { intros f l Hf. induction l as [|x l IH]; [done|]. specialize (Hf x). cbn. fold (sent to). destruct (f x) as [[]|]; done. }
  unfold header_effects. rewrite <- !list_fmap_compose.
  assert (forall x y, sent to (x ++ y) = sent to x ++ sent to y) as -> by (intros; apply omap_app). by rewrite !Hs.
Qed.

(** One round delivers the first blocks [b] lacks. *)
Lemma sync_round cap (a b : Side) p0 p l st :
  history_of (sd_history a) (p0 ++ p :: l) -> status_of (p0 ++ [p]) st -> cap <> 0 -> unheard b l -> serves a l ->
  exists ea eb, converse 4 cap a b [MSyncStatus st] = Done (ea, eb) /\
    mods_of eb = mods_of (header_effects (take cap l)) /\ forall ask, foldl mark ask eb = foldl mark ask (header_effects (take cap l)).
Proof.
  intros Hh Hs Hcap Hun [Hraw _]. pose proof (fork_of_prefix _ _ _ _ Hh) as F. destruct (decide (l = [])) as [->|Hl].
  - destruct (on_sync_exec (sd_history a) (sd_status a) cap (sd_id b) st false p0 p [] []) as (own & _ & E); [done..|].
    rewrite take_nil, (converse_one 3 cap a b (MSyncStatus st) _ E).
    assert ((Z.of_nat (length (last_blocks st)) <? Z.max 0 (height st - slot (get_tip (sd_history a))))%Z = false) as Hz.
    { pose proof (proj1 Hs) as H1. rewrite last_snoc in H1. injection H1 as H1.
      pose proof (ho_tip _ _ Hh) as H2. rewrite last_snoc in H2. injection H2 as H2. rewrite <- H1, <- H2. apply Z.ltb_ge. lia. }
    unfold classify. rewrite Hz. cbn. by eexists _, _.
  - destruct (exchange_steps (sd_history a) (sd_history b) (sd_status a) (sd_status b) cap (sd_id a) (sd_id b) p0 p l st)
      as (E1 & E2 & E3 & E4); try done.
    + intros mid Hmid. apply Hun. rewrite <- (take_drop cap (ids l)). apply elem_of_app. by left.
    + unfold ids. rewrite <- fmap_take. apply Hraw. intros x Hx. rewrite <- (take_drop cap l). apply elem_of_app. by left.
    + eexists _, _. rewrite (converse_one 3 cap a b (MSyncStatus st) _ E1). cbn [sent omap list_omap]. rewrite bool_decide_true by done.
      rewrite (converse_one 2 cap b a (Inv _ _) _ E2). cbn [sent omap list_omap]. rewrite bool_decide_true by done.
      rewrite (converse_one 1 cap a b (RequestModifiers _ _) _ E3). cbn [sent omap list_omap]. rewrite bool_decide_true by done.
      rewrite (converse_one 0 cap b a (Modifiers _ _) _ E4). fold (header_effects (take cap l)). rewrite sent_header_effects.
      cbn [converse]. outcome_cbn. cbn [fst snd app]. rewrite app_nil_r. by split.
Qed.
Lemma store_all h c recs :
  stores_headers -> history_of h c -> NoDup (ids (c ++ recs)) -> StronglySorted (fun a b => slot a < slot b)%Z (c ++ recs) ->
  (forall rec, rec ∈ recs -> header_digest dec (rec_modifier rec) = rec_id rec) ->
  let h' := foldl apply_mod h ((fun rec => MBlockHeader (rec_modifier rec)) <$> recs) in
  history_of h' (c ++ recs) /\ forall id, id ∉ ids recs -> contains h' id = contains h id.
Proof.
  intros Hstore. revert h c. induction recs as [|rec recs IH]; intros h c Hh Hn Hs Hdig; [by rewrite app_nil_r|].
  replace (c ++ rec :: recs) with ((c ++ [rec]) ++ recs) in Hn, Hs |- * by (by rewrite <- app_assoc).
  destruct (Hstore h c rec Hh) as [Hh1 Hc1].
  - unfold ids in Hn. rewrite fmap_app in Hn. by apply NoDup_app in Hn as (Hn & _).
  - by apply StronglySorted_app_1_l in Hs.
  - apply Hdig. left.
  - destruct (IH _ _ Hh1 Hn Hs) as [Hh2 Hc2]; [intros; apply Hdig; by right|]. split; [exact Hh2|].
    intros id Hid. cbn. rewrite Hc2 by (intros Hin; apply Hid; by right). rewrite Hc1, bool_decide_false, orb_false_r; [done|].
    intros ->. apply Hid. left.
Qed.

(** C10: a node [b] whose chain is a prefix of the chain of a node [a], and that
    has heard of none of the blocks it lacks, catches up.  When its status
    reaches [a], the two nodes talk until there is nothing left to say; then [b]
    holds the next [cap] blocks of the chain of [a], [cap] being the greatest size
    of an announcement, and after [n] statuses the next [n * cap].  The node view
    of [b] is taken to store the headers it is given, and [a] to serve its blocks
    in a form that decodes to headers with the announced digests. *)
Theorem catch_up n cap (a b : Side) p0 p l :
  stores_headers -> cap <> 0 ->
  history_of (sd_history a) (p0 ++ p :: l) -> history_of (sd_history b) (p0 ++ [p]) -> unheard b l -> serves a l ->
  exists b', sync_rounds n cap a b = Done b' /\ history_of (sd_history b') (p0 ++ p :: take (n * cap) l).
Proof.
  intros Hstore Hcap. revert b p0 p l. induction n as [|n IH]; intros b p0 p l Ha Hb Hun Hsv; [by exists b|].
  cbn [sync_rounds]. destruct (local_status_of (sd_history b) (sd_status b) _ Hb) as (st & -> & Hs). outcome_cbn. cbn [fst snd].
  destruct (sync_round cap a b p0 p l st Ha Hs Hcap Hun Hsv) as (ea & eb & -> & Happ & Hmark). outcome_cbn. cbn [fst snd].
  set (l1 := take cap l). set (l2 := drop cap l). assert (l = l1 ++ l2) as Hl by (symmetry; apply take_drop).
  pose proof (ho_nodup _ _ Ha) as Hn. pose proof (ho_slots _ _ Ha) as Hso.
  replace (p0 ++ p :: l) with (((p0 ++ [p]) ++ l1) ++ l2) in Ha, Hn, Hso by (rewrite Hl, <- !app_assoc; done).
  unfold ids in Hn. rewrite fmap_app in Hn. apply NoDup_app in Hn as (Hn & Hdis & _). apply StronglySorted_app_1_l in Hso.
  assert (forall rec, rec ∈ l1 -> header_digest dec (rec_modifier rec) = rec_id rec) as Hdig
    by (intros rec Hrec; apply Hsv; rewrite Hl; apply elem_of_app; by left).
  destruct (store_all (sd_history b) (p0 ++ [p]) l1 Hstore Hb Hn Hso Hdig) as [Hb1 Hc1].
  destruct (last ((p0 ++ [p]) ++ l1)) as [p'|] eqn:Hlast; [|apply last_None, app_nil in Hlast as [[_ [=]]%app_nil _]].
  apply last_Some in Hlast as [p0' Hp']. rewrite Hp' in Ha, Hb1. rewrite <- app_assoc in Ha. cbn [app] in Ha.
  assert (forall id, id ∈ ids l2 -> id ∉ ids l1) as Hapart.
  { intros id H2 H1. apply (Hdis id); [|done]. rewrite fmap_app. apply elem_of_app. by right. }
  destruct (IH (settle b eb) p0' p' l2) as (b' & -> & Hb').
  - exact Ha.
  - cbn [settle sd_history]. by rewrite Happ, applied_header_effects.
  - intros id Hid. destruct (Hun id) as [H1 H2]; [rewrite Hl; unfold ids; rewrite fmap_app; apply elem_of_app; by right|].
    cbn [settle sd_history sd_status]. rewrite Happ, Hmark, applied_header_effects, Hc1 by auto. split; [|done].
    rewrite mark_header_effects; [done|]. intros rec Hrec He. apply (Hapart id Hid). rewrite <- He, Hdig by done. by apply list_elem_of_fmap_2.
  - destruct Hsv as [Hr1 Hr2]. split; [intros l' Hl'; apply Hr1|intros rec Hrec; apply Hr2]; rewrite Hl; set_solver.
  - exists b'. split; [done|]. replace (p0 ++ p :: take (S n * cap) l) with (p0' ++ p' :: take (n * cap) l2); [done|].
    change (p' :: take (n * cap) l2) with ([p'] ++ take (n * cap) l2). rewrite app_assoc, <- Hp', <- !app_assoc.
    cbn [app]. f_equal. f_equal. change (S n * cap) with (cap + n * cap). by rewrite <- take_take_drop.
Qed.
End Sync.

(** ** The behaviour *)

Section Behaviour.
Context {Hst Hd Bd Tx PeerId : Type} `{Countable PeerId}.
Context `{!HeaderLike Hd} `{!LedgerHistoryReadAsync Hst Hd}.
Context (dec : Decoders (Hd := Hd) (Bd := Bd) (Tx := Tx)).

Abbreviation T := (Task (Hst := Hst) (Hd := Hd) (Bd := Bd) (Tx := Tx) (PeerId := PeerId)).
Abbreviation AnyMod := (AnyModifier (Hd := Hd) (Bd := Bd) (Tx := Tx)).
Abbreviation From := (FromTask (PeerId := PeerId)).
Abbreviation Out := (DiffusionBehaviourOut (PeerId := PeerId)).
Abbreviation B := (DiffusionBehaviour (Hst := Hst) (Hd := Hd) (Bd := Bd) (Tx := Tx) (PeerId := PeerId)).

(** *** Predicates on what a task may do *)

(** Every message of the task satisfies [Pm], every modifier it applies
    satisfies [Pa] and its result satisfies [R], whatever it reads. *)
Fixpoint task_all {A} (Pm : From -> Prop) (Pa : AnyMod -> Prop) (R : A -> Prop) (t : T A) : Prop :=
  match t with
  | Ret a => R a
  | Stop => True
  | Read k => forall h, task_all Pm Pa R (k h)
  | Push m k => Pm m /\ task_all Pm Pa R k
  | Ask mid k => forall st, task_all Pm Pa R (k st)
  | Apply md k => Pa md /\ task_all Pm Pa R k
  end.

Lemma task_all_bind {A A'} Pm Pa (R : A -> Prop) (R' : A' -> Prop) (t : T A) (f : A -> T A') :
  task_all Pm Pa R t -> (forall a, R a -> task_all Pm Pa R' (f a)) -> task_all Pm Pa R' (t ≫= f).
Proof. intros Ht Hf. induction t; cbn in *; naive_solver. Qed.

Lemma task_all_mono {A} (Pm Pm' : From -> Prop) (Pa Pa' : AnyMod -> Prop) (R R' : A -> Prop) (t : T A) :
  (forall m, Pm m -> Pm' m) -> (forall md, Pa md -> Pa' md) -> (forall a, R a -> R' a) ->
  task_all Pm Pa R t -> task_all Pm' Pa' R' t.
Proof. intros Hm Ha HR Ht. induction t; cbn in *; naive_solver. Qed.

(** *** Inputs and what they justify *)

Inductive Input :=
| IMessage (p : PeerId) (msg : DiffusionMessageV1)
| IRequested (p : PeerId) (handshake : option SyncStatus)
| ILocal (p : PeerId).

Definition inject (s : B) (i : Input) : B :=
  match i with
  | IMessage p msg => diffusion_inject_message dec s p msg
  | IRequested p handshake => inject_protocol_requested s p handshake
  | ILocal p => inject_protocol_requested_locally s p
  end.

Definition status_from (ins : list Input) (p : PeerId) (st : SyncStatus) : Prop :=
  IMessage p (MSyncStatus st) ∈ ins \/ IRequested p (Some st) ∈ ins.

(** The reasons for each kind of output. *)
Definition justified (ins : list Input) (out : Out) : Prop :=
  match out with
  | BanPeer p => exists ty raws raw, IMessage p (Modifiers ty raws) ∈ ins /\ raw ∈ raws /\
      decode_modifier dec ty raw = None
  | EnablePeer p _ => ILocal p ∈ ins \/ exists st, IRequested p (Some st) ∈ ins
  | Send p (RequestModifiers ty mids) =>
      (exists offered, IMessage p (Inv ty offered) ∈ ins /\ mids ⊆ offered /\ mids <> []) \/
      (ty = TBlockHeader /\ exists st, status_from ins p st /\ mids ⊆ last_blocks st)
  | Send p (Modifiers ty _) => exists mids, IMessage p (RequestModifiers ty mids) ∈ ins
  | Send p (Inv ty _) => ty = TBlockHeader /\ exists st, status_from ins p st
  | Send p (MSyncStatus _) => exists st, status_from ins p st
  end.

(** A modifier that some peer sent and that decoded. *)
Definition delivered (ins : list Input) (md : AnyMod) : Prop :=
  exists p ty raws raw, IMessage p (Modifiers ty raws) ∈ ins /\ raw ∈ raws /\
    decode_modifier dec ty raw = Some md.

Definition received (ins : list Input) (mid : bytes) : Prop :=
  exists md, delivered ins md /\ modifier_id dec md = Done mid.

Definition from_ok (ins : list Input) (m : From) : Prop :=
  match m with
  | UpdatePeer p _ => exists st, status_from ins p st
  | UpdateModifier mid st => st = Received /\ received ins mid
  | ToHandler out => justified ins out
  end.

Abbreviation task_ok ins := (task_all (from_ok ins) (delivered ins) (fun _ => True)).

Lemma common_point_ok Pm Pa l : task_all Pm Pa (fun _ => True) (common_point l : T _).
Proof. induction l as [|x l IH]; cbn; [done|]. intros h. by destruct (member h x). Qed.

Lemma compare_remote_wanted ins st :
  task_all (from_ok ins) (delivered ins)
    (fun cmp => match cmp with Longer (Some w) => w ⊆ last_blocks st | _ => True end)
    (compare_remote st : T RemoteChainCmp).
Proof.
  unfold compare_remote. eapply (task_all_bind _ _ (fun _ => True)); [done|]. intros local_tip _.
  assert (forall (c : bytes) l, reverse (take_until c l) ⊆ l) as Htake.
  { intros c l b. rewrite elem_of_reverse. induction l as [|x l IH]; cbn; [done|].
    case_bool_decide; [set_solver|]. set_solver. }
  destruct (last_blocks st) as [|tip rest]; [done|]. destruct (_ <? _)%Z; [done|].
  destruct (snd <$> _).
  - destruct (_ <=? _)%Z; [|done]. case_bool_decide; [done|]. apply Htake.
  - eapply (task_all_bind _ _ (fun _ => True)); [apply common_point_ok|].
    intros [c|] _; [|done]. cbn. by case_bool_decide.
Qed.

Lemma sync_reply_ok ins cap p initial st cmp : status_from ins p st ->
  match cmp with Longer (Some w) => w ⊆ last_blocks st | _ => True end ->
  task_ok ins (sync_reply cap p initial cmp : T unit).
Proof.
  intros Hfrom Hw. destruct cmp as [|[w|]|t|[t|]|]; cbn in *; destruct initial; cbn; naive_solver.
Qed.

Lemma on_sync_task_ok ins cap p st (initial : bool) : status_from ins p st ->
  (initial = true -> exists st, IRequested p (Some st) ∈ ins) ->
  task_ok ins (on_sync_task cap p st initial : T unit).
Proof.
  intros Hfrom Hi. unfold on_sync_task, remote_state.
  eapply (task_all_bind _ _ (fun s => match st_cmp s with Longer (Some w) => w ⊆ last_blocks st | _ => True end)).
  { eapply task_all_bind; [apply compare_remote_wanted|]. by intros cmp. }
  intros s Hs. split; [by exists st|].
  eapply (task_all_bind _ _ (fun _ => True)); [|intros _ _; by eapply sync_reply_ok].
  destruct initial; [|done]. intros h h'. cbn. auto.
Qed.

Lemma on_modifiers_request_task_ok ins p ty mids : IMessage p (RequestModifiers ty mids) ∈ ins ->
  task_ok ins (on_modifiers_request_task p ty mids : T unit).
Proof. intros Hin. destruct ty; cbn; eauto. Qed.

Lemma decode_all_ok ins p ty raws0 raws : IMessage p (Modifiers ty raws0) ∈ ins -> raws ⊆ raws0 ->
  task_all (from_ok ins) (delivered ins) (Forall (delivered ins)) (decode_all dec p ty raws : T _).
Proof.
  intros Hin. induction raws as [|raw raws IH]; intros Hsub; [by constructor|]. cbn [decode_all].
  assert (raw ∈ raws0) as Hraw by set_solver.
  destruct (decode_modifier dec ty raw) as [md|] eqn:Hd'.
  - assert (delivered ins md) as Hmd by (by exists p, ty, raws0, raw).
    destruct (modifier_id dec md) as [mid| |] eqn:Hmid; [|done..].
    split; [split; [done|]; by exists md|].
    eapply task_all_bind; [apply IH; set_solver|]. intros mds Hmds. by constructor.
  - split; [|by constructor]. by exists ty, raws0, raw.
Qed.

Lemma on_modifiers_task_ok ins p ty raws : IMessage p (Modifiers ty raws) ∈ ins ->
  task_ok ins (on_modifiers_task dec p ty raws : T unit).
Proof.
  intros Hin. eapply task_all_bind; [by apply (decode_all_ok ins p ty raws)|].
  intros mds Hmds. induction Hmds as [|md mds Hmd _ IH]; [done|]. by split.
Qed.

Lemma select_wanted_ok Pm Pa mids :
  task_all Pm Pa (fun w => w ⊆ mids) (select_wanted mids : T _).
Proof.
  induction mids as [|mid mids IH]; [apply list_subseteq_nil|]. cbn [select_wanted].
  eapply (task_all_bind _ _ (fun _ => True)).
  { unfold is_wanted, modifier_status. cbn. intros s1. destruct (bool_decide (s1 = Wanted)); cbn; [done|].
    intros s2. by destruct (bool_decide (s2 = Unknown)). }
  intros b _. eapply task_all_bind; [exact IH|]. intros w Hw. destruct b; cbn; set_solver.
Qed.

Lemma on_inv_task_ok ins p ty mids : IMessage p (Inv ty mids) ∈ ins ->
  task_ok ins (on_inv_task p ty mids : T unit).
Proof.
  intros Hin. eapply task_all_bind; [apply select_wanted_ok|]. intros [|w ws] Hw; [done|].
  split; [|done]. left. by exists mids.
Qed.

Lemma enable_task_ok ins p : ILocal p ∈ ins -> task_ok ins (enable_task p : T unit).
Proof. intros Hin h h'. cbn. auto. Qed.

(** *** The invariant *)

Definition spawned_ok (ins : list Input) (t : Spawned (Hst := Hst) (Hd := Hd) (Bd := Bd) (Tx := Tx) (PeerId := PeerId))
    : Prop :=
  match t with
  | Running t => task_ok ins t
  | Waiting k => forall st, task_ok ins (k st)
  end.

Definition channel_ok (ins : list Input) (m : InChannel (PeerId := PeerId)) : Prop :=
  match m with FromT m => from_ok ins m | GetModifierStatus _ _ => True end.

Record diffusion_inv (ins : list Input) (s : B) : Prop := {
  di_channel : Forall (channel_ok ins) (from_tasks s);
  di_outbox : Forall (justified ins) (outbox s);
  di_tasks : map_Forall (fun _ => spawned_ok ins) (tasks s);
  di_delivery mid st : delivery s !! mid = Some st -> st = Received /\ received ins mid;
  di_applied : Forall (delivered ins) (applied s);
}.

(** More inputs justify more. *)
Lemma from_ok_mono ins ins' m : ins ⊆ ins' -> from_ok ins m -> from_ok ins' m.
Proof.
  intros Hsub. unfold from_ok, justified, received, delivered, status_from.
  destruct m as [p st|mid st|[p [| | |]|p|p]]; naive_solver.
Qed.

Lemma delivered_mono ins ins' md : ins ⊆ ins' -> delivered ins md -> delivered ins' md.
Proof. unfold delivered. naive_solver. Qed.

Lemma task_ok_mono ins ins' (t : T unit) : ins ⊆ ins' -> task_ok ins t -> task_ok ins' t.
Proof. intros Hsub. apply task_all_mono; eauto using from_ok_mono, delivered_mono. Qed.

Lemma diffusion_inv_mono ins ins' s : ins ⊆ ins' -> diffusion_inv ins s -> diffusion_inv ins' s.
Proof.
  intros Hsub [Hc Ho Ht Hd' Ha]. split.
  - eapply Forall_impl; [exact Hc|]. intros [m|mid id]; cbn; eauto using from_ok_mono.
  - eapply Forall_impl; [exact Ho|]. intros out. by apply (from_ok_mono ins ins' (ToHandler out)).
  - intros id t Hid. specialize (Ht id t Hid). destruct t as [t|k]; cbn in *; eauto using task_ok_mono.
  - intros mid st Hm. specialize (Hd' mid st Hm) as [-> (md & Hmd & He)]. split; [done|].
    exists md. eauto using delivered_mono.
  - eapply Forall_impl; [exact Ha|]. eauto using delivered_mono.
Qed.

Lemma spawn_inv ins t s : task_ok ins t -> diffusion_inv ins s -> diffusion_inv ins (spawn t s).
Proof. intros Ht []. split; cbn; try done. by apply map_Forall_insert_2. Qed.

Lemma inject_inv ins s i : diffusion_inv ins s -> diffusion_inv (ins ++ [i]) (inject s i).
Proof.
  intros Hs%(diffusion_inv_mono ins (ins ++ [i])); [|set_solver].
  assert (i ∈ ins ++ [i]) as Hi by set_solver.
  destruct i as [p [ty mids|ty mids|ty raws|st]|p [st|]|p]; cbn [inject diffusion_inject_message
    inject_protocol_requested inject_protocol_requested_locally];
    try (apply spawn_inv; [|exact Hs]); try exact Hs.
  - by apply on_inv_task_ok.
  - by apply on_modifiers_request_task_ok.
  - by apply on_modifiers_task_ok.
  - apply on_sync_task_ok; [by left|done].
  - apply on_sync_task_ok; [by right|eauto].
  - by apply enable_task_ok.
Qed.

Lemma send_inv ins m id t s : channel_ok ins m -> spawned_ok ins t ->
  diffusion_inv ins s -> diffusion_inv ins (send m id t s).
Proof.
  intros Hm Ht Hs. unfold send. destruct (_ <? _)%nat; [|done]. destruct Hs. split; cbn; try done.
  - apply Forall_app. auto.
  - by apply map_Forall_insert_2.
Qed.

Lemma pool_event_inv ins s e s' : pool_event s e = Done s' -> diffusion_inv ins s -> diffusion_inv ins s'.
Proof.
  intros He Hs. pose proof Hs as [Hc Ho Ht Hd' Ha]. destruct e as [id|id]; cbn in He.
  - unfold task_step in He. destruct (tasks s !! id) as [[t|k]|] eqn:Hid; [|by injection He as <-..].
    specialize (Ht id _ Hid) as Hok. cbn in Hok.
    destruct t as [[]| |k|m k|mid k|md k]; cbn in Hok; try discriminate He; injection He as <-.
    + split; cbn; try done. by apply map_Forall_delete.
    + split; cbn; try done. apply map_Forall_insert_2; [apply Hok|done].
    + apply send_inv; naive_solver.
    + apply send_inv; naive_solver.
    + destruct Hok as [Hmd Hk]. split; cbn; try done; [by apply map_Forall_insert_2|].
      apply Forall_app. auto.
  - injection He as <-. split; cbn; try done. by apply map_Forall_delete.
Qed.

Lemma on_event_inv ins s m s' :
  on_event s m = Done s' -> channel_ok ins m -> diffusion_inv ins s -> diffusion_inv ins s'.
Proof.
  intros He Hm [Hc Ho Ht Hd' Ha]. destruct m as [[p st|mid st|out]|mid id]; cbn in He, Hm.
  - injection He as <-. by split.
  - injection He as <-. destruct Hm as [-> Hr]. split; cbn; try done.
    intros mid' st [[<- <-]|[_ Hl]]%lookup_insert_Some; eauto.
  - injection He as <-. split; cbn; try done. apply Forall_app. auto.
  - destruct (tasks s !! id) as [[t|k]|] eqn:Hid; [discriminate He| |discriminate He]. injection He as <-.
    split; cbn; try done. apply map_Forall_insert_2; [apply (Ht id _ Hid)|done].
Qed.

Lemma poll_loop_inv ins scheds s s' :
  poll_loop s scheds = Done s' -> diffusion_inv ins s -> diffusion_inv ins s'.
Proof.
  revert s. induction scheds as [|sched scheds IH]; intros s He Hs; cbn in He; [discriminate He|].
  apply bind_Done in He as (s1 & H1 & He).
  assert (diffusion_inv ins s1) as Hs1.
  { eapply (foldO_inv (diffusion_inv ins)); [|exact Hs|exact H1]. eauto using pool_event_inv. }
  destruct (from_tasks s1) as [|m q] eqn:Hq; [by injection He as <-|].
  apply bind_Done in He as (s2 & H2 & He). pose proof (di_channel _ _ Hs1) as Hc. rewrite Hq in Hc.
  apply Forall_cons in Hc as [Hm Hc].
  assert (diffusion_inv ins s2) as Hs2.
  { eapply on_event_inv; [exact H2|done|]. destruct Hs1. by split. }
  destruct (is_output m); [by injection He as <-|]. eauto.
Qed.

(** *** Runs *)

(** The states reached from a new behaviour, with the inputs so far and the
    outputs its polls returned; the history may change at any time. *)
Inductive diffusion_run : B -> list Input -> list Out -> Prop :=
| dr_new cap h : diffusion_run (diffusion_new cap h) [] []
| dr_input s ins outs i : diffusion_run s ins outs -> diffusion_run (inject s i) (ins ++ [i]) outs
| dr_poll s ins outs scheds s' out : diffusion_run s ins outs -> diffusion_poll s scheds = Done (s', out) ->
    diffusion_run s' ins (outs ++ option_list out)
| dr_history s ins outs h : diffusion_run s ins outs -> diffusion_run (s <| history := h |>) ins outs.

Lemma diffusion_run_inv s ins outs :
  diffusion_run s ins outs -> diffusion_inv ins s /\ Forall (justified ins) outs.
Proof.
  induction 1 as [cap h|s ins outs i _ [IH IHo]|s ins outs scheds s' out _ [IH IHo] Hp|s ins outs h _ [IH IHo]].
  - split; [|constructor]. by split; cbn.
  - split; [by apply inject_inv|]. eapply Forall_impl; [exact IHo|].
    intros out. apply (from_ok_mono ins (ins ++ [i]) (ToHandler out)). set_solver.
  - unfold diffusion_poll in Hp. apply bind_Done in Hp as (s1 & H1 & Hp).
    pose proof (poll_loop_inv _ _ _ _ H1 IH) as Hs1. pose proof (di_outbox _ _ Hs1) as Ho.
    destruct (outbox s1) as [|o os] eqn:Hout; injection Hp as <- <-.
    + split; [done|]. by rewrite app_nil_r.
    + apply Forall_cons in Ho as [Ho Hos]. split; [|apply Forall_app; split; [done|by apply Forall_singleton]]. destruct Hs1. by split.
  - split; [|done]. destruct IH. by split.
Qed.

(** C23: whatever arrives, however the tasks interleave or time out, and
    however the history changes, every output is justified by an input of the
    same peer: only senders of undecodable modifiers are banned, only peers
    that asked or were asked for are enabled, and only modifiers a peer
    offered are requested from it. *)
Theorem outputs_justified s ins outs out :
  diffusion_run s ins outs -> out ∈ outs -> justified ins out.
Proof. intros [_ Ho]%diffusion_run_inv Hin. by apply (proj1 (Forall_forall _ _) Ho). Qed.

(** The ledger view is given only modifiers that a peer sent and that
    decoded as their type, and a modifier is tracked only as received, after
    it was decoded. *)
Theorem only_delivered_applied s ins outs :
  diffusion_run s ins outs ->
  Forall (delivered ins) (applied s) /\
  forall mid st, delivery s !! mid = Some st -> st = Received /\ received ins mid.
Proof. intros [Hs _]%diffusion_run_inv. split; [apply Hs|apply Hs]. Qed.

(** *** Panics a peer can cause *)

(** A request for transactions, and a block body that decodes, stop the node:
    there is no mempool and no digest of a body yet. *)
Lemma transaction_request_panics s p mids :
  pool_event (inject s (IMessage p (RequestModifiers TTransaction mids))) (Progress (next_task s)) = Panic.
Proof. cbn. unfold task_step. cbn. by rewrite lookup_insert_eq. Qed.

Lemma block_body_panics s p raw raws b : de_body dec raw = Some b ->
  pool_event (inject s (IMessage p (Modifiers TBlockBody (raw :: raws)))) (Progress (next_task s)) = Panic.
Proof.
  intros Hb. cbn. unfold task_step, on_modifiers_task. cbn. rewrite lookup_insert_eq. by rewrite Hb.
Qed.

(** An announcement whose task times out between its question for a status
    and the answer stops the node too. *)
Lemma stale_status_request_panics cap h p ty mid mids scheds :
  diffusion_poll (inject (diffusion_new cap h) (IMessage p (Inv ty (mid :: mids))))
    ([Progress 0; Timeout 0] :: scheds) = Panic.
Proof. reflexivity. Qed.
End Behaviour.

(** ** Nodes with chains of numbers *)

Module DiffusionSample.
Abbreviation Chain := (list (ModifierRecord Z)).

#[export] Instance header : HeaderLike Z := fun z => z.

Fixpoint after (pre : bytes) (c : Chain) : Chain :=
  match c with
  | [] => []
  | r :: c => if bool_decide (rec_id r = pre) then c else after pre c
  end.

Definition origin : ModifierRecord Z := {| rec_id := ORIGIN; rec_modifier := 0%Z |}.

#[export] Instance chain_history : LedgerHistoryReadAsync Chain Z := {|
  member c id := bool_decide (id ∈ ids c);
  contains c id := bool_decide (id ∈ ids c);
  get_tip c := default origin (last c);
  get_tail c n := match drop (length c - n) c with [] => (origin, []) | r :: l => (r, l) end;
  follow c pre cap := take cap (ids (after pre c));
  multi_get_raw c _ mids := omap (fun mid => (fun r => [rec_modifier r]) <$>
    (snd <$> list_find (fun r => rec_id r = mid) c)) mids;
|}.

Definition decoders : Decoders (Hd := Z) (Bd := unit) (Tx := unit) := {|
  de_header raw := head raw;
  de_body raw := match raw with [] => Some tt | _ => None end;
  de_transaction _ := None;
  header_digest z := [z];
  transaction_id _ := [];
|}.

Lemma after_app p0 p l : NoDup (ids (p0 ++ p :: l)) -> after (rec_id p) (p0 ++ p :: l) = l.
Proof.
  induction p0 as [|x p0 IH]; cbn; [by rewrite bool_decide_true|]. intros [Hx Hn]%NoDup_cons.
  rewrite bool_decide_false; [by apply IH|]. intros He. apply Hx. rewrite He. apply ids_split. auto.
Qed.

Lemma chain_history_of (c : Chain) :
  c <> [] -> NoDup (ids c) -> StronglySorted (fun a b => slot a < slot b)%Z c -> history_of c c.
Proof.
  intros Hc Hn Hs. split; [done..| | |].
  - cbn. destruct (last c) eqn:E; [done|]. by apply last_None in E.
  - intros n Hn0. cbn. destruct (drop _ _) eqn:E; [|done]. apply (f_equal length) in E.
    rewrite length_drop in E. cbn in E. destruct c; [done|]. cbn [length] in E. lia.
  - intros pre p l cap ->. cbn. by rewrite after_app.
Qed.

Definition blk (n : Z) : ModifierRecord Z := {| rec_id := [n]; rec_modifier := n |}.
Definition chainA : Chain := [blk 0; blk 1; blk 2; blk 3].
Definition chainB : Chain := [blk 0; blk 1].
Definition forked : list (ModifierRecord Z) := [{| rec_id := [9%Z]; rec_modifier := 2%Z |}].
Definition statusB : SyncStatus := {| height := 1; last_blocks := [[1]; [0]] |}%Z.
Definition statusF : SyncStatus := {| height := 2; last_blocks := [[9]; [1]; [0]] |}%Z.
Definition unknown (mid : bytes) : ModifierStatus := Unknown.

Lemma fork_A r : NoDup (ids ([blk 0] ++ blk 1 :: r)) ->
  StronglySorted (fun a b => slot a < slot b)%Z ([blk 0] ++ blk 1 :: r) ->
  (forall id, id ∈ ids [blk 2; blk 3] -> id ∉ ids r) ->
  fork_at chainA [blk 0] (blk 1) [blk 2; blk 3] r.
Proof.
  intros Hn Hs Ha. split; [|done..]. apply chain_history_of; [done| |].
  - by apply (bool_decide_unpack _).
  - repeat constructor; done.
Qed.

Lemma compare_remote_sound_witness : exists cmp,
  exec (PeerId := nat) (Bd := unit) (Tx := unit) chainA unknown (compare_remote statusF) = Done (cmp, []) /\
  cmp = Fork (Some [1%Z]).
Proof.
  destruct (compare_remote_sound (PeerId := nat) (Bd := unit) (Tx := unit) chainA unknown [blk 0] (blk 1)
    [blk 2; blk 3] forked statusF) as (cmp & Hc & _).
  - apply fork_A; [by apply (bool_decide_unpack _)|repeat constructor; done|].
    intros id Hin. cbn in *. set_solver.
  - split; reflexivity.
  - exists cmp. split; [exact Hc|]. vm_compute in Hc. by injection Hc as <-.
Defined.

(** A history is its chain. *)
Lemma chain_of_history (h : Chain) c : history_of h c -> h = c.
Proof.
  intros Hh. pose proof (ho_tail _ _ Hh (S (length h + length c)) ltac:(done)) as Ht. cbn [get_tail chain_history] in Ht.
  rewrite (proj2 (Nat.sub_0_le _ _)), (proj2 (Nat.sub_0_le (length c) _)) in Ht by lia. rewrite !drop_0 in Ht.
  destruct h as [|x h]; [|done]. cbn in Ht. subst c. pose proof (ho_member _ _ Hh ORIGIN) as Hm.
  by vm_compute in Hm.
Qed.

Definition append (c : Chain) (z : Z) : Chain := c ++ [blk z].

Lemma append_stores : stores_headers decoders append.
Proof.
  intros h c [i z] ->%chain_of_history Hn Hs Hd. cbn in Hd. subst i. split.
  - apply chain_history_of; [by destruct c|done|done].
  - intros id. cbn. unfold append, ids. rewrite fmap_app. rewrite <- bool_decide_or. apply bool_decide_ext.
    rewrite elem_of_app. unfold fmap, list_fmap. cbn. by rewrite list_elem_of_singleton.
Qed.

(** Node 2 lacks two blocks and is told of one at a time. *)
Definition side (id : nat) (c : Chain) : Side (Hst := Chain) (PeerId := nat) :=
  {| sd_id := id; sd_history := c; sd_status := unknown |}.

Lemma served_by_A : serves decoders (side 1 chainA) [blk 2; blk 3].
Proof.
  split; [|intros rec Hrec; repeat (apply elem_of_cons in Hrec as [->|Hrec]; [done|]); by apply not_elem_of_nil in Hrec].
  induction l' as [|rec l' IH]; intros Hsub; [constructor|]. assert (rec ∈ [blk 2; blk 3]) as Hrec by (apply Hsub; left).
  assert (l' ⊆ [blk 2; blk 3]) as Hl' by (intros x Hx; apply Hsub; by right). specialize (IH Hl').
  repeat (apply elem_of_cons in Hrec as [->|Hrec]; [constructor; [done|exact IH]|]). by apply not_elem_of_nil in Hrec.
Qed.

Lemma catch_up_witness : exists b,
  sync_rounds decoders append 2 1 (side 1 chainA) (side 2 chainB) = Done b /\ sd_history b = chainA /\ length chainB = 2.
Proof.
  destruct (catch_up decoders append 2 1 (side 1 chainA) (side 2 chainB) [blk 0] (blk 1) [blk 2; blk 3]) as (b & E & Hb).
  - exact append_stores.
  - done.
  - apply chain_history_of; [done|by apply (bool_decide_unpack _)|repeat constructor; done].
  - apply chain_history_of; [done|by apply (bool_decide_unpack _)|repeat constructor; done].
  - intros id Hin. split; [done|]. cbn in Hin |- *. apply bool_decide_false. set_solver.
  - exact served_by_A.
  - exists b. split; [exact E|]. split; [by apply chain_of_history|reflexivity].
Defined.

(** A peer that sends garbage is banned. *)
Abbreviation Node := (DiffusionBehaviour (Hst := Chain) (Hd := Z) (Bd := unit) (Tx := unit) (PeerId := nat)).
Definition garbage : list (Input (PeerId := nat)) := [IMessage 7 (Modifiers TBlockHeader [[5%Z]; []])].
Definition node : Node := diffusion_new 10 chainA.
Definition node_garbage : Node := inject decoders node (IMessage 7 (Modifiers TBlockHeader [[5%Z]; []])).
Definition sched : list (list PoolEvent) := [[Progress 0; Progress 0]; []].
Definition polled : outcome (Node * option DiffusionBehaviourOut) := diffusion_poll node_garbage sched.

Lemma polled_run : exists s,
  polled = Done (s, Some (BanPeer 7)) /\ diffusion_run decoders s garbage [BanPeer 7].
Proof.
  destruct (is_done_exists polled ltac:(vm_compute; reflexivity)) as [[s o] E].
  pose proof (fmap_Done snd _ _ (Some (BanPeer 7)) E ltac:(vm_compute; reflexivity)) as Ho. cbn in Ho. subst o.
  exists s. split; [exact E|].
  apply (dr_poll decoders node_garbage garbage [] sched s (Some (BanPeer 7))); [|exact E].
  apply (dr_input decoders node [] []). apply dr_new.
Qed.

Lemma outputs_justified_witness : justified decoders garbage (BanPeer 7).
Proof.
  destruct polled_run as (s & _ & Hr).
  exact (outputs_justified decoders s garbage [BanPeer 7] (BanPeer 7) Hr ltac:(left)).
Defined.

Lemma only_delivered_applied_witness : exists s, diffusion_run decoders s garbage [BanPeer 7] /\
  forall mid st, delivery s !! mid = Some st -> st = Received /\ received decoders garbage mid.
Proof.
  destruct polled_run as (s & _ & Hr). exists s. split; [exact Hr|].
  apply (only_delivered_applied decoders s garbage [BanPeer 7] Hr).
Defined.
End DiffusionSample.
