(* ===== verification/PeerManager.v ===== *)
(** * Peers and connections

    Model of [spectrum-network/src/peer_manager.rs] and of the files under
    [peer_manager/]: what is known about peers ([data.rs]), the index of
    connections ([peer_index.rs]), the repository with its views of connected
    and unconnected peers ([peers_state.rs]), and the manager that reacts to
    requests and to events of the network.  A view of a peer borrows the
    repository mutably, so its methods are functions of the repository and
    the peer id.  The clock and the timers are arguments; hash maps are
    iterated in an arbitrary fixed order. *)

From S2P Require Import Prelude.

(** ** Data *)

Inductive ReputationChange := NoResponse | TooSlow.

Definition is_downgrade (c : ReputationChange) : bool :=
  match c with NoResponse => true | TooSlow => true end.

Definition change_value (c : ReputationChange) : Z :=
  match c with NoResponse => -10 | TooSlow => -10 end.

(** [Reputation::apply] on [i32]. *)
Definition apply_change (reputation : Z) (c : ReputationChange) : outcome Z :=
  checked i32_min i32_max (reputation + change_value c).

Definition initial_reputation : Z := 0.

Inductive ConnHandlerError := SyncChannelExhausted | UnacceptablePeer.

Inductive ConnectionLossReason :=
| ResetByPeer
| Reset (err : ConnHandlerError)
| UnknownReason.

Inductive ConnectionDirection := Inbound | Outbound (confirmed : bool).

Inductive ConnectionState := Connected (dir : ConnectionDirection) | NotConnected.

Definition is_connected (st : ConnectionState) : bool :=
  match st with Connected _ => true | NotConnected => false end.

Inductive ProtocolAllocationPolicy := Bounded (max_conn_percent : nat) | Max | Zero.

Record NetworkingConfig := {
  min_known_peers : nat;
  min_outbound : nat;
  max_inbound : nat;
  max_outbound : nat;
}.

Record PeerManagerConfig := {
  min_acceptable_reputation : Z;
  min_reputation : Z;
  conn_reset_outbound_backoff : Z;
  protocols_allocation : list (Z * ProtocolAllocationPolicy);
}.

Inductive PeerStateFilter := FConnected | FNotConnected.

Inductive ConnAllocationMode := Active | Passive | Idle.

Section PeerManager.
Context {PeerId Addr ConnId : Type} `{Countable PeerId}.
Context (pid_leb : PeerId -> PeerId -> bool).

Inductive PeerDestination :=
| DPeerId (pid : PeerId)
| DPeerIdWithAddr (pid : PeerId) (addr : Addr).

Definition dest_peer_id (d : PeerDestination) : PeerId :=
  match d with DPeerId pid => pid | DPeerIdWithAddr pid _ => pid end.

Definition into_addr (d : PeerDestination) : option Addr :=
  match d with DPeerIdWithAddr _ addr => Some addr | DPeerId _ => None end.

Record PeerInfo := {
  is_reserved : bool;
  is_boot : bool;
  addr : option Addr;
  reputation : Z;
  state : ConnectionState;
  num_connections : Z;
  last_handshake : option Z;
  outbound_backoff_until : option Z;
  supported_protocols : option (list Z);
}.

Definition peer_info_new (addr : option Addr) (is_reserved is_boot : bool) : PeerInfo := {|
  is_reserved := is_reserved;
  is_boot := is_boot;
  addr := addr;
  reputation := initial_reputation;
  state := NotConnected;
  num_connections := 0;
  last_handshake := None;
  outbound_backoff_until := None;
  supported_protocols := None;
|}.

Definition supports (pi : PeerInfo) (protocol : Z) : option bool :=
  (fun ps => bool_decide (protocol ∈ ps)) <$> supported_protocols pi.

(** ** The index *)

Record PeerIndex := {
  reserved_peers : gset PeerId;
  index_boot_peers : gset PeerId;
  enabled_connections : gmap PeerId ConnectionDirection;
  protocols : gmap Z (gset PeerId);
  num_inbound : nat;
  num_outbound : nat;
}.

Definition index_new : PeerIndex := {|
  reserved_peers := ∅;
  index_boot_peers := ∅;
  enabled_connections := ∅;
  protocols := ∅;
  num_inbound := 0;
  num_outbound := 0;
|}.

Definition add_outgoing (pid : PeerId) (ix : PeerIndex) : PeerIndex :=
  ix <| enabled_connections ::= <[pid := Outbound false]> |>.

Definition drop_outgoing (pid : PeerId) (is_boot : bool) (ix : PeerIndex) : PeerIndex :=
  let ix := ix <| num_outbound ::= Nat.pred |> <| enabled_connections ::= delete pid |> in
  if is_boot then ix <| index_boot_peers ::= fun b => b ∖ {[pid]} |> else ix.

Definition drop_incoming (pid : PeerId) (ix : PeerIndex) : PeerIndex :=
  ix <| num_inbound ::= Nat.pred |> <| enabled_connections ::= delete pid |>.

Definition reserve_peer (pid : PeerId) (ix : PeerIndex) : PeerIndex :=
  ix <| reserved_peers ::= fun r => {[pid]} ∪ r |>.

Definition drop_reserved_peer (pid : PeerId) (ix : PeerIndex) : PeerIndex :=
  ix <| reserved_peers ::= fun r => r ∖ {[pid]} |>.

Definition update_reserved_set (ps : gset PeerId) (ix : PeerIndex) : PeerIndex :=
  ix <| reserved_peers := ps |>.

Definition is_protocol_enabled (ix : PeerIndex) (protocol : Z) (pid : PeerId) : bool :=
  match protocols ix !! protocol with
  | Some ps => bool_decide (pid ∈ ps)
  | None => false
  end.

(** ** The repository *)

Record PeerRepo := {
  peers : gmap PeerId PeerInfo;
  sorted_peers : gset (PeerId * Z);
  index : PeerIndex;
  netw_conf : NetworkingConfig;
  boot_peers : list PeerDestination;
}.

Definition repo_new (netw_conf : NetworkingConfig) (boot_peers : list PeerDestination) : PeerRepo := {|
  peers := ∅;
  sorted_peers := ∅;
  index := index_new;
  netw_conf := netw_conf;
  boot_peers := boot_peers;
|}.

Definition update_info (pid : PeerId) (f : PeerInfo -> PeerInfo) (r : PeerRepo) : PeerRepo :=
  r <| peers ::= alter f pid |>.

(** [peer]: the connection state decides which view is given. *)
Definition peer (r : PeerRepo) (pid : PeerId) : option ConnectionState := state <$> peers r !! pid.

(** *** Views of a peer *)

(** [ConnectedPeer::disconnect] *)
Definition cp_disconnect (pid : PeerId) (pi : PeerInfo) (r : PeerRepo) : PeerRepo :=
  let r :=
    match state pi with
    | Connected Inbound => r <| index ::= drop_incoming pid |>
    | Connected (Outbound _) => r <| index ::= drop_outgoing pid (is_boot pi) |>
    | NotConnected => r
    end in
  update_info pid (fun pi => pi <| state := NotConnected |>) r.

(** [ConnectedPeer::confirm_connection] *)
Definition confirm_connection (pid : PeerId) (r : PeerRepo) : PeerRepo :=
  update_info pid (fun pi =>
    match state pi with
    | Connected (Outbound false) => pi <| state := Connected (Outbound true) |>
    | _ => pi
    end) r.

(** [ConnectedPeer::enable_protocol] *)
Definition enable_protocol (pid : PeerId) (protocol : Z) (r : PeerRepo) : PeerRepo :=
  r <| index ::= fun ix =>
    ix <| protocols ::= <[protocol := {[pid]} ∪ default ∅ (protocols ix !! protocol)]> |> |>.

(** [ConnectedPeer::destination] *)
Definition destination (pid : PeerId) (pi : PeerInfo) : PeerDestination :=
  match addr pi with Some a => DPeerIdWithAddr pid a | None => DPeerId pid end.

(** [NotConnectedPeer::force_connect]; the count of connections is computed
    and dropped. *)
Definition force_connect (pid : PeerId) (dir : ConnectionDirection) (r : PeerRepo) : PeerRepo :=
  update_info pid (fun pi => pi <| state := Connected dir |>) r.

(** [NotConnectedPeer::connect] *)
Definition ncp_connect (pid : PeerId) (r : PeerRepo) : PeerRepo :=
  force_connect pid (Outbound false) (r <| index ::= add_outgoing pid |>).

(** [NotConnectedPeer::try_accept_connection] *)
Definition try_accept_connection (pid : PeerId) (r : PeerRepo) : option PeerRepo :=
  if (num_inbound (index r) <? max_inbound (netw_conf r))%nat
  then Some (force_connect pid Inbound r) else None.

(** [NotConnectedPeer::forget] *)
Definition forget (pid : PeerId) (pi : PeerInfo) (r : PeerRepo) : PeerRepo :=
  r <| sorted_peers ::= fun s => s ∖ {[(pid, reputation pi)]} |> <| peers ::= delete pid |>.

(** [NotConnectedPeer::set_backoff_until] *)
Definition set_backoff_until (pid : PeerId) (ts : Z) (r : PeerRepo) : PeerRepo :=
  update_info pid (fun pi => pi <| outbound_backoff_until := Some ts |>) r.

(** [PeerInState::set_protocols], [adjust_reputation] and [set_reserved]. *)
Definition set_protocols (pid : PeerId) (ps : list Z) (r : PeerRepo) : PeerRepo :=
  update_info pid (fun pi => pi <| supported_protocols := Some ps |>) r.

Definition adjust_reputation (pid : PeerId) (pi : PeerInfo) (c : ReputationChange) (r : PeerRepo)
    : outcome (PeerRepo * Z) :=
  new_rep ← apply_change (reputation pi) c;
  let r := update_info pid (fun pi => pi <| reputation := new_rep |>) r in
  Done (r <| sorted_peers ::= fun s => {[(pid, new_rep)]} ∪ s ∖ {[(pid, reputation pi)]} |>, new_rep).

Definition set_reserved (pid : PeerId) (reserved : bool) (r : PeerRepo) : PeerRepo :=
  let r := if reserved then r <| index ::= reserve_peer pid |> else r <| index ::= drop_reserved_peer pid |> in
  update_info pid (fun pi => pi <| is_reserved := reserved |>) r.

(** *** [PeersState] *)

(** The order of the [BTreeSet]. *)
Definition ordered_peers (r : PeerRepo) : list (PeerId * Z) :=
  sort_by (fun a b => if decide (a.1 = b.1) then (a.2 <=? b.2)%Z else pid_leb a.1 b.1) (elements (sorted_peers r)).

Definition get_peers (r : PeerRepo) (limit : nat) : list PeerDestination :=
  omap (fun '(pid, _) => destination pid <$> peers r !! pid) (take limit (ordered_peers r)).

Definition get_peer_reputation (r : PeerRepo) (pid : PeerId) : option Z := reputation <$> peers r !! pid.

(** The repository with the new peer, when it was not known. *)
Definition try_add_peer (r : PeerRepo) (d : PeerDestination) (reserved boot : bool) : option PeerRepo :=
  let pid := dest_peer_id d in
  match peers r !! pid with
  | Some _ => None
  | None =>
    let r := r <| sorted_peers ::= fun s => {[(pid, initial_reputation)]} ∪ s |>
               <| peers ::= <[pid := peer_info_new (into_addr d) reserved boot]> |> in
    Some (if reserved then r <| index ::= reserve_peer pid |> else r)
  end.

(** The loop of [set_reserved_peers] sorts the peers into known and unknown. *)
Definition reserve_step (st : PeerRepo * gset PeerId * gset PeerId) (pid : PeerId)
    : PeerRepo * gset PeerId * gset PeerId :=
  let '(r, known, unknown) := st in
  match peers r !! pid with
  | Some _ => (set_reserved pid true r, {[pid]} ∪ known, unknown)
  | None => (r, known, {[pid]} ∪ unknown)
  end.

Definition set_reserved_peers (r : PeerRepo) (ps : gset PeerId) : PeerRepo * gset PeerId :=
  let '(r, known, unknown) := foldl reserve_step (r, ∅, ∅) (elements ps) in
  (r <| index ::= update_reserved_set known |>, unknown).

Definition state_matches (st : ConnectionState) (f : option PeerStateFilter) : bool :=
  match st, f with
  | Connected _, Some FConnected => true
  | NotConnected, Some FNotConnected => true
  | _, None => true
  | _, _ => false
  end.

Definition get_reserved_peers (r : PeerRepo) (f : option PeerStateFilter) : gset PeerId :=
  filter (fun pid =>
    match peers r !! pid with
    | Some pi => is_reserved pi && state_matches (state pi) f
    | None => false
    end = true) (reserved_peers (index r)).

Definition get_enabled_peers (r : PeerRepo) (protocol : Z) : option (gset PeerId) :=
  protocols (index r) !! protocol.

Definition num_connected_peers (r : PeerRepo) : nat := size (enabled_connections (index r)).

Inductive NetworkingState :=
| NotBootstrapped (boot_peers : list PeerDestination)
| BootInProgress
| Bootstrapped
| Saturated.

(** The subtraction on [usize] panics below zero. *)
Definition networking_state (r : PeerRepo) : outcome NetworkingState :=
  if (size (peers r) <? min_known_peers (netw_conf r))%nat then Done (NotBootstrapped (boot_peers r))
  else
    n ← checked 0 u64_max (Z.of_nat (num_outbound (index r)) - Z.of_nat (size (index_boot_peers (index r))));
    Done (if (n <? Z.of_nat (min_outbound (netw_conf r)))%Z then BootInProgress
          else if (num_outbound (index r) <? max_outbound (netw_conf r))%nat then Bootstrapped
          else Saturated).

Definition filter_peers (r : PeerRepo) (predicate : PeerId -> PeerInfo -> bool) : list PeerId :=
  (filter (fun '(pid, pi) => predicate pid pi = true) (map_to_list (peers r))).*1.

Definition pick_best (r : PeerRepo) (f : PeerId -> PeerInfo -> bool) : option PeerId :=
  fst ∘ snd <$> list_find (fun '(pid, _) =>
    match peers r !! pid with Some pi => f pid pi | None => false end = true) (ordered_peers r).

(** ** The manager *)

Inductive PeerManagerOut :=
| Connect (d : PeerDestination)
| Drop (pid : PeerId)
| AcceptIncomingConnection (pid : PeerId) (conn : ConnId)
| Reject (pid : PeerId) (conn : ConnId)
| StartProtocol (protocol : Z) (pid : PeerId)
| NotifyPeerPunished (pid : PeerId) (reason : ReputationChange).

(** Requests that only read, [GetPeers] and [GetPeerReputation], answer with
    [get_peers] and [get_peer_reputation]. *)
Inductive PeerManagerIn :=
| AddPeers (ps : list PeerDestination)
| AddReservedPeer (d : PeerDestination)
| SetReservedPeers (ps : gset PeerId)
| ReportPeer (pid : PeerId) (c : ReputationChange)
| GetPeerReputation (pid : PeerId)
| GetPeers (limit : nat)
| SetProtocols (pid : PeerId) (ps : list Z)
| IncomingConnection (pid : PeerId) (conn : ConnId)
| ConnectionEstablished (pid : PeerId) (conn : ConnId)
| ConnectionLost (pid : PeerId) (reason : ConnectionLossReason)
| DialFailure (pid : PeerId)
| ForceEnabled (pid : PeerId) (protocol : Z).

Record PeerManager := {
  repo : PeerRepo;
  conf : PeerManagerConfig;
  mailbox : list PeerManagerIn;
  out_queue : list PeerManagerOut;
  boot_in_progress : bool;
}.

Definition manager_new (r : PeerRepo) (conf : PeerManagerConfig) : PeerManager := {|
  repo := r;
  conf := conf;
  mailbox := [];
  out_queue := [];
  boot_in_progress := false;
|}.

Definition out (o : PeerManagerOut) (m : PeerManager) : PeerManager := m <| out_queue ::= fun q => q ++ [o] |>.

(** [connect]: a known peer that is not connected and not backed off. *)
Definition connect (now : Z) (m : PeerManager) (pid : PeerId) : PeerManager :=
  match peers (repo m) !! pid with
  | Some pi =>
    if negb (is_connected (state pi)) &&
       match outbound_backoff_until pi with Some t => (t <=? now)%Z | None => true end
    then out (Connect (destination pid pi)) (m <| repo ::= ncp_connect pid |>)
    else m
  | None => m
  end.

Definition connect_reserved (now : Z) (m : PeerManager) : PeerManager :=
  foldl (connect now) m (elements (get_reserved_peers (repo m) (Some FNotConnected))).

Definition connect_best (now : Z) (m : PeerManager) : PeerManager :=
  match pick_best (repo m) (fun _ pi => negb (is_connected (state pi))) with
  | Some pid => connect now m pid
  | None => m
  end.

(** [disconnect]: a peer that is not connected is left alone. *)
Definition disconnect (m : PeerManager) (pid : PeerId) (forgotten : bool) : PeerManager :=
  match peers (repo m) !! pid with
  | Some pi =>
    if is_connected (state pi) then
      let m := m <| repo ::= cp_disconnect pid pi |> in
      let m := if forgotten then m <| repo ::= forget pid pi |> else m in
      out (Drop pid) m
    else m
  | None => m
  end.

Definition prepare_allocate_connections (m : PeerManager) : outcome (PeerManager * ConnAllocationMode) :=
  st ← networking_state (repo m);
  Done match st with
       | NotBootstrapped ps =>
         (m <| repo ::= fun r => foldl (fun r d => default r (try_add_peer r d false true)) r ps |>, Active)
       | BootInProgress => (m <| boot_in_progress := true |>, Active)
       | Bootstrapped =>
         (if boot_in_progress m then
            (foldl (fun m pid => disconnect m pid true) m
              (filter_peers (repo m) (fun _ pi => is_boot pi && is_connected (state pi))))
              <| boot_in_progress := false |>
          else m, Passive)
       | Saturated => (m, Idle)
       end.

(** The condition of [allocate_protocols]; divisions are of [usize], and
    division by zero panics. *)
Definition allocation_allowed (policy : ProtocolAllocationPolicy) (enabled connected : nat) : outcome bool :=
  match policy with
  | Bounded p => if (connected =? 0)%nat then Panic else Done (enabled / connected <? p / 100)%nat
  | Max => Done (enabled <? connected)%nat
  | Zero => Done false
  end.

Definition allocate_protocol (m : PeerManager) (pp : Z * ProtocolAllocationPolicy) : outcome PeerManager :=
  let '(protocol, policy) := pp in
  match get_enabled_peers (repo m) protocol with
  | Some enabled =>
    cond ← allocation_allowed policy (size enabled) (num_connected_peers (repo m));
    Done (if (cond : bool) then
      match pick_best (repo m) (fun pid pi => negb (bool_decide (pid ∈ enabled)) && default false (supports pi protocol)) with
      | Some candidate =>
        match peer (repo m) candidate with
        | Some (Connected _) =>
          out (StartProtocol protocol candidate) (m <| repo ::= enable_protocol candidate protocol |>)
        | _ => m
        end
      | None => m
      end
    else m)
  | None => Done m
  end.

Definition allocate_protocols (m : PeerManager) : outcome PeerManager :=
  foldO allocate_protocol (protocols_allocation (conf m)) m.

(** *** Requests *)

Definition on_add_peers (m : PeerManager) (ps : list PeerDestination) : PeerManager :=
  m <| repo ::= fun r => foldl (fun r d => default r (try_add_peer r d false false)) r ps |>.

Definition on_add_reserved_peer (m : PeerManager) (d : PeerDestination) : PeerManager :=
  m <| repo ::= fun r => default r (try_add_peer r d true false) |>.

Definition on_set_reserved_peers (m : PeerManager) (ps : gset PeerId) : PeerManager :=
  let '(r, unknown) := set_reserved_peers (repo m) ps in
  m <| repo := foldl (fun r pid => default r (try_add_peer r (DPeerId pid) true false)) r (elements unknown) |>.

Definition on_report_peer (m : PeerManager) (pid : PeerId) (c : ReputationChange) : outcome PeerManager :=
  match peers (repo m) !! pid with
  | Some pi =>
    let m := if is_downgrade c then out (NotifyPeerPunished pid c) m else m in
    '(r, new_rep) ← adjust_reputation pid pi c (repo m);
    let m := m <| repo := r |> in
    Done (if (min_acceptable_reputation (conf m) <=? new_rep)%Z then m else disconnect m pid true)
  | None => Done m
  end.

Definition on_set_peer_protocols (m : PeerManager) (pid : PeerId) (ps : list Z) : PeerManager :=
  match peers (repo m) !! pid with
  | Some _ => m <| repo ::= set_protocols pid ps |>
  | None => m
  end.

(** *** Notifications *)

Definition accept_or_reject (m : PeerManager) (r : PeerRepo) (pid : PeerId) (conn : ConnId) : PeerManager :=
  match try_accept_connection pid r with
  | Some r => out (AcceptIncomingConnection pid conn) (m <| repo := r |>)
  | None => out (Reject pid conn) (m <| repo := r |>)
  end.

Definition on_incoming_connection (m : PeerManager) (pid : PeerId) (conn : ConnId) : PeerManager :=
  match peers (repo m) !! pid with
  | Some pi =>
    if is_connected (state pi) then out (Reject pid conn) m
    else if (min_reputation (conf m) <=? reputation pi)%Z then accept_or_reject m (repo m) pid conn
    else out (Reject pid conn) m
  | None =>
    match try_add_peer (repo m) (DPeerId pid) false false with
    | Some r => accept_or_reject m r pid conn
    | None => out (Reject pid conn) m
    end
  end.

Definition on_connection_established (m : PeerManager) (pid : PeerId) : PeerManager :=
  match peer (repo m) pid with
  | Some (Connected _) => m <| repo ::= confirm_connection pid |>
  | _ => m
  end.

Definition on_connection_lost (now : Z) (m : PeerManager) (pid : PeerId) (reason : ConnectionLossReason)
    : outcome PeerManager :=
  match peers (repo m) !! pid with
  | Some pi =>
    if is_connected (state pi) then
      let m := m <| repo ::= cp_disconnect pid pi |> in
      match reason with
      | ResetByPeer =>
        Done (if is_reserved pi then m
              else m <| repo ::= set_backoff_until pid (now + conn_reset_outbound_backoff (conf m)) |>)
      | Reset SyncChannelExhausted => on_report_peer m pid TooSlow
      | Reset UnacceptablePeer => Done m
      | UnknownReason => Done m
      end
    else Done m
  | None => Done m
  end.

Definition on_dial_failure (m : PeerManager) (pid : PeerId) : outcome PeerManager :=
  match peer (repo m) pid with
  | Some (Connected _) => on_report_peer m pid NoResponse
  | _ => Done m
  end.

Definition on_force_enabled (m : PeerManager) (pid : PeerId) (protocol : Z) : PeerManager :=
  match peer (repo m) pid with
  | Some (Connected _) => m <| repo ::= enable_protocol pid protocol |>
  | _ => m
  end.

Definition handle (now : Z) (m : PeerManager) (i : PeerManagerIn) : outcome PeerManager :=
  match i with
  | AddPeers ps => Done (on_add_peers m ps)
  | AddReservedPeer d => Done (on_add_reserved_peer m d)
  | SetReservedPeers ps => Done (on_set_reserved_peers m ps)
  | ReportPeer pid c => on_report_peer m pid c
  | GetPeerReputation _ | GetPeers _ => Done m
  | SetProtocols pid ps => Done (on_set_peer_protocols m pid ps)
  | IncomingConnection pid conn => Done (on_incoming_connection m pid conn)
  | ConnectionEstablished pid _ => Done (on_connection_established m pid)
  | ConnectionLost pid reason => on_connection_lost now m pid reason
  | DialFailure pid => on_dial_failure m pid
  | ForceEnabled pid protocol => Done (on_force_enabled m pid protocol)
  end.

(** *** Polling *)

Definition allocate_connections (now : Z) (m : PeerManager) : outcome PeerManager :=
  '(m, mode) ← prepare_allocate_connections (connect_reserved now m);
  Done match mode with
       | Active | Passive => connect_best now m
       | Idle => m
       end.

(** The loop of [poll_next]: it handles the mailbox until there is an output;
    with an empty mailbox the timers that expired run, and the poll is
    pending.  [conn_ready] and [prot_ready] say which expired. *)
Fixpoint handle_mailbox (now : Z) (m : PeerManager) (inbox : list PeerManagerIn)
    : outcome (PeerManager * option PeerManagerOut) :=
  match out_queue m with
  | o :: q => Done (m <| out_queue := q |> <| mailbox := inbox |>, Some o)
  | [] =>
    match inbox with
    | i :: inbox => m ← handle now m i; handle_mailbox now m inbox
    | [] => Done (m <| mailbox := [] |>, None)
    end
  end.

Definition manager_poll (now : Z) (conn_ready prot_ready : bool) (m : PeerManager)
    : outcome (PeerManager * option PeerManagerOut) :=
  '(m, o) ← handle_mailbox now m (mailbox m);
  match o with
  | Some o => Done (m, Some o)
  | None =>
    m ← (if conn_ready then allocate_connections now m else Done m);
    m ← (if prot_ready then allocate_protocols m else Done m);
    Done (m, None)
  end.
End PeerManager.
