(* ===== verification/PeerSafety.v ===== *)
(** * Invariants of the peer manager

    The repository keeps its ordered set and its index of outbound
    connections consistent with the peers; the set of open connections is the
    one that the outputs and the lost connections determine; and the counts
    that should limit connections never move. *)

From S2P Require Import Prelude PeerManager.

Section PeerSafety.
Context {PeerId Addr ConnId : Type} `{Countable PeerId}.
Context (pid_leb : PeerId -> PeerId -> bool) (nc : NetworkingConfig).

Abbreviation Repo := (PeerRepo (PeerId := PeerId) (Addr := Addr)).
Abbreviation Manager := (PeerManager (PeerId := PeerId) (Addr := Addr) (ConnId := ConnId)).
Abbreviation Output := (PeerManagerOut (PeerId := PeerId) (Addr := Addr) (ConnId := ConnId)).
Abbreviation Inp := (PeerManagerIn (PeerId := PeerId) (Addr := Addr) (ConnId := ConnId)).

(** ** The repository *)

Definition is_outbound (st : ConnectionState) : bool :=
  match st with Connected (Outbound _) => true | _ => false end.

Definition outbound (r : Repo) (pid : PeerId) : bool :=
  match peers r !! pid with Some pi => is_outbound (state pi) | None => false end.

Record repo_ok (r : Repo) : Prop := {
  ro_sorted pid rep : (pid, rep) ∈ sorted_peers r <-> reputation <$> peers r !! pid = Some rep;
  ro_enabled pid : is_Some (enabled_connections (index r) !! pid) <-> outbound r pid = true;
  ro_inbound : num_inbound (index r) = 0;
  ro_outbound : num_outbound (index r) = 0;
  ro_boot : index_boot_peers (index r) = ∅;
  ro_conf : netw_conf r = nc;
}.

Lemma repo_new_ok bp : repo_ok (repo_new nc bp).
Proof.
  split; cbn; try done.
  intros pid. unfold outbound. cbn. rewrite !lookup_empty. split; [by intros [? ?]|done].
Qed.

Lemma update_info_lookup pid f (r : Repo) pid' :
  peers (update_info pid f r) !! pid' = if decide (pid' = pid) then f <$> peers r !! pid else peers r !! pid'.
Proof.
  cbn. case_decide; subst; [by rewrite lookup_alter_eq|by rewrite lookup_alter_ne].
Qed.

(** Changes that keep the reputation and the outbound connections. *)
Lemma update_info_ok pid f (r : Repo) :
  (forall pi, reputation (f pi) = reputation pi) ->
  (forall pi, is_outbound (state (f pi)) = is_outbound (state pi)) -> repo_ok r -> repo_ok (update_info pid f r).
Proof.
  intros Hr Hs [Hso He Hi Ho Hb Hnc]. split; try done.
  - intros pid' rep. rewrite update_info_lookup. cbn [sorted_peers update_info]. rewrite Hso.
    case_decide; subst; [|done]. destruct (peers r !! pid); cbn; [by rewrite Hr|done].
  - intros pid'. unfold outbound. rewrite update_info_lookup. cbn [index update_info]. rewrite He.
    unfold outbound. case_decide; subst; [|done]. destruct (peers r !! pid); cbn; [by rewrite Hs|done].
Qed.

Lemma cp_disconnect_ok pid pi (r : Repo) :
  peers r !! pid = Some pi -> repo_ok r -> repo_ok (cp_disconnect pid pi r).
Proof.
  intros Hpi [Hso He Hi Ho Hb Hnc]. unfold cp_disconnect. split.
  - intros pid' rep. rewrite update_info_lookup. destruct (state pi) as [[|]|]; cbn [sorted_peers update_info peers];
      cbn; rewrite Hso; (case_decide; subst; [rewrite Hpi|]; done).
  - intros pid'. unfold outbound. rewrite update_info_lookup.
    destruct (decide (pid' = pid)) as [->|Hne].
    + assert (peers (match state pi with
        | Connected Inbound => r <| index ::= drop_incoming pid |>
        | Connected (Outbound _) => r <| index ::= drop_outgoing pid (is_boot pi) |>
        | NotConnected => r end) !! pid = Some pi) as -> by (destruct (state pi) as [[|]|]; done).
      cbn. destruct (state pi) as [[|]|] eqn:Hst; cbn.
      * rewrite lookup_delete_eq. split; [by intros []|done].
      * destruct (is_boot pi); cbn; rewrite lookup_delete_eq; (split; [by intros []|done]).
      * rewrite He. unfold outbound. by rewrite Hpi, Hst.
    + specialize (He pid'). unfold outbound in He.
      destruct (state pi) as [[|]|]; cbn; [|destruct (is_boot pi); cbn|]; rewrite ?lookup_delete_ne by done; done.
  - destruct (state pi) as [[|]|]; cbn; [|destruct (is_boot pi)|]; cbn; lia.
  - destruct (state pi) as [[|]|]; cbn; [|destruct (is_boot pi)|]; cbn; lia.
  - destruct (state pi) as [[|]|]; cbn; [|destruct (is_boot pi)|]; cbn; rewrite ?Hb; set_solver.
  - by destruct (state pi) as [[|]|].
Qed.

Lemma ncp_connect_ok pid pi (r : Repo) :
  peers r !! pid = Some pi -> repo_ok r -> repo_ok (ncp_connect pid r).
Proof.
  intros Hpi [Hso He Hi Ho Hb Hnc]. unfold ncp_connect, force_connect. split; try done.
  - intros pid' rep. rewrite update_info_lookup. cbn. rewrite Hso. case_decide; subst; [by rewrite Hpi|done].
  - intros pid'. unfold outbound. rewrite update_info_lookup. cbn. specialize (He pid'). unfold outbound in He.
    destruct (decide (pid' = pid)) as [->|Hne].
    + rewrite lookup_insert_eq, Hpi. cbn. by split.
    + by rewrite lookup_insert_ne.
Qed.

Lemma accept_ok pid pi (r : Repo) :
  peers r !! pid = Some pi -> is_connected (state pi) = false -> repo_ok r -> repo_ok (force_connect pid Inbound r).
Proof.
  intros Hpi Hst [Hso He Hi Ho Hb Hnc]. unfold force_connect. split; try done.
  - intros pid' rep. rewrite update_info_lookup. cbn. rewrite Hso. case_decide; subst; [by rewrite Hpi|done].
  - intros pid'. unfold outbound. rewrite update_info_lookup. cbn. rewrite He. unfold outbound.
    case_decide; subst; [|done]. rewrite Hpi. cbn. by destruct (state pi).
Qed.

Lemma forget_ok pid pi pi' (r : Repo) :
  peers r !! pid = Some pi' -> reputation pi = reputation pi' -> is_outbound (state pi') = false ->
  repo_ok r -> repo_ok (forget pid pi r).
Proof.
  intros Hpi Hrep Hst [Hso He Hi Ho Hb Hnc]. unfold forget. split; try done; cbn.
  - intros pid' rep. rewrite elem_of_difference, elem_of_singleton, Hso.
    destruct (decide (pid' = pid)) as [->|Hne].
    + rewrite lookup_delete_eq, Hpi. cbn. naive_solver congruence.
    + rewrite lookup_delete_ne by done. naive_solver.
  - intros pid'. rewrite He. unfold outbound. cbn. destruct (decide (pid' = pid)) as [->|Hne].
    + by rewrite lookup_delete_eq, Hpi, Hst.
    + by rewrite lookup_delete_ne.
Qed.

Lemma adjust_reputation_ok pid pi c (r r' : Repo) rep :
  peers r !! pid = Some pi -> adjust_reputation pid pi c r = Done (r', rep) ->
  repo_ok r -> repo_ok r' /\ peers r' !! pid = Some (pi <| reputation := rep |>).
Proof.
  intros Hpi Ha [Hso He Hi Ho Hb Hnc]. apply bind_Done in Ha as (rep' & _ & [= <- ->]). split.
  - split; try done.
    + intros pid' rep'. cbn -[update_info]. rewrite update_info_lookup, elem_of_union, elem_of_difference,
        !elem_of_singleton. cbn. rewrite Hso. destruct (decide (pid' = pid)) as [->|Hne].
      * rewrite Hpi. cbn. unfold const. naive_solver congruence.
      * naive_solver.
    + intros pid'. unfold outbound. cbn -[update_info]. rewrite update_info_lookup. cbn. rewrite He. unfold outbound.
      case_decide; subst; [by rewrite Hpi|done].
  - cbn -[update_info]. rewrite update_info_lookup, decide_True, Hpi by done. done.
Qed.

Lemma try_add_peer_ok (r r' : Repo) d reserved boot :
  try_add_peer r d reserved boot = Some r' -> repo_ok r -> repo_ok r'.
Proof.
  unfold try_add_peer. destruct (peers r !! dest_peer_id d) eqn:Hpi; [done|].
  intros [= <-] [Hso He Hi Ho Hb Hnc]. destruct reserved; split; try done; cbn.
  all: intros pid'; rewrite ?He; unfold outbound; cbn; try intros rep; rewrite ?elem_of_union, ?elem_of_singleton, ?Hso.
  all: destruct (decide (pid' = dest_peer_id d)) as [->|Hne];
    [rewrite lookup_insert_eq, Hpi|rewrite lookup_insert_ne by done]; cbn; naive_solver.
Qed.

(** Changes of the index that do not touch connections. *)
Definition same_connections (ix ix' : PeerIndex (PeerId := PeerId)) : Prop :=
  enabled_connections ix' = enabled_connections ix /\ num_inbound ix' = num_inbound ix /\
  num_outbound ix' = num_outbound ix /\ index_boot_peers ix' = index_boot_peers ix.

Lemma index_ok (r r' : Repo) :
  peers r' = peers r -> sorted_peers r' = sorted_peers r -> netw_conf r' = netw_conf r -> same_connections (index r) (index r') ->
  repo_ok r -> repo_ok r'.
Proof.
  intros Hp Hs Hnc' (He' & Hi' & Ho' & Hb') [Hso He Hi Ho Hb Hnc].
  split; try congruence; unfold outbound; rewrite ?Hp, ?Hs, ?He'; done.
Qed.

Lemma set_reserved_ok pid b (r : Repo) : repo_ok r -> repo_ok (set_reserved pid b r).
Proof.
  intros Hr. unfold set_reserved. apply update_info_ok; [done..|].
  destruct b; eapply index_ok; try exact Hr; done.
Qed.

(** ** Open connections *)

Definition conn (r : Repo) (pid : PeerId) : bool :=
  match peers r !! pid with Some pi => is_connected (state pi) | None => false end.

(** The peers the manager believes to be connected. *)
Definition open (r : Repo) : gset PeerId := filter (fun pid => conn r pid = true) (dom (peers r)).

Lemma elem_of_open r pid : pid ∈ open r <-> conn r pid = true.
Proof.
  unfold open. rewrite elem_of_filter, elem_of_dom. unfold conn. destruct (peers r !! pid); naive_solver.
Qed.

Lemma open_ext r L : (forall pid, conn r pid = true <-> pid ∈ L) -> open r = L.
Proof. intros He. apply set_eq. intros pid. by rewrite elem_of_open, He. Qed.

(** What an output does to the set of open connections; a connection is not
    opened twice, and only an open one is dropped. *)
Definition apply_out (o : Output) (L : gset PeerId) : option (gset PeerId) :=
  match o with
  | Connect d => if decide (dest_peer_id d ∈ L) then None else Some ({[dest_peer_id d]} ∪ L)
  | AcceptIncomingConnection pid _ => if decide (pid ∈ L) then None else Some ({[pid]} ∪ L)
  | Drop pid => if decide (pid ∈ L) then Some (L ∖ {[pid]}) else None
  | _ => Some L
  end.

Fixpoint apply_outs (os : list Output) (L : gset PeerId) : option (gset PeerId) :=
  match os with
  | [] => Some L
  | o :: os => L ← apply_out o L; apply_outs os L
  end.

Lemma apply_outs_app os os' L : apply_outs (os ++ os') L = apply_outs os L ≫= apply_outs os'.
Proof.
  revert L. induction os as [|o os IH]; intros L; [done|]. cbn. by destruct (apply_out o L); cbn.
Qed.

(** The manager went from [m] to [m'] with the outputs [os]. *)
Record moves (m : Manager) (os : list Output) (m' : Manager) : Prop := {
  mv_repo : repo_ok (repo m) -> repo_ok (repo m');
  mv_conf : conf m' = conf m;
  mv_mail : mailbox m' = mailbox m;
  mv_queue : out_queue m' = out_queue m ++ os;
  mv_open : apply_outs os (open (repo m)) = Some (open (repo m'));
}.

Lemma moves_refl m : moves m [] m.
Proof. split; try done. by rewrite app_nil_r. Qed.

Lemma moves_trans m os m1 os' m' : moves m os m1 -> moves m1 os' m' -> moves m (os ++ os') m'.
Proof.
  intros [Hr Hc Hb Hq Ho] [Hr' Hc' Hb' Hq' Ho']. split; [auto|congruence..| |].
  - by rewrite Hq', Hq, app_assoc.
  - by rewrite apply_outs_app, Ho.
Qed.

(** A change of the repository that opens and closes nothing. *)
Lemma moves_repo (m : Manager) f :
  (repo_ok (repo m) -> repo_ok (f (repo m))) -> (forall pid, conn (f (repo m)) pid = conn (repo m) pid) ->
  moves m [] (m <| repo ::= f |>).
Proof.
  intros Hr Hc. split; try done; cbn.
  - by rewrite app_nil_r.
  - f_equal. symmetry. apply open_ext. intros pid. by rewrite Hc, elem_of_open.
Qed.

Lemma moves_out (m : Manager) o : apply_out o (open (repo m)) = Some (open (repo m)) -> moves m [o] (out o m).
Proof. intros Ho. split; try done. cbn. by rewrite Ho. Qed.

Lemma conn_update_info pid f (r : Repo) pid' :
  (forall pi, peers r !! pid = Some pi -> is_connected (state (f pi)) = is_connected (state pi)) ->
  conn (update_info pid f r) pid' = conn r pid'.
Proof.
  intros Hf. unfold conn. rewrite update_info_lookup. case_decide; subst; [|done].
  destruct (peers r !! pid) eqn:Hp; cbn; [by apply Hf|done].
Qed.

Lemma connect_moves now m pid : exists os, moves m os (connect now m pid).
Proof.
  unfold connect. destruct (peers (repo m) !! pid) as [pi|] eqn:Hpi; [|eexists; apply moves_refl].
  destruct (negb _ && _) eqn:Hc; [|eexists; apply moves_refl]. apply andb_true_iff in Hc as [Hc%negb_true_iff _].
  assert (dest_peer_id (destination pid pi) = pid) as Hd by (unfold destination; by destruct (addr pi)).
  exists [Connect (destination pid pi)]. split; try done.
  - cbn -[ncp_connect]. by eapply ncp_connect_ok.
  - cbn -[ncp_connect]. rewrite Hd, decide_False.
    + cbn [mbind option_bind]. f_equal. symmetry. apply open_ext. intros pid'. rewrite elem_of_union, elem_of_singleton, elem_of_open.
      unfold conn, ncp_connect, force_connect. rewrite update_info_lookup. cbn.
      destruct (decide (pid' = pid)) as [->|]; [rewrite Hpi; cbn|]; naive_solver.
    + rewrite elem_of_open. unfold conn. by rewrite Hpi, Hc.
Qed.

Lemma disconnect_moves m pid b : exists os, moves m os (disconnect m pid b).
Proof.
  unfold disconnect. destruct (peers (repo m) !! pid) as [pi|] eqn:Hpi; [|eexists; apply moves_refl].
  destruct (is_connected (state pi)) eqn:Hc; [|eexists; apply moves_refl].
  assert (forall pid', peers (cp_disconnect pid pi (repo m)) !! pid' =
    if decide (pid' = pid) then Some (pi <| state := NotConnected |>) else peers (repo m) !! pid') as Hl.
  { intros pid'. unfold cp_disconnect. rewrite update_info_lookup. destruct (state pi) as [[|]|]; cbn;
      by rewrite ?Hpi. }
  exists [Drop pid]. split.
  - intros Hr%(cp_disconnect_ok pid pi _ Hpi). destruct b; cbn -[cp_disconnect forget]; [|done].
    eapply forget_ok; [by rewrite Hl, decide_True|done|done|done].
  - by destruct b.
  - by destruct b.
  - by destruct b.
  - cbn. rewrite decide_True by (rewrite elem_of_open; unfold conn; by rewrite Hpi).
    cbn [mbind option_bind]. f_equal. symmetry. apply open_ext. intros pid'. rewrite elem_of_difference, elem_of_singleton, elem_of_open.
    unfold conn. specialize (Hl pid'). destruct b; cbn -[cp_disconnect].
    + destruct (decide (pid' = pid)) as [->|Hne]; [rewrite lookup_delete_eq; naive_solver|].
      rewrite lookup_delete_ne, Hl by done. naive_solver.
    + rewrite Hl. destruct (decide (pid' = pid)) as [->|Hne]; cbn; naive_solver.
Qed.

Lemma moves_foldl {A} (f : Manager -> A -> Manager) l m :
  (forall m x, exists os, moves m os (f m x)) -> exists os, moves m os (foldl f m l).
Proof.
  intros Hf. revert m. induction l as [|x l IH]; intros m; cbn; [eexists; apply moves_refl|].
  destruct (Hf m x) as [os Hm]. destruct (IH (f m x)) as [os' Hm']. eexists. by eapply moves_trans.
Qed.

(** Changes of the repository that open and close nothing. *)
Definition quiet (r r' : Repo) : Prop :=
  (repo_ok r -> repo_ok r') /\ forall pid, conn r' pid = conn r pid.

#[local] Instance quiet_preorder : PreOrder quiet.
Proof.
  split; [by intros r|]. intros r1 r2 r3 [Hr Hc] [Hr' Hc']. split; [auto|]. intros pid. by rewrite Hc'.
Qed.

Lemma quiet_foldl {A} (f : Repo -> A -> Repo) l r : (forall r x, quiet r (f r x)) -> quiet r (foldl f r l).
Proof.
  intros Hf. revert r. induction l as [|x l IH]; intros r; cbn; [done|]. etransitivity; [apply Hf|apply IH].
Qed.

Lemma quiet_moves (m : Manager) f : quiet (repo m) (f (repo m)) -> moves m [] (m <| repo ::= f |>).
Proof. intros [Hr Hc]. by apply moves_repo. Qed.

Lemma quiet_update pid f (r : Repo) : (forall pi, reputation (f pi) = reputation pi) ->
  (forall pi, is_outbound (state (f pi)) = is_outbound (state pi)) ->
  (forall pi, is_connected (state (f pi)) = is_connected (state pi)) -> quiet r (update_info pid f r).
Proof.
  intros Hr Ho Hc. split; [by apply update_info_ok|]. intros pid'. apply conn_update_info. auto.
Qed.

Lemma quiet_index (r : Repo) f : same_connections (index r) (f (index r)) -> quiet r (r <| index ::= f |>).
Proof. intros Hs. split; [by apply index_ok|done]. Qed.

Lemma quiet_try_add (r : Repo) d reserved boot : quiet r (default r (try_add_peer r d reserved boot)).
Proof.
  destruct (try_add_peer r d reserved boot) as [r'|] eqn:Ha; [|done]. split; [by eapply try_add_peer_ok|].
  intros pid. unfold try_add_peer in Ha. destruct (peers r !! dest_peer_id d) eqn:Hpi; [done|].
  assert (peers r' = <[dest_peer_id d := peer_info_new (into_addr d) reserved boot]> (peers r)) as Hp
    by (injection Ha as <-; by destruct reserved).
  unfold conn. cbn. rewrite Hp. destruct (decide (pid = dest_peer_id d)) as [->|].
  - by rewrite lookup_insert_eq, Hpi.
  - by rewrite lookup_insert_ne.
Qed.

Lemma quiet_set_reserved pid b (r : Repo) : quiet r (set_reserved pid b r).
Proof.
  split; [apply set_reserved_ok|]. intros pid'. unfold set_reserved. rewrite conn_update_info by done. by destruct b.
Qed.

Lemma quiet_set_reserved_peers (r : Repo) ps : quiet r (set_reserved_peers r ps).1.
Proof.
  unfold set_reserved_peers.
  assert (forall l st, quiet st.1.1 (foldl reserve_step st l).1.1) as Hf.
  { induction l as [|pid l IH]; intros [[r0 k] u]; cbn [foldl fst]; [done|].
    etransitivity; [|apply IH]. cbn. destruct (peers r0 !! pid); [apply quiet_set_reserved|done]. }
  specialize (Hf (elements ps) (r, ∅, ∅)). destruct (foldl _ _ _) as [[r1 k] u].
  cbn [fst] in *. etransitivity; [exact Hf|]. by apply quiet_index.
Qed.

Lemma report_moves m pid c m' : on_report_peer m pid c = Done m' -> exists os, moves m os m'.
Proof.
  unfold on_report_peer. destruct (peers (repo m) !! pid) as [pi|] eqn:Hpi; [|intros [= <-]; eexists; apply moves_refl].
  intros Hr. assert (exists os, moves m os (if is_downgrade c then out (NotifyPeerPunished pid c) m else m)) as [os Hm].
  { destruct (is_downgrade c); eexists; [by apply moves_out|apply moves_refl]. }
  assert (repo (if is_downgrade c then out (NotifyPeerPunished pid c) m else m) = repo m) as Hrepo
    by (by destruct (is_downgrade c)).
  set (m1 := if is_downgrade c then _ else _) in *. cbv zeta in Hr. clearbody m1.
  apply bind_Done in Hr as ([r rep] & Ha & Hr). rewrite Hrepo in Ha.
  assert (moves m1 [] (m1 <| repo := r |>)) as Hm1.
  { apply (moves_repo m1 (const r)); rewrite Hrepo.
    - intros Hok. by apply (adjust_reputation_ok _ _ _ _ _ _ Hpi Ha Hok).
    - intros pid'. apply bind_Done in Ha as (rep' & _ & [= <- <-]). unfold const.
      change (conn (update_info pid (fun pi => pi <| reputation := rep' |>) (repo m)) pid' = conn (repo m) pid').
      by apply conn_update_info. }
  destruct (_ <=? _)%Z; injection Hr as <-.
  - eexists. eapply moves_trans; eassumption.
  - destruct (disconnect_moves (m1 <| repo := r |>) pid true) as [os' Hd].
    eexists. eapply moves_trans; [|exact Hd]. by eapply moves_trans.
Qed.

Lemma accept_or_reject_moves m r pid conn_id :
  quiet (repo m) r -> conn r pid = false -> is_Some (peers r !! pid) ->
  exists os, moves m os (accept_or_reject m r pid conn_id).
Proof.
  intros [Hr Hc] Hn [pi Hpi]. assert (moves m [] (m <| repo := r |>)) as Hm by (by apply (moves_repo m (const r))).
  unfold accept_or_reject, try_accept_connection. destruct (_ <? _)%nat; [|eexists; eapply moves_trans; [exact Hm|by apply moves_out]].
  exists [AcceptIncomingConnection pid conn_id]. unfold conn in Hn. rewrite Hpi in Hn. split; try done.
  - cbn -[force_connect]. unfold const. intros Hok. eapply accept_ok; eauto.
  - cbn -[force_connect]. unfold const. rewrite decide_False.
    + cbn [mbind option_bind]. f_equal. symmetry. apply open_ext. intros pid'.
      rewrite elem_of_union, elem_of_singleton, elem_of_open, <- Hc. unfold conn, force_connect.
      rewrite update_info_lookup. destruct (decide (pid' = pid)) as [->|]; [rewrite Hpi; cbn|]; naive_solver.
    + rewrite elem_of_open, <- Hc. unfold conn. by rewrite Hpi, Hn.
Qed.

Lemma incoming_moves m pid conn_id : exists os, moves m os (on_incoming_connection m pid conn_id).
Proof.
  unfold on_incoming_connection. destruct (peers (repo m) !! pid) as [pi|] eqn:Hpi.
  - destruct (is_connected (state pi)) eqn:Hc; [eexists; by apply moves_out|].
    destruct (_ <=? _)%Z; [|eexists; by apply moves_out].
    apply accept_or_reject_moves; [done|unfold conn; by rewrite Hpi|by eexists].
  - pose proof (quiet_try_add (repo m) (DPeerId pid) false false) as Hq.
    destruct (try_add_peer (repo m) (DPeerId pid) false false) as [r|] eqn:Ha; [|eexists; by apply moves_out].
    apply accept_or_reject_moves; [exact Hq| |].
    + rewrite (proj2 Hq). unfold conn. by rewrite Hpi.
    + unfold try_add_peer in Ha. cbn in Ha. rewrite Hpi in Ha. injection Ha as <-. cbn. rewrite lookup_insert_eq. by eexists.
Qed.

(** Lost connections are closed by the event itself. *)
Definition after_input (i : Inp) (L : gset PeerId) : gset PeerId :=
  match i with ConnectionLost pid _ => L ∖ {[pid]} | _ => L end.

Lemma open_cp_disconnect (r : Repo) pid pi : peers r !! pid = Some pi ->
  open (cp_disconnect pid pi r) = open r ∖ {[pid]}.
Proof.
  intros Hpi. apply open_ext. intros pid'. rewrite elem_of_difference, elem_of_singleton, elem_of_open.
  unfold conn, cp_disconnect. rewrite update_info_lookup.
  destruct (decide (pid' = pid)) as [->|]; destruct (state pi) as [[|]|]; cbn; rewrite ?Hpi; cbn; naive_solver.
Qed.

Definition handled (m : Manager) (i : Inp) (os : list Output) (m' : Manager) : Prop :=
  (repo_ok (repo m) -> repo_ok (repo m')) /\ conf m' = conf m /\ out_queue m' = out_queue m ++ os /\
  apply_outs os (after_input i (open (repo m))) = Some (open (repo m')).

Lemma lost_handled now m pid reason m' :
  on_connection_lost now m pid reason = Done m' -> exists os, handled m (ConnectionLost pid reason) os m'.
Proof.
  unfold on_connection_lost. intros Hl.
  assert (pid ∉ open (repo m) -> m' = m -> exists os, handled m (ConnectionLost pid reason) os m') as Hno.
  { intros Hn ->. exists []. split_and!; try done; [by rewrite app_nil_r|]. cbn. f_equal. set_solver. }
  destruct (peers (repo m) !! pid) as [pi|] eqn:Hpi; [|injection Hl as <-; apply Hno; [|done];
    rewrite elem_of_open; unfold conn; by rewrite Hpi].
  destruct (is_connected (state pi)) eqn:Hc; [|injection Hl as <-; apply Hno; [|done];
    rewrite elem_of_open; unfold conn; by rewrite Hpi, Hc].
  set (m1 := m <| repo ::= cp_disconnect pid pi |>) in *.
  assert (exists os, moves m1 os m') as (os & [Hr Hcf _ Hq Ho]).
  { destruct reason as [|[|]|]; [destruct (is_reserved pi)|..]; cbv zeta in Hl;
      try (injection Hl as <-); try (eexists; apply moves_refl); [|by eapply report_moves].
    eexists. by apply quiet_moves, quiet_update. }
  exists os. split_and!; [|done|done|].
  - intros Hok. apply Hr. by apply cp_disconnect_ok.
  - rewrite <- Ho. cbn. by rewrite (open_cp_disconnect _ _ _ Hpi).
Qed.

Lemma handle_handled now m i m' : handle now m i = Done m' -> exists os, handled m i os m'.
Proof.
  intros Hh. destruct i as [ps|d|ps|pid c|pid|n|pid ps|pid c|pid c|pid reason|pid|pid p];
    cbn -[on_add_peers on_set_reserved_peers on_report_peer on_connection_lost on_dial_failure] in Hh;
    try (by eapply lost_handled).
  all: assert (exists os, moves m os m') as (os & [Hr Hc _ Hq Ho]); [|by exists os].
  - injection Hh as <-. eexists. apply quiet_moves, quiet_foldl. intros r d. apply quiet_try_add.
  - injection Hh as <-. eexists. apply quiet_moves, quiet_try_add.
  - injection Hh as <-. unfold on_set_reserved_peers. pose proof (quiet_set_reserved_peers (repo m) ps) as Hq.
    destruct (set_reserved_peers (repo m) ps) as [r unknown]. cbn in Hq. eexists.
    apply (quiet_moves m (const _)). unfold const. etransitivity; [exact Hq|]. apply quiet_foldl.
    intros r' pid. apply quiet_try_add.
  - by eapply report_moves.
  - injection Hh as <-. eexists. apply moves_refl.
  - injection Hh as <-. eexists. apply moves_refl.
  - injection Hh as <-. unfold on_set_peer_protocols. destruct (peers _ !! _); [|eexists; apply moves_refl].
    eexists. by apply quiet_moves, quiet_update.
  - injection Hh as <-. apply incoming_moves.
  - injection Hh as <-. unfold on_connection_established.
    destruct (peer _ _) as [[|]|]; try (eexists; apply moves_refl).
    eexists. apply quiet_moves, quiet_update; intros pi; by destruct (state pi) as [[|[]]|] eqn:E; rewrite ?E.
  - unfold on_dial_failure in Hh. destruct (peer _ _) as [[|]|];
      [by eapply report_moves|injection Hh as <-; eexists; apply moves_refl..].
  - injection Hh as <-. unfold on_force_enabled. destruct (peer _ _) as [[|]|]; try (eexists; apply moves_refl).
    eexists. by apply quiet_moves, quiet_index.
Qed.

Lemma allocate_connections_moves now m m' :
  allocate_connections pid_leb now m = Done m' -> exists os, moves m os m'.
Proof.
  unfold allocate_connections, connect_reserved. intros Ha. apply bind_Done in Ha as ([m2 mode] & Hp & Ha).
  destruct (moves_foldl (connect now) (elements (get_reserved_peers (repo m) (Some FNotConnected))) m)
    as [os1 H1]; [intros; apply connect_moves|]. set (m1 := foldl _ _ _) in *.
  apply bind_Done in Hp as (st & _ & [= Hp]).
  assert (exists os, moves m1 os m2) as [os2 H2].
  { destruct st; injection Hp as <- <-.
    - eexists. apply quiet_moves, quiet_foldl. intros; apply quiet_try_add.
    - exists []. split; try done. cbn. by rewrite app_nil_r.
    - destruct (boot_in_progress m1); [|eexists; apply moves_refl].
      destruct (moves_foldl (fun m pid => disconnect m pid true)
        (filter_peers (repo m1) (fun _ pi => is_boot pi && is_connected (state pi))) m1)
        as [os [Hr Hc Hb Hq Ho]]; [intros; apply disconnect_moves|]. exists os. by split.
    - eexists. apply moves_refl. }
  assert (exists os, moves m2 os m') as [os3 H3].
  { destruct mode; injection Ha as <-; unfold connect_best; try (eexists; apply moves_refl);
      (destruct (pick_best _ _ _); [apply connect_moves|eexists; apply moves_refl]). }
  eexists. eapply moves_trans; [|exact H3]. eapply moves_trans; eassumption.
Qed.

Lemma allocate_protocols_moves m m' : allocate_protocols pid_leb m = Done m' -> exists os, moves m os m'.
Proof.
  unfold allocate_protocols. apply (foldO_inv (fun m' => exists os, moves m os m')); [|eexists; apply moves_refl].
  intros m1 [p policy] m2 _ [os Hm] Ha. cbn in Ha.
  destruct (get_enabled_peers _ _) as [en|]; [|injection Ha as <-; by exists os].
  apply bind_Done in Ha as (cond & _ & [= <-]). destruct cond; [|by exists os].
  destruct (pick_best _ _ _) as [pid|]; [|by exists os]. destruct (peer _ _) as [[|]|]; try (by exists os).
  eexists. eapply moves_trans; [exact Hm|].
  eapply (moves_trans _ _ (m1 <| repo ::= enable_protocol pid p |>)); [by apply quiet_moves, quiet_index|by apply moves_out].
Qed.

(** ** Runs *)

(** The states of a manager, with everything it received and everything its
    polls returned. *)
Inductive manager_run (bp : list (PeerDestination (PeerId := PeerId) (Addr := Addr)))
    (cf : PeerManagerConfig) : Manager -> list Inp -> list Output -> Prop :=
| mr_new : manager_run bp cf (manager_new (repo_new nc bp) cf) [] []
| mr_mail m ins outs i : manager_run bp cf m ins outs ->
    manager_run bp cf (m <| mailbox ::= fun q => q ++ [i] |>) (ins ++ [i]) outs
| mr_poll m ins outs now conn_ready prot_ready m' o : manager_run bp cf m ins outs ->
    manager_poll pid_leb now conn_ready prot_ready m = Done (m', o) ->
    manager_run bp cf m' ins (outs ++ option_list o).

(** A log of handled inputs and outputs, in the order they happened. *)
Abbreviation Log := (list (Inp + Output)).

Definition ins_of (log : Log) : list Inp := omap (fun e => match e with inl i => Some i | _ => None end) log.
Definition outs_of (log : Log) : list Output := omap (fun e => match e with inr o => Some o | _ => None end) log.

Fixpoint replay_log (log : Log) (L : gset PeerId) : option (gset PeerId) :=
  match log with
  | [] => Some L
  | inl i :: log => replay_log log (after_input i L)
  | inr o :: log => L ← apply_out o L; replay_log log L
  end.

Lemma replay_log_app log log' L : replay_log (log ++ log') L = replay_log log L ≫= replay_log log'.
Proof.
  revert L. induction log as [|[i|o] log IH]; intros L; cbn; [done|apply IH|]. by destruct (apply_out o L); cbn.
Qed.

Lemma replay_log_outs (os : list Output) L : replay_log (inr <$> os) L = apply_outs os L.
Proof. revert L. induction os as [|o os IH]; intros L; cbn; [done|]. by destruct (apply_out o L); cbn. Qed.

Lemma ins_of_outs (os : list Output) : ins_of (inr <$> os) = [].
Proof. by induction os. Qed.

Lemma outs_of_outs (os : list Output) : outs_of (inr <$> os) = os.
Proof. induction os as [|o os IH]; [done|]. unfold outs_of in *. cbn. by rewrite IH. Qed.

(** The log explains the state of [m], with [ins] handled so far. *)
Record explains (log : Log) (ins : list Inp) (outs : list Output) (m : Manager) : Prop := {
  ex_ins : ins_of log = ins;
  ex_outs : outs_of log = outs ++ out_queue m;
  ex_open : replay_log log ∅ = Some (open (repo m));
  ex_repo : repo_ok (repo m);
}.

Lemma explains_moves log ins outs m os m' :
  explains log ins outs m -> moves m os m' -> explains (log ++ (inr <$> os)) ins outs m'.
Proof.
  intros [Hi Ho Hop Hr] [Hr' _ _ Hq Ho']. split; [| | |auto].
  - unfold ins_of in *. rewrite omap_app, Hi. change (ins ++ ins_of (inr <$> os) = ins).
    by rewrite ins_of_outs, app_nil_r.
  - unfold outs_of in *. rewrite omap_app, Ho. change ((outs ++ out_queue m) ++ outs_of (inr <$> os) = outs ++ out_queue m').
    by rewrite outs_of_outs, Hq, app_assoc.
  - by rewrite replay_log_app, Hop; cbn; rewrite replay_log_outs.
Qed.

Lemma explains_handled log ins outs m i os m' :
  explains log ins outs m -> handled m i os m' -> explains (log ++ inl i :: (inr <$> os)) (ins ++ [i]) outs m'.
Proof.
  intros [Hi Ho Hop Hr] (Hr' & _ & Hq & Ho'). split; [| | |auto].
  - unfold ins_of in *. rewrite omap_app, Hi. cbn. f_equal. f_equal. apply ins_of_outs.
  - unfold outs_of in *. rewrite omap_app, Ho. cbn. change ((outs ++ out_queue m) ++ outs_of (inr <$> os) = outs ++ out_queue m').
    by rewrite outs_of_outs, Hq, app_assoc.
  - rewrite replay_log_app, Hop. cbn. by rewrite replay_log_outs.
Qed.

Lemma handle_mailbox_explains now inbox log ins outs m m' o :
  handle_mailbox now m inbox = Done (m', o) -> explains log ins outs m ->
  exists log' ins', explains log' ins' (outs ++ option_list o) m' /\ ins' ++ mailbox m' = ins ++ inbox.
Proof.
  revert log ins m. induction inbox as [|i inbox IH]; intros log ins m Hm Hex; cbn in Hm;
    destruct (out_queue m) as [|o' q] eqn:Hq; try (injection Hm as <- <-).
  - exists log, ins. split; [|done]. destruct Hex as [Hi Ho Hop Hr]. split; try done. cbn.
    rewrite Ho, Hq. by rewrite !app_nil_r.
  - exists log, ins. split; [|done]. destruct Hex as [Hi Ho Hop Hr]. split; try done. cbn.
    rewrite Ho, Hq. by rewrite <- app_assoc.
  - apply bind_Done in Hm as (m1 & Hh & Hm). destruct (handle_handled _ _ _ _ Hh) as [os Hhd].
    destruct (IH _ _ _ Hm (explains_handled _ _ _ _ _ _ _ Hex Hhd)) as (log' & ins' & He & Hins).
    exists log', ins'. split; [done|]. by rewrite Hins, <- app_assoc.
  - exists log, ins. split; [|done]. destruct Hex as [Hi Ho Hop Hr]. split; try done. cbn.
    rewrite Ho, Hq. by rewrite <- app_assoc.
Qed.

Lemma manager_run_explained bp cf m ins outs : manager_run bp cf m ins outs ->
  exists log handled, explains log handled outs m /\ handled ++ mailbox m = ins.
Proof.
  induction 1 as [|m ins outs i _ (log & hd & Hex & Hins)|m ins outs now c p m' o _ (log & hd & Hex & Hins) Hp].
  - exists [], []. split; [|done]. split; try done. apply repo_new_ok.
  - exists log, hd. split; [by destruct Hex|]. cbn. by rewrite <- Hins, app_assoc.
  - unfold manager_poll in Hp. apply bind_Done in Hp as ([m1 o1] & Hm & Hp).
    destruct (handle_mailbox_explains _ _ _ _ _ _ _ _ Hm Hex) as (log1 & hd1 & Hex1 & Hins1).
    destruct o1 as [o1|]; [injection Hp as <- <-; exists log1, hd1; split; [done|congruence]|].
    apply bind_Done in Hp as (m2 & H2 & Hp). apply bind_Done in Hp as (m3 & H3 & [= <- <-]).
    assert (exists os, moves m1 os m2) as [os Hm2].
    { destruct c; [by eapply allocate_connections_moves|injection H2 as <-; eexists; apply moves_refl]. }
    assert (exists os, moves m2 os m3) as [os' Hm3].
    { destruct p; [by eapply allocate_protocols_moves|injection H3 as <-; eexists; apply moves_refl]. }
    exists ((log1 ++ (inr <$> os)) ++ (inr <$> os')), hd1. split.
    + eapply explains_moves; [|exact Hm3]. by eapply explains_moves.
    + rewrite (mv_mail _ _ _ Hm3), (mv_mail _ _ _ Hm2). congruence.
Qed.

(** C20: whatever the manager receives, there is a log of its inputs and
    outputs, in order, that explains its connections: no connection is opened
    while it is open, only open connections are dropped, and the peers the
    manager takes for connected are exactly those the log leaves open. *)
Theorem connections_follow_log bp cf m ins outs :
  manager_run bp cf m ins outs ->
  exists log handled, ins_of log = handled /\ handled ++ mailbox m = ins /\
    outs_of log = outs ++ out_queue m /\ replay_log log ∅ = Some (open (repo m)).
Proof.
  intros (log & hd & [Hi Ho Hop _] & Hins)%manager_run_explained. by exists log, hd.
Qed.

(** The order of the set lists the known peers. *)
Lemma elem_of_ordered (r : Repo) pid rep : (pid, rep) ∈ ordered_peers pid_leb r <-> (pid, rep) ∈ sorted_peers r.
Proof. unfold ordered_peers. by rewrite elem_of_sort_by, elem_of_elements. Qed.

Lemma pick_best_spec (r : Repo) f : repo_ok r ->
  match pick_best pid_leb r f with
  | Some pid => exists pi, peers r !! pid = Some pi /\ f pid pi = true
  | None => forall pid pi, peers r !! pid = Some pi -> f pid pi = false
  end.
Proof.
  intros Hr. unfold pick_best. destruct (list_find _ _) as [[i [pid rep]]|] eqn:E; cbn.
  - apply list_find_Some in E as (_ & Hp & _). destruct (peers r !! pid) as [pi|]; [by exists pi|done].
  - intros pid pi Hpi. apply list_find_None in E. rewrite Forall_forall in E.
    specialize (E (pid, reputation pi)). rewrite elem_of_ordered, (ro_sorted _ Hr), Hpi in E.
    specialize (E eq_refl). cbn in E. by destruct (f pid pi).
Qed.

(** In every reachable state the ordered set holds each known peer once,
    with its reputation, and the enabled connections are the outbound ones;
    so the choice of a best peer succeeds exactly when some known peer fits,
    and returns one that does. *)
Theorem peer_repo_consistent bp cf m ins outs :
  manager_run bp cf m ins outs ->
  (forall pid rep, (pid, rep) ∈ sorted_peers (repo m) <-> get_peer_reputation (repo m) pid = Some rep) /\
  (forall pid, is_Some (enabled_connections (index (repo m)) !! pid) <-> outbound (repo m) pid = true) /\
  forall f, match pick_best pid_leb (repo m) f with
    | Some pid => exists pi, peers (repo m) !! pid = Some pi /\ f pid pi = true
    | None => forall pid pi, peers (repo m) !! pid = Some pi -> f pid pi = false
    end.
Proof.
  intros (log & hd & [_ _ _ Hr] & _)%manager_run_explained. split_and!.
  - apply Hr.
  - apply Hr.
  - intros f. by apply pick_best_spec.
Qed.

(** The counts of connections never leave zero, so the limits are not
    enforced: every incoming connection of a peer that is not connected is
    accepted (for a positive limit), and a node that wants outbound
    connections never gets past its bootstrap. *)
Theorem limits_never_count bp cf m ins outs :
  manager_run bp cf m ins outs -> 0 < max_inbound nc -> 0 < min_outbound nc ->
  (forall pid, is_Some (try_accept_connection pid (repo m))) /\
  networking_state (repo m) =
    Done (if (size (peers (repo m)) <? min_known_peers nc)%nat then NotBootstrapped (boot_peers (repo m))
          else BootInProgress).
Proof.
  intros (log & hd & [_ _ _ [_ _ Hi Ho Hb Hnc]] & _)%manager_run_explained Hin Hout. split.
  - intros pid. unfold try_accept_connection. rewrite Hi, Hnc, (proj2 (Nat.ltb_lt _ _)) by done. by eexists.
  - unfold networking_state. rewrite Hnc, Ho, Hb, size_empty. destruct (_ <? _)%nat; [done|].
    rewrite checked_in by (cbn; unfold u64_max; lia). outcome_cbn.
    rewrite (proj2 (Z.ltb_lt _ _)) by lia. done.
Qed.

(** A percentage below one hundred never allocates a protocol, and without
    enabled connections it divides by zero. *)
Lemma bounded_policy_never_allocates p enabled connected : p < 100 ->
  allocation_allowed (Bounded p) enabled connected = if (connected =? 0)%nat then Panic else Done false.
Proof.
  intros Hp. unfold allocation_allowed. destruct (connected =? 0)%nat; [done|].
  by rewrite (Nat.div_small p 100) by done.
Qed.

(** A report about a known peer returns unless the reputation underflows;
    it lowers the reputation by ten and announces the punishment; below the
    acceptable reputation a connected peer is dropped and forgotten, while one
    that is not connected is kept. *)
Theorem report_peer_spec (m : Manager) (pid : PeerId) c pi :
  peers (repo m) !! pid = Some pi -> (i32_min + 10 <= reputation pi <= i32_max)%Z ->
  let rep := (reputation pi - 10)%Z in
  let kept := (min_acceptable_reputation (conf m) <=? rep)%Z || negb (is_connected (state pi)) in
  exists m', on_report_peer m pid c = Done m' /\
    (if kept then get_peer_reputation (repo m') pid = Some rep else peers (repo m') !! pid = None) /\
    out_queue m' = out_queue m ++ NotifyPeerPunished pid c :: (if kept then [] else [Drop pid]).
Proof.
  intros Hpi Hb rep kept. unfold on_report_peer. rewrite Hpi.
  replace (is_downgrade c) with true by (by destruct c). cbv zeta. unfold adjust_reputation, apply_change.
  replace (reputation pi + change_value c)%Z with rep by (subst rep; destruct c; cbn; lia).
  rewrite checked_in by (unfold i32_min, i32_max in *; lia). outcome_cbn.
  set (m1 := _ <| repo := _ |>). eexists. split; [reflexivity|].
  assert (peers (repo m1) !! pid = Some (pi <| reputation := rep |>)) as Hpi1.
  { etransitivity; [exact (update_info_lookup pid (fun pi => pi <| reputation := rep |>) (repo m) pid)|].
    by rewrite decide_True, Hpi. }
  assert (out_queue m1 = out_queue m ++ [NotifyPeerPunished pid c]) as Hq by done.
  change (conf m1) with (conf m). clearbody m1. subst kept. unfold get_peer_reputation.
  destruct (_ <=? _)%Z; cbn [orb]; [by rewrite Hpi1|]. unfold disconnect. rewrite Hpi1.
  change (state (pi <| reputation := rep |>)) with (state pi).
  destruct (is_connected (state pi)); cbn [negb]; [|by rewrite Hpi1].
  cbn -[cp_disconnect]. rewrite Hq, lookup_delete_eq. split; [done|]. by rewrite <- app_assoc.
Qed.
End PeerSafety.

(** ** A manager with one incoming connection *)

Module PeerSample.
Definition net : NetworkingConfig :=
  {| min_known_peers := 1; min_outbound := 1; max_inbound := 1; max_outbound := 1 |}.
Definition cfg : PeerManagerConfig := {|
  min_acceptable_reputation := -10; min_reputation := -10; conn_reset_outbound_backoff := 5;
  protocols_allocation := [];
|}%Z.
Abbreviation M := (PeerManager (PeerId := nat) (Addr := nat) (ConnId := nat)).
Abbreviation I := (PeerManagerIn (PeerId := nat) (Addr := nat) (ConnId := nat)).
Abbreviation O := (PeerManagerOut (PeerId := nat) (Addr := nat) (ConnId := nat)).

Definition m0 : M := manager_new (repo_new net []) cfg.
Definition m1 : M := m0 <| mailbox ::= fun q => q ++ [IncomingConnection 5 0] |>.
Definition polled : outcome (M * option O) := manager_poll Nat.leb 0 true true m1.

Definition info5 : PeerInfo (Addr := nat) := (peer_info_new None false false) <| state := Connected Inbound |>.

Definition five : gset nat := {[5]}.

Definition at5 (x : M * option O) : option (PeerInfo (Addr := nat)) := peers (repo x.1) !! 5.

Lemma accepted : exists m, manager_run Nat.leb net [] cfg m [IncomingConnection 5 0] [AcceptIncomingConnection 5 0] /\
  open (repo m) = five /\ peers (repo m) !! 5 = Some info5 /\
  conf m = cfg.
Proof.
  destruct (is_done_exists polled ltac:(vm_compute; reflexivity)) as [[m o] E].
  pose proof (fmap_Done snd _ _ (Some (AcceptIncomingConnection 5 0)) E ltac:(vm_compute; reflexivity)) as Ho.
  pose proof (fmap_Done (fun x => open (repo x.1)) _ _ five E ltac:(vm_compute; reflexivity)) as Hop.
  pose proof (fmap_Done at5 _ _
    (Some info5) E ltac:(vm_compute; reflexivity)) as Hp.
  pose proof (fmap_Done (fun x => conf x.1) _ _ cfg E ltac:(vm_compute; reflexivity)) as Hc.
  cbn in Ho, Hop, Hp, Hc. subst o. exists m. split; [|done].
  apply (mr_poll Nat.leb net [] cfg m1 _ [] 0%Z true true m (Some (AcceptIncomingConnection 5 0))); [|exact E].
  apply (mr_mail Nat.leb net [] cfg m0 [] []). apply mr_new.
Qed.

Lemma connections_follow_log_witness : exists m log handled,
  ins_of log = handled /\ handled ++ mailbox m = [IncomingConnection 5 0 : I] /\
  outs_of log = [AcceptIncomingConnection 5 0 : O] ++ out_queue m /\ replay_log log ∅ = Some (open (repo (m : M))).
Proof.
  destruct accepted as (m & Hr & _).
  destruct (connections_follow_log Nat.leb net [] cfg m _ _ Hr) as (log & hd & Hl). by exists m, log, hd.
Defined.

Lemma peer_repo_consistent_witness : exists m : M,
  open (repo m) = five /\ (5, 0%Z) ∈ sorted_peers (repo m).
Proof.
  destruct accepted as (m & Hr & Ho & Hp & _). exists m. split; [exact Ho|].
  apply (proj1 (peer_repo_consistent Nat.leb net [] cfg m _ _ Hr)). unfold get_peer_reputation. by rewrite Hp.
Defined.

(** The limit is one connection, and one is open. *)
Lemma limits_never_count_witness : exists m : M,
  open (repo m) = five /\ is_Some (try_accept_connection 6 (repo m)).
Proof.
  destruct accepted as (m & Hr & Ho & _). exists m. split; [exact Ho|].
  apply (limits_never_count Nat.leb net [] cfg m _ _ Hr); cbn; lia.
Defined.

Lemma report_peer_spec_witness : exists m m' : M, on_report_peer m 5 TooSlow = Done m' /\
  get_peer_reputation (repo m') 5 = Some (-10)%Z.
Proof.
  destruct accepted as (m & _ & _ & Hp & Hc). exists m.
  destruct (report_peer_spec m 5 TooSlow _ Hp ltac:(vm_compute; split; discriminate)) as (m' & Hm & Hif & _).
  rewrite Hc in Hif. exists m'. by split.
Defined.

(** A poll that opens connections is pending although there is output. *)
Definition with_peer : outcome (M * option O) :=
  manager_poll Nat.leb 0 true false (m0 <| mailbox ::= fun q => q ++ [AddPeers [DPeerId 9]] |>).

Lemma pending_with_output :
  (fun x : M * option O => (x.2, out_queue x.1)) <$> with_peer = Done (None, [Connect (DPeerId 9)]).
Proof. vm_compute. reflexivity. Qed.
End PeerSample.
