(* ===== verification/Substream.v ===== *)
(** * Protocol substreams

    Model of the negotiation of protocols in [spectrum-network/src]: protocol
    tags ([types.rs]), protocol configurations ([protocol.rs]), handshakes of
    several versions and upgrades ([protocol_upgrade.rs] and the files under
    it), one-shot upgrades ([one_shot_upgrade.rs]) and the sink through which
    messages are queued ([peer_conn_handler/message_sink.rs]).

    A socket is third-party code.  It is given by what its polls will answer,
    one list per operation; an exhausted list answers [Pending].  The theorems
    hold for all answers.  The socket records what was written, flushed and
    received. *)

From S2P Require Import Prelude.

(** ** Tags and configurations *)

Abbreviation ProtocolId := Z (only parsing).
Abbreviation ProtocolVer := Z (only parsing).
Abbreviation RawMessage := (list Z) (only parsing).

(** [ProtocolTag], three bytes. *)
Definition ProtocolTag : Type := Z * Z * Z.

Definition tag_new (protocol_id protocol_ver : Z) : ProtocolTag := (47%Z, protocol_id, protocol_ver).

Definition tag_protocol_id (t : ProtocolTag) : Z := t.1.2.

Definition tag_protocol_ver (t : ProtocolTag) : Z := t.2.

(** [From<ProtocolTag> for ProtocolVer] *)
Definition ver_of_tag (t : ProtocolTag) : Z := t.1.2.

(** [str::from_utf8] on three bytes of which the first is ASCII. *)
Definition tag_utf8 (t : ProtocolTag) : bool :=
  let '(_, b1, b2) := t in
  ((b1 <? 128) && (b2 <? 128) || (194 <=? b1) && (b1 <=? 223) && (128 <=? b2) && (b2 <=? 191))%Z.

(** [AsRef<str>], the name a protocol is negotiated under. *)
Definition tag_str (t : ProtocolTag) : outcome (list Z) :=
  if tag_utf8 t then Done [t.1.1; t.1.2; t.2] else Panic.

Record StatefulProtocolSpec := { max_message_size : Z; approve_required : bool }.

Record OneShotProtocolSpec := { os_max_message_size : Z }.

Record OneShotProtocolConfig := { os_version : Z; os_spec : OneShotProtocolSpec }.

Inductive ProtocolConfig :=
| Stateful (supported_versions : list (Z * StatefulProtocolSpec))
| OneShot (one_shot : OneShotProtocolConfig).

(** [BTreeMap<ProtocolVer, _>]: versions are ordered the other way round, so
    the map is iterated from the newest version. *)
Definition ver_entries {A} (m : gmap Z A) : list (Z * A) :=
  sort_by_key (fun a b => b <=? a)%Z fst (map_to_list m).

(** [PolyVerHandshakeSpec] *)
Abbreviation PolyVerHandshakeSpec := (gmap Z (option (list Z))) (only parsing).

Definition handshake_for (h : gmap Z (option (list Z))) (ver : Z) : option (list Z) := mjoin (h !! ver).

Record OneShotMessage := { os_protocol : ProtocolTag; os_content : list Z }.

(** ** Sockets *)

Inductive IoPoll := IoPending | IoOk | IoErr.

Inductive ReadPoll := RPending | RMsg (m : list Z) | RErr | REnd.

Inductive IoEvent := Wrote (m : list Z) | Flushed | Read (m : list Z) | Ended.

Record Socket := {
  sk_ready : list IoPoll;
  sk_start : list bool;
  sk_flush : list IoPoll;
  sk_close : list IoPoll;
  sk_next : list ReadPoll;
  sk_max_len : Z;
  sk_log : list IoEvent;
}.

Definition script {A} (d : A) (l : list A) : A * list A :=
  match l with [] => (d, []) | x :: r => (x, r) end.

Definition sock_log (e : IoEvent) (s : Socket) : Socket := s <| sk_log ::= fun l => l ++ [e] |>.

(** [Sink::poll_ready] *)
Definition sock_ready (s : Socket) : IoPoll * Socket :=
  let '(r, l) := script IoPending (sk_ready s) in (r, s <| sk_ready := l |>).

(** [Sink::start_send] *)
Definition sock_start_send (m : list Z) (s : Socket) : bool * Socket :=
  let '(ok, l) := script true (sk_start s) in
  let s := s <| sk_start := l |> in
  (ok, if ok then sock_log (Wrote m) s else s).

(** [Sink::poll_flush] *)
Definition sock_flush (s : Socket) : IoPoll * Socket :=
  let '(r, l) := script IoPending (sk_flush s) in
  let s := s <| sk_flush := l |> in
  (r, match r with IoOk => sock_log Flushed s | _ => s end).

(** [Sink::poll_close] *)
Definition sock_close (s : Socket) : IoPoll * Socket :=
  let '(r, l) := script IoPending (sk_close s) in (r, s <| sk_close := l |>).

(** [Stream::poll_next] *)
Definition sock_next (s : Socket) : ReadPoll * Socket :=
  let '(r, l) := script RPending (sk_next s) in
  let s := s <| sk_next := l |> in
  (r, match r with RMsg m => sock_log (Read m) s | REnd => sock_log Ended s | _ => s end).

(** ** Substreams *)

(** [Approve::bytes] *)
Definition approve_bytes : list Z := [1%Z].

Inductive ProtocolApproveState :=
| NotSent
| PendingSend (msg : list Z)
| Flush
| Sent
| ClosingInResponseToRemote
| BothSidesClosed.

Record ProtocolSubstreamIn := { in_socket : Socket; approve_state : option ProtocolApproveState }.

Definition send_approve (s : ProtocolSubstreamIn) : ProtocolSubstreamIn :=
  match approve_state s with
  | Some NotSent => s <| approve_state := Some (PendingSend approve_bytes) |>
  | _ => s
  end.

(** The result [Poll<Result<Void, _>>] is pending or an error. *)
Fixpoint process_handshake_loop (fuel : nat) (s : ProtocolSubstreamIn) : outcome (bool * ProtocolSubstreamIn) :=
  match fuel with
  | 0 => NoFuel
  | S fuel =>
    match approve_state s with
    | Some (PendingSend msg) =>
      match sock_ready (in_socket s) with
      | (IoPending, k) => Done (false, s <| in_socket := k |>)
      | (_, k) =>
        let '(ok, k) := sock_start_send msg k in
        let s := {| in_socket := k; approve_state := Some Flush |} in
        if (ok : bool) then process_handshake_loop fuel s else Done (true, s)
      end
    | Some Flush =>
      match sock_flush (in_socket s) with
      | (IoErr, k) => Done (true, {| in_socket := k; approve_state := Some Sent |})
      | (IoOk, k) => process_handshake_loop fuel {| in_socket := k; approve_state := Some Sent |}
      | (IoPending, k) => Done (false, s <| in_socket := k |>)
      end
    | _ => Done (false, s)
    end
  end.

(** Pushing, flushing, and the return. *)
Definition poll_process_handshake (s : ProtocolSubstreamIn) : outcome (bool * ProtocolSubstreamIn) :=
  process_handshake_loop 3 s.

Fixpoint in_poll_next_loop (fuel : nat) (s : ProtocolSubstreamIn) : outcome (ReadPoll * ProtocolSubstreamIn) :=
  match fuel with
  | 0 => NoFuel
  | S fuel =>
    match approve_state s with
    | Some Sent | None =>
      match sock_next (in_socket s) with
      | (REnd, k) => in_poll_next_loop fuel {| in_socket := k; approve_state := Some ClosingInResponseToRemote |}
      | (r, k) => Done (r, {| in_socket := k; approve_state := Some Sent |})
      end
    | Some NotSent => Done (RPending, s)
    | Some (PendingSend msg) =>
      match sock_ready (in_socket s) with
      | (IoPending, k) => Done (RPending, s <| in_socket := k |>)
      | (_, k) =>
        let '(ok, k) := sock_start_send msg k in
        let s := {| in_socket := k; approve_state := Some Flush |} in
        if (ok : bool) then in_poll_next_loop fuel s else Done (RErr, s)
      end
    | Some Flush =>
      match sock_flush (in_socket s) with
      | (IoErr, k) => Done (RErr, {| in_socket := k; approve_state := None |})
      | (IoOk, k) => in_poll_next_loop fuel {| in_socket := k; approve_state := Some Sent |}
      | (IoPending, k) => Done (RPending, s <| in_socket := k |>)
      end
    | Some ClosingInResponseToRemote =>
      match sock_close (in_socket s) with
      | (IoErr, k) => Done (RErr, {| in_socket := k; approve_state := None |})
      | (IoOk, k) => in_poll_next_loop fuel {| in_socket := k; approve_state := Some BothSidesClosed |}
      | (IoPending, k) => Done (RPending, s <| in_socket := k |>)
      end
    | Some BothSidesClosed => Done (REnd, {| in_socket := in_socket s; approve_state := None |})
    end
  end.

(** Pushing, flushing, reading the end, closing, and the return. *)
Definition in_poll_next (s : ProtocolSubstreamIn) : outcome (ReadPoll * ProtocolSubstreamIn) :=
  in_poll_next_loop 5 s.

(** [ProtocolSubstreamOut] passes its calls on to the socket. *)
Record ProtocolSubstreamOut := { out_socket : Socket }.

Definition out_poll_ready (s : ProtocolSubstreamOut) : IoPoll * ProtocolSubstreamOut :=
  let '(r, k) := sock_ready (out_socket s) in (r, {| out_socket := k |}).

Definition out_start_send (m : list Z) (s : ProtocolSubstreamOut) : bool * ProtocolSubstreamOut :=
  let '(r, k) := sock_start_send m (out_socket s) in (r, {| out_socket := k |}).

Definition out_poll_flush (s : ProtocolSubstreamOut) : IoPoll * ProtocolSubstreamOut :=
  let '(r, k) := sock_flush (out_socket s) in (r, {| out_socket := k |}).

(** ** Upgrades *)

Record InboundProtocolSpec := { in_max_message_size : Z; handshake_required : bool }.

Definition inbound_spec (spec : StatefulProtocolSpec) : InboundProtocolSpec :=
  {| in_max_message_size := max_message_size spec; handshake_required := approve_required spec |}.

Record ProtocolUpgradeIn := { ui_protocol_id : Z; ui_versions : gmap Z InboundProtocolSpec }.

Definition upgrade_in_new (protocol_id : Z) (supported_versions : list (Z * StatefulProtocolSpec)) : ProtocolUpgradeIn :=
  {| ui_protocol_id := protocol_id;
     ui_versions := collect_map ((fun '(ver, spec) => (ver, inbound_spec spec)) <$> supported_versions) |}.

Definition ui_protocol_info (u : ProtocolUpgradeIn) : list ProtocolTag :=
  (fun e => tag_new (ui_protocol_id u) e.1) <$> ver_entries (ui_versions u).

Record InboundProtocolUpgraded := {
  iu_negotiated_tag : ProtocolTag;
  iu_handshake : option (list Z);
  iu_substream : ProtocolSubstreamIn;
}.

(** [read max]: what [read_length_prefixed] reads, if it succeeds. *)
Definition upgrade_inbound (read : Z -> option (list Z)) (u : ProtocolUpgradeIn) (socket : Socket)
    (negotiated_tag : ProtocolTag) : outcome (option InboundProtocolUpgraded) :=
  pspec ← unwrap (ui_versions u !! tag_protocol_ver negotiated_tag);
  let socket := socket <| sk_max_len := in_max_message_size pspec |> in
  if handshake_required pspec then
    Done (hs ← read (in_max_message_size pspec);
          Some {| iu_negotiated_tag := negotiated_tag; iu_handshake := Some hs;
                  iu_substream := {| in_socket := socket; approve_state := Some NotSent |} |})
  else
    Done (Some {| iu_negotiated_tag := negotiated_tag; iu_handshake := None;
                  iu_substream := {| in_socket := socket; approve_state := None |} |}).

Record OutboundProtocolSpec := { out_max_message_size : Z; out_handshake : option (list Z) }.

Record ProtocolUpgradeOut := { uo_protocol_id : Z; uo_versions : gmap Z OutboundProtocolSpec }.

Definition upgrade_out_new (protocol_id : Z)
    (supported_versions : list (Z * StatefulProtocolSpec * option (list Z))) : ProtocolUpgradeOut :=
  {| uo_protocol_id := protocol_id;
     uo_versions := collect_map ((fun '(ver, spec, handshake) =>
       (ver, {| out_max_message_size := max_message_size spec; out_handshake := handshake |}))
         <$> supported_versions) |}.

Definition uo_protocol_info (u : ProtocolUpgradeOut) : list ProtocolTag :=
  (fun e => tag_new (uo_protocol_id u) e.1) <$> ver_entries (uo_versions u).

Record OutboundProtocolUpgraded := { ou_negotiated_tag : ProtocolTag; ou_substream : ProtocolSubstreamOut }.

(** [read_approve] on the byte read, if any. *)
Definition approved (read : option (list Z)) : bool :=
  match read with Some buf => bool_decide (buf = approve_bytes) | None => false end.

(** [write hs]: does [write_length_prefixed] succeed; [read]: the byte that
    [read_exact] returns. *)
Definition upgrade_outbound (write : list Z -> bool) (read : option (list Z)) (u : ProtocolUpgradeOut)
    (socket : Socket) (negotiated_tag : ProtocolTag) : outcome (option OutboundProtocolUpgraded) :=
  pspec ← unwrap (uo_versions u !! tag_protocol_ver negotiated_tag);
  let upgraded := {| ou_negotiated_tag := negotiated_tag;
                     ou_substream := {| out_socket := socket <| sk_max_len := out_max_message_size pspec |> |} |} in
  match out_handshake pspec with
  | Some handshake => Done (if write handshake && approved read then Some upgraded else None)
  | None => Done (Some upgraded)
  end.

(** [AnyUpgradeOf]: the upgrades of all protocols, told apart by their index. *)
Section AnyUpgrade.
Context {U I O E : Type} (protocol_info : U -> list I) (upgrade : U -> I -> outcome (O + E)).

Definition any_protocol_info (us : list U) : list (I * nat) :=
  mjoin (imap (fun ix u => (fun info => (info, ix)) <$> protocol_info u) us).

Definition any_upgrade_inbound (us : list U) (info : I * nat) : outcome (O * nat + E * nat) :=
  u ← unwrap (us !! info.2);
  r ← upgrade u info.1;
  Done (match r with inl o => inl (o, info.2) | inr e => inr (e, info.2) end).
End AnyUpgrade.

(** One-shot upgrades. *)
Record OneShotUpgradeOut := { oo_protocol : ProtocolTag; oo_id : Z; oo_message : list Z }.

Definition one_shot_upgrade_outbound (write : list Z -> bool) (u : OneShotUpgradeOut) : option Z :=
  if write (oo_message u) then Some (oo_id u) else None.

Record OneShotUpgradeIn := { oi_protocol : ProtocolTag; oi_max_message_size : Z }.

Definition one_shot_upgrade_inbound (read : Z -> option (list Z)) (u : OneShotUpgradeIn) (protocol : ProtocolTag)
    : option OneShotMessage :=
  msg ← read (oi_max_message_size u);
  Some {| os_protocol := protocol; os_content := msg |}.

(** ** The message sink

    A sink and the connection handler share two bounded channels.  A channel
    of the futures crate holds as many messages as its buffer and one more per
    sender; here each channel has one sender, and a clone that is made to send
    one notification finds the slot reserved for it. *)

Inductive StreamNotification := NMessage (m : list Z) | ForceClose.

Record Channel := {
  async_queue : list StreamNotification;
  sync_queue : list StreamNotification;
  async_buffer : nat;
  sync_buffer : nat;
  sync_sender : bool;
  receiver_alive : bool;
  peeked : option StreamNotification;
  async_turn : bool;
}.

Definition channel_new (async_msg_buffer_size sync_msg_buffer_size : nat) : Channel := {|
  async_queue := [];
  sync_queue := [];
  async_buffer := async_msg_buffer_size;
  sync_buffer := sync_msg_buffer_size;
  sync_sender := true;
  receiver_alive := true;
  peeked := None;
  async_turn := true;
|}.

(** [MessageSink::send_message].  The directive to close is sent inside of a
    [debug_assert!], which is evaluated in builds with debug assertions only. *)
Definition send_message (debug_assertions : bool) (msg : list Z) (c : Channel) : bool * Channel :=
  if sync_sender c then
    if receiver_alive c && (length (sync_queue c) <=? sync_buffer c)%nat
    then (true, c <| sync_queue ::= fun q => q ++ [NMessage msg] |>)
    else
      let c := if debug_assertions && receiver_alive c
               then c <| sync_queue ::= fun q => q ++ [ForceClose] |> else c in
      (false, c <| sync_sender := false |>)
  else (false, c).

(** [MessageSink::reserve_slot] and [Ready::send]; nothing while the future of
    the slot is pending. *)
Definition send_async (msg : list Z) (c : Channel) : option (bool * Channel) :=
  if receiver_alive c then
    if (length (async_queue c) <=? async_buffer c)%nat
    then Some (true, c <| async_queue ::= fun q => q ++ [NMessage msg] |>)
    else None
  else Some (false, c).

(** [stream::select] takes turns. *)
Definition select_next (c : Channel) : option StreamNotification * Channel :=
  let c' := c <| async_turn := negb (async_turn c) |> in
  match async_turn c, async_queue c, sync_queue c with
  | true, x :: r, _ | false, x :: r, [] => (Some x, c' <| async_queue := r |>)
  | false, _, x :: r | true, [], x :: r => (Some x, c' <| sync_queue := r |>)
  | _, [], [] => (None, c')
  end.

(** [Peekable::poll_peek] and [Peekable::poll_next]; the end of the stream and
    a pending one are not told apart by the caller. *)
Definition poll_peek (c : Channel) : option StreamNotification * Channel :=
  match peeked c with
  | Some x => (Some x, c)
  | None => let '(x, c) := select_next c in (x, c <| peeked := x |>)
  end.

Definition channel_next (c : Channel) : option StreamNotification * Channel :=
  match peeked c with
  | Some x => (Some x, c <| peeked := None |>)
  | None => select_next c
  end.

(** ** Properties of substreams *)

(** The polls of an inbound substream return: each turn of their loops moves
    the approval on. *)
Lemma poll_process_handshake_returns s : exists r s', poll_process_handshake s = Done (r, s').
Proof.
  unfold poll_process_handshake. cbn.
  repeat (case_match; cbn in *; simplify_eq; try (by do 2 eexists)).
Qed.

Lemma in_poll_next_returns s : exists r s', in_poll_next s = Done (r, s').
Proof.
  unfold in_poll_next. cbn [in_poll_next_loop].
  repeat (case_match; cbn [approve_state in_socket] in *; simplify_eq; try (by do 2 eexists)).
Qed.

(** What the owner of an inbound substream does with it, until a poll reports
    an error or the end; [ms] are the messages it was given. *)
Inductive sub_run (s0 : ProtocolSubstreamIn) : ProtocolSubstreamIn -> list (list Z) -> Prop :=
| sub_start : sub_run s0 s0 []
| sub_approve s ms : sub_run s0 s ms -> sub_run s0 (send_approve s) ms
| sub_handshake s ms s' : sub_run s0 s ms -> poll_process_handshake s = Done (false, s') -> sub_run s0 s' ms
| sub_pending s ms s' : sub_run s0 s ms -> in_poll_next s = Done (RPending, s') -> sub_run s0 s' ms
| sub_message s ms m s' : sub_run s0 s ms -> in_poll_next s = Done (RMsg m, s') -> sub_run s0 s' (ms ++ [m]).

Definition greeted (ms : list (list Z)) : list IoEvent := Wrote approve_bytes :: Flushed :: (Read <$> ms).

Definition sub_inv (s : ProtocolSubstreamIn) (ms : list (list Z)) : Prop :=
  match approve_state s with
  | Some NotSent => sk_log (in_socket s) = [] /\ ms = []
  | Some (PendingSend msg) => msg = approve_bytes /\ sk_log (in_socket s) = [] /\ ms = []
  | Some Flush => sk_log (in_socket s) = [Wrote approve_bytes] /\ ms = []
  | Some Sent => sk_log (in_socket s) = greeted ms
  | Some ClosingInResponseToRemote | Some BothSidesClosed => sk_log (in_socket s) = greeted ms ++ [Ended]
  | None => False
  end.

Lemma process_handshake_inv fuel s ms s' :
  sub_inv s ms -> process_handshake_loop fuel s = Done (false, s') -> sub_inv s' ms.
Proof.
  revert s. induction fuel as [|fuel IH]; intros s Hs Hp; cbn in Hp; [done|].
  unfold sub_inv in Hs. destruct (approve_state s) as [[]|] eqn:Est; try by simplify_eq; unfold sub_inv; rewrite Est.
  - destruct Hs as (-> & Hlog & ->).
    unfold sock_ready, sock_start_send in Hp.
    destruct (script IoPending _) as [[] ?]; cbn in Hp; simplify_eq; unfold sub_inv; cbn; rewrite ?Est;
      try done; destruct (script true _) as [[] ?]; cbn in Hp; try done;
      (eapply IH; [|exact Hp]); unfold sub_inv; cbn; by rewrite Hlog.
  - destruct Hs as (Hlog & ->). unfold sock_flush in Hp.
    destruct (script IoPending _) as [[] ?]; cbn in Hp; simplify_eq; unfold sub_inv; cbn; rewrite ?Est; try done.
    eapply IH; [|exact Hp]. unfold sub_inv. cbn. by rewrite Hlog.
Qed.

Lemma in_poll_next_inv fuel s ms r s' :
  sub_inv s ms -> in_poll_next_loop fuel s = Done (r, s') ->
  match r with RPending => sub_inv s' ms | RMsg m => sub_inv s' (ms ++ [m]) | _ => True end.
Proof.
  revert s. induction fuel as [|fuel IH]; intros s Hs Hp; cbn [in_poll_next_loop] in Hp; [done|].
  unfold sub_inv in Hs. destruct (approve_state s) as [[| | | | |]|] eqn:Est; [| | | | | |done].
  - simplify_eq. unfold sub_inv. by rewrite Est.
  - destruct Hs as (-> & Hlog & ->). unfold sock_ready, sock_start_send in Hp.
    destruct (script IoPending _) as [[] ?]; cbn -[in_poll_next_loop] in Hp; simplify_eq;
      [unfold sub_inv; cbn; by rewrite Est|..];
      destruct (script true _) as [[] ?]; cbn -[in_poll_next_loop] in Hp; simplify_eq; try done;
      (eapply IH; [|exact Hp]); unfold sub_inv; cbn; by rewrite Hlog.
  - destruct Hs as (Hlog & ->). unfold sock_flush in Hp.
    destruct (script IoPending _) as [[] ?]; cbn -[in_poll_next_loop] in Hp; simplify_eq; try done;
      [unfold sub_inv; cbn; by rewrite Est|].
    eapply IH; [|exact Hp]. unfold sub_inv. cbn. by rewrite Hlog.
  - unfold sock_next in Hp. destruct (script RPending _) as [[] ?]; cbn -[in_poll_next_loop] in Hp; simplify_eq;
      try done; [|eapply IH; [|exact Hp]]; unfold sub_inv; cbn; rewrite Hs; [|done].
    unfold greeted. by rewrite fmap_app.
  - unfold sock_close in Hp. destruct (script IoPending _) as [[] ?]; cbn -[in_poll_next_loop] in Hp; simplify_eq;
      try done; [unfold sub_inv; cbn; by rewrite Est|]. by eapply IH; [|exact Hp].
  - by simplify_eq.
Qed.

Lemma sub_run_inv s0 s ms : sub_inv s0 [] -> sub_run s0 s ms -> sub_inv s ms.
Proof.
  intros H0. induction 1 as [|s ms _ IH|s ms s' _ IH Hp|s ms s' _ IH Hp|s ms m s' _ IH Hp].
  - done.
  - unfold send_approve, sub_inv in *. destruct (approve_state s) as [[]|] eqn:E; cbn; rewrite ?E; naive_solver.
  - by eapply process_handshake_inv.
  - exact (in_poll_next_inv _ _ _ _ _ IH Hp).
  - exact (in_poll_next_inv _ _ _ _ _ IH Hp).
Qed.

(** On a substream that requires an approval, until a poll reports an
    error, on which the connection handler drops the substream, and however the
    polls are ordered, what happens on the socket is a prefix of: the approval is written, flushed, the messages given to the owner are
    read in order, and the end is read.  So no message is given out before the
    approval has been flushed, and the approval is written at most once. *)
Theorem approve_precedes_messages read u socket tag up s ms :
  upgrade_inbound read u socket tag = Done (Some up) -> iu_handshake up <> None -> sk_log socket = [] ->
  sub_run (iu_substream up) s ms ->
  sk_log (in_socket s) `prefix_of` greeted ms ++ [Ended].
Proof.
  intros Hu Hh Hlog Hrun. unfold upgrade_inbound in Hu. apply bind_Done in Hu as (ps & _ & Hu).
  destruct (handshake_required ps); [|by simplify_eq]. injection Hu as Hu.
  destruct (read _) as [hs|]; cbn in Hu; [|done]. injection Hu as <-.
  apply sub_run_inv in Hrun; [|done]. unfold sub_inv, greeted in *.
  destruct (approve_state s) as [[]|]; [| | | | | |done].
  - destruct Hrun as [-> ->]. apply prefix_nil.
  - destruct Hrun as (_ & -> & ->). apply prefix_nil.
  - destruct Hrun as [-> ->]. apply prefix_cons, prefix_nil.
  - rewrite Hrun. by eexists.
  - by rewrite Hrun.
  - by rewrite Hrun.
Qed.

(** The tags an upgrade lists are those it can be negotiated for. *)
Lemma elem_of_ver_entries {A} (m : gmap Z A) e : e ∈ ver_entries m <-> m !! e.1 = Some e.2.
Proof. unfold ver_entries, sort_by_key. rewrite elem_of_sort_by. destruct e. apply elem_of_map_to_list. Qed.

Lemma upgrade_inbound_listed read u socket tag :
  tag ∈ ui_protocol_info u -> exists r, upgrade_inbound read u socket tag = Done r.
Proof.
  unfold ui_protocol_info. intros ([ver spec] & -> & He)%list_elem_of_fmap. apply elem_of_ver_entries in He.
  unfold upgrade_inbound. unfold tag_new, tag_protocol_ver. cbn in He |- *. rewrite He. outcome_cbn.
  destruct (handshake_required spec); by eexists.
Qed.

Lemma upgrade_outbound_listed write read u socket tag :
  tag ∈ uo_protocol_info u -> exists r, upgrade_outbound write read u socket tag = Done r.
Proof.
  unfold uo_protocol_info. intros ([ver spec] & -> & He)%list_elem_of_fmap. apply elem_of_ver_entries in He.
  unfold upgrade_outbound. unfold tag_new, tag_protocol_ver. cbn in He |- *. rewrite He. outcome_cbn.
  destruct (out_handshake spec); by eexists.
Qed.

(** A combined upgrade hands a listed name to the upgrade that lists it. *)
Lemma any_upgrade_dispatch {U I O E} (protocol_info : U -> list I) (upgrade : U -> I -> outcome (O + E)) us info ix :
  (info, ix) ∈ any_protocol_info protocol_info us <-> exists u, us !! ix = Some u /\ info ∈ protocol_info u.
Proof.
  unfold any_protocol_info. rewrite list_elem_of_join. split.
  - intros (l & Hin & Hl). apply list_elem_of_lookup in Hl as [i Hi]. rewrite list_lookup_imap in Hi.
    apply fmap_Some in Hi as (u & Hu & ->). apply list_elem_of_fmap in Hin as (y & [= <- ->] & Hy). by exists u.
  - intros (u & Hu & Hin). exists ((fun i => (i, ix)) <$> protocol_info u). split; [exact (list_elem_of_fmap_2 (fun i => (i, ix)) _ _ Hin)|].
    apply list_elem_of_lookup. exists ix. by rewrite list_lookup_imap, Hu.
Qed.

(** ** Properties of the sink *)

(** [interleave zs xs ys]: [zs] merges [xs] and [ys] and keeps their orders. *)
Inductive interleave {A} : list A -> list A -> list A -> Prop :=
| interleave_nil : interleave [] [] []
| interleave_l zs xs ys x : interleave zs xs ys -> interleave (zs ++ [x]) (xs ++ [x]) ys
| interleave_r zs xs ys y : interleave zs xs ys -> interleave (zs ++ [y]) xs (ys ++ [y]).

(** A channel in use: what its two senders put in and what the receiver took
    out.  [debug]: were debug assertions enabled. *)
Inductive channel_run (debug : bool) (na ns : nat) :
    Channel -> list StreamNotification -> list StreamNotification -> list StreamNotification -> Prop :=
| chan_new : channel_run debug na ns (channel_new na ns) [] [] []
| chan_send c c' xs ys zs m : channel_run debug na ns c xs ys zs -> send_message debug m c = (true, c') ->
    channel_run debug na ns c' xs (ys ++ [NMessage m]) zs
| chan_full c c' xs ys zs m : channel_run debug na ns c xs ys zs -> send_message debug m c = (false, c') ->
    channel_run debug na ns c' xs (ys ++ (if debug && sync_sender c && receiver_alive c then [ForceClose] else [])) zs
| chan_async c c' xs ys zs m : channel_run debug na ns c xs ys zs -> send_async m c = Some (true, c') ->
    channel_run debug na ns c' (xs ++ [NMessage m]) ys zs
| chan_peek c c' xs ys zs r : channel_run debug na ns c xs ys zs -> poll_peek c = (r, c') ->
    channel_run debug na ns c' xs ys zs
| chan_next c c' xs ys zs r : channel_run debug na ns c xs ys zs -> channel_next c = (r, c') ->
    channel_run debug na ns c' xs ys (zs ++ option_list r)
| chan_drop c xs ys zs : channel_run debug na ns c xs ys zs ->
    channel_run debug na ns (c <| receiver_alive := false |>) xs ys zs.

Lemma select_next_spec c r c' :
  select_next c = (r, c') ->
  peeked c' = peeked c /\ sync_sender c' = sync_sender c /\ sync_buffer c' = sync_buffer c /\
  match r with
  | None => async_queue c' = async_queue c /\ sync_queue c' = sync_queue c
  | Some x => async_queue c = x :: async_queue c' /\ sync_queue c = sync_queue c' \/
              sync_queue c = x :: sync_queue c' /\ async_queue c = async_queue c'
  end.
Proof.
  unfold select_next. destruct (async_turn c), (async_queue c) as [|a q] eqn:Ea, (sync_queue c) as [|b q'] eqn:Eb;
    intros [= <- <-]; cbn; naive_solver.
Qed.

(** What holds of a channel in use. *)
Record channel_inv (debug : bool) (ns : nat) (c : Channel) (xs ys zs : list StreamNotification) : Prop := {
  ci_taken : exists xs' ys', interleave (zs ++ option_list (peeked c)) xs' ys' /\
               xs' ++ async_queue c = xs /\ ys' ++ sync_queue c = ys;
  ci_buffer : sync_buffer c = ns;
  ci_bound : length (sync_queue c) <= ns + (if sync_sender c then 1 else 2);
  ci_force : ForceClose ∉ ys \/
    debug = true /\ sync_sender c = false /\ exists ys', ys = ys' ++ [ForceClose] /\ ForceClose ∉ ys';
}.

Lemma send_message_inv debug ns m c ok c' xs ys zs :
  channel_inv debug ns c xs ys zs -> send_message debug m c = (ok, c') ->
  channel_inv debug ns c' xs
    (ys ++ if ok then [NMessage m] else if debug && sync_sender c && receiver_alive c then [ForceClose] else []) zs.
Proof.
  intros [(xs' & ys' & Hi & Hx & Hy) Hbf Hbd Hf] Hs. unfold send_message in Hs.
  destruct (sync_sender c) eqn:Ess; [|injection Hs as <- <-; rewrite andb_false_r, app_nil_r; split; eauto; by rewrite Ess].
  destruct Hf as [Hf|(_ & [=] & _)]. rewrite andb_true_r.
  destruct (receiver_alive c); cbn [andb] in *; [destruct (Nat.leb_spec (length (sync_queue c)) (sync_buffer c))|].
  - injection Hs as <- <-. split; cbn; try done.
    + exists xs', ys'. by rewrite app_assoc, Hy.
    + rewrite Ess, length_app. cbn. lia.
    + left. rewrite elem_of_app, list_elem_of_singleton. naive_solver.
  - rewrite andb_true_r in *. destruct debug; injection Hs as <- <-; (split; cbn; [|done|..]);
      rewrite ?app_nil_r, ?length_app; cbn; try lia.
    + exists xs', ys'. by rewrite app_assoc, Hy.
    + right. eauto.
    + by exists xs', ys'.
    + by left.
  - rewrite andb_false_r in *. injection Hs as <- <-. rewrite app_nil_r. split; cbn; [by exists xs', ys'|done|lia|by left].
Qed.

Lemma select_next_inv debug ns c r c' xs ys zs :
  channel_inv debug ns c xs ys zs -> peeked c = None -> select_next c = (r, c') ->
  channel_inv debug ns c' xs ys (zs ++ option_list r).
Proof.
  intros [(xs' & ys' & Hi & Hx & Hy) Hbf Hbd Hf] Hpk (Hp & Hss & Hsb & Hq)%select_next_spec.
  rewrite Hpk in Hi, Hp. cbn in Hi. rewrite app_nil_r in Hi.
  destruct r as [x|]; [destruct Hq as [[Ha Hb]|[Ha Hb]]|destruct Hq as [Ha Hb]]; split; rewrite ?Hss, ?Hsb; try done;
    rewrite ?Hp; cbn [option_list]; rewrite ?app_nil_r.
  - exists (xs' ++ [x]), ys'. split; [by constructor|]. rewrite <- app_assoc. cbn [app]. by rewrite <- Ha, <- Hb.
  - by rewrite <- Hb.
  - exists xs', (ys' ++ [x]). split; [by constructor|]. rewrite <- app_assoc. cbn [app]. by rewrite <- Ha, <- Hb.
  - rewrite Ha in Hbd. cbn in Hbd. lia.
  - exists xs', ys'. by rewrite Ha, Hb.
  - by rewrite Hb.
Qed.

Lemma channel_run_inv debug na ns c xs ys zs : channel_run debug na ns c xs ys zs -> channel_inv debug ns c xs ys zs.
Proof.
  induction 1 as [|c c' xs ys zs m _ IH Hs|c c' xs ys zs m _ IH Hs|c c' xs ys zs m _ IH Hs
    |c c' xs ys zs r _ IH Hs|c c' xs ys zs r _ IH Hs|c xs ys zs _ IH].
  - split; cbn; [|done|lia|by left; apply not_elem_of_nil]. exists [], []. split; [constructor|done].
  - exact (send_message_inv _ _ _ _ _ _ _ _ _ IH Hs).
  - exact (send_message_inv _ _ _ _ _ _ _ _ _ IH Hs).
  - unfold send_async in Hs. destruct (receiver_alive c); [|done]. destruct (_ <=? _); simplify_eq.
    destruct IH as [(xs' & ys' & Hi & Hx & Hy) Hbf Hbd Hf]. split; cbn; try done.
    exists xs', ys'. by rewrite app_assoc, Hx.
  - unfold poll_peek in Hs. destruct (peeked c) as [x|] eqn:E; [by simplify_eq|].
    destruct (select_next c) as [x c1] eqn:Es. injection Hs as <- <-.
    pose proof (select_next_spec _ _ _ Es) as (Hp & _).
    destruct (select_next_inv _ _ _ _ _ _ _ _ IH E Es) as [(xs' & ys' & Hi & Hx & Hy) Hbf Hbd Hf].
    split; cbn; try done. exists xs', ys'. by rewrite Hp, E, app_nil_r in Hi.
  - unfold channel_next in Hs. destruct (peeked c) as [x|] eqn:E; [|by eapply select_next_inv].
    injection Hs as <- <-. destruct IH as [(xs' & ys' & Hi & Hx & Hy) Hbf Hbd Hf]. split; cbn; try done.
    exists xs', ys'. rewrite E in Hi. by rewrite app_nil_r.
  - destruct IH as [Ht Hbf Hbd Hf]. by split.
Qed.

(** A sink delivers what it accepts.  What the receiver took, with what it
    peeked at, merges a beginning of what each sender put in, the rest waits in
    the queues; the queue of [send_message] never holds more than its buffer,
    one slot for the sender and one for the directive to close; and that
    directive is queued at most once, last, and in builds with debug
    assertions only. *)
Theorem sink_delivers debug na ns c xs ys zs :
  channel_run debug na ns c xs ys zs ->
  (exists xs' ys', interleave (zs ++ option_list (peeked c)) xs' ys' /\
     xs' ++ async_queue c = xs /\ ys' ++ sync_queue c = ys) /\
  length (sync_queue c) <= ns + 2 /\
  (ForceClose ∈ ys -> debug = true /\ exists ys', ys = ys' ++ [ForceClose] /\ ForceClose ∉ ys').
Proof.
  intros [Ht Hbf Hbd Hf]%channel_run_inv. split; [done|]. split; [destruct (sync_sender c); lia|].
  intros Hin. destruct Hf as [?|(? & _ & ?)]; done.
Qed.

(** ** A substream that is approved and read *)

Module SubstreamSample.
Definition spec : StatefulProtocolSpec := {| max_message_size := 100; approve_required := true |}.
Definition listen : ProtocolUpgradeIn := upgrade_in_new 0 [(1%Z, spec)].
Definition sock : Socket := {|
  sk_ready := [IoOk]; sk_start := []; sk_flush := [IoPending; IoOk]; sk_close := []; sk_next := [RMsg [7%Z]];
  sk_max_len := 0; sk_log := [];
|}.
Definition read (_ : Z) : option (list Z) := Some [9%Z].

Lemma approve_precedes_messages_witness : exists up s,
  upgrade_inbound read listen sock (tag_new 0 1) = Done (Some up) /\ sub_run (iu_substream up) s [[7%Z]] /\
  sk_log (in_socket s) `prefix_of` greeted [[7%Z]] ++ [Ended].
Proof.
  destruct (upgrade_inbound read listen sock (tag_new 0 1)) as [[up|]| |] eqn:E; vm_compute in E; try discriminate E.
  injection E as <-. eexists _, _. split; [vm_compute; reflexivity|].
  assert (sub_run (iu_substream {| iu_negotiated_tag := tag_new 0 1; iu_handshake := Some [9%Z];
      iu_substream := {| in_socket := sock <| sk_max_len := 100%Z |>; approve_state := Some NotSent |} |})
    {| in_socket := {| sk_ready := []; sk_start := []; sk_flush := []; sk_close := []; sk_next := []; sk_max_len := 100;
         sk_log := [Wrote [1%Z]; Flushed; Read [7%Z]] |}; approve_state := Some Sent |} ([] ++ [[7%Z]])) as Hrun.
  { eapply sub_message; [eapply sub_pending; [apply sub_approve, sub_start|vm_compute; reflexivity]|vm_compute; reflexivity]. }
  split; [exact Hrun|].
  eapply (approve_precedes_messages read listen sock (tag_new 0 1)); [vm_compute; reflexivity|done|done|exact Hrun].
Defined.

(** A buffer of no messages: the sender has one slot; the second message closes. *)
Lemma sink_delivers_witness : exists c, channel_run true 0 0 c [] [NMessage [1%Z]; ForceClose] [NMessage [1%Z]] /\
  length (sync_queue c) <= 2.
Proof.
  pose proof (chan_send true 0 0 _ _ _ _ _ [1%Z] (chan_new true 0 0) eq_refl) as H1.
  pose proof (chan_full true 0 0 _ _ _ _ _ [2%Z] H1 eq_refl) as H2.
  pose proof (chan_next true 0 0 _ _ _ _ _ _ H2 eq_refl) as H3.
  eexists. split; [exact H3|]. exact (proj1 (proj2 (sink_delivers true 0 0 _ _ _ _ H3))).
Defined.
End SubstreamSample.
