(* ===== verification/ConnHandler.v ===== *)
(** * The connection handler

    Model of [spectrum-network/src/peer_conn_handler.rs]: the state machine of
    each protocol on a connection, the commands of the network controller, the
    events of the swarm and the poll that moves messages between the sinks,
    the substreams and the controller.

    The receiving ends of the channels live in the states of the protocols and
    are shared with the sinks given out; the handler keeps the channels under
    identifiers, and a sink is such an identifier.  Replacing the state that
    owns a receiver drops it.  Protocols are visited in the order of the map,
    which stands for the arbitrary order of a [HashMap]. *)

From S2P Require Import Prelude PeerManager Substream.

(** ** States, commands and events *)

Inductive ProtocolState :=
| PClosed
| POpening
| PPartiallyOpenedByPeer (substream_in : ProtocolSubstreamIn)
| PAccepting (substream_in : option ProtocolSubstreamIn)
| PPartiallyOpened (substream_out : ProtocolSubstreamOut)
| POpened (substream_in : ProtocolSubstreamIn) (substream_out : ProtocolSubstreamOut) (channel : nat)
| PInboundClosedByPeer (substream_out : ProtocolSubstreamOut) (channel : nat)
| POutboundClosedByPeer (substream_in : ProtocolSubstreamIn).

Record StatefulProtocol := {
  sp_ver : Z;
  sp_spec : StatefulProtocolSpec;
  sp_state : option ProtocolState;
  sp_all_versions_specs : list (Z * StatefulProtocolSpec);
}.

Record OneShotProtocol := { osp_ver : Z; osp_spec : OneShotProtocolSpec }.

Record PeerConnHandlerConf := {
  async_msg_buffer_size : nat;
  sync_msg_buffer_size : nat;
  open_timeout : Z;
  initial_keep_alive : Z;
}.

Inductive ConnHandlerIn :=
| HOpen (protocol_id : Z) (handshake : gmap Z (option (list Z)))
| HClose (protocol_id : Z)
| HCloseAllProtocols
| HTryDeliverOnce (msg : OneShotMessage).

(** A [MessageSink] is the identifier of its channel. *)
Inductive ConnHandlerOut :=
| HOpened (protocol_tag : ProtocolTag) (out_channel : nat) (handshake : option (list Z))
| HRefusedToOpen (protocol_id : Z)
| HClosed (protocol_id : Z)
| HClosedAllProtocols
| HOpenedByPeer (protocol_tag : ProtocolTag) (handshake : option (list Z))
| HClosedByPeer (protocol_id : Z)
| HMessage (protocol_tag : ProtocolTag) (content : list Z)
| HOneShotMessage (protocol_tag : ProtocolTag) (content : list Z).

(** [ConnectionHandlerEvent] *)
Inductive HandlerEvent :=
| OutboundSubstreamRequest (upgrade : ProtocolUpgradeOut + OneShotUpgradeOut) (info : ProtocolTag) (timeout : Z)
| NotifyBehaviour (event : ConnHandlerOut)
| CloseConnectionWith (err : ConnHandlerError).

Inductive OneShotRequest := OsPending (msg : OneShotMessage) | Confirming.

Inductive ThrottleStage := TStart | TInProgress | TFinish | TDisable.

#[export] Instance ThrottleStage_eq_dec : EqDecision ThrottleStage.
Proof. solve_decision. Defined.

Inductive KeepAlive := KYes | KUntil (t : Z).

(** [ConnectionEvent]; the variants that are ignored are one. *)
Inductive ConnectionEvent :=
| FullyNegotiatedInboundOneShot (message : OneShotMessage)
| FullyNegotiatedInbound (upgrade : InboundProtocolUpgraded)
| FullyNegotiatedOutboundOneShot (rid : Z)
| FullyNegotiatedOutbound (upgrade : OutboundProtocolUpgraded) (info : ProtocolTag)
| DialUpgradeError (info : ProtocolTag)
| OtherConnectionEvent.

Definition MIN_TERM_DELAY : Z := 50.

Section ConnHandler.
Context {PeerId : Type}.

Record PeerConnHandler := {
  h_conf : PeerConnHandlerConf;
  stateful_protocols : gmap Z StatefulProtocol;
  one_shot_protocols : gmap Z OneShotProtocol;
  created_at : Z;
  h_peer_id : PeerId;
  pending_events : list HandlerEvent;
  fault : option ConnHandlerError;
  throttle_stage : ThrottleStage;
  delay : list bool;
  pending_one_shots : gmap Z OneShotRequest;
  terminate_asap : bool;
  channels : gmap nat Channel;
  next_channel : nat;
}.

(** ** Helpers *)

Definition push_event (e : HandlerEvent) (h : PeerConnHandler) : PeerConnHandler :=
  h <| pending_events ::= fun q => q ++ [e] |>.

Definition receiver_of (st : option ProtocolState) : option nat :=
  match st with
  | Some (POpened _ _ c) | Some (PInboundClosedByPeer _ c) => Some c
  | _ => None
  end.

(** Assignment of a protocol state; a receiver that is not kept is dropped. *)
Definition set_state (pid : Z) (sp : StatefulProtocol) (st : ProtocolState) (h : PeerConnHandler) : PeerConnHandler :=
  let h := h <| stateful_protocols ::= <[pid := sp <| sp_state := Some st |>]> |> in
  match receiver_of (sp_state sp) with
  | Some c => if decide (receiver_of (Some st) = Some c) then h
              else h <| channels ::= alter (fun ch => ch <| receiver_alive := false |>) c |>
  | None => h
  end.

(** [mpsc::channel] twice and [MessageSink::new]. *)
Definition open_channel (h : PeerConnHandler) : nat * PeerConnHandler :=
  let c := next_channel h in
  (c, h <| channels ::= <[c := channel_new (async_msg_buffer_size (h_conf h)) (sync_msg_buffer_size (h_conf h))]> |>
        <| next_channel := S c |>).

(** ** Listening *)

Definition listen_protocol (h : PeerConnHandler) : list (ProtocolUpgradeIn + OneShotUpgradeIn) :=
  ((fun '(pid, prot) => inl (upgrade_in_new pid (sp_all_versions_specs prot))) <$> map_to_list (stateful_protocols h)) ++
  ((fun '(pid, prot) => inr {| oi_protocol := tag_new pid (osp_ver prot);
                               oi_max_message_size := os_max_message_size (osp_spec prot) |})
     <$> map_to_list (one_shot_protocols h)).

(** ** Commands of the controller *)

(** The handshakes of all versions, paired with the specs of the versions. *)
Definition versions_with_handshakes (specs : list (Z * StatefulProtocolSpec)) (handshake : gmap Z (option (list Z)))
    : list (Z * StatefulProtocolSpec * option (list Z)) :=
  (fun '((ver, spec), (_, hs)) => (ver, spec, hs)) <$> zip specs (ver_entries handshake).

Definition request_substream (pid : Z) (sp : StatefulProtocol)
    (versions : list (Z * StatefulProtocolSpec * option (list Z))) (h : PeerConnHandler) : PeerConnHandler :=
  push_event (OutboundSubstreamRequest (inl (upgrade_out_new pid versions)) (tag_new pid (sp_ver sp))
                (open_timeout (h_conf h))) h.

Definition open_protocol (pid : Z) (handshake : gmap Z (option (list Z))) (h : PeerConnHandler) : PeerConnHandler :=
  match stateful_protocols h !! pid with
  | Some sp =>
    match sp_state sp with
    | Some PClosed =>
      let h := request_substream pid sp (versions_with_handshakes (sp_all_versions_specs sp) handshake) h in
      set_state pid sp POpening h
    | Some (PPartiallyOpenedByPeer substream_in) =>
      let ver_handshake := handshake_for handshake (sp_ver sp) in
      let substream_in := match ver_handshake with Some _ => send_approve substream_in | None => substream_in end in
      let h := request_substream pid sp [(sp_ver sp, sp_spec sp, ver_handshake)] h in
      set_state pid sp (PAccepting (Some substream_in)) h
    | _ => h
    end
  | None => h
  end.

Definition close_protocol (pid : Z) (h : PeerConnHandler) : PeerConnHandler :=
  match stateful_protocols h !! pid with
  | Some sp => push_event (NotifyBehaviour (HClosed pid)) (set_state pid sp PClosed h)
  | None => h
  end.

Definition close_all (h : PeerConnHandler) : PeerConnHandler :=
  let h := foldl (fun h '(pid, sp) => set_state pid sp PClosed h) h (map_to_list (stateful_protocols h)) in
  push_event (NotifyBehaviour HClosedAllProtocols) h.

(** [rid]: the result of [OneShotRequestId::random]. *)
Definition on_behaviour_event (rid : Z) (event : ConnHandlerIn) (h : PeerConnHandler) : PeerConnHandler :=
  match event with
  | HTryDeliverOnce msg => h <| pending_one_shots ::= <[rid := OsPending msg]> |>
  | HOpen pid handshake => open_protocol pid handshake h
  | HClose pid => close_protocol pid h
  | HCloseAllProtocols => close_all h
  end.

(** ** Events of the connection *)

Definition on_inbound (upgrade : InboundProtocolUpgraded) (h : PeerConnHandler) : PeerConnHandler :=
  let tag := iu_negotiated_tag upgrade in
  let pid := tag_protocol_id tag in
  match stateful_protocols h !! pid with
  | Some sp =>
    match sp_state sp with
    | Some PClosed =>
      let h := push_event (NotifyBehaviour (HOpenedByPeer tag (iu_handshake upgrade))) h in
      set_state pid sp (PPartiallyOpenedByPeer (iu_substream upgrade)) h
    | Some POpening => set_state pid sp (PPartiallyOpenedByPeer (iu_substream upgrade)) h
    | Some (PPartiallyOpened substream_out) | Some (PInboundClosedByPeer substream_out _) =>
      let substream := if approve_required (sp_spec sp) then send_approve (iu_substream upgrade)
                       else iu_substream upgrade in
      let '(c, h) := open_channel h in
      let h := push_event (NotifyBehaviour (HOpened tag c (iu_handshake upgrade))) h in
      set_state pid sp (POpened substream substream_out c) h
    | _ => h
    end
  | None => h
  end.

Definition on_outbound (upgrade : OutboundProtocolUpgraded) (negotiated_tag : ProtocolTag) (h : PeerConnHandler)
    : PeerConnHandler :=
  let pid := tag_protocol_id negotiated_tag in
  match stateful_protocols h !! pid with
  | Some sp =>
    match sp_state sp with
    | Some POpening => set_state pid sp (PPartiallyOpened (ou_substream upgrade)) h
    | Some (PAccepting (Some substream_in)) =>
      let '(c, h) := open_channel h in
      let h := push_event (NotifyBehaviour (HOpened negotiated_tag c None)) h in
      set_state pid sp (POpened substream_in (ou_substream upgrade) c) h
    | _ => h
    end
  | None => h
  end.

Definition on_dial_upgrade_error (tag : ProtocolTag) (h : PeerConnHandler) : PeerConnHandler :=
  let pid := tag_protocol_id tag in
  match stateful_protocols h !! pid with
  | Some sp =>
    let h := match sp_state sp with
             | Some POpening | Some (PAccepting _) => push_event (NotifyBehaviour (HRefusedToOpen pid)) h
             | _ => h
             end in
    set_state pid sp PClosed h
  | None => h
  end.

Definition on_connection_event (event : ConnectionEvent) (h : PeerConnHandler) : PeerConnHandler :=
  match event with
  | FullyNegotiatedInboundOneShot message =>
    push_event (NotifyBehaviour (HOneShotMessage (os_protocol message) (os_content message))) h
  | FullyNegotiatedInbound upgrade => on_inbound upgrade h
  | FullyNegotiatedOutboundOneShot rid => h <| pending_one_shots ::= delete rid |>
  | FullyNegotiatedOutbound upgrade info => on_outbound upgrade info h
  | DialUpgradeError info => on_dial_upgrade_error info h
  | OtherConnectionEvent => h
  end.

(** ** Keeping the connection alive *)

Definition is_closed (sp : StatefulProtocol) : bool :=
  match sp_state sp with Some PClosed => true | _ => false end.

Definition connection_keep_alive (now : Z) (h : PeerConnHandler) : KeepAlive :=
  if existsb (fun '(_, p) => negb (is_closed p)) (map_to_list (stateful_protocols h))
     || negb (bool_decide (pending_one_shots h = ∅))
  then KYes
  else if terminate_asap h then KUntil (now + MIN_TERM_DELAY)
  else KUntil (created_at h + initial_keep_alive (h_conf h)).

(** ** Polling *)

(** What a [for] loop of the poll does after a protocol: go on, return
    [Pending], or return an event. *)
Inductive LoopNext := Continue_ | ReturnPending | ReturnReady (e : HandlerEvent).

(** The inner [loop]: where it left, with the throttle, its delay, the
    substream and the channel. *)
Inductive SendExit := ExitBreak | ExitForceClose | ExitPending.

Fixpoint send_loop (fuel : nat) (th : ThrottleStage) (dl : list bool) (out : ProtocolSubstreamOut) (ch : Channel)
    : outcome (SendExit * ThrottleStage * list bool * ProtocolSubstreamOut * Channel) :=
  match fuel with
  | 0 => NoFuel
  | S fuel =>
    let th := if decide (th = TFinish) then TStart else th in
    let '(x, ch) := poll_peek ch in
    match x with
    | Some ForceClose => Done (ExitForceClose, th, dl, out, ch)
    | None => Done (ExitBreak, th, dl, out, ch)
    | Some (NMessage _) =>
      let th := if decide (th = TStart) then TInProgress else th in
      let '(elapsed, dl) := if decide (th = TInProgress) then script false dl else (true, dl) in
      if (elapsed : bool) then
        let th := if decide (th = TInProgress) then TFinish else th in
        let '(r, out) := out_poll_ready out in
        match r with
        | IoPending => Done (ExitBreak, th, dl, out, ch)
        | _ =>
          let '(y, ch) := channel_next ch in
          match y with
          | Some (NMessage m) => let '(_, out) := out_start_send m out in send_loop fuel th dl out ch
          | _ => Done (ExitBreak, th, dl, out, ch)
          end
        end
      else Done (ExitPending, th, dl, out, ch)
    end
  end.

(** Each turn but the last takes a notification out of the channel. *)
Definition send_fuel (ch : Channel) : nat :=
  S (length (async_queue ch) + length (sync_queue ch) + length (option_list (peeked ch))).

Definition with_out (st : ProtocolState) (out : ProtocolSubstreamOut) : ProtocolState :=
  match st with
  | POpened substream_in _ c => POpened substream_in out c
  | PInboundClosedByPeer _ c => PInboundClosedByPeer out c
  | st => st
  end.

(** The body of the loop for a protocol with an outbound substream. *)
Definition send_open (h : PeerConnHandler) (pid : Z) (sp : StatefulProtocol) (st : ProtocolState)
    (out : ProtocolSubstreamOut) (c : nat) : outcome (PeerConnHandler * LoopNext) :=
  ch ← unwrap (channels h !! c);
  '(exit, th, dl, out, ch) ← send_loop (send_fuel ch) (throttle_stage h) (delay h) out ch;
  let h := set_state pid sp (with_out st out) h in
  let h := h <| throttle_stage := th |> <| delay := dl |> <| channels ::= <[c := ch]> |> in
  match exit with
  | ExitBreak => Done (h, Continue_)
  | ExitForceClose =>
    Done (h <| fault := Some SyncChannelExhausted |>, ReturnReady (CloseConnectionWith SyncChannelExhausted))
  | ExitPending => Done (h, ReturnPending)
  end.

Definition send_protocol (h : PeerConnHandler) (pid : Z) : outcome (PeerConnHandler * LoopNext) :=
  match stateful_protocols h !! pid with
  | Some sp =>
    match sp_state sp with
    | Some ((POpened _ out c | PInboundClosedByPeer out c) as st) => send_open h pid sp st out c
    | _ => Done (h, Continue_)
    end
  | None => Done (h, Continue_)
  end.

Definition flush_protocol (h : PeerConnHandler) (pid : Z) : outcome (PeerConnHandler * LoopNext) :=
  match stateful_protocols h !! pid with
  | Some sp =>
    match sp_state sp with
    | Some ((POpened _ out _ | PInboundClosedByPeer out _) as st) =>
      let '(r, out) := out_poll_flush out in
      match r with
      | IoErr =>
        let st := match st with
                  | POpened substream_in _ _ => POutboundClosedByPeer substream_in
                  | _ => PClosed
                  end in
        Done (set_state pid sp st h, ReturnReady (NotifyBehaviour (HClosedByPeer pid)))
      | _ => Done (set_state pid sp (with_out st out) h, Continue_)
      end
    | _ => Done (h, Continue_)
    end
  | None => Done (h, Continue_)
  end.

Definition read_protocol (h : PeerConnHandler) (pid : Z) : outcome (PeerConnHandler * LoopNext) :=
  match stateful_protocols h !! pid with
  | Some sp =>
    match sp_state sp with
    | Some ((POpened substream_in _ _ | POutboundClosedByPeer substream_in) as st) =>
      '(r, substream_in) ← in_poll_next substream_in;
      let st' := match st with
                 | POpened _ out c => POpened substream_in out c
                 | _ => POutboundClosedByPeer substream_in
                 end in
      match r with
      | RPending => Done (set_state pid sp st' h, Continue_)
      | RMsg msg => Done (set_state pid sp st' h,
                          ReturnReady (NotifyBehaviour (HMessage (tag_new pid (sp_ver sp)) msg)))
      | REnd | RErr =>
        let st := match st with
                  | POpened _ out c => PInboundClosedByPeer out c
                  | _ => PClosed
                  end in
        Done (set_state pid sp st h, Continue_)
      end
    | Some (PPartiallyOpenedByPeer substream_in) =>
      '(failed, substream_in) ← poll_process_handshake substream_in;
      if (failed : bool)
      then Done (set_state pid sp PClosed h, ReturnReady (NotifyBehaviour (HClosedByPeer pid)))
      else Done (set_state pid sp (PPartiallyOpenedByPeer substream_in) h, Continue_)
    | Some (PAccepting (Some substream_in)) =>
      '(failed, substream_in) ← poll_process_handshake substream_in;
      Done (set_state pid sp (PAccepting (if (failed : bool) then None else Some substream_in)) h, Continue_)
    | _ => Done (h, Continue_)
    end
  | None => Done (h, Continue_)
  end.

(** A [for] loop over the protocols. *)
Fixpoint for_protocols (body : PeerConnHandler -> Z -> outcome (PeerConnHandler * LoopNext)) (pids : list Z)
    (h : PeerConnHandler) : outcome (PeerConnHandler * LoopNext) :=
  match pids with
  | [] => Done (h, Continue_)
  | pid :: rest =>
    '(h, next) ← body h pid;
    match next with Continue_ => for_protocols body rest h | _ => Done (h, next) end
  end.

Definition protocol_ids (h : PeerConnHandler) : list Z := fst <$> map_to_list (stateful_protocols h).

(** The loop over the pending one-shot requests. *)
Definition fire_one_shots (h : PeerConnHandler) : PeerConnHandler :=
  foldl (fun h '(id, req) =>
    let h := match req with
             | OsPending message =>
               push_event (OutboundSubstreamRequest
                 (inr {| oo_protocol := os_protocol message; oo_id := id; oo_message := os_content message |})
                 (os_protocol message) (open_timeout (h_conf h))) h
             | Confirming => h
             end in
    h <| pending_one_shots ::= <[id := Confirming]> |>) h (map_to_list (pending_one_shots h)).

Definition handler_poll (h : PeerConnHandler) : outcome (PeerConnHandler * option HandlerEvent) :=
  let h := fire_one_shots h in
  match pending_events h with
  | out :: rest => Done (h <| pending_events := rest |>, Some out)
  | [] =>
    '(h, next) ← for_protocols send_protocol (protocol_ids h) h;
    match next with
    | ReturnPending => Done (h, None)
    | ReturnReady e => Done (h, Some e)
    | Continue_ =>
      '(h, next) ← for_protocols flush_protocol (protocol_ids h) h;
      match next with
      | ReturnReady e => Done (h, Some e)
      | _ =>
        '(h, next) ← for_protocols read_protocol (protocol_ids h) h;
        match next with
        | ReturnReady e => Done (h, Some e)
        | _ => Done (h, None)
        end
      end
    end
  end.
End ConnHandler.
