(* ===== verification/ConnSafety.v ===== *)
(** * Properties of the connection handler

    The invariant of the handler: the state of a protocol is never missing
    between calls, and each open protocol owns a live channel of its own; so
    its polls return.  Then what the handler promises to the network
    controller, the delivery of messages, and the negotiation of a protocol
    between two handlers. *)

From S2P Require Import Prelude PeerManager Substream ConnHandler.

(** ** Delivery *)

Definition writes (out : ProtocolSubstreamOut) : list (list Z) :=
  omap (fun e => match e with Wrote m => Some m | _ => None end) (sk_log (out_socket out)).

Lemma out_poll_ready_writes out r out' : out_poll_ready out = (r, out') -> writes out' = writes out.
Proof.
  unfold out_poll_ready, sock_ready. destruct (script IoPending _) as [x l]. by intros [= <- <-].
Qed.

Lemma out_start_send_writes m out ok out' :
  out_start_send m out = (ok, out') -> writes out' = writes out ++ (if ok then [m] else []).
Proof.
  unfold out_start_send, sock_start_send, writes. destruct (script true _) as [[] l]; intros [= <- <-]; cbn.
  - by rewrite omap_app.
  - by rewrite app_nil_r.
Qed.

Lemma out_poll_flush_writes out r out' : out_poll_flush out = (r, out') -> writes out' = writes out.
Proof.
  unfold out_poll_flush, sock_flush, writes. destruct (script IoPending _) as [[] l]; intros [= <- <-]; cbn; try done.
  by rewrite omap_app, app_nil_r.
Qed.

Definition channel_size (c : Channel) : nat :=
  length (async_queue c) + length (sync_queue c) + length (option_list (peeked c)).

Lemma poll_peek_size c x c' : poll_peek c = (x, c') -> channel_size c' = channel_size c /\ peeked c' = x.
Proof.
  unfold poll_peek, channel_size. destruct (peeked c) as [y|] eqn:E; [by intros [= <- <-]; rewrite E|].
  destruct (select_next c) as [y c1] eqn:Es. intros [= <- <-].
  apply select_next_spec in Es as (Hp & _ & _ & Hq). rewrite E in Hp. cbn. split; [|done].
  destruct y; [destruct Hq as [[-> ->]|[-> ->]]|destruct Hq as [-> ->]]; cbn; lia.
Qed.

Lemma channel_next_peeked c x : peeked c = Some x ->
  exists c', channel_next c = (Some x, c') /\ S (channel_size c') = channel_size c.
Proof.
  intros E. unfold channel_next, channel_size. rewrite E. eexists. split; [done|]. cbn. lia.
Qed.

Lemma channel_size_nil c : channel_size c = 0 -> async_queue c = [] /\ sync_queue c = [] /\ peeked c = None.
Proof. unfold channel_size. destruct (async_queue c), (sync_queue c), (peeked c); cbn; naive_solver lia. Qed.

Lemma poll_peek_none c c' : poll_peek c = (None, c') -> channel_size c' = 0.
Proof.
  unfold poll_peek, select_next, channel_size. destruct (peeked c) eqn:E; [done|].
  destruct (async_turn c), (async_queue c) eqn:Ea, (sync_queue c) eqn:Eb; intros [= <-]; cbn; by rewrite Ea, Eb.
Qed.

(** How a sending loop ends: with nothing left to send, when a socket or the
    throttle is not ready, or before the directive to close. *)
Definition send_ended (exit : SendExit) (ch : Channel) : Prop :=
  match exit with
  | ExitForceClose => peeked ch = Some ForceClose
  | ExitPending => exists m, peeked ch = Some (NMessage m)
  | ExitBreak => channel_size ch = 0 \/ exists m, peeked ch = Some (NMessage m)
  end.

(** A sending loop returns; it takes messages out of the channel in order and
    writes them, except those the socket refuses, in order. *)
Definition sends (debug : bool) (na ns : nat) (xs ys zs : list StreamNotification) (out : ProtocolSubstreamOut)
    (o : outcome (SendExit * ThrottleStage * list bool * ProtocolSubstreamOut * Channel)) : Prop :=
  exists exit th dl out' ch ms, o = Done (exit, th, dl, out', ch) /\
    channel_run debug na ns ch xs ys (zs ++ (NMessage <$> ms)) /\
    (exists ms', writes out' = writes out ++ ms' /\ ms' `sublist_of` ms) /\ send_ended exit ch.

Section Sends.
Context (debug : bool) (na ns : nat) (xs ys : list StreamNotification).

Lemma sends_stop zs out exit th dl out' ch :
  channel_run debug na ns ch xs ys zs -> send_ended exit ch -> writes out' = writes out ->
  sends debug na ns xs ys zs out (Done (exit, th, dl, out', ch)).
Proof.
  intros Hrun He Hw. exists exit, th, dl, out', ch, []. cbn. rewrite app_nil_r.
  split; [done|]. split; [done|]. split; [|done]. exists []. by rewrite Hw, app_nil_r.
Qed.

Lemma sends_message zs out (ok : bool) m out1 o :
  writes out1 = writes out ++ (if ok then [m] else []) ->
  sends debug na ns xs ys (zs ++ [NMessage m]) out1 o -> sends debug na ns xs ys zs out o.
Proof.
  intros Hw (exit & th & dl & out' & ch & ms & E & Hrun & (ms' & Hw' & Hsub) & He).
  exists exit, th, dl, out', ch, (m :: ms). split; [done|]. split; [by rewrite <- app_assoc in Hrun|].
  split; [|done]. exists ((if ok then [m] else []) ++ ms'). split; [by rewrite Hw', Hw, app_assoc|].
  destruct ok; cbn; by constructor.
Qed.

Lemma send_loop_spec fuel th dl out ch zs :
  channel_size ch < fuel -> channel_run debug na ns ch xs ys zs ->
  sends debug na ns xs ys zs out (send_loop fuel th dl out ch).
Proof.
  revert th dl out ch zs. induction fuel as [|fuel IH]; intros th dl out ch zs Hf Hrun; [lia|].
  cbn [send_loop]. destruct (poll_peek ch) as [x ch1] eqn:Hpk.
  pose proof (poll_peek_size _ _ _ Hpk) as [Hsz Hpk1].
  pose proof (chan_peek _ _ _ _ _ _ _ _ _ Hrun Hpk) as Hrun1.
  destruct x as [[m|]|]; cbv beta iota zeta;
    [|by apply sends_stop|apply sends_stop; [done|left; by eapply poll_peek_none|done]].
  set (th1 := if decide (_ = TStart) then _ else _). destruct (if decide (th1 = _) then _ else _) as [el dl1].
  destruct el; [|apply sends_stop; [done|by eexists|done]].
  destruct (out_poll_ready out) as [r out1] eqn:Hr. pose proof (out_poll_ready_writes _ _ _ Hr) as Hw1.
  destruct (channel_next_peeked ch1 (NMessage m) Hpk1) as (ch2 & Hn & Hsz2).
  pose proof (chan_next _ _ _ _ _ _ _ _ _ Hrun1 Hn) as Hrun2.
  destruct (out_start_send m out1) as [ok out2] eqn:Hss. pose proof (out_start_send_writes _ _ _ _ Hss) as Hw2.
  rewrite Hw1 in Hw2. rewrite Hn, Hss.
  destruct r; [apply sends_stop; [done|right; by eexists|done]|..];
    (eapply sends_message; [exact Hw2|]; apply IH; [lia|exact Hrun2]).
Qed.
End Sends.

Lemma select_next_alive c r c' : select_next c = (r, c') -> receiver_alive c' = receiver_alive c.
Proof.
  unfold select_next. destruct (async_turn c), (async_queue c), (sync_queue c); by intros [= <- <-].
Qed.

Lemma poll_peek_alive c r c' : poll_peek c = (r, c') -> receiver_alive c' = receiver_alive c.
Proof.
  unfold poll_peek. destruct (peeked c); [by intros [= <- <-]|].
  destruct (select_next c) eqn:E. intros [= <- <-]. exact (select_next_alive _ _ _ E).
Qed.

Lemma channel_next_alive c r c' : channel_next c = (r, c') -> receiver_alive c' = receiver_alive c.
Proof. unfold channel_next. destruct (peeked c); [by intros [= <- <-]|]. apply select_next_alive. Qed.

Lemma send_loop_alive fuel th dl out ch exit th' dl' out' ch' :
  send_loop fuel th dl out ch = Done (exit, th', dl', out', ch') -> receiver_alive ch' = receiver_alive ch.
Proof.
  revert th dl out ch. induction fuel as [|fuel IH]; intros th dl out ch; [done|].
  cbn [send_loop]. destruct (poll_peek ch) as [x ch1] eqn:Hpk. apply poll_peek_alive in Hpk.
  destruct x as [[m|]|]; cbv beta iota zeta; [|by intros [= <- <- <- <- <-]..].
  set (th1 := if decide (_ = TStart) then _ else _). destruct (if decide (th1 = _) then _ else _) as [el dl1].
  destruct el; [|by intros [= <- <- <- <- <-]]. destruct (out_poll_ready out) as [r out1].
  destruct (channel_next ch1) as [y ch2] eqn:Hn. apply channel_next_alive in Hn.
  destruct r; [by intros [= <- <- <- <- <-]|..]; (destruct y as [[m'|]|];
    [|intros [= <- <- <- <- <-]; congruence..]);
    destruct (out_start_send m' out1) as [ok out2]; intros Hl; apply IH in Hl; congruence.
Qed.

(** ** The invariant *)

Section ConnSafety.
Context {PeerId : Type}.
Local Abbreviation Handler := (PeerConnHandler (PeerId := PeerId)).

(** The protocol owns the receiver of channel [c]. *)
Definition owns (h : Handler) (pid : Z) (c : nat) : Prop :=
  exists sp, stateful_protocols h !! pid = Some sp /\ receiver_of (sp_state sp) = Some c.

Definition in_use (debug : bool) (h : Handler) (ch : Channel) : Prop :=
  exists xs ys zs, channel_run debug (async_msg_buffer_size (h_conf h)) (sync_msg_buffer_size (h_conf h)) ch xs ys zs.

Record handler_ok (debug : bool) (h : Handler) : Prop := {
  ho_state : forall pid sp, stateful_protocols h !! pid = Some sp -> is_Some (sp_state sp);
  ho_channel : forall c ch, channels h !! c = Some ch -> c < next_channel h /\ in_use debug h ch;
  ho_owner : forall pid c, owns h pid c -> exists ch, channels h !! c = Some ch /\ receiver_alive ch = true;
  ho_unique : forall pid pid' c, owns h pid c -> owns h pid' c -> pid = pid';
}.

(** Only the protocols and the channels matter. *)
Lemma handler_ok_same debug (h h' : Handler) :
  stateful_protocols h' = stateful_protocols h -> channels h' = channels h -> next_channel h' = next_channel h ->
  h_conf h' = h_conf h -> handler_ok debug h -> handler_ok debug h'.
Proof.
  intros Hp Hc Hn Hcf [H1 H2 H3 H4]. split; unfold owns, in_use in *; rewrite ?Hp, ?Hc, ?Hn, ?Hcf; done.
Qed.

Section SetState.
Context (pid : Z) (sp : StatefulProtocol) (st : ProtocolState) (h : Handler).

Lemma set_state_protocols :
  stateful_protocols (set_state pid sp st h) = <[pid := sp <| sp_state := Some st |>]> (stateful_protocols h).
Proof. unfold set_state. destruct (receiver_of (sp_state sp)); [destruct (decide _)|]; done. Qed.

Lemma set_state_next : next_channel (set_state pid sp st h) = next_channel h /\ h_conf (set_state pid sp st h) = h_conf h
  /\ pending_events (set_state pid sp st h) = pending_events h.
Proof. unfold set_state. destruct (receiver_of (sp_state sp)); [destruct (decide _)|]; done. Qed.

Lemma set_state_channels :
  channels (set_state pid sp st h) =
    match receiver_of (sp_state sp) with
    | Some c => if decide (receiver_of (Some st) = Some c) then channels h
                else alter (fun ch => ch <| receiver_alive := false |>) c (channels h)
    | None => channels h
    end.
Proof. unfold set_state. destruct (receiver_of (sp_state sp)); [destruct (decide _)|]; done. Qed.

Lemma owns_set_state p c : owns (set_state pid sp st h) p c <->
  (if decide (p = pid) then receiver_of (Some st) = Some c else owns h p c).
Proof.
  unfold owns. rewrite set_state_protocols. destruct (decide (p = pid)) as [->|Hne].
  - rewrite lookup_insert_eq. naive_solver.
  - by rewrite lookup_insert_ne by done.
Qed.
End SetState.

Lemma set_state_ok debug pid sp st (h : Handler) :
  handler_ok debug h -> stateful_protocols h !! pid = Some sp ->
  (forall c, receiver_of (Some st) = Some c ->
     receiver_of (sp_state sp) = Some c \/
     (forall p, ~ owns h p c) /\ exists ch, channels h !! c = Some ch /\ receiver_alive ch = true) ->
  handler_ok debug (set_state pid sp st h).
Proof.
  intros [H1 H2 H3 H4] Hsp Hrec. destruct (set_state_next pid sp st h) as (Hn & Hcf & _). split.
  - intros p sp'. rewrite set_state_protocols, lookup_insert_Some. intros [[<- <-]|[_ Hp]]; [by eexists|by eapply H1].
  - intros c ch Hc. rewrite Hn. unfold in_use. rewrite Hcf. rewrite set_state_channels in Hc.
    destruct (receiver_of (sp_state sp)) as [c0|]; [|by apply H2]. destruct (decide _); [by apply H2|].
    apply lookup_alter_Some in Hc as [(<- & ch0 & Hc & ->)|[_ Hc]]; [|by apply H2].
    destruct (H2 _ _ Hc) as [? (xs & ys & zs & Hr)]. split; [done|]. exists xs, ys, zs. by constructor.
  - intros p c Ho. apply owns_set_state in Ho. rewrite set_state_channels.
    assert (exists ch, channels h !! c = Some ch /\ receiver_alive ch = true) as (ch & Hc & Hal).
    { destruct (decide (p = pid)) as [->|]; [|by eapply H3]. destruct (Hrec _ Ho) as [Hr|[_ Hr]]; [|done].
      apply (H3 pid). by exists sp. }
    destruct (receiver_of (sp_state sp)) as [c0|] eqn:Er; [|by exists ch].
    destruct (decide (receiver_of (Some st) = Some c0)) as [|Hne]; [by exists ch|].
    exists ch. split; [|done]. rewrite lookup_alter_ne; [done|]. intros ->.
    destruct (decide (p = pid)) as [->|Hpne]; [by destruct Hne|].
    destruct Hpne. eapply H4; [exact Ho|]. by exists sp.
  - intros p p' c Ho Ho'. apply owns_set_state in Ho, Ho'.
    assert (Hx : forall q, q <> pid -> owns h q c -> receiver_of (Some st) = Some c -> False).
    { intros q Hq Hoq Hs. destruct (Hrec _ Hs) as [Hr|[Hr _]]; [|by eapply Hr].
      destruct Hq. eapply H4; [exact Hoq|]. by exists sp. }
    destruct (decide (p = pid)) as [->|], (decide (p' = pid)) as [->|]; try done.
    + exfalso. by eapply Hx.
    + exfalso. by eapply (Hx p).
    + by eapply H4.
Qed.

(** A state without a receiver, or with the one it had. *)
Lemma set_state_keeps debug pid sp st (h : Handler) :
  handler_ok debug h -> stateful_protocols h !! pid = Some sp ->
  receiver_of (Some st) = None \/ receiver_of (Some st) = receiver_of (sp_state sp) ->
  handler_ok debug (set_state pid sp st h).
Proof. intros Hh Hsp Hr. apply set_state_ok; [done..|]. intros c Hc. left. destruct Hr; congruence. Qed.

Lemma open_channel_ok debug (h : Handler) c h1 :
  handler_ok debug h -> open_channel h = (c, h1) ->
  handler_ok debug h1 /\ stateful_protocols h1 = stateful_protocols h /\ (forall p, ~ owns h1 p c) /\
  exists ch, channels h1 !! c = Some ch /\ receiver_alive ch = true.
Proof.
  intros [H1 H2 H3 H4] [= <- <-]. split_and!; [split|done|..]; cbn; unfold const.
  - exact H1.
  - intros c ch. unfold in_use. cbn. unfold const. rewrite lookup_insert_Some. intros [[<- <-]|[_ Hc]].
    + split; [lia|]. exists [], [], []. constructor.
    + destruct (H2 _ _ Hc). split; [lia|done].
  - intros p c (ch & Hc & Hal)%H3. exists ch. split; [|done]. rewrite lookup_insert_ne; [done|].
    apply H2 in Hc as [? _]. lia.
  - exact H4.
  - intros p (ch & Hc & _)%H3. apply H2 in Hc as [? _]. lia.
  - eexists. by rewrite lookup_insert_eq.
Qed.

(** *** What the handler promises to the controller *)

(** The states a protocol can be in without a command to open it. *)
Definition unasked (st : ProtocolState) : Prop :=
  match st with PClosed | PPartiallyOpenedByPeer _ => True | _ => False end.

(** The answers to commands to close. *)
Definition close_answer (e : HandlerEvent) : option (option Z) :=
  match e with
  | NotifyBehaviour (HClosed pid) => Some (Some pid)
  | NotifyBehaviour HClosedAllProtocols => Some None
  | _ => None
  end.

(** The invariant, of the protocols the controller asked to open, the events
    returned so far and the answers due to commands to close. *)
Record handler_inv (debug : bool) (known : gset Z) (asked : Z -> Prop) (outs : list HandlerEvent)
    (answers : list (option Z)) (h : Handler) : Prop := {
  hi_ok : handler_ok debug h;
  hi_known : dom (stateful_protocols h) = known;
  hi_asked : forall pid sp st, stateful_protocols h !! pid = Some sp -> sp_state sp = Some st -> unasked st \/ asked pid;
  hi_opened : forall tag c hs, NotifyBehaviour (HOpened tag c hs) ∈ outs ++ pending_events h -> asked (tag_protocol_id tag);
  hi_answers : omap close_answer (outs ++ pending_events h) = answers;
}.

Section Preserved.
Context (debug : bool) (known : gset Z) (asked : Z -> Prop) (outs : list HandlerEvent).

Lemma inv_same answers (h h' : Handler) :
  stateful_protocols h' = stateful_protocols h -> channels h' = channels h -> next_channel h' = next_channel h ->
  h_conf h' = h_conf h -> pending_events h' = pending_events h ->
  handler_inv debug known asked outs answers h -> handler_inv debug known asked outs answers h'.
Proof.
  intros Hp Hc Hn Hcf He [H1 H2 H3 H4 H5]. split; rewrite ?Hp, ?He; try done. by eapply handler_ok_same.
Qed.

Lemma push_event_inv answers e (h : Handler) :
  handler_inv debug known asked outs answers h ->
  (forall tag c hs, e = NotifyBehaviour (HOpened tag c hs) -> asked (tag_protocol_id tag)) ->
  handler_inv debug known asked outs (answers ++ option_list (close_answer e)) (push_event e h).
Proof.
  intros [H1 H2 H3 H4 H5] He. split; cbn; try done.
  - by apply (handler_ok_same _ h).
  - intros tag c hs. rewrite app_assoc, elem_of_app, list_elem_of_singleton. intros [?|<-]; [by eapply H4|by eapply He].
  - rewrite app_assoc, omap_app, H5. cbn. by destruct (close_answer e).
Qed.

Lemma set_state_inv answers pid sp st (h : Handler) :
  handler_inv debug known asked outs answers h -> stateful_protocols h !! pid = Some sp ->
  (forall c, receiver_of (Some st) = Some c ->
     receiver_of (sp_state sp) = Some c \/
     (forall p, ~ owns h p c) /\ exists ch, channels h !! c = Some ch /\ receiver_alive ch = true) ->
  unasked st \/ asked pid ->
  handler_inv debug known asked outs answers (set_state pid sp st h).
Proof.
  intros [H1 H2 H3 H4 H5] Hsp Hr Ha. destruct (set_state_next pid sp st h) as (_ & _ & He). split; rewrite ?He; try done.
  - by apply set_state_ok.
  - rewrite set_state_protocols, dom_insert_L, H2. apply elem_of_dom_2 in Hsp. set_solver.
  - intros p sp' st'. rewrite set_state_protocols, lookup_insert_Some. intros [[<- <-]|[_ Hp]]; [|by apply H3].
    cbn. by intros [= <-].
Qed.

(** The state of the protocol keeps its receiver, or gives it up. *)
Lemma set_state_inv_keep answers pid sp st (h : Handler) :
  handler_inv debug known asked outs answers h -> stateful_protocols h !! pid = Some sp ->
  receiver_of (Some st) = None \/ receiver_of (Some st) = receiver_of (sp_state sp) ->
  unasked st \/ (exists st0, sp_state sp = Some st0 /\ ~ unasked st0) \/ asked pid ->
  handler_inv debug known asked outs answers (set_state pid sp st h).
Proof.
  intros Hi Hsp Hr Ha. apply set_state_inv; [done..| |].
  - intros c Hc. left. destruct Hr; congruence.
  - destruct Ha as [?|[(st0 & Hst & Hn)|?]]; [by left| |by right]. right.
    by destruct (hi_asked _ _ _ _ _ _ Hi _ _ _ Hsp Hst).
Qed.

(** Opening: a fresh channel, the event, and the new state. *)
Lemma set_opened_inv answers pid sp tag hs sin sout c (h h1 : Handler) :
  handler_inv debug known asked outs answers h -> stateful_protocols h !! pid = Some sp ->
  open_channel h = (c, h1) -> asked pid -> tag_protocol_id tag = pid ->
  handler_inv debug known asked outs answers
    (set_state pid sp (POpened sin sout c) (push_event (NotifyBehaviour (HOpened tag c hs)) h1)).
Proof.
  intros Hi Hsp Ho Ha Ht. pose proof (open_channel_ok _ _ _ _ (hi_ok _ _ _ _ _ _ Hi) Ho) as (Hok & Hp & Hno & Hch).
  assert (handler_inv debug known asked outs answers h1) as Hi1.
  { injection Ho as <- <-. destruct Hi as [H1 H2 H3 H4 H5]. by split. }
  apply (push_event_inv _ (NotifyBehaviour (HOpened tag c hs))) in Hi1; [|intros ??? [= <- <- <-]; by rewrite Ht].
  cbn in Hi1. rewrite app_nil_r in Hi1. apply set_state_inv; [done|cbn; by rewrite Hp| |by right].
  intros c' [= <-]. by right.
Qed.

(** A channel that is replaced by a later state of it. *)
Lemma channel_update_inv answers c ch ch' (h : Handler) :
  handler_inv debug known asked outs answers h -> channels h !! c = Some ch ->
  in_use debug h ch' -> receiver_alive ch' = receiver_alive ch ->
  handler_inv debug known asked outs answers (h <| channels ::= <[c := ch']> |>).
Proof.
  intros [[O1 O2 O3 O4] H2 H3 H4 H5] Hc Hu Hal. split; [split|..]; cbn; try done.
  - intros c' ch0. rewrite lookup_insert_Some. intros [[<- <-]|[_ Hc']]; [|by apply O2].
    split; [by eapply O2|done].
  - intros p c' (ch0 & Hc0 & Hal0)%O3. destruct (decide (c = c')) as [<-|].
    + exists ch'. rewrite lookup_insert_eq. split; [done|]. congruence.
    + exists ch0. by rewrite lookup_insert_ne.
Qed.

Lemma sink_inv answers c (f : Channel -> Channel) (h : Handler) :
  handler_inv debug known asked outs answers h ->
  (forall ch, in_use debug h ch -> in_use debug h (f ch) /\ receiver_alive (f ch) = receiver_alive ch) ->
  handler_inv debug known asked outs answers (h <| channels ::= alter f c |>).
Proof.
  intros Hi Hf. destruct (channels h !! c) as [ch|] eqn:Hc.
  - destruct (Hf ch) as [Hu Hal]; [by eapply (ho_channel _ _ (hi_ok _ _ _ _ _ _ Hi))|].
    eapply inv_same; [| | | | |exact (channel_update_inv _ _ _ _ _ Hi Hc Hu Hal)]; try done.
    cbn. apply map_eq. intros c'. destruct (decide (c = c')) as [<-|].
    + by rewrite lookup_alter_eq, lookup_insert_eq, Hc.
    + by rewrite lookup_alter_ne, lookup_insert_ne.
  - eapply inv_same; [| | | | |exact Hi]; try done. cbn. apply map_eq. intros c'.
    destruct (decide (c = c')) as [<-|]; [by rewrite lookup_alter_eq, Hc|by rewrite lookup_alter_ne].
Qed.

(** Commands. *)

Lemma request_substream_inv answers pid sp versions (h : Handler) :
  handler_inv debug known asked outs answers h ->
  handler_inv debug known asked outs answers (request_substream pid sp versions h).
Proof.
  intros Hi. rewrite <- (app_nil_r answers).
  by apply (push_event_inv _ (OutboundSubstreamRequest _ _ _)); [|intros ??? [=]].
Qed.

Lemma open_protocol_inv answers pid hs (h : Handler) :
  handler_inv debug known asked outs answers h -> asked pid ->
  handler_inv debug known asked outs answers (open_protocol pid hs h).
Proof.
  intros Hi Ha. unfold open_protocol. destruct (stateful_protocols h !! pid) as [sp|] eqn:Hsp; [|done].
  destruct (sp_state sp) as [[]|]; try done; apply set_state_inv_keep; auto using request_substream_inv.
Qed.

Lemma close_protocol_inv answers pid (h : Handler) :
  handler_inv debug known asked outs answers h ->
  handler_inv debug known asked outs (answers ++ if decide (pid ∈ known) then [Some pid] else []) (close_protocol pid h).
Proof.
  intros Hi. unfold close_protocol. pose proof (hi_known _ _ _ _ _ _ Hi) as Hk.
  destruct (stateful_protocols h !! pid) as [sp|] eqn:Hsp.
  - rewrite decide_True by (rewrite <- Hk; by eapply elem_of_dom_2).
    apply (push_event_inv _ (NotifyBehaviour (HClosed pid))); [|intros ??? [=]].
    apply set_state_inv_keep; auto. left. exact I.
  - rewrite decide_False by (rewrite <- Hk; by apply not_elem_of_dom). by rewrite app_nil_r.
Qed.

Lemma close_each_inv answers l (h : Handler) :
  handler_inv debug known asked outs answers h -> NoDup (l.*1) ->
  (forall pid sp, (pid, sp) ∈ l -> stateful_protocols h !! pid = Some sp) ->
  handler_inv debug known asked outs answers (foldl (fun h '(pid, sp) => set_state pid sp PClosed h) h l).
Proof.
  revert h. induction l as [|[pid sp] l IH]; intros h Hi Hnd Hl; [done|]. cbn in *.
  apply NoDup_cons in Hnd as [Hni Hnd]. apply IH; [|done|].
  - apply set_state_inv_keep; [done|apply Hl; left|by left|by left].
  - intros p sp' Hin. rewrite set_state_protocols, lookup_insert_ne; [apply Hl; by right|].
    intros ->. apply Hni. apply list_elem_of_fmap. by exists (p, sp').
Qed.

Lemma close_all_inv answers (h : Handler) :
  handler_inv debug known asked outs answers h ->
  handler_inv debug known asked outs (answers ++ [None]) (close_all h).
Proof.
  intros Hi. apply (push_event_inv _ (NotifyBehaviour HClosedAllProtocols)); [|intros ??? [=]].
  apply close_each_inv; [done|apply NoDup_fst_map_to_list|]. intros pid sp. apply elem_of_map_to_list.
Qed.

(** Events of the connection. *)

Lemma on_inbound_inv answers upgrade (h : Handler) :
  handler_inv debug known asked outs answers h ->
  handler_inv debug known asked outs answers (on_inbound upgrade h).
Proof.
  intros Hi. unfold on_inbound. destruct (stateful_protocols h !! _) as [sp|] eqn:Hsp; [|done].
  destruct (sp_state sp) as [st|] eqn:Hst; [|done]. pose proof (hi_asked _ _ _ _ _ _ Hi _ _ _ Hsp Hst) as Ha.
  destruct st; try done; try (apply set_state_inv_keep; [|done|by left|by left]).
  - rewrite <- (app_nil_r answers).
    by apply (push_event_inv _ (NotifyBehaviour (HOpenedByPeer _ _))); [|intros ??? [=]].
  - done.
  - destruct (open_channel h) as [c h1] eqn:Ho. destruct Ha as [[]|Ha]. by eapply set_opened_inv.
  - destruct (open_channel h) as [c h1] eqn:Ho. destruct Ha as [[]|Ha]. by eapply set_opened_inv.
Qed.

Lemma on_outbound_inv answers upgrade tag (h : Handler) :
  handler_inv debug known asked outs answers h ->
  handler_inv debug known asked outs answers (on_outbound upgrade tag h).
Proof.
  intros Hi. unfold on_outbound. destruct (stateful_protocols h !! _) as [sp|] eqn:Hsp; [|done].
  destruct (sp_state sp) as [st|] eqn:Hst; [|done]. pose proof (hi_asked _ _ _ _ _ _ Hi _ _ _ Hsp Hst) as Ha.
  destruct st as [| | |[sin|]| | | |]; try done.
  - apply set_state_inv_keep; [done|done|by left|]. right. left. exists POpening. split; [done|by intros []].
  - destruct (open_channel h) as [c h1] eqn:Ho. destruct Ha as [[]|Ha]. by eapply set_opened_inv.
Qed.

Lemma on_dial_upgrade_error_inv answers tag (h : Handler) :
  handler_inv debug known asked outs answers h ->
  handler_inv debug known asked outs answers (on_dial_upgrade_error tag h).
Proof.
  intros Hi. unfold on_dial_upgrade_error. destruct (stateful_protocols h !! _) as [sp|] eqn:Hsp; [|done].
  assert (handler_inv debug known asked outs answers
    (push_event (NotifyBehaviour (HRefusedToOpen (tag_protocol_id tag))) h)) as Hi1.
  { rewrite <- (app_nil_r answers).
    by apply (push_event_inv _ (NotifyBehaviour (HRefusedToOpen _))); [|intros ??? [=]]. }
  apply set_state_inv_keep; [|destruct (sp_state sp) as [[]|]; done|by left|by left].
  destruct (sp_state sp) as [[]|]; done.
Qed.

(** Polling. *)

(** The events the poll returns without queueing them. *)
Definition plain (e : HandlerEvent) : Prop :=
  match e with
  | NotifyBehaviour (HMessage _ _) | NotifyBehaviour (HClosedByPeer _) | CloseConnectionWith _ => True
  | _ => False
  end.

Definition body_ok answers (r : outcome (Handler * LoopNext)) : Prop :=
  exists h next, r = Done (h, next) /\ handler_inv debug known asked outs answers h /\
    match next with ReturnReady e => plain e | _ => True end.

Lemma body_ok_done answers (h : Handler) next :
  handler_inv debug known asked outs answers h -> match next with ReturnReady e => plain e | _ => True end ->
  body_ok answers (Done (h, next)).
Proof. intros Hi Hn. by exists h, next. Qed.

Lemma send_open_inv answers (h : Handler) pid sp st out c :
  handler_inv debug known asked outs answers h -> stateful_protocols h !! pid = Some sp ->
  sp_state sp = Some st -> receiver_of (Some st) = Some c -> body_ok answers (send_open h pid sp st out c).
Proof.
  intros Hi Hsp Hst Hc. unfold send_open.
  destruct (ho_owner _ _ (hi_ok _ _ _ _ _ _ Hi) pid c) as (ch & Hch & Hal); [exists sp; by rewrite Hst|].
  destruct (ho_channel _ _ (hi_ok _ _ _ _ _ _ Hi) _ _ Hch) as [_ (xs & ys & zs & Hrun)]. rewrite Hch. outcome_cbn.
  destruct (send_loop_spec _ _ _ _ _ (send_fuel ch) (throttle_stage h) (delay h) out ch zs (Nat.lt_succ_diag_r _) Hrun)
    as (exit & th & dl & out' & ch' & ms & E & Hrun' & _ & _).
  rewrite E. outcome_cbn. cbv zeta. apply send_loop_alive in E.
  assert (handler_inv debug known asked outs answers (set_state pid sp (with_out st out') h)) as Hi1.
  { apply set_state_inv_keep; [exact Hi|exact Hsp|right; rewrite Hst; by destruct st|].
    right. left. exists st. split; [done|]. destruct st; try discriminate Hc; by intros []. }
  assert (channels (set_state pid sp (with_out st out') h) = channels h) as Hch1.
  { rewrite set_state_channels, Hst, Hc. rewrite decide_True; [done|]. by destruct st. }
  pose proof (set_state_next pid sp (with_out st out') h) as (_ & Hcf & _).
  revert Hi1 Hch1 Hcf. generalize (set_state pid sp (with_out st out') h). intros h1 Hi1 Hch1 Hcf.
  assert (handler_inv debug known asked outs answers
    (h1 <| throttle_stage := th |> <| delay := dl |> <| channels ::= <[c := ch']> |>)) as Hi2.
  { eapply (channel_update_inv _ _ ch); [by eapply inv_same; [..|exact Hi1]|cbn; by rewrite Hch1| |done].
    exists xs, ys, (zs ++ (NMessage <$> ms)). cbn. by rewrite Hcf. }
  destruct exit; (apply body_ok_done; [|done]); [exact Hi2| |exact Hi2]. by eapply inv_same; [..|exact Hi2].
Qed.

(** The states a handler may give a protocol while it polls. *)
Lemma set_polled_inv answers (h : Handler) pid sp st st' next :
  handler_inv debug known asked outs answers h -> stateful_protocols h !! pid = Some sp -> sp_state sp = Some st ->
  receiver_of (Some st') = None \/ receiver_of (Some st') = receiver_of (Some st) ->
  unasked st' \/ ~ unasked st -> match next with ReturnReady e => plain e | _ => True end ->
  body_ok answers (Done (set_state pid sp st' h, next)).
Proof.
  intros Hi Hsp Hst Hr Hu Hn. apply body_ok_done; [|done]. apply set_state_inv_keep; [done..|by rewrite Hst|].
  destruct Hu; [by left|]. right. left. by exists st.
Qed.

Local Ltac polled Hi Hsp Hst := apply (set_polled_inv _ _ _ _ _ _ _ Hi Hsp Hst); cbn; tauto.

Lemma send_protocol_inv answers (h : Handler) pid :
  handler_inv debug known asked outs answers h -> body_ok answers (send_protocol h pid).
Proof.
  intros Hi. unfold send_protocol. destruct (stateful_protocols h !! pid) as [sp|] eqn:Hsp; [|by apply body_ok_done].
  destruct (sp_state sp) as [[]|] eqn:Hst; try (by apply body_ok_done); by apply send_open_inv.
Qed.

Lemma flush_protocol_inv answers (h : Handler) pid :
  handler_inv debug known asked outs answers h -> body_ok answers (flush_protocol h pid).
Proof.
  intros Hi. unfold flush_protocol. destruct (stateful_protocols h !! pid) as [sp|] eqn:Hsp; [|by apply body_ok_done].
  destruct (sp_state sp) as [[]|] eqn:Hst; try (by apply body_ok_done);
    destruct (out_poll_flush _) as [[] out']; polled Hi Hsp Hst.
Qed.

Lemma read_protocol_inv answers (h : Handler) pid :
  handler_inv debug known asked outs answers h -> body_ok answers (read_protocol h pid).
Proof.
  intros Hi. unfold read_protocol. destruct (stateful_protocols h !! pid) as [sp|] eqn:Hsp; [|by apply body_ok_done].
  destruct (sp_state sp) as [[| |sin|[sin|]| |sin sout c| |sin]|] eqn:Hst; try (by apply body_ok_done).
  - destruct (poll_process_handshake_returns sin) as ([] & sin' & ->); outcome_cbn; polled Hi Hsp Hst.
  - destruct (poll_process_handshake_returns sin) as ([] & sin' & ->); outcome_cbn; polled Hi Hsp Hst.
  - destruct (in_poll_next_returns sin) as ([] & sin' & ->); outcome_cbn; cbv zeta; polled Hi Hsp Hst.
  - destruct (in_poll_next_returns sin) as ([] & sin' & ->); outcome_cbn; cbv zeta; polled Hi Hsp Hst.
Qed.

Lemma for_protocols_inv answers body pids (h : Handler) :
  (forall h pid, handler_inv debug known asked outs answers h -> body_ok answers (body h pid)) ->
  handler_inv debug known asked outs answers h -> body_ok answers (for_protocols body pids h).
Proof.
  intros Hb. revert h. induction pids as [|pid pids IH]; intros h Hi; cbn; [by apply body_ok_done|].
  destruct (Hb h pid Hi) as (h1 & next & -> & Hi1 & Hn). outcome_cbn.
  destruct next; [by apply IH|by apply body_ok_done..].
Qed.

Lemma fire_one_shots_inv answers (h : Handler) :
  handler_inv debug known asked outs answers h -> handler_inv debug known asked outs answers (fire_one_shots h).
Proof.
  intros Hi. unfold fire_one_shots. generalize (map_to_list (pending_one_shots h)). intros l.
  revert h Hi. induction l as [|[id req] l IH]; intros h Hi; [done|]. cbn [foldl]. apply IH.
  destruct req as [msg|]; [|by eapply inv_same; [..|exact Hi]].
  eapply (push_event_inv _ (OutboundSubstreamRequest (inr {| oo_protocol := os_protocol msg; oo_id := id;
    oo_message := os_content msg |}) (os_protocol msg) (open_timeout (h_conf h)))) in Hi; [|by intros ??? [=]].
  cbn in Hi. rewrite app_nil_r in Hi. by eapply inv_same; [..|exact Hi].
Qed.

Lemma body_ok_return answers r :
  body_ok answers r ->
  exists h next, r = Done (h, next) /\ handler_inv debug known asked outs answers h /\
    handler_inv debug known asked (outs ++ match next with ReturnReady e => [e] | _ => [] end) answers h.
Proof.
  intros (h & next & -> & Hi & Hn). exists h, next. split; [done|]. split; [done|].
  destruct next as [| |e]; rewrite ?app_nil_r; try done. destruct Hi as [H1 H2 H3 H4 H5]. split; try done.
  - intros tag c hs. rewrite <- app_assoc, !elem_of_app, list_elem_of_singleton. intros [?|[<-|?]]; [|done|];
      (eapply H4; rewrite elem_of_app; eauto).
  - rewrite <- app_assoc, omap_app, omap_app. rewrite <- H5, omap_app. by destruct e as [|[]|].
Qed.

Lemma handler_poll_inv answers (h : Handler) :
  handler_inv debug known asked outs answers h ->
  exists h' o, handler_poll h = Done (h', o) /\ handler_inv debug known asked (outs ++ option_list o) answers h'.
Proof.
  intros Hi%fire_one_shots_inv. unfold handler_poll. generalize dependent (fire_one_shots h). clear h. intros h Hi.
  destruct (pending_events h) as [|e rest] eqn:He.
  - edestruct body_ok_return as (h1 & n1 & -> & Hi1 & Ho1);
      [exact (for_protocols_inv answers send_protocol (protocol_ids h) h (send_protocol_inv answers) Hi)|]. outcome_cbn.
    destruct n1; [|by eauto..].
    edestruct body_ok_return as (h2 & n2 & -> & Hi2 & Ho2);
      [exact (for_protocols_inv answers flush_protocol (protocol_ids h1) h1 (flush_protocol_inv answers) Hi1)|]. outcome_cbn.
    destruct n2; [| |by eauto];
    (edestruct body_ok_return as (h3 & n3 & -> & Hi3 & Ho3);
      [exact (for_protocols_inv answers read_protocol (protocol_ids h2) h2 (read_protocol_inv answers) Hi2)|]);
    outcome_cbn; destruct n3; by eauto.
  - eexists _, _. split; [done|]. destruct Hi as [H1 H2 H3 H4 H5]. rewrite He in H4, H5.
    split; cbn; try done; rewrite <- ?app_assoc; try done. by apply (handler_ok_same _ h).
Qed.
End Preserved.

(** *** Runs *)

Inductive HandlerInput :=
| HCommand (rid : Z) (cmd : ConnHandlerIn)
| HEvent (event : ConnectionEvent)
| HSend (c : nat) (m : list Z)
| HSendAsync (c : nat) (m : list Z).

Definition handler_input (debug : bool) (i : HandlerInput) (h : Handler) : Handler :=
  match i with
  | HCommand rid cmd => on_behaviour_event rid cmd h
  | HEvent event => on_connection_event event h
  | HSend c m => h <| channels ::= alter (fun ch => (send_message debug m ch).2) c |>
  | HSendAsync c m => h <| channels ::= alter (fun ch => from_option snd ch (send_async m ch)) c |>
  end.

Definition fresh_handler (h : Handler) : Prop :=
  (forall pid sp, stateful_protocols h !! pid = Some sp -> sp_state sp = Some PClosed) /\
  channels h = ∅ /\ pending_events h = [].

(** A connection handler in use, with the inputs it took and the events it
    returned. *)
Inductive handler_run (debug : bool) (h0 : Handler) : Handler -> list HandlerInput -> list HandlerEvent -> Prop :=
| hrun_start : fresh_handler h0 -> handler_run debug h0 h0 [] []
| hrun_input h ins outs i : handler_run debug h0 h ins outs ->
    handler_run debug h0 (handler_input debug i h) (ins ++ [i]) outs
| hrun_poll h ins outs h' o : handler_run debug h0 h ins outs -> handler_poll h = Done (h', o) ->
    handler_run debug h0 h' ins (outs ++ option_list o).

Definition asked_to_open (ins : list HandlerInput) (pid : Z) : Prop :=
  exists rid hs, HCommand rid (HOpen pid hs) ∈ ins.

Definition close_command (known : gset Z) (i : HandlerInput) : option (option Z) :=
  match i with
  | HCommand _ (HClose pid) => if decide (pid ∈ known) then Some (Some pid) else None
  | HCommand _ HCloseAllProtocols => Some None
  | _ => None
  end.

Lemma handler_inv_mono debug known (asked asked' : Z -> Prop) outs answers (h : Handler) :
  (forall pid, asked pid -> asked' pid) ->
  handler_inv debug known asked outs answers h -> handler_inv debug known asked' outs answers h.
Proof. intros Hm [H1 H2 H3 H4 H5]. split; try done; [|by eauto]. intros pid sp st Hsp Hst. destruct (H3 _ _ _ Hsp Hst); auto. Qed.

Lemma handler_input_inv debug known (asked : Z -> Prop) outs answers i (h : Handler) :
  handler_inv debug known asked outs answers h ->
  (forall rid pid hs, i = HCommand rid (HOpen pid hs) -> asked pid) ->
  handler_inv debug known asked outs (answers ++ option_list (close_command known i)) (handler_input debug i h).
Proof.
  intros Hi Ha. destruct i as [rid []|[]|c m|c m]; cbn; rewrite ?app_nil_r;
    auto using open_protocol_inv, close_all_inv, on_inbound_inv, on_outbound_inv, on_dial_upgrade_error_inv;
    try (by eapply inv_same; [..|exact Hi]).
  - apply open_protocol_inv; [done|]. by eapply Ha.
  - apply (close_protocol_inv _ _ _ _ _ protocol_id) in Hi. by destruct (decide _).
  - rewrite <- (app_nil_r answers). by apply (push_event_inv _ _ _ _ _ (NotifyBehaviour (HOneShotMessage _ _))); [|intros ??? [=]].
  - apply sink_inv; [done|]. intros ch (xs & ys & zs & Hrun). destruct (send_message debug m ch) as [[] ch'] eqn:E; cbn.
    + split; [exists xs, (ys ++ [NMessage m]), zs; by eapply chan_send|].
      unfold send_message in E. repeat (case_match; simplify_eq; try done).
    + split; [exists xs; eexists _, zs; by eapply chan_full|].
      unfold send_message in E. repeat (case_match; simplify_eq; try done).
  - apply sink_inv; [done|]. intros ch (xs & ys & zs & Hrun). destruct (send_async m ch) as [[[] ch']|] eqn:E; cbn.
    + split; [exists (xs ++ [NMessage m]), ys, zs; by eapply chan_async|].
      unfold send_async in E. repeat (case_match; simplify_eq; try done).
    + unfold send_async in E. repeat (case_match; simplify_eq; try done). split; [by exists xs, ys, zs|done].
    + split; [by exists xs, ys, zs|done].
Qed.

Lemma handler_run_inv debug h0 h ins outs :
  handler_run debug h0 h ins outs ->
  handler_inv debug (dom (stateful_protocols h0)) (asked_to_open ins) outs
    (omap (close_command (dom (stateful_protocols h0))) ins) h.
Proof.
  induction 1 as [(Hst & Hch & He)|h ins outs i _ IH|h ins outs h' o _ IH Hp].
  - split; [split|done|..].
    + intros pid sp Hsp. rewrite (Hst _ _ Hsp). by eexists.
    + intros c ch. by rewrite Hch.
    + intros pid c (sp & Hsp & Hr). by rewrite (Hst _ _ Hsp) in Hr.
    + intros pid pid' c (sp & Hsp & Hr). by rewrite (Hst _ _ Hsp) in Hr.
    + intros pid sp st Hsp Hs. rewrite (Hst _ _ Hsp) in Hs. injection Hs as <-. left. exact I.
    + intros tag c hs. rewrite He. by intros ?%elem_of_nil.
    + by rewrite He.
  - rewrite omap_app. replace (omap _ [i]) with (option_list (close_command (dom (stateful_protocols h0)) i))
      by (cbn; by destruct (close_command _ i)).
    apply handler_input_inv; [|intros rid pid hs ->; exists rid, hs; set_solver].
    eapply handler_inv_mono; [|exact IH]. intros pid (rid & hs & Hin). exists rid, hs. set_solver.
  - destruct (handler_poll_inv _ _ _ _ _ _ IH) as (h1 & o1 & Hp1 & Hi1). outcome_eq. done.
Qed.

(** C37: what a connection handler promises.  Whatever it is given and however
    it is polled: between calls no protocol is left without a state and each
    poll returns; a protocol is reported as opened only if the controller
    asked to open it; and the commands to close are answered, each once and in
    their order, by the events returned or queued. *)
Theorem handler_contract debug h0 h ins outs :
  handler_run debug h0 h ins outs ->
  (forall pid sp, stateful_protocols h !! pid = Some sp -> is_Some (sp_state sp)) /\
  (exists h' o, handler_poll h = Done (h', o)) /\
  (forall tag c hs, NotifyBehaviour (HOpened tag c hs) ∈ outs -> asked_to_open ins (tag_protocol_id tag)) /\
  omap close_answer (outs ++ pending_events h) = omap (close_command (dom (stateful_protocols h0))) ins.
Proof.
  intros Hi%handler_run_inv. split; [apply Hi|]. split; [|split; [|apply Hi]].
  - destruct (handler_poll_inv _ _ _ _ _ _ Hi) as (h' & o & Hp & _). eauto.
  - intros tag c hs Hin. eapply (hi_opened _ _ _ _ _ _ Hi). apply elem_of_app. by left.
Qed.

(** Each time an open protocol is polled, the sending loop returns; it
    takes messages from the channel of the sink in the order they were
    accepted, writes them to the substream in that order, except those the
    socket refuses, and stops only when nothing is left, when the socket or the
    throttle is not ready, or before a directive to close. *)
Theorem open_protocol_sends debug h0 h ins outs pid sp st c out :
  handler_run debug h0 h ins outs -> stateful_protocols h !! pid = Some sp -> sp_state sp = Some st ->
  receiver_of (Some st) = Some c ->
  exists ch xs ys zs, channels h !! c = Some ch /\
    channel_run debug (async_msg_buffer_size (h_conf h)) (sync_msg_buffer_size (h_conf h)) ch xs ys zs /\
    sends debug (async_msg_buffer_size (h_conf h)) (sync_msg_buffer_size (h_conf h)) xs ys zs out
      (send_loop (send_fuel ch) (throttle_stage h) (delay h) out ch).
Proof.
  intros [Hok _ _ _ _]%handler_run_inv Hsp Hst Hc.
  destruct (ho_owner _ _ Hok pid c) as (ch & Hch & _); [exists sp; by rewrite Hst|].
  destruct (ho_channel _ _ Hok _ _ Hch) as [_ (xs & ys & zs & Hrun)].
  exists ch, xs, ys, zs. split; [done|]. split; [done|]. apply send_loop_spec; [|done]. apply Nat.lt_succ_diag_r.
Qed.

(** *** Negotiation *)

(** A protocol with one version, in a given state. *)
Definition protocol_at (h : Handler) (pid v : Z) (spec : StatefulProtocolSpec) (st : ProtocolState) : Prop :=
  stateful_protocols h !! pid = Some {| sp_ver := v; sp_spec := spec; sp_state := Some st;
                                        sp_all_versions_specs := [(v, spec)] |}.

(** [h'] moved the protocol to [st] and queued [es]. *)
Definition moved (pid v : Z) (spec : StatefulProtocolSpec) (h : Handler) (st : ProtocolState)
    (es : list HandlerEvent) (h' : Handler) : Prop :=
  protocol_at h' pid v spec st /\ pending_events h' = pending_events h ++ es.

Lemma versions_single (v : Z) spec hs :
  versions_with_handshakes [(v, spec)] {[v := hs]} = [(v, spec, hs)].
Proof. unfold versions_with_handshakes, ver_entries. by rewrite map_to_list_singleton. Qed.

Lemma handshake_for_single (v : Z) hs : handshake_for {[v := Some hs]} v = Some hs.
Proof. unfold handshake_for. by rewrite lookup_singleton_eq. Qed.

Lemma upgrade_out_single pid v spec hs write read sock :
  upgrade_outbound write read (upgrade_out_new pid [(v, spec, Some hs)]) sock (tag_new pid v) =
    Done (if write hs && approved read
          then Some {| ou_negotiated_tag := tag_new pid v;
                       ou_substream := {| out_socket := sock <| sk_max_len := max_message_size spec |> |} |}
          else None).
Proof.
  unfold upgrade_outbound, upgrade_out_new, collect_map. cbn [uo_versions fmap list_fmap].
  change (reverse [?x]) with [x]. cbn [list_to_map foldr]. unfold tag_new, tag_protocol_ver. cbn [snd fst].
  by rewrite insert_empty, lookup_singleton_eq.
Qed.

Lemma upgrade_in_single pid v spec read sock hs :
  approve_required spec = true -> read (max_message_size spec) = Some hs ->
  upgrade_inbound read (upgrade_in_new pid [(v, spec)]) sock (tag_new pid v) =
    Done (Some {| iu_negotiated_tag := tag_new pid v; iu_handshake := Some hs;
                  iu_substream := {| in_socket := sock <| sk_max_len := max_message_size spec |>;
                                     approve_state := Some NotSent |} |}).
Proof.
  intros Ha Hr. unfold upgrade_inbound, upgrade_in_new, collect_map. cbn [ui_versions fmap list_fmap].
  change (reverse [?x]) with [x]. cbn [list_to_map foldr]. unfold tag_new, tag_protocol_ver. cbn [snd fst].
  rewrite insert_empty, lookup_singleton_eq. outcome_cbn. cbn. by rewrite Ha, Hr.
Qed.

Section Negotiation.
Context (pid v : Z) (spec : StatefulProtocolSpec) (h : Handler).

Lemma set_state_moved st st' es h1 :
  protocol_at h1 pid v spec st -> pending_events h1 = pending_events h ++ es ->
  moved pid v spec h st' es (set_state pid {| sp_ver := v; sp_spec := spec; sp_state := Some st;
    sp_all_versions_specs := [(v, spec)] |} st' h1).
Proof.
  intros Hp He. split; [unfold protocol_at; by rewrite set_state_protocols, lookup_insert_eq|].
  by destruct (set_state_next pid {| sp_ver := v; sp_spec := spec; sp_state := Some st;
    sp_all_versions_specs := [(v, spec)] |} st' h1) as (_ & _ & ->).
Qed.

Lemma open_closed hs : protocol_at h pid v spec PClosed ->
  moved pid v spec h POpening [OutboundSubstreamRequest (inl (upgrade_out_new pid [(v, spec, hs)])) (tag_new pid v)
    (open_timeout (h_conf h))] (open_protocol pid {[v := hs]} h).
Proof.
  intros Hp. unfold open_protocol. rewrite Hp. cbn [sp_state sp_all_versions_specs]. rewrite versions_single.
  by apply set_state_moved.
Qed.

Lemma open_by_peer sin hs : protocol_at h pid v spec (PPartiallyOpenedByPeer sin) ->
  moved pid v spec h (PAccepting (Some (send_approve sin)))
    [OutboundSubstreamRequest (inl (upgrade_out_new pid [(v, spec, Some hs)])) (tag_new pid v) (open_timeout (h_conf h))]
    (open_protocol pid {[v := Some hs]} h).
Proof.
  intros Hp. unfold open_protocol. rewrite Hp. cbn [sp_state sp_ver sp_spec]. cbv zeta. rewrite handshake_for_single.
  by apply set_state_moved.
Qed.

Lemma inbound_closed u : protocol_at h pid v spec PClosed -> iu_negotiated_tag u = tag_new pid v ->
  moved pid v spec h (PPartiallyOpenedByPeer (iu_substream u))
    [NotifyBehaviour (HOpenedByPeer (tag_new pid v) (iu_handshake u))] (on_inbound u h).
Proof.
  intros Hp Ht. unfold on_inbound. rewrite Ht. change (tag_protocol_id (tag_new pid v)) with pid. rewrite Hp.
  by apply set_state_moved.
Qed.

Lemma outbound_opening o : protocol_at h pid v spec POpening ->
  moved pid v spec h (PPartiallyOpened (ou_substream o)) [] (on_outbound o (tag_new pid v) h).
Proof.
  intros Hp. unfold on_outbound. change (tag_protocol_id (tag_new pid v)) with pid. rewrite Hp.
  apply set_state_moved; [done|]. by rewrite app_nil_r.
Qed.

Lemma inbound_partial u sout : protocol_at h pid v spec (PPartiallyOpened sout) -> approve_required spec = true ->
  iu_negotiated_tag u = tag_new pid v ->
  moved pid v spec h (POpened (send_approve (iu_substream u)) sout (next_channel h))
    [NotifyBehaviour (HOpened (tag_new pid v) (next_channel h) (iu_handshake u))] (on_inbound u h).
Proof.
  intros Hp Ha Ht. unfold on_inbound. rewrite Ht. change (tag_protocol_id (tag_new pid v)) with pid. rewrite Hp.
  cbn [sp_state sp_spec]. rewrite Ha. by apply set_state_moved.
Qed.

Lemma outbound_accepting o sin : protocol_at h pid v spec (PAccepting (Some sin)) ->
  moved pid v spec h (POpened sin (ou_substream o) (next_channel h))
    [NotifyBehaviour (HOpened (tag_new pid v) (next_channel h) None)] (on_outbound o (tag_new pid v) h).
Proof.
  intros Hp. unfold on_outbound. change (tag_protocol_id (tag_new pid v)) with pid. rewrite Hp.
  by apply set_state_moved.
Qed.
End Negotiation.

(** C35: a protocol with one version that requires an approval is opened
    between two handlers.  When the controller of [A] opens it, [A] requests a
    substream; the upgrade at [B] reads the handshake of [A] and [B] reports
    it; when the controller of [B] opens the protocol, [B] approves and
    requests a substream back; the upgrade at [A] ends with the approval; the
    inbound substream at [A] carries the handshake of [B] and is approved, and
    both report the protocol as opened. *)
Theorem negotiation_opens (A B : Handler) pid v spec ha hb kA kA' kB kB' :
  protocol_at A pid v spec PClosed -> protocol_at B pid v spec PClosed -> approve_required spec = true ->
  let tag := tag_new pid v in
  let listen := upgrade_in_new pid [(v, spec)] in
  let A1 := open_protocol pid {[v := Some ha]} A in
  exists upA iB, moved pid v spec A POpening [OutboundSubstreamRequest (inl upA) tag (open_timeout (h_conf A))] A1 /\
  upgrade_inbound (fun _ => Some ha) listen kB tag = Done (Some iB) /\
  let B1 := on_inbound iB B in
  moved pid v spec B (PPartiallyOpenedByPeer (iu_substream iB)) [NotifyBehaviour (HOpenedByPeer tag (Some ha))] B1 /\
  let B2 := open_protocol pid {[v := Some hb]} B1 in
  exists upB sB oA, moved pid v spec B1 (PAccepting (Some sB))
      [OutboundSubstreamRequest (inl upB) tag (open_timeout (h_conf B1))] B2 /\
  approve_state sB = Some (PendingSend approve_bytes) /\
  upgrade_outbound (fun m => bool_decide (m = ha)) (Some approve_bytes) upA kA tag = Done (Some oA) /\
  let A2 := on_outbound oA tag A1 in
  exists iA oB sA cA cB, upgrade_inbound (fun _ => Some hb) listen kA' tag = Done (Some iA) /\
  upgrade_outbound (fun m => bool_decide (m = hb)) (Some approve_bytes) upB kB' tag = Done (Some oB) /\
  approve_state sA = Some (PendingSend approve_bytes) /\
  moved pid v spec A2 (POpened sA (ou_substream oA) cA) [NotifyBehaviour (HOpened tag cA (Some hb))] (on_inbound iA A2) /\
  moved pid v spec B2 (POpened sB (ou_substream oB) cB) [NotifyBehaviour (HOpened tag cB None)] (on_outbound oB tag B2).
Proof.
  intros HA HB Ha. cbv zeta. pose proof (open_closed pid v spec A (Some ha) HA) as MA1.
  eexists _, _. split; [exact MA1|]. split; [by apply upgrade_in_single|].
  set (iB := {| iu_negotiated_tag := _ |}).
  pose proof (inbound_closed pid v spec B iB HB eq_refl) as MB1. split; [exact MB1|].
  pose proof (open_by_peer pid v spec (on_inbound iB B) (iu_substream iB) hb (proj1 MB1)) as MB2.
  eexists _, _, _. split; [exact MB2|]. split; [done|].
  split; [rewrite upgrade_out_single; cbn; by rewrite !bool_decide_true by done|]. set (oA := {| ou_negotiated_tag := _ |}).
  pose proof (outbound_opening pid v spec (open_protocol pid {[v := Some ha]} A) oA (proj1 MA1)) as MA2.
  set (A2 := on_outbound oA _ _) in *.
  eexists _, _, _, _, _. split; [by apply upgrade_in_single|].
  split; [rewrite upgrade_out_single; cbn; by rewrite !bool_decide_true by done|]. set (iA := {| iu_negotiated_tag := _ |}).
  set (oB := {| ou_negotiated_tag := _ |}).
  split; [|split; [exact (inbound_partial pid v spec A2 iA (ou_substream oA) (proj1 MA2) Ha eq_refl)
                  |exact (outbound_accepting pid v spec _ oB (send_approve (iu_substream iB)) (proj1 MB2))]].
  done.
Qed.

(** When the versions are listed from the newest, as the source demands, each
    is paired with its own handshake. *)
Lemma ver_entries_keys {A} (m : gmap Z A) l :
  StronglySorted Z.ge l -> NoDup l -> list_to_set l = dom m -> (ver_entries m).*1 = l.
Proof.
  intros Hs Hnd Hd. assert (AntiSymm (=) Z.ge) by (intros x y; lia). apply (StronglySorted_unique Z.ge); [|done|].
  - unfold ver_entries, sort_by_key.
    assert (StronglySorted (fun a b : Z * A => (b.1 <=? a.1)%Z = true) (sort_by (fun a b => (b.1 <=? a.1)%Z) (map_to_list m))) as Hsort.
    { apply sort_by_sorted; intros; lia. }
    induction Hsort as [|x r _ IH Hall]; cbn; constructor; [done|]. apply Forall_fmap. eapply Forall_impl; [exact Hall|].
    cbn. intros ? ?%Z.leb_le. lia.
  - apply NoDup_Permutation; [|done|].
    + unfold ver_entries, sort_by_key. rewrite sort_by_perm. apply NoDup_fst_map_to_list.
    + intros x. rewrite <- (elem_of_list_to_set (C := gset Z) x l), Hd, elem_of_dom, list_elem_of_fmap. split.
      * intros ([k a] & -> & He%elem_of_ver_entries). by eexists.
      * intros [a Ha]. exists (x, a). split; [done|]. by apply elem_of_ver_entries.
Qed.

Lemma versions_with_handshakes_aligned specs (handshake : gmap Z (option (list Z))) :
  StronglySorted Z.ge specs.*1 -> NoDup specs.*1 -> list_to_set specs.*1 = dom handshake ->
  Forall (fun '(ver, spec, hs) => handshake !! ver = Some hs) (versions_with_handshakes specs handshake) /\
  (versions_with_handshakes specs handshake).*1 = specs.
Proof.
  intros Hs Hnd Hd. pose proof (ver_entries_keys _ _ Hs Hnd Hd) as Hk.
  unfold versions_with_handshakes.
  assert (Forall (fun e => handshake !! e.1 = Some e.2) (ver_entries handshake)) as Hall.
  { apply Forall_forall. intros e. apply elem_of_ver_entries. }
  revert Hk Hall. generalize (ver_entries handshake). clear. induction specs as [|[v sp] specs IH]; intros l Hk Hall.
  - by destruct l.
  - destruct l as [|[v' hs] l]; [done|]. injection Hk as -> Hk. apply Forall_cons in Hall as [H1 H2].
    destruct (IH l Hk H2) as [Ha Hb]. cbn. split; [by constructor|]. by rewrite Hb.
Qed.

(** *** What goes wrong *)

(** When both peers open the protocol at the same time, the inbound substream
    takes the place of the request, and the negotiated outbound substream is
    dropped: the command to open is never answered. *)
Lemma simultaneous_open_lost (h : Handler) pid v spec u o :
  protocol_at h pid v spec POpening -> iu_negotiated_tag u = tag_new pid v ->
  moved pid v spec h (PPartiallyOpenedByPeer (iu_substream u)) [] (on_outbound o (tag_new pid v) (on_inbound u h)).
Proof.
  intros Hp Ht. assert (moved pid v spec h (PPartiallyOpenedByPeer (iu_substream u)) [] (on_inbound u h)) as [H1 H2].
  { unfold on_inbound. rewrite Ht. change (tag_protocol_id (tag_new pid v)) with pid. rewrite Hp.
    apply set_state_moved; [done|]. by rewrite app_nil_r. }
  unfold on_outbound. change (tag_protocol_id (tag_new pid v)) with pid. by rewrite H1.
Qed.

(** A one-shot message that cannot be delivered stays among the requests, so
    the connection is kept alive for ever. *)
Lemma failed_one_shot_keeps_alive (h : Handler) id req tag now :
  pending_one_shots h !! id = Some req -> connection_keep_alive now (on_connection_event (DialUpgradeError tag) h) = KYes.
Proof.
  intros Hr. assert (pending_one_shots (on_dial_upgrade_error tag h) !! id = Some req) as Hr'.
  { unfold on_dial_upgrade_error, set_state, push_event. repeat (case_match; try done). }
  cbn. unfold connection_keep_alive. rewrite bool_decide_false; [by rewrite orb_true_r|].
  intros E. by rewrite E, lookup_empty in Hr'.
Qed.

(** When the peer closes its substream and opens a new one, the sink that was
    given out is dead: messages are refused. *)
Lemma reopened_sink_is_dead debug (h : Handler) pid v spec sout c u ch m :
  protocol_at h pid v spec (PInboundClosedByPeer sout c) -> iu_negotiated_tag u = tag_new pid v ->
  channels h !! c = Some ch -> c <> next_channel h ->
  exists ch', channels (on_inbound u h) !! c = Some ch' /\ (send_message debug m ch').1 = false.
Proof.
  intros Hp Ht Hc Hne. unfold on_inbound. rewrite Ht. change (tag_protocol_id (tag_new pid v)) with pid. rewrite Hp.
  cbn [sp_state]. unfold open_channel. cbv zeta beta iota. rewrite set_state_channels. cbn [sp_state receiver_of].
  rewrite decide_False by congruence. cbn. rewrite lookup_alter_eq, lookup_insert_ne, Hc by done.
  eexists. split; [done|]. unfold send_message. cbn. unfold const. destruct (sync_sender ch); [|done]. by destruct debug.
Qed.
End ConnSafety.

(** ** A handler with one protocol *)

Module HandlerSample.
Definition spec : StatefulProtocolSpec := {| max_message_size := 100; approve_required := true |}.
Definition conf : PeerConnHandlerConf :=
  {| async_msg_buffer_size := 1; sync_msg_buffer_size := 1; open_timeout := 10; initial_keep_alive := 10 |}.
Definition proto : StatefulProtocol :=
  {| sp_ver := 1; sp_spec := spec; sp_state := Some PClosed; sp_all_versions_specs := [(1%Z, spec)] |}.
Abbreviation H := (PeerConnHandler (PeerId := nat)).
Definition h0 : H := {|
  h_conf := conf; stateful_protocols := {[0%Z := proto]}; one_shot_protocols := ∅; created_at := 0; h_peer_id := 5;
  pending_events := []; fault := None; throttle_stage := TDisable; delay := []; pending_one_shots := ∅;
  terminate_asap := false; channels := ∅; next_channel := 0;
|}.
Definition sock : Socket := {|
  sk_ready := [IoOk]; sk_start := []; sk_flush := []; sk_close := []; sk_next := []; sk_max_len := 0; sk_log := [];
|}.
Definition tag : ProtocolTag := tag_new 0 1.
Definition up_out : OutboundProtocolUpgraded := {| ou_negotiated_tag := tag; ou_substream := {| out_socket := sock |} |}.
Definition up_in : InboundProtocolUpgraded :=
  {| iu_negotiated_tag := tag; iu_handshake := Some [9%Z];
     iu_substream := {| in_socket := sock; approve_state := Some NotSent |} |}.

Lemma h0_fresh : fresh_handler h0.
Proof. split; [|done]. intros pid sp. cbn. intros [<- <-]%lookup_singleton_Some. done. Qed.

(** The protocol is opened by this side, and one message is queued. *)
Definition opening : list HandlerInput :=
  [HCommand 0 (HOpen 0 {[1%Z := Some [8%Z]]}); HEvent (FullyNegotiatedOutbound up_out tag);
   HEvent (FullyNegotiatedInbound up_in); HSend 0 [1%Z]].
Definition opened : H := foldl (fun h i => handler_input true i h) h0 opening.

Lemma opened_run : handler_run true h0 opened opening [].
Proof.
  change opening with ((([] ++ [HCommand 0 (HOpen 0 {[1%Z := Some [8%Z]]})]) ++ [HEvent (FullyNegotiatedOutbound up_out tag)])
    ++ [HEvent (FullyNegotiatedInbound up_in)] ++ [HSend 0 [1%Z]]). rewrite app_assoc.
  repeat apply hrun_input. apply hrun_start, h0_fresh.
Qed.

Definition returned (x : H * option HandlerEvent) : bool := match x.2 with Some _ => true | None => false end.

Lemma handler_contract_witness : exists h' o, handler_poll opened = Done (h', o) /\ is_Some o.
Proof.
  destruct (handler_contract true h0 opened opening [] opened_run) as (_ & (h' & o & E) & _).
  exists h', o. split; [exact E|].
  pose proof (fmap_Done returned _ _ true E ltac:(vm_compute; reflexivity)) as Ho. destruct o; [by eexists|done].
Defined.

Lemma open_protocol_sends_witness : exists ch xs ys zs, channels opened !! 0 = Some ch /\
  sends true 1 1 xs ys zs {| out_socket := sock |}
    (send_loop (send_fuel ch) (throttle_stage opened) (delay opened) {| out_socket := sock |} ch).
Proof.
  assert (exists sp, stateful_protocols opened !! 0%Z = Some sp /\
    sp_state sp = Some (POpened (send_approve (iu_substream up_in)) (ou_substream up_out) 0)) as (sp & Hsp & Hst).
  { exists (proto <| sp_state := Some (POpened (send_approve (iu_substream up_in)) (ou_substream up_out) 0) |>).
    split; vm_compute; reflexivity. }
  destruct (open_protocol_sends true h0 opened opening [] 0 sp _ 0 {| out_socket := sock |} opened_run Hsp Hst eq_refl)
    as (ch & xs & ys & zs & Hc & _ & Hs).
  exists ch, xs, ys, zs. split; [exact Hc|exact Hs].
Defined.

Lemma negotiation_opens_witness : exists (a b : H) cA cB hsA,
  NotifyBehaviour (HOpened tag cA (Some [9%Z])) ∈ pending_events a /\ NotifyBehaviour (HOpened tag cB None) ∈ pending_events b /\
  NotifyBehaviour (HOpenedByPeer tag hsA) ∈ pending_events b /\ hsA = Some [8%Z].
Proof.
  destruct (negotiation_opens h0 h0 0 1 spec [8%Z] [9%Z] sock sock sock sock eq_refl eq_refl eq_refl)
    as (upA & iB & _ & _ & [_ HB1] & upB & sB & oA & [_ HB2] & _ & _ & iA & oB & sA & cA & cB & _ & _ & _ & [_ HA3] & [_ HB3]).
  eexists _, _, cA, cB, _. rewrite HA3, HB3, HB2, HB1.
  split; [apply elem_of_app; right; left|]. split; [apply elem_of_app; right; left|]. split; [|reflexivity].
  apply elem_of_app; left. apply elem_of_app; left. apply elem_of_app; right; left.
Defined.
End HandlerSample.
