(* ===== verification/NetworkController.v ===== *)
(** * The network controller

    Model of [spectrum-network/src/network_controller.rs] with the events of
    [protocol_api.rs]: the controller between the swarm, the peer manager, the
    connection handlers and the protocol handlers.

    The calls it makes are recorded: notifications of the peer manager in
    [peers_calls], events given to protocol handlers in [handler_calls], and
    actions for the swarm in [pending_actions].  What the stream of the peer
    manager answers is an argument of the poll. *)

From S2P Require Import Prelude PeerManager Substream ConnHandler.

(** ** Events for protocol handlers *)

Section NetworkController.
Context {PeerId Addr ConnId THandler : Type} `{Countable PeerId} `{EqDecision ConnId}.

Abbreviation PMIn := (PeerManagerIn (PeerId := PeerId) (Addr := Addr) (ConnId := ConnId)) (only parsing).
Abbreviation PMOut := (PeerManagerOut (PeerId := PeerId) (Addr := Addr) (ConnId := ConnId)) (only parsing).

Inductive ProtocolEvent :=
| EConnected (peer_id : PeerId)
| EMessage (peer_id : PeerId) (protocol_ver : Z) (content : list Z)
| ERequested (peer_id : PeerId) (protocol_ver : Z) (handshake : option (list Z))
| ERequestedLocal (peer_id : PeerId)
| EEnabled (peer_id : PeerId) (protocol_ver : Z) (sink : nat) (handshake : option (list Z))
| EDisabled (peer_id : PeerId).

(** ** States *)

Inductive EnabledProtocol :=
| Enabled (ver : Z) (sink : nat)
| PendingApproveProtocol
| PendingEnable
| PendingDisable.

Inductive ConnectedPeer :=
| ConnectedWith (conn_ids : list ConnId) (enabled_protocols : gmap Z (EnabledProtocol * THandler))
| PendingApprove (conn : ConnId)
| PendingConnect (tasks : list OneShotMessage) (asap : bool)
| PendingDisconnect (conn : ConnId).

Inductive NetworkControllerOut :=
| ConnectedWithInboundPeer (peer_id : PeerId)
| ConnectedWithOutboundPeer (peer_id : PeerId)
| Disconnected (peer_id : PeerId) (reason : ConnectionLossReason)
| ProtocolPendingApprove (peer_id : PeerId) (protocol_id : Z)
| ProtocolPendingEnable (peer_id : PeerId) (protocol_id : Z)
| ProtocolEnabled (peer_id : PeerId) (protocol_id protocol_ver : Z)
| ProtocolDisabled (peer_id : PeerId) (protocol_id : Z)
| PeerPunished (peer_id : PeerId) (reason : ReputationChange).

Inductive NetworkControllerIn :=
| EnableProtocol (protocol : Z) (peer : PeerId) (handshake : gmap Z (option (list Z)))
| UpdatePeerProtocols (peer : PeerId) (protocols : list Z)
| SendOneShotMessage (peer : PeerId) (addr_hint : option Addr) (protocol : ProtocolTag) (message : list Z)
| BanPeer (peer : PeerId).

(** [ToSwarm] *)
Inductive Action :=
| Dial (peer_id : PeerId) (addresses : list Addr)
| NotifyHandler (peer_id : PeerId) (conn : ConnId) (event : ConnHandlerIn)
| CloseConnection (peer_id : PeerId) (conn : ConnId)
| GenerateEvent (event : NetworkControllerOut).

(** [FromSwarm]; the variants that are only logged are one. *)
Inductive SwarmEvent :=
| SConnectionEstablished (peer_id : PeerId) (conn : ConnId)
| SConnectionClosed (peer_id : PeerId) (conn : ConnId) (handler_fault : option ConnHandlerError)
| SDialFailure (peer_id : option PeerId)
| SOther.

Record NetworkController := {
  conn_handler_conf : PeerConnHandlerConf;
  nc_protocols : gmap Z (ProtocolConfig * THandler);
  enabled_peers : gmap PeerId ConnectedPeer;
  requests : list NetworkControllerIn;
  pending_actions : list Action;
  peers_calls : list PMIn;
  handler_calls : list (THandler * ProtocolEvent);
}.

Definition controller_new (cf : PeerConnHandlerConf) (ps : gmap Z (ProtocolConfig * THandler)) : NetworkController := {|
  conn_handler_conf := cf;
  nc_protocols := ps;
  enabled_peers := ∅;
  requests := [];
  pending_actions := [];
  peers_calls := [];
  handler_calls := [];
|}.

(** ** Effects *)

Definition act (a : Action) (s : NetworkController) : NetworkController :=
  s <| pending_actions ::= fun q => q ++ [a] |>.

Definition emit (e : NetworkControllerOut) (s : NetworkController) : NetworkController := act (GenerateEvent e) s.

Definition tell_peers (i : PMIn) (s : NetworkController) : NetworkController :=
  s <| peers_calls ::= fun q => q ++ [i] |>.

Definition tell_handler (th : THandler) (e : ProtocolEvent) (s : NetworkController) : NetworkController :=
  s <| handler_calls ::= fun q => q ++ [(th, e)] |>.

Definition set_peer (pid : PeerId) (cp : ConnectedPeer) (s : NetworkController) : NetworkController :=
  s <| enabled_peers ::= <[pid := cp]> |>.

Definition remove_peer (pid : PeerId) (s : NetworkController) : NetworkController :=
  s <| enabled_peers ::= delete pid |>.

(** ** Connection handlers *)

(** The stateful protocols: the versions are inserted under one key, one after
    the other. *)
Definition add_protocol (ps : gmap Z StatefulProtocol * gmap Z OneShotProtocol) (e : Z * (ProtocolConfig * THandler))
    : gmap Z StatefulProtocol * gmap Z OneShotProtocol :=
  let '(stateful, one_shot) := ps in
  let '(protocol_id, (p, _)) := e in
  match p with
  | Stateful versions =>
    (foldl (fun m '(ver, spec) =>
       <[protocol_id := {| sp_ver := ver; sp_spec := spec; sp_state := Some PClosed;
                           sp_all_versions_specs := versions |}]> m) stateful versions, one_shot)
  | OneShot os =>
    (stateful, <[protocol_id := {| osp_ver := os_version os; osp_spec := os_spec os |}]> one_shot)
  end.

(** [now]: the time; [rids]: random request ids; [dl]: the answers of the
    throttling delay. *)
Definition init_conn_handler (now : Z) (rids : list Z) (dl : list bool) (s : NetworkController) (peer_id : PeerId)
    (one_shot_requests : list OneShotMessage) (asap : bool) : PeerConnHandler (PeerId := PeerId) :=
  let '(stateful, one_shot) := foldl add_protocol (∅, ∅) (map_to_list (nc_protocols s)) in
  {| h_conf := conn_handler_conf s;
     stateful_protocols := stateful;
     one_shot_protocols := one_shot;
     created_at := now;
     h_peer_id := peer_id;
     pending_events := [];
     fault := None;
     throttle_stage := TDisable;
     delay := dl;
     pending_one_shots := collect_map (zip rids (OsPending <$> one_shot_requests));
     terminate_asap := asap;
     channels := ∅;
     next_channel := 0 |}.

Definition handle_established_inbound_connection (now : Z) (rids : list Z) (dl : list bool) (s : NetworkController)
    (peer : PeerId) : PeerConnHandler (PeerId := PeerId) :=
  init_conn_handler now rids dl s peer [] false.

Definition handle_established_outbound_connection (now : Z) (rids : list Z) (dl : list bool) (s : NetworkController)
    (peer : PeerId) : PeerConnHandler (PeerId := PeerId) :=
  match enabled_peers s !! peer with
  | Some (PendingConnect tasks asap) => init_conn_handler now rids dl s peer tasks asap
  | _ => init_conn_handler now rids dl s peer [] false
  end.

(** ** Events of the swarm *)

Definition connected_outbound (s : NetworkController) (pid : PeerId) (conn : ConnId) (tasks : list OneShotMessage)
    : NetworkController :=
  let s := foldl (fun s os_msg => act (NotifyHandler pid conn (HTryDeliverOnce os_msg)) s) s tasks in
  let s := tell_peers (ConnectionEstablished pid conn) s in
  let s := set_peer pid (ConnectedWith [conn] ∅) s in
  let s := foldl (fun s '(_, (_, ph)) => tell_handler ph (EConnected pid) s) s (map_to_list (nc_protocols s)) in
  emit (ConnectedWithOutboundPeer pid) s.

Definition on_established (s : NetworkController) (pid : PeerId) (conn : ConnId) : outcome NetworkController :=
  match enabled_peers s !! pid with
  | Some (PendingConnect tasks _) => Done (connected_outbound s pid conn tasks)
  | Some (ConnectedWith conn_ids ps) =>
    if decide (conn ∈ conn_ids) then Panic
    else Done (act (CloseConnection pid conn) (set_peer pid (ConnectedWith (conn_ids ++ [conn]) ps) s))
  | Some (PendingDisconnect _) | Some (PendingApprove _) => Done (act (CloseConnection pid conn) s)
  | None => Done (set_peer pid (PendingApprove conn) (tell_peers (IncomingConnection pid conn) s))
  end.

Definition loss_reason (handler_fault : option ConnHandlerError) : ConnectionLossReason :=
  match handler_fault with Some err => Reset err | None => ResetByPeer end.

Definition lost (s : NetworkController) (pid : PeerId) (handler_fault : option ConnHandlerError) : NetworkController :=
  let reason := loss_reason handler_fault in
  emit (Disconnected pid reason) (tell_peers (ConnectionLost pid reason) s).

Definition on_closed (s : NetworkController) (pid : PeerId) (conn : ConnId) (handler_fault : option ConnHandlerError)
    : outcome NetworkController :=
  match enabled_peers s !! pid with
  | Some (ConnectedWith conn_ids ps) =>
    ix ← unwrap (position conn conn_ids);
    let conn_ids := delete ix conn_ids in
    let s := match conn_ids with
             | [] => remove_peer pid s
             | _ => set_peer pid (ConnectedWith conn_ids ps) s
             end in
    Done (lost s pid handler_fault)
  | Some (PendingDisconnect _) => Done (lost (remove_peer pid s) pid handler_fault)
  | _ => Done s
  end.

Definition on_swarm_event (s : NetworkController) (event : SwarmEvent) : outcome NetworkController :=
  match event with
  | SConnectionEstablished pid conn => on_established s pid conn
  | SConnectionClosed pid conn handler_fault => on_closed s pid conn handler_fault
  | SDialFailure (Some pid) => Done (tell_peers (DialFailure pid) s)
  | SDialFailure None | SOther => Done s
  end.

(** ** Events of the connection handlers *)

Definition on_opened (s : NetworkController) (pid : PeerId) (tag : ProtocolTag) (sink : nat) (handshake : option (list Z))
    : NetworkController :=
  match enabled_peers s !! pid with
  | Some (ConnectedWith conn_ids ps) =>
    let protocol_id := tag_protocol_id tag in
    let protocol_ver := tag_protocol_ver tag in
    match ps !! protocol_id with
    | Some (PendingEnable, th) =>
      let s := tell_handler th (EEnabled pid protocol_ver sink handshake) s in
      let s := set_peer pid (ConnectedWith conn_ids (<[protocol_id := (Enabled protocol_ver sink, th)]> ps)) s in
      emit (ProtocolEnabled pid protocol_id protocol_ver) s
    | _ => s
    end
  | _ => s
  end.

Definition on_opened_by_peer (s : NetworkController) (pid : PeerId) (conn : ConnId) (tag : ProtocolTag)
    (handshake : option (list Z)) : outcome NetworkController :=
  match enabled_peers s !! pid with
  | Some (ConnectedWith conn_ids ps) =>
    let protocol_id := tag_protocol_id tag in
    '(_, th) ← unwrap (nc_protocols s !! protocol_id);
    match ps !! protocol_id with
    | None =>
      let s := set_peer pid (ConnectedWith conn_ids (<[protocol_id := (PendingApproveProtocol, th)]> ps)) s in
      let s := tell_handler th (ERequested pid (tag_protocol_ver tag) handshake) s in
      Done (emit (ProtocolPendingApprove pid protocol_id) s)
    | Some _ => Done (act (NotifyHandler pid conn (HClose protocol_id)) s)
    end
  | _ => Done s
  end.

Definition on_protocol_closed (s : NetworkController) (pid : PeerId) (protocol_id : Z) : NetworkController :=
  match enabled_peers s !! pid with
  | Some (ConnectedWith conn_ids ps) => set_peer pid (ConnectedWith conn_ids (delete protocol_id ps)) s
  | _ => s
  end.

Definition on_message (s : NetworkController) (pid : PeerId) (tag : ProtocolTag) (content : list Z) : NetworkController :=
  match enabled_peers s !! pid with
  | Some (ConnectedWith _ ps) =>
    match ps !! tag_protocol_id tag with
    | Some (_, th) => tell_handler th (EMessage pid (tag_protocol_ver tag) content) s
    | None => s
    end
  | _ => s
  end.

Definition on_connection_handler_event (s : NetworkController) (pid : PeerId) (conn : ConnId) (event : ConnHandlerOut)
    : outcome NetworkController :=
  match event with
  | HOpened tag sink handshake => Done (on_opened s pid tag sink handshake)
  | HOpenedByPeer tag handshake => on_opened_by_peer s pid conn tag handshake
  | HClosedByPeer protocol_id | HRefusedToOpen protocol_id | HClosed protocol_id =>
    Done (on_protocol_closed s pid protocol_id)
  | HClosedAllProtocols =>
    match enabled_peers s !! pid with
    | Some _ => Done (remove_peer pid s)
    | None => Panic
    end
  | HOneShotMessage tag content =>
    match nc_protocols s !! tag_protocol_id tag with
    | Some (_, th) => Done (tell_handler th (EMessage pid (tag_protocol_ver tag) content) s)
    | None => Done s
    end
  | HMessage tag content => Done (on_message s pid tag content)
  end.

(** ** Instructions of the peer manager *)

Definition dest_addresses (d : PeerDestination (PeerId := PeerId) (Addr := Addr)) : list Addr :=
  option_list (into_addr d).

Definition on_start_protocol (s : NetworkController) (protocol : Z) (pid : PeerId) : outcome NetworkController :=
  match enabled_peers s !! pid with
  | Some (ConnectedWith conn_ids ps) =>
    '(_, th) ← unwrap (nc_protocols s !! protocol);
    match ps !! protocol with
    | Some _ => Done s
    | None =>
      let s := set_peer pid (ConnectedWith conn_ids (<[protocol := (PendingEnable, th)]> ps)) s in
      Done (emit (ProtocolPendingEnable pid protocol) (tell_handler th (ERequestedLocal pid) s))
    end
  | _ => Done s
  end.

(** The result says whether the loop continues at once; an accepted connection
    goes on to the commands of the protocol handlers. *)
Definition on_peer_manager (s : NetworkController) (o : PMOut) : outcome (NetworkController * bool) :=
  match o with
  | Connect d =>
    match enabled_peers s !! dest_peer_id d with
    | Some _ => Done (s, true)
    | None => Done (act (Dial (dest_peer_id d) (dest_addresses d)) (set_peer (dest_peer_id d) (PendingConnect [] false) s), true)
    end
  | Drop pid =>
    match enabled_peers s !! pid with
    | Some (ConnectedWith conn_ids _) =>
      conn ← unwrap (head conn_ids);
      let s := act (NotifyHandler pid conn HCloseAllProtocols) s in
      Done (emit (Disconnected pid (Reset UnacceptablePeer)) s, true)
    | _ => Done (s, true)
    end
  | AcceptIncomingConnection pid conn =>
    match enabled_peers s !! pid with
    | Some (PendingApprove _) =>
      Done (emit (ConnectedWithInboundPeer pid) (set_peer pid (ConnectedWith [conn] ∅) s), false)
    | _ => Done (s, false)
    end
  | Reject pid conn =>
    match enabled_peers s !! pid with
    | Some (PendingApprove _) => Done (act (NotifyHandler pid conn HCloseAllProtocols) (remove_peer pid s), true)
    | _ => Done (s, true)
    end
  | StartProtocol protocol pid => s ← on_start_protocol s protocol pid; Done (s, true)
  | NotifyPeerPunished pid reason => Done (emit (PeerPunished pid reason) s, true)
  end.

(** ** Commands of the protocol handlers *)

Definition on_send_one_shot (s : NetworkController) (peer : PeerId) (addr_hint : option Addr) (protocol : ProtocolTag)
    (message : list Z) : outcome NetworkController :=
  let msg := {| os_protocol := protocol; os_content := message |} in
  match enabled_peers s !! peer with
  | Some (ConnectedWith conn_ids _) =>
    conn ← unwrap (head conn_ids);
    Done (act (NotifyHandler peer conn (HTryDeliverOnce msg)) s)
  | Some (PendingApprove conn) => Done (act (NotifyHandler peer conn (HTryDeliverOnce msg)) s)
  | Some (PendingConnect tasks asap) => Done (set_peer peer (PendingConnect (tasks ++ [msg]) asap) s)
  | Some (PendingDisconnect _) => Done s
  | None => Done (set_peer peer (PendingConnect [msg] true) (act (Dial peer (option_list addr_hint)) s))
  end.

Definition on_enable_protocol (s : NetworkController) (protocol_id : Z) (pid : PeerId)
    (handshake : gmap Z (option (list Z))) : outcome NetworkController :=
  match enabled_peers s !! pid with
  | Some (ConnectedWith conn_ids ps) =>
    '(_, prot_handler) ← unwrap (nc_protocols s !! protocol_id);
    match ps !! protocol_id with
    | Some ((PendingEnable | PendingApproveProtocol), th) =>
      let s := set_peer pid (ConnectedWith conn_ids (<[protocol_id := (PendingEnable, th)]> ps)) s in
      conn ← unwrap (head conn_ids);
      Done (act (NotifyHandler pid conn (HOpen protocol_id handshake)) s)
    | Some _ => Done s
    | None =>
      let s := set_peer pid (ConnectedWith conn_ids (<[protocol_id := (PendingEnable, prot_handler)]> ps)) s in
      let s := tell_peers (ForceEnabled pid protocol_id) s in
      conn ← unwrap (head conn_ids);
      let s := act (NotifyHandler pid conn (HOpen protocol_id handshake)) s in
      Done (emit (ProtocolPendingEnable pid protocol_id) s)
    end
  | _ => Done s
  end.

Definition on_request (s : NetworkController) (input : NetworkControllerIn) : outcome NetworkController :=
  match input with
  | SendOneShotMessage peer addr_hint protocol message => on_send_one_shot s peer addr_hint protocol message
  | UpdatePeerProtocols peer protocols => Done (tell_peers (SetProtocols peer protocols) s)
  | EnableProtocol protocol peer handshake => on_enable_protocol s protocol peer handshake
  | BanPeer _ => Done s
  end.

(** ** Polling *)

(** [pm]: the answers of the peer manager, [None] for pending; also pending
    when exhausted.  The answers that are left are returned. *)
Fixpoint controller_poll_loop (fuel : nat) (pm : list (option PMOut)) (s : NetworkController)
    : outcome (NetworkController * list (option PMOut) * option Action) :=
  match fuel with
  | 0 => NoFuel
  | S fuel =>
    match pending_actions s with
    | a :: rest => Done (s <| pending_actions := rest |>, pm, Some a)
    | [] =>
      let '(o, pm) := script None pm in
      '(s, again) ← match o with Some o => on_peer_manager s o | None => Done (s, false) end;
      if (again : bool) then controller_poll_loop fuel pm s
      else match requests s with
           | input :: rest =>
             s ← on_request (s <| requests := rest |>) input;
             controller_poll_loop fuel pm s
           | [] => Done (s, pm, None)
           end
    end
  end.

Definition controller_poll (pm : list (option PMOut)) (s : NetworkController)
    : outcome (NetworkController * list (option PMOut) * option Action) :=
  controller_poll_loop (S (S (length pm + length (requests s)))) pm s.
End NetworkController.
