(* ===== verification/NetworkSafety.v ===== *)
(** * Properties of the network controller

    The invariant of the controller and the exact conditions under which it
    panics; the state machine of a peer; and the system of the controller with
    the handlers of its connections, in which a protocol is enabled only if its
    handler asked for it. *)

From S2P Require Import Prelude PeerManager Substream ConnHandler ConnSafety NetworkController.

Section NetworkSafety.
Context {PeerId Addr ConnId THandler : Type} `{Countable PeerId} `{EqDecision ConnId}.

Local Abbreviation NC := (NetworkController (PeerId := PeerId) (Addr := Addr) (ConnId := ConnId) (THandler := THandler)).
Local Abbreviation PMOut := (PeerManagerOut (PeerId := PeerId) (Addr := Addr) (ConnId := ConnId)).
Local Abbreviation Req := (NetworkControllerIn (PeerId := PeerId) (Addr := Addr)).
Local Abbreviation Act := (Action (PeerId := PeerId) (Addr := Addr) (ConnId := ConnId)).
Local Abbreviation Peer_ := (ConnectedPeer (ConnId := ConnId) (THandler := THandler)).
Local Abbreviation SEvent := (SwarmEvent (PeerId := PeerId) (ConnId := ConnId)).

(** ** The invariant *)

(** A connected peer has connections, all different, and its protocols are
    supported and served by their handlers; peers are never pending disconnect,
    and protocols never pending disable. *)
Definition peer_ok (ps : gmap Z (ProtocolConfig * THandler)) (cp : Peer_) : Prop :=
  match cp with
  | ConnectedWith conn_ids eps => conn_ids <> [] /\ NoDup conn_ids /\
      map_Forall (fun p '(st, th) => snd <$> ps !! p = Some th /\ st <> PendingDisable) eps
  | PendingDisconnect _ => False
  | _ => True
  end.

Definition nc_ok (s : NC) : Prop := map_Forall (fun _ => peer_ok (nc_protocols s)) (enabled_peers s).

(** [s'] has the peers and protocols of [s]. *)
Definition same_peers (s s' : NC) : Prop :=
  enabled_peers s' = enabled_peers s /\ nc_protocols s' = nc_protocols s.

#[local] Instance same_peers_preorder : PreOrder same_peers.
Proof. split; [by intros ?|]. intros s1 s2 s3 [] []. split; congruence. Qed.

Lemma nc_ok_same s s' : same_peers s s' -> nc_ok s -> nc_ok s'.
Proof. intros [Hp Hn]. unfold nc_ok. by rewrite Hp, Hn. Qed.

Lemma nc_ok_set_peer s pid cp : nc_ok s -> peer_ok (nc_protocols s) cp -> nc_ok (set_peer pid cp s).
Proof. intros Hs Hcp. by apply map_Forall_insert_2. Qed.

Lemma nc_ok_remove_peer s pid : nc_ok s -> nc_ok (remove_peer pid s).
Proof. intros Hs. by apply map_Forall_delete. Qed.

Lemma nc_ok_peer s pid cp : nc_ok s -> enabled_peers s !! pid = Some cp -> peer_ok (nc_protocols s) cp.
Proof. intros Hs Hp. exact (Hs _ _ Hp). Qed.

Lemma same_peers_foldl {A} (f : NC -> A -> NC) l s :
  (forall s x, same_peers s (f s x)) -> same_peers s (foldl f s l).
Proof. intros Hf. revert s. induction l as [|x l IH]; intros s; cbn; [done|]. etrans; [apply Hf|apply IH]. Qed.

(** A protocol put into the map of a connected peer. *)
Lemma peer_ok_insert ps conn_ids eps p st th :
  peer_ok ps (ConnectedWith conn_ids eps) -> snd <$> ps !! p = Some th -> st <> PendingDisable ->
  peer_ok ps (ConnectedWith conn_ids (<[p := (st, th)]> eps)).
Proof. intros (H1 & H2 & H3) Hp Hst. split; [done|]. split; [done|]. by apply map_Forall_insert_2. Qed.

Lemma head_conn (ps : gmap Z (ProtocolConfig * THandler)) (conn_ids : list ConnId) eps :
  peer_ok ps (ConnectedWith conn_ids eps) -> exists conn, head conn_ids = Some conn.
Proof. intros (Hne & _). destruct conn_ids as [|c ?]; [done|]. by exists c. Qed.

Lemma connected_outbound_ok s pid conn tasks : nc_ok s -> nc_ok (connected_outbound s pid conn tasks).
Proof.
  intros Hs. unfold connected_outbound, emit. eapply nc_ok_same; [done|].
  eapply nc_ok_same; [apply same_peers_foldl; by intros ? [? [? ?]]|].
  apply nc_ok_set_peer; [|split; [done|]; split; [apply NoDup_singleton|apply map_Forall_empty]].
  eapply nc_ok_same; [|exact Hs]. change (same_peers s ?x) with (same_peers s x).
  etrans; [|done]. apply same_peers_foldl. done.
Qed.

(** ** Panics *)

Definition connections (s : NC) (pid : PeerId) : option (list ConnId) :=
  match enabled_peers s !! pid with Some (ConnectedWith conn_ids _) => Some conn_ids | _ => None end.

(** A connection of a connected peer is established twice, or one is closed
    that the controller does not know. *)
Definition swarm_panics (s : NC) (e : SEvent) : Prop :=
  match e with
  | SConnectionEstablished pid conn => exists conn_ids, connections s pid = Some conn_ids /\ conn ∈ conn_ids
  | SConnectionClosed pid conn _ => exists conn_ids, connections s pid = Some conn_ids /\ conn ∉ conn_ids
  | _ => False
  end.

Lemma on_swarm_event_spec s e : nc_ok s ->
  (on_swarm_event s e = Panic /\ swarm_panics s e) \/
  (exists s', on_swarm_event s e = Done s' /\ ~ swarm_panics s e /\ nc_ok s').
Proof.
  intros Hs. destruct e as [pid conn|pid conn hf|[pid|]|]; cbn.
  - unfold on_established, connections. destruct (enabled_peers s !! pid) as [[ids eps|c|tasks asap|c]|] eqn:Hp.
    + destruct (decide (conn ∈ ids)) as [Hin|Hni]; [left; by eauto|]. right. eexists. split; [done|].
      split; [naive_solver|]. apply (nc_ok_peer _ _ _ Hs) in Hp as (Hne & Hnd & Hps).
      eapply nc_ok_same; [|apply nc_ok_set_peer; [exact Hs|]]; [done|]. split; [by destruct ids|]. split; [|done].
      apply NoDup_app. split; [done|]. split; [|apply NoDup_singleton]. intros x Hx ->%list_elem_of_singleton. done.
    + right. eexists. split; [done|]. split; [naive_solver|]. by eapply nc_ok_same.
    + right. eexists. split; [done|]. split; [naive_solver|]. by apply connected_outbound_ok.
    + by apply (nc_ok_peer _ _ _ Hs) in Hp.
    + right. eexists. split; [done|]. split; [naive_solver|]. by apply nc_ok_set_peer.
  - unfold on_closed, connections. destruct (enabled_peers s !! pid) as [[ids eps|c|tasks asap|c]|] eqn:Hp.
    + destruct (position conn ids) as [ix|] eqn:Hix.
      2: { left. split; [done|]. exists ids. split; [done|]. by apply position_None. }
      right. outcome_cbn. eexists. split; [done|].
      split; [intros (? & [= <-] & Hn%position_None); congruence|].
      apply (nc_ok_peer _ _ _ Hs) in Hp as (Hne & Hnd & Hps).
      eapply nc_ok_same; [done|]. destruct (delete ix ids) eqn:Hd; [by apply nc_ok_remove_peer|].
      apply nc_ok_set_peer; [done|]. split; [done|]. split; [|done]. rewrite <- Hd.
      by eapply sublist_NoDup; [|apply sublist_delete].
    + right. eexists. split; [done|]. split; [naive_solver|]. done.
    + right. eexists. split; [done|]. split; [naive_solver|]. done.
    + by apply (nc_ok_peer _ _ _ Hs) in Hp.
    + right. eexists. split; [done|]. split; [naive_solver|]. done.
  - right. eexists. split; [done|]. split; [by intros []|]. by eapply nc_ok_same.
  - right. eexists. split; [done|]. split; [by intros []|]. done.
  - right. eexists. split; [done|]. split; [by intros []|]. done.
Qed.

(** A peer opens a protocol that is not supported, or all protocols of a peer
    are closed that the controller does not know. *)
Definition handler_panics (s : NC) (pid : PeerId) (e : ConnHandlerOut) : Prop :=
  match e with
  | HOpenedByPeer tag _ => is_Some (connections s pid) /\ nc_protocols s !! tag_protocol_id tag = None
  | HClosedAllProtocols => enabled_peers s !! pid = None
  | _ => False
  end.

Lemma on_connection_handler_event_spec s pid conn e : nc_ok s ->
  (on_connection_handler_event s pid conn e = Panic /\ handler_panics s pid e) \/
  (exists s', on_connection_handler_event s pid conn e = Done s' /\ ~ handler_panics s pid e /\ nc_ok s').
Proof.
  intros Hs.
  assert (Hclosed : forall p, nc_ok (on_protocol_closed s pid p)).
  { intros p. unfold on_protocol_closed. destruct (enabled_peers s !! pid) as [[ids eps| | |]|] eqn:Hp; try done.
    apply nc_ok_set_peer; [done|]. apply (nc_ok_peer _ _ _ Hs) in Hp as (? & ? & ?). split; [done|]. split; [done|].
    by apply map_Forall_delete. }
  destruct e as [tag sink hs|p|p| |tag hs|p|tag m|tag m]; cbn; try (right; eexists; split; [done|]; split; [by intros []|]; done).
  - right. eexists. split; [done|]. split; [by intros []|]. unfold on_opened.
    destruct (enabled_peers s !! pid) as [[ids eps| | |]|] eqn:Hp; try done.
    destruct (eps !! tag_protocol_id tag) as [[[] th]|] eqn:He; try done. pose proof (nc_ok_peer _ _ _ Hs Hp) as Hok.
    eapply nc_ok_same; [done|]. eapply (nc_ok_set_peer (tell_handler _ _ _)); [by eapply nc_ok_same|].
    apply peer_ok_insert; [done| |done]. destruct Hok as (_ & _ & Hok). exact (proj1 (Hok _ _ He)).
  - destruct (enabled_peers s !! pid) as [cp|] eqn:Hp; [|by left]. right. eexists. split; [done|]. split; [done|].
    by apply nc_ok_remove_peer.
  - unfold on_opened_by_peer, connections.
    destruct (enabled_peers s !! pid) as [[ids eps| | |]|] eqn:Hp; try (right; eexists; split; [done|]; split; [|done]; by intros [[] ?]).
    destruct (nc_protocols s !! tag_protocol_id tag) as [[cfg th]|] eqn:Hn; [|left; split; [done|]; split; [by eexists|done]].
    right. outcome_cbn. pose proof (nc_ok_peer _ _ _ Hs Hp) as Hok.
    destruct (eps !! tag_protocol_id tag) eqn:He; (eexists; split; [done|]; split; [by intros [_ ?]|]).
    + by eapply nc_ok_same.
    + eapply nc_ok_same; [done|]. apply nc_ok_set_peer; [done|]. apply peer_ok_insert; [done| |done]. by rewrite Hn.
  - right. eexists. split; [done|]. split; [by intros []|]. unfold on_message.
    destruct (enabled_peers s !! pid) as [[ids eps| | |]|]; try done. by destruct (eps !! _) as [[]|].
  - right. destruct (nc_protocols s !! tag_protocol_id tag) as [[cfg th]|]; (eexists; split; [done|]; split; [by intros []|]); [|done].
    by eapply nc_ok_same.
Qed.

(** Instructions and commands about supported protocols. *)
Definition pm_supported (ps : gmap Z (ProtocolConfig * THandler)) (o : PMOut) : Prop :=
  match o with StartProtocol p _ => is_Some (ps !! p) | _ => True end.

Definition req_supported (ps : gmap Z (ProtocolConfig * THandler)) (r : Req) : Prop :=
  match r with EnableProtocol p _ _ => is_Some (ps !! p) | _ => True end.

(** A step of the poll that returns. *)
Definition steps_ok (s s' : NC) : Prop :=
  nc_ok s' /\ requests s' = requests s /\ nc_protocols s' = nc_protocols s.

Lemma on_peer_manager_spec s o : nc_ok s -> pm_supported (nc_protocols s) o ->
  exists s' again, on_peer_manager s o = Done (s', again) /\ steps_ok s s'.
Proof.
  intros Hs Ho. destruct o as [d|pid|pid conn|pid conn|p pid|pid r]; cbn.
  - destruct (enabled_peers s !! dest_peer_id d); (eexists _, _; split; [done|]; split; [|done]); [done|].
    eapply nc_ok_same; [done|]. by apply nc_ok_set_peer.
  - destruct (enabled_peers s !! pid) as [[ids eps| | |]|] eqn:Hp; try (by eexists _, _).
    apply (nc_ok_peer _ _ _ Hs), head_conn in Hp as [conn ->]. eexists _, _. split; [done|]. split; [|done].
    by eapply nc_ok_same.
  - destruct (enabled_peers s !! pid) as [[| | |]|]; try (by eexists _, _). eexists _, _. split; [done|]. split; [|done].
    eapply nc_ok_same; [done|]. apply nc_ok_set_peer; [done|]. split; [done|]. split; [apply NoDup_singleton|apply map_Forall_empty].
  - destruct (enabled_peers s !! pid) as [[| | |]|]; try (by eexists _, _). eexists _, _. split; [done|]. split; [|done].
    eapply nc_ok_same; [done|]. by apply nc_ok_remove_peer.
  - unfold on_start_protocol. destruct (enabled_peers s !! pid) as [[ids eps| | |]|] eqn:Hp; try (by eexists _, _).
    destruct Ho as [[cfg th] Ho]. rewrite Ho. outcome_cbn. pose proof (nc_ok_peer _ _ _ Hs Hp) as Hok.
    destruct (eps !! p) eqn:He; outcome_cbn; (eexists _, _; split; [done|]; split; [|done]); [done|].
    eapply nc_ok_same; [done|]. apply nc_ok_set_peer; [done|]. apply peer_ok_insert; [done| |done]. by rewrite Ho.
  - eexists _, _. split; [done|]. split; [|done]. by eapply nc_ok_same.
Qed.

Lemma on_request_spec s r : nc_ok s -> req_supported (nc_protocols s) r ->
  exists s', on_request s r = Done s' /\ steps_ok s s'.
Proof.
  intros Hs Hr. destruct r as [p pid hs|pid ps|pid hint tag m|pid]; cbn.
  - unfold on_enable_protocol. destruct (enabled_peers s !! pid) as [[ids eps| | |]|] eqn:Hp; try (by eexists).
    destruct Hr as [[cfg th] Hr]. rewrite Hr. outcome_cbn. pose proof (nc_ok_peer _ _ _ Hs Hp) as Hok.
    destruct (head_conn _ _ _ Hok) as [conn Hc]. rewrite Hc.
    assert (forall st th', st <> PendingDisable -> snd <$> nc_protocols s !! p = Some th' ->
      nc_ok (set_peer pid (ConnectedWith ids (<[p := (st, th')]> eps)) s)) as Hset.
    { intros st th' Hst Hth. apply nc_ok_set_peer; [done|]. by apply peer_ok_insert. }
    destruct (eps !! p) as [[[] th']|] eqn:He; outcome_cbn; (eexists; split; [done|]; split; [|done]); try done;
      (eapply nc_ok_same; [|apply Hset; [|]]); try done; try (exact (proj1 (proj2 (proj2 Hok) _ _ He))); by rewrite Hr.
  - eexists. split; [done|]. split; [|done]. by eapply nc_ok_same.
  - unfold on_send_one_shot. destruct (enabled_peers s !! pid) as [[ids eps|c|tasks asap|c]|] eqn:Hp.
    + apply (nc_ok_peer _ _ _ Hs), head_conn in Hp as [conn ->]. eexists. split; [done|]. split; [|done]. by eapply nc_ok_same.
    + eexists. split; [done|]. split; [|done]. by eapply nc_ok_same.
    + eexists. split; [done|]. split; [|done]. by apply nc_ok_set_peer.
    + by eexists.
    + eexists. split; [done|]. split; [|done]. eapply (nc_ok_set_peer (act _ _)); [|done]. by eapply nc_ok_same.
  - by eexists.
Qed.

Lemma controller_poll_loop_spec fuel pm s : nc_ok s -> length pm + length (requests s) < fuel ->
  Forall (fun o => forall x, o = Some x -> pm_supported (nc_protocols s) x) pm ->
  Forall (req_supported (nc_protocols s)) (requests s) ->
  exists s' pm' a, controller_poll_loop fuel pm s = Done (s', pm', a) /\ nc_ok s' /\ nc_protocols s' = nc_protocols s.
Proof.
  revert pm s. induction fuel as [|fuel IH]; intros pm s Hs Hf Hpm Hreq; [lia|]. cbn.
  destruct (pending_actions s) as [|a rest]; [|eexists _, _, _; split; [done|]; split; [by eapply nc_ok_same|done]].
  destruct (script None pm) as [o pm1] eqn:Hsc.
  assert (exists s1 again, match o with Some o => on_peer_manager s o | None => Done (s, false) end = Done (s1, again)
    /\ steps_ok s s1 /\ (again = true -> length pm1 < length pm)) as (s1 & again & -> & (Hok1 & Hrq1 & Hn1) & Hlt).
  { destruct o as [o|]; [|by exists s, false]. destruct pm as [|x pm]; [done|]. injection Hsc as -> <-.
    apply Forall_cons in Hpm as [Hx _]. destruct (on_peer_manager_spec s o Hs (Hx _ eq_refl)) as (s1 & again & E & Hst).
    exists s1, again. split; [done|]. split; [done|]. intros _. cbn. lia. }
  assert (length pm1 <= length pm /\ Forall (fun o => forall x, o = Some x -> pm_supported (nc_protocols s1) x) pm1) as [Hle Hpm1].
  { rewrite Hn1. destruct pm as [|x pm]; injection Hsc as <- <-; [done|]. apply Forall_cons in Hpm as [_ ?]. cbn. split; [lia|done]. }
  outcome_cbn. rewrite <- Hn1 in Hreq. destruct again.
  - destruct (IH pm1 s1) as (s' & pm' & a & E & Hok & Hn); [done|rewrite Hrq1; specialize (Hlt eq_refl); lia|done|by rewrite Hrq1|].
    exists s', pm', a. split; [done|]. split; [done|congruence].
  - rewrite <- Hrq1 in Hreq, Hf. destruct (requests s1) as [|r rest] eqn:Hr1.
    + exists s1, pm1, None. done.
    + apply Forall_cons in Hreq as [Hr Hrest].
      destruct (on_request_spec (s1 <| requests := rest |>) r) as (s2 & -> & Hok2 & Hrq2 & Hn2); [by eapply nc_ok_same|done|].
      cbn in Hrq2, Hn2. unfold const in Hrq2. outcome_cbn.
      destruct (IH pm1 s2) as (s' & pm' & a & E & Hok & Hn); [done|rewrite Hrq2; cbn in Hf; lia|by rewrite Hn2|by rewrite Hn2, Hrq2|].
      exists s', pm', a. split; [done|]. split; [done|]. congruence.
Qed.

(** ** Runs of the controller *)

Lemma on_peer_manager_ok s o s' again : nc_ok s -> on_peer_manager s o = Done (s', again) -> steps_ok s s'.
Proof.
  intros Hs E. assert (pm_supported (nc_protocols s) o \/ ~ pm_supported (nc_protocols s) o) as [Ho|Ho].
  { destruct o; try (by left). cbn. destruct (nc_protocols s !! protocol); [left; by eexists|right; by intros []]. }
  - destruct (on_peer_manager_spec s o Hs Ho) as (s1 & b & E1 & ?). by outcome_eq.
  - destruct o as [| | | |p pid|]; try (by destruct Ho). cbn in E, Ho. unfold on_start_protocol in E.
    destruct (nc_protocols s !! p) eqn:Hp; [by destruct Ho; eexists|].
    destruct (enabled_peers s !! pid) as [[]|]; cbn in E; simplify_eq; by split.
Qed.

Lemma on_request_ok s r s' : nc_ok s -> on_request s r = Done s' -> steps_ok s s'.
Proof.
  intros Hs E. assert (req_supported (nc_protocols s) r \/ ~ req_supported (nc_protocols s) r) as [Ho|Ho].
  { destruct r; try (by left). cbn. destruct (nc_protocols s !! protocol); [left; by eexists|right; by intros []]. }
  - destruct (on_request_spec s r Hs Ho) as (s1 & E1 & ?). by outcome_eq.
  - destruct r as [p pid hs| | |]; try (by destruct Ho). cbn in E, Ho. unfold on_enable_protocol in E.
    destruct (nc_protocols s !! p) eqn:Hp; [by destruct Ho; eexists|].
    destruct (enabled_peers s !! pid) as [[]|]; cbn in E; simplify_eq; by split.
Qed.

(** What every step of the poll preserves, the poll preserves; the action it
    returns was the first of the queue. *)
Lemma controller_poll_loop_ind (P : NC -> Prop) fuel pm s s' pm' a :
  (forall s o s' again, P s -> on_peer_manager s o = Done (s', again) -> P s') ->
  (forall s r rest s', P s -> requests s = r :: rest -> on_request (s <| requests := rest |>) r = Done s' -> P s') ->
  P s -> controller_poll_loop fuel pm s = Done (s', pm', a) ->
  exists s1, P s1 /\ match a with
    | Some a => exists rest, pending_actions s1 = a :: rest /\ s' = s1 <| pending_actions := rest |>
    | None => s' = s1
    end.
Proof.
  intros Hpm Hrq. revert pm s. induction fuel as [|fuel IH]; intros pm s Hs E; [done|]. cbn in E.
  destruct (pending_actions s) as [|x rest] eqn:Ha.
  2: { injection E as <- <- <-. exists s. eauto. }
  destruct (script None pm) as [o pm1]. apply bind_Done in E as ([s1 again] & E1 & E).
  assert (P s1) as Hs1 by (destruct o; [by eapply Hpm|by simplify_eq]).
  destruct again; [by eapply IH|]. destruct (requests s1) as [|r rest] eqn:Hr.
  - injection E as <- <- <-. by exists s1.
  - apply bind_Done in E as (s2 & E2 & E). eapply IH; [|exact E]. by eapply Hrq.
Qed.

(** The controller in use, with the commands it was sent and the actions it
    returned. *)
Inductive controller_run (cf : PeerConnHandlerConf) (ps : gmap Z (ProtocolConfig * THandler)) :
    NC -> list Req -> list Act -> Prop :=
| crun_new : controller_run cf ps (controller_new cf ps) [] []
| crun_swarm s rs acts e s' : controller_run cf ps s rs acts -> on_swarm_event s e = Done s' ->
    controller_run cf ps s' rs acts
| crun_handler s rs acts pid conn e s' : controller_run cf ps s rs acts ->
    on_connection_handler_event s pid conn e = Done s' -> controller_run cf ps s' rs acts
| crun_request s rs acts r : controller_run cf ps s rs acts ->
    controller_run cf ps (s <| requests ::= fun q => q ++ [r] |>) (rs ++ [r]) acts
| crun_poll s rs acts pm s' pm' a : controller_run cf ps s rs acts -> controller_poll pm s = Done (s', pm', a) ->
    controller_run cf ps s' rs (acts ++ option_list a).

Lemma nc_ok_poll pm s s' pm' a : nc_ok s -> controller_poll pm s = Done (s', pm', a) -> nc_ok s'.
Proof.
  intros Hs E. eapply (controller_poll_loop_ind nc_ok) in E as (s1 & Hs1 & Ha); [..|exact Hs].
  - destruct a as [a|]; [|by subst]. destruct Ha as (rest & _ & ->). by eapply nc_ok_same.
  - intros ? ? ? ? Hok E1. by destruct (on_peer_manager_ok _ _ _ _ Hok E1).
  - intros s2 r rest s3 Hok _ E1. by destruct (on_request_ok (s2 <| requests := rest |>) r s3) as [? _].
Qed.

Lemma nc_ok_swarm s e s' : nc_ok s -> on_swarm_event s e = Done s' -> nc_ok s'.
Proof. intros Hs E. destruct (on_swarm_event_spec s e Hs) as [[? _]|(s1 & E1 & _ & ?)]; [congruence|by outcome_eq]. Qed.

Lemma nc_ok_handler s pid conn e s' : nc_ok s -> on_connection_handler_event s pid conn e = Done s' -> nc_ok s'.
Proof.
  intros Hs E. destruct (on_connection_handler_event_spec s pid conn e Hs) as [[? _]|(s1 & E1 & _ & ?)];
    [congruence|by outcome_eq].
Qed.

Lemma controller_run_ok cf ps s rs acts : controller_run cf ps s rs acts -> nc_ok s.
Proof.
  induction 1 as [|s rs acts e s' _ IH E|s rs acts pid conn e s' _ IH E|s rs acts r _ IH|s rs acts pm s' pm' a _ IH E].
  - apply map_Forall_empty.
  - by eapply nc_ok_swarm.
  - by eapply nc_ok_handler.
  - by eapply nc_ok_same.
  - by eapply nc_ok_poll.
Qed.

(** The controller panics exactly in four cases, in every state it
    reaches: a connection of a connected peer is reported twice, a connection
    is closed that it does not know of a connected peer, a protocol is opened
    that it does not support, or all protocols are closed of a peer it does not
    know.  While instructions and commands name supported protocols, its poll
    returns. *)
Theorem controller_panics_exactly cf ps s rs acts :
  controller_run cf ps s rs acts ->
  (forall e, on_swarm_event s e = Panic <-> swarm_panics s e) /\
  (forall pid conn e, on_connection_handler_event s pid conn e = Panic <-> handler_panics s pid e) /\
  (forall pm, Forall (fun o => forall x, o = Some x -> pm_supported (nc_protocols s) x) pm ->
     Forall (req_supported (nc_protocols s)) (requests s) -> exists r, controller_poll pm s = Done r).
Proof.
  intros Hs%controller_run_ok. split; [|split].
  - intros e. destruct (on_swarm_event_spec s e Hs) as [[E Hp]|(s' & E & Hp & _)]; rewrite E; by split.
  - intros pid conn e. destruct (on_connection_handler_event_spec s pid conn e Hs) as [[E Hp]|(s' & E & Hp & _)];
      rewrite E; by split.
  - intros pm Hpm Hrq. destruct (controller_poll_loop_spec (S (S (length pm + length (requests s)))) pm s)
      as (s' & pm' & a & E & _); [done|lia|done..|]. by eexists.
Qed.

(** ** What goes wrong *)

Lemma handler_closes_all rid (h : PeerConnHandler (PeerId := PeerId)) :
  pending_events h = [] -> pending_one_shots h = ∅ ->
  exists h', handler_poll (on_behaviour_event rid HCloseAllProtocols h) =
    Done (h', Some (NotifyBehaviour HClosedAllProtocols)).
Proof.
  intros He Hp. cbn. unfold close_all.
  assert (forall l (h : PeerConnHandler (PeerId := PeerId)), pending_events h = [] -> pending_one_shots h = ∅ ->
    let h' := foldl (fun h '(pid, sp) => set_state pid sp PClosed h) h l in
    pending_events h' = [] /\ pending_one_shots h' = ∅) as Hfold.
  { induction l as [|[pid sp] l IH]; intros h0 H1 H2; [done|]. cbn. apply IH; unfold set_state; repeat (case_match; try done). }
  destruct (Hfold (map_to_list (stateful_protocols h)) h He Hp) as [He' Hp'].
  set (h1 := foldl _ h _) in *. clearbody h1. unfold handler_poll, fire_one_shots.
  change (pending_one_shots (push_event ?e h1)) with (pending_one_shots h1). rewrite Hp', map_to_list_empty. cbn.
  rewrite He'. by eexists.
Qed.

(** Rejecting an inbound connection brings the controller down.  It forgets
    the peer and tells the handler of the connection to close all protocols;
    the handler answers that it did, and the controller panics on the answer. *)
Theorem rejected_connection_panics (s : NC) pid conn conn' rid (h : PeerConnHandler (PeerId := PeerId)) :
  enabled_peers s !! pid = Some (PendingApprove conn) -> pending_actions s = [] ->
  pending_events h = [] -> pending_one_shots h = ∅ ->
  exists s1 h', controller_poll [Some (Reject pid conn')] s =
      Done (s1, [], Some (NotifyHandler pid conn' HCloseAllProtocols)) /\
    handler_poll (on_behaviour_event rid HCloseAllProtocols h) = Done (h', Some (NotifyBehaviour HClosedAllProtocols)) /\
    on_connection_handler_event s1 pid conn' HClosedAllProtocols = Panic.
Proof.
  intros Hp Ha He Ho. destruct (handler_closes_all rid h He Ho) as [h' Hh].
  eexists _, h'. split; [|split; [exact Hh|]].
  - unfold controller_poll. cbn [controller_poll_loop script length]. rewrite Ha. cbn [on_peer_manager]. rewrite Hp.
    outcome_cbn. unfold act at 1. cbn [pending_actions]. unfold remove_peer. cbn. rewrite Ha. reflexivity.
  - cbn. by rewrite lookup_delete_eq.
Qed.

(** A peer that opens two connections brings the controller down.  The
    second one is closed while the first waits for its approval; once the first
    is accepted, the controller panics when the closing of the second is
    reported. *)
Theorem second_connection_panics (s : NC) pid c1 c2 hf :
  enabled_peers s !! pid = None -> c1 <> c2 ->
  exists s1 s2 s3, on_swarm_event s (SConnectionEstablished pid c1) = Done s1 /\
    on_swarm_event s1 (SConnectionEstablished pid c2) = Done s2 /\
    pending_actions s2 = pending_actions s ++ [CloseConnection pid c2] /\
    on_peer_manager s2 (AcceptIncomingConnection pid c1) = Done (s3, false) /\
    on_swarm_event s3 (SConnectionClosed pid c2 hf) = Panic.
Proof.
  intros Hp Hne. cbn. unfold on_established. rewrite Hp. eexists _, _, _. split; [done|].
  unfold set_peer at 1. cbn. rewrite lookup_insert_eq. split; [done|]. split; [done|]. cbn. rewrite lookup_insert_eq.
  split; [done|]. unfold on_closed. cbn. rewrite lookup_insert_eq.
  assert (position c2 [c1] = None) as -> by (apply position_None; by intros ?%list_elem_of_singleton). done.
Qed.

(** A failed dial blocks the peer.  The controller passes the failure on
    but keeps waiting for the connection, so that later instructions to connect
    are ignored, and one-shot messages pile up without a new dial. *)
Theorem failed_dial_blocks_peer (s : NC) (d : PeerDestination (PeerId := PeerId) (Addr := Addr)) tasks asap hint tag m :
  let pid := dest_peer_id d in
  enabled_peers s !! pid = Some (PendingConnect tasks asap) ->
  exists s1, on_swarm_event s (SDialFailure (Some pid)) = Done s1 /\
    peers_calls s1 = peers_calls s ++ [DialFailure pid] /\
    on_peer_manager s1 (Connect d) = Done (s1, true) /\
    exists s2, on_request s1 (SendOneShotMessage pid hint tag m) = Done s2 /\
      pending_actions s2 = pending_actions s /\
      enabled_peers s2 !! pid =
        Some (PendingConnect (tasks ++ [{| os_protocol := tag; os_content := m |}]) asap).
Proof.
  intros pid Hp. eexists. split; [done|]. split; [done|]. cbn. change (dest_peer_id d) with pid. rewrite Hp.
  split; [done|]. unfold on_send_one_shot. cbn. rewrite Hp. eexists. split; [done|]. cbn. by rewrite lookup_insert_eq.
Qed.
End NetworkSafety.

(** ** The controller with its connections *)

Section NetworkSystem.
Context {PeerId Addr ConnId THandler : Type} `{Countable PeerId} `{Countable ConnId}.
Context (debug : bool).

Local Abbreviation NC := (NetworkController (PeerId := PeerId) (Addr := Addr) (ConnId := ConnId) (THandler := THandler)).
Local Abbreviation PMOut := (PeerManagerOut (PeerId := PeerId) (Addr := Addr) (ConnId := ConnId)).
Local Abbreviation Req := (NetworkControllerIn (PeerId := PeerId) (Addr := Addr)).
Local Abbreviation Act := (Action (PeerId := PeerId) (Addr := Addr) (ConnId := ConnId)).
Local Abbreviation Handler := (PeerConnHandler (PeerId := PeerId)).

(** The swarm delivers a notification to the connection of that peer. *)
Definition deliver (rid : Z) (a : option Act) (conns : gmap ConnId (PeerId * Handler)) : gmap ConnId (PeerId * Handler) :=
  match a with
  | Some (NotifyHandler pid conn ev) =>
    match conns !! conn with
    | Some (pid', h) => if decide (pid = pid') then <[conn := (pid', on_behaviour_event rid ev h)]> conns else conns
    | None => conns
    end
  | _ => conns
  end.

Definition report (s : NC) (pid : PeerId) (conn : ConnId) (o : option HandlerEvent) : outcome NC :=
  match o with Some (NotifyBehaviour e) => on_connection_handler_event s pid conn e | _ => Done s end.

(** The controller and the handlers of its connections, run by the swarm; with
    the commands of the protocol handlers and the actions returned. *)
Inductive system_run (cf : PeerConnHandlerConf) (ps : gmap Z (ProtocolConfig * THandler)) :
    NC -> gmap ConnId (PeerId * Handler) -> list Req -> list Act -> Prop :=
| sys_new : system_run cf ps (controller_new cf ps) ∅ [] []
| sys_established s conns rs acts pid conn now rids dl h s' : system_run cf ps s conns rs acts ->
    conns !! conn = None ->
    h = handle_established_inbound_connection now rids dl s pid \/
    h = handle_established_outbound_connection now rids dl s pid ->
    on_swarm_event s (SConnectionEstablished pid conn) = Done s' ->
    system_run cf ps s' (<[conn := (pid, h)]> conns) rs acts
| sys_closed s conns rs acts pid conn h s' : system_run cf ps s conns rs acts -> conns !! conn = Some (pid, h) ->
    on_swarm_event s (SConnectionClosed pid conn (fault h)) = Done s' ->
    system_run cf ps s' (delete conn conns) rs acts
| sys_dial_failure s conns rs acts pid s' : system_run cf ps s conns rs acts ->
    on_swarm_event s (SDialFailure pid) = Done s' -> system_run cf ps s' conns rs acts
| sys_request s conns rs acts r : system_run cf ps s conns rs acts ->
    system_run cf ps (s <| requests ::= fun q => q ++ [r] |>) conns (rs ++ [r]) acts
| sys_poll s conns rs acts pm s' pm' a rid : system_run cf ps s conns rs acts ->
    controller_poll pm s = Done (s', pm', a) ->
    system_run cf ps s' (deliver rid a conns) rs (acts ++ option_list a)
| sys_event s conns rs acts pid conn h e : system_run cf ps s conns rs acts -> conns !! conn = Some (pid, h) ->
    system_run cf ps s (<[conn := (pid, on_connection_event e h)]> conns) rs acts
| sys_send s conns rs acts pid conn h c m : system_run cf ps s conns rs acts -> conns !! conn = Some (pid, h) ->
    system_run cf ps s (<[conn := (pid, handler_input debug (HSend c m) h)]> conns) rs acts
| sys_handler_poll s conns rs acts pid conn h h' o s' : system_run cf ps s conns rs acts ->
    conns !! conn = Some (pid, h) -> handler_poll h = Done (h', o) -> report s pid conn o = Done s' ->
    system_run cf ps s' (<[conn := (pid, h')]> conns) rs acts.

Definition asked_for (rs : list Req) (pid : PeerId) (p : Z) : Prop := exists hs, EnableProtocol p pid hs ∈ rs.

Definition act_asked (rs : list Req) (a : Act) : Prop :=
  match a with
  | NotifyHandler pid _ (HOpen p _) => asked_for rs pid p
  | GenerateEvent (ProtocolEnabled pid p _) => asked_for rs pid p
  | _ => True
  end.

(** An event that enables a protocol goes to the handler of that protocol, and
    the protocol was asked for. *)
Definition call_asked (ps : gmap Z (ProtocolConfig * THandler)) (rs : list Req) (c : THandler * ProtocolEvent) : Prop :=
  match c.2 with
  | EEnabled pid _ _ _ => exists p, snd <$> ps !! p = Some c.1 /\ asked_for rs pid p
  | _ => True
  end.

Record asked_ok (ps : gmap Z (ProtocolConfig * THandler)) (rs : list Req) (s : NC) : Prop := {
  ao_ok : nc_ok s;
  ao_protocols : nc_protocols s = ps;
  ao_acts : Forall (act_asked rs) (pending_actions s);
  ao_calls : Forall (call_asked ps rs) (handler_calls s);
  ao_requests : Forall (fun r => r ∈ rs) (requests s);
}.

Lemma asked_for_mono rs r pid p : asked_for rs pid p -> asked_for (rs ++ [r]) pid p.
Proof. intros (hs & Hin). exists hs. set_solver. Qed.

Lemma act_asked_mono rs r a : act_asked rs a -> act_asked (rs ++ [r]) a.
Proof. destruct a as [| ? ? [] | |[]]; cbn; auto using asked_for_mono. Qed.

Lemma call_asked_mono ps rs r c : call_asked ps rs c -> call_asked ps (rs ++ [r]) c.
Proof. destruct c as [th []]; cbn; try done. intros (p & ? & ?). exists p. auto using asked_for_mono. Qed.

(** What an operation adds: actions and calls that were asked for. *)
Definition adds (ps : gmap Z (ProtocolConfig * THandler)) (rs : list Req) (s s' : NC) : Prop :=
  requests s' = requests s /\ nc_protocols s' = nc_protocols s /\
  (exists acts, pending_actions s' = pending_actions s ++ acts /\ Forall (act_asked rs) acts) /\
  (exists calls, handler_calls s' = handler_calls s ++ calls /\ Forall (call_asked ps rs) calls).

#[local] Instance adds_preorder ps rs : PreOrder (adds ps rs).
Proof.
  split.
  - intros s. split; [done|]. split; [done|]. split; exists []; by rewrite app_nil_r.
  - intros s1 s2 s3 (R1 & N1 & (a1 & A1 & F1) & (c1 & C1 & G1)) (R2 & N2 & (a2 & A2 & F2) & (c2 & C2 & G2)).
    split; [congruence|]. split; [congruence|]. split.
    + exists (a1 ++ a2). rewrite A2, A1, app_assoc. split; [done|]. by apply Forall_app.
    + exists (c1 ++ c2). rewrite C2, C1, app_assoc. split; [done|]. by apply Forall_app.
Qed.

Section Adds.
Context (ps : gmap Z (ProtocolConfig * THandler)) (rs : list Req).

Lemma adds_act a s s' : act_asked rs a -> adds ps rs s s' -> adds ps rs s (act a s').
Proof.
  intros Ha Hs. etrans; [exact Hs|]. split; [done|]. split; [done|].
  split; [exists [a]; by rewrite Forall_singleton|exists []; by rewrite app_nil_r].
Qed.

Lemma adds_tell_peers i s s' : adds ps rs s s' -> adds ps rs s (tell_peers i s').
Proof. intros Hs. etrans; [exact Hs|]. split; [done|]. split; [done|]. split; exists []; by rewrite app_nil_r. Qed.

Lemma adds_tell_handler th e s s' : call_asked ps rs (th, e) -> adds ps rs s s' -> adds ps rs s (tell_handler th e s').
Proof.
  intros Ha Hs. etrans; [exact Hs|]. split; [done|]. split; [done|].
  split; [exists []; by rewrite app_nil_r|exists [(th, e)]; by rewrite Forall_singleton].
Qed.

Lemma adds_set_peer pid cp s s' : adds ps rs s s' -> adds ps rs s (set_peer pid cp s').
Proof. intros Hs. etrans; [exact Hs|]. split; [done|]. split; [done|]. split; exists []; by rewrite app_nil_r. Qed.

Lemma adds_remove_peer pid s s' : adds ps rs s s' -> adds ps rs s (remove_peer pid s').
Proof. intros Hs. etrans; [exact Hs|]. split; [done|]. split; [done|]. split; exists []; by rewrite app_nil_r. Qed.

Lemma adds_foldl {A} (f : NC -> A -> NC) l s s' :
  (forall s x, adds ps rs s (f s x)) -> adds ps rs s s' -> adds ps rs s (foldl f s' l).
Proof.
  intros Hf. revert s'. induction l as [|x l IH]; intros s' Hs; cbn; [done|]. apply IH. etrans; [exact Hs|apply Hf].
Qed.

Local Ltac adds :=
  repeat first
    [ reflexivity
    | apply adds_act; [by first [exact I | eauto]|]
    | apply adds_tell_peers | apply adds_set_peer | apply adds_remove_peer
    | apply adds_tell_handler; [by first [exact I | eauto]|]
    | apply adds_foldl; [intros; repeat case_match|] ].

Lemma adds_swarm s e s' : on_swarm_event s e = Done s' -> adds ps rs s s'.
Proof.
  destruct e as [pid conn|pid conn hf|[pid|]|]; cbn; [unfold on_established|unfold on_closed|..]; intros E.
  - destruct (enabled_peers s !! pid) as [[ids eps| | |]|]; [destruct (decide _)|..]; simplify_eq; [adds..| |adds|adds].
    unfold connected_outbound, emit. adds.
  - destruct (enabled_peers s !! pid) as [[ids eps| | |]|]; simplify_eq; try reflexivity.
    + apply bind_Done in E as (ix & _ & [= <-]). unfold lost, emit. adds. destruct (delete ix ids); adds.
    + unfold lost, emit. adds.
  - simplify_eq. adds.
  - simplify_eq. adds.
  - simplify_eq. adds.
Qed.

Lemma adds_handler_event s pid conn e s' :
  nc_ok s -> nc_protocols s = ps ->
  (forall tag c hs, e = HOpened tag c hs -> asked_for rs pid (tag_protocol_id tag)) ->
  on_connection_handler_event s pid conn e = Done s' -> adds ps rs s s'.
Proof.
  intros Hok Hps Ha E. destruct e as [tag sink hs|p|p| |tag hs|p|tag m|tag m]; cbn in E;
    try (injection E as <-; unfold on_protocol_closed; destruct (enabled_peers s !! pid) as [[]|]; solve [adds]).
  - injection E as <-. unfold on_opened. destruct (enabled_peers s !! pid) as [[ids eps| | |]|] eqn:Hp; try reflexivity.
    destruct (eps !! tag_protocol_id tag) as [[[] th]|] eqn:He; try reflexivity. unfold emit.
    apply adds_act; [by eapply Ha|]. apply adds_set_peer.
    apply adds_tell_handler; [|adds]. exists (tag_protocol_id tag). split; [|by eauto].
    destruct (nc_ok_peer _ _ _ Hok Hp) as (_ & _ & Hm). rewrite <- Hps. exact (proj1 (Hm _ _ He)).
  - destruct (enabled_peers s !! pid); [|done]. injection E as <-. adds.
  - unfold on_opened_by_peer in E.
    destruct (enabled_peers s !! pid) as [[ids eps| | |]|]; try (injection E as <-; reflexivity).
    apply bind_Done in E as ([cfg th] & _ & E). destruct (eps !! _); injection E as <-; unfold emit; adds.
  - injection E as <-. unfold on_message. destruct (enabled_peers s !! pid) as [[ids eps| | |]|]; try reflexivity.
    destruct (eps !! _) as [[]|]; adds.
  - destruct (nc_protocols s !! _) as [[]|]; injection E as <-; adds.
Qed.

Lemma adds_peer_manager s o s' again : on_peer_manager s o = Done (s', again) -> adds ps rs s s'.
Proof.
  intros E. destruct o as [d|pid|pid conn|pid conn|p pid|pid r]; cbn in E.
  - destruct (enabled_peers s !! _); injection E as <- <-; adds.
  - destruct (enabled_peers s !! _) as [[ids eps| | |]|]; simplify_eq; try reflexivity.
    apply bind_Done in E as (c & _ & [= <- <-]). unfold emit. adds.
  - destruct (enabled_peers s !! _) as [[]|]; injection E as <- <-; unfold emit; adds.
  - destruct (enabled_peers s !! _) as [[]|]; injection E as <- <-; adds.
  - apply bind_Done in E as (s1 & E & [= <- <-]). unfold on_start_protocol in E.
    destruct (enabled_peers s !! _) as [[ids eps| | |]|]; simplify_eq; try reflexivity.
    apply bind_Done in E as ([cfg th] & _ & E). destruct (eps !! p); injection E as <-; unfold emit; adds.
  - injection E as <- <-. unfold emit. adds.
Qed.

Lemma adds_request s r s' : r ∈ rs -> on_request s r = Done s' -> adds ps rs s s'.
Proof.
  intros Hr E. destruct r as [p pid hs|pid l|pid hint tag m|pid]; cbn in E.
  - assert (asked_for rs pid p) as Ha by (by exists hs). unfold on_enable_protocol in E.
    destruct (enabled_peers s !! _) as [[ids eps| | |]|]; simplify_eq; try reflexivity.
    apply bind_Done in E as ([cfg th] & _ & E).
    destruct (eps !! p) as [[[] th']|]; simplify_eq; try reflexivity; apply bind_Done in E as (c & _ & [= <-]); unfold emit; adds.
  - injection E as <-. adds.
  - unfold on_send_one_shot in E. destruct (enabled_peers s !! _) as [[ids eps| | |]|]; simplify_eq; try solve [adds].
    apply bind_Done in E as (c & _ & [= <-]). adds.
  - injection E as <-. adds.
Qed.

Lemma asked_ok_adds s s' : asked_ok ps rs s -> nc_ok s' -> adds ps rs s s' -> asked_ok ps rs s'.
Proof.
  intros [H1 H2 H3 H4 H5] Hok (Hr & Hn & (a & Ha & Fa) & (c & Hc & Fc)). split.
  - done.
  - congruence.
  - rewrite Ha. by apply Forall_app.
  - rewrite Hc. by apply Forall_app.
  - by rewrite Hr.
Qed.
End Adds.

(** New handlers have all protocols closed. *)
Lemma add_protocol_closed (ps : gmap Z StatefulProtocol * gmap Z OneShotProtocol) (e : Z * (ProtocolConfig * THandler)) :
  map_Forall (fun _ sp => sp_state sp = Some PClosed) ps.1 ->
  map_Forall (fun _ sp => sp_state sp = Some PClosed) (add_protocol ps e).1.
Proof.
  destruct ps as [stateful one_shot], e as [p [[versions|os] th]]; cbn; [|done].
  generalize versions at 2. intros all Hst. revert stateful Hst.
  induction all as [|[v spec] all IH]; intros stateful Hst; cbn; [done|]. apply IH. by apply map_Forall_insert_2.
Qed.

Lemma init_conn_handler_fresh now rids dl (s : NC) pid msgs asap : fresh_handler (init_conn_handler now rids dl s pid msgs asap).
Proof.
  unfold init_conn_handler.
  assert (forall l ps, map_Forall (fun _ sp => sp_state sp = Some PClosed) ps.1 ->
    map_Forall (fun _ sp => sp_state sp = Some PClosed) (foldl (add_protocol (THandler := THandler)) ps l).1) as Hl.
  { induction l as [|e l IH]; intros ps Hps; cbn; [done|]. by apply IH, add_protocol_closed. }
  specialize (Hl (map_to_list (nc_protocols s)) (∅, ∅) (map_Forall_empty _)).
  destruct (foldl add_protocol _ _) as [stateful one_shot]. split; [|done]. intros p sp Hsp. exact (Hl _ _ Hsp).
Qed.

Definition conn_asked (rs : list Req) (pid : PeerId) (h : Handler) : Prop :=
  exists known outs answers, handler_inv debug known (asked_for rs pid) outs answers h.

Lemma fresh_asked rs pid h : fresh_handler h -> conn_asked rs pid h.
Proof.
  intros Hf. pose proof (handler_run_inv _ _ _ _ _ (hrun_start debug h Hf)) as Hi. eexists _, _, _.
  eapply handler_inv_mono; [|exact Hi]. intros p (rid & hs & Hin). by apply elem_of_nil in Hin.
Qed.

Lemma conn_asked_mono rs r pid h : conn_asked rs pid h -> conn_asked (rs ++ [r]) pid h.
Proof.
  intros (k & o & a & Hi). exists k, o, a. eapply handler_inv_mono; [|exact Hi]. intros p. apply asked_for_mono.
Qed.

Lemma conn_asked_input rs pid i h :
  conn_asked rs pid h -> (forall rid p hs, i = HCommand rid (HOpen p hs) -> asked_for rs pid p) ->
  conn_asked rs pid (handler_input debug i h).
Proof. intros (k & o & a & Hi) Ha. eexists k, o, _. by apply handler_input_inv. Qed.

Record system_inv ps (s : NC) (conns : gmap ConnId (PeerId * Handler)) (rs : list Req) (acts : list Act) : Prop := {
  si_nc : asked_ok ps rs s;
  si_acts : Forall (act_asked rs) acts;
  si_conns : map_Forall (fun _ '(pid, h) => conn_asked rs pid h) conns;
}.

Lemma deliver_asked rs rid a conns :
  map_Forall (fun _ '(pid, h) => conn_asked rs pid h) conns -> Forall (act_asked rs) (option_list a) ->
  map_Forall (fun _ '(pid, h) => conn_asked rs pid h) (deliver rid a conns).
Proof.
  intros Hc Ha. destruct a as [[| pid conn ev| |]|]; cbn; try done.
  destruct (conns !! conn) as [[pid' h]|] eqn:E; [|done]. destruct (decide (pid = pid')) as [<-|]; [|done].
  apply map_Forall_insert_2; [|done]. apply (conn_asked_input _ _ (HCommand rid ev)); [exact (Hc _ _ E)|].
  intros rid' p hs [= _ ->]. exact (proj1 (Forall_singleton _ _) Ha).
Qed.

Lemma asked_ok_swarm ps rs s e s' : asked_ok ps rs s -> on_swarm_event s e = Done s' -> asked_ok ps rs s'.
Proof. intros Hs E. eapply asked_ok_adds; [exact Hs|by eapply nc_ok_swarm; [apply Hs|]|by eapply adds_swarm]. Qed.

Lemma asked_ok_poll ps rs pm s s' pm' a :
  asked_ok ps rs s -> controller_poll pm s = Done (s', pm', a) ->
  asked_ok ps rs s' /\ Forall (act_asked rs) (option_list a).
Proof.
  intros Hs E. eapply (controller_poll_loop_ind (asked_ok ps rs)) in E as (s1 & [H1 H2 H3 H4 H5] & Ha); [..|exact Hs].
  - destruct a as [a|]; [|by subst]. destruct Ha as (rest & Hp & ->). rewrite Hp in H3. apply Forall_cons in H3 as [Ha H3].
    split; [|by constructor]. split; try done.
  - intros s2 o s3 again Hi E1. eapply asked_ok_adds; [exact Hi| |by eapply adds_peer_manager].
    by destruct (on_peer_manager_ok _ _ _ _ (ao_ok _ _ _ Hi) E1).
  - intros s2 r rest s3 [I1 I2 I3 I4 I5] Hr E1. rewrite Hr in I5. apply Forall_cons in I5 as [Hin Hrest].
    eapply asked_ok_adds; [| |by eapply adds_request]; [by split|].
    by destruct (on_request_ok (s2 <| requests := rest |>) r s3) as [? _].
Qed.

Lemma system_run_inv cf ps s conns rs acts : system_run cf ps s conns rs acts -> system_inv ps s conns rs acts.
Proof.
  induction 1 as [|s conns rs acts pid conn now rids dl h s' _ [Hn Ha Hc] Hf Hh E|s conns rs acts pid conn h s' _ [Hn Ha Hc] Hf E
    |s conns rs acts pid s' _ [Hn Ha Hc] E|s conns rs acts r _ [Hn Ha Hc]|s conns rs acts pm s' pm' a rid _ [Hn Ha Hc] E
    |s conns rs acts pid conn h e _ [Hn Ha Hc] Hf|s conns rs acts pid conn h c m _ [Hn Ha Hc] Hf
    |s conns rs acts pid conn h h' o s' _ [Hn Ha Hc] Hf Hp E].
  - split; [split; try done; apply map_Forall_empty|done|apply map_Forall_empty].
  - split; [|done|].
    + by eapply asked_ok_swarm.
    + apply map_Forall_insert_2; [|done]. apply fresh_asked.
      destruct Hh as [->| ->]; [apply init_conn_handler_fresh|]. unfold handle_established_outbound_connection.
      destruct (enabled_peers s !! pid) as [[]|]; apply init_conn_handler_fresh.
  - split; [|done|by apply map_Forall_delete]. by eapply asked_ok_swarm.
  - split; [|done|done]. by eapply asked_ok_swarm.
  - destruct Hn as [H1 H2 H3 H4 H5]. split; [split; try done|..]; cbn.
    + eapply Forall_impl; [exact H3|]. intros. by apply act_asked_mono.
    + eapply Forall_impl; [exact H4|]. intros. by apply call_asked_mono.
    + apply Forall_app. split; [eapply Forall_impl; [exact H5|]; set_solver|apply Forall_singleton; set_solver].
    + eapply Forall_impl; [exact Ha|]. intros. by apply act_asked_mono.
    + intros conn [pid h] Hh. apply conn_asked_mono. exact (Hc _ _ Hh).
  - destruct (asked_ok_poll _ _ _ _ _ _ _ Hn E) as [Hn' Ha']. split; [done|by apply Forall_app|by apply deliver_asked].
  - split; [done..|]. apply map_Forall_insert_2; [|done]. apply (conn_asked_input _ _ (HEvent e)); [exact (Hc _ _ Hf)|by intros ??? [=]].
  - split; [done..|]. apply map_Forall_insert_2; [|done]. apply (conn_asked_input _ _ (HSend c m)); [exact (Hc _ _ Hf)|by intros ??? [=]].
  - destruct (Hc _ _ Hf) as (k & outs & answers & Hi).
    destruct (handler_poll_inv _ _ _ _ _ _ Hi) as (h1 & o1 & Hp1 & Hi1). outcome_eq.
    split; [|done|apply map_Forall_insert_2; [by eexists _, _, _|done]].
    destruct o as [[|e|]|]; cbn in E; try (by injection E as <-).
    eapply asked_ok_adds; [exact Hn| |eapply adds_handler_event; [..|exact E]; [apply Hn..|]].
    + by eapply nc_ok_handler; [apply Hn|].
    + intros tag c hs ->. apply (hi_opened _ _ _ _ _ _ Hi1 tag c hs).
      apply elem_of_app. left. apply elem_of_app. right. left.
Qed.

(** C19: in the system of the controller and its connections, whatever the
    swarm, the peers and the peer manager do, a protocol is enabled with a peer
    only if its handler asked the controller to enable it with that peer: this
    holds of the events given to protocol handlers, each of which goes to the
    handler of the protocol, and of the events returned to the swarm. *)
Theorem enabled_only_if_asked cf ps s conns rs acts :
  system_run cf ps s conns rs acts ->
  (forall th pid ver sink hs, (th, EEnabled pid ver sink hs) ∈ handler_calls s ->
     exists p, snd <$> ps !! p = Some th /\ exists hs', EnableProtocol p pid hs' ∈ rs) /\
  (forall pid p ver, GenerateEvent (ProtocolEnabled pid p ver) ∈ acts -> exists hs', EnableProtocol p pid hs' ∈ rs).
Proof.
  intros [[_ _ _ Hcalls _] Hacts _]%system_run_inv. rewrite Forall_forall in Hcalls. rewrite Forall_forall in Hacts. split.
  - intros th pid ver sink hs Hin. exact (Hcalls _ Hin).
  - intros pid p ver Hin. exact (Hacts _ Hin).
Qed.
End NetworkSystem.

(** ** A controller with one protocol *)

Module NetworkSample.
Definition spec : StatefulProtocolSpec := {| max_message_size := 100; approve_required := true |}.
Definition conf : PeerConnHandlerConf :=
  {| async_msg_buffer_size := 1; sync_msg_buffer_size := 1; open_timeout := 10; initial_keep_alive := 10 |}.
Definition protos : gmap Z (ProtocolConfig * unit) := {[0%Z := (Stateful [(1%Z, spec)], ())]}.
Abbreviation C := (NetworkController (PeerId := nat) (Addr := nat) (ConnId := nat) (THandler := unit)).
Definition nc0 : C := controller_new conf protos.

(** Peer 5 connected by connection 0 and waits for its approval. *)
Definition established : outcome C := on_swarm_event nc0 (SConnectionEstablished 5 0).
Definition at5 (s : C) : option (ConnectedPeer (ConnId := nat) (THandler := unit)) := enabled_peers s !! 5.

Definition known6 (s : C) : bool := match enabled_peers s !! 6 with Some _ => true | None => false end.

Lemma established_done : exists s, established = Done s /\ at5 s = Some (PendingApprove 0) /\ pending_actions s = [].
Proof.
  destruct (is_done_exists established ltac:(vm_compute; reflexivity)) as [s E]. exists s. split; [exact E|].
  pose proof (fmap_Done at5 _ _ (Some (PendingApprove 0)) E ltac:(vm_compute; reflexivity)) as H1.
  pose proof (fmap_Done pending_actions _ _ [] E ltac:(vm_compute; reflexivity)) as H2. done.
Qed.

Lemma controller_panics_exactly_witness : exists s : C,
  enabled_peers s !! 5 = Some (PendingApprove 0) /\
  on_connection_handler_event s 6 1 HClosedAllProtocols = Panic.
Proof.
  destruct established_done as (s & E & Hp & _). exists s. split; [exact Hp|].
  apply (proj1 (proj2 (controller_panics_exactly conf protos s [] []
    (crun_swarm conf protos nc0 [] [] _ s (crun_new conf protos) E))) 6 1 HClosedAllProtocols).
  apply eq_None_not_Some. intros [x Hx].
  pose proof (fmap_Done known6 _ _ false E ltac:(vm_compute; reflexivity)) as H6. unfold known6 in H6. by rewrite Hx in H6.
Defined.

Lemma rejected_connection_panics_witness : exists s s1 : C, established = Done s /\
  controller_poll [Some (Reject 5 0)] s = Done (s1, [], Some (NotifyHandler 5 0 HCloseAllProtocols)) /\
  on_connection_handler_event s1 5 0 HClosedAllProtocols = Panic.
Proof.
  destruct established_done as (s & E & Hp & Ha). exists s.
  destruct (rejected_connection_panics s 5 0 0 0 HandlerSample.h0 Hp Ha eq_refl eq_refl) as (s1 & h' & E1 & _ & E2).
  exists s1. done.
Defined.

Lemma second_connection_panics_witness : exists s1 s2 s3 : C,
  on_swarm_event nc0 (SConnectionEstablished 5 0) = Done s1 /\ on_swarm_event s1 (SConnectionEstablished 5 1) = Done s2 /\
  on_swarm_event s3 (SConnectionClosed 5 1 None) = Panic.
Proof.
  destruct (second_connection_panics nc0 5 0 1 None eq_refl ltac:(discriminate)) as (s1 & s2 & s3 & E1 & E2 & _ & _ & E4).
  exists s1, s2, s3. done.
Defined.

(** Scripts of the system: one operation of the swarm each. *)
Inductive sys_op :=
| OEstablished (pid conn : nat)
| ORequest (r : NetworkControllerIn (PeerId := nat) (Addr := nat))
| OPoll (pm : list (option (PeerManagerOut (PeerId := nat) (Addr := nat) (ConnId := nat))))
| OEvent (conn : nat) (e : ConnectionEvent)
| OHandlerPoll (conn : nat).

Record System := {
  sy_nc : C;
  sy_conns : gmap nat (nat * HandlerSample.H);
  sy_reqs : list (NetworkControllerIn (PeerId := nat) (Addr := nat));
  sy_acts : list (Action (PeerId := nat) (Addr := nat) (ConnId := nat));
}.

Definition sys0 : System := {| sy_nc := nc0; sy_conns := ∅; sy_reqs := []; sy_acts := [] |}.

Definition sys_exec (y : System) (o : sys_op) : outcome System :=
  let '(Build_System s conns rs acts) := y in
  match o with
  | OEstablished pid conn =>
    match conns !! conn with
    | Some _ => Panic
    | None =>
      s' ← on_swarm_event s (SConnectionEstablished pid conn);
      Done {| sy_nc := s'; sy_conns := <[conn := (pid, handle_established_inbound_connection 0 [] [] s pid)]> conns; sy_reqs := rs; sy_acts := acts |}
    end
  | ORequest r => Done {| sy_nc := s <| requests ::= fun q => q ++ [r] |>; sy_conns := conns; sy_reqs := rs ++ [r]; sy_acts := acts |}
  | OPoll pm =>
    '(s', _, a) ← controller_poll pm s;
    Done {| sy_nc := s'; sy_conns := deliver 0 a conns; sy_reqs := rs; sy_acts := acts ++ option_list a |}
  | OEvent conn e =>
    '(pid, h) ← unwrap (conns !! conn);
    Done {| sy_nc := s; sy_conns := <[conn := (pid, on_connection_event e h)]> conns; sy_reqs := rs; sy_acts := acts |}
  | OHandlerPoll conn =>
    '(pid, h) ← unwrap (conns !! conn);
    '(h', o) ← handler_poll h;
    s' ← report s pid conn o;
    Done {| sy_nc := s'; sy_conns := <[conn := (pid, h')]> conns; sy_reqs := rs; sy_acts := acts |}
  end.

Definition sys_reached (y : System) : Prop := system_run true conf protos (sy_nc y) (sy_conns y) (sy_reqs y) (sy_acts y).

Lemma sys_exec_run y o y' : sys_reached y -> sys_exec y o = Done y' -> sys_reached y'.
Proof.
  destruct y as [s conns rs acts]. unfold sys_reached. cbn. intros Hr E. destruct o as [pid conn|r|pm|conn e|conn]; cbn in E.
  - destruct (conns !! conn) eqn:Hc; [done|]. apply bind_Done in E as (s' & Hs & [= <-]).
    eapply sys_established; [exact Hr|exact Hc|by left|exact Hs].
  - injection E as <-. exact (sys_request true conf protos s conns rs acts r Hr).
  - apply bind_Done in E as ([[s' pm'] a] & Hp & [= <-]). exact (sys_poll true conf protos s conns rs acts pm s' pm' a 0 Hr Hp).
  - apply bind_Done in E as ([pid h] & Hc%unwrap_Done & [= <-]). exact (sys_event true conf protos s conns rs acts pid conn h e Hr Hc).
  - apply bind_Done in E as ([pid h] & Hc%unwrap_Done & E). apply bind_Done in E as ([h' o] & Hp & E).
    apply bind_Done in E as (s' & Hs & [= <-]). exact (sys_handler_poll true conf protos s conns rs acts pid conn h h' o s' Hr Hc Hp Hs).
Qed.

(** Peer 5 connects and is accepted; the handler of protocol 0 asks to enable
    it; both substreams are negotiated, and the connection reports it. *)
Definition enabling : list sys_op :=
  [OEstablished 5 0; OPoll [Some (AcceptIncomingConnection 5 0)]; ORequest (EnableProtocol 0 5 {[1%Z := Some [8%Z]]}); OPoll []; OPoll [];
   OHandlerPoll 0; OEvent 0 (FullyNegotiatedOutbound HandlerSample.up_out HandlerSample.tag);
   OEvent 0 (FullyNegotiatedInbound HandlerSample.up_in); OHandlerPoll 0; OPoll []; OPoll []].

Lemma sys_run_reached ops y y' : sys_reached y -> foldO sys_exec ops y = Done y' -> sys_reached y'.
Proof. intros Hy E. eapply (foldO_inv sys_reached); [|exact Hy|exact E]. intros z o z' _. apply sys_exec_run. Qed.

Lemma enabled_only_if_asked_witness : exists y : System,
  foldO sys_exec enabling sys0 = Done y /\ (tt, EEnabled 5 1%Z 0 (Some [9%Z])) ∈ handler_calls (sy_nc y) /\
  GenerateEvent (ProtocolEnabled 5 0%Z 1%Z) ∈ sy_acts y /\ exists hs', EnableProtocol 0%Z 5 hs' ∈ sy_reqs y.
Proof.
  destruct (is_done_exists (foldO sys_exec enabling sys0) ltac:(vm_compute; reflexivity)) as [y E]. exists y. split; [exact E|].
  pose proof (fmap_Done (fun y => handler_calls (sy_nc y)) _ _ _ E ltac:(vm_compute; reflexivity)) as Hcalls. cbn beta in Hcalls.
  pose proof (fmap_Done (fun y => last (sy_acts y)) _ _ _ E ltac:(vm_compute; reflexivity)) as Hacts. cbn beta in Hacts.
  destruct (enabled_only_if_asked true conf protos (sy_nc y) (sy_conns y) (sy_reqs y) (sy_acts y)) as [Hc Ha];
    [exact (sys_run_reached enabling sys0 y (sys_new true conf protos) E)|].
  assert ((tt, EEnabled 5 1%Z 0 (Some [9%Z])) ∈ handler_calls (sy_nc y)) as Hin by (rewrite Hcalls; left).
  assert (GenerateEvent (ProtocolEnabled 5 0%Z 1%Z) ∈ sy_acts y) as Hact
    by (apply last_Some in Hacts as [l ->]; apply elem_of_app; right; left).
  split; [exact Hin|]. split; [exact Hact|]. destruct (Hc _ _ _ _ _ Hin) as (p & _ & _). exact (Ha _ _ _ Hact).
Defined.
End NetworkSample.
