(* ===== verification/ProtocolHandler.v ===== *)
(** * Protocol handlers

    Model of [spectrum-network/src/protocol_handler.rs] and of the discovery
    protocol ([protocol_handler/discovery.rs] and its messages).  A protocol
    handler stands between a behaviour and the network controller: it polls the
    behaviour, encodes what it wants to send, and decodes what arrives.

    Behaviours are a class, [ProtocolBehaviour]; the CBOR codec is a class,
    [Codec].  The requests made to the controller and the messages put into
    sinks are recorded. *)

From S2P Require Import Prelude PeerManager PeerSafety Substream ConnHandler NetworkController.

(** ** Outputs of behaviours *)

Section Outputs.
Context {PeerId Addr : Type}.

Inductive NetworkAction (Hs M : Type) :=
| AEnablePeer (peer_id : PeerId) (handshakes : list (Z * option Hs))
| AUpdatePeerProtocols (peer : PeerId) (protocols : list Z)
| ASendOneShotMessage (peer : PeerId) (addr_hint : option Addr) (use_version : Z) (message : M)
| ABanPeer (peer : PeerId).

Inductive ProtocolBehaviourOut (Hs M : Type) :=
| Send (peer_id : PeerId) (message : M)
| ANetworkAction (action : NetworkAction Hs M).

#[global] Arguments AEnablePeer {Hs M}.
#[global] Arguments AUpdatePeerProtocols {Hs M}.
#[global] Arguments ASendOneShotMessage {Hs M}.
#[global] Arguments ABanPeer {Hs M}.
#[global] Arguments Send {Hs M}.
#[global] Arguments ANetworkAction {Hs M}.

(** [Bifunctor::bimap] *)
Definition bimap {Hs M C D} (left : Hs -> C) (right : M -> D) (o : ProtocolBehaviourOut Hs M) : ProtocolBehaviourOut C D :=
  match o with
  | Send peer_id message => Send peer_id (right message)
  | ANetworkAction na => ANetworkAction (
    match na with
    | AEnablePeer peer_id handshakes => AEnablePeer peer_id ((fun e : Z * option Hs => (e.1, left <$> e.2)) <$> handshakes)
    | AUpdatePeerProtocols peer protocols => AUpdatePeerProtocols peer protocols
    | ASendOneShotMessage peer addr_hint use_version message =>
      ASendOneShotMessage peer addr_hint use_version (right message)
    | ABanPeer peer => ABanPeer peer
    end)
  end.
End Outputs.

Arguments NetworkAction {PeerId Addr} Hs M.
Arguments ProtocolBehaviourOut {PeerId Addr} Hs M.

(** [codec.rs], over [ciborium]; encoding into memory does not fail. *)
Class Codec (T : Type) := { encode : T -> list Z; decode : list Z -> option T }.

(** What is read back is what was written. *)
Class CodecLaws (T : Type) `{Codec T} := decode_encode : forall x : T, decode (encode x) = Some x.

(** [versioning.rs] *)
Class Versioned (T : Type) := version : T -> Z.

#[export] Instance either_versioned {L R : Type} `{Versioned L} `{Versioned R} : Versioned (L + R) :=
  fun x => match x with inl l => version l | inr r => version r end.

(** The answer of [poll]; the stream of a behaviour may end. *)
Inductive BehaviourPoll (O : Type) := BPending | BReady (out : O) | BEnd.
Arguments BPending {O}.
Arguments BReady {O}.
Arguments BEnd {O}.

(** [ProtocolBehaviour]; [Env] is what the environment decides about a poll. *)
Class ProtocolBehaviour (PeerId Addr B Hs M Env : Type) := {
  inject_peer_connected : B -> PeerId -> B;
  inject_message : B -> PeerId -> M -> B;
  inject_protocol_requested : B -> PeerId -> option Hs -> B;
  inject_protocol_requested_locally : B -> PeerId -> B;
  inject_protocol_enabled : B -> PeerId -> option Hs -> B;
  inject_protocol_disabled : B -> PeerId -> B;
  behaviour_poll : Env -> B -> B * BehaviourPoll (ProtocolBehaviourOut (PeerId := PeerId) (Addr := Addr) Hs M);
}.

(** ** The handler *)

Section ProtocolHandler.
Context {PeerId Addr B Hs M Env : Type} `{Countable PeerId}.
Context `{!ProtocolBehaviour PeerId Addr B Hs M Env}.
Context `{!Codec Hs} `{!Codec M} `{!Versioned Hs} `{!Versioned M}.

Local Abbreviation Event := (ProtocolEvent (PeerId := PeerId)).
Local Abbreviation Request := (NetworkControllerIn (PeerId := PeerId) (Addr := Addr)).
Local Abbreviation Out := (ProtocolBehaviourOut (PeerId := PeerId) (Addr := Addr) Hs M).

Record ProtocolHandler := {
  ph_peers : gmap PeerId nat;
  inbox : list Event;
  protocol : Z;
  behaviour : B;
  network_calls : list Request;
  sink_calls : list (nat * list Z);
}.

(** [ProtocolHandler::new] *)
Definition protocol_handler_new (b : B) (protocol : Z) : ProtocolHandler := {|
  ph_peers := ∅;
  inbox := [];
  protocol := protocol;
  behaviour := b;
  network_calls := [];
  sink_calls := [];
|}.

Definition call_network (r : Request) (s : ProtocolHandler) : ProtocolHandler :=
  s <| network_calls ::= fun q => q ++ [r] |>.

Definition on_network_action (s : ProtocolHandler) (action : NetworkAction (PeerId := PeerId) (Addr := Addr) Hs M)
    : ProtocolHandler :=
  match action with
  | AEnablePeer peer handshakes =>
    let poly_spec := collect_map ((fun e : Z * option Hs => (e.1, encode <$> e.2)) <$> handshakes) in
    call_network (EnableProtocol (protocol s) peer poly_spec) s
  | AUpdatePeerProtocols peer protocols => call_network (UpdatePeerProtocols peer protocols) s
  | ASendOneShotMessage peer addr_hint use_version message =>
    call_network (SendOneShotMessage peer addr_hint (tag_new (protocol s) use_version) (encode message)) s
  | ABanPeer pid => call_network (BanPeer pid) s
  end.

Definition on_output (s : ProtocolHandler) (o : Out) : ProtocolHandler :=
  match o with
  | Send peer_id message =>
    match ph_peers s !! peer_id with
    | Some sink => s <| sink_calls ::= fun q => q ++ [(sink, encode message)] |>
    | None => s
    end
  | ANetworkAction action => on_network_action s action
  end.

(** A handshake as it is given to the behaviour, or nothing when the peer is
    banned for it. *)
Definition check_handshake (negotiated_ver : Z) (handshake : option (list Z)) : option (option Hs) :=
  match handshake with
  | None => Some None
  | Some raw =>
    match decode raw with
    | Some hs => if decide (version hs = negotiated_ver) then Some (Some hs) else None
    | None => None
    end
  end.

Definition check_message (negotiated_ver : Z) (content : list Z) : option M :=
  msg ← decode content;
  if decide (version msg = negotiated_ver) then Some msg else None.

Definition with_behaviour (f : B -> B) (s : ProtocolHandler) : ProtocolHandler := s <| behaviour ::= f |>.

Definition on_event (s : ProtocolHandler) (notif : Event) : ProtocolHandler :=
  match notif with
  | EConnected peer_id => with_behaviour (fun b => inject_peer_connected b peer_id) s
  | EMessage peer_id negotiated_ver content =>
    match check_message negotiated_ver content with
    | Some msg => with_behaviour (fun b => inject_message b peer_id msg) s
    | None => call_network (BanPeer peer_id) s
    end
  | ERequested peer_id negotiated_ver handshake =>
    match check_handshake negotiated_ver handshake with
    | Some hs => with_behaviour (fun b => inject_protocol_requested b peer_id hs) s
    | None => call_network (BanPeer peer_id) s
    end
  | ERequestedLocal peer_id => with_behaviour (fun b => inject_protocol_requested_locally b peer_id) s
  | EEnabled peer_id negotiated_ver sink handshake =>
    let s := s <| ph_peers ::= <[peer_id := sink]> |> in
    match check_handshake negotiated_ver handshake with
    | Some hs => with_behaviour (fun b => inject_protocol_enabled b peer_id hs) s
    | None => call_network (BanPeer peer_id) s
    end
  | EDisabled peer_id => with_behaviour (fun b => inject_protocol_disabled b peer_id) s
  end.

(** [poll_next]; [sched] has the environment of each turn of the loop.  The
    result is true when the stream ends. *)
Fixpoint protocol_handler_poll (sched : list Env) (s : ProtocolHandler) : outcome (ProtocolHandler * bool) :=
  match sched with
  | [] => NoFuel
  | env :: sched =>
    let '(b, r) := behaviour_poll env (behaviour s) in
    let s := s <| behaviour := b |> in
    match r with
    | BReady o => protocol_handler_poll sched (on_output s o)
    | BEnd => Done (s, true)
    | BPending =>
      match inbox s with
      | notif :: rest => protocol_handler_poll sched (on_event (s <| inbox := rest |>) notif)
      | [] => Done (s, false)
      end
    end
  end.
End ProtocolHandler.

(** ** Discovery *)

Definition MAX_SHARED_PEERS : nat := 128.

Record NodeStatus := { ns_supported_protocols : list Z; ns_height : Z }.

(** [DiscoveryHandshake] has one version, with the fields of the status. *)
Inductive DiscoveryHandshake := HandshakeV1 (hs_supported_protocols : list Z) (hs_height : Z).

(** [DiscoverySpec::v1] *)
Definition discovery_v1 : Z := 1.

#[export] Instance discovery_handshake_version : Versioned DiscoveryHandshake := fun _ => discovery_v1.

Section Discovery.
Context {PeerId Addr : Type} `{Countable PeerId}.

Local Abbreviation Dest := (PeerDestination (PeerId := PeerId) (Addr := Addr)).

Inductive DiscoveryMessage := DGetPeers | DPeers (ps : list Dest).

#[export] Instance discovery_message_version : Versioned DiscoveryMessage := fun _ => discovery_v1.

Local Abbreviation DOut := (ProtocolBehaviourOut (PeerId := PeerId) (Addr := Addr) DiscoveryHandshake DiscoveryMessage).

(** A task waits for the answer of the peer manager to a request for peers, to
    be sent to the peer.  The requests to the peer manager are recorded. *)
Record DiscoveryBehaviour := {
  local_node_status : NodeStatus;
  d_outbox : list DOut;
  tracked_peers : gmap PeerId NodeStatus;
  d_tasks : list PeerId;
  d_peers_calls : list (PeerManagerIn (PeerId := PeerId) (Addr := Addr) (ConnId := nat));
}.

Definition discovery_new (status : NodeStatus) : DiscoveryBehaviour := {|
  local_node_status := status;
  d_outbox := [];
  tracked_peers := ∅;
  d_tasks := [];
  d_peers_calls := [];
|}.

(** [DiscoveryBehaviour::make_poly_handshake] *)
Definition discovery_handshake (s : DiscoveryBehaviour) : list (Z * option DiscoveryHandshake) :=
  let status := local_node_status s in
  [(discovery_v1, Some (HandshakeV1 (ns_supported_protocols status) (ns_height status)))].

Definition d_push (o : DOut) (s : DiscoveryBehaviour) : DiscoveryBehaviour := s <| d_outbox ::= fun q => q ++ [o] |>.

Definition send_get_peers (peer_id : PeerId) (s : DiscoveryBehaviour) : DiscoveryBehaviour :=
  d_push (Send peer_id DGetPeers) s.

Definition send_peers (peer_id : PeerId) (s : DiscoveryBehaviour) : DiscoveryBehaviour :=
  s <| d_peers_calls ::= fun q => q ++ [GetPeers MAX_SHARED_PEERS] |> <| d_tasks ::= fun q => q ++ [peer_id] |>.

(** The task: the reply, or an error when the request was cancelled. *)
Definition share_task (peer_id : PeerId) (answer : option (list Dest)) : option DOut :=
  ps ← answer;
  Some (Send peer_id (DPeers (filter (fun p => dest_peer_id p <> peer_id) ps))).

Definition enable_peer (peer_id : PeerId) (s : DiscoveryBehaviour) : DiscoveryBehaviour :=
  d_push (ANetworkAction (AEnablePeer peer_id (discovery_handshake s))) s.

Definition discovery_inject_message (s : DiscoveryBehaviour) (peer_id : PeerId) (msg : DiscoveryMessage)
    : DiscoveryBehaviour :=
  match msg with
  | DGetPeers => send_peers peer_id s
  | DPeers ps => s <| d_peers_calls ::= fun q => q ++ [AddPeers ps] |>
  end.

Definition discovery_protocol_requested (s : DiscoveryBehaviour) (peer_id : PeerId)
    (handshake : option DiscoveryHandshake) : DiscoveryBehaviour :=
  let s := match handshake with
           | Some (HandshakeV1 ps ht) =>
             s <| tracked_peers ::= <[peer_id := {| ns_supported_protocols := ps; ns_height := ht |}]> |>
           | None => s
           end in
  enable_peer peer_id s.

(** The loop over the tasks, which complete in the order they were made;
    [answers] are those the peer manager has given so far. *)
Fixpoint run_tasks (answers : list (option (list Dest))) (s : DiscoveryBehaviour) : DiscoveryBehaviour :=
  match answers, d_tasks s with
  | answer :: answers, peer_id :: rest =>
    let s := s <| d_tasks := rest |> in
    run_tasks answers (match share_task peer_id answer with Some out => d_push out s | None => s end)
  | _, _ => s
  end.

Definition discovery_poll (answers : list (option (list Dest))) (s : DiscoveryBehaviour)
    : DiscoveryBehaviour * BehaviourPoll DOut :=
  let s := run_tasks answers s in
  match d_outbox s with
  | out :: rest => (s <| d_outbox := rest |>, BReady out)
  | [] => (s, BPending)
  end.

#[export] Instance discovery_behaviour :
    ProtocolBehaviour PeerId Addr DiscoveryBehaviour DiscoveryHandshake DiscoveryMessage (list (option (list Dest))) := {|
  inject_peer_connected s peer_id := enable_peer peer_id s;
  inject_message := discovery_inject_message;
  inject_protocol_requested := discovery_protocol_requested;
  inject_protocol_requested_locally s peer_id := enable_peer peer_id s;
  inject_protocol_enabled s peer_id _ := send_get_peers peer_id s;
  inject_protocol_disabled s peer_id := s <| tracked_peers ::= delete peer_id |>;
  behaviour_poll := discovery_poll;
|}.
End Discovery.
