(* ===== verification/ProtocolSafety.v ===== *)
(** * Properties of protocol handlers and of discovery

    A protocol handler writes only to sinks it was given, commands the
    controller about its own protocol only, and bans a peer only for a message
    or a handshake that does not decode as the negotiated version, or when the
    behaviour says so.  Discovery, run by two handlers with the peer manager,
    spreads what one node knows to the other. *)

From S2P Require Import Prelude PeerManager PeerSafety Substream ConnHandler NetworkController ProtocolHandler.

Section ProtocolSafety.
Context {PeerId Addr B Hs M Env : Type} `{Countable PeerId}.
Context `{!ProtocolBehaviour PeerId Addr B Hs M Env}.
Context `{!Codec Hs} `{!Codec M} `{!Versioned Hs} `{!Versioned M}.

Local Abbreviation Event := (ProtocolEvent (PeerId := PeerId)).
Local Abbreviation Request := (NetworkControllerIn (PeerId := PeerId) (Addr := Addr)).
Local Abbreviation PH := (ProtocolHandler (PeerId := PeerId) (Addr := Addr) (B := B)).

(** ** Runs *)

Inductive ph_run (b : B) (p : Z) : PH -> list Event -> Prop :=
| ph_new : ph_run b p (protocol_handler_new b p) []
| ph_event s evs e : ph_run b p s evs -> ph_run b p (s <| inbox ::= fun q => q ++ [e] |>) (evs ++ [e])
| ph_poll s evs sched s' r : ph_run b p s evs -> protocol_handler_poll sched s = Done (s', r) -> ph_run b p s' evs.

(** What the outputs and the events preserve, a poll preserves. *)
Lemma protocol_handler_poll_ind (P : PH -> Prop) sched s s' r :
  (forall s env b r, P s -> behaviour_poll env (behaviour s) = (b, r) ->
     P (match r with BReady o => on_output (s <| behaviour := b |>) o | _ => s <| behaviour := b |> end)) ->
  (forall s e rest, P s -> inbox s = e :: rest -> P (on_event (s <| inbox := rest |>) e)) ->
  P s -> protocol_handler_poll sched s = Done (s', r) -> P s'.
Proof.
  intros Hpoll Hev. revert s. induction sched as [|env sched IH]; intros s HP E; [done|]. cbn in E.
  destruct (behaviour_poll env (behaviour s)) as [b res] eqn:Hb. pose proof (Hpoll s env b res HP Hb) as HP1.
  destruct res as [|o|].
  - destruct (inbox _) as [|e rest] eqn:Hi; [by injection E as <- <-|]. eapply IH; [|exact E].
    by apply (Hev (s <| behaviour := b |>)).
  - by eapply IH.
  - by injection E as <- <-.
Qed.

(** A peer's event that does not decode as the negotiated version. *)
Definition malformed (pid : PeerId) (e : Event) : Prop :=
  match e with
  | EMessage pid' v raw => pid' = pid /\ check_message (M := M) v raw = None
  | ERequested pid' v hs => pid' = pid /\ check_handshake (Hs := Hs) v hs = None
  | EEnabled pid' v _ hs => pid' = pid /\ check_handshake (Hs := Hs) v hs = None
  | _ => False
  end.

(** The sinks given to the handler, the last one of each peer. *)
Definition add_sink (m : gmap PeerId nat) (e : Event) : gmap PeerId nat :=
  match e with EEnabled pid _ sink _ => <[pid := sink]> m | _ => m end.

Definition sinks_of (evs : list Event) : gmap PeerId nat := foldl add_sink ∅ evs.

Section Bans.
Context (I : B -> Prop) (banned : PeerId -> Prop).
Context (I_poll : forall env b b' r, I b -> behaviour_poll env b = (b', r) ->
  I b' /\ forall pid, r = BReady (ANetworkAction (ABanPeer pid)) -> banned pid).
Context (I_connected : forall b pid, I b -> I (inject_peer_connected b pid)).
Context (I_message : forall b pid m, I b -> I (inject_message b pid m)).
Context (I_requested : forall b pid hs, I b -> I (inject_protocol_requested b pid hs)).
Context (I_local : forall b pid, I b -> I (inject_protocol_requested_locally b pid)).
Context (I_enabled : forall b pid hs, I b -> I (inject_protocol_enabled b pid hs)).
Context (I_disabled : forall b pid, I b -> I (inject_protocol_disabled b pid)).

Definition request_ok (p : Z) (evs : list Event) (r : Request) : Prop :=
  match r with
  | EnableProtocol p' _ _ => p' = p
  | SendOneShotMessage _ _ tag _ => tag_protocol_id tag = p
  | BanPeer pid => banned pid \/ exists e, e ∈ evs /\ malformed pid e
  | _ => True
  end.

Record ph_inv (p : Z) (evs : list Event) (s : PH) : Prop := {
  pi_protocol : protocol s = p;
  pi_behaviour : I (behaviour s);
  pi_seen : exists seen, seen ++ inbox s = evs /\ ph_peers s = sinks_of seen;
  pi_sinks : Forall (fun c => exists pid v hs, EEnabled pid v c.1 hs ∈ evs) (sink_calls s);
  pi_requests : Forall (request_ok p evs) (network_calls s);
}.

Lemma sinks_of_elem seen pid sink : sinks_of seen !! pid = Some sink -> exists v hs, EEnabled pid v sink hs ∈ seen.
Proof.
  unfold sinks_of. induction seen as [|e seen IH] using rev_ind; [done|]. rewrite foldl_app. cbn.
  assert (foldl add_sink ∅ seen !! pid = Some sink ->
    exists v hs, EEnabled pid v sink hs ∈ seen ++ [e]) as Hold.
  { intros (v & hs & Hin)%IH. exists v, hs. set_solver. }
  destruct e as [| | | |pid' v sink' hs|]; try exact Hold. cbn [add_sink]. rewrite lookup_insert_Some. intros [[-> ->]|[_ ?]]; [|auto].
  exists v, hs. set_solver.
Qed.

Lemma call_network_inv p evs r s : ph_inv p evs s -> request_ok p evs r -> ph_inv p evs (call_network r s).
Proof. intros [H1 H2 H3 H4 H5] Hr. split; try done. cbn. apply Forall_app. split; [done|]. by apply Forall_singleton. Qed.

Lemma on_output_inv p evs (o : ProtocolBehaviourOut (PeerId := PeerId) (Addr := Addr) Hs M) s : ph_inv p evs s ->
  (forall pid, o = ANetworkAction (ABanPeer pid) -> banned pid) -> ph_inv p evs (on_output s o).
Proof.
  intros Hi Hb. destruct o as [pid m|[pid hss|pid l|pid hint v m|pid]]; cbn.
  - destruct (ph_peers s !! pid) as [sink|] eqn:Hk; [|done]. destruct Hi as [H1 H2 (seen & Hseen & Hp) H4 H5].
    split; try done; [by exists seen|]. cbn. apply Forall_app. split; [done|]. apply Forall_singleton. cbn.
    rewrite Hp in Hk. apply sinks_of_elem in Hk as (v & hs & Hin). exists pid, v, hs. subst. set_solver.
  - apply call_network_inv; [done|]. apply Hi.
  - by apply call_network_inv.
  - apply call_network_inv; [done|]. apply Hi.
  - apply call_network_inv; [done|]. left. by apply Hb.
Qed.

Lemma protocol_event_inv p evs s e rest :
  ph_inv p evs s -> inbox s = e :: rest -> ph_inv p evs (on_event (s <| inbox := rest |>) e).
Proof.
  intros [H1 H2 (seen & Hseen & Hp) H4 H5] Hin. rewrite Hin in Hseen.
  assert (forall f, (forall b, I b -> I (f b)) -> (forall pid v sink hs, e <> EEnabled pid v sink hs) ->
    ph_inv p evs (with_behaviour f (s <| inbox := rest |>))) as Hplain.
  { intros f Hf Hne. split; try done; [by apply Hf|]. exists (seen ++ [e]). cbn. rewrite <- app_assoc. split; [done|].
    unfold sinks_of. rewrite foldl_app, Hp. cbn. destruct e; try done. by destruct (Hne peer_id protocol_ver sink handshake). }
  assert (e ∈ evs) as He by (subst; set_solver).
  assert (forall pid, malformed pid e -> (forall pid v sink hs, e <> EEnabled pid v sink hs) ->
    ph_inv p evs (call_network (BanPeer pid) (s <| inbox := rest |>))) as Hban.
  { intros pid Hm Hne. apply call_network_inv; [|right; by eauto]. by apply (Hplain (fun b => b)). }
  destruct e as [pid|pid v raw|pid v hs|pid|pid v sink hs|pid]; cbn; try (by apply Hplain; eauto).
  - destruct (check_message v raw) eqn:Hc; [by apply Hplain; eauto|by apply Hban].
  - destruct (check_handshake v hs) eqn:Hc; [by apply Hplain; eauto|by apply Hban].
  - assert (ph_inv p evs (s <| inbox := rest |> <| ph_peers ::= <[pid := sink]> |>)) as Hi.
    { split; try done. exists (seen ++ [EEnabled pid v sink hs]). cbn. rewrite <- app_assoc. split; [done|].
      unfold sinks_of. rewrite foldl_app, Hp. done. }
    destruct (check_handshake v hs) as [h|] eqn:Hc.
    + destruct Hi as [I1 I2 I3 I4 I5]. split; try done. cbn. apply I_enabled. exact I2.
    + apply call_network_inv; [done|]. right. by eexists.
Qed.

Lemma ph_run_inv b p s evs : I b -> ph_run b p s evs -> ph_inv p evs s.
Proof.
  intros Hb. induction 1 as [|s evs e _ IH|s evs sched s' r _ IH E].
  - split; try done. by exists [].
  - destruct IH as [H1 H2 (seen & Hseen & Hp) H4 H5]. split; try done; cbn.
    + exists seen. by rewrite app_assoc, Hseen.
    + eapply Forall_impl; [exact H4|]. cbn. intros c (pid & v & hs & ?). exists pid, v, hs. set_solver.
    + eapply Forall_impl; [exact H5|]. intros [p' ? ?| |? ? tag ?|pid]; try done. cbn.
      intros [?|(e' & ? & ?)]; [by left|]. right. exists e'. set_solver.
  - eapply (protocol_handler_poll_ind (ph_inv p evs)); [..|exact IH|exact E].
    + intros s1 env b1 r1 [H1 H2 H3 H4 H5] Hp. destruct (I_poll _ _ _ _ H2 Hp) as [Hb1 Hban].
      assert (ph_inv p evs (s1 <| behaviour := b1 |>)) as Hi by (by split).
      destruct r1 as [|o|]; [done| |done]. apply on_output_inv; [done|]. intros pid Ho. exact (Hban pid (f_equal BReady Ho)).
    + intros s1 e rest Hi Hin. by apply protocol_event_inv.
Qed.
End Bans.
End ProtocolSafety.

(** ** Discovery *)

Section DiscoverySafety.
Context {PeerId Addr : Type} `{Countable PeerId}.
Context `{!Codec DiscoveryHandshake} `{!Codec (DiscoveryMessage (PeerId := PeerId) (Addr := Addr))}.
Context (pid_leb : PeerId -> PeerId -> bool).

Local Abbreviation DB := (DiscoveryBehaviour (PeerId := PeerId) (Addr := Addr)).
Local Abbreviation DPH := (ProtocolHandler (PeerId := PeerId) (Addr := Addr) (B := DB)).
Local Abbreviation Msg := (DiscoveryMessage (PeerId := PeerId) (Addr := Addr)).
Local Abbreviation DOut := (ProtocolBehaviourOut (PeerId := PeerId) (Addr := Addr) DiscoveryHandshake Msg).

Definition no_ban (o : DOut) : Prop := forall pid, o <> ANetworkAction (ABanPeer pid).

Definition outbox_calm (b : DB) : Prop := Forall no_ban (d_outbox b).

Lemma d_push_calm o b : no_ban o -> outbox_calm b -> outbox_calm (d_push o b).
Proof. intros Ho Hb. apply Forall_app. split; [done|]. by apply Forall_singleton. Qed.

Lemma run_tasks_calm answers b : outbox_calm b -> outbox_calm (run_tasks answers b).
Proof.
  revert b. induction answers as [|ans answers IH]; intros b Hb; [done|]. cbn. destruct (d_tasks b) as [|pid rest]; [done|].
  apply IH. destruct ans as [ps|]; cbn; [|done]. by apply d_push_calm.
Qed.

(** The handler of the discovery protocol writes only to sinks it was given
    when the protocol was enabled, sends commands about its own protocol only,
    and bans a peer only for an event of that peer that does not decode as the
    negotiated version. *)
Theorem discovery_handler_safe status p (s : DPH) evs :
  ph_run (discovery_new status) p s evs ->
  Forall (fun c => exists pid v hs, EEnabled pid v c.1 hs ∈ evs) (sink_calls s) /\
  Forall (request_ok (Hs := DiscoveryHandshake) (M := Msg) (fun _ => False) p evs) (network_calls s).
Proof.
  intros Hrun. eapply (ph_run_inv outbox_calm (fun _ => False)) in Hrun as [_ _ _ H4 H5]; [done|..].
  - intros answers b b' r Hb. cbn. unfold discovery_poll. apply (run_tasks_calm answers) in Hb. unfold outbox_calm in Hb.
    destruct (d_outbox (run_tasks answers b)) as [|o rest] eqn:E; intros [= <- <-].
    + split; [unfold outbox_calm; by rewrite E|done].
    + apply Forall_cons in Hb as [Ho Hr]. split; [done|]. intros pid [= ->]. by apply (Ho pid).
  - intros b pid. by apply d_push_calm.
  - intros b pid [|ps]; done.
  - intros b pid hs Hb. apply d_push_calm; [done|]. by destruct hs as [[]|].
  - intros b pid. by apply d_push_calm.
  - intros b pid hs. by apply d_push_calm.
  - done.
  - constructor.
Qed.

(** *** Spreading peers *)

Definition idle (s : DPH) : Prop := d_outbox (behaviour s) = [] /\ d_tasks (behaviour s) = [].

Lemma idle_poll s answers : idle s -> behaviour_poll answers (behaviour s) = (behaviour s, BPending).
Proof.
  intros [Ho Ht]. cbn. unfold discovery_poll.
  assert (run_tasks answers (behaviour s) = behaviour s) as -> by (destruct answers; cbn; [done|by rewrite Ht]).
  by rewrite Ho.
Qed.

Local Abbreviation Manager := (PeerManager (PeerId := PeerId) (Addr := Addr) (ConnId := nat)).
Local Abbreviation Repo := (PeerRepo (PeerId := PeerId) (Addr := Addr)).
Local Abbreviation Dest := (PeerDestination (PeerId := PeerId) (Addr := Addr)).

Lemma add_peers_known (r : Repo) (l : list Dest) pid :
  is_Some (peers r !! pid) \/ (exists d, d ∈ l /\ dest_peer_id d = pid) ->
  is_Some (peers (foldl (fun r d => default r (try_add_peer r d false false)) r l) !! pid).
Proof.
  revert r. induction l as [|d l IH]; intros r Hp; cbn; [destruct Hp as [?|(d & ?%elem_of_nil & _)]; done|].
  apply IH. unfold try_add_peer. destruct Hp as [Hp|(d' & [->|Hin]%elem_of_cons & Hd)].
  - left. destruct (peers r !! dest_peer_id d) eqn:E; cbn; [done|]. rewrite lookup_insert_is_Some'. by right.
  - left. subst pid. destruct (peers r !! dest_peer_id d) eqn:E; cbn; [by rewrite E|]. by rewrite lookup_insert_eq.
  - right. by exists d'.
Qed.

Lemma length_omap_le {A C} (f : A -> option C) l : length (omap f l) <= length l.
Proof. induction l as [|x l IH]; cbn; [done|]. destruct (f x); cbn; lia. Qed.

Lemma get_peers_known nc (r : Repo) limit pid : repo_ok nc r -> size (sorted_peers r) <= limit ->
  is_Some (peers r !! pid) -> exists d, d ∈ get_peers pid_leb r limit /\ dest_peer_id d = pid.
Proof.
  intros Hr Hl [pi Hpi]. exists (destination pid pi). split; [|unfold destination; by destruct (addr pi)].
  unfold get_peers. apply list_elem_of_omap. exists (pid, reputation pi). rewrite take_ge.
  - split; [|by rewrite Hpi]. apply elem_of_ordered, (ro_sorted _ _ Hr). by rewrite Hpi.
  - unfold ordered_peers. rewrite sort_by_length. exact Hl.
Qed.

(** Turns of the poll. *)
Lemma turn_event (s : DPH) env sched e rest : idle s -> inbox s = e :: rest ->
  protocol_handler_poll (env :: sched) s = protocol_handler_poll sched (on_event (s <| inbox := rest |>) e).
Proof.
  intros Hi Hin. cbn [protocol_handler_poll]. rewrite (idle_poll _ _ Hi).
  replace (s <| behaviour := behaviour s |>) with s by (by destruct s). by rewrite Hin.
Qed.

Lemma turn_idle (s : DPH) env sched : idle s -> inbox s = [] ->
  protocol_handler_poll (env :: sched) s = Done (s, false).
Proof.
  intros Hi Hin. cbn [protocol_handler_poll]. rewrite (idle_poll _ _ Hi).
  replace (s <| behaviour := behaviour s |>) with s by (by destruct s). by rewrite Hin.
Qed.

Lemma turn_output (s : DPH) env sched b o : behaviour_poll env (behaviour s) = (b, BReady o) ->
  protocol_handler_poll (env :: sched) s = protocol_handler_poll sched (on_output (s <| behaviour := b |>) o).
Proof. intros E. cbn [protocol_handler_poll]. by rewrite E. Qed.

(** A handler asks a peer for peers when the protocol is enabled. *)
Lemma poll_enabled (s : DPH) pid v sink hs h :
  idle s -> check_handshake (Hs := DiscoveryHandshake) v hs = Some h ->
  exists s', protocol_handler_poll [[]; []; []] (s <| inbox := [EEnabled pid v sink hs] |>) = Done (s', false) /\
    idle s' /\ sink_calls s' = sink_calls s ++ [(sink, encode (DGetPeers : Msg))].
Proof.
  intros [Ho Ht] Hh. erewrite turn_event; [|by split|done]. cbn [on_event]. rewrite Hh.
  erewrite turn_output by (cbn; unfold discovery_poll; cbn; rewrite Ho; done). cbn -[protocol_handler_poll encode].
  rewrite lookup_insert_eq. eexists. split; [apply turn_idle; [|done]|]; by split.
Qed.

(** A handler answers a request for peers. *)
Lemma poll_get_peers (s : DPH) pid sink ps : CodecLaws Msg ->
  idle s -> ph_peers s !! pid = Some sink ->
  exists s', protocol_handler_poll [[]; [Some ps]; []]
      (s <| inbox := [EMessage pid discovery_v1 (encode (DGetPeers : Msg))] |>) = Done (s', false) /\
    sink_calls s' = sink_calls s ++ [(sink, encode (DPeers (filter (fun p => dest_peer_id p <> pid) ps) : Msg))].
Proof.
  intros Hlaw [Ho Ht] Hp. erewrite turn_event; [|by split|done]. cbn [on_event]. unfold check_message. rewrite Hlaw.
  cbn [mbind option_bind]. rewrite decide_True by done.
  erewrite turn_output by (cbn; unfold discovery_poll; cbn; rewrite Ht; cbn; rewrite Ho; done). cbn -[protocol_handler_poll encode].
  rewrite Hp. eexists. split; [apply turn_idle; [|done]|]; by split.
Qed.

(** A handler passes the peers it receives on to the peer manager. *)
Lemma poll_peers (s : DPH) pid ps : CodecLaws Msg -> idle s ->
  exists s', protocol_handler_poll [[]; []] (s <| inbox := [EMessage pid discovery_v1 (encode (DPeers ps : Msg))] |>)
      = Done (s', false) /\
    d_peers_calls (behaviour s') = d_peers_calls (behaviour s) ++ [AddPeers ps].
Proof.
  intros Hlaw [Ho Ht]. erewrite turn_event; [|by split|done]. cbn [on_event]. unfold check_message. rewrite Hlaw.
  cbn [mbind option_bind]. rewrite decide_True by done. eexists. split; [apply turn_idle; [|done]|]; by split.
Qed.

(** C36: discovery spreads what a node knows.  When the protocol is enabled, the
    handler of [A] asks [B] for peers; [B] answers with what its peer manager
    returns, which is at most a hundred and twenty-eight peers and never [A]
    itself; [A] passes the answer to its peer manager, which then knows every
    peer that [B] knows, if those are not more than that many. *)
Theorem discovery_spreads_peers (laws : CodecLaws Msg) (A B : DPH) a b sinkA sinkB hs h nc bp cf (mA mB : Manager) ins outs :
  idle A -> idle B -> check_handshake (Hs := DiscoveryHandshake) discovery_v1 hs = Some h -> ph_peers B !! a = Some sinkB ->
  manager_run pid_leb nc bp cf mB ins outs -> size (sorted_peers (repo mB)) <= MAX_SHARED_PEERS ->
  exists A1, protocol_handler_poll [[]; []; []] (A <| inbox := [EEnabled b discovery_v1 sinkA hs] |>) = Done (A1, false) /\
    sink_calls A1 = sink_calls A ++ [(sinkA, encode (DGetPeers : Msg))] /\
  exists B1 l, protocol_handler_poll [[]; [Some (get_peers pid_leb (repo mB) MAX_SHARED_PEERS)]; []]
      (B <| inbox := [EMessage a discovery_v1 (encode (DGetPeers : Msg))] |>) = Done (B1, false) /\
    sink_calls B1 = sink_calls B ++ [(sinkB, encode (DPeers l : Msg))] /\
    length l <= MAX_SHARED_PEERS /\ Forall (fun d => dest_peer_id d <> a) l /\
  exists A2, protocol_handler_poll [[]; []] (A1 <| inbox := [EMessage b discovery_v1 (encode (DPeers l : Msg))] |>)
      = Done (A2, false) /\
    d_peers_calls (behaviour A2) = d_peers_calls (behaviour A1) ++ [AddPeers l] /\
    forall pid, is_Some (peers (repo mB) !! pid) -> pid <> a -> is_Some (peers (repo (on_add_peers mA l)) !! pid).
Proof.
  intros HA HB Hh Hb Hrun Hsz. destruct (poll_enabled A b discovery_v1 sinkA hs h HA Hh) as (A1 & E1 & HA1 & Hs1).
  exists A1. split; [done|]. split; [done|].
  destruct (poll_get_peers B a sinkB (get_peers pid_leb (repo mB) MAX_SHARED_PEERS) laws HB Hb) as (B1 & E2 & Hs2).
  eexists B1, _. split; [exact E2|]. split; [exact Hs2|]. split; [|split].
  - etrans; [apply length_filter|]. unfold get_peers. etrans; [apply length_omap_le|]. rewrite length_take. lia.
  - apply Forall_forall. intros d [? _]%list_elem_of_filter. done.
  - destruct (poll_peers A1 b (filter (fun p => dest_peer_id p <> a) (get_peers pid_leb (repo mB) MAX_SHARED_PEERS)) laws HA1)
      as (A2 & E3 & Hc). exists A2. split; [exact E3|]. split; [exact Hc|]. intros pid Hpid Hne. cbn.
    apply add_peers_known. right. apply manager_run_explained in Hrun as (log & hd & [_ _ _ Hok] & _).
    destruct (get_peers_known nc (repo mB) MAX_SHARED_PEERS pid Hok Hsz Hpid) as (d & Hd & <-).
    exists d. split; [|done]. by apply list_elem_of_filter.
Qed.
End DiscoverySafety.

(** ** A codec and two handlers *)

Module DiscoverySample.
Abbreviation D := (PeerDestination (PeerId := nat) (Addr := nat)).
Abbreviation Message := (DiscoveryMessage (PeerId := nat) (Addr := nat)).

Definition write_dest (d : D) : list Z :=
  match d with DPeerId p => [0; Z.of_nat p] | DPeerIdWithAddr p a => [1; Z.of_nat p; Z.of_nat a] end%Z.

Fixpoint read_dests (raw : list Z) : option (list D) :=
  match raw with
  | [] => Some []
  | 0%Z :: p :: raw => cons (DPeerId (Z.to_nat p)) <$> read_dests raw
  | 1%Z :: p :: a :: raw => cons (DPeerIdWithAddr (Z.to_nat p) (Z.to_nat a)) <$> read_dests raw
  | _ => None
  end.

Lemma read_write_dests (ps : list D) : read_dests (mjoin (write_dest <$> ps)) = Some ps.
Proof.
  induction ps as [|d ps IH]; [done|].
  change (mjoin (write_dest <$> d :: ps)) with (write_dest d ++ mjoin (write_dest <$> ps)).
  destruct d as [p|p a]; cbn [write_dest app read_dests]; rewrite IH; cbn; by rewrite !Nat2Z.id.
Qed.

#[export] Instance message_codec : Codec Message := {|
  encode m := match m with DGetPeers => [0%Z] | DPeers ps => 1%Z :: mjoin (write_dest <$> ps) end;
  decode raw := match raw with [0%Z] => Some DGetPeers | 1%Z :: raw => DPeers <$> read_dests raw | _ => None end;
|}.

#[export] Instance message_codec_laws : CodecLaws Message.
Proof. intros [|ps]; [done|]. cbn. by rewrite read_write_dests. Qed.

#[export] Instance handshake_codec : Codec DiscoveryHandshake := {|
  encode hs := match hs with HandshakeV1 ps ht => ht :: ps end;
  decode raw := match raw with [] => None | ht :: ps => Some (HandshakeV1 ps ht) end;
|}.

Definition status : NodeStatus := {| ns_supported_protocols := [0%Z]; ns_height := 7 |}.
Abbreviation P := (ProtocolHandler (PeerId := nat) (Addr := nat) (B := DiscoveryBehaviour (PeerId := nat) (Addr := nat))).
Definition p0 : P := protocol_handler_new (discovery_new status) 0.
Definition p1 : P := p0 <| ph_peers := {[1 := 4]} |>.

(** A message that does not decode. *)
Definition bad : P := p0 <| inbox := [EMessage 5 1 [9%Z]] |>.
Definition polled : outcome (P * bool) := protocol_handler_poll [[]; []] bad.
Definition calls (x : P * bool) : list (NetworkControllerIn (PeerId := nat) (Addr := nat)) := network_calls x.1.

Lemma discovery_handler_safe_witness : exists s : P,
  ph_run (discovery_new status) 0 s [EMessage 5 1 [9%Z]] /\ network_calls s = [BanPeer 5] /\
  Forall (request_ok (Hs := DiscoveryHandshake) (M := Message) (fun _ => False) 0 [EMessage 5 1 [9%Z]]) (network_calls s).
Proof.
  destruct (is_done_exists polled ltac:(vm_compute; reflexivity)) as [[s r] E].
  pose proof (fmap_Done calls _ _ [BanPeer 5] E ltac:(vm_compute; reflexivity)) as Hc.
  assert (ph_run (discovery_new status) 0 bad ([] ++ [EMessage 5 1 [9%Z]])) as H1 by (apply (ph_event _ _ p0), ph_new).
  pose proof (ph_poll _ _ _ _ _ _ _ H1 E) as H2.
  exists s. split; [exact H2|]. split; [exact Hc|]. exact (proj2 (discovery_handler_safe status 0 s _ H2)).
Defined.

Lemma discovery_spreads_peers_witness : exists A1 : P,
  protocol_handler_poll [[]; []; []] (p0 <| inbox := [EEnabled 2 discovery_v1 3 (Some [7%Z])] |>) = Done (A1, false) /\
  sink_calls A1 = [(3, [0%Z])].
Proof.
  destruct (discovery_spreads_peers Nat.leb message_codec_laws p0 p1 1 2 3 4 (Some [7%Z]) (Some (HandshakeV1 [] 7))
    PeerSample.net [] PeerSample.cfg PeerSample.m0 PeerSample.m0 [] []) as (A1 & E & Hs & _);
    [done|done|vm_compute; reflexivity|vm_compute; reflexivity|constructor|vm_compute; lia|].
  exists A1. split; [exact E|exact Hs].
Defined.
End DiscoverySample.
