(* ===== verification/KvStore.v ===== *)
(** * Key-value stores

    What the stores over RocksDB share: maps of byte strings that are scanned
    in the lexicographic order of their keys, key spaces under prefixes, and
    codecs.  RocksDB is an ordered map whose transactions commit at once; the
    codecs [rmp_serde] and [bincode] are parameters with their round trip as a
    law. *)

From S2P Require Import Prelude.

Abbreviation bytes := (list Z) (only parsing).
Abbreviation Db := (gmap (list Z) (list Z)) (only parsing).

(** ** Codecs *)

(** Serialising to memory does not fail. *)
Class Serde (T : Type) := { to_vec : T -> bytes; from_slice : bytes -> option T }.

Class SerdeLaws (T : Type) `{Serde T} := from_to_vec : forall x : T, from_slice (to_vec x) = Some x.

Definition i64_min : Z := - 2 ^ 63.
Definition i64_max : Z := 2 ^ 63 - 1.

(** [uN::from_be_bytes(b.try_into().unwrap())]; [i64] is in two's complement. *)
Definition read_u32 (b : bytes) : outcome Z := if (length b =? 4)%nat then Done (be_value b) else Panic.

Definition i64_to_be_bytes (x : Z) : bytes := be_bytes 8 (x mod 2 ^ 64).

Definition read_i64 (b : bytes) : outcome Z :=
  if (length b =? 8)%nat
  then Done (if (be_value b <=? i64_max)%Z then be_value b else (be_value b - 2 ^ 64)%Z)
  else Panic.

Lemma u32_pow : (u32_max = 256 ^ Z.of_nat 4 - 1)%Z.
Proof. done. Qed.

Lemma read_u32_bytes x : (0 <= x <= u32_max)%Z -> read_u32 (be_bytes 4 x) = Done x.
Proof. rewrite u32_pow. intros. unfold read_u32. rewrite be_bytes_length, be_value_bytes; [done|]. lia. Qed.

Lemma read_i64_bytes x : (i64_min <= x <= i64_max)%Z -> read_i64 (i64_to_be_bytes x) = Done x.
Proof.
  unfold i64_min, i64_max. intros. unfold read_i64, i64_to_be_bytes. rewrite be_bytes_length, be_value_bytes.
  2: { change (256 ^ Z.of_nat 8)%Z with (2 ^ 64)%Z. apply Z.mod_pos_bound. lia. }
  change (8 =? 8)%nat with true. cbv iota. unfold i64_max. destruct (Z.leb_spec 0 x).
  - rewrite Z.mod_small by lia. by rewrite (proj2 (Z.leb_le _ _)) by lia.
  - replace (x mod 2 ^ 64)%Z with (x + 2 ^ 64)%Z by (apply Z.mod_unique with (-1)%Z; lia).
    rewrite (proj2 (Z.leb_gt _ _)) by lia. f_equal. lia.
Qed.

Lemma be_value_cons b l : be_value (b :: l) = (b * 256 ^ Z.of_nat (length l) + be_value l)%Z.
Proof.
  unfold be_value. rewrite reverse_cons, <- (length_reverse l). generalize (reverse l). intros r. induction r as [|x r IH].
  - cbn. lia.
  - cbn [app le_value length]. rewrite IH, Nat2Z.inj_succ, Z.pow_succ_r by lia. lia.
Qed.

Lemma be_value_app l k : be_value (l ++ k) = (be_value l * 256 ^ Z.of_nat (length k) + be_value k)%Z.
Proof.
  induction l as [|b l IH]; [done|]. cbn [app]. rewrite !be_value_cons, IH, length_app, Nat2Z.inj_add, Z.pow_add_r by lia. lia.
Qed.

(** ** The order of keys *)

Fixpoint bytes_leb (a b : bytes) : bool :=
  match a, b with
  | [], _ => true
  | _ :: _, [] => false
  | x :: a, y :: b => (x <? y)%Z || (x =? y)%Z && bytes_leb a b
  end.

Lemma bytes_leb_total a b : bytes_leb a b = false -> bytes_leb b a = true.
Proof.
  revert b. induction a as [|x a IH]; intros [|y b]; cbn; try done.
  destruct (Z.ltb_spec x y), (Z.eqb_spec x y), (Z.ltb_spec y x), (Z.eqb_spec y x); cbn; try (done || lia). apply IH.
Qed.

Lemma bytes_leb_trans a b c : bytes_leb a b = true -> bytes_leb b c = true -> bytes_leb a c = true.
Proof.
  revert b c. induction a as [|x a IH]; intros [|y b] [|z c]; cbn; try done.
  rewrite !orb_true_iff, !andb_true_iff, !Z.ltb_lt, !Z.eqb_eq.
  intros [?|[-> ?]] [?|[-> ?]]; [left; lia..|]. right. split; [done|]. by eapply IH.
Qed.

Lemma bytes_leb_antisym a b : bytes_leb a b = true -> bytes_leb b a = true -> a = b.
Proof.
  revert b. induction a as [|x a IH]; intros [|y b]; cbn; try done.
  rewrite !orb_true_iff, !andb_true_iff, !Z.ltb_lt, !Z.eqb_eq. intros [?|[-> ?]] [?|[? ?]]; try lia.
  f_equal. by apply IH.
Qed.

(** The order of big-endian numbers of one width is that of the numbers. *)
Lemma bytes_leb_app p a b : bytes_leb (p ++ a) (p ++ b) = bytes_leb a b.
Proof. induction p as [|x p IH]; cbn; [done|]. by rewrite Z.ltb_irrefl, Z.eqb_refl, IH. Qed.

Lemma le_bytes_snoc n x : le_bytes (S n) x = le_bytes n x ++ [(x / 256 ^ Z.of_nat n) mod 256]%Z.
Proof.
  revert x. induction n as [|n IH]; intros x.
  - cbn. by rewrite Z.div_1_r.
  - change (le_bytes (S (S n)) x) with ((x mod 256)%Z :: le_bytes (S n) (x / 256)).
    rewrite IH. cbn [le_bytes app]. do 3 f_equal.
    rewrite Z.div_div by lia. f_equal. rewrite Nat2Z.inj_succ, Z.pow_succ_r by lia. done.
Qed.

Lemma be_bytes_cons n x : be_bytes (S n) x = ((x / 256 ^ Z.of_nat n) mod 256)%Z :: be_bytes n x.
Proof. unfold be_bytes. by rewrite le_bytes_snoc, reverse_snoc. Qed.

Lemma le_bytes_mod n x : le_bytes n (x mod 256 ^ Z.of_nat n) = le_bytes n x.
Proof.
  revert x. induction n as [|n IH]; intros x; [done|]. cbn [le_bytes].
  rewrite Nat2Z.inj_succ, Z.pow_succ_r by lia.
  rewrite Z.rem_mul_r by lia. f_equal.
  - rewrite Z.mul_comm, Z.mod_add by lia. by rewrite Z.mod_mod by lia.
  - rewrite Z.mul_comm, Z.div_add by lia. rewrite (Z.div_small (x mod 256)) by (apply Z.mod_pos_bound; lia). apply IH.
Qed.

Lemma be_bytes_leb n x y : (0 <= x < 256 ^ Z.of_nat n)%Z -> (0 <= y < 256 ^ Z.of_nat n)%Z ->
  bytes_leb (be_bytes n x) (be_bytes n y) = (x <=? y)%Z.
Proof.
  revert x y. induction n as [|n IH]; intros x y Hx Hy.
  - cbn in *. symmetry. apply Z.leb_le. lia.
  - rewrite !be_bytes_cons. cbn [bytes_leb]. rewrite Nat2Z.inj_succ, Z.pow_succ_r in Hx, Hy by lia.
    set (p := (256 ^ Z.of_nat n)%Z) in *. assert (0 < p)%Z by (unfold p; lia).
    rewrite !(Z.mod_small (_ / p)) by (split; [apply Z.div_pos; lia|apply Z.div_lt_upper_bound; lia]).
    assert (forall z, be_bytes n (z mod p) = be_bytes n z) as Hm by (intros z; unfold be_bytes; by rewrite le_bytes_mod).
    rewrite <- (Hm x), <- (Hm y), IH by (apply Z.mod_pos_bound; lia).
    pose proof (Z.div_mod x p ltac:(lia)). pose proof (Z.div_mod y p ltac:(lia)).
    pose proof (Z.mod_pos_bound x p ltac:(lia)). pose proof (Z.mod_pos_bound y p ltac:(lia)).
    destruct (Z.ltb_spec (x / p) (y / p)), (Z.eqb_spec (x / p) (y / p)); cbn [orb andb];
      destruct (Z.leb_spec x y); try (apply Z.leb_le || apply Z.leb_gt || done); nia.
Qed.

(** ** Scans *)

(** The entries in the order of their keys. *)
Definition scan (db : Db) : list (bytes * bytes) := sort_by (fun a b => bytes_leb a.1 b.1) (map_to_list db).

(** [IteratorMode::From(start, Forward)] *)
Definition scan_from (start : bytes) (db : Db) : list (bytes * bytes) :=
  filter (fun e => bytes_leb start e.1 = true) (scan db).

(** The same over a [PrefixRange]. *)
Definition scan_prefix (p : bytes) (db : Db) : list (bytes * bytes) := filter (fun e => p `prefix_of` e.1) (scan db).

Lemma elem_of_scan db e : e ∈ scan db <-> db !! e.1 = Some e.2.
Proof. unfold scan. rewrite elem_of_sort_by. destruct e as [k v]. apply elem_of_map_to_list. Qed.

Lemma NoDup_scan db : NoDup (scan db).
Proof. apply NoDup_sort_by, NoDup_map_to_list. Qed.

Lemma elem_of_scan_prefix p db e : e ∈ scan_prefix p db <-> p `prefix_of` e.1 /\ db !! e.1 = Some e.2.
Proof. unfold scan_prefix. by rewrite list_elem_of_filter, elem_of_scan. Qed.

Lemma scan_sorted db : StronglySorted (fun a b => bytes_leb a.1 b.1 = true) (scan db).
Proof.
  apply (sort_by_sorted (fun a b => bytes_leb a.1 b.1)).
  - intros [] []. apply bytes_leb_total.
  - intros [] [] []. apply bytes_leb_trans.
Qed.

Lemma StronglySorted_filter {A} (R : A -> A -> Prop) (P : A -> Prop) `{!forall x, Decision (P x)} l :
  StronglySorted R l -> StronglySorted R (filter P l).
Proof.
  induction 1 as [|x l _ IH Hx]; [constructor|]. rewrite filter_cons. case_decide; [|done].
  constructor; [done|]. rewrite Forall_forall in *. intros y [_ Hy]%list_elem_of_filter. by apply Hx.
Qed.

Lemma scan_from_sorted start db : StronglySorted (fun a b => bytes_leb a.1 b.1 = true) (scan_from start db).
Proof. apply StronglySorted_filter, scan_sorted. Qed.

Lemma elem_of_scan_from start db e : e ∈ scan_from start db <-> bytes_leb start e.1 = true /\ db !! e.1 = Some e.2.
Proof. unfold scan_from. by rewrite list_elem_of_filter, elem_of_scan. Qed.

(** The values of a filtered map. *)
Lemma map_filter_values {I A} `{Countable I} (P : I * A -> Prop) `{!forall x, Decision (P x)}
    (Q : A -> Prop) `{!forall x, Decision (Q x)} (m : gmap I A) :
  (forall i a, m !! i = Some a -> P (i, a) <-> Q a) ->
  filter Q (map_to_list m).*2 ≡ₚ (map_to_list (filter P m)).*2.
Proof.
  intros HPQ. rewrite map_filter_alt, map_to_list_to_map.
  - assert (forall e, e ∈ map_to_list m -> P e <-> Q e.2) as Hin
      by (intros [i a] He%elem_of_map_to_list; by apply HPQ).
    revert Hin. generalize (map_to_list m). intros l. induction l as [|e l IH]; intros Hin; [done|].
    rewrite fmap_cons, !filter_cons. pose proof (Hin e ltac:(left)) as He.
    assert (filter Q l.*2 ≡ₚ (filter P l).*2) as IH' by (apply IH; intros; apply Hin; by right).
    repeat case_decide; try tauto. rewrite fmap_cons. by f_equiv.
  - eapply sublist_NoDup; [apply (NoDup_fst_map_to_list m)|]. apply fmap_sublist, sublist_filter.
Qed.

(** ** Key spaces

    A store holds several maps, each under the keys of a space.  Keys of
    different spaces or of different identifiers differ. *)

Class KeySpaces {S I : Type} (key : S -> I -> bytes) := key_inj : forall s i s' i', key s i = key s' i' -> s = s' /\ i = i'.

Section Spaces.
Context {S I A B : Type} `{Countable I} (key : S -> I -> bytes) `{!KeySpaces key}.

(** The space [s] of the store holds the map [m]. *)
Definition space_is (enc : A -> bytes) (s : S) (db : Db) (m : gmap I A) : Prop :=
  forall i, db !! key s i = enc <$> m !! i.

Lemma key_ne s i s' i' : s <> s' \/ i <> i' -> key s i <> key s' i'.
Proof. intros Hne [-> ->]%key_inj. tauto. Qed.

Lemma space_empty enc s : space_is enc s ∅ ∅.
Proof. intros i. by rewrite !lookup_empty. Qed.

Lemma space_insert enc s db m i a :
  space_is enc s db m -> space_is enc s (<[key s i := enc a]> db) (<[i := a]> m).
Proof.
  intros Hs j. destruct (decide (i = j)) as [->|Hij]; [by rewrite !lookup_insert_eq|].
  rewrite !lookup_insert_ne by (done || apply key_ne; auto). apply Hs.
Qed.

Lemma space_insert_ne enc s s' db m i v :
  s <> s' -> space_is enc s db m -> space_is enc s (<[key s' i := v]> db) m.
Proof. intros Hss Hs j. rewrite lookup_insert_ne by (apply key_ne; auto). apply Hs. Qed.

Lemma space_delete enc s db m i : space_is enc s db m -> space_is enc s (delete (key s i) db) (delete i m).
Proof.
  intros Hs j. destruct (decide (i = j)) as [->|Hij]; [by rewrite !lookup_delete_eq|].
  rewrite !lookup_delete_ne by (done || apply key_ne; auto). apply Hs.
Qed.

Lemma space_delete_ne enc s s' db m i : s <> s' -> space_is enc s db m -> space_is enc s (delete (key s' i) db) m.
Proof. intros Hss Hs j. rewrite lookup_delete_ne by (apply key_ne; auto). apply Hs. Qed.

(** Every key of the store is a key of some space. *)
Definition only_keys (db : Db) : Prop := forall k v, db !! k = Some v -> exists s i, k = key s i.

Lemma only_keys_empty : only_keys ∅.
Proof. intros k v. by rewrite lookup_empty. Qed.

Lemma only_keys_insert db s i v : only_keys db -> only_keys (<[key s i := v]> db).
Proof. intros Ho k w [[<- _]|[_ Hk]]%lookup_insert_Some; eauto. Qed.

Lemma only_keys_delete db k : only_keys db -> only_keys (delete k db).
Proof. intros Ho k' w [_ Hk]%lookup_delete_Some. eauto. Qed.

(** What a scan of a space returns. *)
Lemma scan_space enc s p db m :
  (forall s' i, p `prefix_of` key s' i <-> s' = s) -> only_keys db -> space_is enc s db m ->
  scan_prefix p db ≡ₚ (fun '(i, a) => (key s i, enc a)) <$> map_to_list m.
Proof.
  intros Hp Ho Hs. apply NoDup_Permutation.
  - apply NoDup_filter, NoDup_scan.
  - apply (NoDup_fmap_1 fst). rewrite <- list_fmap_compose.
    rewrite (list_fmap_ext _ (key s ∘ fst)) by (by intros ? [] ?). rewrite list_fmap_compose.
    apply NoDup_fmap_2_strong; [|apply NoDup_fst_map_to_list]. intros i j _ _ E. by apply key_inj in E as [_ ->].
  - intros [k v]. rewrite elem_of_scan_prefix, list_elem_of_fmap. cbn. split.
    + intros [Hpk Hk]. destruct (Ho _ _ Hk) as (s' & i & ->). apply Hp in Hpk as ->.
      rewrite Hs in Hk. apply fmap_Some in Hk as (a & Hm & ->). exists (i, a). by rewrite elem_of_map_to_list.
    + intros ([i a] & [= -> ->] & Hm%elem_of_map_to_list). split; [by apply Hp|]. by rewrite Hs, Hm.
Qed.

(** Decoding what a scan of a space returns. *)
Lemma scan_values enc (wrap : A -> B) (dec : bytes -> outcome B) (unwrap_ : B -> A) s p db m :
  (forall s' i, p `prefix_of` key s' i <-> s' = s) -> only_keys db -> space_is enc s db m ->
  (forall a, dec (enc a) = Done (wrap a)) -> (forall a, unwrap_ (wrap a) = a) ->
  exists l, mapO (fun e => dec e.2) (scan_prefix p db) = Done l /\ unwrap_ <$> l ≡ₚ (map_to_list m).*2.
Proof.
  intros Hp Ho Hs Hdec Hwrap. pose proof (scan_space enc s p db m Hp Ho Hs) as Hscan.
  destruct (mapO_exists (fun e => dec e.2) (fun e b => dec e.2 = Done b) (scan_prefix p db)) as (l & Hl & H2).
  { intros e He. rewrite Hscan in He. apply list_elem_of_fmap in He as ([i a] & -> & _). cbn. eauto. }
  exists l. split; [done|].
  assert (exists l', l' ≡ₚ map_to_list m /\ scan_prefix p db = (fun '(i, a) => (key s i, enc a)) <$> l') as (l' & Hp' & E).
  { apply Permutation_map_inv in Hscan as (l' & -> & Hl'). by exists l'. }
  rewrite E in H2. rewrite <- Hp'. clear -H2 Hdec Hwrap. revert l H2.
  induction l' as [|[i a] l' IH]; intros l H2; cbn in H2.
  - by apply Forall2_nil_inv_l in H2 as ->.
  - apply Forall2_cons_inv_l in H2 as (b & l0 & Hb & H2 & ->). cbn in *. rewrite Hdec in Hb. injection Hb as <-.
    rewrite Hwrap. by rewrite (IH _ H2).
Qed.
End Spaces.

(** Follow the writes of a transaction through the spaces. *)
Ltac kv_step :=
  match goal with
  | |- space_is ?key ?enc ?s (<[?key ?s _ := _]> _) _ => apply (space_insert key enc)
  | |- space_is ?key _ _ (<[?key _ _ := _]> _) _ => apply (space_insert_ne key); [discriminate|]
  | |- space_is ?key _ ?s (delete (?key ?s _) _) _ => apply (space_delete key)
  | |- space_is ?key _ _ (delete (?key _ _) _) _ => apply (space_delete_ne key); [discriminate|]
  | |- only_keys _ (<[_ := _]> _) => apply only_keys_insert
  | |- only_keys _ (delete _ _) => apply only_keys_delete
  | |- space_is _ _ _ ∅ ∅ => apply space_empty
  | |- only_keys _ ∅ => apply only_keys_empty
  end.
Ltac kv := cbn; repeat kv_step; try done.

#[global] Arguments be_bytes : simpl never.
#[global] Arguments i64_to_be_bytes : simpl never.
#[global] Arguments read_u32 : simpl never.
#[global] Arguments read_i64 : simpl never.
