(* ===== verification/RetryScheduler.v ===== *)
(** * Resubmission of transactions

    Model of [spectrum-ergo-connector/src/rocksdb/tx_retry_scheduler.rs], the
    store that tracks one submitted transaction and decides when to submit it
    again.  As in the source it is generic in what it tracks; the traits
    [IdentifyBy] and [Timestamped] of [tx_in_progress.rs] are a class.  The
    method that identifies a transaction may panic, as the conversion of
    deposits does for some addresses.

    The store and the codec are those of [KvStore]; the clock is an argument. *)

From S2P Require Import Prelude KvStore.

(** The bounds on the tracked type: [Eq], [Timestamped] and [IdentifyBy]. *)
Class Trackable (T U : Type) := {
  tx_eq : T -> T -> bool;
  timestamp_of : T -> Z;
  identified_by : T -> U -> outcome bool;
}.

Class TrackableLaws (T U : Type) `{Trackable T U} := {
  tx_eq_sym : forall x y, tx_eq x y = true -> tx_eq y x = true;
  tx_eq_trans : forall x y z, tx_eq x y = true -> tx_eq y z = true -> tx_eq x z = true;
}.

Inductive Status := InProgress | Aborted | Confirmed.

#[export] Instance Status_eq_dec : EqDecision Status.
Proof. solve_decision. Defined.

Inductive Command (T : Type) :=
| ResubmitTx (tx : T)
| Abort (tx : T)
| Wait (seconds : Z) (tx : T)
| ConfirmedTx (tx : T)
| Idle.
Arguments ResubmitTx {T}.
Arguments Abort {T}.
Arguments Wait {T}.
Arguments ConfirmedTx {T}.
Arguments Idle {T}.

(** ["e:"], ["c:"], ["r:"], ["s:"] *)
Abbreviation TX_KEY := [101; 58]%Z (only parsing).
Abbreviation COUNT_KEY := [99; 58]%Z (only parsing).
Abbreviation RETRY_TIMESTAMP_KEY := [114; 58]%Z (only parsing).
Abbreviation STATUS_KEY := [115; 58]%Z (only parsing).

#[local] Arguments checked : simpl never.

Section Scheduler.
Context {T U : Type} `{Trackable T U} `{Serde T} `{Serde Status}.

Record Scheduler := {
  db : gmap (list Z) (list Z);
  retry_delay_duration : Z;
  max_retries : Z;
}.

(** [new], over what the directory already holds. *)
Definition scheduler_new (stored : gmap (list Z) (list Z)) (delay retries : Z) : Scheduler :=
  {| db := <[COUNT_KEY := be_bytes 4 0]> stored; retry_delay_duration := delay; max_retries := retries |}.

Definition scheduler_add (data : T) (s : Scheduler) : outcome Scheduler :=
  retry_at ← checked i64_min i64_max (timestamp_of data + retry_delay_duration s);
  Done (s <| db ::= fun db => <[RETRY_TIMESTAMP_KEY := i64_to_be_bytes retry_at]>
    (<[STATUS_KEY := to_vec InProgress]> (<[COUNT_KEY := be_bytes 4 0]> (<[TX_KEY := to_vec data]> db))) |>).

Definition next_command (ts_now : Z) (s : Scheduler) : outcome (Command T) :=
  match db s !! TX_KEY with
  | Some value_bytes =>
    status_bytes ← unwrap (db s !! STATUS_KEY);
    status ← unwrap (from_slice status_bytes);
    tx ← unwrap (from_slice value_bytes);
    match status with
    | InProgress =>
      timestamp_bytes ← unwrap (db s !! RETRY_TIMESTAMP_KEY);
      next_timestamp ← read_i64 timestamp_bytes;
      if (next_timestamp <=? ts_now)%Z then Done (ResubmitTx tx)
      else d ← checked i64_min i64_max (next_timestamp - ts_now); Done (Wait d tx)
    | Confirmed => Done (ConfirmedTx tx)
    | Aborted => Done (Abort tx)
    end
  | None => Done Idle
  end.

Definition notify_confirmed (data : T) (s : Scheduler) : outcome Scheduler :=
  value_bytes ← unwrap (db s !! TX_KEY);
  value ← unwrap (from_slice value_bytes);
  if tx_eq value data
  then Done (s <| db ::= fun db => <[COUNT_KEY := be_bytes 4 0]> (<[STATUS_KEY := to_vec Confirmed]> db) |>)
  else Panic.

Definition notify_failed (data : T) (s : Scheduler) : outcome Scheduler :=
  value_bytes ← unwrap (db s !! TX_KEY);
  value ← unwrap (from_slice value_bytes);
  if tx_eq value data then
    count_bytes ← unwrap (db s !! COUNT_KEY);
    count ← read_u32 count_bytes;
    count' ← checked 0 u32_max (count + 1);
    let db' := <[COUNT_KEY := be_bytes 4 count']> (<[TX_KEY := to_vec data]> (db s)) in
    Done (s <| db := if (count' =? max_retries s)%Z then <[STATUS_KEY := to_vec Aborted]> db' else db' |>)
  else Panic.

(** [clear_confirmed] and [clear_aborted] differ in the status they expect. *)
Definition clear_tx (expected : Status) (element : U) (s : Scheduler) : outcome Scheduler :=
  match db s !! TX_KEY with
  | Some value_bytes =>
    value ← unwrap (from_slice value_bytes);
    ok ← identified_by value element;
    if (ok : bool) then
      status_bytes ← unwrap (db s !! STATUS_KEY);
      status ← unwrap (from_slice status_bytes);
      if bool_decide (status = expected) then Done (s <| db ::= delete TX_KEY |>) else Panic
    else Panic
  | None => Done s
  end.

(** ** The specification: at most one tracked transaction *)

Record Tracked := { t_tx : T; t_status : Status; t_count : Z; t_retry_at : Z }.

Inductive Op := OAdd (d : T) | OConfirmed (d : T) | OFailed (d : T) | OClear (st : Status) (u : U) | ORestart.

Definition run_op (s : Scheduler) (o : Op) : outcome Scheduler :=
  match o with
  | OAdd d => scheduler_add d s
  | OConfirmed d => notify_confirmed d s
  | OFailed d => notify_failed d s
  | OClear st u => clear_tx st u s
  | ORestart => Done (scheduler_new (db s) (retry_delay_duration s) (max_retries s))
  end.

Definition spec_op (delay retries : Z) (a : option Tracked) (o : Op) : outcome (option Tracked) :=
  match o, a with
  | OAdd d, _ =>
    at_ ← checked i64_min i64_max (timestamp_of d + delay);
    Done (Some {| t_tx := d; t_status := InProgress; t_count := 0; t_retry_at := at_ |})
  | OConfirmed d, Some t => if tx_eq (t_tx t) d then Done (Some (t <| t_status := Confirmed |> <| t_count := 0%Z |>)) else Panic
  | OFailed d, Some t =>
    if tx_eq (t_tx t) d then
      n ← checked 0 u32_max (t_count t + 1);
      Done (Some {| t_tx := d; t_status := if (n =? retries)%Z then Aborted else t_status t;
                    t_count := n; t_retry_at := t_retry_at t |})
    else Panic
  | OClear st u, Some t =>
    ok ← identified_by (t_tx t) u;
    if (ok : bool) && bool_decide (t_status t = st) then Done None else Panic
  | OClear _ _, None => Done None
  | ORestart, _ => Done ((fun t => t <| t_count := 0%Z |>) <$> a)
  | (OConfirmed _ | OFailed _), None => Panic
  end.

Definition spec_command (now : Z) (a : option Tracked) : outcome (Command T) :=
  match a with
  | None => Done Idle
  | Some t =>
    match t_status t with
    | InProgress =>
      if (t_retry_at t <=? now)%Z then Done (ResubmitTx (t_tx t))
      else d ← checked i64_min i64_max (t_retry_at t - now); Done (Wait d (t_tx t))
    | Confirmed => Done (ConfirmedTx (t_tx t))
    | Aborted => Done (Abort (t_tx t))
    end
  end.

(** The store holds the tracked transaction. *)
Definition holds (m : gmap (list Z) (list Z)) (a : option Tracked) : Prop :=
  match a with
  | None => m !! TX_KEY = None
  | Some t =>
    m !! TX_KEY = Some (to_vec (t_tx t)) /\ m !! STATUS_KEY = Some (to_vec (t_status t)) /\
    m !! COUNT_KEY = Some (be_bytes 4 (t_count t)) /\ (0 <= t_count t <= u32_max)%Z /\
    m !! RETRY_TIMESTAMP_KEY = Some (i64_to_be_bytes (t_retry_at t)) /\ (i64_min <= t_retry_at t <= i64_max)%Z
  end.

Definition represents (delay retries : Z) (s : Scheduler) (a : option Tracked) : Prop :=
  holds (db s) a /\ retry_delay_duration s = delay /\ max_retries s = retries.

(** ** The store implements the specification *)

Context `{!SerdeLaws T} `{!SerdeLaws Status}.

Ltac read_store :=
  repeat (rewrite from_to_vec || (rewrite read_u32_bytes by done) || (rewrite read_i64_bytes by done)); outcome_cbn.

(** Look up what a sequence of writes left in the store. *)
Ltac written := unfold const; repeat (rewrite lookup_insert_eq || rewrite lookup_delete_eq || (rewrite lookup_insert_ne by done)).

Lemma u32_zero : (0 <= 0 <= u32_max)%Z.
Proof. unfold u32_max. lia. Qed.

Lemma next_command_spec delay retries s a now :
  represents delay retries s a -> next_command now s = spec_command now a.
Proof.
  intros [Hh _]. unfold next_command, spec_command. destruct a as [t|]; cbn in Hh; [|by rewrite Hh].
  destruct Hh as (-> & -> & _ & _ & -> & Hr). outcome_cbn. read_store.
  destruct (t_status t); [|done..]. by read_store.
Qed.

Lemma run_op_spec delay retries s a o :
  represents delay retries s a -> agrees (represents delay retries) (run_op s o) (spec_op delay retries a o).
Proof.
  intros (Hh & Hd & Hm). destruct o as [d|d|d|st u|]; cbn [run_op spec_op].
  - unfold scheduler_add. rewrite Hd. destruct (checked _ _ _) as [r| |] eqn:Hc; [|done|].
    + apply checked_Done in Hc as [Hr ->]. outcome_cbn. repeat split; cbn; written; try done; apply u32_zero || lia.
    + unfold checked in Hc. by case_bool_decide.
  - unfold notify_confirmed. destruct a as [t|]; cbn in Hh; [|by rewrite Hh].
    destruct Hh as (Htx & Hst & Hc & Hcr & Hr & Hrr). rewrite Htx. outcome_cbn. read_store.
    destruct (tx_eq _ _); [|done]. repeat split; cbn; written; try done; apply u32_zero || lia.
  - unfold notify_failed. destruct a as [t|]; cbn in Hh; [|by rewrite Hh].
    destruct Hh as (Htx & Hst & Hc & Hcr & Hr & Hrr). rewrite Htx. outcome_cbn. read_store.
    destruct (tx_eq _ _); [|done]. rewrite Hc. outcome_cbn. read_store. rewrite Hm.
    destruct (checked 0 u32_max _) as [n| |] eqn:Hn; [|done|unfold checked in Hn; by case_bool_decide].
    apply checked_Done in Hn as [Hn ->]. outcome_cbn.
    destruct (_ =? retries)%Z; repeat split; cbn; written; try done; lia.
  - unfold clear_tx. destruct a as [t|]; cbn in Hh; [|rewrite Hh; by repeat split].
    destruct Hh as (Htx & Hst & _). rewrite Htx. outcome_cbn. read_store.
    destruct (identified_by _ _) as [[]| |]; try done. outcome_cbn. rewrite Hst. outcome_cbn. read_store.
    cbn [andb]. case_bool_decide; [|done]. repeat split; cbn; by written.
  - repeat split; cbn; try done. destruct a as [t|]; cbn in *; [|by written].
    destruct Hh as (? & ? & ? & ? & ? & ?). written. repeat split; try done; apply u32_zero || lia.
Qed.

Lemma run_ops_spec delay retries ops s a :
  represents delay retries s a ->
  agrees (represents delay retries) (foldO run_op ops s) (foldO (spec_op delay retries) ops a).
Proof. apply agrees_foldO. intros. by apply run_op_spec. Qed.

(** C31: the scheduler refines its specification.  Whatever is done with a store
    that starts empty, restarts included, it panics exactly when the
    specification does; otherwise it tracks the same transaction, with the
    same status, count and time of the next retry, and answers each
    [next_command] as the specification does. *)
Theorem scheduler_refines_spec delay retries ops :
  agrees (fun s a => represents delay retries s a /\ forall now, next_command now s = spec_command now a)
    (foldO run_op ops (scheduler_new ∅ delay retries)) (foldO (spec_op delay retries) ops None).
Proof.
  assert (represents delay retries (scheduler_new ∅ delay retries) None) as Hnew by (repeat split; by cbn; written).
  pose proof (run_ops_spec delay retries ops _ _ Hnew) as Hr.
  destruct (foldO run_op _ _), (foldO (spec_op _ _) _ _); try done.
  split; [done|]. intros now. by eapply next_command_spec.
Qed.

(** ** What the retries amount to *)

Lemma failures_spec delay retries ds t :
  TrackableLaws T U -> Forall (fun d => tx_eq (t_tx t) d = true) ds ->
  (0 <= t_count t)%Z -> (t_count t + Z.of_nat (length ds) <= u32_max)%Z ->
  foldO (spec_op delay retries) (OFailed <$> ds) (Some t) = Done (Some {|
    t_tx := default (t_tx t) (last ds);
    t_status := if bool_decide (t_count t < retries <= t_count t + Z.of_nat (length ds))%Z then Aborted else t_status t;
    t_count := t_count t + Z.of_nat (length ds); t_retry_at := t_retry_at t |}).
Proof.
  intros Hlaws. revert t. induction ds as [|d ds IH]; intros t Hds Hpos Hmax.
  - cbn. rewrite bool_decide_false by lia. rewrite Z.add_0_r. by destruct t.
  - apply Forall_cons in Hds as [Hd Hds]. cbn [fmap list_fmap foldO spec_op]. rewrite Hd.
    cbn [length] in Hmax. rewrite checked_in by lia. outcome_cbn. rewrite IH; cbn [t_tx t_count t_status t_retry_at]; try lia.
    + f_equal. f_equal. replace (length (d :: ds)) with (S (length ds)) by done.
      f_equal; [by rewrite last_cons; destruct (last ds)| |lia].
      destruct (Z.eqb_spec (t_count t + 1) retries); repeat case_bool_decide; try done; lia.
    + eapply Forall_impl; [exact Hds|]. intros x Hx. eapply tx_eq_trans; [|exact Hx]. by apply tx_eq_sym.
Qed.

(** A submitted transaction is given up after exactly [max_retries] failed
    retries.  Until then the scheduler says to wait until the delay has passed
    since the submission, and to submit again from then on: a failure counts
    and replaces the data, but the next retry is not delayed again.  With
    [max_retries] zero it is never given up. *)
Theorem retries_then_abort delay retries s0 a0 tx ds now :
  TrackableLaws T U -> represents delay retries s0 a0 ->
  Forall (fun d => tx_eq tx d = true) ds -> (Z.of_nat (length ds) <= u32_max)%Z ->
  (i64_min <= timestamp_of tx + delay <= i64_max)%Z ->
  exists s, foldO run_op (OAdd tx :: (OFailed <$> ds)) s0 = Done s /\
    let latest := default tx (last ds) in
    let due := (timestamp_of tx + delay)%Z in
    next_command now s =
      if bool_decide (0 < retries <= Z.of_nat (length ds))%Z then Done (Abort latest)
      else if (due <=? now)%Z then Done (ResubmitTx latest)
      else d ← checked i64_min i64_max (due - now); Done (Wait d latest).
Proof.
  intros Hlaws Hr Hds Hlen Hts. pose proof (run_ops_spec delay retries (OAdd tx :: (OFailed <$> ds)) _ _ Hr) as Hrun.
  cbn [foldO] in *. cbn [spec_op] in Hrun. rewrite checked_in in Hrun by done. cbn [mbind outcome_bind] in Hrun.
  rewrite failures_spec in Hrun by (done || cbn; lia).
  destruct (run_op s0 (OAdd tx) ≫= _) as [s| |]; [|done..]. exists s. split; [done|].
  rewrite (next_command_spec _ _ _ _ now Hrun). cbn [spec_command t_status t_count t_tx t_retry_at].
  repeat case_bool_decide; first [done | lia].
Qed.
End Scheduler.

(** ** A scheduler of numbered transactions *)

Module RetrySample.
(** A transaction is a number and a timestamp, which equality ignores. *)
Definition Tx : Type := Z * Z.

#[export] Instance tx_trackable : Trackable Tx Z := {|
  tx_eq := fun x y => (x.1 =? y.1)%Z;
  timestamp_of := snd;
  identified_by := fun x u => Done (x.1 =? u)%Z;
|}.

#[export] Instance tx_laws : TrackableLaws Tx Z.
Proof. split; cbn; intros *; rewrite !Z.eqb_eq; congruence. Qed.

#[export] Instance tx_serde : Serde Tx := {|
  to_vec := fun x => [x.1; x.2];
  from_slice := fun l => match l with [a; b] => Some (a, b) | _ => None end;
|}.

#[export] Instance tx_serde_laws : SerdeLaws Tx.
Proof. by intros [a b]. Qed.

#[export] Instance status_serde : Serde Status := {|
  to_vec := fun st => match st with InProgress => [0] | Aborted => [1] | Confirmed => [2] end%Z;
  from_slice := fun l =>
    match l with [0] => Some InProgress | [1] => Some Aborted | [2] => Some Confirmed | _ => None end%Z;
|}.

#[export] Instance status_serde_laws : SerdeLaws Status.
Proof. by intros []. Qed.

Definition tx : Tx := (7, 100)%Z.

Definition ops : list (Op (T := Tx) (U := Z)) := [OAdd tx; OFailed (7, 115); ORestart; OFailed (7, 120); OConfirmed (7, 130)]%Z.

(** The command that follows the operations. *)
Definition command_after (ops : list (Op (T := Tx) (U := Z))) (now : Z) : outcome (Command Tx) :=
  s ← foldO run_op ops (scheduler_new ∅ 10 3); next_command now s.

Lemma scheduler_refines_spec_witness :
  agrees (fun s a => represents 10 3 s a /\ forall now, next_command now s = spec_command now a)
    (foldO run_op ops (scheduler_new ∅ 10 3)) (foldO (spec_op 10 3) ops None) /\
  command_after ops 140 = Done (ConfirmedTx (7, 120)%Z).
Proof. split; [exact (scheduler_refines_spec (T := Tx) (U := Z) 10 3 ops)|vm_compute; reflexivity]. Defined.

Lemma empty_represents : represents (T := Tx) 10 3 (scheduler_new ∅ 10 3) None.
Proof. by repeat split. Qed.

(** The second retry is due although the first has just failed. *)
Lemma retries_then_abort_witness :
  exists s, foldO run_op [OAdd tx; OFailed (7, 115)%Z] (scheduler_new ∅ 10 3) = Done s /\
    next_command (T := Tx) 116 s = Done (ResubmitTx (7, 115)%Z).
Proof.
  destruct (retries_then_abort (T := Tx) (U := Z) 10 3 (scheduler_new ∅ 10 3) None tx [(7, 115)%Z] 116) as (s & Hs & Hc).
  - exact tx_laws.
  - exact empty_represents.
  - by repeat constructor.
  - vm_compute. discriminate.
  - split; vm_compute; discriminate.
  - exists s. split; [exact Hs|]. rewrite Hc. vm_compute. reflexivity.
Defined.
End RetrySample.
