(* ===== verification/ErgoStores.v ===== *)
(** * The stores of the Ergo connector

    Models of [spectrum-ergo-connector/src/rocksdb]: deposits ([deposit.rs]),
    vault boxes ([vault_boxes.rs], without the selection of boxes), withdrawals
    ([withdrawals.rs]) and the history of events ([ergo_tx_event_history.rs]).
    Each store is a map of byte strings; an abstract store of typed maps
    specifies it. *)

From S2P Require Import Prelude KvStore.

(** ** Deposits *)

Record UnprocessedDeposit (D : Type) := { unprocessed_box : D }.
Record ProcessedDeposit (D : Type) := { processed_box : D }.
Arguments unprocessed_box {D}.
Arguments processed_box {D}.

Module Deposits.
Inductive Space := UProcessed | UUnprocessed.

#[export] Instance Space_eq_dec : EqDecision Space.
Proof. solve_decision. Defined.

Section Deposits.
Context {D I : Type} `{Countable I}.

(** [BoxId]: its bytes, and the box of a deposit with its identifier. *)
Context (id_bytes : I -> bytes) (box_id : D -> I).
Context `{Serde (UnprocessedDeposit D)} `{Serde (ProcessedDeposit D)}.

(** ["p:"] and ["k:"] *)
Definition space_bytes (s : Space) : bytes :=
  match s with UProcessed => [112; 58] | UUnprocessed => [107; 58] end%Z.

Definition prefixed_key (s : Space) (id : I) : bytes := space_bytes s ++ id_bytes id.

Definition put (d : UnprocessedDeposit D) (db : Db) : Db :=
  <[prefixed_key UUnprocessed (box_id (unprocessed_box d)) := to_vec d]> db.

Definition process (id : I) (db : Db) : outcome Db :=
  unprocessed_bytes ← unwrap (db !! prefixed_key UUnprocessed id);
  d ← unwrap (from_slice unprocessed_bytes : option (UnprocessedDeposit D));
  Done (<[prefixed_key UProcessed id := to_vec {| processed_box := unprocessed_box d |}]>
          (delete (prefixed_key UUnprocessed id) db)).

Definition unprocess (id : I) (db : Db) : outcome Db :=
  processed_bytes ← unwrap (db !! prefixed_key UProcessed id);
  d ← unwrap (from_slice processed_bytes : option (ProcessedDeposit D));
  Done (<[prefixed_key UUnprocessed id := to_vec {| unprocessed_box := processed_box d |}]>
          (delete (prefixed_key UProcessed id) db)).

Definition get_processed (id : I) (db : Db) : outcome (option (ProcessedDeposit D)) :=
  match db !! prefixed_key UProcessed id with
  | Some b => d ← unwrap (from_slice b); Done (Some d)
  | None => Done None
  end.

Definition get_unprocessed (id : I) (db : Db) : outcome (option (UnprocessedDeposit D)) :=
  match db !! prefixed_key UUnprocessed id with
  | Some b => d ← unwrap (from_slice b); Done (Some d)
  | None => Done None
  end.

Definition remove_unprocessed (id : I) (db : Db) : outcome Db :=
  if bool_decide (is_Some (db !! prefixed_key UUnprocessed id)) &&
     bool_decide (db !! prefixed_key UProcessed id = None)
  then Done (delete (prefixed_key UUnprocessed id) db) else Panic.

Definition get_all_unprocessed_deposits (db : Db) : outcome (list (UnprocessedDeposit D)) :=
  mapO (fun e => unwrap (from_slice e.2)) (scan_prefix (space_bytes UUnprocessed) db).

(** *** The specification *)

Record Repo := { unprocessed : gmap I D; processed : gmap I D }.

Definition spec_put (d : UnprocessedDeposit D) (r : Repo) : Repo :=
  r <| unprocessed ::= <[box_id (unprocessed_box d) := unprocessed_box d]> |>.

(** A deposit moves from one map to the other. *)
Definition spec_process (id : I) (r : Repo) : outcome Repo :=
  d ← unwrap (unprocessed r !! id);
  Done {| unprocessed := delete id (unprocessed r); processed := <[id := d]> (processed r) |}.

Definition spec_unprocess (id : I) (r : Repo) : outcome Repo :=
  d ← unwrap (processed r !! id);
  Done {| unprocessed := <[id := d]> (unprocessed r); processed := delete id (processed r) |}.

Definition spec_remove (id : I) (r : Repo) : outcome Repo :=
  if bool_decide (is_Some (unprocessed r !! id)) && bool_decide (processed r !! id = None)
  then Done (r <| unprocessed ::= delete id |>) else Panic.

Record holds (db : Db) (r : Repo) : Prop := {
  holds_unprocessed : space_is prefixed_key (fun d => to_vec {| unprocessed_box := d |}) UUnprocessed db (unprocessed r);
  holds_processed : space_is prefixed_key (fun d => to_vec {| processed_box := d |}) UProcessed db (processed r);
  holds_only : only_keys prefixed_key db;
}.

#[local] Arguments prefixed_key : simpl never.

Context (id_inj : forall i j, id_bytes i = id_bytes j -> i = j).
Context `{!SerdeLaws (UnprocessedDeposit D)} `{!SerdeLaws (ProcessedDeposit D)}.

#[local] Instance deposit_spaces : KeySpaces prefixed_key.
Proof. unfold prefixed_key. intros [] i [] j E; cbn in E; try discriminate; injection E as E%id_inj; by subst. Qed.

Lemma deposits_empty : holds ∅ {| unprocessed := ∅; processed := ∅ |}.
Proof. split; kv. Qed.

Lemma put_spec d db r : holds db r -> holds (put d db) (spec_put d r).
Proof. intros [Hu Hp Ho]. unfold put, spec_put. destruct d. split; kv. Qed.

Lemma process_spec id db r : holds db r -> agrees holds (process id db) (spec_process id r).
Proof.
  intros [Hu Hp Ho]. unfold process, spec_process. rewrite (Hu id).
  destruct (unprocessed r !! id) as [d|]; cbn; [|done]. rewrite from_to_vec. cbn. split; kv.
Qed.

Lemma unprocess_spec id db r : holds db r -> agrees holds (unprocess id db) (spec_unprocess id r).
Proof.
  intros [Hu Hp Ho]. unfold unprocess, spec_unprocess. rewrite (Hp id).
  destruct (processed r !! id) as [d|]; cbn; [|done]. rewrite from_to_vec. cbn. split; kv.
Qed.

Lemma remove_unprocessed_spec id db r : holds db r -> agrees holds (remove_unprocessed id db) (spec_remove id r).
Proof.
  intros [Hu Hp Ho]. unfold remove_unprocessed, spec_remove. rewrite (Hu id), (Hp id).
  rewrite (bool_decide_ext _ (is_Some (unprocessed r !! id))) by apply fmap_is_Some.
  rewrite (bool_decide_ext (_ <$> _ = None) (processed r !! id = None)) by apply fmap_None.
  destruct (_ && _); cbn; [|done]. split; kv.
Qed.

Lemma get_unprocessed_spec id db r : holds db r ->
  get_unprocessed id db = Done ((fun d => {| unprocessed_box := d |}) <$> unprocessed r !! id).
Proof.
  intros [Hu _ _]. unfold get_unprocessed. rewrite (Hu id). destruct (unprocessed r !! id); cbn; [|done]. by rewrite from_to_vec.
Qed.

Lemma get_processed_spec id db r : holds db r ->
  get_processed id db = Done ((fun d => {| processed_box := d |}) <$> processed r !! id).
Proof.
  intros [_ Hp _]. unfold get_processed. rewrite (Hp id). destruct (processed r !! id); cbn; [|done]. by rewrite from_to_vec.
Qed.

Lemma unprocessed_prefix s i : space_bytes UUnprocessed `prefix_of` prefixed_key s i <-> s = UUnprocessed.
Proof. unfold prefixed_key. split; [destruct s; [by intros [l [=]]|done]|intros ->; by exists (id_bytes i)]. Qed.

Lemma get_all_unprocessed_spec db r : holds db r ->
  exists ds, get_all_unprocessed_deposits db = Done ds /\ unprocessed_box <$> ds ≡ₚ (map_to_list (unprocessed r)).*2.
Proof.
  intros [Hu _ Ho]. unfold get_all_unprocessed_deposits.
  apply (scan_values prefixed_key (fun d => to_vec {| unprocessed_box := d |}) (fun d => {| unprocessed_box := d |})
    (fun b => unwrap (from_slice b)) _ UUnprocessed); auto using unprocessed_prefix.
  intros x. by rewrite from_to_vec.
Qed.
End Deposits.
End Deposits.

(** ** Boxes that are predicted or confirmed

    [RepoRocksDB] of [withdrawals.rs] and [VaultUtxoRepoRocksDB] of
    [vault_boxes.rs] keep boxes in the same way, with different codecs. *)

Module BoxRepo.
Inductive Space := Confirmed | Predicted | Index | Spent.

#[export] Instance Space_eq_dec : EqDecision Space.
Proof. solve_decision. Defined.

(** ["key"], ["key_index"] and ["spent"] *)
Definition KEY_PREFIX : bytes := [107; 101; 121]%Z.
Definition KEY_INDEX_PREFIX : bytes := KEY_PREFIX ++ [95; 105; 110; 100; 101; 120]%Z.
Definition SPENT_PREFIX : bytes := [115; 112; 101; 110; 116]%Z.

(** What serialises prefixes, priorities and identifiers; [prefixed_key] is
    that of the [spectrum_offchain] crate. *)
Class KeyCodec (I : Type) := {
  ser_str : bytes -> bytes;
  ser_usize : nat -> bytes;
  ser_id : I -> bytes;
  prefixed_key : bytes -> I -> bytes;
}.

Section BoxRepo.
Context {B I : Type} `{Countable I} `{!KeyCodec I} `{!Serde B} (box_id : B -> I).

Definition box_key_prefix (prefix : bytes) (seq_num : nat) : bytes := ser_str prefix ++ ser_usize seq_num.

Definition box_key (prefix : bytes) (seq_num : nat) (id : I) : bytes := box_key_prefix prefix seq_num ++ ser_id id.

(** [CONFIRMED_PRIORITY] is 0 and [PREDICTED_PRIORITY] is 5. *)
Definition key (s : Space) (id : I) : bytes :=
  match s with
  | Confirmed => box_key KEY_PREFIX 0 id
  | Predicted => box_key KEY_PREFIX 5 id
  | Index => prefixed_key KEY_INDEX_PREFIX id
  | Spent => prefixed_key SPENT_PREFIX id
  end.

Definition put_confirmed (bx : B) (db : Db) : Db :=
  <[key Index (box_id bx) := key Confirmed (box_id bx)]> (<[key Confirmed (box_id bx) := to_vec bx]> db).

Definition put_predicted (bx : B) (db : Db) : Db :=
  <[key Index (box_id bx) := key Predicted (box_id bx)]> (<[key Predicted (box_id bx) := to_vec bx]> db).

Definition remove (id : I) (db : Db) : Db :=
  match db !! key Index id with
  | Some k => delete k (delete (key Index id) db)
  | None => db
  end.

(** [key_may_exist]; [fp] is a false positive of the filter of the store. *)
Definition may_exist (fp : bool) (id : I) (db : Db) : bool := fp || bool_decide (is_Some (db !! key Index id)).

(** [get_confirmation_height] of [withdrawals.rs]: a value that does not
    decode is ignored. *)
Definition get_confirmation_height (creation_height : B -> Z) (id : I) (db : Db) : option Z :=
  bytes ← db !! key Confirmed id; creation_height <$> from_slice bytes.

(** The other operations of [vault_boxes.rs]. *)
Definition get_confirmed (id : I) (db : Db) : outcome (option B) :=
  match db !! key Confirmed id with
  | Some b => v ← unwrap (from_slice b); Done (Some v)
  | None => Done None
  end.

Definition is_spent (db : Db) (id : I) : bool := bool_decide (is_Some (db !! key Spent id)).

Definition get_all_confirmed (db : Db) : outcome (list B) :=
  vs ← mapO (fun e => unwrap (from_slice e.2)) (scan_prefix (box_key_prefix KEY_PREFIX 0) db);
  Done (filter (fun v => is_spent db (box_id v) = false) vs).

Definition spend_box (id : I) (db : Db) : outcome Db :=
  if bool_decide (is_Some (db !! key Confirmed id)) then Done (<[key Spent id := []]> db) else Panic.

Definition unspend_box (id : I) (db : Db) : Db := delete (key Spent id) db.

(** *** The specification *)

(** The index refers to the latest of the two records of a box. *)
Record Repo := {
  confirmed : gmap I B;
  predicted : gmap I B;
  index : gmap I (Space * I);
  spent : gmap I unit;
}.

Record holds (db : Db) (r : Repo) : Prop := {
  holds_confirmed : space_is key to_vec Confirmed db (confirmed r);
  holds_predicted : space_is key to_vec Predicted db (predicted r);
  holds_index : space_is key (fun '(s, i) => key s i) Index db (index r);
  holds_spent : space_is key (fun _ => []) Spent db (spent r);
  holds_only : only_keys key db;
  index_ok : map_Forall (fun i e => e = (Confirmed, i) \/ e = (Predicted, i)) (index r);
  ids_ok : map_Forall (fun i b => box_id b = i) (confirmed r);
}.

Definition spec_put_confirmed (bx : B) (r : Repo) : Repo :=
  r <| confirmed ::= <[box_id bx := bx]> |> <| index ::= <[box_id bx := (Confirmed, box_id bx)]> |>.

Definition spec_put_predicted (bx : B) (r : Repo) : Repo :=
  r <| predicted ::= <[box_id bx := bx]> |> <| index ::= <[box_id bx := (Predicted, box_id bx)]> |>.

Definition spec_remove (id : I) (r : Repo) : Repo :=
  match index r !! id with
  | Some (Confirmed, _) => r <| index ::= delete id |> <| confirmed ::= delete id |>
  | Some (Predicted, _) => r <| index ::= delete id |> <| predicted ::= delete id |>
  | _ => r
  end.

Definition spec_spend (id : I) (r : Repo) : outcome Repo :=
  if bool_decide (is_Some (confirmed r !! id)) then Done (r <| spent ::= <[id := tt]> |>) else Panic.

Definition spec_unspend (id : I) (r : Repo) : Repo := r <| spent ::= delete id |>.

(** The confirmed boxes that are not spent. *)
Definition unspent (r : Repo) : gmap I B := filter (fun '(i, _) => spent r !! i = None) (confirmed r).

#[local] Arguments key : simpl never.

(** Keys of different kinds or of different boxes differ, and the prefix of
    confirmed boxes is a prefix of no other key. *)
Context `{!KeySpaces key}.
Context (confirmed_prefix : forall s i, box_key_prefix KEY_PREFIX 0 `prefix_of` key s i <-> s = Confirmed).
Context `{!SerdeLaws B}.

Lemma boxes_empty : holds ∅ {| confirmed := ∅; predicted := ∅; index := ∅; spent := ∅ |}.
Proof. split; kv; apply map_Forall_empty. Qed.

Lemma put_confirmed_spec bx db r : holds db r -> holds (put_confirmed bx db) (spec_put_confirmed bx r).
Proof.
  intros [Hc Hp Hi Hs Ho Hio Hid]. unfold put_confirmed. split; kv.
  - by apply (space_insert key (fun '(s, i) => key s i) _ _ _ _ (Confirmed, box_id bx)); kv.
  - by apply map_Forall_insert_2; [left|].
  - by apply map_Forall_insert_2.
Qed.

Lemma put_predicted_spec bx db r : holds db r -> holds (put_predicted bx db) (spec_put_predicted bx r).
Proof.
  intros [Hc Hp Hi Hs Ho Hio Hid]. unfold put_predicted. split; kv.
  - by apply (space_insert key (fun '(s, i) => key s i) _ _ _ _ (Predicted, box_id bx)); kv.
  - by apply map_Forall_insert_2; [right|].
Qed.

Lemma remove_spec id db r : holds db r -> holds (remove id db) (spec_remove id r).
Proof.
  intros [Hc Hp Hi Hs Ho Hio Hid]. unfold remove, spec_remove. rewrite (Hi id).
  destruct (index r !! id) as [[s i]|] eqn:E; [|by split]. cbn.
  destruct (Hio _ _ E) as [[= -> ->]|[= -> ->]]; split; kv; by apply map_Forall_delete.
Qed.

Lemma spend_box_spec id db r : holds db r -> agrees holds (spend_box id db) (spec_spend id r).
Proof.
  intros [Hc Hp Hi Hs Ho Hio Hid]. unfold spend_box, spec_spend. rewrite (Hc id).
  rewrite (bool_decide_ext _ (is_Some (confirmed r !! id))) by apply fmap_is_Some.
  case_bool_decide; [|done]. split; kv.
Qed.

Lemma unspend_box_spec id db r : holds db r -> holds (unspend_box id db) (spec_unspend id r).
Proof. intros [Hc Hp Hi Hs Ho Hio Hid]. unfold unspend_box. split; kv. Qed.

Lemma get_confirmed_spec id db r : holds db r -> get_confirmed id db = Done (confirmed r !! id).
Proof.
  intros [Hc _ _ _ _ _ _]. unfold get_confirmed. rewrite (Hc id). destruct (confirmed r !! id); cbn; [|done]. by rewrite from_to_vec.
Qed.

Lemma is_spent_spec id db r : holds db r -> is_spent db id = bool_decide (spent r !! id <> None).
Proof.
  intros [_ _ _ Hs _ _ _]. unfold is_spent. rewrite (Hs id). apply bool_decide_ext.
  rewrite fmap_is_Some. split; [intros [? ->]; done|by apply not_eq_None_Some].
Qed.

Lemma get_all_confirmed_spec db r : holds db r ->
  exists vs, get_all_confirmed db = Done vs /\ vs ≡ₚ (map_to_list (unspent r)).*2.
Proof.
  intros Hh. pose proof Hh as [Hc _ _ _ Ho _ Hid]. unfold get_all_confirmed.
  destruct (scan_values key to_vec (fun b : B => b) (fun b => unwrap (from_slice b)) (fun b => b) Confirmed
    (box_key_prefix KEY_PREFIX 0) db (confirmed r)) as (vs & -> & Hvs); auto.
  { intros x. by rewrite from_to_vec. }
  rewrite list_fmap_id in Hvs. cbn. eexists. split; [done|]. rewrite Hvs. unfold unspent.
  apply map_filter_values. intros i b Hb. rewrite (is_spent_spec _ _ _ Hh), (Hid _ _ Hb), bool_decide_eq_false.
  split; [intros E Hne; by apply Hne|apply dec_stable].
Qed.

(** A box that was predicted and then confirmed is removed once only: what was
    predicted stays in the store. *)
Lemma predicted_survives bx db r : holds db r ->
  exists r', holds (remove (box_id bx) (put_confirmed bx (put_predicted bx db))) r' /\
    confirmed r' !! box_id bx = None /\ predicted r' !! box_id bx = Some bx.
Proof.
  intros Hh. eexists. split; [by apply remove_spec, put_confirmed_spec, put_predicted_spec|].
  unfold spec_remove. cbn. rewrite lookup_insert_eq. cbn. by rewrite lookup_delete_eq, lookup_insert_eq.
Qed.
End BoxRepo.
End BoxRepo.

(** ** The history of events

    [ErgoTxEventHistoryRocksDB] and [InMemoryMovedValueHistory]. *)

Module Events.
Section Events.
Context {E : Type} `{!Serde E} (get_height : E -> Z).

Definition append (moved_value : E) (db : Db) : Db := <[be_bytes 4 (get_height moved_value) := to_vec moved_value]> db.

(** The [while] loop over the iterator. *)
Fixpoint get_loop (height : Z) (prev : option E) (l : list (bytes * bytes)) : outcome (option (E * Z)) :=
  match l with
  | [] => Done None
  | (key_bytes, value_bytes) :: l =>
    next_height ← read_u32 key_bytes;
    moved_value ← unwrap (from_slice value_bytes);
    match prev with
    | None => if (height <=? next_height)%Z then Done (Some (moved_value, next_height)) else get_loop height (Some moved_value) l
    | Some p =>
      if (get_height p <? height)%Z && (height <=? next_height)%Z
      then Done (Some (moved_value, get_height moved_value)) else get_loop height (Some moved_value) l
    end
  end.

Definition get (height : Z) (db : Db) : outcome (option (E * Z)) :=
  get_loop height None (scan_from (be_bytes 4 height) db).

(** The history in memory. *)
Definition mem_append (moved_value : E) (history : list E) : list E := history ++ [moved_value].

Fixpoint mem_get_loop (height : Z) (prev : option E) (l : list E) : option (E * Z) :=
  match l with
  | [] => None
  | moved_value :: l =>
    let next_height := get_height moved_value in
    match prev with
    | None => if (height <=? next_height)%Z then Some (moved_value, next_height) else mem_get_loop height (Some moved_value) l
    | Some p =>
      if (get_height p <? height)%Z && (height <=? next_height)%Z
      then Some (moved_value, get_height moved_value) else mem_get_loop height (Some moved_value) l
    end
  end.

Definition mem_get (height : Z) (history : list E) : option (E * Z) := mem_get_loop height None history.

(** *** What is stored *)

Definition u32_ok (h : Z) : Prop := (0 <= h <= u32_max)%Z.

(** The store holds one event per height. *)
Record holds (db : Db) (m : gmap Z E) : Prop := {
  holds_lookup : forall h, u32_ok h -> db !! be_bytes 4 h = to_vec <$> m !! h;
  holds_keys : forall k v, db !! k = Some v -> exists h, u32_ok h /\ k = be_bytes 4 h;
  holds_heights : map_Forall (fun h e => get_height e = h /\ u32_ok h) m;
}.

Definition entry (e : E) : bytes * bytes := (be_bytes 4 (get_height e), to_vec e).

(** The events of a map in the order of their heights. *)
Record listed (m : gmap Z E) (evs : list E) : Prop := {
  listed_sorted : StronglySorted (fun a b => get_height a < get_height b)%Z evs;
  listed_all : forall e, e ∈ evs <-> m !! get_height e = Some e;
}.

Lemma be_bytes_inj4 h h' : u32_ok h -> u32_ok h' -> be_bytes 4 h = be_bytes 4 h' -> h = h'.
Proof. intros H1 H2 Hb. pose proof (read_u32_bytes h H1) as E1. rewrite Hb, read_u32_bytes in E1 by done. congruence. Qed.

Lemma be_bytes_leb4 h h' : u32_ok h -> u32_ok h' -> bytes_leb (be_bytes 4 h) (be_bytes 4 h') = (h <=? h')%Z.
Proof. unfold u32_ok. rewrite u32_pow. intros. apply be_bytes_leb; lia. Qed.

Lemma events_empty : holds ∅ ∅.
Proof. split; [by intros|by intros ? ? ?|apply map_Forall_empty]. Qed.

Lemma append_spec e db m : u32_ok (get_height e) -> holds db m -> holds (append e db) (<[get_height e := e]> m).
Proof.
  intros He [Hl Hk Hh]. unfold append. split.
  - intros h Hok. destruct (decide (get_height e = h)) as [<-|Hne]; [by rewrite !lookup_insert_eq|].
    rewrite !lookup_insert_ne; [by apply Hl|done|]. intros Hb. by apply be_bytes_inj4 in Hb.
  - intros k v [[<- _]|[_ Hkv]]%lookup_insert_Some; eauto.
  - by apply map_Forall_insert_2.
Qed.

(** *** What is read *)

Context `{!SerdeLaws E}.

Lemma holds_scan db m : holds db m -> exists evs, scan db = entry <$> evs /\ listed m evs.
Proof.
  intros [Hl Hk Hh].
  assert (exists evs, scan db = entry <$> evs /\ forall e, e ∈ evs -> m !! get_height e = Some e) as (evs & Hs & Hin).
  { assert (forall x, x ∈ scan db -> exists e, x = entry e /\ m !! get_height e = Some e) as Hx.
    { intros [k v] Hkv%elem_of_scan. cbn in Hkv. destruct (Hk _ _ Hkv) as (h & Hok & ->).
      rewrite Hl in Hkv by done. apply fmap_Some in Hkv as (e & He & ->). destruct (Hh _ _ He) as [<- _]. by exists e. }
    revert Hx. generalize (scan db). intros l. induction l as [|x l IH]; intros Hx; [exists []; split; [done|by intros e ?%elem_of_nil]|].
    destruct (Hx x) as (e & -> & He); [left|]. destruct IH as (evs & -> & Hevs); [intros; apply Hx; by right|].
    exists (e :: evs). split; [done|]. by intros e' [->|]%elem_of_cons; auto. }
  exists evs. split; [done|]. split.
  - pose proof (scan_sorted db) as Hsort. pose proof (NoDup_scan db) as Hnd. rewrite Hs in Hsort, Hnd. clear Hs.
    induction evs as [|e evs IH]; [constructor|]. cbn in *. apply StronglySorted_inv in Hsort as [Hsort Hall].
    apply NoDup_cons in Hnd as [Hne Hnd]. constructor; [apply IH; try done; intros; apply Hin; by right|].
    apply Forall_forall. intros e' He'. rewrite Forall_forall in Hall.
    assert (He1 : m !! get_height e = Some e) by (apply Hin; left). assert (He2 : m !! get_height e' = Some e') by (apply Hin; by right).
    specialize (Hall (entry e') ltac:(by apply list_elem_of_fmap_2)). cbn in Hall.
    rewrite be_bytes_leb4 in Hall by (eapply Hh; eassumption). apply Z.leb_le in Hall.
    destruct (decide (get_height e = get_height e')) as [Heq|]; [|lia].
    rewrite Heq, He2 in He1. injection He1 as ->. destruct Hne. by apply list_elem_of_fmap_2.
  - intros e. split; [apply Hin|]. intros He. assert (entry e ∈ scan db) as Hx.
    { apply elem_of_scan. cbn. by rewrite Hl, He by (eapply Hh; eassumption). }
    rewrite Hs in Hx. apply list_elem_of_fmap in Hx as (e' & [= Hb Hv] & He').
    assert (from_slice (to_vec e) = from_slice (to_vec e')) as Ev by congruence. rewrite !from_to_vec in Ev. by injection Ev as ->.
Qed.

Lemma holds_scan_from db m evs h : holds db m -> u32_ok h -> scan db = entry <$> evs -> listed m evs ->
  scan_from (be_bytes 4 h) db = entry <$> filter (fun e => h <= get_height e)%Z evs.
Proof.
  intros [_ _ Hh] Hok Hs [_ Hall]. unfold scan_from. rewrite Hs.
  assert (forall e, e ∈ evs -> u32_ok (get_height e)) as Hr by (intros e He; eapply Hh, Hall, He). clear Hs Hall.
  induction evs as [|e evs IH]; [done|]. rewrite fmap_cons, !filter_cons. cbn [entry fst].
  rewrite be_bytes_leb4 by (done || apply Hr; left). specialize (IH ltac:(intros; apply Hr; by right)).
  destruct (Z.leb_spec h (get_height e)); repeat case_decide; try (done || lia); by rewrite IH.
Qed.

(** The least height from [h] on, with its event. *)
Lemma get_spec db m evs h : holds db m -> u32_ok h -> scan db = entry <$> evs -> listed m evs ->
  get h db = Done ((fun e => (e, get_height e)) <$> head (filter (fun e => h <= get_height e)%Z evs)).
Proof.
  intros Hh Hok Hs Hl. unfold get. rewrite (holds_scan_from db m evs h Hh Hok Hs Hl).
  destruct (filter _ evs) as [|e l] eqn:Ef; [done|].
  assert (e ∈ filter (fun e => h <= get_height e)%Z evs) as [He1 He2]%list_elem_of_filter by (rewrite Ef; left).
  cbn. rewrite read_u32_bytes; [|eapply Hh, Hl, He2]. cbn. rewrite from_to_vec. cbn.
  by rewrite (proj2 (Z.leb_le _ _)).
Qed.

Lemma sorted_NoDup evs : StronglySorted (fun a b => get_height a < get_height b)%Z evs -> NoDup evs.
Proof.
  induction 1 as [|e evs _ IH Hall]; constructor; [|done]. intros He. rewrite Forall_forall in Hall. specialize (Hall e He). lia.
Qed.

Lemma listed_unique m evs evs' : listed m evs -> listed m evs' -> evs = evs'.
Proof.
  intros [Hs1 Hl1] [Hs2 Hl2]. assert (AntiSymm (=) (fun a b => get_height a < get_height b)%Z) by (intros a b ? ?; lia).
  apply (StronglySorted_unique (fun a b => get_height a < get_height b)%Z); [done..|].
  apply NoDup_Permutation; [by apply sorted_NoDup..|]. intros e. by rewrite Hl1, Hl2.
Qed.

(** The history in memory returns the first event from the height on. *)
Lemma mem_get_loop_spec h prev l : (forall p, prev = Some p -> get_height p < h)%Z ->
  mem_get_loop h prev l = (fun e => (e, get_height e)) <$> head (filter (fun e => h <= get_height e)%Z l).
Proof.
  revert prev. induction l as [|e l IH]; intros prev Hp; [done|]. cbn [mem_get_loop]. rewrite filter_cons.
  destruct prev as [p|]; [rewrite (proj2 (Z.ltb_lt _ _)) by (by apply Hp); cbn [andb]|];
    (destruct (Z.leb_spec h (get_height e)); case_decide; [done|lia|lia|]; apply IH; by intros ? [= <-]).
Qed.

Definition append_all (evs : list E) : Db := foldl (fun db e => append e db) ∅ evs.

Definition latest (evs : list E) : gmap Z E := foldl (fun m e => <[get_height e := e]> m) ∅ evs.

Lemma append_all_holds evs : Forall (fun e => u32_ok (get_height e)) evs -> holds (append_all evs) (latest evs).
Proof.
  unfold append_all, latest. generalize events_empty. generalize (∅ : Db) (∅ : gmap Z E).
  induction evs as [|e evs IH]; intros db m Hm Hall; [done|]. apply Forall_cons in Hall as [He Hall]. apply IH; [|done].
  by apply append_spec.
Qed.

Lemma latest_listed evs : StronglySorted (fun a b => get_height a < get_height b)%Z evs -> listed (latest evs) evs.
Proof.
  intros Hs. split; [done|]. intros e.
  assert (forall m : gmap Z E, (forall e, e ∈ evs -> m !! get_height e = None) ->
    foldl (fun m e => <[get_height e := e]> m) m evs !! get_height e = Some e <-> e ∈ evs \/ m !! get_height e = Some e) as Hm.
  { clear -Hs. induction Hs as [|x evs _ IH Hall]; intros m Hm; cbn [foldl]; [set_solver|].
    rewrite Forall_forall in Hall. rewrite IH.
    - rewrite elem_of_cons, lookup_insert_Some. specialize (Hm x ltac:(left)).
      split; [intros [?|[[_ ->]|[_ ?]]]; auto|]. intros [[->|?]|He]; auto.
      destruct (decide (get_height x = get_height e)) as [Hx|]; [rewrite Hx in Hm; congruence|auto].
    - intros y Hy. specialize (Hall y Hy). rewrite lookup_insert_ne by lia. apply Hm. by right. }
  unfold latest. rewrite Hm by (intros; apply lookup_empty). rewrite lookup_empty. naive_solver.
Qed.

(** The two histories agree as long as each event is higher than the ones
    before. *)
Lemma histories_agree evs h : Forall (fun e => u32_ok (get_height e)) evs -> u32_ok h ->
  StronglySorted (fun a b => get_height a < get_height b)%Z evs ->
  get h (append_all evs) = Done (mem_get h (foldl (fun l e => mem_append e l) [] evs)).
Proof.
  intros Hok Hh Hs. pose proof (append_all_holds evs Hok) as Hholds.
  destruct (holds_scan _ _ Hholds) as (evs' & Hscan & Hl).
  assert (evs' = evs) as -> by (eapply listed_unique; [exact Hl|by apply latest_listed]).
  rewrite (get_spec _ _ _ _ Hholds Hh Hscan Hl). unfold mem_get. rewrite mem_get_loop_spec by done.
  do 4 f_equal. symmetry. assert (forall l, foldl (fun l e => mem_append e l) l evs = l ++ evs) as Hf.
  { clear. induction evs as [|e evs IH]; intros l; cbn; [by rewrite app_nil_r|]. rewrite IH. unfold mem_append. by rewrite <- app_assoc. }
  by rewrite Hf.
Qed.

(** Of two events at one height the store keeps the last only. *)
Lemma same_height_lost e e' db : get_height e' = get_height e -> append e' (append e db) = append e' db.
Proof. intros He. unfold append. by rewrite He, insert_insert_eq. Qed.
End Events.
End Events.
