(* ===== verification/NodeView.v ===== *)
(** * The view of a node

    Model of [spectrum-node/src/node_view.rs]: modifiers that arrive in the
    mailbox are validated and applied to the history.  The history is read and
    written through its traits, the error handler is recorded by the errors it
    was given. *)

From S2P Require Import Prelude Crypto Vrf Validation Diffusion Consensus.

Section NodeView.
Context `{H : Hasher, C : Curve}.
Context (encode_body : HeaderBody -> list Z) (lottery_threshold : Z -> Z -> Z -> Z * Z -> Z).
Context {Hst S RS PP Bd Tx : Type}.
Context `{!LedgerHistoryReadSync Hst, !LedgerState S, !ConsensusRuleSet RS, !ProtocolParams PP}.

#[local] Existing Instance header_modifier.

Abbreviation NodeModifier := (AnyModifier (Hd := BlockHeader) (Bd := Bd) (Tx := Tx)) (only parsing).

Class LedgerHistoryWrite := apply_header : Hst -> BlockHeader -> Hst.
Context `{!LedgerHistoryWrite}.

Record NodeView := {
  nv_state : S;
  nv_history : Hst;
  nv_errors : list (InvalidModifier (D := Details));
  nv_rules : RS;
  nv_protocol : PP;
}.

(** Bodies and transactions run into [todo!()]. *)
Definition node_apply_modifier (n : NodeView) (modifier : NodeModifier)
    : outcome (NodeView + InvalidModifier (D := Details)) :=
  match modifier with
  | MBlockHeader hd =>
    v ← validate_block_header encode_body lottery_threshold hd (nv_history n) (nv_state n) (nv_rules n) (nv_protocol n);
    Done (match result (H := header_modifier encode_body) v with
          | inl valid_hd => inl (n <| nv_history ::= fun h => apply_header h valid_hd |>)
          | inr e => inr e
          end)
  | MBlockBody _ => Panic
  | MTransaction _ => Panic
  end.

Definition node_view_on_event (n : NodeView) (md : NodeModifier) : outcome NodeView :=
  r ← node_apply_modifier n md;
  Done (match r with inl n => n | inr e => n <| nv_errors ::= fun es => es ++ [e] |> end).

(** [poll_next] takes what is in the inbox; it panics when the inbox is closed. *)
Definition node_view_poll (inbox : list NodeModifier) (closed : bool) (n : NodeView) : outcome NodeView :=
  n ← foldO node_view_on_event inbox n;
  if closed then Panic else Done n.

(** ** What a poll does *)

Definition slots_ok (h : Hst) : Prop :=
  forall id hd, get_header h id = Some hd -> (0 <= slot_num (body hd) <= u64_max)%Z.

Definition header_id (hd : BlockHeader) : list Z := hash (encode_body (body hd)).

(** Reading a history back after a header was applied. *)
Class HistoryLaws := get_apply_header : forall h hd id,
  get_header (apply_header h hd) id = if bool_decide (id = header_id hd) then Some hd else get_header h id.

(** A header follows a stored parent, in a later slot and not too far from it. *)
Definition follows (protocol : PP) (h : Hst) (b : HeaderBody) : Prop :=
  exists parent, get_header h (prev_id b) = Some parent /\
    (slot_num (body parent) < slot_num b <= slot_num (body parent) + fk protocol)%Z.

Definition linked (protocol : PP) (origin : list Z) (h : Hst) : Prop :=
  forall id hd, get_header h id = Some hd -> id = header_id hd /\ (id = origin \/ follows protocol h (body hd)).

(** What becomes of the headers in the mailbox, one after the other: the
    admissible ones are stored, the others are reported with one violation. *)
Inductive handled : NodeView -> list BlockHeader -> NodeView -> Prop :=
| handled_none n : handled n [] n
| handled_stored n hd hds n' :
    admissible lottery_threshold hd (nv_history n) (nv_state n) (nv_protocol n) ->
    handled (n <| nv_history ::= fun h => apply_header h hd |>) hds n' -> handled n (hd :: hds) n'
| handled_reported n hd hds e n' :
    ~ admissible lottery_threshold hd (nv_history n) (nv_state n) (nv_protocol n) ->
    inv_modifier_id e = header_id hd -> length (violations e) = 1 ->
    handled (n <| nv_errors ::= fun es => es ++ [e] |>) hds n' -> handled n (hd :: hds) n'.

Lemma admissible_follows n hd :
  admissible lottery_threshold hd (nv_history n) (nv_state n) (nv_protocol n) ->
  follows (nv_protocol n) (nv_history n) (body hd).
Proof. intros (parent & _ & _ & Hp & Hs & _). by exists parent. Qed.

Context `{!HistoryLaws}.

(** The seeds of the epochs can be computed. *)
Definition seeds_defined (state : S) (protocol : PP) : Prop := forall epoch proof,
  get_epoch_rand_proof state epoch = Some proof ->
  is_done (proof_to_random_number proof EPOCH_MEMBERSHIP_SALT (base_vrf_range protocol)) = true.

Lemma on_header_cases n hd :
  (0 <= slot_num (body hd) <= u64_max)%Z -> slots_ok (nv_history n) -> seeds_defined (nv_state n) (nv_protocol n) ->
  exists n', node_view_on_event n (MBlockHeader hd) = Done n' /\ slots_ok (nv_history n') /\
    nv_state n' = nv_state n /\ nv_protocol n' = nv_protocol n /\
    forall hds n'', handled n' hds n'' -> handled n (hd :: hds) n''.
Proof.
  intros Hs Hh Hseeds. unfold node_view_on_event. cbn [node_apply_modifier].
  pose proof (header_verdict encode_body lottery_threshold hd (nv_history n) (nv_state n) (nv_rules n) (nv_protocol n) Hs Hh) as V.
  destruct (validate_block_header _ _ _ _ _ _ _) as [v| |]; cbn [fmap outcome_fmap verdict_ok] in V;
    [|destruct V as (proof & Hp & Hd); by rewrite (Hseeds _ _ Hp) in Hd..].
  cbn. destruct (result v) as [hd'|e].
  - destruct V as [-> Hadm]. eexists. split; [done|]. split; [|split; [done|]; split; [done|]; intros; by eapply handled_stored].
    intros id hd'. cbn. rewrite get_apply_header. case_bool_decide; [by intros [= <-]|apply Hh].
  - destruct V as (Hadm & Hid & Hl). eexists. split; [done|]. split; [done|]. split; [done|]. split; [done|].
    intros. by eapply handled_reported.
Qed.

Lemma poll_handles hds n :
  Forall (fun hd => 0 <= slot_num (body hd) <= u64_max)%Z hds -> slots_ok (nv_history n) ->
  seeds_defined (nv_state n) (nv_protocol n) ->
  exists n', node_view_poll (MBlockHeader <$> hds) false n = Done n' /\ handled n hds n'.
Proof.
  unfold node_view_poll. intros Hs. revert n. induction Hs as [|hd hds Hhd _ IH]; intros n Hn Hseeds.
  - exists n. split; [done|constructor].
  - cbn [fmap list_fmap foldO]. destruct (on_header_cases n hd Hhd Hn Hseeds) as (n1 & -> & Hn1 & Est & Epr & Hstep).
    cbn [mbind outcome_bind]. destruct (IH n1 Hn1) as (n' & E & Hh); [by rewrite Est, Epr|]. exists n'. split; [done|]. by apply Hstep.
Qed.

(** Identifiers do not collide. *)
Context (collision_free : forall b b', hash (encode_body b) = hash (encode_body b') -> b = b').

Lemma follows_apply protocol origin h hd b :
  linked protocol origin h -> follows protocol h b -> follows protocol (apply_header h hd) b.
Proof.
  intros Hl (p & Hp & Hslot). unfold follows. rewrite get_apply_header. case_bool_decide as Hid; [|by exists p].
  destruct (Hl _ _ Hp) as [Hp' _]. exists hd. split; [done|].
  rewrite (collision_free (body hd) (body p)); [done|]. unfold header_id in *. congruence.
Qed.

Lemma handled_linked origin n hds n' : handled n hds n' ->
  linked (nv_protocol n) origin (nv_history n) -> linked (nv_protocol n') origin (nv_history n').
Proof.
  induction 1 as [|n hd hds n' Hadm _ IH|n hd hds e n' _ _ _ _ IH]; intros Hl; [done| |by apply IH].
  apply IH. cbn. intros id hd'. rewrite get_apply_header. case_bool_decide as Hid.
  - intros [= <-]. split; [done|]. right. eapply follows_apply; [exact Hl|]. by apply admissible_follows.
  - intros Hg. destruct (Hl _ _ Hg) as [-> [->|Hf']]; split; auto. right. by eapply follows_apply.
Qed.

Lemma handled_sources n hds n' id hd : handled n hds n' ->
  get_header (nv_history n') id = Some hd -> get_header (nv_history n) id = Some hd \/ hd ∈ hds.
Proof.
  induction 1 as [|n hd0 hds n' _ _ IH|n hd0 hds e n' _ _ _ _ IH]; intros Hg; [by left| |].
  - destruct (IH Hg) as [Hv|Hin]; [|by right; right]. cbn in Hv. rewrite get_apply_header in Hv.
    case_bool_decide; [injection Hv as <-; right; left|by left].
  - destruct (IH Hg) as [Hv|Hin]; [by left|by right; right].
Qed.

(** C17: the node view keeps a chain.  Polled with headers in its mailbox it
    returns, if the seeds of the epochs can be computed, having stored those
    whose parent is known at the time, whose slot is later and within the bound
    of the protocol, whose author is registered and for which the lottery of the
    epoch is won, and having reported each of the others with one violation.  If
    before every stored header but the origin follows a stored parent, in a later
    slot within the bound of the protocol, this holds afterwards, and what is
    stored was stored before or arrived. *)
Theorem node_view_keeps_chain origin hds n :
  Forall (fun hd => 0 <= slot_num (body hd) <= u64_max)%Z hds -> slots_ok (nv_history n) ->
  seeds_defined (nv_state n) (nv_protocol n) ->
  exists n', node_view_poll (MBlockHeader <$> hds) false n = Done n' /\ handled n hds n' /\
    (linked (nv_protocol n) origin (nv_history n) -> linked (nv_protocol n') origin (nv_history n')) /\
    forall id hd, get_header (nv_history n') id = Some hd -> get_header (nv_history n) id = Some hd \/ hd ∈ hds.
Proof.
  intros Hs Hh Hseeds. destruct (poll_handles hds n Hs Hh Hseeds) as (n' & E & Hd). exists n'.
  split; [done|]. split; [done|]. split; [by eapply handled_linked|]. intros id hd. by apply handled_sources.
Qed.
End NodeView.

(** ** A node with an origin, polled with two headers *)

Import IntCurve.

Module NodeSample.
Import ConsensusSample.

(** A hash function without collisions. *)
#[local] Instance id_hasher : Hasher := fun b => b.

Definition encode_body (b : HeaderBody (C := int_curve)) : list Z :=
  [Z.of_nat (length (prev_id b)); block_num b; slot_num b; vrf_vk b; gamma (vrf_proof b); Vrf.c (vrf_proof b);
   Vrf.s (vrf_proof b); protocol_version b] ++ prev_id b ++ block_body_root b.

Lemma encode_body_inj b b' : hash (encode_body b) = hash (encode_body b') -> b = b'.
Proof.
  destruct b as [p1 n1 s1 v1 [g1 c1 t1] r1 w1], b' as [p2 n2 s2 v2 [g2 c2 t2] r2 w2]. unfold hash, hf, id_hasher, encode_body.
  cbn. intros [= Hl%Nat2Z.inj -> -> -> -> -> -> -> Hl']. by apply app_inj_1 in Hl' as [-> ->].
Qed.

Definition Store : Type := gmap (list Z) Header.

#[local] Instance store_read : LedgerHistoryReadSync (C := int_curve) Store := fun h id => h !! id.

#[local] Instance store_write : LedgerHistoryWrite (C := int_curve) (Hst := Store) :=
  fun h hd => <[header_id encode_body hd := hd]> h.

#[local] Instance store_laws : HistoryLaws encode_body (Hst := Store).
Proof.
  intros h hd id. unfold get_header, store_read, apply_header, store_write.
  case_bool_decide as E; [subst id; apply lookup_insert_eq|by apply lookup_insert_ne].
Qed.

Definition origin : Header := header [] 10.
Definition child : Header := header (header_id encode_body origin) 11.

(** A header whose parent is not known. *)
Definition orphan : Header := header [9%Z] 12.

Definition node : NodeView (Hst := Store) (S := unit) (RS := unit) (PP := unit) := {|
  nv_state := tt; nv_history := {[header_id encode_body origin := origin]}; nv_errors := [];
  nv_rules := tt; nv_protocol := tt |}.

Definition polled : outcome (NodeView (Hst := Store) (S := unit) (RS := unit) (PP := unit)) :=
  node_view_poll (Bd := unit) (Tx := unit) encode_body half (MBlockHeader <$> [child; orphan]) false node.

(** The errors and the stored headers after the poll. *)
Definition observed : outcome (nat * (option Header * option Header)) :=
  n ← polled; Done (length (nv_errors n), (nv_history n !! header_id encode_body child, nv_history n !! header_id encode_body orphan)).

Lemma node_headers id hd : get_header (nv_history node) id = Some hd -> id = header_id encode_body origin /\ hd = origin.
Proof. unfold get_header, store_read, node. cbn [nv_history]. by intros [<- <-]%lookup_singleton_Some. Qed.

Lemma node_slots : slots_ok (nv_history node).
Proof. intros id hd [_ ->]%node_headers. cbn. unfold u64_max. lia. Qed.

Lemma node_linked : linked encode_body tt (header_id encode_body origin) (nv_history node).
Proof. intros id hd [-> ->]%node_headers. split; [done|by left]. Qed.

Lemma node_view_keeps_chain_witness : exists n', polled = Done n' /\
  length (nv_errors n') = 1 /\ nv_history n' !! header_id encode_body child = Some child /\
  linked encode_body (nv_protocol n') (header_id encode_body origin) (nv_history n').
Proof.
  destruct (node_view_keeps_chain (Bd := unit) (Tx := unit) encode_body half encode_body_inj
    (header_id encode_body origin) [child; orphan] node) as (n' & E & _ & Hl & _).
  - repeat constructor; vm_compute; discriminate.
  - exact node_slots.
  - intros epoch p [= <-]. vm_compute. reflexivity.
  - exists n'. split; [exact E|]. assert (observed = Done (1, (Some child, None))) as Ho by (vm_compute; reflexivity).
    unfold observed, polled in Ho. rewrite E in Ho. cbn [mbind outcome_bind] in Ho. injection Ho as Hn Hc _.
    split; [exact Hn|]. split; [exact Hc|exact (Hl node_linked)].
Defined.
End NodeSample.
