(* ===== verification/ErgoBoxes.v ===== *)
(** * Boxes of the Ergo chain and the committee

    The boxes the Ergo connector reads and writes, and models of
    [spectrum-ergo-connector/src/committee.rs], of
    [VaultUtxo::try_from_box] in [vault_utxo.rs] and of [ErgoConnector::new].
    [ergo_lib] is third-party code: [ErgoLib] names what the connector uses of
    it and [ErgoLibLaws] states what is documented of that. *)

From S2P Require Import Ledger Crypto Prelude KvStore.

(** ** Boxes *)

Abbreviation BoxId := (list Z) (only parsing).

Record Token := { token_id : list Z; amount : Z }.

#[export] Instance Token_eq_dec : EqDecision Token.
Proof. solve_decision. Defined.

Inductive SType := SInt | SGroupElement | SCollByte | SOther (code : nat).

#[export] Instance SType_eq_dec : EqDecision SType.
Proof. solve_decision. Defined.

(** [BoxTokens] and [TxIoVec]: lists that are not empty. *)
Abbreviation TxIoVec A := (A * list A)%type (only parsing).

Definition io_list {A} (v : TxIoVec A) : list A := v.1 :: v.2.

Section Types.
Context `{C : Curve}.

(** [Literal]: the cases the connector distinguishes.  A point or an integer
    converts into the literal of its case. *)
Inductive Literal :=
| LInt (n : Z)
| LGroupElement (p : Point)
| LCollByte (bytes_i8 : list Z)
| LWrappedColl (elem_tpe : SType) (items : list Literal)
| LOther (serialized : list Z).

#[export] Instance Literal_eq_dec : EqDecision Literal.
Proof.
  refine (fix go (x y : Literal) : Decision (x = y) :=
    match x, y with
    | LInt a, LInt b => cast_if (decide (a = b))
    | LGroupElement a, LGroupElement b => cast_if (decide (a = b))
    | LCollByte a, LCollByte b => cast_if (decide (a = b))
    | LWrappedColl t a, LWrappedColl t' b =>
      cast_if_and (decide (t = t'))
        ((fix gos (l k : list Literal) : Decision (l = k) :=
          match l, k with
          | [], [] => left _
          | u :: l, v :: k => cast_if_and (go u v) (gos l k)
          | _, _ => right _
          end) a b)
    | LOther a, LOther b => cast_if (decide (a = b))
    | _, _ => right _
    end); clear go; abstract congruence.
Defined.

Inductive Address := P2Pk (h : Point) | P2S (script : list Z) | P2SH (script_hash : list Z).

#[export] Instance Address_eq_dec : EqDecision Address.
Proof. solve_decision. Defined.

Class ErgoLib := {
  ErgoTree : Type;
  tree_eq_dec :: EqDecision ErgoTree;
  (** What the address encoder makes of the two constants of [script.rs]. *)
  VAULT_CONTRACT : ErgoTree;
  DEPOSIT_CONTRACT : ErgoTree;
  miners_fee_script : ErgoTree;
  (** The serialised tree: [propositionBytes] of a contract. *)
  proposition_bytes : ErgoTree -> list Z;
  recreate_from_ergo_tree : ErgoTree -> option Address;
  address_script : Address -> option ErgoTree;
  (** [ProveDlog::try_from(literal)] *)
  prove_dlog_from : Literal -> option Point;
  (** [PublicKey::from_sec1_bytes] *)
  pk_from_sec1 : list Z -> option Point;
  (** The ranges of [BoxValue] and [TokenAmount], and the bounds on [BoxTokens]
      and [TxIoVec]. *)
  box_value_ok : Z -> bool;
  token_amount_ok : Z -> bool;
  max_tokens : nat;
  max_io : nat;
  (** The conversions into [Constant] and [Literal]. *)
  literal_of_points : list Point -> Literal;
  literal_of_ints : list Z -> Literal;
  literal_of_bytes : list Z -> Literal;
}.

(** The conversions keep what they are given: bytes become signed. *)
Class ErgoLibLaws `{L : ErgoLib} : Prop := {
  literal_of_points_eq ps : literal_of_points ps = LWrappedColl SGroupElement (LGroupElement <$> ps);
  literal_of_ints_eq ns : literal_of_ints ns = LWrappedColl SInt (LInt <$> ns);
  literal_of_bytes_eq bs : Forall (fun b => 0 <= b < 256)%Z bs ->
    exists bs', literal_of_bytes bs = LCollByte bs' /\ ((fun b => b mod 256)%Z <$> bs') = bs;
  token_amount_range a : token_amount_ok a = true -> (0 < a <= i64_max)%Z;
  box_value_range v : box_value_ok v = true -> (0 < v <= i64_max)%Z;
  sec1_roundtrip p : p <> identity -> pk_from_sec1 (sec1_bytes p) = Some p;
}.

Context `{L : !ErgoLib}.

(** [bx_tokens] is empty for a box whose [tokens] are [None]. *)
Record ErgoBox := {
  bx_id : BoxId;
  bx_value : Z;
  bx_tree : ErgoTree;
  bx_tokens : list Token;
  bx_registers : gmap nat Literal;
  bx_height : Z;
}.

#[export] Instance ErgoBox_eq_dec : EqDecision ErgoBox.
Proof. solve_decision. Defined.

Record ErgoBoxCandidate := {
  c_value : Z;
  c_tree : ErgoTree;
  c_tokens : list Token;
  c_registers : gmap nat Literal;
  c_height : Z;
}.

(** The box a candidate becomes in a transaction. *)
Definition as_box (id : BoxId) (c : ErgoBoxCandidate) : ErgoBox :=
  {| bx_id := id; bx_value := c_value c; bx_tree := c_tree c; bx_tokens := c_tokens c;
     bx_registers := c_registers c; bx_height := c_height c |}.

(** ** The vault *)

Record VaultUtxo := { vu_value : Z; vu_tokens : list Token }.

#[export] Instance VaultUtxo_eq_dec : EqDecision VaultUtxo.
Proof. solve_decision. Defined.

Definition vault_try_from_box (bx : ErgoBox) (id : list Z) : option VaultUtxo :=
  match bx_tokens bx with
  | t :: rest =>
    if bool_decide (bx_tree bx = VAULT_CONTRACT) && bool_decide (token_id t = id)
    then Some {| vu_value := bx_value bx; vu_tokens := rest |} else None
  | [] => None
  end.

(** ** The committee ([committee.rs]) *)

Record VaultParameters := {
  num_committee_boxes : Z;
  current_epoch : Z;
  epoch_length : Z;
  vault_starting_height : Z;
}.

Record FirstCommitteeBox := {
  first_keys : list Point;
  vault_parameters : VaultParameters;
  committee_hash : list Z;
  first_script : ErgoTree;
  first_value : Z;
}.

Record SubsequentCommitteeBox := {
  sub_keys : list Point;
  sub_index : Z;
  sub_script : ErgoTree;
  sub_value : Z;
}.

(** The loop over the zipped items and keys. *)
Fixpoint keys_loop (items : list (Literal * Point)) (keys : list Point) : option (list Point) :=
  match items with
  | [] => Some keys
  | (LGroupElement key, expected_key) :: items =>
    if decide (key = expected_key) then keys_loop items (keys ++ [key]) else None
  | _ => None
  end.

Definition extract_committee_keys (bx : ErgoBox) (expected_keys : list Point) : option (list Point) :=
  match bx_registers bx !! 4 with
  | Some (LWrappedColl SGroupElement items) => keys_loop (zip items expected_keys) []
  | _ => None
  end.

Definition extract_vault_parameters (bx : ErgoBox) : option VaultParameters :=
  match bx_registers bx !! 6 with
  | Some (LWrappedColl SInt [LInt a; LInt b; LInt c; LInt d]) =>
    Some {| num_committee_boxes := a; current_epoch := b; epoch_length := c; vault_starting_height := d |}
  | _ => None
  end.

Definition extract_committee_index (bx : ErgoBox) : option Z :=
  match bx_registers bx !! 5 with Some (LInt index) => Some index | _ => None end.

Definition extract_group_elements (bx : ErgoBox) : option (Point * Point) :=
  match bx_registers bx !! 7 with
  | Some (LGroupElement point) =>
    if decide (point = generator) then
      match bx_registers bx !! 8 with
      | Some (LGroupElement point) => if decide (point = identity) then Some (generator, identity) else None
      | _ => None
      end
    else None
  | _ => None
  end.

Definition extract_committee_hash (bx : ErgoBox) : option (list Z) :=
  match bx_registers bx !! 9 with
  | Some (LCollByte bytes_i8) =>
    let bytes := (fun b => b mod 256)%Z <$> bytes_i8 in if decide (length bytes = 32) then Some bytes else None
  | _ => None
  end.

Definition first_try_from_box (bx : ErgoBox) (guarding_script : ErgoTree) (expected_keys : list Point) :
    option FirstCommitteeBox :=
  if decide (bx_tree bx = guarding_script) then
    committee_index ← extract_committee_index bx;
    if decide (committee_index <> 0%Z) then None else
    public_keys ← extract_committee_keys bx expected_keys;
    parameters ← extract_vault_parameters bx;
    hash ← extract_committee_hash bx;
    _ ← extract_group_elements bx;
    Some {| first_keys := public_keys; vault_parameters := parameters; committee_hash := hash;
            first_script := guarding_script; first_value := bx_value bx |}
  else None.

Definition constant_of_parameters (p : VaultParameters) : Literal :=
  literal_of_ints [num_committee_boxes p; current_epoch p; epoch_length p; vault_starting_height p].

Definition first_into_candidate (b : FirstCommitteeBox) (height : Z) : ErgoBoxCandidate :=
  {| c_value := first_value b; c_tree := first_script b; c_tokens := [];
     c_registers := <[9 := literal_of_bytes (committee_hash b)]> (<[8 := LGroupElement identity]>
       (<[7 := LGroupElement generator]> (<[6 := constant_of_parameters (vault_parameters b)]>
       (<[5 := LInt 0]> (<[4 := literal_of_points (first_keys b)]> ∅)))));
     c_height := height |}.

Definition subsequent_try_from_box (bx : ErgoBox) (box_value : Z) (guarding_script : ErgoTree) (index : Z)
    (expected_keys : list Point) : option SubsequentCommitteeBox :=
  if decide (bx_tree bx = guarding_script) then
    _ ← extract_committee_index bx;
    public_keys ← extract_committee_keys bx expected_keys;
    Some {| sub_keys := public_keys; sub_index := index; sub_script := guarding_script; sub_value := box_value |}
  else None.

Definition subsequent_into_candidate (b : SubsequentCommitteeBox) (height : Z) : ErgoBoxCandidate :=
  {| c_value := sub_value b; c_tree := sub_script b; c_tokens := [];
     c_registers := <[5 := LInt 0]> (<[4 := literal_of_points (sub_keys b)]> ∅);
     c_height := height |}.

Record CommitteeData := {
  first_box : ErgoBox * FirstCommitteeBox;
  subsequent_boxes : option (TxIoVec (ErgoBox * SubsequentCommitteeBox));
}.

Definition committee_size (c : CommitteeData) : Z :=
  (1 + match subsequent_boxes c with Some boxes => Z.of_nat (length (io_list boxes)) | None => 0 end)%Z.

(** The loop of [ErgoConnector::new] over the boxes after the first. *)
Fixpoint committee_loop (script : ErgoTree) (keys : list Point) (index slice_ix : nat) (boxes : list ErgoBox) :
    outcome (option (list (ErgoBox * SubsequentCommitteeBox))) :=
  match boxes with
  | [] => Done (Some [])
  | bx :: boxes =>
    if decide (slice_ix <= length keys) then
      match subsequent_try_from_box bx (bx_value bx) script (Z.of_nat index `mod` (u32_max + 1))%Z (drop slice_ix keys) with
      | Some sub =>
        rest ← committee_loop script keys (S index) (slice_ix + length (sub_keys sub)) boxes;
        Done (option_map (cons (bx, sub)) rest)
      | None => Done None
      end
    else Panic
  end.

(** The committee of [ErgoConnector::new]. *)
Definition committee_new (script : ErgoTree) (keys : list Point) (data_inputs : TxIoVec ErgoBox) :
    outcome (option CommitteeData) :=
  match first_try_from_box data_inputs.1 script keys with
  | Some first =>
    subs ← committee_loop script keys 1 (length (first_keys first)) data_inputs.2;
    Done (option_map (fun subs => {| first_box := (data_inputs.1, first);
      subsequent_boxes := match subs with [] => None | s :: subs => Some (s, subs) end |}) subs)
  | None => Done None
  end.

(** All keys of a committee, in the order of its boxes. *)
Definition committee_keys (c : CommitteeData) : list Point :=
  first_keys (first_box c).2 ++
  match subsequent_boxes c with Some boxes => concat ((fun b => sub_keys b.2) <$> io_list boxes) | None => [] end.

(** ** What is read from the boxes of a committee *)

Lemma keys_loop_spec items expected acc keys :
  keys_loop (zip items expected) acc = Some keys <->
  keys = acc ++ take (length items) expected /\
  take (length expected) items = LGroupElement <$> take (length items) expected.
Proof.
  revert expected acc. induction items as [|i items IH]; intros [|e expected] acc;
    cbn [zip_with keys_loop take length fmap list_fmap].
  - rewrite app_nil_r. naive_solver.
  - rewrite app_nil_r. naive_solver.
  - rewrite app_nil_r. naive_solver.
  - destruct i; try (split; [done|by intros [_ [=]]]). case_decide as Hd.
    + subst. rewrite IH, <- app_assoc. split; intros [-> Ht]; (split; [done|]); [by rewrite Ht|by injection Ht].
    + split; [done|]. intros [_ [= ? _]]. done.
Qed.

(** The keys read are the expected ones, as many as the box has. *)
Lemma extract_keys_prefix bx expected keys :
  extract_committee_keys bx expected = Some keys -> keys `prefix_of` expected.
Proof.
  unfold extract_committee_keys. destruct (bx_registers bx !! 4) as [[]|]; try done. destruct elem_tpe; try done.
  intros [-> _]%keys_loop_spec. apply prefix_take.
Qed.

Lemma subsequent_keys bx v script i expected sub :
  subsequent_try_from_box bx v script i expected = Some sub -> sub_keys sub `prefix_of` expected.
Proof.
  unfold subsequent_try_from_box. case_decide; [|done]. intros (? & _ & (keys & Hk & [= <-])%bind_Some)%bind_Some.
  by eapply extract_keys_prefix.
Qed.

Lemma first_box_keys bx script expected b :
  first_try_from_box bx script expected = Some b -> first_keys b `prefix_of` expected.
Proof.
  unfold first_try_from_box. case_decide; [|done]. intros (? & _ & H1)%bind_Some. case_decide; [done|].
  apply bind_Some in H1 as (keys & Hk & H1). apply bind_Some in H1 as (? & _ & H1). apply bind_Some in H1 as (? & _ & H1).
  apply bind_Some in H1 as (? & _ & [= <-]). by eapply extract_keys_prefix.
Qed.

Lemma prefix_take_length {A} (k l : list A) : k `prefix_of` l -> k = take (length k) l /\ length k <= length l.
Proof. intros [r ->]. rewrite take_app_length, length_app. split; [done|lia]. Qed.

(** Each box continues with the keys after those of the boxes before it. *)
Lemma committee_loop_spec script keys index n boxes :
  n <= length keys ->
  exists subs, committee_loop script keys index n boxes = Done subs /\
    forall l, subs = Some l -> fst <$> l = boxes /\ concat ((fun b => sub_keys b.2) <$> l) `prefix_of` drop n keys.
Proof.
  revert index n. induction boxes as [|bx boxes IH]; intros index n Hn; cbn.
  - eexists. split; [done|]. intros l [= <-]. split; [done|apply prefix_nil].
  - rewrite decide_True by done. destruct (subsequent_try_from_box _ _ _ _ _) as [sub|] eqn:Hs; [|by eexists].
    apply subsequent_keys, prefix_take_length in Hs as [Ht Hl]. rewrite length_drop in Hl.
    destruct (IH (S index) (n + length (sub_keys sub))) as (subs & -> & Hsubs); [lia|]. cbn.
    eexists. split; [done|]. destruct subs as [l|]; [|done]. intros l' [= <-].
    destruct (Hsubs l eq_refl) as [<- Hp]. split; [done|]. cbn.
    rewrite <- (take_drop (length (sub_keys sub)) (drop n keys)), drop_drop, <- Ht. by apply prefix_app.
Qed.

(** The committee is read from its boxes without a panic, whatever the
    boxes hold, and when it is read the data boxes are the given ones and
    their keys, taken in order, are the first of the expected keys; the size
    used for the threshold is the number of boxes. *)
Theorem committee_from_boxes script keys data_inputs :
  exists c, committee_new script keys data_inputs = Done c /\
    forall cd, c = Some cd ->
      (first_box cd).1 = data_inputs.1 /\
      from_option (fun b => fst <$> io_list b) [] (subsequent_boxes cd) = data_inputs.2 /\
      committee_keys cd `prefix_of` keys /\
      committee_size cd = Z.of_nat (length (io_list data_inputs)).
Proof.
  unfold committee_new. destruct (first_try_from_box _ _ _) as [b|] eqn:Hb; [|by eexists].
  apply first_box_keys, prefix_take_length in Hb as [Ht Hl].
  destruct (committee_loop_spec script keys 1 _ data_inputs.2 Hl) as (subs & -> & Hsubs). cbn.
  eexists. split; [done|]. destruct subs as [l|]; [|done]. intros cd [= <-].
  destruct (Hsubs l eq_refl) as [Hl2 Hp]. split; [done|]. unfold committee_keys, committee_size. cbn.
  rewrite <- Hl2, length_fmap, <- (take_drop (length (first_keys b)) keys), <- Ht.
  destruct l as [|s l]; cbn; (split; [done|split; [|lia]]).
  - apply prefix_app, prefix_nil.
  - by apply prefix_app.
Qed.

(** ** What is written is read back *)

Context `{LL : !ErgoLibLaws}.

Lemma keys_register bx keys expected :
  bx_registers bx !! 4 = Some (literal_of_points keys) -> keys `prefix_of` expected ->
  extract_committee_keys bx expected = Some keys.
Proof.
  unfold extract_committee_keys. intros -> [r ->]. rewrite literal_of_points_eq. apply keys_loop_spec.
  rewrite length_fmap, take_app_length, app_nil_l. split; [done|]. apply take_ge.
  rewrite length_fmap, length_app. lia.
Qed.

(** A first committee box that was written is read back, when the keys the
    reader expects start with its keys. *)
Theorem first_committee_roundtrip b id height expected :
  first_keys b `prefix_of` expected -> length (committee_hash b) = 32 ->
  Forall (fun x => 0 <= x < 256)%Z (committee_hash b) ->
  first_try_from_box (as_box id (first_into_candidate b height)) (first_script b) expected = Some b.
Proof.
  intros Hk Hlen Hb. set (bx := as_box _ _).
  assert (extract_vault_parameters bx = Some (vault_parameters b)) as Hp.
  { unfold extract_vault_parameters. cbn. unfold constant_of_parameters. rewrite literal_of_ints_eq. by destruct b as [? [] ? ? ?]. }
  assert (extract_committee_hash bx = Some (committee_hash b)) as Hh.
  { unfold extract_committee_hash. change (bx_registers bx !! 9) with (Some (literal_of_bytes (committee_hash b))).
    destruct (literal_of_bytes_eq _ Hb) as (bs & -> & Hbs). cbv zeta. by rewrite Hbs, decide_True by done. }
  assert (extract_group_elements bx = Some (generator, identity)) as Hg.
  { unfold extract_group_elements. change (bx_registers bx !! 7) with (Some (LGroupElement generator)).
    change (bx_registers bx !! 8) with (Some (LGroupElement identity)). cbv iota beta.
    by rewrite !decide_True by done. }
  unfold first_try_from_box. rewrite decide_True by done.
  rewrite (keys_register _ (first_keys b)), Hp, Hh, Hg by done. by destruct b.
Qed.
End Types.
