(* ===== verification/ErgoContracts.v ===== *)
(** * The contracts of the Ergo vault

    Models of [spectrum-ergo-connector/contracts]: [deposit.sc], which guards
    the boxes of deposits, and [withdrawal_and_deposit.sc], which guards the
    vault.  A contract is evaluated in the context of a transaction; [Panic] is
    a failed evaluation, with which a box cannot be spent.  Longs and Ints are
    checked, and a collection of bytes is a list of values below 256.

    The hash functions and the authenticated trees of the language are
    parameters. *)

From S2P Require Import Ledger Crypto SigmaCrypto Prelude KvStore ErgoBoxes.

(** [sha256] *)
Class Sha256 := sha256 : list Z -> list Z.

(** [AvlTree] *)
Class AvlTrees := {
  AvlTree : Type;
  avl_insert : AvlTree -> list (list Z * list Z) -> list Z -> option AvlTree;
  avl_digest : AvlTree -> list Z;
}.

(** The scalar of an integer, the exponent of [GroupElement.exp]. *)
Class ScalarInts `{C : Curve} := scalar_of_Z : Z -> Scalar.

Class ScalarIntsLaws `{SI : ScalarInts} : Prop := {
  scalar_of_0 : scalar_of_Z 0 = s0;
  scalar_of_add m n : scalar_of_Z (m + n) = scalar_of_Z m +s scalar_of_Z n;
  scalar_of_mul m n : scalar_of_Z (m * n) = scalar_of_Z m *s scalar_of_Z n;
  scalar_of_bytes b s : scalar_from_bytes b = Some s -> scalar_of_Z (be_value b) = s;
}.

(** ** Integers *)

Definition add_long (a b : Z) : outcome Z := checked i64_min i64_max (a + b).

(** Two's complement. *)
Definition be_signed (b : list Z) : Z :=
  let m := (256 ^ Z.of_nat (length b))%Z in
  if (m <=? 2 * be_value b)%Z then (be_value b - m)%Z else be_value b.

Definition byteArrayToBigInt (b : list Z) : outcome Z :=
  match b with
  | [] => Panic
  | _ => checked (- 2 ^ 255) (2 ^ 255 - 1) (be_signed b)
  end.

Definition longToByteArray (n : Z) : list Z := i64_to_be_bytes n.

Definition toSignedBytes (b : list Z) : outcome (list Z) :=
  match b with
  | [] => Panic
  | b0 :: _ => Done (if (128 <=? b0)%Z then 0%Z :: b else b)
  end.

Definition encodeUnsigned256BitInt (bytes : list Z) : outcome (list Z * nat) :=
  let split := length bytes - 16 in
  firstInt ← toSignedBytes (take split bytes);
  second ← toSignedBytes (drop split bytes);
  Done (firstInt ++ second, length firstInt).

Section Contracts.
Context `{C : Curve, B : Blake2b, SH : Sha256, SI : !ScalarInts, L : !ErgoLib, AT : AvlTrees}.

(** ** The context of an evaluation *)

(** A terminal cell: [(Long, (Coll[Byte], Coll[(Coll[Byte], Long)]))]. *)
Record CellConstant := { cc_value : Z; cc_prop : list Z; cc_tokens : list Token }.

(** What verifies one signature of the exclusion set. *)
Record VerificationItem := {
  vi_ix : Z;
  vi_key : Point;
  vi_key_bytes : list Z;
  vi_s : list Z * nat;
  vi_response : Point;
  vi_r_bytes : list Z;
}.

(** The context variables of an input, by their numbers. *)
Record Vars := {
  var0_verificationData : option (list VerificationItem);
  var1_aggregateCommitment : option Point;
  var2_terminalCells : option (list CellConstant);
  var3_proof : option (list Z);
  var4_vaultTokenId : option (list Z);
  var5_aggregateResponse : option (list Z * nat);
  var6_message : option (list Z);
  var7_tree : option AvlTree;
  var8_maxMinerFee : option Z;
  var9_threshold : option Z;
}.

Definition no_vars : Vars :=
  {| var0_verificationData := None; var1_aggregateCommitment := None; var2_terminalCells := None; var3_proof := None;
     var4_vaultTokenId := None; var5_aggregateResponse := None; var6_message := None; var7_tree := None;
     var8_maxMinerFee := None; var9_threshold := None |}.

Record Context := {
  INPUTS : list ErgoBox;
  OUTPUTS : list ErgoBox;
  dataInputs : list ErgoBox;
  HEIGHT : Z;
}.

(** [R4[Coll[Byte]].get] and the other typed registers. *)
Definition reg_bytes (bx : ErgoBox) (r : nat) : outcome (list Z) :=
  match bx_registers bx !! r with Some (LCollByte b) => Done ((fun x => x mod 256)%Z <$> b) | _ => Panic end.

Definition reg_point (bx : ErgoBox) (r : nat) : outcome Point :=
  match bx_registers bx !! r with Some (LGroupElement p) => Done p | _ => Panic end.

Definition reg_ints (bx : ErgoBox) (r : nat) : outcome (list Z) :=
  match bx_registers bx !! r with
  | Some (LWrappedColl SInt items) => mapO (fun i => match i with LInt n => Done n | _ => Panic end) items
  | _ => Panic
  end.

Definition reg_points (bx : ErgoBox) (r : nat) : outcome (list Point) :=
  match bx_registers bx !! r with
  | Some (LWrappedColl SGroupElement items) => mapO (fun i => match i with LGroupElement p => Done p | _ => Panic end) items
  | _ => Panic
  end.

Definition reg_byte_colls (bx : ErgoBox) (r : nat) : outcome (list (list Z)) :=
  match bx_registers bx !! r with
  | Some (LWrappedColl SCollByte items) =>
    mapO (fun i => match i with LCollByte b => Done ((fun x => x mod 256)%Z <$> b) | _ => Panic end) items
  | _ => Panic
  end.

(** The sum of the outputs to the miners. *)
Definition minerFee (outputs : list ErgoBox) : outcome Z :=
  foldO (fun a o => add_long a (if decide (proposition_bytes (bx_tree o) = proposition_bytes miners_fee_script) then bx_value o else 0%Z))
    outputs 0%Z.

(** ** [deposit.sc] *)

(** The fold keeps the first token found, with its index. *)
Definition findToken (tokens : list Token) (id : list Z) : nat * Z :=
  foldl (fun acc '(index, t) => if (acc.2 =? 0)%Z && bool_decide (token_id t = id) then (index, amount t) else acc)
    (0, 0%Z) (imap pair tokens).

Definition findTokenInExisting (indexedTokens : list (nat * Token)) (id : list Z) : nat * Z :=
  foldl (fun acc '(index, t) => if (acc.2 =? 0)%Z && bool_decide (token_id t.2 = id) then (index, amount t.2) else acc)
    (0, 0%Z) (imap pair indexedTokens).

(** [updated] *)
Definition updated {A} (l : list A) (i : nat) (x : A) : outcome (list A) :=
  if decide (i < length l) then Done (<[i := x]> l) else Panic.

(** One token of a deposit. *)
Definition tokenDiff (vault : list Token) (acc : list (nat * Token) * list Token) (token : Token) :
    outcome (list (nat * Token) * list Token) :=
  let '(existing, new) := acc in
  let '(index, qty) := findTokenInExisting existing (token_id token) in
  if (0 <? qty)%Z then
    e ← unwrap (existing !! index);
    q ← add_long qty (amount token);
    newExisting ← updated existing index (e.1, {| token_id := token_id token; amount := q |});
    Done (newExisting, new)
  else
    let '(vaultIndex, vaultTokenQty) := findToken vault (token_id token) in
    vaultToken ← unwrap (vault !! vaultIndex);
    if (0 <? vaultTokenQty)%Z then
      q ← add_long vaultTokenQty (amount token);
      Done (existing ++ [(vaultIndex, {| token_id := token_id vaultToken; amount := q |})], new)
    else
      let '(newlyAddedIndex, newlyAddedQty) := findToken new (token_id token) in
      if (0 <? newlyAddedQty)%Z then
        t ← unwrap (new !! newlyAddedIndex);
        q ← add_long (amount t) (amount token);
        updatedNew ← updated new newlyAddedIndex {| token_id := token_id token; amount := q |};
        Done (existing, updatedNew)
      else Done (existing, new ++ [token]).

Definition tokenDiffs (vault : list Token) (deposits : list ErgoBox) : outcome (list (nat * Token) * list Token) :=
  foldO (fun acc input => foldO (tokenDiff vault) (bx_tokens input) acc) deposits ([], []).

Definition vaultTokensAfterDeposits (vault : list Token) (deposits : list ErgoBox) : outcome (list Token) :=
  diffs ← tokenDiffs vault deposits;
  updatedWithExisting ← foldO (fun acc elem => updated acc elem.1 elem.2) diffs.1 vault;
  Done (updatedWithExisting ++ diffs.2).

(** The part of the proposition that is not the key of the depositor. *)
Definition deposit_contract (SELF : ErgoBox) (vars : Vars) (c : Context) : outcome bool :=
  maxMinerFee ← unwrap (var8_maxMinerFee vars);
  expectedVaultTokenId ← reg_bytes SELF 4;
  input0 ← unwrap (INPUTS c !! 0);
  output0 ← unwrap (OUTPUTS c !! 0);
  let validVaultUTxO :=
    match bx_tokens input0 with t :: _ => bool_decide (expectedVaultTokenId = token_id t) | [] => false end in
  let scriptPreserved := bool_decide (proposition_bytes (bx_tree output0) = proposition_bytes (bx_tree input0)) in
  fee ← minerFee (OUTPUTS c);
  let validMinerFee := (fee <=? maxMinerFee)%Z in
  let deposits := drop 1 (INPUTS c) in
  totalErgDepositValue ← foldO (fun acc input => add_long acc (bx_value input)) deposits 0%Z;
  ergs_in ← add_long (bx_value input0) totalErgDepositValue;
  ergs_out ← add_long (bx_value output0) fee;
  let validErgDeposits := (ergs_in =? ergs_out)%Z in
  tokens ← vaultTokensAfterDeposits (bx_tokens input0) deposits;
  let validTokenDeposits := bool_decide (tokens = bx_tokens output0) in
  Done (validVaultUTxO && scriptPreserved && validMinerFee && validErgDeposits && validTokenDeposits).

(** ** [withdrawal_and_deposit.sc] *)

(** [340282366920938463463374607431768211456] *)
Definition two_128 : Z := (2 ^ 128)%Z.

Definition exp (x : Point) (n : Z) : Point := x *p scalar_of_Z n.

Definition myExp (x : Point) (e : list Z * nat) : outcome Point :=
  upper ← byteArrayToBigInt (take e.2 e.1);
  lower ← byteArrayToBigInt (drop e.2 e.1);
  Done (exp (exp x upper) two_128 +p exp x lower).

(** [a_i = H(H(X_1, ..., X_n); X_i)] *)
Definition calcA (innerBytes : list Z) (x : Point) : outcome (list Z * nat) :=
  encodeUnsigned256BitInt (blake2b (innerBytes ++ sec1_bytes x)).

(** The folds over the committee count its members. *)
Definition calcPartialAggregateKey (members : list Point) (excludedIndices : list Z) (aiValues : list (list Z * nat)) (id : Point) :
    outcome Point :=
  foldO (fun xAcc '(i, x) =>
      if bool_decide (Z.of_nat i ∈ excludedIndices) then Done xAcc
      else ai ← unwrap (aiValues !! i); e ← myExp x ai; Done (xAcc +p e))
    (imap pair members) id.

Definition calcFullAggregateKey (members : list Point) (aiValues : list (list Z * nat)) (id : Point) : outcome Point :=
  foldO (fun xAcc '(i, x) => ai ← unwrap (aiValues !! i); e ← myExp x ai; Done (xAcc +p e)) (imap pair members) id.

Definition calcAggregateCommitment (commitments : list Point) (id : Point) : Point := foldl padd id commitments.

(** ["BIP0340/challenge"] *)
Definition CHALLENGE_TAG : list Z := [66; 73; 80; 48; 51; 52; 48; 47; 99; 104; 97; 108; 108; 101; 110; 103; 101]%Z.

Definition challengeTag : list Z := sha256 CHALLENGE_TAG.

(** One signature of the exclusion set. *)
Definition verifySignature (groupGenerator : Point) (message : list Z) (e : VerificationItem) : outcome bool :=
  let raw := sha256 (challengeTag ++ challengeTag ++ vi_r_bytes e ++ vi_key_bytes e ++ message) in
  c ← encodeUnsigned256BitInt raw;
  lhs ← myExp groupGenerator (vi_s e);
  rhs ← myExp (vi_key e) c;
  Done (bool_decide (lhs = rhs +p vi_response e)).

(** [forall] of a collection. *)
Fixpoint forallO {A} (f : A -> outcome bool) (l : list A) : outcome bool :=
  match l with
  | [] => Done true
  | x :: l => b ← f x; if (b : bool) then forallO f l else Done false
  end.

Definition verifyOutput (e : CellConstant * ErgoBox) : bool :=
  let '(termCell, outputBox) := e in
  bool_decide (bx_value outputBox = cc_value termCell) &&
  bool_decide (proposition_bytes (bx_tree outputBox) = cc_prop termCell) &&
  bool_decide (length (bx_tokens outputBox) = length (cc_tokens termCell)) &&
  forallb (fun '(a, b) => bool_decide (a = b)) (zip (bx_tokens outputBox) (cc_tokens termCell)).

Definition verifyTxOutputs (terminalCells : list CellConstant) (outputs : list ErgoBox) : bool :=
  forallb verifyOutput (zip terminalCells (drop 1 (take (length outputs - 1) outputs))).

Definition hashTerminalCell (cell : CellConstant) : list Z :=
  let tokenBytes := foldl (fun acc t => acc ++ token_id t ++ longToByteArray (amount t)) [] (cc_tokens cell) in
  blake2b (longToByteArray (cc_value cell) ++ cc_prop cell ++ tokenBytes).

(** What the tree is extended with: the cells and the fee. *)
Definition avlInsertions (terminalCells : list CellConstant) (maxMinerFee : Z) : list (list Z * list Z) :=
  imap (fun i cell => (longToByteArray (Z.of_nat i + 1), hashTerminalCell cell)) terminalCells ++
  [(longToByteArray (Z.of_nat (length terminalCells) + 1), longToByteArray maxMinerFee ++ replicate 24 0%Z)].

(** [Y' * g^z == (X')^c * Y], the signatures and the threshold. *)
Definition verifyCertificate (groupGenerator groupElementIdentity : Point) (innerBytes : list Z) (committee : list Point)
    (verificationData : list VerificationItem) (aggregateResponse : list Z * nat) (aggregateCommitment : Point)
    (message : list Z) (threshold : Z) : outcome bool :=
  aiValues ← mapO (calcA innerBytes) committee;
  fullKey ← calcFullAggregateKey committee aiValues groupElementIdentity;
  challenge ← encodeUnsigned256BitInt (blake2b (sec1_bytes fullKey ++ sec1_bytes aggregateCommitment ++ message));
  let YDash := calcAggregateCommitment (vi_key <$> verificationData) groupElementIdentity in
  partialAggregateKey ← calcPartialAggregateKey committee (vi_ix <$> verificationData) aiValues groupElementIdentity;
  lhs ← myExp groupGenerator aggregateResponse;
  rhs ← myExp partialAggregateKey challenge;
  let verifyAggregateResponse := bool_decide (lhs +p YDash = rhs +p aggregateCommitment) in
  verifySignaturesInExclusionSet ← forallO (verifySignature groupGenerator message) verificationData;
  let verifyThreshold := (threshold <=? Z.of_nat (length committee) - Z.of_nat (length verificationData))%Z in
  Done (verifyAggregateResponse && verifySignaturesInExclusionSet && verifyThreshold).

Definition withdrawal_action (vars : Vars) (c : Context) (numberCommitteeDataInputBoxes maxMinerFee : Z) : outcome bool :=
  data0 ← unwrap (dataInputs c !! 0);
  groupGenerator ← reg_point data0 7;
  groupElementIdentity ← reg_point data0 8;
  innerBytes ← reg_bytes data0 9;
  keys ← mapO (fun x => reg_points x 4) (take (Z.to_nat numberCommitteeDataInputBoxes) (dataInputs c));
  let committee := concat keys in
  verificationData ← unwrap (var0_verificationData vars);
  aggregateResponseRaw ← unwrap (var5_aggregateResponse vars);
  aggregateCommitment ← unwrap (var1_aggregateCommitment vars);
  message ← unwrap (var6_message vars);
  threshold ← unwrap (var9_threshold vars);
  terminalCells ← unwrap (var2_terminalCells vars);
  tree ← unwrap (var7_tree vars);
  proof ← unwrap (var3_proof vars);
  verified ← verifyCertificate groupGenerator groupElementIdentity innerBytes committee verificationData
    aggregateResponseRaw aggregateCommitment message threshold;
  let verifyAtLeastOneWithdrawal := bool_decide (0 < length terminalCells) in
  endTree ← unwrap (avl_insert tree (avlInsertions terminalCells maxMinerFee) proof);
  let verifyDigest := bool_decide (blake2b (avl_digest endTree) = message) in
  Done (verifyAtLeastOneWithdrawal && verifyDigest && verified && verifyTxOutputs terminalCells (OUTPUTS c)).

Definition noTokensLost (tokens_in tokens_out : list Token) : bool :=
  forallb (fun '(i, o) => bool_decide (token_id i = token_id o) && (amount i <=? amount o)%Z) (zip tokens_in tokens_out).

Definition int_of (n : Z) : outcome Z := checked (- 2 ^ 31) (2 ^ 31 - 1) n.

(** [vaultStart + currentEpoch * epochLength] and the start of the epoch. *)
Definition epoch_bounds (vaultStart currentEpoch epochLength : Z) : outcome (Z * Z) :=
  e ← int_of (currentEpoch * epochLength);
  epochEnd ← int_of (vaultStart + e);
  p ← int_of (currentEpoch - 1);
  e' ← int_of (p * epochLength);
  epochStart ← int_of (vaultStart + e');
  Done (epochStart, epochEnd).

Definition vault_contract (SELF : ErgoBox) (vars : Vars) (c : Context) : outcome bool :=
  vaultIn ← unwrap (INPUTS c !! 0);
  vaultOut ← unwrap (OUTPUTS c !! 0);
  let withdrawalAction := (bx_value vaultOut <? bx_value vaultIn)%Z in
  expectedVaultTokenId ← unwrap (var4_vaultTokenId vars);
  validVaultToken ← match bx_tokens vaultIn with
    | t :: _ =>
      if bool_decide (token_id t = expectedVaultTokenId)
      then t' ← unwrap (bx_tokens vaultOut !! 0); Done (bool_decide (amount t = amount t'))
      else Done false
    | [] => Done false
    end;
  let scriptPreserved := bool_decide (proposition_bytes (bx_tree vaultOut) = proposition_bytes (bx_tree SELF)) in
  committeeBoxIDs ← reg_byte_colls vaultIn 4;
  let verifyCommitteeBoxes := forallb (fun '(d, id) => bool_decide (bx_id d = id)) (zip (dataInputs c) committeeBoxIDs) in
  data0 ← unwrap (dataInputs c !! 0);
  vaultParameters ← reg_ints data0 6;
  numberCommitteeDataInputBoxes ← unwrap (vaultParameters !! 0);
  currentEpoch ← unwrap (vaultParameters !! 1);
  epochLength ← unwrap (vaultParameters !! 2);
  vaultStart ← unwrap (vaultParameters !! 3);
  epoch ← epoch_bounds vaultStart currentEpoch epochLength;
  maxMinerFee ← unwrap (var8_maxMinerFee vars);
  fee ← minerFee (OUTPUTS c);
  let validMinerFee := (fee <=? maxMinerFee)%Z in
  let verifyEpoch := (epoch.1 <=? HEIGHT c)%Z && (HEIGHT c <? epoch.2)%Z in
  validAction ← (if withdrawalAction then withdrawal_action vars c numberCommitteeDataInputBoxes maxMinerFee
                 else Done (noTokensLost (bx_tokens vaultIn) (bx_tokens vaultOut)));
  Done (verifyEpoch && verifyCommitteeBoxes && validMinerFee && scriptPreserved && (validVaultToken : bool) && (validAction : bool)).
End Contracts.
