(* ===== verification/ErgoCells.v ===== *)
(** * Cells of the Ergo connector

    Models of the conversions of [spectrum-ergo-connector/src/script.rs]
    between cells of the ledger, cells of the Ergo chain and the constants the
    contract of the vault reads, of [tx_event.rs] and of [vault_utxo.rs].  The
    order in which a [HashMap] is visited and the big integers of
    [num_bigint] and [ergo_lib] are parameters. *)

From S2P Require Import Ledger Crypto SigmaCrypto Prelude KvStore ErgoBoxes ErgoContracts.

(** The order of a [HashMap]. *)
Class HashOrder := hash_order : forall A, gmap (list Z) A -> list (list Z * A).

Class HashOrderLaws `{HO : HashOrder} : Prop :=
  hash_order_perm : forall A (m : gmap (list Z) A), hash_order A m ≡ₚ map_to_list m.

(** [BigUint::to_bytes_be] and [BigInt256::to_signed_bytes_be]. *)
Class BigInts := {
  to_bytes_be : Z -> list Z;
  to_signed_bytes_be : Z -> list Z;
}.

(** The bytes of a number are as few as possible; the signed bytes are in two's
    complement. *)
Class BigIntsLaws `{BI : BigInts} : Prop := {
  to_bytes_be_value n : (0 <= n)%Z -> Forall is_byte (to_bytes_be n) /\ be_value (to_bytes_be n) = n;
  to_bytes_be_least n k : (0 < n)%Z -> (256 ^ Z.of_nat k <= n)%Z <-> k < length (to_bytes_be n);
  to_bytes_be_zero : to_bytes_be 0 = [0%Z];
  to_signed_value n : (- 2 ^ 255 <= n < 2 ^ 255)%Z ->
    to_signed_bytes_be n <> [] /\ be_signed (to_signed_bytes_be n) = n;
}.

(** The parts of a [k256::schnorr::Signature] and of a verifying key. *)
Class SchnorrBytes `{SG : Schnorr} := {
  signature_bytes : SchnorrSig -> list Z;
  verifying_key_bytes : Point -> list Z;
  (** [FieldElement::from_bytes] *)
  is_field_element : list Z -> bool;
}.

Section Cells.
Context `{C : Curve, L : !ErgoLib, HO : HashOrder}.

Definition ERGO_CHAIN_ID : Z := 0.

(** [Blake2bDigest256::zero()] *)
Definition zero_digest : list Z := replicate 32 0%Z.

Record ErgoCell := { ergs : Z; address : Address; tokens : list Token }.

#[export] Instance ErgoCell_eq_dec : EqDecision ErgoCell.
Proof. solve_decision. Defined.

Record ErgoTermCell := { term_cell : ErgoCell }.

Record ErgoInboundCell := { inbound_cell : ErgoCell; inbound_id : BoxId }.

#[export] Instance ErgoInboundCell_eq_dec : EqDecision ErgoInboundCell.
Proof. solve_decision. Defined.

Record ProtoTermCell := { ptc_value : SValue; ptc_dst : Z * list Z * option (list Z) }.

Record InboundValue := { iv_value : SValue; iv_owner : Owner; iv_id : BoxId }.

Inductive ErgoTermCellError := EBoxValue | ETokenAmount | EEllipticCurve | EWrongChainId.

(** ** Values *)

Definition svalue_from (c : ErgoCell) : SValue :=
  {| native := ergs c; assets := {[ zero_digest := collect_map ((fun t => (token_id t, amount t)) <$> tokens c) ]} |}.

(** The address does not count. *)
Definition svalue_from_vault (u : VaultUtxo) : SValue :=
  {| native := vu_value u; assets := {[ zero_digest := collect_map ((fun t => (token_id t, amount t)) <$> vu_tokens u) ]} |}.

(** [PublicKey::from_affine(..).unwrap()] *)
Definition pk_of_dlog (h : Point) : outcome Point := if decide (h = identity) then Panic else Done h.

Definition cell_from_proto (value : ProtoTermCell) : outcome ErgoCell :=
  let '(_, address, _) := ptc_dst value in
  if box_value_ok (native (ptc_value value)) then
    pk ← unwrap (pk_from_sec1 address);
    tokens ← match assets (ptc_value value) !! zero_digest with
      | Some m => mapO (fun '(id, v) => if token_amount_ok v then Done {| token_id := id; amount := v |} else Panic)
          (hash_order _ m)
      | None => Done []
      end;
    Done {| ergs := native (ptc_value value); address := P2Pk pk; tokens := tokens |}
  else Panic.

(** Addresses other than that of a key are not implemented. *)
Definition inbound_value_from (c : ErgoInboundCell) : outcome InboundValue :=
  match address (inbound_cell c) with
  | P2Pk pdl => pk ← pk_of_dlog pdl; Done {| iv_value := svalue_from (inbound_cell c); iv_owner := ProveDlog pk; iv_id := inbound_id c |}
  | P2S _ | P2SH _ => Panic
  end.

Definition cell_from_box (bx : ErgoBox) : outcome ErgoCell :=
  a ← unwrap (recreate_from_ergo_tree (bx_tree bx));
  Done {| ergs := bx_value bx; address := a; tokens := bx_tokens bx |}.

(** ** Terminal cells *)

(** The tokens of all policies. *)
Definition token_details (v : SValue) : list (list Z * Z) :=
  concat ((fun p => hash_order _ p.2) <$> hash_order _ (assets v)).

(** What the two conversions into a terminal cell have in common. *)
Definition term_cell_of (v : SValue) (address_bytes : list Z) : ErgoTermCell + ErgoTermCellError :=
  if box_value_ok (native v) then
    match pk_from_sec1 address_bytes with
    | Some pk =>
      if forallb (fun d => token_amount_ok d.2) (token_details v) then
        inl {| term_cell := {| ergs := native v; address := P2Pk pk;
          tokens := (fun d => {| token_id := d.1; amount := d.2 |}) <$> sort_by_key bytes_leb fst (token_details v) |} |}
      else inr ETokenAmount
    | None => inr EEllipticCurve
    end
  else inr EBoxValue.

Definition term_cell_try_from (value : TermCell) : ErgoTermCell + ErgoTermCellError :=
  let '(target, address, _) := dst value in
  if decide (target = ERGO_CHAIN_ID) then term_cell_of (term_value value) address else inr EWrongChainId.

Definition term_cell_try_from_proto (value : ProtoTermCell) : ErgoTermCell + ErgoTermCellError :=
  let '(_, address, _) := ptc_dst value in term_cell_of (ptc_value value) address.

(** [random] is the identifier drawn for the transaction. *)
Definition term_cell_into (random : list Z) (c : ErgoTermCell) : outcome TermCell :=
  match address (term_cell c) with
  | P2Pk prove_dlog =>
    pk ← pk_of_dlog prove_dlog;
    Done {| term_value := svalue_from (term_cell c); term_tx_id := random; term_index := 0; dst := (0%Z, sec1_bytes pk, None) |}
  | _ => Panic
  end.

Definition proto_term_cell_into (c : ErgoTermCell) : outcome ProtoTermCell :=
  match address (term_cell c) with
  | P2Pk prove_dlog =>
    pk ← pk_of_dlog prove_dlog;
    Done {| ptc_value := svalue_from (term_cell c); ptc_dst := (0%Z, sec1_bytes pk, None) |}
  | _ => Panic
  end.

(** [address.script().unwrap().sigma_serialize_bytes().unwrap()] *)
Definition prop_bytes (c : ErgoTermCell) : outcome (list Z) :=
  t ← unwrap (address_script (address (term_cell c))); Done (proposition_bytes t).

Definition term_cell_to_bytes (c : ErgoTermCell) : outcome (list Z) :=
  prop ← prop_bytes c;
  Done (i64_to_be_bytes (ergs (term_cell c)) ++ prop ++
    concat ((fun t => token_id t ++ be_bytes 8 (amount t)) <$> tokens (term_cell c))).

(** [as i64] and [as i32] *)
Definition as_i64 (x : Z) : Z := let y := (x mod 2 ^ 64)%Z in if (y <=? i64_max)%Z then y else (y - 2 ^ 64)%Z.

Definition as_i32 (x : Z) : Z := let y := (x mod 2 ^ 32)%Z in if (y <? 2 ^ 31)%Z then y else (y - 2 ^ 32)%Z.

Definition constant_from (c : ErgoTermCell) : outcome CellConstant :=
  prop ← prop_bytes c;
  Done {| cc_value := ergs (term_cell c); cc_prop := prop;
    cc_tokens := (fun t => {| token_id := token_id t; amount := as_i64 (amount t) |}) <$> tokens (term_cell c) |}.

Definition constants_from (cells : list ErgoTermCell) : outcome (list CellConstant) := mapO constant_from cells.

(** What [simulate_signature_aggregation_notarized_proofs] inserts into the tree
    whose digest is notarized. *)
Definition report_insertions `{B : Blake2b} (terminal_cells : list ErgoTermCell) (max_miner_fee : Z) :
    outcome (list (list Z * list Z)) :=
  kvs ← mapO (fun '(i, cell) =>
      b ← term_cell_to_bytes cell; Done (i64_to_be_bytes (as_i64 (Z.of_nat i + 1)), blake2b b)) (imap pair terminal_cells);
  Done (kvs ++ [(i64_to_be_bytes (as_i64 (Z.of_nat (length terminal_cells) + 1)), i64_to_be_bytes max_miner_fee ++ replicate 24 0%Z)]).

(** ** Events *)

Record AncillaryVaultInfo := { av_tx_id : list Z; av_box_id : BoxId; av_height : Z }.

Inductive ErgoTxType :=
| Deposit (imported_value : list ErgoInboundCell) (vault_info : VaultUtxo * AncillaryVaultInfo)
| Withdrawal (withdrawn_value : list ErgoTermCell) (vault_info : VaultUtxo * AncillaryVaultInfo)
| NewUnprocessedDeposit (c : ErgoInboundCell)
| RefundedDeposit (c : ErgoInboundCell).

Record SpectrumErgoTx := { progress_point : Z; ergo_tx_id : list Z; tx_type : ErgoTxType }.

Inductive ErgoTxEvent := Applied (tx : SpectrumErgoTx) | Unapplied (tx : SpectrumErgoTx).

Definition event_height (e : ErgoTxEvent) : Z :=
  match e with Applied tx | Unapplied tx => progress_point tx end.

Record VaultBalance := { vb_value : SValue; on_chain_characteristics : AncillaryVaultInfo }.

Inductive SpectrumTxType :=
| STDeposit (imported_value : list InboundValue) (vault_balance : VaultBalance)
| STWithdrawal (withdrawn_value : list TermCell) (vault_balance : VaultBalance)
| STNewUnprocessedDeposit (v : InboundValue)
| STRefundedDeposit (v : InboundValue).

Record SpectrumTx := { st_point : ProgressPoint; st_type : SpectrumTxType }.

Inductive ChainTxEvent := CApplied (tx : SpectrumTx) | CUnapplied (tx : SpectrumTx).

Definition balance_of (vault_info : VaultUtxo * AncillaryVaultInfo) : VaultBalance :=
  {| vb_value := svalue_from_vault vault_info.1; on_chain_characteristics := vault_info.2 |}.

(** [random i] is the identifier drawn for cell [i]. *)
Definition spectrum_tx_from (random : nat -> list Z) (value : SpectrumErgoTx) : outcome SpectrumTx :=
  t ← match tx_type value with
    | Deposit imported vault_info => vs ← mapO inbound_value_from imported; Done (STDeposit vs (balance_of vault_info))
    | Withdrawal withdrawn vault_info => ts ← mapO (fun '(i, c) => term_cell_into (random i) c) (imap pair withdrawn); Done (STWithdrawal ts (balance_of vault_info))
    | NewUnprocessedDeposit c => v ← inbound_value_from c; Done (STNewUnprocessedDeposit v)
    | RefundedDeposit c => v ← inbound_value_from c; Done (STRefundedDeposit v)
    end;
  Done {| st_point := {| chain_id := 0; point := progress_point value |}; st_type := t |}.

Definition chain_event_from (random : nat -> list Z) (e : ErgoTxEvent) : outcome ChainTxEvent :=
  match e with
  | Applied tx => t ← spectrum_tx_from random tx; Done (CApplied t)
  | Unapplied tx => t ← spectrum_tx_from random tx; Done (CUnapplied t)
  end.

(** ** Scalars and the exclusion set *)

Context `{BI : BigInts}.

(** Byte [i] of the scalar is shifted by [(31 - i) * 8]. *)
Definition scalar_to_biguint (scalar : Scalar) : outcome Z :=
  ws ← mapO (fun '(i, w) => if decide (i <= 31) then Done (Z.shiftl w (Z.of_nat ((31 - i) * 8))) else Panic)
    (imap pair (scalar_to_bytes scalar));
  Done (foldl Z.add 0%Z ws).

(** [BigInt256::try_from(n).unwrap()] with the assertion on the sign. *)
Definition positive_256 (n : Z) : outcome Z := checked 1 (2 ^ 255 - 1) n.

(** A scalar as two signed integers; the second component is the length of the
    first integer. *)
Definition split_scalar (s_biguint : Z) : outcome (list Z * nat) :=
  let biguint_bytes := to_bytes_be s_biguint in
  if decide (length biguint_bytes < 16) then Panic else
  let split := length biguint_bytes - 16 in
  upper_256 ← positive_256 (be_value (take split biguint_bytes));
  lower_256 ← positive_256 (be_value (drop split biguint_bytes));
  let upper_bytes := to_signed_bytes_be upper_256 in
  Done (upper_bytes ++ to_signed_bytes_be lower_256, length upper_bytes).

Context `{SG : !Schnorr, SB : !SchnorrBytes, SH : Sha256, SI : !ScalarInts}.

Definition tagged_hash (tag data : list Z) : list Z := sha256 (sha256 tag ++ sha256 tag ++ data).

Definition verification_item (md : list Z) (ix : nat) (key : Point) (signature : SchnorrSig) : outcome VerificationItem :=
  let bytes := signature_bytes signature in
  let r_bytes := take 32 bytes in
  if is_field_element r_bytes then
    let e := scalar_of_Z (be_value (tagged_hash CHALLENGE_TAG (r_bytes ++ verifying_key_bytes key ++ md))) in
    s ← unwrap (secret_key_from_slice (drop 32 bytes));
    let r_point := generator *p s +p key *p sopp e in
    s_biguint ← scalar_to_biguint s;
    s_bytes ← split_scalar s_biguint;
    Done {| vi_ix := as_i32 (Z.of_nat ix); vi_key := key; vi_key_bytes := verifying_key_bytes key;
            vi_s := s_bytes; vi_response := r_point; vi_r_bytes := r_bytes |}
  else Panic.

(** Members that did not commit are left out. *)
Definition serialize_exclusion_set (exclusion_set : list (nat * option (Point * SchnorrSig))) (md : list Z) :
    outcome (list VerificationItem) :=
  mapO (fun '(ix, key, signature) => verification_item md ix key signature)
    (omap (fun '(ix, maybe_pair) => (fun '(key, signature) => (ix, key, signature)) <$> maybe_pair) exclusion_set).
End Cells.
