(* ===== verification/ContractSafety.v ===== *)
(** * What the contracts of the vault accept

    Properties of [ErgoContracts] and of the data the connector prepares for
    it: exponents cross the boundary in two parts, the terminal cells hash to
    what was notarized, and a certificate the committee's protocol accepts is
    accepted by the contract. *)

From S2P Require Import Ledger Crypto SigmaCrypto Algebra Prelude KvStore ErgoBoxes ErgoContracts ErgoCells.

Section Exponents.
Context `{C : Curve, CL : !CurveLaws C, B : Blake2b, SH : Sha256, SI : !ScalarInts, SL : !ScalarIntsLaws}.

(** [e] stands for the exponent [n]. *)
Definition encodes (e : list Z * nat) (n : Z) : Prop := forall x, myExp x e = Done (exp x n).

Lemma exp_parts x u l : exp (exp x u) two_128 +p exp x l = exp x (u * two_128 + l).
Proof. unfold exp. by rewrite <- pmul_smul, <- pmul_sadd, <- scalar_of_mul, <- scalar_of_add. Qed.

Lemma big_int_signed b n : b <> [] -> be_signed b = n -> (- 2 ^ 255 <= n < 2 ^ 255)%Z -> byteArrayToBigInt b = Done n.
Proof. intros Hb Hn Hr. unfold byteArrayToBigInt. destruct b; [done|]. rewrite Hn. apply checked_in. lia. Qed.

Lemma encodes_parts ub lb u l :
  ub <> [] -> lb <> [] -> be_signed ub = u -> be_signed lb = l ->
  (0 <= u < 2 ^ 255)%Z -> (0 <= l < 2 ^ 255)%Z -> encodes (ub ++ lb, length ub) (u * two_128 + l).
Proof.
  intros Hub Hlb Hu Hl Hru Hrl x. unfold myExp. cbn [fst snd]. rewrite take_app_length, drop_app_length.
  rewrite (big_int_signed ub u), (big_int_signed lb l) by (done || lia). outcome_cbn. by rewrite exp_parts.
Qed.

Lemma be_signed_low b0 b : is_byte b0 -> Forall is_byte b -> (b0 < 128)%Z -> be_signed (b0 :: b) = be_value (b0 :: b).
Proof.
  intros H0 Hb Hlow. unfold be_signed. apply be_value_range in Hb. rewrite be_value_cons. cbn [length].
  rewrite Nat2Z.inj_succ, Z.pow_succ_r by lia. unfold is_byte in H0. by rewrite (proj2 (Z.leb_gt _ _)) by nia.
Qed.

Lemma toSignedBytes_value b : b <> [] -> Forall is_byte b ->
  exists b', toSignedBytes b = Done b' /\ b' <> [] /\ be_signed b' = be_value b.
Proof.
  destruct b as [|b0 b]; [done|]. intros _ [H0 Hb]%Forall_cons. cbn. eexists. split; [done|].
  destruct (Z.leb_spec 128 b0); (split; [done|]).
  - rewrite be_signed_low; [by rewrite be_value_cons| |by constructor|lia]. unfold is_byte. lia.
  - by apply be_signed_low.
Qed.

(** A digest of 32 bytes is encoded as the number it is. *)
Lemma encode_digest raw : length raw = 32 -> Forall is_byte raw ->
  exists e, encodeUnsigned256BitInt raw = Done e /\ encodes e (be_value raw).
Proof.
  intros Hlen Hb. unfold encodeUnsigned256BitInt. rewrite Hlen. change (32 - 16) with 16.
  assert (length (take 16 raw) = 16 /\ length (drop 16 raw) = 16) as [Ht Hd] by (rewrite length_take, length_drop; lia).
  destruct (toSignedBytes_value (take 16 raw)) as (ub & -> & Hub & Hu); [by intros E; rewrite E in Ht|by apply Forall_take|].
  destruct (toSignedBytes_value (drop 16 raw)) as (lb & -> & Hlb & Hl); [by intros E; rewrite E in Hd|by apply Forall_drop|].
  outcome_cbn. eexists. split; [done|].
  rewrite <- (take_drop 16 raw), be_value_app, Hd at 1. rewrite <- Hu, <- Hl. change (256 ^ Z.of_nat 16)%Z with two_128.
  pose proof (be_value_range (take 16 raw) (Forall_take _ _ _ Hb)) as Ru. pose proof (be_value_range (drop 16 raw) (Forall_drop _ _ _ Hb)) as Rl.
  rewrite Ht in Ru. rewrite Hd in Rl. change (256 ^ Z.of_nat 16)%Z with (2 ^ 128)%Z in Ru, Rl.
  apply encodes_parts; try done; lia.
Qed.

Context `{BI : BigInts, BL : !BigIntsLaws}.

Lemma positive_256_spec n : (0 <= n < 2 ^ 255)%Z -> positive_256 n = if (n =? 0)%Z then Panic else Done n.
Proof.
  intros Hn. unfold positive_256. destruct (Z.eqb_spec n 0); [|apply checked_in; lia].
  unfold checked. rewrite bool_decide_false by lia. done.
Qed.

(** A scalar crosses the boundary to the contract in two signed parts, with
    which the contract computes the same power; the split panics exactly for
    the scalars whose upper or lower 128 bits are zero. *)
Theorem split_scalar_spec s : (0 <= s < 2 ^ 256)%Z ->
  match split_scalar s with
  | Done e => (s / two_128 <> 0 /\ s mod two_128 <> 0)%Z /\ encodes e s
  | Panic => (s / two_128 = 0 \/ s mod two_128 = 0)%Z
  | NoFuel => False
  end.
Proof.
  intros Hs. unfold split_scalar. destruct (to_bytes_be_value s) as [Hb Hv]; [lia|].
  pose proof (be_value_range _ Hb) as Hr. rewrite Hv in Hr.
  case_decide as Hlen.
  { left. apply Z.div_small. split; [lia|]. eapply Z.lt_le_trans; [apply Hr|].
    change two_128 with (256 ^ Z.of_nat 16)%Z. apply Z.pow_le_mono_r; lia. }
  set (n := length (to_bytes_be s)) in *. set (bs := to_bytes_be s) in *.
  assert (length (drop (n - 16) bs) = 16) as Hd by (rewrite length_drop; lia).
  assert (s = be_value (take (n - 16) bs) * two_128 + be_value (drop (n - 16) bs))%Z as Hsplit.
  { rewrite <- Hv. rewrite <- (take_drop (n - 16) bs) at 1. rewrite be_value_app, Hd. done. }
  pose proof (be_value_range (take (n - 16) bs) (Forall_take _ _ _ Hb)) as Ru.
  pose proof (be_value_range (drop (n - 16) bs) (Forall_drop _ _ _ Hb)) as Rl. rewrite Hd in Rl.
  change (256 ^ Z.of_nat 16)%Z with two_128 in Rl. set (u := be_value (take _ _)) in *. set (l := be_value (drop _ _)) in *.
  assert (0 < two_128)%Z as H128 by done. assert (two_128 < 2 ^ 255)%Z as H255 by done.
  assert (2 ^ 256 = two_128 * two_128)%Z as H256 by done.
  assert (0 <= u < two_128)%Z as Hu by nia.
  assert (s / two_128 = u)%Z as -> by (rewrite Hsplit, Z.div_add_l, Z.div_small; lia).
  assert (s mod two_128 = l)%Z as -> by (rewrite Hsplit, Z.add_comm, Z.mod_add, Z.mod_small; lia).
  rewrite !positive_256_spec by lia. destruct (Z.eqb_spec u 0); [by left|]. outcome_cbn.
  destruct (Z.eqb_spec l 0); [by right|]. outcome_cbn. split; [done|].
  destruct (to_signed_value u) as [Hu1 Hu2]; [lia|]. destruct (to_signed_value l) as [Hl1 Hl2]; [lia|].
  rewrite Hsplit. apply encodes_parts; done || lia.
Qed.
End Exponents.

(** ** Certificates *)

(** Digests have 32 bytes. *)
Class Digests32 `{B : Blake2b, SH : Sha256} : Prop := {
  blake2b_32 m : length (blake2b m) = 32 /\ Forall is_byte (blake2b m);
  sha256_32 m : length (sha256 m) = 32 /\ Forall is_byte (sha256 m);
}.

(** A scalar has 32 bytes and is read back from them. *)
Class ScalarBytesLaws `{C : Curve} : Prop := {
  scalar_to_bytes_32 s : length (scalar_to_bytes s) = 32 /\ Forall is_byte (scalar_to_bytes s);
  scalar_bytes_roundtrip s : scalar_from_bytes (scalar_to_bytes s) = Some s;
}.

Section Certificates.
Context `{C : Curve, CL : !CurveLaws C, B : Blake2b, SH : Sha256, SI : !ScalarInts, SL : !ScalarIntsLaws}.
Context `{D32 : !Digests32, SBL : !ScalarBytesLaws, BI : BigInts, BL : !BigIntsLaws, SG : !Schnorr, SB : !SchnorrBytes}.

Add Ring scalar_ring_certificates : scalar_ring.

Lemma padd_neg p s : p *p s +p p *p sopp s = identity.
Proof. rewrite <- pmul_sadd, <- (pmul_s0 p). f_equal. ring. Qed.

Lemma psub_padd p q : p -p q +p q = p.
Proof.
  assert (q *p sopp s1 +p q = identity) as Hq by (rewrite padd_comm; rewrite <- (pmul_s1 q) at 1; apply padd_neg).
  assert (p = p +p q *p sopp s1 +p q) as Hp by (by rewrite <- padd_assoc, Hq, padd_identity).
  by rewrite Hp at 1; rewrite psub_cancel, <- Hp.
Qed.

Lemma biguint_loop l k : k + length l = 32 ->
  exists ws, mapO (fun '(i, w) => if decide (i <= 31) then Done (Z.shiftl w (Z.of_nat ((31 - i) * 8))) else Panic)
      (imap (fun i w => (k + i, w)) l) = Done ws /\ forall a, foldl Z.add a ws = (a + be_value l)%Z.
Proof.
  revert k. induction l as [|w l IH]; intros k Hk.
  - exists []. split; [done|]. intros a. cbn. lia.
  - cbn [length] in Hk. destruct (IH (S k)) as (ws & Hws & Hsum); [lia|]. cbn [imap].
    rewrite (imap_ext _ (fun i w => (S k + i, w)) l) by (intros; cbn; f_equal; lia).
    cbn [mapO]. rewrite decide_True by lia. outcome_cbn. rewrite Hws. outcome_cbn. eexists. split; [done|]. intros a.
    cbn [foldl]. rewrite Hsum, be_value_cons, Z.shiftl_mul_pow2 by lia.
    replace (Z.of_nat ((31 - (k + 0)) * 8)) with (8 * Z.of_nat (length l))%Z by lia.
    rewrite Z.pow_mul_r by lia. change (2 ^ 8)%Z with 256%Z. lia.
Qed.

Lemma scalar_to_biguint_spec s : exists n, scalar_to_biguint s = Done n /\ scalar_of_Z n = s /\ (0 <= n < 2 ^ 256)%Z.
Proof.
  destruct (scalar_to_bytes_32 s) as [Hlen Hb]. destruct (biguint_loop (scalar_to_bytes s) 0 Hlen) as (ws & Hws & Hsum).
  unfold scalar_to_biguint. rewrite (imap_ext _ (fun i w => (0 + i, w)) (scalar_to_bytes s)) by done. rewrite Hws. outcome_cbn.
  eexists. split; [done|]. rewrite Hsum, Z.add_0_l. split.
  - apply scalar_of_bytes, scalar_bytes_roundtrip.
  - apply be_value_range in Hb. rewrite Hlen in Hb. exact Hb.
Qed.

(** The parts of a scalar stand for the scalar. *)
Lemma split_encodes s n e x : scalar_to_biguint s = Done n -> split_scalar n = Done e -> myExp x e = Done (x *p s).
Proof.
  intros Hn He. destruct (scalar_to_biguint_spec s) as (n' & Hn' & <- & Hr). rewrite Hn in Hn'. injection Hn' as <-.
  pose proof (split_scalar_spec n Hr) as Hs. rewrite He in Hs. destruct Hs as [_ Hs]. apply Hs.
Qed.

Lemma digest_exp raw s : length raw = 32 /\ Forall is_byte raw -> scalar_from_bytes raw = Some s ->
  exists e, encodeUnsigned256BitInt raw = Done e /\ forall x, myExp x e = Done (x *p s).
Proof.
  intros [Hl Hb] Hs. destruct (encode_digest raw Hl Hb) as (e & He & Hx). exists e. split; [done|]. intros x.
  rewrite (Hx x). unfold exp. by rewrite (scalar_of_bytes _ _ Hs).
Qed.

(** The contract's check of a prepared signature holds. *)
Lemma verification_item_ok md ix key sig item :
  verification_item md ix key sig = Done item -> verifySignature generator md item = Done true.
Proof.
  unfold verification_item. destruct (is_field_element _); [|done]. intros Hi. bind_inv. simplify_eq.
  unfold verifySignature. cbn [vi_r_bytes vi_key_bytes vi_s vi_key vi_response].
  set (raw := sha256 (challengeTag ++ _)).
  change (tagged_hash CHALLENGE_TAG _) with raw. destruct (sha256_32 (challengeTag ++ challengeTag ++ take 32 (signature_bytes sig) ++ verifying_key_bytes key ++ md)) as [Hl Hb].
  destruct (encode_digest raw Hl Hb) as (e & -> & He). outcome_cbn.
  rewrite (split_encodes _ _ _ _ Hv0 Hv1). outcome_cbn. rewrite (He key). outcome_cbn. f_equal. apply bool_decide_eq_true.
  unfold exp. by rewrite padd_swap, padd_neg, padd_identity.
Qed.

Lemma forallO_true {A} (f : A -> outcome bool) l : Forall (fun x => f x = Done true) l -> forallO f l = Done true.
Proof. induction 1 as [|x l Hx _ IH]; [done|]. cbn. by rewrite Hx. Qed.

(** The prepared items of an exclusion set in which every member committed. *)
Lemma exclusion_items excl md items :
  Forall (fun e => is_Some e.2 /\ Z.of_nat e.1 < 2 ^ 31)%Z excl -> serialize_exclusion_set excl md = Done items ->
  vi_ix <$> items = Z.of_nat <$> excl.*1 /\
  vi_key <$> items = omap (fun '(_, maybe_yi) => fst <$> maybe_yi) excl /\
  Forall (fun item => verifySignature generator md item = Done true) items.
Proof.
  unfold serialize_exclusion_set. intros Hall. revert items. induction Hall as [|[ix [[key sig]|]] excl [[? [=]] Hix] _ IH]; intros items Hs.
  - cbn in Hs. injection Hs as <-. by split_and!.
  - cbn [omap list_omap fmap option_fmap option_map mapO] in Hs. bind_inv. simplify_eq.
    destruct (IH _ Hv0) as (Hx & Hk & Hok). pose proof (verification_item_ok _ _ _ _ _ Hv) as Hi.
    unfold verification_item in Hv. destruct (is_field_element _); [|done]. bind_inv. simplify_eq.
    cbn [fst] in *. split_and!; [| |by constructor].
    + rewrite !fmap_cons, Hx. f_equal. cbn. unfold as_i32. rewrite Z.mod_small by lia. by rewrite (proj2 (Z.ltb_lt _ _)).
    + cbn. f_equal. exact Hk.
Qed.

(** Sums over the committee: the terms are those of the protocol. *)
Lemma fold_terms {X} (f : Point -> X -> outcome Point) (g : X -> outcome (option Point)) l terms acc :
  (forall x t a, g x = Done t -> f a x = Done (from_option (padd a) a t)) ->
  mapO g l = Done terms -> foldO f l acc = Done (foldl padd acc (omap id terms)).
Proof.
  intros Hfg. revert terms acc. induction l as [|x l IH]; intros terms acc Hm; cbn [mapO foldO] in *.
  - by injection Hm as <-.
  - bind_inv. simplify_eq. rewrite (Hfg _ _ acc Hv). outcome_cbn. rewrite (IH _ _ Hv0). by destruct v.
Qed.

Lemma elem_of_map_of_nat (i : nat) (ixs : list nat) : i ∈ ixs <-> Z.of_nat i ∈ Z.of_nat <$> ixs.
Proof. rewrite list_elem_of_fmap. split; [eauto|]. intros (j & Hj & ?). apply Nat2Z.inj in Hj. by subst. Qed.

(** The weights of the members, as the contract and the protocol compute them. *)
Lemma member_weights committee ins :
  mapO (individual_input (H := blake2b) committee) committee = Done ins ->
  exists ais, mapO (calcA (blake2b (concat (sec1_bytes <$> committee)))) committee = Done ais /\
    Forall2 (fun ai s => forall x, myExp x ai = Done (x *p s)) ais ins.
Proof.
  unfold individual_input, calcA. cbv zeta. change (@hf blake2b) with blake2b.
  generalize (blake2b (concat (sec1_bytes <$> committee))). intros o. revert ins.
  induction committee as [|x members IH]; intros ins Hm; cbn [mapO] in *.
  - injection Hm as <-. by exists [].
  - bind_inv. simplify_eq. destruct (IH _ Hv0) as (ais & -> & Hais).
    destruct (digest_exp _ _ (blake2b_32 _) Hv) as (e & -> & He). outcome_cbn. eexists. split; [done|]. by constructor.
Qed.

Lemma full_key_terms members ais ins terms acc :
  Forall2 (fun ai s => forall x, myExp x ai = Done (x *p s)) ais ins ->
  mapO (fun '(i, xi) => ai ← unwrap (ins !! i); Done (xi *p ai)) (imap pair members) = Done terms ->
  calcFullAggregateKey members ais acc = Done (foldl padd acc terms).
Proof.
  intros Hw Hm. unfold calcFullAggregateKey. generalize dependent (imap pair members). intros l. revert terms acc.
  induction l as [|[i x] l IH]; intros terms acc Hm; cbn [mapO foldO] in *; [by injection Hm as <-|].
  bind_inv. simplify_eq. destruct (Forall2_lookup_r _ _ _ _ _ Hw Hv1) as (ai & -> & Hai). outcome_cbn.
  rewrite Hai. outcome_cbn. by rewrite (IH _ _ Hv0).
Qed.

Lemma partial_key_terms members ais ins (ixs : list nat) terms acc :
  Forall2 (fun ai s => forall x, myExp x ai = Done (x *p s)) ais ins ->
  mapO (fun '(i, x) => if bool_decide (i ∈ ixs) then Done None else ai ← unwrap (ins !! i); Done (Some (x *p ai)))
    (imap pair members) = Done terms ->
  calcPartialAggregateKey members (Z.of_nat <$> ixs) ais acc = Done (foldl padd acc (omap id terms)).
Proof.
  intros Hw. unfold calcPartialAggregateKey. apply fold_terms. intros [i x] t a Hg.
  rewrite (bool_decide_ext (Z.of_nat i ∈ Z.of_nat <$> ixs) (i ∈ ixs)) by (symmetry; apply elem_of_map_of_nat).
  destruct (bool_decide _); bind_inv; simplify_eq; [done|].
  destruct (Forall2_lookup_r _ _ _ _ _ Hw Hv) as (ai & -> & Hai). outcome_cbn. by rewrite Hai.
Qed.

Lemma threshold_below t boxes n m m' : (0 <= num t)%Z -> (0 <= denom t)%Z -> (0 <= boxes <= n)%Z ->
  threshold_min t boxes = Done m -> threshold_min t n = Done m' -> (as_i32 m <= m')%Z.
Proof.
  unfold threshold_min. intros Hn Hd Hb H1 H2. bind_inv. apply checked_Done in Hv as [? ->], Hv0 as [? ->].
  destruct (Z.eqb_spec (denom t) 0); [done|]. simplify_eq.
  assert (boxes * num t / denom t <= n * num t / denom t)%Z by (apply Z.div_le_mono; nia).
  assert (0 <= boxes * num t / denom t)%Z by (apply Z.div_pos; nia).
  unfold as_i32. pose proof (Z.mod_le (boxes * num t / denom t) (2 ^ 32) ltac:(lia) ltac:(lia)).
  destruct (_ <? _)%Z; lia.
Qed.

(** A certificate that the committee's protocol verifies is accepted by
    the contract of the vault, on the data the connector prepares from it: the
    key, the challenge, the response and the excluded commitments satisfy the
    contract's equation, each prepared signature verifies, and the threshold
    the connector passes is met.  Every excluded member must have committed,
    and the threshold is that of a number of boxes of at most the size of the
    committee. *)
Theorem certificate_accepted Y z excl committee md t boxes m items zn resp :
  verify_aggregate (H := blake2b) Y z excl committee md t = Done true ->
  Forall (fun e => is_Some e.2 /\ Z.of_nat e.1 < 2 ^ 31)%Z excl ->
  serialize_exclusion_set excl md = Done items ->
  scalar_to_biguint z = Done zn -> split_scalar zn = Done resp ->
  (0 <= num t)%Z -> (0 <= denom t)%Z -> (0 <= boxes <= Z.of_nat (length committee))%Z ->
  threshold_min t boxes = Done m ->
  verifyCertificate generator identity (blake2b (concat (sec1_bytes <$> committee))) committee items resp Y md (as_i32 m) = Done true.
Proof.
  intros Hv Hall Hitems Hzn Hresp Hnum Hden Hboxes Hm. unfold verify_aggregate in Hv.
  apply bind_Done in Hv as (ins & Hins & Hv). apply bind_Done in Hv as (X & HX & Hv).
  apply bind_Done in Hv as (X' & HX' & Hv). apply bind_Done in Hv as (c & Hc & Hv).
  case_decide as Heq; [|done]. destruct (forallb _ _); [|done]. bind_inv. apply checked_Done in Hv0 as [_ ->].
  pose proof (threshold_below _ _ _ _ _ Hnum Hden Hboxes Hm Hv1) as Hthr. apply Z.leb_le in Hv.
  destruct (exclusion_items _ _ _ Hall Hitems) as (Hix & Hkeys & Hsigs).
  destruct (member_weights _ _ Hins) as (ais & Hais & Hw). unfold verifyCertificate. rewrite Hais. outcome_cbn.
  unfold aggregate_pk, public_key_of_point in HX. bind_inv. case_decide; [done|]. injection HX as <-.
  rewrite (full_key_terms _ _ _ _ _ Hw Hv0). fold (point_sum v). outcome_cbn.
  unfold challenge, hf in Hc. apply unwrap_Done in Hc.
  destruct (digest_exp (blake2b (sec1_bytes (point_sum v) ++ sec1_bytes Y ++ md)) c (blake2b_32 _) Hc) as (e & -> & Hexp). outcome_cbn.
  unfold partial_pk in HX'. bind_inv. subst X'. rewrite Hix, (partial_key_terms _ _ _ _ _ _ Hw Hv2). outcome_cbn.
  rewrite (split_encodes _ _ _ _ Hzn Hresp), Hexp. outcome_cbn. rewrite forallO_true by done. outcome_cbn.
  assert (length items = length excl) as Hlen by (rewrite <- (length_fmap vi_ix), Hix, !length_fmap; done).
  f_equal. rewrite !andb_true_iff, bool_decide_eq_true, Z.leb_le, Hlen. split_and!; [|done|lia].
  unfold calcAggregateCommitment. rewrite Hkeys, Heq. apply psub_padd.
Qed.
End Certificates.

(** ** Terminal cells *)

Section Cells.
Context `{C : Curve, L : !ErgoLib, B : Blake2b}.

Lemma i64_bytes_as_i64 x : i64_to_be_bytes (as_i64 x) = be_bytes 8 x.
Proof.
  unfold i64_to_be_bytes, be_bytes. f_equal. change (2 ^ 64)%Z with (256 ^ Z.of_nat 8)%Z. rewrite le_bytes_mod.
  rewrite <- (le_bytes_mod 8 (as_i64 x)), <- (le_bytes_mod 8 x). f_equal. change (256 ^ Z.of_nat 8)%Z with (2 ^ 64)%Z.
  unfold as_i64. destruct (_ <=? _)%Z; [by rewrite Z.mod_mod|].
  rewrite Zminus_mod, Z.mod_same, Z.sub_0_r, !Z.mod_mod by done. done.
Qed.

Lemma i64_bytes_mod x : i64_to_be_bytes x = be_bytes 8 x.
Proof. unfold i64_to_be_bytes, be_bytes. f_equal. apply (le_bytes_mod 8). Qed.

(** The contract hashes the bytes that were notarized. *)
Lemma constant_hash c cc : constant_from c = Done cc ->
  exists b, term_cell_to_bytes c = Done b /\ hashTerminalCell cc = blake2b b.
Proof.
  unfold constant_from, term_cell_to_bytes. intros Hc. bind_inv. subst cc. rewrite Hv. outcome_cbn.
  eexists. split; [done|]. unfold hashTerminalCell. cbn [cc_tokens cc_prop cc_value]. f_equal. f_equal. f_equal.
  assert (forall l acc, foldl (fun acc t => acc ++ token_id t ++ longToByteArray (amount t)) acc
      ((fun t => {| token_id := token_id t; amount := as_i64 (amount t) |}) <$> l) =
    acc ++ concat ((fun t => token_id t ++ be_bytes 8 (amount t)) <$> l)) as Hf; [|apply (Hf _ [])].
  induction l as [|t l IH]; intros acc; cbn; [by rewrite app_nil_r|]. rewrite IH. unfold longToByteArray.
  by rewrite i64_bytes_as_i64, <- !app_assoc.
Qed.

(** The contract recomputes what the report was notarized with: on the
    constants the connector makes of the terminal cells it inserts into the
    tree exactly the keys and values that were inserted when the report was
    made. *)
Theorem contract_recomputes_report cells constants fee :
  constants_from cells = Done constants -> report_insertions cells fee = Done (avlInsertions constants fee).
Proof.
  intros Hc. unfold report_insertions, avlInsertions.
  assert (forall k, mapO (fun '(i, cell) => b ← term_cell_to_bytes cell; Done (i64_to_be_bytes (as_i64 (Z.of_nat i + 1)), blake2b b))
      (imap (fun i c => (k + i, c)) cells) =
    Done (imap (fun i cell => (longToByteArray (Z.of_nat (k + i) + 1), hashTerminalCell cell)) constants)) as Hk.
  { unfold constants_from in Hc. revert constants Hc. induction cells as [|c cells IH]; intros constants Hc k; cbn [mapO imap] in *;
      bind_inv; subst; [done|]. destruct (constant_hash _ _ Hv) as (b & Hb & Hh). rewrite Hb. outcome_cbn.
    rewrite (imap_ext _ (fun i c => (S k + i, c)) cells) by (intros; cbn; f_equal; lia). rewrite (IH _ Hv0).
    outcome_cbn. cbn [imap]. f_equal. f_equal.
    - unfold longToByteArray. by rewrite i64_bytes_as_i64, i64_bytes_mod, Hh.
    - apply imap_ext. intros. cbn. do 3 f_equal. lia. }
  rewrite (imap_ext _ (fun i c => (0 + i, c)) cells) by done. rewrite (Hk 0). outcome_cbn. f_equal. f_equal.
  apply mapO_length in Hc. unfold longToByteArray. by rewrite i64_bytes_as_i64, !i64_bytes_mod, Hc.
Qed.

(** *** The bytes of a cell determine it *)

Lemma Done_inj {A} (x y : A) : Done x = Done y -> x = y.
Proof. by intros [= ->]. Qed.

Lemma be_bytes_inj n x y : (0 <= x < 256 ^ Z.of_nat n)%Z -> (0 <= y < 256 ^ Z.of_nat n)%Z -> be_bytes n x = be_bytes n y -> x = y.
Proof. intros Hx Hy E. by rewrite <- (be_value_bytes n x), <- (be_value_bytes n y), E. Qed.

Definition token_ok (t : Token) : Prop := length (token_id t) = 32 /\ (0 <= amount t <= u64_max)%Z.

Definition cell_ok (c : ErgoTermCell) : Prop :=
  (i64_min <= ergs (term_cell c) <= i64_max)%Z /\ Forall token_ok (tokens (term_cell c)).

Lemma token_bytes_inj l k : Forall token_ok l -> Forall token_ok k ->
  concat ((fun t => token_id t ++ be_bytes 8 (amount t)) <$> l) = concat ((fun t => token_id t ++ be_bytes 8 (amount t)) <$> k) -> l = k.
Proof.
  intros Hl. revert k. induction Hl as [|[i a] l [Hi Ha] _ IH]; intros [|[j b] k] Hk E; [done|..].
  - apply Forall_cons in Hk as [[Hj _] _]. apply (f_equal length) in E. cbn in *. rewrite !length_app in E. lia.
  - apply (f_equal length) in E. cbn in *. rewrite !length_app in E. lia.
  - apply Forall_cons in Hk as [[Hj Hb] Hk]. cbn in *. rewrite <- !app_assoc in E.
    apply app_inj_1 in E as [-> E]; [|congruence]. apply app_inj_1 in E as [Hab E]; [|by rewrite !be_bytes_length].
    apply be_bytes_inj in Hab; [|by unfold u64_max in *; lia..]. subst. f_equal. by apply IH.
Qed.

(** The bytes of a terminal cell, whose hash is notarized, determine its
    value, its proposition and its tokens, among the cells whose propositions
    are equally long. *)
Theorem term_cell_bytes_inj c c' b p p' :
  cell_ok c -> cell_ok c' -> prop_bytes c = Done p -> prop_bytes c' = Done p' -> length p = length p' ->
  term_cell_to_bytes c = Done b -> term_cell_to_bytes c' = Done b ->
  ergs (term_cell c) = ergs (term_cell c') /\ p = p' /\ tokens (term_cell c) = tokens (term_cell c').
Proof.
  intros [He Ht] [He' Ht'] Hp Hp' Hlen. unfold term_cell_to_bytes. rewrite Hp, Hp'. outcome_cbn. intros Hb Hb'. rewrite <- Hb' in Hb. apply Done_inj in Hb as E.
  apply app_inj_1 in E as [E1 E]; [|unfold i64_to_be_bytes; by rewrite !be_bytes_length].
  apply app_inj_1 in E as [-> E2]; [|done]. split_and!; [|done|by apply token_bytes_inj].
  apply (f_equal read_i64) in E1 as Er.
  rewrite !read_i64_bytes in Er by done. congruence.
Qed.

(** ** Cells of the ledger *)

Context `{LL : !ErgoLibLaws, HO : HashOrder, HL : !HashOrderLaws}.

Lemma NoDup_key_inj {A K} (key : A -> K) l x y : NoDup (key <$> l) -> x ∈ l -> y ∈ l -> key x = key y -> x = y.
Proof.
  intros Hnd [i Hi]%list_elem_of_lookup [j Hj]%list_elem_of_lookup E.
  assert (i = j) as <-; [|congruence]. eapply (NoDup_lookup (key <$> l)); [done|by rewrite list_lookup_fmap, Hi|].
  by rewrite list_lookup_fmap, Hj, E.
Qed.

(** Sorting lists with the same elements and distinct keys. *)
Lemma sort_by_key_perm {A} (key : A -> list Z) l k : NoDup (key <$> l) -> l ≡ₚ k ->
  sort_by_key bytes_leb key l = sort_by_key bytes_leb key k.
Proof.
  intros Hnd Hp. assert (forall l, StronglySorted (fun a b => bytes_leb (key a) (key b) = true) (sort_by_key bytes_leb key l)) as Hs.
  { intros l'. apply sort_by_sorted; [intros; by apply bytes_leb_total|intros ? ? ?; apply bytes_leb_trans]. }
  eapply StronglySorted_unique_strong; [|apply Hs..|].
  - intros x y Hx Hy H1 H2. unfold sort_by_key in Hx, Hy. rewrite elem_of_sort_by in Hx, Hy. rewrite <- Hp in Hy.
    assert (key x = key y) as E by (by apply bytes_leb_antisym). by eapply NoDup_key_inj.
  - unfold sort_by_key. by rewrite !sort_by_perm.
Qed.

Lemma sort_by_key_fmap {A A'} (f : A -> A') (key : A -> list Z) (key' : A' -> list Z) l :
  (forall x, key' (f x) = key x) -> f <$> sort_by_key bytes_leb key l = sort_by_key bytes_leb key' (f <$> l).
Proof.
  intros Hk. unfold sort_by_key, sort_by. induction l as [|x l IH]; [done|]. cbn [foldr fmap list_fmap]. rewrite <- IH.
  generalize (foldr (insert_by (fun a b => bytes_leb (key a) (key b))) [] l). intros r.
  induction r as [|y r IHr]; [done|]. cbn. rewrite !Hk. destruct (bytes_leb _ _); [done|]. cbn. f_equal. exact IHr.
Qed.

Lemma hash_order_singleton {A} k (v : A) : hash_order A {[ k := v ]} = [(k, v)].
Proof. apply Permutation_singleton_r. by rewrite hash_order_perm, map_to_list_singleton. Qed.

(** The tokens of a cell, as its value lists them. *)
Lemma token_details_perm c : NoDup (token_id <$> tokens c) ->
  token_details (svalue_from c) ≡ₚ (fun t => (token_id t, amount t)) <$> tokens c.
Proof.
  intros Hnd. unfold token_details, svalue_from. cbn [assets]. rewrite hash_order_singleton. cbn. rewrite app_nil_r, hash_order_perm.
  unfold collect_map. rewrite map_to_list_to_map, reverse_Permutation; [done|].
  rewrite <- fmap_reverse, <- list_fmap_compose. by rewrite reverse_Permutation.
Qed.

(** C38: a terminal cell converted for the ledger is read back with its value,
    its address and its tokens, in the order of their identifiers, when it is
    addressed to a key, its amounts are in the ranges of the chain and no
    token is listed twice. *)
Theorem term_cell_roundtrip random c h :
  address (term_cell c) = P2Pk h -> h <> identity -> box_value_ok (ergs (term_cell c)) = true ->
  Forall (fun t => token_amount_ok (amount t) = true) (tokens (term_cell c)) -> NoDup (token_id <$> tokens (term_cell c)) ->
  exists t, term_cell_into random c = Done t /\
    term_cell_try_from t = inl {| term_cell := {| ergs := ergs (term_cell c); address := P2Pk h;
      tokens := sort_by_key bytes_leb token_id (tokens (term_cell c)) |} |}.
Proof.
  intros Ha Hh Hv Ht Hnd. unfold term_cell_into. rewrite Ha. unfold pk_of_dlog. rewrite decide_False by done. outcome_cbn.
  eexists. split; [done|]. unfold term_cell_try_from. cbn [dst term_value]. rewrite decide_True by done.
  unfold term_cell_of. cbn [native svalue_from]. rewrite Hv, sec1_roundtrip by done.
  pose proof (token_details_perm _ Hnd) as Hp. assert (forallb (fun d => token_amount_ok d.2) (token_details (svalue_from (term_cell c))) = true) as ->.
  { apply Is_true_true_1, forallb_True. rewrite Hp. apply Forall_fmap. eapply Forall_impl; [exact Ht|]. cbn. by intros t ->. }
  do 3 f_equal. rewrite (sort_by_key_perm fst _ ((fun t => (token_id t, amount t)) <$> tokens (term_cell c))); [|by rewrite Hp, <- list_fmap_compose|done].
    rewrite (sort_by_key_fmap _ _ token_id) by done. rewrite <- list_fmap_compose, (list_fmap_ext _ id); [by rewrite list_fmap_id|].
    by intros ? [].
Qed.

(** A token listed twice is counted once. *)
Lemma duplicate_token_dropped c id a b rest :
  tokens c = {| token_id := id; amount := a |} :: {| token_id := id; amount := b |} :: rest -> id ∉ token_id <$> rest ->
  exists m, assets (svalue_from c) !! zero_digest = Some m /\ m !! id = Some b.
Proof.
  intros Ht Hid. unfold svalue_from. cbn [assets]. rewrite lookup_singleton_eq. eexists. split; [done|]. rewrite Ht, !fmap_cons.
  unfold collect_map. rewrite !reverse_cons. rewrite <- app_assoc, list_to_map_app. apply lookup_union_Some_raw. right.
  split; [|cbn; by rewrite lookup_insert_eq]. apply not_elem_of_list_to_map_1. rewrite <- fmap_reverse, <- list_fmap_compose.
  by rewrite reverse_Permutation.
Qed.
End Cells.
