(* ===== verification/ErgoTx.v ===== *)
(** * Transactions of the vault

    Models of the transactions the Ergo connector builds
    ([spectrum-ergo-connector/src/ergo_connector.rs]): [process_deposits] up to
    the signature and [verify_vault_contract_ergoscript_with_sigma_rust]; and
    what the contracts of [ErgoContracts] say to them. *)

From S2P Require Import Ledger Crypto SigmaCrypto Algebra Prelude KvStore ErgoBoxes ErgoContracts ErgoCells ContractSafety.

Section Build.
Context `{C : Curve, L : !ErgoLib, AT : AvlTrees}.

(** An unsigned transaction: its inputs with their variables, its data inputs
    and its outputs. *)
Record UnsignedTransaction := {
  utx_inputs : list (BoxId * Vars);
  utx_data_inputs : list BoxId;
  utx_outputs : list ErgoBoxCandidate;
}.

(** [BoxValue::try_from(..).unwrap()] and [BoxTokens::try_from(..).unwrap()] *)
Definition box_value (v : Z) : outcome Z := if box_value_ok v then Done v else Panic.

Definition box_tokens (l : list Token) : outcome (list Token) :=
  if decide (length l <= max_tokens) then Done l else Panic.

(** [TxIoVec::from_vec(..).unwrap()] *)
Definition tx_io {A} (l : list A) : outcome (list A) :=
  if decide (0 < length l <= max_io) then Done l else Panic.

(** ** Deposits *)

Definition DEPOSIT_MINER_FEE : Z := 1000000.

(** [amount.checked_add(..).unwrap()] *)
Definition token_add (a b : Z) : outcome Z := if token_amount_ok (a + b) then Done (a + b)%Z else Panic.

Definition merge_token (output_vault_tokens : list Token) (t : Token) : outcome (list Token) :=
  match position (token_id t) (token_id <$> output_vault_tokens) with
  | Some i =>
    tok ← unwrap (output_vault_tokens !! i);
    new_amount ← token_add (amount tok) (amount t);
    Done (<[i := {| token_id := token_id tok; amount := new_amount |}]> output_vault_tokens)
  | None => Done (output_vault_tokens ++ [t])
  end.

(** One deposit: its tokens and its value. *)
Definition add_deposit (acc : list Token * Z) (d : ErgoBox * ErgoInboundCell) : outcome (list Token * Z) :=
  output_vault_tokens ← foldO merge_token (tokens (inbound_cell d.2)) acc.1;
  total_deposit_value ← checked i64_min i64_max (acc.2 + bx_value d.1);
  Done (output_vault_tokens, total_deposit_value).

Definition vault_input_vars (vault_utxo_token_id : list Z) : Vars :=
  no_vars <| var8_maxMinerFee := Some DEPOSIT_MINER_FEE |> <| var4_vaultTokenId := Some vault_utxo_token_id |>.

Definition deposit_input_vars : Vars := no_vars <| var8_maxMinerFee := Some DEPOSIT_MINER_FEE |>.

Definition miner_output (fee current_height : Z) : ErgoBoxCandidate :=
  {| c_value := fee; c_tree := miners_fee_script; c_tokens := []; c_registers := ∅; c_height := current_height |}.

Definition deposit_tx (vault_utxo : ErgoBox) (deposits : list (ErgoBox * ErgoInboundCell)) (vault_utxo_token_id : list Z)
    (data_boxes : list ErgoBox) (current_height : Z) : outcome UnsignedTransaction :=
  acc ← foldO add_deposit deposits (bx_tokens vault_utxo, 0%Z);
  let '(output_vault_tokens, total_deposit_value) := acc in
  vault_output_tokens ← box_tokens output_vault_tokens;
  change_for_miner ← box_value DEPOSIT_MINER_FEE;
  s ← checked i64_min i64_max (bx_value vault_utxo + total_deposit_value);
  d ← checked i64_min i64_max (s - change_for_miner);
  v ← box_value d;
  let vault_output := {| c_value := v; c_tree := VAULT_CONTRACT; c_tokens := vault_output_tokens;
    c_registers := bx_registers vault_utxo; c_height := current_height |} in
  outputs ← tx_io [vault_output; miner_output change_for_miner current_height];
  data_inputs ← tx_io (bx_id <$> data_boxes);
  inputs ← tx_io ((bx_id vault_utxo, vault_input_vars vault_utxo_token_id) ::
    ((fun d => (bx_id d.1, deposit_input_vars)) <$> deposits));
  Done {| utx_inputs := inputs; utx_data_inputs := data_inputs; utx_outputs := outputs |}.

(** ** Withdrawals *)

Definition term_cell_output (current_height : Z) (c : ErgoTermCell) : outcome ErgoBoxCandidate :=
  ts ← box_tokens (tokens (term_cell c));
  script ← unwrap (address_script (address (term_cell c)));
  Done {| c_value := ergs (term_cell c); c_tree := script; c_tokens := ts; c_registers := ∅; c_height := current_height |}.

Context `{BI : BigInts, SG : !Schnorr, SB : !SchnorrBytes, SH : Sha256, SI : !ScalarInts, B : Blake2b}.

(** [SignatureAggregationWithNotarizationElements] *)
Record NotarizationElements := {
  ne_aggregate_commitment : Point;
  ne_aggregate_response : Scalar;
  ne_exclusion_set : list (nat * option (Point * SchnorrSig));
  ne_threshold : Threshold;
  ne_starting_avl_tree : AvlTree;
  ne_proof : list Z;
  ne_resulting_digest : list Z;
  ne_terminal_cells : list ErgoTermCell;
  ne_max_miner_fee : Z;
}.

Definition withdrawal_vars (inputs : NotarizationElements) (committee_size : Z) (expected_vault_utxo_token_id : list Z) : outcome Vars :=
  s_biguint ← scalar_to_biguint (ne_aggregate_response inputs);
  aggregate_response ← split_scalar s_biguint;
  let md := blake2b (ne_resulting_digest inputs) in
  exclusion_set_data ← serialize_exclusion_set (ne_exclusion_set inputs) md;
  threshold ← threshold_min (ne_threshold inputs) committee_size;
  cells ← constants_from (ne_terminal_cells inputs);
  Done {| var0_verificationData := Some exclusion_set_data; var1_aggregateCommitment := Some (ne_aggregate_commitment inputs);
    var2_terminalCells := Some cells; var3_proof := Some (ne_proof inputs); var4_vaultTokenId := Some expected_vault_utxo_token_id;
    var5_aggregateResponse := Some aggregate_response; var6_message := Some md; var7_tree := Some (ne_starting_avl_tree inputs);
    var8_maxMinerFee := Some (ne_max_miner_fee inputs); var9_threshold := Some (as_i32 threshold) |}.

Definition withdrawal_tx (inputs : NotarizationElements) (committee_size : Z) (vault_utxo : ErgoBox)
    (expected_vault_utxo_token_id : list Z) (data_boxes : list ErgoBox) (current_height : Z) : outcome UnsignedTransaction :=
  change_for_miner ← box_value (ne_max_miner_fee inputs);
  vars ← withdrawal_vars inputs committee_size expected_vault_utxo_token_id;
  term_cell_outputs ← mapO (term_cell_output current_height) (ne_terminal_cells inputs);
  ergs_to_distribute ← foldO (fun a c => checked i64_min i64_max (a + ergs (term_cell c))) (ne_terminal_cells inputs) 0%Z;
  d ← checked i64_min i64_max (bx_value vault_utxo - change_for_miner);
  d ← checked i64_min i64_max (d - ergs_to_distribute);
  v ← box_value d;
  let vault_output := {| c_value := v; c_tree := VAULT_CONTRACT; c_tokens := bx_tokens vault_utxo;
    c_registers := bx_registers vault_utxo; c_height := current_height |} in
  outputs ← tx_io (vault_output :: term_cell_outputs ++ [miner_output change_for_miner current_height]);
  data_inputs ← tx_io (bx_id <$> data_boxes);
  Done {| utx_inputs := [(bx_id vault_utxo, vars)]; utx_data_inputs := data_inputs; utx_outputs := outputs |}.
End Build.

(** ** The tokens of a deposit

    The contract of a deposit recomputes the tokens of the vault from the
    changes to existing tokens and the new ones; the connector merges them into
    one list. *)

Section Tokens.

Lemma position_Some {A} `{EqDecision A} (x : A) l i :
  position x l = Some i <-> l !! i = Some x /\ forall j y, l !! j = Some y -> j < i -> y <> x.
Proof.
  unfold position. split.
  - intros ([k y] & (Hi & <- & Hj)%list_find_Some & ->)%fmap_Some. split; [done|]. cbn. intros j z Hz Hlt E. by apply (Hj j z Hz Hlt).
  - intros [Hi Hj]. apply fmap_Some. exists (i, x). split; [|done]. apply list_find_Some. split_and!; [done..|].
    intros j y Hy Hlt E. by eapply Hj.
Qed.

Lemma position_app {A} `{EqDecision A} (x : A) l k :
  position x (l ++ k) = match position x l with Some i => Some i | None => Nat.add (length l) <$> position x k end.
Proof.
  destruct (position x l) as [i|] eqn:E.
  - apply position_Some in E as [Hi Hj]. apply position_Some. split; [by apply lookup_app_l_Some|].
    intros j y Hy Hlt. apply (Hj j y); [|done]. apply lookup_lt_Some in Hi. by rewrite lookup_app_l in Hy by lia.
  - apply position_None in E. destruct (position x k) as [i|] eqn:Ek; cbn.
    + apply position_Some in Ek as [Hi Hj]. apply position_Some. rewrite lookup_app_r, Nat.add_comm, Nat.add_sub by lia. split; [done|].
      intros j y [Hy|[Hge Hy]]%lookup_app_Some Hlt Exy; subst; [destruct E; by eapply list_elem_of_lookup_2|]. eapply (Hj _ _ Hy); [lia|done].
    + apply position_None in Ek. apply position_None. rewrite elem_of_app. tauto.
Qed.

Definition positive (t : Token) : Prop := (0 < amount t)%Z.

(** The search of the contract finds the first token. *)
Lemma findToken_spec l id : Forall positive l ->
  findToken l id = match position id (token_id <$> l) with Some i => (i, default 0%Z (amount <$> l !! i)) | None => (0, 0%Z) end.
Proof.
  intros Hpos. unfold findToken.
  set (f := fun acc '(index, t) => if (acc.2 =? 0)%Z && bool_decide (token_id t = id) then (index, amount t) else acc).
  assert (forall l (k : nat) q, (q <> 0)%Z -> foldl f (k, q) l = (k, q)) as Hkeep.
  { clear. induction l as [|[i t] l IH]; intros k q Hq; [done|]. cbn. rewrite (proj2 (Z.eqb_neq q 0)) by done. by apply IH. }
  assert (forall k, foldl f (0, 0%Z) (imap (fun i t => (k + i, t)) l) =
    match position id (token_id <$> l) with Some i => (k + i, default 0%Z (amount <$> l !! i)) | None => (0, 0%Z) end) as Hk.
  2: { rewrite (imap_ext _ (fun i t => (0 + i, t)) l) by done. apply (Hk 0). }
  induction Hpos as [|t l Ht _ IH]; intros k; [done|]. cbn [imap foldl]. unfold f at 2. cbn [snd Z.eqb andb].
  rewrite fmap_cons. change (token_id t :: (token_id <$> l)) with ([token_id t] ++ (token_id <$> l)). rewrite position_app.
  case_bool_decide as Hid.
  - rewrite Hkeep by (unfold positive in Ht; lia). rewrite (proj2 (position_Some id [token_id t] 0)); [by rewrite Nat.add_0_r|].
    split; [by rewrite Hid|]. intros; lia.
  - rewrite (proj2 (position_None id [token_id t])) by set_solver.
    rewrite (imap_ext _ (fun i t => (S k + i, t)) l) by (intros; cbn; f_equal; lia). rewrite IH.
    destruct (position id (token_id <$> l)) as [i|]; cbn; [|done]. f_equal. lia.
Qed.

Lemma findTokenInExisting_eq l id : findTokenInExisting l id = findToken l.*2 id.
Proof.
  unfold findTokenInExisting, findToken. replace (imap pair l.*2) with (prod_map (fun i => i) snd <$> imap pair l)
    by (rewrite fmap_imap, imap_fmap; by apply imap_ext).
  generalize (0, 0%Z). induction (imap pair l) as [|[i [j t]] r IH]; intros acc; [done|]. cbn. apply IH.
Qed.

(** The vault's tokens with the changes made. *)
Definition with_changes (V : list Token) (existing : list (nat * Token)) : list Token :=
  foldl (fun acc e => <[e.1 := e.2]> acc) V existing.

Lemma with_changes_length V ex : length (with_changes V ex) = length V.
Proof. revert V. induction ex as [|e ex IH]; intros V; [done|]. cbn. rewrite IH. apply length_insert. Qed.

Lemma with_changes_other V ex i : i ∉ ex.*1 -> with_changes V ex !! i = V !! i.
Proof.
  revert V. induction ex as [|e ex IH]; intros V Hi; [done|]. rewrite fmap_cons, not_elem_of_cons in Hi. destruct Hi as [Hne Hi].
  cbn. rewrite IH by done. by apply list_lookup_insert_ne.
Qed.

Lemma with_changes_at V ex k i t : NoDup ex.*1 -> ex !! k = Some (i, t) -> i < length V -> with_changes V ex !! i = Some t.
Proof.
  revert V k. induction ex as [|e ex IH]; intros V k Hnd Hk Hi; [done|]. apply NoDup_cons in Hnd as [Hne Hnd]. cbn.
  destruct k as [|k]; cbn in Hk; [|apply (IH _ k); [done..|by rewrite length_insert]].
  injection Hk as ->. fold (with_changes (<[i:=t]> V) ex). rewrite with_changes_other by done. by apply list_lookup_insert_eq.
Qed.

Lemma with_changes_update V ex k i t t' : NoDup ex.*1 -> ex !! k = Some (i, t) -> i < length V ->
  with_changes V (<[k := (i, t')]> ex) = <[i := t']> (with_changes V ex).
Proof.
  intros Hnd Hk Hi. assert (k < length ex) as Hkl by by eapply lookup_lt_Some.
  assert ((<[k := (i, t')]> ex).*1 = ex.*1) as Hex.
  { rewrite list_fmap_insert. apply list_insert_id. by rewrite list_lookup_fmap, Hk. }
  apply list_eq. intros j. destruct (decide (i = j)) as [<-|Hne].
  - rewrite list_lookup_insert_eq by (by rewrite with_changes_length).
    apply (with_changes_at _ _ k); [by rewrite Hex|by apply list_lookup_insert_eq|done].
  - rewrite list_lookup_insert_ne by done. destruct (decide (j ∈ ex.*1)) as [Hj|Hj].
    2: { by rewrite !with_changes_other by (rewrite ?Hex; done). }
    apply list_elem_of_fmap in Hj as ([j' u] & -> & [m Hm]%list_elem_of_lookup). cbn in *.
    destruct (decide (j' < length V)) as [Hlt|Hge].
    2: { rewrite !lookup_ge_None_2; [done|rewrite with_changes_length; lia..]. }
    rewrite (with_changes_at V ex m j' u) by done. apply (with_changes_at _ _ m); [by rewrite Hex| |done].
    rewrite list_lookup_insert_ne; [done|]. intros ->. congruence.
Qed.

(** The state of the contract's fold. *)
Record diffs_ok (V : list Token) (ex : list (nat * Token)) (new : list Token) : Prop := {
  d_first : Forall (fun e => position (token_id e.2) (token_id <$> V) = Some e.1) ex;
  d_unique : NoDup ex.*1;
  d_pos : Forall positive ex.*2;
  d_new : Forall positive new;
  d_fresh : Forall (fun t => token_id t ∉ token_id <$> V) new;
}.

Lemma position_lt {A} `{EqDecision A} (x : A) l i : position x l = Some i -> i < length l.
Proof. intros [Hi _]%position_Some. by eapply lookup_lt_Some. Qed.

Lemma with_changes_ids V ex new : diffs_ok V ex new -> token_id <$> with_changes V ex = token_id <$> V.
Proof.
  intros [Hf Hu _ _ _]. apply list_eq. intros j. rewrite !list_lookup_fmap. destruct (decide (j ∈ ex.*1)) as [Hj|Hj].
  2: by rewrite with_changes_other.
  apply list_elem_of_fmap in Hj as ([i t] & -> & He). pose proof He as [k Hk]%list_elem_of_lookup.
  rewrite Forall_forall in Hf. specialize (Hf _ He). cbn [fst snd] in *. pose proof (position_lt _ _ _ Hf) as Hlt. rewrite length_fmap in Hlt.
  rewrite (with_changes_at _ _ k _ t) by done. apply position_Some in Hf as [Hi _]. rewrite list_lookup_fmap in Hi. by rewrite Hi.
Qed.

Context `{C : Curve, L : !ErgoLib, LL : !ErgoLibLaws}.

Lemma token_add_long a b q : token_add a b = Done q -> add_long a b = Done q /\ (0 < q)%Z.
Proof.
  unfold token_add, add_long. destruct (token_amount_ok _) eqn:E; [|done]. intros [= <-]. apply token_amount_range in E.
  unfold i64_min, i64_max in *. split; [apply checked_in|]; lia.
Qed.

Lemma updated_at {A} (l : list A) i x y : l !! i = Some y -> updated l i x = Done (<[i := x]> l).
Proof. intros Hi%lookup_lt_Some. unfold updated. by rewrite decide_True. Qed.

Lemma Forall_insert_at {A} (P : A -> Prop) l i x : Forall P l -> P x -> Forall P (<[i := x]> l).
Proof. intros Hl Hx. apply Forall_lookup. intros j y [[_ [<- _]]|[_ Hy]]%list_lookup_insert_Some; [done|]. by eapply Forall_lookup_1. Qed.

(** A token that was deposited before. *)
Lemma diffs_existing V ex new k i u t q : diffs_ok V ex new -> ex !! k = Some (i, u) -> token_id u = token_id t -> (0 < q)%Z ->
  let t' := {| token_id := token_id t; amount := q |} in
  diffs_ok V (<[k := (i, t')]> ex) new /\ with_changes V (<[k := (i, t')]> ex) = <[i := t']> (with_changes V ex).
Proof.
  intros [Hf Hu Hp Hn Hfr] Hk Hid Hq t'. pose proof (Forall_lookup_1 _ _ _ _ Hf Hk) as Hpos. cbn in Hpos.
  pose proof (position_lt _ _ _ Hpos) as Hi. rewrite length_fmap in Hi. split; [|by apply (with_changes_update _ _ _ _ u)]. split; try done.
  - apply Forall_insert_at; [done|]. cbn. by rewrite <- Hid.
  - rewrite list_fmap_insert, list_insert_id; [done|]. by rewrite list_lookup_fmap, Hk.
  - rewrite list_fmap_insert. by apply Forall_insert_at.
Qed.

(** A token of the vault. *)
Lemma diffs_vault V ex new i t q : diffs_ok V ex new -> position (token_id t) (token_id <$> V) = Some i ->
  token_id t ∉ token_id <$> ex.*2 -> (0 < q)%Z ->
  let t' := {| token_id := token_id t; amount := q |} in
  i ∉ ex.*1 /\ diffs_ok V (ex ++ [(i, t')]) new /\ with_changes V (ex ++ [(i, t')]) = <[i := t']> (with_changes V ex).
Proof.
  intros [Hf Hu Hp Hn Hfr] Hi Hid Hq t'. assert (i ∉ ex.*1) as Hex.
  { intros ([j u] & -> & Hj)%list_elem_of_fmap. rewrite Forall_forall in Hf. specialize (Hf _ Hj). cbn in *.
    apply position_Some in Hf as [H1 _], Hi as [H2 _]. rewrite H1 in H2. injection H2 as H2. apply Hid. rewrite <- H2.
    by apply list_elem_of_fmap_2, (list_elem_of_fmap_2 snd _ (j, u)). }
  split; [done|]. split; [|unfold with_changes; by rewrite foldl_app]. split; try done.
  - apply Forall_app. split; [done|]. by constructor.
  - rewrite fmap_app. apply NoDup_app. split_and!; [done| |apply NoDup_singleton]. by intros j Hj ->%list_elem_of_singleton.
  - rewrite fmap_app. apply Forall_app. split; [done|]. by constructor.
Qed.

(** One token: the contract's step and the connector's lead to the same tokens. *)
Lemma tokenDiff_merge V ex new t out : V <> [] -> Forall positive V -> positive t -> diffs_ok V ex new ->
  merge_token (with_changes V ex ++ new) t = Done out ->
  exists ex' new', tokenDiff V (ex, new) t = Done (ex', new') /\ diffs_ok V ex' new' /\ out = with_changes V ex' ++ new'.
Proof.
  intros HV HVp Ht Hd Hm. pose proof Hd as [Hf Hu Hp Hn Hfr]. unfold merge_token in Hm.
  rewrite fmap_app, position_app, (with_changes_ids _ _ _ Hd), length_fmap in Hm.
  unfold tokenDiff. rewrite findTokenInExisting_eq, !findToken_spec by done.
  destruct (position (token_id t) (token_id <$> ex.*2)) as [k|] eqn:Ek; [|apply position_None in Ek as Hnot].
  - apply position_Some in Ek as [Hk _]. rewrite !list_lookup_fmap in *. destruct (ex !! k) as [[i u]|] eqn:Hek; [|done]. injection Hk as Hid.
    pose proof (Forall_lookup_1 _ _ _ _ Hf Hek) as Hi. cbn in *. rewrite Hid in Hi. rewrite Hi in Hm.
    pose proof (position_lt _ _ _ Hi) as Hlt. rewrite length_fmap in Hlt.
    rewrite lookup_app_l, (with_changes_at _ _ k _ u) in Hm by (rewrite ?with_changes_length; done). outcome_cbn in Hm. bind_inv. subst out.
    apply token_add_long in Hv as [-> Hq]. assert (positive u) as Hupos by (eapply Forall_lookup_1 in Hp; [done|by rewrite list_lookup_fmap, Hek]).
    rewrite (proj2 (Z.ltb_lt _ _)) by done. outcome_cbn. rewrite (updated_at _ _ _ _ Hek). outcome_cbn.
    destruct (diffs_existing _ _ _ _ _ _ t v Hd Hek Hid Hq) as [Hd' Hw]. eexists _, _. split; [done|]. split; [done|].
    rewrite Hw, insert_app_l by (by rewrite with_changes_length). by rewrite Hid.
  - cbn [Z.ltb Z.compare]. destruct (position (token_id t) (token_id <$> V)) as [i|] eqn:EV.
    + pose proof EV as [Hi _]%position_Some. rewrite list_lookup_fmap in Hi. destruct (V !! i) as [u|] eqn:Hu'; [|done]. injection Hi as Hid.
      pose proof (lookup_lt_Some _ _ _ Hu') as Hlt. assert (positive u) as Hup by (by eapply Forall_lookup_1 in HVp).
      cbn. rewrite (proj2 (Z.ltb_lt _ _)) by done.
      assert (i ∉ ex.*1) as Hex by apply (diffs_vault _ _ _ _ t 1 Hd EV Hnot ltac:(lia)).
      rewrite lookup_app_l, with_changes_other, Hu' in Hm by (rewrite ?with_changes_length; done). outcome_cbn in Hm. bind_inv. subst out.
      apply token_add_long in Hv as [-> Hq]. outcome_cbn.
      destruct (diffs_vault _ _ _ _ t v Hd EV Hnot Hq) as (_ & Hd' & Hw). rewrite Hid. eexists _, _. split; [done|]. split; [done|].
      by rewrite Hw, insert_app_l by (by rewrite with_changes_length).
    + destruct (V !! 0) as [v0|] eqn:HV0; [|by destruct V]. outcome_cbn. cbn [Z.ltb Z.compare]. apply position_None in EV.
      destruct (position (token_id t) (token_id <$> new)) as [i|] eqn:EN; cbn [fmap option_fmap option_map] in Hm.
      * apply position_Some in EN as [Hi _]. rewrite list_lookup_fmap in Hi. destruct (new !! i) as [u|] eqn:Hu'; [|done]. injection Hi as Hid.
        assert (positive u) as Hup by (by eapply Forall_lookup_1 in Hn). cbn. rewrite (proj2 (Z.ltb_lt _ _)) by done.
        rewrite lookup_app_r in Hm by (rewrite with_changes_length; lia). rewrite with_changes_length, Nat.add_comm, Nat.add_sub, Hu' in Hm.
        outcome_cbn in Hm. bind_inv. subst out. apply token_add_long in Hv as [-> Hq]. outcome_cbn. rewrite (updated_at _ _ _ _ Hu'). outcome_cbn.
        eexists _, _. split; [done|]. split; [split; try done; apply Forall_insert_at; done|].
        by rewrite Nat.add_comm, <- (with_changes_length V ex), insert_app_r, Hid.
      * cbn [Z.ltb Z.compare]. injection Hm as <-. eexists _, _. split; [done|]. split; [|by rewrite app_assoc].
        split; try done; (apply Forall_app; split; [done|by constructor]).
Qed.

Lemma tokenDiffs_tokens V ts ex new out : V <> [] -> Forall positive V -> Forall positive ts -> diffs_ok V ex new ->
  foldO merge_token ts (with_changes V ex ++ new) = Done out ->
  exists ex' new', foldO (tokenDiff V) ts (ex, new) = Done (ex', new') /\ diffs_ok V ex' new' /\ out = with_changes V ex' ++ new'.
Proof.
  intros HV HVp Hts. revert ex new. induction Hts as [|t ts Ht _ IH]; intros ex new Hd Hm; cbn [foldO] in *.
  - injection Hm as <-. eauto.
  - apply bind_Done in Hm as (out1 & Hm1 & Hm). destruct (tokenDiff_merge _ _ _ _ _ HV HVp Ht Hd Hm1) as (ex1 & new1 & -> & Hd1 & ->).
    outcome_cbn. by apply IH.
Qed.

Lemma tokenDiffs_deposits V ds ex new total out sum : V <> [] -> Forall positive V ->
  Forall (fun d => Forall positive (bx_tokens d.1) /\ tokens (inbound_cell d.2) = bx_tokens d.1) ds -> diffs_ok V ex new ->
  foldO add_deposit ds (with_changes V ex ++ new, total) = Done (out, sum) ->
  exists ex' new', foldO (fun acc input => foldO (tokenDiff V) (bx_tokens input) acc) ds.*1 (ex, new) = Done (ex', new') /\
    diffs_ok V ex' new' /\ out = with_changes V ex' ++ new'.
Proof.
  intros HV HVp Hds. revert ex new total. induction Hds as [|d ds [Hpos Hcell] _ IH]; intros ex new total Hd Hm.
  - cbn in Hm. injection Hm as <- _. cbn. eauto.
  - cbn [foldO fmap list_fmap] in *. apply bind_Done in Hm as (acc & Ha & Hm). unfold add_deposit in Ha. cbn [fst snd] in Ha. bind_inv. subst acc.
    rewrite Hcell in Hv. destruct (tokenDiffs_tokens _ _ _ _ _ HV HVp Hpos Hd Hv) as (ex1 & new1 & -> & Hd1 & ->).
    outcome_cbn. by eapply IH.
Qed.

Lemma updated_all V ex new : diffs_ok V ex new -> foldO (fun acc e => updated acc e.1 e.2) ex V = Done (with_changes V ex).
Proof.
  intros [Hf _ _ _ _]. assert (Forall (fun e => e.1 < length V) ex) as Hlt.
  { eapply Forall_impl; [exact Hf|]. intros e He%position_lt. by rewrite length_fmap in He. }
  clear Hf new. unfold with_changes. revert V Hlt. induction ex as [|e ex IH]; intros V Hlt; [done|].
  apply Forall_cons in Hlt as [He Hlt]. cbn [foldO foldl].
  assert (updated V e.1 e.2 = Done (<[e.1 := e.2]> V)) as -> by (unfold updated; by rewrite decide_True). outcome_cbn. apply IH.
  by rewrite length_insert.
Qed.

(** The contract computes the tokens the connector merged. *)
Lemma contract_tokens V ds out sum : V <> [] -> Forall positive V ->
  Forall (fun d => Forall positive (bx_tokens d.1) /\ tokens (inbound_cell d.2) = bx_tokens d.1) ds ->
  foldO add_deposit ds (V, 0%Z) = Done (out, sum) -> vaultTokensAfterDeposits V ds.*1 = Done out.
Proof.
  intros HV HVp Hds Hm. unfold vaultTokensAfterDeposits, tokenDiffs.
  destruct (tokenDiffs_deposits V ds [] [] 0 out sum) as (ex & new & -> & Hd & ->); try done.
  - split; try apply Forall_nil; try done. apply NoDup_nil_2.
  - cbn. by rewrite app_nil_r.
  - outcome_cbn. cbn [fst snd]. by rewrite (updated_all _ _ _ Hd).
Qed.

Lemma deposits_total ds out out' total sum : foldO add_deposit ds (out, total) = Done (out', sum) ->
  sum = (total + foldr Z.add 0 ((fun d => bx_value d.1) <$> ds))%Z.
Proof.
  revert out total. induction ds as [|d ds IH]; intros out total Hm; cbn [foldO fmap list_fmap foldr] in *.
  - injection Hm as _ ->. lia.
  - apply bind_Done in Hm as (acc & Ha & Hm). unfold add_deposit in Ha. bind_inv. subst acc. apply checked_Done in Hv0 as [_ ->].
    rewrite (IH _ _ Hm). cbn [snd]. unfold fmap. lia.
Qed.

Lemma deposits_sum ds out out' total sum :
  foldO add_deposit ds (out, total) = Done (out', sum) ->
  foldO (fun acc input => add_long acc (bx_value input)) ds.*1 total = Done sum.
Proof.
  revert out total. induction ds as [|d ds IH]; intros out total Hm; cbn [foldO fmap list_fmap] in *.
  - by injection Hm as _ ->.
  - apply bind_Done in Hm as (acc & Ha & Hm). unfold add_deposit in Ha. bind_inv. subst acc. cbn [snd] in Hv0.
    fold (add_long total (bx_value d.1)) in Hv0. rewrite Hv0. outcome_cbn. by eapply IH.
Qed.
End Tokens.

(** ** The contracts accept the transactions of the connector *)

Section Accepted.
Context `{C : Curve, L : !ErgoLib, LL : !ErgoLibLaws, AT : AvlTrees, B : Blake2b, SH : Sha256, SI : !ScalarInts}.

(** The miners are paid by boxes of their own. *)
Context (miners_apart : proposition_bytes miners_fee_script <> proposition_bytes VAULT_CONTRACT).

(** The context of a transaction whose outputs got the identifiers [ids]. *)
Definition tx_context (spent : list ErgoBox) (ids : list BoxId) (outputs : list ErgoBoxCandidate) (data : list ErgoBox) (height : Z) : Context :=
  {| INPUTS := spent; OUTPUTS := zip_with as_box ids outputs; dataInputs := data; HEIGHT := height |}.

(** A deposit as [try_extract_unprocessed_deposit] finds it. *)
Definition deposit_ok (vault_token : list Z) (d : ErgoBox * ErgoInboundCell) : Prop :=
  Forall (fun t => token_amount_ok (amount t) = true) (bx_tokens d.1) /\ tokens (inbound_cell d.2) = bx_tokens d.1 /\
  reg_bytes d.1 4 = Done vault_token /\ (0 < bx_value d.1)%Z.

Definition vault_ok (vault_token : list Z) (vault : ErgoBox) : Prop :=
  vault_try_from_box vault vault_token <> None /\ Forall (fun t => token_amount_ok (amount t) = true) (bx_tokens vault).

Lemma amounts_positive l : Forall (fun t => token_amount_ok (amount t) = true) l -> Forall positive l.
Proof. intros Hl. eapply Forall_impl; [exact Hl|]. intros t [Ht _]%token_amount_range. exact Ht. Qed.

Lemma vault_first vault_token vault : vault_try_from_box vault vault_token <> None ->
  exists t rest, bx_tokens vault = t :: rest /\ token_id t = vault_token /\ bx_tree vault = VAULT_CONTRACT.
Proof.
  unfold vault_try_from_box. destruct (bx_tokens vault) as [|t rest]; [done|].
  repeat case_bool_decide; cbn; try done. intros _. by exists t, rest.
Qed.

Lemma deposits_plain token ds : Forall (deposit_ok token) ds ->
  Forall (fun d => Forall positive (bx_tokens d.1) /\ tokens (inbound_cell d.2) = bx_tokens d.1) ds.
Proof. intros Hds. eapply Forall_impl; [exact Hds|]. intros d (Ha & Hc & _). split; [by apply amounts_positive|done]. Qed.

(** What a transaction of deposits consists of. *)
Lemma deposit_tx_parts vault ds token data height utx : deposit_tx vault ds token data height = Done utx ->
  exists out sum v, foldO add_deposit ds (bx_tokens vault, 0%Z) = Done (out, sum) /\
    v = (bx_value vault + sum - DEPOSIT_MINER_FEE)%Z /\ (0 < v)%Z /\ (v + DEPOSIT_MINER_FEE <= i64_max)%Z /\
    utx_outputs utx = [{| c_value := v; c_tree := VAULT_CONTRACT; c_tokens := out; c_registers := bx_registers vault; c_height := height |};
      miner_output DEPOSIT_MINER_FEE height].
Proof.
  unfold deposit_tx. intros Hb. apply bind_Done in Hb as ([out sum] & Hacc & Hb). bind_inv. subst utx.
  unfold box_tokens, tx_io, box_value in *. repeat case_decide; try done.
  repeat match goal with H : (if box_value_ok ?x then _ else _) = Done _ |- _ => destruct (box_value_ok x) eqn:?; [|done] end.
  simplify_eq. apply checked_Done in Hv1 as [? ->], Hv2 as [? ->].
  match goal with H : box_value_ok (_ - _)%Z = true |- _ => apply box_value_range in H end.
  eexists _, _, _. split_and!; try done; unfold DEPOSIT_MINER_FEE in *; lia.
Qed.

Lemma deposit_tx_fee id1 id2 v out regs height :
  minerFee [as_box id1 {| c_value := v; c_tree := VAULT_CONTRACT; c_tokens := out; c_registers := regs; c_height := height |};
    as_box id2 (miner_output DEPOSIT_MINER_FEE height)] = Done DEPOSIT_MINER_FEE.
Proof.
  unfold minerFee. cbn [foldO as_box miner_output bx_tree bx_value c_tree c_value].
  destruct (decide (proposition_bytes VAULT_CONTRACT = _)) as [E|_]; [by destruct miners_apart|]. by rewrite decide_True by done.
Qed.

(** The contract of a deposit accepts the transaction of deposits the
    connector builds: for every deposit the vault's token, its script, the fee,
    the value and the tokens of the new vault are as the contract recomputes
    them. *)
Theorem deposit_tx_accepted vault ds token data height utx id1 id2 d :
  vault_ok token vault -> Forall (deposit_ok token) ds -> deposit_tx vault ds token data height = Done utx -> d ∈ ds ->
  deposit_contract d.1 deposit_input_vars (tx_context (vault :: ds.*1) [id1; id2] (utx_outputs utx) data height) = Done true.
Proof.
  intros [Hvault Hamounts] Hds Htx Hd. destruct (deposit_tx_parts _ _ _ _ _ _ Htx) as (out & sum & v & Hacc & Hv & Hpos & Hmax & Hout).
  destruct (vault_first _ _ Hvault) as (t & rest & Ht & Hid & Htree).
  pose proof (proj1 (Forall_forall _ _) Hds d Hd) as (_ & _ & Hreg & _).
  unfold deposit_contract. change (var8_maxMinerFee deposit_input_vars) with (Some DEPOSIT_MINER_FEE). rewrite Hreg, Hout.
  cbn [tx_context zip_with INPUTS OUTPUTS lookup list_lookup unwrap mbind outcome_bind]. rewrite deposit_tx_fee. outcome_cbn.
  change (drop 1 (vault :: ds.*1)) with ds.*1.
  rewrite (deposits_sum _ _ _ _ _ Hacc). outcome_cbn.
  assert (add_long (bx_value vault) sum = Done (bx_value vault + sum)%Z) as ->
    by (apply checked_in; unfold i64_min, DEPOSIT_MINER_FEE in *; lia).
  cbn [as_box bx_value c_value]. assert (add_long v DEPOSIT_MINER_FEE = Done (v + DEPOSIT_MINER_FEE)%Z) as ->
    by (apply checked_in; unfold i64_min, DEPOSIT_MINER_FEE in *; lia). outcome_cbn.
  rewrite (contract_tokens _ ds out sum); [|by rewrite Ht|by apply amounts_positive|by eapply deposits_plain|done].
  outcome_cbn. cbn [bx_tree bx_tokens c_tree c_tokens]. rewrite Ht, Htree. rewrite !bool_decide_true by done.
  by rewrite Z.leb_refl, (proj2 (Z.eqb_eq _ _)) by lia.
Qed.

(** *** The vault *)

(** Tokens are only added. *)
Definition grown (l k : list Token) : Prop :=
  forall i t, l !! i = Some t -> exists t', k !! i = Some t' /\ token_id t' = token_id t /\ (amount t <= amount t')%Z.

Lemma merge_token_grown out t out' : positive t -> merge_token out t = Done out' ->
  grown out out' /\ (forall x, out !! 0 = Some x -> token_id x <> token_id t -> out' !! 0 = Some x).
Proof.
  unfold merge_token. intros Ht. destruct (position _ _) as [i|] eqn:Ei.
  - intros Hm. bind_inv. subst out'. unfold token_add in Hv0. destruct (token_amount_ok _); [|done]. injection Hv0 as <-. split.
    + intros j u Hj. destruct (decide (i = j)) as [<-|Hne]; [|rewrite list_lookup_insert_ne by done; eauto with lia].
      rewrite Hj in Hv. injection Hv as ->. rewrite list_lookup_insert_eq by (by eapply lookup_lt_Some). eexists. split_and!; [done..|].
      cbn. unfold positive in Ht. lia.
    + intros x Hx Hne. destruct i as [|i]; [|by rewrite list_lookup_insert_ne].
      apply position_Some in Ei as [Ei _]. rewrite list_lookup_fmap, Hx in Ei. injection Ei as Ei. done.
  - intros [= <-]. split.
    + intros j u Hj. exists u. split_and!; [by apply lookup_app_l_Some|done|lia].
    + intros x Hx _. by apply lookup_app_l_Some.
Qed.

Lemma grown_trans l k m : grown l k -> grown k m -> grown l m.
Proof.
  intros H1 H2 i t Hi. destruct (H1 _ _ Hi) as (t1 & Hi1 & <- & Hle1). destruct (H2 _ _ Hi1) as (t2 & Hi2 & <- & Hle2).
  exists t2. split_and!; [done..|lia].
Qed.

Lemma merge_tokens_grown ts out out' : Forall positive ts -> foldO merge_token ts out = Done out' ->
  grown out out' /\ (forall x, out !! 0 = Some x -> token_id x ∉ token_id <$> ts -> out' !! 0 = Some x).
Proof.
  intros Hts. revert out. induction Hts as [|t ts Ht _ IH]; intros out Hm; cbn [foldO] in Hm.
  - injection Hm as <-. split; [|done]. intros i t Hi. exists t. split_and!; [done..|lia].
  - apply bind_Done in Hm as (out1 & H1 & Hm). destruct (merge_token_grown _ _ _ Ht H1) as [Hg1 Hf1], (IH _ Hm) as [Hg2 Hf2].
    split; [by eapply grown_trans|]. intros x Hx Hnot. rewrite fmap_cons, not_elem_of_cons in Hnot. apply Hf2; [|tauto].
    apply Hf1; [done|tauto].
Qed.

Lemma deposits_grown ds out total out' sum :
  Forall (fun d => Forall positive (bx_tokens d.1) /\ tokens (inbound_cell d.2) = bx_tokens d.1) ds ->
  foldO add_deposit ds (out, total) = Done (out', sum) ->
  grown out out' /\ (forall x, out !! 0 = Some x -> Forall (fun d => token_id x ∉ token_id <$> bx_tokens d.1) ds -> out' !! 0 = Some x).
Proof.
  intros Hds. revert out total. induction Hds as [|d ds [Hp Hc] _ IH]; intros out total Hm; cbn [foldO] in Hm.
  - injection Hm as <- _. split; [|done]. intros i t Hi. exists t. split_and!; [done..|lia].
  - apply bind_Done in Hm as (acc & Ha & Hm). unfold add_deposit in Ha. bind_inv. subst acc. cbn [fst] in Hv. rewrite Hc in Hv.
    destruct (merge_tokens_grown _ _ _ Hp Hv) as [Hg1 Hf1], (IH _ _ Hm) as [Hg2 Hf2]. split; [by eapply grown_trans|].
    intros x Hx [Hn Hns]%Forall_cons. by apply Hf2, Hns; apply Hf1.
Qed.

Lemma grown_noTokensLost l k : grown l k -> noTokensLost l k = true.
Proof.
  intros Hg. apply forallb_forall. intros [a b] Hab%list_elem_of_In. apply elem_of_lookup_zip_with in Hab as (i & a' & b' & [= -> ->] & Ha & Hb).
  destruct (Hg _ _ Ha) as (t' & Ht' & Hid & Hle). rewrite Hb in Ht'. injection Ht' as ->.
  rewrite bool_decide_true by done. by apply Z.leb_le.
Qed.

(** What the data boxes must hold for a transaction at [height]. *)
Record committee_inputs (vault : ErgoBox) (data : list ErgoBox) (height boxes : Z) : Prop := {
  ci_ids : exists ids, reg_byte_colls vault 4 = Done ids /\ Forall (fun p => bx_id p.1 = p.2) (zip data ids);
  ci_params : exists data0 epoch len start lo hi, data !! 0 = Some data0 /\ reg_ints data0 6 = Done [boxes; epoch; len; start] /\
    epoch_bounds start epoch len = Done (lo, hi) /\ (lo <= height < hi)%Z;
}.

(** The checks that do not depend on the action. *)
Lemma vault_contract_common vault token vars c boxes out0 t rest t' fee maxFee act :
  INPUTS c !! 0 = Some vault -> OUTPUTS c !! 0 = Some out0 -> committee_inputs vault (dataInputs c) (HEIGHT c) boxes ->
  bx_tokens vault = t :: rest -> token_id t = token -> var4_vaultTokenId vars = Some token -> bx_tokens out0 !! 0 = Some t' ->
  amount t = amount t' -> bx_tree vault = VAULT_CONTRACT -> bx_tree out0 = VAULT_CONTRACT ->
  var8_maxMinerFee vars = Some maxFee -> minerFee (OUTPUTS c) = Done fee -> (fee <= maxFee)%Z ->
  (if (bx_value out0 <? bx_value vault)%Z then withdrawal_action vars c boxes maxFee
   else Done (noTokensLost (bx_tokens vault) (bx_tokens out0))) = act ->
  vault_contract vault vars c = (validAction ← act; Done validAction).
Proof.
  intros Hin Hout [(ids & Hids & Hall) (data0 & epoch & len & start & lo & hi & Hd0 & Hints & Hep & Hh)] Ht Hid Hv4 Ht' Ham Htree Htree' Hv8 Hfee Hle Hact.
  unfold vault_contract. rewrite Hin, Hout. outcome_cbn. rewrite Hv4. outcome_cbn. rewrite Ht. rewrite (bool_decide_true (token_id t = token)) by done. rewrite Ht'. outcome_cbn.
  rewrite Hids, Hd0. outcome_cbn. rewrite Hints. cbn [lookup list_lookup unwrap mbind outcome_bind]. rewrite Hep, Hv8, Hfee. outcome_cbn.
  rewrite <- Ht, Hact. destruct act as [b| |]; [|done..]. outcome_cbn. f_equal.
  rewrite Htree, Htree'. rewrite !bool_decide_true by done. cbn [fst snd].
  rewrite (proj2 (Z.leb_le lo _)), (proj2 (Z.ltb_lt _ hi)), (proj2 (Z.leb_le fee _)) by lia.
  replace (forallb _ _) with true; [by destruct b|]. symmetry. apply forallb_forall. intros [x y] Hxy%list_elem_of_In.
  rewrite Forall_forall in Hall. specialize (Hall _ Hxy). by apply bool_decide_true.
Qed.

(** The contract of the vault accepts the transaction of deposits the
    connector builds, when the deposits are worth the fee, none of them holds
    the vault's own token and the committee's boxes are those of the current
    epoch. *)
Theorem deposit_tx_vault_accepted vault ds token data height utx id1 id2 boxes :
  vault_ok token vault -> Forall (deposit_ok token) ds -> Forall (fun d => token ∉ token_id <$> bx_tokens d.1) ds ->
  (DEPOSIT_MINER_FEE <= foldr Z.add 0 ((fun d => bx_value d.1) <$> ds))%Z ->
  committee_inputs vault data height boxes -> deposit_tx vault ds token data height = Done utx ->
  vault_contract vault (vault_input_vars token) (tx_context (vault :: ds.*1) [id1; id2] (utx_outputs utx) data height) = Done true.
Proof.
  intros [Hvault Hamounts] Hds Hnot Hfee Hci Htx.
  destruct (deposit_tx_parts _ _ _ _ _ _ Htx) as (out & sum & v & Hacc & Hv & Hpos & Hmax & Hout).
  destruct (vault_first _ _ Hvault) as (t & rest & Ht & Hid & Htree).
  destruct (deposits_grown _ _ _ _ _ (deposits_plain _ _ Hds) Hacc) as [Hg Hfirst].
  assert (out !! 0 = Some t) as Hout0 by (apply Hfirst; [by rewrite Ht|]; by rewrite Hid).
  assert (bx_value vault <= v)%Z as Hle.
  { pose proof (deposits_total _ _ _ _ _ Hacc). lia. }
  rewrite (vault_contract_common vault token _ _ boxes
    (as_box id1 {| c_value := v; c_tree := VAULT_CONTRACT; c_tokens := out; c_registers := bx_registers vault; c_height := height |})
    t rest t DEPOSIT_MINER_FEE DEPOSIT_MINER_FEE (Done true)); try done; rewrite ?Hout; try done.
  - apply deposit_tx_fee.
  - cbn [as_box bx_value bx_tokens c_value c_tokens]. rewrite (proj2 (Z.ltb_ge _ _)) by done. by rewrite grown_noTokensLost.
Qed.

(** What an accepted withdrawal needs. *)
Lemma vault_contract_action vault vars c b vaultIn vaultOut : vault_contract vault vars c = Done b ->
  INPUTS c !! 0 = Some vaultIn -> OUTPUTS c !! 0 = Some vaultOut -> (bx_value vaultOut < bx_value vaultIn)%Z ->
  exists boxes fee b', withdrawal_action vars c boxes fee = Done b'.
Proof.
  intros Hc Hin Hout Hlt. unfold vault_contract in Hc. rewrite Hin, Hout in Hc. outcome_cbn in Hc. rewrite (proj2 (Z.ltb_lt _ _) Hlt) in Hc.
  bind_inv. eauto.
Qed.

(** When the deposits are worth less than the fee, and in particular when
    there is none, the contract of the vault rejects the transaction the
    connector builds: the vault loses value and nothing notarizes it. *)
Theorem small_deposits_rejected vault ds token data height utx id1 id2 b :
  (foldr Z.add 0 ((fun d => bx_value d.1) <$> ds) < DEPOSIT_MINER_FEE)%Z -> deposit_tx vault ds token data height = Done utx ->
  vault_contract vault (vault_input_vars token) (tx_context (vault :: ds.*1) [id1; id2] (utx_outputs utx) data height) <> Done b.
Proof.
  intros Hsmall Htx Hc. destruct (deposit_tx_parts _ _ _ _ _ _ Htx) as (out & sum & v & Hacc & Hv & _ & _ & Hout).
  pose proof (deposits_total _ _ _ _ _ Hacc) as Hsum. rewrite Hout in Hc.
  destruct (vault_contract_action _ _ _ _ vault _ Hc eq_refl eq_refl) as (boxes & fee & b' & Hw); [cbn; lia|].
  unfold withdrawal_action in Hw. bind_inv. done.
Qed.

(** *** Withdrawals *)

Context `{CL : !CurveLaws C, SL : !ScalarIntsLaws, D32 : !Digests32, SBL : !ScalarBytesLaws, BI : BigInts, BL : !BigIntsLaws}.
Context `{SG : !Schnorr, SB : !SchnorrBytes}.

Lemma as_i64_id x : (0 <= x <= i64_max)%Z -> as_i64 x = x.
Proof. unfold as_i64, i64_max. intros. rewrite Z.mod_small by lia. by rewrite (proj2 (Z.leb_le _ _)) by lia. Qed.

Definition term_cell_ok (c : ErgoTermCell) : Prop :=
  Forall (fun t => token_amount_ok (amount t) = true) (tokens (term_cell c)) /\
  (forall s, address_script (address (term_cell c)) = Some s -> proposition_bytes s <> proposition_bytes miners_fee_script).

(** The output of a cell is what the contract expects of its constant. *)
Lemma output_matches c height cand cc id : term_cell_ok c -> term_cell_output height c = Done cand -> constant_from c = Done cc ->
  verifyOutput (cc, as_box id cand) = true /\ proposition_bytes (c_tree cand) <> proposition_bytes miners_fee_script.
Proof.
  intros [Ht Hp]. unfold term_cell_output, constant_from, prop_bytes, box_tokens. case_decide; [|done]. intros Ho Hc. bind_inv. simplify_eq.
  split; [|by apply Hp]. unfold verifyOutput. cbn [as_box bx_value bx_tree bx_tokens c_value c_tree c_tokens cc_value cc_prop cc_tokens].
  replace ((fun t => {| token_id := token_id t; amount := as_i64 (amount t) |}) <$> tokens (term_cell c)) with (tokens (term_cell c)).
  - rewrite !bool_decide_true by done. cbn. apply forallb_forall. intros [a b] Hab%list_elem_of_In.
    apply elem_of_lookup_zip_with in Hab as (i & a' & b' & [= -> ->] & Ha & Hb). apply bool_decide_true. congruence.
  - rewrite <- (list_fmap_id (tokens (term_cell c))) at 1. apply list_fmap_ext. intros i t Hi.
    pose proof (Forall_lookup_1 _ _ _ _ Ht Hi) as Hr%token_amount_range.
    rewrite as_i64_id by lia. by destruct t.
Qed.

Lemma outputs_match cells height cands ccs ids : Forall term_cell_ok cells -> mapO (term_cell_output height) cells = Done cands ->
  constants_from cells = Done ccs ->
  forallb verifyOutput (zip ccs (zip_with as_box ids cands)) = true /\
  Forall (fun cand => proposition_bytes (c_tree cand) <> proposition_bytes miners_fee_script) cands.
Proof.
  intros Hok. revert cands ccs ids. unfold constants_from. induction Hok as [|c cells Hc _ IH]; intros cands ccs ids Hm Hcc; cbn [mapO] in *.
  - simplify_eq. by split.
  - bind_inv. subst. destruct (IH _ _ (tail ids) Hv2 Hv0) as [H1 H2].
    destruct ids as [|id ids]; (destruct (output_matches _ _ _ _ [] Hc Hv1 Hv) as [_ Hne]; split; [|by constructor]); [done|].
    cbn [zip_with forallb tail] in *. rewrite H1. by destruct (output_matches _ _ _ _ id Hc Hv1 Hv) as [-> _].
Qed.

Lemma minerFee_none l outs a : Forall (fun cand => proposition_bytes (c_tree cand) <> proposition_bytes miners_fee_script) l ->
  (i64_min <= a <= i64_max)%Z -> forall ids,
  foldO (fun a o => add_long a (if decide (proposition_bytes (bx_tree o) = proposition_bytes miners_fee_script) then bx_value o else 0%Z))
    (zip_with as_box ids l ++ outs) a =
  foldO (fun a o => add_long a (if decide (proposition_bytes (bx_tree o) = proposition_bytes miners_fee_script) then bx_value o else 0%Z)) outs a.
Proof.
  intros Hl Ha. induction Hl as [|c l Hc _ IH]; intros [|id ids]; cbn [zip_with app foldO]; try done.
  rewrite decide_False by done. assert (add_long a 0 = Done a) as -> by (unfold add_long; rewrite Z.add_0_r; by apply checked_in).
  outcome_cbn. apply IH.
Qed.

(** What the boxes of the committee hold. *)
Record committee_boxes (data : list ErgoBox) (boxes : Z) (committee : list Point) : Prop := {
  cb_registers : exists data0, data !! 0 = Some data0 /\ reg_point data0 7 = Done generator /\ reg_point data0 8 = Done identity /\
    reg_bytes data0 9 = Done (blake2b (concat (sec1_bytes <$> committee)));
  cb_keys : exists keys, mapO (fun x => reg_points x 4) (take (Z.to_nat boxes) data) = Done keys /\ concat keys = committee;
}.

Lemma withdrawal_tx_parts ne size vault token data height utx : withdrawal_tx ne size vault token data height = Done utx ->
  exists vars cands v, withdrawal_vars ne size token = Done vars /\ mapO (term_cell_output height) (ne_terminal_cells ne) = Done cands /\
    utx_inputs utx = [(bx_id vault, vars)] /\ (0 < ne_max_miner_fee ne <= i64_max)%Z /\
    (exists sum, foldO (fun a c => checked i64_min i64_max (a + ergs (term_cell c))) (ne_terminal_cells ne) 0%Z = Done sum /\
      v = (bx_value vault - ne_max_miner_fee ne - sum)%Z) /\
    utx_outputs utx = {| c_value := v; c_tree := VAULT_CONTRACT; c_tokens := bx_tokens vault; c_registers := bx_registers vault; c_height := height |}
      :: cands ++ [miner_output (ne_max_miner_fee ne) height].
Proof.
  unfold withdrawal_tx. intros Hb. bind_inv. subst utx. unfold tx_io, box_value in *. repeat case_decide; try done.
  destruct (box_value_ok (ne_max_miner_fee ne)) eqn:Hf; [|done]. apply box_value_range in Hf.
  repeat match goal with H : (if box_value_ok ?x then _ else _) = Done _ |- _ => destruct (box_value_ok x); [|done] end. simplify_eq. apply checked_Done in Hv3 as [_ ->], Hv4 as [_ ->].
  eexists _, _, _. split_and!; try done; try lia. eauto.
Qed.

(** A report whose certificate the committee's protocol verifies and whose
    digest is that of the tree with its cells. *)
Record report_ok (ne : NotarizationElements) (committee : list Point) : Prop := {
  ro_verified : verify_aggregate (H := blake2b) (ne_aggregate_commitment ne) (ne_aggregate_response ne) (ne_exclusion_set ne)
    committee (blake2b (ne_resulting_digest ne)) (ne_threshold ne) = Done true;
  ro_committed : Forall (fun e => is_Some e.2 /\ Z.of_nat e.1 < 2 ^ 31)%Z (ne_exclusion_set ne);
  ro_threshold : (0 <= num (ne_threshold ne))%Z /\ (0 <= denom (ne_threshold ne))%Z;
  ro_cells : Forall term_cell_ok (ne_terminal_cells ne) /\ Forall (fun c => 0 <= ergs (term_cell c))%Z (ne_terminal_cells ne);
  ro_nonempty : ne_terminal_cells ne <> [];
  ro_digest : exists ins endTree, report_insertions (ne_terminal_cells ne) (ne_max_miner_fee ne) = Done ins /\
    avl_insert (ne_starting_avl_tree ne) ins (ne_proof ne) = Some endTree /\ avl_digest endTree = ne_resulting_digest ne;
}.

(** The outputs of a withdrawal: the vault, the cells and the miners. *)
Lemma outputs_split ids out0 cands m : length ids = S (S (length cands)) ->
  exists id ids' idm, zip_with as_box ids (out0 :: cands ++ [m]) = as_box id out0 :: zip_with as_box ids' cands ++ [as_box idm m] /\
    length ids' = length cands.
Proof.
  destruct ids as [|id ids]; [done|]. intros [= Hlen].
  assert (length (take (length cands) ids) = length cands) as Ht by (rewrite length_take; lia).
  destruct (drop (length cands) ids) as [|idm r] eqn:Hd; [apply (f_equal length) in Hd; rewrite length_drop in Hd; cbn in Hd; lia|].
  exists id, (take (length cands) ids), idm. split; [|done]. cbn [zip_with]. f_equal.
  rewrite <- (take_drop (length cands) ids) at 1. rewrite zip_with_app, Hd by done. by destruct r.
Qed.

Lemma outputs_between {A} (x : A) l y : drop 1 (take (length (x :: l ++ [y]) - 1) (x :: l ++ [y])) = l.
Proof.
  cbn [length]. rewrite length_app. replace (S (length l + _) - 1) with (S (length l)) by (cbn; lia).
  change (take (length l) (l ++ [y]) = l). apply take_app_length.
Qed.

Lemma withdrawal_action_accepted ne size token vars c boxes committee out0 cands height ids :
  report_ok ne committee -> (0 <= size <= Z.of_nat (length committee))%Z -> withdrawal_vars ne size token = Done vars ->
  committee_boxes (dataInputs c) boxes committee -> mapO (term_cell_output height) (ne_terminal_cells ne) = Done cands ->
  OUTPUTS c = zip_with as_box ids (out0 :: cands ++ [miner_output (ne_max_miner_fee ne) height]) ->
  length ids = S (S (length cands)) -> withdrawal_action vars c boxes (ne_max_miner_fee ne) = Done true.
Proof.
  intros [Hver Hcom [Hnum Hden] [Hcells _] Hne (ins & endTree & Hins & Hend & Hdig)] Hsize Hvars
    [(data0 & Hd0 & Hg & Hi & Hh) (keys & Hkeys & Hcomm)] Hcands Hout Hlen.
  unfold withdrawal_vars in Hvars. bind_inv. rename v into zn, v0 into resp, v1 into items, v2 into m, v3 into ccs. subst vars.
  unfold withdrawal_action. rewrite Hd0. outcome_cbn. rewrite Hg, Hi, Hh, Hkeys. outcome_cbn.
  cbn [var0_verificationData var1_aggregateCommitment var2_terminalCells var3_proof var5_aggregateResponse var6_message var7_tree var9_threshold].
  outcome_cbn. rewrite Hcomm, (certificate_accepted _ _ _ _ _ _ _ _ _ _ _ Hver Hcom Hv1 Hv Hv0 Hnum Hden Hsize Hv2). outcome_cbn.
  rewrite (contract_recomputes_report _ _ _ Hv3) in Hins. injection Hins as <-. rewrite Hend. outcome_cbn. f_equal.
  rewrite Hdig, bool_decide_true by (apply mapO_length in Hv3; destruct (ne_terminal_cells ne), ccs; cbn in *; (done || lia)).
  rewrite bool_decide_true by done. cbn [andb]. unfold verifyTxOutputs. rewrite Hout.
  destruct (outputs_split ids out0 cands (miner_output (ne_max_miner_fee ne) height) Hlen) as (id & ids' & idm & -> & _).
  rewrite outputs_between. by apply (outputs_match _ _ _ _ ids' Hcells Hcands Hv3).
Qed.

Lemma cells_sum cells a sum : Forall (fun c => 0 <= ergs (term_cell c))%Z cells ->
  foldO (fun a c => checked i64_min i64_max (a + ergs (term_cell c))) cells a = Done sum -> (a <= sum)%Z.
Proof.
  intros Hc. revert a. induction Hc as [|c cells Hc _ IH]; intros a Hs; cbn [foldO] in Hs; [injection Hs as ->; lia|].
  apply bind_Done in Hs as (a' & Ha & Hs). apply checked_Done in Ha as [_ ->]. apply IH in Hs. lia.
Qed.

(** C4: the contract of the vault accepts the withdrawal the connector builds
    from a notarized report: given a certificate the committee's protocol
    verifies, a digest that is that of the tree with the report's cells, and
    the boxes of the current committee and epoch, the contract checks the same
    certificate, recomputes the same digest and finds each terminal cell paid
    in order. *)
Theorem withdrawal_tx_accepted ne size vault token data height utx ids boxes committee :
  report_ok ne committee -> (0 <= size <= Z.of_nat (length committee))%Z -> vault_ok token vault ->
  committee_inputs vault data height boxes -> committee_boxes data boxes committee ->
  withdrawal_tx ne size vault token data height = Done utx -> length ids = length (utx_outputs utx) ->
  exists vars, utx_inputs utx = [(bx_id vault, vars)] /\
    vault_contract vault vars (tx_context [vault] ids (utx_outputs utx) data height) = Done true.
Proof.
  intros Hro Hsize [Hvault Hamounts] Hci Hcb Htx Hlen.
  destruct (withdrawal_tx_parts _ _ _ _ _ _ _ Htx) as (vars & cands & v & Hvars & Hcands & Hin & Hfee & (sum & Hsum & Hv) & Hout).
  exists vars. split; [done|]. destruct (vault_first _ _ Hvault) as (t & rest & Ht & Hid & Htree).
  rewrite Hout in *. cbn [length] in Hlen. rewrite length_app in Hlen. cbn [length] in Hlen.
  pose proof (cells_sum _ _ _ (proj2 (ro_cells _ _ Hro)) Hsum) as Hs0.
  assert (var4_vaultTokenId vars = Some token /\ var8_maxMinerFee vars = Some (ne_max_miner_fee ne)) as [Hv4 Hv8].
  { unfold withdrawal_vars in Hvars. bind_inv. by subst vars. }
  assert (exists ccs, constants_from (ne_terminal_cells ne) = Done ccs) as [ccs Hccs]
    by (unfold withdrawal_vars in Hvars; bind_inv; eauto).
  assert (length ids = S (S (length cands))) as Hlen' by lia. set (out0 := {| c_value := v |}) in *.
  destruct (outputs_split ids out0 cands (miner_output (ne_max_miner_fee ne) height) Hlen') as (id & ids' & idm & Hzip & Hids').
  destruct (outputs_match (ne_terminal_cells ne) height cands) with (ids := ids') (ccs := ccs) as [_ Hprops]; try done; [apply Hro|].
  rewrite (vault_contract_common vault token _ _ boxes (as_box id out0) t rest t (ne_max_miner_fee ne) (ne_max_miner_fee ne) (Done true));
    try done; try (cbn; by rewrite ?Hzip, ?Ht).
  - cbn [tx_context OUTPUTS]. rewrite Hzip. unfold minerFee.
    change (as_box id out0 :: zip_with as_box ids' cands ++ ?l) with (zip_with as_box (id :: ids') (out0 :: cands) ++ l).
    rewrite minerFee_none; [| |unfold i64_min, i64_max; lia].
    + cbn [foldO as_box bx_tree bx_value c_tree c_value miner_output]. rewrite decide_True by done.
      unfold add_long. rewrite Z.add_0_l, checked_in by (unfold i64_min; lia). done.
    + constructor; [by intros E; apply miners_apart|done].
  - cbn [as_box bx_value]. rewrite (proj2 (Z.ltb_lt _ _)) by (cbn; lia).
    eapply withdrawal_action_accepted; try done.
Qed.

(** *** Balances *)

Definition token_total (id : list Z) (l : list Token) : Z :=
  foldr Z.add 0%Z ((fun t => if bool_decide (token_id t = id) then amount t else 0%Z) <$> l).

Definition outputs_tokens (id : list Z) (l : list ErgoBoxCandidate) : Z := foldr Z.add 0%Z ((fun c => token_total id (c_tokens c)) <$> l).

Lemma foldr_add_app (l k : list Z) : foldr Z.add 0%Z (l ++ k) = (foldr Z.add 0 l + foldr Z.add 0 k)%Z.
Proof. induction l as [|x l IH]; cbn; [done|]. rewrite IH. lia. Qed.

Lemma cell_outputs cells height cands : mapO (term_cell_output height) cells = Done cands ->
  c_value <$> cands = (fun c => ergs (term_cell c)) <$> cells /\ c_tokens <$> cands = (fun c => tokens (term_cell c)) <$> cells.
Proof.
  revert cands. induction cells as [|c cells IH]; intros cands Hm; cbn [mapO] in Hm.
  - by injection Hm as <-.
  - bind_inv. subst. unfold term_cell_output, box_tokens in Hv. case_decide; [|done]. bind_inv. subst.
    destruct (IH _ Hv0) as [H1 H2]. rewrite !fmap_cons, H1, H2. simplify_eq. by split.
Qed.

Lemma cells_sum_value cells a sum :
  foldO (fun a c => checked i64_min i64_max (a + ergs (term_cell c))) cells a = Done sum ->
  sum = (a + foldr Z.add 0 ((fun c => ergs (term_cell c)) <$> cells))%Z.
Proof.
  revert a. induction cells as [|c cells IH]; intros a Hs; cbn [foldO fmap list_fmap foldr] in *; [injection Hs as ->; lia|].
  apply bind_Done in Hs as (a' & Ha & Hs). apply checked_Done in Ha as [_ ->]. rewrite (IH _ Hs). unfold fmap. lia.
Qed.

(** A withdrawal pays out the value of the vault exactly, to the vault, the
    cells and the miners, but its outputs hold every token of the vault and
    the tokens of the cells besides: the tokens withdrawn are not taken from
    the vault. *)
Theorem withdrawal_tx_balance ne size vault token data height utx id :
  withdrawal_tx ne size vault token data height = Done utx ->
  foldr Z.add 0%Z (c_value <$> utx_outputs utx) = bx_value vault /\
  outputs_tokens id (utx_outputs utx) =
    (token_total id (bx_tokens vault) + foldr Z.add 0 ((fun c => token_total id (tokens (term_cell c))) <$> ne_terminal_cells ne))%Z.
Proof.
  intros Htx. destruct (withdrawal_tx_parts _ _ _ _ _ _ _ Htx) as (vars & cands & v & _ & Hcands & _ & _ & (sum & Hsum & ->) & ->).
  destruct (cell_outputs _ _ _ Hcands) as [Hval Htok]. apply cells_sum_value in Hsum. unfold outputs_tokens.
  rewrite !fmap_cons, !fmap_app. cbn [foldr]. rewrite !foldr_add_app, Hval. split; [cbn; lia|].
  assert ((fun c => token_total id (c_tokens c)) <$> cands = (fun c => token_total id (tokens (term_cell c))) <$> ne_terminal_cells ne) as ->.
  { transitivity (token_total id <$> (c_tokens <$> cands)); [by rewrite <- list_fmap_compose|]. rewrite Htok. by rewrite <- list_fmap_compose. }
  change (foldr Z.add 0%Z ((fun c => token_total id (c_tokens c)) <$> [_])) with 0%Z. cbn [c_tokens]. lia.
Qed.
End Accepted.

(** ** What the contract of the vault does not bind

    Every variable the contract checks a withdrawal with is chosen by whoever
    spends the vault, the threshold included, and nothing ties the point of a
    signature of the exclusion set to the bytes that are hashed. *)

Section Unbound.
Context `{C : Curve, CL : !CurveLaws C, L : !ErgoLib, AT : AvlTrees, B : Blake2b, SH : Sha256, SI : !ScalarInts, SL : !ScalarIntsLaws, D32 : !Digests32}.

Lemma one_one_encodes : encodes ([1; 1]%Z, 1) (1 * two_128 + 1).
Proof. apply (encodes_parts [1%Z] [1%Z] 1 1); done. Qed.

(** An item for any key, made without a secret. *)
Definition free_item (md : list Z) (i : nat) : VerificationItem :=
  {| vi_ix := Z.of_nat i; vi_key := generator; vi_key_bytes := []; vi_s := ([1; 1]%Z, 1);
     vi_response := exp generator (two_128 + 1) +p
       generator *p sopp (scalar_of_Z (be_value (sha256 (challengeTag ++ challengeTag ++ [] ++ [] ++ md))));
     vi_r_bytes := [] |}.

Lemma free_item_ok md i : verifySignature generator md (free_item md i) = Done true.
Proof.
  unfold verifySignature. cbn [free_item vi_r_bytes vi_key_bytes vi_s vi_key vi_response].
  destruct (sha256_32 (challengeTag ++ challengeTag ++ [] ++ [] ++ md)) as [Hl Hb]. destruct (encode_digest _ Hl Hb) as (e & -> & He). outcome_cbn.
  rewrite (one_one_encodes generator), (He generator). outcome_cbn. f_equal. apply bool_decide_eq_true.
  change (1 * two_128 + 1)%Z with (two_128 + 1)%Z. unfold exp at 2. by rewrite padd_swap, padd_neg, padd_identity.
Qed.

Lemma all_excluded (members : list Point) (ais : list (list Z * nat)) (k : nat) (acc : Point) :
  foldO (fun xAcc '(i, x) => if bool_decide (Z.of_nat i ∈ (Z.of_nat <$> seq 0 (k + length members)))
      then Done xAcc else ai ← unwrap (ais !! i); e ← myExp x ai; Done (xAcc +p e))
    (imap (fun i x => (k + i, x)) members) acc = Done acc.
Proof.
  remember (seq 0 (k + length members)) as ixs. assert (forall i, i < k + length members -> i ∈ ixs) as Hin by (subst; intros; apply elem_of_seq; lia).
  clear Heqixs. revert k Hin. induction members as [|x members IH]; intros k Hin; [done|]. cbn [imap foldO].
  rewrite bool_decide_true by (apply elem_of_map_of_nat, Hin; cbn; lia). outcome_cbn.
  rewrite (imap_ext _ (fun i x => (S k + i, x)) members) by (intros; cbn; f_equal; lia). apply IH. intros i Hi. apply Hin. cbn. lia.
Qed.

Lemma weights_total inner committee : exists ais, mapO (calcA inner) committee = Done ais /\ length ais = length committee /\
  Forall (fun ai => exists n, encodes ai n) ais.
Proof.
  induction committee as [|x members (ais & Hais & Hlen & Hall)]; [by exists []|]. cbn [mapO].
  destruct (blake2b_32 (inner ++ sec1_bytes x)) as [Hl Hb]. destruct (encode_digest _ Hl Hb) as (e & Hc & He).
  rewrite (Hc : calcA inner x = Done e), Hais. outcome_cbn.
  eexists. split; [done|]. split; [cbn; lia|]. constructor; eauto.
Qed.

Lemma full_key_total members ais acc : length ais = length members -> Forall (fun ai => exists n, encodes ai n) ais ->
  exists X, calcFullAggregateKey members ais acc = Done X.
Proof.
  intros Hlen Hall. unfold calcFullAggregateKey.
  apply foldO_total. intros a [i x] Hi%elem_of_lookup_imap. destruct Hi as (j & y & [= -> ->] & Hj). apply lookup_lt_Some in Hj.
  destruct (lookup_lt_is_Some_2 ais j) as [ai Hai]; [lia|]. rewrite Hai. outcome_cbn.
  destruct (Forall_lookup_1 _ _ _ _ Hall Hai) as [n Hn]. rewrite (Hn y). outcome_cbn. eauto.
Qed.

(** Data that verifies for any committee and any message, and no threshold. *)
Lemma certificate_free inner committee md : exists items Y,
  verifyCertificate generator identity inner committee items ([1; 1]%Z, 1) Y md 0 = Done true.
Proof.
  set (items := free_item md <$> seq 0 (length committee)).
  exists items, (exp generator (two_128 + 1) +p calcAggregateCommitment (vi_key <$> items) identity).
  unfold verifyCertificate. destruct (weights_total inner committee) as (ais & -> & Hlen & Hall). outcome_cbn.
  destruct (full_key_total committee ais identity Hlen Hall) as [X ->]. outcome_cbn.
  match goal with |- context [encodeUnsigned256BitInt (blake2b ?m)] => destruct (blake2b_32 m) as [Hl Hb] end.
  destruct (encode_digest _ Hl Hb) as (e & -> & He). outcome_cbn. rewrite (one_one_encodes generator). outcome_cbn.
  assert (vi_ix <$> items = Z.of_nat <$> seq 0 (0 + length committee)) as -> by (unfold items; by rewrite <- list_fmap_compose).
  unfold calcPartialAggregateKey. rewrite (imap_ext pair (fun i x => (0 + i, x)) committee) by done. rewrite all_excluded. outcome_cbn.
  rewrite (He identity). outcome_cbn. rewrite forallO_true; [|apply Forall_fmap, Forall_true; intros; apply free_item_ok]. outcome_cbn.
  f_equal. rewrite !andb_true_iff, bool_decide_eq_true. split_and!; [|done|].
  - change (1 * two_128 + 1)%Z with (two_128 + 1)%Z. unfold exp at 2. by rewrite identity_pmul, identity_padd.
  - apply Z.leb_le. unfold items. rewrite length_fmap, length_seq. lia.
Qed.

(** A cell that an output pays. *)
Definition paid_cell (bx : ErgoBox) : CellConstant :=
  {| cc_value := bx_value bx; cc_prop := proposition_bytes (bx_tree bx); cc_tokens := bx_tokens bx |}.

Lemma paid_cell_ok bx : verifyOutput (paid_cell bx, bx) = true.
Proof.
  unfold verifyOutput. cbn [paid_cell cc_value cc_prop cc_tokens]. rewrite !bool_decide_true by done. cbn. apply forallb_forall.
  intros [a b] Hab%list_elem_of_In. apply elem_of_lookup_zip_with in Hab as (i & a' & b' & [= -> ->] & Ha & Hb).
  apply bool_decide_true. congruence.
Qed.

(** C39: the contract does not protect the vault: whoever spends it can pay any
    part of its value and all tokens but the first to a box of their choice.
    For every committee there are variables, made without any secret, with
    which the contract accepts such a transaction: they exclude all members
    under keys that are not theirs and set the threshold to zero. *)
Theorem vault_contract_unbound vault data height boxes committee out0 paid miner t rest t' fee tree proof endTree :
  committee_inputs vault data height boxes -> committee_boxes data boxes committee ->
  bx_tokens vault = t :: rest -> bx_tokens out0 !! 0 = Some t' -> amount t = amount t' ->
  bx_tree vault = VAULT_CONTRACT -> bx_tree out0 = VAULT_CONTRACT -> (bx_value out0 < bx_value vault)%Z ->
  minerFee [out0; paid; miner] = Done fee -> avl_insert tree (avlInsertions [paid_cell paid] fee) proof = Some endTree ->
  exists vars, vault_contract vault vars
    {| INPUTS := [vault]; OUTPUTS := [out0; paid; miner]; dataInputs := data; HEIGHT := height |} = Done true.
Proof.
  intros Hci Hcb Ht Ht' Ham Htree Htree' Hlt Hfee Hins. set (md := blake2b (avl_digest endTree)).
  destruct (certificate_free (blake2b (concat (sec1_bytes <$> committee))) committee md) as (items & Y & Hcert).
  exists {| var0_verificationData := Some items; var1_aggregateCommitment := Some Y; var2_terminalCells := Some [paid_cell paid];
    var3_proof := Some proof; var4_vaultTokenId := Some (token_id t); var5_aggregateResponse := Some ([1; 1]%Z, 1);
    var6_message := Some md; var7_tree := Some tree; var8_maxMinerFee := Some fee; var9_threshold := Some 0%Z |}.
  rewrite (vault_contract_common vault (token_id t) _ _ boxes out0 t rest t' fee fee (Done true)); try done.
  rewrite (proj2 (Z.ltb_lt _ _)) by done. destruct Hcb as [(data0 & Hd0 & Hg & Hi & Hh) (keys & Hkeys & Hcomm)].
  unfold withdrawal_action. cbn [dataInputs OUTPUTS]. rewrite Hd0. outcome_cbn. rewrite Hg, Hi, Hh, Hkeys. outcome_cbn. rewrite Hcomm.
  cbn [var0_verificationData var1_aggregateCommitment var2_terminalCells var3_proof var5_aggregateResponse var6_message var7_tree var9_threshold].
  outcome_cbn. rewrite Hcert. outcome_cbn. rewrite Hins. outcome_cbn. f_equal. rewrite !bool_decide_true by (done || cbn; lia). cbn [andb].
  unfold verifyTxOutputs. cbn [length Nat.sub take drop zip_with forallb]. by rewrite paid_cell_ok.
Qed.

(** As long as it does not lose value, the vault can lose every token but
    the first: the contract compares only as many tokens as the new vault
    has. *)
Theorem vault_tokens_dropped vault data height boxes out0 others t rest fee :
  committee_inputs vault data height boxes -> bx_tokens vault = t :: rest -> bx_tokens out0 = [t] ->
  bx_tree vault = VAULT_CONTRACT -> bx_tree out0 = VAULT_CONTRACT -> (bx_value vault <= bx_value out0)%Z ->
  minerFee (out0 :: others) = Done fee ->
  exists vars, vault_contract vault vars
    {| INPUTS := [vault]; OUTPUTS := out0 :: others; dataInputs := data; HEIGHT := height |} = Done true.
Proof.
  intros Hci Ht Ht' Htree Htree' Hle Hfee. exists (no_vars <| var4_vaultTokenId := Some (token_id t) |> <| var8_maxMinerFee := Some fee |>).
  rewrite (vault_contract_common vault (token_id t) _ _ boxes out0 t rest t fee fee (Done true)); try done; [by rewrite Ht'|].
  rewrite (proj2 (Z.ltb_ge _ _)) by done. rewrite Ht, Ht'. unfold noTokensLost. cbn [zip_with forallb].
  rewrite bool_decide_true, Z.leb_refl by done. by destruct rest.
Qed.
End Unbound.
