(* ===== verification/VaultSelection.v ===== *)
(** * Selection of vault boxes

    Model of [VaultUtxoRepo::collect] of
    [spectrum-ergo-connector/src/rocksdb/vault_boxes.rs]: the boxes of the vault
    are visited in the order of their keys until they cover the terminal cells
    that fit into a transaction.  Amounts are [u64]; the comparison of the
    estimated size, a floating-point number, with the limit is a parameter. *)

From S2P Require Import Ledger Crypto Prelude KvStore ErgoStores ErgoBoxes ErgoContracts ErgoCells.

Inductive NanoErgDifference := Shortfall (n : Z) | Surplus (n : Z) | Balanced.

Definition add_u64 (a b : Z) : outcome Z := checked 0 u64_max (a + b).

(** A box adds [v]. *)
Definition erg_box (d : NanoErgDifference) (v : Z) : outcome NanoErgDifference :=
  match d with
  | Balanced => Done (Surplus v)
  | Shortfall s =>
    match (v ?= s)%Z with
    | Gt => Done (Surplus (v - s))
    | Lt => Done (Shortfall (s - v))
    | Eq => Done Balanced
    end
  | Surplus s => x ← add_u64 s v; Done (Surplus x)
  end.

(** A cell takes [v]. *)
Definition erg_cell (d : NanoErgDifference) (v : Z) : outcome NanoErgDifference :=
  match d with
  | Balanced => Done (Shortfall v)
  | Shortfall s => x ← add_u64 v s; Done (Shortfall x)
  | Surplus s =>
    match (s ?= v)%Z with
    | Lt => Done (Shortfall (v - s))
    | Gt => Done (Surplus (s - v))
    | Eq => Done Balanced
    end
  end.

Abbreviation TokenAmounts := (list (list Z * Z)) (only parsing).

(** A token of a box: shortfalls are covered first. *)
Definition token_box (acc : TokenAmounts * TokenAmounts) (id : list Z) (amt : Z) : outcome (TokenAmounts * TokenAmounts) :=
  let '(shortfall, surplus) := acc in
  match position id shortfall.*1 with
  | Some ix =>
    e ← unwrap (shortfall !! ix);
    match (e.2 ?= amt)%Z with
    | Lt => Done (delete ix shortfall, surplus ++ [(id, amt - e.2)%Z])
    | Gt => Done (<[ix := (e.1, e.2 - amt)%Z]> shortfall, surplus)
    | Eq => Done (delete ix shortfall, surplus)
    end
  | None =>
    match position id surplus.*1 with
    | Some ix => e ← unwrap (surplus !! ix); x ← add_u64 e.2 amt; Done (shortfall, <[ix := (e.1, x)]> surplus)
    | None => Done (shortfall, surplus ++ [(id, amt)])
    end
  end.

(** A token of a cell. *)
Definition token_cell (acc : TokenAmounts * TokenAmounts) (id : list Z) (amt : Z) : outcome (TokenAmounts * TokenAmounts) :=
  let '(shortfall, surplus) := acc in
  match position id shortfall.*1 with
  | Some ix => e ← unwrap (shortfall !! ix); x ← add_u64 e.2 amt; Done (<[ix := (e.1, x)]> shortfall, surplus)
  | None =>
    match position id surplus.*1 with
    | Some ix =>
      e ← unwrap (surplus !! ix);
      match (e.2 ?= amt)%Z with
      | Lt => Done (shortfall ++ [(id, amt - e.2)%Z], delete ix surplus)
      | Gt => Done (shortfall, <[ix := (e.1, e.2 - amt)%Z]> surplus)
      | Eq => Done (shortfall, delete ix surplus)
      end
    | None => Done (shortfall ++ [(id, amt)], surplus)
    end
  end.

Section Collect.
Context `{C : Curve, L : !ErgoLib, HO : HashOrder}.

(** [estimate_tx_size_in_kb(withdrawals, byzantine, tokens) > max_tx_size] *)
Context (too_big : nat -> nat -> nat -> bool).

Record Selection := {
  num_withdrawals : nat;
  num_token_occurrences : nat;
  included_tokens : list (list Z);
  included_vault_utxos : list ErgoBox;
  nano_erg_diff : NanoErgDifference;
  token_diff : TokenAmounts * TokenAmounts;
  add_term_cells : bool;
  terminal_cell_bound : nat;
}.

Definition sel_start : Selection :=
  {| num_withdrawals := 0; num_token_occurrences := 0; included_tokens := []; included_vault_utxos := [];
     nano_erg_diff := Balanced; token_diff := ([], []); add_term_cells := true; terminal_cell_bound := 0 |}.

Definition in_shortfall (s : Selection) : bool :=
  match nano_erg_diff s with Shortfall _ => true | _ => false end || bool_decide ((token_diff s).1 <> []).

Definition number_new_token_ids (cell : ProtoTermCell) (included : list (list Z)) : nat :=
  length (filter (fun d => d.1 ∉ included) (token_details (ptc_value cell))).

(** One terminal cell. *)
Definition add_cell (cell : ProtoTermCell) (num_new_tokens : nat) (s : Selection) : outcome Selection :=
  erg ← erg_cell (nano_erg_diff s) (native (ptc_value cell));
  tok ← foldO (fun acc d => token_cell acc d.1 d.2) (token_details (ptc_value cell)) (token_diff s);
  Done (s <| terminal_cell_bound ::= S |> <| num_withdrawals ::= S |> <| num_token_occurrences ::= Nat.add num_new_tokens |>
          <| nano_erg_diff := erg |> <| token_diff := tok |>).

(** The loop over the remaining cells; [false] when a cell did not fit. *)
Fixpoint cells_loop (byzantine : nat) (cells : list ProtoTermCell) (s : Selection) : outcome (Selection * list ProtoTermCell * bool) :=
  match cells with
  | [] => Done (s, [], true)
  | cell :: cells =>
    let num_new_tokens := number_new_token_ids cell (included_tokens s) in
    if too_big (num_withdrawals s + 1) byzantine (num_token_occurrences s + num_new_tokens) && bool_decide (0 < terminal_cell_bound s)
    then Done (s <| add_term_cells := false |>, cells, false)
    else s ← add_cell cell num_new_tokens s; cells_loop byzantine cells s
  end.

Definition new_token_ids (bx : ErgoBox) (s : Selection) : nat := length (filter (fun t => token_id t ∉ included_tokens s) (bx_tokens bx)).

(** One box that is taken. *)
Definition add_vault_box (bx : ErgoBox) (s : Selection) : outcome Selection :=
  erg ← erg_box (nano_erg_diff s) (bx_value bx);
  tok ← foldO (fun acc t => token_box acc (token_id t) (amount t)) (bx_tokens bx) (token_diff s);
  Done (s <| num_withdrawals ::= S |> <| num_token_occurrences ::= Nat.add (new_token_ids bx s) |>
          <| included_vault_utxos ::= fun l => l ++ [bx] |> <| nano_erg_diff := erg |> <| token_diff := tok |>
          <| included_tokens ::= fun l => (token_id <$> bx_tokens bx) ++ l |>).

(** No more cells, and the value of the chosen ones is covered. *)
Definition settled (s : Selection) : bool := negb (add_term_cells s) && match nano_erg_diff s with Shortfall _ => false | _ => true end.

(** The body of the loop over the boxes, on one that is not spent: the box is
    added with the cells it leads to, and [true] says that the loop goes on. *)
Definition visit_box (byzantine : nat) (bx : ErgoBox) (cells : list ProtoTermCell) (s : Selection) :
    outcome (Selection * list ProtoTermCell * bool) :=
  if negb (in_shortfall s) && bool_decide (included_vault_utxos s <> []) &&
     too_big (num_withdrawals s + 1) byzantine (num_token_occurrences s + new_token_ids bx s) then Done (s, cells, false)
  else
    s ← add_vault_box bx s;
    if add_term_cells s then
      r ← cells_loop byzantine cells s;
      let '(s, cells, all) := r in
      Done (s, cells, negb ((all : bool) && negb (in_shortfall s)))
    else Done (s, cells, true).

(** The loop over the stored boxes: a box is read when the loop reaches it, and
    skipped if it is spent. *)
Fixpoint stored_loop (vault_codec : BoxRepo.KeyCodec BoxId) `{!Serde (ErgoBox * VaultUtxo)} (byzantine : nat) (db : Db)
    (entries : list (bytes * bytes)) (cells : list ProtoTermCell) (s : Selection) : outcome Selection :=
  match entries with
  | [] => Done s
  | e :: entries =>
    if settled s then Done s
    else
      b ← unwrap (from_slice (T := ErgoBox * VaultUtxo) e.2);
      if BoxRepo.is_spent (KeyCodec0 := vault_codec) db (bx_id b.1) then stored_loop vault_codec byzantine db entries cells s
      else
        r ← visit_box byzantine b.1 cells s;
        let '(s, cells, goes_on) := r in
        if (goes_on : bool) then stored_loop vault_codec byzantine db entries cells s else Done s
  end.

Definition collect (vault_codec : BoxRepo.KeyCodec BoxId) `{!Serde (ErgoBox * VaultUtxo)} (byzantine : nat) (cells : list ProtoTermCell) (db : Db) :
    outcome (list ErgoBox * nat) :=
  s ← stored_loop vault_codec byzantine db (scan_prefix (BoxRepo.box_key_prefix (KeyCodec0 := vault_codec) BoxRepo.KEY_PREFIX 0) db) cells sel_start;
  if bool_decide (included_vault_utxos s = []) then Panic else Done (included_vault_utxos s, terminal_cell_bound s).

(** ** The loop on boxes that are read at once *)

Fixpoint vault_loop (byzantine : nat) (boxes : list ErgoBox) (cells : list ProtoTermCell) (s : Selection) : outcome Selection :=
  match boxes with
  | [] => Done s
  | bx :: boxes =>
    if settled s then Done s
    else
      r ← visit_box byzantine bx cells s;
      let '(s, cells, goes_on) := r in
      if (goes_on : bool) then vault_loop byzantine boxes cells s else Done s
  end.

Lemma vault_loop_settled byz boxes cells s : settled s = true -> vault_loop byz boxes cells s = Done s.
Proof. intros Hs. destruct boxes; cbn; [done|by rewrite Hs]. Qed.

Lemma vault_loop_cons byz bx boxes cells s : vault_loop byz (bx :: boxes) cells s =
  if negb (add_term_cells s) && match nano_erg_diff s with Shortfall _ => false | _ => true end then Done s
  else if negb (in_shortfall s) && bool_decide (included_vault_utxos s <> []) &&
          too_big (num_withdrawals s + 1) byz (num_token_occurrences s + new_token_ids bx s) then Done s
  else
    s ← add_vault_box bx s;
    if add_term_cells s then
      r ← cells_loop byz cells s;
      let '(s, cells, all) := r in
      if (all : bool) && negb (in_shortfall s) then Done s else vault_loop byz boxes cells s
    else vault_loop byz boxes cells s.
Proof.
  cbn [vault_loop]. unfold settled, visit_box. destruct (negb (add_term_cells s) && _); [done|]. destruct (negb _ && _ && _); [done|].
  destruct (add_vault_box bx s) as [s1| |]; outcome_cbn; [|done..]. destruct (add_term_cells s1); [|done].
  destruct (cells_loop byz cells s1) as [[[s2 cells2] a]| |]; outcome_cbn; [|done..]. by destruct (a && negb (in_shortfall s2)).
Qed.

(** If every stored box decodes, the loop sees the unspent ones in order. *)
Lemma stored_loop_unspent (vault_codec : BoxRepo.KeyCodec BoxId) `{!Serde (ErgoBox * VaultUtxo)} byz db entries bs cells s :
  mapO (fun e => unwrap (from_slice (T := ErgoBox * VaultUtxo) e.2)) entries = Done bs ->
  stored_loop vault_codec byz db entries cells s =
    vault_loop byz (filter (fun b => BoxRepo.is_spent (KeyCodec0 := vault_codec) db (bx_id b.1) = false) bs).*1 cells s.
Proof.
  revert bs cells s. induction entries as [|e entries IH]; intros bs cells s Hd; cbn in Hd; [by injection Hd as <-|].
  destruct (unwrap (from_slice e.2)) as [b| |] eqn:Hb; outcome_cbn in Hd; [|done..].
  apply bind_Done in Hd as (bs' & Hbs & [= <-]). cbn [stored_loop].
  destruct (settled s) eqn:Hs; [by rewrite vault_loop_settled|]. rewrite Hb. outcome_cbn. rewrite filter_cons.
  destruct (BoxRepo.is_spent db (bx_id b.1)) eqn:Hsp; case_decide; try done; [by apply IH|]. cbn [fmap list_fmap vault_loop]. rewrite Hs.
  destruct (visit_box byz b.1 cells s) as [[[s1 cells1] g]| |]; outcome_cbn; [|done..]. destruct g; [by apply IH|done].
Qed.

Lemma collect_unspent (vault_codec : BoxRepo.KeyCodec BoxId) `{!Serde (ErgoBox * VaultUtxo)} byz cells db us :
  BoxRepo.get_all_confirmed (KeyCodec0 := vault_codec) (fun b : ErgoBox * VaultUtxo => bx_id b.1) db = Done us ->
  collect vault_codec byz cells db = (s ← vault_loop byz us.*1 cells sel_start;
    if bool_decide (included_vault_utxos s = []) then Panic else Done (included_vault_utxos s, terminal_cell_bound s)).
Proof.
  intros Hus. unfold BoxRepo.get_all_confirmed in Hus. apply bind_Done in Hus as (bs & Hbs & [= <-]). unfold collect. by erewrite stored_loop_unspent.
Qed.

(** ** What is counted *)

Definition at_id (id : list Z) (e : list Z * Z) : Z := if bool_decide (e.1 = id) then e.2 else 0%Z.

Definition total_of (id : list Z) (l : TokenAmounts) : Z := foldr Z.add 0%Z (at_id id <$> l).

Definition sum_of {A} (f : A -> Z) (l : list A) : Z := foldr Z.add 0%Z (f <$> l).

Definition erg_net (d : NanoErgDifference) : Z := match d with Shortfall n => - n | Surplus n => n | Balanced => 0 end.

Definition token_net (id : list Z) (d : TokenAmounts * TokenAmounts) : Z := (total_of id d.2 - total_of id d.1)%Z.

(** What boxes hold and what cells take of a token. *)
Definition box_holds (id : list Z) (bx : ErgoBox) : Z := total_of id ((fun t => (token_id t, amount t)) <$> bx_tokens bx).

Definition cell_takes (id : list Z) (cell : ProtoTermCell) : Z := total_of id (token_details (ptc_value cell)).

Lemma total_of_app id l k : total_of id (l ++ k) = (total_of id l + total_of id k)%Z.
Proof. unfold total_of. rewrite fmap_app. induction (at_id id <$> l) as [|x r IH]; cbn; [done|]. rewrite IH. lia. Qed.

Lemma total_of_cons id e l : total_of id (e :: l) = (at_id id e + total_of id l)%Z.
Proof. done. Qed.

Lemma total_of_delete id l ix e : l !! ix = Some e -> total_of id (delete ix l) = (total_of id l - at_id id e)%Z.
Proof.
  revert ix. induction l as [|x l IH]; intros [|ix] Hix; [done..| |]; cbn in Hix.
  - injection Hix as ->. change (delete 0 (e :: l)) with l. rewrite total_of_cons. lia.
  - change (delete (S ix) (x :: l)) with (x :: delete ix l). rewrite !total_of_cons, IH by done. lia.
Qed.

Lemma total_of_insert id l ix e e' : l !! ix = Some e -> total_of id (<[ix := e']> l) = (total_of id l - at_id id e + at_id id e')%Z.
Proof.
  revert ix. induction l as [|x l IH]; intros [|ix] Hix; [done..| |]; cbn in Hix.
  - injection Hix as ->. change (<[0 := e']> (e :: l)) with (e' :: l). rewrite !total_of_cons. lia.
  - change (<[S ix := e']> (x :: l)) with (x :: <[ix := e']> l). rewrite !total_of_cons, IH by done. lia.
Qed.

Lemma sum_of_app {A} (f : A -> Z) l k : sum_of f (l ++ k) = (sum_of f l + sum_of f k)%Z.
Proof. unfold sum_of. rewrite fmap_app. induction (f <$> l) as [|x r IH]; cbn; [done|]. rewrite IH. lia. Qed.

Definition nonneg (l : TokenAmounts) : Prop := Forall (fun e => 0 <= e.2)%Z l.

Lemma total_of_nonneg id l : nonneg l -> (0 <= total_of id l)%Z.
Proof.
  induction 1 as [|e l He _ IH]; [done|]. rewrite total_of_cons. unfold at_id. case_bool_decide; lia.
Qed.

Lemma nonneg_insert l ix e : nonneg l -> (0 <= e.2)%Z -> nonneg (<[ix := e]> l).
Proof. intros Hl He. apply Forall_lookup. intros j x [[_ [<- _]]|[_ Hx]]%list_lookup_insert_Some; [done|]. exact (Forall_lookup_1 _ _ _ _ Hl Hx). Qed.

Lemma nonneg_delete l ix : nonneg l -> nonneg (delete ix l).
Proof. intros Hl. by apply Forall_delete. Qed.

Lemma nonneg_app l k : nonneg l -> nonneg k -> nonneg (l ++ k).
Proof. intros. by apply Forall_app. Qed.

Lemma position_at {A} `{EqDecision A} (x : A) {V} (l : list (A * V)) ix : position x l.*1 = Some ix -> exists v, l !! ix = Some (x, v).
Proof.
  unfold position. intros ([k y] & (Hi & <- & _)%list_find_Some & ->)%fmap_Some. rewrite list_lookup_fmap in Hi.
  apply fmap_Some in Hi as ([? v] & Hi & ->). by exists v.
Qed.

Lemma at_id_add id k a b : at_id id (k, (a + b)%Z) = (at_id id (k, a) + at_id id (k, b))%Z.
Proof. unfold at_id. cbn. case_bool_decide; lia. Qed.

Lemma at_id_sub id k a b : at_id id (k, (a - b)%Z) = (at_id id (k, a) - at_id id (k, b))%Z.
Proof. unfold at_id. cbn. case_bool_decide; lia. Qed.

Lemma nonneg_at l ix (e : list Z * Z) : nonneg l -> l !! ix = Some e -> (0 <= e.2)%Z.
Proof. intros Hl Hx. exact (Forall_lookup_1 _ _ _ _ Hl Hx). Qed.

Lemma nonneg_one k v : (0 <= v)%Z -> nonneg [(k, v)].
Proof. by repeat constructor. Qed.

#[local] Hint Resolve nonneg_insert nonneg_delete nonneg_app nonneg_one : core.
#[local] Hint Extern 1 (0 <= _)%Z => cbn [snd] in *; lia : core.

(** The balances after a change to the lists. *)
Ltac net_step :=
  split_and!; [intros i; cbn [fst snd]; rewrite ?total_of_app; change (total_of i [?e]) with (at_id i e + 0)%Z;
    repeat match goal with
    | H : ?l !! ?ix = Some _ |- context [total_of i (delete ?ix ?l)] => rewrite (total_of_delete i _ _ _ H)
    | H : ?l !! ?ix = Some _ |- context [total_of i (<[?ix := _]> ?l)] => rewrite (total_of_insert i _ _ _ _ H)
    end; rewrite ?at_id_add, ?at_id_sub; lia|cbn [fst snd] in *; auto..].

Lemma token_box_net acc k amt acc' : nonneg acc.1 -> nonneg acc.2 -> (0 <= amt)%Z -> token_box acc k amt = Done acc' ->
  (forall id, token_net id acc' = token_net id acc + at_id id (k, amt))%Z /\ nonneg acc'.1 /\ nonneg acc'.2.
Proof.
  destruct acc as [sf sp]. intros Hsf Hsp Ha. unfold token_box, token_net. cbn [fst snd] in *.
  destruct (position k sf.*1) as [ix|] eqn:Ep; [|clear Ep; destruct (position k sp.*1) as [ix|] eqn:Ep].
  - destruct (position_at _ _ _ Ep) as [v Hv]. rewrite Hv. outcome_cbn. cbn [fst snd]. pose proof (nonneg_at _ _ _ Hsf Hv).
    destruct (Z.compare_spec v amt); intros [= <-]; subst; net_step.
  - destruct (position_at _ _ _ Ep) as [v Hv]. rewrite Hv. outcome_cbn. cbn [fst snd]. pose proof (nonneg_at _ _ _ Hsp Hv).
    intros Hb. bind_inv. apply checked_Done in Hv0 as [_ ->]. subst acc'. net_step.
  - intros [= <-]. net_step.
Qed.

Lemma token_cell_net acc k amt acc' : nonneg acc.1 -> nonneg acc.2 -> (0 <= amt)%Z -> token_cell acc k amt = Done acc' ->
  (forall id, token_net id acc' = token_net id acc - at_id id (k, amt))%Z /\ nonneg acc'.1 /\ nonneg acc'.2.
Proof.
  destruct acc as [sf sp]. intros Hsf Hsp Ha. unfold token_cell, token_net. cbn [fst snd] in *.
  destruct (position k sf.*1) as [ix|] eqn:Ep; [|clear Ep; destruct (position k sp.*1) as [ix|] eqn:Ep].
  - destruct (position_at _ _ _ Ep) as [v Hv]. rewrite Hv. outcome_cbn. cbn [fst snd]. pose proof (nonneg_at _ _ _ Hsf Hv).
    intros Hb. bind_inv. apply checked_Done in Hv0 as [_ ->]. subst acc'. net_step.
  - destruct (position_at _ _ _ Ep) as [v Hv]. rewrite Hv. outcome_cbn. cbn [fst snd]. pose proof (nonneg_at _ _ _ Hsp Hv).
    destruct (Z.compare_spec v amt); intros [= <-]; subst; net_step.
  - intros [= <-]. net_step.
Qed.

Lemma erg_box_net d v d' : erg_box d v = Done d' -> erg_net d' = (erg_net d + v)%Z.
Proof.
  destruct d as [s|s|]; cbn; [destruct (Z.compare_spec v s)|intros Hb; bind_inv; apply checked_Done in Hv as [_ ->]|];
    try intros [= <-]; subst; cbn; lia.
Qed.

Lemma erg_cell_net d v d' : erg_cell d v = Done d' -> erg_net d' = (erg_net d - v)%Z.
Proof.
  destruct d as [s|s|]; cbn; [intros Hb; bind_inv; apply checked_Done in Hv as [_ ->]|destruct (Z.compare_spec s v)|];
    try intros [= <-]; subst; cbn; lia.
Qed.

(** The tokens of a box and of a cell. *)
Lemma tokens_box_net l acc acc' : Forall (fun t => 0 <= amount t)%Z l -> nonneg acc.1 -> nonneg acc.2 ->
  foldO (fun acc t => token_box acc (token_id t) (amount t)) l acc = Done acc' ->
  (forall id, token_net id acc' = token_net id acc + total_of id ((fun t => (token_id t, amount t)) <$> l))%Z /\ nonneg acc'.1 /\ nonneg acc'.2.
Proof.
  intros Hl. revert acc. induction Hl as [|t l Ht _ IH]; intros acc H1 H2 Hf; cbn [foldO] in Hf.
  - injection Hf as <-. split_and!; [|done..]. intros i. cbn. lia.
  - apply bind_Done in Hf as (acc1 & Hf1 & Hf). destruct (token_box_net _ _ _ _ H1 H2 Ht Hf1) as (Hn & H1' & H2').
    destruct (IH _ H1' H2' Hf) as (Hn' & ? & ?). split_and!; [|done..]. intros i. rewrite fmap_cons, total_of_cons, Hn', Hn. lia.
Qed.

Lemma tokens_cell_net l acc acc' : nonneg l -> nonneg acc.1 -> nonneg acc.2 ->
  foldO (fun acc d => token_cell acc d.1 d.2) l acc = Done acc' ->
  (forall id, token_net id acc' = token_net id acc - total_of id l)%Z /\ nonneg acc'.1 /\ nonneg acc'.2.
Proof.
  intros Hl. revert acc. induction Hl as [|d l Hd _ IH]; intros acc H1 H2 Hf; cbn [foldO] in Hf.
  - injection Hf as <-. split_and!; [|done..]. intros i. cbn. lia.
  - apply bind_Done in Hf as (acc1 & Hf1 & Hf). destruct (token_cell_net _ _ _ _ H1 H2 Hd Hf1) as (Hn & H1' & H2').
    destruct (IH _ H1' H2' Hf) as (Hn' & ? & ?). split_and!; [|done..]. intros i. rewrite total_of_cons, Hn', Hn. destruct d; cbn. lia.
Qed.

(** ** The selection covers what it takes *)

(** The differences are those between the boxes and the cells taken so far. *)
Record counted (s : Selection) (taken : list ErgoBox) (paid : list ProtoTermCell) : Prop := {
  co_boxes : included_vault_utxos s = taken;
  co_bound : terminal_cell_bound s = length paid;
  co_ergs : erg_net (nano_erg_diff s) = (sum_of bx_value taken - sum_of (fun c => native (ptc_value c)) paid)%Z;
  co_tokens : forall id, token_net id (token_diff s) = (sum_of (box_holds id) taken - sum_of (cell_takes id) paid)%Z;
  co_nonneg : nonneg (token_diff s).1 /\ nonneg (token_diff s).2;
  co_surplus : match nano_erg_diff s with Surplus n | Shortfall n => (0 <= n)%Z | Balanced => True end;
}.

Definition box_ok (bx : ErgoBox) : Prop := (0 <= bx_value bx)%Z /\ Forall (fun t => 0 <= amount t)%Z (bx_tokens bx).

Definition proto_ok (c : ProtoTermCell) : Prop := (0 <= native (ptc_value c))%Z /\ nonneg (token_details (ptc_value c)).

Lemma erg_box_sign d v d' : (0 <= v)%Z -> match d with Surplus n | Shortfall n => (0 <= n)%Z | Balanced => True end ->
  erg_box d v = Done d' -> match d' with Surplus n | Shortfall n => (0 <= n)%Z | Balanced => True end.
Proof.
  intros Hv. destruct d as [s|s|]; cbn; intros Hs; [destruct (Z.compare_spec v s)|intros Hb; bind_inv; apply checked_Done in Hv0 as [_ ->]|];
    try intros [= <-]; subst; cbn; lia || done.
Qed.

Lemma erg_cell_sign d v d' : (0 <= v)%Z -> match d with Surplus n | Shortfall n => (0 <= n)%Z | Balanced => True end ->
  erg_cell d v = Done d' -> match d' with Surplus n | Shortfall n => (0 <= n)%Z | Balanced => True end.
Proof.
  intros Hv. destruct d as [s|s|]; cbn; intros Hs; [intros Hb; bind_inv; apply checked_Done in Hv0 as [_ ->]|destruct (Z.compare_spec s v)|];
    try intros [= <-]; subst; cbn; lia || done.
Qed.

Lemma sum_of_snoc {A} (f : A -> Z) l x : sum_of f (l ++ [x]) = (sum_of f l + f x)%Z.
Proof. rewrite sum_of_app. unfold sum_of. cbn. lia. Qed.

#[local] Arguments erg_net : simpl never.
#[local] Arguments token_net : simpl never.

Lemma add_vault_box_counted s T P bx s' : counted s T P -> box_ok bx -> add_vault_box bx s = Done s' ->
  counted s' (T ++ [bx]) P /\ add_term_cells s' = add_term_cells s.
Proof.
  intros [Hb Hn He Ht [H1 H2] Hs] [Hv Ha] Hadd. unfold add_vault_box in Hadd. bind_inv. subst s'.
  destruct (tokens_box_net _ _ _ Ha H1 H2 Hv1) as (Hnet & ? & ?). split; [|done]. split; cbn; unfold const; try done.
  - by rewrite Hb.
  - rewrite (erg_box_net _ _ _ Hv0), He, sum_of_snoc. lia.
  - intros i. rewrite Hnet, Ht, sum_of_snoc. unfold box_holds. lia.
  - by eapply erg_box_sign.
Qed.

Lemma add_cell_counted s T P cell n s' : counted s T P -> proto_ok cell -> add_cell cell n s = Done s' ->
  counted s' T (P ++ [cell]) /\ add_term_cells s' = add_term_cells s.
Proof.
  intros [Hb Hn He Ht [H1 H2] Hs] [Hv Ha] Hadd. unfold add_cell in Hadd. bind_inv. subst s'.
  destruct (tokens_cell_net _ _ _ Ha H1 H2 Hv1) as (Hnet & ? & ?). split; [|done]. split; cbn; unfold const; try done.
  - rewrite length_app, Hn. cbn. lia.
  - rewrite (erg_cell_net _ _ _ Hv0), He, sum_of_snoc. lia.
  - intros i. rewrite Hnet, Ht, sum_of_snoc. unfold cell_takes. lia.
  - by eapply erg_cell_sign.
Qed.

Lemma cells_loop_counted byz cells s T P s' rest all : counted s T P -> Forall proto_ok cells -> cells_loop byz cells s = Done (s', rest, all) ->
  exists more, counted s' T (P ++ more) /\
    if (all : bool) then cells = more /\ rest = [] /\ add_term_cells s' = add_term_cells s
    else (exists c, cells = more ++ c :: rest) /\ add_term_cells s' = false.
Proof.
  intros Hc Hok. revert s P Hc. induction Hok as [|c cells Hcell _ IH]; intros s P Hc Hl; cbn [cells_loop] in Hl.
  - injection Hl as <- <- <-. exists []. by rewrite app_nil_r.
  - destruct (_ && _).
    + injection Hl as <- <- <-. exists []. rewrite app_nil_r. split; [|split; [by exists c|done]]. by destruct Hc.
    + apply bind_Done in Hl as (s1 & Ha & Hl). destruct (add_cell_counted _ _ _ _ _ _ Hc Hcell Ha) as [Hc1 Hadd].
      destruct (IH _ _ Hc1 Hl) as (more & Hc2 & Hres). exists (c :: more). rewrite <- app_assoc in Hc2. split; [done|].
      destruct all; [destruct Hres as (-> & -> & ->); by split_and!|]. destruct Hres as ((c' & ->) & ->). split; [by exists c'|done].
Qed.

(** Nothing is missing. *)
Lemma counted_ergs s T P : counted s T P -> (forall n, nano_erg_diff s <> Shortfall n) ->
  (sum_of (fun c => native (ptc_value c)) P <= sum_of bx_value T)%Z.
Proof. intros [_ _ He _ _ Hs] Hno. unfold erg_net in He. destruct (nano_erg_diff s) as [n|n|]; [by destruct (Hno n)|lia..]. Qed.

Lemma counted_tokens s T P : counted s T P -> (token_diff s).1 = [] -> forall id, (sum_of (cell_takes id) P <= sum_of (box_holds id) T)%Z.
Proof.
  intros [_ _ _ Ht [_ H2] _] Hno id. specialize (Ht id). unfold token_net in Ht. rewrite Hno in Ht.
  pose proof (total_of_nonneg id _ H2).
  assert (total_of id [] = 0%Z) as E0 by done. rewrite E0 in Ht. lia.
Qed.

Lemma not_in_shortfall s : in_shortfall s = false -> (forall n, nano_erg_diff s <> Shortfall n) /\ (token_diff s).1 = [].
Proof.
  unfold in_shortfall. intros [H1 H2]%orb_false_iff. apply bool_decide_eq_false in H2. split; [intros n E; by rewrite E in H1|].
  by apply dec_stable.
Qed.

(** What a selection of [T] for [P] out of the cells [all] guarantees, when boxes
    were left over. *)
Definition covers (T : list ErgoBox) (P all : list ProtoTermCell) : Prop :=
  (sum_of (fun c => native (ptc_value c)) P <= sum_of bx_value T)%Z /\
  (P = all -> forall id, (sum_of (cell_takes id) P <= sum_of (box_holds id) T)%Z).

Lemma vault_loop_covers byz all boxes cells s T P s' : Forall box_ok boxes -> Forall proto_ok all -> counted s T P ->
  (if add_term_cells s then all = P ++ cells else exists c rest, all = P ++ c :: rest) ->
  vault_loop byz boxes cells s = Done s' ->
  exists k P', counted s' (T ++ take k boxes) P' /\ P' `prefix_of` all /\ (k < length boxes -> covers (T ++ take k boxes) P' all) /\
    (0 < length boxes -> T = [] -> nano_erg_diff s = Balanced -> add_term_cells s = true -> 0 < k).
Proof.
  intros Hboxes Hall. revert cells s T P. induction Hboxes as [|bx boxes Hbx _ IH]; intros cells s T P Hc Hrem Hl.
  - injection Hl as <-. exists 0, P. rewrite app_nil_r. split_and!; [done| |cbn; lia..].
    destruct (add_term_cells s); [subst all; by apply prefix_app_r|destruct Hrem as (c & rest & ->); by apply prefix_app_r].
  - assert (P `prefix_of` all) as Hpre.
    { destruct (add_term_cells s); [subst all|destruct Hrem as (c & rest & ->)]; by apply prefix_app_r. }
    rewrite vault_loop_cons in Hl. destruct (negb (add_term_cells s) && _) eqn:E1.
    { injection Hl as <-. apply andb_true_iff in E1 as [E1 E2]. apply negb_true_iff in E1. rewrite E1 in *. destruct Hrem as (c & rest & ->).
      exists 0, P. rewrite app_nil_r. split_and!; [done..| |done]. intros _. split; [|intros Ep; apply (f_equal length) in Ep; rewrite length_app in Ep; cbn in Ep; lia].
      eapply counted_ergs; [done|]. intros n En. by rewrite En in E2. }
    destruct (negb (in_shortfall s) && _ && _) eqn:E2.
    { injection Hl as <-. apply andb_true_iff in E2 as [[E2 E3]%andb_true_iff _]. apply negb_true_iff, not_in_shortfall in E2 as [Hno1 Hno2].
      apply bool_decide_eq_true in E3. exists 0, P. rewrite app_nil_r. split_and!; [done..| |by rewrite (co_boxes _ _ _ Hc) in E3].
      intros _. split; [by eapply counted_ergs|intros _; by eapply counted_tokens]. }
    apply bind_Done in Hl as (s1 & Ha & Hl). destruct (add_vault_box_counted _ _ _ _ _ Hc Hbx Ha) as [Hc1 Hadd]. rewrite Hadd in Hl.
    assert (forall cells s2 P2, counted s2 (T ++ [bx]) P2 -> (if add_term_cells s2 then all = P2 ++ cells else exists c rest, all = P2 ++ c :: rest) ->
      vault_loop byz boxes cells s2 = Done s' -> exists k P', counted s' (T ++ take k (bx :: boxes)) P' /\ P' `prefix_of` all /\
        (k < length (bx :: boxes) -> covers (T ++ take k (bx :: boxes)) P' all) /\ 0 < k) as Hnext.
    { intros cells2 s2 P2 Hc2 Hrem2 Hl2. destruct (IH _ _ _ _ Hc2 Hrem2 Hl2) as (k & P' & Hc3 & Hp3 & Hcov & _). exists (S k), P'.
      cbn [take length]. rewrite <- app_assoc in *. split_and!; [done..|intros; apply Hcov; lia|lia]. }
    destruct (add_term_cells s) eqn:Eadd.
    2: { destruct (Hnext cells s1 P Hc1) as (k & P' & ? & ? & ? & ?); [by rewrite Hadd|done|]. exists k, P'. by split_and!. }
    apply bind_Done in Hl as ([[s2 cells2] allin] & Hcl & Hl).
    assert (Forall proto_ok cells) as Hcells by (subst all; by apply Forall_app in Hall as [_ ?]).
    destruct (cells_loop_counted _ _ _ _ _ _ _ _ Hc1 Hcells Hcl) as (more & Hc2 & Hres).
    destruct allin; cbn [andb] in Hl.
    + destruct Hres as (-> & -> & Hadd2). rewrite Hadd in Hadd2. destruct (in_shortfall s2) eqn:Esf; cbn [negb] in Hl.
      * destruct (Hnext [] s2 (P ++ more) Hc2) as (k & P' & ? & ? & ? & ?); [by rewrite Hadd2, app_nil_r|done|]. exists k, P'. by split_and!.
      * injection Hl as <-. apply not_in_shortfall in Esf as [Hno1 Hno2]. exists 1, (P ++ more). cbn [take length].
        split_and!; [done|by subst|intros _; split; [by eapply counted_ergs|intros _; by eapply counted_tokens]|lia].
    + destruct Hres as ((c & ->) & Hadd2). destruct (Hnext cells2 s2 (P ++ more) Hc2) as (k & P' & ? & ? & ? & ?).
      * rewrite Hadd2. exists c, cells2. by rewrite Hrem, <- app_assoc.
      * done.
      * exists k, P'. by split_and!.
Qed.

(** C34: the boxes selected are the first unspent ones in the order of their
    keys, at least one, and they hold the value of the terminal cells up to the
    bound, and when the bound takes in all cells their tokens too, unless every
    unspent box was taken. *)
Theorem collect_covers (codec : BoxRepo.KeyCodec BoxId) `{!Serde (ErgoBox * VaultUtxo)} byz cells db taken n us :
  BoxRepo.get_all_confirmed (KeyCodec0 := codec) (fun b : ErgoBox * VaultUtxo => bx_id b.1) db = Done us ->
  Forall box_ok us.*1 -> Forall proto_ok cells -> collect codec byz cells db = Done (taken, n) ->
  exists k, taken = take k us.*1 /\ 0 < k /\ n <= length cells /\ (k < length us -> covers taken (take n cells) cells).
Proof.
  intros Hus Hok Hcells Hcol. rewrite (collect_unspent _ _ _ _ _ Hus) in Hcol. bind_inv. case_bool_decide as Hne; [done|].
  injection Hcol as <- <-. assert (counted sel_start [] []) as Hstart by (repeat split; try constructor; done).
  destruct (vault_loop_covers byz cells _ cells _ _ _ _ Hok Hcells Hstart eq_refl Hv) as (k & P & Hc & Hp & Hcov & Hk). cbn [app] in *.
  pose proof (co_boxes _ _ _ Hc) as Hb. pose proof (co_bound _ _ _ Hc) as Hn.
  assert (0 < length us.*1) as Hlen by (destruct us; [|cbn; lia]; destruct Hne; rewrite Hb; by destruct k).
  exists k. split_and!; [done|by apply Hk|rewrite Hn; by apply prefix_length|]. intros Hlt. rewrite length_fmap in *.
  rewrite Hb, Hn. destruct Hp as [r ->]. rewrite take_app_length. by apply Hcov.
Qed.
End Collect.
