(* ===== verification/ErgoConnector.v ===== *)
(** * The Ergo connector

    Model of [ErgoConnector] of [spectrum-ergo-connector/src/ergo_connector.rs],
    of [tx_in_progress.rs] and of the loop of [main.rs] that serves it.  The
    stores are those of [ErgoStores], the scheduler that of [RetryScheduler];
    as in the source the history of events is an interface with two
    implementations.  The node, the explorer and the wallet are parameters of
    the steps that call them, and so is the clock. *)

From S2P Require Import SigmaAggregation Ledger Crypto SigmaCrypto Algebra Prelude KvStore RetryScheduler ErgoStores ErgoBoxes ErgoContracts ErgoCells ErgoTx VaultSelection.

Definition MAX_SYNCED_BLOCK_HEIGHTS : nat := 100.
Definition MAX_MOVED_VALUES_PER_RESPONSE : nat := 100.

(** A signed input: the box it spends and the proof, encoded. *)
Record Input := { in_box_id : BoxId; in_proof : list Z }.

#[export] Instance Input_eq_dec : EqDecision Input.
Proof. solve_decision. Defined.

(** [AsBox<ErgoInboundCell>] and [AsBox<VaultUtxo>] *)
Abbreviation DepositBox := (ErgoBox * ErgoInboundCell)%type (only parsing).
Abbreviation VaultBox := (ErgoBox * VaultUtxo)%type (only parsing).

Section Types.
Context `{C : Curve, SG : !Schnorr, L : !ErgoLib, AT : AvlTrees, AE : EqDecision AvlTree}.

Record Transaction := {
  tx_id : list Z;
  tx_inputs : TxIoVec Input;
  tx_outputs : TxIoVec ErgoBox;
}.

Inductive TxEvent := AppliedTx (tx : Transaction) (height : Z) | UnappliedTx (tx : Transaction) (height : Z).

Record ExtraErgoData := {
  starting_avl_tree : AvlTree;
  proof : list Z;
  max_miner_fee : Z;
  threshold : Threshold;
  vault_utxos : list BoxId;
}.

Record NotarizedReport := {
  certificate : AggregateCertificate;
  value_to_withdraw : list TermCell;
  authenticated_digest : list Z;
  additional_chain_data : ExtraErgoData;
}.

#[export] Instance Threshold_eq_dec : EqDecision Threshold.
Proof. solve_decision. Defined.

#[export] Instance certificate_eq_dec : EqDecision AggregateCertificate.
Proof. solve_decision. Defined.

#[export] Instance SValue_eq_dec : EqDecision SValue.
Proof. solve_decision. Defined.

#[export] Instance TermCell_eq_dec : EqDecision TermCell.
Proof. solve_decision. Defined.

#[export] Instance ExtraErgoData_eq_dec : EqDecision ExtraErgoData.
Proof. solve_decision. Defined.

#[export] Instance NotarizedReport_eq_dec : EqDecision NotarizedReport.
Proof. solve_decision. Defined.

#[export] Instance Owner_eq_dec : EqDecision Owner.
Proof. solve_decision. Defined.

#[export] Instance InboundValue_eq_dec : EqDecision InboundValue.
Proof. solve_decision. Defined.

Record WithdrawalInProgress := {
  wip_report : NotarizedReport;
  wip_signed_input : Input;
  wip_vault_utxo : ErgoBox;
  wip_timestamp : Z;
}.

Record DepositInProgress := {
  dip_deposits : list DepositBox;
  dip_signed_input : Input;
  dip_vault_utxo : ErgoBox;
  dip_timestamp : Z;
}.

Inductive TxInProgress := TWithdrawal (e : WithdrawalInProgress) | TDeposit (d : DepositInProgress).

Inductive PendingTxIdentifier := PWithdrawal (r : NotarizedReport) | PDeposit (l : list InboundValue).

(** Timestamps do not count in comparisons. *)
Definition tx_in_progress_eq (x y : TxInProgress) : bool :=
  match x, y with
  | TWithdrawal a, TWithdrawal b =>
    bool_decide (wip_report a = wip_report b) && bool_decide (wip_signed_input a = wip_signed_input b) &&
    bool_decide (wip_vault_utxo a = wip_vault_utxo b)
  | TDeposit a, TDeposit b =>
    bool_decide (dip_deposits a = dip_deposits b) && bool_decide (dip_signed_input a = dip_signed_input b) &&
    bool_decide (dip_vault_utxo a = dip_vault_utxo b)
  | _, _ => false
  end.

Definition get_timestamp (x : TxInProgress) : Z :=
  match x with TDeposit d => dip_timestamp d | TWithdrawal e => wip_timestamp e end.

Definition is_identified_by (x : TxInProgress) (t : PendingTxIdentifier) : outcome bool :=
  match x, t with
  | TWithdrawal e, PWithdrawal r => Done (bool_decide (wip_report e = r))
  | TDeposit d, PDeposit l => vs ← mapO (fun d => inbound_value_from d.2) (dip_deposits d); Done (bool_decide (vs = l))
  | _, _ => Done false
  end.

#[export] Instance tx_in_progress_trackable : Trackable TxInProgress PendingTxIdentifier :=
  {| tx_eq := tx_in_progress_eq; timestamp_of := get_timestamp; identified_by := is_identified_by |}.

Inductive TxStatus := WaitingForConfirmation | TxConfirmed | TxAborted.

Inductive PendingTxStatus :=
| PendingWithdrawal (identifier : NotarizedReport) (status : TxStatus)
| PendingDeposit (identifier : list InboundValue) (status : TxStatus).

Definition pending_of (t : TxInProgress) (status : TxStatus) : outcome PendingTxStatus :=
  match t with
  | TWithdrawal e => Done (PendingWithdrawal (wip_report e) status)
  | TDeposit d => vs ← mapO (fun d => inbound_value_from d.2) (dip_deposits d); Done (PendingDeposit vs status)
  end.

(** [From<Command<TxInProgress>> for Option<PendingTxStatus>] *)
Definition pending_from (value : Command TxInProgress) : outcome (option PendingTxStatus) :=
  match value with
  | ResubmitTx t | Wait _ t => p ← pending_of t WaitingForConfirmation; Done (Some p)
  | Abort t => p ← pending_of t TxAborted; Done (Some p)
  | ConfirmedTx t => p ← pending_of t TxConfirmed; Done (Some p)
  | Idle => Done None
  end.

Inductive ConnectorStatus :=
| Synced (current_progress_point : ProgressPoint) (pending : option PendingTxStatus)
| Syncing (current_progress_point : ProgressPoint) (num_points_remaining : Z) (pending : option PendingTxStatus).

Inductive VaultTx :=
| VWithdrawals (terminal_cells : list (ErgoTermCell * ErgoBox))
| VDeposits (deposits : list (ErgoInboundCell * BoxId)).

Definition get_pending_tx_status (s : ConnectorStatus) : option PendingTxStatus :=
  match s with Synced _ pending | Syncing _ _ pending => pending end.

Definition get_current_progress_point (s : ConnectorStatus) : ProgressPoint :=
  match s with Synced p _ | Syncing p _ _ => p end.

(** ** Values that reach the ledger *)

Record ConfirmedInboundValue := { ci_value : SValue; ci_owner : Owner; ci_tx_id : list Z }.

Definition confirmed_new (v : InboundValue) (tx_id : list Z) : ConfirmedInboundValue :=
  {| ci_value := iv_value v; ci_owner := iv_owner v; ci_tx_id := tx_id |}.

(** [From<ConfirmedInboundValue> for ActiveCell] *)
Definition active_cell_from (v : ConfirmedInboundValue) : ActiveCell :=
  {| value := ci_value v; owner := ci_owner v; datum := None; reference_script := None; reference_datum := None;
     Ledger.tx_id := ci_tx_id v; index := 0; ver := SERIAL_INITIAL |}.

(** ** The bridge to the chain: [data_bridge.rs] *)

(** What the crate [spectrum_offchain] reports: a transaction that is rolled back
    comes without a height. *)
Inductive LedgerTxEvent := LedgerApplied (tx : Transaction) (height : Z) | LedgerUnapplied (tx : Transaction).

Definition greatest_height (tx : Transaction) : Z :=
  foldl (fun acc x => if (acc <? bx_height x)%Z then bx_height x else acc) 0%Z (io_list (tx_outputs tx)).

Definition bridge_event (e : LedgerTxEvent) : TxEvent :=
  match e with
  | LedgerApplied tx height => AppliedTx tx height
  | LedgerUnapplied tx => UnappliedTx tx (greatest_height tx)
  end.

(** ** The history of events: the trait [ErgoTxEventHistory] *)

Class History (M : Type) := {
  hist_append : ErgoTxEvent -> M -> M;
  hist_get : Z -> M -> outcome (option (ErgoTxEvent * Z));
}.

#[export] Instance rocksdb_history `{!Serde ErgoTxEvent} : History Db :=
  {| hist_append := Events.append event_height; hist_get := Events.get event_height |}.

#[export] Instance memory_history : History (list ErgoTxEvent) :=
  {| hist_append := Events.mem_append; hist_get := fun h m => Done (Events.mem_get event_height h m) |}.
End Types.

Section Connector.
Context `{C : Curve, SG : !Schnorr, L : !ErgoLib, AT : AvlTrees, AE : EqDecision AvlTree}.
Context `{HO : HashOrder, BI : BigInts, SB : !SchnorrBytes, SH : Sha256, SI : !ScalarInts, B : Blake2b}.

(** The codecs of the keys and values of the stores. *)
Context (vault_codec withdrawal_codec : BoxRepo.KeyCodec BoxId).
Context `{!Serde VaultBox, !Serde ErgoBox, !Serde (UnprocessedDeposit DepositBox), !Serde (ProcessedDeposit DepositBox)}.
Context `{!Serde TxInProgress, !Serde Status}.
Context {M : Type} `{!History M}.

Record Connector := {
  vault_box_repo : Db;
  withdrawal_repo : Db;
  deposit_repo : Db;
  committee_data : CommitteeData;
  synced_block_heights : list Z;
  sync_starting_height : Z;
  moved_value_history : M;
  tx_retry_scheduler : Scheduler;
  vault_utxo_token_id : list Z;
  genesis_vault_utxo_box_id : option VaultUtxo;
}.

(** [ErgoConnector::new], on stores that may hold what an earlier run left. *)
Definition connector_new (vault_boxes withdrawals deposits : Db) (committee_guarding_script : ErgoTree) (committee_public_keys : list Point)
    (token_id : list Z) (data_inputs : TxIoVec ErgoBox) (starting_height : Z) (history : M) (scheduler : Scheduler) : outcome (option Connector) :=
  committee ← committee_new committee_guarding_script committee_public_keys data_inputs;
  Done (option_map (fun committee_data => {| vault_box_repo := vault_boxes; withdrawal_repo := withdrawals; deposit_repo := deposits;
    committee_data := committee_data; synced_block_heights := []; sync_starting_height := starting_height;
    moved_value_history := history; tx_retry_scheduler := scheduler; vault_utxo_token_id := token_id;
    genesis_vault_utxo_box_id := None |}) committee).

(** [AsBox::box_id] *)
Definition as_box_id {A} (b : ErgoBox * A) : BoxId := bx_id b.1.

(** ** Reading a transaction *)

Definition try_extract_vault_tx (c : Connector) (tx : Transaction) : outcome (option VaultTx) :=
  match vault_try_from_box (tx_outputs tx).1 (vault_utxo_token_id c) with
  | Some vault_utxo =>
    prev ← BoxRepo.get_confirmed (B := VaultBox) (KeyCodec0 := vault_codec) (in_box_id (tx_inputs tx).1) (vault_box_repo c);
    match prev with
    | Some bx =>
      if (vu_value vault_utxo <? bx_value bx.1)%Z then
        let outputs := io_list (tx_outputs tx) in
        if decide (length outputs < 2) then Panic else
        withdrawals ← mapO (fun bx => cell ← cell_from_box bx; Done ({| term_cell := cell |}, bx))
          (take (length outputs - 2) (drop 1 outputs));
        Done (Some (VWithdrawals withdrawals))
      else if (bx_value bx.1 <? vu_value vault_utxo)%Z then
        deposits ← mapO (fun deposit_input =>
            d ← Deposits.get_unprocessed (D := DepositBox) id (in_box_id deposit_input) (deposit_repo c);
            d ← unwrap d;
            Done ((unprocessed_box d).2, in_box_id deposit_input))
          (tx_inputs tx).2;
        Done (Some (VDeposits deposits))
      else Done None
    | None => Done None
    end
  | None => Done None
  end.

Definition try_extract_unprocessed_deposit (c : Connector) (bx : ErgoBox) : outcome (option (UnprocessedDeposit DepositBox)) :=
  if decide (bx_tree bx = DEPOSIT_CONTRACT) then
    valid_vault_token ← match bx_registers bx !! 4 with
      | Some (LCollByte bytes) =>
        if decide (length bytes = 32) then Done (bool_decide (((fun b => b mod 256)%Z <$> bytes) = vault_utxo_token_id c)) else Panic
      | _ => Done false
      end;
    if (valid_vault_token : bool) then
      match r5 ← bx_registers bx !! 5; prove_dlog_from r5 with
      | Some prove_dlog =>
        let cell := {| inbound_cell := {| ergs := bx_value bx; address := P2Pk prove_dlog; tokens := bx_tokens bx |}; inbound_id := bx_id bx |} in
        Done (Some {| unprocessed_box := (bx, cell) |})
      | None => Done None
      end
    else Done None
  else Done None.

(** ** [handle] *)

(** The vault box of the transaction takes the place of the one it spends. *)
Definition apply_vault (c : Connector) (tx : Transaction) : outcome (Connector * VaultUtxo) :=
  db ← BoxRepo.spend_box (KeyCodec0 := vault_codec) (in_box_id (tx_inputs tx).1) (vault_box_repo c);
  let vault_output := (tx_outputs tx).1 in
  vault_utxo ← unwrap (vault_try_from_box vault_output (vault_utxo_token_id c));
  Done (c <| vault_box_repo := BoxRepo.put_confirmed (KeyCodec0 := vault_codec) as_box_id (vault_output, vault_utxo) db |>, vault_utxo).

(** The transaction of the scheduler is confirmed if it spends the vault with the
    same signed input; [kind] is the signed input of a tracked transaction of
    the expected kind. *)
Definition confirm_tracked (kind : TxInProgress -> option Input) (ts_now : Z) (tx : Transaction) (c : Connector) : outcome Connector :=
  cmd ← next_command ts_now (tx_retry_scheduler c);
  match cmd with
  | ResubmitTx tx_in_progress | Wait _ tx_in_progress =>
    match kind tx_in_progress with
    | Some signed_input =>
      if decide (signed_input = (tx_inputs tx).1) then
        s ← notify_confirmed tx_in_progress (tx_retry_scheduler c); Done (c <| tx_retry_scheduler := s |>)
      else Done c
    | None => Panic
    end
  | _ => Done c
  end.

Definition withdrawal_input (t : TxInProgress) : option Input := match t with TWithdrawal e => Some (wip_signed_input e) | _ => None end.
Definition deposit_input (t : TxInProgress) : option Input := match t with TDeposit d => Some (dip_signed_input d) | _ => None end.

Definition vault_info (tx : Transaction) (height : Z) (vault_utxo : VaultUtxo) : VaultUtxo * AncillaryVaultInfo :=
  (vault_utxo, {| av_tx_id := tx_id tx; av_box_id := bx_id (tx_outputs tx).1; av_height := height |}).

Definition ergo_tx (tx : Transaction) (height : Z) (t : ErgoTxType) : SpectrumErgoTx :=
  {| progress_point := height; ergo_tx_id := tx_id tx; tx_type := t |}.

Definition append_event (e : ErgoTxEvent) (c : Connector) : Connector := c <| moved_value_history ::= hist_append e |>.

Definition applied_withdrawals (ts_now : Z) (fp : bool) (tx : Transaction) (height : Z) (cells : list (ErgoTermCell * ErgoBox)) (c : Connector) :
    outcome Connector :=
  cv ← apply_vault c tx;
  let '(c, vault_utxo) := cv in
  c ← foldO (fun c '(_, bx) =>
      let db := BoxRepo.put_confirmed (KeyCodec0 := withdrawal_codec) bx_id bx (withdrawal_repo c) in
      if BoxRepo.may_exist (KeyCodec0 := withdrawal_codec) fp (bx_id bx) db then Done (c <| withdrawal_repo := db |>) else Panic)
    cells c;
  c ← confirm_tracked withdrawal_input ts_now tx c;
  Done (append_event (Applied (ergo_tx tx height (Withdrawal cells.*1 (vault_info tx height vault_utxo)))) c).

Definition applied_deposits (ts_now : Z) (tx : Transaction) (height : Z) (deposits : list (ErgoInboundCell * BoxId)) (c : Connector) :
    outcome Connector :=
  cv ← apply_vault c tx;
  let '(c, vault_utxo) := cv in
  c ← foldO (fun c '(_, box_id) => db ← Deposits.process (D := DepositBox) id box_id (deposit_repo c); Done (c <| deposit_repo := db |>)) deposits c;
  c ← confirm_tracked deposit_input ts_now tx c;
  Done (append_event (Applied (ergo_tx tx height (Deposit deposits.*1 (vault_info tx height vault_utxo)))) c).

(** Refunded deposits, then new deposits and the genesis vault. *)
Definition applied_input (tx : Transaction) (height : Z) (c : Connector) (input : Input) : outcome Connector :=
  d ← Deposits.get_unprocessed (D := DepositBox) id (in_box_id input) (deposit_repo c);
  match d with
  | Some d =>
    let c := append_event (Applied (ergo_tx tx height (RefundedDeposit (unprocessed_box d).2))) c in
    db ← Deposits.remove_unprocessed id (in_box_id input) (deposit_repo c);
    Done (c <| deposit_repo := db |>)
  | None => Done c
  end.

Definition applied_output (tx : Transaction) (height : Z) (c : Connector) (output : ErgoBox) : outcome Connector :=
  d ← try_extract_unprocessed_deposit c output;
  match d with
  | Some d =>
    let c := c <| deposit_repo ::= Deposits.put id as_box_id d |> in
    Done (append_event (Applied (ergo_tx tx height (NewUnprocessedDeposit (unprocessed_box d).2))) c)
  | None =>
    match vault_try_from_box output (vault_utxo_token_id c) with
    | Some vault_utxo =>
      match genesis_vault_utxo_box_id c with
      | None => Done (c <| genesis_vault_utxo_box_id := Some vault_utxo |>
          <| vault_box_repo ::= BoxRepo.put_confirmed (KeyCodec0 := vault_codec) as_box_id (output, vault_utxo) |>)
      | Some _ => Panic
      end
    | None => Done c
    end
  end.

Definition applied_other (tx : Transaction) (height : Z) (c : Connector) : outcome Connector :=
  c ← foldO (applied_input tx height) (io_list (tx_inputs tx)) c;
  foldO (applied_output tx height) (io_list (tx_outputs tx)) c.

(** A new height goes to the back of a queue of at most [MAX_SYNCED_BLOCK_HEIGHTS]. *)
Definition push_height (height : Z) (heights : list Z) : list Z :=
  if (default 0%Z (last heights) <? height)%Z
  then (if decide (length heights = MAX_SYNCED_BLOCK_HEIGHTS) then drop 1 heights else heights) ++ [height]
  else heights.

Definition pop_height (height : Z) (heights : list Z) : list Z :=
  match last heights with
  | Some h => if decide (h = height) then take (length heights - 1) heights else heights
  | None => heights
  end.

(** The vault box before comes back. *)
Definition unapply_vault (c : Connector) (tx : Transaction) : Connector :=
  c <| vault_box_repo ::= fun db => BoxRepo.remove (KeyCodec0 := vault_codec) (bx_id (tx_outputs tx).1)
    (BoxRepo.unspend_box (KeyCodec0 := vault_codec) (in_box_id (tx_inputs tx).1) db) |>.

Definition unapplied_withdrawals (tx : Transaction) (height : Z) (cells : list (ErgoTermCell * ErgoBox)) (c : Connector) : outcome Connector :=
  let c := unapply_vault c tx in
  let c := foldl (fun c '(_, bx) => c <| withdrawal_repo ::= BoxRepo.remove (KeyCodec0 := withdrawal_codec) (bx_id bx) |>) c cells in
  vault_utxo ← unwrap (vault_try_from_box (tx_outputs tx).1 (vault_utxo_token_id c));
  Done (append_event (Unapplied (ergo_tx tx height (Withdrawal cells.*1 (vault_info tx height vault_utxo)))) c).

Definition unapplied_deposits (tx : Transaction) (height : Z) (deposits : list (ErgoInboundCell * BoxId)) (c : Connector) : outcome Connector :=
  let c := unapply_vault c tx in
  c ← foldO (fun c '(_, box_id) => db ← Deposits.unprocess (D := DepositBox) id box_id (deposit_repo c); Done (c <| deposit_repo := db |>)) deposits c;
  vault_utxo ← unwrap (vault_try_from_box (tx_outputs tx).1 (vault_utxo_token_id c));
  Done (append_event (Unapplied (ergo_tx tx height (Deposit deposits.*1 (vault_info tx height vault_utxo)))) c).

Definition unapplied_other (tx : Transaction) (c : Connector) : outcome Connector :=
  foldO (fun c output =>
      d ← try_extract_unprocessed_deposit c output;
      match d with
      | Some d => db ← Deposits.remove_unprocessed id (as_box_id (unprocessed_box d)) (deposit_repo c); Done (c <| deposit_repo := db |>)
      | None => Done c
      end)
    (io_list (tx_outputs tx)) c.

Definition handle (ts_now : Z) (fp : bool) (event : TxEvent) (c : Connector) : outcome Connector :=
  match event with
  | AppliedTx tx height =>
    v ← try_extract_vault_tx c tx;
    c ← match v with
      | Some (VWithdrawals cells) => applied_withdrawals ts_now fp tx height cells c
      | Some (VDeposits deposits) => applied_deposits ts_now tx height deposits c
      | None => applied_other tx height c
      end;
    Done (c <| synced_block_heights ::= push_height height |>)
  | UnappliedTx tx height =>
    v ← try_extract_vault_tx c tx;
    c ← match v with
      | Some (VWithdrawals cells) => unapplied_withdrawals tx height cells c
      | Some (VDeposits deposits) => unapplied_deposits tx height deposits c
      | None => unapplied_other tx c
      end;
    Done (c <| synced_block_heights ::= pop_height height |>)
  end.

(** ** Requests *)

(** What the node, the explorer and the wallet answer during a request. *)
Record Node := {
  node_height : Z;
  node_has_context : bool;
  sign_transaction : UnsignedTransaction -> list ErgoBox -> list ErgoBox -> option Transaction;
  submit_tx : Transaction -> bool;
  node_now : Z;
}.

Definition get_connector_status (ts_now current_height : Z) (c : Connector) : outcome ConnectorStatus :=
  let current_sync_height := default (sync_starting_height c) (last (synced_block_heights c)) in
  let point := {| chain_id := 0; point := current_sync_height |} in
  cmd ← next_command ts_now (tx_retry_scheduler c);
  pending ← pending_from cmd;
  if (current_sync_height <? current_height)%Z
  then Done (Syncing point (current_height - current_sync_height) pending)
  else Done (Synced point pending).

Definition is_syncing (s : ConnectorStatus) : bool := match s with Syncing _ _ _ => true | Synced _ _ => false end.

(** [n] is the number of events that still fit into the response. *)
Fixpoint sync_loop (n : nat) (height : Z) (c : Connector) : outcome (list ErgoTxEvent) :=
  match n with
  | 0 => Done []
  | S n =>
    r ← hist_get height (moved_value_history c);
    match r with
    | Some (mv, next_height) =>
      height ← checked 0 u32_max (next_height + 1);
      rest ← sync_loop n height c;
      Done (mv :: rest)
    | None => Done []
    end
  end.

Definition sync_consensus_driver (from_height : option Z) (c : Connector) : outcome (list ErgoTxEvent) :=
  height ← match from_height with Some h => checked 0 u32_max (h + 1) | None => Done (sync_starting_height c) end;
  sync_loop MAX_MOVED_VALUES_PER_RESPONSE height c.

Definition data_boxes (c : Connector) : list ErgoBox :=
  (first_box (committee_data c)).1 :: match subsequent_boxes (committee_data c) with Some boxes => fst <$> io_list boxes | None => [] end.

Definition process_deposits (is_resubmission : bool) (node : Node) (c : Connector) : outcome (Connector * bool) :=
  let current_height := node_height node in
  status ← get_connector_status (node_now node) current_height c;
  if is_syncing status then Done (c, false) else
  confirmed ← BoxRepo.get_all_confirmed (B := VaultBox) (KeyCodec0 := vault_codec) as_box_id (vault_box_repo c);
  first ← unwrap (confirmed !! 0);
  let vault_utxo := first.1 in
  unprocessed_deposits ← Deposits.get_all_unprocessed_deposits (D := DepositBox) (deposit_repo c);
  let deposits := unprocessed_box <$> unprocessed_deposits in
  unsigned_tx ← deposit_tx vault_utxo deposits (vault_utxo_token_id c) (data_boxes c) current_height;
  if node_has_context node then
    signed_tx ← unwrap (sign_transaction node unsigned_tx (vault_utxo :: deposits.*1) (data_boxes c));
    let deposit := TDeposit {| dip_deposits := deposits; dip_signed_input := (tx_inputs signed_tx).1;
      dip_vault_utxo := vault_utxo; dip_timestamp := node_now node |} in
    if submit_tx node signed_tx then
      let vault_output_utxo := (tx_outputs signed_tx).1 in
      v ← unwrap (vault_try_from_box vault_output_utxo (vault_utxo_token_id c));
      let c := c <| vault_box_repo ::= BoxRepo.put_predicted (KeyCodec0 := vault_codec) as_box_id (vault_output_utxo, v) |> in
      let c := foldl (fun c d => c <| deposit_repo ::= Deposits.put id as_box_id d |>) c unprocessed_deposits in
      if is_resubmission then Done (c, true)
      else s ← scheduler_add deposit (tx_retry_scheduler c); Done (c <| tx_retry_scheduler := s |>, true)
    else if is_resubmission then s ← notify_failed deposit (tx_retry_scheduler c); Done (c <| tx_retry_scheduler := s |>, false)
    else Done (c, false)
  else Panic.

(** [From<NotarizedReport> for SignatureAggregationWithNotarizationElements] *)
Definition notarization_elements (report : NotarizedReport) : outcome NotarizationElements :=
  cells ← mapO (fun tc => match term_cell_try_from tc with inl c => Done c | inr _ => Panic end) (value_to_withdraw report);
  let cert := certificate report in
  let extra := additional_chain_data report in
  Done {| ne_aggregate_commitment := cert_aggregate_commitment cert; ne_aggregate_response := cert_aggregate_response cert;
    ne_exclusion_set := cert_exclusion_set cert; ne_threshold := threshold extra; ne_starting_avl_tree := starting_avl_tree extra;
    ne_proof := proof extra; ne_resulting_digest := authenticated_digest report; ne_terminal_cells := cells;
    ne_max_miner_fee := max_miner_fee extra |}.

Definition withdraw_value (report : NotarizedReport) (is_resubmission : bool) (vault_utxo : ErgoBox) (node : Node) (c : Connector) :
    outcome (Connector * bool) :=
  let current_height := node_height node in
  status ← get_connector_status (node_now node) current_height c;
  if is_syncing status then Done (c, false) else
  inputs ← notarization_elements report;
  if node_has_context node then
    unsigned_tx ← withdrawal_tx inputs (committee_size (committee_data c)) vault_utxo (vault_utxo_token_id c) (data_boxes c) current_height;
    signed_tx ← unwrap (sign_transaction node unsigned_tx [vault_utxo] (data_boxes c));
    let outputs := io_list (tx_outputs signed_tx) in
    if decide (length outputs < 2) then Panic else
    let vault_output_utxo := (tx_outputs signed_tx).1 in
    let withdrawals := take (length outputs - 2) (drop 1 outputs) in
    let withdrawal := TWithdrawal {| wip_report := report; wip_signed_input := (tx_inputs signed_tx).1;
      wip_vault_utxo := vault_utxo; wip_timestamp := node_now node |} in
    if submit_tx node signed_tx then
      v ← unwrap (vault_try_from_box vault_output_utxo (vault_utxo_token_id c));
      let c := c <| vault_box_repo ::= BoxRepo.put_predicted (KeyCodec0 := vault_codec) as_box_id (vault_output_utxo, v) |> in
      let c := foldl (fun c w => c <| withdrawal_repo ::= BoxRepo.put_predicted (KeyCodec0 := withdrawal_codec) bx_id w |>) c withdrawals in
      if is_resubmission then Done (c, true)
      else s ← scheduler_add withdrawal (tx_retry_scheduler c); Done (c <| tx_retry_scheduler := s |>, true)
    else if is_resubmission then s ← notify_failed withdrawal (tx_retry_scheduler c); Done (c <| tx_retry_scheduler := s |>, false)
    else Done (c, false)
  else Panic.

Definition handle_tx_resubmission (node : Node) (c : Connector) : outcome Connector :=
  cmd ← next_command (node_now node) (tx_retry_scheduler c);
  match cmd with
  | ResubmitTx (TWithdrawal e) => r ← withdraw_value (wip_report e) true (wip_vault_utxo e) node c; Done r.1
  | ResubmitTx (TDeposit _) => r ← process_deposits true node c; Done r.1
  | _ => Done c
  end.

Definition acknowledge_confirmed_tx (data : PendingTxIdentifier) (c : Connector) : outcome Connector :=
  s ← clear_tx RetryScheduler.Confirmed data (tx_retry_scheduler c); Done (c <| tx_retry_scheduler := s |>).

Definition acknowledge_aborted_tx (data : PendingTxIdentifier) (c : Connector) : outcome Connector :=
  s ← clear_tx Aborted data (tx_retry_scheduler c); Done (c <| tx_retry_scheduler := s |>).

(** ** The loop of [main.rs] *)

Inductive ConnectorRequest :=
| SyncFrom (p : option ProgressPoint)
| RequestTxsToNotarize (cells : list ProtoTermCell) (byzantine : nat) (too_big : nat -> nat -> nat -> bool)
| ValidateAndProcessWithdrawals (report : NotarizedReport)
| ProcessDeposits
| AcknowledgeConfirmedTx (data : PendingTxIdentifier) (p : ProgressPoint)
| AcknowledgeAbortedTx (data : PendingTxIdentifier) (p : ProgressPoint)
| RotateCommittee
| Disconnect.

Inductive ConnectorMsgOut :=
| MTxEvent (e : ChainTxEvent)
| ProposedTxsToNotarize (vault_utxos : list BoxId) (terminal_cell_bound : nat)
| GenesisVaultUtxo (v : SValue).

(** [u64::from(p.point) as u32] *)
Definition point_u32 (p : ProgressPoint) : Z := (point p mod (u32_max + 1))%Z.

(** [random i] is what is drawn for message [i]. *)
Definition sync_messages (random : nat -> nat -> list Z) (from : option Z) (c : Connector) : outcome (list ConnectorMsgOut) :=
  evs ← sync_consensus_driver from c;
  mapO (fun '(i, e) => m ← chain_event_from (random i) e; Done (MTxEvent m)) (imap pair evs).

(** A request of the driver, with [explorer] for [get_box]; the response is a
    status, for the height the loop itself asks the node for, and messages. *)
Definition handle_request (random : nat -> nat -> list Z) (explorer : BoxId -> option ErgoBox) (current_height : Z) (node : Node) (request : ConnectorRequest) (c : Connector) :
    outcome (Connector * (ConnectorStatus * list ConnectorMsgOut)) :=
  let respond c messages := (status ← get_connector_status (node_now node) current_height c; Done (c, (status, messages))) in
  match request with
  | ValidateAndProcessWithdrawals report =>
    id ← unwrap (vault_utxos (additional_chain_data report) !! 0);
    vault_utxo ← unwrap (explorer id);
    r ← withdraw_value report false vault_utxo node c;
    respond r.1 []
  | ProcessDeposits => r ← process_deposits false node c; respond r.1 []
  | RequestTxsToNotarize cells byzantine too_big =>
    r ← collect too_big vault_codec byzantine cells (vault_box_repo c);
    respond c [ProposedTxsToNotarize (bx_id <$> r.1) r.2]
  | SyncFrom p =>
    messages ← sync_messages random (point_u32 <$> p) c;
    respond c (messages ++
      match genesis_vault_utxo_box_id c, p with Some v, None => [GenesisVaultUtxo (svalue_from_vault v)] | _, _ => [] end)
  | AcknowledgeConfirmedTx data p =>
    c ← acknowledge_confirmed_tx data c;
    messages ← sync_messages random (Some (point_u32 p)) c;
    respond c messages
  | AcknowledgeAbortedTx data p =>
    c ← acknowledge_aborted_tx data c;
    messages ← sync_messages random (Some (point_u32 p)) c;
    respond c messages
  | RotateCommittee | Disconnect => Panic
  end.
End Connector.
