(* ===== verification/ErgoSafety.v ===== *)
(** * What the Ergo connector guarantees

    Properties of [ErgoConnector] over the stores it keeps: the abstract state
    of the stores, how transactions of the chain change it, rollbacks, what the
    driver is sent, and the composition with the contracts of the vault. *)

From S2P Require Import SigmaAggregation Ledger Crypto SigmaCrypto Algebra Prelude KvStore RetryScheduler ErgoStores ErgoBoxes ErgoContracts ErgoCells ErgoTx VaultSelection ErgoConnector.

Section Safety.
Context `{C : Curve, SG : !Schnorr, L : !ErgoLib, AT : AvlTrees, AE : EqDecision AvlTree}.
Context (vault_codec withdrawal_codec : BoxRepo.KeyCodec BoxId).
Context `{!Serde VaultBox, !Serde ErgoBox, !Serde (UnprocessedDeposit DepositBox), !Serde (ProcessedDeposit DepositBox)}.
Context `{!Serde TxInProgress, !Serde Status}.
Context `{!SerdeLaws VaultBox, !SerdeLaws ErgoBox, !SerdeLaws (UnprocessedDeposit DepositBox), !SerdeLaws (ProcessedDeposit DepositBox)}.
Context `{!KeySpaces (BoxRepo.key (KeyCodec0 := vault_codec)), !KeySpaces (BoxRepo.key (KeyCodec0 := withdrawal_codec))}.
Context {M : Type} `{!History M}.

Abbreviation Connector := (Connector (M := M)).
Abbreviation handle := (handle vault_codec withdrawal_codec).

(** ** The stores *)

Record Stores := {
  a_vault : BoxRepo.Repo (B := VaultBox) (I := BoxId);
  a_withdrawals : BoxRepo.Repo (B := ErgoBox) (I := BoxId);
  a_deposits : Deposits.Repo (D := DepositBox) (I := BoxId);
}.

Record stores (c : Connector) (a : Stores) : Prop := {
  st_vault : BoxRepo.holds (KeyCodec0 := vault_codec) as_box_id (vault_box_repo c) (a_vault a);
  st_withdrawals : BoxRepo.holds (KeyCodec0 := withdrawal_codec) bx_id (withdrawal_repo c) (a_withdrawals a);
  st_deposits : Deposits.holds id (deposit_repo c) (a_deposits a);
}.

(** What a transaction does, read from the abstract stores. *)
Definition spec_extract (token : list Z) (a : Stores) (tx : Transaction) : outcome (option VaultTx) :=
  match vault_try_from_box (tx_outputs tx).1 token with
  | Some vault_utxo =>
    match BoxRepo.confirmed (a_vault a) !! in_box_id (tx_inputs tx).1 with
    | Some bx =>
      if (vu_value vault_utxo <? bx_value bx.1)%Z then
        let outputs := io_list (tx_outputs tx) in
        if decide (length outputs < 2) then Panic else
        withdrawals ← mapO (fun bx => cell ← cell_from_box bx; Done ({| term_cell := cell |}, bx))
          (take (length outputs - 2) (drop 1 outputs));
        Done (Some (VWithdrawals withdrawals))
      else if (bx_value bx.1 <? vu_value vault_utxo)%Z then
        deposits ← mapO (fun i => d ← unwrap (Deposits.unprocessed (a_deposits a) !! in_box_id i); Done (d.2, in_box_id i)) (tx_inputs tx).2;
        Done (Some (VDeposits deposits))
      else Done None
    | None => Done None
    end
  | None => Done None
  end.

Lemma mapO_ext {A B} (f g : A -> outcome B) l : (forall x, f x = g x) -> mapO f l = mapO g l.
Proof. intros Hfg. induction l as [|x l IH]; [done|]. cbn. by rewrite Hfg, IH. Qed.

Lemma extract_spec c a tx : stores c a ->
  try_extract_vault_tx vault_codec c tx = spec_extract (vault_utxo_token_id c) a tx.
Proof.
  intros [Hv _ Hd]. unfold try_extract_vault_tx, spec_extract. destruct (vault_try_from_box _ _) as [vu|]; [|done].
  rewrite (BoxRepo.get_confirmed_spec as_box_id _ _ _ Hv). outcome_cbn. destruct (BoxRepo.confirmed _ !! _) as [bx|]; [|done].
  destruct (_ <? _)%Z; [done|]. destruct (_ <? _)%Z; [|done]. f_equal. apply mapO_ext. intros i.
  rewrite (Deposits.get_unprocessed_spec id _ _ _ Hd). outcome_cbn. by destruct (Deposits.unprocessed _ !! _).
Qed.

(** The parts of the connector that a step on the stores leaves alone. *)
Record same_config (c c' : Connector) : Prop := {
  sc_token : vault_utxo_token_id c' = vault_utxo_token_id c;
  sc_committee : committee_data c' = committee_data c;
  sc_heights : synced_block_heights c' = synced_block_heights c;
  sc_start : sync_starting_height c' = sync_starting_height c;
}.

#[local] Instance same_config_refl : Reflexive same_config.
Proof. by intros c; split. Qed.

#[local] Instance same_config_trans : Transitive same_config.
Proof. intros c1 c2 c3 [] []. split; congruence. Qed.

(** The box that [b] replaces is spent. *)
Definition move_vault (spent_id : BoxId) (b : VaultBox) (r : BoxRepo.Repo (B := VaultBox) (I := BoxId)) :=
  BoxRepo.spec_put_confirmed as_box_id b {| BoxRepo.confirmed := BoxRepo.confirmed r; BoxRepo.predicted := BoxRepo.predicted r;
    BoxRepo.index := BoxRepo.index r; BoxRepo.spent := <[spent_id := tt]> (BoxRepo.spent r) |}.

Lemma apply_vault_spec c a tx c' vu : stores c a -> apply_vault vault_codec c tx = Done (c', vu) ->
  vault_try_from_box (tx_outputs tx).1 (vault_utxo_token_id c) = Some vu /\ same_config c c' /\
  stores c' (a <| a_vault ::= move_vault (in_box_id (tx_inputs tx).1) ((tx_outputs tx).1, vu) |>).
Proof.
  intros [Hv Hw Hd] Ha. unfold apply_vault in Ha.
  pose proof (BoxRepo.spend_box_spec as_box_id (in_box_id (tx_inputs tx).1) _ _ Hv) as Hs.
  apply bind_Done in Ha as (db & Hdb & Ha). rewrite Hdb in Hs. bind_inv. simplify_eq.
  destruct (BoxRepo.spec_spend _ _) as [r| |] eqn:Er; [|done..]. split_and!; [done|by split|]. split; cbn; [|done..].
  unfold BoxRepo.spec_spend in Er. case_bool_decide; [|done]. injection Er as <-.
  unfold move_vault. by apply (BoxRepo.put_confirmed_spec as_box_id).
Qed.

Lemma confirm_tracked_same kind now tx c c' a : stores c a -> confirm_tracked kind now tx c = Done c' -> stores c' a /\ same_config c c'.
Proof.
  intros [Hv Hw Hd] Hc. unfold confirm_tracked in Hc. apply bind_Done in Hc as (cmd & _ & Hc).
  assert (forall (tip : TxInProgress) s, c' = c <| tx_retry_scheduler := s |> -> stores c' a /\ same_config c c') as Hsame.
  { intros _ s ->. split; by split. }
  destruct cmd as [t|t|w t|t|]; try (injection Hc as <-; split; by split);
    (destruct (kind t); [|done]; case_decide; [bind_inv; by apply (Hsame t v)|injection Hc as <-; split; by split]).
Qed.

Lemma append_event_same e c a : stores c a -> stores (append_event e c) a /\ same_config c (append_event e c).
Proof. intros [Hv Hw Hd]. split; by split. Qed.

(** The withdrawals of a transaction are recorded. *)
Lemma put_withdrawals_spec fp cells c a c' : stores c a ->
  foldO (fun (c : Connector) '((_, bx) : ErgoTermCell * ErgoBox) =>
      let db := BoxRepo.put_confirmed (KeyCodec0 := withdrawal_codec) bx_id bx (withdrawal_repo c) in
      if BoxRepo.may_exist (KeyCodec0 := withdrawal_codec) fp (bx_id bx) db then Done (c <| withdrawal_repo := db |>) else Panic)
    cells c = Done c' ->
  stores c' (a <| a_withdrawals ::= fun r => foldl (fun r bx => BoxRepo.spec_put_confirmed bx_id bx r) r cells.*2 |>) /\ same_config c c'.
Proof.
  revert c a. induction cells as [|[cell bx] cells IH]; intros c a Hs Hf; cbn [foldO fmap list_fmap foldl snd] in *.
  - injection Hf as <-. destruct Hs as [Hv Hw Hd]. split; by split.
  - destruct (BoxRepo.may_exist _ _ _); [|done]. outcome_cbn in Hf. destruct Hs as [Hv Hw Hd].
    destruct (IH (c <| withdrawal_repo := BoxRepo.put_confirmed (KeyCodec0 := withdrawal_codec) bx_id bx (withdrawal_repo c) |>)
      (a <| a_withdrawals ::= BoxRepo.spec_put_confirmed bx_id bx |>)) as [Hs' Hc']; [|done|].
    + split; cbn; [done| |done]. by apply (BoxRepo.put_confirmed_spec bx_id).
    + split; [exact Hs'|]. etransitivity; [|exact Hc']. by split.
Qed.

(** Applying a withdrawal: the vault box it spends is spent, the new vault
    box is confirmed, the boxes paid to the users are recorded and the deposits
    stay as they are. *)
Lemma applied_withdrawal_stores c a now fp tx height cells c' :
  stores c a -> spec_extract (vault_utxo_token_id c) a tx = Done (Some (VWithdrawals cells)) -> handle now fp (AppliedTx tx height) c = Done c' ->
  exists vu, vault_try_from_box (tx_outputs tx).1 (vault_utxo_token_id c) = Some vu /\
    vault_utxo_token_id c' = vault_utxo_token_id c /\
    stores c' {| a_vault := move_vault (in_box_id (tx_inputs tx).1) ((tx_outputs tx).1, vu) (a_vault a);
      a_withdrawals := foldl (fun r bx => BoxRepo.spec_put_confirmed bx_id bx r) (a_withdrawals a) cells.*2; a_deposits := a_deposits a |}.
Proof.
  intros Hs Hx Hh. unfold handle in Hh. rewrite (extract_spec _ _ _ Hs), Hx in Hh. outcome_cbn in Hh. apply bind_Done in Hh as (c1 & Ha & Hh).
  unfold applied_withdrawals in Ha. apply bind_Done in Ha as ([c2 vu] & Hav & Ha). destruct (apply_vault_spec _ _ _ _ _ Hs Hav) as (Hvu & Hc2 & Hs2).
  apply bind_Done in Ha as (c3 & Hp & Ha). destruct (put_withdrawals_spec _ _ _ _ _ Hs2 Hp) as [Hs3 Hc3].
  apply bind_Done in Ha as (c4 & Hct & Ha). destruct (confirm_tracked_same _ _ _ _ _ _ Hs3 Hct) as [Hs4 Hc4]. injection Ha as <-.
  destruct (append_event_same (Applied (ergo_tx tx height (Withdrawal cells.*1 (vault_info tx height vu)))) _ _ Hs4) as [Hs5 _].
  injection Hh as <-. exists vu. split_and!; [done| |by destruct Hs5].
  cbn. by rewrite (sc_token _ _ Hc4), (sc_token _ _ Hc3), (sc_token _ _ Hc2).
Qed.

Definition process_all (ids : list BoxId) (r : Deposits.Repo (D := DepositBox) (I := BoxId)) := foldO (fun r i => Deposits.spec_process i r) ids r.

Lemma process_deposits_spec deposits c a c' : stores c a ->
  foldO (fun (c : Connector) '((_, box_id) : ErgoInboundCell * BoxId) =>
      db ← Deposits.process (D := DepositBox) id box_id (deposit_repo c); Done (c <| deposit_repo := db |>)) deposits c = Done c' ->
  exists r, process_all deposits.*2 (a_deposits a) = Done r /\ stores c' (a <| a_deposits := r |>) /\ same_config c c'.
Proof.
  unfold process_all. revert c a. induction deposits as [|[cell i] deposits IH]; intros c a Hs Hf; cbn [foldO fmap list_fmap snd] in *.
  - injection Hf as <-. exists (a_deposits a). split; [done|]. destruct Hs as [Hv Hw Hd]. split; by split.
  - apply bind_Done in Hf as (c1 & Hc1 & Hf). bind_inv. subst c1. destruct Hs as [Hv' Hw Hd].
    pose proof (Deposits.process_spec id ltac:(done) i _ _ Hd) as Hp. rewrite Hv in Hp.
    destruct (Deposits.spec_process i (a_deposits a)) as [r1| |] eqn:Er; [|done..]. outcome_cbn.
    destruct (IH (c <| deposit_repo := v |>) (a <| a_deposits := r1 |>)) as (r & Hr & Hs' & Hc'); [by split|done|].
    exists r. split; [exact Hr|]. split; [exact Hs'|]. etransitivity; [|exact Hc']. by split.
Qed.

(** What was processed is not unprocessed. *)
Lemma process_all_gone ids r r' : process_all ids r = Done r' ->
  (forall i, Deposits.unprocessed r !! i = None -> Deposits.unprocessed r' !! i = None) /\ Forall (fun i => Deposits.unprocessed r' !! i = None) ids.
Proof.
  unfold process_all. revert r. induction ids as [|i ids IH]; intros r Hf; cbn [foldO] in Hf.
  - injection Hf as <-. by split.
  - apply bind_Done in Hf as (r1 & Hr & Hf). destruct (IH _ Hf) as [Hkeep Hgone]. unfold Deposits.spec_process in Hr. bind_inv. subst r1. split.
    + intros j Hj. apply Hkeep. cbn. destruct (decide (i = j)) as [<-|]; [by rewrite lookup_delete_eq|by rewrite lookup_delete_ne].
    + constructor; [|done]. apply Hkeep. cbn. by rewrite lookup_delete_eq.
Qed.

Lemma applied_deposit_stores c a now fp tx height deposits c' :
  stores c a -> spec_extract (vault_utxo_token_id c) a tx = Done (Some (VDeposits deposits)) -> handle now fp (AppliedTx tx height) c = Done c' ->
  exists vu r, vault_try_from_box (tx_outputs tx).1 (vault_utxo_token_id c) = Some vu /\ process_all deposits.*2 (a_deposits a) = Done r /\
    vault_utxo_token_id c' = vault_utxo_token_id c /\
    stores c' {| a_vault := move_vault (in_box_id (tx_inputs tx).1) ((tx_outputs tx).1, vu) (a_vault a);
      a_withdrawals := a_withdrawals a; a_deposits := r |}.
Proof.
  intros Hs Hx Hh. unfold handle in Hh. rewrite (extract_spec _ _ _ Hs), Hx in Hh. outcome_cbn in Hh. apply bind_Done in Hh as (c1 & Ha & Hh).
  unfold applied_deposits in Ha. apply bind_Done in Ha as ([c2 vu] & Hav & Ha). destruct (apply_vault_spec _ _ _ _ _ Hs Hav) as (Hvu & Hc2 & Hs2).
  apply bind_Done in Ha as (c3 & Hp & Ha). destruct (process_deposits_spec _ _ _ _ Hs2 Hp) as (r & Hr & Hs3 & Hc3).
  apply bind_Done in Ha as (c4 & Hct & Ha). destruct (confirm_tracked_same _ _ _ _ _ _ Hs3 Hct) as [Hs4 Hc4]. injection Ha as <-.
  destruct (append_event_same (Applied (ergo_tx tx height (Deposit deposits.*1 (vault_info tx height vu)))) _ _ Hs4) as [Hs5 Hc5].
  injection Hh as <-. exists vu, r. split_and!; [done..| |by destruct Hs5].
  cbn. by rewrite (sc_token _ _ Hc4), (sc_token _ _ Hc3), (sc_token _ _ Hc2).
Qed.

(** Rolling back a deposit transaction that was applied panics: the deposits
    it spends are processed by then, and reading the transaction again looks
    for them among the unprocessed ones. *)
Theorem deposit_rollback_panics c a now now' fp fp' tx height height' deposits c' :
  stores c a -> spec_extract (vault_utxo_token_id c) a tx = Done (Some (VDeposits deposits)) -> (tx_inputs tx).2 <> [] ->
  bx_id (tx_outputs tx).1 <> in_box_id (tx_inputs tx).1 ->
  handle now fp (AppliedTx tx height) c = Done c' -> handle now' fp' (UnappliedTx tx height') c' = Panic.
Proof.
  intros Hs Hx Hne Hid Hh. destruct (applied_deposit_stores _ _ _ _ _ _ _ _ Hs Hx Hh) as (vu & r & Hvu & Hr & Htok & Hs').
  destruct (process_all_gone _ _ _ Hr) as [_ Hgone].
  enough (spec_extract (vault_utxo_token_id c') {| a_vault := move_vault (in_box_id (tx_inputs tx).1) ((tx_outputs tx).1, vu) (a_vault a);
    a_withdrawals := a_withdrawals a; a_deposits := r |} tx = Panic) as Hp.
  { unfold handle. by rewrite (extract_spec _ _ _ Hs'), Hp. }
  unfold spec_extract in *. rewrite Htok. rewrite Hvu in *. cbn [a_vault a_deposits move_vault].
  destruct (BoxRepo.confirmed (a_vault a) !! in_box_id (tx_inputs tx).1) as [bx|] eqn:Hbx; [|done]. cbn.
  rewrite lookup_insert_ne by done. rewrite Hbx. destruct (vu_value vu <? bx_value bx.1)%Z; [case_decide; [done|bind_inv; done]|].
  destruct (bx_value bx.1 <? vu_value vu)%Z; [|done]. bind_inv. destruct (tx_inputs tx).2 as [|i rest]; [done|]. cbn [mapO] in *.
  bind_inv. simplify_eq. cbn in Hgone. apply Forall_cons in Hgone as [-> _]. done.
Qed.

(** *** Withdrawals are undone *)

Lemma remove_withdrawals_spec cells c a : stores c a ->
  let c' := foldl (fun (c : Connector) '((_, bx) : ErgoTermCell * ErgoBox) =>
    c <| withdrawal_repo ::= BoxRepo.remove (KeyCodec0 := withdrawal_codec) (bx_id bx) |>) c cells in
  stores c' (a <| a_withdrawals ::= fun r => foldl (fun r bx => BoxRepo.spec_remove (bx_id bx) r) r cells.*2 |>) /\ same_config c c'.
Proof.
  revert c a. induction cells as [|[cell bx] cells IH]; intros c a Hs; cbn [foldl fmap list_fmap snd].
  - destruct Hs as [Hv Hw Hd]. split; by split.
  - destruct Hs as [Hv Hw Hd].
    destruct (IH (c <| withdrawal_repo ::= BoxRepo.remove (KeyCodec0 := withdrawal_codec) (bx_id bx) |>)
      (a <| a_withdrawals ::= BoxRepo.spec_remove (bx_id bx) |>)) as [Hs' Hc'].
    + split; cbn; [done| |done]. by apply (BoxRepo.remove_spec bx_id).
    + split; [exact Hs'|]. etransitivity; [|exact Hc']. by split.
Qed.

Lemma unapply_vault_spec c a tx : stores c a ->
  stores (unapply_vault vault_codec c tx) (a <| a_vault ::= fun r => BoxRepo.spec_remove (bx_id (tx_outputs tx).1)
    (BoxRepo.spec_unspend (in_box_id (tx_inputs tx).1) r) |>) /\ same_config c (unapply_vault vault_codec c tx).
Proof.
  intros [Hv Hw Hd]. split; [|by split]. split; cbn; [|done..].
  by apply (BoxRepo.remove_spec as_box_id), (BoxRepo.unspend_box_spec as_box_id).
Qed.

Lemma move_vault_undone i b r : BoxRepo.confirmed r !! as_box_id b = None -> BoxRepo.spent r !! i = None ->
  let r' := BoxRepo.spec_remove (as_box_id b) (BoxRepo.spec_unspend i (move_vault i b r)) in
  BoxRepo.confirmed r' = BoxRepo.confirmed r /\ BoxRepo.spent r' = BoxRepo.spent r /\ BoxRepo.predicted r' = BoxRepo.predicted r.
Proof.
  intros Hb Hi. unfold BoxRepo.spec_remove, BoxRepo.spec_unspend, move_vault, BoxRepo.spec_put_confirmed. cbn.
  rewrite lookup_insert_eq. cbn. split_and!; [by rewrite delete_insert_id|by rewrite delete_insert_id|done].
Qed.

Abbreviation WRepo := (BoxRepo.Repo (B := ErgoBox) (I := BoxId)).

Lemma put_all_index (l : list ErgoBox) (r : WRepo) i :
  i ∈ bx_id <$> l \/ BoxRepo.index r !! i = Some (BoxRepo.Confirmed, i) ->
  BoxRepo.index (foldl (fun r bx => BoxRepo.spec_put_confirmed bx_id bx r) r l) !! i = Some (BoxRepo.Confirmed, i).
Proof.
  revert r. induction l as [|bx l IH]; intros r Hi; cbn [foldl fmap list_fmap] in *; [set_solver|]. apply IH.
  rewrite elem_of_cons in Hi. destruct (decide (i = bx_id bx)) as [->|Hne]; [right; apply lookup_insert_eq|].
  destruct Hi as [[?|?]|Hi]; [done|by left|right]. cbn. by rewrite lookup_insert_ne.
Qed.

Definition removed (r : WRepo) (i : BoxId) : Prop := BoxRepo.index r !! i = None /\ BoxRepo.confirmed r !! i = None.

Lemma spec_remove_removed (r : WRepo) i j : removed r i \/ (BoxRepo.index r !! i = Some (BoxRepo.Confirmed, i)) ->
  removed (BoxRepo.spec_remove j r) i \/ (i <> j /\ BoxRepo.index (BoxRepo.spec_remove j r) !! i = Some (BoxRepo.Confirmed, i)).
Proof.
  unfold BoxRepo.spec_remove, removed. intros Hi. destruct (decide (i = j)) as [<-|Hne].
  - left. destruct Hi as [[Hi Hc]|Hi]; rewrite Hi; [done|]. cbn. by rewrite !lookup_delete_eq.
  - destruct (BoxRepo.index r !! j) as [[[] k]|]; cbn; rewrite ?lookup_delete_ne by done; naive_solver.
Qed.

Lemma remove_all_removed (l : list ErgoBox) (r : WRepo) i : i ∈ bx_id <$> l -> removed r i \/ BoxRepo.index r !! i = Some (BoxRepo.Confirmed, i) ->
  removed (foldl (fun r bx => BoxRepo.spec_remove (bx_id bx) r) r l) i.
Proof.
  assert (forall l r, removed r i -> removed (foldl (fun r bx => BoxRepo.spec_remove (bx_id bx) r) r l) i) as Hkeep.
  { clear. induction l as [|bx l IH]; intros r Hr; [done|]. cbn. apply IH. unfold removed, BoxRepo.spec_remove in *.
    destruct (BoxRepo.index r !! bx_id bx) as [[[] k]|]; cbn; destruct Hr; try done; split; try done; rewrite ?lookup_delete_None; auto. }
  revert r. induction l as [|bx l IH]; intros r Hi Hr; [by apply elem_of_nil in Hi|]. cbn [foldl].
  destruct (spec_remove_removed r i (bx_id bx) Hr) as [Hg|[Hne Hg]]; [by apply Hkeep|].
  rewrite fmap_cons, elem_of_cons in Hi. apply IH; [by destruct Hi|by right].
Qed.

(** C32: rolling back a withdrawal undoes it: after a withdrawal was applied and
    then unapplied the vault boxes that are confirmed, spent and predicted are
    those from before, so are the deposits, and no box paid to a user is
    confirmed any more. *)
Theorem withdrawal_rollback c a now now' fp fp' tx height height' cells c' :
  stores c a -> spec_extract (vault_utxo_token_id c) a tx = Done (Some (VWithdrawals cells)) ->
  BoxRepo.confirmed (a_vault a) !! bx_id (tx_outputs tx).1 = None -> BoxRepo.spent (a_vault a) !! in_box_id (tx_inputs tx).1 = None ->
  handle now fp (AppliedTx tx height) c = Done c' ->
  exists c'' a'', handle now' fp' (UnappliedTx tx height') c' = Done c'' /\ stores c'' a'' /\ a_deposits a'' = a_deposits a /\
    BoxRepo.confirmed (a_vault a'') = BoxRepo.confirmed (a_vault a) /\ BoxRepo.spent (a_vault a'') = BoxRepo.spent (a_vault a) /\
    BoxRepo.predicted (a_vault a'') = BoxRepo.predicted (a_vault a) /\
    Forall (fun bx => BoxRepo.confirmed (a_withdrawals a'') !! bx_id bx = None) cells.*2.
Proof.
  intros Hs Hx Hfresh Hspent Hh. destruct (applied_withdrawal_stores _ _ _ _ _ _ _ _ Hs Hx Hh) as (vu & Hvu & Htok & Hs').
  set (a' := {| a_vault := _ |}) in Hs'.
  assert (spec_extract (vault_utxo_token_id c') a' tx = Done (Some (VWithdrawals cells))) as Hx'.
  { unfold spec_extract in *. rewrite Htok. rewrite Hvu in *. cbn.
    destruct (BoxRepo.confirmed (a_vault a) !! in_box_id (tx_inputs tx).1) as [bx|] eqn:Hbx; [|done].
    rewrite lookup_insert_ne by (unfold as_box_id; cbn; intros E; rewrite E in Hfresh; congruence). rewrite Hbx. destruct (_ <? _)%Z; [done|]. destruct (_ <? _)%Z; [|done].
    bind_inv. done. }
  unfold handle. rewrite (extract_spec _ _ _ Hs'), Hx'. outcome_cbn. unfold unapplied_withdrawals.
  destruct (unapply_vault_spec _ _ tx Hs') as [Hs1 Hc1]. destruct (remove_withdrawals_spec cells _ _ Hs1) as [Hs2 Hc2]. cbv zeta in Hs2, Hc2.
  rewrite (sc_token _ _ Hc2), (sc_token _ _ Hc1), Htok, Hvu. outcome_cbn.
  destruct (move_vault_undone (in_box_id (tx_inputs tx).1) ((tx_outputs tx).1, vu) (a_vault a) Hfresh Hspent) as (H1 & H2 & H3).
  eexists _, _. split; [done|]. split; [destruct Hs2 as [Ha Hb Hc]; split; [exact Ha|exact Hb|exact Hc]|]. split; [done|].
  split; [exact H1|]. split; [exact H2|]. split; [exact H3|]. apply Forall_forall. intros bx Hbx. cbn.
  apply (remove_all_removed cells.*2); [by apply list_elem_of_fmap_2|]. right. apply put_all_index. left. by apply list_elem_of_fmap_2.
Qed.

(** ** Whatever the chain does *)

(** The boxes of a transaction have amounts the chain allows. *)
Definition chain_box (bx : ErgoBox) : Prop :=
  Forall (fun t => token_amount_ok (amount t) = true) (bx_tokens bx) /\ (0 < bx_value bx)%Z.

Definition event_tx (e : TxEvent) : Transaction := match e with AppliedTx tx _ | UnappliedTx tx _ => tx end.

Definition chain_event (e : TxEvent) : Prop := Forall chain_box (io_list (tx_outputs (event_tx e))).

(** The vault boxes are vault boxes and the deposits are deposits to this vault. *)
Record kept (token : list Z) (a : Stores) : Prop := {
  k_vault : map_Forall (fun _ (b : VaultBox) => vault_ok token b.1) (BoxRepo.confirmed (a_vault a));
  k_unprocessed : map_Forall (fun i (d : DepositBox) => deposit_ok token d /\ bx_id d.1 = i) (Deposits.unprocessed (a_deposits a));
  k_processed : map_Forall (fun i (d : DepositBox) => deposit_ok token d /\ bx_id d.1 = i) (Deposits.processed (a_deposits a));
}.

Definition good (c : Connector) (a : Stores) : Prop := stores c a /\ kept (vault_utxo_token_id c) a.

Lemma extracted_deposit (c : Connector) bx d : chain_box bx -> try_extract_unprocessed_deposit c bx = Done (Some d) ->
  deposit_ok (vault_utxo_token_id c) (unprocessed_box d) /\ (unprocessed_box d).1 = bx.
Proof.
  intros [Ha Hv] Hx. unfold try_extract_unprocessed_deposit in Hx. case_decide; [|done]. apply bind_Done in Hx as (valid & Hvalid & Hx).
  destruct valid; [|done]. destruct (_ ≫= _) as [dlog|]; [|done]. injection Hx as <-. cbn. split; [|done]. split_and!; try done.
  unfold reg_bytes. cbn. destruct (bx_registers bx !! 4) as [[]|]; try done. case_decide; [|done]. injection Hvalid as Hb.
  by apply bool_decide_eq_true in Hb as ->.
Qed.

Lemma kept_vault token a a' b : kept token a -> vault_ok token b.1 -> a_deposits a' = a_deposits a ->
  BoxRepo.confirmed (a_vault a') = <[as_box_id b := b]> (BoxRepo.confirmed (a_vault a)) -> kept token a'.
Proof. intros [Hv Hu Hp] Hb Hd Hc. split; rewrite ?Hd, ?Hc; [by apply map_Forall_insert_2|done..]. Qed.

Lemma vault_output_ok bx token vu : chain_box bx -> vault_try_from_box bx token = Some vu -> vault_ok token bx.
Proof. intros [Ha _] Hv. split; [by rewrite Hv|done]. Qed.

Lemma applied_input_good tx height c a i c' : good c a -> applied_input tx height c i = Done c' -> same_config c c' /\ exists a', good c' a'.
Proof.
  intros [[Hv Hw Hd] [Kv Ku Kp]] Hi. unfold applied_input in Hi. rewrite (Deposits.get_unprocessed_spec id _ _ _ Hd) in Hi. outcome_cbn in Hi.
  destruct (Deposits.unprocessed _ !! _); cbn [fmap option_fmap option_map] in Hi; [|injection Hi as <-; split; [done|by exists a]].
  bind_inv. subst c'. cbn in Hv0. pose proof (Deposits.remove_unprocessed_spec id ltac:(done) (in_box_id i) _ _ Hd) as Hr.
  rewrite Hv0 in Hr. unfold Deposits.spec_remove in Hr. destruct (_ && _); [|done].
  split; [by split|]. eexists (a <| a_deposits := _ |>). split; [by split; cbn; [| |exact Hr]|]. split; cbn; [done| |done]. by apply map_Forall_delete.
Qed.

Lemma applied_output_good tx height c a bx c' : good c a -> chain_box bx -> applied_output vault_codec tx height c bx = Done c' ->
  same_config c c' /\ exists a', good c' a'.
Proof.
  intros Hg Hbx Ho. pose proof Hg as [[Hv Hw Hd] Hk]. unfold applied_output in Ho. apply bind_Done in Ho as (d & Hx & Ho). destruct d as [d|].
  - injection Ho as <-. destruct (extracted_deposit _ _ _ Hbx Hx) as [Hok Hfst]. split; [by split|].
    eexists (a <| a_deposits ::= Deposits.spec_put as_box_id d |>). split.
    + split; [exact Hv|exact Hw|]. exact (Deposits.put_spec id as_box_id ltac:(done) d _ _ Hd).
    + destruct Hk as [Kv Ku Kp]. split; cbn; [done| |done]. apply map_Forall_insert_2; [|done]. by split.
  - destruct (vault_try_from_box bx _) as [vu|] eqn:Hvu; [|injection Ho as <-; split; [done|by exists a]].
    destruct (genesis_vault_utxo_box_id c); [done|]. injection Ho as <-. split; [by split|].
    exists (a <| a_vault ::= BoxRepo.spec_put_confirmed as_box_id (bx, vu) |>). split.
    + split; cbn; [|done..]. by apply (BoxRepo.put_confirmed_spec as_box_id).
    + eapply (kept_vault _ a _ (bx, vu)); [done| |done..]. by eapply vault_output_ok.
Qed.

Lemma fold_good {A} (f : Connector -> A -> outcome Connector) (P : A -> Prop) l c a c' :
  (forall c a x c', good c a -> P x -> f c x = Done c' -> same_config c c' /\ exists a', good c' a') ->
  good c a -> Forall P l -> foldO f l c = Done c' -> same_config c c' /\ exists a', good c' a'.
Proof.
  intros Hf Hg Hl. revert c a Hg. induction Hl as [|x l Hx _ IH]; intros c a Hg Hr; cbn [foldO] in Hr.
  - injection Hr as <-. split; [done|by exists a].
  - apply bind_Done in Hr as (c1 & H1 & Hr). destruct (Hf _ _ _ _ Hg Hx H1) as [Hc1 [a1 Hg1]].
    destruct (IH _ _ Hg1 Hr) as [Hc2 Ha2]. split; [by etransitivity|done].
Qed.

Lemma applied_other_good tx height c a c' : good c a -> Forall chain_box (io_list (tx_outputs tx)) ->
  applied_other vault_codec tx height c = Done c' -> same_config c c' /\ exists a', good c' a'.
Proof.
  intros Hg Ho Ha. assert (Forall (fun _ => True) (io_list (tx_inputs tx))) as Ht by by apply Forall_true.
  unfold applied_other in Ha. apply bind_Done in Ha as (c1 & H1 & Ha).
  destruct (fold_good _ (fun _ => True) _ _ _ _ ltac:(intros; by eapply applied_input_good) Hg Ht H1) as [Hc1 [a1 Hg1]].
  destruct (fold_good _ chain_box _ _ _ _ ltac:(intros; by eapply applied_output_good) Hg1 Ho Ha) as [Hc2 Ha2]. split; [by etransitivity|done].
Qed.

Lemma apply_vault_good c a tx c' vu : good c a -> chain_box (tx_outputs tx).1 -> apply_vault vault_codec c tx = Done (c', vu) ->
  same_config c c' /\ exists a', good c' a' /\ a_deposits a' = a_deposits a.
Proof.
  intros [Hs Hk] Hbx Ha. destruct (apply_vault_spec _ _ _ _ _ Hs Ha) as (Hvu & Hc & Hs'). split; [done|]. eexists. split; [split; [exact Hs'|]|done].
  rewrite (sc_token _ _ Hc). eapply (kept_vault _ a _ ((tx_outputs tx).1, vu)); [done| |done..]. by eapply vault_output_ok.
Qed.

Lemma process_all_kept ids r r' (P : BoxId -> DepositBox -> Prop) :
  map_Forall P (Deposits.unprocessed r) -> map_Forall P (Deposits.processed r) -> process_all ids r = Done r' ->
  map_Forall P (Deposits.unprocessed r') /\ map_Forall P (Deposits.processed r').
Proof.
  unfold process_all. revert r. induction ids as [|i ids IH]; intros r Hu Hp Hf; cbn [foldO] in Hf; [by injection Hf as <-|].
  apply bind_Done in Hf as (r1 & Hr & Hf). unfold Deposits.spec_process in Hr. bind_inv. subst r1. apply (IH _) in Hf; [done|..]; cbn.
  - by apply map_Forall_delete.
  - apply map_Forall_insert_2; [by apply Hu|done].
Qed.

Lemma confirm_good kind now tx c a c' e : good c a -> confirm_tracked kind now tx c = Done c' ->
  same_config c (append_event e c') /\ good (append_event e c') a.
Proof.
  intros [Hs Hk] Hc. destruct (confirm_tracked_same _ _ _ _ _ _ Hs Hc) as [Hs' Hc']. destruct (append_event_same e _ _ Hs') as [Hs'' Hc''].
  assert (same_config c (append_event e c')) as Hcc by by etransitivity. split; [done|]. split; [done|]. by rewrite (sc_token _ _ Hcc).
Qed.

Lemma applied_vault_good now fp tx height v c a c' : good c a -> Forall chain_box (io_list (tx_outputs tx)) ->
  match v with
  | VWithdrawals cells => applied_withdrawals vault_codec withdrawal_codec now fp tx height cells c
  | VDeposits deposits => applied_deposits vault_codec now tx height deposits c
  end = Done c' -> same_config c c' /\ exists a', good c' a'.
Proof.
  intros Hg [Hbx _]%Forall_cons Ha. destruct v as [cells|deposits].
  - unfold applied_withdrawals in Ha. apply bind_Done in Ha as ([c1 vu] & H1 & Ha). destruct (apply_vault_good _ _ _ _ _ Hg Hbx H1) as (Hc1 & a1 & [Hs1 Hk1] & _).
    apply bind_Done in Ha as (c2 & H2 & Ha). destruct (put_withdrawals_spec _ _ _ _ _ Hs1 H2) as [Hs2 Hc2].
    apply bind_Done in Ha as (c3 & H3 & Ha). injection Ha as <-. eapply confirm_good in H3 as [Hc3 Hg3].
    + split; [by repeat (etransitivity; [eassumption|])|by eexists].
    + split; [exact Hs2|]. rewrite (sc_token _ _ Hc2). by destruct Hk1.
  - unfold applied_deposits in Ha. apply bind_Done in Ha as ([c1 vu] & H1 & Ha). destruct (apply_vault_good _ _ _ _ _ Hg Hbx H1) as (Hc1 & a1 & [Hs1 Hk1] & _).
    apply bind_Done in Ha as (c2 & H2 & Ha). destruct (process_deposits_spec _ _ _ _ Hs1 H2) as (r & Hr & Hs2 & Hc2).
    apply bind_Done in Ha as (c3 & H3 & Ha). injection Ha as <-. eapply confirm_good in H3 as [Hc3 Hg3].
    + split; [by repeat (etransitivity; [eassumption|])|by eexists].
    + split; [exact Hs2|]. rewrite (sc_token _ _ Hc2). destruct Hk1 as [Kv Ku Kp].
      destruct (process_all_kept _ _ _ _ Ku Kp Hr). by split.
Qed.

(** *** Rollbacks *)

Lemma spec_remove_confirmed {B} (r : BoxRepo.Repo (B := B) (I := BoxId)) i (P : BoxId -> B -> Prop) :
  map_Forall P (BoxRepo.confirmed r) -> map_Forall P (BoxRepo.confirmed (BoxRepo.spec_remove i r)).
Proof. intros Hr. unfold BoxRepo.spec_remove. destruct (BoxRepo.index r !! i) as [[[] k]|]; try done. by apply map_Forall_delete. Qed.

Lemma unapply_vault_good c a tx : good c a ->
  same_config c (unapply_vault vault_codec c tx) /\ exists a', good (unapply_vault vault_codec c tx) a'.
Proof.
  intros [Hs [Kv Ku Kp]]. destruct (unapply_vault_spec _ _ tx Hs) as [Hs' Hc]. split; [done|]. eexists. split; [exact Hs'|].
  rewrite (sc_token _ _ Hc). split; [by apply spec_remove_confirmed|done..].
Qed.

Lemma unapplied_withdrawals_good tx height cells c a c' : good c a -> unapplied_withdrawals vault_codec withdrawal_codec tx height cells c = Done c' ->
  same_config c c' /\ exists a', good c' a'.
Proof.
  intros Hg Hu. unfold unapplied_withdrawals in Hu. destruct (unapply_vault_good _ _ tx Hg) as (Hc1 & a1 & [Hs1 [Kv Ku Kp]]).
  destruct (remove_withdrawals_spec cells _ _ Hs1) as [Hs2 Hc2]. cbv zeta in Hs2, Hc2. apply bind_Done in Hu as (vu & _ & Hu). injection Hu as <-.
  destruct (append_event_same (Unapplied (ergo_tx tx height (Withdrawal cells.*1 (vault_info tx height vu)))) _ _ Hs2) as [Hs3 Hc3].
  pose proof (transitivity Hc1 (transitivity Hc2 Hc3)) as Hc. split; [exact Hc|]. eexists. split; [exact Hs3|].
  rewrite (sc_token _ _ Hc), <- (sc_token _ _ Hc1). by split.
Qed.

Lemma unprocess_good c a i c' : good c a ->
  (db ← Deposits.unprocess (D := DepositBox) id i (deposit_repo c); Done (c <| deposit_repo := db |>)) = Done c' ->
  same_config c c' /\ exists a', good c' a'.
Proof.
  intros [[Hv Hw Hd] [Kv Ku Kp]] Hu. apply bind_Done in Hu as (db & Hdb & Hu). injection Hu as <-. split; [by split|].
  pose proof (Deposits.unprocess_spec id ltac:(done) i _ _ Hd) as Hp. rewrite Hdb in Hp. unfold Deposits.spec_unprocess in Hp.
  destruct (Deposits.processed (a_deposits a) !! i) as [d|] eqn:Hi; [|done]. outcome_cbn in Hp.
  eexists (a <| a_deposits := _ |>). split; [split; [exact Hv|exact Hw|exact Hp]|]. split; cbn; [done| |by apply map_Forall_delete].
  apply map_Forall_insert_2; [by apply Kp|done].
Qed.

Lemma unapplied_deposits_good tx height deposits c a c' : good c a -> unapplied_deposits vault_codec tx height deposits c = Done c' ->
  same_config c c' /\ exists a', good c' a'.
Proof.
  intros Hg Hu. unfold unapplied_deposits in Hu. destruct (unapply_vault_good _ _ tx Hg) as (Hc1 & a1 & Hg1).
  apply bind_Done in Hu as (c2 & H2 & Hu). assert (Forall (fun _ => True) deposits) as Ht by by apply Forall_true.
  eapply (fold_good _ (fun _ => True)) in H2 as [Hc2 [a2 [Hs2 Hk2]]];
    [|intros ? ? [cell i] ? Hg' _ Hx; exact (unprocess_good _ _ i _ Hg' Hx)|exact Hg1|exact Ht].
  apply bind_Done in Hu as (vu & _ & Hu). injection Hu as <-.
  destruct (append_event_same (Unapplied (ergo_tx tx height (Deposit deposits.*1 (vault_info tx height vu)))) _ _ Hs2) as [Hs3 Hc3].
  split; [exact (transitivity Hc1 (transitivity Hc2 Hc3))|]. exists a2. split; [exact Hs3|]. by rewrite (sc_token _ _ Hc3).
Qed.

Lemma remove_deposit_good c a i c' : good c a ->
  (db ← Deposits.remove_unprocessed id i (deposit_repo c); Done (c <| deposit_repo := db |>)) = Done c' ->
  same_config c c' /\ exists a', good c' a'.
Proof.
  intros [[Hv Hw Hd] [Kv Ku Kp]] Hu. apply bind_Done in Hu as (db & Hdb & Hu). injection Hu as <-. split; [by split|].
  pose proof (Deposits.remove_unprocessed_spec id ltac:(done) i _ _ Hd) as Hr. rewrite Hdb in Hr. unfold Deposits.spec_remove in Hr.
  destruct (_ && _); [|done]. eexists (a <| a_deposits := _ |>). split; [split; [exact Hv|exact Hw|exact Hr]|].
  split; cbn; [done| |done]. by apply map_Forall_delete.
Qed.

Lemma unapplied_other_good tx c a c' : good c a -> unapplied_other tx c = Done c' -> same_config c c' /\ exists a', good c' a'.
Proof.
  intros Hg Hu. unfold unapplied_other in Hu. assert (Forall (fun _ => True) (io_list (tx_outputs tx))) as Ht by by apply Forall_true.
  refine (fold_good _ (fun _ => True) _ _ _ _ _ Hg Ht Hu). clear. intros c a bx c' Hg _ Hx. apply bind_Done in Hx as ([d|] & _ & Hx).
  - by eapply remove_deposit_good.
  - injection Hx as <-. split; [done|by exists a].
Qed.

(** *** Every event *)

Lemma good_heights c a h : good c a -> good (c <| synced_block_heights := h |>) a.
Proof. intros [[Hv Hw Hd] Hk]. split; [by split|done]. Qed.

(** What an event leaves of a connector. *)
Record stepped (h : list Z -> list Z) (c c' : Connector) : Prop := {
  sp_token : vault_utxo_token_id c' = vault_utxo_token_id c;
  sp_committee : committee_data c' = committee_data c;
  sp_start : sync_starting_height c' = sync_starting_height c;
  sp_heights : synced_block_heights c' = h (synced_block_heights c);
}.

Definition heights_after (e : TxEvent) : list Z -> list Z :=
  match e with AppliedTx _ h => push_height h | UnappliedTx _ h => pop_height h end.

Lemma handle_good now fp e c a c' : good c a -> chain_event e -> handle now fp e c = Done c' ->
  stepped (heights_after e) c c' /\ exists a', good c' a'.
Proof.
  intros Hg He Hh. destruct e as [tx h|tx h]; unfold handle in Hh; apply bind_Done in Hh as (v & _ & Hh); apply bind_Done in Hh as (c1 & H1 & Hh);
    injection Hh as <-.
  - assert (same_config c c1 /\ exists a', good c1 a') as [[] [a1 Hg1]].
    { destruct v as [v|]; [|by eapply applied_other_good]. eapply (applied_vault_good now fp tx h v); [done..|]. by destruct v. }
    split; [split; cbn; congruence|]. exists a1. by apply good_heights.
  - assert (same_config c c1 /\ exists a', good c1 a') as [[] [a1 Hg1]].
    { destruct v as [[|]|]; [by eapply unapplied_withdrawals_good|by eapply unapplied_deposits_good|by eapply unapplied_other_good]. }
    split; [split; cbn; congruence|]. exists a1. by apply good_heights.
Qed.

(** *** Every request *)

Context `{HO : HashOrder, BI : BigInts, SB : !SchnorrBytes, SH : Sha256, SI : !ScalarInts, B : Blake2b}.

Lemma good_scheduler c a s : good c a -> same_config c (c <| tx_retry_scheduler := s |>) /\ exists a', good (c <| tx_retry_scheduler := s |>) a'.
Proof. intros [[Hv Hw Hd] Hk]. split; [by split|]. exists a. split; [by split|done]. Qed.

Lemma predicted_vault_good c a b : good c a ->
  let c' := c <| vault_box_repo ::= BoxRepo.put_predicted (KeyCodec0 := vault_codec) as_box_id b |> in
  same_config c c' /\ good c' (a <| a_vault ::= BoxRepo.spec_put_predicted as_box_id b |>).
Proof.
  intros [[Hv Hw Hd] [Kv Ku Kp]]. split; [by split|]. split; [|by split]. split; cbn; [|done..]. by apply (BoxRepo.put_predicted_spec as_box_id).
Qed.

Lemma predicted_withdrawals_good ws c a : good c a ->
  let c' := foldl (fun (c : Connector) w => c <| withdrawal_repo ::= BoxRepo.put_predicted (KeyCodec0 := withdrawal_codec) bx_id w |>) c ws in
  same_config c c' /\ exists a', good c' a'.
Proof.
  revert c a. induction ws as [|w ws IH]; intros c a Hg; cbn [foldl]; [split; [done|by exists a]|].
  destruct (IH (c <| withdrawal_repo ::= BoxRepo.put_predicted (KeyCodec0 := withdrawal_codec) bx_id w |>)
    (a <| a_withdrawals ::= BoxRepo.spec_put_predicted bx_id w |>)) as [Hc Ha].
  - destruct Hg as [[Hv Hw Hd] [Kv Ku Kp]]. split; [|by split]. split; cbn; [done| |done]. by apply (BoxRepo.put_predicted_spec bx_id).
  - split; [|exact Ha]. etransitivity; [|exact Hc]. by split.
Qed.

Lemma put_deposits_good (ds : list (UnprocessedDeposit DepositBox)) c a : good c a ->
  Forall (fun d => deposit_ok (vault_utxo_token_id c) (unprocessed_box d)) ds ->
  let c' := foldl (fun (c : Connector) d => c <| deposit_repo ::= Deposits.put id as_box_id d |>) c ds in
  same_config c c' /\ exists a', good c' a'.
Proof.
  revert c a. induction ds as [|d ds IH]; intros c a Hg Hds; cbn [foldl]; [split; [done|by exists a]|].
  apply Forall_cons in Hds as [Hd Hds].
  destruct (IH (c <| deposit_repo ::= Deposits.put id as_box_id d |>) (a <| a_deposits ::= Deposits.spec_put as_box_id d |>)) as [Hc Ha].
  - destruct Hg as [[Hv Hw Hdr] [Kv Ku Kp]]. split.
    + split; [exact Hv|exact Hw|]. exact (Deposits.put_spec id as_box_id ltac:(done) d _ _ Hdr).
    + split; cbn; [done| |done]. by apply map_Forall_insert_2.
  - done.
  - split; [|exact Ha]. etransitivity; [|exact Hc]. by split.
Qed.

(** The deposits read from the store. *)
Lemma stored_deposits c a ds : good c a -> Deposits.get_all_unprocessed_deposits (D := DepositBox) (deposit_repo c) = Done ds ->
  Forall (deposit_ok (vault_utxo_token_id c)) (unprocessed_box <$> ds) /\
  unprocessed_box <$> ds ≡ₚ (map_to_list (Deposits.unprocessed (a_deposits a))).*2.
Proof.
  intros [[_ _ Hd] [_ Ku _]] Hg. destruct (Deposits.get_all_unprocessed_spec id ltac:(done) _ _ Hd) as (ds' & Hds' & Hp).
  rewrite Hg in Hds'. injection Hds' as <-. split; [|exact Hp]. rewrite Hp. apply Forall_fmap, Forall_forall.
  intros [i d] Hi%elem_of_map_to_list. by apply (Ku i d).
Qed.

Lemma process_deposits_good b node c a r : good c a -> process_deposits vault_codec b node c = Done r -> same_config c r.1 /\ exists a', good r.1 a'.
Proof.
  intros Hg Hp. unfold process_deposits in Hp. apply bind_Done in Hp as (st & _ & Hp).
  destruct (is_syncing st); [injection Hp as <-; split; [done|by exists a]|].
  apply bind_Done in Hp as (conf & _ & Hp). apply bind_Done in Hp as (vault & _ & Hp). apply bind_Done in Hp as (ds & Hds & Hp).
  apply bind_Done in Hp as (utx & _ & Hp). destruct (node_has_context node); [|done]. apply bind_Done in Hp as (stx & _ & Hp).
  destruct (submit_tx node stx).
  - apply bind_Done in Hp as (v & _ & Hp). destruct (predicted_vault_good _ _ ((tx_outputs stx).1, v) Hg) as [Hc1 Hg1].
    destruct (stored_deposits _ _ _ Hg Hds) as [Hok _]. rewrite Forall_fmap in Hok.
    destruct (put_deposits_good ds _ _ Hg1 Hok) as (Hc2 & a2 & Hg2). pose proof (transitivity Hc1 Hc2) as Hc.
    destruct b; [injection Hp as <-; split; [exact Hc|by exists a2]|]. apply bind_Done in Hp as (s & _ & Hp). injection Hp as <-.
    destruct (good_scheduler _ _ s Hg2) as [Hc3 Ha3]. split; [exact (transitivity Hc Hc3)|exact Ha3].
  - destruct b; [|injection Hp as <-; split; [done|by exists a]]. apply bind_Done in Hp as (s & _ & Hp). injection Hp as <-. by eapply good_scheduler.
Qed.

Lemma withdraw_value_good report b vault node c a r : good c a -> withdraw_value vault_codec withdrawal_codec report b vault node c = Done r ->
  same_config c r.1 /\ exists a', good r.1 a'.
Proof.
  intros Hg Hp. unfold withdraw_value in Hp. apply bind_Done in Hp as (st & _ & Hp).
  destruct (is_syncing st); [injection Hp as <-; split; [done|by exists a]|].
  apply bind_Done in Hp as (els & _ & Hp). destruct (node_has_context node); [|done].
  apply bind_Done in Hp as (utx & _ & Hp). apply bind_Done in Hp as (stx & _ & Hp). case_decide; [done|]. destruct (submit_tx node stx).
  - apply bind_Done in Hp as (v & _ & Hp). destruct (predicted_vault_good _ _ ((tx_outputs stx).1, v) Hg) as [Hc1 Hg1].
    destruct (predicted_withdrawals_good (take (length (io_list (tx_outputs stx)) - 2) (drop 1 (io_list (tx_outputs stx)))) _ _ Hg1) as (Hc2 & a2 & Hg2).
    pose proof (transitivity Hc1 Hc2) as Hc.
    destruct b; [injection Hp as <-; split; [exact Hc|by exists a2]|]. apply bind_Done in Hp as (s & _ & Hp). injection Hp as <-.
    destruct (good_scheduler _ _ s Hg2) as [Hc3 Ha3]. split; [exact (transitivity Hc Hc3)|exact Ha3].
  - destruct b; [|injection Hp as <-; split; [done|by exists a]]. apply bind_Done in Hp as (s & _ & Hp). injection Hp as <-. by eapply good_scheduler.
Qed.

Lemma resubmission_good node c a c' : good c a -> handle_tx_resubmission vault_codec withdrawal_codec node c = Done c' ->
  same_config c c' /\ exists a', good c' a'.
Proof.
  intros Hg Hr. unfold handle_tx_resubmission in Hr. apply bind_Done in Hr as (cmd & _ & Hr).
  destruct cmd as [[e|d]|t|w t|t|]; try (injection Hr as <-; split; [done|by exists a]); apply bind_Done in Hr as (r & Hr & E); injection E as <-.
  - by eapply withdraw_value_good.
  - by eapply process_deposits_good.
Qed.

Lemma respond_same (node : Node) height (c c' : Connector) (messages : list ConnectorMsgOut) out :
  (status ← get_connector_status (node_now node) height c; Done (c, (status, messages))) = Done (c', out) -> c' = c.
Proof. intros H. apply bind_Done in H as (st & _ & H). by injection H as <- _. Qed.

Lemma handle_request_good random explorer height node request c a c' out : good c a ->
  handle_request vault_codec withdrawal_codec random explorer height node request c = Done (c', out) -> same_config c c' /\ exists a', good c' a'.
Proof.
  intros Hg Hr. unfold handle_request in Hr. destruct request as [p|cells byz big|report| |data p|data p| |]; try done; cbv zeta in Hr.
  - apply bind_Done in Hr as (ms & _ & Hr). apply respond_same in Hr as ->. split; [done|by exists a].
  - apply bind_Done in Hr as (r & _ & Hr). apply respond_same in Hr as ->. split; [done|by exists a].
  - apply bind_Done in Hr as (i & _ & Hr). apply bind_Done in Hr as (v & _ & Hr). apply bind_Done in Hr as (r & Hw & Hr).
    apply respond_same in Hr as ->. by eapply withdraw_value_good.
  - apply bind_Done in Hr as (r & Hw & Hr). apply respond_same in Hr as ->. by eapply process_deposits_good.
  - apply bind_Done in Hr as (c1 & H1 & Hr). unfold acknowledge_confirmed_tx in H1. apply bind_Done in H1 as (s & _ & H1). injection H1 as <-.
    apply bind_Done in Hr as (ms & _ & Hr). apply respond_same in Hr as ->. by eapply good_scheduler.
  - apply bind_Done in Hr as (c1 & H1 & Hr). unfold acknowledge_aborted_tx in H1. apply bind_Done in H1 as (s & _ & H1). injection H1 as <-.
    apply bind_Done in Hr as (ms & _ & Hr). apply respond_same in Hr as ->. by eapply good_scheduler.
Qed.

(** ** Runs of the connector *)

(** The loop of [main.rs]: events of the chain, requests of the driver and
    resubmissions in any order. *)
Inductive connector_step : Connector -> Connector -> Prop :=
| StepEvent now fp e c c' : chain_event e -> handle now fp e c = Done c' -> connector_step c c'
| StepRequest random explorer height node request c c' out :
    handle_request vault_codec withdrawal_codec random explorer height node request c = Done (c', out) -> connector_step c c'
| StepResubmission node c c' : handle_tx_resubmission vault_codec withdrawal_codec node c = Done c' -> connector_step c c'.

Lemma step_good c c' a : good c a -> connector_step c c' ->
  vault_utxo_token_id c' = vault_utxo_token_id c /\ committee_data c' = committee_data c /\ exists a', good c' a'.
Proof.
  intros Hg Hs. destruct Hs as [now fp e c c' He Hh|random explorer height node request c c' out Hr|node c c' Hr].
  - destruct (handle_good _ _ _ _ _ _ Hg He Hh) as [[] ?]. by split_and!.
  - destruct (handle_request_good _ _ _ _ _ _ _ _ _ Hg Hr) as [[] ?]. by split_and!.
  - destruct (resubmission_good _ _ _ _ Hg Hr) as [[] ?]. by split_and!.
Qed.

Lemma run_good c c' a : good c a -> rtc connector_step c c' -> vault_utxo_token_id c' = vault_utxo_token_id c /\ exists a', good c' a'.
Proof.
  intros Hg Hr. revert a Hg. induction Hr as [c|c c1 c' Hs _ IH]; intros a Hg; [split; [done|by exists a]|].
  destruct (step_good _ _ _ Hg Hs) as (Ht & _ & a1 & Hg1). destruct (IH _ Hg1) as [Ht' Ha]. split; [congruence|done].
Qed.

(** A connector that has not seen anything yet. *)
Record fresh (c : Connector) : Prop := {
  fr_vault : vault_box_repo c = ∅;
  fr_withdrawals : withdrawal_repo c = ∅;
  fr_deposits : deposit_repo c = ∅;
}.

Lemma fresh_good c : fresh c -> exists a, good c a.
Proof.
  intros [Hv Hw Hd]. eexists {| a_vault := _; a_withdrawals := _; a_deposits := _ |}. split; [split; cbn; rewrite ?Hv, ?Hw, ?Hd|].
  - apply BoxRepo.boxes_empty.
  - apply BoxRepo.boxes_empty.
  - apply Deposits.deposits_empty.
  - split; apply map_Forall_empty.
Qed.

(** ** The transactions of deposits and the contracts *)

Context `{LL : !ErgoLibLaws}.
Context (miners_apart : proposition_bytes miners_fee_script <> proposition_bytes VAULT_CONTRACT).
Context (confirmed_prefix : forall s i,
  BoxRepo.box_key_prefix (KeyCodec0 := vault_codec) BoxRepo.KEY_PREFIX 0 `prefix_of` BoxRepo.key (KeyCodec0 := vault_codec) s i <-> s = BoxRepo.Confirmed).

Lemma stored_vault c a vs v : good c a ->
  BoxRepo.get_all_confirmed (B := VaultBox) (KeyCodec0 := vault_codec) as_box_id (vault_box_repo c) = Done vs -> vs !! 0 = Some v ->
  vault_ok (vault_utxo_token_id c) v.1 /\ BoxRepo.unspent (a_vault a) !! bx_id v.1 = Some v.
Proof.
  intros [[Hv _ _] [Kv _ _]] Hg Hi. destruct (BoxRepo.get_all_confirmed_spec as_box_id confirmed_prefix _ _ Hv) as (vs' & Hvs & Hp).
  rewrite Hg in Hvs. injection Hvs as <-. apply list_elem_of_lookup_2 in Hi. rewrite Hp in Hi.
  apply list_elem_of_fmap in Hi as ([i v'] & -> & Hi%elem_of_map_to_list). cbn. pose proof Hi as Hu.
  apply map_lookup_filter_Some in Hi as [Hi _]. split; [by apply (Kv i)|].
  by rewrite <- (BoxRepo.ids_ok _ _ _ Hv _ _ Hi) in Hu.
Qed.

(** Whether the contracts of the deposits that are spent accept. *)
Definition deposits_accept (ids : list BoxId) (height : Z) (utx : UnsignedTransaction) (spent data : list ErgoBox) : bool :=
  forallb (fun bx => match deposit_contract bx deposit_input_vars (tx_context spent ids (utx_outputs utx) data height) with Done b => b | _ => false end)
    (drop 1 spent).

(** A wallet that checks the contracts before it signs. *)
Definition guarded (id1 id2 : BoxId) (node : Node) : Node :=
  {| node_height := node_height node; node_has_context := node_has_context node;
     sign_transaction := fun utx spent data => if deposits_accept [id1; id2] (node_height node) utx spent data
       then sign_transaction node utx spent data else None;
     submit_tx := submit_tx node; node_now := node_now node |}.

(** C8: whatever the chain did and the driver requested before, the contracts of
    the deposits accept the transaction [process_deposits] hands to the wallet:
    a wallet that runs them first makes no difference. *)
Theorem connector_deposits_accepted c0 c b node id1 id2 : fresh c0 -> rtc connector_step c0 c ->
  process_deposits vault_codec b (guarded id1 id2 node) c = process_deposits vault_codec b node c.
Proof.
  intros Hf Hr. destruct (fresh_good _ Hf) as [a0 Hg0]. destruct (run_good _ _ _ Hg0 Hr) as [_ [a Hg]].
  unfold process_deposits. cbn [guarded node_height node_has_context sign_transaction submit_tx node_now].
  destruct (get_connector_status _ _ _) as [st| |]; [|done..]. outcome_cbn. destruct (is_syncing st); [done|].
  destruct (BoxRepo.get_all_confirmed as_box_id _) as [vs| |] eqn:Hvs; [|done..]. outcome_cbn. destruct (vs !! 0) as [v|] eqn:Hv; [|done]. outcome_cbn.
  destruct (Deposits.get_all_unprocessed_deposits _) as [ds| |] eqn:Hds; [|done..]. outcome_cbn.
  destruct (deposit_tx _ _ _ _ _) as [utx| |] eqn:Hutx; [|done..]. outcome_cbn. destruct (node_has_context node); [|done].
  destruct (deposits_accept _ _ _ _ _) eqn:Ha; [done|]. exfalso. apply not_true_iff_false in Ha. apply Ha, forallb_forall.
  intros bx Hbx%list_elem_of_In. change (drop 1 (v.1 :: (unprocessed_box <$> ds).*1)) with (unprocessed_box <$> ds).*1 in Hbx.
  apply list_elem_of_fmap in Hbx as (d & -> & Hd).
  destruct (stored_vault _ _ _ _ Hg Hvs Hv) as [Hvok _]. destruct (stored_deposits _ _ _ Hg Hds) as [Hdok _].
  by rewrite (deposit_tx_accepted miners_apart v.1 _ _ _ _ _ id1 id2 d Hvok Hdok Hutx Hd).
Qed.

(** A wallet that signs what the contract of the vault accepts, and nothing else. *)
Definition careful (token : list Z) (node : Node) : Prop :=
  forall utx vault spent data stx, sign_transaction node utx (vault :: spent) data = Some stx ->
    exists ids, length ids = length (utx_outputs utx) /\
      vault_contract vault (vault_input_vars token) (tx_context (vault :: spent) ids (utx_outputs utx) data (node_height node)) = Done true.

Lemma deposit_tx_fueled vault ds token data height : fueled (deposit_tx vault ds token data height).
Proof.
  unfold deposit_tx. apply fueled_bind; [|intros [] _; unfold box_tokens, box_value, tx_io; auto 30 with fueled].
  apply fueled_foldO. intros acc d. unfold add_deposit. apply fueled_bind; [|auto with fueled].
  apply fueled_foldO. intros l t. unfold merge_token, token_add. auto 10 with fueled.
Qed.

Lemma sum_perm (l k : list Z) : l ≡ₚ k -> foldr Z.add 0%Z l = foldr Z.add 0%Z k.
Proof. induction 1; cbn; lia. Qed.

(** Asked to process deposits when the unprocessed ones are worth less than
    the fee, and in particular when there are none, the connector panics
    once it is synced, for the contract of the vault rejects the transaction
    and the wallet's error is unwrapped. *)
Theorem small_deposits_panic c a b node st : good c a -> careful (vault_utxo_token_id c) node ->
  get_connector_status (node_now node) (node_height node) c = Done st -> is_syncing st = false ->
  (foldr Z.add 0 ((fun d => bx_value d.1) <$> (map_to_list (Deposits.unprocessed (a_deposits a))).*2) < DEPOSIT_MINER_FEE)%Z ->
  process_deposits vault_codec b node c = Panic.
Proof.
  intros Hg Hw Hst Hsync Hsmall. unfold process_deposits. rewrite Hst. outcome_cbn. rewrite Hsync.
  pose proof Hg as [[Hv _ Hd] _]. destruct (BoxRepo.get_all_confirmed_spec as_box_id confirmed_prefix _ _ Hv) as (vs & -> & _). outcome_cbn.
  destruct (vs !! 0) as [v|]; [|done]. outcome_cbn.
  destruct (Deposits.get_all_unprocessed_spec id ltac:(done) _ _ Hd) as (ds & Hds & Hp). rewrite Hds. outcome_cbn.
  destruct (deposit_tx _ _ _ _ _) as [utx| |] eqn:Hutx; [|done|by apply deposit_tx_fueled in Hutx]. outcome_cbn.
  destruct (node_has_context node); [|done]. destruct (sign_transaction _ _ _ _) as [stx|] eqn:Hs; [|done]. exfalso.
  destruct (Hw _ _ _ _ _ Hs) as (ids & Hids & Hc). destruct (deposit_tx_parts _ _ _ _ _ _ Hutx) as (? & ? & ? & _ & _ & _ & _ & Hout).
  rewrite Hout in Hids. destruct ids as [|id1 [|id2 [|]]]; try done.
  apply (small_deposits_rejected v.1 (unprocessed_box <$> ds) _ _ _ _ id1 id2 true) in Hutx; [done|].
  by rewrite (sum_perm _ _ (fmap_Permutation (fun d : DepositBox => bx_value d.1) _ _ Hp)).
Qed.
End Safety.
