(* ===== verification/ErgoSync.v ===== *)
(** * What the driver is sent

    The heights the Ergo connector has synced to, the events it sends to the
    consensus driver from the store of events, and inputs of the chain that
    stop it. *)

From S2P Require Import SigmaAggregation Ledger Crypto SigmaCrypto Algebra Prelude KvStore RetryScheduler ErgoStores ErgoBoxes ErgoContracts ErgoCells ErgoTx VaultSelection ErgoConnector ErgoSafety.

(** ** Heights *)

(** A queue of at most [MAX_SYNCED_BLOCK_HEIGHTS] growing positive heights. *)
Record heights_ok (l : list Z) : Prop := {
  hk_sorted : StronglySorted Z.lt (0%Z :: l);
  hk_length : length l <= MAX_SYNCED_BLOCK_HEIGHTS;
}.

Lemma last_cons_default (x y : Z) l : default x (last (y :: l)) = default y (last l).
Proof. revert y. induction l as [|z l IH]; intros y; [done|]. change (last (y :: z :: l)) with (last (z :: l)). by destruct (last (z :: l)) eqn:E; [|apply last_None in E]. Qed.

Lemma sorted_last (l : list Z) x : StronglySorted Z.lt (x :: l) -> (x <= default x (last l))%Z.
Proof.
  intros [_ Hall]%StronglySorted_inv. destruct (last l) as [w|] eqn:E; cbn; [|lia].
  apply last_Some_elem_of in E. rewrite Forall_forall in Hall. specialize (Hall w E). lia.
Qed.

Lemma sorted_app_last (l : list Z) x y : StronglySorted Z.lt (x :: l) -> (default x (last l) < y)%Z -> StronglySorted Z.lt (x :: l ++ [y]).
Proof.
  revert x. induction l as [|z l IH]; intros x Hs Hy; [by repeat constructor|]. rewrite last_cons_default in Hy.
  apply StronglySorted_inv in Hs as [Hs Hx]. constructor; [by apply IH|]. apply sorted_last in Hs. cbn [app].
  apply Forall_cons in Hx as [Hx Hl]. constructor; [done|]. apply Forall_app. split; [done|]. constructor; [lia|done].
Qed.

Lemma sorted_sublist (l k : list Z) : sublist k l -> StronglySorted Z.lt l -> StronglySorted Z.lt k.
Proof.
  induction 1 as [|x k l Hs IH|x k l Hs IH]; intros Hl; [constructor|..]; apply StronglySorted_inv in Hl as [Hl Hx]; [|by apply IH].
  constructor; [by apply IH|]. apply Forall_forall. intros y Hy. rewrite Forall_forall in Hx. apply Hx. eapply elem_of_submseteq; [exact Hy|by apply sublist_submseteq].
Qed.

Lemma push_height_ok h l : heights_ok l -> heights_ok (push_height h l).
Proof.
  intros [Hs Hl]. unfold push_height. destruct (Z.ltb_spec (default 0%Z (last l)) h) as [Hh|]; [|done]. case_decide as Hfull.
  - destruct l as [|x l]; [done|]. change (drop 1 (x :: l)) with l. assert (StronglySorted Z.lt (0%Z :: l)) as Hs'.
    { eapply sorted_sublist; [|exact Hs]. by apply sublist_skip, sublist_cons. }
    split; [|rewrite length_app; cbn [length] in *; lia]. apply sorted_app_last; [done|].
    destruct l as [|y l]; [done|]. rewrite last_cons_default. rewrite !last_cons_default in Hh. exact Hh.
  - split; [by apply sorted_app_last|]. rewrite length_app. cbn [length]. lia.
Qed.

Lemma pop_height_ok h l : heights_ok l -> heights_ok (pop_height h l).
Proof.
  intros [Hs Hl]. unfold pop_height. destruct (last l) as [x|]; [|done]. case_decide; [|done]. split.
  - eapply sorted_sublist; [|exact Hs]. apply sublist_skip, sublist_take.
  - rewrite length_take. lia.
Qed.

(** A block that is unapplied right after it was applied leaves the heights as
    they were, unless the queue was full. *)
Lemma pop_push_height h l : (default 0 (last l) < h)%Z -> length l < MAX_SYNCED_BLOCK_HEIGHTS -> pop_height h (push_height h l) = l.
Proof.
  intros Hh Hl. unfold push_height. rewrite (proj2 (Z.ltb_lt _ _)) by done. rewrite decide_False by lia.
  unfold pop_height. rewrite last_snoc, decide_True by done. rewrite length_app. cbn.
  rewrite Nat.add_sub. by rewrite take_app_length.
Qed.

(** ** Events *)

Section Events.
Context `{C : Curve, SG : !Schnorr, L : !ErgoLib, AT : AvlTrees, AE : EqDecision AvlTree}.
Context (vault_codec withdrawal_codec : BoxRepo.KeyCodec BoxId).
Context `{!Serde VaultBox, !Serde ErgoBox, !Serde (UnprocessedDeposit DepositBox), !Serde (ProcessedDeposit DepositBox)}.
Context `{!Serde TxInProgress, !Serde Status, !Serde ErgoTxEvent, !SerdeLaws ErgoTxEvent}.

(** A connector over the history in the database. *)
Abbreviation Connector := (Connector (M := Db)).

Abbreviation from h := (filter (fun e => h <= event_height e)%Z) (only parsing).

Lemma filter_next (evs : list ErgoTxEvent) h e l : StronglySorted (fun a b => event_height a < event_height b)%Z evs ->
  from h evs = e :: l -> from (event_height e + 1)%Z evs = l.
Proof.
  induction 1 as [|x evs Hs IH Hx]; [done|]. rewrite !filter_cons. intros Hf. case_decide.
  - injection Hf as -> <-. rewrite decide_False by lia. rewrite Forall_forall in Hx. rewrite !filter_all; [done|intros y Hy%Hx; cbn; lia..].
  - assert (e ∈ from h evs) as [Hle He]%list_elem_of_filter by (rewrite Hf; left). rewrite Forall_forall in Hx. specialize (Hx e He).
    rewrite decide_False by lia. by apply IH.
Qed.

Lemma sync_loop_spec (c : Connector) m evs n h : Events.holds event_height (moved_value_history c) m -> Events.listed event_height m evs ->
  Forall (fun e => event_height e < u32_max)%Z evs -> Events.u32_ok h -> sync_loop n h c = Done (take n (from h evs)).
Proof.
  intros Hm Hl Hmax. destruct (Events.holds_scan _ _ _ Hm) as (evs' & Hs & Hl').
  rewrite (Events.listed_unique _ _ _ _ Hl' Hl) in Hs. clear evs' Hl'.
  revert h. induction n as [|n IH]; intros h Hh; [done|]. cbn [sync_loop hist_get rocksdb_history]. rewrite (Events.get_spec _ _ _ _ _ Hm Hh Hs Hl).
  outcome_cbn. destruct (from h evs) as [|e l] eqn:Hf; cbn [head fmap option_fmap option_map]; [done|].
  assert (e ∈ from h evs) as [Hle He]%list_elem_of_filter by (rewrite Hf; left). rewrite Forall_forall in Hmax. specialize (Hmax e He).
  unfold Events.u32_ok in *. rewrite checked_in by lia. outcome_cbn. rewrite IH by lia. outcome_cbn.
  by rewrite (filter_next _ _ _ _ (Events.listed_sorted _ _ _ Hl) Hf).
Qed.

(** What is sent after a height: the first events above it. *)
Lemma sync_driver_spec (c : Connector) m evs h : Events.holds event_height (moved_value_history c) m -> Events.listed event_height m evs ->
  Forall (fun e => event_height e < u32_max)%Z evs -> (0 <= h < u32_max)%Z ->
  sync_consensus_driver (Some h) c = Done (take MAX_MOVED_VALUES_PER_RESPONSE (from (h + 1)%Z evs)).
Proof.
  intros Hm Hl Hmax Hh. unfold sync_consensus_driver. rewrite checked_in by lia. outcome_cbn.
  apply (sync_loop_spec c m); try done. unfold Events.u32_ok. lia.
Qed.

(** A driver that requests page after page, each from the last height of the one
    before, until a page is empty. *)
Fixpoint pages (n : nat) (h : Z) (c : Connector) : outcome (list ErgoTxEvent) :=
  match n with
  | 0 => NoFuel
  | S n =>
    evs ← sync_consensus_driver (Some h) c;
    match last evs with
    | Some e => rest ← pages n (event_height e) c; Done (evs ++ rest)
    | None => Done []
    end
  end.

Lemma filter_after_page (evs l k : list ErgoTxEvent) h e : StronglySorted (fun a b => event_height a < event_height b)%Z evs ->
  from h evs = (l ++ [e]) ++ k -> from (event_height e + 1)%Z evs = k.
Proof.
  intros Hs. revert h. induction l as [|x l IH]; intros h Hf; cbn [app] in Hf; [by eapply filter_next|].
  apply filter_next in Hf; [|done]. by eapply IH.
Qed.

(** C33: a driver that asks page after page receives every event above its
    height that the connector stores, once and in the order of the heights,
    and the requests end. *)
Theorem paging_complete (c : Connector) m evs n h : Events.holds event_height (moved_value_history c) m -> Events.listed event_height m evs ->
  Forall (fun e => 0 <= event_height e < u32_max)%Z evs -> (0 <= h < u32_max)%Z -> length (from (h + 1)%Z evs) < n ->
  pages n h c = Done (from (h + 1)%Z evs).
Proof.
  intros Hm Hl Hmax. revert h. induction n as [|n IH]; intros h Hh Hn; [lia|]. cbn [pages].
  rewrite (sync_driver_spec c m evs); [|done..|eapply Forall_impl; [exact Hmax|cbn; lia]|done]. outcome_cbn.
  set (all := from (h + 1)%Z evs) in *. destruct (last (take _ all)) as [e|] eqn:Hlast.
  - apply last_Some in Hlast as [l Hpage].
    pose proof (take_drop MAX_MOVED_VALUES_PER_RESPONSE all) as Hsplit. rewrite Hpage in Hsplit |- *. symmetry in Hsplit.
    pose proof (filter_after_page _ _ _ _ _ (Events.listed_sorted _ _ _ Hl) Hsplit) as Hrest.
    assert (e ∈ all) as [_ He]%list_elem_of_filter by (rewrite Hsplit; set_solver). rewrite Forall_forall in Hmax. specialize (Hmax e He).
    rewrite IH; [outcome_cbn; by rewrite Hrest, <- Hsplit|lia|]. rewrite Hrest. rewrite Hsplit, !length_app in Hn. cbn [length] in Hn. lia.
  - apply last_None in Hlast. by destruct all.
Qed.

(** *** Events that are lost *)

Lemma pages_stored (c : Connector) m all n h evs : Events.holds event_height (moved_value_history c) m -> Events.listed event_height m all ->
  Forall (fun e => 0 <= event_height e < u32_max)%Z all -> (0 <= h < u32_max)%Z -> pages n h c = Done evs -> forall e, e ∈ evs -> e ∈ all.
Proof.
  intros Hm Hl Hmax. revert h evs. induction n as [|n IH]; intros h evs Hh Hp e He; [done|]. cbn [pages] in Hp.
  rewrite (sync_driver_spec c m all) in Hp; [|done..|eapply Forall_impl; [exact Hmax|cbn; lia]|done]. outcome_cbn in Hp.
  assert (forall x, x ∈ take MAX_MOVED_VALUES_PER_RESPONSE (from (h + 1)%Z all) -> x ∈ all) as Hpage.
  { intros x Hx. assert (x ∈ from (h + 1)%Z all) as [_ ?]%list_elem_of_filter; [|done].
    eapply elem_of_submseteq; [exact Hx|]. apply sublist_submseteq, sublist_take. }
  destruct (last (take _ _)) as [x|] eqn:Hlast; [|injection Hp as <-; by apply elem_of_nil in He].
  apply bind_Done in Hp as (rest & Hrest & Hp). injection Hp as <-. apply elem_of_app in He as [He|He]; [by apply Hpage|].
  eapply IH; [|exact Hrest|exact He]. apply last_Some_elem_of, Hpage in Hlast. by apply (proj1 (Forall_forall _ _) Hmax x).
Qed.

Lemma appended_deposit (tx : Transaction) (height : Z) (c c' : Connector) bx d : try_extract_unprocessed_deposit c bx = Done (Some d) ->
  applied_output vault_codec tx height c bx = Done c' ->
  moved_value_history c' = hist_append (Applied (ergo_tx tx height (NewUnprocessedDeposit (unprocessed_box d).2))) (moved_value_history c).
Proof. intros Hx Ho. unfold applied_output in Ho. rewrite Hx in Ho. outcome_cbn in Ho. by injection Ho as <-. Qed.

(** When a block has two deposits the driver never hears of the first: the
    store of events is indexed by the height alone and the second event
    replaces it. *)
Theorem driver_misses_deposit (tx1 tx2 : Transaction) (height : Z) (c c1 c2 : Connector) bx1 bx2 d1 d2 m n h evs :
  Events.holds event_height (moved_value_history c) m -> Events.u32_ok height -> (0 <= h < u32_max)%Z ->
  map_Forall (fun k _ => k < u32_max)%Z m -> (height < u32_max)%Z ->
  try_extract_unprocessed_deposit c bx1 = Done (Some d1) -> applied_output vault_codec tx1 height c bx1 = Done c1 ->
  try_extract_unprocessed_deposit c1 bx2 = Done (Some d2) -> applied_output vault_codec tx2 height c1 bx2 = Done c2 ->
  inbound_id (unprocessed_box d1).2 <> inbound_id (unprocessed_box d2).2 ->
  pages n h c2 = Done evs -> Applied (ergo_tx tx1 height (NewUnprocessedDeposit (unprocessed_box d1).2)) ∉ evs.
Proof.
  intros Hm Hok Hh Hmax Hhm Hx1 Ha1 Hx2 Ha2 Hne Hp. pose proof (appended_deposit _ _ _ _ _ _ Hx1 Ha1) as H1.
  pose proof (appended_deposit _ _ _ _ _ _ Hx2 Ha2) as H2. rewrite H1 in H2. cbn [hist_append rocksdb_history] in H2.
  rewrite Events.same_height_lost in H2 by done.
  pose proof (Events.append_spec event_height (Applied (ergo_tx tx2 height (NewUnprocessedDeposit (unprocessed_box d2).2))) _ _ Hok Hm) as Hm2.
  rewrite <- H2 in Hm2. destruct (Events.holds_scan _ _ _ Hm2) as (all & Hs & Hl).
  assert (Forall (fun e => 0 <= event_height e < u32_max)%Z all) as Hall.
  { apply Forall_forall. intros e He%(Events.listed_all _ _ _ Hl). destruct (Events.holds_heights _ _ _ Hm2 _ _ He) as [_ [? _]].
    split; [done|]. by apply (map_Forall_insert_2 (fun k _ => k < u32_max)%Z _ _ _ Hhm Hmax _ _ He). }
  intros He. apply (pages_stored _ _ _ _ _ _ Hm2 Hl Hall Hh Hp), (Events.listed_all _ _ _ Hl) in He.
  cbn in He. rewrite lookup_insert_eq in He. injection He as _ He. apply Hne. by rewrite He.
Qed.

(** ** Boxes that stop the connector *)

Lemma foldO_panics {A O} (f : A -> O -> outcome A) l x : x ∈ l -> (forall a, f a x = Panic) -> (forall a o, fueled (f a o)) ->
  forall a, foldO f l a = Panic.
Proof.
  intros Hx Hp Hf. induction l as [|y l IH]; [by apply elem_of_nil in Hx|]. intros a. cbn [foldO].
  apply elem_of_cons in Hx as [<-|Hx]; [by rewrite Hp|]. specialize (Hf a y). destruct (f a y) as [a'| |]; [by apply IH|done|by destruct Hf].
Qed.

Lemma extract_deposit_fueled (c : Connector) bx : fueled (try_extract_unprocessed_deposit c bx).
Proof. unfold try_extract_unprocessed_deposit. auto 10 with fueled. Qed.

Lemma applied_output_fueled (tx : Transaction) (height : Z) (c : Connector) bx : fueled (applied_output vault_codec tx height c bx).
Proof. unfold applied_output. pose proof extract_deposit_fueled. auto 10 with fueled. Qed.

Lemma applied_input_fueled (tx : Transaction) (height : Z) (c : Connector) i : fueled (applied_input tx height c i).
Proof. unfold applied_input, Deposits.get_unprocessed, Deposits.remove_unprocessed. auto 10 with fueled. Qed.

(** Anyone can stop the connector: a transaction that pays to the contract
    of deposits with a collection of bytes in the register [R4] that is not 32
    long has its handler panic on the conversion to a token identifier. *)
Theorem malformed_deposit_stops (now : Z) (fp : bool) (tx : Transaction) (height : Z) (c : Connector) bx bytes :
  try_extract_vault_tx vault_codec c tx = Done None -> bx ∈ io_list (tx_outputs tx) ->
  bx_tree bx = DEPOSIT_CONTRACT -> bx_registers bx !! 4 = Some (LCollByte bytes) -> length bytes <> 32 ->
  handle vault_codec withdrawal_codec now fp (AppliedTx tx height) c = Panic.
Proof.
  intros Hx Hbx Htree Hr4 Hlen. unfold handle. rewrite Hx. outcome_cbn. unfold applied_other.
  pose proof (fueled_foldO (applied_input tx height) (io_list (tx_inputs tx)) c (fun _ _ => applied_input_fueled _ _ _ _)) as Hin.
  destruct (foldO (applied_input tx height) _ c) as [c1| |]; [|done|by destruct Hin]. outcome_cbn.
  rewrite (foldO_panics _ _ bx Hbx); [done| |by intros; apply applied_output_fueled].
  intros c2. unfold applied_output, try_extract_unprocessed_deposit. rewrite decide_True by done. rewrite Hr4. by rewrite decide_False.
Qed.

(** ** Rollbacks that are not noticed *)

Lemma greatest_height_below h (tx : Transaction) : (0 < h)%Z -> Forall (fun bx => bx_height bx < h)%Z (io_list (tx_outputs tx)) ->
  (greatest_height tx < h)%Z.
Proof.
  intros Hh Hall. unfold greatest_height. revert Hh. generalize 0%Z. induction Hall as [|bx l Hbx _ IH]; intros acc Hacc; [done|].
  cbn [foldl]. apply IH. by destruct (acc <? bx_height bx)%Z.
Qed.

Context `{!SerdeLaws VaultBox, !SerdeLaws ErgoBox, !SerdeLaws (UnprocessedDeposit DepositBox), !SerdeLaws (ProcessedDeposit DepositBox)}.
Context `{!KeySpaces (BoxRepo.key (KeyCodec0 := vault_codec)), !KeySpaces (BoxRepo.key (KeyCodec0 := withdrawal_codec))}.

(** The connector does not notice that its last block was rolled back: the
    bridge reports the greatest height at which an output claims to be
    created, which is below the height of the block, and the block stays
    the last synced one. *)
Theorem rollback_not_noticed (now : Z) (fp : bool) (tx : Transaction) (c c' : Connector) a h :
  good vault_codec withdrawal_codec c a -> heights_ok (synced_block_heights c) -> last (synced_block_heights c) = Some h ->
  Forall chain_box (io_list (tx_outputs tx)) -> Forall (fun bx => bx_height bx < h)%Z (io_list (tx_outputs tx)) ->
  handle vault_codec withdrawal_codec now fp (bridge_event (LedgerUnapplied tx)) c = Done c' ->
  last (synced_block_heights c') = Some h.
Proof.
  intros Hg [Hs _] Hlast Hbx Hall Hh. assert (0 < h)%Z as Hpos.
  { apply StronglySorted_inv in Hs as [_ Hs]. rewrite Forall_forall in Hs. by apply Hs, last_Some_elem_of. }
  pose proof (greatest_height_below h tx Hpos Hall) as Hlt.
  destruct (handle_good _ _ now fp (bridge_event (LedgerUnapplied tx)) c a c' Hg Hbx Hh) as [[_ _ _ Hheights] _].
  rewrite Hheights. cbn [bridge_event heights_after]. unfold pop_height. rewrite Hlast. by rewrite decide_False by lia.
Qed.
End Events.
