(* ===== verification/Cardano.v ===== *)
(** * The Cardano connector

    Models of [spectrum-cardano-connector/src]: the cache of the chain
    ([rocksdb.rs]) and the bridge that follows a node ([run_bridge] of
    [lib.rs]).  The store is a map of byte strings; the node, the decoders of
    its headers and blocks and the hash of a transaction are parameters. *)

From S2P Require Import Prelude KvStore.

(** ["BEST_BLOCK"], ["OLDEST_BLOCK"], [":p"], [":c"], [":s"], [":b"], [":t"] *)
Definition BEST_BLOCK : bytes := [66; 69; 83; 84; 95; 66; 76; 79; 67; 75]%Z.
Definition OLDEST_BLOCK : bytes := [79; 76; 68; 69; 83; 84; 95; 66; 76; 79; 67; 75]%Z.
Definition PARENT_POSTFIX : bytes := [58; 112]%Z.
Definition CHILD_POSTFIX : bytes := [58; 99]%Z.
Definition SLOT_POSTFIX : bytes := [58; 115]%Z.
Definition BLOCK_NUMBER_POSTFIX : bytes := [58; 98]%Z.
Definition TRANSACTION_POSTFIX : bytes := [58; 116]%Z.

Section Types.
Context {I : Type}.

Record Block := {
  block_id : I;
  parent_id : I;
  slot : Z;
  block_number : Z;
  transactions : list bytes;
}.

Record BlockRecord := { rec_id : I; rec_slot : Z; rec_block_number : Z }.

Inductive TxEvent := AppliedTx (tx : bytes) | UnappliedTx (tx : bytes).

Inductive Point := Origin | Specific (slot : Z) (hash : I).

(** [RollForward] with the block that is fetched for its header, if the header
    and the block decode, the block is delivered and has a parent. *)
Inductive NextResponse := RollForward (block : option Block) | RollBackward (p : Point) | Await.
End Types.

Section Cache.
Context {I : Type} `{Countable I}.

(** [Hash<32>] with its bytes, and [bincode::serialize] of a [&str]. *)
Context (id_bytes : I -> bytes) (ser_str : bytes -> bytes).
Context `{!Serde I, !Serde Z, !Serde (list I), !Serde (BlockRecord (I := I))}.

(** [deserialize_tx(tx_bytes).hash()], if the transaction decodes. *)
Context (tx_hash : bytes -> option I).
Context (max_rollback_depth : Z).

Definition postfixed_key (block_id : I) (s : bytes) : bytes := id_bytes block_id ++ ser_str s.

(** The keys of the store. *)
Inductive Key := KParent (i : I) | KChild (i : I) | KSlot (i : I) | KNumber (i : I) | KTxs (i : I) | KTx (i : I) | KBest | KOldest.

#[export] Instance Key_eq_dec : EqDecision Key.
Proof. solve_decision. Defined.

Definition key_bytes (k : Key) : bytes :=
  match k with
  | KParent i => postfixed_key i PARENT_POSTFIX
  | KChild i => postfixed_key i CHILD_POSTFIX
  | KSlot i => postfixed_key i SLOT_POSTFIX
  | KNumber i => postfixed_key i BLOCK_NUMBER_POSTFIX
  | KTxs i => postfixed_key i TRANSACTION_POSTFIX
  | KTx i => id_bytes i
  | KBest => ser_str BEST_BLOCK
  | KOldest => ser_str OLDEST_BLOCK
  end.

Definition db_get (k : Key) (db : Db) : option bytes := db !! key_bytes k.
Definition db_put (k : Key) (v : bytes) (db : Db) : Db := <[key_bytes k := v]> db.
Definition db_del (k : Key) (db : Db) : Db := delete (key_bytes k) db.

Definition record_of (b : Block (I := I)) : BlockRecord := {| rec_id := block_id b; rec_slot := slot b; rec_block_number := block_number b |}.

(** Read and decode a key that must be there. *)
Definition expect {A} `{!Serde A} (k : Key) (db : Db) : outcome A :=
  bytes ← unwrap (db_get k db); unwrap (from_slice bytes).

Definition put_txs (tx_ids : list I) (txs : list bytes) (db : Db) : Db :=
  foldl (fun db '(tx_id, tx_bytes) => db_put (KTx tx_id) tx_bytes db) db (zip tx_ids txs).

Definition del_txs (tx_ids : list I) (db : Db) : Db := foldl (fun db tx_id => db_del (KTx tx_id) db) db tx_ids.

(** The oldest block makes room: its child takes its place. *)
Definition drop_oldest (oldest_id : I) (db : Db) : outcome Db :=
  new_oldest_hash ← expect (KChild oldest_id) db;
  new_oldest_slot ← expect (KSlot new_oldest_hash) db;
  new_oldest_block_number ← expect (KNumber new_oldest_hash) db;
  let db := db_put KOldest (to_vec {| rec_id := new_oldest_hash; rec_slot := new_oldest_slot; rec_block_number := new_oldest_block_number |}) db in
  tx_ids ← expect (KTxs oldest_id) db;
  let db := del_txs tx_ids db in
  Done (db_del (KChild oldest_id) (db_del (KParent oldest_id) (db_del (KNumber oldest_id) (db_del (KSlot oldest_id) (db_del (KTxs oldest_id) db))))).

(** The data of a block and the new best block. *)
Definition put_block (block : Block) (tx_ids : list I) (db : Db) : Db :=
  let db := db_put (KParent (block_id block)) (to_vec (parent_id block)) db in
  let db := db_put (KChild (parent_id block)) (to_vec (block_id block)) db in
  let db := db_put (KSlot (block_id block)) (to_vec (slot block)) db in
  let db := db_put (KNumber (block_id block)) (to_vec (block_number block)) db in
  let db := db_put (KTxs (block_id block)) (to_vec tx_ids) db in
  let db := put_txs tx_ids (transactions block) db in
  db_put KBest (to_vec (record_of block)) db.

Definition append_block (block : Block) (db : Db) : outcome Db :=
  tx_ids ← mapO (fun tx_bytes => unwrap (tx_hash tx_bytes)) (transactions block);
  let db := put_block block tx_ids db in
  match db_get KOldest db with
  | Some bytes =>
    oldest ← unwrap (from_slice bytes);
    age ← checked 0 u64_max (block_number block - rec_block_number oldest);
    if (age =? max_rollback_depth)%Z then drop_oldest (rec_id oldest) db else Done db
  | None => Done (db_put KOldest (to_vec (record_of block)) db)
  end.

Definition exists_block (i : I) (db : Db) : bool := bool_decide (is_Some (db_get (KSlot i) db)).

Definition get_best_block (db : Db) : option BlockRecord := bytes ← db_get KBest db; from_slice bytes.

Fixpoint take_txs (tx_ids : list I) (db : Db) : outcome (list bytes * Db) :=
  match tx_ids with
  | [] => Done ([], db)
  | tx_id :: tx_ids =>
    tx_bytes ← unwrap (db_get (KTx tx_id) db);
    r ← take_txs tx_ids (db_del (KTx tx_id) db);
    Done (tx_bytes :: r.1, r.2)
  end.

(** A transaction of the store that conflicts with another is tried again and
    takes effect once. *)
Definition take_best_block (db : Db) : outcome (option Block * Db) :=
  match db_get KBest db with
  | Some best_block_bytes =>
    best ← unwrap (from_slice best_block_bytes);
    match db_get (KTxs (rec_id best)) db with
    | Some tx_ids_bytes =>
      tx_ids ← unwrap (from_slice tx_ids_bytes);
      r ← take_txs tx_ids db;
      let '(txs, db) := r in
      parent ← expect (KParent (rec_id best)) db;
      let db := db_del KBest db in
      db ← match db_get (KParent parent) db with
        | Some _ =>
          parent_slot ← expect (KSlot parent) db;
          parent_number ← expect (KNumber parent) db;
          Done (db_put KBest (to_vec {| rec_id := parent; rec_slot := parent_slot; rec_block_number := parent_number |}) db)
        | None => Done db
        end;
      Done (Some {| block_id := rec_id best; parent_id := parent; slot := rec_slot best; block_number := rec_block_number best;
        transactions := txs |}, db)
    | None => Done (None, db)
    end
  | None => Done (None, db)
  end.

(** ** The bridge *)

(** Where to start following the chain. *)
Definition start_point (known_slot : Z) (known_hash : I) (db : Db) : Point :=
  match get_best_block db with
  | Some best => if (known_slot <? rec_slot best)%Z then Specific (rec_slot best) (rec_id best) else Specific known_slot known_hash
  | None => Specific known_slot known_hash
  end.

(** The [while] loop of a rollback: the events and the store. *)
Fixpoint roll_back (fuel : nat) (slot : Z) (hash : I) (db : Db) : outcome (list TxEvent * Db) :=
  match fuel with
  | 0 => NoFuel
  | S fuel =>
    match get_best_block db with
    | Some best =>
      if (rec_slot best <=? slot)%Z then
        if (rec_slot best =? slot)%Z then
          if decide (rec_id best = hash) then Done ([], db) else Panic
        else
          r ← take_best_block db;
          block ← unwrap r.1;
          rest ← roll_back fuel slot hash r.2;
          Done ((UnappliedTx <$> transactions block) ++ rest.1, rest.2)
      else Panic
    | None => Done ([], db)
    end
  end.

Definition bridge_step (fuel : nat) (response : NextResponse) (db : Db) : outcome (list TxEvent * Db) :=
  match response with
  | RollForward block =>
    block ← unwrap block;
    db ← append_block block db;
    Done (AppliedTx <$> transactions block, db)
  | RollBackward (Specific slot hash) => roll_back fuel slot hash db
  | RollBackward Origin => Panic
  | Await => Done ([], db)
  end.

Fixpoint bridge (fuel : nat) (responses : list NextResponse) (db : Db) : outcome (list TxEvent * Db) :=
  match responses with
  | [] => Done ([], db)
  | response :: responses =>
    r ← bridge_step fuel response db;
    rest ← bridge fuel responses r.2;
    Done (r.1 ++ rest.1, rest.2)
  end.
End Cache.
