(* ===== verification/CardanoSafety.v ===== *)
(** * What the cache of the Cardano chain guarantees

    The cache follows the chain: blocks that extend it can be taken back in
    reverse order, as many as the depth allows.  What it keeps of blocks that
    were taken, and what the bridge does on a rollback. *)

From S2P Require Import Prelude KvStore Cardano.

Section Safety.
Context {I : Type} `{Countable I} (id_bytes : I -> bytes) (ser_str : bytes -> bytes).
Context `{!Serde I, !Serde Z, !Serde (list I), !Serde (BlockRecord (I := I))}.
Context `{!SerdeLaws I, !SerdeLaws Z, !SerdeLaws (list I), !SerdeLaws (BlockRecord (I := I))}.
Context (tx_hash : bytes -> option I) (max_rollback_depth : Z).

(** Hashes are 32 bytes long; strings are serialised with their length in 8 bytes. *)
Context (id_inj : forall i j, id_bytes i = id_bytes j -> i = j) (id_length : forall i, length (id_bytes i) = 32).
Context (ser_inj : forall s t, ser_str s = ser_str t -> s = t) (ser_length : forall s, length (ser_str s) = 8 + length s).

Abbreviation Block := (Block (I := I)).
Abbreviation Key := (Key (I := I)).
Abbreviation db_get := (db_get id_bytes ser_str).
Abbreviation db_put := (db_put id_bytes ser_str).
Abbreviation db_del := (db_del id_bytes ser_str).
Abbreviation put_txs := (put_txs id_bytes ser_str).
Abbreviation del_txs := (del_txs id_bytes ser_str).
Abbreviation take_txs := (take_txs id_bytes ser_str).
Abbreviation put_block := (put_block id_bytes ser_str).
Abbreviation append_block := (append_block id_bytes ser_str tx_hash max_rollback_depth).
Abbreviation take_best_block := (take_best_block id_bytes ser_str).
Abbreviation get_best_block := (get_best_block id_bytes ser_str).

(** ** Keys *)

Lemma key_bytes_inj k k' : key_bytes id_bytes ser_str k = key_bytes id_bytes ser_str k' -> k = k'.
Proof.
  intros E. pose proof (f_equal length E) as El.
  destruct k, k'; unfold key_bytes, postfixed_key in E, El; rewrite ?length_app, ?id_length, ?ser_length in El; cbn in El; try done;
    try (apply id_inj in E; by subst); apply app_inj_1 in E as [E1%id_inj E2%ser_inj]; by rewrite ?id_length; subst.
Qed.

Lemma get_put k k' v db : db_get k (db_put k' v db) = if decide (k = k') then Some v else db_get k db.
Proof.
  unfold Cardano.db_get, Cardano.db_put. case_decide as Hk; [subst; apply lookup_insert_eq|]. apply lookup_insert_ne. intros E. by apply Hk, eq_sym, key_bytes_inj.
Qed.

Lemma get_del k k' db : db_get k (db_del k' db) = if decide (k = k') then None else db_get k db.
Proof.
  unfold Cardano.db_get, Cardano.db_del. case_decide as Hk; [subst; apply lookup_delete_eq|]. apply lookup_delete_ne. intros E. by apply Hk, eq_sym, key_bytes_inj.
Qed.

Lemma get_del_txs k tx_ids db : k ∉ KTx <$> tx_ids -> db_get k (del_txs tx_ids db) = db_get k db.
Proof.
  revert db. induction tx_ids as [|i tx_ids IH]; intros db Hk; [done|]. cbn [Cardano.del_txs foldl] in *. rewrite fmap_cons, not_elem_of_cons in Hk.
  unfold Cardano.del_txs in *. cbn [foldl]. rewrite IH by tauto. by rewrite get_del, decide_False by tauto.
Qed.

Lemma get_put_txs_other k tx_ids txs db : k ∉ KTx <$> tx_ids -> db_get k (put_txs tx_ids txs db) = db_get k db.
Proof.
  revert txs db. induction tx_ids as [|i tx_ids IH]; intros [|t txs] db Hk; try done. rewrite fmap_cons, not_elem_of_cons in Hk.
  unfold Cardano.put_txs in *. cbn [zip zip_with foldl]. rewrite IH by tauto. by rewrite get_put, decide_False by tauto.
Qed.

Lemma get_put_txs tx_ids txs db : NoDup tx_ids -> length txs = length tx_ids ->
  Forall2 (fun i t => db_get (KTx i) (put_txs tx_ids txs db) = Some t) tx_ids txs.
Proof.
  intros Hnd. revert txs db. induction Hnd as [|i tx_ids Hi Hnd IH]; intros [|t txs] db Hl; try done. constructor.
  - unfold Cardano.put_txs in *. cbn [zip zip_with foldl].
    change (db_get (KTx i) (put_txs tx_ids txs (db_put (KTx i) t db)) = Some t).
    rewrite get_put_txs_other; [by rewrite get_put, decide_True|]. intros (j & [= <-] & Hj)%list_elem_of_fmap. done.
  - apply (IH txs). by injection Hl.
Qed.

(** ** The chain in the store *)

(** A block with the hashes of its transactions. *)
Abbreviation Entry := (Block * list I)%type.

Record stored (db : Db) (e : Entry) : Prop := {
  s_parent : db_get (KParent (block_id e.1)) db = Some (to_vec (parent_id e.1));
  s_slot : db_get (KSlot (block_id e.1)) db = Some (to_vec (slot e.1));
  s_number : db_get (KNumber (block_id e.1)) db = Some (to_vec (block_number e.1));
  s_txs : db_get (KTxs (block_id e.1)) db = Some (to_vec e.2);
  s_tx : Forall2 (fun i t => db_get (KTx i) db = Some t) e.2 (transactions e.1);
}.

(** Each block is the child of the next one, and the parent of the last one is
    not in the store. *)
Fixpoint linked (db : Db) (e : Entry) (es : list Entry) : Prop :=
  match es with
  | [] => db_get (KParent (parent_id e.1)) db = None
  | e' :: es => parent_id e.1 = block_id e'.1 /\ block_number e.1 = (block_number e'.1 + 1)%Z /\
      db_get (KChild (block_id e'.1)) db = Some (to_vec (block_id e.1)) /\ linked db e' es
  end.

(** The newest block comes first. *)
Record chain (db : Db) (e : Entry) (es : list Entry) : Prop := {
  ch_best : db_get KBest db = Some (to_vec (record_of e.1));
  ch_oldest : exists o, last (e :: es) = Some o /\ db_get KOldest db = Some (to_vec (record_of o.1));
  ch_stored : Forall (stored db) (e :: es);
  ch_linked : linked db e es;
  ch_ids : NoDup ((fun e => block_id e.1) <$> e :: es);
  ch_txs : NoDup (concat (snd <$> e :: es));
}.

Definition keys_of (e : Entry) : list Key :=
  [KParent (block_id e.1); KSlot (block_id e.1); KNumber (block_id e.1); KTxs (block_id e.1)] ++ (KTx <$> e.2).

Lemma txs_frame db db' tx_ids txs : Forall2 (fun i t => db_get (KTx i) db = Some t) tx_ids txs ->
  (forall i, i ∈ tx_ids -> db_get (KTx i) db' = db_get (KTx i) db) -> Forall2 (fun i t => db_get (KTx i) db' = Some t) tx_ids txs.
Proof.
  intros Hx Hi. induction Hx as [|i t ids ts Ht _ IH]; constructor; [by rewrite Hi by left|]. apply IH. intros j Hj. apply Hi. by right.
Qed.

Lemma stored_frame db db' e : stored db e -> (forall k, k ∈ keys_of e -> db_get k db' = db_get k db) -> stored db' e.
Proof.
  intros [Hp Hs Hn Ht Hx] Hf. split; try (rewrite Hf; [done|unfold keys_of; set_solver]).
  eapply txs_frame; [exact Hx|]. intros i Hi. apply Hf. unfold keys_of. apply elem_of_app. right. by apply list_elem_of_fmap_2.
Qed.

(** *** Appending *)

(** A block that extends the chain: hashes identify blocks and transactions. *)
Record extends (e : Entry) (e0 : Entry) (es : list Entry) : Prop := {
  ex_hashes : mapO (fun t => unwrap (tx_hash t)) (transactions e.1) = Done e.2;
  ex_parent : parent_id e.1 = block_id e0.1;
  ex_number : block_number e.1 = (block_number e0.1 + 1)%Z;
  ex_id : block_id e.1 ∉ (fun e => block_id e.1) <$> e0 :: es;
  ex_root : forall o, last (e0 :: es) = Some o -> block_id e.1 <> parent_id o.1;
  ex_txs : NoDup (e.2 ++ concat (snd <$> e0 :: es));
  ex_u64 : Forall (fun x : Entry => 0 <= block_number x.1 <= u64_max)%Z (e :: e0 :: es);
}.

Definition touched (e : Entry) : list Key :=
  [KParent (block_id e.1); KChild (parent_id e.1); KSlot (block_id e.1); KNumber (block_id e.1); KTxs (block_id e.1); KBest] ++ (KTx <$> e.2).

Lemma put_block_other e k db : k ∉ touched e -> db_get k (put_block e.1 e.2 db) = db_get k db.
Proof.
  unfold touched, Cardano.put_block. intros Hk. rewrite get_put, decide_False by set_solver. rewrite get_put_txs_other by set_solver.
  by rewrite !get_put, !decide_False by set_solver.
Qed.

Lemma put_block_stored e db : NoDup e.2 -> length (transactions e.1) = length e.2 -> stored (put_block e.1 e.2 db) e.
Proof.
  intros Hnd Hl. assert (forall k, (forall i, k <> KTx i) -> k ∉ KTx <$> e.2) as Hk by (intros k Hk (i & -> & _)%list_elem_of_fmap; by eapply Hk).
  unfold Cardano.put_block. split; try (rewrite get_put, decide_False by done; rewrite get_put_txs_other by (by apply Hk);
    rewrite !get_put; repeat (rewrite decide_False by done); by rewrite decide_True).
  eapply Forall2_impl; [by apply get_put_txs|]. intros i t Hi. cbn in Hi. by rewrite get_put, decide_False.
Qed.

Lemma linked_frame db db' e es : linked db e es -> (forall x, x ∈ es -> db_get (KChild (block_id x.1)) db' = db_get (KChild (block_id x.1)) db) ->
  (forall o, last (e :: es) = Some o -> db_get (KParent (parent_id o.1)) db' = db_get (KParent (parent_id o.1)) db) -> linked db' e es.
Proof.
  revert e. induction es as [|x es IH]; intros e Hl Hc Hp; cbn in *; [by rewrite Hp|]. destruct Hl as (H1 & H2 & H3 & H4).
  split_and!; [done|done|by rewrite Hc by left|]. apply IH; [done| |done]. intros y Hy. apply Hc. by right.
Qed.

Lemma linked_cut db db' e pre o : linked db e (pre ++ [o]) ->
  (forall x, x ∈ pre -> db_get (KChild (block_id x.1)) db' = db_get (KChild (block_id x.1)) db) ->
  db_get (KParent (block_id o.1)) db' = None -> linked db' e pre.
Proof.
  revert e. induction pre as [|x pre IH]; intros e Hl Hc Hp; cbn in *; [by destruct Hl as [-> _]|]. destruct Hl as (H1 & H2 & H3 & H4).
  split_and!; [done|done|by rewrite Hc by left|]. apply IH; [done| |done]. intros y Hy. apply Hc. by right.
Qed.

Lemma linked_last db e pre o : linked db e (pre ++ [o]) -> exists n, last (e :: pre) = Some n /\ db_get (KChild (block_id o.1)) db = Some (to_vec (block_id n.1)).
Proof.
  revert e. induction pre as [|x pre IH]; intros e Hl; cbn in Hl.
  - exists e. by destruct Hl as (_ & _ & ? & _).
  - destruct Hl as (_ & _ & _ & Hl). destruct (IH x Hl) as (n & Hn & Hc). exists n. split; [|done]. by rewrite last_cons, Hn.
Qed.

(** The numbers of the blocks of a chain are consecutive. *)
Lemma linked_number db e es o : linked db e es -> last (e :: es) = Some o -> block_number e.1 = (block_number o.1 + Z.of_nat (length es))%Z.
Proof.
  revert e. induction es as [|x es IH]; intros e Hl Ho; cbn in Hl.
  - injection Ho as <-. cbn. lia.
  - destruct Hl as (_ & Hn & _ & Hl). rewrite last_cons in Ho. destruct (last (x :: es)) as [o'|] eqn:E; [|by apply last_None in E].
    injection Ho as ->. specialize (IH x Hl E). cbn [length]. lia.
Qed.

Lemma id_fresh (e x : Entry) (es : list Entry) : block_id e.1 ∉ (fun e : Entry => block_id e.1) <$> es -> x ∈ es -> block_id x.1 <> block_id e.1.
Proof. intros Hid Hx E. apply Hid. rewrite <- E. by apply (list_elem_of_fmap_2 (fun e : Entry => block_id e.1)). Qed.

(** The blocks of a chain have keys of their own. *)
Lemma keys_apart (e x : Entry) (es : list Entry) : block_id e.1 ∉ (fun e : Entry => block_id e.1) <$> es -> NoDup (e.2 ++ concat (snd <$> es)) -> x ∈ es ->
  forall k, k ∈ keys_of x -> k ∉ keys_of e.
Proof.
  intros Hid Htx Hx k Hk Hk'. pose proof (id_fresh _ _ _ Hid Hx) as Hne.
  assert (forall i, i ∈ e.2 -> i ∈ x.2 -> False) as Hdis.
  { intros i Hi Hi'. apply NoDup_app in Htx as (_ & Hd & _). apply (Hd i Hi).
    apply list_elem_of_In, in_concat. exists x.2. split; apply list_elem_of_In; [by apply list_elem_of_fmap_2|done]. }
  unfold keys_of in *. rewrite elem_of_app, !elem_of_cons in Hk, Hk'.
  destruct Hk as [[->|[->|[->|[->|Hk]]]]|(i & -> & Hi)%list_elem_of_fmap]; [..|set_solver|]; set_solver.
Qed.

Lemma keys_touched e x k : k ∈ keys_of x -> k ∉ keys_of e -> k ∉ touched e.
Proof. unfold keys_of, touched. rewrite !elem_of_app, !elem_of_cons. intros Hk. set_solver. Qed.

Lemma put_block_chain db e e0 es : chain db e0 es -> extends e e0 es -> chain (put_block e.1 e.2 db) e (e0 :: es).
Proof.
  intros [Hb (o & Ho & Hod) Hs Hl Hi Ht] [Eh Ep En Ei Er Et _].
  assert (Hi' : NoDup ((fun e : Entry => block_id e.1) <$> e :: e0 :: es)) by (rewrite fmap_cons; by constructor).
  split; try done.
  - unfold Cardano.put_block. by rewrite get_put, decide_True.
  - exists o. split; [by rewrite last_cons, Ho|]. rewrite put_block_other; [done|]. unfold touched. set_solver.
  - constructor; [apply put_block_stored; [by apply NoDup_app in Et as [? _]|symmetry; by eapply mapO_length]|]. apply Forall_forall. intros x Hx.
    eapply stored_frame; [by apply (proj1 (Forall_forall _ _) Hs)|]. intros k Hk. apply put_block_other.
    eapply keys_touched; [exact Hk|]. by eapply keys_apart.
  - cbn [linked]. split_and!; [done|done| |].
    + unfold Cardano.put_block. rewrite get_put, decide_False by done. rewrite get_put_txs_other by set_solver. rewrite !get_put.
      rewrite Ep. repeat (rewrite decide_False by done). by rewrite decide_True.
    + eapply linked_frame; [exact Hl| |].
      * intros x Hx. apply put_block_other. unfold touched. rewrite Ep. apply NoDup_cons in Hi as [Hi _].
        pose proof (id_fresh _ _ _ Hi Hx). set_solver.
      * intros o' Ho'. apply put_block_other. specialize (Er _ Ho'). unfold touched. set_solver.
Qed.

(** The store after the data of a block is deleted. *)
Definition without (o : Entry) (db : Db) : Db :=
  db_del (KChild (block_id o.1)) (db_del (KParent (block_id o.1)) (db_del (KNumber (block_id o.1))
    (db_del (KSlot (block_id o.1)) (db_del (KTxs (block_id o.1)) (del_txs o.2 db))))).

Lemma without_other o k db : k ∉ keys_of o -> k <> KChild (block_id o.1) -> db_get k (without o db) = db_get k db.
Proof.
  unfold keys_of, without. rewrite elem_of_app, !elem_of_cons. intros Hk Hc. rewrite !get_del. repeat (rewrite decide_False by tauto).
  apply get_del_txs. tauto.
Qed.

(** The last block of a chain has keys of its own. *)
Lemma last_apart (e o : Entry) pre : NoDup ((fun e : Entry => block_id e.1) <$> e :: pre ++ [o]) -> NoDup (concat (snd <$> e :: pre ++ [o])) ->
  block_id o.1 ∉ (fun e : Entry => block_id e.1) <$> e :: pre /\ NoDup (o.2 ++ concat (snd <$> e :: pre)) /\
  NoDup ((fun e : Entry => block_id e.1) <$> e :: pre).
Proof.
  rewrite app_comm_cons, !fmap_app, concat_app. cbn [fmap list_fmap concat]. rewrite app_nil_r. intros Hi Ht.
  split_and!.
  - intros Ho. apply NoDup_app in Hi as (_ & Hd & _). apply (Hd _ Ho). left.
  - by rewrite (Permutation_app_comm o.2).
  - by apply NoDup_app in Hi as [? _].
Qed.

Lemma drop_oldest_chain db e pre o : chain db e (pre ++ [o]) ->
  exists db', drop_oldest id_bytes ser_str (block_id o.1) db = Done db' /\ chain db' e pre.
Proof.
  intros [Hb (o' & Ho & Hod) Hs Hl Hi Ht]. destruct (linked_last _ _ _ _ Hl) as (n & Hn & Hc).
  assert (n ∈ e :: pre) as Hin by by apply last_Some_elem_of.
  assert (stored db n) as Sn by (apply (proj1 (Forall_forall _ _) Hs); set_solver).
  assert (stored db o) as So by (apply (proj1 (Forall_forall _ _) Hs); set_solver).
  unfold drop_oldest, expect. rewrite Hc. outcome_cbn. rewrite from_to_vec. outcome_cbn.
  rewrite (s_slot _ _ Sn). outcome_cbn. rewrite from_to_vec. outcome_cbn. rewrite (s_number _ _ Sn). outcome_cbn. rewrite from_to_vec. outcome_cbn.
  rewrite get_put, decide_False by done. rewrite (s_txs _ _ So). outcome_cbn. rewrite from_to_vec. outcome_cbn.
  eexists. split; [done|]. destruct (last_apart _ _ _ Hi Ht) as (Hido & Htxo & Hi').
  set (db1 := db_put KOldest _ db). change (chain (without o db1) e pre).
  assert (forall k, k ∉ keys_of o -> k <> KChild (block_id o.1) -> k <> KOldest -> db_get k (without o db1) = db_get k db) as Hother.
  { intros k H1 H2 H3. rewrite without_other by done. unfold db1. by rewrite get_put, decide_False. }
  split.
  - rewrite Hother; [done|unfold keys_of; set_solver|done..].
  - exists n. split; [done|]. rewrite without_other by (done || unfold keys_of; set_solver). unfold db1. by rewrite get_put, decide_True.
  - apply Forall_forall. intros x Hx. eapply stored_frame; [apply (proj1 (Forall_forall _ _) Hs); set_solver|].
    intros k Hk. apply Hother; [by eapply keys_apart|unfold keys_of in Hk; set_solver..].
  - eapply linked_cut; [exact Hl| |].
    + intros x Hx. apply Hother; [unfold keys_of; set_solver| |done]. intros [= E]. by apply (id_fresh o x (e :: pre) Hido); [set_solver|].
    + unfold without. by rewrite get_del, decide_False, get_del, decide_True by done.
  - done.
  - by apply NoDup_app in Htxo as (_ & _ & ?).
Qed.

Lemma append_chain db e e0 es d : max_rollback_depth = Z.of_nat (S d) -> length es <= d -> chain db e0 es -> extends e e0 es ->
  exists db', append_block e.1 db = Done db' /\ chain db' e (take d (e0 :: es)).
Proof.
  intros Hd Hlen Hc He. pose proof (put_block_chain _ _ _ _ Hc He) as Hc1. pose proof (ch_oldest _ _ _ Hc1) as (o & Ho & Hod).
  pose proof (linked_number _ _ _ _ (ch_linked _ _ _ Hc1) Ho) as Hn. cbn [length] in Hn.
  unfold Cardano.append_block. rewrite (ex_hashes _ _ _ He). outcome_cbn. rewrite Hod. rewrite from_to_vec. outcome_cbn. cbn [record_of rec_block_number rec_id].
  assert (block_number e.1 - block_number o.1 = Z.of_nat (S (length es)))%Z as -> by lia.
  pose proof (proj1 (Forall_forall _ _) (ex_u64 _ _ _ He)) as Hu. pose proof (Hu e ltac:(left)) as Hue. pose proof (Hu o (last_Some_elem_of _ _ Ho)) as Huo. cbn beta in Hue, Huo.
  rewrite checked_in by lia. outcome_cbn. rewrite Hd. destruct (Z.eqb_spec (Z.of_nat (S (length es))) (Z.of_nat (S d))).
  - assert (exists pre, e0 :: es = pre ++ [o] /\ length pre = d) as (pre & Hpre & Hl).
    { rewrite last_cons in Ho. destruct (last (e0 :: es)) eqn:E; [|by apply last_None in E]. injection Ho as ->.
      apply last_Some in E as [pre Hpre]. exists pre. split; [done|]. apply (f_equal length) in Hpre. rewrite length_app in Hpre. cbn in Hpre. lia. }
    rewrite Hpre in Hc1 |- *. rewrite take_app_le, take_ge by lia. by apply drop_oldest_chain.
  - eexists. split; [done|]. by rewrite take_ge by (cbn; lia).
Qed.

(** *** Taking blocks back *)

Lemma take_txs_spec tx_ids txs db : NoDup tx_ids -> Forall2 (fun i t => db_get (KTx i) db = Some t) tx_ids txs ->
  take_txs tx_ids db = Done (txs, del_txs tx_ids db).
Proof.
  intros Hnd. revert txs db. induction Hnd as [|i tx_ids Hi Hnd IH]; intros txs db Hf.
  - by apply Forall2_nil_inv_l in Hf as ->.
  - apply Forall2_cons_inv_l in Hf as (t & ts & Ht & Hts & ->). cbn [Cardano.take_txs]. rewrite Ht. outcome_cbn.
    rewrite (IH ts); [done|]. eapply txs_frame; [exact Hts|]. intros j Hj. rewrite get_del, decide_False; [done|]. by intros [= ->].
Qed.

(** Taking the best block: its parent is the best block again, if it is in the store. *)
Lemma take_chain db e es : chain db e es ->
  exists db', take_best_block db = Done (Some e.1, db') /\
    match es with
    | e' :: es => chain db' e' es
    | [] => db_get KBest db' = None /\ (forall k, k ∉ KTx <$> e.2 -> k <> KBest -> db_get k db' = db_get k db)
    end.
Proof.
  intros [Hb (o & Ho & Hod) Hs Hl Hi Ht]. pose proof (Forall_inv Hs) as Se.
  assert (NoDup e.2) as Hnd by (rewrite fmap_cons in Ht; cbn in Ht; by apply NoDup_app in Ht as [? _]).
  unfold Cardano.take_best_block. rewrite Hb. rewrite from_to_vec. outcome_cbn. cbn [record_of rec_id rec_slot rec_block_number].
  rewrite (s_txs _ _ Se). rewrite from_to_vec. outcome_cbn. rewrite (take_txs_spec _ _ _ Hnd (s_tx _ _ Se)). outcome_cbn. unfold expect.
  rewrite get_del_txs by set_solver. rewrite (s_parent _ _ Se). outcome_cbn. rewrite from_to_vec. outcome_cbn.
  rewrite get_del, decide_False by done. rewrite get_del_txs by set_solver.
  destruct es as [|e' es]; cbn [linked] in Hl.
  - rewrite Hl. outcome_cbn. eexists. split; [by destruct e as [[]]|]. split; [by rewrite get_del, decide_True|].
    intros k H1 H2. by rewrite get_del, decide_False, get_del_txs.
  - destruct Hl as (Hp & Hn & Hc & Hl). apply Forall_cons in Hs as [_ Hs]. pose proof (Forall_inv Hs) as Se'.
    rewrite Hp, (s_parent _ _ Se'). rewrite !get_del, !decide_False by done. rewrite !get_del_txs by set_solver.
    rewrite (s_slot _ _ Se'). outcome_cbn. rewrite from_to_vec. outcome_cbn. rewrite (s_number _ _ Se'). outcome_cbn. rewrite from_to_vec. outcome_cbn.
    eexists. split; [rewrite <- Hp; by destruct e as [[]]|]. cbn [fmap list_fmap concat] in Hi, Ht. apply NoDup_cons in Hi as [Hi1 Hi].
    set (db1 := db_put _ _ _). assert (forall k, k ∉ KTx <$> e.2 -> k <> KBest -> db_get k db1 = db_get k db) as Hother.
    { intros k H1 H2. unfold db1. rewrite get_put, decide_False by done. by rewrite get_del, decide_False, get_del_txs. }
    rewrite last_cons in Ho. split.
    + unfold db1. rewrite get_put, decide_True by done. by rewrite Hp.
    + destruct (last (e' :: es)) as [o'|] eqn:E; [|by apply last_None in E]. injection Ho as ->. exists o. split; [done|]. rewrite Hother; [done|set_solver|done].
    + apply Forall_forall. intros x Hx. eapply stored_frame; [by apply (proj1 (Forall_forall _ _) Hs)|]. intros k Hk.
      pose proof (keys_apart e x (e' :: es) Hi1 Ht Hx k Hk) as Hk'. apply Hother; [unfold keys_of in Hk'; set_solver|unfold keys_of in Hk; set_solver].
    + eapply linked_frame; [exact Hl| |]; intros; apply Hother; set_solver.
    + done.
    + by apply NoDup_app in Ht as (_ & _ & ?).
Qed.

(** ** Following the chain *)

(** The first block of a store. *)
Record first_block (e : Entry) : Prop := {
  fb_hashes : mapO (fun t => unwrap (tx_hash t)) (transactions e.1) = Done e.2;
  fb_root : parent_id e.1 <> block_id e.1;
  fb_txs : NoDup e.2;
}.

Lemma get_empty k : db_get k ∅ = None.
Proof. apply lookup_empty. Qed.

Lemma first_chain e : first_block e -> exists db, append_block e.1 ∅ = Done db /\ chain db e [] /\ db_get (KChild (block_id e.1)) db = None.
Proof.
  intros [Hh Hr Hn]. unfold Cardano.append_block. rewrite Hh. outcome_cbn.
  rewrite put_block_other by (unfold touched; set_solver). rewrite get_empty. eexists. split; [done|].
  assert (forall k, k <> KOldest -> db_get k (db_put KOldest (to_vec (record_of e.1)) (put_block e.1 e.2 ∅)) = db_get k (put_block e.1 e.2 ∅)) as Hother.
  { intros k Hk. by rewrite get_put, decide_False. }
  assert (stored (put_block e.1 e.2 ∅) e) as Hs by (apply put_block_stored; [done|symmetry; by eapply mapO_length]).
  split; [split|].
  - rewrite Hother by done. unfold Cardano.put_block. by rewrite get_put, decide_True.
  - exists e. split; [done|]. by rewrite get_put, decide_True.
  - constructor; [|done]. eapply stored_frame; [exact Hs|]. intros k Hk. apply Hother. unfold keys_of in Hk. set_solver.
  - cbn [linked]. rewrite Hother by done. rewrite put_block_other; [apply get_empty|]. unfold touched. set_solver.
  - cbn. apply NoDup_singleton.
  - cbn. by rewrite app_nil_r.
  - rewrite Hother by done. rewrite put_block_other; [apply get_empty|]. unfold touched. set_solver.
Qed.

(** Blocks, the oldest first, that extend a chain one after the other. *)
Fixpoint extending (d : nat) (ns : list Entry) (e : Entry) (es : list Entry) : Prop :=
  match ns with
  | [] => True
  | n :: ns => extends n e es /\ extending d ns n (take d (e :: es))
  end.

Definition append_all (ns : list Entry) (db : Db) : outcome Db := foldO (fun db n => append_block n.1 db) ns db.

Lemma append_all_chain d ns db e es : max_rollback_depth = Z.of_nat (S d) -> length es <= d -> chain db e es -> extending d ns e es ->
  exists db' e' es', append_all ns db = Done db' /\ chain db' e' es' /\ e' :: es' = take (S d) (reverse ns ++ e :: es).
Proof.
  intros Hd. unfold append_all. revert db e es. induction ns as [|n ns IH]; intros db e es Hlen Hc He.
  - exists db, e, es. split_and!; [done..|]. rewrite reverse_nil. cbn [app]. rewrite firstn_cons. by rewrite take_ge.
  - destruct He as [He Hes]. destruct (append_chain _ _ _ _ _ Hd Hlen Hc He) as (db1 & Ha & Hc1). cbn [foldO]. rewrite Ha. outcome_cbn.
    destruct (IH db1 n (take d (e :: es))) as (db' & e' & es' & Hf & Hc' & Heq); [rewrite length_take; lia|done..|].
    exists db', e', es'. split_and!; [done..|]. rewrite Heq, reverse_cons, <- app_assoc. cbn [app].
    rewrite !take_app. f_equal. destruct (S d - length (reverse ns)) as [|m] eqn:E; [done|]. cbn [take]. rewrite take_take. f_equal. f_equal. lia.
Qed.

Fixpoint take_blocks (k : nat) (db : Db) : outcome (list Block * Db) :=
  match k with
  | 0 => Done ([], db)
  | S k => r ← take_best_block db; b ← unwrap r.1; rest ← take_blocks k r.2; Done (b :: rest.1, rest.2)
  end.

Lemma take_blocks_chain k db e es : chain db e es -> k <= S (length es) -> exists db', take_blocks k db = Done (fst <$> take k (e :: es), db').
Proof.
  revert db e es. induction k as [|k IH]; intros db e es Hc Hk; [by eexists|]. cbn [take_blocks].
  destruct (take_chain _ _ _ Hc) as (db1 & -> & Hc1). outcome_cbn. destruct es as [|e' es].
  - cbn in Hk. destruct k; [by eexists|lia].
  - destruct (IH db1 e' es Hc1) as (db' & Hdb'); [cbn in Hk; lia|]. exists db'. cbn [fst snd]. outcome_cbn. by rewrite Hdb'.
Qed.

(** C21: a store that followed the chain from its first block on rolls back: as
    many blocks as the depth allows can be taken, the newest first, each with
    its parent, slot, number and transactions. *)
Theorem cache_rolls_back d n0 ns k : max_rollback_depth = Z.of_nat (S d) -> first_block n0 -> extending d ns n0 [] ->
  k <= S d -> k <= S (length ns) ->
  exists db db', append_all (n0 :: ns) ∅ = Done db /\ take_blocks k db = Done (fst <$> take k (reverse (n0 :: ns)), db').
Proof.
  intros Hd Hf Hext Hk1 Hk2. destruct (first_chain _ Hf) as (db0 & H0 & Hc0 & _).
  destruct (append_all_chain d ns db0 n0 [] Hd ltac:(cbn; lia) Hc0 Hext) as (db & e & es & Ha & Hc & Heq). rewrite <- reverse_cons in Heq.
  assert (length (e :: es) = S d `min` S (length ns)) as Hlen by (by rewrite Heq, length_take, length_reverse).
  destruct (take_blocks_chain k db e es Hc) as (db' & Hdb'); [cbn in Hlen; lia|].
  exists db, db'. unfold append_all in *. cbn [foldO]. rewrite H0. outcome_cbn. split; [done|]. rewrite Hdb', Heq, take_take. by rewrite Nat.min_l.
Qed.

(** *** What is left of a block that was taken *)

(** A block of another branch than [n0]. *)
Record sibling (n0 : Entry) (b : Block) : Prop := {
  sb_hashes : exists tx_ids, mapO (fun t => unwrap (tx_hash t)) (transactions b) = Done tx_ids;
  sb_parent : parent_id b <> block_id n0.1;
}.

(** The record of the oldest block outlives the block. *)
Definition stale (n0 : Entry) (db : Db) : Prop :=
  db_get KOldest db = Some (to_vec (record_of n0.1)) /\ db_get (KChild (block_id n0.1)) db = None.

Lemma put_sibling_stale n0 b tx_ids db : stale n0 db -> parent_id b <> block_id n0.1 -> stale n0 (put_block b tx_ids db).
Proof.
  intros [Ho Hc] Hp. split.
  - rewrite (put_block_other (b, tx_ids)); [done|]. unfold touched. set_solver.
  - rewrite (put_block_other (b, tx_ids)); [done|]. unfold touched. set_solver.
Qed.

Lemma append_stale n0 b db : stale n0 db -> sibling n0 b -> (0 <= block_number b - block_number n0.1 <= u64_max)%Z ->
  if (block_number b - block_number n0.1 =? max_rollback_depth)%Z then append_block b db = Panic
  else exists db', append_block b db = Done db' /\ stale n0 db'.
Proof.
  intros Hst [(tx_ids & Hh) Hp] Hage. pose proof (put_sibling_stale _ _ tx_ids _ Hst Hp) as Hst'. pose proof Hst' as [Ho Hc].
  unfold Cardano.append_block. rewrite Hh. outcome_cbn. rewrite Ho. rewrite from_to_vec. outcome_cbn. cbn [record_of rec_block_number rec_id].
  rewrite checked_in by done. outcome_cbn. destruct (_ =? _)%Z; [|by eexists]. unfold drop_oldest, expect. by rewrite Hc.
Qed.

Lemma append_all_stale n0 bs db : stale n0 db -> Forall (sibling n0) bs -> (0 <= max_rollback_depth <= u64_max)%Z ->
  Forall (fun b => 0 <= block_number b - block_number n0.1 < max_rollback_depth)%Z bs ->
  exists db', foldO (fun db b => append_block b db) bs db = Done db' /\ stale n0 db'.
Proof.
  intros Hst Hsib Hdepth Hages. revert db Hst. induction bs as [|x bs IH]; intros db Hst; [by exists db|].
  apply Forall_cons in Hsib as [Hx Hsib]. apply Forall_cons in Hages as [Hax Hages]. cbn [foldO].
  pose proof (append_stale _ _ _ Hst Hx ltac:(lia)) as Hp. rewrite (proj2 (Z.eqb_neq _ _)) in Hp by lia. destruct Hp as (db' & -> & Hst'). by apply IH.
Qed.

(** When all blocks of the store were taken the connector panics later: the
    record of the oldest block is not removed with it, and the block of the
    new branch that reaches the depth looks for its child. *)
Theorem emptied_cache_panics n0 bs b : first_block n0 -> Forall (sibling n0) (bs ++ [b]) ->
  Forall (fun b => 0 <= block_number b - block_number n0.1 < max_rollback_depth)%Z bs ->
  (block_number b - block_number n0.1 = max_rollback_depth)%Z -> (0 <= max_rollback_depth <= u64_max)%Z ->
  exists db1 db2 db3, append_block n0.1 ∅ = Done db1 /\ take_best_block db1 = Done (Some n0.1, db2) /\
    foldO (fun db b => append_block b db) bs db2 = Done db3 /\ append_block b db3 = Panic.
Proof.
  intros Hf Hsib Hages Hage Hdepth. apply Forall_app in Hsib as [Hsib Hb]. apply Forall_inv in Hb.
  destruct (first_chain _ Hf) as (db1 & H1 & Hc1 & Hchild). destruct (take_chain _ _ _ Hc1) as (db2 & H2 & Hbest & Hsame).
  assert (stale n0 db2) as Hst.
  { destruct (ch_oldest _ _ _ Hc1) as (o & [= <-] & Ho). split; by rewrite Hsame by set_solver. }
  enough (exists db3, foldO (fun db b => append_block b db) bs db2 = Done db3 /\ stale n0 db3) as (db3 & H3 & Hst3).
  { exists db1, db2, db3. split_and!; [done..|]. pose proof (append_stale _ _ _ Hst3 Hb ltac:(lia)) as Hp. by rewrite (proj2 (Z.eqb_eq _ _)) in Hp. }
  by apply append_all_stale.
Qed.

(** A block that was taken from the store still exists for it. *)
Lemma taken_block_exists e : first_block e ->
  exists db db', append_block e.1 ∅ = Done db /\ take_best_block db = Done (Some e.1, db') /\ exists_block id_bytes ser_str (block_id e.1) db' = true.
Proof.
  intros Hf. destruct (first_chain _ Hf) as (db & H1 & Hc & _). destruct (take_chain _ _ _ Hc) as (db' & H2 & Hbest & Hsame).
  exists db, db'. split_and!; [done..|]. unfold exists_block. rewrite Hsame by set_solver.
  rewrite (s_slot _ _ (Forall_inv (ch_stored _ _ _ Hc))). by apply bool_decide_true.
Qed.

(** ** The bridge *)

Abbreviation bridge := (bridge id_bytes ser_str tx_hash max_rollback_depth).

Lemma bridge_app fuel rs rs' db : bridge fuel (rs ++ rs') db =
  (r ← bridge fuel rs db; rest ← bridge fuel rs' r.2; Done (r.1 ++ rest.1, rest.2)).
Proof.
  revert db. induction rs as [|r rs IH]; intros db; cbn [app Cardano.bridge].
  - outcome_cbn. cbn [fst snd app]. by destruct (bridge fuel rs' db) as [[]| |].
  - destruct (bridge_step _ _ _ _ _ _ _) as [[evs db1]| |]; [|done..]. outcome_cbn. cbn [fst snd]. rewrite IH.
    destruct (bridge fuel rs db1) as [[evs1 db2]| |]; [|done..]. outcome_cbn. cbn [fst snd].
    destruct (bridge fuel rs' db2) as [[evs2 db3]| |]; [|done..]. outcome_cbn. cbn [fst snd]. by rewrite app_assoc.
Qed.

Definition forward (ns : list Entry) : list (NextResponse (I := I)) := (fun n => RollForward (Some n.1)) <$> ns.

Definition applied (ns : list Entry) : list TxEvent := concat ((fun n => AppliedTx <$> transactions n.1) <$> ns).

Lemma bridge_forward fuel ns db db' : append_all ns db = Done db' -> bridge fuel (forward ns) db = Done (applied ns, db').
Proof.
  unfold append_all. revert db. induction ns as [|n ns IH]; intros db Ha; cbn [foldO] in Ha; [by injection Ha as <-|].
  apply bind_Done in Ha as (db1 & H1 & Ha). change (forward (n :: ns)) with (RollForward (Some n.1) :: forward ns).
  cbn [Cardano.bridge bridge_step]. outcome_cbn. rewrite H1. outcome_cbn. cbn [fst snd]. by rewrite (IH _ Ha).
Qed.

(** The bridge sends the transactions of the blocks in the order of the
    chain; a rollback to the last block is accepted, and every rollback to an
    earlier slot, which is what rollbacks are, panics on an assertion whose
    comparison is the wrong way round. *)
Theorem bridge_panics_on_rollback d n0 ns n fuel : max_rollback_depth = Z.of_nat (S d) -> first_block n0 -> extending d ns n0 [] ->
  last (n0 :: ns) = Some n ->
  (exists db, bridge (S fuel) (forward (n0 :: ns) ++ [RollBackward (Specific (slot n.1) (block_id n.1))]) ∅ = Done (applied (n0 :: ns), db)) /\
  forall slot' hash, (slot' < slot n.1)%Z -> bridge (S fuel) (forward (n0 :: ns) ++ [RollBackward (Specific slot' hash)]) ∅ = Panic.
Proof.
  intros Hd Hf Hext Hlast. destruct (first_chain _ Hf) as (db0 & H0 & Hc0 & _).
  destruct (append_all_chain d ns db0 n0 [] Hd ltac:(cbn; lia) Hc0 Hext) as (db & e & es & Ha & Hc & Heq). rewrite <- reverse_cons in Heq.
  assert (append_all (n0 :: ns) ∅ = Done db) as Hall by (unfold append_all in *; cbn [foldO]; rewrite H0; exact Ha).
  assert (e = n) as ->. { apply last_Some in Hlast as [l Hl]. rewrite Hl, reverse_app in Heq. by injection Heq as -> _. }
  assert (get_best_block db = Some (record_of n.1)) as Hbest.
  { unfold Cardano.get_best_block. rewrite (ch_best _ _ _ Hc). cbn. apply from_to_vec. }
  split; [exists db|intros slot' hash Hs]; rewrite bridge_app, (bridge_forward _ _ _ _ Hall); outcome_cbn;
    cbn [Cardano.bridge bridge_step roll_back fst snd]; rewrite Hbest; cbn [record_of rec_slot rec_id].
  - rewrite Z.leb_refl, Z.eqb_refl, decide_True by done. outcome_cbn. cbn [fst snd app]. by rewrite app_nil_r.
  - by rewrite (proj2 (Z.leb_gt _ _)).
Qed.
End Safety.

(** ** A sample chain *)

Module Sample.
Definition id_bytes (i : Z) : bytes := i :: replicate 31 0%Z.
Definition ser_str (s : bytes) : bytes := be_bytes 8 (Z.of_nat (length s)) ++ s.

Lemma id_inj i j : id_bytes i = id_bytes j -> i = j.
Proof. by intros [= ->]. Qed.

Lemma ser_inj s t : ser_str s = ser_str t -> s = t.
Proof. unfold ser_str. intros E. apply app_inj_1 in E as [_ E]; [done|]. by rewrite !be_bytes_length. Qed.

Lemma ser_length s : length (ser_str s) = 8 + length s.
Proof. unfold ser_str. by rewrite length_app, be_bytes_length. Qed.

#[local] Instance z_serde : Serde Z := {| to_vec x := [x]; from_slice b := match b with [x] => Some x | _ => None end |}.
#[local] Instance z_serde_laws : SerdeLaws Z.
Proof. by intros x. Qed.
#[local] Instance list_serde : Serde (list Z) := {| to_vec x := x; from_slice b := Some b |}.
#[local] Instance list_serde_laws : SerdeLaws (list Z).
Proof. by intros x. Qed.
#[local] Instance record_serde : Serde (BlockRecord (I := Z)) := {|
  to_vec r := [rec_id r; rec_slot r; rec_block_number r];
  from_slice b := match b with [i; s; n] => Some {| rec_id := i; rec_slot := s; rec_block_number := n |} | _ => None end |}.
#[local] Instance record_serde_laws : SerdeLaws (BlockRecord (I := Z)).
Proof. by intros []. Qed.

Definition tx_hash (t : bytes) : option Z := head t.

Definition block (i parent slot number : Z) (txs : list Z) : Block (I := Z) * list Z :=
  ({| block_id := i; parent_id := parent; slot := slot; block_number := number; transactions := (fun t => [t]) <$> txs |}, txs).

Definition b0 := block 1 0 10 100 [5; 6]%Z.
Definition b1 := block 2 1 11 101 [7]%Z.
Definition b2 := block 3 2 12 102 [8]%Z.
(** A branch that starts beside the first block. *)
Definition f0 := block 11 0 13 100 [5]%Z.
Definition f1 := block 12 11 14 101 [9]%Z.
Definition f2 := block 13 12 15 102 []%Z.

Lemma first_ok : first_block tx_hash b0.
Proof. split; [done|done|]. repeat constructor; set_solver. Qed.

Lemma branch_ok : extending tx_hash 1 [b1; b2] b0 [].
Proof.
  split; [|split; [|done]]; (split; [done|done|done|by apply (bool_decide_unpack _); vm_compute|by intros o [= <-]|
    by apply (bool_decide_unpack _); vm_compute|by apply (bool_decide_unpack _); vm_compute]).
Qed.

Lemma cache_rolls_back_witness : exists db db',
  append_all id_bytes ser_str tx_hash 2 [b0; b1; b2] ∅ = Done db /\ take_blocks id_bytes ser_str 2 db = Done ([b2.1; b1.1], db').
Proof.
  apply (cache_rolls_back id_bytes ser_str tx_hash 2 id_inj (fun i => eq_refl) ser_inj ser_length 1 b0 [b1; b2] 2).
  - reflexivity.
  - exact first_ok.
  - exact branch_ok.
  - lia.
  - cbn. lia.
Defined.

Lemma emptied_cache_panics_witness : exists db1 db2 db3, append_block id_bytes ser_str tx_hash 2 b0.1 ∅ = Done db1 /\
  take_best_block id_bytes ser_str db1 = Done (Some b0.1, db2) /\
  foldO (fun db b => append_block id_bytes ser_str tx_hash 2 b db) [f0.1; f1.1] db2 = Done db3 /\ append_block id_bytes ser_str tx_hash 2 f2.1 db3 = Panic.
Proof.
  apply (emptied_cache_panics id_bytes ser_str tx_hash 2 id_inj (fun i => eq_refl) ser_inj ser_length b0 [f0.1; f1.1] f2.1).
  - exact first_ok.
  - repeat constructor; by eexists || done.
  - repeat constructor; done.
  - reflexivity.
  - done.
Defined.

Lemma bridge_panics_on_rollback_witness :
  (exists db, bridge id_bytes ser_str tx_hash 2 1 (forward [b0; b1; b2] ++ [RollBackward (Specific 12%Z 3%Z)]) ∅ =
    Done ([AppliedTx [5]; AppliedTx [6]; AppliedTx [7]; AppliedTx [8]]%Z, db)) /\
  bridge id_bytes ser_str tx_hash 2 1 (forward [b0; b1; b2] ++ [RollBackward (Specific 11%Z 2%Z)]) ∅ = Panic.
Proof.
  destruct (bridge_panics_on_rollback id_bytes ser_str tx_hash 2 id_inj (fun i => eq_refl) ser_inj ser_length 1 b0 [b1; b2] b2 0) as [H1 H2].
  - reflexivity.
  - exact first_ok.
  - exact branch_ok.
  - reflexivity.
  - split; [exact H1|]. by apply H2.
Defined.
End Sample.
