(* ===== verification/ErgoSamples.v ===== *)
(** * Instances for the Ergo connector

    Concrete instances of the interfaces of the Ergo connector: the field of
    two elements as a curve, digests that count, a library of boxes, stores
    with their codecs, and a connector with a committee, a vault and deposits.
    The theorems about the connector and the contracts are applied to them. *)

From S2P Require Import SigmaAggregation Ledger Crypto SigmaCrypto Algebra Prelude KvStore RetryScheduler ErgoStores ErgoBoxes ErgoContracts ErgoCells ContractSafety ErgoTx VaultSelection ErgoConnector ErgoSafety ErgoSync.

(** ** Cryptography *)

Definition bit_byte (p : bool) : Z := if p then 1%Z else 0%Z.

(** The field of two elements; the bytes of a scalar have its parity. *)
#[export] Instance bit_curve : Curve := {|
  Scalar := bool; Point := bool; s0 := false; s1 := true; sadd := xorb; smul := andb; ssub := xorb; sopp := id;
  identity := false; generator := true; padd := xorb; psub := xorb; pmul := andb;
  scalar_from_bytes b := Some (Z.odd (be_value b));
  scalar_to_bytes s := be_bytes 32 (if s then 2 ^ 128 + 1 else 2 ^ 128 + 2);
  sec1_bytes p := [bit_byte p];
|}.

#[export] Instance bit_curve_laws : CurveLaws bit_curve.
Proof.
  split; [split|..]; try (repeat (intros []); done).
  by intros [] Hs.
Qed.

#[export] Instance bit_scalars : ScalarInts (C := bit_curve) := Z.odd.

#[export] Instance bit_scalars_laws : ScalarIntsLaws (C := bit_curve).
Proof.
  split; [done|..].
  - intros m n. apply Z.odd_add.
  - intros m n. apply Z.odd_mul.
  - by intros b s [= <-].
Qed.

#[export] Instance bit_bytes_laws : ScalarBytesLaws (C := bit_curve).
Proof.
  split.
  - intros s. split; [apply be_bytes_length|apply be_bytes_byte].
  - by intros [].
Qed.

#[export] Instance counting_blake2b : Blake2b := fun m => be_bytes 32 (2 * Z.of_nat (length m) + 1).
#[export] Instance counting_sha256 : Sha256 := fun m => be_bytes 32 (2 * Z.of_nat (length m) + 1).

#[export] Instance counting_digests : Digests32.
Proof. split; intros m; (split; [apply be_bytes_length|apply be_bytes_byte]). Qed.

#[export] Instance bit_schnorr : Schnorr (C := bit_curve) := {|
  SchnorrSig := unit; schnorr_sign _ _ := tt; schnorr_verify _ _ _ := true; even_y _ := true;
|}.

#[export] Instance bit_schnorr_bytes : SchnorrBytes (SG := bit_schnorr) :=
  {| signature_bytes _ := replicate 64 1%Z; verifying_key_bytes p := [bit_byte p]; is_field_element _ := true |}.

(** ** Numbers *)

#[export] Instance byte_numbers : BigInts := {|
  to_bytes_be n := if decide (n <= 0)%Z then [0%Z] else be_bytes (S (Z.to_nat (Z.log2 n / 8))) n;
  to_signed_bytes_be n := be_bytes 32 (n mod 256 ^ 32);
|}.

Lemma pow256 k : (256 ^ Z.of_nat k = 2 ^ (8 * Z.of_nat k))%Z.
Proof. by rewrite Z.pow_mul_r by lia. Qed.

Lemma log2_bytes n k : (0 < n)%Z -> (256 ^ Z.of_nat k <= n)%Z <-> k < S (Z.to_nat (Z.log2 n / 8)).
Proof.
  intros Hn. rewrite pow256. pose proof (Z.log2_nonneg n). pose proof (Z.div_mod (Z.log2 n) 8). pose proof (Z.mod_pos_bound (Z.log2 n) 8).
  rewrite Z.log2_le_pow2 by lia. assert (0 <= Z.log2 n / 8)%Z by (apply Z.div_pos; lia). lia.
Qed.

#[export] Instance byte_numbers_laws : BigIntsLaws.
Proof.
  split.
  - intros n Hn. cbn. case_decide as H0; [assert (n = 0%Z) as -> by lia; split; [by repeat constructor|done]|].
    split; [apply be_bytes_byte|]. apply be_value_bytes. split; [done|]. apply Z.lt_nge. rewrite log2_bytes by lia. lia.
  - intros n k Hn. cbn. rewrite decide_False by lia. rewrite be_bytes_length. by apply log2_bytes.
  - done.
  - intros n Hn. split; [cbn; intros E; by apply (f_equal length) in E; rewrite be_bytes_length in E|]. cbn [to_signed_bytes_be byte_numbers].
    unfold be_signed. rewrite be_bytes_length. change (256 ^ Z.of_nat 32)%Z with (2 ^ 256)%Z. rewrite be_value_bytes.
    2: { change (256 ^ Z.of_nat 32)%Z with (2 ^ 256)%Z. apply Z.mod_pos_bound. lia. }
    change (256 ^ 32)%Z with (2 ^ 256)%Z. destruct (Z.leb_spec 0 n).
    + rewrite Z.mod_small by lia. by rewrite (proj2 (Z.leb_gt _ _)) by lia.
    + replace (n mod 2 ^ 256)%Z with (n + 2 ^ 256)%Z by (apply Z.mod_unique with (-1)%Z; lia). rewrite (proj2 (Z.leb_le _ _)) by lia. lia.
Qed.

#[export] Instance key_order : HashOrder := fun A m => map_to_list m.

#[export] Instance key_order_laws : HashOrderLaws.
Proof. by intros A m. Qed.

(** ** Boxes *)

#[export] Instance plain_lib : ErgoLib (C := bit_curve) := {|
  ErgoTree := list Z; VAULT_CONTRACT := [1]%Z; DEPOSIT_CONTRACT := [2]%Z; miners_fee_script := [3]%Z; proposition_bytes t := t;
  recreate_from_ergo_tree t := match t with [4; b]%Z => Some (P2Pk (Z.odd b)) | _ => None end;
  address_script a := match a with P2Pk p => Some [4%Z; bit_byte p] | _ => None end;
  prove_dlog_from l := match l with LGroupElement p => Some p | _ => None end;
  pk_from_sec1 b := match b with [1]%Z => Some true | _ => None end;
  box_value_ok v := bool_decide (0 < v <= i64_max)%Z; token_amount_ok v := bool_decide (0 < v <= i64_max)%Z;
  max_tokens := 255; max_io := 100;
  literal_of_points ps := LWrappedColl SGroupElement (LGroupElement <$> ps); literal_of_ints ns := LWrappedColl SInt (LInt <$> ns);
  literal_of_bytes bs := LCollByte bs;
|}.

#[export] Instance plain_lib_laws : ErgoLibLaws (C := bit_curve).
Proof.
  split; [done|done|..].
  - intros bs Hbs. exists bs. split; [done|]. induction Hbs as [|b bs Hb _ IH]; [done|]. rewrite fmap_cons, IH. by rewrite Z.mod_small.
  - by intros a Ha%bool_decide_eq_true.
  - by intros a Ha%bool_decide_eq_true.
  - by intros [] Hp.
Qed.

#[export] Instance list_trees : AvlTrees := {|
  AvlTree := list (list Z * list Z); avl_insert t ins proof := Some (t ++ ins); avl_digest t := be_bytes 33 (Z.of_nat (length t));
|}.

Lemma sample_miners_apart : proposition_bytes miners_fee_script <> proposition_bytes VAULT_CONTRACT.
Proof. done. Qed.

(** Go through a list. *)
Ltac all_of := repeat (apply Forall_cons; split); try apply Forall_nil_2.

(** ** A committee, a vault and deposits *)

Definition sample_token : list Z := replicate 32 7%Z.

Definition committee_box : ErgoBox := {|
  bx_id := replicate 32 1%Z; bx_value := 1000000; bx_tree := [9]%Z; bx_tokens := [];
  bx_registers := {[ 4 := LWrappedColl SGroupElement [LGroupElement true]; 6 := LWrappedColl SInt [LInt 1; LInt 1; LInt 1000; LInt 0];
    7 := LGroupElement true; 8 := LGroupElement false; 9 := LCollByte (blake2b [1%Z]) ]};
  bx_height := 1;
|}.

Definition vault_box : ErgoBox := {|
  bx_id := replicate 32 2%Z; bx_value := 100000000; bx_tree := [1]%Z;
  bx_tokens := [{| token_id := sample_token; amount := 1 |}; {| token_id := replicate 32 8%Z; amount := 50 |}];
  bx_registers := {[ 4 := LWrappedColl SCollByte [LCollByte (replicate 32 1%Z)] ]}; bx_height := 2;
|}.

Definition deposit_box (i value : Z) (ts : list Token) : ErgoBox := {|
  bx_id := replicate 32 i; bx_value := value; bx_tree := [2]%Z; bx_tokens := ts;
  bx_registers := {[ 4 := LCollByte sample_token; 5 := LGroupElement true ]}; bx_height := 3;
|}.

Definition deposit_cell (b : ErgoBox) : ErgoInboundCell :=
  {| inbound_cell := {| ergs := bx_value b; address := P2Pk true; tokens := bx_tokens b |}; inbound_id := bx_id b |}.

Definition deposit (i value : Z) (ts : list Token) : ErgoBox * ErgoInboundCell := (deposit_box i value ts, deposit_cell (deposit_box i value ts)).

Definition two_deposits : list (ErgoBox * ErgoInboundCell) :=
  [deposit 20 3000000 [{| token_id := replicate 32 8%Z; amount := 5 |}]; deposit 21 4000000 [{| token_id := replicate 32 9%Z; amount := 6 |}]].

Lemma sample_committee_inputs : committee_inputs vault_box [committee_box] 10 1.
Proof.
  split.
  - exists [replicate 32 1%Z]. split; [vm_compute; reflexivity|]. all_of. done.
  - exists committee_box, 1%Z, 1000%Z, 0%Z, 0%Z, 1000%Z. split; [done|]. split; [vm_compute; reflexivity|]. split; [vm_compute; reflexivity|lia].
Qed.

Lemma sample_vault_ok : vault_ok sample_token vault_box.
Proof. split; [vm_compute; discriminate|]. all_of; by vm_compute. Qed.

Lemma sample_deposits_ok : Forall (deposit_ok sample_token) two_deposits.
Proof. all_of; (split; [all_of; by vm_compute|]; split; [done|]; split; [by vm_compute|done]). Qed.

Lemma deposit_tx_vault_accepted_witness : exists utx, deposit_tx vault_box two_deposits sample_token [committee_box] 10 = Done utx /\
  vault_contract vault_box (vault_input_vars sample_token)
    (tx_context (vault_box :: two_deposits.*1) [[1]%Z; [2]%Z] (utx_outputs utx) [committee_box] 10) = Done true.
Proof.
  destruct (is_done_exists (deposit_tx vault_box two_deposits sample_token [committee_box] 10)) as [utx Hutx]; [by vm_compute|].
  exists utx. split; [exact Hutx|].
  apply (deposit_tx_vault_accepted sample_miners_apart vault_box two_deposits sample_token [committee_box] 10 _ [1]%Z [2]%Z 1).
  - exact sample_vault_ok.
  - exact sample_deposits_ok.
  - all_of; by apply (bool_decide_unpack _); vm_compute.
  - vm_compute. discriminate.
  - exact sample_committee_inputs.
  - exact Hutx.
Defined.

(** ** A notarized report *)

Definition sample_cell : ErgoTermCell :=
  {| term_cell := {| ergs := 5000000; address := P2Pk true; tokens := [{| token_id := replicate 32 8%Z; amount := 10 |}] |} |}.

Definition sample_elements : NotarizationElements := {|
  ne_aggregate_commitment := true : Point; ne_aggregate_response := false : Scalar; ne_exclusion_set := [];
  ne_threshold := {| num := 1; denom := 1 |}; ne_starting_avl_tree := [] : AvlTree; ne_proof := []; ne_resulting_digest := be_bytes 33 2;
  ne_terminal_cells := [sample_cell]; ne_max_miner_fee := 1000000;
|}.

Lemma sample_report_ok : report_ok sample_elements [true].
Proof.
  split.
  - by vm_compute.
  - apply Forall_nil_2.
  - done.
  - split; all_of; [|done]. split; [all_of; by vm_compute|]. by intros s [= <-].
  - done.
  - destruct (is_done_exists (report_insertions [sample_cell] 1000000)) as [ins Hins]; [by vm_compute|]. exists ins, ins. split; [exact Hins|].
    split; [done|]. assert (length ins = 2) as Hl; [|change (be_bytes 33 (Z.of_nat (length ins)) = be_bytes 33 2); by rewrite Hl].
    enough (match report_insertions [sample_cell] 1000000 with Done l => length l =? 2 | _ => false end = true) as Hb by (rewrite Hins in Hb; by apply Nat.eqb_eq).
    by vm_compute.
Qed.

Lemma sample_committee_boxes : committee_boxes [committee_box] 1 [true].
Proof.
  split.
  - exists committee_box. split_and!; [done|by vm_compute..].
  - exists [[true]]. split; by vm_compute.
Qed.

Lemma withdrawal_tx_accepted_witness : exists utx vars, withdrawal_tx sample_elements 1 vault_box sample_token [committee_box] 10 = Done utx /\
  utx_inputs utx = [(bx_id vault_box, vars)] /\
  vault_contract vault_box vars (tx_context [vault_box] [[1]; [2]; [3]]%Z (utx_outputs utx) [committee_box] 10) = Done true.
Proof.
  destruct (is_done_exists (withdrawal_tx sample_elements 1 vault_box sample_token [committee_box] 10)) as [utx Hutx]; [by vm_compute|].
  destruct (withdrawal_tx_accepted sample_miners_apart sample_elements 1 vault_box sample_token [committee_box] 10 utx [[1]; [2]; [3]]%Z 1 [true])
    as (vars & Hin & Hc).
  - exact sample_report_ok.
  - split; [done|by vm_compute].
  - exact sample_vault_ok.
  - exact sample_committee_inputs.
  - exact sample_committee_boxes.
  - exact Hutx.
  - enough (match withdrawal_tx sample_elements 1 vault_box sample_token [committee_box] 10 with Done u => 3 =? length (utx_outputs u) | _ => false end = true)
      as Hb by (rewrite Hutx in Hb; by apply Nat.eqb_eq).
    by vm_compute.
  - exists utx, vars. split; [exact Hutx|]. split; [exact Hin|exact Hc].
Defined.

Lemma withdrawal_tx_balance_witness : exists utx, withdrawal_tx sample_elements 1 vault_box sample_token [committee_box] 10 = Done utx /\
  foldr Z.add 0%Z (c_value <$> utx_outputs utx) = 100000000%Z /\ outputs_tokens (replicate 32 8%Z) (utx_outputs utx) = 60%Z.
Proof.
  destruct (is_done_exists (withdrawal_tx sample_elements 1 vault_box sample_token [committee_box] 10)) as [utx Hutx]; [by vm_compute|].
  destruct (withdrawal_tx_balance sample_elements 1 vault_box sample_token [committee_box] 10 utx (replicate 32 8%Z) Hutx) as [Hv Ht].
  exists utx. split; [exact Hutx|]. split; [exact Hv|]. rewrite Ht. by vm_compute.
Defined.

Definition no_tree : @AvlTree list_trees := [].

Definition thief_vault : ErgoBox := {| bx_id := [5]%Z; bx_value := 1000000; bx_tree := [1]%Z; bx_tokens := [{| token_id := sample_token; amount := 1 |}];
  bx_registers := ∅; bx_height := 10 |}.
Definition thief_box : ErgoBox := {| bx_id := [6]%Z; bx_value := 98000000; bx_tree := [4; 0]%Z;
  bx_tokens := [{| token_id := replicate 32 8%Z; amount := 50 |}]; bx_registers := ∅; bx_height := 10 |}.
Definition fee_box : ErgoBox := {| bx_id := [7]%Z; bx_value := 1000000; bx_tree := [3]%Z; bx_tokens := []; bx_registers := ∅; bx_height := 10 |}.

Definition paid_tree : @AvlTree list_trees := avlInsertions [paid_cell thief_box] 1000000.

Lemma vault_contract_unbound_witness : exists vars, vault_contract vault_box vars
  {| INPUTS := [vault_box]; OUTPUTS := [thief_vault; thief_box; fee_box]; dataInputs := [committee_box]; HEIGHT := 10 |} = Done true.
Proof.
  apply (vault_contract_unbound vault_box [committee_box] 10 1 [true] thief_vault thief_box fee_box {| token_id := sample_token; amount := 1 |}
    [{| token_id := replicate 32 8%Z; amount := 50 |}] {| token_id := sample_token; amount := 1 |} 1000000 no_tree [] paid_tree).
  - exact sample_committee_inputs.
  - exact sample_committee_boxes.
  - reflexivity.
  - reflexivity.
  - reflexivity.
  - reflexivity.
  - reflexivity.
  - reflexivity.
  - by vm_compute.
  - reflexivity.
Defined.

Lemma term_cell_roundtrip_witness : exists t, term_cell_into (replicate 32 3%Z) sample_cell = Done t /\
  term_cell_try_from t = inl {| term_cell := {| ergs := 5000000; address := P2Pk true;
    tokens := sort_by_key bytes_leb token_id [{| token_id := replicate 32 8%Z; amount := 10 |}] |} |}.
Proof.
  apply (term_cell_roundtrip (replicate 32 3%Z) sample_cell true).
  - reflexivity.
  - discriminate.
  - by vm_compute.
  - all_of. by vm_compute.
  - apply NoDup_singleton.
Defined.

(** ** Stores *)

(** Any countable type has a codec. *)
Definition count_serde {A} `{Countable A} : Serde A :=
  {| to_vec x := [Z.pos (encode x)]; from_slice b := match b with [Z.pos p] => decode p | _ => None end |}.

Lemma count_serde_laws {A} `{Countable A} : SerdeLaws A (H := count_serde).
Proof. intros x. apply decode_encode. Qed.

#[export] Instance SType_countable : Countable SType.
Proof.
  refine (inj_countable' (fun t => match t with SInt => 0 | SGroupElement => 1 | SCollByte => 2 | SOther c => 3 + c end)
    (fun n => match n with 0 => SInt | 1 => SGroupElement | 2 => SCollByte | S (S (S c)) => SOther c end) _).
  by intros [].
Defined.

Fixpoint literal_tree (l : Literal) : gen_tree (Z + bool + list Z + list Z) :=
  match l with
  | LInt n => GenLeaf (inl (inl (inl n)))
  | LGroupElement p => GenLeaf (inl (inl (inr p)))
  | LCollByte b => GenLeaf (inl (inr b))
  | LOther b => GenLeaf (inr b)
  | LWrappedColl t items => GenNode (Pos.to_nat (encode t)) (literal_tree <$> items)
  end.

Fixpoint tree_literal (t : gen_tree (Z + bool + list Z + list Z)) : Literal :=
  match t with
  | GenLeaf (inl (inl (inl n))) => LInt n
  | GenLeaf (inl (inl (inr p))) => LGroupElement (p : Point)
  | GenLeaf (inl (inr b)) => LCollByte b
  | GenLeaf (inr b) => LOther b
  | GenNode n ts => LWrappedColl (default SInt (decode (Pos.of_nat n))) (tree_literal <$> ts)
  end.

Lemma literal_trip : forall l, tree_literal (literal_tree l) = l.
Proof.
  fix IH 1. intros [n|p|b|t items|b]; try reflexivity. cbn [literal_tree tree_literal]. rewrite Pos2Nat.id, decode_encode. cbn [default from_option]. f_equal.
  induction items as [|i items IHi]; [reflexivity|]. rewrite !fmap_cons, IH. f_equal. exact IHi.
Qed.

#[export] Instance Literal_countable : Countable Literal := inj_countable' literal_tree tree_literal literal_trip.

#[export] Instance Token_countable : Countable Token.
Proof. refine (inj_countable' (fun t => (token_id t, amount t)) (fun '(i, a) => {| token_id := i; amount := a |}) _). by intros []. Defined.

#[export] Instance ErgoBox_countable : Countable ErgoBox.
Proof.
  refine (inj_countable' (fun b => (bx_id b, bx_value b, bx_tree b : list Z, bx_tokens b, bx_registers b, bx_height b))
    (fun '(i, v, t, ts, r, h) => {| bx_id := i; bx_value := v; bx_tree := t; bx_tokens := ts; bx_registers := r; bx_height := h |}) _).
  by intros [].
Defined.

#[export] Instance VaultUtxo_countable : Countable VaultUtxo.
Proof. refine (inj_countable' (fun v => (vu_value v, vu_tokens v)) (fun '(v, ts) => {| vu_value := v; vu_tokens := ts |}) _). by intros []. Defined.

#[export] Instance Address_countable : Countable Address.
Proof.
  refine (inj_countable' (fun a => match a with P2Pk p => inl (inl (p : bool)) | P2S s => inl (inr s) | P2SH s => inr s end)
    (fun x => match x with inl (inl p) => P2Pk (p : Point) | inl (inr s) => P2S s | inr s => P2SH s end) _).
  by intros [].
Defined.

#[export] Instance ErgoCell_countable : Countable ErgoCell.
Proof. refine (inj_countable' (fun c => (ergs c, address c, tokens c)) (fun '(e, a, t) => {| ergs := e; address := a; tokens := t |}) _). by intros []. Defined.

#[export] Instance inbound_countable : Countable ErgoInboundCell.
Proof. refine (inj_countable' (fun c => (inbound_cell c, inbound_id c)) (fun '(c, i) => {| inbound_cell := c; inbound_id := i |}) _). by intros []. Defined.

#[export] Instance vault_serde : Serde (ErgoBox * VaultUtxo) := count_serde.
#[export] Instance vault_serde_laws : SerdeLaws (ErgoBox * VaultUtxo) := count_serde_laws.
#[export] Instance box_serde : Serde ErgoBox := count_serde.
#[export] Instance box_serde_laws : SerdeLaws ErgoBox := count_serde_laws.

#[export] Instance unprocessed_serde : Serde (UnprocessedDeposit (ErgoBox * ErgoInboundCell)) := {|
  to_vec d := to_vec (Serde := count_serde) (unprocessed_box d);
  from_slice b := (fun x => {| unprocessed_box := x |}) <$> from_slice (Serde := count_serde) b |}.
#[export] Instance unprocessed_serde_laws : SerdeLaws (UnprocessedDeposit (ErgoBox * ErgoInboundCell)).
Proof. intros [x]. cbn [to_vec from_slice unprocessed_serde unprocessed_box]. by rewrite (count_serde_laws x). Qed.

#[export] Instance processed_serde : Serde (ProcessedDeposit (ErgoBox * ErgoInboundCell)) := {|
  to_vec d := to_vec (Serde := count_serde) (processed_box d);
  from_slice b := (fun x => {| processed_box := x |}) <$> from_slice (Serde := count_serde) b |}.
#[export] Instance processed_serde_laws : SerdeLaws (ProcessedDeposit (ErgoBox * ErgoInboundCell)).
Proof. intros [x]. cbn [to_vec from_slice processed_serde processed_box]. by rewrite (count_serde_laws x). Qed.

(** Transactions in progress are written but not read in the samples. *)
#[export] Instance tip_serde : Serde TxInProgress := {| to_vec _ := []; from_slice _ := None |}.
#[export] Instance status_serde : Serde Status := {| to_vec _ := []; from_slice _ := None |}.

Definition box_codec : BoxRepo.KeyCodec BoxId := {|
  BoxRepo.ser_str s := s; BoxRepo.ser_usize n := [Z.of_nat n]; BoxRepo.ser_id i := i; BoxRepo.prefixed_key p i := 0%Z :: p ++ i |}.

#[export] Instance box_codec_spaces : KeySpaces (BoxRepo.key (KeyCodec0 := box_codec)).
Proof. intros [] i [] j E; cbn in E; try discriminate; by injection E as ->. Qed.

Lemma box_codec_prefix s i : BoxRepo.box_key_prefix (KeyCodec0 := box_codec) BoxRepo.KEY_PREFIX 0 `prefix_of` BoxRepo.key (KeyCodec0 := box_codec) s i <->
  s = BoxRepo.Confirmed.
Proof.
  split; [|intros ->; by exists i]. destruct s; try done; intros [l E]; cbn in E; discriminate.
Qed.

(** ** A connector *)

Definition sample_committee : CommitteeData := {|
  first_box := (committee_box, {| first_keys := [true : Point];
    vault_parameters := {| num_committee_boxes := 1; current_epoch := 1; epoch_length := 1000; vault_starting_height := 0 |};
    committee_hash := blake2b [1%Z]; first_script := [9]%Z; first_value := 1000000 |});
  subsequent_boxes := None |}.

Definition new_connector {M} (history : M) : Connector (M := M) := {|
  vault_box_repo := ∅; withdrawal_repo := ∅; deposit_repo := ∅; committee_data := sample_committee; synced_block_heights := [];
  sync_starting_height := 1; moved_value_history := history; tx_retry_scheduler := scheduler_new ∅ 10 3;
  vault_utxo_token_id := sample_token; genesis_vault_utxo_box_id := None |}.

Definition sample_tx (i : Z) (inputs : list Z) (outputs : TxIoVec ErgoBox) : Transaction := {|
  tx_id := [i]; tx_inputs := ({| in_box_id := replicate 32 (default 0%Z (head inputs)); in_proof := [] |},
    (fun j => {| in_box_id := replicate 32 j; in_proof := [] |}) <$> tail inputs);
  tx_outputs := outputs |}.

Definition genesis_event : TxEvent := AppliedTx (sample_tx 100 [99]%Z (vault_box, [])) 5.
Definition deposits_event : TxEvent := AppliedTx (sample_tx 101 [98]%Z ((deposit 20 3000000 [{| token_id := replicate 32 8%Z; amount := 5 |}]).1,
  [(deposit 21 4000000 [{| token_id := replicate 32 9%Z; amount := 6 |}]).1])) 6.

Lemma sample_chain_events : Forall chain_event [genesis_event; deposits_event].
Proof. all_of; all_of; (split; [all_of; by vm_compute|by vm_compute]). Qed.

Abbreviation sample_handle := (handle box_codec box_codec 0%Z false) (only parsing).

Definition sample_node : Node := {|
  node_height := 6; node_has_context := true;
  sign_transaction utx spent data :=
    match utx_inputs utx, zip_with as_box [[1]; [2]]%Z (utx_outputs utx) with
    | (i, _) :: rest, o :: os => Some {| tx_id := [102]%Z; tx_inputs := ({| in_box_id := i; in_proof := [1]%Z |},
        (fun x => {| in_box_id := x.1; in_proof := [1]%Z |}) <$> rest); tx_outputs := (o, os) |}
    | _, _ => None
    end;
  submit_tx _ := true; node_now := 1000 |}.

(** The connector after a run of events. *)
Definition after_events {M} `{!History M} (es : list TxEvent) (c : Connector (M := M)) : outcome (Connector (M := M)) :=
  foldO (fun c e => sample_handle e c) es c.

Lemma after_events_run {M} `{!History M} es (c c' : Connector (M := M)) : Forall chain_event es -> after_events es c = Done c' ->
  rtc (connector_step box_codec box_codec) c c'.
Proof.
  intros He. revert c. induction He as [|e es He _ IH]; intros c Hc; cbn [after_events foldO] in Hc; [injection Hc as <-; reflexivity|].
  apply bind_Done in Hc as (c1 & H1 & Hc). eapply rtc_l; [by eapply StepEvent|]. by apply IH.
Qed.

(** What can be computed of the connector after a run. *)
Lemma after_check {M} `{!History M} (f : Connector (M := M) -> bool) es c0 c : after_events es c0 = Done c ->
  match after_events es c0 with Done c => f c | _ => false end = true -> f c = true.
Proof. by intros ->. Qed.

Tactic Notation "computed" hyp(Hc) ident(Hb) uconstr(f) :=
  pose proof (after_check f _ _ _ Hc) as Hb; match type of Hb with ?P -> _ => let H := fresh in assert P as H by (vm_compute; reflexivity); specialize (Hb H); clear H end; cbv beta in Hb.

Lemma connector_deposits_accepted_witness : exists c, after_events [genesis_event; deposits_event] (new_connector ([] : list ErgoTxEvent)) = Done c /\
  is_done (process_deposits box_codec false sample_node c) = true /\
  process_deposits box_codec false (guarded [1]%Z [2]%Z sample_node) c = process_deposits box_codec false sample_node c.
Proof.
  destruct (is_done_exists (after_events [genesis_event; deposits_event] (new_connector ([] : list ErgoTxEvent)))) as [c Hc]; [by vm_compute|].
  exists c. split; [exact Hc|]. split.
  - apply (after_check (fun c => is_done (process_deposits box_codec false sample_node c)) _ _ _ Hc). by vm_compute.
  - apply (connector_deposits_accepted box_codec box_codec sample_miners_apart box_codec_prefix (new_connector ([] : list ErgoTxEvent))).
    + split; reflexivity.
    + exact (after_events_run _ _ _ sample_chain_events Hc).
Defined.

(** A wallet that runs the contract of the vault. *)
Definition checking_node : Node := {|
  node_height := 5; node_has_context := true;
  sign_transaction utx spent data :=
    match spent with
    | vault :: _ =>
      match vault_contract vault (vault_input_vars sample_token) (tx_context spent (replicate (length (utx_outputs utx)) [1]%Z) (utx_outputs utx) data 5) with
      | Done true => sign_transaction sample_node utx spent data
      | _ => None
      end
    | [] => None
    end;
  submit_tx _ := true; node_now := 1000 |}.

Lemma checking_careful : careful sample_token checking_node.
Proof.
  intros utx vault spent data stx Hs. exists (replicate (length (utx_outputs utx)) [1]%Z). split; [apply length_replicate|].
  cbn [sign_transaction checking_node node_height] in *.
  destruct (vault_contract vault _ _) as [[]| |]; [reflexivity|discriminate Hs..].
Qed.

(** The connector after the genesis, with the stores it stands for. *)
Lemma after_genesis {M} `{!History M} (h : M) es : Forall chain_event es -> is_done (after_events es (new_connector h)) = true ->
  exists c a, after_events es (new_connector h) = Done c /\ good box_codec box_codec c a /\ vault_utxo_token_id c = sample_token.
Proof.
  intros He Hd. destruct (is_done_exists _ Hd) as [c Hc]. destruct (fresh_good box_codec box_codec (new_connector h)) as [a0 Hg0]; [split; reflexivity|].
  destruct (run_good box_codec box_codec _ c a0 Hg0 (after_events_run _ _ _ He Hc)) as [Ht [a Hg]]. exists c, a. split; [exact Hc|]. by split.
Qed.

Lemma small_deposits_panic_witness : exists c, after_events [genesis_event] (new_connector ([] : list ErgoTxEvent)) = Done c /\
  process_deposits box_codec false checking_node c = Panic.
Proof.
  destruct (after_genesis ([] : list ErgoTxEvent) [genesis_event]) as (c & a & Hc & Hg & Ht); [exact (Forall_take _ 1 _ sample_chain_events)|by vm_compute|].
  exists c. split; [exact Hc|].
  assert (exists st, get_connector_status 1000 5 c = Done st /\ is_syncing st = false) as (st & Hst & Hsync).
  { computed Hc Hb (fun c => match get_connector_status 1000 5 c with Done st => negb (is_syncing st) | _ => false end).
    destruct (get_connector_status 1000 5 c) as [st| |]; [|discriminate Hb..]. exists st. split; [reflexivity|].
    destruct (is_syncing st); [discriminate Hb|reflexivity]. }
  assert (Deposits.get_all_unprocessed_deposits (D := DepositBox) (deposit_repo c) = Done []) as Hds.
  { computed Hc Hb (fun c => match Deposits.get_all_unprocessed_deposits (D := DepositBox) (deposit_repo c) with Done [] => true | _ => false end).
    destruct (Deposits.get_all_unprocessed_deposits _) as [[|]| |]; [reflexivity|discriminate Hb..]. }
  apply (small_deposits_panic box_codec box_codec box_codec_prefix c a false checking_node st Hg).
  - rewrite Ht. exact checking_careful.
  - exact Hst.
  - exact Hsync.
  - destruct (stored_deposits box_codec box_codec c a [] Hg Hds) as [_ Hp]. symmetry in Hp. apply Permutation_nil_r in Hp. rewrite Hp. reflexivity.
Defined.

(** *** Rollbacks *)

Definition vault_after (i value : Z) : ErgoBox := {|
  bx_id := replicate 32 i; bx_value := value; bx_tree := [1]%Z; bx_tokens := bx_tokens vault_box; bx_registers := bx_registers vault_box; bx_height := 7 |}.

Definition paid_box : ErgoBox := {| bx_id := replicate 32 31%Z; bx_value := 5000000; bx_tree := [4; 1]%Z; bx_tokens := []; bx_registers := ∅; bx_height := 7 |}.

Definition withdrawal_sample : Transaction := sample_tx 103 [2]%Z (vault_after 30 94000000, [paid_box; fee_box]).
Definition deposits_sample : Transaction := sample_tx 104 [2; 20; 21]%Z (vault_after 32 106000000, [fee_box]).

Abbreviation sample_events := [genesis_event; deposits_event] (only parsing).
Abbreviation sample_start := (new_connector ([] : list ErgoTxEvent)) (only parsing).

Lemma withdrawal_rollback_witness : exists c c' c'' a'', after_events sample_events sample_start = Done c /\
  sample_handle (AppliedTx withdrawal_sample 7) c = Done c' /\ sample_handle (UnappliedTx withdrawal_sample 7) c' = Done c'' /\
  stores box_codec box_codec c'' a''.
Proof.
  destruct (after_genesis ([] : list ErgoTxEvent) sample_events sample_chain_events) as (c & a & Hc & [Hs _] & Ht); [by vm_compute|].
  destruct (is_done_exists (sample_handle (AppliedTx withdrawal_sample 7) c)) as [c' Hc'].
  { apply (after_check (fun c => is_done (sample_handle (AppliedTx withdrawal_sample 7) c)) _ _ _ Hc). by vm_compute. }
  assert (exists cells, spec_extract (vault_utxo_token_id c) a withdrawal_sample = Done (Some (VWithdrawals cells))) as [cells Hx].
  { rewrite <- (extract_spec box_codec box_codec c a withdrawal_sample Hs).
    computed Hc Hb (fun c => match try_extract_vault_tx box_codec c withdrawal_sample with Done (Some (VWithdrawals _)) => true | _ => false end).
    destruct (try_extract_vault_tx box_codec c withdrawal_sample) as [[[cells|]|]| |]; [by exists cells|discriminate Hb..]. }
  destruct (withdrawal_rollback box_codec box_codec c a 0 0 false false withdrawal_sample 7 7 cells c' Hs Hx) as (c'' & a'' & Hu & Hs'' & _).
  - pose proof (BoxRepo.get_confirmed_spec as_box_id (bx_id (tx_outputs withdrawal_sample).1) _ _ (st_vault _ _ _ _ Hs)) as Hg.
    computed Hc Hb (fun c => match BoxRepo.get_confirmed (B := VaultBox) (KeyCodec0 := box_codec) (bx_id (tx_outputs withdrawal_sample).1) (vault_box_repo c)
      with Done None => true | _ => false end). rewrite Hg in Hb.
    destruct (BoxRepo.confirmed _ !! _); [discriminate Hb|reflexivity].
  - pose proof (BoxRepo.is_spent_spec as_box_id (in_box_id (tx_inputs withdrawal_sample).1) _ _ (st_vault _ _ _ _ Hs)) as Hg.
    computed Hc Hb (fun c => negb (BoxRepo.is_spent (KeyCodec0 := box_codec) (vault_box_repo c) (in_box_id (tx_inputs withdrawal_sample).1))).
    rewrite Hg in Hb. destruct (BoxRepo.spent _ !! _); [discriminate Hb|reflexivity].
  - exact Hc'.
  - exists c, c', c'', a''. split; [exact Hc|]. split; [exact Hc'|]. split; [exact Hu|exact Hs''].
Defined.

Lemma deposit_rollback_panics_witness : exists c c', after_events sample_events sample_start = Done c /\
  sample_handle (AppliedTx deposits_sample 7) c = Done c' /\ sample_handle (UnappliedTx deposits_sample 7) c' = Panic.
Proof.
  destruct (after_genesis ([] : list ErgoTxEvent) sample_events sample_chain_events) as (c & a & Hc & [Hs _] & Ht); [by vm_compute|].
  destruct (is_done_exists (sample_handle (AppliedTx deposits_sample 7) c)) as [c' Hc'].
  { apply (after_check (fun c => is_done (sample_handle (AppliedTx deposits_sample 7) c)) _ _ _ Hc). by vm_compute. }
  assert (exists ds, spec_extract (vault_utxo_token_id c) a deposits_sample = Done (Some (VDeposits ds))) as [ds Hx].
  { rewrite <- (extract_spec box_codec box_codec c a deposits_sample Hs).
    computed Hc Hb (fun c => match try_extract_vault_tx box_codec c deposits_sample with Done (Some (VDeposits _)) => true | _ => false end).
    destruct (try_extract_vault_tx box_codec c deposits_sample) as [[[|ds]|]| |]; [discriminate Hb|by exists ds|discriminate Hb..]. }
  exists c, c'. split; [exact Hc|]. split; [exact Hc'|].
  apply (deposit_rollback_panics box_codec box_codec c a 0 0 false false deposits_sample 7 7 ds c' Hs Hx); [discriminate|discriminate|exact Hc'].
Defined.

(** ** Events *)

#[export] Instance term_cell_eq_dec : EqDecision ErgoTermCell.
Proof. solve_decision. Defined.

#[export] Instance term_cell_countable : Countable ErgoTermCell.
Proof. refine (inj_countable' term_cell (fun c => {| term_cell := c |}) _). by intros []. Defined.

#[export] Instance ancillary_eq_dec : EqDecision AncillaryVaultInfo.
Proof. solve_decision. Defined.

#[export] Instance ancillary_countable : Countable AncillaryVaultInfo.
Proof.
  refine (inj_countable' (fun a => (av_tx_id a, av_box_id a, av_height a)) (fun '(t, b, h) => {| av_tx_id := t; av_box_id := b; av_height := h |}) _).
  by intros [].
Defined.

#[export] Instance tx_type_eq_dec : EqDecision ErgoTxType.
Proof. solve_decision. Defined.

#[export] Instance tx_type_countable : Countable ErgoTxType.
Proof.
  refine (inj_countable' (fun t => match t with Deposit l v => inl (inl (l, v)) | Withdrawal l v => inl (inr (l, v)) |
      NewUnprocessedDeposit c => inr (inl c) | RefundedDeposit c => inr (inr c) end)
    (fun x => match x with inl (inl (l, v)) => Deposit l v | inl (inr (l, v)) => Withdrawal l v |
      inr (inl c) => NewUnprocessedDeposit c | inr (inr c) => RefundedDeposit c end) _).
  by intros [].
Defined.

#[export] Instance spectrum_tx_eq_dec : EqDecision SpectrumErgoTx.
Proof. solve_decision. Defined.

#[export] Instance spectrum_tx_countable : Countable SpectrumErgoTx.
Proof.
  refine (inj_countable' (fun t => (progress_point t, ergo_tx_id t, tx_type t)) (fun '(p, i, t) => {| progress_point := p; ergo_tx_id := i; tx_type := t |}) _).
  by intros [].
Defined.

#[export] Instance event_eq_dec : EqDecision ErgoTxEvent.
Proof. solve_decision. Defined.

#[export] Instance event_countable : Countable ErgoTxEvent.
Proof.
  refine (inj_countable' (fun e => match e with Applied t => inl t | Unapplied t => inr t end) (fun x => match x with inl t => Applied t | inr t => Unapplied t end) _).
  by intros [].
Defined.

#[export] Instance event_serde : Serde ErgoTxEvent := count_serde.
#[export] Instance event_serde_laws : SerdeLaws ErgoTxEvent := count_serde_laws.

Definition sample_event (h : Z) : ErgoTxEvent :=
  Applied {| progress_point := h; ergo_tx_id := [h]; tx_type := NewUnprocessedDeposit (deposit 20 3000000 []).2 |}.

Definition sample_history : list ErgoTxEvent := [sample_event 3; sample_event 5; sample_event 8].

Lemma sample_history_holds : Events.holds event_height (Events.append_all event_height sample_history) (Events.latest event_height sample_history).
Proof. apply Events.append_all_holds. all_of; (split; [done|by vm_compute]). Qed.

Lemma sample_history_listed : Events.listed event_height (Events.latest event_height sample_history) sample_history.
Proof. apply Events.latest_listed. repeat (constructor; [|all_of; by vm_compute]). constructor. Qed.

Lemma paging_complete_witness :
  pages 4 3 (new_connector (Events.append_all event_height sample_history)) = Done (filter (fun e => 3 + 1 <= event_height e)%Z sample_history).
Proof.
  apply (paging_complete (new_connector (Events.append_all event_height sample_history)) (Events.latest event_height sample_history)).
  - exact sample_history_holds.
  - exact sample_history_listed.
  - all_of; (split; [done|by vm_compute]).
  - split; [done|by vm_compute].
  - by vm_compute; lia.
Defined.

Definition first_deposit : ErgoBox := deposit_box 20 3000000 [].
Definition second_deposit : ErgoBox := deposit_box 21 4000000 [].

Definition unprocessed (b : ErgoBox) : UnprocessedDeposit (ErgoBox * ErgoInboundCell) := {| unprocessed_box := (b, deposit_cell b) |}.

Lemma driver_misses_deposit_witness : exists c1 c2 evs, let c := new_connector (Events.append_all event_height sample_history) in
  applied_output box_codec (sample_tx 101 [98]%Z (first_deposit, [])) 9 c first_deposit = Done c1 /\
  applied_output box_codec (sample_tx 102 [97]%Z (second_deposit, [])) 9 c1 second_deposit = Done c2 /\
  pages 9 0 c2 = Done evs /\
  Applied (ergo_tx (sample_tx 101 [98]%Z (first_deposit, [])) 9 (NewUnprocessedDeposit (deposit_cell first_deposit))) ∉ evs.
Proof.
  set (c := new_connector (Events.append_all event_height sample_history)).
  set (tx1 := sample_tx 101 [98]%Z (first_deposit, [])). set (tx2 := sample_tx 102 [97]%Z (second_deposit, [])).
  destruct (is_done_exists (applied_output box_codec tx1 9 c first_deposit)) as [c1 H1]; [by vm_compute|].
  destruct (is_done_exists (applied_output box_codec tx2 9 c1 second_deposit)) as [c2 H2].
  { enough (match applied_output box_codec tx1 9 c first_deposit with Done c1 => is_done (applied_output box_codec tx2 9 c1 second_deposit) | _ => false end = true)
      as Hb by (rewrite H1 in Hb; exact Hb). by vm_compute. }
  destruct (is_done_exists (pages 9 0 c2)) as [evs Hevs].
  { enough (match applied_output box_codec tx1 9 c first_deposit with Done c1 =>
        match applied_output box_codec tx2 9 c1 second_deposit with Done c2 => is_done (pages 9 0 c2) | _ => false end | _ => false end = true)
      as Hb by (rewrite H1, H2 in Hb; exact Hb). by vm_compute. }
  exists c1, c2, evs. split; [exact H1|]. split; [exact H2|]. split; [exact Hevs|].
  apply (driver_misses_deposit box_codec tx1 tx2 9 c c1 c2 first_deposit second_deposit (unprocessed first_deposit) (unprocessed second_deposit)
    (Events.latest event_height sample_history) 9 0 evs).
  - exact sample_history_holds.
  - split; [done|by vm_compute].
  - split; [done|by vm_compute].
  - apply map_Forall_to_list. by apply (bool_decide_unpack _); vm_compute.
  - by vm_compute.
  - unfold try_extract_unprocessed_deposit. rewrite decide_True by reflexivity. reflexivity.
  - exact H1.
  - injection H1 as <-. unfold try_extract_unprocessed_deposit. rewrite decide_True by reflexivity. reflexivity.
  - exact H2.
  - discriminate.
  - exact Hevs.
Defined.

Definition malformed_box : ErgoBox := (deposit_box 40 1000000 []) <| bx_registers := {[ 4 := LCollByte [1; 2; 3]%Z ]} |>.
Definition malformed_tx : Transaction := sample_tx 105 [96]%Z (malformed_box, []).

Lemma malformed_deposit_stops_witness : sample_handle (AppliedTx malformed_tx 9) (new_connector (∅ : Db)) = Panic.
Proof.
  apply (malformed_deposit_stops box_codec box_codec 0 false malformed_tx 9 (new_connector (∅ : Db)) malformed_box [1; 2; 3]%Z).
  - reflexivity.
  - left.
  - reflexivity.
  - reflexivity.
  - discriminate.
Defined.

(** The transaction of the deposits is rolled back. *)
Lemma rollback_not_noticed_witness : exists c c', after_events sample_events (new_connector (∅ : Db)) = Done c /\
  sample_handle (bridge_event (LedgerUnapplied (event_tx deposits_event))) c = Done c' /\ last (synced_block_heights c') = Some 6%Z.
Proof.
  destruct (after_genesis (∅ : Db) sample_events sample_chain_events) as (c & a & Hc & Hg & _); [by vm_compute|].
  destruct (is_done_exists (sample_handle (bridge_event (LedgerUnapplied (event_tx deposits_event))) c)) as [c' Hc'].
  { apply (after_check (fun c => is_done (sample_handle (bridge_event (LedgerUnapplied (event_tx deposits_event))) c)) _ _ _ Hc). by vm_compute. }
  computed Hc Hh (fun c => bool_decide (synced_block_heights c = [5; 6]%Z)). apply bool_decide_eq_true in Hh.
  exists c, c'. split; [exact Hc|]. split; [exact Hc'|].
  apply (rollback_not_noticed box_codec box_codec 0 false (event_tx deposits_event) c c' a 6 Hg).
  - rewrite Hh. split; [|unfold MAX_SYNCED_BLOCK_HEIGHTS; cbn [length]; lia]. repeat (apply SSorted_cons; [|all_of; by vm_compute]). apply SSorted_nil.
  - by rewrite Hh.
  - exact (Forall_inv (Forall_inv_tail sample_chain_events)).
  - all_of; by vm_compute.
  - exact Hc'.
Defined.

(** ** Selections *)

Definition sample_proto : ProtoTermCell := {| ptc_value := {| native := 5000000; assets := ∅ |}; ptc_dst := (0%Z, [], None) |}.

Lemma collect_covers_witness : exists us taken n, let db := BoxRepo.put_confirmed (KeyCodec0 := box_codec) as_box_id (vault_box, {| vu_value := 100000000; vu_tokens := [] |}) ∅ in
  BoxRepo.get_all_confirmed (KeyCodec0 := box_codec) (fun b : ErgoBox * VaultUtxo => bx_id b.1) db = Done us /\
  collect (fun _ _ _ => false) box_codec 0 [sample_proto] db = Done (taken, n) /\
  exists k, taken = take k us.*1 /\ 0 < k /\ n <= 1 /\ (k < length us -> covers taken (take n [sample_proto]) [sample_proto]).
Proof.
  set (db := BoxRepo.put_confirmed (KeyCodec0 := box_codec) as_box_id (vault_box, {| vu_value := 100000000; vu_tokens := [] |}) ∅). cbv zeta.
  assert (BoxRepo.get_all_confirmed (KeyCodec0 := box_codec) (fun b : ErgoBox * VaultUtxo => bx_id b.1) db =
    Done [(vault_box, {| vu_value := 100000000; vu_tokens := [] |})]) as Hus.
  { enough (match BoxRepo.get_all_confirmed (KeyCodec0 := box_codec) (fun b : ErgoBox * VaultUtxo => bx_id b.1) db with
      Done us => bool_decide (us = [(vault_box, {| vu_value := 100000000; vu_tokens := [] |})]) | _ => false end = true) as Hb.
    - destruct (BoxRepo.get_all_confirmed _ db) as [us| |]; [|discriminate Hb..]. apply bool_decide_eq_true in Hb. by rewrite Hb.
    - by vm_compute. }
  destruct (is_done_exists (collect (fun _ _ _ => false) box_codec 0 [sample_proto] db)) as [[taken n] Hcol]; [by vm_compute|].
  eexists _, taken, n. split; [exact Hus|]. split; [exact Hcol|].
  apply (collect_covers (fun _ _ _ => false) box_codec 0 [sample_proto] db taken n).
  - exact Hus.
  - all_of. split; [by vm_compute|all_of; by vm_compute].
  - all_of. split; [by vm_compute|by vm_compute; constructor].
  - exact Hcol.
Defined.
