(* ===== verification/MoveFormat.v ===== *)
(** The binary format of Move modules and scripts.

    external/move/move-binary-format: the tables and handles of a module, its
    signatures and abilities, the instructions of a function (file_format.rs),
    the accessors the verifier uses (access.rs, binary_views.rs) and the errors
    it reports (errors.rs).  Table indexes, code offsets and local indexes are
    [nat]; the values inside instructions are [Z].  A comparison, a message and
    the debug form of an error carry no behaviour of the verifier and are left
    out; the [debug_assert!]s of the accessors are part of what [MoveBounds]
    proves of a module that passed the bounds checker. *)

From S2P Require Import Prelude.
From stdpp Require Import strings.

(** ** Errors *)

Module StatusCode.
Inductive StatusCode :=
| INDEX_OUT_OF_BOUNDS
| INVALID_SIGNATURE_TOKEN
| RECURSIVE_STRUCT_DEFINITION
| FIELD_MISSING_TYPE_ABILITY
| INVALID_FALL_THROUGH
| NEGATIVE_STACK_SIZE_WITHIN_BLOCK
| INVALID_MAIN_FUNCTION_SIGNATURE
| DUPLICATE_ELEMENT
| INVALID_MODULE_HANDLE
| UNIMPLEMENTED_HANDLE
| TYPE_MISMATCH
| POP_WITHOUT_DROP_ABILITY
| BR_TYPE_MISMATCH_ERROR
| ABORT_TYPE_MISMATCH_ERROR
| STLOC_TYPE_MISMATCH_ERROR
| STLOC_UNSAFE_TO_DESTROY_ERROR
| UNSAFE_RET_LOCAL_OR_RESOURCE_STILL_BORROWED
| RET_TYPE_MISMATCH_ERROR
| RET_BORROWED_MUTABLE_REFERENCE_ERROR
| FREEZEREF_TYPE_MISMATCH_ERROR
| FREEZEREF_EXISTS_MUTABLE_BORROW_ERROR
| BORROWFIELD_TYPE_MISMATCH_ERROR
| BORROWFIELD_BAD_FIELD_ERROR
| BORROWFIELD_EXISTS_MUTABLE_BORROW_ERROR
| COPYLOC_UNAVAILABLE_ERROR
| COPYLOC_WITHOUT_COPY_ABILITY
| COPYLOC_EXISTS_BORROW_ERROR
| MOVELOC_UNAVAILABLE_ERROR
| MOVELOC_EXISTS_BORROW_ERROR
| BORROWLOC_REFERENCE_ERROR
| BORROWLOC_UNAVAILABLE_ERROR
| BORROWLOC_EXISTS_BORROW_ERROR
| CALL_TYPE_MISMATCH_ERROR
| CALL_BORROWED_MUTABLE_REFERENCE_ERROR
| PACK_TYPE_MISMATCH_ERROR
| UNPACK_TYPE_MISMATCH_ERROR
| READREF_TYPE_MISMATCH_ERROR
| READREF_WITHOUT_COPY_ABILITY
| READREF_EXISTS_MUTABLE_BORROW_ERROR
| WRITEREF_TYPE_MISMATCH_ERROR
| WRITEREF_WITHOUT_DROP_ABILITY
| WRITEREF_EXISTS_BORROW_ERROR
| WRITEREF_NO_MUTABLE_REFERENCE_ERROR
| INTEGER_OP_TYPE_MISMATCH_ERROR
| BOOLEAN_OP_TYPE_MISMATCH_ERROR
| EQUALITY_OP_TYPE_MISMATCH_ERROR
| EXISTS_WITHOUT_KEY_ABILITY_OR_BAD_ARGUMENT
| BORROWGLOBAL_TYPE_MISMATCH_ERROR
| MOVEFROM_TYPE_MISMATCH_ERROR
| MOVEFROM_WITHOUT_KEY_ABILITY
| MOVETO_TYPE_MISMATCH_ERROR
| NO_MODULE_HANDLES
| POSITIVE_STACK_SIZE_AT_BLOCK_END
| MISSING_ACQUIRES_ANNOTATION
| EXTRANEOUS_ACQUIRES_ANNOTATION
| DUPLICATE_ACQUIRES_ANNOTATION
| INVALID_ACQUIRES_ANNOTATION
| GLOBAL_REFERENCE_ERROR
| CONSTRAINT_NOT_SATISFIED
| NUMBER_OF_TYPE_ARGUMENTS_MISMATCH
| LOOP_IN_INSTANTIATION_GRAPH
| ZERO_SIZED_STRUCT
| LINKER_ERROR
| INVALID_CONSTANT_TYPE
| MALFORMED_CONSTANT_DATA
| EMPTY_CODE_UNIT
| INVALID_LOOP_SPLIT
| INVALID_LOOP_BREAK
| INVALID_LOOP_CONTINUE
| UNSAFE_RET_UNUSED_VALUES_WITHOUT_DROP
| TOO_MANY_LOCALS
| GENERIC_MEMBER_OPCODE_MISMATCH
| INVALID_OPERATION_IN_SCRIPT
| INVALID_FRIEND_DECL_WITH_SELF
| INVALID_FRIEND_DECL_WITH_MODULES_OUTSIDE_ACCOUNT_ADDRESS
| INVALID_PHANTOM_TYPE_PARAM_POSITION
| VEC_UPDATE_EXISTS_MUTABLE_BORROW_ERROR
| VEC_BORROW_ELEMENT_EXISTS_MUTABLE_BORROW_ERROR
| LOOP_MAX_DEPTH_REACHED
| TOO_MANY_TYPE_PARAMETERS
| TOO_MANY_PARAMETERS
| TOO_MANY_BASIC_BLOCKS
| VALUE_STACK_OVERFLOW
| TOO_MANY_TYPE_NODES
| VALUE_STACK_PUSH_OVERFLOW
| MAX_FUNCTION_DEFINITIONS_REACHED
| MAX_STRUCT_DEFINITIONS_REACHED
| MAX_FIELD_DEFINITIONS_REACHED
| TOO_MANY_BACK_EDGES
| UNKNOWN_INVARIANT_VIOLATION_ERROR
| VERIFICATION_ERROR
| VERIFIER_INVARIANT_VIOLATION
| BORROWGLOBAL_WITHOUT_KEY_ABILITY
| MOVETO_WITHOUT_KEY_ABILITY.

End StatusCode.
Notation StatusCode := StatusCode.StatusCode.

Module IndexKind.
Inductive IndexKind :=
| ModuleHandle | StructHandle | FunctionHandle | FieldHandle | FriendDeclaration
| FunctionInstantiation | FieldInstantiation | StructDefinition | StructDefInstantiation
| FunctionDefinition | FieldDefinition | Signature | Identifier | AddressIdentifier
| ConstantPool | LocalPool | CodeDefinition | TypeParameter | MemberCount.

#[export] Instance IndexKind_eq_dec : EqDecision IndexKind.
Proof. solve_decision. Defined.
End IndexKind.
Notation IndexKind := IndexKind.IndexKind.

(** [PartialVMError] without its message and its execution state. *)
Record PartialVMError := {
  major_status : StatusCode;
  sub_status : option Z;
  indices : list (IndexKind * nat);
  offsets : list (nat * nat);
}.

Definition error_new (status : StatusCode) : PartialVMError :=
  {| major_status := status; sub_status := None; indices := []; offsets := [] |}.

Definition with_sub_status (e : PartialVMError) (s : Z) : PartialVMError :=
  e <| sub_status := Some s |>.

Definition at_index (e : PartialVMError) (kind : IndexKind) (index : nat) : PartialVMError :=
  e <| indices := indices e ++ [(kind, index)] |>.

Definition at_code_offset (e : PartialVMError) (function offset : nat) : PartialVMError :=
  e <| offsets := offsets e ++ [(function, offset)] |>.

Definition bounds_error (status : StatusCode) (kind : IndexKind) (idx len : nat) : PartialVMError :=
  at_index (error_new status) kind idx.

Definition verification_error (status : StatusCode) (kind : IndexKind) (idx : nat) : PartialVMError :=
  at_index (error_new status) kind idx.

(** ** Runs of the verifier

    [PartialVMResult], and the two ways a run has no result: a panic, which
    [verify_module_with_config] turns into an error, and a loop whose fuel ran
    out, which the theorems on the loops exclude. *)

Inductive vm (A : Type) : Type :=
| Ok (a : A)
| Err (e : PartialVMError)
| Panicked
| Exhausted.

Arguments Ok {A} a.
Arguments Err {A} e.
Arguments Panicked {A}.
Arguments Exhausted {A}.

#[export] Instance vm_ret : MRet vm := fun A a => Ok a.

#[export] Instance vm_bind : MBind vm := fun A B f m =>
  match m with
  | Ok a => f a
  | Err e => Err e
  | Panicked => Panicked
  | Exhausted => Exhausted
  end.

(** Indexing of a vector. *)
Definition index {A} (l : list A) (i : nat) : vm A :=
  match l !! i with Some a => Ok a | None => Panicked end.

(** [l[i] = a]. *)
Definition set_index {A} (l : list A) (i : nat) (a : A) : vm (list A) :=
  if bool_decide (i < length l) then Ok (<[i := a]> l) else Panicked.

(** [BTreeMap]'s [m[&k]]. *)
Definition map_index {A} (m : gmap nat A) (k : nat) : vm A :=
  match m !! k with Some a => Ok a | None => Panicked end.

Definition assert (b : bool) : vm () := if b then Ok () else Panicked.

Definition is_Ok {A} (m : vm A) : bool := match m with Ok _ => true | _ => false end.

(** A [for] loop with a state, and one without. *)
Fixpoint vfold {A S} (f : S -> A -> vm S) (l : list A) (s : S) : vm S :=
  match l with
  | [] => Ok s
  | x :: r => s' ← f s x; vfold f r s'
  end.

Fixpoint vfor {A} (f : A -> vm ()) (l : list A) : vm () :=
  match l with
  | [] => Ok ()
  | x :: r => _ ← f x; vfor f r
  end.

(** [iter().map(f).collect::<PartialVMResult<Vec<_>>>()]. *)
Fixpoint vmap {A B} (f : A -> vm B) (l : list A) : vm (list B) :=
  match l with
  | [] => Ok []
  | x :: r => y ← f x; ys ← vmap f r; Ok (y :: ys)
  end.

Definition map_err {A} (f : PartialVMError -> PartialVMError) (m : vm A) : vm A :=
  match m with Err e => Err (f e) | _ => m end.

(** [n as u16]. *)
Definition u16 (n : nat) : nat := Z.to_nat (Z.of_nat n mod 65536).

Definition u16_max : Z := 65535.

(** [a + b] on [u16]. *)
Definition u16_add (a b : nat) : vm nat :=
  if bool_decide (Z.of_nat (a + b) < 65536)%Z then Ok (a + b) else Panicked.

(** ** Abilities *)

Module Ability.
Inductive Ability := Copy | Drop | Store | Key.

#[export] Instance Ability_eq_dec : EqDecision Ability.
Proof. solve_decision. Defined.

(** [ability as u8]. *)
Definition to_u8 (a : Ability) : Z :=
  match a with Copy => 0x1 | Drop => 0x2 | Store => 0x4 | Key => 0x8 end.

Definition from_u8 (u : Z) : option Ability :=
  if (u =? 0x1)%Z then Some Copy else if (u =? 0x2)%Z then Some Drop
  else if (u =? 0x4)%Z then Some Store else if (u =? 0x8)%Z then Some Key else None.

Definition requires (a : Ability) : Ability :=
  match a with Copy => Copy | Drop => Drop | Store => Store | Key => Store end.

End Ability.
Notation Ability := Ability.Ability.

(** The byte inside an [AbilitySet]. *)
Notation AbilitySet := Z (only parsing).

Module AbilitySet.
Definition EMPTY : AbilitySet := 0%Z.
Definition PRIMITIVES : AbilitySet := Z.lor (Z.lor (Ability.to_u8 Ability.Copy) (Ability.to_u8 Ability.Drop)) (Ability.to_u8 Ability.Store).
Definition REFERENCES : AbilitySet := Z.lor (Ability.to_u8 Ability.Copy) (Ability.to_u8 Ability.Drop).
Definition SIGNER : AbilitySet := Ability.to_u8 Ability.Drop.
Definition VECTOR : AbilitySet := Z.lor (Z.lor (Ability.to_u8 Ability.Copy) (Ability.to_u8 Ability.Drop)) (Ability.to_u8 Ability.Store).
Definition ALL : AbilitySet := Z.lor (Z.lor (Z.lor (Ability.to_u8 Ability.Copy) (Ability.to_u8 Ability.Drop)) (Ability.to_u8 Ability.Store)) (Ability.to_u8 Ability.Key).

Definition has_ability (s : AbilitySet) (ability : Ability) : bool :=
  let a := Ability.to_u8 ability in (Z.land a s =? a)%Z.

Definition has_drop (s : AbilitySet) : bool := has_ability s Ability.Drop.
Definition has_copy (s : AbilitySet) : bool := has_ability s Ability.Copy.
Definition has_store (s : AbilitySet) : bool := has_ability s Ability.Store.
Definition has_key (s : AbilitySet) : bool := has_ability s Ability.Key.

Definition intersect (s other : AbilitySet) : AbilitySet := Z.land s other.
Definition union (s other : AbilitySet) : AbilitySet := Z.lor s other.

Definition is_subset_bits (sub sup : Z) : bool := (Z.land sub sup =? sub)%Z.
Definition is_subset (s other : AbilitySet) : bool := is_subset_bits s other.

Definition from_u8 (byte : Z) : option AbilitySet :=
  if is_subset_bits byte ALL then Some byte else None.

(** [set | ability]. *)
Definition bitor (s : AbilitySet) (a : Ability) : AbilitySet := Z.lor s (Ability.to_u8 a).

Definition required_by (a : Ability) : AbilitySet :=
  match a with
  | Ability.Copy => bitor EMPTY Ability.Copy
  | Ability.Drop => bitor EMPTY Ability.Drop
  | Ability.Store => bitor (bitor EMPTY Ability.Store) Ability.Key
  | Ability.Key => EMPTY
  end.

(** [AbilitySetIterator]: the bit [idx] walks over 1, 2, 4 and 8. *)
Fixpoint into_iter_from (fuel : nat) (s : AbilitySet) (idx : Z) : list Ability :=
  match fuel with
  | O => []
  | S fuel =>
    if (idx <=? 0x8)%Z then
      match Ability.from_u8 (Z.land s idx) with
      | Some a => a :: into_iter_from fuel s (Z.shiftl idx 1)
      | None => into_iter_from fuel s (Z.shiftl idx 1)
      end
    else []
  end.

Definition into_iter (s : AbilitySet) : list Ability := into_iter_from 5 s 0x1.

Definition polymorphic_abilities (declared_abilities : AbilitySet)
    (declared_phantom_parameters : list bool) (type_arguments : list AbilitySet) : vm AbilitySet :=
  if negb (bool_decide (length declared_phantom_parameters = length type_arguments)) then
    Err (error_new StatusCode.VERIFIER_INVARIANT_VIOLATION)
  else
    let abs := filter (fun p : AbilitySet * bool => negb p.2 = true) (zip type_arguments declared_phantom_parameters) in
    let abs := map (fun p => foldl union EMPTY (map required_by (into_iter p.1))) abs in
    Ok (foldl intersect declared_abilities abs).
End AbilitySet.

(** ** Types *)

Module SignatureToken.
Inductive SignatureToken :=
| Bool
| U8
| U64
| U128
| Address
| Signer
| Vector (t : SignatureToken)
| Struct (idx : nat)
| StructInstantiation (idx : nat) (ts : list SignatureToken)
| Reference (t : SignatureToken)
| MutableReference (t : SignatureToken)
| TypeParameter (idx : nat)
| U16
| U32
| U256.

Section Induction.
Context (P : SignatureToken -> Prop).
Context (HBool : P Bool) (HU8 : P U8) (HU64 : P U64) (HU128 : P U128) (HAddress : P Address)
  (HSigner : P Signer) (HVector : forall t, P t -> P (Vector t)) (HStruct : forall idx, P (Struct idx))
  (HInst : forall idx ts, Forall P ts -> P (StructInstantiation idx ts))
  (HRef : forall t, P t -> P (Reference t)) (HMut : forall t, P t -> P (MutableReference t))
  (HParam : forall idx, P (TypeParameter idx)) (HU16 : P U16) (HU32 : P U32) (HU256 : P U256).

Fixpoint token_ind (t : SignatureToken) : P t :=
  match t with
  | Bool => HBool | U8 => HU8 | U64 => HU64 | U128 => HU128 | Address => HAddress | Signer => HSigner
  | Vector t => HVector t (token_ind t)
  | Struct idx => HStruct idx
  | StructInstantiation idx ts =>
    HInst idx ts ((fix go (l : list SignatureToken) : Forall P l :=
      match l with [] => Forall_nil_2 P | x :: r => Forall_cons_2 P x r (token_ind x) (go r) end) ts)
  | Reference t => HRef t (token_ind t)
  | MutableReference t => HMut t (token_ind t)
  | TypeParameter idx => HParam idx
  | U16 => HU16 | U32 => HU32 | U256 => HU256
  end.
End Induction.

(** The derived equality. *)
Fixpoint eqb (x y : SignatureToken) : bool :=
  match x, y with
  | Bool, Bool | U8, U8 | U64, U64 | U128, U128 | Address, Address | Signer, Signer | U16, U16 | U32, U32 | U256, U256 => true
  | Vector a, Vector b | Reference a, Reference b | MutableReference a, MutableReference b => eqb a b
  | Struct i, Struct j | TypeParameter i, TypeParameter j => Nat.eqb i j
  | StructInstantiation i ts, StructInstantiation j us =>
    Nat.eqb i j &&
    (fix go (l k : list SignatureToken) : bool :=
       match l, k with
       | [], [] => true
       | a :: l, b :: k => eqb a b && go l k
       | _, _ => false
       end) ts us
  | _, _ => false
  end.

Lemma eqb_eq x y : eqb x y = true <-> x = y.
Proof.
  revert y. induction x as [| | | | | |t IH|idx|idx ts IH|t IH|t IH|idx| | |] using token_ind; intros [| | | | | | | |j us| | | | | |]; cbn;
    try (by split); try (rewrite IH; by split; [intros ->|intros [= ->]]); try (rewrite Nat.eqb_eq; by split; [intros ->|intros [= ->]]).
  rewrite andb_true_iff, Nat.eqb_eq. split.
  - intros [-> Hgo]. f_equal. revert us Hgo. induction IH as [|t r Ht _ IHr]; intros [|u us]; try done.
    rewrite andb_true_iff, Ht. intros [-> ?]. f_equal. by apply IHr.
  - intros [= -> ->]. split; [done|]. induction IH as [|t r Ht _ IHr]; [done|]. rewrite andb_true_iff. split; [by apply Ht|done].
Qed.

#[export] Instance token_eq_dec : EqDecision SignatureToken := fun x y =>
  match eqb x y as b return eqb x y = b -> Decision (x = y) with
  | true => fun H => left (proj1 (eqb_eq x y) H)
  | false => fun H => right (fun E => eq_true_false_abs _ (proj2 (eqb_eq x y) E) H)
  end eq_refl.

Definition is_integer (t : SignatureToken) : bool :=
  match t with U8 | U16 | U32 | U64 | U128 | U256 => true | _ => false end.

Definition is_reference (t : SignatureToken) : bool :=
  match t with Reference _ | MutableReference _ => true | _ => false end.

Definition is_mutable_reference (t : SignatureToken) : bool :=
  match t with MutableReference _ => true | _ => false end.

Definition is_signer (t : SignatureToken) : bool :=
  match t with Signer => true | _ => false end.

Fixpoint is_valid_for_constant (t : SignatureToken) : bool :=
  match t with
  | Bool | U8 | U16 | U32 | U64 | U128 | U256 | Address => true
  | Vector inner => is_valid_for_constant inner
  | _ => false
  end.

(** [SignatureTokenPreorderTraversalIter]: the stack holds the tokens still to
    visit, its head on top. *)
Definition children (tok : SignatureToken) : list SignatureToken :=
  match tok with
  | Reference inner | MutableReference inner | Vector inner => [inner]
  | StructInstantiation _ inners => inners
  | _ => []
  end.

(** One call of [next]: pop a token and push its children, the first on top. *)
Definition next (stack : list SignatureToken) : option (SignatureToken * list SignatureToken) :=
  match stack with
  | [] => None
  | tok :: rest => Some (tok, children tok ++ rest)
  end.

Fixpoint drain (fuel : nat) (stack : list SignatureToken) : list SignatureToken :=
  match fuel with
  | O => []
  | S fuel => match next stack with None => [] | Some (tok, stack') => tok :: drain fuel stack' end
  end.

(** The number of nodes of a token, which is the number of calls of [next]. *)
Fixpoint size (t : SignatureToken) : nat :=
  match t with
  | Vector t | Reference t | MutableReference t => S (size t)
  | StructInstantiation _ ts => S (sum_list (map size ts))
  | _ => 1
  end.

Definition preorder_traversal (t : SignatureToken) : list SignatureToken := drain (size t) [t].
End SignatureToken.
Notation SignatureToken := SignatureToken.SignatureToken.

(** [Signature]. *)
Notation Signature := (list SignatureToken).

(** ** Handles and definitions *)

Record ModuleHandle := { mh_address : nat; mh_name : nat }.

Record StructTypeParameter := { tp_constraints : AbilitySet; is_phantom : bool }.

Record StructHandle := {
  sh_module : nat;
  sh_name : nat;
  sh_abilities : AbilitySet;
  sh_type_parameters : list StructTypeParameter;
}.

Record FunctionHandle := {
  fh_module : nat;
  fh_name : nat;
  fh_parameters : nat;
  fh_return : nat;
  fh_type_parameters : list AbilitySet;
}.

Record FieldHandle := { fld_owner : nat; fld_field : nat }.

Record FieldDefinition := { fd_name : nat; fd_signature : SignatureToken }.

Inductive StructFieldInformation :=
| Native
| Declared (fields : list FieldDefinition).

Record StructDefInstantiation := { si_def : nat; si_type_parameters : nat }.
Record FunctionInstantiation := { fi_handle : nat; fi_type_parameters : nat }.
Record FieldInstantiation := { fdi_handle : nat; fdi_type_parameters : nat }.

Record StructDefinition := {
  sd_struct_handle : nat;
  field_information : StructFieldInformation;
}.

Definition declared_field_count (sd : StructDefinition) : vm nat :=
  match field_information sd with
  | Native => Err (error_new StatusCode.LINKER_ERROR)
  | Declared fields => Ok (u16 (length fields))
  end.

Definition struct_field (sd : StructDefinition) (offset : nat) : option FieldDefinition :=
  match field_information sd with
  | Native => None
  | Declared fields => fields !! offset
  end.

Record Constant := { const_type : SignatureToken; const_data : list Z }.

Inductive Visibility := Private | Public | Friend.

(** ** Instructions *)

Module Bytecode.
Inductive Bytecode :=
| Pop | Ret
| BrTrue (offset : nat) | BrFalse (offset : nat) | Branch (offset : nat)
| LdU8 (v : Z) | LdU64 (v : Z) | LdU128 (v : Z)
| CastU8 | CastU64 | CastU128
| LdConst (idx : nat)
| LdTrue | LdFalse
| CopyLoc (idx : nat) | MoveLoc (idx : nat) | StLoc (idx : nat)
| Call (idx : nat) | CallGeneric (idx : nat)
| Pack (idx : nat) | PackGeneric (idx : nat)
| Unpack (idx : nat) | UnpackGeneric (idx : nat)
| ReadRef | WriteRef | FreezeRef
| MutBorrowLoc (idx : nat) | ImmBorrowLoc (idx : nat)
| MutBorrowField (idx : nat) | MutBorrowFieldGeneric (idx : nat)
| ImmBorrowField (idx : nat) | ImmBorrowFieldGeneric (idx : nat)
| MutBorrowGlobal (idx : nat) | MutBorrowGlobalGeneric (idx : nat)
| ImmBorrowGlobal (idx : nat) | ImmBorrowGlobalGeneric (idx : nat)
| Add | Sub | Mul | Mod | Div
| BitOr | BitAnd | Xor | Or | And | Not
| Eq | Neq | Lt | Gt | Le | Ge
| Abort | Nop
| Exists (idx : nat) | ExistsGeneric (idx : nat)
| MoveFrom (idx : nat) | MoveFromGeneric (idx : nat)
| MoveTo (idx : nat) | MoveToGeneric (idx : nat)
| Shl | Shr
| VecPack (idx num : nat)
| VecLen (idx : nat) | VecImmBorrow (idx : nat) | VecMutBorrow (idx : nat)
| VecPushBack (idx : nat) | VecPopBack (idx : nat)
| VecUnpack (idx num : nat)
| VecSwap (idx : nat)
| LdU16 (v : Z) | LdU32 (v : Z) | LdU256 (v : Z)
| CastU16 | CastU32 | CastU256.

Definition is_unconditional_branch (b : Bytecode) : bool :=
  match b with Ret | Abort | Branch _ => true | _ => false end.

Definition is_conditional_branch (b : Bytecode) : bool :=
  match b with BrFalse _ | BrTrue _ => true | _ => false end.

Definition is_branch (b : Bytecode) : bool := is_conditional_branch b || is_unconditional_branch b.

Definition offset (b : Bytecode) : option nat :=
  match b with BrFalse offset | BrTrue offset | Branch offset => Some offset | _ => None end.

(** [v.swap(0, 1)] on two elements that are out of order. *)
Definition ascending (v : list nat) : list nat :=
  match v with
  | [a; b] => if bool_decide (b < a) then [b; a] else v
  | _ => v
  end.

Definition get_successors (pc : nat) (code : list Bytecode) : vm (list nat) :=
  _ ← assert (bool_decide (Z.of_nat pc < u16_max)%Z && bool_decide (pc < length code));
  bytecode ← index code pc;
  let v := match offset bytecode with Some o => [o] | None => [] end in
  next_pc ← u16_add pc 1;
  if bool_decide (u16 (length code) <= next_pc) then Ok v
  else
    let v := if negb (is_unconditional_branch bytecode) && negb (bool_decide (next_pc ∈ v))
             then v ++ [next_pc] else v in
    Ok (ascending v).
End Bytecode.
Notation Bytecode := Bytecode.Bytecode.

Record CodeUnit := { cu_locals : nat; cu_code : list Bytecode }.

Record FunctionDefinition := {
  fn_function : nat;
  fn_visibility : Visibility;
  fn_is_entry : bool;
  fn_acquires_global_resources : list nat;
  fn_code : option CodeUnit;
}.

Definition is_native (fd : FunctionDefinition) : bool :=
  match fn_code fd with None => true | Some _ => false end.

Record CompiledScript := {
  cs_version : Z;
  cs_module_handles : list ModuleHandle;
  cs_struct_handles : list StructHandle;
  cs_function_handles : list FunctionHandle;
  cs_function_instantiations : list FunctionInstantiation;
  cs_signatures : list Signature;
  cs_identifiers : list string;
  cs_address_identifiers : list (list Z);
  cs_constant_pool : list Constant;
  cs_code : CodeUnit;
  cs_type_parameters : list AbilitySet;
  cs_parameters : nat;
}.

Record CompiledModule := {
  cm_version : Z;
  self_module_handle_idx : nat;
  cm_module_handles : list ModuleHandle;
  cm_struct_handles : list StructHandle;
  cm_function_handles : list FunctionHandle;
  cm_field_handles : list FieldHandle;
  cm_friend_decls : list ModuleHandle;
  struct_def_instantiations : list StructDefInstantiation;
  cm_function_instantiations : list FunctionInstantiation;
  cm_field_instantiations : list FieldInstantiation;
  cm_signatures : list Signature;
  cm_identifiers : list string;
  cm_address_identifiers : list (list Z);
  cm_constant_pool : list Constant;
  cm_struct_defs : list StructDefinition;
  cm_function_defs : list FunctionDefinition;
}.

Definition empty_module : CompiledModule := {|
  cm_version := 6;
  self_module_handle_idx := 0;
  cm_module_handles := [{| mh_address := 0; mh_name := 0 |}];
  cm_struct_handles := [];
  cm_function_handles := [];
  cm_field_handles := [];
  cm_friend_decls := [];
  struct_def_instantiations := [];
  cm_function_instantiations := [];
  cm_field_instantiations := [];
  cm_signatures := [[]];
  cm_identifiers := ["<SELF>"];
  cm_address_identifiers := [replicate 16 0%Z];
  cm_constant_pool := [];
  cm_struct_defs := [];
  cm_function_defs := [];
|}.

(** ** [BinaryIndexedView] *)

Module View.
Inductive BinaryIndexedView :=
| Module_ (m : CompiledModule)
| Script (s : CompiledScript).

Section Tables.
Context (v : BinaryIndexedView).

Definition module_handles : list ModuleHandle :=
  match v with Module_ m => cm_module_handles m | Script s => cs_module_handles s end.
Definition struct_handles : list StructHandle :=
  match v with Module_ m => cm_struct_handles m | Script s => cs_struct_handles s end.
Definition function_handles : list FunctionHandle :=
  match v with Module_ m => cm_function_handles m | Script s => cs_function_handles s end.
Definition identifiers : list string :=
  match v with Module_ m => cm_identifiers m | Script s => cs_identifiers s end.
Definition address_identifiers : list (list Z) :=
  match v with Module_ m => cm_address_identifiers m | Script s => cs_address_identifiers s end.
Definition constant_pool : list Constant :=
  match v with Module_ m => cm_constant_pool m | Script s => cs_constant_pool s end.
Definition signatures : list Signature :=
  match v with Module_ m => cm_signatures m | Script s => cs_signatures s end.
Definition function_instantiations : list FunctionInstantiation :=
  match v with Module_ m => cm_function_instantiations m | Script s => cs_function_instantiations s end.
Definition field_handles : option (list FieldHandle) :=
  match v with Module_ m => Some (cm_field_handles m) | Script _ => None end.
Definition friend_decls : option (list ModuleHandle) :=
  match v with Module_ m => Some (cm_friend_decls m) | Script _ => None end.
Definition struct_instantiations : option (list StructDefInstantiation) :=
  match v with Module_ m => Some (struct_def_instantiations m) | Script _ => None end.
Definition field_instantiations : option (list FieldInstantiation) :=
  match v with Module_ m => Some (cm_field_instantiations m) | Script _ => None end.
Definition struct_defs : option (list StructDefinition) :=
  match v with Module_ m => Some (cm_struct_defs m) | Script _ => None end.
Definition function_defs : option (list FunctionDefinition) :=
  match v with Module_ m => Some (cm_function_defs m) | Script _ => None end.
Definition self_handle_idx : option nat :=
  match v with Module_ m => Some (self_module_handle_idx m) | Script _ => None end.
Definition version : Z :=
  match v with Module_ m => cm_version m | Script s => cs_version s end.

(** The accessors of access.rs, with the debug assertions those of modules
    make. *)
Definition module_assert (b : bool) : vm () := match v with Module_ _ => assert b | Script _ => Ok () end.

Definition signature_at (idx : nat) : vm Signature := index signatures idx.
Definition function_instantiation_at (idx : nat) : vm FunctionInstantiation := index function_instantiations idx.
Definition constant_at (idx : nat) : vm Constant := index constant_pool idx.
Definition identifier_at (idx : nat) : vm string := index identifiers idx.
Definition address_identifier_at (idx : nat) : vm (list Z) := index address_identifiers idx.

Definition module_handle_at (idx : nat) : vm ModuleHandle :=
  handle ← index module_handles idx;
  _ ← module_assert (bool_decide (mh_address handle < length address_identifiers));
  _ ← module_assert (bool_decide (mh_name handle < length identifiers));
  Ok handle.

Definition struct_handle_at (idx : nat) : vm StructHandle :=
  handle ← index struct_handles idx;
  _ ← module_assert (bool_decide (sh_module handle < length module_handles));
  Ok handle.

Definition function_handle_at (idx : nat) : vm FunctionHandle :=
  handle ← index function_handles idx;
  _ ← module_assert (bool_decide (fh_parameters handle < length signatures));
  _ ← module_assert (bool_decide (fh_return handle < length signatures));
  Ok handle.

(** The accessors of what only a module has. *)
Definition only_in_module {A} (table : option (list A)) (idx : nat) : vm A :=
  match table with
  | Some l => index l idx
  | None => Err (error_new StatusCode.INVALID_OPERATION_IN_SCRIPT)
  end.

Definition struct_instantiation_at (idx : nat) : vm StructDefInstantiation := only_in_module struct_instantiations idx.
Definition field_instantiation_at (idx : nat) : vm FieldInstantiation := only_in_module field_instantiations idx.
Definition struct_def_at (idx : nat) : vm StructDefinition := only_in_module struct_defs idx.

Definition field_handle_at (idx : nat) : vm FieldHandle :=
  handle ← only_in_module field_handles idx;
  _ ← module_assert (bool_decide (fld_owner handle < length (default [] struct_defs)));
  Ok handle.

Definition function_def_at (idx : nat) : vm FunctionDefinition :=
  result ← only_in_module function_defs idx;
  _ ← module_assert (bool_decide (fn_function result < length function_handles));
  _ ← module_assert (match fn_code result with Some code => bool_decide (cu_locals code < length signatures) | None => true end);
  Ok result.

(** [abilities]: the abilities of a type, those of a type parameter being its
    constraints. *)
Fixpoint abilities (ty : SignatureToken) (constraints : list AbilitySet) {struct ty} : vm AbilitySet :=
  match ty with
  | SignatureToken.Bool | SignatureToken.U8 | SignatureToken.U16 | SignatureToken.U32
  | SignatureToken.U64 | SignatureToken.U128 | SignatureToken.U256 | SignatureToken.Address =>
    Ok AbilitySet.PRIMITIVES
  | SignatureToken.Reference _ | SignatureToken.MutableReference _ => Ok AbilitySet.REFERENCES
  | SignatureToken.Signer => Ok AbilitySet.SIGNER
  | SignatureToken.TypeParameter idx => index constraints idx
  | SignatureToken.Vector ty =>
    a ← abilities ty constraints;
    AbilitySet.polymorphic_abilities AbilitySet.VECTOR [false] [a]
  | SignatureToken.Struct idx =>
    sh ← struct_handle_at idx;
    Ok (sh_abilities sh)
  | SignatureToken.StructInstantiation idx type_args =>
    sh ← struct_handle_at idx;
    type_arguments ← vmap (fun arg => abilities arg constraints) type_args;
    AbilitySet.polymorphic_abilities (sh_abilities sh) (map is_phantom (sh_type_parameters sh)) type_arguments
  end.
End Tables.
End View.
Notation BinaryIndexedView := View.BinaryIndexedView.

(** ** Reasoning about runs *)

Lemma vm_bind_Ok {A B} (m : vm A) (f : A -> vm B) b :
  m ≫= f = Ok b <-> exists a, m = Ok a /\ f a = Ok b.
Proof.
  destruct m as [a|e| |]; cbn; split; try done; [by exists a|..];
    by intros (a' & [= ?] & Hf); subst.
Qed.

Lemma index_Ok {A} (l : list A) i a : index l i = Ok a <-> l !! i = Some a.
Proof. unfold index. case_match; naive_solver. Qed.

Lemma index_lt {A} (l : list A) i : i < length l -> exists a, index l i = Ok a /\ l !! i = Some a.
Proof. intros [a Ha]%lookup_lt_is_Some. exists a. by rewrite index_Ok. Qed.

Lemma map_index_Ok {A} (m : gmap nat A) k a : map_index m k = Ok a <-> m !! k = Some a.
Proof. unfold map_index. case_match; naive_solver. Qed.

Lemma set_index_Ok {A} (l l' : list A) i a : set_index l i a = Ok l' <-> i < length l /\ l' = <[i := a]> l.
Proof. unfold set_index. case_bool_decide; naive_solver. Qed.

Lemma assert_Ok b u : assert b = Ok u <-> b = true.
Proof. destruct b, u; naive_solver. Qed.

Lemma u16_add_Ok a b c : u16_add a b = Ok c <-> (Z.of_nat (a + b) < 65536)%Z /\ c = a + b.
Proof. unfold u16_add. case_bool_decide; naive_solver. Qed.

Lemma u16_small n : (Z.of_nat n < 65536)%Z -> u16 n = n.
Proof. intros ?. unfold u16. rewrite Z.mod_small by lia. lia. Qed.

(** Split the hypotheses on runs that returned. *)
Ltac vm_inv :=
  repeat match goal with
  | H : (_ ≫= _) = Ok _ |- _ =>
    let a := fresh "v" in let Ha := fresh "Hv" in
    apply vm_bind_Ok in H as (a & Ha & H)
  | H : index _ _ = Ok _ |- _ => apply index_Ok in H
  | H : map_index _ _ = Ok _ |- _ => apply map_index_Ok in H
  | H : assert _ = Ok _ |- _ => apply assert_Ok in H
  | H : set_index _ _ _ = Ok _ |- _ => apply set_index_Ok in H as [? ->]
  | H : u16_add _ _ = Ok _ |- _ => apply u16_add_Ok in H as [? ->]
  | H : Ok _ = Ok _ |- _ => injection H as H
  | H : Err _ = Ok _ |- _ => discriminate H
  | H : Panicked = Ok _ |- _ => discriminate H
  | H : Exhausted = Ok _ |- _ => discriminate H
  end.

(** Run a computation past the steps whose results are known. *)
Tactic Notation "vm_cbn" := cbn [mbind vm_bind].
Tactic Notation "vm_cbn" "in" hyp(H) := cbn [mbind vm_bind] in H.

Lemma vfor_Ok {A} (f : A -> vm ()) l : vfor f l = Ok () <-> Forall (fun x => f x = Ok ()) l.
Proof.
  induction l as [|x r IH]; cbn; [by split|]. rewrite vm_bind_Ok, Forall_cons. setoid_rewrite IH.
  split; [intros ([] & ? & ?)|intros [? ?]; exists ()]; done.
Qed.

Lemma vfold_app {A S} (f : S -> A -> vm S) l k s : vfold f (l ++ k) s = (s1 ← vfold f l s; vfold f k s1).
Proof. revert s. induction l as [|x r IH]; intros s; cbn; [done|]. destruct (f s x) as [s1|e| |]; cbn; [apply IH|done..]. Qed.

Lemma vfold_inv {A S} (P : S -> Prop) (f : S -> A -> vm S) l s s' :
  (forall s x s', x ∈ l -> P s -> f s x = Ok s' -> P s') -> P s -> vfold f l s = Ok s' -> P s'.
Proof.
  revert s. induction l as [|x r IH]; intros s Hstep Hs Hf; cbn in Hf; [by injection Hf as <-|].
  apply vm_bind_Ok in Hf as (s1 & H1 & Hf). eapply IH; [|eapply Hstep; [left|exact Hs|exact H1]|exact Hf].
  intros s2 y s3 Hy. apply Hstep. by right.
Qed.

(** A loop over the numbers below [n] with an invariant of the turn. *)
Lemma vfold_seq {S} (P : nat -> S -> Prop) (f : S -> nat -> vm S) n s :
  P 0 s -> (forall i s, i < n -> P i s -> exists s', f s i = Ok s' /\ P (Datatypes.S i) s') ->
  exists s', vfold f (seq 0 n) s = Ok s' /\ P n s'.
Proof.
  intros H0 Hstep.
  assert (forall k i s, i + k = n -> P i s -> exists s', vfold f (seq i k) s = Ok s' /\ P n s') as Hgen.
  { induction k as [|k IH]; intros i s1 Hi Hs1; cbn; [exists s1; by replace n with i by lia|].
    destruct (Hstep i s1) as (s2 & -> & Hs2); [lia|done|]. vm_cbn. apply IH; [lia|done]. }
  by apply Hgen.
Qed.

Lemma vmap_Ok {A B} (f : A -> vm B) l l' : vmap f l = Ok l' <-> Forall2 (fun x y => f x = Ok y) l l'.
Proof.
  revert l'. induction l as [|x r IH]; intros l'; cbn.
  - split; [intros [= <-]; constructor|by inversion 1].
  - rewrite vm_bind_Ok. setoid_rewrite vm_bind_Ok. setoid_rewrite IH. split.
    + intros (y & ? & ys & ? & [= <-]). by constructor.
    + inversion 1; subst. eauto.
Qed.

(** What a run can do besides returning. *)
Definition no_panic {A} (m : vm A) : Prop := m <> Panicked.
Definition terminates {A} (m : vm A) : Prop := m <> Exhausted.

(** A run that returns or reports an error. *)
Definition settles {A} (m : vm A) : Prop := no_panic m /\ terminates m.

Lemma settles_Ok {A} (a : A) : settles (Ok a).
Proof. by split. Qed.

Lemma settles_Err {A} e : settles (A := A) (Err e).
Proof. by split. Qed.

Lemma settles_bind {A B} (m : vm A) (f : A -> vm B) :
  settles m -> (forall a, m = Ok a -> settles (f a)) -> settles (m ≫= f).
Proof. destruct m as [a|e| |]; cbn; intros [? ?] Hf; [by apply Hf|done..]. Qed.

Lemma settles_index {A} (l : list A) i : i < length l -> settles (index l i).
Proof. intros (a & -> & _)%index_lt. apply settles_Ok. Qed.

Lemma settles_vfor {A} (f : A -> vm ()) l : (forall x, x ∈ l -> settles (f x)) -> settles (vfor f l).
Proof.
  induction l as [|x r IH]; intros Hf; [apply settles_Ok|]. cbn.
  apply settles_bind; [apply Hf; left|]. intros. apply IH. intros. apply Hf. by right.
Qed.

Lemma settles_vmap {A B} (f : A -> vm B) l : Forall (fun x => settles (f x)) l -> settles (vmap f l).
Proof.
  induction 1 as [|x r Hx _ IH]; [apply settles_Ok|]. cbn.
  apply settles_bind; [done|]. intros. apply settles_bind; [done|]. intros. apply settles_Ok.
Qed.

Lemma settles_vfold {A S} (P : S -> Prop) (f : S -> A -> vm S) l s :
  (forall s x, x ∈ l -> P s -> settles (f s x)) ->
  (forall s x s', x ∈ l -> P s -> f s x = Ok s' -> P s') -> P s -> settles (vfold f l s).
Proof.
  revert s. induction l as [|x r IH]; intros s Hf Hinv Hs; [apply settles_Ok|]. cbn.
  apply settles_bind; [apply Hf; [left|done]|]. intros s' Hs'. apply IH.
  - intros. apply Hf; [by right|done].
  - intros s1 y s2 ? ? ?. eapply (Hinv s1 y); [by right|done..].
  - eapply (Hinv s x); [left|done..].
Qed.

(** A loop whose invariant depends on the position. *)
Lemma vfold_positions {A S} (P : nat -> S -> Prop) (f : S -> A -> vm S) l s :
  (forall i x s, l !! i = Some x -> P i s -> settles (f s x) /\ forall s', f s x = Ok s' -> P (Datatypes.S i) s') -> P 0 s ->
  settles (vfold f l s) /\ forall s', vfold f l s = Ok s' -> P (length l) s'.
Proof.
  revert P s. induction l as [|x r IH]; intros P s Hstep Hs; cbn.
  { split; [apply settles_Ok|]. by intros s' [= <-]. }
  destruct (Hstep 0 x s eq_refl Hs) as [Hset Hnext]. split.
  - apply settles_bind; [done|]. intros s1 Hs1. apply (IH (fun i => P (Datatypes.S i))); [|by apply Hnext]. intros i. apply (Hstep (Datatypes.S i)).
  - intros s' Hf. apply vm_bind_Ok in Hf as (s1 & Hs1 & Hf). eapply (IH (fun i => P (Datatypes.S i))); [|by apply Hnext|done].
    intros i. apply (Hstep (Datatypes.S i)).
Qed.

(** A loop that does not fail. *)
Lemma vfold_reach {A S} (P : nat -> S -> Prop) (f : S -> A -> vm S) l s :
  P 0 s -> (forall i x s, l !! i = Some x -> P i s -> exists s', f s x = Ok s' /\ P (Datatypes.S i) s') ->
  exists s', vfold f l s = Ok s' /\ P (length l) s'.
Proof.
  revert P s. induction l as [|x r IH]; intros P s Hs Hstep; cbn; [by exists s|].
  destruct (Hstep 0 x s eq_refl Hs) as (s1 & -> & Hs1). cbn. apply (IH (fun i => P (Datatypes.S i))); [done|]. intros i. apply (Hstep (Datatypes.S i)).
Qed.

Lemma settles_assert b : b = true -> settles (assert b).
Proof. intros ->. apply settles_Ok. Qed.

Create HintDb settle.
#[export] Hint Resolve settles_Ok settles_Err : settle.
#[export] Hint Extern 0 (settles (assert true)) => apply settles_Ok : settle.

(** Decompose a run into its steps. *)
Ltac settle :=
  repeat match goal with
  | |- settles _ => solve [auto 1 with settle nocore]
  | |- settles (vfor _ _) => apply settles_vfor; intros ? ?
  | |- settles (_ ≫= _) => apply settles_bind; [|intros ? ?]
  | |- settles (if bool_decide _ then _ else _) => case_bool_decide
  | |- settles (match _ with _ => _ end) => case_match
  end.

(** A check that reports an error exactly when its condition fails. *)
Definition decides (m : vm ()) (P : Prop) : Prop := settles m /\ (m = Ok () <-> P).

Lemma decides_true : decides (Ok ()) True.
Proof. by split; [apply settles_Ok|]. Qed.

Lemma decides_iff m P Q : decides m P -> (P <-> Q) -> decides m Q.
Proof. intros [Hs Hm] HPQ. split; [done|]. by rewrite Hm. Qed.

#[export] Instance decides_proper m : Proper (iff ==> iff) (decides m).
Proof. intros P Q HPQ. split; intros H; (eapply decides_iff; [exact H|]); [done|by symmetry]. Qed.

Lemma decides_seq m k P Q : decides m P -> (P -> decides k Q) -> decides (_ ← m; k) (P /\ Q).
Proof.
  intros [Hs Hm] Hk. split.
  - apply settles_bind; [done|]. intros [] Hok. apply Hk. by apply Hm.
  - rewrite vm_bind_Ok. split.
    + intros ([] & Hok & Hk'). apply Hm in Hok. split; [done|]. by apply (Hk Hok).
    + intros [HP HQ]. exists (). split; [by apply Hm|]. by apply (Hk HP).
Qed.

Lemma decides_vfor {A} (f : A -> vm ()) (P : A -> Prop) l : (forall x, x ∈ l -> decides (f x) (P x)) -> decides (vfor f l) (Forall P l).
Proof.
  intros Hf. split.
  - apply settles_vfor. intros x Hx. by apply Hf.
  - rewrite vfor_Ok, !Forall_forall. split; intros H x Hx; apply (Hf x Hx); by apply H.
Qed.

Lemma decides_map_err f m P : decides m P -> decides (map_err f m) P.
Proof. intros [[Hp Ht] Hm]. destruct m as [[]|e| |]; cbn; [done| |done..]. split; [apply settles_Err|]. rewrite <- Hm. done. Qed.

Lemma decides_guard (b : bool) e : decides (if b then Err e else Ok ()) (b = false).
Proof. destruct b; split; auto with settle; done. Qed.

Lemma decides_step {A} (m : vm A) (k : A -> vm ()) a P : m = Ok a -> decides (k a) P -> decides (x ← m; k x) P.
Proof. by intros ->. Qed.

Lemma decides_lookup {A} (m : vm A) (k : A -> vm ()) (P : A -> Prop) :
  settles m -> (forall a, m = Ok a -> decides (k a) (P a)) -> decides (x ← m; k x) (exists a, m = Ok a /\ P a).
Proof.
  intros Hm Hk. split.
  - apply settles_bind; [done|]. intros a Ha. by apply Hk.
  - rewrite vm_bind_Ok. split; intros (a & Ha & Hr); exists a; (split; [done|]); by apply (Hk a Ha).
Qed.

(** A loop over positions. *)
Lemma decides_imap {A} (f : nat * A -> vm ()) (P : A -> Prop) l :
  (forall i x, l !! i = Some x -> decides (f (i, x)) (P x)) -> decides (vfor f (imap pair l)) (Forall P l).
Proof.
  intros Hf. eapply decides_iff; [apply (decides_vfor _ (fun q => P q.2))|].
  - intros [i x] Hx. apply list_elem_of_lookup in Hx as [k Hk]. rewrite list_lookup_imap in Hk.
    destruct (l !! k) eqn:Hl; cbn in Hk; [|done]. injection Hk as <- <-. by apply Hf.
  - rewrite !Forall_lookup. setoid_rewrite list_lookup_imap. split.
    + intros H i x Hx. apply (H i (i, x)). by rewrite Hx.
    + intros H i [k x] Hx. destruct (l !! i) eqn:Hl; cbn in Hx; [|done]. injection Hx as <- <-. cbn. by eapply H.
Qed.

(** ** The theorems of the format *)

Module FormatSafety.
Import SignatureToken.

(** The nodes of a token in preorder, read off its structure. *)
Fixpoint preorder (t : SignatureToken) : list SignatureToken :=
  t :: match t with
       | Vector t | Reference t | MutableReference t => preorder t
       | StructInstantiation _ ts => concat (map preorder ts)
       | _ => []
       end.

Lemma drain_preorder stack fuel :
  sum_list (map size stack) <= fuel -> drain fuel stack = concat (map preorder stack).
Proof.
  assert (forall t, 1 <= size t) as Hsize by (intros []; cbn; lia).
  revert stack. induction fuel as [|fuel IH]; intros [|t rest] Hle; cbn in *; [done|specialize (Hsize t); lia|done|].
  destruct t; cbn in *; f_equal; rewrite ?app_nil_r; try (apply IH; cbn; lia).
  rewrite IH; [by rewrite map_app, concat_app|].
  rewrite map_app, sum_list_with_app. lia.
Qed.

(** The iterator over a type is its preorder: a stack that pops a token
    and pushes the token's children visits every node of the type once, each
    before its children and the children from left to right. *)
Lemma preorder_traversal_spec t : preorder_traversal t = preorder t.
Proof. unfold preorder_traversal. rewrite drain_preorder by (cbn; lia). cbn. by rewrite app_nil_r. Qed.

(** The position of an ability in the byte of a set. *)
Definition bit (a : Ability) : Z :=
  match a with Ability.Copy => 0 | Ability.Drop => 1 | Ability.Store => 2 | Ability.Key => 3 end.

Lemma land_power s k : (0 <= k)%Z -> Z.land s (2 ^ k) = if Z.testbit s k then (2 ^ k)%Z else 0%Z.
Proof.
  intros Hk. apply Z.bits_inj'. intros n Hn. rewrite Z.land_spec, Z.pow2_bits_eqb by done.
  destruct (Z.eqb_spec k n) as [->|Hne].
  - destruct (Z.testbit s n) eqn:Hs; rewrite ?Z.bits_0; [by rewrite Z.pow2_bits_true|done].
  - rewrite andb_false_r. destruct (Z.testbit s k); rewrite ?Z.bits_0; [by rewrite Z.pow2_bits_false|done].
Qed.

Lemma to_u8_pow2 a : Ability.to_u8 a = (2 ^ bit a)%Z.
Proof. by destruct a. Qed.

Lemma has_ability_bit s a : AbilitySet.has_ability s a = Z.testbit s (bit a).
Proof.
  unfold AbilitySet.has_ability. rewrite to_u8_pow2, Z.land_comm, land_power by (by destruct a).
  destruct (Z.testbit s (bit a)); [apply Z.eqb_refl|by destruct a].
Qed.

(** The iterator yields the abilities of the set. *)
Lemma into_iter_spec s :
  AbilitySet.into_iter s = filter (fun a => AbilitySet.has_ability s a = true) [Ability.Copy; Ability.Drop; Ability.Store; Ability.Key].
Proof.
  assert (Z.land s 1 = if Z.testbit s 0 then 1 else 0)%Z as H0 by exact (land_power s 0 ltac:(lia)).
  assert (Z.land s 2 = if Z.testbit s 1 then 2 else 0)%Z as H1 by exact (land_power s 1 ltac:(lia)).
  assert (Z.land s 4 = if Z.testbit s 2 then 4 else 0)%Z as H2 by exact (land_power s 2 ltac:(lia)).
  assert (Z.land s 8 = if Z.testbit s 3 then 8 else 0)%Z as H3 by exact (land_power s 3 ltac:(lia)).
  unfold AbilitySet.into_iter. cbn -[Z.land Z.testbit filter Z.shiftl].
  change (Z.shiftl 1 1) with 2%Z. change (Z.shiftl 2 1) with 4%Z. change (Z.shiftl 4 1) with 8%Z.
  change (Z.shiftl 8 1) with 16%Z. cbn -[Z.land Z.testbit filter].
  rewrite H0, H1, H2, H3, !filter_cons, filter_nil, !has_ability_bit. cbn [bit].
  by destruct (Z.testbit s 0), (Z.testbit s 1), (Z.testbit s 2), (Z.testbit s 3).
Qed.

Lemma required_by_bits s a :
  Z.testbit (foldl AbilitySet.union AbilitySet.EMPTY (map AbilitySet.required_by (AbilitySet.into_iter s))) (bit a) =
  AbilitySet.has_ability s (Ability.requires a).
Proof.
  rewrite into_iter_spec, !filter_cons, filter_nil.
  destruct (AbilitySet.has_ability s Ability.Copy) eqn:H0, (AbilitySet.has_ability s Ability.Drop) eqn:H1,
    (AbilitySet.has_ability s Ability.Store) eqn:H2, (AbilitySet.has_ability s Ability.Key) eqn:H3;
    destruct a; cbn [Ability.requires]; rewrite ?H0, ?H1, ?H2; vm_compute; reflexivity.
Qed.

Lemma intersect_bits d l k : Z.testbit (foldl AbilitySet.intersect d l) k = Z.testbit d k && forallb (fun s => Z.testbit s k) l.
Proof.
  revert d. induction l as [|s r IH]; intros d; cbn; [by rewrite andb_true_r|].
  rewrite IH. unfold AbilitySet.intersect. by rewrite Z.land_spec, andb_assoc.
Qed.

(** An instantiated type has an ability exactly when the generic type
    declares it and every type argument of a parameter that is not phantom has
    the ability this one requires ([key] requires [store], the others
    themselves), although the code computes it by intersecting, over the
    arguments, the sets of abilities each argument's abilities serve. *)
Theorem polymorphic_abilities_spec declared phantom args res a :
  AbilitySet.polymorphic_abilities declared phantom args = Ok res ->
  AbilitySet.has_ability res a =
  AbilitySet.has_ability declared a &&
  forallb (fun p : AbilitySet * bool => p.2 || AbilitySet.has_ability p.1 (Ability.requires a)) (zip args phantom).
Proof.
  unfold AbilitySet.polymorphic_abilities. case_bool_decide; cbn [negb]; [|done]. intros [= <-].
  rewrite !(has_ability_bit _ a), intersect_bits. f_equal. clear.
  induction (zip args phantom) as [|[s ph] r IH]; [done|]. rewrite filter_cons. cbn [fst snd forallb].
  destruct ph; [by rewrite decide_False by done|]. rewrite decide_True by done. cbn [map forallb fst orb].
  by rewrite required_by_bits, IH.
Qed.

Lemma polymorphic_abilities_spec_witness :
  exists res, AbilitySet.polymorphic_abilities AbilitySet.ALL [false; true] [AbilitySet.PRIMITIVES; AbilitySet.SIGNER] = Ok res /\
  AbilitySet.has_ability res Ability.Key = true.
Proof.
  eexists. split; [reflexivity|].
  by rewrite (polymorphic_abilities_spec AbilitySet.ALL [false; true] [AbilitySet.PRIMITIVES; AbilitySet.SIGNER] _ Ability.Key eq_refl).
Defined.

(** The successors of an instruction are its branch target and, unless it
    always branches or is the last one, the next instruction, in ascending
    order and without duplicates. *)
Lemma get_successors_spec code pc b l :
  (Z.of_nat (length code) < 65536)%Z -> code !! pc = Some b -> Bytecode.get_successors pc code = Ok l ->
  NoDup l /\ StronglySorted le l /\
  forall o, o ∈ l <-> Bytecode.offset b = Some o \/ (o = S pc /\ S pc < length code /\ Bytecode.is_unconditional_branch b = false).
Proof.
  intros Hlen Hpc Hs. unfold Bytecode.get_successors in Hs. vm_inv. rewrite u16_small in Hs by done.
  assert (v0 = b) as -> by congruence. assert (pc < length code) by by eapply lookup_lt_Some.
  replace (pc + 1) with (S pc) in * by lia.
  case_bool_decide as Hlast; vm_inv; subst l.
  - assert (~ S pc < length code) by lia.
    destruct (Bytecode.offset b) as [o|]; (split; [repeat constructor; set_solver|]);
      (split; [repeat constructor|]); intros o'; set_unfold; naive_solver.
  - assert (S pc < length code) by lia.
    destruct (Bytecode.offset b) as [o|], (Bytecode.is_unconditional_branch b); cbn [negb andb app Bytecode.ascending];
      [|shelve|..].
    all: try (split; [repeat constructor; set_solver|]; split; [repeat constructor|]; set_unfold; naive_solver).
    Unshelve.
    rewrite bool_decide_decide. destruct (decide (S pc ∈ [o])) as [Hin|Hin]; cbn [negb app Bytecode.ascending].
    + assert (o = S pc) as -> by set_solver.
      split; [repeat constructor; set_solver|]. split; [repeat constructor|]. set_unfold; naive_solver.
    + assert (o <> S pc) by set_solver. clear Hv. case_bool_decide; (split; [rewrite !NoDup_cons; set_unfold; naive_solver (constructor)|]).
      all: split; [repeat constructor; lia|]; set_unfold; naive_solver.
Qed.
End FormatSafety.
