(* ===== verification/MoveBounds.v ===== *)
(** The bounds checker.

    external/move/move-binary-format/src/check_bounds.rs: the first pass of the
    verifier, which looks at every index of a module or script before any other
    pass follows one.  [verify_module] and [verify_script] are its entry points
    and every other definition is one of its checks.  [WellBounded] says what
    the later passes rely on, and the theorems show that a module passes
    exactly when it is. *)

From S2P Require Import Prelude MoveFormat.
From stdpp Require Import strings.

Module Bounds.

Inductive BoundsCheckingContext :=
| Module_
| ModuleFunction (idx : nat)
| Script.

(** [check_bounds_impl]; the kind of the index is its type in the code. *)
Definition check_bounds_impl {T} (pool : list T) (kind : IndexKind) (idx : nat) : vm () :=
  let len := length pool in
  if bool_decide (len <= idx) then Err (bounds_error StatusCode.INDEX_OUT_OF_BOUNDS kind (u16 idx) len) else Ok ().

Definition check_bounds_impl_opt {T} (pool : option (list T)) (kind : IndexKind) (idx : nat) : vm () :=
  match pool with None => Ok () | Some p => check_bounds_impl p kind idx end.

Section Checker.
Context (view : BinaryIndexedView).

Definition check_type (ty : SignatureToken) : vm () :=
  vfor (fun ty =>
    match ty with
    | SignatureToken.Struct idx =>
      _ ← check_bounds_impl (View.struct_handles view) IndexKind.StructHandle idx;
      match View.struct_handles view !! idx with
      | Some sh =>
        match sh_type_parameters sh with
        | [] => Ok ()
        | _ :: _ => Err (error_new StatusCode.NUMBER_OF_TYPE_ARGUMENTS_MISMATCH)
        end
      | None => Ok ()
      end
    | SignatureToken.StructInstantiation idx type_params =>
      _ ← check_bounds_impl (View.struct_handles view) IndexKind.StructHandle idx;
      match View.struct_handles view !! idx with
      | Some sh =>
        if negb (bool_decide (length (sh_type_parameters sh) = length type_params)) then
          Err (error_new StatusCode.NUMBER_OF_TYPE_ARGUMENTS_MISMATCH)
        else Ok ()
      | None => Ok ()
      end
    | _ => Ok ()
    end) (SignatureToken.preorder_traversal ty).

Definition check_type_parameter (type_param_count : nat) (ty : SignatureToken) : vm () :=
  vfor (fun ty =>
    match ty with
    | SignatureToken.TypeParameter idx =>
      if bool_decide (type_param_count <= idx) then
        Err (bounds_error StatusCode.INDEX_OUT_OF_BOUNDS IndexKind.TypeParameter idx type_param_count)
      else Ok ()
    | _ => Ok ()
    end) (SignatureToken.preorder_traversal ty).

(** The type parameters of the signature at [idx], where there is one. *)
Definition check_signature_parameters (idx type_param_count : nat) : vm () :=
  match View.signatures view !! idx with
  | Some sig => vfor (check_type_parameter type_param_count) sig
  | None => Ok ()
  end.

Definition offset_out_of_bounds (context : BoundsCheckingContext) (status : StatusCode)
    (kind : IndexKind) (target_offset target_pool_len cur_bytecode_offset : nat) : PartialVMError :=
  match context with
  | Module_ => error_new StatusCode.UNKNOWN_INVARIANT_VIOLATION_ERROR
  | ModuleFunction current_function_index =>
    at_code_offset (error_new status) current_function_index cur_bytecode_offset
  | Script => error_new status
  end.

Definition check_code_unit_bounds_impl {T} (context : BoundsCheckingContext) (pool : list T)
    (kind : IndexKind) (idx bytecode_offset : nat) : vm () :=
  let len := length pool in
  if bool_decide (len <= idx) then
    Err (offset_out_of_bounds context StatusCode.INDEX_OUT_OF_BOUNDS kind idx len (u16 bytecode_offset))
  else Ok ().

Definition check_code_unit_bounds_impl_opt {T} (context : BoundsCheckingContext) (pool : option (list T))
    (kind : IndexKind) (idx bytecode_offset : nat) : vm () :=
  match pool with None => Ok () | Some p => check_code_unit_bounds_impl context p kind idx bytecode_offset end.

(** The check of one instruction. *)
Definition check_bytecode (context : BoundsCheckingContext) (type_param_count locals_count code_len : nat)
    (bytecode_offset : nat) (bytecode : Bytecode) : vm () :=
  match bytecode with
  | Bytecode.LdConst idx =>
    check_code_unit_bounds_impl context (View.constant_pool view) IndexKind.ConstantPool idx bytecode_offset
  | Bytecode.MutBorrowField idx | Bytecode.ImmBorrowField idx =>
    check_code_unit_bounds_impl_opt context (View.field_handles view) IndexKind.FieldHandle idx bytecode_offset
  | Bytecode.MutBorrowFieldGeneric idx | Bytecode.ImmBorrowFieldGeneric idx =>
    _ ← check_code_unit_bounds_impl_opt context (View.field_instantiations view) IndexKind.FieldInstantiation idx bytecode_offset;
    match View.field_instantiations view ≫= (.!! idx) with
    | Some field_inst => check_signature_parameters (fdi_type_parameters field_inst) type_param_count
    | None => Ok ()
    end
  | Bytecode.Call idx =>
    check_code_unit_bounds_impl context (View.function_handles view) IndexKind.FunctionHandle idx bytecode_offset
  | Bytecode.CallGeneric idx =>
    _ ← check_code_unit_bounds_impl context (View.function_instantiations view) IndexKind.FunctionInstantiation idx bytecode_offset;
    match View.function_instantiations view !! idx with
    | Some func_inst => check_signature_parameters (fi_type_parameters func_inst) type_param_count
    | None => Ok ()
    end
  | Bytecode.Pack idx | Bytecode.Unpack idx | Bytecode.Exists idx | Bytecode.ImmBorrowGlobal idx
  | Bytecode.MutBorrowGlobal idx | Bytecode.MoveFrom idx | Bytecode.MoveTo idx =>
    check_code_unit_bounds_impl_opt context (View.struct_defs view) IndexKind.StructDefinition idx bytecode_offset
  | Bytecode.PackGeneric idx | Bytecode.UnpackGeneric idx | Bytecode.ExistsGeneric idx
  | Bytecode.ImmBorrowGlobalGeneric idx | Bytecode.MutBorrowGlobalGeneric idx
  | Bytecode.MoveFromGeneric idx | Bytecode.MoveToGeneric idx =>
    _ ← check_code_unit_bounds_impl_opt context (View.struct_instantiations view) IndexKind.StructDefInstantiation idx bytecode_offset;
    match View.struct_instantiations view ≫= (.!! idx) with
    | Some struct_inst => check_signature_parameters (si_type_parameters struct_inst) type_param_count
    | None => Ok ()
    end
  | Bytecode.BrTrue offset | Bytecode.BrFalse offset | Bytecode.Branch offset =>
    if bool_decide (code_len <= offset) then
      Err (offset_out_of_bounds context StatusCode.INDEX_OUT_OF_BOUNDS IndexKind.CodeDefinition offset code_len (u16 bytecode_offset))
    else Ok ()
  | Bytecode.CopyLoc idx | Bytecode.MoveLoc idx | Bytecode.StLoc idx | Bytecode.MutBorrowLoc idx
  | Bytecode.ImmBorrowLoc idx =>
    if bool_decide (locals_count <= idx) then
      Err (offset_out_of_bounds context StatusCode.INDEX_OUT_OF_BOUNDS IndexKind.LocalPool idx locals_count (u16 bytecode_offset))
    else Ok ()
  | Bytecode.VecPack idx _ | Bytecode.VecLen idx | Bytecode.VecImmBorrow idx | Bytecode.VecMutBorrow idx
  | Bytecode.VecPushBack idx | Bytecode.VecPopBack idx | Bytecode.VecUnpack idx _ | Bytecode.VecSwap idx =>
    _ ← check_code_unit_bounds_impl context (View.signatures view) IndexKind.Signature idx bytecode_offset;
    check_signature_parameters idx type_param_count
  | _ => Ok ()
  end.

Definition get_locals (code_unit : CodeUnit) : vm Signature :=
  match View.signatures view !! cu_locals code_unit with
  | Some signature => Ok signature
  | None => Err (bounds_error StatusCode.INDEX_OUT_OF_BOUNDS IndexKind.Signature (u16 (cu_locals code_unit)) (length (View.signatures view)))
  end.

Definition check_code (context : BoundsCheckingContext) (code_unit : CodeUnit)
    (type_parameters : list AbilitySet) (parameters : Signature) (index : nat) : vm () :=
  _ ← check_bounds_impl (View.signatures view) IndexKind.Signature (cu_locals code_unit);
  locals ← get_locals code_unit;
  let locals_count := length locals + length parameters in
  if bool_decide (255 < locals_count) then
    Err (verification_error StatusCode.TOO_MANY_LOCALS IndexKind.FunctionDefinition (u16 index))
  else
    let type_param_count := length type_parameters in
    _ ← vfor (check_type_parameter type_param_count) locals;
    vfor (fun p : nat * Bytecode => check_bytecode context type_param_count locals_count (length (cu_code code_unit)) p.1 p.2)
      (imap pair (cu_code code_unit)).

Definition check_module_handle (mh : ModuleHandle) : vm () :=
  _ ← check_bounds_impl (View.address_identifiers view) IndexKind.AddressIdentifier (mh_address mh);
  check_bounds_impl (View.identifiers view) IndexKind.Identifier (mh_name mh).

Definition check_self_module_handle : vm () :=
  match View.self_handle_idx view with
  | Some idx => check_bounds_impl (View.module_handles view) IndexKind.ModuleHandle idx
  | None => Ok ()
  end.

Definition check_struct_handle (sh : StructHandle) : vm () :=
  _ ← check_bounds_impl (View.module_handles view) IndexKind.ModuleHandle (sh_module sh);
  check_bounds_impl (View.identifiers view) IndexKind.Identifier (sh_name sh).

Definition check_function_handle (fh : FunctionHandle) : vm () :=
  _ ← check_bounds_impl (View.module_handles view) IndexKind.ModuleHandle (fh_module fh);
  _ ← check_bounds_impl (View.identifiers view) IndexKind.Identifier (fh_name fh);
  _ ← check_bounds_impl (View.signatures view) IndexKind.Signature (fh_parameters fh);
  _ ← check_bounds_impl (View.signatures view) IndexKind.Signature (fh_return fh);
  let type_param_count := length (fh_type_parameters fh) in
  _ ← check_signature_parameters (fh_parameters fh) type_param_count;
  check_signature_parameters (fh_return fh) type_param_count.

(** The number of fields, none for a native structure. *)
Definition fields_count (sd : StructDefinition) : nat :=
  match field_information sd with Native => 0 | Declared fields => length fields end.

Definition check_field_handle (fh : FieldHandle) : vm () :=
  _ ← check_bounds_impl_opt (View.struct_defs view) IndexKind.StructDefinition (fld_owner fh);
  match View.struct_defs view ≫= (.!! fld_owner fh) with
  | Some struct_def =>
    if bool_decide (fields_count struct_def <= fld_field fh) then
      Err (bounds_error StatusCode.INDEX_OUT_OF_BOUNDS IndexKind.MemberCount (fld_field fh) (fields_count struct_def))
    else Ok ()
  | None => Ok ()
  end.

Definition check_struct_instantiation (si : StructDefInstantiation) : vm () :=
  _ ← check_bounds_impl_opt (View.struct_defs view) IndexKind.StructDefinition (si_def si);
  check_bounds_impl (View.signatures view) IndexKind.Signature (si_type_parameters si).

Definition check_function_instantiation (fi : FunctionInstantiation) : vm () :=
  _ ← check_bounds_impl (View.function_handles view) IndexKind.FunctionHandle (fi_handle fi);
  check_bounds_impl (View.signatures view) IndexKind.Signature (fi_type_parameters fi).

Definition check_field_instantiation (fi : FieldInstantiation) : vm () :=
  _ ← check_bounds_impl_opt (View.field_handles view) IndexKind.FieldHandle (fdi_handle fi);
  check_bounds_impl (View.signatures view) IndexKind.Signature (fdi_type_parameters fi).

Definition check_struct_def (sd : StructDefinition) : vm () :=
  _ ← check_bounds_impl (View.struct_handles view) IndexKind.StructHandle (sd_struct_handle sd);
  match field_information sd with
  | Declared fields =>
    let type_param_count :=
      match View.struct_handles view !! sd_struct_handle sd with Some sh => length (sh_type_parameters sh) | None => 0 end in
    vfor (fun field =>
      _ ← check_bounds_impl (View.identifiers view) IndexKind.Identifier (fd_name field);
      _ ← check_type (fd_signature field);
      check_type_parameter type_param_count (fd_signature field)) fields
  | Native => Ok ()
  end.

(** The context becomes the function, and stays it. *)
Definition check_function_def (p : nat * FunctionDefinition) : vm () :=
  let '(function_def_idx, function_def) := p in
  let context := ModuleFunction (u16 function_def_idx) in
  _ ← check_bounds_impl (View.function_handles view) IndexKind.FunctionHandle (fn_function function_def);
  _ ← vfor (check_bounds_impl_opt (View.struct_defs view) IndexKind.StructDefinition) (fn_acquires_global_resources function_def);
  match fn_code function_def with
  | None => Ok ()
  | Some code_unit =>
    if bool_decide (length (View.function_handles view) <= fn_function function_def) then
      Err (verification_error StatusCode.INDEX_OUT_OF_BOUNDS IndexKind.FunctionDefinition (u16 function_def_idx))
    else
      function_handle ← index (View.function_handles view) (fn_function function_def);
      if bool_decide (length (View.signatures view) <= fh_parameters function_handle) then
        Err (verification_error StatusCode.INDEX_OUT_OF_BOUNDS IndexKind.FunctionDefinition (u16 function_def_idx))
      else
        parameters ← index (View.signatures view) (fh_parameters function_handle);
        check_code context code_unit (fh_type_parameters function_handle) parameters function_def_idx
  end.

(** [table.into_iter().flatten()]. *)
Definition flatten {A} (table : option (list A)) : list A := default [] table.

Definition verify_impl : vm () :=
  _ ← vfor (vfor check_type) (View.signatures view);
  _ ← vfor (fun constant => check_type (const_type constant)) (View.constant_pool view);
  _ ← vfor check_module_handle (View.module_handles view);
  _ ← check_self_module_handle;
  _ ← vfor check_struct_handle (View.struct_handles view);
  _ ← vfor check_function_handle (View.function_handles view);
  _ ← vfor check_field_handle (flatten (View.field_handles view));
  _ ← vfor check_module_handle (flatten (View.friend_decls view));
  _ ← vfor check_struct_instantiation (flatten (View.struct_instantiations view));
  _ ← vfor check_function_instantiation (View.function_instantiations view);
  _ ← vfor check_field_instantiation (flatten (View.field_instantiations view));
  _ ← vfor check_struct_def (flatten (View.struct_defs view));
  vfor check_function_def (imap pair (flatten (View.function_defs view))).
End Checker.

Definition verify_module (module : CompiledModule) : vm () :=
  let view := View.Module_ module in
  match View.module_handles view with
  | [] => Err (verification_error StatusCode.NO_MODULE_HANDLES IndexKind.ModuleHandle 0)
  | _ :: _ => verify_impl view
  end.

Definition verify_script (script : CompiledScript) : vm () :=
  let view := View.Script script in
  _ ← verify_impl view;
  let type_param_count := length (cs_type_parameters script) in
  _ ← check_bounds_impl (View.signatures view) IndexKind.Signature (cs_parameters script);
  _ ← check_signature_parameters view (cs_parameters script) type_param_count;
  parameters ← index (View.signatures view) (cs_parameters script);
  check_code view Script (cs_code script) (cs_type_parameters script) parameters 0.

(** ** What the later passes rely on *)

Section Spec.
Context (view : BinaryIndexedView).

(** Every structure a type names exists and has as many parameters as the type
    gives it arguments. *)
Fixpoint type_bounded (ty : SignatureToken) : Prop :=
  match ty with
  | SignatureToken.Struct idx =>
    exists sh, View.struct_handles view !! idx = Some sh /\ sh_type_parameters sh = []
  | SignatureToken.StructInstantiation idx ts =>
    (exists sh, View.struct_handles view !! idx = Some sh /\ length (sh_type_parameters sh) = length ts) /\
    foldr (fun t acc => type_bounded t /\ acc) True ts
  | SignatureToken.Vector t | SignatureToken.Reference t | SignatureToken.MutableReference t => type_bounded t
  | _ => True
  end.

(** The type parameters of a type are among the first [n]. *)
Fixpoint params_bounded (n : nat) (ty : SignatureToken) : Prop :=
  match ty with
  | SignatureToken.TypeParameter idx => idx < n
  | SignatureToken.StructInstantiation _ ts => foldr (fun t acc => params_bounded n t /\ acc) True ts
  | SignatureToken.Vector t | SignatureToken.Reference t | SignatureToken.MutableReference t => params_bounded n t
  | _ => True
  end.

Definition params_at (idx n : nat) : Prop :=
  forall sig, View.signatures view !! idx = Some sig -> Forall (params_bounded n) sig.

(** An index into a table only modules have. *)
Definition in_table {A} (table : option (list A)) (idx : nat) : Prop :=
  match table with None => True | Some l => idx < length l end.

Definition instr_bounded (type_param_count locals_count code_len : nat) (b : Bytecode) : Prop :=
  match b with
  | Bytecode.LdConst idx => idx < length (View.constant_pool view)
  | Bytecode.MutBorrowField idx | Bytecode.ImmBorrowField idx => in_table (View.field_handles view) idx
  | Bytecode.MutBorrowFieldGeneric idx | Bytecode.ImmBorrowFieldGeneric idx =>
    in_table (View.field_instantiations view) idx /\
    forall fi, View.field_instantiations view ≫= (.!! idx) = Some fi -> params_at (fdi_type_parameters fi) type_param_count
  | Bytecode.Call idx => idx < length (View.function_handles view)
  | Bytecode.CallGeneric idx =>
    idx < length (View.function_instantiations view) /\
    forall fi, View.function_instantiations view !! idx = Some fi -> params_at (fi_type_parameters fi) type_param_count
  | Bytecode.Pack idx | Bytecode.Unpack idx | Bytecode.Exists idx | Bytecode.ImmBorrowGlobal idx
  | Bytecode.MutBorrowGlobal idx | Bytecode.MoveFrom idx | Bytecode.MoveTo idx => in_table (View.struct_defs view) idx
  | Bytecode.PackGeneric idx | Bytecode.UnpackGeneric idx | Bytecode.ExistsGeneric idx
  | Bytecode.ImmBorrowGlobalGeneric idx | Bytecode.MutBorrowGlobalGeneric idx
  | Bytecode.MoveFromGeneric idx | Bytecode.MoveToGeneric idx =>
    in_table (View.struct_instantiations view) idx /\
    forall si, View.struct_instantiations view ≫= (.!! idx) = Some si -> params_at (si_type_parameters si) type_param_count
  | Bytecode.BrTrue offset | Bytecode.BrFalse offset | Bytecode.Branch offset => offset < code_len
  | Bytecode.CopyLoc idx | Bytecode.MoveLoc idx | Bytecode.StLoc idx | Bytecode.MutBorrowLoc idx
  | Bytecode.ImmBorrowLoc idx => idx < locals_count
  | Bytecode.VecPack idx _ | Bytecode.VecLen idx | Bytecode.VecImmBorrow idx | Bytecode.VecMutBorrow idx
  | Bytecode.VecPushBack idx | Bytecode.VecPopBack idx | Bytecode.VecUnpack idx _ | Bytecode.VecSwap idx =>
    idx < length (View.signatures view) /\ params_at idx type_param_count
  | _ => True
  end.

Definition code_bounded (code_unit : CodeUnit) (type_param_count num_parameters : nat) : Prop :=
  exists locals, View.signatures view !! cu_locals code_unit = Some locals /\
    length locals + num_parameters <= 255 /\
    Forall (params_bounded type_param_count) locals /\
    Forall (instr_bounded type_param_count (length locals + num_parameters) (length (cu_code code_unit))) (cu_code code_unit).

Definition module_handle_bounded (mh : ModuleHandle) : Prop :=
  mh_address mh < length (View.address_identifiers view) /\ mh_name mh < length (View.identifiers view).

Definition struct_handle_bounded (sh : StructHandle) : Prop :=
  sh_module sh < length (View.module_handles view) /\ sh_name sh < length (View.identifiers view).

Definition function_handle_bounded (fh : FunctionHandle) : Prop :=
  fh_module fh < length (View.module_handles view) /\ fh_name fh < length (View.identifiers view) /\
  fh_parameters fh < length (View.signatures view) /\ fh_return fh < length (View.signatures view) /\
  params_at (fh_parameters fh) (length (fh_type_parameters fh)) /\ params_at (fh_return fh) (length (fh_type_parameters fh)).

Definition field_handle_bounded (fh : FieldHandle) : Prop :=
  in_table (View.struct_defs view) (fld_owner fh) /\
  forall sd, View.struct_defs view ≫= (.!! fld_owner fh) = Some sd -> fld_field fh < fields_count sd.

Definition struct_def_bounded (sd : StructDefinition) : Prop :=
  exists sh, View.struct_handles view !! sd_struct_handle sd = Some sh /\
  match field_information sd with
  | Native => True
  | Declared fields =>
    Forall (fun f => fd_name f < length (View.identifiers view) /\ type_bounded (fd_signature f) /\
                     params_bounded (length (sh_type_parameters sh)) (fd_signature f)) fields
  end.

Definition function_def_bounded (fd : FunctionDefinition) : Prop :=
  exists fh, View.function_handles view !! fn_function fd = Some fh /\
  Forall (in_table (View.struct_defs view)) (fn_acquires_global_resources fd) /\
  match fn_code fd with
  | None => True
  | Some code_unit =>
    exists parameters, View.signatures view !! fh_parameters fh = Some parameters /\
      code_bounded code_unit (length (fh_type_parameters fh)) (length parameters)
  end.

(** Every index of the tables points inside the table it is for. *)
Record WellBounded : Prop := {
  wb_signatures : Forall (Forall type_bounded) (View.signatures view);
  wb_constants : Forall (fun c => type_bounded (const_type c)) (View.constant_pool view);
  wb_module_handles : Forall module_handle_bounded (View.module_handles view);
  wb_self : from_option (fun idx => idx < length (View.module_handles view)) True (View.self_handle_idx view);
  wb_struct_handles : Forall struct_handle_bounded (View.struct_handles view);
  wb_function_handles : Forall function_handle_bounded (View.function_handles view);
  wb_field_handles : Forall field_handle_bounded (flatten (View.field_handles view));
  wb_friend_decls : Forall module_handle_bounded (flatten (View.friend_decls view));
  wb_struct_instantiations :
    Forall (fun si => in_table (View.struct_defs view) (si_def si) /\ si_type_parameters si < length (View.signatures view))
      (flatten (View.struct_instantiations view));
  wb_function_instantiations :
    Forall (fun fi => fi_handle fi < length (View.function_handles view) /\ fi_type_parameters fi < length (View.signatures view))
      (View.function_instantiations view);
  wb_field_instantiations :
    Forall (fun fi => in_table (View.field_handles view) (fdi_handle fi) /\ fdi_type_parameters fi < length (View.signatures view))
      (flatten (View.field_instantiations view));
  wb_struct_defs : Forall struct_def_bounded (flatten (View.struct_defs view));
  wb_function_defs : Forall function_def_bounded (flatten (View.function_defs view));
}.
End Spec.

(** ** The checks decide it *)

Lemma vseq_Ok (m : vm ()) (k : vm ()) : (_ ← m; k) = Ok () <-> m = Ok () /\ k = Ok ().
Proof. rewrite vm_bind_Ok. split; [intros ([] & ? & ?)|intros [? ?]; exists ()]; done. Qed.

Lemma check_bounds_impl_Ok {T} (pool : list T) kind idx : check_bounds_impl pool kind idx = Ok () <-> idx < length pool.
Proof. unfold check_bounds_impl. case_bool_decide; split; [done|lia|lia|done]. Qed.

Lemma check_bounds_impl_opt_Ok {T} (pool : option (list T)) kind idx :
  check_bounds_impl_opt pool kind idx = Ok () <-> in_table pool idx.
Proof. destruct pool; [apply check_bounds_impl_Ok|done]. Qed.

Lemma check_code_unit_bounds_impl_Ok {T} context (pool : list T) kind idx o :
  check_code_unit_bounds_impl context pool kind idx o = Ok () <-> idx < length pool.
Proof. unfold check_code_unit_bounds_impl. case_bool_decide; split; [done|lia|lia|done]. Qed.

Lemma check_code_unit_bounds_impl_opt_Ok {T} context (pool : option (list T)) kind idx o :
  check_code_unit_bounds_impl_opt context pool kind idx o = Ok () <-> in_table pool idx.
Proof. destruct pool; [apply check_code_unit_bounds_impl_Ok|done]. Qed.

Lemma guard_Ok (b : bool) e : (if b then Err e else Ok ()) = Ok () <-> b = false.
Proof. by destruct b. Qed.

Lemma foldr_and_Forall {A} (P : A -> Prop) (l : list A) : foldr (fun t acc => P t /\ acc) True l <-> Forall P l.
Proof. induction l as [|x r IH]; cbn; [by split|]. by rewrite Forall_cons, IH. Qed.

(** A check of every node of a type. *)
Lemma nodes_Ok (check : SignatureToken -> vm ()) ty :
  vfor check (SignatureToken.preorder_traversal ty) = Ok () <->
  check ty = Ok () /\
  match ty with
  | SignatureToken.Vector t | SignatureToken.Reference t | SignatureToken.MutableReference t =>
    vfor check (SignatureToken.preorder_traversal t) = Ok ()
  | SignatureToken.StructInstantiation _ ts =>
    Forall (fun t => vfor check (SignatureToken.preorder_traversal t) = Ok ()) ts
  | _ => True
  end.
Proof.
  rewrite FormatSafety.preorder_traversal_spec, vfor_Ok.
  destruct ty; cbn [FormatSafety.preorder]; rewrite Forall_cons, ?Forall_nil; try done;
    try (by rewrite FormatSafety.preorder_traversal_spec, vfor_Ok).
  apply and_iff_compat_l. rewrite Forall_concat, Forall_map. apply Forall_proper; [|done].
  intros t. by rewrite FormatSafety.preorder_traversal_spec, vfor_Ok.
Qed.

Lemma Forall_iff_in {A} (P Q : A -> Prop) l : Forall (fun x => P x <-> Q x) l -> Forall P l <-> Forall Q l.
Proof. induction 1 as [|x r Hx _ IH]; [by rewrite !Forall_nil|]. by rewrite !Forall_cons, Hx, IH. Qed.

Lemma check_type_Ok view ty : check_type view ty = Ok () <-> type_bounded view ty.
Proof.
  unfold check_type. induction ty as [| | | | | |t IH|idx|idx ts IH|t IH|t IH|idx| | |] using SignatureToken.token_ind;
    rewrite nodes_Ok; cbn [type_bounded]; try tauto.
  - rewrite vseq_Ok, check_bounds_impl_Ok. destruct (View.struct_handles view !! idx) as [sh|] eqn:Hsh.
    + apply lookup_lt_Some in Hsh as Hlt. destruct (sh_type_parameters sh) eqn:Htp.
      * split; [eauto|done].
      * split; [by intros [[_ ?] _]|]. intros (? & [= <-] & ?). congruence.
    + apply lookup_ge_None in Hsh. split; [lia|by intros (? & ? & ?)].
  - rewrite vseq_Ok, check_bounds_impl_Ok, foldr_and_Forall, (Forall_iff_in _ _ _ IH).
    apply and_iff_compat_r. destruct (View.struct_handles view !! idx) as [sh|] eqn:Hsh.
    + apply lookup_lt_Some in Hsh as Hlt. rewrite guard_Ok, negb_false_iff, bool_decide_eq_true.
      split; [intros [_ ?]; eauto|]. by intros (? & [= <-] & ?).
    + apply lookup_ge_None in Hsh. split; [lia|by intros (? & ? & ?)].
Qed.

Lemma check_type_parameter_Ok n ty : check_type_parameter n ty = Ok () <-> params_bounded n ty.
Proof.
  unfold check_type_parameter. induction ty as [| | | | | |t IH|idx|idx ts IH|t IH|t IH|idx| | |] using SignatureToken.token_ind;
    rewrite nodes_Ok; cbn [params_bounded]; try tauto.
  - rewrite foldr_and_Forall, (Forall_iff_in _ _ _ IH). tauto.
  - rewrite guard_Ok, bool_decide_eq_false. lia.
Qed.

Lemma check_signature_parameters_Ok view idx n : check_signature_parameters view idx n = Ok () <-> params_at view idx n.
Proof.
  unfold check_signature_parameters, params_at. destruct (View.signatures view !! idx) as [sig|]; [|done].
  rewrite vfor_Ok, (Forall_iff _ _ _ (check_type_parameter_Ok n)). naive_solver.
Qed.

(** The check of what an entry of a table points to. *)
Lemma entry_Ok {A} (o : option A) (f : A -> vm ()) : match o with Some a => f a | None => Ok () end = Ok () <-> forall a, o = Some a -> f a = Ok ().
Proof. destruct o; naive_solver. Qed.

Lemma check_bytecode_Ok view context tpc lc len o b :
  check_bytecode view context tpc lc len o b = Ok () <-> instr_bounded view tpc lc len b.
Proof.
  assert (forall (n k : nat) e, (if bool_decide (n <= k) then Err e else Ok ()) = Ok () <-> k < n) as Hlt.
  { intros. rewrite guard_Ok, bool_decide_eq_false. lia. }
  destruct b; cbn [check_bytecode instr_bounded]; try done;
    rewrite ?vseq_Ok, ?entry_Ok, ?check_code_unit_bounds_impl_Ok, ?check_code_unit_bounds_impl_opt_Ok, ?Hlt; try done;
    try (by rewrite check_signature_parameters_Ok);
    apply and_iff_compat_l; apply forall_proper; intros x; by rewrite check_signature_parameters_Ok.
Qed.

Lemma Forall_imap_pair {A} (P : nat -> A -> Prop) (Q : A -> Prop) (l : list A) :
  (forall i x, P i x <-> Q x) -> Forall (fun p => P p.1 p.2) (imap pair l) <-> Forall Q l.
Proof.
  intros HPQ. rewrite !Forall_lookup. setoid_rewrite list_lookup_imap. split.
  - intros H i x Hx. apply (HPQ i), (H i (i, x)). by rewrite Hx.
  - intros H i p (x & Hx & ->)%fmap_Some. cbn. by apply HPQ, (H i).
Qed.

Lemma check_code_Ok view context code_unit type_parameters parameters idx :
  check_code view context code_unit type_parameters parameters idx = Ok () <->
  code_bounded view code_unit (length type_parameters) (length parameters).
Proof.
  unfold check_code, code_bounded, get_locals. rewrite vseq_Ok, check_bounds_impl_Ok.
  destruct (View.signatures view !! cu_locals code_unit) as [locals|] eqn:Hl; vm_cbn; cycle 1.
  { split; [by intros [_ ?]|by intros (? & ? & ?)]. }
  apply lookup_lt_Some in Hl as Hlt. case_bool_decide.
  - split; [by intros [_ ?]|]. intros (? & [= <-] & ? & _). lia.
  - rewrite vseq_Ok, !vfor_Ok, (Forall_iff _ _ _ (check_type_parameter_Ok _)).
    rewrite (Forall_imap_pair _ _ _ (fun i b => check_bytecode_Ok _ _ _ _ _ i b)). split.
    + intros (_ & ? & ?). exists locals. repeat split; [lia|done..].
    + by intros (? & [= <-] & _ & ? & ?).
Qed.

Lemma check_function_handle_Ok view fh : check_function_handle view fh = Ok () <-> function_handle_bounded view fh.
Proof.
  unfold check_function_handle, function_handle_bounded.
  by rewrite !vseq_Ok, !check_bounds_impl_Ok, !check_signature_parameters_Ok.
Qed.

Lemma check_field_handle_Ok view fh : check_field_handle view fh = Ok () <-> field_handle_bounded view fh.
Proof.
  unfold check_field_handle, field_handle_bounded. rewrite vseq_Ok, check_bounds_impl_opt_Ok, entry_Ok.
  apply and_iff_compat_l, forall_proper. intros sd. rewrite guard_Ok, bool_decide_eq_false.
  split; intros H Hsd; specialize (H Hsd); lia.
Qed.

Lemma check_struct_def_Ok view sd : check_struct_def view sd = Ok () <-> struct_def_bounded view sd.
Proof.
  unfold check_struct_def, struct_def_bounded. rewrite vseq_Ok, check_bounds_impl_Ok.
  destruct (View.struct_handles view !! sd_struct_handle sd) as [sh|] eqn:Hsh; cycle 1.
  { apply lookup_ge_None in Hsh. split; [lia|by intros (? & ? & _)]. }
  apply lookup_lt_Some in Hsh as Hlt. destruct (field_information sd) as [|fields]; [split; [eauto|done]|].
  rewrite vfor_Ok. setoid_rewrite vseq_Ok. setoid_rewrite vseq_Ok.
  setoid_rewrite check_bounds_impl_Ok. setoid_rewrite check_type_Ok. setoid_rewrite check_type_parameter_Ok.
  split; [intros [_ ?]; eauto|]. by intros (? & [= <-] & ?).
Qed.

Lemma check_function_def_Ok view i fd : check_function_def view (i, fd) = Ok () <-> function_def_bounded view fd.
Proof.
  unfold check_function_def, function_def_bounded. rewrite !vseq_Ok, check_bounds_impl_Ok, vfor_Ok.
  rewrite (Forall_iff _ _ _ (check_bounds_impl_opt_Ok _ _)).
  destruct (View.function_handles view !! fn_function fd) as [fh|] eqn:Hfh; cycle 1.
  { apply lookup_ge_None in Hfh. split; [lia|by intros (? & ? & _)]. }
  apply lookup_lt_Some in Hfh as Hlt. destruct (fn_code fd) as [cu|]; [|naive_solver].
  rewrite bool_decide_eq_false_2 by lia. unfold index. rewrite Hfh. vm_cbn.
  destruct (View.signatures view !! fh_parameters fh) as [ps|] eqn:Hps.
  - apply lookup_lt_Some in Hps as Hlt'. rewrite bool_decide_eq_false_2 by lia. vm_cbn.
    rewrite check_code_Ok. split.
    + intros (_ & ? & ?). exists fh. split; [done|]. split; [done|]. by exists ps.
    + intros (fh' & [= <-] & ? & ps' & Hps' & ?). assert (Some ps = Some ps') as [= <-] by by rewrite <- Hps, <- Hps'. done.
  - apply lookup_ge_None in Hps. rewrite bool_decide_eq_true_2 by lia.
    split; [by intros (_ & _ & ?)|]. intros (fh' & [= <-] & ? & ps' & Hps' & ?).
    apply lookup_lt_Some in Hps'. lia.
Qed.

Lemma verify_impl_Ok view : verify_impl view = Ok () <-> WellBounded view.
Proof.
  unfold verify_impl. rewrite !vseq_Ok, !vfor_Ok.
  assert (check_self_module_handle view = Ok () <-> from_option (fun idx => idx < length (View.module_handles view)) True (View.self_handle_idx view)) as Hself.
  { unfold check_self_module_handle. destruct (View.self_handle_idx view); [apply check_bounds_impl_Ok|done]. }
  assert (forall sig, vfor (check_type view) sig = Ok () <-> Forall (type_bounded view) sig) as Hsig.
  { intros sig. by rewrite vfor_Ok, (Forall_iff _ _ _ (check_type_Ok view)). }
  assert (forall mh, check_module_handle view mh = Ok () <-> module_handle_bounded view mh) as Hmh.
  { intros mh. unfold check_module_handle. by rewrite vseq_Ok, !check_bounds_impl_Ok. }
  assert (forall sh, check_struct_handle view sh = Ok () <-> struct_handle_bounded view sh) as Hsh.
  { intros sh. unfold check_struct_handle. by rewrite vseq_Ok, !check_bounds_impl_Ok. }
  rewrite Hself, (Forall_iff _ _ _ Hsig), (Forall_iff _ _ _ (fun c => check_type_Ok view (const_type c))), !(Forall_iff _ _ _ Hmh),
    (Forall_iff _ _ _ Hsh), (Forall_iff _ _ _ (check_function_handle_Ok view)), (Forall_iff _ _ _ (check_field_handle_Ok view)),
    (Forall_iff _ _ _ (check_struct_def_Ok view)).
  unfold check_struct_instantiation, check_function_instantiation, check_field_instantiation.
  setoid_rewrite vseq_Ok. setoid_rewrite check_bounds_impl_Ok. setoid_rewrite check_bounds_impl_opt_Ok.
  assert (Forall (fun p => check_function_def view p = Ok ()) (imap pair (flatten (View.function_defs view))) <->
          Forall (function_def_bounded view) (flatten (View.function_defs view))) as Hfd.
  { rewrite <- (Forall_imap_pair _ _ _ (check_function_def_Ok view)). apply Forall_iff. by intros []. }
  rewrite Hfd. split.
  - intros (?&?&?&?&?&?&?&?&?&?&?&?&?). by constructor.
  - intros []. by repeat split.
Qed.

Lemma settles_check_bounds_impl {T} (pool : list T) kind idx : settles (check_bounds_impl pool kind idx).
Proof. unfold check_bounds_impl. settle. Qed.

Lemma settles_check_bounds_impl_opt {T} (pool : option (list T)) kind idx : settles (check_bounds_impl_opt pool kind idx).
Proof. destruct pool; [apply settles_check_bounds_impl|apply settles_Ok]. Qed.

#[local] Hint Resolve settles_check_bounds_impl settles_check_bounds_impl_opt : settle.

Lemma settles_check_type view ty : settles (check_type view ty).
Proof. unfold check_type. settle. Qed.

Lemma settles_check_type_parameter n ty : settles (check_type_parameter n ty).
Proof. unfold check_type_parameter. settle. Qed.

#[local] Hint Resolve settles_check_type settles_check_type_parameter : settle.

Lemma settles_check_bytecode view context tpc lc len o b : settles (check_bytecode view context tpc lc len o b).
Proof.
  destruct b; cbn [check_bytecode];
    unfold check_code_unit_bounds_impl_opt, check_code_unit_bounds_impl, check_signature_parameters; settle.
Qed.

#[local] Hint Resolve settles_check_bytecode : settle.

Lemma settles_check_code view context cu tps ps i : settles (check_code view context cu tps ps i).
Proof. unfold check_code, get_locals. settle. Qed.

Lemma settles_check_function_def view p : settles (check_function_def view p).
Proof.
  destruct p as [i fd]. unfold check_function_def. settle; [apply settles_index; lia..|apply settles_check_code].
Qed.

#[local] Hint Resolve settles_check_function_def : settle.

Lemma settles_verify_impl view : settles (verify_impl view).
Proof.
  unfold verify_impl, check_self_module_handle, check_function_handle, check_struct_def, check_module_handle, check_struct_handle,
    check_field_handle, check_struct_instantiation, check_function_instantiation, check_field_instantiation,
    check_signature_parameters.
  settle.
Qed.

Lemma verify_module_Ok module :
  verify_module module = Ok () <-> cm_module_handles module <> [] /\ WellBounded (View.Module_ module).
Proof.
  unfold verify_module. cbn [View.module_handles]. destruct (cm_module_handles module); [naive_solver|].
  rewrite verify_impl_Ok. naive_solver.
Qed.


(** A script that passed: its tables and its body. *)
Lemma verify_script_Ok script :
  verify_script script = Ok () <->
  WellBounded (View.Script script) /\
  exists parameters, cs_signatures script !! cs_parameters script = Some parameters /\
    Forall (params_bounded (length (cs_type_parameters script))) parameters /\
    code_bounded (View.Script script) (cs_code script) (length (cs_type_parameters script)) (length parameters).
Proof.
  unfold verify_script. rewrite !vseq_Ok, verify_impl_Ok, check_bounds_impl_Ok, check_signature_parameters_Ok.
  apply and_iff_compat_l. unfold index, params_at. cbn [View.signatures].
  destruct (cs_signatures script !! cs_parameters script) as [ps|] eqn:Hps; vm_cbn.
  - rewrite check_code_Ok. apply lookup_lt_Some in Hps as Hlt. split.
    + intros (_ & Hp & ?). exists ps. auto.
    + intros (ps' & [= <-] & ? & ?). split; [done|]. split; [by intros ? [= <-]|done].
  - apply lookup_ge_None in Hps. split; [lia|]. by intros (? & ? & _).
Qed.
End Bounds.
