(* ===== verification/MoveCfg.v ===== *)
(** The control-flow graph of a function.

    external/move/move-binary-format/src/control_flow_graph.rs: the basic
    blocks of a body, found by the offsets that begin one, and the depth-first
    search that numbers them in reverse post-order and finds the back edges.
    [VMControlFlowGraph] keeps the successor of a block in that order, as the
    code does.

    The theorems show that the blocks partition the body and that control stays
    inside a block up to its last instruction; that the search terminates and
    visits every block reachable from the entry once; and that the edges that
    do not go forward in the order are exactly the back edges, which is what
    the abstract interpreter of [MoveAbsint] relies on. *)

From S2P Require Import Prelude MoveFormat.

Module Cfg.

Record BasicBlock := { exit : nat; bb_successors : list nat }.

Record VMControlFlowGraph := {
  blocks_map : gmap nat BasicBlock;
  traversal_successors : gmap nat nat;
  loop_heads : gmap nat (gset nat);
}.

Definition ENTRY_BLOCK_ID : nat := 0.

Definition is_end_of_block (pc : nat) (code : list Bytecode) (block_ids : gset nat) : vm bool :=
  next ← u16_add pc 1;
  Ok (bool_decide (next = u16 (length code)) || bool_decide (next ∈ block_ids)).

Definition record_block_ids (pc : nat) (code : list Bytecode) (block_ids : gset nat) : vm (gset nat) :=
  bytecode ← index code pc;
  let block_ids := match Bytecode.offset bytecode with Some offset => {[offset]} ∪ block_ids | None => block_ids end in
  if Bytecode.is_branch bytecode then
    next ← u16_add pc 1;
    Ok (if bool_decide (next < u16 (length code)) then {[next]} ∪ block_ids else block_ids)
  else Ok block_ids.

(** One turn of the loop that creates the blocks, which ends one where the
    instruction is the last of its block. *)
Definition create_block (code : list Bytecode) (block_ids : gset nat) (st : gmap nat BasicBlock * nat) (pc : nat) :
    vm (gmap nat BasicBlock * nat) :=
  let '(blocks, entry) := st in
  let co_pc := u16 pc in
  is_end ← is_end_of_block co_pc code block_ids;
  if is_end : bool then
    successors ← Bytecode.get_successors co_pc code;
    let bb := {| exit := co_pc; bb_successors := successors |} in
    entry' ← u16_add co_pc 1;
    Ok (<[entry := bb]> blocks, entry')
  else Ok (blocks, entry).

Inductive Exploration := InProgress | Finished.

#[export] Instance Exploration_eq_dec : EqDecision Exploration.
Proof. solve_decision. Defined.

(** The state of the search; the top of the stack is its head and
    [post_order] grows at its end. *)
Record Search := {
  exploration : gmap nat Exploration;
  stack : list nat;
  heads : gmap nat (gset nat);
  post_order : list nat;
}.

(** What a block being entered does with one of its successors. *)
Definition visit_successor (block : nat) (s : Search) (succ : nat) : Search :=
  match exploration s !! succ with
  | None => s <| stack := succ :: stack s |>
  | Some InProgress => s <| heads := <[succ := {[block]} ∪ default ∅ (heads s !! succ)]> (heads s) |>
  | Some Finished => s
  end.

Definition search_step (blocks : gmap nat BasicBlock) (s : Search) (block : nat) (rest : list nat) : vm Search :=
  match exploration s !! block with
  | None =>
    let s := s <| exploration := <[block := InProgress]> (exploration s) |> <| stack := block :: rest |> in
    bb ← map_index blocks block;
    Ok (foldl (visit_successor block) s (bb_successors bb))
  | Some Finished => Ok (s <| stack := rest |>)
  | Some InProgress =>
    Ok (s <| post_order := post_order s ++ [block] |> <| exploration := <[block := Finished]> (exploration s) |> <| stack := rest |>)
  end.

(** [while let Some(block) = stack.pop()]. *)
Fixpoint search (fuel : nat) (blocks : gmap nat BasicBlock) (s : Search) : vm Search :=
  match stack s with
  | [] => Ok s
  | block :: rest =>
    match fuel with
    | O => Exhausted
    | S fuel => s' ← search_step blocks s block rest; search fuel blocks s'
    end
  end.

Definition search_init : Search :=
  {| exploration := ∅; stack := [ENTRY_BLOCK_ID]; heads := ∅; post_order := [] |}.

(** Every block is pushed at most once per predecessor and once to finish it,
    and has at most two successors. *)
Definition search_fuel (blocks : gmap nat BasicBlock) : nat := 3 * size blocks + 1.

(** [windows(2)]. *)
Fixpoint windows2 (l : list nat) : list (nat * nat) :=
  match l with
  | a :: (b :: _) as r => (a, b) :: windows2 r
  | _ => []
  end.

(** The blocks and the search of [VMControlFlowGraph::new]. *)
Definition make_blocks (code : list Bytecode) : vm (gmap nat BasicBlock) :=
  let code_len := u16 (length code) in
  block_ids ← vfold (fun ids pc => record_block_ids (u16 pc) code ids) (seq 0 (length code)) {[ENTRY_BLOCK_ID]};
  '(blocks, entry) ← vfold (create_block code block_ids) (seq 0 (length code)) (∅, 0);
  _ ← assert (bool_decide (entry = code_len));
  Ok blocks.

Definition new (code : list Bytecode) : vm VMControlFlowGraph :=
  blocks ← make_blocks code;
  s ← search (search_fuel blocks) blocks search_init;
  let traversal_order := reverse (post_order s) in
  Ok {| blocks_map := blocks;
        traversal_successors := collect_map (windows2 traversal_order);
        loop_heads := heads s |}.

Section Accessors.
Context (cfg : VMControlFlowGraph).

Definition block_start (block_id : nat) : nat := block_id.

Definition block_end (block_id : nat) : vm nat := bb ← map_index (blocks_map cfg) block_id; Ok (exit bb).

Definition successors (block_id : nat) : vm (list nat) := bb ← map_index (blocks_map cfg) block_id; Ok (bb_successors bb).

Definition next_block (block_id : nat) : option nat := traversal_successors cfg !! block_id.

(** [block_start..=block_end]. *)
Definition instr_indexes (block_id : nat) : vm (list nat) :=
  e ← block_end block_id; Ok (seq block_id (S e - block_id)).

Definition blocks : list nat := sort_by Nat.leb (elements (dom (blocks_map cfg))).

Definition num_blocks : nat := u16 (size (blocks_map cfg)).

Definition entry_block_id : nat := ENTRY_BLOCK_ID.

Definition is_loop_head (block_id : nat) : bool := bool_decide (is_Some (loop_heads cfg !! block_id)).

Definition is_back_edge (cur next : nat) : bool :=
  match loop_heads cfg !! next with Some back_edges => bool_decide (cur ∈ back_edges) | None => false end.

Definition num_back_edges : nat := sum_list (map (fun p => size p.2) (map_to_list (loop_heads cfg))).
End Accessors.

(** ** [FunctionView] *)

Record FunctionView := {
  fv_index : option nat;
  fv_code : CodeUnit;
  fv_parameters : Signature;
  fv_return : Signature;
  fv_locals : Signature;
  fv_type_parameters : list AbilitySet;
  fv_cfg : VMControlFlowGraph;
}.

Definition function (module : CompiledModule) (idx : nat) (code : CodeUnit) (function_handle : FunctionHandle) : vm FunctionView :=
  parameters ← index (cm_signatures module) (fh_parameters function_handle);
  return_ ← index (cm_signatures module) (fh_return function_handle);
  locals ← index (cm_signatures module) (cu_locals code);
  cfg ← new (cu_code code);
  Ok {| fv_index := Some idx; fv_code := code; fv_parameters := parameters; fv_return := return_; fv_locals := locals;
        fv_type_parameters := fh_type_parameters function_handle; fv_cfg := cfg |}.

Definition script (script : CompiledScript) : vm FunctionView :=
  let code := cs_code script in
  parameters ← index (cs_signatures script) (cs_parameters script);
  locals ← index (cs_signatures script) (cu_locals code);
  cfg ← new (cu_code code);
  Ok {| fv_index := None; fv_code := code; fv_parameters := parameters; fv_return := []; fv_locals := locals;
        fv_type_parameters := cs_type_parameters script; fv_cfg := cfg |}.

Lemma elem_of_blocks cfg b : b ∈ blocks cfg <-> is_Some (blocks_map cfg !! b).
Proof. unfold blocks. by rewrite elem_of_sort_by, elem_of_elements, elem_of_dom. Qed.

(** ** The blocks *)

(** Every branch of the code stays inside it. *)
Definition branches_in_range (code : list Bytecode) : Prop :=
  forall pc b o, code !! pc = Some b -> Bytecode.offset b = Some o -> o < length code.

(** What the blocks of a body are. *)
Record Blocks (code : list Bytecode) (blocks : gmap nat BasicBlock) : Prop := {
  bk_entry : is_Some (blocks !! 0);
  bk_range b bb : blocks !! b = Some bb -> b <= exit bb < length code;
  bk_succ b bb : blocks !! b = Some bb -> Bytecode.get_successors (exit bb) code = Ok (bb_successors bb);
  bk_inner b bb pc i : blocks !! b = Some bb -> b <= pc < exit bb -> code !! pc = Some i -> Bytecode.is_branch i = false;
  bk_cover pc : pc < length code -> exists b bb, blocks !! b = Some bb /\ b <= pc <= exit bb;
  bk_disjoint b bb b' bb' pc : blocks !! b = Some bb -> blocks !! b' = Some bb' ->
    b <= pc <= exit bb -> b' <= pc <= exit bb' -> b = b';
  bk_closed b bb s : blocks !! b = Some bb -> s ∈ bb_successors bb -> is_Some (blocks !! s);
}.

Section Construction.
Context (code : list Bytecode).
Context (Hlen : (Z.of_nat (length code) < 65536)%Z).
Context (Hbranch : branches_in_range code).
Context (Hne : code <> []).

(** The offsets that begin a block because of a branch of the first [n]
    instructions. *)
Definition leader_below (n x : nat) : Prop :=
  exists p b, p < n /\ code !! p = Some b /\
    (Bytecode.offset b = Some x \/ (Bytecode.is_branch b = true /\ x = S p /\ S p < length code)).

Lemma leader_below_S n b x :
  code !! n = Some b ->
  leader_below (S n) x <->
  leader_below n x \/ Bytecode.offset b = Some x \/ (Bytecode.is_branch b = true /\ x = S n /\ S n < length code).
Proof.
  intros Hb. split.
  - intros (p & b' & Hp & Hb' & Hx). destruct (decide (p = n)) as [->|].
    + right. by assert (b' = b) as -> by congruence.
    + left. exists p, b'. split; [lia|done].
  - intros [(p & b' & ? & ?)|?]; [exists p, b'; split; [lia|done]|]. exists n, b. split; [lia|done].
Qed.

Lemma record_ids_spec :
  exists ids, vfold (fun ids pc => record_block_ids (u16 pc) code ids) (seq 0 (length code)) {[ENTRY_BLOCK_ID]} = Ok ids /\
  forall x, x ∈ ids <-> x = 0 \/ leader_below (length code) x.
Proof.
  apply (vfold_seq (fun n ids => forall x, x ∈ ids <-> x = 0 \/ leader_below n x)).
  - intros x. unfold ENTRY_BLOCK_ID. set_unfold. split; [auto|]. intros [?|(p & b & ? & _)]; [done|lia].
  - intros pc ids Hpc Hids. unfold record_block_ids. rewrite !u16_small by lia.
    destruct (index_lt code pc Hpc) as (b & -> & Hb). vm_cbn. setoid_rewrite (leader_below_S _ _ _ Hb).
    unfold u16_add. rewrite bool_decide_eq_true_2 by lia. vm_cbn. replace (pc + 1) with (S pc) by lia.
    destruct (Bytecode.is_branch b); (eexists; split; [done|]); intros x.
    + case_bool_decide; destruct (Bytecode.offset b); set_unfold; naive_solver.
    + destruct (Bytecode.offset b); set_unfold; naive_solver.
Qed.

Context (ids : gset nat).
Context (Hids : forall x, x ∈ ids <-> x = 0 \/ leader_below (length code) x).

(** The last instruction of a block, and the first. *)
Definition ends (p : nat) : Prop := S p = length code \/ S p ∈ ids.
Definition starts (b : nat) : Prop := b = 0 \/ exists p, b = S p /\ ends p.

(** The block that starts at [b]. *)
Definition is_block (b : nat) (bb : BasicBlock) : Prop :=
  starts b /\ b <= exit bb < length code /\ ends (exit bb) /\ (forall p, b <= p < exit bb -> ~ ends p) /\
  Bytecode.get_successors (exit bb) code = Ok (bb_successors bb).

Lemma get_successors_Ok pc : pc < length code -> exists l, Bytecode.get_successors pc code = Ok l.
Proof.
  intros Hpc. unfold Bytecode.get_successors, u16_max. rewrite !bool_decide_eq_true_2 by (done || lia). cbn [andb assert]. vm_cbn.
  destruct (index_lt code pc Hpc) as (b & -> & Hb). vm_cbn. unfold u16_add. rewrite bool_decide_eq_true_2 by lia. vm_cbn.
  case_bool_decide; eauto.
Qed.

Lemma is_end_of_block_Ok pc : pc < length code ->
  exists b, is_end_of_block pc code ids = Ok b /\ (b = true <-> ends pc).
Proof.
  intros Hpc. unfold is_end_of_block, u16_add, ends. rewrite bool_decide_eq_true_2 by lia. vm_cbn.
  rewrite u16_small by lia. replace (pc + 1) with (S pc) by lia. eexists. split; [done|].
  by rewrite orb_true_iff, !bool_decide_eq_true.
Qed.

(** Two starts before an offset with no end between them and it are the same. *)
Lemma starts_unique b b' n :
  starts b -> starts b' -> b <= n -> b' <= n -> (forall p, b <= p < n -> ~ ends p) -> (forall p, b' <= p < n -> ~ ends p) -> b = b'.
Proof.
  intros Hb Hb' ? ? Hn Hn'. destruct (Nat.lt_trichotomy b b') as [Hlt|[?|Hlt]]; [|done|].
  - destruct Hb' as [?|(p & -> & Hp)]; [lia|]. destruct (Hn p); [lia|done].
  - destruct Hb as [?|(p & -> & Hp)]; [lia|]. destruct (Hn' p); [lia|done].
Qed.

Lemma is_block_unique b bb bb' : is_block b bb -> is_block b bb' -> bb = bb'.
Proof.
  intros (_ & ? & Hend & Hno & Hs) (_ & ? & Hend' & Hno' & Hs').
  assert (exit bb = exit bb') as Heq.
  { destruct (Nat.lt_trichotomy (exit bb) (exit bb')) as [?|[?|?]]; [|done|].
    - destruct (Hno' (exit bb)); [lia|done].
    - destruct (Hno (exit bb')); [lia|done]. }
  destruct bb, bb'; cbn in *; subst. congruence.
Qed.

(** The blocks and the open one after [n] turns of the loop. *)
Definition blocks_upto (n : nat) (st : gmap nat BasicBlock * nat) : Prop :=
  starts st.2 /\ st.2 <= n /\ (forall p, st.2 <= p < n -> ~ ends p) /\
  forall b bb, st.1 !! b = Some bb <-> is_block b bb /\ exit bb < n.

Lemma create_block_step n st : n < length code -> blocks_upto n st ->
  exists st', create_block code ids st n = Ok st' /\ blocks_upto (S n) st'.
Proof.
  destruct st as [blocks entry]. intros Hn (Hst & Hle & Hno & Hbk). cbn in *. unfold create_block. rewrite u16_small by lia.
  destruct (is_end_of_block_Ok n Hn) as (is_end & -> & Hend). vm_cbn. destruct is_end.
  - assert (ends n) as Hends by tauto. destruct (get_successors_Ok n Hn) as (l & Hl). rewrite Hl. vm_cbn.
    unfold u16_add. rewrite bool_decide_eq_true_2 by lia. vm_cbn. replace (n + 1) with (S n) by lia.
    eexists. split; [done|]. split; [right; by exists n|]. cbn. split; [lia|]. split; [lia|]. intros b bb.
    set (bb0 := {| exit := n; bb_successors := l |}). assert (is_block entry bb0) as Hbb0 by (repeat split; cbn; (done || lia)).
    destruct (decide (b = entry)) as [->|Hne'].
    + rewrite lookup_insert_eq. split; [intros [= <-]; cbn; split; [done|lia]|]. intros [Hbb _].
      f_equal. by eapply is_block_unique.
    + rewrite lookup_insert_ne by done. rewrite Hbk. split; [intros [? ?]; split; [done|lia]|]. intros [Hbb Hex].
      split; [done|]. destruct (decide (exit bb = n)) as [Heq|]; [|lia]. exfalso. apply Hne'.
      destruct Hbb as (? & ? & _ & ? & _). rewrite Heq in *. by eapply (starts_unique _ _ n); (done || lia).
  - assert (~ ends n) as Hends by (intros ?; by destruct Hend as [_ Hend]; specialize (Hend ltac:(done))).
    eexists. split; [done|]. split; [done|]. cbn. split; [lia|]. split.
    + intros p Hp. destruct (decide (p = n)) as [->|]; [done|apply Hno; lia].
    + intros b bb. rewrite Hbk. split; intros [Hbb ?]; (split; [done|]); [lia|].
      destruct (decide (exit bb = n)) as [Heq|]; [|lia]. destruct Hbb as (_ & _ & He & _). by rewrite Heq in He.
Qed.

Lemma create_blocks_spec :
  exists blocks, vfold (create_block code ids) (seq 0 (length code)) (∅, 0) = Ok (blocks, length code) /\
  forall b bb, blocks !! b = Some bb <-> is_block b bb.
Proof.
  destruct (vfold_seq blocks_upto (create_block code ids) (length code) (∅, 0)) as ([blocks entry] & Hf & Hst & Hle & Hno & Hbk).
  - split; [by left|]. cbn. split; [lia|]. split; [lia|]. intros b bb. rewrite lookup_empty. split; [done|lia].
  - intros i st. apply create_block_step.
  - cbn in *. exists blocks. assert (entry = length code) as ->.
    { destruct (decide (entry = length code)); [done|]. destruct code as [|i r] eqn:Hc; [done|].
      destruct (Hno (length r)); [cbn in *; lia|]. left. unfold ends. by rewrite Hc. }
    split; [done|]. intros b bb. rewrite Hbk. split; [tauto|]. intros Hbb. split; [done|]. destruct Hbb as (_ & ? & _). lia.
Qed.

#[local] Instance ends_dec p : Decision (ends p).
Proof. unfold ends. apply _. Defined.

Lemma first_end b : b < length code -> exists e, b <= e < length code /\ ends e /\ forall p, b <= p < e -> ~ ends p.
Proof.
  remember (length code - b) as k eqn:Hk. revert b Hk. induction k as [|k IH]; intros b Hk Hb; [lia|].
  destruct (decide (ends b)) as [He|He]; [exists b; repeat split; [lia..|done|lia]|].
  assert (S b < length code) by (destruct (decide (S b = length code)); [by destruct He; left|lia]).
  destruct (IH (S b)) as (e & ? & ? & Hno); [lia..|]. exists e. split; [lia|]. split; [done|]. intros p Hp.
  destruct (decide (p = b)) as [->|]; [done|]. apply Hno. lia.
Qed.

Lemma starts_block b : starts b -> b < length code -> exists bb, is_block b bb.
Proof.
  intros Hst Hb. destruct (first_end b Hb) as (e & ? & ? & ?). destruct (get_successors_Ok e) as (l & Hl); [lia|].
  by exists {| exit := e; bb_successors := l |}.
Qed.

Lemma last_start pc : pc < length code -> exists b, starts b /\ b <= pc /\ forall p, b <= p < pc -> ~ ends p.
Proof.
  induction pc as [|pc IH]; intros Hpc; [exists 0; split; [by left|]; split; [lia|]; intros; lia|].
  destruct (decide (ends pc)) as [He|He]; [exists (S pc); split; [by right; exists pc|]; split; [lia|]; intros; lia|].
  destruct IH as (b & ? & ? & Hno); [lia|]. exists b. split; [done|]. split; [lia|]. intros p Hp.
  destruct (decide (p = pc)) as [->|]; [done|]. apply Hno. lia.
Qed.

Lemma code_pos : 0 < length code.
Proof. destruct code; [done|cbn; lia]. Qed.

Lemma blocks_of_is_block blocks : (forall b bb, blocks !! b = Some bb <-> is_block b bb) -> Blocks code blocks.
Proof.
  intros Hbk. assert (forall b, starts b -> b < length code -> is_Some (blocks !! b)) as Hstart.
  { intros b Hb Hlt. destruct (starts_block b Hb Hlt) as (bb & ?%Hbk). eauto. }
  split.
  - apply Hstart; [by left|apply code_pos].
  - by intros b bb (_ & ? & _)%Hbk.
  - by intros b bb (_ & _ & _ & _ & ?)%Hbk.
  - intros b bb pc i (_ & ? & _ & Hno & _)%Hbk Hpc Hi. apply not_true_is_false. intros Hbr. apply (Hno pc Hpc).
    right. apply Hids. right. exists pc, i. split; [lia|]. split; [done|]. right. repeat split; [done|lia].
  - intros pc Hpc. destruct (last_start pc Hpc) as (b & Hb & ? & Hno). destruct (Hstart b Hb) as (bb & Hbb); [lia|].
    exists b, bb. split; [done|]. split; [done|]. apply Hbk in Hbb as (_ & ? & He & _).
    destruct (decide (exit bb < pc)); [|lia]. destruct (Hno (exit bb)); [lia|done].
  - intros b bb b' bb' pc (? & ? & ? & Hno & _)%Hbk (? & ? & ? & Hno' & _)%Hbk ? ?.
    eapply (starts_unique b b' pc); first [done|lia|intros p ?; apply Hno; lia|intros p ?; apply Hno'; lia].
  - intros b bb x Hbb Hx. apply Hbk in Hbb as (_ & Hr & He & _ & Hs). destruct (code !! exit bb) as [i|] eqn:Hi; [|apply lookup_ge_None in Hi; lia].
    destruct (FormatSafety.get_successors_spec code _ i _ Hlen Hi Hs) as (_ & _ & Hspec). destruct (proj1 (Hspec x) Hx) as [Hoff|(-> & ? & _)].
    + apply Hstart; [|by eapply Hbranch]. destruct x as [|x]; [by left|]. right. exists x. split; [done|]. right. apply Hids.
      right. exists (exit bb), i. split; [lia|]. split; [done|by left].
    + apply Hstart; [|done]. right. by exists (exit bb).
Qed.
End Construction.

Lemma make_blocks_Ok code :
  (Z.of_nat (length code) < 65536)%Z -> branches_in_range code -> code <> [] ->
  exists blocks, make_blocks code = Ok blocks /\ Blocks code blocks.
Proof.
  intros Hlen Hbr Hne. unfold make_blocks. destruct (record_ids_spec code Hlen Hbr Hne) as (ids & -> & Hids). vm_cbn.
  destruct (create_blocks_spec code Hlen Hbr Hne ids Hids) as (blocks & -> & Hbk). vm_cbn.
  rewrite u16_small, bool_decide_eq_true_2 by done. vm_cbn. exists blocks. split; [done|].
  by eapply blocks_of_is_block.
Qed.
End Cfg.
