(* ===== verification/MoveSearch.v ===== *)
(** The depth-first search of the control-flow graph.

    What the search of [MoveCfg] computes: it terminates within its fuel and
    visits every block reachable from the entry once; the reverse of its
    post-order starts at the entry; and an edge between reachable blocks is
    recorded as a back edge exactly when it does not go forward in that order.

    The stack holds the blocks still to look at and, for every block being
    explored, one entry that finishes it.  [layout] splits the stack at those
    entries: what lies above the one of a block are the successors that keep it
    open. *)

From S2P Require Import Prelude MoveFormat MoveCfg.

Module CfgSearch.
Import Cfg.

(** [cur] is recorded as a back edge into [next]. *)
Definition in_heads (h : gmap nat (gset nat)) (cur next : nat) : Prop :=
  exists edges, h !! next = Some edges /\ cur ∈ edges.

(** [a] occurs before [b] in a list. *)
Definition precedes (l : list nat) (a b : nat) : Prop :=
  exists i j, l !! i = Some a /\ l !! j = Some b /\ i < j.

Lemma precedes_app l l' a b : precedes l a b -> precedes (l ++ l') a b.
Proof. intros (i & j & Hi & Hj & ?). exists i, j. by rewrite !lookup_app_l by (by eapply lookup_lt_Some). Qed.

Lemma precedes_snoc l a b : a ∈ l -> precedes (l ++ [b]) a b.
Proof.
  intros [i Hi]%list_elem_of_lookup. exists i, (length l). apply lookup_lt_Some in Hi as ?.
  rewrite lookup_app_l, lookup_app_r, Nat.sub_diag by lia. done.
Qed.

Lemma precedes_asym l a b : NoDup l -> precedes l a b -> ~ precedes l b a.
Proof.
  intros Hnd (i & j & Hi & Hj & ?) (i' & j' & Hi' & Hj' & ?).
  assert (i = j') by by eapply NoDup_lookup. assert (j = i') by by eapply NoDup_lookup. lia.
Qed.

Lemma precedes_irrefl l a : NoDup l -> ~ precedes l a a.
Proof. intros Hnd (i & j & Hi & Hj & ?). assert (i = j) by by eapply NoDup_lookup. lia. Qed.

Section Graph.
Context (blocks : gmap nat BasicBlock).

Definition succs (b : nat) : list nat :=
  match blocks !! b with Some bb => bb_successors bb | None => [] end.

Definition edge (a b : nat) : Prop := b ∈ succs a.

(** ** Entering a block *)

Lemma visit_successors_spec block s l :
  let s' := foldl (visit_successor block) s l in
  exploration s' = exploration s /\ post_order s' = post_order s /\
  (exists seg, stack s' = seg ++ stack s /\ length seg <= length l /\
     forall x, x ∈ seg <-> x ∈ l /\ exploration s !! x = None) /\
  forall x t, in_heads (heads s') x t <-> in_heads (heads s) x t \/ (x = block /\ t ∈ l /\ exploration s !! t = Some InProgress).
Proof.
  revert s. induction l as [|y r IH]; intros s; cbn.
  { split; [done|]. split; [done|]. split; [exists []; set_solver|]. set_solver. }
  destruct (IH (visit_successor block s y)) as (HE & HP & (seg & Hst & Hlen & Hseg) & HH). clear IH.
  unfold visit_successor in *. destruct (exploration s !! y) as [[]|] eqn:Hy; cbn in *; unfold const in *.
  - split; [done|]. split; [done|]. split; [|intros x t; split].
    + exists seg. split; [done|]. split; [lia|]. intros x. rewrite Hseg. set_unfold. naive_solver.
    + intros H. apply HH in H as [(edges & He & Hin)|?]; [|set_solver]. cbn in He.
      destruct (decide (t = y)) as [->|]; [|rewrite lookup_insert_ne in He by done; left; by exists edges].
      rewrite lookup_insert_eq in He. injection He as <-. apply elem_of_union in Hin as [->%elem_of_singleton|Hin]; [set_solver|].
      left. destruct (heads s !! y) as [e|] eqn:Hh; [by exists e|set_solver].
    + intros H. apply HH. cbn. destruct H as [(edges & He & Hin)|(-> & [->|Ht]%elem_of_cons & HI)].
      * left. destruct (decide (t = y)) as [->|]; [|exists edges; by rewrite lookup_insert_ne].
        eexists. rewrite lookup_insert_eq, He. split; [done|]. cbn. set_solver.
      * left. eexists. rewrite lookup_insert_eq. split; [done|]. set_solver.
      * by right.
  - split; [done|]. split; [done|]. split; [|intros x t; split].
    + exists seg. split; [done|]. split; [lia|]. intros x. rewrite Hseg. set_unfold. naive_solver.
    + intros H. apply HH in H. set_solver.
    + intros H. apply HH. set_unfold. naive_solver.
  - split; [done|]. split; [done|]. split; [|intros x t; split].
    + exists (seg ++ [y]). rewrite Hst, <- app_assoc. split; [done|]. rewrite length_app. cbn. split; [lia|].
      intros x. set_unfold. rewrite Hseg. naive_solver.
    + intros H. apply HH in H. set_solver.
    + intros H. apply HH. set_unfold. naive_solver.
Qed.

(** ** The layout of the stack *)

Inductive layout (E : gmap nat Exploration) (H : gmap nat (gset nat)) : list nat -> list nat -> list nat -> Prop :=
| layout_nil above seg : (forall x, x ∈ seg -> x = 0) -> layout E H above [] seg
| layout_cons above m ms seg st :
  (forall x, x ∈ seg -> x ∉ m :: ms /\ edge m x) ->
  (forall s, edge m s -> E !! s = Some Finished \/ in_heads H m s \/ s ∈ above ++ seg) ->
  layout E H (above ++ seg ++ [m]) ms st ->
  layout E H above (m :: ms) (seg ++ m :: st).

Lemma layout_weaken E E' H H' above above' ms st :
  (forall x, x ∈ above -> x ∈ above' \/ E' !! x = Some Finished) ->
  (forall x, E !! x = Some Finished -> E' !! x = Some Finished) ->
  (forall x t, in_heads H x t -> in_heads H' x t) ->
  layout E H above ms st -> layout E' H' above' ms st.
Proof.
  intros Ha HE HH Hl. revert above' Ha. induction Hl as [above seg H0|above m ms seg st Hseg Hs Hl IH]; intros above' Ha; constructor; [done|done| |].
  - intros s He. destruct (Hs s He) as [?|[?|Hin]]; [by left; apply HE|by right; left; apply HH|].
    apply elem_of_app in Hin as [[?|?]%Ha|?]; [right; right; set_solver|by left|right; right; set_solver].
  - apply IH. intros x Hx. apply elem_of_app in Hx as [[?|?]%Ha|?]; [left; set_solver|by right|left; set_solver].
Qed.

Lemma layout_inv E H above ms stack : layout E H above ms stack ->
  (ms = [] /\ forall x, x ∈ stack -> x = 0) \/
  exists m ms' seg st, ms = m :: ms' /\ stack = seg ++ m :: st /\ (forall x, x ∈ seg -> x ∉ m :: ms' /\ edge m x) /\
    (forall s, edge m s -> E !! s = Some Finished \/ in_heads H m s \/ s ∈ above ++ seg) /\
    layout E H (above ++ seg ++ [m]) ms' st.
Proof. intros []; [by left|]. right. eauto 10. Qed.

(** Popping an entry that finishes no block. *)
Lemma layout_pop E H above ms b rest : b ∉ ms -> layout E H above ms (b :: rest) -> layout E H (b :: above) ms rest.
Proof.
  intros Hb Hl. apply layout_inv in Hl as [[-> Hz]|(m & ms' & seg & st & -> & Heq & Hseg & Hs & Hl)]; [constructor; set_solver|].
  destruct seg as [|y seg]; cbn in Heq; injection Heq as <- ->; [set_solver|].
  constructor; [set_solver|intros s He; destruct (Hs s He) as [?|[?|?]]; set_solver|].
  eapply layout_weaken; [| | |exact Hl]; [set_solver|done..].
Qed.

(** Popping the entry that finishes the innermost open block. *)
Lemma layout_finish E H ms b rest : b ∈ ms -> layout E H [] ms (b :: rest) ->
  exists ms', ms = b :: ms' /\ (forall s, edge b s -> E !! s = Some Finished \/ in_heads H b s) /\ layout E H [b] ms' rest.
Proof.
  intros Hb Hl. apply layout_inv in Hl as [[-> Hz]|(m & ms' & seg & st & -> & Heq & Hseg & Hs & Hl)]; [set_solver|].
  destruct seg as [|y seg]; cbn in Heq; injection Heq as <- ->.
  - exists ms'. split; [done|]. split; [|done]. intros s He. destruct (Hs s He) as [?|[?|?]]; set_solver.
  - destruct (Hseg b) as [Hn _]; [set_solver|done].
Qed.

(** ** The invariant of the search *)

(** [ms] are the open blocks, the innermost first. *)
Record Inv (s : Search) (ms : list nat) : Prop := {
  inv_open x : exploration s !! x = Some InProgress <-> x ∈ ms;
  inv_finished x : exploration s !! x = Some Finished <-> x ∈ post_order s;
  inv_open_nodup : NoDup ms;
  inv_finished_nodup : NoDup (post_order s);
  inv_layout : layout (exploration s) (heads s) [] ms (stack s);
  inv_forward x t : x ∈ post_order s -> edge x t -> in_heads (heads s) x t \/ precedes (post_order s) t x;
  inv_heads x t : in_heads (heads s) x t -> edge x t /\
    ((exists hi lo, ms = hi ++ x :: lo /\ t ∈ x :: lo) \/ (x ∈ post_order s /\ t ∈ ms) \/
     (x ∈ post_order s /\ t ∈ post_order s /\ (x = t \/ precedes (post_order s) x t)));
  inv_parent x : x ∈ post_order s -> x <> 0 -> exists y, edge y x /\ (y ∈ ms \/ precedes (post_order s) x y);
  inv_chain hi x lo : ms = hi ++ x :: lo -> match lo with [] => x = 0 | y :: _ => edge y x end;
  inv_reach x : x ∈ stack s \/ x ∈ post_order s -> rtc edge 0 x;
  inv_entry : (stack s = [] /\ last (post_order s) = Some 0) \/
    exists st, stack s = st ++ [0] /\ 0 ∉ st /\ 0 ∉ post_order s /\ (exploration s !! 0 = None -> st = []);
}.

Lemma inv_init : Inv search_init [].
Proof.
  split; cbn; unfold ENTRY_BLOCK_ID.
  - intros x. rewrite lookup_empty. set_solver.
  - intros x. rewrite lookup_empty. set_solver.
  - constructor.
  - constructor.
  - constructor. set_solver.
  - set_solver.
  - intros x t (edges & He & _). by rewrite lookup_empty in He.
  - set_solver.
  - by intros [] x lo.
  - intros x Hx. assert (x = 0) as -> by set_solver. constructor.
  - right. exists []. set_solver.
Qed.

(** Skipping a block that is finished. *)
Lemma inv_skip s ms b rest : stack s = b :: rest -> exploration s !! b = Some Finished -> Inv s ms -> Inv (s <| stack := rest |>) ms.
Proof.
  intros Hst Hb HI. assert (b ∉ ms) as Hbms by (rewrite <- (inv_open s ms HI); congruence).
  destruct HI as [Ho Hf Hno Hnf Hl Hfw Hh Hpa Hch Hr He]. rewrite Hst in *. split; cbn; try done.
  - apply layout_pop in Hl; [|done]. eapply layout_weaken; [| | |exact Hl]; [|done..].
    intros x [->|Hx]%elem_of_cons; [by right|by left].
  - intros x Hx. apply Hr. set_solver.
  - right. destruct He as [[? _]|(st & Hst' & H0 & H0' & Hn)]; [done|]. destruct st as [|y st]; cbn in Hst'; simplify_eq.
    + by apply Hf in Hb.
    + exists st. set_solver.
Qed.

(** Finishing a block. *)
Lemma inv_finish s ms b rest :
  stack s = b :: rest -> exploration s !! b = Some InProgress -> Inv s ms ->
  exists ms', ms = b :: ms' /\
  Inv (s <| post_order := post_order s ++ [b] |> <| exploration := <[b := Finished]> (exploration s) |> <| stack := rest |>) ms'.
Proof.
  intros Hst Hb HI. assert (b ∈ ms) as Hbms by by apply (inv_open s ms HI).
  assert (b ∉ post_order s) as Hbpo by (rewrite <- (inv_finished s ms HI); congruence).
  destruct HI as [Ho Hf Hno Hnf Hl Hfw Hh Hpa Hch Hr He]. rewrite Hst in *.
  apply layout_finish in Hl as (ms' & -> & Hs & Hl); [|done]. exists ms'. split; [done|].
  apply NoDup_cons in Hno as [Hb' Hno]. split; cbn; unfold const.
  - intros x. destruct (decide (x = b)) as [->|]; [rewrite lookup_insert_eq; by split|].
    rewrite lookup_insert_ne, Ho by done. set_solver.
  - intros x. rewrite elem_of_app, list_elem_of_singleton. destruct (decide (x = b)) as [->|].
    + rewrite lookup_insert_eq. tauto.
    + rewrite lookup_insert_ne, Hf by done. tauto.
  - done.
  - apply NoDup_app. split; [done|]. split; [set_solver|]. apply NoDup_singleton.
  - eapply layout_weaken; [| | |exact Hl]; [|..|done].
    + intros x ->%list_elem_of_singleton. right. by rewrite lookup_insert_eq.
    + intros x Hx. destruct (decide (x = b)) as [->|]; [by rewrite lookup_insert_eq|by rewrite lookup_insert_ne].
  - intros x t [Hx| ->%list_elem_of_singleton]%elem_of_app Hxt.
    + destruct (Hfw x t Hx Hxt); [by left|right; by apply precedes_app].
    + destruct (Hs t Hxt) as [Ht|?]; [|by left]. right. apply precedes_snoc. by apply Hf.
  - intros x t Hxt. destruct (Hh x t Hxt) as [Hedge Hcase]. split; [done|].
    destruct Hcase as [(hi & lo & Heq & Ht)|[[Hx Ht]|(Hx & Ht & Hord)]].
    + destruct hi as [|y hi]; cbn in Heq; simplify_eq.
      * apply elem_of_cons in Ht as [->|Ht]; [|right; left; set_solver]. right. right. set_solver.
      * left. by exists hi, lo.
    + apply elem_of_cons in Ht as [->|Ht]; [|right; left; set_solver].
      right. right. split; [set_solver|]. split; [set_solver|]. right. by apply precedes_snoc.
    + right. right. split; [set_solver|]. split; [set_solver|]. destruct Hord; [by left|right; by apply precedes_app].
  - intros x [Hx| ->%list_elem_of_singleton]%elem_of_app Hx0.
    + destruct (Hpa x Hx Hx0) as (y & Hy & [[->|Hin]%elem_of_cons|?]); exists y || exists b; (split; [done|]);
        [right; by apply precedes_snoc|by left|right; by apply precedes_app].
    + specialize (Hch [] b ms' eq_refl). destruct ms' as [|y lo]; [done|]. exists y. split; [done|]. left. by left.
  - intros hi x lo ->. apply (Hch (b :: hi)). done.
  - intros x [Hx|[Hx| ->%list_elem_of_singleton]%elem_of_app]; apply Hr; set_solver.
  - destruct He as [[? _]|(st & Hst' & H0 & H0' & Hn)]; [done|]. destruct st as [|y st]; cbn in Hst'; simplify_eq.
    + left. split; [done|]. by rewrite last_snoc.
    + right. exists st. split; [done|]. split; [set_solver|]. split; [set_solver|].
      rewrite lookup_insert_ne by set_solver. intros H. specialize (Hn H). done.
Qed.

(** Entering a block. *)
Lemma inv_enter s ms b rest bb :
  stack s = b :: rest -> exploration s !! b = None -> blocks !! b = Some bb -> Inv s ms ->
  Inv (foldl (visit_successor b) (s <| exploration := <[b := InProgress]> (exploration s) |> <| stack := b :: rest |>) (bb_successors bb))
    (b :: ms).
Proof.
  intros Hst Hb Hbb HI. assert (b ∉ ms) as Hbms by (rewrite <- (inv_open s ms HI); congruence).
  assert (b ∉ post_order s) as Hbpo by (rewrite <- (inv_finished s ms HI); congruence).
  assert (forall t, t ∈ bb_successors bb <-> edge b t) as Hsucc by (intros t; unfold edge, succs; by rewrite Hbb).
  destruct (visit_successors_spec b (s <| exploration := <[b := InProgress]> (exploration s) |> <| stack := b :: rest |>) (bb_successors bb))
    as (HE & HP & (seg & Hst' & _ & Hseg) & HH).
  set (s' := foldl _ _ _) in *. clearbody s'. cbn in *. unfold const in *.
  destruct HI as [Ho Hf Hno Hnf Hl Hfw Hh Hpa Hch Hr He]. rewrite Hst in *. split; rewrite ?HE, ?HP, ?Hst'; try done.
  - intros x. destruct (decide (x = b)) as [->|]; [rewrite lookup_insert_eq; set_solver|].
    rewrite lookup_insert_ne, Ho by done. set_solver.
  - intros x. rewrite <- Hf. destruct (decide (x = b)) as [->|]; [rewrite lookup_insert_eq; naive_solver|by rewrite lookup_insert_ne].
  - by constructor.
  - constructor.
    + intros x Hx. apply Hseg in Hx as [Hxe%Hsucc Hx]. split; [|done]. intros Hin. apply elem_of_cons in Hin as [->|Hin]; [by rewrite lookup_insert_eq in Hx|].
      apply Ho in Hin. rewrite lookup_insert_ne in Hx by set_solver. congruence.
    + intros t Ht%Hsucc. destruct (<[b:=InProgress]> (exploration s) !! t) as [[]|] eqn:Hx; [|by left|].
      * right. left. apply HH. by right.
      * right. right. cbn. by apply Hseg.
    + apply layout_pop in Hl; [|done]. eapply layout_weaken; [| | |exact Hl].
      * set_solver.
      * intros x Hx. rewrite lookup_insert_ne; [done|congruence].
      * intros x t Hxt. apply HH. by left.
  - intros x t Hx Hxt. destruct (Hfw x t Hx Hxt); [left; apply HH; by left|by right].
  - intros x t Hxt. apply HH in Hxt as [Hxt|(-> & Ht & HIn)].
    + destruct (Hh x t Hxt) as [? Hcase]. split; [done|].
      destruct Hcase as [(hi & lo & -> & Ht)|[[Hx Ht]|?]]; [left; by exists (b :: hi), lo|right; left; set_solver|by right; right].
    + split; [by apply Hsucc|]. left. exists [], ms. split; [done|].
      destruct (decide (t = b)) as [->|]; [by left|right]. apply Ho. by rewrite lookup_insert_ne in HIn.
  - intros x Hx Hx0. destruct (Hpa x Hx Hx0) as (y & ? & [?|?]); exists y; (split; [done|]); [left; by right|by right].
  - intros [|y hi] x lo Heq; cbn in Heq; simplify_eq; [|by eapply Hch].
    apply layout_inv in Hl as [[-> Hz]|(m & ms' & seg2 & st & -> & Heq & Hseg2 & _)]; [apply Hz; by left|].
    destruct seg2 as [|y seg2]; cbn in Heq; simplify_eq; [set_solver|]. apply Hseg2. by left.
  - assert (rtc edge 0 b) as Hrb by (apply Hr; set_solver). intros x [Hx|Hx]; [|apply Hr; by right].
    apply elem_of_app in Hx as [Hx|Hx]; [|apply Hr; left; set_solver]. apply Hseg in Hx as [Hx%Hsucc _].
    eapply rtc_r; done.
  - right. destruct He as [[? _]|(st & Hst'' & H0 & H0' & Hn)]; [done|].
    assert (0 ∉ seg) as H0s.
    { intros [_ Hx]%Hseg. destruct (decide (b = 0)) as [->|]; [by rewrite lookup_insert_eq in Hx|].
      rewrite lookup_insert_ne in Hx by done. apply Hn in Hx as ->. cbn in Hst''. by simplify_eq. }
    exists (seg ++ st). rewrite Hst'', app_assoc. split; [done|]. split; [set_solver|]. split; [done|].
    intros Hx. exfalso. destruct (decide (b = 0)) as [->|]; [by rewrite lookup_insert_eq in Hx|].
    rewrite lookup_insert_ne in Hx by done. apply Hn in Hx as ->. cbn in Hst''. by simplify_eq.
Qed.

(** ** The whole search *)

Context (Hentry : is_Some (blocks !! 0)).
Context (Hclosed : forall b bb t, blocks !! b = Some bb -> t ∈ bb_successors bb -> is_Some (blocks !! t)).
Context (Htwo : forall b bb, blocks !! b = Some bb -> length (bb_successors bb) <= 2).

(** The blocks not entered yet. *)
Definition fresh (s : Search) : gset nat := dom blocks ∖ dom (exploration s).

Lemma search_Ok fuel s ms :
  Inv s ms -> (forall x, x ∈ stack s -> is_Some (blocks !! x)) -> length (stack s) + 3 * size (fresh s) <= fuel ->
  exists s', search fuel blocks s = Ok s' /\ stack s' = [] /\ Inv s' [].
Proof.
  revert s ms. induction fuel as [|fuel IH]; intros s ms HI Hin Hfuel.
  - destruct (stack s) eqn:Hst; [|cbn in Hfuel; lia]. exists s. cbn. rewrite Hst. split; [done|]. split; [done|].
    pose proof (inv_layout s ms HI) as Hl. rewrite Hst in Hl. apply layout_inv in Hl as [[-> Hz]|(m & ? & seg & ? & _ & Heq & _)]; [done|].
    by destruct seg.
  - cbn [search]. destruct (stack s) as [|b rest] eqn:Hst.
    { exists s. split; [done|]. split; [done|]. pose proof (inv_layout s ms HI) as Hl. rewrite Hst in Hl.
      apply layout_inv in Hl as [[-> Hz]|(m & ? & seg & ? & _ & Heq & _)]; [done|]. by destruct seg. }
    cbn [length] in Hfuel. unfold search_step. destruct (exploration s !! b) as [[]|] eqn:Hb.
    + vm_cbn. destruct (inv_finish s ms b rest Hst Hb HI) as (ms' & -> & HI'). eapply (IH _ ms' HI'); cbn; unfold const.
      * intros x Hx. apply Hin. by right.
      * unfold fresh in *. cbn. unfold const. rewrite dom_insert_lookup_L by (by eexists). lia.
    + vm_cbn. eapply (IH _ ms); [by eapply inv_skip|cbn; unfold const..].
      * intros x Hx. apply Hin. by right.
      * unfold fresh in *. cbn. lia.
    + destruct (Hin b) as [bb Hbb]; [by left|]. unfold map_index. rewrite Hbb. vm_cbn.
      pose proof (inv_enter s ms b rest bb Hst Hb Hbb HI) as HI'.
      destruct (visit_successors_spec b (s <| exploration := <[b := InProgress]> (exploration s) |> <| stack := b :: rest |>) (bb_successors bb))
        as (HE & _ & (seg & Hst' & Hlen & Hseg) & _).
      set (s' := foldl _ _ _) in *. clearbody s'. cbn in *. unfold const in *.
      apply (IH s' (b :: ms) HI').
      * intros x Hx. rewrite Hst' in Hx. apply elem_of_app in Hx as [[Hx _]%Hseg|Hx]; [by eapply Hclosed|by apply Hin].
      * rewrite Hst', length_app. cbn. specialize (Htwo b bb Hbb).
        assert (size (fresh s) = S (size (fresh s'))) as Hsize; [|lia].
        unfold fresh. rewrite HE, dom_insert_L.
        assert (dom blocks ∖ dom (exploration s) = {[b]} ∪ (dom blocks ∖ ({[b]} ∪ dom (exploration s)))) as ->.
        { apply set_eq. intros x. destruct (decide (x = b)) as [->|]; [|set_solver].
          apply not_elem_of_dom in Hb. apply elem_of_dom_2 in Hbb. set_solver. }
        rewrite size_union by set_solver. rewrite size_singleton. lia.
Qed.
End Graph.

(** What the traversal order and the back edges are. *)
Record Traversal (blocks : gmap nat BasicBlock) (order : list nat) (h : gmap nat (gset nat)) : Prop := {
  tr_nodup : NoDup order;
  tr_entry : order !! 0 = Some 0;
  tr_reach x : x ∈ order <-> rtc (edge blocks) 0 x;
  tr_parent x : x ∈ order -> x <> 0 -> exists y, edge blocks y x /\ precedes order y x;
  tr_back a b : in_heads h a b -> edge blocks a b /\ a ∈ order /\ (a = b \/ precedes order b a);
  tr_forward a b : a ∈ order -> edge blocks a b -> in_heads h a b \/ precedes order a b;
}.

Lemma precedes_reverse l a b : precedes (reverse l) a b <-> precedes l b a.
Proof.
  assert (forall l a b, precedes l b a -> precedes (reverse l) a b) as Himp.
  { intros l' a' b' (i & j & Hi & Hj & Hij). apply lookup_lt_Some in Hi as ?, Hj as ?.
    exists (length l' - S j), (length l' - S i). rewrite !reverse_lookup by lia.
    replace (length l' - S (length l' - S j)) with j by lia. replace (length l' - S (length l' - S i)) with i by lia.
    repeat split; [done|done|lia]. }
  split; [|apply Himp]. intros H%Himp. by rewrite reverse_involutive in H.
Qed.

Lemma search_traversal blocks :
  is_Some (blocks !! 0) ->
  (forall b bb t, blocks !! b = Some bb -> t ∈ bb_successors bb -> is_Some (blocks !! t)) ->
  (forall b bb, blocks !! b = Some bb -> length (bb_successors bb) <= 2) ->
  exists s, search (search_fuel blocks) blocks search_init = Ok s /\ Traversal blocks (reverse (post_order s)) (heads s).
Proof.
  intros H0 Hc Ht. destruct (search_Ok blocks H0 Hc Ht (search_fuel blocks) search_init []) as (s & Hs & Hst & HI).
  - apply inv_init.
  - cbn. intros x ->%list_elem_of_singleton. done.
  - cbn. unfold search_fuel, fresh. cbn. rewrite dom_empty_L, difference_empty_L, size_dom. lia.
  - exists s. split; [done|]. destruct HI as [Ho Hf _ Hnf _ Hfw Hh Hpa _ Hr He].
    assert (last (post_order s) = Some 0) as Hlast by (destruct He as [[_ ?]|(st & Hst' & _)]; [done|]; rewrite Hst in Hst'; by destruct st).
    assert (0 ∈ post_order s) as H0in by (apply last_Some in Hlast as [l ->]; set_solver).
    assert (forall a b, a ∈ post_order s -> edge blocks a b -> b ∈ post_order s) as Hcl.
    { intros a b Ha Hab. destruct (Hfw a b Ha Hab) as [Hhd|(i & _ & Hi & _)]; [|by eapply list_elem_of_lookup_2].
      destruct (Hh a b Hhd) as [_ [(hi & lo & Heq & _)|[[_ Hb]|(_ & Hb & _)]]]; [by destruct hi|by apply not_elem_of_nil in Hb|done]. }
    split.
    + by rewrite reverse_Permutation.
    + apply last_Some in Hlast as [l ->]. by rewrite reverse_snoc.
    + intros x. rewrite elem_of_reverse. split; [intros; apply Hr; by right|].
      intros Hx. clear - Hx Hcl H0in. induction Hx as [|y z w Hyz _ IH]; [done|]. apply IH. by eapply Hcl.
    + intros x. rewrite elem_of_reverse. intros Hx Hx0. destruct (Hpa x Hx Hx0) as (y & ? & [Hy|?]); [by apply not_elem_of_nil in Hy|].
      exists y. by rewrite precedes_reverse.
    + intros a b Hab. destruct (Hh a b Hab) as [? [(hi & lo & Heq & _)|[[_ Hb]|(Ha & Hb & Hord)]]];
        [by destruct hi|by apply not_elem_of_nil in Hb|]. rewrite elem_of_reverse, precedes_reverse. done.
    + intros a b. rewrite elem_of_reverse, precedes_reverse. apply Hfw.
Qed.

(** ** The graph *)

Lemma elem_of_windows2 l a b : (a, b) ∈ windows2 l <-> exists i, l !! i = Some a /\ l !! S i = Some b.
Proof.
  induction l as [|x [|y r] IH]; cbn [windows2].
  - split; [set_solver|]. by intros (i & ? & _).
  - split; [set_solver|]. intros ([|i] & ? & ?); done.
  - change (match r with [] => [] | b0 :: _ => (y, b0) :: windows2 r end) with (windows2 (y :: r)). rewrite elem_of_cons, IH. split.
    + intros [[= -> ->]|(i & ? & ?)]; [by exists 0|by exists (S i)].
    + intros ([|i] & Ha & Hb); [left; cbn in *; by simplify_eq|right; by exists i].
Qed.

Lemma windows2_keys l : NoDup l -> NoDup (windows2 l).*1.
Proof.
  induction l as [|x [|y r] IH]; [constructor..|]. intros [Hx Hnd]%NoDup_cons.
  change (windows2 (x :: y :: r)) with ((x, y) :: windows2 (y :: r)). rewrite fmap_cons. constructor; [|by apply IH].
  intros ([a b] & Heq & Hab)%list_elem_of_fmap. cbn in Heq. subst a. apply elem_of_windows2 in Hab as (i & Hi & _).
  apply Hx. by eapply list_elem_of_lookup_2.
Qed.

Lemma is_back_edge_heads cfg a b : is_back_edge cfg a b = true <-> in_heads (loop_heads cfg) a b.
Proof.
  unfold is_back_edge, in_heads. destruct (loop_heads cfg !! b) as [e|]; [|naive_solver].
  rewrite bool_decide_eq_true. naive_solver.
Qed.

(** The graph of a body: its blocks, its traversal order and its back edges. *)
Record Graph (code : list Bytecode) (cfg : VMControlFlowGraph) (order : list nat) : Prop := {
  gr_blocks : Blocks code (blocks_map cfg);
  gr_traversal : Traversal (blocks_map cfg) order (loop_heads cfg);
  gr_next a b : next_block cfg a = Some b <-> exists i, order !! i = Some a /\ order !! S i = Some b;
}.

Lemma blocks_two code blocks b bb :
  (Z.of_nat (length code) < 65536)%Z -> Blocks code blocks -> blocks !! b = Some bb -> length (bb_successors bb) <= 2.
Proof.
  intros Hlen Hbk Hbb. pose proof (bk_succ _ _ Hbk _ _ Hbb) as Hs. pose proof (bk_range _ _ Hbk _ _ Hbb) as Hr.
  destruct (lookup_lt_is_Some_2 code (exit bb)) as [i Hi]; [lia|].
  destruct (FormatSafety.get_successors_spec code _ i _ Hlen Hi Hs) as (Hnd & _ & Hin).
  assert (bb_successors bb ⊆+ option_list (Bytecode.offset i) ++ [S (exit bb)]) as Hsub.
  { apply NoDup_submseteq; [done|]. intros x Hx. apply Hin in Hx as [->|(-> & _)]; set_solver. }
  apply submseteq_length in Hsub. rewrite length_app in Hsub. destruct (Bytecode.offset i); cbn in Hsub; lia.
Qed.

Lemma new_graph code :
  (Z.of_nat (length code) < 65536)%Z -> branches_in_range code -> code <> [] ->
  exists cfg order, Cfg.new code = Ok cfg /\ Graph code cfg order.
Proof.
  intros Hlen Hbr Hne. unfold Cfg.new. destruct (make_blocks_Ok code Hlen Hbr Hne) as (blocks & -> & Hbk). vm_cbn.
  destruct (search_traversal blocks) as (s & -> & Htr).
  - apply Hbk.
  - apply Hbk.
  - intros b bb. by apply (blocks_two code).
  - vm_cbn. do 2 eexists. split; [done|]. split; [done|exact Htr|]. intros a b. unfold next_block. cbn.
    rewrite lookup_collect_map; [apply elem_of_windows2|]. apply windows2_keys, Htr.
Qed.

(** The graph of an empty body is not an empty block but a panic. *)
Lemma cfg_new_empty : Cfg.new [] = Panicked.
Proof. reflexivity. Qed.

(** C30: The control-flow graph of a body that is not empty, has fewer than
    65,536 instructions and branches only inside itself is built without a
    panic and within the fuel of its search.  Its blocks partition the body;
    control leaves a block only after its last instruction, and only to the
    first instruction of another block; the traversal order starts at the entry
    and lists the blocks reachable from it, each once; and an edge between
    reachable blocks is a back edge exactly when it does not lead forward in
    that order. *)
Theorem cfg_new_spec code :
  (Z.of_nat (length code) < 65536)%Z -> branches_in_range code -> code <> [] ->
  exists cfg order, Cfg.new code = Ok cfg /\
  (forall pc, pc < length code -> exists b bb, blocks_map cfg !! b = Some bb /\ b <= pc <= exit bb /\
     forall b' bb', blocks_map cfg !! b' = Some bb' -> b' <= pc <= exit bb' -> b' = b) /\
  (forall b bb pc i, blocks_map cfg !! b = Some bb -> b <= pc < exit bb -> code !! pc = Some i -> Bytecode.is_branch i = false) /\
  (forall b bb t, blocks_map cfg !! b = Some bb -> t ∈ bb_successors bb -> is_Some (blocks_map cfg !! t)) /\
  NoDup order /\ order !! 0 = Some 0 /\ (forall x, x ∈ order <-> rtc (edge (blocks_map cfg)) 0 x) /\
  (forall a b, next_block cfg a = Some b <-> exists i, order !! i = Some a /\ order !! S i = Some b) /\
  (forall a b, a ∈ order -> edge (blocks_map cfg) a b -> is_back_edge cfg a b = true <-> ~ precedes order a b).
Proof.
  intros Hlen Hbr Hne. destruct (new_graph code Hlen Hbr Hne) as (cfg & order & Hnew & [Hbk Htr Hnext]).
  exists cfg, order. split; [done|]. split.
  { intros pc Hpc. destruct (bk_cover _ _ Hbk pc Hpc) as (b & bb & Hbb & Hin). exists b, bb. split; [done|]. split; [done|].
    intros b' bb' Hbb' Hin'. by eapply (bk_disjoint _ _ Hbk). }
  split; [apply Hbk|]. split; [apply Hbk|]. split; [apply Htr|]. split; [apply Htr|]. split; [apply Htr|]. split; [done|].
  intros a b Ha Hab. rewrite is_back_edge_heads. split.
  - intros Hh. destruct (tr_back _ _ _ Htr _ _ Hh) as (_ & _ & [->|Hord]).
    + by apply precedes_irrefl, Htr.
    + apply precedes_asym; [apply Htr|done].
  - intros Hn. by destruct (tr_forward _ _ _ Htr a b Ha Hab).
Qed.

Lemma cfg_new_spec_witness : exists cfg, Cfg.new [Bytecode.LdTrue; Bytecode.BrTrue 0; Bytecode.Ret] = Ok cfg /\ is_back_edge cfg 0 0 = true.
Proof.
  destruct (cfg_new_spec [Bytecode.LdTrue; Bytecode.BrTrue 0; Bytecode.Ret]) as (cfg & order & Hnew & _).
  - done.
  - intros [|[|[|pc]]] b o Hb Ho; cbn in Hb; simplify_eq; cbn in Ho; simplify_eq. cbn. lia.
  - done.
  - exists cfg. split; [done|]. assert (match Cfg.new [Bytecode.LdTrue; Bytecode.BrTrue 0; Bytecode.Ret] with Ok c => is_back_edge c 0 0 | _ => false end = true) as Hc by (vm_compute; reflexivity).
    by rewrite Hnew in Hc.
Defined.
End CfgSearch.
