(* ===== verification/MoveFunction.v ===== *)
(** What a bounds-checked function gives the passes that run on it.

    The verifier builds a [FunctionView] for every function with a body and
    hands it to its passes (binary_views.rs, code_unit_verifier.rs of
    external/move). This file joins the bounds checker of [MoveBounds] with the
    control-flow graph of [MoveCfg] and [MoveSearch]: a function of a module
    that passed the checker has a view, whose graph is the graph of its body,
    whose local types have abilities, and whose instructions index what exists. *)

From S2P Require Import Prelude MoveFormat MoveBounds MoveCfg MoveSearch.

Module FunctionViews.
Import Cfg Bounds.

Record Sound (resolver : BinaryIndexedView) (view : FunctionView) (order : list nat) : Prop := {
  so_bounded : WellBounded resolver;
  so_graph : CfgSearch.Graph (cu_code (fv_code view)) (fv_cfg view) order;
  so_length : (Z.of_nat (length (cu_code (fv_code view))) < 65536)%Z;
  so_types : Forall (fun ty => exists a, View.abilities resolver ty (fv_type_parameters view) = Ok a) (fv_parameters view ++ fv_locals view);
  so_bounded_types : Forall (fun ty => type_bounded resolver ty /\ params_bounded (length (fv_type_parameters view)) ty) (fv_parameters view ++ fv_locals view);
  so_locals : length (fv_locals view) + length (fv_parameters view) <= 255;
  so_instrs : Forall (instr_bounded resolver (length (fv_type_parameters view))
    (length (fv_locals view) + length (fv_parameters view)) (length (cu_code (fv_code view)))) (cu_code (fv_code view));
}.

Lemma vmap_total {A B} (f : A -> vm B) l : Forall (fun x => exists y, f x = Ok y) l -> exists ys, vmap f l = Ok ys /\ length ys = length l.
Proof.
  induction 1 as [|x r [y Hy] _ (ys & IH & Hlen)]; cbn; [by exists []|]. rewrite Hy. vm_cbn. rewrite IH. vm_cbn.
  eexists. split; [done|]. cbn. by f_equal.
Qed.

(** On bounded tables the accessors are plain lookups. *)
Section Accessors.
Context (resolver : BinaryIndexedView) (Hwb : WellBounded resolver).

Lemma module_assert_true b : b = true -> View.module_assert resolver b = Ok ().
Proof. intros ->. by destruct resolver. Qed.

Lemma struct_handle_at_Ok idx sh : View.struct_handle_at resolver idx = Ok sh <-> View.struct_handles resolver !! idx = Some sh.
Proof.
  unfold View.struct_handle_at. split; [intros; vm_inv; by subst|]. intros H. unfold index. rewrite H. vm_cbn.
  pose proof (wb_struct_handles _ Hwb) as Hs. rewrite Forall_lookup in Hs. destruct (Hs _ _ H).
  rewrite module_assert_true; [done|]. by apply bool_decide_eq_true.
Qed.

Lemma function_handle_at_Ok idx fh : View.function_handle_at resolver idx = Ok fh <-> View.function_handles resolver !! idx = Some fh.
Proof.
  unfold View.function_handle_at. split; [intros; vm_inv; by subst|]. intros H. unfold index. rewrite H. vm_cbn.
  pose proof (wb_function_handles _ Hwb) as Hs. rewrite Forall_lookup in Hs. destruct (Hs _ _ H) as (_ & _ & ? & ? & _).
  rewrite !module_assert_true; [done|by apply bool_decide_eq_true..].
Qed.

Lemma module_handle_at_Ok idx mh : View.module_handle_at resolver idx = Ok mh <-> View.module_handles resolver !! idx = Some mh.
Proof.
  unfold View.module_handle_at. split; [intros; vm_inv; by subst|]. intros H. unfold index. rewrite H. vm_cbn.
  pose proof (wb_module_handles _ Hwb) as Hs. rewrite Forall_lookup in Hs. destruct (Hs _ _ H).
  rewrite !module_assert_true; [done|by apply bool_decide_eq_true..].
Qed.

Lemma table_Forall {A} (P : A -> Prop) (table : option (list A)) idx a :
  Forall P (flatten table) -> View.only_in_module table idx = Ok a -> P a.
Proof. destruct table as [l|]; cbn; [|done]. rewrite index_Ok, Forall_lookup. eauto. Qed.

Lemma field_handle_at_Ok idx fh : View.field_handle_at resolver idx = Ok fh <-> View.only_in_module (View.field_handles resolver) idx = Ok fh.
Proof.
  unfold View.field_handle_at. split; [intros; vm_inv; by subst|]. intros H. rewrite H. vm_cbn.
  destruct (table_Forall _ _ _ _ (wb_field_handles _ Hwb) H) as [Hin _].
  rewrite module_assert_true; [done|]. apply bool_decide_eq_true. destruct resolver; [exact Hin|done].
Qed.

Lemma function_handle_settles idx : idx < length (View.function_handles resolver) -> settles (View.function_handle_at resolver idx).
Proof. intros [fh Hfh%function_handle_at_Ok]%lookup_lt_is_Some. rewrite Hfh. apply settles_Ok. Qed.

Lemma struct_handle_settles idx : idx < length (View.struct_handles resolver) -> settles (View.struct_handle_at resolver idx).
Proof. intros [sh Hsh%struct_handle_at_Ok]%lookup_lt_is_Some. rewrite Hsh. apply settles_Ok. Qed.

Lemma settles_table {A} (table : option (list A)) idx : in_table table idx -> settles (View.only_in_module table idx).
Proof. destruct table as [l|]; cbn; [apply settles_index|intros; apply settles_Err]. Qed.

Lemma field_handle_settles idx : in_table (View.field_handles resolver) idx -> settles (View.field_handle_at resolver idx).
Proof.
  intros Hin%settles_table. destruct (View.only_in_module _ idx) as [fh|e| |] eqn:H; [|..|by destruct Hin|by destruct Hin].
  - apply field_handle_at_Ok in H. rewrite H. apply settles_Ok.
  - unfold View.field_handle_at. rewrite H. apply settles_Err.
Qed.
End Accessors.

(** A type within the tables and the type parameters has abilities. *)
Lemma abilities_total resolver ty constraints :
  WellBounded resolver -> type_bounded resolver ty -> params_bounded (length constraints) ty -> exists a, View.abilities resolver ty constraints = Ok a.
Proof.
  intros Hwb. induction ty as [| | | | | |ty IH|idx|idx ts IH|ty IH|ty IH|idx| | |] using SignatureToken.token_ind; cbn [type_bounded params_bounded View.abilities]; try (by eauto).
  - intros Ht Hp. destruct (IH Ht Hp) as [a ->]. vm_cbn. by eexists.
  - intros (sh & Hsh%struct_handle_at_Ok & _) _; [|done]. rewrite Hsh. vm_cbn. by eexists.
  - intros [(sh & Hsh & Hlen) Hts] Hps. rewrite foldr_and_Forall in Hts, Hps.
    apply struct_handle_at_Ok in Hsh; [|done]. rewrite Hsh. vm_cbn.
    destruct (vmap_total (fun arg => View.abilities resolver arg constraints) ts) as (ys & -> & Hys).
    { rewrite Forall_forall in *. intros x Hx. by apply IH; [|apply Hts|apply Hps]. }
    vm_cbn. unfold AbilitySet.polymorphic_abilities. rewrite bool_decide_true; [by eexists|]. rewrite length_map. lia.
  - intros _ Hlt. destruct (index_lt constraints idx Hlt) as (a & -> & _). by eexists.
Qed.

Lemma bounded_branches resolver tpc lc code :
  Forall (instr_bounded resolver tpc lc (length code)) code -> branches_in_range code.
Proof. rewrite Forall_lookup. intros H pc b o Hb Ho. specialize (H pc b Hb). destruct b; cbn in *; by simplify_eq. Qed.

(** A bounded body has a sound view. *)
Lemma bounded_sound resolver cu params ret locals tps idx :
  WellBounded resolver -> View.signatures resolver !! cu_locals cu = Some locals ->
  (exists i, View.signatures resolver !! i = Some params) ->
  Forall (params_bounded (length tps)) params -> code_bounded resolver cu (length tps) (length params) ->
  (Z.of_nat (length (cu_code cu)) < 65536)%Z -> cu_code cu <> [] ->
  exists cfg order, Cfg.new (cu_code cu) = Ok cfg /\
    Sound resolver {| fv_index := idx; fv_code := cu; fv_parameters := params; fv_return := ret; fv_locals := locals;
                      fv_type_parameters := tps; fv_cfg := cfg |} order.
Proof.
  intros Hwb Hl [i Hi] Hp (locals' & Hl' & H255 & Hlp & Hin) Hlen Hne. simplify_eq.
  destruct (CfgSearch.new_graph (cu_code cu) Hlen (bounded_branches _ _ _ _ Hin) Hne) as (cfg & order & Hnew & Hgraph).
  pose proof (wb_signatures _ Hwb) as Hsig. rewrite Forall_lookup in Hsig.
  assert (Forall (fun ty => type_bounded resolver ty /\ params_bounded (length tps) ty) (params ++ locals)) as Hb.
  { apply Forall_app. split; apply Forall_and; eauto. }
  exists cfg, order. split; [done|]. split; cbn; [done..| |done|done|done].
  eapply Forall_impl; [exact Hb|]. intros ty [Ht Htp]. by apply abilities_total.
Qed.

Lemma function_sound module idx fd fh cu :
  verify_module module = Ok () -> cm_function_defs module !! idx = Some fd -> fn_code fd = Some cu ->
  cm_function_handles module !! fn_function fd = Some fh -> (Z.of_nat (length (cu_code cu)) < 65536)%Z -> cu_code cu <> [] ->
  exists view order, function module idx cu fh = Ok view /\ fv_code view = cu /\ Sound (View.Module_ module) view order.
Proof.
  intros Hv Hfd Hcu Hfh Hlen Hne. apply verify_module_Ok in Hv as [_ Hwb].
  pose proof (wb_function_defs _ Hwb) as Hfds. cbn in Hfds. rewrite Forall_lookup in Hfds.
  destruct (Hfds idx fd Hfd) as (fh' & Hfh' & _ & Hc). cbn in Hfh'. simplify_eq. rewrite Hcu in Hc.
  destruct Hc as (params & Hparams & Hc). cbn in Hparams. assert (Hcode := Hc). destruct Hc as (locals & Hl & _). cbn in Hl.
  pose proof (wb_function_handles _ Hwb) as Hfhs. cbn in Hfhs. rewrite Forall_lookup in Hfhs.
  destruct (Hfhs _ _ Hfh) as (_ & _ & _ & Hret & Hp & _). cbn in Hret, Hp.
  destruct (lookup_lt_is_Some_2 _ _ Hret) as [ret Hr].
  destruct (bounded_sound (View.Module_ module) cu params ret locals (fh_type_parameters fh) (Some idx)) as (cfg & order & Hnew & Hs); eauto.
  do 2 eexists. split; [|split; [|exact Hs]]; [|done]. unfold function, index. rewrite Hparams, Hr, Hl. vm_cbn. by rewrite Hnew.
Qed.

Lemma script_sound s :
  verify_script s = Ok () -> (Z.of_nat (length (cu_code (cs_code s))) < 65536)%Z -> cu_code (cs_code s) <> [] ->
  exists view order, script s = Ok view /\ fv_code view = cs_code s /\ Sound (View.Script s) view order.
Proof.
  intros (Hwb & params & Hparams & Hp & Hc)%verify_script_Ok Hlen Hne. cbn in Hparams.
  assert (Hcode := Hc). destruct Hc as (locals & Hl & _). cbn in Hl.
  destruct (bounded_sound (View.Script s) (cs_code s) params [] locals (cs_type_parameters s) None) as (cfg & order & Hnew & Hs); eauto.
  do 2 eexists. split; [|split; [|exact Hs]]; [|done]. unfold script, index. rewrite Hparams, Hl. vm_cbn. by rewrite Hnew.
Qed.

(** ** Lookups of a bounded module *)

Section Lookups.
Context (resolver : BinaryIndexedView).

Lemma function_handle_bounds idx fh : WellBounded resolver -> View.function_handles resolver !! idx = Some fh ->
  fh_parameters fh < length (View.signatures resolver) /\ fh_return fh < length (View.signatures resolver).
Proof.
  intros Hwb Hfh. pose proof (wb_function_handles _ Hwb) as H. rewrite Forall_lookup in H. by destruct (H _ _ Hfh) as (_ & _ & ? & ? & _).
Qed.

Lemma function_instantiation_bounded idx fi : WellBounded resolver -> View.function_instantiations resolver !! idx = Some fi ->
  fi_handle fi < length (View.function_handles resolver).
Proof. intros Hwb Hfi. pose proof (wb_function_instantiations _ Hwb) as H. rewrite Forall_lookup in H. by destruct (H _ _ Hfi). Qed.

Lemma struct_def_at_bounded idx sd : WellBounded resolver -> View.struct_def_at resolver idx = Ok sd -> struct_def_bounded resolver sd.
Proof. intros Hwb. apply table_Forall, Hwb. Qed.

Lemma field_handle_at_bounded idx fh : WellBounded resolver -> View.field_handle_at resolver idx = Ok fh -> field_handle_bounded resolver fh.
Proof. intros Hwb Hf%field_handle_at_Ok; [|done]. revert Hf. apply table_Forall, Hwb. Qed.

Lemma field_instantiation_at_bounded idx fi : WellBounded resolver -> View.field_instantiation_at resolver idx = Ok fi ->
  in_table (View.field_handles resolver) (fdi_handle fi) /\ fdi_type_parameters fi < length (View.signatures resolver).
Proof. intros Hwb. apply (table_Forall (fun fi => _ /\ _) _ _ _ (wb_field_instantiations _ Hwb)). Qed.

Lemma struct_instantiation_at_bounded idx si : WellBounded resolver -> View.struct_instantiation_at resolver idx = Ok si ->
  in_table (View.struct_defs resolver) (si_def si) /\ si_type_parameters si < length (View.signatures resolver).
Proof. intros Hwb. apply (table_Forall (fun si => _ /\ _) _ _ _ (wb_struct_instantiations _ Hwb)). Qed.

Lemma function_instantiation_at_bounded idx fi : WellBounded resolver -> View.function_instantiation_at resolver idx = Ok fi ->
  fi_handle fi < length (View.function_handles resolver) /\ fi_type_parameters fi < length (View.signatures resolver).
Proof.
  intros Hwb Hfi%index_Ok. pose proof (wb_function_instantiations _ Hwb) as H. rewrite Forall_lookup in H. by apply (H _ _ Hfi).
Qed.

Lemma function_handle_at_bounded idx fh : WellBounded resolver -> View.function_handle_at resolver idx = Ok fh -> function_handle_bounded resolver fh.
Proof. intros Hwb Hfh%function_handle_at_Ok; [|done]. pose proof (wb_function_handles _ Hwb) as H. rewrite Forall_lookup in H. by apply (H _ _ Hfh). Qed.

Lemma signature_at_bounded idx sig : WellBounded resolver -> View.signature_at resolver idx = Ok sig -> Forall (type_bounded resolver) sig.
Proof. intros Hwb Hs%index_Ok. pose proof (wb_signatures _ Hwb) as H. rewrite Forall_lookup in H. by apply (H _ _ Hs). Qed.

Lemma struct_def_handle_settles sd : WellBounded resolver -> struct_def_bounded resolver sd -> settles (View.struct_handle_at resolver (sd_struct_handle sd)).
Proof. intros Hwb (sh & Hsh & _). apply struct_handle_settles; [done|]. by eapply lookup_lt_Some. Qed.

Lemma struct_instantiation_bounded idx si : WellBounded resolver -> View.struct_instantiation_at resolver idx = Ok si ->
  in_table (View.struct_defs resolver) (si_def si).
Proof.
  intros Hwb Hsi. pose proof (wb_struct_instantiations _ Hwb) as H. unfold View.struct_instantiation_at, View.only_in_module in Hsi.
  destruct (View.struct_instantiations resolver) as [l|]; [|done]. vm_inv. cbn in H. rewrite Forall_lookup in H. by eapply H.
Qed.
End Lookups.

(** ** A module of one function *)

(** [fun f(x: u64)] with a body. *)
Definition one_handle : FunctionHandle :=
  {| fh_module := 0; fh_name := 0; fh_parameters := 1; fh_return := 0; fh_type_parameters := [] |}.

Definition one_body (code : list Bytecode) : CodeUnit := {| cu_locals := 0; cu_code := code |}.

Definition one_definition (code : list Bytecode) : FunctionDefinition :=
  {| fn_function := 0; fn_visibility := Public; fn_is_entry := false; fn_acquires_global_resources := []; fn_code := Some (one_body code) |}.

Definition one_function (code : list Bytecode) : CompiledModule :=
  empty_module <| cm_signatures := [[]; [SignatureToken.U64]] |> <| cm_function_handles := [one_handle] |>
    <| cm_function_defs := [one_definition code] |>.

(** Its view, computed. *)
Definition view_of (code : list Bytecode) : FunctionView :=
  match Cfg.function (one_function code) 0 (one_body code) one_handle with
  | Ok view => view
  | _ => {| fv_index := None; fv_code := one_body []; fv_parameters := []; fv_return := []; fv_locals := [];
            fv_type_parameters := []; fv_cfg := {| blocks_map := ∅; traversal_successors := ∅; loop_heads := ∅ |} |}
  end.

Lemma view_of_eq code : is_Ok (Cfg.function (one_function code) 0 (one_body code) one_handle) = true ->
  Cfg.function (one_function code) 0 (one_body code) one_handle = Ok (view_of code).
Proof. unfold view_of. by destruct (Cfg.function _ _ _ _). Qed.

(** ** A generic module *)

(** [struct Box<T: store> has store { x: T }] and
    [fun f<T: store>(x: T): Box<T> { Box { x } }]. *)
Definition store_only : AbilitySet := Ability.to_u8 Ability.Store.

Definition box_code : list Bytecode := [Bytecode.MoveLoc 0; Bytecode.PackGeneric 0; Bytecode.Ret].

Definition box_handle : FunctionHandle :=
  {| fh_module := 0; fh_name := 0; fh_parameters := 1; fh_return := 2; fh_type_parameters := [store_only] |}.

Definition box_definition : FunctionDefinition :=
  {| fn_function := 0; fn_visibility := Public; fn_is_entry := false; fn_acquires_global_resources := []; fn_code := Some (one_body box_code) |}.

Definition box_module : CompiledModule :=
  empty_module <| cm_signatures := [[]; [SignatureToken.TypeParameter 0]; [SignatureToken.StructInstantiation 0 [SignatureToken.TypeParameter 0]]] |>
    <| cm_struct_handles := [{| sh_module := 0; sh_name := 0; sh_abilities := store_only;
                                sh_type_parameters := [{| tp_constraints := store_only; is_phantom := false |}] |}] |>
    <| cm_struct_defs := [{| sd_struct_handle := 0; field_information := Declared [{| fd_name := 0; fd_signature := SignatureToken.TypeParameter 0 |}] |}] |>
    <| struct_def_instantiations := [{| si_def := 0; si_type_parameters := 1 |}] |>
    <| cm_function_handles := [box_handle] |> <| cm_function_defs := [box_definition] |>.
End FunctionViews.
