(* ===== verification/MoveSignatures.v ===== *)
(** The signature checker of the Move verifier: signature.rs of
    external/move/move-bytecode-verifier.

    The checker looks at every type a module mentions: references occur only at
    the top of a signature, generic structures get arguments that satisfy the
    constraints of their parameters, and phantom parameters are used in phantom
    positions only. The theorems give the declarative meaning of its verdict on
    a module that passed the bounds checker, and show that it has one. *)

From stdpp Require Import list.
From S2P Require Import Prelude MoveFormat MoveBounds MoveFunction.

Module Signatures.
Import Bounds.

Definition VERSION_6 : Z := 6.

(** [StructHandle::type_param_constraints]. *)
Definition type_param_constraints (sh : StructHandle) : list AbilitySet := map tp_constraints (sh_type_parameters sh).

Section Checker.
Context (resolver : BinaryIndexedView).

Fixpoint check_phantom_params (ty : SignatureToken) (is_phantom_pos : bool) (type_parameters : list StructTypeParameter) {struct ty} : vm () :=
  match ty with
  | SignatureToken.Vector ty => check_phantom_params ty false type_parameters
  | SignatureToken.StructInstantiation idx type_arguments =>
    sh ← View.struct_handle_at resolver idx;
    (fix go (i : nat) (l : list SignatureToken) : vm () :=
       match l with
       | [] => Ok ()
       | ty :: r =>
         p ← index (sh_type_parameters sh) i;
         _ ← check_phantom_params ty (is_phantom p) type_parameters;
         go (S i) r
       end) 0 type_arguments
  | SignatureToken.TypeParameter idx =>
    p ← index type_parameters idx;
    if is_phantom p && negb is_phantom_pos then Err (error_new StatusCode.INVALID_PHANTOM_TYPE_PARAM_POSITION) else Ok ()
  | _ => Ok ()
  end.

(** No references are permitted. *)
Fixpoint check_signature_token (ty : SignatureToken) : vm () :=
  match ty with
  | SignatureToken.Reference _ | SignatureToken.MutableReference _ => Err (error_new StatusCode.INVALID_SIGNATURE_TOKEN)
  | SignatureToken.Vector ty => check_signature_token ty
  | SignatureToken.StructInstantiation _ type_arguments => vfor check_signature_token type_arguments
  | _ => Ok ()
  end.

Definition check_signature_tokens (tys : list SignatureToken) : vm () := vfor check_signature_token tys.

(** References are only permitted at the top level. *)
Definition check_signature (idx : nat) : vm () :=
  sig ← View.signature_at resolver idx;
  vfor (fun token =>
    match token with
    | SignatureToken.Reference inner | SignatureToken.MutableReference inner => check_signature_token inner
    | _ => check_signature_token token
    end) sig.

Definition check_generic_instance (type_arguments : list SignatureToken) (constraints global_abilities : list AbilitySet) : vm () :=
  if bool_decide (length type_arguments <> length constraints) then Err (error_new StatusCode.NUMBER_OF_TYPE_ARGUMENTS_MISMATCH) else
  vfor (fun p : AbilitySet * SignatureToken =>
    given ← View.abilities resolver p.2 global_abilities;
    if negb (AbilitySet.is_subset p.1 given) then Err (error_new StatusCode.CONSTRAINT_NOT_SATISFIED) else Ok ())
    (zip constraints type_arguments).

Definition check_type_instantiation_ (type_parameters : list AbilitySet) (s : SignatureToken) : vm () :=
  match s with
  | SignatureToken.StructInstantiation idx type_arguments =>
    sh ← View.struct_handle_at resolver idx;
    check_generic_instance type_arguments (type_param_constraints sh) type_parameters
  | _ => Ok ()
  end.

Definition check_type_instantiation (type_parameters : list AbilitySet) (s : SignatureToken) : vm () :=
  if (VERSION_6 <=? View.version resolver)%Z
  then vfor (check_type_instantiation_ type_parameters) (SignatureToken.preorder_traversal s)
  else check_type_instantiation_ type_parameters s.

Definition check_instantiation (idx : nat) (type_parameters : list AbilitySet) : vm () :=
  sig ← View.signature_at resolver idx;
  vfor (check_type_instantiation type_parameters) sig.

(** One instruction of [verify_code]. *)
Definition check_type_actuals (type_parameters : list AbilitySet) (instr : Bytecode) : vm () :=
  match instr with
  | Bytecode.CallGeneric idx =>
    func_inst ← View.function_instantiation_at resolver idx;
    func_handle ← View.function_handle_at resolver (fi_handle func_inst);
    type_arguments ← View.signature_at resolver (fi_type_parameters func_inst);
    _ ← check_signature_tokens type_arguments;
    check_generic_instance type_arguments (fh_type_parameters func_handle) type_parameters
  | Bytecode.PackGeneric idx | Bytecode.UnpackGeneric idx | Bytecode.ExistsGeneric idx | Bytecode.MoveFromGeneric idx
  | Bytecode.MoveToGeneric idx | Bytecode.ImmBorrowGlobalGeneric idx | Bytecode.MutBorrowGlobalGeneric idx =>
    struct_inst ← View.struct_instantiation_at resolver idx;
    struct_def ← View.struct_def_at resolver (si_def struct_inst);
    struct_handle ← View.struct_handle_at resolver (sd_struct_handle struct_def);
    type_arguments ← View.signature_at resolver (si_type_parameters struct_inst);
    _ ← check_signature_tokens type_arguments;
    check_generic_instance type_arguments (type_param_constraints struct_handle) type_parameters
  | Bytecode.ImmBorrowFieldGeneric idx | Bytecode.MutBorrowFieldGeneric idx =>
    field_inst ← View.field_instantiation_at resolver idx;
    field_handle ← View.field_handle_at resolver (fdi_handle field_inst);
    struct_def ← View.struct_def_at resolver (fld_owner field_handle);
    struct_handle ← View.struct_handle_at resolver (sd_struct_handle struct_def);
    type_arguments ← View.signature_at resolver (fdi_type_parameters field_inst);
    _ ← check_signature_tokens type_arguments;
    check_generic_instance type_arguments (type_param_constraints struct_handle) type_parameters
  | Bytecode.VecPack idx _ | Bytecode.VecLen idx | Bytecode.VecImmBorrow idx | Bytecode.VecMutBorrow idx
  | Bytecode.VecPushBack idx | Bytecode.VecPopBack idx | Bytecode.VecUnpack idx _ | Bytecode.VecSwap idx =>
    type_arguments ← View.signature_at resolver idx;
    if bool_decide (length type_arguments <> 1) then Err (error_new StatusCode.NUMBER_OF_TYPE_ARGUMENTS_MISMATCH)
    else check_signature_tokens type_arguments
  | _ => Ok ()
  end.

Definition verify_code (code : CodeUnit) (type_parameters : list AbilitySet) : vm () :=
  _ ← check_signature (cu_locals code);
  _ ← check_instantiation (cu_locals code) type_parameters;
  vfor (check_type_actuals type_parameters) (cu_code code).

Definition verify_code_unit (p : nat * FunctionDefinition) : vm () :=
  let '(func_def_idx, func_def) := p in
  match fn_code func_def with
  | None => Ok ()
  | Some code =>
    func_handle ← View.function_handle_at resolver (fn_function func_def);
    map_err (fun err => at_index (at_index err IndexKind.Signature (cu_locals code)) IndexKind.FunctionDefinition (u16 func_def_idx))
      (verify_code code (fh_type_parameters func_handle))
  end.

Definition verify_code_units (function_defs : list FunctionDefinition) : vm () := vfor verify_code_unit (imap pair function_defs).

Definition verify_field (struct_handle : StructHandle) (struct_def_idx : nat) (p : nat * FieldDefinition) : vm () :=
  let '(field_offset, field_def) := p in
  let err_handler err := at_index (at_index err IndexKind.FieldDefinition (u16 field_offset)) IndexKind.StructDefinition (u16 struct_def_idx) in
  _ ← map_err err_handler (check_signature_token (fd_signature field_def));
  _ ← map_err err_handler (check_type_instantiation (type_param_constraints struct_handle) (fd_signature field_def));
  map_err err_handler (check_phantom_params (fd_signature field_def) false (sh_type_parameters struct_handle)).

Definition verify_struct_fields (p : nat * StructDefinition) : vm () :=
  let '(struct_def_idx, struct_def) := p in
  match field_information struct_def with
  | Native => Ok ()
  | Declared fields =>
    struct_handle ← View.struct_handle_at resolver (sd_struct_handle struct_def);
    vfor (verify_field struct_handle struct_def_idx) (imap pair fields)
  end.

Definition verify_fields (struct_defs : list StructDefinition) : vm () := vfor verify_struct_fields (imap pair struct_defs).

Definition verify_function_signature (p : nat * FunctionHandle) : vm () :=
  let '(idx, fh) := p in
  let err_handler err := at_index (at_index err IndexKind.Signature (u16 idx)) IndexKind.FunctionHandle (u16 idx) in
  _ ← map_err err_handler (check_signature (fh_return fh));
  _ ← map_err err_handler (check_instantiation (fh_return fh) (fh_type_parameters fh));
  _ ← map_err err_handler (check_signature (fh_parameters fh));
  map_err err_handler (check_instantiation (fh_parameters fh) (fh_type_parameters fh)).

Definition verify_function_signatures (function_handles : list FunctionHandle) : vm () :=
  vfor verify_function_signature (imap pair function_handles).

Definition verify_signature_pool (signatures : list Signature) : vm () :=
  vfor (fun i => check_signature (u16 i)) (seq 0 (length signatures)).
End Checker.

Definition verify_module (module : CompiledModule) : vm () :=
  let resolver := View.Module_ module in
  _ ← verify_signature_pool resolver (cm_signatures module);
  _ ← verify_function_signatures resolver (cm_function_handles module);
  _ ← verify_fields resolver (cm_struct_defs module);
  verify_code_units resolver (cm_function_defs module).

Definition verify_script (script : CompiledScript) : vm () :=
  let resolver := View.Script script in
  _ ← verify_signature_pool resolver (cs_signatures script);
  _ ← verify_function_signatures resolver (cs_function_handles script);
  _ ← check_instantiation resolver (cs_parameters script) (cs_type_parameters script);
  verify_code resolver (cs_code script) (cs_type_parameters script).

(** ** What it decides *)

Section Spec.
Context (resolver : BinaryIndexedView).

Fixpoint ref_free (ty : SignatureToken) : Prop :=
  match ty with
  | SignatureToken.Reference _ | SignatureToken.MutableReference _ => False
  | SignatureToken.Vector ty => ref_free ty
  | SignatureToken.StructInstantiation _ ts => foldr (fun t acc => ref_free t /\ acc) True ts
  | _ => True
  end.

(** References at the top only. *)
Definition shallow_refs (ty : SignatureToken) : Prop :=
  match ty with
  | SignatureToken.Reference inner | SignatureToken.MutableReference inner => ref_free inner
  | _ => ref_free ty
  end.

(** Every argument has the abilities its parameter asks for. *)
Definition satisfies (global : list AbilitySet) (constraint : AbilitySet) (ty : SignatureToken) : Prop :=
  exists given, View.abilities resolver ty global = Ok given /\ AbilitySet.is_subset constraint given = true.

Definition instance_ok (args : list SignatureToken) (constraints global : list AbilitySet) : Prop :=
  Forall2 (satisfies global) constraints args.

Definition node_ok (global : list AbilitySet) (ty : SignatureToken) : Prop :=
  match ty with
  | SignatureToken.StructInstantiation idx args =>
    forall sh, View.struct_handles resolver !! idx = Some sh -> instance_ok args (type_param_constraints sh) global
  | _ => True
  end.

(** The instances in a type satisfy their constraints; before version 6 only
    the type itself is looked at. *)
Definition instances_ok (global : list AbilitySet) (ty : SignatureToken) : Prop :=
  if (VERSION_6 <=? View.version resolver)%Z then Forall (node_ok global) (FormatSafety.preorder ty) else node_ok global ty.

(** [occurs pos ty i pos']: in [ty], itself in a phantom position if [pos], the
    type parameter [i] is used in a position that is phantom if [pos']. *)
Inductive occurs : bool -> SignatureToken -> nat -> bool -> Prop :=
| occurs_param pos i : occurs pos (SignatureToken.TypeParameter i) i pos
| occurs_vector pos ty i pos' : occurs false ty i pos' -> occurs pos (SignatureToken.Vector ty) i pos'
| occurs_instance pos idx sh ts k tp ty i pos' :
    View.struct_handles resolver !! idx = Some sh -> sh_type_parameters sh !! k = Some tp -> ts !! k = Some ty ->
    occurs (is_phantom tp) ty i pos' -> occurs pos (SignatureToken.StructInstantiation idx ts) i pos'.

Definition phantom_ok (tps : list StructTypeParameter) (pos : bool) (ty : SignatureToken) : Prop :=
  forall i tp pos', occurs pos ty i pos' -> tps !! i = Some tp -> is_phantom tp = true -> pos' = true.

Context (Hwb : WellBounded resolver).

Lemma check_signature_token_decides ty : decides (check_signature_token ty) (ref_free ty).
Proof.
  induction ty as [| | | | | |t IH|idx|idx ts IH|t IH|t IH|idx| | |] using SignatureToken.token_ind; cbn; try apply decides_true; try done.
  rewrite Forall_forall in IH. eapply decides_iff; [by apply decides_vfor|]. by rewrite foldr_and_Forall.
Qed.

Lemma Forall_zip_Forall2 {A B} (P : A -> B -> Prop) (l : list A) (k : list B) :
  length l = length k -> Forall (fun p => P p.1 p.2) (zip l k) <-> Forall2 P l k.
Proof.
  revert k. induction l as [|x r IH]; intros [|y k] Hlen; cbn in *; try done.
  rewrite Forall_cons, Forall2_cons, IH by lia. done.
Qed.

Lemma check_generic_instance_decides args constraints global :
  Forall (type_bounded resolver) args -> Forall (params_bounded (length global)) args ->
  decides (check_generic_instance resolver args constraints global) (instance_ok args constraints global).
Proof.
  intros Ht Hp. unfold check_generic_instance, instance_ok. case_bool_decide as Hlen.
  { split; [apply settles_Err|]. split; [done|]. intros H%Forall2_length. lia. }
  assert (length constraints = length args) as Hl by lia.
  eapply decides_iff; [apply (decides_vfor _ (fun p => satisfies global p.1 p.2))|by apply Forall_zip_Forall2].
  intros [c ty] Hty%elem_of_zip_r. cbn [fst snd]. rewrite Forall_forall in Ht, Hp.
  destruct (FunctionViews.abilities_total resolver ty global) as [given Hg]; [auto..|].
  eapply decides_step; [exact Hg|]. eapply decides_iff; [apply decides_guard|]. rewrite negb_false_iff. unfold satisfies.
  split; [eauto|]. intros (g & Hg' & Hs). rewrite Hg in Hg'. by injection Hg' as <-.
Qed.

(** The nodes of a bounded type are bounded. *)
Lemma preorder_Forall (P : SignatureToken -> Prop) ty :
  (forall t, P (SignatureToken.Vector t) -> P t) -> (forall t, P (SignatureToken.Reference t) -> P t) ->
  (forall t, P (SignatureToken.MutableReference t) -> P t) -> (forall idx ts, P (SignatureToken.StructInstantiation idx ts) -> Forall P ts) ->
  P ty -> Forall P (FormatSafety.preorder ty).
Proof.
  intros Hv Hr Hm Hs. induction ty as [| | | | | |t IH|idx|idx ts IH|t IH|t IH|idx| | |] using SignatureToken.token_ind;
    cbn; intros HP; (constructor; [done|]); auto.
  apply Forall_concat, Forall_map. pose proof (Hs _ _ HP) as Hts. rewrite Forall_forall in *. auto.
Qed.

Lemma check_type_instantiation_node ty global :
  type_bounded resolver ty -> params_bounded (length global) ty ->
  decides (check_type_instantiation_ resolver global ty) (node_ok global ty).
Proof.
  intros Ht Hp. destruct ty; cbn in *; try apply decides_true.
  destruct Ht as [(sh & Hsh & _) Hts]. rewrite foldr_and_Forall in Hts, Hp.
  eapply decides_step; [by apply FunctionViews.struct_handle_at_Ok|]. eapply decides_iff; [by apply check_generic_instance_decides|].
  rewrite Hsh. naive_solver.
Qed.

Lemma check_type_instantiation_decides ty global :
  type_bounded resolver ty -> params_bounded (length global) ty ->
  decides (check_type_instantiation resolver global ty) (instances_ok global ty).
Proof.
  intros Ht Hp. unfold check_type_instantiation, instances_ok. destruct (_ <=? _)%Z; [|by apply check_type_instantiation_node].
  rewrite FormatSafety.preorder_traversal_spec. apply decides_vfor. intros t Hin.
  assert (Forall (fun t => type_bounded resolver t /\ params_bounded (length global) t) (FormatSafety.preorder ty)) as Hall.
  { apply preorder_Forall; cbn; auto. intros idx ts. rewrite !foldr_and_Forall, !Forall_forall. naive_solver. }
  rewrite Forall_forall in Hall. destruct (Hall t Hin). by apply check_type_instantiation_node.
Qed.

Lemma check_phantom_params_decides tps ty pos :
  type_bounded resolver ty -> params_bounded (length tps) ty ->
  decides (check_phantom_params resolver ty pos tps) (phantom_ok tps pos ty).
Proof.
  revert pos. induction ty as [| | | | | |t IH|idx|idx ts IH|t IH|t IH|idx| | |] using SignatureToken.token_ind; intros pos Ht Hp;
    try (eapply decides_iff; [apply decides_true|]; split; [|done]; intros _ i tp pos' Hocc; by inversion Hocc); cbn in Ht, Hp.
  - cbn. eapply decides_iff; [by apply IH|]. split; intros H i tp pos' Hocc; [inversion Hocc; subst; by eapply H|eapply H; by constructor].
  - destruct Ht as [(sh & Hsh & Hlen) Hts]. rewrite foldr_and_Forall in Hts, Hp.
    cbn. eapply decides_step; [by apply FunctionViews.struct_handle_at_Ok|]. eapply decides_iff.
    { instantiate (1 := forall k t tp, sh_type_parameters sh !! (0 + k) = Some tp -> ts !! k = Some t -> phantom_ok tps (is_phantom tp) t).
      assert (0 + length ts <= length (sh_type_parameters sh)) as Hle by lia. clear Hlen.
      revert Hle. generalize 0 as i. induction ts as [|t r IHts]; intros i Hle; cbn in *.
      - eapply decides_iff; [apply decides_true|]. split; [|done]. done.
      - inversion IH; inversion Hts; inversion Hp; subst.
        destruct (lookup_lt_is_Some_2 (sh_type_parameters sh) i) as [p Hip]; [lia|].
        eapply decides_step; [by apply index_Ok|].
        eapply decides_iff; [apply decides_seq; [auto|intros _; apply IHts; auto; lia]|]. split.
        + intros [H0 Hr] [|k] t' tp Hk Ht'; cbn in Ht'; [rewrite Nat.add_0_r in Hk; by simplify_eq|].
          eapply Hr; [|done]. by replace (S i + k) with (i + S k) by lia.
        + intros H. split; [by apply (H 0); [rewrite Nat.add_0_r|]|]. intros k t' tp Hk Ht'. apply (H (S k)); [|done].
          by replace (i + S k) with (S i + k) by lia. }
    cbn. split.
    + intros H i tp pos' Hocc. inversion Hocc; subst. simplify_eq. by eapply H.
    + intros H k t tp Hk Htk i tp' pos' Hocc. eapply H. by econstructor.
  - cbn. destruct (lookup_lt_is_Some_2 tps idx Hp) as [p Hip]. eapply decides_step; [by apply index_Ok|].
    eapply decides_iff; [apply decides_guard|]. rewrite andb_false_iff, negb_false_iff. split.
    + intros [H|H] i tp pos' Hocc; inversion Hocc; subst; intros; congruence.
    + intros H. destruct (is_phantom p) eqn:Hph; [|by left]. right. eapply H; [constructor|done|done].
Qed.

(** A property of the types of a signature. *)
Definition sig_ok (idx : nat) (P : SignatureToken -> Prop) : Prop := exists sig, View.signature_at resolver idx = Ok sig /\ Forall P sig.

Definition generic_args (args_idx : nat) (constraints global : list AbilitySet) : Prop :=
  exists args, View.signature_at resolver args_idx = Ok args /\ Forall ref_free args /\ instance_ok args constraints global.

Definition struct_args (def_idx args_idx : nat) (global : list AbilitySet) : Prop :=
  exists sd, View.struct_def_at resolver def_idx = Ok sd /\
  exists sh, View.struct_handle_at resolver (sd_struct_handle sd) = Ok sh /\ generic_args args_idx (type_param_constraints sh) global.

(** The type arguments an instruction names are plain types that satisfy the
    constraints of what it instantiates; a vector instruction names one. *)
Definition actuals_ok (global : list AbilitySet) (instr : Bytecode) : Prop :=
  match instr with
  | Bytecode.CallGeneric idx =>
    exists fi, View.function_instantiation_at resolver idx = Ok fi /\
    exists fh, View.function_handle_at resolver (fi_handle fi) = Ok fh /\ generic_args (fi_type_parameters fi) (fh_type_parameters fh) global
  | Bytecode.PackGeneric idx | Bytecode.UnpackGeneric idx | Bytecode.ExistsGeneric idx | Bytecode.MoveFromGeneric idx
  | Bytecode.MoveToGeneric idx | Bytecode.ImmBorrowGlobalGeneric idx | Bytecode.MutBorrowGlobalGeneric idx =>
    exists si, View.struct_instantiation_at resolver idx = Ok si /\ struct_args (si_def si) (si_type_parameters si) global
  | Bytecode.ImmBorrowFieldGeneric idx | Bytecode.MutBorrowFieldGeneric idx =>
    exists fi, View.field_instantiation_at resolver idx = Ok fi /\
    exists fh, View.field_handle_at resolver (fdi_handle fi) = Ok fh /\ struct_args (fld_owner fh) (fdi_type_parameters fi) global
  | Bytecode.VecPack idx _ | Bytecode.VecLen idx | Bytecode.VecImmBorrow idx | Bytecode.VecMutBorrow idx
  | Bytecode.VecPushBack idx | Bytecode.VecPopBack idx | Bytecode.VecUnpack idx _ | Bytecode.VecSwap idx =>
    exists args, View.signature_at resolver idx = Ok args /\ length args = 1 /\ Forall ref_free args
  | _ => True
  end.

Definition code_ok (global : list AbilitySet) (code : CodeUnit) : Prop :=
  sig_ok (cu_locals code) shallow_refs /\ sig_ok (cu_locals code) (instances_ok global) /\ Forall (actuals_ok global) (cu_code code).

Definition function_handle_ok (fh : FunctionHandle) : Prop :=
  sig_ok (fh_return fh) shallow_refs /\ sig_ok (fh_return fh) (instances_ok (fh_type_parameters fh)) /\
  sig_ok (fh_parameters fh) shallow_refs /\ sig_ok (fh_parameters fh) (instances_ok (fh_type_parameters fh)).

Definition field_ok (sh : StructHandle) (fd : FieldDefinition) : Prop :=
  ref_free (fd_signature fd) /\ instances_ok (type_param_constraints sh) (fd_signature fd) /\
  phantom_ok (sh_type_parameters sh) false (fd_signature fd).

Definition struct_def_ok (sd : StructDefinition) : Prop :=
  match field_information sd with
  | Native => True
  | Declared fields => exists sh, View.struct_handle_at resolver (sd_struct_handle sd) = Ok sh /\ Forall (field_ok sh) fields
  end.

Definition function_def_ok (fd : FunctionDefinition) : Prop :=
  match fn_code fd with
  | None => True
  | Some code => exists fh, View.function_handle_at resolver (fn_function fd) = Ok fh /\ code_ok (fh_type_parameters fh) code
  end.

Lemma signature_settles idx : idx < length (View.signatures resolver) -> settles (View.signature_at resolver idx).
Proof. apply settles_index. Qed.

Lemma check_signature_decides idx : idx < length (View.signatures resolver) -> decides (check_signature resolver idx) (sig_ok idx shallow_refs).
Proof.
  intros Hlt. apply decides_lookup; [by apply signature_settles|]. intros sig _. apply decides_vfor. intros ty _.
  unfold shallow_refs. destruct ty; apply check_signature_token_decides.
Qed.

Lemma check_instantiation_decides idx global :
  idx < length (View.signatures resolver) -> params_at resolver idx (length global) ->
  decides (check_instantiation resolver idx global) (sig_ok idx (instances_ok global)).
Proof.
  intros Hlt Hp. apply decides_lookup; [by apply signature_settles|]. intros sig Hsig.
  pose proof (FunctionViews.signature_at_bounded _ _ _ Hwb Hsig) as Ht. apply index_Ok in Hsig. specialize (Hp _ Hsig).
  rewrite Forall_forall in Ht, Hp. apply decides_vfor. intros ty Hty. apply check_type_instantiation_decides; auto.
Qed.

Lemma generic_args_decides args_idx constraints global :
  args_idx < length (View.signatures resolver) -> params_at resolver args_idx (length global) ->
  decides (type_arguments ← View.signature_at resolver args_idx; _ ← check_signature_tokens type_arguments;
           check_generic_instance resolver type_arguments constraints global) (generic_args args_idx constraints global).
Proof.
  intros Hlt Hp. apply decides_lookup; [by apply signature_settles|]. intros args Hargs.
  pose proof (FunctionViews.signature_at_bounded _ _ _ Hwb Hargs) as Ht. apply index_Ok in Hargs. specialize (Hp _ Hargs).
  apply decides_seq; [apply decides_vfor; intros; apply check_signature_token_decides|]. intros _. by apply check_generic_instance_decides.
Qed.

Lemma struct_args_decides def_idx args_idx global :
  in_table (View.struct_defs resolver) def_idx -> args_idx < length (View.signatures resolver) -> params_at resolver args_idx (length global) ->
  decides (struct_def ← View.struct_def_at resolver def_idx; struct_handle ← View.struct_handle_at resolver (sd_struct_handle struct_def);
           type_arguments ← View.signature_at resolver args_idx; _ ← check_signature_tokens type_arguments;
           check_generic_instance resolver type_arguments (type_param_constraints struct_handle) global) (struct_args def_idx args_idx global).
Proof.
  intros Hd Hlt Hp. apply decides_lookup; [by apply FunctionViews.settles_table|]. intros sd Hsd.
  apply decides_lookup; [by eapply FunctionViews.struct_def_handle_settles, FunctionViews.struct_def_at_bounded|]. intros sh _. by apply generic_args_decides.
Qed.

Lemma vector_args_decides idx :
  idx < length (View.signatures resolver) ->
  decides (type_arguments ← View.signature_at resolver idx;
    if bool_decide (length type_arguments <> 1) then Err (error_new StatusCode.NUMBER_OF_TYPE_ARGUMENTS_MISMATCH)
    else check_signature_tokens type_arguments)
    (exists args, View.signature_at resolver idx = Ok args /\ length args = 1 /\ Forall ref_free args).
Proof.
  intros Hlt. apply decides_lookup; [by apply signature_settles|]. intros args _. case_bool_decide as Hlen.
  - split; [apply settles_Err|]. naive_solver.
  - eapply decides_iff; [apply decides_vfor; intros; apply check_signature_token_decides|]. naive_solver lia.
Qed.

Lemma table_value {A} (table : option (list A)) idx a : View.only_in_module table idx = Ok a <-> table ≫= (.!! idx) = Some a.
Proof. destruct table; cbn; [apply index_Ok|naive_solver]. Qed.

Lemma check_type_actuals_decides global lc cl instr :
  instr_bounded resolver (length global) lc cl instr -> decides (check_type_actuals resolver global instr) (actuals_ok global instr).
Proof.
  intros Hb. destruct instr; cbn [check_type_actuals actuals_ok instr_bounded] in *;
    lazymatch goal with
    | |- decides (Ok ()) True => apply decides_true
    | |- decides (_ ← View.signature_at _ _; _) _ => apply vector_args_decides; apply Hb
    | |- decides (_ ← View.struct_instantiation_at _ _; _) _ =>
      destruct Hb as [Hi Hp]; (apply decides_lookup; [by apply FunctionViews.settles_table|]); intros si Hsi;
      destruct (FunctionViews.struct_instantiation_at_bounded _ _ _ Hwb Hsi); apply struct_args_decides; [done..|]; apply Hp; by apply table_value
    | |- decides (_ ← View.field_instantiation_at _ _; _) _ =>
      destruct Hb as [Hi Hp]; (apply decides_lookup; [by apply FunctionViews.settles_table|]); intros fi Hfi;
      destruct (FunctionViews.field_instantiation_at_bounded _ _ _ Hwb Hfi);
      (apply decides_lookup; [by apply FunctionViews.field_handle_settles|]); intros fh Hfh;
      destruct (FunctionViews.field_handle_at_bounded _ _ _ Hwb Hfh); apply struct_args_decides; [done..|]; apply Hp; by apply table_value
    | |- _ =>
      destruct Hb as [Hi Hp]; (apply decides_lookup; [by apply settles_index|]); intros fi Hfi;
      destruct (FunctionViews.function_instantiation_at_bounded _ _ _ Hwb Hfi);
      (apply decides_lookup; [by apply FunctionViews.function_handle_settles|]); intros fh Hfh; apply generic_args_decides; [done|]; apply Hp; by apply index_Ok
    end.
Qed.

Lemma verify_code_decides code global num_parameters :
  code_bounded resolver code (length global) num_parameters -> decides (verify_code resolver code global) (code_ok global code).
Proof.
  intros (locals & Hl & _ & Hp & Hin). assert (cu_locals code < length (View.signatures resolver)) as Hlt by by eapply lookup_lt_Some.
  apply decides_seq; [by apply check_signature_decides|]. intros _.
  apply decides_seq; [apply check_instantiation_decides; [done|]; by intros sig ?; simplify_eq|]. intros _.
  apply decides_vfor. intros instr Hi. rewrite Forall_forall in Hin. by eapply check_type_actuals_decides, Hin.
Qed.

Lemma verify_code_unit_decides i fd : function_def_bounded resolver fd -> decides (verify_code_unit resolver (i, fd)) (function_def_ok fd).
Proof.
  intros (fh & Hfh & _ & Hc). unfold verify_code_unit, function_def_ok. destruct (fn_code fd) as [code|]; [|apply decides_true].
  destruct Hc as (parameters & _ & Hc).
  apply decides_lookup; [apply FunctionViews.function_handle_settles; [done|]; by eapply lookup_lt_Some|].
  intros fh' Hfh'%FunctionViews.function_handle_at_Ok; [|done]. simplify_eq.
  by eapply decides_map_err, verify_code_decides.
Qed.

Lemma verify_struct_fields_decides i sd : struct_def_bounded resolver sd -> decides (verify_struct_fields resolver (i, sd)) (struct_def_ok sd).
Proof.
  intros (sh & Hsh & Hf). unfold verify_struct_fields, struct_def_ok. destruct (field_information sd) as [|fields]; [apply decides_true|].
  apply decides_lookup; [apply FunctionViews.struct_handle_settles; [done|]; by eapply lookup_lt_Some|].
  intros sh' Hsh'%FunctionViews.struct_handle_at_Ok; [|done]. simplify_eq.
  apply decides_imap. intros k fd Hfd. rewrite Forall_lookup in Hf. destruct (Hf _ _ Hfd) as (_ & Ht & Hp).
  repeat (apply decides_seq; [apply decides_map_err|intros _]); [apply check_signature_token_decides|..].
  - apply check_type_instantiation_decides; [done|]. unfold type_param_constraints. by rewrite length_map.
  - by apply decides_map_err, check_phantom_params_decides.
Qed.

Lemma verify_function_signature_decides i fh :
  function_handle_bounded resolver fh -> decides (verify_function_signature resolver (i, fh)) (function_handle_ok fh).
Proof.
  intros (_ & _ & Hlp & Hlr & Hp & Hr). unfold verify_function_signature, function_handle_ok.
  repeat (apply decides_seq; [apply decides_map_err|intros _]);
    try (by apply check_signature_decides); [by apply check_instantiation_decides|].
  by apply decides_map_err, check_instantiation_decides.
Qed.

Lemma verify_signature_pool_decides :
  (Z.of_nat (length (View.signatures resolver)) <= 65536)%Z ->
  decides (verify_signature_pool resolver (View.signatures resolver)) (Forall (Forall shallow_refs) (View.signatures resolver)).
Proof.
  intros Hlen. eapply decides_iff.
  - apply (decides_vfor _ (fun i => sig_ok i shallow_refs)). intros i Hi%elem_of_seq. rewrite u16_small by lia. apply check_signature_decides. lia.
  - rewrite Forall_forall, Forall_lookup. split.
    + intros H i sig Hs. destruct (H i) as (sig' & Hs'%index_Ok & Hf); [apply elem_of_seq; apply lookup_lt_Some in Hs; lia|]. by simplify_eq.
    + intros H i Hi%elem_of_seq. destruct (lookup_lt_is_Some_2 (View.signatures resolver) i) as [sig Hs]; [lia|].
      exists sig. split; [by apply index_Ok|]. by eapply H.
Qed.
End Spec.

Lemma signatures_verify_decides module :
  Bounds.verify_module module = Ok () -> (Z.of_nat (length (cm_signatures module)) <= 65536)%Z ->
  let resolver := View.Module_ module in
  decides (verify_module module)
    (Forall (Forall shallow_refs) (cm_signatures module) /\ Forall (function_handle_ok resolver) (cm_function_handles module) /\
     Forall (struct_def_ok resolver) (cm_struct_defs module) /\ Forall (function_def_ok resolver) (cm_function_defs module)).
Proof.
  intros [_ Hwb]%verify_module_Ok Hlen resolver. unfold verify_module. fold resolver in Hwb |- *.
  apply decides_seq; [by apply (verify_signature_pool_decides resolver)|]. intros _.
  apply decides_seq; [|intros _; apply decides_seq; [|intros _]]; apply decides_imap; intros i x Hx.
  - apply verify_function_signature_decides; [done|]. pose proof (wb_function_handles _ Hwb) as H. rewrite Forall_lookup in H. by eapply H.
  - apply verify_struct_fields_decides; [done|]. pose proof (wb_struct_defs _ Hwb) as H. rewrite Forall_lookup in H. by eapply H.
  - apply verify_code_unit_decides; [done|]. pose proof (wb_function_defs _ Hwb) as H. rewrite Forall_lookup in H. by eapply H.
Qed.

(** C26: On a module the bounds checker accepted, with no more signatures than an
    index can name, the signature checker returns a verdict and accepts exactly
    when: references occur only at the top of a signature and nowhere in a field
    or a type argument; in the signatures of function handles, in locals and in
    fields, and at every generic instruction, type arguments have the abilities
    the instantiated parameters ask for (for types inside types from version 6
    on); vector instructions name one element type; and a phantom parameter of a
    structure occurs in its fields in phantom positions only. *)
Theorem signatures_decided module :
  Bounds.verify_module module = Ok () -> (Z.of_nat (length (cm_signatures module)) <= 65536)%Z ->
  let resolver := View.Module_ module in
  decides (verify_module module)
    (Forall (Forall shallow_refs) (cm_signatures module) /\ Forall (function_handle_ok resolver) (cm_function_handles module) /\
     Forall (struct_def_ok resolver) (cm_struct_defs module) /\ Forall (function_def_ok resolver) (cm_function_defs module)).
Proof. apply signatures_verify_decides. Qed.

Lemma signatures_decided_witness :
  Forall (struct_def_ok (View.Module_ FunctionViews.box_module)) (cm_struct_defs FunctionViews.box_module) /\
  Forall (function_def_ok (View.Module_ FunctionViews.box_module)) (cm_function_defs FunctionViews.box_module).
Proof.
  destruct (signatures_decided FunctionViews.box_module) as [_ H]; [vm_compute; reflexivity|vm_compute; discriminate|].
  destruct H as [H _]. destruct H as (_ & _ & Hs & Hf); [vm_compute; reflexivity|]. by split.
Defined.
End Signatures.
