(* ===== verification/MoveConsistency.v ===== *)
(** Checks of single instructions and of constants: instruction_consistency.rs
    and constants.rs of external/move/move-bytecode-verifier, with the layouts
    of constant.rs in move-binary-format.

    The first check keeps the generic and the plain forms of an instruction
    apart: the generic one is for generic members only. The second one admits
    as constants only values of primitive types and vectors of them, whose bytes
    decode. The type safety pass relies on both. *)

From stdpp Require Import list strings.
From S2P Require Import Prelude MoveFormat MoveBounds MoveFunction.

Module InstructionConsistency.
Import Bounds.

Section Checker.
Context (resolver : BinaryIndexedView) (current_function : option nat).

Definition mismatch (offset : nat) : PartialVMError :=
  at_code_offset (error_new StatusCode.GENERIC_MEMBER_OPCODE_MISMATCH) (default 0 current_function) (u16 offset).

Definition is_empty {A} (l : list A) : bool := match l with [] => true | _ => false end.

Definition check_type_op (offset struct_def_index : nat) (generic : bool) : vm () :=
  struct_def ← View.struct_def_at resolver struct_def_index;
  struct_handle ← View.struct_handle_at resolver (sd_struct_handle struct_def);
  if bool_decide (is_empty (sh_type_parameters struct_handle) = generic) then Err (mismatch offset) else Ok ().

Definition check_field_op (offset field_handle_index : nat) (generic : bool) : vm () :=
  field_handle ← View.field_handle_at resolver field_handle_index;
  check_type_op offset (fld_owner field_handle) generic.

Definition check_function_op (offset func_handle_index : nat) (generic : bool) : vm () :=
  function_handle ← View.function_handle_at resolver func_handle_index;
  if bool_decide (is_empty (fh_type_parameters function_handle) = generic) then Err (mismatch offset) else Ok ().

(** One instruction of [check_instructions]. *)
Definition check_instruction (p : nat * Bytecode) : vm () :=
  let '(offset, instr) := p in
  match instr with
  | Bytecode.MutBorrowField idx | Bytecode.ImmBorrowField idx => check_field_op offset idx false
  | Bytecode.MutBorrowFieldGeneric idx | Bytecode.ImmBorrowFieldGeneric idx =>
    field_inst ← View.field_instantiation_at resolver idx;
    check_field_op offset (fdi_handle field_inst) true
  | Bytecode.Call idx => check_function_op offset idx false
  | Bytecode.CallGeneric idx =>
    func_inst ← View.function_instantiation_at resolver idx;
    check_function_op offset (fi_handle func_inst) true
  | Bytecode.Pack idx | Bytecode.Unpack idx | Bytecode.MutBorrowGlobal idx | Bytecode.ImmBorrowGlobal idx
  | Bytecode.Exists idx | Bytecode.MoveFrom idx | Bytecode.MoveTo idx => check_type_op offset idx false
  | Bytecode.PackGeneric idx | Bytecode.UnpackGeneric idx | Bytecode.MutBorrowGlobalGeneric idx | Bytecode.ImmBorrowGlobalGeneric idx
  | Bytecode.ExistsGeneric idx | Bytecode.MoveFromGeneric idx | Bytecode.MoveToGeneric idx =>
    struct_inst ← View.struct_instantiation_at resolver idx;
    check_type_op offset (si_def struct_inst) true
  | Bytecode.VecPack _ num | Bytecode.VecUnpack _ num =>
    if (u16_max <? Z.of_nat num)%Z
    then Err (at_code_offset (error_new StatusCode.CONSTRAINT_NOT_SATISFIED) (default 0 current_function) (u16 offset))
    else Ok ()
  | _ => Ok ()
  end.

Definition check_instructions (code : CodeUnit) : vm () := vfor check_instruction (imap pair (cu_code code)).
End Checker.

Definition verify_function (resolver : BinaryIndexedView) (p : nat * FunctionDefinition) : vm () :=
  let '(idx, func_def) := p in
  match fn_code func_def with
  | None => Ok ()
  | Some code => check_instructions resolver (Some (u16 idx)) code
  end.

Definition verify_module (module : CompiledModule) : vm () :=
  vfor (verify_function (View.Module_ module)) (imap pair (cm_function_defs module)).

Definition verify_script (script : CompiledScript) : vm () := check_instructions (View.Script script) None (cs_code script).

(** ** What it decides *)

Section Spec.
Context (resolver : BinaryIndexedView).

(** The structure defined at an index is generic, or is not. *)
Definition struct_is (generic : bool) (def_idx : nat) : Prop :=
  exists sd, View.struct_def_at resolver def_idx = Ok sd /\
  exists sh, View.struct_handle_at resolver (sd_struct_handle sd) = Ok sh /\ is_empty (sh_type_parameters sh) = negb generic.

Definition function_is (generic : bool) (idx : nat) : Prop :=
  exists fh, View.function_handle_at resolver idx = Ok fh /\ is_empty (fh_type_parameters fh) = negb generic.

Definition field_is (generic : bool) (idx : nat) : Prop :=
  exists fh, View.field_handle_at resolver idx = Ok fh /\ struct_is generic (fld_owner fh).

Definition consistent (instr : Bytecode) : Prop :=
  match instr with
  | Bytecode.MutBorrowField idx | Bytecode.ImmBorrowField idx => field_is false idx
  | Bytecode.MutBorrowFieldGeneric idx | Bytecode.ImmBorrowFieldGeneric idx =>
    exists fi, View.field_instantiation_at resolver idx = Ok fi /\ field_is true (fdi_handle fi)
  | Bytecode.Call idx => function_is false idx
  | Bytecode.CallGeneric idx => exists fi, View.function_instantiation_at resolver idx = Ok fi /\ function_is true (fi_handle fi)
  | Bytecode.Pack idx | Bytecode.Unpack idx | Bytecode.MutBorrowGlobal idx | Bytecode.ImmBorrowGlobal idx
  | Bytecode.Exists idx | Bytecode.MoveFrom idx | Bytecode.MoveTo idx => struct_is false idx
  | Bytecode.PackGeneric idx | Bytecode.UnpackGeneric idx | Bytecode.MutBorrowGlobalGeneric idx | Bytecode.ImmBorrowGlobalGeneric idx
  | Bytecode.ExistsGeneric idx | Bytecode.MoveFromGeneric idx | Bytecode.MoveToGeneric idx =>
    exists si, View.struct_instantiation_at resolver idx = Ok si /\ struct_is true (si_def si)
  | Bytecode.VecPack _ num | Bytecode.VecUnpack _ num => (Z.of_nat num <= u16_max)%Z
  | _ => True
  end.

Context (current_function : option nat) (Hwb : WellBounded resolver).

Lemma generic_guard {A} (l : list A) generic e : decides (if bool_decide (is_empty l = generic) then Err e else Ok ()) (is_empty l = negb generic).
Proof. eapply decides_iff; [apply decides_guard|]. rewrite bool_decide_eq_false. by destruct generic, (is_empty l). Qed.

Lemma check_type_op_decides offset idx generic : in_table (View.struct_defs resolver) idx ->
  decides (check_type_op resolver current_function offset idx generic) (struct_is generic idx).
Proof.
  intros Hin. apply decides_lookup; [by apply FunctionViews.settles_table|]. intros sd Hsd.
  apply decides_lookup; [by eapply FunctionViews.struct_def_handle_settles, FunctionViews.struct_def_at_bounded|]. intros. apply generic_guard.
Qed.

Lemma check_field_op_decides offset idx generic : in_table (View.field_handles resolver) idx ->
  decides (check_field_op resolver current_function offset idx generic) (field_is generic idx).
Proof.
  intros Hin. apply decides_lookup; [by apply FunctionViews.field_handle_settles|]. intros fh Hfh.
  apply check_type_op_decides. by apply (FunctionViews.field_handle_at_bounded _ _ _ Hwb Hfh).
Qed.

Lemma check_function_op_decides offset idx generic : idx < length (View.function_handles resolver) ->
  decides (check_function_op resolver current_function offset idx generic) (function_is generic idx).
Proof. intros Hin. apply decides_lookup; [by apply FunctionViews.function_handle_settles|]. intros. apply generic_guard. Qed.

Lemma check_instruction_decides tpc lc cl offset instr :
  instr_bounded resolver tpc lc cl instr -> decides (check_instruction resolver current_function (offset, instr)) (consistent instr).
Proof.
  intros Hb. destruct instr; cbn [check_instruction consistent instr_bounded] in *;
    lazymatch goal with
    | |- decides (Ok ()) True => apply decides_true
    | |- decides (check_type_op _ _ _ _ _) _ => by apply check_type_op_decides
    | |- decides (check_field_op _ _ _ _ _) _ => by apply check_field_op_decides
    | |- decides (check_function_op _ _ _ _ _) _ => by apply check_function_op_decides
    | |- decides (_ ← View.struct_instantiation_at _ _; _) _ =>
      (apply decides_lookup; [by apply FunctionViews.settles_table, Hb|]); intros si Hsi; apply check_type_op_decides;
      by apply (FunctionViews.struct_instantiation_at_bounded _ _ _ Hwb Hsi)
    | |- decides (_ ← View.field_instantiation_at _ _; _) _ =>
      (apply decides_lookup; [by apply FunctionViews.settles_table, Hb|]); intros fi Hfi; apply check_field_op_decides;
      by apply (FunctionViews.field_instantiation_at_bounded _ _ _ Hwb Hfi)
    | |- decides (_ ← View.function_instantiation_at _ _; _) _ =>
      (apply decides_lookup; [by apply settles_index, Hb|]); intros fi Hfi; apply check_function_op_decides;
      by apply (FunctionViews.function_instantiation_at_bounded _ _ _ Hwb Hfi)
    | |- _ => eapply decides_iff; [apply decides_guard|]; by rewrite Z.ltb_ge
    end.
Qed.

Lemma check_instructions_decides tpc lc code :
  Forall (instr_bounded resolver tpc lc (length (cu_code code))) (cu_code code) ->
  decides (check_instructions resolver current_function code) (Forall consistent (cu_code code)).
Proof. rewrite Forall_lookup. intros Hb. apply decides_imap. intros i x Hx. by eapply check_instruction_decides, Hb. Qed.
End Spec.

Lemma verify_module_decides module :
  WellBounded (View.Module_ module) ->
  decides (verify_module module)
    (Forall (fun fd => from_option (fun cu => Forall (consistent (View.Module_ module)) (cu_code cu)) True (fn_code fd)) (cm_function_defs module)).
Proof.
  intros Hwb. apply decides_imap. intros i fd Hfd. pose proof (wb_function_defs _ Hwb) as H. rewrite Forall_lookup in H.
  destruct (H _ _ Hfd) as (fh & _ & _ & Hc). unfold verify_function. destruct (fn_code fd) as [cu|]; [|apply decides_true].
  destruct Hc as (params & _ & locals & _ & _ & _ & Hin). by eapply check_instructions_decides.
Qed.

Lemma verify_script_decides script :
  Bounds.verify_script script = Ok () -> decides (verify_script script) (Forall (consistent (View.Script script)) (cu_code (cs_code script))).
Proof. intros (Hwb & params & _ & _ & locals & _ & _ & _ & Hin)%verify_script_Ok. by eapply check_instructions_decides. Qed.
End InstructionConsistency.

(** ** Constants *)

Module Constants.

(** [TypeTag] and [StructTag] of language_storage.rs. *)
Inductive TypeTag :=
| TagBool | TagU8 | TagU64 | TagU128 | TagAddress | TagSigner
| TagVector (t : TypeTag)
| TagStruct (t : StructTag)
| TagU16 | TagU32 | TagU256
with StructTag :=
| Tag (address : list Z) (module name : string) (type_params : list TypeTag).

(** The layouts of value.rs. *)
Inductive MoveTypeLayout :=
| Bool | U8 | U64 | U128 | Address
| Vector (t : MoveTypeLayout)
| Struct (s : MoveStructLayout)
| Signer | U16 | U32 | U256
with MoveStructLayout :=
| Runtime (fields : list MoveTypeLayout)
| WithFields (fields : list MoveFieldLayout)
| WithTypes (type_ : StructTag) (fields : list MoveFieldLayout)
with MoveFieldLayout :=
| Field (name : string) (layout : MoveTypeLayout).

Fixpoint sig_to_ty (sig : SignatureToken) : option MoveTypeLayout :=
  match sig with
  | SignatureToken.Signer => Some Signer
  | SignatureToken.Address => Some Address
  | SignatureToken.Bool => Some Bool
  | SignatureToken.U8 => Some U8
  | SignatureToken.U16 => Some U16
  | SignatureToken.U32 => Some U32
  | SignatureToken.U64 => Some U64
  | SignatureToken.U128 => Some U128
  | SignatureToken.U256 => Some U256
  | SignatureToken.Vector v => Vector <$> sig_to_ty v
  | _ => None
  end.

Fixpoint ty_to_sig (ty : MoveTypeLayout) : option SignatureToken :=
  match ty with
  | Address => Some SignatureToken.Address
  | Signer => Some SignatureToken.Signer
  | U8 => Some SignatureToken.U8
  | U16 => Some SignatureToken.U16
  | U32 => Some SignatureToken.U32
  | U64 => Some SignatureToken.U64
  | U128 => Some SignatureToken.U128
  | U256 => Some SignatureToken.U256
  | Vector v => SignatureToken.Vector <$> ty_to_sig v
  | Struct _ => None
  | Bool => Some SignatureToken.Bool
  end.

Section Checker.
(** [bcs::from_bytes_seed]: whether bytes decode to a value of a layout. *)
Context (decodes : MoveTypeLayout -> list Z -> bool).

(** Whether [deserialize_constant] returns a value. *)
Definition deserialize_constant (c : Constant) : bool :=
  match sig_to_ty (const_type c) with Some ty => decodes ty (const_data c) | None => false end.

Definition verify_constant_type (idx : nat) (type_ : SignatureToken) : vm () :=
  if SignatureToken.is_valid_for_constant type_ then Ok ()
  else Err (verification_error StatusCode.INVALID_CONSTANT_TYPE IndexKind.ConstantPool (u16 idx)).

Definition verify_constant_data (idx : nat) (constant : Constant) : vm () :=
  if deserialize_constant constant then Ok ()
  else Err (verification_error StatusCode.MALFORMED_CONSTANT_DATA IndexKind.ConstantPool (u16 idx)).

Definition verify_constant (p : nat * Constant) : vm () :=
  let '(idx, constant) := p in
  _ ← verify_constant_type idx (const_type constant);
  verify_constant_data idx constant.

Definition verify_module (module : CompiledModule) : vm () := vfor verify_constant (imap pair (cm_constant_pool module)).
Definition verify_script (script : CompiledScript) : vm () := vfor verify_constant (imap pair (cs_constant_pool script)).

Definition constant_ok (c : Constant) : Prop :=
  SignatureToken.is_valid_for_constant (const_type c) = true /\ deserialize_constant c = true.

Lemma verify_constants_decides pool : decides (vfor verify_constant (imap pair pool)) (Forall constant_ok pool).
Proof.
  apply decides_imap. intros i c _. unfold verify_constant, constant_ok, verify_constant_type, verify_constant_data. apply decides_seq.
  - destruct (SignatureToken.is_valid_for_constant _); split; auto with settle; done.
  - intros _. destruct (deserialize_constant c); split; auto with settle; done.
Qed.
End Checker.

(** The layout of a constant's type is read back as the type. *)
Lemma layout_roundtrip sig ty : sig_to_ty sig = Some ty -> ty_to_sig ty = Some sig.
Proof.
  revert ty. induction sig as [| | | | | |t IH|idx|idx ts IH|t IH|t IH|idx| | |] using SignatureToken.token_ind; cbn; intros ty H; simplify_eq; try done.
  apply fmap_Some in H as (v & Hv & ->). cbn. by rewrite (IH v Hv).
Qed.

(** A type that is valid for a constant has a layout. *)
Lemma valid_has_layout sig : SignatureToken.is_valid_for_constant sig = true -> is_Some (sig_to_ty sig).
Proof.
  induction sig as [| | | | | |t IH|idx|idx ts IH|t IH|t IH|idx| | |] using SignatureToken.token_ind; cbn; try done; eauto.
  intros [v Hv]%IH. rewrite Hv. eauto.
Qed.
End Constants.
