(* ===== verification/MoveStack.v ===== *)
(** The stack usage pass of the verifier.

    external/move/move-bytecode-verifier/src/stack_usage_verifier.rs, and the
    configuration of the verifier (verifier.rs).

    The theorem: in a function the pass accepts, the height of the operand stack
    at an instruction is the same on every path that reaches it; no instruction
    takes more than there is, the height stays within the configured bound, and
    it is zero wherever a block ends, so that a return hands over what it
    declares and nothing more. *)

From S2P Require Import Prelude MoveFormat MoveBounds MoveCfg MoveSearch MoveFunction.

Record VerifierConfig := {
  max_loop_depth : option nat;
  max_function_parameters : option nat;
  max_generic_instantiation_length : option nat;
  max_basic_blocks : option nat;
  max_value_stack_size : nat;
  max_type_nodes : option nat;
  max_push_size : option nat;
  max_dependency_depth : option nat;
  max_struct_definitions : option nat;
  max_fields_in_struct : option nat;
  max_function_definitions : option nat;
  max_back_edges_per_function : option nat;
  max_back_edges_per_module : option nat;
  max_basic_blocks_in_script : option nat;
  max_per_fun_meter_units : option Z;
  max_per_mod_meter_units : option Z;
}.

Definition default_config : VerifierConfig := {|
  max_loop_depth := None;
  max_function_parameters := None;
  max_generic_instantiation_length := None;
  max_basic_blocks := None;
  max_type_nodes := None;
  max_value_stack_size := 1024;
  max_push_size := None;
  max_dependency_depth := None;
  max_struct_definitions := None;
  max_fields_in_struct := None;
  max_function_definitions := None;
  max_back_edges_per_function := None;
  max_back_edges_per_module := None;
  max_basic_blocks_in_script := None;
  max_per_fun_meter_units := Some (1000 * 8000)%Z;
  max_per_mod_meter_units := Some (1000 * 8000)%Z;
|}.

(** [checked_add] and [checked_sub] of [u64]. *)
Definition u64_checked_add (a b : Z) : option Z := if (a + b <=? u64_max)%Z then Some (a + b)%Z else None.
Definition u64_checked_sub (a b : Z) : option Z := if (b <=? a)%Z then Some (a - b)%Z else None.

Module StackUsage.
Import Cfg.

Section Verifier.
Context (config : VerifierConfig) (resolver : BinaryIndexedView) (view : FunctionView).

(** The number of fields of a structure, none for a native one. *)
Definition field_count (sd : StructDefinition) : Z :=
  match field_information sd with Native => 0 | Declared fields => Z.of_nat (length fields) end.

Definition call_effect (fh : FunctionHandle) : vm (Z * Z) :=
  args ← View.signature_at resolver (fh_parameters fh);
  returns ← View.signature_at resolver (fh_return fh);
  Ok (Z.of_nat (length args), Z.of_nat (length returns)).

(** The number of pops and of pushes. *)
Definition instruction_effect (instruction : Bytecode) : vm (Z * Z) :=
  match instruction with
  | Bytecode.Pop | Bytecode.BrTrue _ | Bytecode.BrFalse _ | Bytecode.StLoc _ | Bytecode.Abort => Ok (1, 0)%Z
  | Bytecode.LdU8 _ | Bytecode.LdU16 _ | Bytecode.LdU32 _ | Bytecode.LdU64 _ | Bytecode.LdU128 _ | Bytecode.LdU256 _
  | Bytecode.LdTrue | Bytecode.LdFalse | Bytecode.LdConst _ | Bytecode.CopyLoc _ | Bytecode.MoveLoc _
  | Bytecode.MutBorrowLoc _ | Bytecode.ImmBorrowLoc _ => Ok (0, 1)%Z
  | Bytecode.Not | Bytecode.FreezeRef | Bytecode.ReadRef | Bytecode.Exists _ | Bytecode.ExistsGeneric _
  | Bytecode.MutBorrowGlobal _ | Bytecode.MutBorrowGlobalGeneric _ | Bytecode.ImmBorrowGlobal _ | Bytecode.ImmBorrowGlobalGeneric _
  | Bytecode.MutBorrowField _ | Bytecode.MutBorrowFieldGeneric _ | Bytecode.ImmBorrowField _ | Bytecode.ImmBorrowFieldGeneric _
  | Bytecode.MoveFrom _ | Bytecode.MoveFromGeneric _
  | Bytecode.CastU8 | Bytecode.CastU16 | Bytecode.CastU32 | Bytecode.CastU64 | Bytecode.CastU128 | Bytecode.CastU256
  | Bytecode.VecLen _ | Bytecode.VecPopBack _ => Ok (1, 1)%Z
  | Bytecode.Add | Bytecode.Sub | Bytecode.Mul | Bytecode.Mod | Bytecode.Div | Bytecode.BitOr | Bytecode.BitAnd | Bytecode.Xor
  | Bytecode.Shl | Bytecode.Shr | Bytecode.Or | Bytecode.And | Bytecode.Eq | Bytecode.Neq
  | Bytecode.Lt | Bytecode.Gt | Bytecode.Le | Bytecode.Ge => Ok (2, 1)%Z
  | Bytecode.VecPack _ num => Ok (Z.of_nat num, 1%Z)
  | Bytecode.VecUnpack _ num => Ok (1%Z, Z.of_nat num)
  | Bytecode.VecImmBorrow _ | Bytecode.VecMutBorrow _ => Ok (2, 1)%Z
  | Bytecode.MoveTo _ | Bytecode.MoveToGeneric _ | Bytecode.WriteRef | Bytecode.VecPushBack _ => Ok (2, 0)%Z
  | Bytecode.VecSwap _ => Ok (3, 0)%Z
  | Bytecode.Branch _ | Bytecode.Nop => Ok (0, 0)%Z
  | Bytecode.Ret => Ok (Z.of_nat (length (fv_return view)), 0%Z)
  | Bytecode.Call idx =>
    function_handle ← View.function_handle_at resolver idx;
    call_effect function_handle
  | Bytecode.CallGeneric idx =>
    func_inst ← View.function_instantiation_at resolver idx;
    function_handle ← View.function_handle_at resolver (fi_handle func_inst);
    call_effect function_handle
  | Bytecode.Pack idx =>
    struct_definition ← View.struct_def_at resolver idx;
    Ok (field_count struct_definition, 1%Z)
  | Bytecode.PackGeneric idx =>
    struct_inst ← View.struct_instantiation_at resolver idx;
    struct_definition ← View.struct_def_at resolver (si_def struct_inst);
    Ok (field_count struct_definition, 1%Z)
  | Bytecode.Unpack idx =>
    struct_definition ← View.struct_def_at resolver idx;
    Ok (1%Z, field_count struct_definition)
  | Bytecode.UnpackGeneric idx =>
    struct_inst ← View.struct_instantiation_at resolver idx;
    struct_definition ← View.struct_def_at resolver (si_def struct_inst);
    Ok (1%Z, field_count struct_definition)
  end.

Definition error_at (status : StatusCode) (offset : nat) : PartialVMError :=
  at_code_offset (error_new status) (default 0 (fv_index view)) offset.

(** One instruction of the block at [block_start]; the state is the height and
    the number of pushes so far. *)
Definition verify_instruction (block_start : nat) (s : Z * Z) (i : nat) : vm (Z * Z) :=
  let '(stack_size_increment, overall_push) := s in
  instr ← index (cu_code (fv_code view)) i;
  '(num_pops, num_pushes) ← instruction_effect instr;
  let overall_push := default overall_push (u64_checked_add overall_push num_pushes) in
  if match max_push_size config with Some max => (Z.of_nat max <? overall_push)%Z | None => false end
  then Err (error_at StatusCode.VALUE_STACK_PUSH_OVERFLOW block_start) else
  if (stack_size_increment <? num_pops)%Z
  then Err (error_at StatusCode.NEGATIVE_STACK_SIZE_WITHIN_BLOCK block_start) else
  match u64_checked_sub stack_size_increment num_pops with
  | None => Err (error_at StatusCode.NEGATIVE_STACK_SIZE_WITHIN_BLOCK block_start)
  | Some new_incr =>
    match u64_checked_add new_incr num_pushes with
    | None => Err (error_at StatusCode.POSITIVE_STACK_SIZE_AT_BLOCK_END block_start)
    | Some new_incr =>
      if (Z.of_nat (max_value_stack_size config) <? new_incr)%Z
      then Err (error_at StatusCode.VALUE_STACK_OVERFLOW block_start)
      else Ok (new_incr, overall_push)
    end
  end.

Definition verify_block (block_id : nat) : vm () :=
  let block_start := block_start block_id in
  last ← block_end (fv_cfg view) block_id;
  '(stack_size_increment, _) ← vfold (verify_instruction block_start) (seq block_start (S last - block_start)) (0%Z, 0%Z);
  if (stack_size_increment =? 0)%Z then Ok ()
  else Err (error_at StatusCode.POSITIVE_STACK_SIZE_AT_BLOCK_END block_start).

Definition verify : vm () := vfor verify_block (blocks (fv_cfg view)).
End Verifier.

(** ** What it accepts *)

Section Heights.
Context (config : VerifierConfig) (resolver : BinaryIndexedView) (view : FunctionView).

(** The heights control can reach an instruction with. *)
Inductive HeightAt : nat -> Z -> Prop :=
| height_entry : HeightAt 0 0
| height_step pc h i pops pushes succs pc' :
    HeightAt pc h -> cu_code (fv_code view) !! pc = Some i -> instruction_effect resolver view i = Ok (pops, pushes) ->
    Bytecode.get_successors pc (cu_code (fv_code view)) = Ok succs -> pc' ∈ succs -> HeightAt pc' (h - pops + pushes).

Lemma verify_instruction_Ok b h p pc h' p' :
  verify_instruction config resolver view b (h, p) pc = Ok (h', p') ->
  exists i pops pushes, cu_code (fv_code view) !! pc = Some i /\ instruction_effect resolver view i = Ok (pops, pushes) /\
    (pops <= h)%Z /\ h' = (h - pops + pushes)%Z /\ (h' <= Z.of_nat (max_value_stack_size config))%Z.
Proof.
  intros He. unfold verify_instruction in He. vm_inv. destruct v0 as [pops pushes].
  exists v, pops, pushes. split; [done|]. split; [done|]. case_match; [done|].
  destruct (Z.ltb_spec h pops); [done|]. unfold u64_checked_sub, u64_checked_add in He.
  rewrite (proj2 (Z.leb_le _ _)) in He by lia. destruct (Z.leb_spec (h - pops + pushes) u64_max); [|done].
  destruct (Z.ltb_spec (Z.of_nat (max_value_stack_size config)) (h - pops + pushes)); [done|]. injection He as <- _. lia.
Qed.

Context (order : list nat) (Hsound : FunctionViews.Sound resolver view order).
Context (Hok : verify config resolver view = Ok ()).

(** The height the pass has at [pc], in the block of [pc]. *)
Definition block_height (pc : nat) (h : Z) : Prop :=
  exists b bb p p', blocks_map (fv_cfg view) !! b = Some bb /\ b <= pc <= exit bb /\
    vfold (verify_instruction config resolver view b) (seq b (pc - b)) (0%Z, 0%Z) = Ok (h, p) /\
    vfold (verify_instruction config resolver view b) (seq pc (S (exit bb) - pc)) (h, p) = Ok (0%Z, p').

Lemma block_height_start b : is_Some (blocks_map (fv_cfg view) !! b) -> block_height b 0.
Proof.
  intros Hb. pose proof Hok as Hv. unfold verify in Hv. apply vfor_Ok in Hv. rewrite Forall_forall in Hv.
  specialize (Hv b (proj2 (elem_of_blocks _ _) Hb)). destruct Hb as [bb Hbb]. unfold verify_block, block_end, block_start in Hv. vm_inv.
  destruct v0 as [h p]. destruct (Z.eqb_spec h 0); [|done]. subst. simplify_eq.
  pose proof (bk_range _ _ (CfgSearch.gr_blocks _ _ _ (FunctionViews.so_graph _ _ _ Hsound)) _ _ Hbb).
  exists b, bb, 0%Z, p. split; [done|]. split; [lia|]. by rewrite Nat.sub_diag.
Qed.

Lemma block_height_step pc h : block_height pc h ->
  exists i pops pushes, cu_code (fv_code view) !! pc = Some i /\ instruction_effect resolver view i = Ok (pops, pushes) /\
    (pops <= h)%Z /\ (h - pops + pushes <= Z.of_nat (max_value_stack_size config))%Z /\
    ((exists b bb, blocks_map (fv_cfg view) !! b = Some bb /\ pc = exit bb /\ b <= pc /\ (h - pops + pushes = 0)%Z) \/
     (Bytecode.is_branch i = false /\ block_height (S pc) (h - pops + pushes))).
Proof.
  intros (b & bb & p & p' & Hbb & Hpc & Hpre & Hpost).
  replace (S (exit bb) - pc) with (S (exit bb - pc)) in Hpost by lia. cbn [seq vfold] in Hpost.
  apply vm_bind_Ok in Hpost as ([h1 p1] & Hv & Hpost).
  destruct (verify_instruction_Ok _ _ _ _ _ _ Hv) as (i & pops & pushes & Hi & He & Hle & -> & Hmax).
  exists i, pops, pushes. split; [done|]. split; [done|]. split; [done|]. split; [done|].
  destruct (decide (pc = exit bb)) as [->|Hne].
  - left. exists b, bb. rewrite Nat.sub_diag in Hpost. cbn in Hpost. vm_inv. simplify_eq. split; [done|]. split; [done|]. split; [lia|done].
  - right. split.
    + eapply (bk_inner _ _ (CfgSearch.gr_blocks _ _ _ (FunctionViews.so_graph _ _ _ Hsound))); [done| |done]. lia.
    + exists b, bb, p1, p'. split; [done|]. split; [lia|]. split.
      * replace (S pc - b) with ((pc - b) + 1) by lia. rewrite seq_app, vfold_app, Hpre. replace (b + (pc - b)) with pc by lia.
        cbn [mbind vm_bind vfold seq]. by rewrite Hv.
      * by replace (S (exit bb) - S pc) with (exit bb - pc) by lia.
Qed.

Lemma block_height_unique pc h h' : block_height pc h -> block_height pc h' -> h = h'.
Proof.
  intros (b & bb & p & p' & Hbb & Hpc & Hpre & _) (b2 & bb2 & p2 & p2' & Hbb2 & Hpc2 & Hpre2 & _).
  assert (b2 = b) as -> by (by eapply (bk_disjoint _ _ (CfgSearch.gr_blocks _ _ _ (FunctionViews.so_graph _ _ _ Hsound)))).
  congruence.
Qed.

Lemma reached_height pc h : HeightAt pc h -> block_height pc h.
Proof.
  pose proof (CfgSearch.gr_blocks _ _ _ (FunctionViews.so_graph _ _ _ Hsound)) as Hbk.
  induction 1 as [|pc h i pops pushes succs pc' Hr IH Hi He Hs Hin]; [apply block_height_start, Hbk|].
  destruct (block_height_step pc h IH) as (i' & pops' & pushes' & Hi' & He' & _ & _ & Hnext).
  rewrite Hi in Hi'. injection Hi' as <-. rewrite He in He'. injection He' as <- <-.
  destruct Hnext as [(b & bb & Hbb & -> & Hle & ->)|[Hbr Hn]].
  - apply block_height_start. pose proof (bk_succ _ _ Hbk _ _ Hbb) as Hs'. rewrite Hs in Hs'. injection Hs' as ->. by eapply (bk_closed _ _ Hbk).
  - apply (FormatSafety.get_successors_spec _ _ _ _ (FunctionViews.so_length _ _ _ Hsound) Hi) in Hs as (_ & _ & Hs).
    apply Hs in Hin as [Ho|(-> & _ & _)]; [|done]. by destruct i.
Qed.

End Heights.

(** ** The pass returns *)

Section Total.
Context (config : VerifierConfig) (resolver : BinaryIndexedView) (view : FunctionView) (order : list nat).
Context (Hsound : FunctionViews.Sound resolver view order).

Lemma call_effect_settles idx fh : View.function_handles resolver !! idx = Some fh -> settles (call_effect resolver fh).
Proof.
  intros Hfh. destruct (FunctionViews.function_handle_bounds _ _ _ (FunctionViews.so_bounded _ _ _ Hsound) Hfh) as [Hp Hr]. unfold call_effect, View.signature_at.
  settle; by apply settles_index.
Qed.

Lemma instruction_effect_settles tpc lc len i :
  Bounds.instr_bounded resolver tpc lc len i -> settles (instruction_effect resolver view i).
Proof.
  pose proof (FunctionViews.so_bounded _ _ _ Hsound) as Hwb.
  intros Hi. destruct i; try apply settles_Ok; cbn in Hi; cbn [instruction_effect].
  - destruct (lookup_lt_is_Some_2 _ _ Hi) as [fh Hfh]. pose proof Hfh as Hx. apply FunctionViews.function_handle_at_Ok in Hx; [|done].
    rewrite Hx. by eapply call_effect_settles.
  - destruct Hi as [Hi _]. destruct (index_lt _ _ Hi) as (f & Hx & Hf). unfold View.function_instantiation_at. rewrite Hx. vm_cbn.
    destruct (lookup_lt_is_Some_2 _ _ (FunctionViews.function_instantiation_bounded _ _ _ Hwb Hf)) as [fh Hfh].
    pose proof Hfh as Hy. apply FunctionViews.function_handle_at_Ok in Hy; [|done]. rewrite Hy. by eapply call_effect_settles.
  - apply settles_bind; [apply FunctionViews.settles_table, Hi|intros; settle].
  - apply settles_bind; [apply FunctionViews.settles_table, Hi|]. intros si Hsi. apply settles_bind; [|intros; settle].
    by eapply FunctionViews.settles_table, FunctionViews.struct_instantiation_bounded.
  - apply settles_bind; [apply FunctionViews.settles_table, Hi|intros; settle].
  - apply settles_bind; [apply FunctionViews.settles_table, Hi|]. intros si Hsi. apply settles_bind; [|intros; settle].
    by eapply FunctionViews.settles_table, FunctionViews.struct_instantiation_bounded.
Qed.

Lemma stack_verify_settles : settles (verify config resolver view).
Proof.
  unfold verify. apply settles_vfor. intros b Hb. apply elem_of_blocks in Hb as [bb Hbb]. unfold verify_block, block_end, map_index, block_start.
  rewrite Hbb. vm_cbn. pose proof (bk_range _ _ (CfgSearch.gr_blocks _ _ _ (FunctionViews.so_graph _ _ _ Hsound)) _ _ Hbb).
  apply settles_bind; [|intros [? ?] _; settle]. apply (settles_vfold (fun _ => True)); [|done..].
  intros [h p] pc Hpc%elem_of_seq _. unfold verify_instruction.
  destruct (index_lt (cu_code (fv_code view)) pc) as (i & -> & Hi); [lia|]. vm_cbn. apply settles_bind.
  - pose proof (FunctionViews.so_instrs _ _ _ Hsound) as Hin. rewrite Forall_lookup in Hin. by eapply instruction_effect_settles, Hin.
  - intros [pops pushes] _. settle.
Qed.
End Total.

(** C29: The stack usage pass returns a verdict on every function of a module the
    bounds checker accepted. In a function it accepts, an instruction is reached
    with one height of the operand stack whatever the path; it takes no more than
    that height, the height stays within the configured bound, and after the
    last instruction of a block, in particular after a return has taken the
    values it hands over and before every jump, the stack is empty. *)
Theorem stack_usage_sound config module idx fd fh cu :
  Bounds.verify_module module = Ok () -> cm_function_defs module !! idx = Some fd -> fn_code fd = Some cu ->
  cm_function_handles module !! fn_function fd = Some fh -> (Z.of_nat (length (cu_code cu)) < 65536)%Z -> cu_code cu <> [] ->
  exists view, Cfg.function module idx cu fh = Ok view /\ settles (verify config (View.Module_ module) view) /\
  (verify config (View.Module_ module) view = Ok () -> forall pc h, HeightAt (View.Module_ module) view pc h ->
    (forall h', HeightAt (View.Module_ module) view pc h' -> h' = h) /\
    exists i pops pushes, cu_code cu !! pc = Some i /\ instruction_effect (View.Module_ module) view i = Ok (pops, pushes) /\
      (pops <= h)%Z /\ (h - pops + pushes <= Z.of_nat (max_value_stack_size config))%Z /\
      (Bytecode.is_branch i = true -> h - pops + pushes = 0)%Z).
Proof.
  intros Hv Hfd Hcu Hfh Hlen Hne. destruct (FunctionViews.function_sound _ _ _ _ _ Hv Hfd Hcu Hfh Hlen Hne) as (view & order & Hf & <- & Hs).
  exists view. split; [done|]. split; [by eapply stack_verify_settles|]. intros Hok pc h Hh.
  pose proof (reached_height config _ view order Hs Hok) as Hreach. split.
  { intros h' Hh'. by eapply (block_height_unique config _ view order Hs); apply Hreach. }
  destruct (block_height_step config _ view order Hs pc h (Hreach _ _ Hh)) as (i & pops & pushes & Hi & He & Hle & Hmax & Hnext).
  exists i, pops, pushes. repeat (split; [done|]). intros Hbr. destruct Hnext as [(? & ? & _ & _ & _ & ?)|[Hnb _]]; [done|congruence].
Qed.

Definition copy_code : list Bytecode := [Bytecode.CopyLoc 0; Bytecode.Pop; Bytecode.Ret].

Lemma stack_usage_sound_witness :
  verify default_config (View.Module_ (FunctionViews.one_function copy_code)) (FunctionViews.view_of copy_code) = Ok () /\
  forall h, HeightAt (View.Module_ (FunctionViews.one_function copy_code)) (FunctionViews.view_of copy_code) 0 h -> h = 0%Z.
Proof.
  destruct (stack_usage_sound default_config (FunctionViews.one_function copy_code) 0 (FunctionViews.one_definition copy_code)
    FunctionViews.one_handle (FunctionViews.one_body copy_code)) as (view & Hf & _ & Hheights);
    [vm_compute; reflexivity..|discriminate|].
  rewrite FunctionViews.view_of_eq in Hf by (vm_compute; reflexivity). injection Hf as Hview. subst view.
  assert (verify default_config (View.Module_ (FunctionViews.one_function copy_code)) (FunctionViews.view_of copy_code) = Ok ()) as Hok
    by (vm_compute; reflexivity).
  split; [exact Hok|]. intros h Hh. exact (proj1 (Hheights Hok 0 0%Z (height_entry _ _)) h Hh).
Defined.

End StackUsage.
