(* ===== verification/MoveLoops.v ===== *)
(** Loop summaries and the control flow checks.

    external/move/move-bytecode-verifier/src: the depth-first spanning tree of a
    control-flow graph and the partition of its nodes into collapsed loops
    (loop_summary.rs), and the checks of control flow for bytecode versions 6 and
    up, that control cannot fall off the end of a function and that its graph is
    reducible (control_flow.rs).

    Nodes are numbered from 0 in the order the search discovers them.  A [Vec]
    used as a stack is a list whose head is its top.  The theorems are in
    [MoveSpanning] and [MoveReducible]. *)

From S2P Require Import Prelude MoveFormat MoveCfg MoveStack.

Module LoopSummary.
Import Cfg.

Record LoopSummary := {
  ls_blocks : list nat;
  descs : list nat;
  backs : list (list nat);
  preds : list (list nat);
}.

Inductive Exploration := InProgress (node : nat) | Done (node : nat).

Inductive Frontier :=
| Visit (from_node to_block : nat)
| Finish (block node_id parent : nat).

(** The state of the search. *)
Record Search := {
  summary : LoopSummary;
  next_node : nat;
  explored : gmap nat Exploration;
  frontier : list Frontier;
}.

(** [v[i].push(x)]. *)
Definition push_at (v : list (list nat)) (i x : nat) : vm (list (list nat)) :=
  l ← index v i; set_index v i (l ++ [x]).

(** [stack.extend(successors.map(Visit))], the last successor on the top. *)
Definition visits (from_node : nat) (succs : list nat) : list Frontier := reverse (map (Visit from_node) succs).

Definition finish (s : Search) (block node_id parent : nat) (rest : list Frontier) : vm Search :=
  let ls := summary s in
  child ← index (descs ls) node_id;
  count ← u16_add 1 child;
  own ← index (descs ls) parent;
  sum ← u16_add own count;
  ds ← set_index (descs ls) parent sum;
  _ ← map_index (explored s) block;
  Ok (s <| summary := ls <| descs := ds |> |> <| explored := <[block := Done node_id]> (explored s) |> <| frontier := rest |>).

Definition visit (cfg : VMControlFlowGraph) (s : Search) (from_node to_block : nat) (rest : list Frontier) : vm Search :=
  let ls := summary s in
  match explored s !! to_block with
  | Some (InProgress to_node) =>
    bs ← push_at (backs ls) to_node from_node;
    Ok (s <| summary := ls <| backs := bs |> |> <| frontier := rest |>)
  | Some (Done to_node) =>
    ps ← push_at (preds ls) to_node from_node;
    Ok (s <| summary := ls <| preds := ps |> |> <| frontier := rest |>)
  | None =>
    let to_node := next_node s in
    next ← u16_add (next_node s) 1;
    bs ← set_index (ls_blocks ls) to_node to_block;
    ps ← push_at (preds ls) to_node from_node;
    succs ← successors cfg to_block;
    Ok {| summary := ls <| ls_blocks := bs |> <| preds := ps |>;
          next_node := next;
          explored := <[to_block := InProgress to_node]> (explored s);
          frontier := visits to_node succs ++ Finish to_block to_node from_node :: rest |}
  end.

(** [while let Some(action) = stack.pop()]. *)
Fixpoint explore (fuel : nat) (cfg : VMControlFlowGraph) (s : Search) : vm Search :=
  match frontier s with
  | [] => Ok s
  | action :: rest =>
    match fuel with
    | O => Exhausted
    | S fuel =>
      s' ← match action with
           | Finish block node_id parent => finish s block node_id parent rest
           | Visit from_node to_block => visit cfg s from_node to_block rest
           end;
      explore fuel cfg s'
    end
  end.

(** The state before the loop: the root is node 0. *)
Definition start (cfg : VMControlFlowGraph) : vm Search :=
  let n := num_blocks cfg in
  bs ← set_index (replicate n 0) 0 entry_block_id;
  succs ← successors cfg entry_block_id;
  Ok {| summary := {| ls_blocks := bs; descs := replicate n 0; backs := replicate n []; preds := replicate n [] |};
        next_node := 1;
        explored := {[entry_block_id := InProgress 0]};
        frontier := visits 0 succs |}.

(** A block adds its successors and one entry to finish it. *)
Definition explore_fuel (cfg : VMControlFlowGraph) : nat := 3 * size (blocks_map cfg) + 1.

Definition new (cfg : VMControlFlowGraph) : vm LoopSummary :=
  s ← start cfg;
  s ← explore (explore_fuel cfg) cfg s;
  Ok (summary s).

Definition is_descendant (ls : LoopSummary) (ancestor descendant : nat) : vm bool :=
  if bool_decide (ancestor <= descendant) then
    d ← index (descs ls) ancestor;
    last ← u16_add ancestor d;
    Ok (bool_decide (descendant <= last))
  else Ok false.

Definition preorder (ls : LoopSummary) : list nat := map u16 (seq 0 (length (ls_blocks ls))).

Definition block (ls : LoopSummary) (l : nat) : vm nat := index (ls_blocks ls) l.
Definition back_edges (ls : LoopSummary) (l : nat) : vm (list nat) := index (backs ls) l.
Definition pred_edges (ls : LoopSummary) (l : nat) : vm (list nat) := index (preds ls) l.
End LoopSummary.

Module LoopPartition.

Record LoopPartition := { parents : list nat; depths : list nat }.

Definition new (summary : LoopSummary.LoopSummary) : LoopPartition :=
  let num_blocks := length (LoopSummary.ls_blocks summary) in
  {| parents := map u16 (seq 0 num_blocks); depths := replicate num_blocks 0 |}.

Definition parent (p : LoopPartition) (l : nat) : vm nat := index (parents p) l.
Definition depth (p : LoopPartition) (l : nat) : vm nat := index (depths p) l.

Definition set_parent (p : LoopPartition) (l v : nat) : vm LoopPartition :=
  ps ← set_index (parents p) l v; Ok (p <| parents := ps |>).
Definition set_depth (p : LoopPartition) (l v : nat) : vm LoopPartition :=
  ds ← set_index (depths p) l v; Ok (p <| depths := ds |>).

(** The loop that climbs to the head; the result is the nodes passed and the head. *)
Fixpoint climb (fuel : nat) (p : LoopPartition) (descendants : list nat) (child parent_ grandparent : nat) : vm (list nat * nat) :=
  match fuel with
  | O => Exhausted
  | S fuel =>
    let descendants := descendants ++ [child] in
    next ← parent p grandparent;
    if bool_decide (grandparent = next) then Ok (descendants, grandparent)
    else climb fuel p descendants parent_ grandparent next
  end.

Definition containing_loop (p : LoopPartition) (id : nat) : vm (LoopPartition * nat) :=
  let child := id in
  parent_ ← parent p child;
  grandparent ← parent p parent_;
  if bool_decide (child = parent_) || bool_decide (parent_ = grandparent) then Ok (p, parent_)
  else
    '(descendants, head) ← climb (length (parents p)) p [] child parent_ grandparent;
    p ← vfold (fun p descendant => set_parent p descendant head) descendants p;
    Ok (p, head).

(** [body] in the order of the set. *)
Definition collapse_loop (p : LoopPartition) (head : nat) (body : list nat) : vm (LoopPartition * nat) :=
  h ← parent p head;
  _ ← assert (bool_decide (head = h));
  d ← depth p head;
  '(p, d) ← vfold (fun (st : LoopPartition * nat) constituent =>
      let '(p, d) := st in
      c ← parent p constituent;
      _ ← assert (bool_decide (constituent = c));
      p ← set_parent p constituent head;
      dc ← depth p constituent;
      Ok (p, Nat.max dc d)) body (p, d);
  d ← u16_add d 1;
  p ← set_depth p head d;
  Ok (p, d).
End LoopPartition.

Module ControlFlow.
Import Cfg.

(** [verify_fallthrough]. *)
Definition verify_fallthrough (current_function_opt : option nat) (code : CodeUnit) : vm () :=
  let current_function := default 0 current_function_opt in
  match last (cu_code code) with
  | None => Err (error_new StatusCode.EMPTY_CODE_UNIT)
  | Some last =>
    if negb (Bytecode.is_unconditional_branch last)
    then Err (at_code_offset (error_new StatusCode.INVALID_FALL_THROUGH) current_function (u16 (length (cu_code code) - 1)))
    else Ok ()
  end.

Section Reducibility.
Context (config : VerifierConfig) (current_function : nat) (summary : LoopSummary.LoopSummary).

Definition err {A} (code : StatusCode) (offset : nat) : vm A := Err (at_code_offset (error_new code) current_function offset).

(** What the loops of one head thread. *)
Record Collect := { partition : LoopPartition.LoopPartition; body : gset nat; frontier : list nat }.

(** A node that jumps back to [head]. *)
Definition add_back (head : nat) (st : LoopPartition.LoopPartition * gset nat) (node : nat) : vm (LoopPartition.LoopPartition * gset nat) :=
  let '(p, body) := st in
  '(p, node) ← LoopPartition.containing_loop p node;
  Ok (p, if bool_decide (node <> head) then {[node]} ∪ body else body).

(** A predecessor of a node of the body. *)
Definition add_pred (head : nat) (c : Collect) (pred : nat) : vm Collect :=
  '(p, pred) ← LoopPartition.containing_loop (partition c) pred;
  desc ← LoopSummary.is_descendant summary head pred;
  if negb desc then
    b ← LoopSummary.block summary pred;
    err StatusCode.INVALID_LOOP_SPLIT b
  else
    if bool_decide (pred <> head) && bool_decide (pred ∉ body c)
    then Ok {| partition := p; body := {[pred]} ∪ body c; frontier := pred :: frontier c |}
    else Ok (c <| partition := p |>).

(** [while let Some(node) = frontier.pop()]. *)
Fixpoint grow_body (fuel : nat) (head : nat) (c : Collect) : vm Collect :=
  match frontier c with
  | [] => Ok c
  | node :: rest =>
    match fuel with
    | O => Exhausted
    | S fuel =>
      ps ← LoopSummary.pred_edges summary node;
      c ← vfold (add_pred head) ps (c <| frontier := rest |>);
      grow_body fuel head c
    end
  end.

(** The elements of a [BTreeSet], in order. *)
Definition ordered (s : gset nat) : list nat := sort_by Nat.leb (elements s).

(** A node enters the body of a loop once. *)
Definition body_fuel : nat := length (LoopSummary.ls_blocks summary).

(** One turn of the loop over the nodes. *)
Definition process_head (p : LoopPartition.LoopPartition) (head : nat) : vm LoopPartition.LoopPartition :=
  back ← LoopSummary.back_edges summary head;
  match back with
  | [] => Ok p
  | _ =>
    '(p, body0) ← vfold (add_back head) back (p, ∅);
    c ← grow_body body_fuel head {| partition := p; body := body0; frontier := reverse (ordered body0) |};
    '(p, depth) ← LoopPartition.collapse_loop (partition c) head (ordered (body c));
    match max_loop_depth config with
    | Some max_depth =>
      if bool_decide (max_depth < depth) then
        b ← LoopSummary.block summary head;
        err StatusCode.LOOP_MAX_DEPTH_REACHED b
      else Ok p
    | None => Ok p
    end
  end.
End Reducibility.

Definition verify_reducibility (config : VerifierConfig) (view : FunctionView) : vm () :=
  let current_function := default 0 (fv_index view) in
  summary ← LoopSummary.new (fv_cfg view);
  let partition := LoopPartition.new summary in
  _ ← vfold (process_head config current_function summary) (reverse (LoopSummary.preorder summary)) partition;
  Ok ().
End ControlFlow.
