(* ===== verification/MoveSpanning.v ===== *)
(** The spanning tree of a control-flow graph.

    What [LoopSummary::new] (loop_summary.rs) computes: a numbering of the
    reachable blocks, a tree that spans them, how far the descendants of a node
    reach, and the partition of the edges into back edges, whose target is an
    ancestor of their source, and the rest. *)

From S2P Require Import Prelude MoveFormat MoveCfg MoveSearch MoveLoops.

Module Spanning.
Import Cfg LoopSummary.

(** A vector read with a default. *)
Definition at_ {A} (d : A) (l : list A) (n : nat) : A := default d (l !! n).

Lemma at_insert {A} (d : A) l i x n : i < length l -> at_ d (<[i := x]> l) n = if decide (n = i) then x else at_ d l n.
Proof.
  intros Hi. unfold at_. destruct (decide (n = i)) as [->|Hne]; [by rewrite list_lookup_insert_eq|by rewrite list_lookup_insert_ne].
Qed.

Lemma at_replicate {A} (d : A) k n : at_ d (replicate k d) n = d.
Proof.
  unfold at_. destruct (decide (n < k)); [by rewrite lookup_replicate_2|]. by rewrite (proj1 (lookup_replicate_None _ _ _)) by lia.
Qed.

Section Summary.
Context (ls : LoopSummary).

Definition desc_of (n : nat) : nat := at_ 0 (descs ls) n.
Definition backs_of (n : nat) : list nat := at_ [] (backs ls) n.
Definition preds_of (n : nat) : list nat := at_ [] (preds ls) n.
Definition block_of (n : nat) : nat := at_ 0 (ls_blocks ls) n.

(** The edge the search found [v] by. *)
Definition tree (p v : nat) : Prop := head (preds_of v) = Some p.

(** The open nodes, the innermost first: the numbers below [t] that are not
    below the head are its descendants. *)
Fixpoint chain (ms : list nat) (t : nat) : Prop :=
  match ms with
  | [] => False
  | m :: ms' => m + desc_of m + 1 = t /\ match ms' with [] => m = 0 | p :: _ => tree p m /\ chain ms' m end
  end.
End Summary.

(** What the stack holds: for each open node the visits left to do and the entry
    that finishes it. *)
Inductive layout (blocks : gmap nat BasicBlock) (bs : list nat) : list nat -> list Frontier -> Prop :=
| layout_root l b : bs !! 0 = Some b -> (forall x, x ∈ l -> CfgSearch.edge blocks b x) -> layout blocks bs [0] (map (Visit 0) l)
| layout_open m p ms b l st :
  bs !! m = Some b -> (forall x, x ∈ l -> CfgSearch.edge blocks b x) -> layout blocks bs (p :: ms) st ->
  layout blocks bs (m :: p :: ms) (map (Visit m) l ++ Finish b m p :: st).

Lemma layout_visit blocks bs ms u x rest : layout blocks bs ms (Visit u x :: rest) ->
  exists ms' b, ms = u :: ms' /\ bs !! u = Some b /\ CfgSearch.edge blocks b x /\ layout blocks bs ms rest.
Proof.
  intros Hl. inversion Hl as [l b Hb Hx Heq1 Heq|m p ms' b l st Hb Hx Hst Heq1 Heq]; subst; clear Hl.
  - destruct l as [|y l]; [done|]. cbn in Heq. simplify_eq. exists [], b. split; [done|]. split; [done|].
    split; [apply Hx; by left|]. eapply layout_root; [done|]. set_solver.
  - destruct l as [|y l]; [done|]. cbn in Heq. simplify_eq. exists (p :: ms'), b. split; [done|]. split; [done|].
    split; [apply Hx; by left|]. constructor; [done|set_solver|done].
Qed.

Lemma span_layout_finish blocks bs ms b n p rest : layout blocks bs ms (Finish b n p :: rest) ->
  exists ms', ms = n :: p :: ms' /\ bs !! n = Some b /\ layout blocks bs (p :: ms') rest.
Proof.
  intros Hl. inversion Hl as [l b' Hb Hx Heq1 Heq|m p' ms' b' l st Hb Hx Hst Heq1 Heq]; subst; clear Hl.
  - by destruct l.
  - destruct l as [|y l]; [|done]. cbn in Heq. simplify_eq. by exists ms'.
Qed.

Lemma layout_nil blocks bs ms : layout blocks bs ms [] -> ms = [0].
Proof.
  intros Hl. inversion Hl as [l b' Hb Hx Heq1 Heq|m p' ms' b' l st Hb Hx Hst Heq1 Heq]; subst; [done|]. by destruct l.
Qed.

Lemma span_layout_weaken blocks bs bs' ms st :
  (forall m b, m ∈ ms -> bs !! m = Some b -> bs' !! m = Some b) -> layout blocks bs ms st -> layout blocks bs' ms st.
Proof.
  intros Hb Hl. induction Hl as [l b H0 Hx|m p ms b l st Hm Hx Hst IH]; econstructor; try done.
  - apply Hb; [by left|done].
  - apply Hb; [by left|done].
  - apply IH. intros. apply Hb; [by right|done].
Qed.

Lemma layout_from blocks bs ms st u x : layout blocks bs ms st -> Visit u x ∈ st -> u ∈ ms.
Proof.
  induction 1 as [l b Hb Hx|m p ms b l st Hb Hx Hst IH].
  - intros (y & [= <- <-] & _)%list_elem_of_fmap. by left.
  - intros [(y & [= <- <-] & _)%list_elem_of_fmap|[?|Hin]%elem_of_cons]%elem_of_app; [by left|done|]. right. by apply IH.
Qed.

Lemma path_lt ls ms t m : chain ls ms t -> m ∈ ms -> m < t.
Proof.
  revert t. induction ms as [|x ms IH]; intros t; [done|]. intros [Ht Hr] [->|Hm]%elem_of_cons; [lia|].
  destruct ms as [|p ms]; [by apply elem_of_nil in Hm|]. destruct Hr as [_ Hr]. specialize (IH x Hr Hm). lia.
Qed.

Lemma path_tail ls m p ms t : chain ls (m :: p :: ms) t -> tree ls p m /\ chain ls (p :: ms) m.
Proof. by intros [_ ?]. Qed.

Lemma chain_tree ls m ms t x : chain ls (m :: ms) t -> x ∈ m :: ms -> rtc (tree ls) x m.
Proof.
  revert m t. induction ms as [|p ms IH]; intros m t Hc [->|Hx]%elem_of_cons; [done|by apply elem_of_nil in Hx|done|].
  apply path_tail in Hc as [Ht Hc]. eapply rtc_r; [by eapply IH|done].
Qed.

Lemma path_ext ls ls' ms t :
  (forall m, m ∈ ms -> desc_of ls' m = desc_of ls m) -> (forall p v, tree ls p v -> tree ls' p v) -> chain ls ms t -> chain ls' ms t.
Proof.
  intros Hd Ht. revert t. induction ms as [|m ms IH]; intros t; [done|]. cbn. intros [Hm Hr]. rewrite Hd by (by left). split; [done|].
  destruct ms as [|p ms]; [done|]. destruct Hr as [? ?]. split; [by apply Ht|]. apply IH; [|done]. intros. apply Hd. by right.
Qed.

(** ** The search *)

Section Search.
Context (cfg : VMControlFlowGraph).
Let blocks := blocks_map cfg.

Record Inv (s : Search) (ms : list nat) : Prop := {
  iv_blocks : length (ls_blocks (summary s)) = size blocks;
  iv_descs : length (descs (summary s)) = size blocks;
  iv_backs : length (backs (summary s)) = size blocks;
  iv_preds : length (preds (summary s)) = size blocks;
  iv_dom b : is_Some (explored s !! b) -> is_Some (blocks !! b);
  iv_size : size (explored s) = next_node s;
  iv_entry : explored s !! 0 = Some (InProgress 0);
  iv_node b n : explored s !! b = Some (InProgress n) \/ explored s !! b = Some (Done n) ->
    n < next_node s /\ ls_blocks (summary s) !! n = Some b;
  iv_block n : n < next_node s -> exists b, ls_blocks (summary s) !! n = Some b /\
    explored s !! b = Some (if decide (n ∈ ms) then InProgress n else Done n);
  iv_chain : chain (summary s) ms (next_node s);
  iv_layout : layout blocks (ls_blocks (summary s)) ms (frontier s);
  iv_fresh n : next_node s <= n -> desc_of (summary s) n = 0 /\ backs_of (summary s) n = [] /\ preds_of (summary s) n = [];
  iv_root : preds_of (summary s) 0 = [];
  iv_tree v : 0 < v < next_node s -> exists p, tree (summary s) p v /\ p < v;
  iv_edge u v : u ∈ backs_of (summary s) v \/ u ∈ preds_of (summary s) v ->
    u < next_node s /\ v < next_node s /\ CfgSearch.edge blocks (block_of (summary s) u) (block_of (summary s) v);
  iv_complete u x : u < next_node s -> CfgSearch.edge blocks (block_of (summary s) u) x ->
    (exists v, v < next_node s /\ block_of (summary s) v = x /\ (u ∈ backs_of (summary s) v \/ u ∈ preds_of (summary s) v)) \/
    Visit u x ∈ frontier s;
  iv_back u v : u ∈ backs_of (summary s) v -> rtc (tree (summary s)) v u;
  iv_pred u v : u ∈ preds_of (summary s) v ->
    (u < v /\ (u ∈ ms \/ v <= u + desc_of (summary s) u)) \/ ((v ∉ ms) /\ v + desc_of (summary s) v < u);
  iv_done n : n < next_node s -> n ∉ ms ->
    n + desc_of (summary s) n < next_node s /\
    (forall p, n <= p <= n + desc_of (summary s) n -> (p ∉ ms) /\ p + desc_of (summary s) p <= n + desc_of (summary s) n) /\
    (forall p, rtc (tree (summary s)) n p -> p <= n + desc_of (summary s) n);
}.

Lemma inv_next s ms : Inv s ms -> next_node s <= size blocks.
Proof.
  intros HI. rewrite <- (iv_size s ms HI), <- !size_dom. apply subseteq_size. intros b [? Hb]%elem_of_dom.
  apply elem_of_dom, (iv_dom s ms HI). eauto.
Qed.

Lemma inv_tree_lt s ms p v : Inv s ms -> tree (summary s) p v -> p < v /\ v < next_node s.
Proof.
  intros HI Ht. destruct (decide (v = 0)) as [->|Hv]; [unfold tree in Ht; by rewrite (iv_root s ms HI) in Ht|].
  destruct (decide (v < next_node s)) as [Hlt|Hge].
  - destruct (iv_tree s ms HI v) as (p' & Hp' & ?); [lia|]. unfold tree in *. rewrite Hp' in Ht. simplify_eq. done.
  - destruct (iv_fresh s ms HI v) as (_ & _ & Hp); [lia|]. unfold tree in Ht. by rewrite Hp in Ht.
Qed.

Lemma inv_star_le s ms a b : Inv s ms -> rtc (tree (summary s)) a b -> a <= b /\ (b < next_node s \/ a = b).
Proof.
  intros HI. induction 1 as [|a c b Hac _ [IH1 IH2]]; [lia|]. destruct (inv_tree_lt _ _ _ _ HI Hac). split; [lia|]. left.
  destruct IH2 as [?| ->]; [done|lia].
Qed.

Lemma push_at_Ok (l : list (list nat)) i x : i < length l -> push_at l i x = Ok (<[i := at_ [] l i ++ [x]]> l).
Proof.
  intros Hi. unfold push_at. destruct (index_lt l i Hi) as (a & -> & Ha). vm_cbn. unfold set_index, at_. rewrite Ha.
  by rewrite bool_decide_true.
Qed.

(** Visiting a block that is open: a back edge. *)
Lemma inv_visit_open s ms u x rest v :
  frontier s = Visit u x :: rest -> explored s !! x = Some (InProgress v) -> Inv s ms ->
  exists s', visit cfg s u x rest = Ok s' /\ Inv s' ms /\ frontier s' = rest /\ next_node s' = next_node s.
Proof.
  intros Hf Hx HI. destruct (iv_node s ms HI x v) as [Hv Hbv]; [by left|]. pose proof (inv_next s ms HI) as Hn.
  unfold visit. rewrite Hx, push_at_Ok by (rewrite (iv_backs s ms HI); lia). vm_cbn. eexists. split; [done|].
  pose proof (iv_layout s ms HI) as Hl. rewrite Hf in Hl. apply layout_visit in Hl as (ms' & b & -> & Hbu & Hedge & Hl).
  assert (v ∈ u :: ms') as Hopen.
  { destruct (iv_block _ _ HI v Hv) as (b' & Hb' & He). rewrite Hbv in Hb'. injection Hb' as <-. rewrite Hx in He.
    destruct (decide (v ∈ u :: ms')); [done|]. by simplify_eq. }
  assert (u < next_node s) as Hu by (eapply path_lt; [apply HI|by left]).
  assert (block_of (summary s) u = b /\ block_of (summary s) v = x) as [HBu HBv] by (unfold block_of, at_; by rewrite Hbu, Hbv).
  assert (forall n, at_ [] (<[v := at_ [] (backs (summary s)) v ++ [u]]> (backs (summary s))) n =
    if decide (n = v) then backs_of (summary s) v ++ [u] else backs_of (summary s) n) as Hbk.
  { intros n. rewrite at_insert by (rewrite (iv_backs _ _ HI); lia). done. }
  destruct HI as [H1 H2 H3 H4 Hdom Hsize Hent Hnode Hblock Hchain _ Hfresh Hroot Htree Hedges Hcomplete Hback Hpred Hdone].
  split; [|done]. split; cbn; unfold const; try done.
  - by rewrite length_insert.
  - intros n Hge. unfold backs_of. cbn. unfold const. rewrite Hbk, decide_False by lia. by apply Hfresh.
  - intros u' v'. unfold backs_of. cbn. unfold const. rewrite Hbk. destruct (decide (v' = v)) as [->|]; [|apply Hedges].
    intros [[Hin| ->%list_elem_of_singleton]%elem_of_app|Hin]; [apply Hedges; by left| |apply Hedges; by right].
    split; [done|]. split; [done|]. change (CfgSearch.edge blocks (block_of (summary s) u) (block_of (summary s) v)). by rewrite HBu, HBv.
  - intros u' x' Hu' He. destruct (Hcomplete u' x' Hu' He) as [(w & Hw & Hbw & Hin)|Hin].
    + left. exists w. split; [done|]. split; [done|]. destruct Hin as [Hin|Hin]; [left|by right].
      unfold backs_of. cbn. unfold const. rewrite Hbk. destruct (decide (w = v)) as [->|]; [|done]. apply elem_of_app. by left.
    + rewrite Hf in Hin. apply elem_of_cons in Hin as [[= -> ->]|Hin]; [|by right]. left. exists v. split; [done|]. split; [done|]. left.
      unfold backs_of. cbn. unfold const. rewrite Hbk, decide_True by done. apply elem_of_app. right. by left.
  - intros u' v'. unfold backs_of. cbn. unfold const. rewrite Hbk. destruct (decide (v' = v)) as [->|]; [|apply Hback].
    intros [Hin| ->%list_elem_of_singleton]%elem_of_app; [by apply Hback|]. by eapply chain_tree.
Qed.

Lemma chain_zero ls ms t : chain ls ms t -> 0 ∈ ms.
Proof.
  revert t. induction ms as [|m ms IH]; intros t; [done|]. intros [_ Hr]. destruct ms as [|p ms]; [subst m; by left|].
  right. by eapply IH, Hr.
Qed.

(** Visiting a block that is finished: an edge across or forward. *)
Lemma inv_visit_done s ms u x rest v :
  frontier s = Visit u x :: rest -> explored s !! x = Some (Done v) -> Inv s ms ->
  exists s', visit cfg s u x rest = Ok s' /\ Inv s' ms /\ frontier s' = rest /\ next_node s' = next_node s.
Proof.
  intros Hf Hx HI. destruct (iv_node s ms HI x v) as [Hv Hbv]; [by right|]. pose proof (inv_next s ms HI) as Hn.
  unfold visit. rewrite Hx, push_at_Ok by (rewrite (iv_preds s ms HI); lia). vm_cbn. eexists. split; [done|].
  pose proof (iv_layout s ms HI) as Hl. rewrite Hf in Hl. apply layout_visit in Hl as (ms' & b & -> & Hbu & Hedge & Hl).
  assert (v ∉ u :: ms') as Hclosed.
  { destruct (iv_block _ _ HI v Hv) as (b' & Hb' & He). rewrite Hbv in Hb'. injection Hb' as <-. rewrite Hx in He.
    destruct (decide (v ∈ u :: ms')); [by simplify_eq|done]. }
  assert (v <> 0) as Hv0 by (intros ->; by apply Hclosed, (chain_zero (summary s) _ (next_node s)), HI).
  assert (u < next_node s) as Hu by (eapply path_lt; [apply HI|by left]).
  assert (block_of (summary s) u = b /\ block_of (summary s) v = x) as [HBu HBv] by (unfold block_of, at_; by rewrite Hbu, Hbv).
  set (ls' := (summary s) <| preds := <[v := at_ [] (preds (summary s)) v ++ [u]]> (preds (summary s)) |>).
  assert (forall n, preds_of ls' n = if decide (n = v) then preds_of (summary s) v ++ [u] else preds_of (summary s) n) as Hpr.
  { intros n. unfold ls', preds_of. cbn. unfold const. rewrite at_insert by (rewrite (iv_preds _ _ HI); lia). done. }
  assert (forall p w, tree ls' p w <-> tree (summary s) p w) as Htr.
  { intros p w. unfold tree. rewrite Hpr. destruct (decide (w = v)) as [->|]; [|done].
    destruct (iv_tree _ _ HI v) as (q & Hq & _); [lia|]. unfold tree in Hq. by destruct (preds_of (summary s) v). }
  assert (forall a c, rtc (tree ls') a c <-> rtc (tree (summary s)) a c) as Hstar.
  { intros a c. split; apply rtc_subrel; intros ? ?; apply Htr. }
  destruct HI as [H1 H2 H3 H4 Hdom Hsize Hent Hnode Hblock Hchain _ Hfresh Hroot Htree Hedges Hcomplete Hback Hpred Hdone].
  split; [|done]. split; try done.
  - cbn. unfold const. by rewrite length_insert.
  - change (chain ls' (u :: ms') (next_node s)). eapply path_ext; [| |exact Hchain]; [done|]. intros. by apply Htr.
  - intros n Hge. change (desc_of ls' n = 0 /\ backs_of ls' n = [] /\ preds_of ls' n = []). rewrite Hpr, decide_False by (cbn in Hge; lia).
    by apply Hfresh.
  - change (preds_of ls' 0 = []). by rewrite Hpr, decide_False by lia.
  - intros w Hw. destruct (Htree w Hw) as (q & Hq & ?). exists q. split; [by apply Htr|done].
  - intros u' v'. change (u' ∈ backs_of (summary s) v' \/ u' ∈ preds_of ls' v' ->
      u' < next_node s /\ v' < next_node s /\ CfgSearch.edge blocks (block_of (summary s) u') (block_of (summary s) v')).
    rewrite Hpr. destruct (decide (v' = v)) as [->|]; [|apply Hedges].
    intros [Hin|[Hin| ->%list_elem_of_singleton]%elem_of_app]; [apply Hedges; by left|apply Hedges; by right|]. by rewrite HBu, HBv.
  - intros u' x' Hu' He. destruct (Hcomplete u' x' Hu' He) as [(w & Hw & Hbw & Hin)|Hin].
    + left. exists w. split; [done|]. split; [done|]. destruct Hin as [Hin|Hin]; [by left|right].
      change (u' ∈ preds_of ls' w). rewrite Hpr. destruct (decide (w = v)) as [->|]; [|done]. apply elem_of_app. by left.
    + rewrite Hf in Hin. apply elem_of_cons in Hin as [[= -> ->]|Hin]; [|by right]. left. exists v. split; [done|]. split; [done|]. right.
      change (u ∈ preds_of ls' v). rewrite Hpr, decide_True by done. apply elem_of_app. right. by left.
  - intros u' v' Hin. apply Hstar. by apply Hback.
  - intros u' v'. change (u' ∈ preds_of ls' v' -> (u' < v' /\ (u' ∈ u :: ms' \/ v' <= u' + desc_of (summary s) u')) \/
      ((v' ∉ u :: ms') /\ v' + desc_of (summary s) v' < u')).
    rewrite Hpr. destruct (decide (v' = v)) as [->|]; [|apply Hpred].
    intros [Hin| ->%list_elem_of_singleton]%elem_of_app; [by apply Hpred|].
    destruct (Hdone v Hv Hclosed) as (_ & Hin & _). specialize (Hin u).
    destruct (decide (u < v)); [left; split; [done|]; left; by left|]. right. split; [done|].
    destruct (decide (v + desc_of (summary s) v < u)); [done|]. destruct Hin as [Hnot _]; [lia|]. destruct Hnot. by left.
  - intros n Hlt Hnm. destruct (Hdone n Hlt Hnm) as (? & ? & Hs). split; [done|]. split; [done|]. intros p Hp. by apply Hs, Hstar.
Qed.

Context (Hblocks_closed : forall b bb t, blocks !! b = Some bb -> t ∈ bb_successors bb -> is_Some (blocks !! t)).
Context (Hblocks_size : (Z.of_nat (size blocks) < 65536)%Z).

Lemma edge_block a b : CfgSearch.edge blocks a b -> is_Some (blocks !! b).
Proof.
  unfold CfgSearch.edge, CfgSearch.succs. destruct (blocks !! a) as [bb|] eqn:Ha; [by eapply Hblocks_closed|]. by intros ?%elem_of_nil.
Qed.

Lemma visits_map m l : visits m l = map (Visit m) (reverse l).
Proof. unfold visits. symmetry. apply fmap_reverse. Qed.

(** Visiting a new block: it becomes the innermost open node. *)
Lemma inv_visit_new s ms u x rest :
  frontier s = Visit u x :: rest -> explored s !! x = None -> Inv s ms ->
  exists s' bb, visit cfg s u x rest = Ok s' /\ Inv s' (next_node s :: ms) /\ blocks !! x = Some bb /\
    frontier s' = visits (next_node s) (bb_successors bb) ++ Finish x (next_node s) u :: rest /\ next_node s' = S (next_node s).
Proof.
  intros Hf Hx HI. pose proof (iv_layout s ms HI) as Hl. rewrite Hf in Hl. apply layout_visit in Hl as (ms' & b & -> & Hbu & Hedge & Hl).
  destruct (edge_block _ _ Hedge) as [bb Hbb].
  assert (next_node s < size blocks) as Hn.
  { rewrite <- (iv_size s _ HI), <- !size_dom. apply subset_size. split.
    - intros y [? Hy]%elem_of_dom. apply elem_of_dom, (iv_dom s _ HI). eauto.
    - intros Hsub. assert (x ∈ dom (explored s)) as [? ?]%elem_of_dom by (apply Hsub, elem_of_dom; eauto). congruence. }
  destruct (iv_fresh s _ HI (next_node s)) as (HD0 & HB0 & HP0); [lia|].
  set (ls' := (summary s) <| ls_blocks := <[next_node s := x]> (ls_blocks (summary s)) |>
    <| preds := <[next_node s := [u]]> (preds (summary s)) |>).
  set (s' := {| summary := ls'; next_node := S (next_node s); explored := <[x := InProgress (next_node s)]> (explored s);
    frontier := visits (next_node s) (bb_successors bb) ++ Finish x (next_node s) u :: rest |}).
  exists s', bb. split.
  { unfold visit. rewrite Hx. unfold u16_add. rewrite bool_decide_true by lia. vm_cbn. unfold set_index.
    rewrite bool_decide_true by (rewrite (iv_blocks _ _ HI); lia). vm_cbn.
    rewrite push_at_Ok by (rewrite (iv_preds _ _ HI); lia). vm_cbn. unfold successors, map_index. fold blocks. rewrite Hbb. vm_cbn.
    unfold preds_of in HP0. rewrite HP0, Nat.add_1_r. done. }
  split; [|done].
  assert (forall n, preds_of ls' n = if decide (n = next_node s) then [u] else preds_of (summary s) n) as Hpr.
  { intros n. unfold ls', preds_of. cbn. unfold const. rewrite at_insert by (rewrite (iv_preds _ _ HI); lia). done. }
  assert (forall n, block_of ls' n = if decide (n = next_node s) then x else block_of (summary s) n) as Hbl.
  { intros n. unfold ls', block_of. cbn. unfold const. rewrite at_insert by (rewrite (iv_blocks _ _ HI); lia). done. }
  assert (u < next_node s) as Hu by (eapply path_lt; [apply HI|by left]).
  assert (block_of (summary s) u = b) as HBu by (unfold block_of, at_; by rewrite Hbu).
  assert (forall p w, tree ls' p w <-> tree (summary s) p w \/ (p = u /\ w = next_node s)) as Htr.
  { intros p w. unfold tree. rewrite Hpr. destruct (decide (w = next_node s)) as [->|]; [rewrite HP0; cbn; naive_solver|naive_solver]. }
  assert (forall a c, rtc (tree ls') a c -> a = c \/ rtc (tree (summary s)) a c \/ (c = next_node s /\ rtc (tree (summary s)) a u)) as Hstar.
  { intros a. apply rtc_ind_r; [by left|]. intros c d _ Hcd IH. right. apply Htr in Hcd as [Hcd|[-> ->]].
    - destruct IH as [->|[IH|[-> _]]]; [left; by apply rtc_once|left; by eapply rtc_r|]. destruct (inv_tree_lt _ _ _ _ HI Hcd). lia.
    - right. split; [done|]. destruct IH as [->|[?|[? _]]]; [done|done|lia]. }
  assert (forall a c, rtc (tree (summary s)) a c -> rtc (tree ls') a c) as Hstar' by (intros a c; apply rtc_subrel; intros; apply Htr; by left).
  assert (next_node s ∉ u :: ms') as Hnew by (intros Hin; assert (next_node s < next_node s) by (eapply path_lt; [apply HI|done]); lia).
  assert (HI' := HI).
  destruct HI as [H1 H2 H3 H4 Hdom Hsize Hent Hnode Hblock Hchain _ Hfresh Hroot Htree Hedges Hcomplete Hback Hpred Hdone].
  split; change (summary s') with ls'; change (next_node s') with (S (next_node s)); try (cbn; unfold const; rewrite ?length_insert; done).
  - intros y [? Hy]. cbn in Hy. apply lookup_insert_Some in Hy as [[<- _]|[_ Hy]]; [eauto|by apply Hdom; eauto].
  - cbn. rewrite map_size_insert, Hx. by rewrite Hsize.
  - cbn. rewrite lookup_insert_ne; [done|]. intros ->. congruence.
  - intros y n. cbn. unfold const. destruct (decide (y = x)) as [->|].
    + rewrite lookup_insert_eq. intros [[= <-]|?]; [|done]. split; [lia|]. rewrite list_lookup_insert_eq by lia. done.
    + rewrite lookup_insert_ne by done. intros Hy. destruct (Hnode y n Hy). split; [lia|]. by rewrite list_lookup_insert_ne by lia.
  - intros n Hlt. cbn. unfold const. destruct (decide (n = next_node s)) as [->|].
    + exists x. rewrite list_lookup_insert_eq by lia. split; [done|]. rewrite lookup_insert_eq, decide_True by (by left). done.
    + destruct (Hblock n) as (y & Hy & He); [lia|]. exists y. rewrite list_lookup_insert_ne by done. split; [done|].
      rewrite lookup_insert_ne by congruence. rewrite He. f_equal. destruct (decide (n ∈ u :: ms')), (decide (n ∈ next_node s :: u :: ms')); set_solver.
  - split; [change (desc_of ls' (next_node s)) with (desc_of (summary s) (next_node s)); rewrite HD0; lia|].
    split; [apply Htr; by right|]. eapply path_ext; [| |exact Hchain]; [done|]. intros. apply Htr. by left.
  - change (layout blocks (<[next_node s := x]> (ls_blocks (summary s))) (next_node s :: u :: ms')
      (visits (next_node s) (bb_successors bb) ++ Finish x (next_node s) u :: rest)). rewrite visits_map. constructor.
    + by rewrite list_lookup_insert_eq by lia.
    + intros y. rewrite elem_of_reverse. intros Hy. unfold CfgSearch.edge, CfgSearch.succs. by rewrite Hbb.
    + eapply span_layout_weaken; [|exact Hl]. intros m c Hms Hm. rewrite list_lookup_insert_ne; [done|]. intros Heq. subst m. done.
  - intros n Hge. rewrite Hpr, decide_False by lia. apply Hfresh. lia.
  - rewrite Hpr, decide_False by lia. done.
  - intros w Hw. destruct (decide (w = next_node s)) as [->|]; [exists u; split; [apply Htr; by right|done]|].
    destruct (Htree w) as (q & Hq & ?); [lia|]. exists q. split; [apply Htr; by left|done].
  - intros u' v' Hin. assert (u' < next_node s /\ v' < next_node s /\ CfgSearch.edge blocks (block_of (summary s) u') (block_of (summary s) v') \/
      u' = u /\ v' = next_node s) as [(? & ? & ?)|[-> ->]].
    { rewrite Hpr in Hin. destruct Hin as [Hin|Hin]; [left; apply Hedges; by left|].
      destruct (decide (v' = next_node s)); [right; set_solver|left; apply Hedges; by right]. }
    + split; [lia|]. split; [lia|]. by rewrite !Hbl, !decide_False by lia.
    + split; [lia|]. split; [lia|]. rewrite !Hbl, decide_False, decide_True by lia. by rewrite HBu.
  - intros u' y Hu' He. rewrite Hbl in He. destruct (decide (u' = next_node s)) as [->|].
    + right. cbn. rewrite visits_map. apply elem_of_app. left. apply list_elem_of_fmap. exists y. split; [done|]. apply elem_of_reverse.
      unfold CfgSearch.edge, CfgSearch.succs in He. by rewrite Hbb in He.
    + destruct (Hcomplete u' y) as [(w & Hw & Hbw & Hin)|Hin]; [lia|done|..].
      * left. exists w. split; [lia|]. rewrite Hbl, Hpr, decide_False by lia. split; [done|]. by destruct (decide (w = next_node s)); [lia|].
      * rewrite Hf in Hin. apply elem_of_cons in Hin as [[= -> ->]|Hin].
        -- left. exists (next_node s). split; [lia|]. rewrite Hbl, Hpr, !decide_True by done. split; [done|]. right. by left.
        -- right. cbn. apply elem_of_app. right. by right.
  - intros u' v' Hin. apply Hstar', Hback. done.
  - intros u' v'. rewrite Hpr. destruct (decide (v' = next_node s)) as [->|].
    + intros ->%list_elem_of_singleton. left. split; [done|]. left. right. by left.
    + intros Hin. destruct (Hpred u' v' Hin) as [[? [?|?]]|[? ?]]; [left; split; [done|]; left; by right|left; split; [done|]; by right|].
      right. split; [|done]. intros [->|?]%elem_of_cons; done.
  - intros n Hlt Hnm. assert (n <> next_node s) by (intros ->; apply Hnm; by left). change (desc_of ls') with (desc_of (summary s)).
    destruct (Hdone n) as (Hd1 & Hd2 & Hd3); [lia|set_solver|]. split; [lia|]. split.
    + intros p Hp. destruct (Hd2 p Hp). split; [|done]. intros [->|?]%elem_of_cons; [lia|done].
    + intros p Hp. destruct (Hstar n p Hp) as [->|[?|[-> Hnu]]]; [lia|by apply Hd3|]. exfalso.
      assert (u <= n + desc_of (summary s) n) as Hun by by apply Hd3. destruct (inv_star_le s _ _ _ HI' Hnu).
      destruct (Hd2 u) as [Hnot _]; [lia|]. apply Hnot. by left.
Qed.

(** Finishing a node: its descendants are the numbers given since. *)
Lemma span_inv_finish s ms b n p rest :
  frontier s = Finish b n p :: rest -> Inv s ms ->
  exists s' ms', finish s b n p rest = Ok s' /\ Inv s' ms' /\ frontier s' = rest /\ next_node s' = next_node s.
Proof.
  intros Hf HI. pose proof (iv_layout s ms HI) as Hl. rewrite Hf in Hl. apply span_layout_finish in Hl as (ms' & -> & Hbn & Hl).
  pose proof (iv_chain s _ HI) as Hc. destruct (path_tail _ _ _ _ _ Hc) as [Htn Hcp].
  assert (n + desc_of (summary s) n + 1 = next_node s) as Hn by apply Hc. assert (p + desc_of (summary s) p + 1 = n) as Hp by apply Hcp.
  pose proof (inv_next s _ HI) as Hsize.
  assert (forall m, m ∈ p :: ms' -> m < n) as Hbelow by (intros m Hm; by eapply path_lt).
  destruct (iv_block s _ HI n) as (b' & Hb' & He); [lia|]. rewrite Hbn in Hb'. injection Hb' as <-. rewrite decide_True in He by (by left).
  set (ls' := (summary s) <| descs := <[p := desc_of (summary s) p + (1 + desc_of (summary s) n)]> (descs (summary s)) |>).
  set (s' := s <| summary := ls' |> <| explored := <[b := Done n]> (explored s) |> <| frontier := rest |>).
  exists s', (p :: ms'). split.
  { assert (forall m, m < size blocks -> index (descs (summary s)) m = Ok (desc_of (summary s) m)) as Hix.
    { intros m Hm. destruct (index_lt (descs (summary s)) m) as (d & -> & Hd); [rewrite (iv_descs _ _ HI); lia|].
      unfold desc_of, at_. by rewrite Hd. }
    unfold finish. rewrite !Hix by lia. vm_cbn. unfold u16_add. rewrite (bool_decide_true (Z.of_nat (1 + _) < _)%Z) by lia. vm_cbn.
    rewrite bool_decide_true by lia. vm_cbn. unfold set_index. rewrite bool_decide_true by (rewrite (iv_descs _ _ HI); lia). vm_cbn.
    unfold map_index. rewrite He. done. }
  split; [|done].
  assert (forall m, desc_of ls' m = if decide (m = p) then desc_of (summary s) p + (1 + desc_of (summary s) n) else desc_of (summary s) m) as Hd.
  { intros m. unfold ls', desc_of. cbn. unfold const. rewrite at_insert by (rewrite (iv_descs _ _ HI); lia). done. }
  assert (HI' := HI). destruct HI as [H1 H2 H3 H4 Hdom Hsz Hent Hnode Hblock _ _ Hfresh Hroot Htree Hedges Hcomplete Hback Hpred Hdone].
  split; change (summary s') with ls'; change (next_node s') with (next_node s); try done.
  - cbn. unfold const. by rewrite length_insert.
  - intros y Hy. apply Hdom. cbn in Hy. unfold const in Hy. destruct (decide (y = b)) as [->|]; [eauto|by rewrite lookup_insert_ne in Hy].
  - cbn. unfold const. by rewrite map_size_insert, He.
  - cbn. unfold const. rewrite lookup_insert_ne; [done|]. intros ->. rewrite Hent in He. injection He as <-. lia.
  - intros y m Hy. apply Hnode. cbn in Hy. unfold const in Hy. destruct (decide (y = b)) as [->|]; [|by rewrite lookup_insert_ne in Hy].
    rewrite lookup_insert_eq in Hy. left. destruct Hy as [?|[= <-]]; done.
  - intros m Hm. destruct (Hblock m Hm) as (y & Hy & Hey). exists y. split; [done|]. cbn. unfold const.
    destruct (decide (y = b)) as [->|].
    + assert (m = n) as ->. { rewrite He in Hey. by destruct (decide _); simplify_eq. }
      rewrite lookup_insert_eq, decide_False; [done|]. intros Hin%Hbelow. lia.
    + rewrite lookup_insert_ne by done. rewrite Hey. f_equal. assert (m <> n) by congruence.
      destruct (decide (m ∈ p :: ms')), (decide (m ∈ n :: p :: ms')); set_solver.
  - split; [rewrite Hd, decide_True by done; lia|].
    destruct ms' as [|q ms']; [by destruct Hcp|]. apply path_tail in Hcp as [Ht Hr]. split; [done|]. eapply path_ext; [| |exact Hr]; [|done].
    intros m Hm. rewrite Hd, decide_False; [done|]. assert (m < p) by by eapply path_lt. lia.
  - intros m Hge. destruct (Hfresh m Hge) as (? & ? & ?). rewrite Hd, decide_False by lia. done.
  - intros u x Hu Hx. destruct (Hcomplete u x Hu Hx) as [?|Hin]; [by left|]. right. rewrite Hf in Hin.
    by apply elem_of_cons in Hin as [?|?].
  - intros u v Hin. destruct (Hpred u v Hin) as [[Hlt Hcase]|[Hv Hlt]].
    + left. split; [done|]. destruct (decide (u ∈ p :: ms')) as [|Hnu]; [by left|]. right. rewrite Hd, decide_False by set_solver.
      destruct Hcase as [[->|?]%elem_of_cons|?]; [|done..]. destruct (Hedges n v); [by right|]. lia.
    + right. split; [set_solver|]. rewrite Hd, decide_False by set_solver. done.
  - intros m Hm Hnm. destruct (decide (m = n)) as [->|Hne].
    + rewrite Hd, decide_False by (specialize (Hbelow p); set_solver). split; [lia|]. split.
      * intros q Hq. assert (q ∉ p :: ms') as Hqn by (intros ?%Hbelow; lia). split; [done|]. rewrite Hd, decide_False by set_solver.
        destruct (decide (q = n)) as [->|]; [lia|]. destruct (Hdone q); [lia|set_solver|lia].
      * intros q Hq. destruct (inv_star_le s _ n q HI' Hq) as [_ [?| ->]]; lia.
    + destruct (Hdone m Hm) as (Hd1 & Hd2 & Hd3); [set_solver|]. rewrite Hd, decide_False by set_solver. split; [done|]. split; [|done].
      intros q Hq. destruct (Hd2 q Hq) as [Hqn ?]. split; [set_solver|]. by rewrite Hd, decide_False by set_solver.
Qed.

Context (Htwo : forall b bb, blocks !! b = Some bb -> length (bb_successors bb) <= 2).

Lemma explore_Ok fuel s ms :
  Inv s ms -> length (frontier s) + 3 * (size blocks - next_node s) <= fuel ->
  exists s', explore fuel cfg s = Ok s' /\ frontier s' = [] /\ Inv s' [0].
Proof.
  revert s ms. induction fuel as [|fuel IH]; intros s ms HI Hfuel; destruct (frontier s) as [|action rest] eqn:Hf;
    try (exists s; cbn; rewrite Hf; split; [done|]; split; [done|];
         pose proof (iv_layout s ms HI) as Hl; rewrite Hf in Hl; by rewrite (layout_nil _ _ _ Hl) in HI).
  { cbn in Hfuel. lia. }
  cbn [explore]. rewrite Hf. cbn [length] in Hfuel. pose proof (inv_next s ms HI).
  destruct action as [u x|b n p].
  - destruct (explored s !! x) as [[v|v]|] eqn:Hx.
    + destruct (inv_visit_open s ms u x rest v Hf Hx HI) as (s' & -> & HI' & Hf' & Hn'). vm_cbn. eapply IH; [done|]. rewrite Hf', Hn'. lia.
    + destruct (inv_visit_done s ms u x rest v Hf Hx HI) as (s' & -> & HI' & Hf' & Hn'). vm_cbn. eapply IH; [done|]. rewrite Hf', Hn'. lia.
    + destruct (inv_visit_new s ms u x rest Hf Hx HI) as (s' & bb & -> & HI' & Hbb & Hf' & Hn'). vm_cbn. eapply IH; [done|].
      pose proof (inv_next _ _ HI'). rewrite Hf', Hn', length_app, visits_map, length_map, length_reverse in *. cbn.
      specialize (Htwo x bb Hbb). lia.
  - destruct (span_inv_finish s ms b n p rest Hf HI) as (s' & ms' & -> & HI' & Hf' & Hn'). vm_cbn. eapply IH; [done|]. rewrite Hf', Hn'. lia.
Qed.

Context (Hentry : is_Some (blocks !! 0)).

Lemma start_Ok : exists s, start cfg = Ok s /\ Inv s [0] /\ next_node s = 1 /\ length (frontier s) <= 2.
Proof.
  destruct Hentry as [bb Hbb]. assert (0 < size blocks) as Hpos.
  { destruct (decide (size blocks = 0)) as [H0%map_size_empty_inv|]; [by rewrite H0, lookup_empty in Hbb|lia]. }
  unfold start, num_blocks. fold blocks. rewrite u16_small by lia. unfold set_index, successors, map_index, entry_block_id, ENTRY_BLOCK_ID.
  rewrite length_replicate, bool_decide_true by lia. vm_cbn. fold blocks. rewrite Hbb. vm_cbn. eexists. split; [done|].
  split; [|split; [done|]; cbn [frontier]; rewrite visits_map, length_map, length_reverse; by apply (Htwo 0)].
  split; cbn [summary ls_blocks descs backs preds next_node explored frontier]; rewrite ?length_insert, ?length_replicate; try done.
  - intros b [? Hb]. apply lookup_singleton_Some in Hb as [<- _]. eauto.
  - intros b n [Hb|Hb]; apply lookup_singleton_Some in Hb as [<- [= <-]]. split; [lia|]. by rewrite list_lookup_insert_eq by (rewrite length_replicate; lia).
  - intros n Hn. assert (n = 0) as -> by lia. exists 0. rewrite list_lookup_insert_eq by (rewrite length_replicate; lia). split; [done|].
    rewrite lookup_singleton_eq, decide_True by (by left). done.
  - cbn. unfold desc_of. cbn. by rewrite at_replicate.
  - rewrite visits_map. eapply layout_root; [by rewrite list_lookup_insert_eq by (rewrite length_replicate; lia)|].
    intros x. rewrite elem_of_reverse. intros Hx. unfold CfgSearch.edge, CfgSearch.succs. by rewrite Hbb.
  - intros n _. unfold desc_of, backs_of, preds_of. cbn. by rewrite !at_replicate.
  - unfold preds_of. cbn. by rewrite at_replicate.
  - intros. lia.
  - intros u v. unfold backs_of, preds_of. cbn. rewrite !at_replicate. intros [[]%elem_of_nil|[]%elem_of_nil].
  - intros u x Hu Hx. assert (u = 0) as -> by lia. right. rewrite visits_map. apply list_elem_of_fmap. exists x. split; [done|].
    apply elem_of_reverse. unfold block_of, at_ in Hx. cbn in Hx. rewrite list_lookup_insert_eq in Hx by (rewrite length_replicate; lia).
    cbn in Hx. unfold CfgSearch.edge, CfgSearch.succs in Hx. by rewrite Hbb in Hx.
  - intros u v. unfold backs_of. cbn. rewrite at_replicate. by intros ?%elem_of_nil.
  - intros u v. unfold preds_of. cbn. rewrite at_replicate. by intros ?%elem_of_nil.
  - intros n Hn Hnm. assert (n = 0) as -> by lia. destruct Hnm. by left.
Qed.

(** The tree, for [k] reachable blocks. *)
Record Spanning (ls : LoopSummary) (k : nat) : Prop := {
  sp_blocks : length (ls_blocks ls) = size blocks;
  sp_descs : length (descs ls) = size blocks;
  sp_backs : length (backs ls) = size blocks;
  sp_preds : length (preds ls) = size blocks;
  sp_pos : 0 < k <= size blocks;
  sp_root : block_of ls 0 = 0;
  sp_inj m n : m < k -> n < k -> block_of ls m = block_of ls n -> m = n;
  sp_edge u v : u ∈ backs_of ls v \/ u ∈ preds_of ls v -> u < k /\ v < k /\ CfgSearch.edge blocks (block_of ls u) (block_of ls v);
  sp_complete u x : u < k -> CfgSearch.edge blocks (block_of ls u) x ->
    exists v, v < k /\ block_of ls v = x /\ (u ∈ backs_of ls v \/ u ∈ preds_of ls v);
  sp_back u v : u ∈ backs_of ls v -> rtc (tree ls) v u;
  sp_pred u v : u ∈ preds_of ls v -> (u < v /\ v + desc_of ls v <= u + desc_of ls u) \/ v + desc_of ls v < u;
  sp_tree v : 0 < v < k -> exists p, tree ls p v /\ p < v;
  sp_tree_lt p v : tree ls p v -> p < v < k;
  sp_end n : n < k -> n + desc_of ls n < k;
  sp_desc n p : n < k -> rtc (tree ls) n p -> n <= p <= n + desc_of ls n;
}.

Lemma new_Ok : exists ls k, LoopSummary.new cfg = Ok ls /\ Spanning ls k.
Proof.
  destruct start_Ok as (s0 & Hs0 & HI0 & Hn0 & Hf0). unfold LoopSummary.new. rewrite Hs0. vm_cbn.
  destruct (explore_Ok (explore_fuel cfg) s0 [0] HI0) as (s & -> & Hf & HI).
  { unfold explore_fuel. fold blocks. rewrite Hn0. pose proof (inv_next _ _ HI0). lia. }
  vm_cbn. exists (summary s), (next_node s). split; [done|].
  pose proof (inv_next _ _ HI) as Hnext. pose proof (iv_chain _ _ HI) as [Hroot _].
  assert (forall m, m <> 0 -> m ∉ [0]) as Hclosed by set_solver.
  assert (forall n, n < next_node s -> n + desc_of (summary s) n < next_node s) as Hend.
  { intros n Hn. destruct (decide (n = 0)) as [->|]; [lia|]. by apply (iv_done _ _ HI n); [|apply Hclosed]. }
  split; try apply HI.
  - lia.
  - destruct (iv_node _ _ HI 0 0) as [_ Hb]; [left; apply HI|]. unfold block_of, at_. by rewrite Hb.
  - intros m n Hm Hn Heq. destruct (iv_block _ _ HI m Hm) as (b & Hb & He). destruct (iv_block _ _ HI n Hn) as (b' & Hb' & He').
    unfold block_of, at_ in Heq. rewrite Hb, Hb' in Heq. cbn in Heq. subst b'. rewrite He in He'.
    by destruct (decide (m ∈ [0])), (decide (n ∈ [0])); simplify_eq.
  - intros u x Hu He. destruct (iv_complete _ _ HI u x Hu He) as [?|Hin]; [done|]. rewrite Hf in Hin. by apply elem_of_nil in Hin.
  - intros u v Hin. destruct (iv_edge _ _ HI u v) as (Hu & Hv & _); [by right|]. destruct (iv_pred _ _ HI u v Hin) as [[Hlt Hc]|[Hv0 Hlt]]; [|by right].
    left. split; [done|]. destruct Hc as [->%list_elem_of_singleton|Hle]; [specialize (Hend v Hv); lia|].
    destruct (decide (u = 0)) as [->|]; [specialize (Hend v Hv); lia|]. destruct (iv_done _ _ HI u Hu) as (_ & Hin' & _); [by apply Hclosed|].
    apply Hin'. lia.
  - intros p v Ht. by eapply inv_tree_lt.
  - exact Hend.
  - intros n p Hn Hp. destruct (inv_star_le _ _ _ _ HI Hp) as [Hle Hp']. split; [done|].
    destruct (decide (n = 0)) as [->|]; [destruct Hp' as [?| <-]; lia|]. apply (iv_done _ _ HI n Hn); [by apply Hclosed|done].
Qed.
End Search.

End Spanning.
