(* ===== verification/MoveReducible.v ===== *)
(** Reducibility.

    The check of control_flow.rs decides whether a control-flow graph is
    reducible, in the usual sense: its cycles are broken by edges whose target
    dominates their source.  [MoveSpanning] has the spanning tree the check works
    on; this file has the partition into collapsed loops, the loop over the heads
    and the theorem. *)

From S2P Require Import Prelude MoveFormat MoveBounds MoveCfg MoveSearch MoveFunction MoveStack MoveLoops MoveSpanning.

Module Partition.
Import LoopPartition.

(** The head of the collapsed loop a node is in. *)
Inductive Rep (ps : list nat) : nat -> nat -> Prop :=
| rep_self i : ps !! i = Some i -> Rep ps i i
| rep_step i j r : ps !! i = Some j -> j < i -> Rep ps j r -> Rep ps i r.

Definition valid (ps : list nat) : Prop := forall i j, ps !! i = Some j -> j <= i.

Lemma rep_head ps i r : Rep ps i r -> r <= i /\ ps !! r = Some r /\ i < length ps.
Proof. induction 1 as [i Hi|i j r Hi Hlt _ (? & ? & ?)]; [split; [done|]; split; [done|]|split; [lia|]; split; [done|]]; by eapply lookup_lt_Some. Qed.

Lemma rep_det ps i r r' : Rep ps i r -> Rep ps i r' -> r = r'.
Proof.
  induction 1 as [i Hi|i j r Hi Hlt _ IH]; intros Hr'; inversion Hr' as [i' Hi'|i' j' r'' Hi' Hlt' Hr'']; simplify_eq; try done; try lia.
  by apply IH.
Qed.

Lemma rep_total ps i : valid ps -> i < length ps -> exists r, Rep ps i r.
Proof.
  intros Hv. induction i as [i IH] using lt_wf_ind. intros Hi. destruct (lookup_lt_is_Some_2 _ _ Hi) as [j Hj].
  destruct (decide (j = i)) as [->|Hne]; [exists i; by constructor|]. specialize (Hv i j Hj). destruct (IH j) as [r Hr]; [lia..|].
  exists r. eapply rep_step; [done|lia|done].
Qed.

Lemma rep_parent ps i j r : valid ps -> ps !! i = Some j -> Rep ps i r <-> Rep ps j r.
Proof.
  intros Hv Hij. specialize (Hv i j Hij) as Hle. split; intros Hr.
  - inversion Hr; simplify_eq; done.
  - destruct (decide (j = i)) as [->|]; [done|]. eapply rep_step; [done|lia|done].
Qed.

(** Pointing a node at the head of its loop changes no loop. *)
Lemma rep_compress ps i r : valid ps -> Rep ps i r ->
  valid (<[i := r]> ps) /\ forall j q, Rep (<[i := r]> ps) j q <-> Rep ps j q.
Proof.
  intros Hv Hr. destruct (rep_head _ _ _ Hr) as (Hle & Hrr & Hi).
  assert (valid (<[i := r]> ps)) as Hv'.
  { intros a b. destruct (decide (a = i)) as [->|]; [rewrite list_lookup_insert_eq by done; congruence|].
    rewrite list_lookup_insert_ne by done. apply Hv. }
  assert (forall j q, Rep ps j q -> Rep (<[i := r]> ps) j q) as Hto.
  { induction 1 as [j Hj|j j' q Hj Hlt Hq IH].
    - constructor. destruct (decide (j = i)) as [->|]; [|by rewrite list_lookup_insert_ne]. rewrite list_lookup_insert_eq by done.
      f_equal. eapply rep_det; [done|by constructor].
    - destruct (decide (j = i)) as [->|]; [|eapply rep_step; [by rewrite list_lookup_insert_ne|done|done]].
      assert (q = r) as -> by (eapply rep_det; [by eapply rep_step|done]).
      assert (r <= j') by by eapply rep_head. eapply rep_step; [by apply list_lookup_insert_eq|lia|].
      constructor. by rewrite list_lookup_insert_ne by lia. }
  split; [done|]. intros j q. split; [|apply Hto]. intros Hq. assert (j < length ps) as Hj.
  { apply rep_head in Hq as (_ & _ & Hj). by rewrite length_insert in Hj. }
  destruct (rep_total ps j Hv Hj) as [q' Hq']. by rewrite (rep_det _ _ _ _ Hq (Hto _ _ Hq')).
Qed.

(** Two partitions with the same loops. *)
Definition same (p p' : LoopPartition) : Prop :=
  length (parents p') = length (parents p) /\ depths p' = depths p /\ valid (parents p') /\
  forall j q, Rep (parents p') j q <-> Rep (parents p) j q.

Lemma same_refl p : valid (parents p) -> same p p.
Proof. done. Qed.

Lemma same_trans p1 p2 p3 : same p1 p2 -> same p2 p3 -> same p1 p3.
Proof.
  intros (H1 & H2 & H3 & H4) (K1 & K2 & K3 & K4). split; [congruence|]. split; [congruence|]. split; [done|].
  intros j q. by rewrite K4.
Qed.

Lemma climb_Ok fuel p l child par gp :
  valid (parents p) -> parents p !! child = Some par -> parents p !! par = Some gp -> par <> gp -> gp < fuel ->
  exists l' head, climb fuel p l child par gp = Ok (l ++ l', head) /\ Rep (parents p) child head /\
    forall d, d ∈ l' -> Rep (parents p) d head.
Proof.
  intros Hv. revert l child par gp. induction fuel as [|fuel IH]; intros l child par gp Hc Hp Hne Hlt; [lia|]. cbn [climb].
  specialize (Hv par gp Hp) as Hle.
  assert (gp < length (parents p)) as Hgp by (apply lookup_lt_Some in Hp; lia).
  unfold parent at 1. destruct (index_lt (parents p) gp Hgp) as (next & -> & Hnext). vm_cbn.
  case_bool_decide as Heq.
  - subst next. exists [child], gp. split; [done|].
    assert (Rep (parents p) child gp) as Hrep.
    { apply (rep_parent _ _ _ _ Hv Hc), (rep_parent _ _ _ _ Hv Hp). by constructor. }
    split; [done|]. intros d ->%list_elem_of_singleton. done.
  - specialize (Hv gp next Hnext) as Hle'. destruct (IH (l ++ [child]) par gp next Hp Hnext) as (l' & head & -> & Hrep & Hl'); [done|lia|].
    exists (child :: l'), head. rewrite <- app_assoc. split; [done|].
    assert (Rep (parents p) child head) as Hrc by by apply (rep_parent _ _ _ _ Hv Hc).
    split; [done|]. intros d [->|Hd]%elem_of_cons; [done|by apply Hl'].
Qed.

Lemma parent_Ok p l v : parents p !! l = Some v -> parent p l = Ok v.
Proof. intros Hl. unfold parent, index. by rewrite Hl. Qed.

Lemma depth_Ok p l v : depths p !! l = Some v -> depth p l = Ok v.
Proof. intros Hl. unfold depth, index. by rewrite Hl. Qed.

Lemma set_parent_Ok p l v : l < length (parents p) -> set_parent p l v = Ok (p <| parents := <[l := v]> (parents p) |>).
Proof. intros Hl. unfold set_parent, set_index. by rewrite bool_decide_true. Qed.

Lemma compress_all p l head : valid (parents p) -> (forall d, d ∈ l -> Rep (parents p) d head) ->
  exists p', vfold (fun p descendant => set_parent p descendant head) l p = Ok p' /\ same p p'.
Proof.
  revert p. induction l as [|d l IH]; intros p Hv Hl; cbn; [by exists p|].
  destruct (rep_head _ _ _ (Hl d (list_elem_of_here _ _))) as (_ & _ & Hd). rewrite set_parent_Ok by done. vm_cbn.
  destruct (rep_compress _ _ _ Hv (Hl d (list_elem_of_here _ _))) as [Hv' Hsame].
  destruct (IH (p <| parents := <[d := head]> (parents p) |>)) as (p' & -> & Hp').
  - done.
  - intros e He. apply Hsame, Hl. by right.
  - exists p'. split; [done|]. eapply same_trans; [|done]. split; [cbn; unfold const; by rewrite length_insert|]. done.
Qed.

Lemma containing_loop_Ok p i : valid (parents p) -> i < length (parents p) ->
  exists p' r, containing_loop p i = Ok (p', r) /\ Rep (parents p) i r /\ same p p'.
Proof.
  intros Hv Hi. unfold containing_loop, parent. destruct (index_lt _ _ Hi) as (par & -> & Hpar). vm_cbn.
  specialize (Hv i par Hpar) as Hle.
  destruct (index_lt (parents p) par) as (gp & -> & Hgp); [lia|]. vm_cbn.
  case_bool_decide as Hc; [subst par|]; [exists p, i; by split; [|split; [constructor|]]|].
  case_bool_decide as Hg; cbn [orb].
  - subst gp. exists p, par. split; [done|]. split; [|done]. apply (rep_parent _ _ _ _ Hv Hpar). by constructor.
  - specialize (Hv par gp Hgp) as Hle'. destruct (climb_Ok (length (parents p)) p [] i par gp Hv Hpar Hgp Hg) as (l & head & -> & Hrep & Hl); [lia|].
    vm_cbn. rewrite app_nil_l. destruct (compress_all p l head Hv Hl) as (p' & -> & Hp'). vm_cbn. by exists p', head.
Qed.

(** ** Collapsing a loop *)

Section Collapse.
Context (ps ps' : list nat) (h : nat) (body : list nat).
Context (Hv : valid ps) (Hlen : length ps' = length ps).
Context (Hbody : forall b, b ∈ body -> ps !! b = Some b /\ h < b) (Hh : ps !! h = Some h).
Context (Hps' : forall i, ps' !! i = if decide (i ∈ body) then Some h else ps !! i).

Lemma collapse_valid : valid ps'.
Proof. intros i j. rewrite Hps'. destruct (decide (i ∈ body)) as [Hi|]; [|apply Hv]. intros [= <-]. apply Hbody in Hi as [_ ?]. lia. Qed.

Lemma collapse_rep_to w c : Rep ps w c -> Rep ps' w (if decide (c ∈ body) then h else c).
Proof.
  assert (h ∉ body) as Hhb by (intros [_ ?]%Hbody; lia).
  induction 1 as [w Hw|w j c Hw Hlt Hr IH].
  - destruct (decide (w ∈ body)) as [Hin|Hin].
    + eapply rep_step; [rewrite Hps', decide_True; done|by apply Hbody|]. constructor. by rewrite Hps', decide_False.
    + constructor. by rewrite Hps', decide_False.
  - eapply rep_step; [|done|done]. rewrite Hps', decide_False; [done|]. intros [Hw' _]%Hbody. simplify_eq. lia.
Qed.

Lemma collapse_rep w q : Rep ps' w q -> exists c, Rep ps w c /\ q = if decide (c ∈ body) then h else c.
Proof.
  intros Hr. destruct (rep_head _ _ _ Hr) as (_ & _ & Hw). rewrite Hlen in Hw. destruct (rep_total ps w Hv Hw) as [c Hc].
  exists c. split; [done|]. eapply rep_det; [done|]. by apply collapse_rep_to.
Qed.
End Collapse.

(** The loop over the body: it points the constituents at the head and takes the
    largest depth. *)
Lemma collapse_fold head bound l p d :
  NoDup l -> (forall b, b ∈ l -> parents p !! b = Some b /\ b < length (depths p)) ->
  (forall b e, b ∈ l -> depths p !! b = Some e -> e <= bound) -> d <= bound ->
  exists p' d', vfold (fun (st : LoopPartition * nat) constituent =>
      let '(p, d) := st in
      c ← parent p constituent;
      _ ← assert (bool_decide (constituent = c));
      p ← set_parent p constituent head;
      dc ← depth p constituent;
      Ok (p, Nat.max dc d)) l (p, d) = Ok (p', d') /\ d' <= bound /\ depths p' = depths p /\
    length (parents p') = length (parents p) /\ forall i, parents p' !! i = if decide (i ∈ l) then Some head else parents p !! i.
Proof.
  revert p d. induction l as [|b l IH]; intros p d Hnd Hl He Hd; cbn [vfold].
  { exists p, d. repeat (split; [done|]). intros i. rewrite decide_False; [done|]. by intros ?%elem_of_nil. }
  apply NoDup_cons in Hnd as [Hb Hnd]. destruct (Hl b (list_elem_of_here _ _)) as [Hpb Hdb]. pose proof (lookup_lt_Some _ _ _ Hpb) as Hlt.
  destruct (lookup_lt_is_Some_2 _ _ Hdb) as [e Hdep].
  rewrite (parent_Ok _ _ _ Hpb). cbn [mbind vm_bind]. rewrite bool_decide_true by done. cbn [assert mbind vm_bind].
  rewrite set_parent_Ok by done. cbn [mbind vm_bind]. rewrite (depth_Ok _ _ e) by done. cbn [mbind vm_bind].
  destruct (IH (p <| parents := <[b := head]> (parents p) |>) (Nat.max e d) Hnd) as (p' & d' & -> & Hd' & Hdeps & Hlen & Hps).
  - intros c Hc. cbn. unfold const. rewrite list_lookup_insert_ne by (intros ->; done). apply Hl. by right.
  - intros c e' Hc. apply He. by right.
  - specialize (He b e (list_elem_of_here _ _) Hdep). lia.
  - exists p', d'. split; [done|]. split; [done|]. split; [done|]. cbn in Hlen, Hps. unfold const in *. rewrite length_insert in Hlen. split; [done|].
    intros i. rewrite Hps. destruct (decide (i ∈ l)) as [|Hn]; [by rewrite decide_True by by right|].
    destruct (decide (i = b)) as [->|]; [rewrite decide_True by (by left); by rewrite list_lookup_insert_eq|].
    rewrite decide_False by (intros [?|?]%elem_of_cons; done). by rewrite list_lookup_insert_ne.
Qed.

End Partition.

Module Reducibility.
Import Cfg LoopSummary Spanning Partition ControlFlow.

(** ** Domination and reducibility *)

Section Graph.
Context (blocks : gmap nat BasicBlock).

(** [b] is reached from the entry without entering [a]. *)
Definition avoiding (a b : nat) : Prop := a <> 0 /\ rtc (fun x y => CfgSearch.edge blocks x y /\ y <> a) 0 b.

Definition dominates (a b : nat) : Prop := ~ avoiding a b.

(** Some edges, whose targets dominate their sources, break every cycle. *)
Definition reducible : Prop := exists back : nat -> nat -> Prop,
  (forall x y, rtc (CfgSearch.edge blocks) 0 x -> CfgSearch.edge blocks x y -> back x y -> dominates y x) /\
  forall x, rtc (CfgSearch.edge blocks) 0 x -> ~ tc (fun x y => CfgSearch.edge blocks x y /\ ~ back x y) x x.
End Graph.

(** ** On the nodes of the spanning tree *)

Section Nodes.
Context (cfg : VMControlFlowGraph) (ls : LoopSummary) (k : nat) (Hspan : Spanning cfg ls k).
Let blocks := blocks_map cfg.

Definition nedge (u v : nat) : Prop := u ∈ backs_of ls v \/ u ∈ preds_of ls v.
Definition free (h u v : nat) : Prop := nedge u v /\ v <> h.
Definition navoiding (h v : nat) : Prop := h <> 0 /\ rtc (free h) 0 v.

Lemma tree_edge p v : tree ls p v -> nedge p v.
Proof. intros Ht. right. unfold tree in Ht. destruct (preds_of ls v); [done|]. cbn in Ht. simplify_eq. by left. Qed.

Lemma root_tree v : v < k -> rtc (tree ls) 0 v.
Proof.
  induction v as [v IH] using lt_wf_ind. intros Hv. destruct (decide (v = 0)) as [->|]; [done|].
  destruct (sp_tree _ _ _ Hspan v) as (p & Hp & ?); [lia|]. eapply rtc_r; [apply (IH p); lia|done].
Qed.

Lemma tree_le a b : rtc (tree ls) a b -> a <= b.
Proof. induction 1 as [|a c b Hac _ IH]; [done|]. destruct (sp_tree_lt _ _ _ Hspan _ _ Hac). lia. Qed.

(** The tree path to a node that is no descendant of [h] avoids [h]. *)
Lemma tree_avoids h r : r < k -> ~ rtc (tree ls) h r -> navoiding h r.
Proof.
  intros Hr Hn. split; [intros ->; by apply Hn, root_tree|]. revert Hr Hn. induction r as [r IH] using lt_wf_ind. intros Hr Hn.
  destruct (decide (r = 0)) as [->|]; [done|]. destruct (sp_tree _ _ _ Hspan r) as (p & Hp & ?); [lia|].
  eapply rtc_r; [apply (IH p); [lia|lia|]|].
  - intros Hhp. apply Hn. by eapply rtc_r.
  - split; [by apply tree_edge|]. intros ->. by apply Hn.
Qed.

Lemma nedge_block u v : nedge u v -> CfgSearch.edge blocks (block_of ls u) (block_of ls v).
Proof. intros Hn. by apply (sp_edge _ _ _ Hspan). Qed.

Lemma node_reached n : n < k -> rtc (CfgSearch.edge blocks) 0 (block_of ls n).
Proof.
  intros Hn. rewrite <- (sp_root _ _ _ Hspan). apply root_tree in Hn. revert Hn. generalize 0. intros a Hn.
  induction Hn as [|a c b Hac _ IH]; [done|]. eapply rtc_l; [by apply nedge_block, tree_edge|done].
Qed.

Lemma reached_node x : rtc (CfgSearch.edge blocks) 0 x -> exists n, n < k /\ block_of ls n = x.
Proof.
  pose proof (sp_pos _ _ _ Hspan). revert x. apply rtc_ind_r; [exists 0; split; [lia|apply (sp_root _ _ _ Hspan)]|].
  intros x y _ Hxy (n & Hn & <-). destruct (sp_complete _ _ _ Hspan n y Hn Hxy) as (v & ? & ? & _). by exists v.
Qed.

(** Avoiding a node is avoiding its block. *)
Lemma navoiding_block h v : h < k -> v < k -> navoiding h v <-> avoiding blocks (block_of ls h) (block_of ls v).
Proof.
  intros Hh Hv. pose proof (sp_pos _ _ _ Hspan) as Hpos. pose proof (sp_root _ _ _ Hspan) as Hroot.
  assert (h <> 0 <-> block_of ls h <> 0) as Hz.
  { split; [intros Hne Heq; apply Hne; eapply (sp_inj _ _ _ Hspan); [done|lia|congruence]|congruence]. }
  unfold navoiding, avoiding. rewrite Hz. apply and_iff_compat_l. split.
  - clear Hv. revert v. apply rtc_ind_r; [by rewrite Hroot|]. intros u v _ [He Hne] IH. eapply rtc_r; [done|]. split; [by apply nedge_block|].
    intros Heq. apply Hne. destruct (sp_edge _ _ _ Hspan u v He) as (_ & ? & _). by eapply (sp_inj _ _ _ Hspan).
  - intros Hr. assert (forall x, rtc (fun x y => CfgSearch.edge blocks x y /\ y <> block_of ls h) 0 x ->
      exists n, n < k /\ block_of ls n = x /\ rtc (free h) 0 n) as Hgen.
    { apply rtc_ind_r; [exists 0; split; [lia|done]|]. intros x y _ [Hxy Hy] (n & Hn & <- & Hrn).
      destruct (sp_complete _ _ _ Hspan n y Hn Hxy) as (w & Hw & <- & He). exists w. split; [done|]. split; [done|].
      eapply rtc_r; [done|]. split; [done|]. by intros ->. }
    destruct (Hgen _ Hr) as (n & Hn & Heq & Hrn). by rewrite (sp_inj _ _ _ Hspan v n Hv Hn (eq_sym Heq)).
Qed.

(** An order in which every edge that is no back edge goes down. *)
Definition rank (n : nat) : nat := (n + desc_of ls n) * (k + 1) + (k - n).

Lemma pred_rank u v : u ∈ preds_of ls v -> rank v < rank u.
Proof.
  intros Hp. destruct (sp_edge _ _ _ Hspan u v) as (Hu & Hv & _); [by right|].
  pose proof (sp_end _ _ _ Hspan u Hu). pose proof (sp_end _ _ _ Hspan v Hv). unfold rank.
  destruct (sp_pred _ _ _ Hspan u v Hp) as [[Hlt Hle]|Hlt]; nia.
Qed.

(** The back edges of the tree break every cycle; so the graph is reducible if
    their targets dominate their sources. *)
Lemma reducible_if : (forall u v, u ∈ backs_of ls v -> ~ navoiding v u) -> reducible blocks.
Proof.
  intros Hdom. exists (fun x y => exists u v, x = block_of ls u /\ y = block_of ls v /\ u ∈ backs_of ls v). split.
  - intros x y _ _ (u & v & -> & -> & Hb). destruct (sp_edge _ _ _ Hspan u v) as (Hu & Hv & _); [by left|].
    intros Ha. by apply (Hdom u v Hb), navoiding_block.
  - intros x Hx Hc. destruct (reached_node x Hx) as (n & Hn & <-).
    assert (forall y, tc (fun x y => CfgSearch.edge blocks x y /\
      ~ (exists u v, x = block_of ls u /\ y = block_of ls v /\ u ∈ backs_of ls v)) (block_of ls n) y ->
      exists m, m < k /\ block_of ls m = y /\ rank m < rank n) as Hdown.
    { assert (forall a y, a < k -> CfgSearch.edge blocks (block_of ls a) y ->
        ~ (exists u v, block_of ls a = block_of ls u /\ y = block_of ls v /\ u ∈ backs_of ls v) ->
        exists m, m < k /\ block_of ls m = y /\ rank m < rank a) as Hstep.
      { intros a y Ha Hy Hnb. destruct (sp_complete _ _ _ Hspan a y Ha Hy) as (v & Hv & <- & [Hb|Hp]); [destruct Hnb; eauto|].
        exists v. split; [done|]. split; [done|]. by apply pred_rank. }
      clear Hx Hc. intros y Hc. remember (block_of ls n) as x eqn:Hx. revert n Hn Hx.
      induction Hc as [x y [Hxy Hnb]|x z y [Hxz Hnb] _ IH]; intros n Hn ->; [by apply Hstep|].
      destruct (Hstep n z Hn Hxz Hnb) as (m & Hm & <- & ?). destruct (IH m Hm eq_refl) as (q & ? & ? & ?).
      exists q. split; [done|]. split; [done|]. lia. }
    destruct (Hdown _ Hc) as (m & Hm & Heq & Hlt). rewrite (sp_inj _ _ _ Hspan m n Hm Hn Heq) in Hlt. lia.
Qed.

(** And not reducible if the target of one of them does not. *)
Lemma reducible_only_if : reducible blocks -> forall u v, u ∈ backs_of ls v -> ~ navoiding v u.
Proof.
  intros (back & Hdom & Hacyc) u v Hb Ha. destruct (sp_edge _ _ _ Hspan u v) as (Hu & Hv & He); [by left|].
  apply (Hacyc (block_of ls v)); [by apply node_reached|].
  assert (forall p w, tree ls p w -> CfgSearch.edge blocks (block_of ls p) (block_of ls w) /\ ~ back (block_of ls p) (block_of ls w)) as Htree.
  { intros p w Ht. destruct (sp_tree_lt _ _ _ Hspan p w Ht) as [Hlt Hw].
    assert (CfgSearch.edge blocks (block_of ls p) (block_of ls w)) as Hpw by by apply nedge_block, tree_edge. split; [done|].
    intros Hbk. refine (Hdom _ _ _ Hpw Hbk _); [apply node_reached; lia|]. apply navoiding_block; [lia|lia|].
    apply tree_avoids; [lia|]. intros Hle%tree_le. lia. }
  pose proof (sp_back _ _ _ Hspan u v Hb) as Hpath. apply tc_rtc_l with (block_of ls u); [|apply tc_once; split; [done|]].
  - clear Hb Ha Hu He. induction Hpath as [|a c b Hac _ IH]; [done|]. eapply rtc_l; [by apply Htree|].
    apply IH. by destruct (sp_tree_lt _ _ _ Hspan a c Hac).
  - intros Hbk. refine (Hdom _ _ _ He Hbk _); [by apply node_reached|]. by apply navoiding_block.
Qed.
End Nodes.

(** ** The loop over the heads *)

Section Heads.
Context (cfg : VMControlFlowGraph) (ls : LoopSummary) (k : nat) (Hspan : Spanning cfg ls k).
Let blocks := blocks_map cfg.
Context (Hsize : (Z.of_nat (size blocks) < 65536)%Z).
Context (config : VerifierConfig) (current_function : nat).

Lemma nodes_blocks : k <= size blocks.
Proof. apply (sp_pos _ _ _ Hspan). Qed.

(** The loops of the heads from [h] on are collapsed: a loop is entered at its
    head only, and contains the back edges to it. *)
Record Loops (h : nat) (p : LoopPartition.LoopPartition) : Prop := {
  lp_parents : length (LoopPartition.parents p) = size blocks;
  lp_depths : length (LoopPartition.depths p) = size blocks;
  lp_valid : valid (LoopPartition.parents p);
  lp_low w c : Rep (LoopPartition.parents p) w c -> w <> c -> h <= c;
  lp_in w c u : Rep (LoopPartition.parents p) w c -> w <> c -> nedge ls u w -> Rep (LoopPartition.parents p) u c;
  lp_back c u : h <= c -> u ∈ backs_of ls c -> exists r, Rep (LoopPartition.parents p) u r /\ Rep (LoopPartition.parents p) c r;
  lp_dom c u : h <= c -> u ∈ backs_of ls c -> ~ navoiding ls c u;
  lp_depth i d : LoopPartition.depths p !! i = Some d -> d + i <= size blocks /\ (i < h -> d = 0);
}.

Lemma loops_same h p p' : Loops h p -> same p p' -> Loops h p'.
Proof.
  intros [H1 H2 H3 H4 H5 H6 H7 H8] (Hlen & Hdep & Hv & Hrep). split; try done; rewrite ?Hlen, ?Hdep; try done.
  - intros w c. rewrite Hrep. apply H4.
  - intros w c u. rewrite !Hrep. apply H5.
  - intros c u Hc Hu. destruct (H6 c u Hc Hu) as (r & ? & ?). exists r. by rewrite !Hrep.
Qed.

(** A node without back edges is no head. *)
Lemma loops_skip h p : backs_of ls h = [] -> Loops (S h) p -> Loops h p.
Proof.
  intros Hb [H1 H2 H3 H4 H5 H6 H7 H8]. split; try done.
  - intros w c Hw Hne. specialize (H4 w c Hw Hne). lia.
  - intros c u Hc Hu. apply H6; [|done]. destruct (decide (c = h)) as [->|]; [|lia]. rewrite Hb in Hu. by apply elem_of_nil in Hu.
  - intros c u Hc Hu. apply H7; [|done]. destruct (decide (c = h)) as [->|]; [|lia]. rewrite Hb in Hu. by apply elem_of_nil in Hu.
  - intros i d Hi. destruct (H8 i d Hi) as [? Hz]. split; [done|]. intros. apply Hz. lia.
Qed.

(** A loop dominated by its head. *)
Lemma loop_dominated ps w c :
  (forall w u, Rep ps w c -> w <> c -> nedge ls u w -> Rep ps u c) -> Rep ps w c -> ~ navoiding ls c w.
Proof.
  intros Hin Hw [Hc Hr]. revert w Hr Hw. apply (rtc_ind_r (fun w => Rep ps w c -> False)).
  - intros (Hle & _)%rep_head. lia.
  - intros x y _ [He Hy] IH Hry. apply IH. by eapply Hin.
Qed.

(** *** One head *)

Context (h : nat) (Hh : h < k) (p0 : LoopPartition.LoopPartition) (Hloops : Loops (S h) p0).
Let R := Rep (LoopPartition.parents p0).

Lemma head_rep : R h h.
Proof.
  destruct (rep_total (LoopPartition.parents p0) h (lp_valid _ _ Hloops)) as [r Hr].
  { rewrite (lp_parents _ _ Hloops). pose proof nodes_blocks. lia. }
  destruct (decide (h = r)) as [<-|Hne]; [done|]. pose proof (lp_low _ _ Hloops h r Hr Hne). apply rep_head in Hr as [? _]. lia.
Qed.

Lemma class_free w c : R w c -> c <> h -> w <> h.
Proof. intros Hw Hc ->. apply Hc. eapply rep_det; [done|apply head_rep]. Qed.

(** The head of a loop reaches the nodes of the loop, inside it. *)
Lemma class_path w c : w < k -> R w c -> c <> h -> rtc (free ls h) c w.
Proof.
  induction w as [w IH] using lt_wf_ind. intros Hw Hr Hc. destruct (decide (w = c)) as [->|Hne]; [done|].
  assert (0 < w) by (destruct (rep_head _ _ _ Hr); lia).
  destruct (sp_tree _ _ _ Hspan w) as (q & Hq & Hlt); [lia|]. eapply rtc_r; [apply (IH q); [done|lia| |done]|].
  - eapply (lp_in _ _ Hloops); [done|done|]. by apply tree_edge.
  - split; [by apply tree_edge|by eapply class_free].
Qed.

(** What is known of the body collected so far; the predecessors of the nodes of
    [todo] are still to be added. *)
Record Body (body : gset nat) (todo : list nat) : Prop := {
  bo_head b : b ∈ body -> R b b /\ h < b < k;
  bo_back u : u ∈ backs_of ls h -> exists r, R u r /\ (r = h \/ r ∈ body);
  bo_pred b u : b ∈ body -> (b ∉ todo) -> u ∈ preds_of ls b -> exists r, R u r /\ (r = h \/ r ∈ body);
  bo_reach b : b ∈ body -> exists u, u ∈ backs_of ls h /\ rtc (free ls h) b u;
}.

Lemma body_size body todo : Body body todo -> size body <= k.
Proof.
  intros HB. rewrite <- (size_set_seq (C := gset nat) 0 k). apply subseteq_size. intros b Hb%(bo_head _ _ HB).
  apply elem_of_set_seq. lia.
Qed.

Lemma is_descendant_Ok r : r < k -> exists b, LoopSummary.is_descendant ls h r = Ok b /\
  if b : bool then h <= r else ~ rtc (tree ls) h r.
Proof.
  intros Hr. unfold LoopSummary.is_descendant. case_bool_decide as Hle.
  - destruct (index_lt (descs ls) h) as (d & -> & Hd); [rewrite (sp_descs _ _ _ Hspan); pose proof nodes_blocks; unfold blocks in *; lia|].
    vm_cbn. assert (desc_of ls h = d) as <- by (unfold desc_of, at_; by rewrite Hd). pose proof (sp_end _ _ _ Hspan h Hh).
    unfold u16_add. rewrite bool_decide_true by (pose proof nodes_blocks; lia). vm_cbn. eexists. split; [done|].
    case_bool_decide as Hlast; [done|]. intros Ht. destruct (sp_desc _ _ _ Hspan h r Hh Ht). lia.
  - exists false. split; [done|]. intros Ht%(tree_le _ _ _ Hspan). done.
Qed.

Lemma containing_Ok p u : same p0 p -> u < k -> exists p' r, LoopPartition.containing_loop p u = Ok (p', r) /\ R u r /\ same p0 p' /\ r < k.
Proof.
  intros Hs Hu. assert (Hs' := Hs). destruct Hs' as (Hlen & _ & Hv & Hrep).
  destruct (containing_loop_Ok p u Hv) as (p' & r & Hc & Hr & Hsame).
  { rewrite Hlen, (lp_parents _ _ Hloops). pose proof nodes_blocks. lia. }
  exists p', r. split; [done|]. split; [by apply Hrep|]. split; [by eapply same_trans|]. apply rep_head in Hr as [? _]. lia.
Qed.

Lemma add_backs_Ok l p body :
  same p0 p -> (forall u, u ∈ l -> u < k) ->
  exists p' body', vfold (add_back h) l (p, body) = Ok (p', body') /\ same p0 p' /\
    forall b, b ∈ body' <-> b ∈ body \/ (b <> h /\ exists u, u ∈ l /\ R u b).
Proof.
  revert p body. induction l as [|u l IH]; intros p body Hs Hl; cbn [vfold].
  { exists p, body. split; [done|]. split; [done|]. intros b. split; [by left|]. intros [?|(_ & u & []%elem_of_nil & _)]; done. }
  destruct (containing_Ok p u Hs (Hl u (list_elem_of_here _ _))) as (p1 & r & Hc & Hr & Hs1 & _).
  assert (add_back h (p, body) u = Ok (p1, if bool_decide (r <> h) then {[r]} ∪ body else body)) as -> by (unfold add_back; by rewrite Hc).
  vm_cbn.
  destruct (IH p1 (if bool_decide (r <> h) then {[r]} ∪ body else body) Hs1) as (p' & body' & -> & Hs' & Hb).
  { intros. apply Hl. by right. }
  exists p', body'. split; [done|]. split; [done|]. intros b. rewrite Hb.
  assert (forall b, b ∈ (if bool_decide (r <> h) then {[r]} ∪ body else body) <-> b ∈ body \/ (b <> h /\ b = r)) as ->.
  { intros c. case_bool_decide; set_solver. }
  assert (forall b, R u b <-> b = r) as Hub by (intros c; split; [intros Hc'; by eapply rep_det|by intros ->]).
  split.
  - intros [[?|[? ->]]|(? & w & ? & ?)]; [by left|right; split; [done|]; exists u; split; [by left|done]|].
    right. split; [done|]. exists w. split; [by right|done].
  - intros [?|(? & w & [->|?]%elem_of_cons & Hw)]; [by left; left|left; right; by apply Hub in Hw|right; eauto].
Qed.

(** The body after the back edges. *)
Lemma body_start body :
  (forall b, b ∈ body <-> b <> h /\ exists u, u ∈ backs_of ls h /\ R u b) -> Body body (ordered body).
Proof.
  intros Hb. split.
  - intros b (Hne & u & Hu & Hr)%Hb. destruct (sp_edge _ _ _ Hspan u h) as (Huk & _); [by left|].
    pose proof (tree_le _ _ _ Hspan _ _ (sp_back _ _ _ Hspan u h Hu)). destruct (rep_head _ _ _ Hr) as (? & ? & ?).
    split; [by constructor|]. destruct (decide (u = b)) as [->|Hub]; [lia|]. pose proof (lp_low _ _ Hloops u b Hr Hub). lia.
  - intros u Hu. destruct (sp_edge _ _ _ Hspan u h) as (Huk & _); [by left|].
    destruct (rep_total (LoopPartition.parents p0) u (lp_valid _ _ Hloops)) as [r Hr].
    { rewrite (lp_parents _ _ Hloops). pose proof nodes_blocks. lia. }
    exists r. split; [done|]. destruct (decide (r = h)); [by left|right]. apply Hb. eauto.
  - intros b u Hin Hn. destruct Hn. unfold ordered. by apply elem_of_sort_by, elem_of_elements.
  - intros b (Hne & u & Hu & Hr)%Hb. exists u. split; [done|]. apply class_path; [|done..].
    by destruct (sp_edge _ _ _ Hspan u h) as (Huk & _); [left|].
Qed.

(** The head does not dominate a node that jumps back to it. *)
Definition refused : Prop := exists u, u ∈ backs_of ls h /\ navoiding ls h u.

(** What a step of the collection keeps, and how the body and the frontier grow. *)
Definition grown (node : list nat) (c c' : Collect) : Prop :=
  same p0 (partition c') /\ Body (body c') (node ++ frontier c') /\ body c ⊆ body c' /\
  (forall b, b ∈ frontier c' -> b ∈ frontier c \/ b ∈ body c') /\
  length (frontier c') + size (body c) = length (frontier c) + size (body c').

Lemma add_pred_Ok c node u :
  same p0 (partition c) -> Body (body c) (node :: frontier c) -> node ∈ body c -> u ∈ preds_of ls node ->
  (exists c', add_pred current_function ls h c u = Ok c' /\ grown [node] c c' /\ exists r, R u r /\ (r = h \/ r ∈ body c')) \/
  (exists e, add_pred current_function ls h c u = Err e /\ refused).
Proof.
  intros Hs HB Hnode Hu. destruct (sp_edge _ _ _ Hspan u node) as (Huk & Hnk & _); [by right|].
  destruct (containing_Ok _ u Hs Huk) as (p' & r & Hc & Hr & Hs' & Hrk). unfold add_pred. rewrite Hc. vm_cbn.
  destruct (is_descendant_Ok r Hrk) as (b & -> & Hb). vm_cbn.
  assert (r <> h -> exists w, w ∈ backs_of ls h /\ rtc (free ls h) r w) as Hreach.
  { intros Hne. destruct (bo_reach _ _ HB node Hnode) as (w & Hw & Hpath). exists w. split; [done|].
    transitivity u; [by apply class_path|]. eapply rtc_l; [|done]. split; [by right|]. destruct (bo_head _ _ HB node Hnode). lia. }
  destruct b; cbn [negb].
  - left. case_bool_decide as Hrh; cbn [andb]; [case_bool_decide as Hin|].
    + eexists. split; [done|]. cbn [partition body frontier]. split; [|exists r; split; [done|]; right; set_solver].
      split; [done|]. cbn [body frontier]. split; [|split; [set_solver|]; split; [set_solver|]; rewrite size_union by set_solver; rewrite size_singleton; cbn; lia].
      destruct HB as [B1 B2 B3 B4]. split.
      * intros x [->%elem_of_singleton|Hx]%elem_of_union; [|by apply B1]. split; [|lia]. constructor. by eapply rep_head.
      * intros w Hw. destruct (B2 w Hw) as (q & ? & [?|?]); exists q; set_solver.
      * intros x w [->%elem_of_singleton|Hx]%elem_of_union Hn Hw; [set_solver|]. destruct (B3 x w Hx) as (q & ? & [?|?]); [set_solver|done|exists q; set_solver..].
      * intros x [->%elem_of_singleton|Hx]%elem_of_union; [by apply Hreach|by apply B4].
    + eexists. split; [done|]. split; [repeat (split; [done|]); split; [by left|done]|]. exists r. split; [done|]. right. cbn. done.
    + eexists. split; [done|]. split; [repeat (split; [done|]); split; [by left|done]|]. exists r. split; [done|]. left. done.
  - right. unfold LoopSummary.block.
    destruct (index_lt (ls_blocks ls) r) as (bl & -> & _); [rewrite (sp_blocks _ _ _ Hspan); pose proof nodes_blocks; unfold blocks in *; lia|].
    vm_cbn. eexists. split; [done|]. destruct (tree_avoids _ _ _ Hspan h r Hrk Hb) as [Hh0 Hpath].
    destruct Hreach as (w & Hw & Hrw); [intros ->; by apply Hb|]. exists w. split; [done|]. split; [done|]. by etrans.
Qed.

Lemma add_preds_Ok node l c :
  same p0 (partition c) -> Body (body c) (node :: frontier c) -> node ∈ body c -> (forall u, u ∈ l -> u ∈ preds_of ls node) ->
  (exists c', vfold (add_pred current_function ls h) l c = Ok c' /\ grown [node] c c' /\
    forall u, u ∈ l -> exists r, R u r /\ (r = h \/ r ∈ body c')) \/
  (exists e, vfold (add_pred current_function ls h) l c = Err e /\ refused).
Proof.
  revert c. induction l as [|u l IH]; intros c Hs HB Hn Hl; cbn [vfold].
  { left. exists c. split; [done|]. split; [repeat (split; [done|]); split; [by left|done]|]. by intros u ?%elem_of_nil. }
  destruct (add_pred_Ok c node u Hs HB Hn) as [(c1 & -> & (Hs1 & HB1 & Hsub1 & Hfr1 & Hlen1) & Hr1)|(e & -> & Href)]; [apply Hl; by left| |right; by exists e].
  vm_cbn. destruct (IH c1 Hs1 HB1) as [(c' & -> & (Hs' & HB' & Hsub' & Hfr' & Hlen') & Hr')|?]; [set_solver|intros; apply Hl; by right| |by right].
  left. exists c'. split; [done|]. split; [split; [done|]; split; [done|]; split; [set_solver|]; split; [|lia]; intros b [?|?]%Hfr'; [destruct (Hfr1 b); set_solver|by right]|].
  intros w [->|Hw]%elem_of_cons; [|by apply Hr']. destruct Hr1 as (r & ? & [?|?]); exists r; set_solver.
Qed.

(** Collecting the body: every predecessor is inside, or the head is refused. *)
Lemma grow_body_Ok fuel c :
  same p0 (partition c) -> Body (body c) (frontier c) -> (forall b, b ∈ frontier c -> b ∈ body c) ->
  length (frontier c) + (k - size (body c)) <= fuel ->
  (exists c', grow_body current_function ls fuel h c = Ok c' /\ same p0 (partition c') /\ Body (body c') []) \/
  (exists e, grow_body current_function ls fuel h c = Err e /\ refused).
Proof.
  revert c. induction fuel as [|fuel IH]; intros c Hs HB Hin Hfuel; destruct (frontier c) as [|node rest] eqn:Hf; try (cbn in Hfuel; lia);
    try (left; exists c; cbn; rewrite Hf; done).
  cbn [grow_body]. rewrite Hf. cbn [length] in Hfuel. assert (node ∈ body c) as Hnode by (apply Hin; by left).
  destruct (bo_head _ _ HB node Hnode) as [_ Hnk]. unfold LoopSummary.pred_edges.
  assert (index (preds ls) node = Ok (preds_of ls node)) as ->.
  { destruct (index_lt (preds ls) node) as (l & -> & Hl); [rewrite (sp_preds _ _ _ Hspan); pose proof nodes_blocks; unfold blocks in *; lia|].
    unfold preds_of, at_. by rewrite Hl. }
  cbn [mbind vm_bind].
  destruct (add_preds_Ok node (preds_of ls node) (c <| frontier := rest |>)) as [(c1 & -> & (Hs1 & HB1 & Hsub & Hfr & Hlen) & Hr)|(e & -> & Href)];
    [done|done|done|done| |right; by exists e].
  cbn [mbind vm_bind]. cbn in Hsub, Hfr, Hlen. unfold const in *. pose proof (body_size _ _ HB). pose proof (body_size _ _ HB1).
  apply IH; [done| | |lia].
  - destruct HB1 as [B1 B2 B3 B4]. split; [done|done| |done]. intros b u Hb Hn Hu.
    destruct (decide (b = node)) as [->|]; [by apply Hr|]. apply (B3 b); [done| |done]. intros [?|?]%elem_of_cons; done.
  - intros b [Hb|?]%Hfr; [|done]. apply Hsub, Hin. by right.
Qed.

(** The partition after the body is collapsed into the head. *)
Lemma loops_collapse (bd : gset nat) ps' ds' d :
  Body bd [] -> length ps' = size blocks -> d + h <= size blocks ->
  (exists ps, valid ps /\ length ps = size blocks /\ (forall j q, Rep ps j q <-> R j q) /\
    forall i, ps' !! i = if decide (i ∈ ordered bd) then Some h else ps !! i) ->
  ds' = <[h := d]> (LoopPartition.depths p0) ->
  Loops h {| LoopPartition.parents := ps'; LoopPartition.depths := ds' |}.
Proof.
  intros HB Hlen Hd (ps & Hv & Hlenps & HR & Hps') ->. rewrite <- Hlenps in Hlen.
  assert (forall b, b ∈ ordered bd <-> b ∈ bd) as Hord by (intros b; unfold ordered; by rewrite elem_of_sort_by, elem_of_elements).
  assert (forall b, R b b -> ps !! b = Some b) as Hself by (intros b Hb%HR; by destruct (rep_head _ _ _ Hb) as (_ & ? & _)).
  assert (forall b, b ∈ ordered bd -> ps !! b = Some b /\ h < b) as Hbody.
  { intros b Hb%Hord. destruct (bo_head _ _ HB b Hb) as [Hbb ?]. split; [by apply Hself|lia]. }
  pose proof (Hself h head_rep) as Hhh.
  assert (forall w c, R w c -> Rep ps' w (if decide (c ∈ ordered bd) then h else c)) as Hto.
  { intros w c Hw%HR. by apply (collapse_rep_to ps). }
  assert (forall w q, Rep ps' w q -> exists c, R w c /\ q = if decide (c ∈ ordered bd) then h else c) as Hfrom.
  { intros w q Hq. destruct (collapse_rep ps ps' h (ordered bd) Hv Hlen Hbody Hhh Hps' w q Hq) as (c & ?%HR & ?). eauto. }
  assert (forall w, R w h -> Rep ps' w h) as Htoh.
  { intros w Hw. specialize (Hto w h Hw). rewrite decide_False in Hto; [done|]. intros [_ ?]%Hbody. lia. }
  assert (forall w r, R w r -> (r = h \/ r ∈ bd) -> Rep ps' w h) as Htob.
  { intros w r Hw [->|Hr]; [by apply Htoh|]. specialize (Hto w r Hw). rewrite decide_True in Hto; [done|]. by apply Hord. }
  assert (forall w c u, Rep ps' w c -> w <> c -> nedge ls u w -> Rep ps' u c) as Hin.
  { intros w c u (c0 & Hw & ->)%Hfrom Hne He. destruct (decide (c0 ∈ ordered bd)) as [Hc|Hc].
    - apply Hord in Hc as Hcb. destruct (decide (w = c0)) as [->|Hwc]; [|eapply (Htob u c0); [by eapply (lp_in _ _ Hloops)|by right]].
      destruct He as [Hb|Hp].
      + apply Hbody in Hc as [_ Hlt]. destruct (lp_back _ _ Hloops c0 u) as (r & Hur & Hcr); [lia|done|].
        eapply (Htob u r); [done|]. right. by rewrite (rep_det _ _ _ _ Hcr Hw).
      + destruct (bo_pred _ _ HB c0 u Hcb) as (r & Hur & Hr); [set_solver|done|]. by eapply Htob.
    - specialize (Hto u c0). rewrite decide_False in Hto by done. apply Hto. by eapply (lp_in _ _ Hloops). }
  split; cbn [LoopPartition.parents LoopPartition.depths].
  - congruence.
  - rewrite length_insert. apply Hloops.
  - by eapply collapse_valid.
  - intros w c (c0 & Hw & ->)%Hfrom Hne. destruct (decide (c0 ∈ ordered bd)); [done|]. pose proof (lp_low _ _ Hloops w c0 Hw Hne). lia.
  - exact Hin.
  - intros c u Hc Hu. destruct (decide (c = h)) as [->|].
    + exists h. destruct (bo_back _ _ HB u Hu) as (r & Hr & Hrb). split; [by eapply Htob|]. apply Htoh, head_rep.
    + destruct (lp_back _ _ Hloops c u) as (r & Hur & Hcr); [lia|done|]. eexists. split; by apply Hto.
  - intros c u Hc Hu. destruct (decide (c = h)) as [->|]; [|apply (lp_dom _ _ Hloops); [lia|done]].
    destruct (bo_back _ _ HB u Hu) as (r & Hr & Hrb). eapply (loop_dominated ps'); [|by eapply Htob]. intros w v. apply Hin.
  - intros i e. rewrite list_lookup_insert_Some. intros [(-> & <- & _)|[Hne He]]; [lia|].
    destruct (lp_depth _ _ Hloops i e He) as [? Hz]. split; [done|]. intros. apply Hz. lia.
Qed.

Lemma collapse_Ok c : same p0 (partition c) -> Body (body c) [] ->
  exists p' d, LoopPartition.collapse_loop (partition c) h (ordered (body c)) = Ok (p', d) /\ Loops h p'.
Proof.
  intros (Hlen & Hdep & Hv & Hrep) HB. pose proof nodes_blocks as Hkn.
  assert (forall b, R b b -> LoopPartition.parents (partition c) !! b = Some b) as Hself.
  { intros b Hb%Hrep. by destruct (rep_head _ _ _ Hb) as (_ & ? & _). }
  assert (forall b, b ∈ ordered (body c) -> R b b /\ h < b < k) as Hord.
  { intros b. unfold ordered. rewrite elem_of_sort_by, elem_of_elements. apply HB. }
  unfold LoopPartition.collapse_loop. rewrite (parent_Ok _ _ h) by (apply Hself, head_rep). cbn [mbind vm_bind].
  rewrite bool_decide_true by done. cbn [assert mbind vm_bind].
  destruct (lookup_lt_is_Some_2 (LoopPartition.depths (partition c)) h) as [d Hd]; [rewrite Hdep, (lp_depths _ _ Hloops); lia|].
  rewrite (depth_Ok _ _ d Hd). cbn [mbind vm_bind]. rewrite Hdep in Hd. destruct (lp_depth _ _ Hloops h d Hd) as [_ Hd0].
  destruct (collapse_fold h (size blocks - h - 1) (ordered (body c)) (partition c) d) as (p' & d' & -> & Hd' & Hdeps & Hlen' & Hps').
  - apply NoDup_sort_by, NoDup_elements.
  - intros b [Hb ?]%Hord. split; [by apply Hself|]. rewrite Hdep, (lp_depths _ _ Hloops). lia.
  - intros b e [Hb ?]%Hord. rewrite Hdep. intros He. destruct (lp_depth _ _ Hloops b e He). lia.
  - rewrite Hd0 by lia. lia.
  - cbn [mbind vm_bind]. unfold u16_add. rewrite bool_decide_true by lia. cbn [mbind vm_bind].
    unfold LoopPartition.set_depth, set_index. rewrite bool_decide_true by (rewrite Hdeps, Hdep, (lp_depths _ _ Hloops); lia).
    cbn [mbind vm_bind]. do 2 eexists. split; [done|]. destruct p' as [ps' ds'].
    change (Loops h {| LoopPartition.parents := ps'; LoopPartition.depths := <[h := d' + 1]> ds' |}). cbn in Hlen', Hps', Hdeps.
    apply (loops_collapse (body c) ps' _ (d' + 1)); [done|rewrite Hlen', Hlen; apply Hloops| | |by rewrite Hdeps, Hdep].
    + lia.
    + exists (LoopPartition.parents (partition c)). split; [done|]. split; [rewrite Hlen; apply Hloops|]. done.
Qed.

Lemma process_head_Ok :
  (exists p', process_head config current_function ls p0 h = Ok p' /\ Loops h p') \/
  (exists e, process_head config current_function ls p0 h = Err e /\ (refused \/ max_loop_depth config <> None)).
Proof.
  pose proof nodes_blocks as Hkn. unfold process_head, LoopSummary.back_edges.
  assert (index (backs ls) h = Ok (backs_of ls h)) as ->.
  { destruct (index_lt (backs ls) h) as (l & -> & Hl); [rewrite (sp_backs _ _ _ Hspan); unfold blocks in *; lia|].
    unfold backs_of, at_. by rewrite Hl. }
  cbn [mbind vm_bind]. destruct (backs_of ls h) as [|u0 bs] eqn:Hbs; [left; exists p0; split; [done|]; by apply loops_skip|].
  rewrite <- Hbs. clear u0 bs Hbs.
  destruct (add_backs_Ok (backs_of ls h) p0 ∅) as (p1 & bd0 & -> & Hs1 & Hbd).
  { split; [done|]. split; [done|]. split; [apply Hloops|done]. }
  { intros u Hu. by destruct (sp_edge _ _ _ Hspan u h) as (? & _); [left|]. }
  cbn [mbind vm_bind]. assert (Body bd0 (ordered bd0)) as HB0 by (apply body_start; intros b; rewrite Hbd; set_solver).
  destruct (grow_body_Ok (body_fuel ls) {| partition := p1; body := bd0; frontier := reverse (ordered bd0) |})
    as [(c & -> & Hs & HB)|(e & -> & Href)]; [done| | | |cbn [mbind vm_bind]|right; exists e; split; [done|by left]].
  { cbn. destruct HB0 as [B1 B2 B3 B4]. split; [done|done| |done]. intros b u Hb Hn. apply B3; [done|]. by rewrite elem_of_reverse in Hn. }
  { cbn. intros b. rewrite elem_of_reverse. unfold ordered. by rewrite elem_of_sort_by, elem_of_elements. }
  { cbn. rewrite length_reverse. pose proof (body_size _ _ HB0). unfold ordered, body_fuel. rewrite sort_by_length.
    change (length (elements bd0)) with (size bd0). rewrite (sp_blocks _ _ _ Hspan). unfold blocks in *. lia. }
  destruct (collapse_Ok c Hs HB) as (p' & d & -> & Hp'). cbn [mbind vm_bind].
  destruct (max_loop_depth config) as [max|] eqn:Hmax; [|by left; exists p']. case_bool_decide; [|by left; exists p']. right.
  unfold LoopSummary.block.
  destruct (index_lt (ls_blocks ls) h) as (bl & -> & _); [rewrite (sp_blocks _ _ _ Hspan); unfold blocks in *; lia|].
  cbn [mbind vm_bind]. eexists. split; [done|]. by right.
Qed.
End Heads.

(** ** The check *)

Section Check.
Context (cfg : VMControlFlowGraph) (ls : LoopSummary) (k : nat) (Hspan : Spanning cfg ls k).
Context (Hsize : (Z.of_nat (size (blocks_map cfg)) < 65536)%Z).
Context (config : VerifierConfig) (current_function : nat).

Lemma no_head h : k <= h -> backs_of ls h = [].
Proof.
  intros Hk. destruct (backs_of ls h) as [|u l] eqn:Hb; [done|]. destruct (sp_edge _ _ _ Hspan u h) as (_ & ? & _); [|lia].
  left. rewrite Hb. by left.
Qed.

Lemma heads_Ok n p :
  n <= size (blocks_map cfg) -> Loops cfg ls n p ->
  (exists p', vfold (process_head config current_function ls) (reverse (map u16 (seq 0 n))) p = Ok p' /\ Loops cfg ls 0 p') \/
  (exists e, vfold (process_head config current_function ls) (reverse (map u16 (seq 0 n))) p = Err e /\
    ((exists u v, u ∈ backs_of ls v /\ navoiding ls v u) \/ max_loop_depth config <> None)).
Proof.
  revert p. induction n as [|n IH]; intros p Hn HL; [left; by exists p|].
  rewrite seq_S, map_app, reverse_app. cbn [map reverse app plus]. rewrite u16_small by lia.
  change (reverse [n] ++ reverse (map u16 (seq 0 n))) with (n :: reverse (map u16 (seq 0 n))). cbn [vfold].
  assert ((exists p', process_head config current_function ls p n = Ok p' /\ Loops cfg ls n p') \/
    (exists e, process_head config current_function ls p n = Err e /\ (refused ls n \/ max_loop_depth config <> None))) as Hstep.
  { destruct (decide (n < k)) as [Hk|Hk]; [by eapply process_head_Ok|]. left. exists p. assert (backs_of ls n = []) as Hb by (apply no_head; lia).
    split; [|by apply loops_skip]. unfold process_head, LoopSummary.back_edges.
    destruct (index_lt (backs ls) n) as (l & -> & Hl); [rewrite (sp_backs _ _ _ Hspan); lia|].
    unfold backs_of, at_ in Hb. rewrite Hl in Hb. cbn in Hb. by subst l. }
  destruct Hstep as [(p' & -> & HL')|(e & -> & Href)]; cbn [mbind vm_bind]; [apply IH; [lia|done]|].
  right. exists e. split; [done|]. destruct Href as [(u & ? & ?)|?]; [left; eauto|by right].
Qed.

Lemma loops_init : Loops cfg ls (size (blocks_map cfg)) (LoopPartition.new ls).
Proof.
  pose proof (sp_blocks _ _ _ Hspan) as Hlen. unfold LoopPartition.new. rewrite Hlen.
  assert (forall i j, map u16 (seq 0 (size (blocks_map cfg))) !! i = Some j -> j = i) as Hself.
  { intros i j. change (map ?f ?l) with (f <$> l). rewrite list_lookup_fmap. intros (x & [-> Hx]%lookup_seq & ->)%fmap_Some.
    by rewrite u16_small by lia. }
  assert (forall w c, Rep (map u16 (seq 0 (size (blocks_map cfg)))) w c -> w = c) as Hrep.
  { induction 1 as [|i j r Hi Hlt _ _]; [done|]. apply Hself in Hi. lia. }
  split; cbn [LoopPartition.parents LoopPartition.depths].
  - by rewrite length_map, length_seq.
  - by rewrite length_replicate.
  - intros i j Hij. by rewrite (Hself i j Hij).
  - intros w c Hw Hne. by apply Hrep in Hw.
  - intros w c u Hw Hne. by apply Hrep in Hw.
  - intros c u Hc Hu. rewrite no_head in Hu; [by apply elem_of_nil in Hu|]. pose proof (sp_pos _ _ _ Hspan). lia.
  - intros c u Hc Hu. rewrite no_head in Hu; [by apply elem_of_nil in Hu|]. pose proof (sp_pos _ _ _ Hspan). lia.
  - intros i d [-> Hi]%lookup_replicate. split; [lia|done].
Qed.
End Check.

(** The check of a graph: it returns, accepts only what is reducible, and all of it
    when the depth of loops is not limited. *)
Lemma verify_reducibility_Ok config view order :
  CfgSearch.Graph (cu_code (fv_code view)) (fv_cfg view) order -> (Z.of_nat (length (cu_code (fv_code view))) < 65536)%Z ->
  settles (verify_reducibility config view) /\
  (verify_reducibility config view = Ok () -> reducible (blocks_map (fv_cfg view))) /\
  (max_loop_depth config = None -> reducible (blocks_map (fv_cfg view)) -> verify_reducibility config view = Ok ()).
Proof.
  intros [Hbk _ _] Hlen. assert (size (blocks_map (fv_cfg view)) <= length (cu_code (fv_code view))) as Hsz.
  { rewrite <- size_dom, <- (size_set_seq (C := gset nat) 0 (length (cu_code (fv_code view)))). apply subseteq_size.
    intros b [bb Hbb]%elem_of_dom. apply elem_of_set_seq. pose proof (bk_range _ _ Hbk _ _ Hbb). lia. }
  destruct (new_Ok (fv_cfg view)) as (ls & k & Hnew & Hspan).
  - apply Hbk.
  - lia.
  - intros b bb. by apply (CfgSearch.blocks_two (cu_code (fv_code view))).
  - apply Hbk.
  - unfold verify_reducibility. rewrite Hnew. cbn [mbind vm_bind]. unfold preorder. rewrite (sp_blocks _ _ _ Hspan).
    destruct (heads_Ok (fv_cfg view) ls k Hspan ltac:(lia) config (default 0 (fv_index view)) (size (blocks_map (fv_cfg view))) (LoopPartition.new ls))
      as [(p' & -> & HL)|(e & -> & Href)]; [done|eapply loops_init; [done|lia]|..]; cbn [mbind vm_bind].
    + split; [apply settles_Ok|]. split; [|done]. intros _. eapply reducible_if; [done|]. intros u v Hb. eapply (lp_dom _ _ _ _ HL); [lia|done].
    + split; [apply settles_Err|]. split; [done|]. intros Hmax Hred. destruct Href as [(u & v & Hb & Ha)|?]; [|done].
      destruct (reducible_only_if _ _ _ Hspan Hred u v Hb Ha).
Qed.
(** C11: The control flow check of bytecode version 6 decides reducibility. On
    every function with a body of a module the bounds checker accepted it returns
    a verdict: it neither panics (on a node index, on an assertion about the
    partition, on the 16-bit counters) nor loops. It accepts a function only if
    its control-flow graph is reducible, that is, if some edges whose target
    dominates their source break every cycle of the reachable blocks; and, when
    the configuration does not limit the depth of loops, it accepts every such
    function. *)
Theorem reducibility_decided config module idx fd fh cu :
  Bounds.verify_module module = Ok () -> cm_function_defs module !! idx = Some fd -> fn_code fd = Some cu ->
  cm_function_handles module !! fn_function fd = Some fh -> (Z.of_nat (length (cu_code cu)) < 65536)%Z -> cu_code cu <> [] ->
  exists view, Cfg.function module idx cu fh = Ok view /\ settles (verify_reducibility config view) /\
  (verify_reducibility config view = Ok () -> reducible (blocks_map (fv_cfg view))) /\
  (max_loop_depth config = None -> reducible (blocks_map (fv_cfg view)) -> verify_reducibility config view = Ok ()).
Proof.
  intros Hv Hfd Hcu Hfh Hlen Hne. destruct (FunctionViews.function_sound _ _ _ _ _ Hv Hfd Hcu Hfh Hlen Hne) as (view & order & Hf & <- & Hs).
  exists view. split; [done|]. by eapply verify_reducibility_Ok; [apply Hs|].
Qed.

(** The loop of the blocks at 2 and 4 is entered at both. *)
Definition split_code : list Bytecode :=
  [Bytecode.LdTrue; Bytecode.BrTrue 4; Bytecode.LdTrue; Bytecode.BrTrue 6; Bytecode.LdTrue; Bytecode.BrTrue 2; Bytecode.Ret].

Lemma reducibility_decided_witness :
  verify_reducibility default_config (FunctionViews.view_of split_code) <> Ok () /\ ~ reducible (blocks_map (fv_cfg (FunctionViews.view_of split_code))).
Proof.
  destruct (reducibility_decided default_config (FunctionViews.one_function split_code) 0 (FunctionViews.one_definition split_code)
    FunctionViews.one_handle (FunctionViews.one_body split_code)) as (view & Hf & _ & _ & Hred);
    [vm_compute; reflexivity..|discriminate|].
  rewrite FunctionViews.view_of_eq in Hf by (vm_compute; reflexivity). injection Hf as Hview. subst view.
  assert (verify_reducibility default_config (FunctionViews.view_of split_code) <> Ok ()) as Hno by (vm_compute; discriminate).
  split; [exact Hno|]. intros Hr. apply Hno. apply Hred; [reflexivity|exact Hr].
Defined.
End Reducibility.
