(* ===== verification/MoveControlV5.v ===== *)
(** The control flow checks of bytecode versions up to 5.

    external/move/move-bytecode-verifier/src/control_flow_v5.rs: labels mark the
    instructions that are jumped back to with the last jump back, and the checks
    run over the labelled code with the stack of the loops an instruction is in.
    [Vec::last] of the stack is the head of its list.  control_flow.rs chooses
    between these checks and those of [MoveLoops] by the version of the module.

    The theorems: the checks return; in code they accept, loops are intervals
    that nest and that are entered at their heads only, so that the control-flow
    graph is reducible; hence the check of version 6 accepts, without a limit on
    the depth of loops, all that the checks of version 5 accept. *)

From S2P Require Import Prelude MoveFormat MoveBounds MoveCfg MoveSearch MoveFunction MoveStack MoveLoops MoveSpanning MoveReducible.

Module ControlFlowV5.

Inductive Label := Loop (last_continue : nat) | Code.

Definition is_back_edge (cur_instr target_instr : nat) : bool := bool_decide (target_instr <= cur_instr).

(** [Branch(t) | BrTrue(t) | BrFalse(t)]. *)
Definition jump (instr : Bytecode) : option nat :=
  match instr with Bytecode.Branch t | Bytecode.BrTrue t | Bytecode.BrFalse t => Some t | _ => None end.

(** [try_into().unwrap()] of an index. *)
Definition code_offset (idx : nat) : vm nat := if bool_decide (Z.of_nat idx < 65536)%Z then Ok idx else Panicked.

Section Verifier.
Context (config : VerifierConfig) (current_function : nat) (code : list Bytecode).

Definition error {A} (status : StatusCode) (offset : nat) : vm A := Err (at_code_offset (error_new status) current_function offset).

Definition verify_fallthrough : vm () :=
  match last code with
  | None => Err (error_new StatusCode.EMPTY_CODE_UNIT)
  | Some last =>
    if negb (Bytecode.is_unconditional_branch last) then error StatusCode.INVALID_FALL_THROUGH (u16 (length code - 1)) else Ok ()
  end.

Definition label_jump (labels : list Label) (p : nat * Bytecode) : vm (list Label) :=
  i ← code_offset p.1;
  match jump p.2 with
  | Some prev => if is_back_edge i prev then set_index labels prev (Loop i) else Ok labels
  | None => Ok labels
  end.

Definition instruction_labels : vm (list Label) := vfold label_jump (imap pair code) (replicate (length code) Code).

(** One instruction of [check_code]; the state is the stack of loops. *)
Definition check_instr (check : list (nat * nat) -> nat -> Bytecode -> vm ()) (loop_stack : list (nat * nat)) (p : nat * Bytecode * Label) :
    vm (list (nat * nat)) :=
  cur_instr ← code_offset p.1.1;
  let loop_stack := match p.2 with Loop last_continue => (cur_instr, last_continue) :: loop_stack | Code => loop_stack end in
  _ ← check loop_stack cur_instr p.1.2;
  match jump p.1.2 with
  | Some target =>
    if is_back_edge cur_instr target then
      match loop_stack with
      | [] => Panicked
      | (_, last_continue) :: rest => Ok (if bool_decide (cur_instr = last_continue) then rest else loop_stack)
      end
    else Ok loop_stack
  | None => Ok loop_stack
  end.

Definition check_code (labels : list Label) (check : list (nat * nat) -> nat -> Bytecode -> vm ()) : vm () :=
  _ ← vfold (check_instr check) (zip (imap pair code) labels) []; Ok ().

Definition check_continue (loop_stack : list (nat * nat)) (cur_instr : nat) (instr : Bytecode) : vm () :=
  match jump instr with
  | Some target =>
    if is_back_edge cur_instr target then
      match loop_stack with
      | [] => Panicked
      | (cur_loop_head, _) :: _ =>
        if bool_decide (target <> cur_loop_head) then error StatusCode.INVALID_LOOP_CONTINUE cur_instr else Ok ()
      end
    else Ok ()
  | None => Ok ()
  end.

Definition check_break (loop_stack : list (nat * nat)) (cur_instr : nat) (instr : Bytecode) : vm () :=
  match jump instr with
  | Some target =>
    if negb (is_back_edge cur_instr target) then
      match loop_stack with
      | (_, last_continue) :: _ =>
        if bool_decide (last_continue < target) then
          next ← u16_add last_continue 1;
          if bool_decide (target <> next) then error StatusCode.INVALID_LOOP_BREAK cur_instr else Ok ()
        else Ok ()
      | [] => Ok ()
      end
    else Ok ()
  | None => Ok ()
  end.

Definition is_break (loop_stack : list (nat * nat)) (jump_target : nat) : bool :=
  match loop_stack with
  | [] => false
  | (_, last_continue) :: _ => bool_decide (last_continue < jump_target)
  end.

(** [usize] subtraction. *)
Definition checked_sub (a b : nat) : vm nat := if bool_decide (b <= a) then Ok (a - b) else Panicked.

Definition check_no_loop_split (labels : list Label) (loop_depth : list nat) (loop_stack : list (nat * nat)) (i : nat) (instr : Bytecode) : vm () :=
  match jump instr with
  | Some j =>
    if bool_decide (i < j) && negb (is_break loop_stack j) then
      before_depth ← index loop_depth i;
      l ← index labels j;
      d ← index loop_depth j;
      after_depth ← match l with Loop _ => checked_sub d 1 | Code => Ok d end;
      if bool_decide (before_depth <> after_depth) then error StatusCode.INVALID_LOOP_SPLIT i else Ok ()
    else Ok ()
  | None => Ok ()
  end.

Definition check_depth (max_depth : nat) (loop_depth : list nat) (_ : list (nat * nat)) (i : nat) (_ : Bytecode) : vm () :=
  d ← index loop_depth i;
  if bool_decide (max_depth < d) then error StatusCode.LOOP_MAX_DEPTH_REACHED i else Ok ().

Definition check_loop_depth (labels : list Label) (loop_depth : list nat) : vm () :=
  match max_loop_depth config with
  | None => Ok ()
  | Some max_depth => check_code labels (check_depth max_depth loop_depth)
  end.

Definition last_continues (labels : list Label) : list nat :=
  omap (fun l => match l with Loop last_continue => Some last_continue | Code => None end) labels.

Definition count_label (lasts : gset nat) (st : nat * list nat) (p : nat * Label) : vm (nat * list nat) :=
  let '(count, counts) := st in
  let count := match p.2 with Loop _ => count + 1 | Code => count end in
  let counts := counts ++ [count] in
  idx ← code_offset p.1;
  if bool_decide (idx ∈ lasts) then count ← checked_sub count 1; Ok (count, counts) else Ok (count, counts).

Definition count_loop_depth (labels : list Label) : vm (list nat) :=
  '(_, counts) ← vfold (count_label (list_to_set (last_continues labels))) (imap pair labels) (0, []); Ok counts.

Definition check_jumps (labels : list Label) : vm () :=
  _ ← check_code labels check_continue;
  _ ← check_code labels check_break;
  loop_depth ← count_loop_depth labels;
  _ ← check_code labels (check_no_loop_split labels loop_depth);
  check_loop_depth labels loop_depth.
End Verifier.

Definition verify (config : VerifierConfig) (current_function_opt : option nat) (code : CodeUnit) : vm () :=
  let current_function := default 0 current_function_opt in
  _ ← verify_fallthrough current_function (cu_code code);
  labels ← instruction_labels (cu_code code);
  check_jumps config current_function (cu_code code) labels.

(** ** Loops *)

Section Loops.
Context (current_function : nat) (code : list Bytecode).
Context (Hlen : (Z.of_nat (length code) < 65536)%Z) (Hbranch : Cfg.branches_in_range code).

(** A jump from [i] back to [h]. *)
Definition back (i h : nat) : Prop := code !! i ≫= jump = Some h /\ h <= i.

(** The loop with head [h], whose last jump back is at [c]. *)
Definition loop (labels : list Label) (p : nat * nat) : Prop := labels !! p.1 = Some (Loop p.2).

Definition labelled (labels : list Label) : Prop :=
  length labels = length code /\ forall h c, loop labels (h, c) <-> back c h /\ forall i, back i h -> i <= c.

Lemma jump_offset instr : jump instr = Bytecode.offset instr.
Proof. by destruct instr. Qed.

Lemma jump_range i instr t : code !! i = Some instr -> jump instr = Some t -> t < length code.
Proof. rewrite jump_offset. apply Hbranch. Qed.

Lemma code_offset_Ok i : i < length code -> code_offset i = Ok i.
Proof. intros Hi. unfold code_offset. by rewrite bool_decide_true by lia. Qed.

(** The labels after the first [n] instructions. *)
Lemma instruction_labels_Ok : exists labels, instruction_labels code = Ok labels /\ labelled labels.
Proof.
  set (P := fun n (labels : list Label) => length labels = length code /\ forall h c, loop labels (h, c) <->
    back c h /\ c < n /\ forall i, i < n -> back i h -> i <= c).
  assert (exists labels, instruction_labels code = Ok labels /\ P (length (imap pair code)) labels) as (labels & -> & Hlen' & Hl).
  { unfold instruction_labels. apply (vfold_reach P).
    - split; [by rewrite length_replicate|]. intros h c. unfold loop. cbn. rewrite lookup_replicate. split; [by intros [[=] _]|]. intros (_ & ? & _). lia.
    - intros n [i instr] labels Hi [Hll Hl]. rewrite list_lookup_imap in Hi. apply fmap_Some in Hi as (instr' & Hi & [= -> ->]).
      rename instr' into instr. pose proof (lookup_lt_Some _ _ _ Hi) as Hn. unfold label_jump. cbn [fst snd]. rewrite code_offset_Ok by done. vm_cbn.
      assert ((exists prev, jump instr = Some prev /\ prev <= n) \/ forall h, ~ back n h) as [(prev & Hj & Hle)|Hnb].
      { unfold back. rewrite Hi. cbn. destruct (jump instr) as [prev|] eqn:Hj; [|right; by intros h [? _]].
        destruct (decide (prev <= n)); [left; eauto|right]. intros h [? ?]. by simplify_eq. }
      + rewrite Hj. unfold is_back_edge. rewrite bool_decide_true by done. unfold set_index. rewrite bool_decide_true by lia.
        eexists. split; [done|]. split; [by rewrite length_insert|]. intros h c. unfold loop. cbn [fst snd].
        assert (back n prev) as Hb by (unfold back; by rewrite Hi).
        assert (forall h, back n h -> h = prev) as Hu by (intros h'; unfold back; rewrite Hi; cbn; rewrite Hj; by intros [[= <-] _]).
        destruct (decide (h = prev)) as [->|Hne].
        * rewrite list_lookup_insert_eq by lia. split.
          -- intros [= <-]. split; [done|]. split; [lia|]. intros. lia.
          -- intros (? & ? & Hm). specialize (Hm n ltac:(lia) Hb). do 2 f_equal. lia.
        * rewrite list_lookup_insert_ne by done. rewrite (Hl h c). split.
          -- intros (? & ? & Hm). split; [done|]. split; [lia|]. intros i ? Hbi. destruct (decide (i = n)) as [->|]; [by apply Hu in Hbi|].
             apply Hm; [lia|done].
          -- intros (Hbc & ? & Hm). split; [done|]. split; [|intros; apply Hm; [lia|done]].
             destruct (decide (c = n)) as [->|]; [by apply Hu in Hbc|lia].
      + assert (label_jump labels (n, instr) = Ok labels) as Heq.
        { unfold label_jump. cbn [fst snd]. rewrite code_offset_Ok by done. vm_cbn. destruct (jump instr) as [t|] eqn:Hj; [|done]. unfold is_back_edge.
          case_bool_decide; [|done]. destruct (Hnb t). unfold back. by rewrite Hi. }
        unfold label_jump in Heq. cbn [fst snd] in Heq. rewrite code_offset_Ok in Heq by done. exists labels. split; [exact Heq|].
        split; [done|]. intros h c. rewrite (Hl h c). split.
        * intros (? & ? & Hm). split; [done|]. split; [lia|]. intros i ? Hbi. destruct (decide (i = n)) as [->|]; [by destruct (Hnb h)|].
          apply Hm; [lia|done].
        * intros (Hbc & ? & Hm). split; [done|]. split; [|intros; apply Hm; [lia|done]].
          destruct (decide (c = n)) as [->|]; [by destruct (Hnb h)|lia]. }
  exists labels. split; [done|]. split; [done|]. intros h c. rewrite Hl, length_imap.
  assert (forall i h, back i h -> i < length code) as Hb by (intros i h' [Hb _]; destruct (code !! i) eqn:?; [by eapply lookup_lt_Some|done]).
  split; [intros (? & ? & Hm); split; [done|]; intros i ?; apply Hm; [by eapply Hb|done]|].
  intros [? Hm]. split; [done|]. split; [by eapply Hb|]. intros; by apply Hm.
Qed.

Context (labels : list Label) (Hlabels : labelled labels).

Lemma loop_back h c : loop labels (h, c) -> back c h.
Proof. intros Hl. by apply (proj2 Hlabels) in Hl as [? _]. Qed.

Lemma loop_of_back i h : back i h -> exists c, loop labels (h, c) /\ i <= c.
Proof.
  assert (forall n i, length code - i <= n -> back i h -> exists c, loop labels (h, c) /\ i <= c) as Hgen; [|by eapply Hgen].
  induction n as [|n IH]; intros j Hj Hb.
  { destruct Hb as [Hb _]. destruct (code !! j) as [x|] eqn:Hx; [apply lookup_lt_Some in Hx; lia|done]. }
  destruct (decide (Exists (fun q => j < q /\ back q h) (seq 0 (length code)))) as [Hex|Hnex].
  - apply Exists_exists in Hex as (q & _ & Hq & Hbq). destruct (IH q) as (c & ? & ?); [lia|done|]. exists c. split; [done|lia].
  - exists j. split; [|done]. apply (proj2 Hlabels). split; [done|]. intros q Hbq. destruct (decide (q <= j)); [done|]. destruct Hnex.
    apply Exists_exists. exists q. split; [|split; [lia|done]]. apply elem_of_seq. destruct Hbq as [Hbq _].
    destruct (code !! q) eqn:Hq; [apply lookup_lt_Some in Hq; lia|done].
Qed.

Lemma loop_fun h c c' : loop labels (h, c) -> loop labels (h, c') -> c = c'.
Proof. unfold loop. cbn. congruence. Qed.

(** The loops an instruction is in, the innermost first. *)
Definition inner (p q : nat * nat) : Prop := q.1 < p.1.
Definition full (i : nat) (st : list (nat * nat)) : Prop :=
  StronglySorted inner st /\ forall p, p ∈ st <-> loop labels p /\ p.1 <= i <= p.2.

(** Those of them that begin earlier. *)
Definition before (i : nat) (st : list (nat * nat)) : Prop :=
  StronglySorted inner st /\ forall p, p ∈ st <-> loop labels p /\ p.1 < i <= p.2.

Lemma sorted_nodup st : StronglySorted inner st -> NoDup st.
Proof.
  induction 1 as [|p st Hs IH Hp]; constructor; [|done]. intros Hin. rewrite Forall_forall in Hp. specialize (Hp p Hin). unfold inner in Hp. lia.
Qed.

Lemma full_unique i st st' : full i st -> full i st' -> st = st'.
Proof.
  intros [Hs Hm] [Hs' Hm']. assert (AntiSymm (=) inner) by (intros p q; unfold inner; lia).
  eapply (StronglySorted_unique inner); [done|done|]. apply NoDup_Permutation; [by apply sorted_nodup..|]. intros p. by rewrite Hm, Hm'.
Qed.

(** A jump back goes to the head of the innermost loop. *)
Definition continues (i : nat) (st : list (nat * nat)) : Prop := forall t, back i t -> exists c rest, st = (t, c) :: rest.

Definition pushed (i : nat) (l : Label) (st : list (nat * nat)) : list (nat * nat) :=
  match l with Loop last_continue => (i, last_continue) :: st | Code => st end.

Lemma pushed_full i l st : labels !! i = Some l -> before i st -> full i (pushed i l st).
Proof.
  intros Hl [Hs Hm]. destruct l as [c|]; cbn.
  - assert (loop labels (i, c)) as Hloop by done. assert (i <= c) by (by apply loop_back in Hloop as [_ ?]). split.
    + constructor; [done|]. apply Forall_forall. intros p Hp%Hm. unfold inner. cbn. lia.
    + intros p. rewrite elem_of_cons, Hm. split.
      * intros [->|[? ?]]; [split; [done|cbn; lia]|split; [done|lia]].
      * intros [Hp Hr]. destruct (decide (p.1 = i)) as [Heq|]; [left|right; split; [done|lia]].
        destruct p as [h c']. cbn in *. subst h. f_equal. by eapply loop_fun.
  - split; [done|]. intros p. rewrite Hm. split; intros [Hp Hr]; (split; [done|]); [lia|].
    destruct (decide (p.1 = i)) as [Heq|]; [|lia]. unfold loop in Hp. rewrite Heq, Hl in Hp. done.
Qed.

(** Leaving an instruction. *)
Lemma full_before i st : full i st -> continues i st ->
  before (S i) (match code !! i ≫= jump with
                | Some t => if bool_decide (t <= i) then match st with (_, c) :: rest => if bool_decide (i = c) then rest else st | [] => st end else st
                | None => st
                end).
Proof.
  intros [Hs Hm] Hc.
  assert ((forall p, p ∈ st -> p.2 <> i) -> before (S i) st) as Hkeep.
  { intros Hn. split; [done|]. intros p. rewrite Hm. split; [|intros [? ?]; split; [done|lia]].
    intros [Hp Hr]. assert (p.2 <> i) by (apply Hn, Hm; done). split; [done|lia]. }
  assert (forall p, p ∈ st -> p.2 = i -> back i p.1) as Hlast.
  { intros [h c] [Hp _]%Hm ?. cbn in *. subst c. by apply loop_back. }
  destruct (code !! i ≫= jump) as [t|] eqn:Hj; [case_bool_decide as Hle|].
  - destruct (Hc t) as (c & rest & ->); [done|]. assert (forall p, p ∈ rest -> p.1 < t) as Hrest.
    { intros p Hp. inversion Hs as [|? ? _ Hf]; subst. rewrite Forall_forall in Hf. apply (Hf p Hp). }
    assert (forall p, p ∈ rest -> p.2 <> i) as Hri.
    { intros p Hp Hpi. destruct (Hlast p) as [Hb _]; [by right|done|]. rewrite Hj in Hb. injection Hb as Heq. specialize (Hrest p Hp). lia. }
    case_bool_decide as Hic; [subst c|].
    + split; [by inversion Hs|]. intros p. split.
      * intros Hp. assert (p ∈ (t, i) :: rest) as [? ?]%Hm by by right. specialize (Hri p Hp). split; [done|lia].
      * intros [Hp Hr]. assert (p ∈ (t, i) :: rest) as [->|?]%elem_of_cons by (apply Hm; split; [done|lia]); [cbn in Hr; lia|done].
    + apply Hkeep. intros p [->|Hp]%elem_of_cons; [cbn; lia|by apply Hri].
  - apply Hkeep. intros p Hp Hpi. destruct (Hlast p Hp Hpi) as [Hb ?]. rewrite Hj in Hb. injection Hb as Heq. lia.
  - apply Hkeep. intros p Hp Hpi. destruct (Hlast p Hp Hpi) as [Hb ?]. by rewrite Hj in Hb.
Qed.

(** A check over the code: it runs at every instruction with the loops the
    instruction is in. *)
Lemma v5_check_code_Ok check :
  (forall i instr st, code !! i = Some instr -> full i st -> settles (check st i instr)) ->
  (forall i instr st, code !! i = Some instr -> full i st -> check st i instr = Ok () -> continues i st) ->
  settles (check_code code labels check) /\
  (check_code code labels check = Ok () -> forall i instr, code !! i = Some instr -> exists st, full i st /\ check st i instr = Ok ()).
Proof.
  intros Hset Hcont.
  set (P := fun n st => before n st /\ forall i instr, i < n -> code !! i = Some instr -> exists st, full i st /\ check st i instr = Ok ()).
  assert (settles (vfold (check_instr check) (zip (imap pair code) labels) []) /\
    forall st, vfold (check_instr check) (zip (imap pair code) labels) [] = Ok st -> P (length (zip (imap pair code) labels)) st) as [Hs Hp].
  { apply vfold_positions.
    - intros n [[i instr] l] st Hn [Hb Hall]. apply lookup_zip_Some in Hn as [Hi Hl]. rewrite list_lookup_imap in Hi.
      apply fmap_Some in Hi as (instr' & Hi & [= -> ->]). rename instr' into instr. pose proof (lookup_lt_Some _ _ _ Hi) as Hlt.
      pose proof (pushed_full n l st Hl Hb) as Hf.
      assert (forall t, jump instr = Some t -> t <= n -> pushed n l st <> []) as Hne.
      { intros t Hj Hle Hnil. destruct (loop_of_back n t) as (c & Hc & ?); [unfold back; by rewrite Hi|].
        assert ((t, c) ∈ pushed n l st) as Hin by (apply Hf; done). rewrite Hnil in Hin. by apply elem_of_nil in Hin. }
      unfold check_instr. cbn [fst snd]. rewrite code_offset_Ok by done. vm_cbn. fold (pushed n l st). split.
      + apply settles_bind; [by apply Hset|]. intros _ _. destruct (jump instr) as [t|] eqn:Hj; [|apply settles_Ok].
        unfold is_back_edge. case_bool_decide as Hle; [|apply settles_Ok]. specialize (Hne t eq_refl Hle).
        destruct (pushed n l st) as [|[? ?] ?]; [done|apply settles_Ok].
      + intros st' Hst'. apply vm_bind_Ok in Hst' as ([] & Hc & Hst'). pose proof (Hcont n instr _ Hi Hf Hc) as Hcn.
        pose proof (full_before n _ Hf Hcn) as Hb'. rewrite Hi in Hb'. cbn in Hb'. split.
        * destruct (jump instr) as [t|] eqn:Hj; [|by vm_inv; subst st']. unfold is_back_edge in Hst'.
          case_bool_decide as Hle; [|by vm_inv; subst st']. destruct (pushed n l st) as [|[? c] rest]; [done|]. vm_inv. by subst st'.
        * intros j instr' Hj Hij. destruct (decide (j = n)) as [->|]; [|apply Hall; [lia|done]]. rewrite Hi in Hij. injection Hij as <-. by exists (pushed n l st).
    - split; [|intros; lia]. split; [constructor|]. intros p. split; [by intros ?%elem_of_nil|]. intros [_ ?]. lia. }
  unfold check_code. split; [apply settles_bind; [done|intros; apply settles_Ok]|].
  intros Hok i instr Hi. vm_inv. destruct (Hp v) as [_ Hall]; [done|]. eapply Hall; [|done].
  rewrite length_zip_with, length_imap. pose proof (lookup_lt_Some _ _ _ Hi). destruct Hlabels. lia.
Qed.

Lemma check_continue_Ok : settles (check_code code labels (check_continue current_function)) /\
  (check_code code labels (check_continue current_function) = Ok () -> forall i, i < length code -> exists st, full i st /\ continues i st).
Proof.
  assert (forall i instr st, code !! i = Some instr -> full i st -> check_continue current_function st i instr = Ok () -> continues i st) as Hcont.
  { intros i instr st Hi Hf Hc t [Hj Hle]. rewrite Hi in Hj. cbn in Hj. unfold check_continue in Hc. rewrite Hj in Hc.
    unfold is_back_edge in Hc. rewrite bool_decide_true in Hc by done. destruct st as [|[h c] rest]; [done|].
    case_bool_decide; [done|]. exists c, rest. do 2 f_equal. lia. }
  destruct (v5_check_code_Ok (check_continue current_function)) as [Hs Hok].
  - intros i instr st Hi Hf. unfold check_continue. destruct (jump instr) as [t|] eqn:Hj; [|apply settles_Ok].
    unfold is_back_edge. case_bool_decide as Hle; [|apply settles_Ok]. destruct (loop_of_back i t) as (c & Hc & ?); [unfold back; by rewrite Hi|].
    assert ((t, c) ∈ st) as Hin by (apply Hf; done). destruct st as [|[? ?] ?]; [by apply elem_of_nil in Hin|]. unfold error. settle.
  - done.
  - split; [done|]. intros H i Hlt. destruct (lookup_lt_is_Some_2 _ _ Hlt) as [instr Hi].
    destruct (Hok H i instr Hi) as (st & Hf & Hc). exists st. split; [done|]. by eapply Hcont.
Qed.

(** Loops nest. *)
Definition nested : Prop := forall h c h' c', loop labels (h, c) -> loop labels (h', c') -> h < h' <= c -> c' < c.

Context (Hcont : forall i, i < length code -> exists st, full i st /\ continues i st).

Lemma continues_at i st : i < length code -> full i st -> continues i st.
Proof. intros Hi Hf. destruct (Hcont i Hi) as (st' & Hf' & Hc). by rewrite (full_unique _ _ _ Hf Hf'). Qed.

Lemma back_lt i h : back i h -> i < length code.
Proof. intros [Hb _]. destruct (code !! i) eqn:Hi; [by eapply lookup_lt_Some|done]. Qed.

Lemma continues_nested : nested.
Proof.
  intros h c h' c' Hl Hl' Hr. destruct (decide (c' < c)) as [|Hge]; [done|]. exfalso.
  destruct (Hcont c) as (st & Hf & Hc); [by eapply back_lt, loop_back|]. destruct (Hc h (loop_back _ _ Hl)) as (c0 & rest & ->).
  destruct Hf as [Hs Hm]. assert ((h', c') ∈ (h, c0) :: rest) as [[= <- <-]|Hin]%elem_of_cons by (apply Hm; split; [done|cbn; lia]); [lia|].
  inversion Hs as [|? ? _ Hf]; subst. rewrite Forall_forall in Hf. specialize (Hf _ Hin). unfold inner in Hf. cbn in Hf. lia.
Qed.

(** A check that no longer has to see to the stack. *)
Lemma check_code_after check :
  (forall i instr st, code !! i = Some instr -> full i st -> settles (check st i instr)) ->
  settles (check_code code labels check) /\
  (check_code code labels check = Ok () -> forall i instr st, code !! i = Some instr -> full i st -> check st i instr = Ok ()).
Proof.
  intros Hset. destruct (v5_check_code_Ok check Hset) as [Hs Hok].
  { intros i instr st Hi Hf _. apply continues_at; [by eapply lookup_lt_Some|done]. }
  split; [done|]. intros H i instr st Hi Hf. destruct (Hok H i instr Hi) as (st' & Hf' & Hc). by rewrite (full_unique _ _ _ Hf Hf').
Qed.

(** A forward jump out of the innermost loop goes to its end. *)
Definition breaks : Prop := forall i t h c rest, code !! i ≫= jump = Some t -> i < t -> full i ((h, c) :: rest) -> c < t -> t = c + 1.

Lemma check_break_Ok : settles (check_code code labels (check_break current_function)) /\
  (check_code code labels (check_break current_function) = Ok () -> breaks).
Proof.
  destruct (check_code_after (check_break current_function)) as [Hs Hok].
  - intros i instr st Hi Hf. unfold check_break, error. destruct (jump instr) as [t|] eqn:Hj; [|apply settles_Ok].
    pose proof (jump_range _ _ _ Hi Hj). unfold is_back_edge. case_bool_decide; cbn [negb]; [apply settles_Ok|].
    destruct st as [|[h c] rest]; [apply settles_Ok|]. case_bool_decide; [|apply settles_Ok].
    unfold u16_add. rewrite bool_decide_true by lia. vm_cbn. settle.
  - split; [done|]. intros H i t h c rest Hj Hlt Hf Hc. destruct (code !! i) as [instr|] eqn:Hi; [|done]. cbn in Hj.
    specialize (Hok H i instr _ Hi Hf). unfold check_break, is_back_edge in Hok. rewrite Hj in Hok.
    rewrite bool_decide_false in Hok by lia. cbn [negb] in Hok. rewrite bool_decide_true in Hok by done. vm_inv. case_bool_decide; [done|]. lia.
Qed.

(** The depths: the number of loops an instruction is in. *)
Lemma count_loop_depth_Ok : exists depths, count_loop_depth labels = Ok depths /\ length depths = length code /\
  forall i st, i < length code -> full i st -> depths !! i = Some (length st).
Proof.
  set (P := fun n (s : nat * list nat) => (exists st, before n st /\ s.1 = length st) /\ length s.2 = n /\
    forall i st, i < n -> full i st -> s.2 !! i = Some (length st)).
  assert (exists s, vfold (count_label (list_to_set (last_continues labels))) (imap pair labels) (0, []) = Ok s /\ P (length (imap pair labels)) s)
    as ([count depths] & Hv & _ & Hlen' & Hd).
  { apply (vfold_reach P).
    - split; [exists []|split; [done|intros; lia]]. split; [|done]. split; [constructor|]. intros p. split; [by intros ?%elem_of_nil|].
      intros [_ ?]. lia.
    - intros n [i l] [count counts] Hn [(st & Hb & Hc) [Hlc Hall]]. cbn in Hc, Hlc, Hall. rewrite list_lookup_imap in Hn.
      apply fmap_Some in Hn as (l' & Hl & [= -> ->]). rename l' into l. pose proof (lookup_lt_Some _ _ _ Hl) as Hlt.
      rewrite (proj1 Hlabels) in Hlt. pose proof (pushed_full n l st Hl Hb) as Hf. pose proof (continues_at n _ Hlt Hf) as Hcn.
      pose proof (full_before n _ Hf Hcn) as Hb'.
      assert (match l with Loop _ => count + 1 | Code => count end = length (pushed n l st)) as Hpush by (destruct l; cbn; lia).
      unfold count_label. cbn [fst snd]. rewrite Hpush, code_offset_Ok by done. vm_cbn.
      assert (n ∈ last_continues labels <-> exists h, loop labels (h, n)) as Hlast.
      { unfold last_continues. rewrite list_elem_of_omap. split.
        - intros ([c|] & [h Hh]%list_elem_of_lookup & Hc'); [|done]. injection Hc' as <-. by exists h.
        - intros (h & Hh). exists (Loop n). split; [by eapply list_elem_of_lookup_2|done]. }
      assert (forall q, before (S n) q -> forall s1, s1 = length q -> P (S n) (s1, counts ++ [length (pushed n l st)])) as HP.
      { intros q Hq s1 ->. split; [by exists q|]. split; [cbn; rewrite length_app; cbn; lia|]. intros j st' Hj Hf'. cbn.
        destruct (decide (j = n)) as [->|]; [|rewrite lookup_app_l by lia; apply Hall; [lia|done]].
        rewrite (full_unique _ _ _ Hf' Hf). rewrite lookup_app_r by lia. by replace (n - length counts) with 0 by lia. }
      case_bool_decide as Hin.
      + apply elem_of_list_to_set, Hlast in Hin as (h & Hh). apply loop_back in Hh as Hbk. destruct (Hcn h Hbk) as (c & rest & Heq).
        rewrite Heq in *. assert (loop labels (h, c)) as Hh' by (apply Hf; by left). rewrite (loop_fun _ _ _ Hh' Hh) in *.
        destruct Hbk as [Hj Hle]. rewrite Hj in Hb'. rewrite !bool_decide_true in Hb' by done.
        unfold checked_sub. rewrite bool_decide_true by (cbn; lia). vm_cbn. eexists. split; [done|]. apply (HP rest); [done|]. cbn. lia.
      + eexists. split; [done|]. apply (HP (pushed n l st)); [|done].
        destruct (code !! n ≫= jump) as [t|] eqn:Hj; [|done]. case_bool_decide as Hle; [|done].
        destruct (Hcn t) as (c & rest & Heq); [done|]. rewrite Heq in *. case_bool_decide as Hnc; [|done]. subst c.
        destruct Hin. apply elem_of_list_to_set, Hlast. exists t. apply Hf. by left. }
  unfold count_loop_depth. rewrite Hv. vm_cbn. rewrite length_imap, (proj1 Hlabels) in *. exists depths. done.
Qed.

(** A forward jump that is no break does not change the number of loops. *)
Definition level : Prop := forall i t st st', code !! i ≫= jump = Some t -> i < t -> full i st -> is_break st t = false -> full t st' ->
  length st = length st' - match labels !! t with Some (Loop _) => 1 | _ => 0 end.

Lemma check_no_loop_split_Ok depths :
  length depths = length code -> (forall i st, i < length code -> full i st -> depths !! i = Some (length st)) ->
  settles (check_code code labels (check_no_loop_split current_function labels depths)) /\
  (check_code code labels (check_no_loop_split current_function labels depths) = Ok () -> level).
Proof.
  intros Hld Hd. destruct (check_code_after (check_no_loop_split current_function labels depths)) as [Hs Hok].
  - intros i instr st Hi Hf. unfold check_no_loop_split, error. destruct (jump instr) as [t|] eqn:Hj; [|apply settles_Ok].
    pose proof (jump_range _ _ _ Hi Hj) as Ht. pose proof (lookup_lt_Some _ _ _ Hi). case_match; [|apply settles_Ok].
    destruct (index_lt depths i) as (d & -> & _); [lia|]. vm_cbn.
    destruct (index_lt labels t) as (l & -> & Hl); [rewrite (proj1 Hlabels); lia|]. vm_cbn.
    destruct (index_lt depths t) as (d' & -> & Hd'); [lia|]. vm_cbn.
    destruct (Hcont t Ht) as (st' & Hf' & _). rewrite (Hd t st' Ht Hf') in Hd'. injection Hd' as <-.
    destruct l as [c|]; [|vm_cbn; settle]. assert ((t, c) ∈ st') as Hin.
    { apply Hf'. assert (loop labels (t, c)) as Hc by done. split; [done|]. apply loop_back in Hc as [_ ?]. cbn. lia. }
    unfold checked_sub. rewrite bool_decide_true by (destruct st'; [by apply elem_of_nil in Hin|cbn; lia]). vm_cbn. settle.
  - split; [done|]. intros H i t st st' Hj Hlt Hf Hnb Hf'. destruct (code !! i) as [instr|] eqn:Hi; [|done]. cbn in Hj.
    pose proof (jump_range _ _ _ Hi Hj) as Ht. pose proof (lookup_lt_Some _ _ _ Hi) as Hil.
    specialize (Hok H i instr st Hi Hf). unfold check_no_loop_split in Hok. rewrite Hj, bool_decide_true, Hnb in Hok by done. cbn [negb andb] in Hok.
    unfold index in Hok. rewrite (Hd i st Hil Hf), (Hd t st' Ht Hf') in Hok. vm_cbn.
    destruct (labels !! t) as [[c|]|] eqn:Hl; cbn [mbind vm_bind] in Hok; [|case_bool_decide; [done|lia]|done].
    unfold checked_sub in Hok. case_bool_decide; [|done]. cbn [mbind vm_bind] in Hok. case_bool_decide; [done|lia].
Qed.

(** Loops are entered at their heads. *)
Definition entered_at_head : Prop := forall h c i t, loop labels (h, c) -> code !! i ≫= jump = Some t -> ~ h <= i <= c -> h < t <= c -> False.

Lemma no_entry : breaks -> level -> entered_at_head.
Proof.
  intros Hbr Hlv h c i t Hl Hj Hi Ht. pose proof continues_nested as Hnest.
  assert (i < length code) as Hil by (destruct (code !! i) eqn:Hx; [by eapply lookup_lt_Some|done]).
  assert (t < length code) as Htl by (destruct (code !! i) eqn:Hx; [by eapply jump_range|done]).
  destruct (decide (t <= i)) as [Hle|Hgt].
  { destruct (loop_of_back i t) as (c' & Hl' & ?); [done|]. specialize (Hnest _ _ _ _ Hl Hl'). lia. }
  destruct (Hcont i Hil) as (st & Hf & _). destruct (Hcont t Htl) as (st' & Hf' & _).
  assert (forall p, p ∈ st -> p.1 < h) as Hlow by (intros p [_ ?]%Hf; lia).
  destruct (is_break st t) eqn:Hb.
  - destruct st as [|[h' c'] rest]; [done|]. cbn in Hb. apply bool_decide_eq_true in Hb. assert (t = c' + 1) as -> by (eapply (Hbr i t); [done|lia|done|done]).
    assert (loop labels (h', c')) as Hl' by (apply Hf; by left). specialize (Hlow (h', c') (list_elem_of_here _ _)). cbn in Hlow.
    specialize (Hnest _ _ _ _ Hl' Hl). lia.
  - specialize (Hlv i t st st' Hj ltac:(lia) Hf Hb Hf').
    assert (forall p, p ∈ st -> t <= p.2) as Hhigh.
    { intros p Hp. destruct st as [|[h' c'] rest]; [by apply elem_of_nil in Hp|]. cbn in Hb. apply bool_decide_eq_false in Hb.
      apply elem_of_cons in Hp as [->|Hp]; [cbn; lia|]. destruct Hf as [Hs Hm]. inversion Hs as [|? ? _ Hin]; subst.
      rewrite Forall_forall in Hin. specialize (Hin p Hp). unfold inner in Hin. cbn in Hin.
      assert (p ∈ (h', c') :: rest) as [Hlp Hrp]%Hm by by right. assert ((h', c') ∈ (h', c') :: rest) as [Hl' Hr']%Hm by by left.
      destruct p as [hp cp]. cbn in *. specialize (Hnest hp cp h' c' Hlp Hl'). lia. }
    assert (exists rest, st' ≡ₚ rest ++ (h, c) :: st /\ (forall l, labels !! t = Some (Loop l) -> rest <> [])) as (rest & Hperm & Hrest).
    { assert ((h, c) :: st ⊆+ st') as Hsub.
      { apply NoDup_submseteq; [constructor; [intros ?%Hlow; cbn in *; lia|by eapply sorted_nodup, Hf]|].
        intros p [->|Hp]%elem_of_cons; apply Hf'; [split; [done|cbn; lia]|]. pose proof (Hlow p Hp). pose proof (Hhigh p Hp). split; [by apply Hf|lia]. }
      apply submseteq_Permutation in Hsub as [rest Hperm]. exists rest. split; [by rewrite Hperm, Permutation_app_comm|].
      intros l Hlt Hnil. subst rest. rewrite app_nil_r in Hperm. assert ((t, l) ∈ st') as Hin.
      { apply Hf'. assert (loop labels (t, l)) as Hc by done. split; [done|]. apply loop_back in Hc as [_ ?]. cbn. lia. }
      rewrite Hperm in Hin. apply elem_of_cons in Hin as [[= ? ?]|Hin]; [lia|]. specialize (Hlow _ Hin). cbn in Hlow. lia. }
    apply Permutation_length in Hperm. rewrite length_app in Hperm. cbn in Hperm.
    destruct (labels !! t) as [[l|]|] eqn:Hlt; [|lia|lia]. specialize (Hrest l eq_refl). destruct rest; [done|cbn in Hperm; lia].
Qed.

(** So the jumps back make the graph of the blocks reducible. *)
Lemma entered_reducible cfg order : CfgSearch.Graph code cfg order -> entered_at_head -> Reducibility.reducible (Cfg.blocks_map cfg).
Proof.
  intros [Hbk _ _] Hent.
  assert (forall x y, CfgSearch.edge (Cfg.blocks_map cfg) x y -> exists bb, Cfg.blocks_map cfg !! x = Some bb /\ x <= Cfg.exit bb /\
    is_Some (Cfg.blocks_map cfg !! y) /\ (code !! Cfg.exit bb ≫= jump = Some y \/ y = S (Cfg.exit bb))) as Hedge.
  { intros x y Hxy. unfold CfgSearch.edge, CfgSearch.succs in Hxy. destruct (Cfg.blocks_map cfg !! x) as [bb|] eqn:Hx; [|by apply elem_of_nil in Hxy].
    exists bb. pose proof (Cfg.bk_range _ _ Hbk _ _ Hx) as Hr. split; [done|]. split; [lia|]. split; [by eapply Hbk|].
    destruct (lookup_lt_is_Some_2 code (Cfg.exit bb)) as [i Hi]; [lia|].
    destruct (FormatSafety.get_successors_spec _ _ _ _ Hlen Hi (Cfg.bk_succ _ _ Hbk _ _ Hx)) as (_ & _ & Hin). apply Hin in Hxy.
    rewrite Hi. cbn. rewrite jump_offset. destruct Hxy as [?|(? & _)]; auto. }
  assert (forall w bb y, Cfg.blocks_map cfg !! w = Some bb -> is_Some (Cfg.blocks_map cfg !! y) -> w < y -> y <= Cfg.exit bb -> False) as Hstart.
  { intros w bb y Hw [bb' Hy] Hlt Hle. pose proof (Cfg.bk_range _ _ Hbk _ _ Hy). assert (w = y); [|lia].
    eapply (Cfg.bk_disjoint _ _ Hbk w bb y bb' y); [done|done|lia|lia]. }
  exists (fun x y => y <= x). split.
  - intros x y _ Hxy Hle [Hy0 Hr]. destruct (Hedge x y Hxy) as (bb & Hbb & Hx & Hyb & Hj).
    destruct Hj as [Hj|?]; [|lia]. destruct (loop_of_back (Cfg.exit bb) y) as (c & Hl & Hc); [split; [done|lia]|].
    enough (forall z, rtc (fun x z => CfgSearch.edge (Cfg.blocks_map cfg) x z /\ z <> y) 0 z -> ~ y <= z <= c) as Hout by (apply (Hout x Hr); lia).
    apply rtc_ind_r; [lia|]. intros w z _ [Hwz Hzy] Hw Hz. destruct (Hedge w z Hwz) as (bb' & Hbb' & Hwe & _ & Hj').
    assert (~ y <= Cfg.exit bb' <= c) as He.
    { intros He. destruct (decide (w < y)); [eapply (Hstart w bb' y); [done|done|lia|lia]|lia]. }
    destruct Hj' as [Hj'|Hj']; [apply (Hent y c (Cfg.exit bb') z); [done|done|done|lia]|lia].
  - intros x _ Hc. assert (forall y, tc (fun x y => CfgSearch.edge (Cfg.blocks_map cfg) x y /\ ~ y <= x) x y -> x < y) as Hup.
    { clear Hc. intros y Ht. induction Ht as [x y [_ ?]|x z y [_ ?] _ IH]; lia. }
    specialize (Hup x Hc). lia.
Qed.
End Loops.

(** The checks of a body. *)
Lemma verify_Ok config index cu :
  (Z.of_nat (length (cu_code cu)) < 65536)%Z -> Cfg.branches_in_range (cu_code cu) ->
  settles (verify config index cu) /\
  (verify config index cu = Ok () -> forall cfg order, CfgSearch.Graph (cu_code cu) cfg order -> Reducibility.reducible (Cfg.blocks_map cfg)).
Proof.
  intros Hlen Hbr. unfold verify. destruct (instruction_labels_Ok (cu_code cu) Hlen) as (labels & -> & Hlab).
  set (cf := default 0 index). unfold check_jumps. cbn [mbind vm_bind].
  destruct (check_continue_Ok cf (cu_code cu) Hlen labels Hlab) as [Hs1 Hok1].
  assert (settles (verify_fallthrough cf (cu_code cu))) as Hs0 by (unfold verify_fallthrough, error; settle).
  destruct (verify_fallthrough cf (cu_code cu)) as [[]|e| |]; cbn [mbind vm_bind]; try (by destruct Hs0).
  destruct (check_code (cu_code cu) labels (check_continue cf)) as [[]|e| |]; cbn [mbind vm_bind]; try (by destruct Hs1).
  specialize (Hok1 eq_refl). destruct (check_break_Ok cf (cu_code cu) Hlen Hbr labels Hlab Hok1) as [Hs2 Hok2].
  destruct (check_code (cu_code cu) labels (check_break cf)) as [[]|e| |]; cbn [mbind vm_bind]; try (by destruct Hs2).
  specialize (Hok2 eq_refl). destruct (count_loop_depth_Ok (cu_code cu) Hlen labels Hlab Hok1) as (depths & -> & Hld & Hd). cbn [mbind vm_bind].
  destruct (check_no_loop_split_Ok cf (cu_code cu) Hlen Hbr labels Hlab Hok1 depths Hld Hd) as [Hs3 Hok3].
  destruct (check_code (cu_code cu) labels (check_no_loop_split cf labels depths)) as [[]|e| |]; cbn [mbind vm_bind]; try (by destruct Hs3).
  specialize (Hok3 eq_refl). split.
  - unfold check_loop_depth. destruct (max_loop_depth config) as [max|]; [|apply settles_Ok].
    apply (check_code_after (cu_code cu) Hlen labels Hlab Hok1). intros i instr st Hi _. unfold check_depth, error.
    destruct (index_lt depths i) as (d & -> & _); [rewrite Hld; by eapply lookup_lt_Some|]. vm_cbn. settle.
  - intros _ cfg order Hg. eapply entered_reducible; [done|done|done|]. by apply no_entry.
Qed.

End ControlFlowV5.

Module ControlFlowChecks.
Import Cfg.

(** control_flow.rs: the checks a function or script passes before its body is
    analyzed, by the version of the module. *)
Definition verify_function (config : VerifierConfig) (module : CompiledModule) (index_ : nat) (function_definition : FunctionDefinition)
    (code : CodeUnit) : vm FunctionView :=
  function_handle ← View.function_handle_at (View.Module_ module) (fn_function function_definition);
  if (cm_version module <=? 5)%Z then
    _ ← ControlFlowV5.verify config (Some index_) code;
    function module index_ code function_handle
  else
    _ ← ControlFlow.verify_fallthrough (Some index_) code;
    function_view ← function module index_ code function_handle;
    _ ← ControlFlow.verify_reducibility config function_view;
    Ok function_view.

Definition verify_script (config : VerifierConfig) (s : CompiledScript) : vm FunctionView :=
  if (cs_version s <=? 5)%Z then
    _ ← ControlFlowV5.verify config None (cs_code s);
    script s
  else
    _ ← ControlFlow.verify_fallthrough None (cs_code s);
    function_view ← script s;
    _ ← ControlFlow.verify_reducibility config function_view;
    Ok function_view.

(** Both refuse an empty body, which has no control-flow graph. *)
Lemma fallthrough_v5 config index_ code : cu_code code = [] -> ControlFlowV5.verify config index_ code = Err (error_new StatusCode.EMPTY_CODE_UNIT).
Proof. intros Hc. unfold ControlFlowV5.verify, ControlFlowV5.verify_fallthrough. by rewrite Hc. Qed.

Lemma fallthrough_v6 index_ code : cu_code code = [] -> ControlFlow.verify_fallthrough index_ code = Err (error_new StatusCode.EMPTY_CODE_UNIT).
Proof. intros Hc. unfold ControlFlow.verify_fallthrough. by rewrite Hc. Qed.

(** What the later passes get: a view of a function of a checked module, whose
    graph is reducible. *)
Lemma verify_function_Ok config module idx fd fh cu :
  Bounds.verify_module module = Ok () -> cm_function_defs module !! idx = Some fd -> fn_code fd = Some cu ->
  cm_function_handles module !! fn_function fd = Some fh -> (Z.of_nat (length (cu_code cu)) < 65536)%Z ->
  settles (verify_function config module idx fd cu) /\
  (forall view, verify_function config module idx fd cu = Ok view -> cu_code cu <> [] /\ function module idx cu fh = Ok view /\ fv_code view = cu /\
    Reducibility.reducible (blocks_map (fv_cfg view)) /\ exists order, FunctionViews.Sound (View.Module_ module) view order).
Proof.
  intros Hv Hfd Hcu Hfh Hlen. pose proof Hv as [_ Hwb]%Bounds.verify_module_Ok. pose proof Hfh as Hat.
  apply (FunctionViews.function_handle_at_Ok (View.Module_ module) Hwb) in Hat. unfold verify_function. rewrite Hat. vm_cbn.
  destruct (decide (cu_code cu = [])) as [Hnil|Hne].
  { rewrite fallthrough_v5, fallthrough_v6 by done. by destruct (cm_version module <=? 5)%Z. }
  destruct (FunctionViews.function_sound _ _ _ _ _ Hv Hfd Hcu Hfh Hlen Hne) as (view & order & Hf & Hcode & Hs).
  pose proof (FunctionViews.so_graph _ _ _ Hs) as Hg. rewrite Hcode in Hg. rewrite Hf.
  destruct (cm_version module <=? 5)%Z.
  - destruct (ControlFlowV5.verify_Ok config (Some idx) cu Hlen) as [Hset Hred].
    { pose proof (FunctionViews.so_instrs _ _ _ Hs) as Hin. rewrite Hcode in Hin. by eapply FunctionViews.bounded_branches. }
    destruct (ControlFlowV5.verify config (Some idx) cu) as [[]|e| |]; vm_cbn; try (by destruct Hset). split; [apply settles_Ok|].
    intros view' [= <-]. split; [done|]. split; [done|]. split; [done|]. split; [by eapply Hred|by exists order].
  - assert (settles (ControlFlow.verify_fallthrough (Some idx) cu)) as Hset by (unfold ControlFlow.verify_fallthrough; settle).
    destruct (ControlFlow.verify_fallthrough (Some idx) cu) as [[]|e| |]; vm_cbn; try (by destruct Hset).
    destruct (Reducibility.verify_reducibility_Ok config view order) as (Hset' & Hred & _); [apply Hs|apply Hs|].
    destruct (ControlFlow.verify_reducibility config view) as [[]|e| |]; vm_cbn; try (by destruct Hset'). split; [apply settles_Ok|].
    intros view' [= <-]. split; [done|]. split; [done|]. split; [done|]. split; [by apply Hred|by exists order].
Qed.

(** The control flow checks of bytecode versions up to 5 return a verdict on
    every function of a module the bounds checker accepted, and what they accept
    has a reducible control-flow graph: the loops, intervals from the target of a
    jump back to the last such jump, nest and are entered at their heads only. So
    the check of version 6 accepts it too, if the depth of loops is not limited. *)
Theorem v5_accepted_by_v6 config config' module idx fd fh cu :
  Bounds.verify_module module = Ok () -> cm_function_defs module !! idx = Some fd -> fn_code fd = Some cu ->
  cm_function_handles module !! fn_function fd = Some fh -> (Z.of_nat (length (cu_code cu)) < 65536)%Z ->
  settles (ControlFlowV5.verify config (Some idx) cu) /\
  (ControlFlowV5.verify config (Some idx) cu = Ok () -> max_loop_depth config' = None ->
    exists view, function module idx cu fh = Ok view /\ Reducibility.reducible (blocks_map (fv_cfg view)) /\
    ControlFlow.verify_fallthrough (Some idx) cu = Ok () /\ ControlFlow.verify_reducibility config' view = Ok ()).
Proof.
  intros Hv Hfd Hcu Hfh Hlen. destruct (decide (cu_code cu = [])) as [Hnil|Hne]; [by rewrite fallthrough_v5|].
  destruct (FunctionViews.function_sound _ _ _ _ _ Hv Hfd Hcu Hfh Hlen Hne) as (view & order & Hf & Hcode & Hs).
  destruct (ControlFlowV5.verify_Ok config (Some idx) cu Hlen) as [Hset Hred].
  { pose proof (FunctionViews.so_instrs _ _ _ Hs) as Hin. rewrite Hcode in Hin. by eapply FunctionViews.bounded_branches. }
  split; [done|]. intros Hok Hmax. exists view. split; [done|].
  assert (Reducibility.reducible (blocks_map (fv_cfg view))) as Hr.
  { apply (Hred Hok _ order). rewrite <- Hcode. apply Hs. }
  split; [done|]. split.
  - unfold ControlFlowV5.verify in Hok. vm_inv. unfold ControlFlow.verify_fallthrough. unfold ControlFlowV5.verify_fallthrough, ControlFlowV5.error in Hv0.
    destruct (last (cu_code cu)); [|done]. by destruct (negb _).
  - destruct (Reducibility.verify_reducibility_Ok config' view order) as (_ & _ & Hacc); [apply Hs|apply Hs|]. by apply Hacc.
Qed.

Definition loop_code : list Bytecode := [Bytecode.LdTrue; Bytecode.BrTrue 3; Bytecode.Branch 0; Bytecode.Ret].

Lemma v5_accepted_by_v6_witness :
  ControlFlowV5.verify default_config (Some 0) (FunctionViews.one_body loop_code) = Ok () /\
  exists view, Reducibility.reducible (blocks_map (fv_cfg view)) /\ ControlFlow.verify_reducibility default_config view = Ok ().
Proof.
  assert (ControlFlowV5.verify default_config (Some 0) (FunctionViews.one_body loop_code) = Ok ()) as Hok by (vm_compute; reflexivity).
  split; [exact Hok|].
  destruct (v5_accepted_by_v6 default_config default_config (FunctionViews.one_function loop_code) 0 (FunctionViews.one_definition loop_code)
    FunctionViews.one_handle (FunctionViews.one_body loop_code)) as (_ & H); [vm_compute; reflexivity..|].
  destruct (H Hok eq_refl) as (view & _ & Hr & _ & Hv). exists view. split; [exact Hr|exact Hv].
Defined.
End ControlFlowChecks.
