(* ===== verification/MoveAbsint.v ===== *)
(** The abstract interpreter of the verifier and its meter.

    external/move/move-bytecode-verifier/src: absint.rs, which drives every
    flow-sensitive pass over the blocks of a function, and meter.rs, which
    bounds their work.  A pass gives an abstract domain with a join and a
    transfer function; [analyze_function] runs it block by block in the
    traversal order and goes back to a loop head whose precondition a back edge
    changed.

    The theorems are about any pass whose join is an upper bound: if the
    analysis succeeds, the preconditions it ends with are an inductive
    invariant of the function, provided no block has two back edges; and it
    terminates when the domain has finite height.  [MoveLocals] shows that the
    proviso is needed. *)

From S2P Require Import Prelude MoveFormat MoveCfg MoveSearch.

(** ** The meter *)

Module Meter.
Inductive Scope := Module_ | Function_.

#[export] Instance Scope_eq_dec : EqDecision Scope.
Proof. solve_decision. Defined.

Definition u128_max : Z := 2 ^ 128 - 1.

(** [saturating_add] and [saturating_mul] of [u128]. *)
Definition saturating_add (a b : Z) : Z := Z.min (a + b) u128_max.
Definition saturating_mul (a b : Z) : Z := Z.min (a * b) u128_max.

(** The part of the trait the flow-sensitive passes use. *)
Class Meter (M : Type) := meter_add : M -> Scope -> Z -> vm M.

Definition add_items {M} `{Meter M} (m : M) (scope : Scope) (units_per_item : Z) (items : nat) : vm M :=
  if bool_decide (items = 0) then Ok m else meter_add m scope (saturating_mul units_per_item (Z.of_nat items)).

(** [Bounds], whose name only occurs in messages. *)
Record Bounds := { units : Z; max : option Z }.

Definition bounds_add (b : Bounds) (u : Z) : vm Bounds :=
  match max b with
  | Some max =>
    let new_units := saturating_add (units b) u in
    if (new_units >? max)%Z then Err (error_new StatusCode.CONSTRAINT_NOT_SATISFIED)
    else Ok (b <| units := new_units |>)
  | None => Ok b
  end.

Record BoundMeter := { mod_bounds : Bounds; fun_bounds : Bounds }.

Definition get_bounds (m : BoundMeter) (scope : Scope) : Bounds :=
  match scope with Module_ => mod_bounds m | Function_ => fun_bounds m end.

Definition set_bounds (m : BoundMeter) (scope : Scope) (b : Bounds) : BoundMeter :=
  match scope with Module_ => m <| mod_bounds := b |> | Function_ => m <| fun_bounds := b |> end.

#[export] Instance bound_meter : Meter BoundMeter := fun m scope u =>
  b ← bounds_add (get_bounds m scope) u; Ok (set_bounds m scope b).

Definition enter_scope (m : BoundMeter) (scope : Scope) : BoundMeter :=
  set_bounds m scope ((get_bounds m scope) <| units := 0%Z |>).

(** [BoundMeter::new]: both bounds are the one for functions. *)
Definition bound_meter_new (max_per_fun_meter_units max_per_mod_meter_units : option Z) : BoundMeter :=
  {| mod_bounds := {| units := 0; max := max_per_fun_meter_units |};
     fun_bounds := {| units := 0; max := max_per_fun_meter_units |} |}.

#[export] Instance dummy_meter : Meter () := fun m _ _ => Ok m.

(** A meter panics on no amount. *)
Class MeterLaws (M : Type) `{Meter M} := settles_meter_add m scope u : settles (meter_add m scope u).

#[export] Instance bound_meter_laws : MeterLaws BoundMeter.
Proof. intros m scope u. unfold meter_add, bound_meter, bounds_add. settle. Qed.

#[export] Instance dummy_meter_laws : MeterLaws ().
Proof. intros m scope u. apply settles_Ok. Qed.

Lemma settles_add_items {M} `{MeterLaws M} m scope u n : settles (add_items m scope u n).
Proof. unfold add_items. settle. Qed.

End Meter.

(** ** The interpreter *)

Module Absint.
Import Meter Cfg.

Inductive JoinResult := Changed | Unchanged.

#[export] Instance JoinResult_eq_dec : EqDecision JoinResult.
Proof. solve_decision. Defined.

(** [AbstractDomain] and [TransferFunctions]: the state the pass keeps in
    [self] is [T], what it does to a state [St] may fail. *)
Class AbstractDomain (M St : Type) := join : St -> St -> M -> vm (St * JoinResult * M).

Class TransferFunctions (M T St : Type) :=
  execute : T -> St -> Bytecode -> nat -> nat -> M -> vm (T * St * M).

Section Analysis.
Context {M T St : Type} `{!AbstractDomain M St, !TransferFunctions M T St}.
Context (view : FunctionView).
Let cfg := fv_cfg view.

(** One instruction of a block that ends at [last]. *)
Definition execute_at (last : nat) (x : T * St * M) (offset : nat) : vm (T * St * M) :=
  let '(t, st, m) := x in
  instr ← index (cu_code (fv_code view)) offset;
  execute t st instr offset last m.

Definition execute_block (t : T) (block_id : nat) (pre : St) (m : M) : vm (T * St * M) :=
  last ← block_end cfg block_id;
  offsets ← instr_indexes cfg block_id;
  vfold (execute_at last) offsets (t, pre, m).

(** What the loop over the successors of a block threads. *)
Record Propagation := { inv_map : gmap nat St; candidate : option nat; meter : M }.

(** One successor: join the postcondition into its precondition, or take it as
    its precondition. *)
Definition propagate (block_id : nat) (post : St) (p : Propagation) (successor : nat) : vm Propagation :=
  match inv_map p !! successor with
  | Some old_pre =>
    '(pre, result, m) ← join old_pre post (meter p);
    Ok {| inv_map := <[successor := pre]> (inv_map p);
          candidate := match result with
                       | Changed => if is_back_edge cfg block_id successor then Some successor else candidate p
                       | Unchanged => candidate p
                       end;
          meter := m |}
  | None => Ok {| inv_map := <[successor := post]> (inv_map p); candidate := candidate p; meter := meter p |}
  end.

(** One turn of the loop over the blocks. *)
Definition analyze_block (t : T) (inv : gmap nat St) (block_id : nat) (m : M) : vm (T * gmap nat St * option nat * M) :=
  match inv !! block_id with
  | None => Ok (t, inv, next_block cfg block_id, m)
  | Some pre =>
    '(t, post, m) ← execute_block t block_id pre m;
    succs ← successors cfg block_id;
    p ← vfold (propagate block_id post) succs {| inv_map := inv; candidate := next_block cfg block_id; meter := m |};
    Ok (t, inv_map p, candidate p, meter p)
  end.

(** [while let Some(block_id) = next_block]; the result is the preconditions
    the code has at the end, which it drops. *)
Fixpoint analyze_loop (fuel : nat) (t : T) (inv : gmap nat St) (next : option nat) (m : M) : vm (gmap nat St * T * M) :=
  match next with
  | None => Ok (inv, t, m)
  | Some block_id =>
    match fuel with
    | O => Exhausted
    | S fuel =>
      '(t, inv, next, m) ← analyze_block t inv block_id m;
      analyze_loop fuel t inv next m
    end
  end.

Definition analyze_function (fuel : nat) (t : T) (initial_state : St) (m : M) : vm (gmap nat St * T * M) :=
  let entry := entry_block_id in
  analyze_loop fuel t {[entry := initial_state]} (Some entry) m.
End Analysis.

(** ** Soundness *)

(** The states a pass meets, [Good], are closed under it; the join is an upper
    bound of its arguments, and [Unchanged] says that the first one is already
    one. *)
Class AbstractDomainLaws (M T St : Type) `{AbstractDomain M St, TransferFunctions M T St} (Good : St -> Prop) (leq : St -> St -> Prop) := {
  leq_preorder :: PreOrder leq;
  execute_good t s i o last m t' s' m' : Good s -> execute t s i o last m = Ok (t', s', m') -> Good s';
  join_unchanged s o m s' m' : Good s -> Good o -> join s o m = Ok (s', Unchanged, m') -> s' = s /\ leq o s;
  join_changed s o m s' m' : Good s -> Good o -> join s o m = Ok (s', Changed, m') -> Good s' /\ leq s s' /\ leq o s';
}.

(** No block has two back edges. *)
Definition single_back_edge (cfg : VMControlFlowGraph) : Prop :=
  forall b s1 s2, is_back_edge cfg b s1 = true -> is_back_edge cfg b s2 = true -> s1 = s2.

(** The same, by the sets of back edges of the loop heads. *)
Definition single_back_edgeb (cfg : VMControlFlowGraph) : bool :=
  bool_decide (map_Forall (fun s1 e1 => map_Forall (fun s2 e2 => s1 = s2 \/ e1 ## e2) (loop_heads cfg)) (loop_heads cfg)).

Lemma single_back_edgeb_sound cfg : single_back_edgeb cfg = true -> single_back_edge cfg.
Proof.
  intros Hd%bool_decide_eq_true b s1 s2. rewrite !CfgSearch.is_back_edge_heads. intros (e1 & H1 & Hb1) (e2 & H2 & Hb2).
  destruct (Hd s1 e1 H1 s2 e2 H2) as [?|Hdisj]; [done|]. by destruct (Hdisj b).
Qed.

Section Soundness.
Context {M T St : Type} `{!AbstractDomain M St, !TransferFunctions M T St}.
Context (Good : St -> Prop) (leq : St -> St -> Prop) `{!AbstractDomainLaws M T St Good leq}.
Context (view : FunctionView).
Let cfg := fv_cfg view.

(** Running the block from its precondition succeeds, and its postcondition is
    below the preconditions of its successors. *)
Definition stable (inv : gmap nat St) (b : nat) : Prop :=
  exists pre t m t' post m', inv !! b = Some pre /\ execute_block view t b pre m = Ok (t', post, m') /\
  forall s, CfgSearch.edge (blocks_map cfg) b s -> exists q, inv !! s = Some q /\ leq post q.

Definition all_good (inv : gmap nat St) : Prop := forall x p, inv !! x = Some p -> Good p.

Lemma all_good_insert inv x p : all_good inv -> Good p -> all_good (<[x := p]> inv).
Proof. intros Hg Hp y q. rewrite lookup_insert_Some. intros [[_ <-]|[_ ?]]; [done|by eapply Hg]. Qed.

Lemma execute_block_good t b pre m t' post m' :
  Good pre -> execute_block view t b pre m = Ok (t', post, m') -> Good post.
Proof.
  intros Hpre He. unfold execute_block in He. vm_inv.
  eapply (vfold_inv (fun x : T * St * M => Good x.1.2)) in He; [done| |done].
  intros [[t1 s1] m1] o [[t2 s2] m2] _ Hg Ho. unfold execute_at in Ho. vm_inv. by eapply execute_good.
Qed.

(** Preconditions only grow. *)
Definition grows (inv inv' : gmap nat St) : Prop :=
  forall x q, inv !! x = Some q -> exists q', inv' !! x = Some q' /\ leq q q'.

#[local] Instance grows_preorder : PreOrder grows.
Proof.
  split; [intros inv x q Hx; by exists q|]. intros i1 i2 i3 H12 H23 x q Hx.
  destruct (H12 x q Hx) as (q2 & H2 & ?). destruct (H23 x q2 H2) as (q3 & ? & ?). exists q3. split; [done|by etrans].
Qed.

(** The next block is a back-edge target of [b]. *)
Definition jumps_back (b : nat) (c : option nat) : Prop := exists s, c = Some s /\ is_back_edge cfg b s = true.

(** The preconditions of the back-edge targets of [b] stay as they are. *)
Definition keeps_targets (b : nat) (inv inv' : gmap nat St) : Prop :=
  forall x, is_back_edge cfg b x = true -> is_Some (inv !! x) -> inv' !! x = inv !! x.

Lemma propagate_spec b post p s p' :
  Good post -> all_good (inv_map p) -> propagate view b post p s = Ok p' ->
  all_good (inv_map p') /\
  grows (inv_map p) (inv_map p') /\
  (exists q, inv_map p' !! s = Some q /\ leq post q) /\
  (forall x, x <> s -> inv_map p' !! x = inv_map p !! x) /\
  (jumps_back b (candidate p') \/ (candidate p' = candidate p /\ keeps_targets b (inv_map p) (inv_map p'))).
Proof.
  intros Hgp Hgi. unfold propagate. destruct (inv_map p !! s) as [old|] eqn:Hs; intros Hp; vm_inv.
  - destruct v as [[pre result] m]. vm_inv. subst p'. cbn.
    pose proof (Hgi s old Hs) as Hgo.
    assert (Good pre /\ leq old pre /\ leq post pre) as (Hgpre & Hold & Hpost).
    { destruct result; [by eapply join_changed|]. by destruct (join_unchanged _ _ _ _ _ Hgo Hgp Hv) as [-> ?]. }
    split; [by apply all_good_insert|]. split.
    { intros x q Hx. destruct (decide (x = s)) as [->|]; [|exists q; by rewrite lookup_insert_ne].
      exists pre. rewrite lookup_insert_eq. by simplify_eq. }
    split; [exists pre; by rewrite lookup_insert_eq|]. split; [intros; by rewrite lookup_insert_ne|].
    destruct result; [destruct (is_back_edge (fv_cfg view) b s) eqn:Hb; [left; by exists s|]|]; right; (split; [done|]); intros x Hx _.
    + rewrite lookup_insert_ne; [done|]. intros ->. unfold cfg in Hx. congruence.
    + destruct (join_unchanged _ _ _ _ _ Hgo Hgp Hv) as [-> _]. by rewrite insert_id.
  - subst p'. cbn. split; [by apply all_good_insert|]. split; [intros x q Hx; exists q; rewrite lookup_insert_ne by congruence; done|].
    split; [exists post; by rewrite lookup_insert_eq|]. split; [intros; by rewrite lookup_insert_ne|].
    right. split; [done|]. intros x _ [q Hq]. rewrite lookup_insert_ne; [done|congruence].
Qed.

Lemma propagate_all b post l p p' :
  Good post -> all_good (inv_map p) -> vfold (propagate view b post) l p = Ok p' ->
  all_good (inv_map p') /\
  grows (inv_map p) (inv_map p') /\
  (forall s, s ∈ l -> exists q, inv_map p' !! s = Some q /\ leq post q) /\
  (forall x, x ∉ l -> inv_map p' !! x = inv_map p !! x) /\
  (jumps_back b (candidate p') \/ (candidate p' = candidate p /\ keeps_targets b (inv_map p) (inv_map p'))).
Proof.
  intros Hgp. revert p. induction l as [|s r IH]; intros p Hgi Hp; cbn in Hp; vm_inv.
  { subst p'. split; [done|]. split; [done|]. split; [set_solver|]. split; [done|]. by right. }
  destruct (propagate_spec _ _ _ _ _ Hgp Hgi Hv) as (Hgi1 & Hg1 & Hs1 & Hn1 & Hc1).
  destruct (IH _ Hgi1 Hp) as (Hgi' & Hg & Hl & Hn & Hc). clear IH.
  split; [done|]. split; [by etrans|]. split.
  { intros x [->|Hx]%elem_of_cons; [|by apply Hl]. destruct Hs1 as (q & Hq & Hpost). destruct (Hg s q Hq) as (q' & ? & ?).
    exists q'. split; [done|by etrans]. }
  split; [intros x [? ?]%not_elem_of_cons; rewrite Hn by done; by apply Hn1|].
  destruct Hc as [?|[Hc Hk]]; [by left|]. rewrite Hc. destruct Hc1 as [?|[Hc1 Hk1]]; [by left|]. right. split; [done|].
  intros x Hx Hsome. rewrite <- (Hk1 x Hx Hsome). apply Hk; [done|]. by rewrite (Hk1 x Hx Hsome).
Qed.

Context (order : list nat) (Hgraph : CfgSearch.Graph (cu_code (fv_code view)) cfg order).
Context (Hsingle : single_back_edge cfg).

(** [x] comes before the block to analyze next. *)
Definition passed (next : option nat) (x : nat) : Prop := forall n, next = Some n -> CfgSearch.precedes order x n.

(** The invariant of the loop: the blocks before the next one are stable. *)
Record Progress (init : St) (inv : gmap nat St) (next : option nat) : Prop := {
  pr_good : all_good inv;
  pr_entry : exists p, inv !! 0 = Some p /\ leq init p;
  pr_order x : is_Some (inv !! x) -> x ∈ order;
  pr_next n : next = Some n -> n ∈ order;
  pr_passed x : x ∈ order -> passed next x -> is_Some (inv !! x) /\ stable inv x;
}.

Lemma stable_grows inv inv' x : grows inv inv' -> inv' !! x = inv !! x -> stable inv x -> stable inv' x.
Proof.
  intros Hg Hx (pre & t & m & t' & post & m' & Hpre & Hex & Hs). exists pre, t, m, t', post, m'.
  split; [congruence|]. split; [done|]. intros s Hs'. destruct (Hs s Hs') as (q & Hq & Hle).
  destruct (Hg s q Hq) as (q' & ? & ?). exists q'. split; [done|by etrans].
Qed.

(** The blocks passed after [b] are those passed before it and [b]. *)
Lemma passed_next b x : b ∈ order -> x ∈ order -> passed (next_block cfg b) x -> x = b \/ CfgSearch.precedes order x b.
Proof.
  intros [i Hi]%list_elem_of_lookup [j Hj]%list_elem_of_lookup Hp.
  destruct (Nat.lt_trichotomy j i) as [?|[->|Hlt]]; [right; by exists j, i|left; congruence|]. exfalso.
  destruct (lookup_lt_is_Some_2 order (S i)) as [n Hn]; [apply lookup_lt_Some in Hj; lia|].
  assert (next_block cfg b = Some n) as Hnext by (apply (CfgSearch.gr_next _ _ _ Hgraph); by exists i).
  destruct (Hp n Hnext) as (j' & i' & Hj' & Hi' & ?).
  assert (j' = j) as -> by (eapply NoDup_lookup; [apply Hgraph|done..]).
  assert (i' = S i) as -> by (eapply NoDup_lookup; [apply Hgraph|done..]). lia.
Qed.

Lemma edge_reach b s : b ∈ order -> CfgSearch.edge (blocks_map cfg) b s -> s ∈ order.
Proof.
  intros Hb Hs. apply (CfgSearch.tr_reach _ _ _ (CfgSearch.gr_traversal _ _ _ Hgraph)). eapply rtc_r; [|done].
  by apply (CfgSearch.tr_reach _ _ _ (CfgSearch.gr_traversal _ _ _ Hgraph)).
Qed.

(** A block passed before a back-edge target of [b] is no back-edge target of
    [b] and comes before [b]. *)
Lemma passed_target b c x : is_back_edge cfg b c = true -> CfgSearch.precedes order x c ->
  x <> b /\ CfgSearch.precedes order x b /\ is_back_edge cfg b x = false.
Proof.
  intros Hc Hx. pose proof (CfgSearch.gr_traversal _ _ _ Hgraph) as Htr.
  pose proof (CfgSearch.tr_nodup _ _ _ Htr) as Hnd.
  assert (CfgSearch.precedes order x b) as Hxb.
  { destruct (CfgSearch.tr_back _ _ _ Htr b c) as (_ & _ & [->|Hord]); [by apply CfgSearch.is_back_edge_heads|done|].
    destruct Hx as (i & j & ? & Hj & ?). destruct Hord as (j' & k & Hj' & ? & ?).
    assert (j' = j) as -> by (by eapply NoDup_lookup). exists i, k. repeat split; [done..|lia]. }
  split; [intros ->; by eapply CfgSearch.precedes_irrefl|]. split; [done|].
  apply not_true_is_false. intros Hbx. assert (x = c) as -> by by eapply Hsingle. by eapply CfgSearch.precedes_irrefl.
Qed.

(** A block to analyze has a precondition: its parent in the search tree comes
    before it and is stable. *)
Lemma progress_pre init inv b : Progress init inv (Some b) -> is_Some (inv !! b).
Proof.
  intros HP. destruct (decide (b = 0)) as [->|Hb0]; [destruct (pr_entry _ _ _ HP) as (p & ? & _); eauto|].
  pose proof (CfgSearch.gr_traversal _ _ _ Hgraph) as Htr.
  destruct (CfgSearch.tr_parent _ _ _ Htr b (pr_next _ _ _ HP b eq_refl) Hb0) as (y & Hy & Hord).
  assert (y ∈ order) as Hyo by (destruct Hord as (i & _ & Hi & _); by eapply list_elem_of_lookup_2).
  destruct (pr_passed _ _ _ HP y Hyo) as [_ (? & ? & ? & ? & ? & ? & _ & _ & Hs)]; [by intros n [= <-]|].
  destruct (Hs b Hy) as (q & ? & _). eauto.
Qed.

(** The successors of [b] that come before it are its back-edge targets. *)
Lemma edge_back b s : b ∈ order -> CfgSearch.edge (blocks_map cfg) b s -> s = b \/ CfgSearch.precedes order s b ->
  is_back_edge cfg b s = true.
Proof.
  intros Hb He Hs. pose proof (CfgSearch.gr_traversal _ _ _ Hgraph) as Htr. pose proof (CfgSearch.tr_nodup _ _ _ Htr) as Hnd.
  apply CfgSearch.is_back_edge_heads. destruct (CfgSearch.tr_forward _ _ _ Htr b s Hb He) as [?|Hord]; [done|].
  destruct Hs as [->|?]; [by destruct (CfgSearch.precedes_irrefl order b Hnd)|by destruct (CfgSearch.precedes_asym order b s Hnd Hord)].
Qed.

Lemma progress_block init inv b t m t' inv' next' m' :
  Progress init inv (Some b) -> analyze_block view t inv b m = Ok (t', inv', next', m') -> Progress init inv' next'.
Proof.
  intros HP Ha. destruct (progress_pre _ _ _ HP) as [pre Hpre]. destruct HP as [Hgi He Ho Hn Hs]. specialize (Hn b eq_refl).
  unfold analyze_block in Ha. rewrite Hpre in Ha. vm_inv. destruct v as [[t1 post] m1]. vm_inv.
  unfold successors in Hv0. vm_inv. subst v. rename v1 into bb, v0 into p, Hv2 into Hbb, Hv1 into Hp. simplify_eq.
  assert (forall s, s ∈ bb_successors bb <-> CfgSearch.edge (blocks_map cfg) b s) as Hsucc.
  { intros s. unfold CfgSearch.edge, CfgSearch.succs, cfg. by rewrite Hbb. }
  assert (Good post) as Hgpost by (eapply execute_block_good; [by eapply Hgi|exact Hv]).
  apply propagate_all in Hp as (Hgi' & Hg & Hl & Hnl & Hc); [|done..]. cbn in *.
  assert (forall x, is_Some (inv !! x) -> is_Some (inv_map p !! x)) as Hdom by (intros x [q Hq]; destruct (Hg x q Hq) as (? & ? & _); eauto).
  split; [done|..].
  - destruct He as (p0 & Hp0 & Hle). destruct (Hg 0 p0 Hp0) as (p1 & ? & ?). exists p1. split; [done|by etrans].
  - intros x Hx. destruct (decide (x ∈ bb_successors bb)) as [Hin|Hnin]; [by eapply edge_reach, Hsucc|]. apply Ho. by rewrite <- Hnl.
  - intros n Hcand. destruct Hc as [(s & Heq & Hback)|[Heq _]]; rewrite Heq in Hcand.
    + injection Hcand as <-. apply CfgSearch.is_back_edge_heads, (CfgSearch.tr_back _ _ _ (CfgSearch.gr_traversal _ _ _ Hgraph)) in Hback as [? _].
      by eapply edge_reach.
    + apply (CfgSearch.gr_next _ _ _ Hgraph) in Hcand as (i & _ & Hi). by eapply list_elem_of_lookup_2.
  - intros x Hx Hpass. destruct Hc as [(c & Heq & Hback)|[Heq Hkeep]]; rewrite Heq in Hpass.
    + destruct (passed_target b c x Hback (Hpass c eq_refl)) as (Hxb & Hord & Hnb).
      destruct (Hs x Hx) as [Hsome Hst]; [by intros n [= <-]|]. split; [by apply Hdom|].
      eapply stable_grows; [done| |done]. apply Hnl. intros Hin%Hsucc.
      rewrite (edge_back b x Hn Hin) in Hnb; [done|by right].
    + assert (inv_map p !! x = inv !! x /\ is_Some (inv !! x)) as [Hsame Hsome].
      { assert (is_Some (inv !! x)) as Hsome.
        { destruct (passed_next b x Hn Hx Hpass) as [->|Hord]; [eauto|]. apply Hs; [done|]. by intros n [= <-]. }
        split; [|done]. destruct (decide (x ∈ bb_successors bb)) as [Hin|]; [|by apply Hnl].
        apply Hkeep; [|done]. apply edge_back; [done|by apply Hsucc|by apply passed_next]. }
      split; [by apply Hdom|]. destruct (passed_next b x Hn Hx Hpass) as [->|Hord].
      * exists pre, t, m, t', post, m1. split; [congruence|]. split; [done|]. intros s Hse%Hsucc. by apply Hl.
      * eapply stable_grows; [done|done|]. apply Hs; [done|]. by intros n [= <-].
Qed.

Lemma progress_loop fuel init t inv next m inv' t' m' :
  Progress init inv next -> analyze_loop view fuel t inv next m = Ok (inv', t', m') -> Progress init inv' None.
Proof.
  revert t inv next m. induction fuel as [|fuel IH]; intros t inv next m HP Ha; destruct next as [b|]; cbn in Ha; simplify_eq; try done.
  vm_inv. destruct v as [[[t1 inv1] next1] m1]. eapply IH; [|done]. by eapply progress_block.
Qed.

(** What a successful analysis leaves: an inductive invariant of the function. *)
Lemma analyze_function_sound fuel t init m inv t' m' :
  Good init -> analyze_function view fuel t init m = Ok (inv, t', m') ->
  all_good inv /\ (exists p, inv !! 0 = Some p /\ leq init p) /\
  forall b, rtc (CfgSearch.edge (blocks_map cfg)) 0 b -> stable inv b.
Proof.
  intros Hgood Ha. pose proof (CfgSearch.gr_traversal _ _ _ Hgraph) as Htr.
  assert (0 ∈ order) as H0 by (eapply list_elem_of_lookup_2, Htr).
  eapply progress_loop in Ha as HP.
  - split; [apply HP|]. split; [apply HP|]. intros b Hb. apply (pr_passed _ _ _ HP); [by apply (CfgSearch.tr_reach _ _ _ Htr)|done].
  - split.
    + intros x p [_ <-]%lookup_singleton_Some. done.
    + exists init. unfold entry_block_id, ENTRY_BLOCK_ID. rewrite lookup_singleton_eq. split; [done|reflexivity].
    + intros x [q Hq]. unfold entry_block_id, ENTRY_BLOCK_ID in Hq. apply lookup_singleton_Some in Hq as [<- _]. done.
    + by intros n [= <-].
    + intros x Hx Hp. exfalso. destruct (Hp _ eq_refl) as (i & j & Hi & Hj & ?).
      assert (j = 0) by (eapply NoDup_lookup; [apply Htr|done|apply Htr]). lia.
Qed.

(** ** From blocks to instructions *)

(** The analysis holds [st] before the instruction at [pc]. *)
Definition annotates (inv : gmap nat St) (pc : nat) (st : St) : Prop :=
  exists b bb t m t' post m', Good st /\ blocks_map cfg !! b = Some bb /\ rtc (CfgSearch.edge (blocks_map cfg)) 0 b /\ b <= pc <= exit bb /\
    vfold (execute_at view (exit bb)) (seq pc (S (exit bb) - pc)) (t, st, m) = Ok (t', post, m') /\
    (forall s, CfgSearch.edge (blocks_map cfg) b s -> exists q, inv !! s = Some q /\ leq post q).

Lemma annotates_block inv b :
  all_good inv -> (forall b, rtc (CfgSearch.edge (blocks_map cfg)) 0 b -> stable inv b) ->
  rtc (CfgSearch.edge (blocks_map cfg)) 0 b -> exists pre, inv !! b = Some pre /\ annotates inv b pre.
Proof.
  intros Hgi Hst Hb. destruct (Hst b Hb) as (pre & t & m & t' & post & m' & Hpre & Hex & Hs). exists pre. split; [done|].
  unfold execute_block, instr_indexes, block_end in Hex. vm_inv. simplify_eq. subst.
  eexists b, _, t, m, t', post, m'. split; [by eapply Hgi|]. split; [done|]. split; [done|]. split; [|split; [exact Hex|done]].
  match goal with H : blocks_map _ !! b = Some _ |- _ => pose proof (bk_range _ _ (CfgSearch.gr_blocks _ _ _ Hgraph) _ _ H) end. lia.
Qed.

Lemma annotates_good inv pc st : annotates inv pc st -> Good st.
Proof. by intros (? & ? & ? & ? & ? & ? & ? & ? & _). Qed.

Lemma annotates_execute inv pc st i :
  annotates inv pc st -> cu_code (fv_code view) !! pc = Some i ->
  exists t last m t' st' m', execute t st i pc last m = Ok (t', st', m').
Proof.
  intros (b & bb & t & m & t' & post & m' & _ & _ & _ & Hpc & Hex & _) Hi.
  replace (S (exit bb) - pc) with (S (exit bb - pc)) in Hex by lia. cbn in Hex. vm_inv.
  rewrite Hi in Hv0. simplify_eq. destruct v as [[t1 st1] m1]. eauto 10.
Qed.

(** The transfer function succeeds on every reachable instruction, and its
    result is below what the analysis holds at each instruction control can
    reach next. *)
Lemma annotates_step inv pc st i l :
  (Z.of_nat (length (cu_code (fv_code view))) < 65536)%Z -> all_good inv ->
  (forall b, rtc (CfgSearch.edge (blocks_map cfg)) 0 b -> stable inv b) ->
  annotates inv pc st -> cu_code (fv_code view) !! pc = Some i -> Bytecode.get_successors pc (cu_code (fv_code view)) = Ok l ->
  exists t last m t' st' m', execute t st i pc last m = Ok (t', st', m') /\
  forall pc', pc' ∈ l -> exists st'', annotates inv pc' st'' /\ leq st' st''.
Proof.
  intros Hlen Hgi Hst (b & bb & t & m & t' & post & m' & Hgood & Hbb & Hreach & Hpc & Hex & Hs) Hi Hl.
  pose proof (CfgSearch.gr_blocks _ _ _ Hgraph) as Hbk.
  destruct (FormatSafety.get_successors_spec _ _ _ _ Hlen Hi Hl) as (_ & _ & Hsucc).
  replace (S (exit bb) - pc) with (S (exit bb - pc)) in Hex by lia. cbn in Hex. vm_inv.
  rewrite Hi in Hv0. simplify_eq. destruct v as [[t1 st1] m1].
  exists t, (exit bb), m, t1, st1, m1. split; [done|]. intros pc' Hpc'.
  destruct (decide (pc = exit bb)) as [->|Hne].
  - rewrite Nat.sub_diag in Hex. cbn in Hex. vm_inv. simplify_eq.
    assert (CfgSearch.edge (blocks_map cfg) b pc') as Hedge.
    { unfold CfgSearch.edge, CfgSearch.succs. rewrite Hbb. pose proof (bk_succ _ _ Hbk _ _ Hbb) as Hs'. congruence. }
    destruct (annotates_block inv pc' Hgi Hst) as (pre & Hpre & Han); [by eapply rtc_r|].
    destruct (Hs pc' Hedge) as (q & Hq & Hle). exists q. split; [|done]. congruence.
  - pose proof (bk_inner _ _ Hbk b bb pc _ Hbb ltac:(lia) Hi) as Hnb. apply orb_false_iff in Hnb as [Hc Hu].
    apply Hsucc in Hpc' as [Ho|(-> & Hlt & _)]; [destruct v0; done|].
    exists st1. split; [|reflexivity]. exists b, bb, t1, m1, t', post, m'.
    split; [by eapply execute_good|]. split; [done|]. split; [done|]. split; [lia|].
    split; [|done]. by replace (S (exit bb) - S pc) with (exit bb - pc) by lia.
Qed.
End Soundness.


(** ** Termination *)

Section Termination.
Context {M T St : Type} `{!AbstractDomain M St, !TransferFunctions M T St}.
Context (view : FunctionView).
Let cfg := fv_cfg view.
Context (order : list nat) (Hgraph : CfgSearch.Graph (cu_code (fv_code view)) cfg order).

(** The states of the analysis, and a height that every change lowers. *)
Context (Good : St -> Prop) (height : St -> nat) (top : nat).
Context (Hheight : forall s, Good s -> height s <= top).
Context (Hexecute : forall t s i o e m, Good s -> cu_code (fv_code view) !! o = Some i ->
  settles (execute t s i o e m) /\ forall t' s' m', execute t s i o e m = Ok (t', s', m') -> Good s').
Context (Hjoin : forall s o m, Good s -> Good o ->
  settles (join s o m) /\
  forall s' r m', join s o m = Ok (s', r, m') -> Good s' /\ match r with Changed => height s' < height s | Unchanged => s' = s end).

(** How much the preconditions can still change. *)
Definition potential_at (inv : gmap nat St) (x : nat) : nat :=
  match inv !! x with Some p => height p | None => top end.
Definition potential (inv : gmap nat St) : nat := sum_list (map (potential_at inv) order).

Lemma potential_insert inv s p : Good p -> height p <= potential_at inv s -> potential (<[s := p]> inv) <= potential inv.
Proof.
  intros Hp Hle. unfold potential. clear Hgraph. induction order as [|x r IH]; cbn; [lia|].
  assert (potential_at (<[s := p]> inv) x <= potential_at inv x); [|lia].
  unfold potential_at at 1. destruct (decide (x = s)) as [->|]; [by rewrite lookup_insert_eq|by rewrite lookup_insert_ne].
Qed.

Lemma potential_insert_lt inv s p : Good p -> s ∈ order -> height p < potential_at inv s -> potential (<[s := p]> inv) < potential inv.
Proof.
  intros Hp Hs Hlt.
  assert (forall l, sum_list (map (potential_at (<[s := p]> inv)) l) <= sum_list (map (potential_at inv) l) /\
    (s ∈ l -> sum_list (map (potential_at (<[s := p]> inv)) l) < sum_list (map (potential_at inv) l))) as Hl.
  { clear Hs Hgraph. induction l as [|x r [IH1 IH2]]; cbn; [split; [lia|set_solver]|].
    assert (potential_at (<[s := p]> inv) x <= potential_at inv x /\ (x = s -> potential_at (<[s := p]> inv) x < potential_at inv x)) as [Hle Heq].
    { unfold potential_at at 1 3. destruct (decide (x = s)) as [->|]; [rewrite lookup_insert_eq; split; [lia|intros; lia]|rewrite lookup_insert_ne by done; split; [done|congruence]]. }
    split; [lia|]. intros [->|Hin]%elem_of_cons; [specialize (Heq eq_refl); lia|specialize (IH2 Hin); lia]. }
  by apply Hl.
Qed.

Lemma propagate_settles b post p s :
  Good post -> all_good Good (inv_map p) -> s ∈ order ->
  settles (propagate view b post p s) /\
  forall p', propagate view b post p s = Ok p' -> all_good Good (inv_map p') /\
  ((candidate p' = candidate p /\ potential (inv_map p') <= potential (inv_map p)) \/
   ((exists c, candidate p' = Some c /\ c ∈ order) /\ potential (inv_map p') < potential (inv_map p))).
Proof.
  intros Hpost Hgood Hs. unfold propagate. destruct (inv_map p !! s) as [old|] eqn:Hold.
  - destruct (Hjoin old post (meter p) (Hgood s old Hold) Hpost) as [Ht Hj]. split.
    + apply settles_bind; [done|]. by intros [[] ] _.
    + intros p' Hp. vm_inv. destruct v as [[pre r] m]. vm_inv. subst p'. cbn. destruct (Hj _ _ _ Hv) as [Hpre Hr].
      assert (potential_at (inv_map p) s = height old) as Hpot by (unfold potential_at; by rewrite Hold).
      split; [intros x q; rewrite lookup_insert_Some; intros [[_ <-]|[_ ?]]; [done|by eapply Hgood]|].
      destruct r.
      * destruct (is_back_edge (fv_cfg view) b s).
        -- right. split; [by exists s|]. apply potential_insert_lt; [done..|]. by rewrite Hpot.
        -- left. split; [done|]. apply potential_insert; [done|]. rewrite Hpot. lia.
      * left. subst pre. split; [done|]. by rewrite insert_id.
  - split; [done|]. intros p' [= <-]. cbn. split.
    + intros x q. rewrite lookup_insert_Some. intros [[_ <-]|[_ ?]]; [done|by eapply Hgood].
    + left. split; [done|]. apply potential_insert; [done|]. unfold potential_at. rewrite Hold. by apply Hheight.
Qed.

Lemma propagate_all_settles b post l p :
  Good post -> all_good Good (inv_map p) -> (forall s, s ∈ l -> s ∈ order) ->
  settles (vfold (propagate view b post) l p) /\
  forall p', vfold (propagate view b post) l p = Ok p' -> all_good Good (inv_map p') /\
  ((candidate p' = candidate p /\ potential (inv_map p') <= potential (inv_map p)) \/
   ((exists c, candidate p' = Some c /\ c ∈ order) /\ potential (inv_map p') < potential (inv_map p))).
Proof.
  revert p. induction l as [|s r IH]; intros p Hpost Hgood Hl; cbn.
  { split; [done|]. intros p' [= <-]. split; [done|]. left. split; [done|lia]. }
  destruct (propagate_settles b post p s Hpost Hgood) as [Ht Hp]; [apply Hl; by left|]. split.
  - apply settles_bind; [done|]. intros p1 Hp1. apply IH; [done|by apply (Hp p1)|]. intros. apply Hl. by right.
  - intros p' Hf. vm_inv. rename v into p1. destruct (Hp p1 Hv) as [Hg1 Hc1].
    destruct (IH p1 Hpost Hg1) as [_ Hr]; [intros; apply Hl; by right|]. destruct (Hr p' Hf) as [Hg' Hc']. split; [done|].
    destruct Hc' as [[Hc' ?]|[? ?]]; [|right; split; [done|destruct Hc1 as [[? ?]|[? ?]]; lia]]. rewrite Hc'.
    destruct Hc1 as [[? ?]|[? ?]]; [left; split; [done|lia]|right; split; [done|lia]].
Qed.

Lemma order_block b : b ∈ order -> is_Some (blocks_map cfg !! b).
Proof.
  intros Hb%(CfgSearch.tr_reach _ _ _ (CfgSearch.gr_traversal _ _ _ Hgraph)).
  pose proof (CfgSearch.gr_blocks _ _ _ Hgraph) as Hbk. apply rtc_inv_r in Hb as [<-|(y & _ & Hy)]; [apply Hbk|].
  unfold CfgSearch.edge, CfgSearch.succs in Hy. destruct (blocks_map cfg !! y) as [bb|] eqn:Hbb; [by eapply Hbk|by apply elem_of_nil in Hy].
Qed.

(** The blocks of the order are among the blocks. *)
Lemma order_size : length order <= size (blocks_map cfg).
Proof.
  rewrite <- size_dom. rewrite <- (size_list_to_set (C := gset nat) order) by apply Hgraph. apply subseteq_size.
  intros b [i Hb]%elem_of_list_to_set%list_elem_of_lookup. apply elem_of_dom, order_block. by eapply list_elem_of_lookup_2.
Qed.

Lemma execute_block_settles t b pre m :
  b ∈ order -> Good pre -> settles (execute_block view t b pre m) /\
  forall t' post m', execute_block view t b pre m = Ok (t', post, m') -> Good post.
Proof.
  intros Hb Hpre. destruct (order_block b Hb) as [bb Hbb]. pose proof (bk_range _ _ (CfgSearch.gr_blocks _ _ _ Hgraph) _ _ Hbb) as Hr.
  unfold execute_block, instr_indexes, block_end, map_index. unfold cfg in Hbb. rewrite Hbb. vm_cbn.
  assert (forall (x : T * St * M) o y, o ∈ seq b (S (exit bb) - b) -> Good x.1.2 -> execute_at view (exit bb) x o = Ok y -> Good y.1.2) as Hstep.
  { intros [[t1 s1] m1] o [[t2 s2] m2] _ Hg Ho. unfold execute_at in Ho. vm_inv. by eapply Hexecute. }
  split.
  - apply (settles_vfold (fun x : T * St * M => Good x.1.2)); [|done..].
    intros [[t1 s1] m1] o Ho%elem_of_seq Hg. cbn. destruct (index_lt (cu_code (fv_code view)) o) as (i & -> & Hi); [lia|]. vm_cbn.
    by apply Hexecute.
  - intros t' post m' He. by eapply (vfold_inv (fun x : T * St * M => Good x.1.2)) in He.
Qed.

(** The turns left: a full pass over the order per change, and the rest of the
    current one. *)
Lemma analyze_loop_settles fuel t inv next m :
  all_good Good inv ->
  (forall n, next = Some n -> exists i, order !! i = Some n /\ length order * potential inv + (length order - i) <= fuel) ->
  settles (analyze_loop view fuel t inv next m).
Proof.
  revert t inv next m. induction fuel as [|fuel IH]; intros t inv next m Hgood Hn; destruct next as [b|]; try done.
  - destruct (Hn b eq_refl) as (i & Hi & Hle). apply lookup_lt_Some in Hi. lia.
  - destruct (Hn b eq_refl) as (i & Hi & Hle). apply lookup_lt_Some in Hi as Hlt. cbn [analyze_loop].
    assert (forall n, next_block cfg b = Some n -> order !! S i = Some n) as Hnext.
    { intros n (i' & Hi' & Hn')%(CfgSearch.gr_next _ _ _ Hgraph).
      assert (i' = i) as -> by (eapply NoDup_lookup; [apply Hgraph|done..]). done. }
    unfold analyze_block. destruct (inv !! b) as [pre|] eqn:Hpre; vm_cbn.
    2: { apply IH; [done|]. intros n Hn'%Hnext. exists (S i). split; [done|]. lia. }
    assert (b ∈ order) as Hb by by eapply list_elem_of_lookup_2.
    destruct (execute_block_settles t b pre m Hb (Hgood b pre Hpre)) as [[? ?] Hpost].
    destruct (execute_block view t b pre m) as [[[t1 post] m1]|e| |] eqn:Hex; vm_cbn; try done.
    destruct (order_block b Hb) as [bb Hbb]. unfold cfg in Hbb. unfold successors, map_index. rewrite Hbb. vm_cbn.
    destruct (propagate_all_settles b post (bb_successors bb) {| inv_map := inv; candidate := next_block (fv_cfg view) b; meter := m1 |})
      as [[? ?] Hp]; [by eapply Hpost|done| |].
    { intros s Hs. eapply (edge_reach view order Hgraph); [done|]. unfold CfgSearch.edge, CfgSearch.succs. by rewrite Hbb. }
    destruct (vfold _ _ _) as [p|e| |] eqn:Hvf; vm_cbn; try done. destruct (Hp p eq_refl) as [Hg' Hc]. apply IH; [done|]. cbn in Hc.
    intros n Hcand. destruct Hc as [[Hc Hle']|[(c & Hc & Hin) Hlt']]; rewrite Hc in Hcand.
    + exists (S i). split; [by apply Hnext|]. nia.
    + injection Hcand as <-. apply list_elem_of_lookup in Hin as [j Hj]. exists j. split; [done|]. nia.
Qed.

(** Enough turns for [n] blocks. *)
Definition analysis_fuel (n : nat) : nat := n * (n * top) + n.

Lemma analyze_function_settles fuel t init m :
  Good init -> analysis_fuel (size (blocks_map cfg)) <= fuel -> settles (analyze_function view fuel t init m).
Proof.
  intros Hi Hf. pose proof order_size as Hsize. unfold analyze_function. apply analyze_loop_settles.
  - intros x p [_ <-]%lookup_singleton_Some. done.
  - intros n [= <-]. exists 0. split; [apply Hgraph|]. unfold analysis_fuel in Hf.
    assert (forall inv, all_good Good inv -> potential inv <= length order * top) as Hpot.
    { intros inv Hgood. unfold potential. clear Hgraph Hf Hsize. induction order as [|x r IH]; cbn; [lia|].
      assert (potential_at inv x <= top); [|lia]. unfold potential_at. case_match eqn:Hx; [|lia]. by eapply Hheight, Hgood. }
    specialize (Hpot {[entry_block_id := init]}). assert (all_good Good {[entry_block_id := init]}) as Hg;
      [intros x p [_ <-]%lookup_singleton_Some; done|specialize (Hpot Hg)].
    enough (length order * potential {[entry_block_id := init]} <= size (blocks_map cfg) * (size (blocks_map cfg) * top)) by lia.
    apply Nat.mul_le_mono; [done|]. etrans; [exact Hpot|]. by apply Nat.mul_le_mono_r.
Qed.
End Termination.

End Absint.
