(* ===== verification/MoveLocals.v ===== *)
(** The locals safety pass of the verifier.

    external/move/move-bytecode-verifier/src/locals_safety: the abstract state,
    which says of every local whether it holds a value, and the transfer
    function, run by the interpreter of [MoveAbsint].

    The theorems: the pass returns on every function whose indexes are in
    bounds, with a verdict and without a panic; and what it accepts is safe, in
    that no instruction reads or moves a local without a value and none
    overwrites or drops one whose type cannot be dropped, provided no block has
    two back edges. *)

From S2P Require Import Prelude MoveFormat MoveBounds MoveCfg MoveSearch MoveFunction MoveAbsint.

Module LocalsSafety.
Import Meter Absint Cfg.

Inductive LocalState := Unavailable | MaybeAvailable | Available.

#[export] Instance LocalState_eq_dec : EqDecision LocalState.
Proof. solve_decision. Defined.

Definition STEP_BASE_COST : Z := 15.
Definition RET_PER_LOCAL_COST : Z := 30.
Definition JOIN_BASE_COST : Z := 10.
Definition JOIN_PER_LOCAL_COST : Z := 5.

Record AbstractState := {
  current_function : option nat;
  all_local_abilities : list AbilitySet;
  local_states : list LocalState;
}.

Definition state_new (resolver : BinaryIndexedView) (view : FunctionView) : vm AbstractState :=
  let num_args := length (fv_parameters view) in
  let num_locals := num_args + length (fv_locals view) in
  let states := map (fun i => if bool_decide (i < num_args) then Available else Unavailable) (seq 0 num_locals) in
  abilities ← vmap (fun st => View.abilities resolver st (fv_type_parameters view)) (fv_parameters view ++ fv_locals view);
  Ok {| current_function := fv_index view; local_states := states; all_local_abilities := abilities |}.

Definition local_abilities (s : AbstractState) (idx : nat) : vm AbilitySet := index (all_local_abilities s) idx.
Definition local_state (s : AbstractState) (idx : nat) : vm LocalState := index (local_states s) idx.

Definition set_available (s : AbstractState) (idx : nat) : vm AbstractState :=
  l ← set_index (local_states s) idx Available; Ok (s <| local_states := l |>).

Definition set_unavailable (s : AbstractState) (idx : nat) : vm AbstractState :=
  st ← index (local_states s) idx;
  _ ← assert (bool_decide (st = Available));
  l ← set_index (local_states s) idx Unavailable;
  Ok (s <| local_states := l |>).

Definition error (s : AbstractState) (status : StatusCode) (offset : nat) : PartialVMError :=
  at_code_offset (error_new status) (default 0 (current_function s)) offset.

(** The join of two local states. *)
Definition join_local (a b : LocalState) : LocalState :=
  match a, b with
  | Unavailable, Unavailable => Unavailable
  | Available, Available => Available
  | _, _ => MaybeAvailable
  end.

Definition join_ (self other : AbstractState) : vm AbstractState :=
  _ ← assert (bool_decide (current_function self = current_function other));
  _ ← assert (bool_decide (length (all_local_abilities self) = length (all_local_abilities other)));
  _ ← assert (bool_decide (length (local_states self) = length (local_states other)));
  Ok {| current_function := current_function self;
        all_local_abilities := all_local_abilities self;
        local_states := zip_with join_local (local_states self) (local_states other) |}.

#[export] Instance locals_domain {M} `{Meter M} : AbstractDomain M AbstractState := fun self state m =>
  m ← meter_add m Function_ JOIN_BASE_COST;
  m ← add_items m Function_ JOIN_PER_LOCAL_COST (length (local_states state));
  joined ← join_ self state;
  _ ← assert (bool_decide (length (local_states self) = length (local_states joined)));
  if forallb (fun p : LocalState * LocalState => bool_decide (p.1 = p.2)) (zip (local_states self) (local_states joined))
  then Ok (self, Unchanged, m)
  else Ok (joined, Changed, m).

(** A value of a type without [drop] would be lost. *)
Definition undroppable (st : LocalState) (abilities : AbilitySet) : bool :=
  match st with
  | MaybeAvailable | Available => negb (AbilitySet.has_drop abilities)
  | Unavailable => false
  end.

Definition execute_inner {M} `{Meter M} (s : AbstractState) (bytecode : Bytecode) (offset : nat) (m : M) : vm (AbstractState * M) :=
  m ← meter_add m Function_ STEP_BASE_COST;
  match bytecode with
  | Bytecode.StLoc idx =>
    st ← local_state s idx;
    unsafe ← match st with
             | MaybeAvailable | Available => abilities ← local_abilities s idx; Ok (negb (AbilitySet.has_drop abilities))
             | Unavailable => Ok false
             end;
    if unsafe : bool then Err (error s StatusCode.STLOC_UNSAFE_TO_DESTROY_ERROR offset)
    else s ← set_available s idx; Ok (s, m)
  | Bytecode.MoveLoc idx =>
    st ← local_state s idx;
    match st with
    | MaybeAvailable | Unavailable => Err (error s StatusCode.MOVELOC_UNAVAILABLE_ERROR offset)
    | Available => s ← set_unavailable s idx; Ok (s, m)
    end
  | Bytecode.CopyLoc idx =>
    st ← local_state s idx;
    match st with
    | MaybeAvailable | Unavailable => Err (error s StatusCode.COPYLOC_UNAVAILABLE_ERROR offset)
    | Available => Ok (s, m)
    end
  | Bytecode.MutBorrowLoc idx | Bytecode.ImmBorrowLoc idx =>
    st ← local_state s idx;
    match st with
    | Unavailable | MaybeAvailable => Err (error s StatusCode.BORROWLOC_UNAVAILABLE_ERROR offset)
    | Available => Ok (s, m)
    end
  | Bytecode.Ret =>
    m ← add_items m Function_ RET_PER_LOCAL_COST (length (local_states s));
    _ ← assert (bool_decide (length (local_states s) = length (all_local_abilities s)));
    _ ← vfor (fun p : LocalState * AbilitySet =>
           if undroppable p.1 p.2 then Err (error s StatusCode.UNSAFE_RET_UNUSED_VALUES_WITHOUT_DROP offset) else Ok ())
         (zip (local_states s) (all_local_abilities s));
    Ok (s, m)
  | _ => Ok (s, m)
  end.

#[export] Instance locals_transfer {M} `{Meter M} : TransferFunctions M () AbstractState := fun t s bytecode idx _ m =>
  '(s, m) ← execute_inner s bytecode idx m; Ok (t, s, m).

(** Enough turns of the interpreter: one change per local and block. *)
Definition locals_fuel (view : FunctionView) : nat :=
  analysis_fuel (length (fv_parameters view) + length (fv_locals view)) (size (blocks_map (fv_cfg view))).

Definition verify {M} `{Meter M} (resolver : BinaryIndexedView) (view : FunctionView) (m : M) : vm M :=
  initial_state ← state_new resolver view;
  '(_, _, m) ← analyze_function view (locals_fuel view) () initial_state m;
  Ok m.

(** ** The domain *)

Section Domain.
Context {M : Type} `{MeterLaws M}.

(** The states of one run: the locals and their abilities are fixed. *)
Context (cf : option nat) (abilities : list AbilitySet).

Definition Good (s : AbstractState) : Prop :=
  current_function s = cf /\ all_local_abilities s = abilities /\ length (local_states s) = length abilities.

(** [b] says no more than [a]. *)
Definition le_local (a b : LocalState) : Prop := a = b \/ b = MaybeAvailable.
Definition leq (s t : AbstractState) : Prop := Forall2 le_local (local_states s) (local_states t).

#[local] Instance le_local_preorder : PreOrder le_local.
Proof. split; [by left|]. intros a b c ? ?. unfold le_local in *. naive_solver. Qed.

#[local] Instance leq_preorder_locals : PreOrder leq.
Proof. split; [intros s; unfold leq; reflexivity|]. intros a b c. unfold leq. apply transitivity. Qed.

Lemma join_local_le a b : le_local a (join_local a b) /\ le_local b (join_local a b).
Proof. destruct a, b; cbn; unfold le_local; tauto. Qed.

Lemma zip_equal {A} `{EqDecision A} (l k : list A) :
  length l = length k -> forallb (fun p : A * A => bool_decide (p.1 = p.2)) (zip l k) = true <-> l = k.
Proof.
  revert k. induction l as [|x l IH]; intros [|y k] Hlen; cbn in *; try done.
  rewrite andb_true_iff, bool_decide_eq_true, IH by lia. naive_solver.
Qed.

Definition definite (x : LocalState) : bool := match x with MaybeAvailable => false | _ => true end.

(** How many locals can still change: those not joined to the top. *)
Definition height (s : AbstractState) : nat := length (List.filter definite (local_states s)).

Lemma height_join l k : length l = length k -> l <> zip_with join_local l k ->
  length (List.filter definite (zip_with join_local l k)) < length (List.filter definite l).
Proof.
  assert (forall l k, length l = length k ->
    length (List.filter definite (zip_with join_local l k)) <= length (List.filter definite l)) as Hle.
  { clear l k. induction l as [|x l IH]; intros [|y k] Hlen; cbn in *; try lia. specialize (IH k ltac:(lia)).
    destruct x, y; cbn; lia. }
  revert k. induction l as [|x l IH]; intros [|y k] Hlen Hne; cbn in *; try done; try lia.
  specialize (IH k ltac:(lia)). specialize (Hle l k ltac:(lia)).
  destruct (decide (l = zip_with join_local l k)) as [Heq|Hneq].
  - rewrite <- Heq in *. destruct x, y; cbn in *; try lia; congruence.
  - specialize (IH Hneq). destruct x, y; cbn in *; lia.
Qed.

(** The join of two states of a run: it does not fail but on the meter. *)
Lemma join_spec s o m :
  Good s -> Good o -> settles (join s o m) /\
  forall s' r m', join s o m = Ok (s', r, m') ->
  Good s' /\ leq s s' /\ leq o s' /\ match r with Changed => height s' < height s | Unchanged => s' = s end.
Proof.
  intros (Hc1 & Ha1 & Hl1) (Hc2 & Ha2 & Hl2). unfold join, locals_domain.
  assert (join_ s o = Ok {| current_function := current_function s; all_local_abilities := all_local_abilities s;
                            local_states := zip_with join_local (local_states s) (local_states o) |}) as ->.
  { unfold join_. by rewrite !bool_decide_true by congruence. }
  assert (length (zip_with join_local (local_states s) (local_states o)) = length abilities) as Hlen by (rewrite length_zip_with; lia).
  vm_cbn. rewrite (bool_decide_true (length (local_states s) = _)) by (cbn; congruence). vm_cbn.
  split.
  - repeat (apply settles_bind; [first [apply settles_meter_add|apply settles_add_items|apply settles_Ok]|intros ? ?]).
    settle.
  - intros s' r m' Hj. vm_inv. cbn [local_states assert mbind vm_bind] in *.
    assert (Forall2 le_local (local_states s) (zip_with join_local (local_states s) (local_states o)) /\
      Forall2 le_local (local_states o) (zip_with join_local (local_states s) (local_states o))) as [Hs Ho].
    { rewrite !Forall2_lookup. split; intros i; rewrite lookup_zip_with; destruct (local_states s !! i) eqn:E1, (local_states o !! i) eqn:E2; cbn;
        try (by constructor; apply join_local_le); try constructor;
        apply lookup_lt_Some in E1 || apply lookup_lt_Some in E2; apply lookup_ge_None in E2 || apply lookup_ge_None in E1; lia. }
    case_match eqn:Heq; vm_inv; simplify_eq.
    + apply zip_equal in Heq; [|lia]. rewrite <- Heq in Ho. split; [done|]. split; [reflexivity|]. done.
    + apply not_true_iff_false in Heq. rewrite zip_equal in Heq by lia.
      split; [done|]. split; [done|]. split; [done|]. apply height_join; [lia|done].
Qed.

Lemma execute_inner_good s i o m s' m' : Good s -> execute_inner s i o m = Ok (s', m') -> Good s'.
Proof.
  intros (Hc & Ha & Hl) He. unfold execute_inner, local_state, local_abilities, set_available, set_unavailable in He.
  vm_inv. destruct i; vm_inv; simplify_eq; repeat (case_match; vm_inv; simplify_eq); try done;
    (split; [done|]; split; [done|]; cbn; unfold const; by rewrite length_insert).
Qed.

Lemma execute_inner_settles resolver tpc len s i o m :
  Good s -> Bounds.instr_bounded resolver tpc (length abilities) len i -> settles (execute_inner s i o m).
Proof.
  intros (Hc & Ha & Hl) Hi. unfold execute_inner. apply settles_bind; [apply settles_meter_add|]. intros m1 _.
  destruct i; try apply settles_Ok; cbn in Hi; unfold local_state, local_abilities, set_available, set_unavailable.
  { apply settles_bind; [apply settles_add_items|]. intros m2 _. rewrite bool_decide_true by congruence. vm_cbn. settle. }
  all: destruct (index_lt (local_states s) idx) as (st & Hst & Hst'); [lia|]; rewrite Hst; vm_cbn.
  all: unfold set_index; rewrite ?(bool_decide_true (idx < _)) by lia.
  all: destruct (index_lt abilities idx) as (a & Hidx & _); [lia|]; rewrite ?Ha, ?Hidx; destruct st; vm_cbn; settle.
  by apply settles_assert, bool_decide_true.
Qed.

(** ** The locals at run time *)

(** Whether each local holds a value. An instruction fails on them when it reads
    a local without one, or loses a value that cannot be dropped. *)
Definition local_step (l : list bool) (i : Bytecode) : option (list bool) :=
  match i with
  | Bytecode.CopyLoc idx | Bytecode.MutBorrowLoc idx | Bytecode.ImmBorrowLoc idx =>
    if bool_decide (l !! idx = Some true) then Some l else None
  | Bytecode.MoveLoc idx => if bool_decide (l !! idx = Some true) then Some (<[idx := false]> l) else None
  | Bytecode.StLoc idx =>
    held ← l !! idx; a ← abilities !! idx;
    if held && negb (AbilitySet.has_drop a) then None else Some (<[idx := true]> l)
  | Bytecode.Ret => if existsb (fun p : bool * AbilitySet => p.1 && negb (AbilitySet.has_drop p.2)) (zip l abilities) then None else Some l
  | _ => Some l
  end.

Definition agrees (held : bool) (st : LocalState) : Prop :=
  match st with Available => held = true | Unavailable => held = false | MaybeAvailable => True end.

Definition represents (l : list bool) (s : AbstractState) : Prop := Forall2 agrees l (local_states s).

Lemma represents_leq l s t : represents l s -> leq s t -> represents l t.
Proof.
  unfold represents, leq. revert l t. destruct s as [c a ss], t as [c' a' ts]. cbn. clear.
  induction 1 as [|h st l ss Hh Hl IH] in ts |- *; intros Hle; inversion Hle as [|? st' ? ts' Hst Hle']; subst; constructor; [|by apply IH].
  destruct Hst as [<-|Hst]; [done|]. by subst st'.
Qed.

Lemma represents_insert l s idx h st :
  represents l s -> agrees h st -> represents (<[idx := h]> l) (s <| local_states := <[idx := st]> (local_states s) |>).
Proof. intros Hr Ha. unfold represents. cbn. by apply Forall2_insert. Qed.

Lemma represents_read l s idx : represents l s -> local_states s !! idx = Some Available -> l !! idx = Some true.
Proof. intros Hr Hs. by destruct (Forall2_lookup_r _ _ _ _ _ Hr Hs) as (h & Hh & ->). Qed.

(** An instruction the pass accepts in a state does not fail on the locals the
    state stands for. *)
Lemma execute_inner_sound s i o m s' m' l :
  Good s -> represents l s -> execute_inner s i o m = Ok (s', m') -> exists l', local_step l i = Some l' /\ represents l' s'.
Proof.
  intros (Hc & Ha & Hl) Hr He. unfold execute_inner, local_state, local_abilities, set_available, set_unavailable in He.
  vm_inv. destruct i; vm_inv; cbn [local_step]; simplify_eq; try (by eexists).
  - eexists. split; [|done]. case_match eqn:Hex; [|done]. exfalso.
    apply existsb_exists in Hex as ([h a] & Hin & Hna). cbn in Hna.
    apply list_elem_of_In, list_elem_of_lookup in Hin as [i Hi]. apply lookup_zip_Some in Hi as [Hh Hab].
    destruct (Forall2_lookup_l _ _ _ _ _ Hr Hh) as (st & Hst & Hag). destruct v2; apply vfor_Ok in Hv2. rewrite Forall_forall in Hv2.
    assert (undroppable st a = true) as Hun by (destruct h; [by destruct st|done]).
    ospecialize (Hv2 (st, a) _); [|cbn in Hv2; by rewrite Hun in Hv2]. apply list_elem_of_lookup. exists i. by apply lookup_zip_Some.
  - destruct v0; vm_inv. simplify_eq. rewrite bool_decide_true by by eapply represents_read. by eexists.
  - destruct v0; vm_inv. simplify_eq. rewrite bool_decide_true by by eapply represents_read.
    eexists. split; [done|]. by apply represents_insert.
  - destruct (Forall2_lookup_r _ _ _ _ _ Hr Hv0) as (h & Hh & Hag). rewrite Hh. cbn. destruct v1; vm_inv; simplify_eq.
    assert (is_Some (all_local_abilities s !! idx)) as [a Hab] by (apply lookup_lt_is_Some_2; apply lookup_lt_Some in Hv0; lia). rewrite Hab. cbn.
    assert (h && negb (AbilitySet.has_drop a) = false) as ->; [|eexists; split; [done|]; by apply represents_insert].
    destruct v0; vm_inv; simplify_eq; [by cbn in Hag; subst h|..]; by apply andb_false_r + (rewrite andb_false_iff; right).
  - destruct v0; vm_inv. simplify_eq. rewrite bool_decide_true by by eapply represents_read. by eexists.
  - destruct v0; vm_inv. simplify_eq. rewrite bool_decide_true by by eapply represents_read. by eexists.
Qed.

#[export] Instance locals_laws : AbstractDomainLaws M () AbstractState Good leq.
Proof.
  split.
  - apply _.
  - intros t s i o last m t' s' m' Hg He. unfold execute, locals_transfer in He. vm_inv. destruct v. vm_inv. simplify_eq.
    by eapply execute_inner_good.
  - intros s o m s' m' Hs Ho Hj. destruct (join_spec s o m Hs Ho) as [_ H']. by destruct (H' _ _ _ Hj) as (_ & _ & ? & ->).
  - intros s o m s' m' Hs Ho Hj. destruct (join_spec s o m Hs Ho) as [_ H']. by destruct (H' _ _ _ Hj) as (? & ? & ? & _).
Qed.
End Domain.

(** ** The pass *)

Section Pass.
Context (resolver : BinaryIndexedView) (view : FunctionView) (order : list nat).
Context (Hsound : FunctionViews.Sound resolver view order).

(** The abilities of the locals. *)
Definition types_have (abilities : list AbilitySet) : Prop :=
  vmap (fun st => View.abilities resolver st (fv_type_parameters view)) (fv_parameters view ++ fv_locals view) = Ok abilities.

(** The locals when the function is entered: the parameters hold values. *)
Definition entry_locals : list bool :=
  replicate (length (fv_parameters view)) true ++ replicate (length (fv_locals view)) false.

Lemma state_new_spec : exists s abilities, state_new resolver view = Ok s /\ types_have abilities /\
  length abilities = length (fv_parameters view) + length (fv_locals view) /\
  Good (fv_index view) abilities s /\ represents entry_locals s.
Proof.
  destruct (FunctionViews.vmap_total _ _ (FunctionViews.so_types _ _ _ Hsound)) as (abs & Habs & Hlen).
  rewrite length_app in Hlen. unfold state_new. rewrite Habs. vm_cbn. do 2 eexists. split; [done|]. split; [done|]. split; [done|]. split.
  - split; [done|]. split; [done|]. cbn. rewrite length_map, length_seq. lia.
  - unfold represents, entry_locals. cbn. apply Forall2_lookup. intros i. change (map ?f ?l) with (f <$> l). rewrite list_lookup_fmap, lookup_app.
    destruct (decide (i < length (fv_parameters view) + length (fv_locals view))) as [Hi|Hi].
    + rewrite (lookup_seq_lt _ _ _ Hi). cbn. case_bool_decide.
      * rewrite lookup_replicate_2 by done. by constructor.
      * rewrite (proj1 (lookup_replicate_None _ _ _)) by lia. rewrite length_replicate, lookup_replicate_2 by lia. by constructor.
    + rewrite (lookup_seq_ge _ _ i) by lia. cbn. rewrite (proj1 (lookup_replicate_None _ _ _)) by lia.
      rewrite length_replicate, (proj1 (lookup_replicate_None _ _ _)) by lia. constructor.
Qed.

Lemma locals_verify_settles {M} `{MeterLaws M} (m : M) : settles (verify resolver view m).
Proof.
  destruct state_new_spec as (s & abilities & Hs & Ht & Hlen & Hg & _). unfold verify. rewrite Hs. vm_cbn.
  apply settles_bind; [|by intros [[] ] _; apply settles_Ok].
  apply (analyze_function_settles view order (FunctionViews.so_graph _ _ _ Hsound) (Good (fv_index view) abilities) height
    (length (fv_parameters view) + length (fv_locals view))).
  - intros s' (_ & _ & Hl). unfold height. rewrite filter_length_le. lia.
  - intros t s' i o e m' Hs' Hi. unfold execute, locals_transfer. split.
    + apply settles_bind; [|by intros [] _; apply settles_Ok]. eapply execute_inner_settles; [done|].
      rewrite Hlen, Nat.add_comm. pose proof (FunctionViews.so_instrs _ _ _ Hsound) as Hin. rewrite Forall_lookup in Hin. by eapply Hin.
    + intros t' s2 m2 He. vm_inv. destruct v. vm_inv. simplify_eq. by eapply execute_inner_good.
  - intros s1 s2 m' H1 H2. destruct (join_spec _ _ s1 s2 m' H1 H2) as [? Hj]. split; [done|].
    intros s' r m2 Hr. by destruct (Hj _ _ _ Hr) as (? & _ & _ & ?).
  - done.
  - done.
Qed.

(** The instructions control can reach, with the locals it reaches them with. *)
Inductive Reach (abilities : list AbilitySet) : nat -> list bool -> Prop :=
| reach_entry : Reach abilities 0 entry_locals
| reach_step pc l i l' succs pc' :
    Reach abilities pc l -> cu_code (fv_code view) !! pc = Some i -> local_step abilities l i = Some l' ->
    Bytecode.get_successors pc (cu_code (fv_code view)) = Ok succs -> pc' ∈ succs -> Reach abilities pc' l'.

Lemma verify_sound {M} `{MeterLaws M} (m m' : M) abilities pc l :
  single_back_edge (fv_cfg view) -> verify resolver view m = Ok m' -> types_have abilities -> Reach abilities pc l ->
  forall i, cu_code (fv_code view) !! pc = Some i -> is_Some (local_step abilities l i).
Proof.
  intros Hsingle Hv Habs Hr. pose proof (FunctionViews.so_graph _ _ _ Hsound) as Hgraph.
  destruct state_new_spec as (s & abs' & Hs & Ht & Hlen & Hg & Hrep). unfold types_have in *. rewrite Habs in Ht. injection Ht as <-.
  unfold verify in Hv. rewrite Hs in Hv. vm_cbn in Hv. vm_inv. destruct v as [[inv t'] m1].
  destruct (analyze_function_sound (Good (fv_index view) abilities) leq view order Hgraph Hsingle _ _ _ _ _ _ _ Hg Hv0)
    as (Hgi & (p0 & Hp0 & Hle) & Hst).
  assert (exists st, annotates (Good (fv_index view) abilities) leq view inv pc st /\ represents l st) as (st & Han & Hrepr).
  { clear Hv. induction Hr as [|pc l i l' succs pc' Hr IH Hi Hstep Hsucc Hin].
    - destruct (annotates_block (Good (fv_index view) abilities) leq view order Hgraph inv 0 Hgi Hst) as (pre & Hpre & Han); [done|].
      exists pre. split; [done|]. simplify_eq. by eapply represents_leq.
    - destruct IH as (st & Han & Hrepr).
      destruct (annotates_step (Good (fv_index view) abilities) leq view order Hgraph inv pc st i succs) as (t & last & m2 & t2 & st' & m3 & He & Hn);
        [apply Hsound|done..|].
      assert (Good (fv_index view) abilities st) as Hgst by by eapply annotates_good.
      destruct (Hn pc' Hin) as (st'' & Han' & Hle'). exists st''. split; [done|]. eapply represents_leq; [|done].
      unfold execute, locals_transfer in He. vm_inv. destruct v. vm_inv. simplify_eq.
      destruct (execute_inner_sound _ _ _ _ _ _ _ _ _ Hgst Hrepr Hv) as (l2 & ? & ?). by simplify_eq. }
  intros i Hi. destruct (annotates_execute _ _ _ _ _ _ _ Han Hi) as (t & last & m2 & t2 & st' & m3 & He).
  unfold execute, locals_transfer in He. vm_inv. destruct v. vm_inv. simplify_eq.
  destruct (execute_inner_sound _ _ _ _ _ _ _ _ _ (annotates_good _ _ _ _ _ _ Han) Hrepr Hv1) as (l2 & ? & ?). eauto.
Qed.
End Pass.

(** C24: The locals safety pass returns a verdict on every function with a body
    of a module the bounds checker accepted: it neither panics (on a local
    index, on an assertion about the two states joined, on an unknown block) nor
    loops, whatever the meter allows. The fuel is the bound of one change per
    local and block, and is enough. *)
Theorem locals_safety_total {M} `{MeterLaws M} module idx fd fh cu (m : M) :
  Bounds.verify_module module = Ok () -> cm_function_defs module !! idx = Some fd -> fn_code fd = Some cu ->
  cm_function_handles module !! fn_function fd = Some fh -> (Z.of_nat (length (cu_code cu)) < 65536)%Z -> cu_code cu <> [] ->
  exists view, Cfg.function module idx cu fh = Ok view /\ settles (verify (View.Module_ module) view m).
Proof.
  intros Hv Hfd Hcu Hfh Hlen Hne. destruct (FunctionViews.function_sound _ _ _ _ _ Hv Hfd Hcu Hfh Hlen Hne) as (view & order & Hf & _ & Hs).
  exists view. split; [done|]. by eapply locals_verify_settles.
Qed.

(** C14: What the locals safety pass accepts is safe: from the entry, with the
    parameters holding values and the other locals none, along every path of the
    control flow, no instruction copies, moves or borrows a local that holds no
    value, none overwrites a value that cannot be dropped, and none returns while
    such a value is left; provided no block has two back edges. *)
Theorem locals_safety_sound {M} `{MeterLaws M} module idx fd fh cu view (m m' : M) abilities pc l i :
  Bounds.verify_module module = Ok () -> cm_function_defs module !! idx = Some fd -> fn_code fd = Some cu ->
  cm_function_handles module !! fn_function fd = Some fh -> (Z.of_nat (length (cu_code cu)) < 65536)%Z -> cu_code cu <> [] ->
  Cfg.function module idx cu fh = Ok view -> single_back_edge (fv_cfg view) -> verify (View.Module_ module) view m = Ok m' ->
  types_have (View.Module_ module) view abilities -> Reach view abilities pc l -> cu_code cu !! pc = Some i ->
  is_Some (local_step abilities l i).
Proof.
  intros Hv Hfd Hcu Hfh Hlen Hne Hview Hsingle Hok Habs Hr Hi.
  destruct (FunctionViews.function_sound _ _ _ _ _ Hv Hfd Hcu Hfh Hlen Hne) as (view' & order & Hf & <- & Hs).
  rewrite Hview in Hf. injection Hf as <-. by eapply verify_sound.
Qed.

(** A function with a loop. *)
Definition loop_code : list Bytecode :=
  [Bytecode.CopyLoc 0; Bytecode.Pop; Bytecode.LdU64 1; Bytecode.StLoc 0; Bytecode.LdTrue; Bytecode.BrTrue 0; Bytecode.Ret].

Lemma locals_safety_total_witness : exists view,
  Cfg.function (FunctionViews.one_function loop_code) 0 (FunctionViews.one_body loop_code) FunctionViews.one_handle = Ok view /\
  settles (verify (View.Module_ (FunctionViews.one_function loop_code)) view ()).
Proof.
  apply (locals_safety_total (FunctionViews.one_function loop_code) 0 (FunctionViews.one_definition loop_code)); vm_compute; congruence || reflexivity.
Defined.

Lemma locals_safety_sound_witness : is_Some (local_step [AbilitySet.PRIMITIVES] [true] (Bytecode.CopyLoc 0)).
Proof.
  apply (locals_safety_sound (FunctionViews.one_function loop_code) 0 (FunctionViews.one_definition loop_code) FunctionViews.one_handle
    (FunctionViews.one_body loop_code) (FunctionViews.view_of loop_code) () () [AbilitySet.PRIMITIVES] 0); try (vm_compute; congruence || reflexivity).
  - apply single_back_edgeb_sound. vm_compute. reflexivity.
  - apply (reach_entry (FunctionViews.view_of loop_code)).
Defined.

(** A path of the control flow, run on the locals. *)
Fixpoint run_path (code : list Bytecode) (abilities : list AbilitySet) (pc : nat) (l : list bool) (path : list nat) : option (nat * list bool) :=
  match path with
  | [] => Some (pc, l)
  | pc' :: r =>
    i ← code !! pc; l' ← local_step abilities l i;
    match Bytecode.get_successors pc code with
    | Ok succs => if bool_decide (pc' ∈ succs) then run_path code abilities pc' l' r else None
    | _ => None
    end
  end.

Lemma run_path_reach view abilities pc l path pc' l' :
  Reach view abilities pc l -> run_path (cu_code (fv_code view)) abilities pc l path = Some (pc', l') -> Reach view abilities pc' l'.
Proof.
  revert pc l. induction path as [|q r IH]; intros pc l Hr Hp; cbn in Hp; [by simplify_eq|].
  destruct (_ !! pc) as [i|] eqn:Hi; cbn in Hp; [|done]. destruct (local_step abilities l i) as [l2|] eqn:Hl; cbn in Hp; [|done].
  destruct (Bytecode.get_successors _ _) as [succs|e| |] eqn:Hs; try done. case_bool_decide; [|done].
  eapply IH; [|done]. by eapply reach_step.
Qed.

(** The block at 3 has two back edges, to 0 and to 9; the block at 0 reads the
    local that the block at 3 moves. *)
Definition two_back_edges (read : Bytecode) : list Bytecode :=
  [read; Bytecode.StLoc 0; Bytecode.Branch 9;
   Bytecode.LdU64 1; Bytecode.StLoc 0; Bytecode.MoveLoc 0; Bytecode.Pop; Bytecode.LdTrue; Bytecode.BrTrue 0;
   Bytecode.LdFalse; Bytecode.BrTrue 12; Bytecode.Branch 3; Bytecode.Ret].

(** C40: The locals safety pass is not sound without that proviso: when both back
    edges of a block change the precondition of their target, the interpreter
    goes back to one of the two targets only, and the other is never analyzed
    again. For a copy and for a move of a local it accepts a function of a
    bounds-checked module of which an execution comes to that instruction when the
    local holds no value. *)
Theorem locals_safety_unsound : Forall (fun read =>
  let module := FunctionViews.one_function (two_back_edges read) in
  let view := FunctionViews.view_of (two_back_edges read) in
  Bounds.verify_module module = Ok () /\
  Cfg.function module 0 (FunctionViews.one_body (two_back_edges read)) FunctionViews.one_handle = Ok view /\
  verify (View.Module_ module) view () = Ok () /\
  exists l, Reach view [AbilitySet.PRIMITIVES] 0 l /\ local_step [AbilitySet.PRIMITIVES] l read = None)
  [Bytecode.CopyLoc 0; Bytecode.MoveLoc 0].
Proof.
  repeat apply Forall_cons_2; [..|apply Forall_nil_2]; cbv zeta.
  all: split; [vm_compute; reflexivity|]; split; [apply FunctionViews.view_of_eq; vm_compute; reflexivity|].
  all: split; [vm_compute; reflexivity|]; exists [false]; split; [|reflexivity].
  all: eapply (run_path_reach _ _ 0 _ [1; 2; 9; 10; 11; 3; 4; 5; 6; 7; 8; 0]); [constructor|vm_compute; reflexivity].
Qed.
End LocalsSafety.
