(* ===== verification/MoveTypes.v ===== *)
(** The type safety pass of the Move verifier: type_safety.rs of
    external/move/move-bytecode-verifier.

    The pass runs every block on a stack of types instead of values; [MoveTyping]
    has the rules it implements. *)

From stdpp Require Import list.
From S2P Require Import Prelude MoveFormat MoveCfg MoveAbsint.

Module TypeSafety.
Import Cfg Meter SignatureToken.

Definition TYPE_NODE_COST : Z := 30.

(** ** Types *)

Definition materialize_type (struct_handle : nat) (type_args : Signature) : SignatureToken :=
  match type_args with [] => Struct struct_handle | _ => StructInstantiation struct_handle type_args end.

Fixpoint instantiate (token : SignatureToken) (subst : Signature) {struct token} : vm SignatureToken :=
  match subst with
  | [] => Ok token
  | _ =>
    match token with
    | Vector ty => ty ← instantiate ty subst; Ok (Vector ty)
    | StructInstantiation idx struct_type_args =>
      args ← vmap (fun ty => instantiate ty subst) struct_type_args; Ok (StructInstantiation idx args)
    | Reference ty => ty ← instantiate ty subst; Ok (Reference ty)
    | MutableReference ty => ty ← instantiate ty subst; Ok (MutableReference ty)
    | TypeParameter idx => _ ← assert (bool_decide (idx < length subst)); index subst idx
    | _ => Ok token
    end
  end.

Definition get_vector_element_type (vector_ref_ty : SignatureToken) (mut_ref_only : bool) : option SignatureToken :=
  match vector_ref_ty with
  | Reference referred_type =>
    if mut_ref_only then None else match referred_type with Vector element_type => Some element_type | _ => None end
  | MutableReference referred_type => match referred_type with Vector element_type => Some element_type | _ => None end
  | _ => None
  end.

(** [ST::MutableReference] or [ST::Reference]. *)
Definition ref_to (mut_ : bool) (ty : SignatureToken) : SignatureToken := if mut_ then MutableReference ty else Reference ty.

Section Checker.
Context {M : Type} `{Meter M} (resolver : BinaryIndexedView) (view : FunctionView).

Definition local_at (i : nat) : vm SignatureToken :=
  let param_count := length (fv_parameters view) in
  if bool_decide (i < param_count) then index (fv_parameters view) i else index (fv_locals view) (i - param_count).

Definition abilities (t : SignatureToken) : vm AbilitySet := View.abilities resolver t (fv_type_parameters view).

Definition error {A} (status : StatusCode) (offset : nat) : vm A :=
  Err (at_code_offset (error_new status) (default 0 (fv_index view)) offset).

Definition charge_ty (m : M) (ty : SignatureToken) : vm M :=
  add_items m Function_ TYPE_NODE_COST (length (preorder_traversal ty)).

Definition charge_tys (m : M) (tys : Signature) : vm M := vfold charge_ty tys m.

(** The stack, its top first, and the meter. *)
Notation state := (list SignatureToken * M)%type.

Definition push (s : state) (ty : SignatureToken) : vm state :=
  m ← charge_ty s.2 ty; Ok (ty :: s.1, m).

(** [safe_unwrap!(verifier.stack.pop())]. *)
Definition pop (s : state) : vm (SignatureToken * state) :=
  match s.1 with [] => Panicked | t :: r => Ok (t, (r, s.2)) end.

(** Pop an operand for each of [tys], the last first, and compare its type with
    that [f] makes of it. *)
Definition pop_matching (status : StatusCode) (offset : nat) (f : SignatureToken -> vm SignatureToken) (tys : Signature) (s : state) : vm state :=
  vfold (fun s ty =>
    '(arg, s) ← pop s;
    want ← f ty;
    if bool_decide (arg <> want) then error status offset else Ok s) (reverse tys) s.

Definition borrow_field (offset : nat) (mut_ : bool) (field_handle_index : nat) (type_args : Signature) (s : state) : vm state :=
  '(operand, s) ← pop s;
  if mut_ && negb (is_mutable_reference operand) then error StatusCode.BORROWFIELD_TYPE_MISMATCH_ERROR offset else
  field_handle ← View.field_handle_at resolver field_handle_index;
  struct_def ← View.struct_def_at resolver (fld_owner field_handle);
  let expected_type := materialize_type (sd_struct_handle struct_def) type_args in
  if match operand with Reference inner | MutableReference inner => negb (bool_decide (expected_type = inner)) | _ => true end
  then error StatusCode.BORROWFIELD_TYPE_MISMATCH_ERROR offset else
  field_def ← match field_information struct_def with
              | Native => error StatusCode.BORROWFIELD_BAD_FIELD_ERROR offset
              | Declared fields => index fields (fld_field field_handle)
              end;
  field_type ← instantiate (fd_signature field_def) type_args;
  push s (ref_to mut_ field_type).

Definition borrow_loc (offset : nat) (mut_ : bool) (idx : nat) (s : state) : vm state :=
  loc_signature ← local_at idx;
  if is_reference loc_signature then error StatusCode.BORROWLOC_REFERENCE_ERROR offset
  else push s (ref_to mut_ loc_signature).

Definition borrow_global (offset : nat) (mut_ : bool) (idx : nat) (type_args : Signature) (s : state) : vm state :=
  '(operand, s) ← pop s;
  if bool_decide (operand <> Address) then error StatusCode.BORROWGLOBAL_TYPE_MISMATCH_ERROR offset else
  struct_def ← View.struct_def_at resolver idx;
  let struct_type := materialize_type (sd_struct_handle struct_def) type_args in
  a ← abilities struct_type;
  if negb (AbilitySet.has_key a) then error StatusCode.BORROWGLOBAL_WITHOUT_KEY_ABILITY offset else
  push s (ref_to mut_ struct_type).

Definition call (offset : nat) (function_handle : FunctionHandle) (type_actuals : Signature) (s : state) : vm state :=
  parameters ← View.signature_at resolver (fh_parameters function_handle);
  s ← pop_matching StatusCode.CALL_TYPE_MISMATCH_ERROR offset (fun parameter => instantiate parameter type_actuals) parameters s;
  return_ ← View.signature_at resolver (fh_return function_handle);
  vfold (fun s return_type => ty ← instantiate return_type type_actuals; push s ty) return_ s.

Definition type_fields_signature (offset : nat) (struct_def : StructDefinition) (type_args : Signature) : vm Signature :=
  match field_information struct_def with
  | Native => error StatusCode.PACK_TYPE_MISMATCH_ERROR offset
  | Declared fields => vmap (fun field_def => instantiate (fd_signature field_def) type_args) fields
  end.

Definition pack (offset : nat) (struct_def : StructDefinition) (type_args : Signature) (s : state) : vm state :=
  let struct_type := materialize_type (sd_struct_handle struct_def) type_args in
  field_sig ← type_fields_signature offset struct_def type_args;
  s ← pop_matching StatusCode.PACK_TYPE_MISMATCH_ERROR offset Ok field_sig s;
  push s struct_type.

Definition unpack (offset : nat) (struct_def : StructDefinition) (type_args : Signature) (s : state) : vm state :=
  let struct_type := materialize_type (sd_struct_handle struct_def) type_args in
  '(arg, s) ← pop s;
  if bool_decide (arg <> struct_type) then error StatusCode.UNPACK_TYPE_MISMATCH_ERROR offset else
  field_sig ← type_fields_signature offset struct_def type_args;
  vfold push field_sig s.

Definition exists_ (offset : nat) (struct_def : StructDefinition) (type_args : Signature) (s : state) : vm state :=
  let struct_type := materialize_type (sd_struct_handle struct_def) type_args in
  a ← abilities struct_type;
  if negb (AbilitySet.has_key a) then error StatusCode.EXISTS_WITHOUT_KEY_ABILITY_OR_BAD_ARGUMENT offset else
  '(operand, s) ← pop s;
  if bool_decide (operand <> Address) then error StatusCode.EXISTS_WITHOUT_KEY_ABILITY_OR_BAD_ARGUMENT offset else
  push s Bool.

Definition move_from (offset : nat) (struct_def : StructDefinition) (type_args : Signature) (s : state) : vm state :=
  let struct_type := materialize_type (sd_struct_handle struct_def) type_args in
  a ← abilities struct_type;
  if negb (AbilitySet.has_key a) then error StatusCode.MOVEFROM_WITHOUT_KEY_ABILITY offset else
  '(operand, s) ← pop s;
  if bool_decide (operand <> Address) then error StatusCode.MOVEFROM_TYPE_MISMATCH_ERROR offset else
  push s struct_type.

Definition move_to (offset : nat) (struct_def : StructDefinition) (type_args : Signature) (s : state) : vm state :=
  let struct_type := materialize_type (sd_struct_handle struct_def) type_args in
  a ← abilities struct_type;
  if negb (AbilitySet.has_key a) then error StatusCode.MOVETO_WITHOUT_KEY_ABILITY offset else
  '(key_struct_operand, s) ← pop s;
  '(signer_reference_operand, s) ← pop s;
  if bool_decide (key_struct_operand <> struct_type) then error StatusCode.MOVETO_TYPE_MISMATCH_ERROR offset else
  match signer_reference_operand with
  | Reference inner => match inner with Signer => Ok s | _ => error StatusCode.MOVETO_TYPE_MISMATCH_ERROR offset end
  | _ => error StatusCode.MOVETO_TYPE_MISMATCH_ERROR offset
  end.

(** [Some(ty) if &ty == declared_element_type]. *)
Definition is_vector_ref (operand_vec : SignatureToken) (mut_ref_only : bool) (declared_element_type : SignatureToken) : bool :=
  match get_vector_element_type operand_vec mut_ref_only with
  | Some ty => bool_decide (ty = declared_element_type)
  | None => false
  end.

Definition borrow_vector_element (declared_element_type : SignatureToken) (offset : nat) (mut_ref_only : bool) (s : state) : vm state :=
  '(operand_idx, s) ← pop s;
  '(operand_vec, s) ← pop s;
  if bool_decide (operand_idx <> U64) then error StatusCode.TYPE_MISMATCH offset else
  if is_vector_ref operand_vec mut_ref_only declared_element_type
  then push s (ref_to mut_ref_only declared_element_type)
  else error StatusCode.TYPE_MISMATCH offset.

(** The element type a vector instruction names, [signature_at(idx).0[0]]. *)
Definition element_type (idx : nat) : vm SignatureToken :=
  sig ← View.signature_at resolver idx; index sig 0.

(** A cast to an integer type. *)
Definition cast (offset : nat) (ty : SignatureToken) (s : state) : vm state :=
  '(operand, s) ← pop s;
  if negb (is_integer operand) then error StatusCode.INTEGER_OP_TYPE_MISMATCH_ERROR offset else push s ty.

Definition verify_instr (s : state) (bytecode : Bytecode) (offset : nat) : vm state :=
  match bytecode with
  | Bytecode.Pop =>
    '(operand, s) ← pop s;
    a ← abilities operand;
    if negb (AbilitySet.has_drop a) then error StatusCode.POP_WITHOUT_DROP_ABILITY offset else Ok s
  | Bytecode.BrTrue _ | Bytecode.BrFalse _ =>
    '(operand, s) ← pop s;
    if bool_decide (operand <> Bool) then error StatusCode.BR_TYPE_MISMATCH_ERROR offset else Ok s
  | Bytecode.StLoc idx =>
    '(operand, s) ← pop s;
    l ← local_at idx;
    if bool_decide (operand <> l) then error StatusCode.STLOC_TYPE_MISMATCH_ERROR offset else Ok s
  | Bytecode.Abort =>
    '(operand, s) ← pop s;
    if bool_decide (operand <> U64) then error StatusCode.ABORT_TYPE_MISMATCH_ERROR offset else Ok s
  | Bytecode.Ret => pop_matching StatusCode.RET_TYPE_MISMATCH_ERROR offset Ok (fv_return view) s
  | Bytecode.Branch _ | Bytecode.Nop => Ok s
  | Bytecode.FreezeRef =>
    '(operand, s) ← pop s;
    match operand with
    | MutableReference inner => push s (Reference inner)
    | _ => error StatusCode.FREEZEREF_TYPE_MISMATCH_ERROR offset
    end
  | Bytecode.MutBorrowField field_handle_index => borrow_field offset true field_handle_index [] s
  | Bytecode.MutBorrowFieldGeneric field_inst_index =>
    field_inst ← View.field_instantiation_at resolver field_inst_index;
    type_inst ← View.signature_at resolver (fdi_type_parameters field_inst);
    m ← charge_tys s.2 type_inst;
    borrow_field offset true (fdi_handle field_inst) type_inst (s.1, m)
  | Bytecode.ImmBorrowField field_handle_index => borrow_field offset false field_handle_index [] s
  | Bytecode.ImmBorrowFieldGeneric field_inst_index =>
    field_inst ← View.field_instantiation_at resolver field_inst_index;
    type_inst ← View.signature_at resolver (fdi_type_parameters field_inst);
    m ← charge_tys s.2 type_inst;
    borrow_field offset false (fdi_handle field_inst) type_inst (s.1, m)
  | Bytecode.LdU8 _ => push s U8
  | Bytecode.LdU16 _ => push s U16
  | Bytecode.LdU32 _ => push s U32
  | Bytecode.LdU64 _ => push s U64
  | Bytecode.LdU128 _ => push s U128
  | Bytecode.LdU256 _ => push s U256
  | Bytecode.LdConst idx => c ← View.constant_at resolver idx; push s (const_type c)
  | Bytecode.LdTrue | Bytecode.LdFalse => push s Bool
  | Bytecode.CopyLoc idx =>
    local_signature ← local_at idx;
    a ← abilities local_signature;
    if negb (AbilitySet.has_copy a) then error StatusCode.COPYLOC_WITHOUT_COPY_ABILITY offset else push s local_signature
  | Bytecode.MoveLoc idx => local_signature ← local_at idx; push s local_signature
  | Bytecode.MutBorrowLoc idx => borrow_loc offset true idx s
  | Bytecode.ImmBorrowLoc idx => borrow_loc offset false idx s
  | Bytecode.Call idx => function_handle ← View.function_handle_at resolver idx; call offset function_handle [] s
  | Bytecode.CallGeneric idx =>
    func_inst ← View.function_instantiation_at resolver idx;
    func_handle ← View.function_handle_at resolver (fi_handle func_inst);
    type_args ← View.signature_at resolver (fi_type_parameters func_inst);
    m ← charge_tys s.2 type_args;
    call offset func_handle type_args (s.1, m)
  | Bytecode.Pack idx => struct_definition ← View.struct_def_at resolver idx; pack offset struct_definition [] s
  | Bytecode.PackGeneric idx =>
    struct_inst ← View.struct_instantiation_at resolver idx;
    struct_def ← View.struct_def_at resolver (si_def struct_inst);
    type_args ← View.signature_at resolver (si_type_parameters struct_inst);
    m ← charge_tys s.2 type_args;
    pack offset struct_def type_args (s.1, m)
  | Bytecode.Unpack idx => struct_definition ← View.struct_def_at resolver idx; unpack offset struct_definition [] s
  | Bytecode.UnpackGeneric idx =>
    struct_inst ← View.struct_instantiation_at resolver idx;
    struct_def ← View.struct_def_at resolver (si_def struct_inst);
    type_args ← View.signature_at resolver (si_type_parameters struct_inst);
    m ← charge_tys s.2 type_args;
    unpack offset struct_def type_args (s.1, m)
  | Bytecode.ReadRef =>
    '(operand, s) ← pop s;
    match operand with
    | Reference inner | MutableReference inner =>
      a ← abilities inner;
      if negb (AbilitySet.has_copy a) then error StatusCode.READREF_WITHOUT_COPY_ABILITY offset else push s inner
    | _ => error StatusCode.READREF_TYPE_MISMATCH_ERROR offset
    end
  | Bytecode.WriteRef =>
    '(ref_operand, s) ← pop s;
    '(val_operand, s) ← pop s;
    match ref_operand with
    | MutableReference ref_inner_signature =>
      a ← abilities ref_inner_signature;
      if negb (AbilitySet.has_drop a) then error StatusCode.WRITEREF_WITHOUT_DROP_ABILITY offset else
      if bool_decide (val_operand <> ref_inner_signature) then error StatusCode.WRITEREF_TYPE_MISMATCH_ERROR offset else Ok s
    | _ => error StatusCode.WRITEREF_NO_MUTABLE_REFERENCE_ERROR offset
    end
  | Bytecode.CastU8 => cast offset U8 s
  | Bytecode.CastU64 => cast offset U64 s
  | Bytecode.CastU128 => cast offset U128 s
  | Bytecode.Add | Bytecode.Sub | Bytecode.Mul | Bytecode.Mod | Bytecode.Div | Bytecode.BitOr | Bytecode.BitAnd | Bytecode.Xor =>
    '(operand1, s) ← pop s;
    '(operand2, s) ← pop s;
    if is_integer operand1 && bool_decide (operand1 = operand2) then push s operand1
    else error StatusCode.INTEGER_OP_TYPE_MISMATCH_ERROR offset
  | Bytecode.Shl | Bytecode.Shr =>
    '(operand1, s) ← pop s;
    '(operand2, s) ← pop s;
    if is_integer operand2 && bool_decide (operand1 = U8) then push s operand2
    else error StatusCode.INTEGER_OP_TYPE_MISMATCH_ERROR offset
  | Bytecode.Or | Bytecode.And =>
    '(operand1, s) ← pop s;
    '(operand2, s) ← pop s;
    if bool_decide (operand1 = Bool) && bool_decide (operand2 = Bool) then push s Bool
    else error StatusCode.BOOLEAN_OP_TYPE_MISMATCH_ERROR offset
  | Bytecode.Not =>
    '(operand, s) ← pop s;
    if bool_decide (operand = Bool) then push s Bool else error StatusCode.BOOLEAN_OP_TYPE_MISMATCH_ERROR offset
  | Bytecode.Eq | Bytecode.Neq =>
    '(operand1, s) ← pop s;
    '(operand2, s) ← pop s;
    a ← abilities operand1;
    if AbilitySet.has_drop a && bool_decide (operand1 = operand2) then push s Bool
    else error StatusCode.EQUALITY_OP_TYPE_MISMATCH_ERROR offset
  | Bytecode.Lt | Bytecode.Gt | Bytecode.Le | Bytecode.Ge =>
    '(operand1, s) ← pop s;
    '(operand2, s) ← pop s;
    if is_integer operand1 && bool_decide (operand1 = operand2) then push s Bool
    else error StatusCode.INTEGER_OP_TYPE_MISMATCH_ERROR offset
  | Bytecode.MutBorrowGlobal idx => borrow_global offset true idx [] s
  | Bytecode.MutBorrowGlobalGeneric idx =>
    struct_inst ← View.struct_instantiation_at resolver idx;
    type_inst ← View.signature_at resolver (si_type_parameters struct_inst);
    m ← charge_tys s.2 type_inst;
    borrow_global offset true (si_def struct_inst) type_inst (s.1, m)
  | Bytecode.ImmBorrowGlobal idx => borrow_global offset false idx [] s
  | Bytecode.ImmBorrowGlobalGeneric idx =>
    struct_inst ← View.struct_instantiation_at resolver idx;
    type_inst ← View.signature_at resolver (si_type_parameters struct_inst);
    m ← charge_tys s.2 type_inst;
    borrow_global offset false (si_def struct_inst) type_inst (s.1, m)
  | Bytecode.Exists idx => struct_def ← View.struct_def_at resolver idx; exists_ offset struct_def [] s
  | Bytecode.ExistsGeneric idx =>
    struct_inst ← View.struct_instantiation_at resolver idx;
    struct_def ← View.struct_def_at resolver (si_def struct_inst);
    type_args ← View.signature_at resolver (si_type_parameters struct_inst);
    m ← charge_tys s.2 type_args;
    exists_ offset struct_def type_args (s.1, m)
  | Bytecode.MoveFrom idx => struct_def ← View.struct_def_at resolver idx; move_from offset struct_def [] s
  | Bytecode.MoveFromGeneric idx =>
    struct_inst ← View.struct_instantiation_at resolver idx;
    struct_def ← View.struct_def_at resolver (si_def struct_inst);
    type_args ← View.signature_at resolver (si_type_parameters struct_inst);
    m ← charge_tys s.2 type_args;
    move_from offset struct_def type_args (s.1, m)
  | Bytecode.MoveTo idx => struct_def ← View.struct_def_at resolver idx; move_to offset struct_def [] s
  | Bytecode.MoveToGeneric idx =>
    struct_inst ← View.struct_instantiation_at resolver idx;
    struct_def ← View.struct_def_at resolver (si_def struct_inst);
    type_args ← View.signature_at resolver (si_type_parameters struct_inst);
    m ← charge_tys s.2 type_args;
    move_to offset struct_def type_args (s.1, m)
  | Bytecode.VecPack idx num =>
    element_type ← element_type idx;
    s ← pop_matching StatusCode.TYPE_MISMATCH offset Ok (replicate num element_type) s;
    Ok (Vector element_type :: s.1, s.2)
  | Bytecode.VecLen idx =>
    '(operand, s) ← pop s;
    declared_element_type ← element_type idx;
    if is_vector_ref operand false declared_element_type then push s U64 else error StatusCode.TYPE_MISMATCH offset
  | Bytecode.VecImmBorrow idx =>
    declared_element_type ← element_type idx; borrow_vector_element declared_element_type offset false s
  | Bytecode.VecMutBorrow idx =>
    declared_element_type ← element_type idx; borrow_vector_element declared_element_type offset true s
  | Bytecode.VecPushBack idx =>
    '(operand_elem, s) ← pop s;
    '(operand_vec, s) ← pop s;
    declared_element_type ← element_type idx;
    if bool_decide (declared_element_type <> operand_elem) then error StatusCode.TYPE_MISMATCH offset else
    if is_vector_ref operand_vec true declared_element_type then Ok s else error StatusCode.TYPE_MISMATCH offset
  | Bytecode.VecPopBack idx =>
    '(operand_vec, s) ← pop s;
    declared_element_type ← element_type idx;
    if is_vector_ref operand_vec true declared_element_type then push s declared_element_type else error StatusCode.TYPE_MISMATCH offset
  | Bytecode.VecUnpack idx num =>
    '(operand_vec, s) ← pop s;
    declared_element_type ← element_type idx;
    if bool_decide (operand_vec <> Vector declared_element_type) then error StatusCode.TYPE_MISMATCH offset else
    vfold push (replicate num declared_element_type) s
  | Bytecode.VecSwap idx =>
    '(operand_idx2, s) ← pop s;
    '(operand_idx1, s) ← pop s;
    '(operand_vec, s) ← pop s;
    if bool_decide (operand_idx1 <> U64) || bool_decide (operand_idx2 <> U64) then error StatusCode.TYPE_MISMATCH offset else
    declared_element_type ← element_type idx;
    if is_vector_ref operand_vec true declared_element_type then Ok s else error StatusCode.TYPE_MISMATCH offset
  | Bytecode.CastU16 => cast offset U16 s
  | Bytecode.CastU32 => cast offset U32 s
  | Bytecode.CastU256 => cast offset U256 s
  end.

(** One instruction of a block, and one block. *)
Definition verify_at (s : state) (offset : nat) : vm state :=
  instr ← index (cu_code (fv_code view)) offset; verify_instr s instr offset.

Definition verify_block (s : state) (block_id : nat) : vm state :=
  offsets ← instr_indexes (fv_cfg view) block_id; vfold verify_at offsets s.

Definition verify (m : M) : vm M :=
  s ← vfold verify_block (blocks (fv_cfg view)) ([], m); Ok s.2.
End Checker.
End TypeSafety.
