(* ===== verification/MoveTyping.v ===== *)
(** The typing rules of Move instructions, and what the type safety pass of
    [MoveTypes] makes of them.

    The rules are a relation between an instruction, the types on the stack
    before it and those after it. The pass accepts an instruction exactly when
    it has a rule. On a function that passed the checks of bounds, signatures,
    instructions and constants and that of stack usage the pass never meets an
    empty stack, a missing type argument or any other case it takes for
    impossible; and in a function it accepts the types on the stack depend on
    the instruction only, not on the path to it. *)

From stdpp Require Import list.
From S2P Require Import Prelude MoveFormat MoveBounds MoveCfg MoveSearch MoveFunction MoveSignatures MoveConsistency MoveStack MoveAbsint MoveTypes.

Module Typing.
Import Cfg Bounds Meter SignatureToken TypeSafety.

(** ** Typing rules *)

Section Rules.
Context (resolver : BinaryIndexedView) (view : FunctionView).

Notation has ability t := (exists a, abilities resolver view t = Ok a /\ AbilitySet.has_ability a ability = true).

(** Families of instructions with one rule. *)
Definition load_type (i : Bytecode) : option SignatureToken :=
  match i with
  | Bytecode.LdU8 _ => Some U8 | Bytecode.LdU16 _ => Some U16 | Bytecode.LdU32 _ => Some U32 | Bytecode.LdU64 _ => Some U64
  | Bytecode.LdU128 _ => Some U128 | Bytecode.LdU256 _ => Some U256 | Bytecode.LdTrue | Bytecode.LdFalse => Some Bool
  | _ => None
  end.

Definition cast_type (i : Bytecode) : option SignatureToken :=
  match i with
  | Bytecode.CastU8 => Some U8 | Bytecode.CastU16 => Some U16 | Bytecode.CastU32 => Some U32 | Bytecode.CastU64 => Some U64
  | Bytecode.CastU128 => Some U128 | Bytecode.CastU256 => Some U256
  | _ => None
  end.

Definition is_arithmetic (i : Bytecode) : bool :=
  match i with
  | Bytecode.Add | Bytecode.Sub | Bytecode.Mul | Bytecode.Mod | Bytecode.Div | Bytecode.BitOr | Bytecode.BitAnd | Bytecode.Xor => true
  | _ => false
  end.

Definition is_comparison (i : Bytecode) : bool :=
  match i with Bytecode.Lt | Bytecode.Gt | Bytecode.Le | Bytecode.Ge => true | _ => false end.

(** What an instruction does with a structure. *)
Inductive StructOp := OpPack | OpUnpack | OpExists | OpMoveFrom | OpMoveTo | OpBorrowGlobal (mut_ : bool).

(** The type arguments at a signature. *)
Definition generic (idx args : nat) : vm (nat * Signature) := ts ← View.signature_at resolver args; Ok (idx, ts).

(** The definition and the type arguments an instruction names. *)
Definition struct_instance (idx : nat) : vm (nat * Signature) :=
  si ← View.struct_instantiation_at resolver idx; generic (si_def si) (si_type_parameters si).

Definition struct_operand (i : Bytecode) : option (StructOp * vm (nat * Signature)) :=
  match i with
  | Bytecode.Pack idx => Some (OpPack, Ok (idx, [])) | Bytecode.PackGeneric idx => Some (OpPack, struct_instance idx)
  | Bytecode.Unpack idx => Some (OpUnpack, Ok (idx, [])) | Bytecode.UnpackGeneric idx => Some (OpUnpack, struct_instance idx)
  | Bytecode.Exists idx => Some (OpExists, Ok (idx, [])) | Bytecode.ExistsGeneric idx => Some (OpExists, struct_instance idx)
  | Bytecode.MoveFrom idx => Some (OpMoveFrom, Ok (idx, [])) | Bytecode.MoveFromGeneric idx => Some (OpMoveFrom, struct_instance idx)
  | Bytecode.MoveTo idx => Some (OpMoveTo, Ok (idx, [])) | Bytecode.MoveToGeneric idx => Some (OpMoveTo, struct_instance idx)
  | Bytecode.MutBorrowGlobal idx => Some (OpBorrowGlobal true, Ok (idx, []))
  | Bytecode.MutBorrowGlobalGeneric idx => Some (OpBorrowGlobal true, struct_instance idx)
  | Bytecode.ImmBorrowGlobal idx => Some (OpBorrowGlobal false, Ok (idx, []))
  | Bytecode.ImmBorrowGlobalGeneric idx => Some (OpBorrowGlobal false, struct_instance idx)
  | _ => None
  end.

Definition field_instance (idx : nat) : vm (nat * Signature) :=
  fi ← View.field_instantiation_at resolver idx; generic (fdi_handle fi) (fdi_type_parameters fi).

Definition field_operand (i : Bytecode) : option (bool * vm (nat * Signature)) :=
  match i with
  | Bytecode.MutBorrowField idx => Some (true, Ok (idx, [])) | Bytecode.MutBorrowFieldGeneric idx => Some (true, field_instance idx)
  | Bytecode.ImmBorrowField idx => Some (false, Ok (idx, [])) | Bytecode.ImmBorrowFieldGeneric idx => Some (false, field_instance idx)
  | _ => None
  end.

Definition call_operand (i : Bytecode) : option (vm (nat * Signature)) :=
  match i with
  | Bytecode.Call idx => Some (Ok (idx, []))
  | Bytecode.CallGeneric idx => Some (fi ← View.function_instantiation_at resolver idx; generic (fi_handle fi) (fi_type_parameters fi))
  | _ => None
  end.

(** The types of parameters, results or fields under type arguments. *)
Definition instances (args tys tys' : Signature) : Prop := Forall2 (fun ty ty' => instantiate ty args = Ok ty') tys tys'.

Definition field_types (sd : StructDefinition) (args tys : Signature) : Prop :=
  exists fields, field_information sd = Declared fields /\ instances args (map fd_signature fields) tys.

(** [StructTyped op ty sd args st st']: the rule of [op] for the structure [sd] under
    the type arguments [args], whose type is [ty]. *)
Inductive StructTyped : StructOp -> SignatureToken -> StructDefinition -> Signature -> Signature -> Signature -> Prop :=
| typed_pack ty sd args tys st : field_types sd args tys -> StructTyped OpPack ty sd args (reverse tys ++ st) (ty :: st)
| typed_unpack ty sd args tys st : field_types sd args tys -> StructTyped OpUnpack ty sd args (ty :: st) (reverse tys ++ st)
| typed_exists ty sd args st : has Ability.Key ty -> StructTyped OpExists ty sd args (Address :: st) (Bool :: st)
| typed_move_from ty sd args st : has Ability.Key ty -> StructTyped OpMoveFrom ty sd args (Address :: st) (ty :: st)
| typed_move_to ty sd args st : has Ability.Key ty -> StructTyped OpMoveTo ty sd args (ty :: Reference Signer :: st) st
| typed_borrow_global ty sd args mut_ st : has Ability.Key ty -> StructTyped (OpBorrowGlobal mut_) ty sd args (Address :: st) (ref_to mut_ ty :: st).

(** [Typed i st st']: on a stack of types [st], its top first, the instruction
    [i] leaves [st']. *)
Inductive Typed : Bytecode -> Signature -> Signature -> Prop :=
| typed_pop t st : has Ability.Drop t -> Typed Bytecode.Pop (t :: st) st
| typed_br_true o st : Typed (Bytecode.BrTrue o) (Bool :: st) st
| typed_br_false o st : Typed (Bytecode.BrFalse o) (Bool :: st) st
| typed_st_loc idx t st : local_at view idx = Ok t -> Typed (Bytecode.StLoc idx) (t :: st) st
| typed_abort st : Typed Bytecode.Abort (U64 :: st) st
| typed_ret st : Typed Bytecode.Ret (reverse (fv_return view) ++ st) st
| typed_branch o st : Typed (Bytecode.Branch o) st st
| typed_nop st : Typed Bytecode.Nop st st
| typed_freeze t st : Typed Bytecode.FreezeRef (MutableReference t :: st) (Reference t :: st)
| typed_load i t st : load_type i = Some t -> Typed i st (t :: st)
| typed_const idx c st : View.constant_at resolver idx = Ok c -> Typed (Bytecode.LdConst idx) st (const_type c :: st)
| typed_copy_loc idx t st : local_at view idx = Ok t -> has Ability.Copy t -> Typed (Bytecode.CopyLoc idx) st (t :: st)
| typed_move_loc idx t st : local_at view idx = Ok t -> Typed (Bytecode.MoveLoc idx) st (t :: st)
| typed_mut_borrow_loc idx t st : local_at view idx = Ok t -> is_reference t = false -> Typed (Bytecode.MutBorrowLoc idx) st (MutableReference t :: st)
| typed_imm_borrow_loc idx t st : local_at view idx = Ok t -> is_reference t = false -> Typed (Bytecode.ImmBorrowLoc idx) st (Reference t :: st)
| typed_borrow_field i mut_ r idx args fh sd fields fd ty st (held : bool) :
    field_operand i = Some (mut_, r) -> r = Ok (idx, args) -> View.field_handle_at resolver idx = Ok fh ->
    View.struct_def_at resolver (fld_owner fh) = Ok sd -> field_information sd = Declared fields -> fields !! fld_field fh = Some fd ->
    instantiate (fd_signature fd) args = Ok ty -> implb mut_ held = true ->
    Typed i (ref_to held (materialize_type (sd_struct_handle sd) args) :: st) (ref_to mut_ ty :: st)
| typed_call i r idx args fh params rets ps rs st :
    call_operand i = Some r -> r = Ok (idx, args) -> View.function_handle_at resolver idx = Ok fh ->
    View.signature_at resolver (fh_parameters fh) = Ok params -> View.signature_at resolver (fh_return fh) = Ok rets ->
    instances args params ps -> instances args rets rs -> Typed i (reverse ps ++ st) (reverse rs ++ st)
| typed_struct i op r def args sd st st' :
    struct_operand i = Some (op, r) -> r = Ok (def, args) -> View.struct_def_at resolver def = Ok sd ->
    StructTyped op (materialize_type (sd_struct_handle sd) args) sd args st st' -> Typed i st st'
| typed_read_ref held t st : has Ability.Copy t -> Typed Bytecode.ReadRef (ref_to held t :: st) (t :: st)
| typed_write_ref t st : has Ability.Drop t -> Typed Bytecode.WriteRef (MutableReference t :: t :: st) st
| typed_cast i t t' st : cast_type i = Some t' -> is_integer t = true -> Typed i (t :: st) (t' :: st)
| typed_arithmetic i t st : is_arithmetic i = true -> is_integer t = true -> Typed i (t :: t :: st) (t :: st)
| typed_shl t st : is_integer t = true -> Typed Bytecode.Shl (U8 :: t :: st) (t :: st)
| typed_shr t st : is_integer t = true -> Typed Bytecode.Shr (U8 :: t :: st) (t :: st)
| typed_or st : Typed Bytecode.Or (Bool :: Bool :: st) (Bool :: st)
| typed_and st : Typed Bytecode.And (Bool :: Bool :: st) (Bool :: st)
| typed_not st : Typed Bytecode.Not (Bool :: st) (Bool :: st)
| typed_eq t st : has Ability.Drop t -> Typed Bytecode.Eq (t :: t :: st) (Bool :: st)
| typed_neq t st : has Ability.Drop t -> Typed Bytecode.Neq (t :: t :: st) (Bool :: st)
| typed_comparison i t st : is_comparison i = true -> is_integer t = true -> Typed i (t :: t :: st) (Bool :: st)
| typed_vec_pack idx num t st : element_type resolver idx = Ok t -> Typed (Bytecode.VecPack idx num) (replicate num t ++ st) (Vector t :: st)
| typed_vec_len idx held t st : element_type resolver idx = Ok t -> Typed (Bytecode.VecLen idx) (ref_to held (Vector t) :: st) (U64 :: st)
| typed_vec_imm_borrow idx held t st :
    element_type resolver idx = Ok t -> Typed (Bytecode.VecImmBorrow idx) (U64 :: ref_to held (Vector t) :: st) (Reference t :: st)
| typed_vec_mut_borrow idx t st :
    element_type resolver idx = Ok t -> Typed (Bytecode.VecMutBorrow idx) (U64 :: MutableReference (Vector t) :: st) (MutableReference t :: st)
| typed_vec_push_back idx t st : element_type resolver idx = Ok t -> Typed (Bytecode.VecPushBack idx) (t :: MutableReference (Vector t) :: st) st
| typed_vec_pop_back idx t st : element_type resolver idx = Ok t -> Typed (Bytecode.VecPopBack idx) (MutableReference (Vector t) :: st) (t :: st)
| typed_vec_unpack idx num t st : element_type resolver idx = Ok t -> Typed (Bytecode.VecUnpack idx num) (Vector t :: st) (replicate num t ++ st)
| typed_vec_swap idx t st : element_type resolver idx = Ok t -> Typed (Bytecode.VecSwap idx) (U64 :: U64 :: MutableReference (Vector t) :: st) st.
End Rules.

(** ** The pass follows the rules *)

Section Accepts.
Context {M : Type} `{Meter M} (resolver : BinaryIndexedView) (view : FunctionView).
Notation state := (list SignatureToken * M)%type.

Lemma neq_false (x y : SignatureToken) : bool_decide (x <> y) = false -> x = y.
Proof. rewrite bool_decide_eq_false. apply dec_stable. Qed.

Lemma pop_Ok (s s' : state) t : pop s = Ok (t, s') -> s.1 = t :: s'.1.
Proof. destruct s as [[|x r] m]; cbn; [done|]. by intros [= <- <-]. Qed.

Lemma push_Ok (s s' : state) ty : push s ty = Ok s' -> s'.1 = ty :: s.1.
Proof. unfold push. intros Hp. vm_inv. by subst. Qed.

Lemma pushes_Ok tys (s s' : state) : vfold push tys s = Ok s' -> s'.1 = reverse tys ++ s.1.
Proof.
  revert s. induction tys as [|ty r IH]; intros s Hv; cbn in Hv; vm_inv; [by subst|].
  apply IH in Hv. apply push_Ok in Hv0. by rewrite Hv, Hv0, reverse_cons, <- app_assoc.
Qed.

Lemma pop_matching_Ok status offset f tys (s s' : state) :
  pop_matching view status offset f tys s = Ok s' -> exists ps, Forall2 (fun x y => f x = Ok y) tys ps /\ s.1 = reverse ps ++ s'.1.
Proof.
  unfold pop_matching. intros Hv.
  assert (exists qs, Forall2 (fun x y => f x = Ok y) (reverse tys) qs /\ s.1 = qs ++ s'.1) as (qs & Hqs & Hs).
  { revert s Hv. induction (reverse tys) as [|ty r IH]; intros s Hv; cbn in Hv; vm_inv; [exists []; subst; by split|].
    destruct v0 as [arg s1]. apply pop_Ok in Hv1. apply vm_bind_Ok in Hv0 as (want & Hf & Hv0).
    destruct (bool_decide (arg <> want)) eqn:Hne; [done|]. apply neq_false in Hne as <-. injection Hv0 as <-.
    destruct (IH _ Hv) as (qs & Hqs & Hs). exists (arg :: qs). split; [by constructor|]. by rewrite Hv1, Hs. }
  exists (reverse qs). rewrite reverse_involutive. split; [|done]. apply Forall2_reverse in Hqs. by rewrite reverse_involutive in Hqs.
Qed.

Lemma is_vector_ref_true t mut_ elem : is_vector_ref t mut_ elem = true -> exists held, t = ref_to held (Vector elem) /\ implb mut_ held = true.
Proof.
  unfold is_vector_ref, get_vector_element_type. intros Hv. repeat case_match; simplify_eq; apply bool_decide_eq_true in Hv; subst.
  - by exists false.
  - exists true. by destruct mut_.
Qed.

Lemma Forall2_Ok (l k : Signature) : Forall2 (fun x y => Ok x = Ok y) l k -> l = k.
Proof. induction 1 as [|x y l k Hxy _ ->]; [done|]. by injection Hxy as ->. Qed.
End Accepts.

(** Read off what an accepting run found. *)
Ltac accept_inv :=
  repeat match goal with
  | H : (_ ≫= _) = Ok _ |- _ => apply vm_bind_Ok in H as (? & ? & H)
  | H : pop _ = Ok ?x |- _ => destruct x; apply pop_Ok in H
  | H : push _ _ = Ok _ |- _ => apply push_Ok in H
  | H : error _ _ _ = Ok _ |- _ => discriminate H
  | H : Ok _ = Ok _ |- _ => injection H as <-
  | H : (if ?b then _ else _) = Ok _ |- _ => destruct b eqn:?
  | H : bool_decide (_ <> _) = false |- _ => apply neq_false in H
  | H : bool_decide (_ = _) = true |- _ => apply bool_decide_eq_true in H
  | H : negb _ = false |- _ => apply negb_false_iff in H
  | H : _ && _ = true |- _ => apply andb_true_iff in H as [? ?]
  | H : _ || _ = false |- _ => apply orb_false_iff in H as [? ?]
  | H : is_vector_ref _ _ _ = true |- _ => apply is_vector_ref_true in H as (? & ? & ?)
  end.

Lemma generic_Ok resolver idx args p : generic resolver idx args = Ok p -> exists ts, View.signature_at resolver args = Ok ts /\ p = (idx, ts).
Proof. unfold generic. intros Hg. vm_inv. eauto. Qed.

(** What an instruction names, found by the pass. *)
Ltac named_lookup :=
  match goal with Hr : ?r = Ok (_, _) |- _ => is_var r; subst r end;
  cbn [struct_operand field_operand call_operand] in *; simplify_eq; unfold struct_instance, field_instance in *;
  try match goal with Hr : (_ ≫= _) = Ok (_, _) |- _ =>
    apply vm_bind_Ok in Hr as (? & ? & Hr); apply generic_Ok in Hr as (? & ? & Hr); injection Hr as -> ->
  end; cbn [verify_instr].

Section Forward.
Context {M : Type} `{Meter M} (resolver : BinaryIndexedView) (view : FunctionView).
Notation state := (list SignatureToken * M)%type.

Lemma borrow_field_typed i mut_ r idx args offset (s s' : state) :
  field_operand resolver i = Some (mut_, r) -> r = Ok (idx, args) -> borrow_field resolver view offset mut_ idx args s = Ok s' ->
  Typed resolver view i s.1 s'.1.
Proof.
  intros Hi Hr Hv. unfold borrow_field in Hv. accept_inv.
  destruct (field_information _) as [|fields] eqn:Hf; [done|]. rewrite index_Ok in *.
  match goal with Hp : s.1 = ?t :: _, Hq : s'.1 = _ |- _ => rewrite Hp, Hq; rename t into t0 end.
  assert (exists held, t0 = ref_to held (materialize_type (sd_struct_handle x0) args) /\ implb mut_ held = true) as (held & -> & Hheld).
  { destruct t0; try done; accept_inv; [exists false|exists true]; subst; (split; [done|]); by destruct mut_. }
  by eapply typed_borrow_field.
Qed.

Lemma call_typed i r idx args fh offset (s s' : state) :
  call_operand resolver i = Some r -> r = Ok (idx, args) -> View.function_handle_at resolver idx = Ok fh ->
  call resolver view offset fh args s = Ok s' -> Typed resolver view i s.1 s'.1.
Proof.
  intros Hi Hr Hfh Hv. unfold call in Hv. apply vm_bind_Ok in Hv as (params & Hp & Hv). apply vm_bind_Ok in Hv as (s1 & Hm & Hv).
  apply vm_bind_Ok in Hv as (rets & Hrets & Hv). apply pop_matching_Ok in Hm as (ps & Hps & ->).
  assert (exists rs, instances args rets rs /\ s'.1 = reverse rs ++ s1.1) as (rs & Hrs & ->).
  { clear Hrets. revert s1 Hv. induction rets as [|ty r' IH]; intros s1 Hv; cbn in Hv; accept_inv; [exists []; by split; [constructor|]|].
    destruct (IH _ Hv) as (rs & Hrs & ->). exists (x0 :: rs). split; [by constructor|].
    match goal with Hq : x.1 = _ |- _ => rewrite Hq end. by rewrite reverse_cons, <- app_assoc. }
  by eapply typed_call.
Qed.

Lemma type_fields_Ok offset sd args tys : type_fields_signature view offset sd args = Ok tys -> field_types sd args tys.
Proof.
  unfold type_fields_signature, field_types. destruct (field_information sd) as [|fields]; [done|]. rewrite vmap_Ok. intros Hv.
  exists fields. split; [done|]. unfold instances. by rewrite Forall2_fmap_l.
Qed.

Lemma struct_typed_op op def args sd offset (s s' : state) :
  View.struct_def_at resolver def = Ok sd ->
  match op with
  | OpPack => pack view offset sd args s
  | OpUnpack => unpack view offset sd args s
  | OpExists => exists_ resolver view offset sd args s
  | OpMoveFrom => move_from resolver view offset sd args s
  | OpMoveTo => move_to resolver view offset sd args s
  | OpBorrowGlobal mut_ => borrow_global resolver view offset mut_ def args s
  end = Ok s' ->
  StructTyped resolver view op (materialize_type (sd_struct_handle sd) args) sd args s.1 s'.1.
Proof.
  intros Hsd Hv. destruct op; [unfold pack in Hv|unfold unpack in Hv|unfold exists_ in Hv|unfold move_from in Hv|unfold move_to in Hv|unfold borrow_global in Hv];
    accept_inv.
  - match goal with Hm : pop_matching _ _ _ _ _ _ = Ok _ |- _ => apply pop_matching_Ok in Hm as (ps & <-%Forall2_Ok & ->) end.
    match goal with Hq : s'.1 = _ |- _ => rewrite Hq end. constructor. by eapply type_fields_Ok.
  - apply pushes_Ok in Hv as ->. match goal with Hq : s.1 = _ |- _ => rewrite Hq end. subst. constructor. by eapply type_fields_Ok.
  - repeat match goal with Hq : _.1 = _ |- _ => rewrite Hq; clear Hq end. subst. constructor. eauto.
  - repeat match goal with Hq : _.1 = _ |- _ => rewrite Hq; clear Hq end. subst. constructor. eauto.
  - destruct s1; try done. destruct s1; try done. accept_inv. repeat match goal with Hq : _.1 = _ |- _ => rewrite Hq; clear Hq end. subst. constructor. eauto.
  - repeat match goal with Hq : _.1 = _ |- _ => rewrite Hq; clear Hq end. subst.
    match goal with H1 : View.struct_def_at _ _ = Ok ?x |- _ => rewrite Hsd in H1; injection H1 as <- end. constructor. eauto.
Qed.

Lemma struct_instance_Ok idx si ts : View.struct_instantiation_at resolver idx = Ok si -> View.signature_at resolver (si_type_parameters si) = Ok ts ->
  struct_instance resolver idx = Ok (si_def si, ts).
Proof. intros Hs Ht. unfold struct_instance, generic. rewrite Hs. vm_cbn. by rewrite Ht. Qed.

Lemma field_instance_Ok idx fi ts : View.field_instantiation_at resolver idx = Ok fi -> View.signature_at resolver (fdi_type_parameters fi) = Ok ts ->
  field_instance resolver idx = Ok (fdi_handle fi, ts).
Proof. intros Hs Ht. unfold field_instance, generic. rewrite Hs. vm_cbn. by rewrite Ht. Qed.

Lemma borrow_global_typed i mut_ r def args offset (s s' : state) :
  struct_operand resolver i = Some (OpBorrowGlobal mut_, r) -> r = Ok (def, args) -> borrow_global resolver view offset mut_ def args s = Ok s' ->
  Typed resolver view i s.1 s'.1.
Proof.
  intros Hi Hr Hv. assert (exists sd, View.struct_def_at resolver def = Ok sd) as [sd Hsd] by (unfold borrow_global in Hv; accept_inv; eauto).
  eapply typed_struct; [done..|]. by eapply (struct_typed_op (OpBorrowGlobal mut_)).
Qed.

Lemma call_instance_Ok idx fi ts : View.function_instantiation_at resolver idx = Ok fi -> View.signature_at resolver (fi_type_parameters fi) = Ok ts ->
  (fi ← View.function_instantiation_at resolver idx; generic resolver (fi_handle fi) (fi_type_parameters fi)) = Ok (fi_handle fi, ts).
Proof. intros Hs Ht. unfold generic. rewrite Hs. vm_cbn. by rewrite Ht. Qed.

(** The cases of an instruction that names a structure, a field or a function. *)
Ltac named_struct op sd args st :=
  eapply (typed_struct _ _ _ op _ _ args sd); [reflexivity| |eassumption|eapply (struct_typed_op op _ args sd _ st); eassumption].

Ltac named_operand :=
  match goal with
  | Hv : pack _ _ ?sd ?args ?st = Ok _ |- _ => named_struct OpPack sd args st
  | Hv : unpack _ _ ?sd ?args ?st = Ok _ |- _ => named_struct OpUnpack sd args st
  | Hv : exists_ _ _ _ ?sd ?args ?st = Ok _ |- _ => named_struct OpExists sd args st
  | Hv : move_from _ _ _ ?sd ?args ?st = Ok _ |- _ => named_struct OpMoveFrom sd args st
  | Hv : move_to _ _ _ ?sd ?args ?st = Ok _ |- _ => named_struct OpMoveTo sd args st
  | Hv : borrow_field _ _ _ _ _ _ ?st = Ok _ |- _ => eapply (borrow_field_typed _ _ _ _ _ _ st); [reflexivity| |exact Hv]
  | Hv : borrow_global _ _ _ _ _ _ ?st = Ok _ |- _ => eapply (borrow_global_typed _ _ _ _ _ _ st); [reflexivity| |exact Hv]
  | Hv : call _ _ _ _ _ ?st = Ok _ |- _ => eapply (call_typed _ _ _ _ _ _ st); [reflexivity| |eassumption|exact Hv]
  end.

(** Whatever the pass accepts follows a rule. *)
Lemma verify_instr_typed i offset (s s' : state) : verify_instr resolver view s i offset = Ok s' -> Typed resolver view i s.1 s'.1.
Proof.
  intros Hv. destruct i; cbn [verify_instr] in Hv.
  all: try (unfold borrow_loc, cast, borrow_vector_element in Hv; accept_inv; repeat case_match; simplify_eq; accept_inv;
    repeat match goal with Hq : _.1 = _ |- _ => rewrite Hq; clear Hq end; subst;
    solve [econstructor; eauto; done
          |by eapply (typed_read_ref _ _ false); eauto|by eapply (typed_read_ref _ _ true); eauto]).
  all: try (accept_inv; named_operand; first [reflexivity|by apply struct_instance_Ok|by apply field_instance_Ok|by apply call_instance_Ok]).
  all: try (unfold borrow_vector_element in Hv; accept_inv;
    match goal with Hh : implb true ?held = true |- _ => destruct held; [|done] end;
    repeat match goal with Hq : _.1 = _ |- _ => rewrite Hq; clear Hq end; subst; by constructor).
  - apply pop_matching_Ok in Hv as (ps & <-%Forall2_Ok & ->). constructor.
  - accept_inv. match goal with Hm : pop_matching _ _ _ _ _ _ = Ok _ |- _ => apply pop_matching_Ok in Hm as (ps & <-%Forall2_Ok & ->) end.
    rewrite reverse_replicate. by constructor.
  - accept_inv. apply pushes_Ok in Hv as ->. repeat match goal with Hq : _.1 = _ |- _ => rewrite Hq; clear Hq end. subst.
    rewrite reverse_replicate. by constructor.
Qed.
End Forward.

(** ** The rules are accepted *)

(** A meter that refuses nothing, like [DummyMeter]. *)
Section Backward.
Context {M : Type} `{Meter M} (Hfree : forall m sc u, exists m' : M, meter_add m sc u = Ok m').
Context (resolver : BinaryIndexedView) (view : FunctionView).

Lemma charge_free (m : M) ty : exists m', charge_ty m ty = Ok m'.
Proof. unfold charge_ty, add_items. case_bool_decide; [by eexists|]. apply Hfree. Qed.

Lemma charges_free tys (m : M) : exists m', charge_tys m tys = Ok m'.
Proof.
  unfold charge_tys. revert m. induction tys as [|ty r IH]; intros m; cbn; [by eexists|].
  destruct (charge_free m ty) as [m1 ->]. apply IH.
Qed.

Lemma push_free st (m : M) ty : exists m', push (st, m) ty = Ok (ty :: st, m').
Proof. unfold push. cbn. destruct (charge_free m ty) as [m1 ->]. by eexists. Qed.

Lemma pushes_free tys st (m : M) : exists m', vfold push tys (st, m) = Ok (reverse tys ++ st, m').
Proof.
  revert st m. induction tys as [|ty r IH]; intros st m; cbn [vfold]; [by eexists|]. destruct (push_free st m ty) as [m1 ->]. vm_cbn.
  destruct (IH (ty :: st) m1) as [m2 ->]. exists m2. by rewrite reverse_cons, <- app_assoc.
Qed.

Lemma pop_matching_free status offset f tys ps st (m : M) :
  Forall2 (fun x y => f x = Ok y) tys ps -> pop_matching view status offset f tys (reverse ps ++ st, m) = Ok (st, m).
Proof.
  intros Hf%Forall2_reverse. unfold pop_matching. revert Hf. generalize (reverse tys) as l. generalize (reverse ps) as k. intros k l.
  induction 1 as [|x y l k Hxy _ IH]; cbn; [done|]. rewrite Hxy. vm_cbn. by rewrite bool_decide_false by auto.
Qed.

Lemma pop_same status offset tys st (m : M) : pop_matching view status offset Ok tys (reverse tys ++ st, m) = Ok (st, m).
Proof. apply pop_matching_free. apply Forall2_same_length_lookup. split; [done|]. intros. congruence. Qed.

Lemma pop_replicate status offset n t st (m : M) : pop_matching view status offset Ok (replicate n t) (replicate n t ++ st, m) = Ok (st, m).
Proof. pose proof (pop_same status offset (replicate n t) st m) as Hp. by rewrite reverse_replicate in Hp. Qed.

Lemma push_replicate n t st (m : M) : exists m', vfold push (replicate n t) (st, m) = Ok (replicate n t ++ st, m').
Proof. pose proof (pushes_free (replicate n t) st m) as Hp. by rewrite reverse_replicate in Hp. Qed.

Lemma call_returns_free args rets rs st (m : M) :
  instances args rets rs -> exists m', vfold (fun s return_type => ty ← instantiate return_type args; push s ty) rets (st, m) = Ok (reverse rs ++ st, m').
Proof.
  intros Hr. revert st m. induction Hr as [|x y l k Hxy _ IH]; intros st m; cbn [vfold]; [by eexists|]. rewrite Hxy. vm_cbn.
  destruct (push_free st m y) as [m1 ->]. vm_cbn. destruct (IH (y :: st) m1) as [m2 ->]. exists m2. by rewrite reverse_cons, <- app_assoc.
Qed.

Lemma is_vector_ref_back mut_ held t : implb mut_ held = true -> is_vector_ref (ref_to held (Vector t)) mut_ t = true.
Proof. intros Hh. destruct mut_, held; try done; cbn; unfold is_vector_ref; cbn; by apply bool_decide_true. Qed.

Lemma is_vector_ref_mut mut_ t : is_vector_ref (MutableReference (Vector t)) mut_ t = true.
Proof. apply (is_vector_ref_back mut_ true). by destruct mut_. Qed.

Lemma fields_back offset sd args tys : field_types sd args tys -> type_fields_signature view offset sd args = Ok tys.
Proof.
  intros (fields & Hf & Hi). unfold type_fields_signature. rewrite Hf. apply vmap_Ok. unfold instances in Hi. by rewrite Forall2_fmap_l in Hi.
Qed.

(** Run the pass through the facts a rule provides. *)
Ltac drive :=
  repeat first
  [ progress cbn [mbind vm_bind fst snd]
  | match goal with
    | |- context [pop (?t :: ?r, ?m)] => change (pop (t :: r, m)) with (Ok (t, (r, m)))
    | Hx : ?e = Ok _ |- context [?e] => rewrite Hx
    | Hx : ?b = true |- context [?b] => rewrite Hx
    | Hx : is_reference _ = false |- _ => rewrite Hx; clear Hx
    | |- context [charge_tys ?m ?tys] => let m' := fresh "m" in let Hm := fresh "Hm" in destruct (charges_free tys m) as [m' Hm]; rewrite Hm; clear Hm
    | |- context [bool_decide (?x <> ?x)] => rewrite (bool_decide_false (x <> x)) by auto
    | |- context [bool_decide (?x = ?x)] => rewrite (bool_decide_true (x = x)) by done
    | |- context [is_vector_ref (ref_to ?h (Vector ?t)) ?mu ?t] => rewrite (is_vector_ref_back mu h t) by done
    | |- context [is_vector_ref (MutableReference (Vector ?t)) ?mu ?t] => rewrite (is_vector_ref_mut mu t)
    | |- exists m', push (_, _) _ = Ok (_, m') => apply push_free
    | |- exists m', Ok (?st, ?m) = Ok (_, m') => by exists m
    end
  | progress cbn [negb andb orb] ].

Lemma struct_typed_back op def args sd offset st st' (m : M) :
  View.struct_def_at resolver def = Ok sd -> StructTyped resolver view op (materialize_type (sd_struct_handle sd) args) sd args st st' ->
  exists m', match op with
  | OpPack => pack view offset sd args (st, m)
  | OpUnpack => unpack view offset sd args (st, m)
  | OpExists => exists_ resolver view offset sd args (st, m)
  | OpMoveFrom => move_from resolver view offset sd args (st, m)
  | OpMoveTo => move_to resolver view offset sd args (st, m)
  | OpBorrowGlobal mut_ => borrow_global resolver view offset mut_ def args (st, m)
  end = Ok (st', m').
Proof.
  intros Hsd Ht. inversion Ht; subst; unfold pack, unpack, exists_, move_from, move_to, borrow_global;
    try match goal with Hk : exists a, _ |- _ => destruct Hk as (a & Ha & Hk); unfold AbilitySet.has_key end; drive; auto.
  - rewrite (fields_back offset _ _ _ ltac:(eassumption)). vm_cbn. rewrite pop_same. drive.
  - rewrite (fields_back offset _ _ _ ltac:(eassumption)). vm_cbn. apply pushes_free.
Qed.

Lemma borrow_field_back mut_ idx args fh sd fields fd ty held st (m : M) offset :
  View.field_handle_at resolver idx = Ok fh ->
  View.struct_def_at resolver (fld_owner fh) = Ok sd -> field_information sd = Declared fields -> fields !! fld_field fh = Some fd ->
  instantiate (fd_signature fd) args = Ok ty -> implb mut_ held = true ->
  exists m', borrow_field resolver view offset mut_ idx args (ref_to held (materialize_type (sd_struct_handle sd) args) :: st, m) = Ok (ref_to mut_ ty :: st, m').
Proof.
  intros Hfh Hsd Hf Hfd Hty Hh. unfold borrow_field. drive.
  assert (mut_ && negb (is_mutable_reference (ref_to held (materialize_type (sd_struct_handle sd) args))) = false) as -> by (by destruct mut_, held).
  rewrite Hf. apply index_Ok in Hfd. destruct held; cbn [ref_to]; drive.
Qed.

Lemma call_back args fh params rets ps rs st (m : M) offset :
  View.signature_at resolver (fh_parameters fh) = Ok params -> View.signature_at resolver (fh_return fh) = Ok rets ->
  instances args params ps -> instances args rets rs ->
  exists m', call resolver view offset fh args (reverse ps ++ st, m) = Ok (reverse rs ++ st, m').
Proof.
  intros Hp Hrets Hps Hrs. unfold call. rewrite Hp. vm_cbn. rewrite (pop_matching_free _ _ _ _ _ _ _ Hps). vm_cbn.
  rewrite Hrets. vm_cbn. by apply call_returns_free.
Qed.

(** Whatever has a rule is accepted. *)
Lemma typed_verify_instr i st st' offset (m : M) :
  Typed resolver view i st st' -> exists m', verify_instr resolver view (st, m) i offset = Ok (st', m').
Proof.
  destruct 1; try match goal with Hk : exists a, _ |- _ => destruct Hk as (a & Ha & Hk) end; cbn [verify_instr];
    unfold borrow_loc, AbilitySet.has_drop, AbilitySet.has_copy.
  all: try (by drive; auto).
  all: try (destruct i; try discriminate; match goal with Hc : _ = Some _ |- _ => injection Hc as <- | _ => idtac end; cbn [verify_instr]; unfold cast; by drive; auto).
  all: try (destruct i; try discriminate; cbn [verify_instr]; by drive; auto).
  all: try (unfold borrow_vector_element; by drive; auto).
  - rewrite pop_same. by exists m.
  - destruct i; try discriminate; named_lookup; drive; by eapply borrow_field_back.
  - destruct i; try discriminate; named_lookup; drive; by eapply call_back.
  - destruct i; try discriminate; named_lookup; drive;
      match goal with Ht : StructTyped _ _ ?op _ _ _ _ _ |- _ => by eapply (struct_typed_back op) end.
  - destruct held; cbn [ref_to]; drive.
  - drive. rewrite pop_replicate. drive.
  - drive. apply push_replicate.
Qed.
End Backward.

(** ** Heights *)

Section Effects.
Context (resolver : BinaryIndexedView) (view : FunctionView).

Lemma field_types_count sd args tys : field_types sd args tys -> StackUsage.field_count sd = Z.of_nat (length tys).
Proof.
  intros (fields & Hf & Hi). unfold StackUsage.field_count. rewrite Hf. unfold instances in Hi. apply Forall2_length in Hi. rewrite length_map in Hi. lia.
Qed.

(** A rule takes and leaves as many operands as the stack usage pass counts. *)
Lemma typed_effect i st st' : Typed resolver view i st st' ->
  exists pops pushes, StackUsage.instruction_effect resolver view i = Ok (pops, pushes) /\ (pops <= Z.of_nat (length st))%Z /\
    (Z.of_nat (length st') = Z.of_nat (length st) - pops + pushes)%Z.
Proof.
  destruct 1; cbn [StackUsage.instruction_effect];
    try (do 2 eexists; split; [reflexivity|]; cbn [length]; rewrite ?length_app, ?length_reverse, ?length_replicate; lia);
    try (destruct i; try discriminate; do 2 eexists; (split; [reflexivity|]); cbn [length]; lia).
  - assert (StackUsage.instruction_effect resolver view i = Ok (Z.of_nat (length params), Z.of_nat (length rets))) as He.
    { destruct i; try discriminate; named_lookup; cbn [StackUsage.instruction_effect]; unfold StackUsage.call_effect;
        repeat (match goal with Hx : ?e = Ok _ |- context [?e] => rewrite Hx end; vm_cbn); done. }
    do 2 eexists. split; [exact He|]. unfold instances in *. rewrite !length_app, !length_reverse.
    repeat match goal with Hf : Forall2 _ _ _ |- _ => apply Forall2_length in Hf end. lia.
  - destruct i; try discriminate; named_lookup; match goal with Ht : StructTyped _ _ _ _ _ _ _ _ |- _ => inversion Ht; subst end;
      cbn [StackUsage.instruction_effect]; repeat (match goal with Hx : ?e = Ok _ |- context [?e] => rewrite Hx end; vm_cbn);
      do 2 eexists; (split; [reflexivity|]); cbn [length]; rewrite ?length_app, ?length_reverse;
      repeat match goal with Hf : field_types _ _ _ |- _ => apply field_types_count in Hf; rewrite ?Hf end; lia.
Qed.
End Effects.
End Typing.
