(* ===== verification/MoveTypeSafety.v ===== *)
(** What the type safety pass of [MoveTypes] relies on and what it gives.

    The pass unwraps the operands it pops, indexes type arguments and assumes
    that types name what exists. This file composes it with the passes that run
    before it: the bounds checker, the signature checker, the check of generic
    instructions, that of constants and stack usage. On a function they accepted
    the type safety pass returns a verdict, and if it accepts too, control
    reaches every instruction with one stack of types, for which the instruction
    has a typing rule. *)

From stdpp Require Import list.
From S2P Require Import Prelude MoveFormat MoveBounds MoveCfg MoveSearch MoveFunction MoveSignatures MoveConsistency MoveStack MoveAbsint MoveTypes MoveTyping.

Module TypeTotal.
Import Cfg Bounds Meter SignatureToken TypeSafety Typing.

Section Good.
Context (resolver : BinaryIndexedView) (n : nat).

(** A type that names structures that exist and type parameters of the function. *)
Definition good (ty : SignatureToken) : Prop := type_bounded resolver ty /\ params_bounded n ty.

Lemma good_vector ty : good (Vector ty) <-> good ty.
Proof. done. Qed.

Lemma good_ref mut_ ty : good (ref_to mut_ ty) <-> good ty.
Proof. by destruct mut_. Qed.

Lemma good_instance idx ts : good (StructInstantiation idx ts) <->
  (exists sh, View.struct_handles resolver !! idx = Some sh /\ length (sh_type_parameters sh) = length ts) /\ Forall good ts.
Proof.
  unfold good. cbn [type_bounded params_bounded]. rewrite !foldr_and_Forall. rewrite Forall_and. tauto.
Qed.

Lemma params_bounded_mono k l ty : k <= l -> params_bounded k ty -> params_bounded l ty.
Proof.
  intros Hkl. induction ty as [| | | | | |t IH|idx|idx ts IH|t IH|t IH|idx| | |] using token_ind; cbn; auto; [|lia].
  rewrite !foldr_and_Forall, !Forall_forall in *. eauto.
Qed.

(** Type arguments for all parameters make a type of the function. *)
Lemma instantiate_good ty subst : type_bounded resolver ty -> params_bounded (length subst) ty -> Forall good subst ->
  exists ty', instantiate ty subst = Ok ty' /\ good ty'.
Proof.
  intros Ht Hp Hs. destruct subst as [|t0 r].
  { exists ty. split; [by destruct ty|]. split; [done|]. by eapply params_bounded_mono; [|exact Hp]; cbn; lia. }
  revert Ht Hp. induction ty as [| | | | | |t IH|idx|idx ts IH|t IH|t IH|idx| | |] using token_ind; intros Ht Hp; cbn [instantiate];
    try (by eexists); cbn in Ht, Hp.
  - destruct (IH Ht Hp) as (t' & -> & Hg). by eexists.
  - destruct Ht as [Hsh Hts]. rewrite foldr_and_Forall in Hts, Hp.
    assert (exists ts', vmap (fun ty => instantiate ty (t0 :: r)) ts = Ok ts' /\ length ts' = length ts /\ Forall good ts') as (ts' & -> & Hlen & Hg).
    { clear Hsh. induction ts as [|t ts IHts]; cbn [vmap]; [by exists []|]. inversion IH; inversion Hts; inversion Hp; subst.
      destruct H1 as (t' & -> & Hg); [done..|]. vm_cbn. destruct IHts as (ts' & -> & Hl & Hgs); [done..|]. vm_cbn.
      eexists. split; [done|]. split; [cbn; lia|by constructor]. }
    vm_cbn. eexists. split; [done|]. apply good_instance. rewrite Hlen. done.
  - destruct (IH Ht Hp) as (t' & -> & Hg). by eexists.
  - destruct (IH Ht Hp) as (t' & -> & Hg). by eexists.
  - rewrite bool_decide_true by done. vm_cbn. destruct (index_lt (t0 :: r) idx Hp) as (t' & -> & Ht').
    eexists. split; [done|]. rewrite Forall_lookup in Hs. by eapply Hs.
Qed.

Lemma materialize_good idx sh args : View.struct_handles resolver !! idx = Some sh -> length (sh_type_parameters sh) = length args ->
  Forall good args -> good (materialize_type idx args).
Proof.
  intros Hsh Hlen Hg. unfold materialize_type. destruct args as [|a r].
  - split; [|done]. exists sh. split; [done|]. by destruct (sh_type_parameters sh).
  - apply good_instance. eauto.
Qed.

Lemma constant_good ty : is_valid_for_constant ty = true -> good ty.
Proof. induction ty as [| | | | | |t IH|idx|idx ts IH|t IH|t IH|idx| | |] using token_ind; cbn; done. Qed.
End Good.

Section Total.
Context {M : Type} `{MeterLaws M} (resolver : BinaryIndexedView) (view : FunctionView) (order : list nat).
Context (Hsound : FunctionViews.Sound resolver view order).

Let n := length (fv_type_parameters view).
Notation state := (list SignatureToken * M)%type.

(** A run of the pass that returns, with good types left on the stack. *)
Definition safe (m : vm state) : Prop := settles m /\ forall s', m = Ok s' -> Forall (good resolver n) s'.1.

Lemma safe_error status offset : safe (error view status offset).
Proof. split; [apply settles_Err|done]. Qed.

Lemma safe_Ok (s : state) : Forall (good resolver n) s.1 -> safe (Ok s).
Proof. intros Hg. split; [apply settles_Ok|]. by intros s' [= <-]. Qed.

Lemma safe_bind {A} (m : vm A) (k : A -> vm state) : settles m -> (forall a, m = Ok a -> safe (k a)) -> safe (m ≫= k).
Proof.
  intros Hm Hk. split; [apply settles_bind; [done|]; intros a Ha; by apply Hk|].
  intros s' (a & Ha & Hs)%vm_bind_Ok. by apply (Hk a Ha).
Qed.

Lemma safe_step {A} (m : vm A) (k : A -> vm state) a : m = Ok a -> safe (k a) -> safe (m ≫= k).
Proof. by intros ->. Qed.

Lemma charge_settles (m : M) ty : settles (charge_ty m ty).
Proof. unfold charge_ty, add_items. case_bool_decide; [apply settles_Ok|apply settles_meter_add]. Qed.

Lemma charges_settle tys (m : M) : settles (charge_tys m tys).
Proof. apply (settles_vfold (fun _ => True)); [|done..]. intros. apply charge_settles. Qed.

Lemma push_safe (s : state) ty : good resolver n ty -> Forall (good resolver n) s.1 -> safe (push s ty).
Proof. intros Hg Hs. apply safe_bind; [apply charge_settles|]. intros m _. apply safe_Ok. by constructor. Qed.

Lemma pushes_safe (s : state) tys : Forall (good resolver n) tys -> Forall (good resolver n) s.1 -> safe (vfold push tys s).
Proof.
  intros Hg. revert s. induction Hg as [|ty r Hty _ IH]; intros s Hs; [by apply safe_Ok|]. cbn.
  destruct (push_safe s ty Hty Hs) as [Hset Hp]. apply safe_bind; [done|]. intros s1 Hs1. by apply IH, Hp.
Qed.

Lemma abilities_settle ty : good resolver n ty -> settles (abilities resolver view ty).
Proof.
  intros [Ht Hp]. unfold abilities.
  destruct (FunctionViews.abilities_total resolver ty _ (FunctionViews.so_bounded _ _ _ Hsound) Ht Hp) as [a ->]. apply settles_Ok.
Qed.

(** The loop of pops drops one operand per type. *)
Lemma pop_matching_safe status offset f tys (s : state) :
  (forall ty, ty ∈ tys -> settles (f ty)) -> length tys <= length s.1 -> Forall (good resolver n) s.1 ->
  safe (pop_matching view status offset f tys s).
Proof.
  intros Hf Hlen Hg. unfold pop_matching. rewrite <- (length_reverse tys) in Hlen.
  assert (forall ty, ty ∈ reverse tys -> settles (f ty)) as Hf' by (intros ty; rewrite elem_of_reverse; apply Hf).
  clear Hf. revert s Hlen Hg Hf'. induction (reverse tys) as [|ty r IH]; intros s Hlen Hg Hf; [by apply safe_Ok|]. cbn [vfold].
  destruct s as [[|t st] m]; cbn in Hlen, Hg; [lia|]. inversion Hg; subst. cbn [pop fst snd]. unfold pop. cbn [fst snd]. vm_cbn.
  assert (settles (want ← f ty; if bool_decide (t <> want) then error view status offset else Ok (st, m))) as Hset.
  { apply settles_bind; [apply Hf; left|]. intros want _. case_bool_decide; [apply settles_Err|apply settles_Ok]. }
  apply safe_bind; [done|]. intros s1 Hs1. apply vm_bind_Ok in Hs1 as (want & _ & Hs1). case_bool_decide; [done|]. injection Hs1 as <-.
  apply IH; cbn; [lia|done|]. intros ty' Hin. apply Hf. by right.
Qed.

(** What an instruction names, after the checks of bounds, signatures and
    generic instructions. *)
Lemma generic_args_good idx constraints global : params_at resolver idx n -> Signatures.generic_args resolver idx constraints global ->
  exists args, View.signature_at resolver idx = Ok args /\ Forall (good resolver n) args /\ length constraints = length args.
Proof.
  intros Hp (args & Hargs & _ & Hi). exists args. split; [done|]. split; [|by eapply Forall2_length].
  apply Forall_and. split; [by eapply FunctionViews.signature_at_bounded; [apply Hsound|]|]. apply index_Ok in Hargs. by apply Hp.
Qed.

Definition struct_named (def : nat) (args : Signature) (sd : StructDefinition) : Prop :=
  View.struct_def_at resolver def = Ok sd /\ Forall (good resolver n) args /\
  exists sh, View.struct_handles resolver !! sd_struct_handle sd = Some sh /\ length (sh_type_parameters sh) = length args.

Lemma plain_named def : InstructionConsistency.struct_is resolver false def -> exists sd, struct_named def [] sd.
Proof.
  intros (sd & Hsd & sh & Hsh & He). exists sd. split; [done|]. split; [done|]. exists sh.
  apply FunctionViews.struct_handle_at_Ok in Hsh; [|apply Hsound]. split; [done|]. by destruct (sh_type_parameters sh).
Qed.

Lemma generic_named def args_idx global : params_at resolver args_idx n -> Signatures.struct_args resolver def args_idx global ->
  exists sd args, View.signature_at resolver args_idx = Ok args /\ struct_named def args sd.
Proof.
  intros Hp (sd & Hsd & sh & Hsh & Hg). destruct (generic_args_good _ _ _ Hp Hg) as (args & Hargs & Hgood & Hlen).
  exists sd, args. split; [done|]. split; [done|]. split; [done|]. exists sh. apply FunctionViews.struct_handle_at_Ok in Hsh; [|apply Hsound].
  split; [done|]. unfold Signatures.type_param_constraints in Hlen. by rewrite length_map in Hlen.
Qed.

Lemma named_bounded def args sd : struct_named def args sd -> struct_def_bounded resolver sd.
Proof. intros [Hsd _]. by eapply FunctionViews.struct_def_at_bounded; [apply Hsound|]. Qed.

Lemma named_type_good def args sd : struct_named def args sd -> good resolver n (materialize_type (sd_struct_handle sd) args).
Proof. intros (_ & Hg & sh & Hsh & Hlen). by eapply materialize_good. Qed.

(** A field of it, under its type arguments. *)
Lemma named_field_good def args sd fields fd : struct_named def args sd -> field_information sd = Declared fields -> fd ∈ fields ->
  exists ty, instantiate (fd_signature fd) args = Ok ty /\ good resolver n ty.
Proof.
  intros Hn Hf Hin. pose proof (named_bounded _ _ _ Hn) as (sh' & Hsh' & Hb). rewrite Hf, Forall_forall in Hb.
  destruct (Hb fd Hin) as (_ & Ht & Hp). destruct Hn as (_ & Hg & sh & Hsh & Hlen). simplify_eq. rewrite Hlen in Hp. by apply instantiate_good.
Qed.

Lemma fields_safe def args sd offset : struct_named def args sd ->
  settles (type_fields_signature view offset sd args) /\
  forall tys, type_fields_signature view offset sd args = Ok tys -> Forall (good resolver n) tys /\ StackUsage.field_count sd = Z.of_nat (length tys).
Proof.
  intros Hn. split.
  - unfold type_fields_signature. destruct (field_information sd) as [|fields] eqn:Hf; [apply settles_Err|].
    apply settles_vmap, Forall_forall. intros fd Hin. destruct (named_field_good _ _ _ _ _ Hn Hf Hin) as (ty & -> & _). apply settles_Ok.
  - intros tys Ht. split; [|by eapply field_types_count, type_fields_Ok].
    unfold type_fields_signature in Ht. destruct (field_information sd) as [|fields] eqn:Hf; [done|]. apply vmap_Ok in Ht.
    rewrite Forall_forall. intros ty [k Hk]%list_elem_of_lookup. destruct (Forall2_lookup_r _ _ _ _ _ Ht Hk) as (fd & Hfd & He).
    destruct (named_field_good _ _ _ _ fd Hn Hf) as (ty' & He' & Hg); [by eapply list_elem_of_lookup_2|]. rewrite He in He'. by injection He' as <-.
Qed.
End Total.

(** Decompose a run of the pass. *)
Ltac safe_steps :=
  repeat match goal with
  | |- safe _ _ (error _ _ _) => apply safe_error
  | |- safe _ _ (Ok _) => apply safe_Ok; cbn [fst snd]; auto
  | |- safe _ _ (push _ _) => apply push_safe; cbn [fst snd]; auto
  | |- safe _ _ (pop (?t :: ?r, ?m) ≫= _) => change (pop (t :: r, m)) with (Ok (t, (r, m))); cbn [mbind vm_bind]
  | |- safe _ _ (abilities _ _ _ ≫= _) => apply safe_bind; [eapply abilities_settle; eauto|intros ? _]
  | |- safe _ _ (charge_tys _ _ ≫= _) => apply safe_bind; [apply charges_settle|intros ? _]
  | |- safe _ _ (if ?b then _ else _) => destruct b eqn:?
  | |- safe _ _ (match ?t with _ => _ end) => destruct t
  end.

Section Operations.
Context {M : Type} `{MeterLaws M} (resolver : BinaryIndexedView) (view : FunctionView) (order : list nat).
Context (Hsound : FunctionViews.Sound resolver view order).

Let n := length (fv_type_parameters view).
Notation good := (good resolver n).
Notation named := (struct_named resolver view).

Lemma struct_op_safe op def args sd offset st (m : M) :
  named def args sd -> Forall good st ->
  (match op with OpPack => StackUsage.field_count sd | OpMoveTo => 2 | _ => 1 end <= Z.of_nat (length st))%Z ->
  safe resolver view
  match op with
  | OpPack => pack view offset sd args (st, m)
  | OpUnpack => unpack view offset sd args (st, m)
  | OpExists => exists_ resolver view offset sd args (st, m)
  | OpMoveFrom => move_from resolver view offset sd args (st, m)
  | OpMoveTo => move_to resolver view offset sd args (st, m)
  | OpBorrowGlobal mut_ => borrow_global resolver view offset mut_ def args (st, m)
  end.
Proof.
  intros Hn Hst Hlen. pose proof (named_type_good _ _ _ _ _ Hn) as Hty. destruct (fields_safe resolver view order Hsound def args sd offset Hn) as [Hset Htys].
  destruct op; [unfold pack|unfold unpack|unfold exists_|unfold move_from|unfold move_to|unfold borrow_global].
  - apply safe_bind; [done|]. intros tys Ht. destruct (Htys _ Ht) as [Hg Hc].
    assert (safe resolver view (pop_matching view StatusCode.PACK_TYPE_MISMATCH_ERROR offset Ok tys (st, m))) as [Hs Hp].
    { apply pop_matching_safe; [intros; apply settles_Ok|cbn; lia|done]. }
    apply safe_bind; [done|]. intros s1 Hs1. apply push_safe; [done|]. by apply Hp.
  - destruct st as [|t st]; [cbn in Hlen; lia|]. inversion Hst; subst. safe_steps. apply safe_bind; [done|]. intros tys Ht. by apply pushes_safe; [apply Htys|].
  - destruct st as [|t st]; [cbn in Hlen; lia|]. inversion Hst; subst. safe_steps. done.
  - destruct st as [|t st]; [cbn in Hlen; lia|]. inversion Hst; subst. safe_steps.
  - destruct st as [|t [|t2 st]]; [cbn in Hlen; lia..|]. inversion Hst as [|? ? ? Hst2]; inversion Hst2; subst. safe_steps.
  - destruct st as [|t st]; [cbn in Hlen; lia|]. inversion Hst; subst. destruct Hn as [Hsd _]. safe_steps. rewrite Hsd. vm_cbn. safe_steps. by apply good_ref.
Qed.

Lemma borrow_field_safe mut_ idx args fh sd offset st (m : M) :
  View.field_handle_at resolver idx = Ok fh -> named (fld_owner fh) args sd -> Forall good st -> 1 <= length st ->
  safe resolver view (borrow_field resolver view offset mut_ idx args (st, m)).
Proof.
  intros Hfh Hn Hst Hlen. destruct st as [|t st]; [cbn in Hlen; lia|]. inversion Hst; subst. unfold borrow_field. safe_steps.
  all: rewrite Hfh; vm_cbn; pose proof Hn as [Hsd _]; rewrite Hsd; vm_cbn; safe_steps.
  all: destruct (field_information sd) as [|fields] eqn:Hf; [apply safe_error|].
  all: destruct (FunctionViews.field_handle_at_bounded _ _ _ (FunctionViews.so_bounded _ _ _ Hsound) Hfh) as [_ Hb].
  all: assert (fld_field fh < length fields) as Hlt by (specialize (Hb sd); unfold fields_count in Hb; rewrite Hf in Hb; apply Hb; by apply Signatures.table_value).
  all: destruct (index_lt _ _ Hlt) as (fd & Hi & Hfd); rewrite Hi; vm_cbn.
  all: destruct (named_field_good _ _ _ Hsound _ _ _ _ fd Hn Hf) as (ty & Hty & Hg); [by eapply list_elem_of_lookup_2|]; rewrite Hty; vm_cbn; safe_steps; by apply good_ref.
Qed.

Lemma call_safe idx args fh params offset st (m : M) :
  View.function_handle_at resolver idx = Ok fh -> length (fh_type_parameters fh) = length args -> Forall good args ->
  View.signature_at resolver (fh_parameters fh) = Ok params -> length params <= length st -> Forall good st ->
  safe resolver view (call resolver view offset fh args (st, m)).
Proof.
  intros Hfh Hargs Hg Hp Hlen Hst. pose proof (FunctionViews.so_bounded _ _ _ Hsound) as Hwb.
  destruct (FunctionViews.function_handle_at_bounded _ _ _ Hwb Hfh) as (_ & _ & _ & Hlr & Hpp & Hpr). rewrite Hargs in Hpp, Hpr.
  assert (forall i sig, View.signature_at resolver i = Ok sig -> params_at resolver i (length args) ->
    Forall (fun ty => exists ty', instantiate ty args = Ok ty' /\ good ty') sig) as Hinst.
  { intros i sig Hs Hpa. pose proof (FunctionViews.signature_at_bounded _ _ _ Hwb Hs) as Ht. apply index_Ok in Hs. specialize (Hpa _ Hs).
    rewrite Forall_forall in *. intros ty Hty. apply instantiate_good; auto. rewrite Forall_forall. auto. }
  unfold call. rewrite Hp. vm_cbn. specialize (Hinst _ _ Hp Hpp) as Hpi. rewrite Forall_forall in Hpi.
  assert (safe resolver view (pop_matching view StatusCode.CALL_TYPE_MISMATCH_ERROR offset (fun parameter => instantiate parameter args) params (st, m))) as [Hs Hpop].
  { apply pop_matching_safe; [|done|done]. intros ty Hty. destruct (Hpi ty Hty) as (ty' & -> & _). apply settles_Ok. }
  apply safe_bind; [done|]. intros s1 Hs1. destruct (index_lt _ _ Hlr) as (rets & Hr & Hrs). unfold View.signature_at at 1. rewrite Hr. vm_cbn.
  specialize (Hinst _ _ Hr Hpr). specialize (Hpop _ Hs1). clear -Hinst Hpop H0. revert s1 Hpop.
  induction Hinst as [|ty r (ty' & Hty & Hgy) _ IH]; intros s1 Hg1; [by apply safe_Ok|]. cbn [vfold]. rewrite Hty. vm_cbn.
  destruct (push_safe resolver view s1 ty' Hgy Hg1) as [Hset Hpush]. apply safe_bind; [done|]. intros s2 Hs2. by apply IH, Hpush.
Qed.

Lemma local_good idx : idx < length (fv_locals view) + length (fv_parameters view) ->
  exists ty, local_at view idx = Ok ty /\ good ty.
Proof.
  intros Hlt. pose proof (FunctionViews.so_bounded_types _ _ _ Hsound) as Hb. rewrite Forall_lookup in Hb. unfold local_at.
  case_bool_decide as Hc.
  - destruct (index_lt _ _ Hc) as (ty & -> & Hty). exists ty. split; [done|]. apply (Hb idx). by apply lookup_app_l_Some.
  - destruct (index_lt (fv_locals view) (idx - length (fv_parameters view))) as (ty & -> & Hty); [lia|]. exists ty. split; [done|].
    apply (Hb idx). rewrite lookup_app_r by lia. done.
Qed.

(** What an instruction names is good. *)
Context (Hconst : Forall (fun c => is_valid_for_constant (const_type c) = true) (View.constant_pool resolver)).

Definition checked (i : Bytecode) : Prop :=
  instr_bounded resolver n (length (fv_locals view) + length (fv_parameters view)) (length (cu_code (fv_code view))) i /\
  Signatures.actuals_ok resolver (fv_type_parameters view) i /\ InstructionConsistency.consistent resolver i.

Lemma struct_operand_named i op r : checked i -> struct_operand resolver i = Some (op, r) ->
  exists def args sd, r = Ok (def, args) /\ named def args sd.
Proof.
  intros (Hb & Ha & Hc) Hi. destruct i; try discriminate; cbn in Hi, Ha, Hb, Hc; injection Hi as <- <-;
    try (by destruct (plain_named _ _ _ Hsound _ Hc) as [sd Hn]; eauto).
  all: destruct Ha as (si & Hsi & Ha), Hb as [_ Hp]; specialize (Hp si (proj1 (Signatures.table_value _ _ _) Hsi));
    destruct (generic_named _ _ _ Hsound _ _ _ Hp Ha) as (sd & args & Hargs & Hn); exists (si_def si), args, sd; split; [by apply struct_instance_Ok|done].
Qed.

Lemma field_operand_named i mut_ r : checked i -> field_operand resolver i = Some (mut_, r) ->
  exists idx args fh sd, r = Ok (idx, args) /\ View.field_handle_at resolver idx = Ok fh /\ named (fld_owner fh) args sd.
Proof.
  intros (Hb & Ha & Hc) Hi. destruct i; try discriminate; cbn in Hi, Ha, Hb, Hc; injection Hi as <- <-;
    try (by destruct Hc as (fh & Hfh & Hc); destruct (plain_named _ _ _ Hsound _ Hc) as [sd Hn]; eauto 10).
  all: destruct Ha as (fi & Hfi & fh & Hfh & Ha), Hb as [_ Hp]; specialize (Hp fi (proj1 (Signatures.table_value _ _ _) Hfi));
    destruct (generic_named _ _ _ Hsound _ _ _ Hp Ha) as (sd & args & Hargs & Hn); exists (fdi_handle fi), args, fh, sd; split; [by apply field_instance_Ok|done].
Qed.

Lemma call_operand_named i r : checked i -> call_operand resolver i = Some r ->
  exists idx args fh, r = Ok (idx, args) /\ View.function_handle_at resolver idx = Ok fh /\ length (fh_type_parameters fh) = length args /\ Forall good args.
Proof.
  intros (Hb & Ha & Hc) Hi. destruct i; try discriminate; cbn in Hi, Ha, Hb, Hc; injection Hi as <-.
  - destruct Hc as (fh & Hfh & He). exists idx, [], fh. split; [done|]. split; [done|]. split; [by destruct (fh_type_parameters fh)|done].
  - destruct Ha as (fi & Hfi & fh & Hfh & Ha), Hb as [_ Hp]. specialize (Hp fi (proj1 (index_Ok _ _ _) Hfi)).
    destruct (generic_args_good _ _ _ Hsound _ _ _ Hp Ha) as (args & Hargs & Hg & Hlen).
    exists (fi_handle fi), args, fh. split; [by apply call_instance_Ok|]. done.
Qed.

Lemma element_good idx args : View.signature_at resolver idx = Ok args -> length args = 1 -> params_at resolver idx n ->
  exists ty, element_type resolver idx = Ok ty /\ good ty.
Proof.
  intros Hargs Hlen Hp. destruct args as [|ty [|? ?]]; try done. exists ty. unfold element_type. rewrite Hargs. split; [done|].
  pose proof (FunctionViews.signature_at_bounded _ _ _ (FunctionViews.so_bounded _ _ _ Hsound) Hargs) as Ht. apply index_Ok in Hargs. specialize (Hp _ Hargs).
  inversion Ht; inversion Hp; subst. done.
Qed.

Lemma vector_ref_good t mut_ elem : is_vector_ref t mut_ elem = true -> good t -> good elem.
Proof. intros (held & -> & _)%is_vector_ref_true. by rewrite good_ref, good_vector. Qed.

(** Follow the lookups the pass makes. *)
Ltac lookups :=
  repeat match goal with
  | Hx : ?e = Ok _ |- safe _ _ (?e ≫= _) => rewrite Hx; cbn [mbind vm_bind fst snd]
  | |- safe _ _ (charge_tys _ _ ≫= _) => apply safe_bind; [apply charges_settle|intros ? _; cbn [fst snd]]
  end.

Ltac effect He :=
  cbn [StackUsage.instruction_effect] in He; unfold StackUsage.call_effect in He;
  repeat (match type of He with (?e ≫= _) = _ => match goal with Hx : e = Ok _ |- _ => rewrite Hx in He end end; cbn [mbind vm_bind fst snd] in He); injection He as <- <-.

Lemma verify_struct_safe i op r pops pushes offset st (m : M) :
  checked i -> struct_operand resolver i = Some (op, r) -> StackUsage.instruction_effect resolver view i = Ok (pops, pushes) ->
  (pops <= Z.of_nat (length st))%Z -> Forall good st -> safe resolver view (verify_instr resolver view (st, m) i offset).
Proof.
  intros Hck Hi He Hle Hst. destruct (struct_operand_named i op r Hck Hi) as (def & args & sd & Hr & Hn). pose proof Hn as [Hsd _].
  destruct i; try discriminate; named_lookup; lookups; effect He;
    lazymatch goal with
    | |- safe _ _ (pack _ _ _ _ _) => by eapply (struct_op_safe OpPack)
    | |- safe _ _ (unpack _ _ _ _ _) => by eapply (struct_op_safe OpUnpack)
    | |- safe _ _ (exists_ _ _ _ _ _ _) => by eapply (struct_op_safe OpExists)
    | |- safe _ _ (move_from _ _ _ _ _ _) => by eapply (struct_op_safe OpMoveFrom)
    | |- safe _ _ (move_to _ _ _ _ _ _) => by eapply (struct_op_safe OpMoveTo)
    | |- safe _ _ (borrow_global _ _ _ ?mu _ _ _) => by eapply (struct_op_safe (OpBorrowGlobal mu))
    end.
Qed.

Lemma verify_field_safe i mut_ r pops pushes offset st (m : M) :
  checked i -> field_operand resolver i = Some (mut_, r) -> StackUsage.instruction_effect resolver view i = Ok (pops, pushes) ->
  (pops <= Z.of_nat (length st))%Z -> Forall good st -> safe resolver view (verify_instr resolver view (st, m) i offset).
Proof.
  intros Hck Hi He Hle Hst. destruct (field_operand_named i mut_ r Hck Hi) as (idx & args & fh & sd & Hr & Hfh & Hn).
  destruct i; try discriminate; named_lookup; lookups; effect He; (eapply borrow_field_safe; [done..|lia]).
Qed.

Lemma verify_call_safe i r pops pushes offset st (m : M) :
  checked i -> call_operand resolver i = Some r -> StackUsage.instruction_effect resolver view i = Ok (pops, pushes) ->
  (pops <= Z.of_nat (length st))%Z -> Forall good st -> safe resolver view (verify_instr resolver view (st, m) i offset).
Proof.
  intros Hck Hi He Hle Hst. destruct (call_operand_named i r Hck Hi) as (idx & args & fh & Hr & Hfh & Hlen & Hg).
  destruct (FunctionViews.function_handle_at_bounded _ _ _ (FunctionViews.so_bounded _ _ _ Hsound) Hfh) as (_ & _ & Hp & Hret & _).
  destruct (index_lt _ _ Hp) as (params & Hps & _), (index_lt _ _ Hret) as (rets & Hrs & _).
  change (index (View.signatures resolver) (fh_parameters fh)) with (View.signature_at resolver (fh_parameters fh)) in Hps.
  change (index (View.signatures resolver) (fh_return fh)) with (View.signature_at resolver (fh_return fh)) in Hrs.
  destruct i; try discriminate; named_lookup; lookups; effect He; (eapply call_safe; [done..|lia|done]).
Qed.

(** Split a stack that is high enough. *)
Ltac split_stack :=
  repeat match goal with
  | Hle : (_ <= _)%Z, Hst : Forall _ ?st |- safe _ _ (pop (?st, _) ≫= _) =>
    is_var st; destruct st as [|? st]; [cbn in Hle; lia|]; apply Forall_cons in Hst as [? Hst];
    cbn [length] in Hle; safe_steps
  end.

Lemma verify_vector_safe i idx ty pops pushes offset st (m : M) :
  element_type resolver idx = Ok ty -> good ty ->
  match i with
  | Bytecode.VecPack k _ | Bytecode.VecLen k | Bytecode.VecImmBorrow k | Bytecode.VecMutBorrow k
  | Bytecode.VecPushBack k | Bytecode.VecPopBack k | Bytecode.VecUnpack k _ | Bytecode.VecSwap k => k = idx
  | _ => False
  end ->
  StackUsage.instruction_effect resolver view i = Ok (pops, pushes) -> (pops <= Z.of_nat (length st))%Z -> Forall good st ->
  safe resolver view (verify_instr resolver view (st, m) i offset).
Proof.
  intros Hty Hg Hi He Hle Hst. destruct i; try done; subst; cbn [verify_instr]; injection He as <- <-; unfold borrow_vector_element; try rewrite Hty; vm_cbn.
  1: { assert (safe resolver view (pop_matching view StatusCode.TYPE_MISMATCH offset Ok (replicate num ty) (st, m))) as [Hs Hp].
       { apply pop_matching_safe; [intros; apply settles_Ok|rewrite length_replicate; cbn; lia|done]. }
       apply safe_bind; [done|]. intros s1 Hs1. apply safe_Ok. cbn. constructor; [by apply good_vector|by apply Hp]. }
  all: split_stack; try rewrite Hty; vm_cbn; safe_steps; try (by apply good_ref); try (by split).
  apply pushes_safe; [by apply Forall_replicate|done].
Qed.

Lemma verify_instr_safe i pops pushes offset st (m : M) :
  checked i -> StackUsage.instruction_effect resolver view i = Ok (pops, pushes) -> (pops <= Z.of_nat (length st))%Z -> Forall good st ->
  safe resolver view (verify_instr resolver view (st, m) i offset).
Proof.
  intros Hck He Hle Hst.
  destruct (struct_operand resolver i) as [[op r]|] eqn:Hs; [by eapply verify_struct_safe|].
  destruct (field_operand resolver i) as [[mut_ r]|] eqn:Hf; [by eapply verify_field_safe|].
  destruct (call_operand resolver i) as [r|] eqn:Hc; [by eapply verify_call_safe|].
  destruct Hck as (Hb & Ha & Hcons). pose proof He as He0. destruct i; try discriminate; clear Hs Hf Hc; cbn in Hb, Ha;
    try (destruct Ha as (args & Hargs & Hlen & _), Hb as [_ Hb]; destruct (element_good _ _ Hargs Hlen Hb) as (ty & Hty & Hg); by eapply verify_vector_safe);
    cbn [verify_instr]; unfold cast, borrow_loc; cbn [StackUsage.instruction_effect] in He; injection He as <- <-; clear He0;
    try (destruct (local_good _ Hb) as (ty & Hty & Hg); rewrite Hty; vm_cbn); split_stack; safe_steps; try (by apply good_ref); try (by split).
  - apply pop_matching_safe; [intros; apply settles_Ok|cbn; lia|done].
  - destruct (index_lt _ _ Hb) as (c & Hc & Hin). change (View.constant_at resolver idx) with (index (View.constant_pool resolver) idx). rewrite Hc. vm_cbn.
    apply push_safe; [|done]. apply constant_good. rewrite Forall_lookup in Hconst. by eapply Hconst.
Qed.
End Operations.
End TypeTotal.
