(* ===== verification/MoveStackMaps.v ===== *)
(** The verdict of the type safety pass on a function.

    A stack map gives every instruction of a body the types on the operand
    stack when control is at it: none at the start of a block, and at a
    successor of an instruction what the typing rule of [MoveTyping] leaves. On
    a function the earlier passes accepted, the pass of [MoveTypes] returns a
    verdict, it accepts exactly the bodies with a stack map, and control then
    reaches an instruction with the types of the map and no others. *)

From stdpp Require Import list.
From S2P Require Import Prelude MoveFormat MoveBounds MoveCfg MoveSearch MoveFunction MoveSignatures MoveConsistency MoveStack MoveAbsint MoveTypes MoveTyping MoveTypeSafety.

Module StackMaps.
Import Cfg Meter TypeSafety Typing TypeTotal.

Section Runs.
Context (resolver : BinaryIndexedView) (view : FunctionView).
Notation code := (cu_code (fv_code view)).
Notation Typed := (Typed resolver view).

(** The typing rules along the [k] instructions from [pc] on. *)
Inductive run : nat -> nat -> Signature -> Signature -> Prop :=
| run_nil pc st : run pc 0 st st
| run_cons pc k i st st1 st2 : code !! pc = Some i -> Typed i st st1 -> run (S pc) k st1 st2 -> run pc (S k) st st2.

Lemma dummy_free : forall (m : ()) scope u, exists m', meter_add m scope u = Ok m'.
Proof. intros m scope u. by exists m. Qed.

Lemma typed_dummy i st st' offset : Typed i st st' -> verify_instr resolver view (st, ()) i offset = Ok (st', ()).
Proof. intros Ht. destruct (typed_verify_instr dummy_free resolver view i st st' offset () Ht) as [[] Hv]. done. Qed.

Lemma typed_det i st st1 st2 : Typed i st st1 -> Typed i st st2 -> st1 = st2.
Proof. intros H1%(typed_dummy _ _ _ 0) H2%(typed_dummy _ _ _ 0). rewrite H1 in H2. by injection H2. Qed.

Lemma run_det pc k st st1 st2 : run pc k st st1 -> run pc k st st2 -> st1 = st2.
Proof.
  intros H1. revert st2. induction H1 as [|pc k i st st1 st1' Hi Ht _ IH]; intros st2 H2; inversion H2; subst; [done|].
  simplify_eq. apply IH. rewrite (typed_det i st st1 st3); done.
Qed.

Lemma run_app pc j k st st' : run pc (j + k) st st' <-> exists st1, run pc j st st1 /\ run (pc + j) k st1 st'.
Proof.
  revert pc st. induction j as [|j IH]; intros pc st.
  - cbn. rewrite Nat.add_0_r. split; [intros Hr; exists st; split; [constructor|done]|]. intros (st1 & H1 & H2). by inversion H1; subst.
  - cbn. split.
    + intros Hr. inversion Hr as [|? ? i ? st1 ? Hi Ht Hn]; subst. apply IH in Hn as (st2 & H1 & H2). exists st2.
      split; [by econstructor|]. by rewrite Nat.add_succ_r.
    + intros (st2 & H1 & H2). inversion H1; subst. econstructor; [done..|]. apply IH. eexists. split; [done|]. by rewrite Nat.add_succ_r in H2.
Qed.

Lemma verify_at_run {M} `{Meter M} k : forall pc (s s' : Signature * M),
  vfold (verify_at resolver view) (seq pc k) s = Ok s' -> run pc k s.1 s'.1.
Proof.
  induction k as [|k IH]; intros pc s s' Hv; cbn [seq vfold] in Hv; [injection Hv as <-; constructor|].
  apply vm_bind_Ok in Hv as (s1 & Hi & Hv). unfold verify_at in Hi. apply vm_bind_Ok in Hi as (i & Hi%index_Ok & Ht).
  econstructor; [done|by eapply verify_instr_typed|by apply IH].
Qed.

Lemma run_verify_at pc k st st' : run pc k st st' -> vfold (verify_at resolver view) (seq pc k) (st, ()) = Ok (st', ()).
Proof.
  induction 1 as [|pc k i st st1 st' Hi Ht _ IH]; [done|]. cbn [seq vfold].
  assert (verify_at resolver view (st, ()) pc = Ok (st1, ())) as ->; [|done].
  unfold verify_at. rewrite (proj2 (index_Ok _ _ _) Hi). vm_cbn. by apply typed_dummy.
Qed.

(** The stack usage pass counts the types of a run. *)
Lemma run_height config b pc k st st' p h' p' : run pc k st st' ->
  vfold (StackUsage.verify_instruction config resolver view b) (seq pc k) (Z.of_nat (length st), p) = Ok (h', p') -> h' = Z.of_nat (length st').
Proof.
  intros Hr. revert p. induction Hr as [|pc k i st st1 st' Hi Ht _ IH]; intros p Hv; cbn [seq vfold] in Hv; [by injection Hv as <-|].
  apply vm_bind_Ok in Hv as ([h1 p1] & Hs & Hv). apply StackUsage.verify_instruction_Ok in Hs as (i' & pops & pushes & Hi' & He & _ & -> & _).
  destruct (typed_effect _ _ _ _ _ Ht) as (pops' & pushes' & He' & _ & Hlen). simplify_eq. rewrite He in He'. injection He' as <- <-.
  rewrite <- Hlen in Hv. by eapply IH.
Qed.

(** A stack map of a body. *)
Definition stack_map (types : list Signature) : Prop :=
  length types = length code /\
  (forall b, is_Some (blocks_map (fv_cfg view) !! b) -> types !! b = Some []) /\
  forall pc i st, code !! pc = Some i -> types !! pc = Some st ->
    exists st', Typed i st st' /\
      forall succs pc', Bytecode.get_successors pc code = Ok succs -> pc' ∈ succs -> types !! pc' = Some st'.

(** The stacks of types control can reach an instruction with. *)
Inductive TypeAt : nat -> Signature -> Prop :=
| type_entry : TypeAt 0 []
| type_step pc st i st' succs pc' :
    TypeAt pc st -> code !! pc = Some i -> Typed i st st' -> Bytecode.get_successors pc code = Ok succs -> pc' ∈ succs -> TypeAt pc' st'.

Lemma type_at_height pc st : TypeAt pc st -> StackUsage.HeightAt resolver view pc (Z.of_nat (length st)).
Proof.
  induction 1 as [|pc st i st' succs pc' _ IH Hi Ht Hs Hin]; [constructor|].
  destruct (typed_effect _ _ _ _ _ Ht) as (pops & pushes & He & _ & ->). by econstructor.
Qed.
End Runs.

(** Finitely many choices. *)
Lemma choose_list {A} (P : nat -> A -> Prop) n : (forall k, k < n -> exists a, P k a) ->
  exists l, length l = n /\ forall k a, l !! k = Some a -> P k a.
Proof.
  induction n as [|n IH]; intros Hp; [by exists []|]. destruct IH as (l & Hl & Hall); [intros k Hk; apply Hp; lia|].
  destruct (Hp n) as [a Ha]; [lia|]. exists (l ++ [a]). split; [rewrite length_app; cbn; lia|]. intros k x Hx.
  apply lookup_app_Some in Hx as [Hx|[Hle Hx]]; [by apply Hall|]. apply list_lookup_singleton_Some in Hx as [Hk <-].
  by replace k with n by lia.
Qed.

Section Verdict.
Context (config : VerifierConfig) (resolver : BinaryIndexedView) (view : FunctionView) (order : list nat).
Context (Hsound : FunctionViews.Sound resolver view order) (Hstack : StackUsage.verify config resolver view = Ok ()).
Notation code := (cu_code (fv_code view)).
Notation run := (run resolver view).
Notation stack_map := (stack_map resolver view).

Let Hbk := CfgSearch.gr_blocks _ _ _ (FunctionViews.so_graph _ _ _ Hsound).

(** Stack usage went through the block. *)
Lemma block_counted b bb : blocks_map (fv_cfg view) !! b = Some bb ->
  exists p p', vfold (StackUsage.verify_instruction config resolver view b) (seq b (S (exit bb) - b)) (0%Z, p) = Ok (0%Z, p').
Proof.
  intros Hbb. destruct (StackUsage.block_height_start config resolver view order Hsound Hstack b) as (b' & bb' & p & p' & Hbb' & Hle & _ & Hpost); [done|].
  assert (b' = b) as -> by (eapply (bk_disjoint _ _ Hbk); [done..|]; pose proof (bk_range _ _ Hbk _ _ Hbb); lia). simplify_eq. eauto.
Qed.

(** A run over a whole block leaves nothing. *)
Lemma block_run_empty b bb st : blocks_map (fv_cfg view) !! b = Some bb -> run b (S (exit bb) - b) [] st -> st = [].
Proof.
  intros Hbb Hr. destruct (block_counted b bb Hbb) as (p & p' & Hpost).
  eapply (run_height _ _ config b b _ [] st) in Hr; [|exact Hpost]. by destruct st.
Qed.

Definition blocks_typed : Prop := forall b bb, blocks_map (fv_cfg view) !! b = Some bb -> run b (S (exit bb) - b) [] [].

Lemma verify_blocks_typed {M} `{Meter M} (m m' : M) : verify resolver view m = Ok m' -> blocks_typed.
Proof.
  intros Hv b bb Hbb. unfold verify in Hv. apply vm_bind_Ok in Hv as (s & Hv & _).
  assert (b ∈ blocks (fv_cfg view)) as Hb by (apply elem_of_blocks; eauto).
  assert (forall l (s s' : Signature * M), (forall b, b ∈ l -> b ∈ blocks (fv_cfg view)) -> s.1 = [] ->
    vfold (verify_block resolver view) l s = Ok s' -> b ∈ l -> run b (S (exit bb) - b) [] []) as Hall; [|exact (Hall _ ([], m) s (fun _ Hx => Hx) eq_refl Hv Hb)].
  clear Hv Hb s. induction l as [|b0 l IH]; intros s s' Hin Hs Hv Hb; [by apply not_elem_of_nil in Hb|].
  cbn [vfold] in Hv. apply vm_bind_Ok in Hv as (s1 & H1 & Hv). unfold verify_block, instr_indexes, block_end in H1.
  destruct (proj1 (elem_of_blocks _ _) (Hin b0 (list_elem_of_here _ _))) as [bb0 Hbb0]. unfold map_index in H1. rewrite Hbb0 in H1. vm_cbn in H1.
  apply verify_at_run in H1. rewrite Hs in H1. pose proof (block_run_empty _ _ _ Hbb0 H1) as He.
  apply elem_of_cons in Hb as [->|Hb]; [simplify_eq; by rewrite He in H1|]. eapply IH; [|exact He|done|done]. intros; apply Hin; by right.
Qed.

Lemma blocks_typed_verify : blocks_typed -> verify resolver view () = Ok ().
Proof.
  intros Hb. unfold verify. assert (vfold (verify_block resolver view) (blocks (fv_cfg view)) ([], ()) = Ok ([], ())) as Hv; [|by rewrite Hv].
  assert (forall b, b ∈ blocks (fv_cfg view) -> is_Some (blocks_map (fv_cfg view) !! b)) as Hin by (intros b; apply elem_of_blocks).
  induction (blocks (fv_cfg view)) as [|b l IH]; [done|]. cbn [vfold]. destruct (Hin b) as [bb Hbb]; [by left|].
  assert (verify_block resolver view ([], ()) b = Ok ([], ())) as ->.
  { unfold verify_block, instr_indexes, block_end, map_index. rewrite Hbb. vm_cbn. by apply run_verify_at, Hb. }
  apply IH. intros b' Hb'. apply Hin. by right.
Qed.

(** The position in a block, and the rule that takes it further. *)
Definition block_types (pc : nat) (st : Signature) : Prop :=
  exists b bb, blocks_map (fv_cfg view) !! b = Some bb /\ b <= pc <= exit bb /\ run b (pc - b) [] st /\ run pc (S (exit bb) - pc) st [].

Lemma block_types_unique pc st st' : block_types pc st -> block_types pc st' -> st = st'.
Proof.
  intros (b & bb & Hbb & Hpc & Hpre & _) (b2 & bb2 & Hbb2 & Hpc2 & Hpre2 & _).
  assert (b2 = b) as -> by (by eapply (bk_disjoint _ _ Hbk)). by eapply run_det.
Qed.

Lemma block_types_cover : blocks_typed -> forall pc, pc < length code -> exists st, block_types pc st.
Proof.
  intros Hb pc Hpc. destruct (bk_cover _ _ Hbk pc Hpc) as (b & bb & Hbb & Hle). pose proof (Hb _ _ Hbb) as Hr.
  replace (S (exit bb) - b) with ((pc - b) + (S (exit bb) - pc)) in Hr by lia. apply run_app in Hr as (st & H1 & H2).
  exists st, b, bb. replace (b + (pc - b)) with pc in H2 by lia. done.
Qed.

Lemma block_types_start b : blocks_typed -> is_Some (blocks_map (fv_cfg view) !! b) -> block_types b [].
Proof.
  intros Hb [bb Hbb]. pose proof (bk_range _ _ Hbk _ _ Hbb). exists b, bb. split; [done|]. split; [lia|].
  rewrite Nat.sub_diag. split; [constructor|by apply Hb].
Qed.

Lemma block_types_step pc st i : blocks_typed -> block_types pc st -> code !! pc = Some i ->
  exists st', Typed resolver view i st st' /\
    (Bytecode.is_branch i = true -> st' = []) /\
    forall succs pc', Bytecode.get_successors pc code = Ok succs -> pc' ∈ succs -> block_types pc' st'.
Proof.
  intros Hb (b & bb & Hbb & Hle & Hpre & Hpost) Hi.
  replace (S (exit bb) - pc) with (S (exit bb - pc)) in Hpost by lia. inversion Hpost as [|? ? i' ? st' ? Hi' Ht Hn]; subst. simplify_eq.
  exists st'. split; [done|]. destruct (decide (pc = exit bb)) as [->|Hne].
  - rewrite Nat.sub_diag in Hn. inversion Hn; subst. split; [done|]. intros succs pc' Hs Hin. apply block_types_start; [done|].
    pose proof (bk_succ _ _ Hbk _ _ Hbb) as Hs'. rewrite Hs in Hs'. injection Hs' as ->. by eapply (bk_closed _ _ Hbk).
  - assert (Bytecode.is_branch i = false) as Hbr by (eapply (bk_inner _ _ Hbk); [done| |done]; lia). split; [by rewrite Hbr|].
    intros succs pc' Hs Hin. apply (FormatSafety.get_successors_spec _ _ _ _ (FunctionViews.so_length _ _ _ Hsound) Hi) in Hs as (_ & _ & Hs).
    apply Hs in Hin as [Ho|(-> & _ & _)]; [by destruct i|]. exists b, bb. split; [done|]. split; [lia|]. split.
    + replace (S pc - b) with ((pc - b) + 1) by lia. apply run_app. exists st. split; [done|]. replace (b + (pc - b)) with pc by lia. econstructor; [done..|constructor].
    + by replace (S (exit bb) - S pc) with (exit bb - pc) by lia.
Qed.

Lemma reached_block_types : blocks_typed -> forall pc st, TypeAt resolver view pc st -> block_types pc st.
Proof.
  intros Hb. induction 1 as [|pc st i st' succs pc' _ IH Hi Ht Hs Hin]; [apply block_types_start, Hbk; done|].
  destruct (block_types_step _ _ _ Hb IH Hi) as (st1 & Ht1 & _ & Hnext). rewrite (typed_det _ _ _ _ _ _ Ht Ht1). by eapply Hnext.
Qed.

Lemma typed_stack_map : blocks_typed -> exists types, stack_map types.
Proof.
  intros Hb. destruct (choose_list block_types (length code) (block_types_cover Hb)) as (types & Hlen & Hall).
  assert (forall pc st, block_types pc st -> types !! pc = Some st) as Hback.
  { intros pc st Hst. pose proof Hst as (b & bb & Hbb & Hle & _). pose proof (bk_range _ _ Hbk _ _ Hbb).
    destruct (lookup_lt_is_Some_2 types pc) as [st' Hst']; [lia|]. rewrite Hst'. f_equal. eapply block_types_unique; [by apply Hall|done]. }
  exists types. split; [done|]. split; [intros b Hs; by apply Hback, block_types_start|].
  intros pc i st Hi Hst%Hall. destruct (block_types_step pc st i Hb Hst Hi) as (st' & Ht & _ & Hnext). exists st'. split; [done|].
  intros succs pc' Hs Hin. by eapply Hback, Hnext.
Qed.

Lemma stack_map_run types b bb : stack_map types -> blocks_map (fv_cfg view) !! b = Some bb ->
  forall k, b + k <= exit bb -> exists st, run b k [] st /\ types !! (b + k) = Some st.
Proof.
  intros (Hlen & Hstart & Hstep) Hbb. pose proof (bk_range _ _ Hbk _ _ Hbb) as Hrange. induction k as [|k IH]; intros Hk.
  { exists []. rewrite Nat.add_0_r. split; [constructor|]. by apply Hstart. }
  destruct IH as (st & Hr & Hst); [lia|]. destruct (lookup_lt_is_Some_2 code (b + k)) as [i Hi]; [lia|].
  destruct (Hstep _ _ _ Hi Hst) as (st' & Ht & Hnext). exists st'. split.
  - rewrite <- Nat.add_1_r. apply run_app. exists st. split; [done|]. econstructor; [done..|constructor].
  - assert (Bytecode.is_branch i = false) as Hbr by (eapply (bk_inner _ _ Hbk); [done| |done]; lia).
    destruct (get_successors_Ok code (FunctionViews.so_length _ _ _ Hsound) (b + k)) as [succs Hs]; [lia|]. eapply Hnext; [done|].
    apply (FormatSafety.get_successors_spec _ _ _ _ (FunctionViews.so_length _ _ _ Hsound) Hi) in Hs as (_ & _ & Hs). apply Hs. right.
    split; [lia|]. split; [lia|]. by destruct i.
Qed.

Lemma stack_map_typed types : stack_map types -> blocks_typed.
Proof.
  intros Hmap b bb Hbb. pose proof (bk_range _ _ Hbk _ _ Hbb) as Hrange.
  destruct (stack_map_run types b bb Hmap Hbb (exit bb - b)) as (st & Hr & Hst); [lia|]. replace (b + (exit bb - b)) with (exit bb) in Hst by lia.
  destruct (lookup_lt_is_Some_2 code (exit bb)) as [i Hi]; [lia|]. destruct Hmap as (_ & _ & Hstep).
  destruct (Hstep _ _ _ Hi Hst) as (st' & Ht & _).
  assert (run b (S (exit bb) - b) [] st') as Hrun.
  { replace (S (exit bb) - b) with ((exit bb - b) + 1) by lia. apply run_app. exists st. split; [done|].
    replace (b + (exit bb - b)) with (exit bb) by lia. econstructor; [done..|constructor]. }
  pose proof (block_run_empty _ _ _ Hbb Hrun). by subst.
Qed.

(** The pass returns: it finds the operands stack usage counted. *)
Context (Hchecked : Forall (checked resolver view) code).
Context (Hconst : Forall (fun c => SignatureToken.is_valid_for_constant (const_type c) = true) (View.constant_pool resolver)).

Lemma verify_at_settles {M} `{MeterLaws M} b k : forall pc st (m : M) p h' p',
  vfold (StackUsage.verify_instruction config resolver view b) (seq pc k) (Z.of_nat (length st), p) = Ok (h', p') ->
  Forall (good resolver (length (fv_type_parameters view))) st -> settles (vfold (verify_at resolver view) (seq pc k) (st, m)).
Proof.
  induction k as [|k IH]; intros pc st m p h' p' Hv Hg; cbn [seq vfold] in *; [apply settles_Ok|].
  apply vm_bind_Ok in Hv as ([h1 p1] & Hs & Hv). apply StackUsage.verify_instruction_Ok in Hs as (i & pops & pushes & Hi & He & Hle & -> & _).
  assert (verify_at resolver view (st, m) pc = verify_instr resolver view (st, m) i pc) as -> by (unfold verify_at; by rewrite (proj2 (index_Ok _ _ _) Hi)).
  rewrite Forall_lookup in Hchecked.
  destruct (verify_instr_safe resolver view order Hsound Hconst i pops pushes pc st m (Hchecked _ _ Hi) He Hle Hg) as [Hset Hgood].
  apply settles_bind; [done|]. intros [st1 m1] Ht. apply Hgood in Ht as Hg1. apply verify_instr_typed in Ht.
  destruct (typed_effect _ _ _ _ _ Ht) as (pops' & pushes' & He' & _ & Hlen). rewrite He in He'. injection He' as <- <-. cbn [fst] in Hlen.
  rewrite <- Hlen in Hv. by eapply IH.
Qed.

Lemma type_verify_settles {M} `{MeterLaws M} (m : M) : settles (verify resolver view m).
Proof.
  apply settles_bind; [|intros; apply settles_Ok]. apply (settles_vfold (fun s => s.1 = [])); [| |done].
  - intros [st m1] b Hb Hs. cbn in Hs. subst. apply elem_of_blocks in Hb as [bb Hbb]. unfold verify_block, instr_indexes, block_end, map_index. rewrite Hbb. vm_cbn.
    destruct (block_counted b bb Hbb) as (p & p' & Hpost).
    eapply (verify_at_settles b _ _ []); [exact Hpost|done].
  - intros s b s' Hb Hs Hv. apply elem_of_blocks in Hb as [bb Hbb]. unfold verify_block, instr_indexes, block_end, map_index in Hv. rewrite Hbb in Hv. vm_cbn in Hv.
    apply verify_at_run in Hv. rewrite Hs in Hv. by eapply block_run_empty.
Qed.
End Verdict.

(** ** On a module *)

(** The checks of a module that run before its function bodies are checked;
    [decodes] is the decoder of constants. *)
Definition passed (decodes : Constants.MoveTypeLayout -> list Z -> bool) (module : CompiledModule) : Prop :=
  Bounds.verify_module module = Ok () /\ (Z.of_nat (length (cm_signatures module)) <= 65536)%Z /\
  Signatures.verify_module module = Ok () /\ InstructionConsistency.verify_module module = Ok () /\
  Constants.verify_module decodes module = Ok ().

Lemma function_type_parameters module idx cu fh view : function module idx cu fh = Ok view -> fv_type_parameters view = fh_type_parameters fh.
Proof. unfold function. intros Hf. vm_inv. by subst. Qed.

Lemma passed_checked decodes module idx fd fh cu :
  passed decodes module -> cm_function_defs module !! idx = Some fd -> fn_code fd = Some cu ->
  cm_function_handles module !! fn_function fd = Some fh -> (Z.of_nat (length (cu_code cu)) < 65536)%Z -> cu_code cu <> [] ->
  exists view order, function module idx cu fh = Ok view /\ fv_code view = cu /\ FunctionViews.Sound (View.Module_ module) view order /\
    Forall (checked (View.Module_ module) view) (cu_code cu) /\
    Forall (fun c => SignatureToken.is_valid_for_constant (const_type c) = true) (cm_constant_pool module).
Proof.
  intros (Hb & Hn & Hsig & Hcons & Hconst) Hfd Hcu Hfh Hlen Hne.
  destruct (FunctionViews.function_sound _ _ _ _ _ Hb Hfd Hcu Hfh Hlen Hne) as (view & order & Hf & Hcode & Hs).
  exists view, order. split; [done|]. split; [done|]. split; [done|]. pose proof (FunctionViews.so_bounded _ _ _ Hs) as Hwb. split.
  - apply (InstructionConsistency.verify_module_decides module Hwb) in Hcons. rewrite Forall_lookup in Hcons. specialize (Hcons _ _ Hfd).
    destruct (Signatures.signatures_verify_decides module Hb Hn) as [_ Hdec]. apply Hdec in Hsig as (_ & _ & _ & Hsig).
    rewrite Forall_lookup in Hsig. specialize (Hsig _ _ Hfd). unfold Signatures.function_def_ok in Hsig. rewrite Hcu in Hsig, Hcons.
    destruct Hsig as (fh' & Hfh' & _ & _ & Hact). apply FunctionViews.function_handle_at_Ok in Hfh'; [|done]. cbn in Hfh'. simplify_eq.
    pose proof (FunctionViews.so_instrs _ _ _ Hs) as Hin. apply function_type_parameters in Hf. rewrite <- Hf in Hact.
    apply Forall_and. split; [done|]. apply Forall_and. done.
  - apply (Constants.verify_constants_decides decodes) in Hconst. eapply Forall_impl; [exact Hconst|]. by intros c [? _].
Qed.

(** The function of [FunctionViews.box_module] passed the checks. *)
Definition box_view : FunctionView :=
  match function FunctionViews.box_module 0 (FunctionViews.one_body FunctionViews.box_code) FunctionViews.box_handle with
  | Ok view => view
  | _ => FunctionViews.view_of []
  end.

Lemma box_view_eq : function FunctionViews.box_module 0 (FunctionViews.one_body FunctionViews.box_code) FunctionViews.box_handle = Ok box_view.
Proof. vm_compute. reflexivity. Qed.

Lemma box_passed : passed (fun _ _ => true) FunctionViews.box_module.
Proof. repeat split; vm_compute; (reflexivity || discriminate). Qed.

Lemma box_stack : StackUsage.verify default_config (View.Module_ FunctionViews.box_module) box_view = Ok ().
Proof. vm_compute. reflexivity. Qed.

(** C16: On a function of a module that passed the checks before it, whose stack
    usage was accepted, the type safety pass returns a verdict whatever meter it
    is run with: no operand it unwraps is missing and no type it looks up is out
    of the tables. With the meter that has no limit it accepts exactly when the
    body has a stack map, an assignment of types to every instruction under which
    each instruction has a typing rule that leads to the types at its successors. *)
Theorem type_safety_decided config decodes module idx fd fh cu :
  passed decodes module -> cm_function_defs module !! idx = Some fd -> fn_code fd = Some cu ->
  cm_function_handles module !! fn_function fd = Some fh -> (Z.of_nat (length (cu_code cu)) < 65536)%Z -> cu_code cu <> [] ->
  exists view, function module idx cu fh = Ok view /\
  (StackUsage.verify config (View.Module_ module) view = Ok () ->
    (forall M (meter : Meter M), MeterLaws M -> forall m : M, settles (verify (View.Module_ module) view m)) /\
    decides (verify (View.Module_ module) view tt) (exists types, stack_map (View.Module_ module) view types)).
Proof.
  intros Hp Hfd Hcu Hfh Hlen Hne. destruct (passed_checked _ _ _ _ _ _ Hp Hfd Hcu Hfh Hlen Hne) as (view & order & Hf & <- & Hs & Hck & Hc).
  exists view. split; [done|]. intros Hstack.
  assert (forall M (meter : Meter M), MeterLaws M -> forall m : M, settles (verify (View.Module_ module) view m)) as Hset
    by (intros; by eapply type_verify_settles).
  split; [done|]. split; [apply Hset, _|]. split.
  - intros Hv. by eapply typed_stack_map, verify_blocks_typed.
  - intros [types Hmap]. by eapply blocks_typed_verify, stack_map_typed.
Qed.

Lemma type_safety_decided_witness :
  (forall types, stack_map (View.Module_ FunctionViews.box_module) box_view types -> verify (View.Module_ FunctionViews.box_module) box_view tt = Ok ()) /\
  exists types, stack_map (View.Module_ FunctionViews.box_module) box_view types.
Proof.
  destruct (type_safety_decided default_config (fun _ _ => true) FunctionViews.box_module 0 FunctionViews.box_definition
    FunctionViews.box_handle (FunctionViews.one_body FunctionViews.box_code)) as (view & Hf & Hd);
    [exact box_passed|vm_compute; reflexivity..|discriminate|].
  rewrite box_view_eq in Hf. injection Hf as Hview. subst view. destruct (Hd box_stack) as (_ & _ & Hdec).
  split; [intros types Hmap; apply Hdec; by exists types|]. apply Hdec. vm_compute. reflexivity.
Defined.

(** C12: In a function of such a module that both stack usage and type safety
    accept, under any meter, control reaches an instruction with one stack of
    types whatever the path, the instruction has a typing rule for it, the stack
    has the height stack usage gives it, and a jump or return leaves it empty. *)
Theorem type_safety_sound config decodes module idx fd fh cu :
  passed decodes module -> cm_function_defs module !! idx = Some fd -> fn_code fd = Some cu ->
  cm_function_handles module !! fn_function fd = Some fh -> (Z.of_nat (length (cu_code cu)) < 65536)%Z -> cu_code cu <> [] ->
  exists view, function module idx cu fh = Ok view /\
  (StackUsage.verify config (View.Module_ module) view = Ok () ->
   forall M (meter : Meter M) (m m' : M), verify (View.Module_ module) view m = Ok m' ->
   forall pc st, TypeAt (View.Module_ module) view pc st ->
    (forall st', TypeAt (View.Module_ module) view pc st' -> st' = st) /\
    StackUsage.HeightAt (View.Module_ module) view pc (Z.of_nat (length st)) /\
    exists i st', cu_code cu !! pc = Some i /\ Typed (View.Module_ module) view i st st' /\ (Bytecode.is_branch i = true -> st' = [])).
Proof.
  intros Hp Hfd Hcu Hfh Hlen Hne. destruct (passed_checked _ _ _ _ _ _ Hp Hfd Hcu Hfh Hlen Hne) as (view & order & Hf & <- & Hs & _).
  exists view. split; [done|]. intros Hstack M meter m m' Hv pc st Hat.
  pose proof (verify_blocks_typed config _ view order Hs Hstack m m' Hv) as Hb.
  pose proof (reached_block_types _ view order Hs Hb) as Hreach. split.
  { intros st' Hat'. by eapply (block_types_unique _ _ order Hs); apply Hreach. }
  split; [by apply type_at_height|].
  destruct (Hreach _ _ Hat) as (b & bb & Hbb & Hle & Hr). pose proof (bk_range _ _ (CfgSearch.gr_blocks _ _ _ (FunctionViews.so_graph _ _ _ Hs)) _ _ Hbb).
  destruct (lookup_lt_is_Some_2 (cu_code (fv_code view)) pc) as [i Hi]; [lia|].
  destruct (block_types_step _ view order Hs pc st i Hb (Hreach _ _ Hat) Hi) as (st' & Ht & Hbr & _). eauto.
Qed.

Lemma type_safety_sound_witness :
  TypeAt (View.Module_ FunctionViews.box_module) box_view 1 [SignatureToken.TypeParameter 0] /\
  forall st, TypeAt (View.Module_ FunctionViews.box_module) box_view 1 st -> st = [SignatureToken.TypeParameter 0].
Proof.
  destruct (type_safety_sound default_config (fun _ _ => true) FunctionViews.box_module 0 FunctionViews.box_definition
    FunctionViews.box_handle (FunctionViews.one_body FunctionViews.box_code)) as (view & Hf & Hd);
    [exact box_passed|vm_compute; reflexivity..|discriminate|].
  rewrite box_view_eq in Hf. injection Hf as Hview. subst view.
  assert (verify (View.Module_ FunctionViews.box_module) box_view tt = Ok tt) as Hv by (vm_compute; reflexivity).
  assert (TypeAt (View.Module_ FunctionViews.box_module) box_view 1 [SignatureToken.TypeParameter 0]) as Hat.
  { eapply (type_step _ _ 0 [] (Bytecode.MoveLoc 0) _ [1] 1); [constructor|reflexivity| |vm_compute; reflexivity|by left].
    apply (verify_instr_typed (View.Module_ FunctionViews.box_module) box_view (Bytecode.MoveLoc 0) 0 ([], tt) ([SignatureToken.TypeParameter 0], tt)).
    vm_compute. reflexivity. }
  split; [exact Hat|]. intros st Hst. by apply (Hd box_stack unit _ tt tt Hv 1 [SignatureToken.TypeParameter 0] Hat).
Defined.
End StackMaps.
