(* ===== verification/MoveModuleChecks.v ===== *)
(** Checks of a whole module that need no control flow: limits.rs,
    check_duplication.rs, friends.rs and script_signature.rs of
    external/move/move-bytecode-verifier/src.

    The checks report the first violation they meet; the error of the first
    check that fails is the verdict. The duplication checker is proved to decide
    that every table has distinct entries and that the handles of the module
    itself are exactly the handles its definitions implement, which the later
    passes and the linker rely on. *)

From stdpp Require Import list gmap strings.
From S2P Require Import Prelude MoveFormat MoveBounds MoveCfg MoveSearch MoveFunction MoveStack.

#[export] Existing Instance SignatureToken.token_eq_dec.
#[export] Instance ModuleHandle_eq_dec : EqDecision ModuleHandle.
Proof. solve_decision. Defined.
#[export] Instance Constant_eq_dec : EqDecision Constant.
Proof. solve_decision. Defined.
#[export] Instance FunctionInstantiation_eq_dec : EqDecision FunctionInstantiation.
Proof. solve_decision. Defined.
#[export] Instance FieldInstantiation_eq_dec : EqDecision FieldInstantiation.
Proof. solve_decision. Defined.
#[export] Instance StructDefInstantiation_eq_dec : EqDecision StructDefInstantiation.
Proof. solve_decision. Defined.
#[export] Instance FieldHandle_eq_dec : EqDecision FieldHandle.
Proof. solve_decision. Defined.

(** A map from keys to positions, filled from a list with distinct keys. *)
Lemma index_map_lookup {A} (key : A -> nat) (l : list A) h k : NoDup (map key l) -> (Z.of_nat (length l) <= 65536)%Z ->
  fold_left (fun (m : gmap nat nat) '(i, x) => <[key x := u16 i]> m) (imap pair l) ∅ !! h = Some k <-> exists x, l !! k = Some x /\ key x = h.
Proof.
  induction l as [|d l IH] using rev_ind; intros Hn Hl; [cbn; rewrite lookup_empty; split; [done|]; by intros (x & Hx & _)|].
  rewrite map_app in Hn. apply NoDup_app in Hn as (Hn & Hdis & _). rewrite length_app in Hl. cbn in Hl.
  rewrite imap_app, fold_left_app. cbn. rewrite Nat.add_0_r, u16_small by lia. rewrite lookup_insert_Some, (IH Hn) by lia. split.
  - intros [[<- <-]|[Hne (x & Hx & Hh)]]; [exists d; by rewrite lookup_app_r, Nat.sub_diag by lia|]. exists x. split; [|done]. by apply lookup_app_l_Some.
  - intros (x & Hx & <-). apply lookup_app_Some in Hx as [Hx|[Hle Hx]].
    + right. split; [|eauto]. intros He. apply (Hdis (key x)); [by eapply list_elem_of_fmap_2, list_elem_of_lookup_2|]. rewrite <- He. left.
    + apply list_lookup_singleton_Some in Hx as [Hb ->]. left. split; [done|lia].
Qed.

(** ** limits.rs *)

Module Limits.
Section Verifier.
Context (config : VerifierConfig) (resolver : BinaryIndexedView).

(** [if let Some(limit) = .. { if len > limit { return Err(..) } }]. *)
Definition over (limit : option nat) (len : nat) : bool :=
  match limit with Some limit => bool_decide (limit < len) | None => false end.

Definition verify_struct_handle (p : nat * StructHandle) : vm () :=
  if over (max_generic_instantiation_length config) (length (sh_type_parameters p.2))
  then Err (at_index (error_new StatusCode.TOO_MANY_TYPE_PARAMETERS) IndexKind.StructHandle (u16 p.1)) else Ok ().

Definition verify_struct_handles : vm () := vfor verify_struct_handle (imap pair (View.struct_handles resolver)).

Definition verify_function_handle (p : nat * FunctionHandle) : vm () :=
  let '(idx, function_handle) := p in
  if over (max_generic_instantiation_length config) (length (fh_type_parameters function_handle))
  then Err (at_index (error_new StatusCode.TOO_MANY_TYPE_PARAMETERS) IndexKind.FunctionHandle (u16 idx)) else
  match max_function_parameters config with
  | None => Ok ()
  | Some limit =>
    parameters ← View.signature_at resolver (fh_parameters function_handle);
    if bool_decide (limit < length parameters)
    then Err (at_index (error_new StatusCode.TOO_MANY_PARAMETERS) IndexKind.FunctionHandle (u16 idx)) else Ok ()
  end.

Definition verify_function_handles : vm () := vfor verify_function_handle (imap pair (View.function_handles resolver)).

Definition STRUCT_SIZE_WEIGHT : nat := 4.
Definition PARAM_SIZE_WEIGHT : nat := 4.

Definition node_weight (t : SignatureToken) : nat :=
  match t with
  | SignatureToken.Struct _ | SignatureToken.StructInstantiation _ _ => STRUCT_SIZE_WEIGHT
  | SignatureToken.TypeParameter _ => PARAM_SIZE_WEIGHT
  | _ => 1
  end.

Definition verify_type_node (ty : SignatureToken) : vm () :=
  match max_type_nodes config with
  | None => Ok ()
  | Some max =>
    let size := fold_left (fun size t => size + node_weight t) (SignatureToken.preorder_traversal ty) 0 in
    if bool_decide (max < size) then Err (error_new StatusCode.TOO_MANY_TYPE_NODES) else Ok ()
  end.

Definition verify_fields (sdef : StructDefinition) : vm () :=
  match field_information sdef with
  | Native => Ok ()
  | Declared fdefs => vfor (fun fdef => verify_type_node (fd_signature fdef)) fdefs
  end.

Definition verify_type_nodes : vm () :=
  _ ← vfor (fun sign => vfor verify_type_node sign) (View.signatures resolver);
  _ ← vfor (fun cons => verify_type_node (const_type cons)) (View.constant_pool resolver);
  match View.struct_defs resolver with Some sdefs => vfor verify_fields sdefs | None => Ok () end.

Definition verify_field_count (def : StructDefinition) : vm () :=
  match field_information def with
  | Native => Ok ()
  | Declared fields =>
    if over (max_fields_in_struct config) (length fields) then Err (error_new StatusCode.MAX_FIELD_DEFINITIONS_REACHED) else Ok ()
  end.

Definition verify_definitions : vm () :=
  _ ← match View.function_defs resolver with
      | Some defs => if over (max_function_definitions config) (length defs)
                     then Err (error_new StatusCode.MAX_FUNCTION_DEFINITIONS_REACHED) else Ok ()
      | None => Ok ()
      end;
  match View.struct_defs resolver with
  | Some defs =>
    if over (max_struct_definitions config) (length defs)
    then Err (error_new StatusCode.MAX_STRUCT_DEFINITIONS_REACHED) else
    match max_fields_in_struct config with Some _ => vfor verify_field_count defs | None => Ok () end
  | None => Ok ()
  end.
End Verifier.

Definition verify_module (config : VerifierConfig) (module : CompiledModule) : vm () :=
  let resolver := View.Module_ module in
  _ ← verify_function_handles config resolver;
  _ ← verify_struct_handles config resolver;
  _ ← verify_type_nodes config resolver;
  verify_definitions config resolver.

Definition verify_script (config : VerifierConfig) (script : CompiledScript) : vm () :=
  let resolver := View.Script script in
  _ ← verify_function_handles config resolver;
  _ ← verify_struct_handles config resolver;
  verify_type_nodes config resolver.

(** The nodes of a type, a structure and a type parameter counting four. *)
Fixpoint type_weight (t : SignatureToken) : nat :=
  node_weight t + match t with
  | SignatureToken.Vector t | SignatureToken.Reference t | SignatureToken.MutableReference t => type_weight t
  | SignatureToken.StructInstantiation _ ts => sum_list_with type_weight ts
  | _ => 0
  end.

Definition at_most (limit : option nat) (len : nat) : Prop := forall l, limit = Some l -> len <= l.

Lemma over_false limit len : over limit len = false <-> at_most limit len.
Proof. unfold over, at_most. destruct limit as [l|]; [|done]. rewrite bool_decide_eq_false. split; [intros ? ? [= <-]; lia|]. intros H. specialize (H l eq_refl). lia. Qed.

Lemma fold_weights l n : fold_left (fun size t => size + node_weight t) l n = n + sum_list_with node_weight l.
Proof. revert n. induction l as [|t r IH]; intros n; cbn; [lia|]. rewrite IH. lia. Qed.

Lemma preorder_weight t : sum_list_with node_weight (FormatSafety.preorder t) = type_weight t.
Proof.
  induction t as [| | | | | |t IH|idx|idx ts IH|t IH|t IH|idx| | |] using SignatureToken.token_ind; cbn; try done; try (by rewrite IH).
  do 4 f_equal. induction IH as [|t r Ht _ IHr]; cbn; [done|]. by rewrite sum_list_with_app, Ht, IHr.
Qed.

Definition fields_at_most (limit : option nat) (sd : StructDefinition) : Prop :=
  match field_information sd with Native => True | Declared fields => at_most limit (length fields) end.

Definition field_types_at_most (limit : option nat) (sd : StructDefinition) : Prop :=
  match field_information sd with Native => True | Declared fields => Forall (fun fd => at_most limit (type_weight (fd_signature fd))) fields end.

Section Decided.
Context (config : VerifierConfig).

Lemma decides_over limit len e : decides (if over limit len then Err e else Ok ()) (at_most limit len).
Proof. eapply decides_iff; [apply decides_guard|]. apply over_false. Qed.

Lemma decides_over_then limit len e k P : decides k P -> decides (if over limit len then Err e else k) (at_most limit len /\ P).
Proof.
  intros Hk. rewrite <- over_false. destruct (over limit len); [split; [auto with settle|]; by split; [|intros []]|]. eapply decides_iff; [exact Hk|]. tauto.
Qed.

Lemma verify_type_node_decides ty : decides (verify_type_node config ty) (at_most (max_type_nodes config) (type_weight ty)).
Proof.
  unfold verify_type_node. destruct (max_type_nodes config) as [max|]; [|eapply decides_iff; [apply decides_true|done]].
  rewrite FormatSafety.preorder_traversal_spec, fold_weights, preorder_weight. cbn [Nat.add].
  apply (decides_over (Some max) (type_weight ty)).
Qed.

(** On a module the bounds checker accepted, the limits verifier returns a
    verdict and accepts exactly when handles have at most the configured numbers
    of type parameters and parameters, every type of a signature, a constant or
    a field weighs at most the configured number of nodes, with structures and
    type parameters counting four, and there are at most the configured numbers
    of definitions and of fields in a structure. *)
Theorem limits_decided module :
  Bounds.verify_module module = Ok () ->
  decides (verify_module config module)
    (Forall (fun fh => at_most (max_generic_instantiation_length config) (length (fh_type_parameters fh)) /\
       exists params, cm_signatures module !! fh_parameters fh = Some params /\ at_most (max_function_parameters config) (length params)) (cm_function_handles module) /\
     Forall (fun sh => at_most (max_generic_instantiation_length config) (length (sh_type_parameters sh))) (cm_struct_handles module) /\
     (Forall (Forall (fun ty => at_most (max_type_nodes config) (type_weight ty))) (cm_signatures module) /\
      Forall (fun c => at_most (max_type_nodes config) (type_weight (const_type c))) (cm_constant_pool module) /\
      Forall (field_types_at_most (max_type_nodes config)) (cm_struct_defs module)) /\
     at_most (max_function_definitions config) (length (cm_function_defs module)) /\
     at_most (max_struct_definitions config) (length (cm_struct_defs module)) /\
     Forall (fields_at_most (max_fields_in_struct config)) (cm_struct_defs module)).
Proof.
  intros [_ Hwb]%Bounds.verify_module_Ok. unfold verify_module.
  apply decides_seq; [|intros _; apply decides_seq; [|intros _; apply decides_seq; [|intros _]]].
  - apply decides_imap. intros i fh Hfh. unfold verify_function_handle.
    pose proof (Bounds.wb_function_handles _ Hwb) as Hh. cbn in Hh. rewrite Forall_lookup in Hh. destruct (Hh _ _ Hfh) as (_ & _ & Hp & _). cbn in Hp.
    destruct (index_lt _ _ Hp) as (params & Hi & Hps).
    apply decides_over_then. destruct (max_function_parameters config) as [limit|]; [|eapply decides_iff; [apply decides_true|]; split; [|done]; intros _; exists params; split; [done|]; by intros ?].
    unfold View.signature_at. cbn [View.signatures]. rewrite Hi. vm_cbn. eapply decides_iff; [apply (decides_over (Some limit) (length params))|].
    split; [eauto|]. intros (params' & Hps' & Hle). by simplify_eq.
  - apply decides_imap. intros i sh _. apply decides_over.
  - unfold verify_type_nodes. cbn [View.signatures View.constant_pool View.struct_defs]. apply decides_seq; [|intros _; apply decides_seq; [|intros _]].
    + apply decides_vfor. intros sig _. apply decides_vfor. intros. apply verify_type_node_decides.
    + apply decides_vfor. intros c _. apply verify_type_node_decides.
    + apply decides_vfor. intros sd _. unfold verify_fields, field_types_at_most. destruct (field_information sd); [apply decides_true|].
      apply decides_vfor. intros fd _. apply verify_type_node_decides.
  - unfold verify_definitions. cbn [View.function_defs View.struct_defs]. apply decides_seq; [apply decides_over|intros _].
    apply decides_over_then. destruct (max_fields_in_struct config) as [limit|] eqn:Hl.
    + apply decides_vfor. intros sd _. unfold verify_field_count, fields_at_most. rewrite Hl. destruct (field_information sd); [apply decides_true|apply decides_over].
    + eapply decides_iff; [apply decides_true|]. split; [|done]. intros _. apply Forall_forall. intros sd _. unfold fields_at_most. by destruct (field_information sd).
Qed.
End Decided.

Lemma limits_decided_witness :
  Forall (fields_at_most (Some 1)) (cm_struct_defs FunctionViews.box_module).
Proof.
  destruct (limits_decided {| max_loop_depth := None; max_function_parameters := Some 1; max_generic_instantiation_length := Some 1; max_basic_blocks := None;
    max_type_nodes := Some 8; max_value_stack_size := 1024; max_push_size := None; max_dependency_depth := None; max_struct_definitions := Some 1;
    max_fields_in_struct := Some 1; max_function_definitions := Some 1; max_back_edges_per_function := None; max_back_edges_per_module := None;
    max_basic_blocks_in_script := None; max_per_fun_meter_units := None; max_per_mod_meter_units := None |} FunctionViews.box_module) as [_ Hd];
    [vm_compute; reflexivity|].
  destruct (proj1 Hd) as (_ & _ & _ & _ & _ & Hf); [vm_compute; reflexivity|]. exact Hf.
Defined.
End Limits.

(** ** check_duplication.rs *)

Module Duplication.
Section Elements.
Context {A : Type} `{EqDecision A}.

(** The index of the first element that occurred before. *)
Fixpoint first_duplicate_from (uniq : list A) (i : nat) (l : list A) : option nat :=
  match l with
  | [] => None
  | x :: r => if bool_decide (x ∈ uniq) then Some i else first_duplicate_from (x :: uniq) (S i) r
  end.

Definition first_duplicate_element (l : list A) : option nat :=
  match first_duplicate_from [] 0 l with Some i => Some (u16 i) | None => None end.

(** [match first_duplicate_element(..) { Some(idx) => Err(..), None => Ok(()) }]. *)
Definition check_unique (kind : IndexKind) (l : list A) : vm () :=
  match first_duplicate_element l with
  | Some idx => Err (verification_error StatusCode.DUPLICATE_ELEMENT kind idx)
  | None => Ok ()
  end.
End Elements.

(** [Iterator::position]. *)
Fixpoint position {A} (f : A -> vm bool) (i : nat) (l : list A) : vm (option nat) :=
  match l with
  | [] => Ok None
  | x :: r => b ← f x; if (b : bool) then Ok (Some i) else position f (S i) r
  end.

(** [if let Some(idx) = ..position(..) { return Err(..) }]. *)
Definition check_none {A} (status : StatusCode) (kind : IndexKind) (f : A -> vm bool) (l : list A) : vm () :=
  idx ← position f 0 l;
  match idx with Some idx => Err (verification_error status kind (u16 idx)) | None => Ok () end.

Definition check_identifiers : list string -> vm () := check_unique IndexKind.Identifier.
Definition check_address_identifiers : list (list Z) -> vm () := check_unique IndexKind.AddressIdentifier.
Definition check_constants : list Constant -> vm () := check_unique IndexKind.ConstantPool.
Definition check_signatures : list Signature -> vm () := check_unique IndexKind.Signature.
Definition check_module_handles : list ModuleHandle -> vm () := check_unique IndexKind.ModuleHandle.
Definition check_function_instantiations : list FunctionInstantiation -> vm () := check_unique IndexKind.FunctionInstantiation.

Definition check_struct_handles (struct_handles : list StructHandle) : vm () :=
  check_unique IndexKind.StructHandle (map (fun x => (sh_module x, sh_name x)) struct_handles).

Definition check_function_handles (function_handles : list FunctionHandle) : vm () :=
  check_unique IndexKind.FunctionHandle (map (fun x => (fh_module x, fh_name x)) function_handles).

Section Checker.
Context (module : CompiledModule).
Notation resolver := (View.Module_ module).

Definition check_field_handles : vm () := check_unique IndexKind.FieldHandle (cm_field_handles module).
Definition check_struct_instantiations : vm () := check_unique IndexKind.StructDefInstantiation (struct_def_instantiations module).
Definition check_field_instantiations : vm () := check_unique IndexKind.FieldInstantiation (cm_field_instantiations module).

Definition check_struct_fields (p : nat * StructDefinition) : vm () :=
  match field_information p.2 with
  | Native => Ok ()
  | Declared fields =>
    if bool_decide (fields = [])
    then Err (verification_error StatusCode.ZERO_SIZED_STRUCT IndexKind.StructDefinition (u16 p.1))
    else check_unique IndexKind.FieldDefinition (map fd_name fields)
  end.

Definition check_struct_definitions : vm () :=
  _ ← check_unique IndexKind.StructDefinition (map sd_struct_handle (cm_struct_defs module));
  _ ← vfor check_struct_fields (imap pair (cm_struct_defs module));
  _ ← check_none StatusCode.INVALID_MODULE_HANDLE IndexKind.StructDefinition
        (fun x => sh ← View.struct_handle_at resolver (sd_struct_handle x);
                  Ok (negb (bool_decide (sh_module sh = self_module_handle_idx module)))) (cm_struct_defs module);
  let implemented_struct_handles := map sd_struct_handle (cm_struct_defs module) in
  check_none StatusCode.UNIMPLEMENTED_HANDLE IndexKind.StructHandle
    (fun x => sh ← View.struct_handle_at resolver (u16 x);
              Ok (bool_decide (sh_module sh = self_module_handle_idx module) && negb (bool_decide (u16 x ∈ implemented_struct_handles))))
    (seq 0 (length (cm_struct_handles module))).

Definition check_acquires (p : nat * FunctionDefinition) : vm () :=
  match first_duplicate_element (fn_acquires_global_resources p.2) with
  | Some _ => Err (verification_error StatusCode.DUPLICATE_ACQUIRES_ANNOTATION IndexKind.FunctionDefinition (u16 p.1))
  | None => Ok ()
  end.

Definition check_function_defintions : vm () :=
  _ ← check_unique IndexKind.FunctionDefinition (map fn_function (cm_function_defs module));
  _ ← vfor check_acquires (imap pair (cm_function_defs module));
  _ ← check_none StatusCode.INVALID_MODULE_HANDLE IndexKind.FunctionDefinition
        (fun x => fh ← View.function_handle_at resolver (fn_function x);
                  Ok (negb (bool_decide (fh_module fh = self_module_handle_idx module)))) (cm_function_defs module);
  let implemented_function_handles := map fn_function (cm_function_defs module) in
  check_none StatusCode.UNIMPLEMENTED_HANDLE IndexKind.FunctionHandle
    (fun x => fh ← View.function_handle_at resolver (u16 x);
              Ok (bool_decide (fh_module fh = self_module_handle_idx module) && negb (bool_decide (u16 x ∈ implemented_function_handles))))
    (seq 0 (length (cm_function_handles module))).

Definition verify_module : vm () :=
  _ ← check_identifiers (cm_identifiers module);
  _ ← check_address_identifiers (cm_address_identifiers module);
  _ ← check_constants (cm_constant_pool module);
  _ ← check_signatures (cm_signatures module);
  _ ← check_module_handles (cm_module_handles module);
  _ ← check_module_handles (cm_friend_decls module);
  _ ← check_struct_handles (cm_struct_handles module);
  _ ← check_function_handles (cm_function_handles module);
  _ ← check_function_instantiations (cm_function_instantiations module);
  _ ← check_field_handles;
  _ ← check_field_instantiations;
  _ ← check_function_defintions;
  _ ← check_struct_definitions;
  check_struct_instantiations.
End Checker.

Definition verify_script (script : CompiledScript) : vm () :=
  _ ← check_identifiers (cs_identifiers script);
  _ ← check_address_identifiers (cs_address_identifiers script);
  _ ← check_constants (cs_constant_pool script);
  _ ← check_signatures (cs_signatures script);
  _ ← check_module_handles (cs_module_handles script);
  _ ← check_struct_handles (cs_struct_handles script);
  _ ← check_function_handles (cs_function_handles script);
  check_function_instantiations (cs_function_instantiations script).

Section ElementLemmas.
Context {A : Type} `{EqDecision A}.

Lemma first_duplicate_from_None uniq i (l : list A) : first_duplicate_from uniq i l = None <-> NoDup l /\ forall x, x ∈ l -> x ∉ uniq.
Proof.
  revert uniq i. induction l as [|x r IH]; intros uniq i; cbn; [split; [split; [constructor|set_solver]|done]|].
  rewrite NoDup_cons. case_bool_decide as Hx; [split; [done|]; intros [_ Hn]; by destruct (Hn x); [left|]|]. rewrite IH. set_solver.
Qed.

Lemma first_duplicate_from_Some uniq i (l : list A) k : first_duplicate_from uniq i l = Some k ->
  exists j x, k = i + j /\ l !! j = Some x /\ x ∈ reverse (take j l) ++ uniq /\ NoDup (take j l).
Proof.
  revert uniq i. induction l as [|x r IH]; intros uniq i Hk; cbn in Hk; [done|]. case_bool_decide as Hx.
  - injection Hk as <-. exists 0, x. split; [lia|]. split; [done|]. split; [done|constructor].
  - destruct (IH _ _ Hk) as (j & y & -> & Hy & Hin & Hnd). exists (S j), y. split; [lia|]. split; [done|]. cbn [take].
    rewrite reverse_cons, <- (assoc_L (++)). split; [done|]. constructor; [|done].
    assert (first_duplicate_from (x :: uniq) (S i) (take j r) = None) as Hn; [|by apply first_duplicate_from_None in Hn as [_ Hn]; intros Hi%Hn; set_solver].
    clear IH Hy Hin Hnd. revert Hk. generalize (x :: uniq), (S i). clear. revert j. induction r as [|z r IH]; intros [|j] u i Hk; cbn in *; [done..|].
    case_bool_decide; [injection Hk; lia|]. apply IH. by replace (S i + j) with (i + S j) by lia.
Qed.

Lemma decides_unique kind (l : list A) : decides (check_unique kind l) (NoDup l).
Proof.
  unfold check_unique, first_duplicate_element. destruct (first_duplicate_from [] 0 l) eqn:Hd; (split; [auto with settle|]).
  - split; [done|]. intros Hn. rewrite (proj2 (first_duplicate_from_None [] 0 l)) in Hd; [done|]. split; [done|]. intros x _. apply not_elem_of_nil.
  - by apply first_duplicate_from_None in Hd as [Hd _].
Qed.
End ElementLemmas.

Lemma decides_none {A} status kind (f : A -> vm bool) (P : A -> Prop) l :
  (forall x, x ∈ l -> exists b, f x = Ok b /\ (b = true <-> P x)) -> decides (check_none status kind f l) (forall x, x ∈ l -> ~ P x).
Proof.
  unfold check_none. generalize 0 at 1. induction l as [|x r IH]; intros i Hf; cbn [position mbind vm_bind].
  { split; [auto with settle|]. split; [|done]. intros _ x Hx. by apply not_elem_of_nil in Hx. }
  destruct (Hf x) as (b & Hb & HP); [left|]. rewrite Hb. vm_cbn. destruct b.
  - vm_cbn. split; [auto with settle|]. split; [done|]. intros Hn. destruct (Hn x); [left|by apply HP].
  - eapply decides_iff; [apply IH; intros y Hy; apply Hf; by right|]. split.
    + intros Hn y [->|Hy]%elem_of_cons; [|by apply Hn]. intros Hy. by apply HP in Hy.
    + intros Hn y Hy. apply Hn. by right.
Qed.

(** The handles of the module itself are those its definitions implement. *)
Definition implements {H} (module_of : H -> nat) (handles : list H) (defined : list nat) (self : nat) : Prop :=
  forall idx h, handles !! idx = Some h -> (module_of h = self <-> idx ∈ defined).

Lemma implements_decides {H} (module_of : H -> nat) self status kind status' kind' (handles : list H) (defined : list nat) (at_ : nat -> vm H) :
  (forall idx h, handles !! idx = Some h -> at_ idx = Ok h) -> Forall (fun idx => idx < length handles) defined -> (Z.of_nat (length handles) <= 65536)%Z ->
  decides (_ ← check_none status kind (fun x => h ← at_ x; Ok (negb (bool_decide (module_of h = self)))) defined;
    check_none status' kind' (fun x => h ← at_ (u16 x); Ok (bool_decide (module_of h = self) && negb (bool_decide (u16 x ∈ defined))))
      (seq 0 (length handles)))
    (implements module_of handles defined self).
Proof.
  intros Hat Hdef Hlen. rewrite Forall_forall in Hdef.
  eapply decides_iff; [apply decides_seq; [|intros _];
    [apply (decides_none _ _ _ (fun x => exists h, handles !! x = Some h /\ module_of h <> self))
    |apply (decides_none _ _ _ (fun x => exists h, handles !! x = Some h /\ module_of h = self /\ x ∉ defined))]|].
  - intros x Hx. destruct (lookup_lt_is_Some_2 _ _ (Hdef x Hx)) as [h Hh]. rewrite (Hat _ _ Hh). vm_cbn. eexists. split; [done|].
    rewrite negb_true_iff, bool_decide_eq_false. split; [intros; eauto|]. intros (h' & Hh' & Hne). by simplify_eq.
  - intros x Hx%elem_of_seq. rewrite (u16_small x) by lia. destruct (lookup_lt_is_Some_2 handles x) as [h Hh]; [lia|]. rewrite (Hat _ _ Hh). vm_cbn.
    eexists. split; [done|]. rewrite andb_true_iff, negb_true_iff, bool_decide_eq_false, bool_decide_eq_true.
    rewrite Hh. naive_solver.
  - unfold implements. split.
    + intros [H1 H2] idx h Hh. split.
      * intros Hm. destruct (decide (idx ∈ defined)) as [Hi|Hn]; [done|]. destruct (H2 idx); [|eauto]. apply elem_of_seq. apply lookup_lt_Some in Hh. lia.
      * intros Hi. destruct (decide (module_of h = self)) as [He|Hne]; [done|]. destruct (H1 idx Hi). eauto.
    + intros Hi. split; [intros x Hx (h & Hh & Hne); by apply (Hi _ _ Hh) in Hx|]. intros x _ (h & Hh & Hm & Hn). by apply (Hi _ _ Hh) in Hm.
Qed.

(** A structure has a field and its fields have distinct names. *)
Definition fields_distinct (sd : StructDefinition) : Prop :=
  match field_information sd with Native => True | Declared fields => fields <> [] /\ NoDup (map fd_name fields) end.

Section Decided.
Context (module : CompiledModule) (Hwb : Bounds.WellBounded (View.Module_ module)).
Notation resolver := (View.Module_ module).
Context (Hsh : (Z.of_nat (length (cm_struct_handles module)) <= 65536)%Z) (Hfh : (Z.of_nat (length (cm_function_handles module)) <= 65536)%Z).

Definition struct_definitions_ok : Prop :=
  NoDup (map sd_struct_handle (cm_struct_defs module)) /\ Forall fields_distinct (cm_struct_defs module) /\
  implements sh_module (cm_struct_handles module) (map sd_struct_handle (cm_struct_defs module)) (self_module_handle_idx module).

Definition function_definitions_ok : Prop :=
  NoDup (map fn_function (cm_function_defs module)) /\ Forall (fun fd => NoDup (fn_acquires_global_resources fd)) (cm_function_defs module) /\
  implements fh_module (cm_function_handles module) (map fn_function (cm_function_defs module)) (self_module_handle_idx module).

Lemma check_none_map {A B} status kind (g : A -> B) f l : check_none status kind (fun x => f (g x)) l = check_none status kind f (map g l).
Proof.
  unfold check_none. generalize 0. induction l as [|x r IH]; intros i; [done|]. cbn. destruct (f (g x)) as [[]| | |]; cbn; [done|apply IH|done..].
Qed.

Lemma check_struct_definitions_decides : decides (check_struct_definitions module) struct_definitions_ok.
Proof.
  apply decides_seq; [apply decides_unique|intros _]. apply decides_seq; [|intros _].
  - apply decides_imap. intros i sd _. unfold check_struct_fields, fields_distinct. cbn [snd]. destruct (field_information sd) as [|fields]; [apply decides_true|].
    case_bool_decide as Hf; [split; [auto with settle|]; split; [done|]; by intros []|].
    eapply decides_iff; [apply decides_unique|]. by split; [split|intros []].
  - rewrite (check_none_map _ _ sd_struct_handle (fun x => sh ← View.struct_handle_at resolver x; Ok (negb (bool_decide (sh_module sh = self_module_handle_idx module))))).
    apply implements_decides; [intros idx h Hh; by apply (FunctionViews.struct_handle_at_Ok resolver Hwb)| |done].
    pose proof (Bounds.wb_struct_defs _ Hwb) as Hd. cbn in Hd. rewrite Forall_map. eapply Forall_impl; [exact Hd|].
    intros sd (sh & Hs & _). by eapply lookup_lt_Some.
Qed.

Lemma check_function_defintions_decides : decides (check_function_defintions module) function_definitions_ok.
Proof.
  apply decides_seq; [apply decides_unique|intros _]. apply decides_seq; [|intros _].
  - apply decides_imap. intros i fd _. unfold check_acquires. cbn [snd].
    destruct (decides_unique IndexKind.FunctionDefinition (fn_acquires_global_resources fd)) as [_ Hu]. unfold check_unique in Hu.
    destruct (first_duplicate_element _); (split; [auto with settle|]); rewrite <- Hu; done.
  - rewrite (check_none_map _ _ fn_function (fun x => fh ← View.function_handle_at resolver x; Ok (negb (bool_decide (fh_module fh = self_module_handle_idx module))))).
    apply implements_decides; [intros idx h Hh; by apply (FunctionViews.function_handle_at_Ok resolver Hwb)| |done].
    pose proof (Bounds.wb_function_defs _ Hwb) as Hd. cbn in Hd. rewrite Forall_map. eapply Forall_impl; [exact Hd|].
    intros fd (fh & Hs & _). by eapply lookup_lt_Some.
Qed.

Lemma duplication_verify_decides : decides (verify_module module)
  (NoDup (cm_identifiers module) /\ NoDup (cm_address_identifiers module) /\ NoDup (cm_constant_pool module) /\ NoDup (cm_signatures module) /\
   NoDup (cm_module_handles module) /\ NoDup (cm_friend_decls module) /\
   NoDup (map (fun x => (sh_module x, sh_name x)) (cm_struct_handles module)) /\
   NoDup (map (fun x => (fh_module x, fh_name x)) (cm_function_handles module)) /\ NoDup (cm_function_instantiations module) /\
   NoDup (cm_field_handles module) /\ NoDup (cm_field_instantiations module) /\
   function_definitions_ok /\ struct_definitions_ok /\ NoDup (struct_def_instantiations module)).
Proof.
  unfold verify_module. repeat (apply decides_seq; [first [apply decides_unique|apply check_function_defintions_decides|apply check_struct_definitions_decides]|intros _]).
  apply decides_unique.
Qed.
End Decided.

(** On a module the bounds checker accepted, the duplication checker returns
    a verdict and accepts exactly when no table has an entry twice (handles are
    told apart by module and name), no acquires list and no structure names
    anything twice, every declared structure has a field, and the handles of the
    module itself are exactly those its definitions implement. *)
Theorem duplication_decided module :
  Bounds.verify_module module = Ok () ->
  (Z.of_nat (length (cm_struct_handles module)) <= 65536)%Z -> (Z.of_nat (length (cm_function_handles module)) <= 65536)%Z ->
  decides (verify_module module)
  (NoDup (cm_identifiers module) /\ NoDup (cm_address_identifiers module) /\ NoDup (cm_constant_pool module) /\ NoDup (cm_signatures module) /\
   NoDup (cm_module_handles module) /\ NoDup (cm_friend_decls module) /\
   NoDup (map (fun x => (sh_module x, sh_name x)) (cm_struct_handles module)) /\
   NoDup (map (fun x => (fh_module x, fh_name x)) (cm_function_handles module)) /\ NoDup (cm_function_instantiations module) /\
   NoDup (cm_field_handles module) /\ NoDup (cm_field_instantiations module) /\
   function_definitions_ok module /\ struct_definitions_ok module /\ NoDup (struct_def_instantiations module)).
Proof. intros [_ Hwb]%Bounds.verify_module_Ok. by apply duplication_verify_decides. Qed.

Lemma duplication_decided_witness :
  struct_definitions_ok FunctionViews.box_module /\ function_definitions_ok FunctionViews.box_module.
Proof.
  destruct (duplication_decided FunctionViews.box_module) as [_ Hd]; [vm_compute; reflexivity|vm_compute; discriminate..|].
  destruct (proj1 Hd) as (_ & _ & _ & _ & _ & _ & _ & _ & _ & _ & _ & Hf & Hs & _); [vm_compute; reflexivity|]. by split.
Defined.
End Duplication.

(** ** friends.rs *)

Module Friends.
(** [iter().any(|handle| module.address_identifier_at(handle.address) != self_address)]. *)
Fixpoint external (resolver : BinaryIndexedView) (self_address : list Z) (decls : list ModuleHandle) : vm bool :=
  match decls with
  | [] => Ok false
  | handle :: r =>
    address ← View.address_identifier_at resolver (mh_address handle);
    if bool_decide (address <> self_address) then Ok true else external resolver self_address r
  end.

Definition verify_module (module : CompiledModule) : vm () :=
  let resolver := View.Module_ module in
  self_handle ← View.module_handle_at resolver (self_module_handle_idx module);
  if bool_decide (self_handle ∈ cm_friend_decls module) then Err (error_new StatusCode.INVALID_FRIEND_DECL_WITH_SELF) else
  self ← View.module_handle_at resolver (self_module_handle_idx module);
  self_address ← View.address_identifier_at resolver (mh_address self);
  has_external_friend ← external resolver self_address (cm_friend_decls module);
  if (has_external_friend : bool) then Err (error_new StatusCode.INVALID_FRIEND_DECL_WITH_MODULES_OUTSIDE_ACCOUNT_ADDRESS) else Ok ().

Lemma external_spec resolver self decls :
  Forall (fun h => mh_address h < length (View.address_identifiers resolver)) decls ->
  exists b, external resolver self decls = Ok b /\
    (b = false <-> Forall (fun h => View.address_identifiers resolver !! mh_address h = Some self) decls).
Proof.
  induction 1 as [|h r Hh _ (b & IH & Hb)]; [by exists false|]. cbn [external].
  destruct (index_lt _ _ Hh) as (a & Hi & Ha). assert (View.address_identifier_at resolver (mh_address h) = Ok a) as -> by exact Hi.
  vm_cbn. destruct (decide (a = self)) as [->|Hne].
  - rewrite bool_decide_false by auto. exists b. split; [done|]. rewrite Hb. split; [by constructor|]. by inversion 1.
  - rewrite bool_decide_true by done. exists true. split; [done|]. split; [done|]. inversion 1; congruence.
Qed.

(** On a bounded module the friends check accepts exactly when no friend is the
    module itself or lives at another address. *)
Lemma friends_decided module : Bounds.verify_module module = Ok () ->
  decides (verify_module module)
    (exists self, cm_module_handles module !! self_module_handle_idx module = Some self /\ (self ∉ cm_friend_decls module) /\
       Forall (fun h => cm_address_identifiers module !! mh_address h = cm_address_identifiers module !! mh_address self) (cm_friend_decls module)).
Proof.
  intros [_ Hwb]%Bounds.verify_module_Ok. unfold verify_module. pose proof (Bounds.wb_self _ Hwb) as Hself. cbn in Hself.
  destruct (lookup_lt_is_Some_2 _ _ Hself) as [self Hs]. pose proof Hs as Hm.
  apply (FunctionViews.module_handle_at_Ok (View.Module_ module) Hwb) in Hm. rewrite Hm. vm_cbn.
  assert (mh_address self < length (cm_address_identifiers module)) as Haddr.
  { pose proof (Bounds.wb_module_handles _ Hwb) as Hh. rewrite Forall_lookup in Hh. by destruct (Hh _ _ Hs). }
  case_bool_decide as Hin; [split; [auto with settle|]; split; [done|]; intros (self' & Hs' & Hn & _); by simplify_eq|].
  destruct (index_lt _ _ Haddr) as (a & Hi & Ha). assert (View.address_identifier_at (View.Module_ module) (mh_address self) = Ok a) as -> by exact Hi. vm_cbn.
  destruct (external_spec (View.Module_ module) a (cm_friend_decls module)) as (b & -> & Hb).
  { eapply Forall_impl; [exact (Bounds.wb_friend_decls _ Hwb)|]. by intros h []. }
  vm_cbn. eapply decides_iff; [apply decides_guard|]. rewrite Hb. cbn [View.address_identifiers]. rewrite <- Ha. split.
  - intros Hall. by exists self.
  - intros (self' & Hs' & _ & Hall). by simplify_eq.
Qed.
End Friends.

(** ** script_signature.rs *)

Module ScriptSignature.
Definition VERSION_1 : Z := 1.
Definition VERSION_5 : Z := 5.

(** [skip_while]. *)
Fixpoint skip_while {A} (f : A -> bool) (l : list A) : list A :=
  match l with x :: r => if f x then skip_while f r else l | [] => [] end.

Definition FnCheckScriptSignature : Type := BinaryIndexedView -> bool -> nat -> option nat -> vm ().

Definition no_additional_script_signature_checks : FnCheckScriptSignature := fun _ _ _ _ => Ok ().

Definition is_signer_reference (typ : SignatureToken) : bool :=
  match typ with SignatureToken.Reference SignatureToken.Signer => true | _ => false end.

Definition legacy_script_signature_checks : FnCheckScriptSignature := fun resolver _ parameters_idx return_idx =>
  parameters ← View.signature_at resolver parameters_idx;
  return_types ← match return_idx with Some idx => View.signature_at resolver idx | None => Ok [] end;
  let signer := if (View.version resolver <=? VERSION_1)%Z then is_signer_reference else SignatureToken.is_signer in
  let all_args_have_valid_type := forallb SignatureToken.is_valid_for_constant (skip_while signer parameters) in
  let has_valid_return_type := match return_types with [] => true | _ => false end in
  if negb all_args_have_valid_type || negb has_valid_return_type
  then Err (error_new StatusCode.INVALID_MAIN_FUNCTION_SIGNATURE) else Ok ().

Section Verifier.
Context (check_signature : FnCheckScriptSignature).

Definition verify_main_signature_impl (resolver : BinaryIndexedView) (is_entry : bool) (parameters_idx : nat) (return_idx : option nat) : vm () :=
  let deprecated_logic := (View.version resolver <? VERSION_5)%Z && is_entry in
  _ ← if deprecated_logic then legacy_script_signature_checks resolver is_entry parameters_idx return_idx else Ok ();
  check_signature resolver is_entry parameters_idx return_idx.

Definition verify_module_function_signature (module : CompiledModule) (idx : nat) : vm () :=
  let resolver := View.Module_ module in
  fdef ← View.function_def_at resolver idx;
  fhandle ← View.function_handle_at resolver (fn_function fdef);
  map_err (fun e => at_index e IndexKind.FunctionDefinition idx)
    (verify_main_signature_impl resolver (fn_is_entry fdef) (fh_parameters fhandle) (Some (fh_return fhandle))).

(** The first definition a name belongs to. *)
Fixpoint find_function (module : CompiledModule) (name : string) (i : nat) (defs : list FunctionDefinition) : vm (option nat) :=
  match defs with
  | [] => Ok None
  | fdef :: r =>
    fh ← View.function_handle_at (View.Module_ module) (fn_function fdef);
    n ← View.identifier_at (View.Module_ module) (fh_name fh);
    if bool_decide (n = name) then Ok (Some i) else find_function module name (S i) r
  end.

Definition verify_module_function_signature_by_name (module : CompiledModule) (name : string) : vm () :=
  fdef_opt ← find_function module name 0 (cm_function_defs module);
  match fdef_opt with
  | None => Err (error_new StatusCode.VERIFICATION_ERROR)
  | Some idx => verify_module_function_signature module (u16 idx)
  end.

Definition verify_entry (module : CompiledModule) (p : nat * FunctionDefinition) : vm () :=
  if fn_is_entry p.2 then verify_module_function_signature module (u16 p.1) else Ok ().

Definition verify_module (module : CompiledModule) : vm () :=
  if (cm_version module <? VERSION_5)%Z then Ok ()
  else vfor (verify_entry module) (imap pair (cm_function_defs module)).

Definition verify_script (script : CompiledScript) : vm () :=
  if (VERSION_5 <=? cs_version script)%Z then Ok ()
  else verify_main_signature_impl (View.Script script) true (cs_parameters script) None.

(** The legacy rules do not run on modules: the check of a module passes the
    signature of every entry function to [check_signature] from version 5 on,
    and is skipped before. *)
Lemma entry_signatures module :
  Bounds.verify_module module = Ok () -> (Z.of_nat (length (cm_function_defs module)) <= 65536)%Z ->
  (verify_module module = Ok () <-> ((cm_version module < VERSION_5)%Z \/
     forall idx fd fh, cm_function_defs module !! idx = Some fd -> fn_is_entry fd = true -> cm_function_handles module !! fn_function fd = Some fh ->
       check_signature (View.Module_ module) true (fh_parameters fh) (Some (fh_return fh)) = Ok ())).
Proof.
  intros [_ Hwb]%Bounds.verify_module_Ok Hlen. unfold verify_module. destruct (Z.ltb_spec (cm_version module) VERSION_5) as [Hv|Hv]; [by split; [left|]|].
  rewrite vfor_Ok, Forall_lookup. setoid_rewrite list_lookup_imap. pose proof (Bounds.wb_function_defs _ Hwb) as Hd. cbn in Hd. rewrite Forall_lookup in Hd.
  assert (forall idx fd fh, cm_function_defs module !! idx = Some fd -> fn_is_entry fd = true -> cm_function_handles module !! fn_function fd = Some fh ->
    (verify_entry module (idx, fd) = Ok () <-> check_signature (View.Module_ module) true (fh_parameters fh) (Some (fh_return fh)) = Ok ())) as He.
  { intros idx fd fh Hfd Hentry Hfh. pose proof (lookup_lt_Some _ _ _ Hfd). unfold verify_entry. cbn [snd fst]. rewrite Hentry, u16_small by lia.
    unfold verify_module_function_signature.
    assert (View.function_def_at (View.Module_ module) idx = Ok fd) as ->.
    { destruct (Hd _ _ Hfd) as (fh' & Hfh' & _ & Hc). unfold View.function_def_at, View.only_in_module. cbn [View.function_defs].
      rewrite (proj2 (index_Ok _ _ _) Hfd). vm_cbn. rewrite !(FunctionViews.module_assert_true _ Hwb); [done| |].
      - apply bool_decide_eq_true. exact (lookup_lt_Some _ _ _ Hfh').
      - destruct (fn_code fd) as [cu|]; [|done]. destruct Hc as (? & _ & locals & Hl & _). apply bool_decide_eq_true. exact (lookup_lt_Some _ _ _ Hl). }
    vm_cbn. rewrite (proj2 (FunctionViews.function_handle_at_Ok (View.Module_ module) Hwb _ _) Hfh). vm_cbn. unfold verify_main_signature_impl.
    assert ((View.version (View.Module_ module) <? VERSION_5)%Z = false) as -> by (apply Z.ltb_ge; done). cbn [andb]. vm_cbn. rewrite Hentry.
    destruct (check_signature _ _ _ _) as [[]| | |]; done. }
  split.
  - intros Hall. right. intros idx fd fh Hfd Hentry Hfh. apply (He _ _ _ Hfd Hentry Hfh). apply (Hall idx). by rewrite Hfd.
  - intros [Hlt|Hall] idx [k fd] Hk; [lia|]. destruct (cm_function_defs module !! idx) as [fd'|] eqn:Hfd; [|done]. cbn in Hk. injection Hk as <- <-.
    destruct (fn_is_entry fd') eqn:Hentry; [|unfold verify_entry; cbn; by rewrite Hentry].
    destruct (Hd _ _ Hfd) as (fh & Hfh & _). by eapply He; [..|eapply Hall].
Qed.
End Verifier.
End ScriptSignature.
