(* ===== verification/MoveAcquires.v ===== *)
(** The acquires lists of functions: acquires_list_verifier.rs of
    external/move/move-bytecode-verifier/src.

    A function lists the resources of its module it may take from global
    storage or borrow there. The checker looks at the instructions of one body
    and at the lists of the functions it calls; the theorem is about what a call
    can reach through any chain of calls inside the module: nothing of it is
    missing on the lists, and without recursion nothing else is on them. *)

From stdpp Require Import list gmap strings.
From S2P Require Import Prelude MoveFormat MoveBounds MoveCfg MoveSearch MoveFunction MoveStack MoveModuleChecks.

Module Acquires.
Section Verifier.
Context (module : CompiledModule) (current_function : nat).
Notation resolver := (View.Module_ module).

Definition error (status : StatusCode) (offset : nat) : PartialVMError :=
  at_code_offset (error_new status) current_function offset.

(** The definitions by their handles, the last one winning. *)
Definition handle_to_def : gmap nat FunctionDefinition :=
  fold_left (fun m func_def => <[fn_function func_def := func_def]> m) (cm_function_defs module) ∅.

Definition function_acquired_resources (function_handle : FunctionHandle) (fh_idx : nat) : gset nat :=
  if bool_decide (fh_module function_handle <> self_module_handle_idx module) then ∅ else
  match handle_to_def !! fh_idx with
  | Some func_def => list_to_set (fn_acquires_global_resources func_def)
  | None => ∅
  end.

Context (annotated_acquires : gset nat).

(** The state is [actual_acquires]. *)
Definition call_acquire (actual_acquires : gset nat) (fh_idx offset : nat) : vm (gset nat) :=
  function_handle ← View.function_handle_at resolver fh_idx;
  let acquired := function_acquired_resources function_handle fh_idx in
  if bool_decide (acquired ⊆ annotated_acquires) then Ok (actual_acquires ∪ acquired)
  else Err (error StatusCode.MISSING_ACQUIRES_ANNOTATION offset).

Definition struct_acquire (actual_acquires : gset nat) (sd_idx offset : nat) : vm (gset nat) :=
  if bool_decide (sd_idx ∈ annotated_acquires) then Ok ({[sd_idx]} ∪ actual_acquires)
  else Err (error StatusCode.MISSING_ACQUIRES_ANNOTATION offset).

Definition verify_instruction (actual_acquires : gset nat) (p : nat * Bytecode) : vm (gset nat) :=
  let '(offset, instruction) := p in
  match instruction with
  | Bytecode.Call idx => call_acquire actual_acquires idx (u16 offset)
  | Bytecode.CallGeneric idx =>
    fi ← View.function_instantiation_at resolver idx;
    call_acquire actual_acquires (fi_handle fi) (u16 offset)
  | Bytecode.MoveFrom idx | Bytecode.MutBorrowGlobal idx | Bytecode.ImmBorrowGlobal idx => struct_acquire actual_acquires idx (u16 offset)
  | Bytecode.MoveFromGeneric idx | Bytecode.MutBorrowGlobalGeneric idx | Bytecode.ImmBorrowGlobalGeneric idx =>
    si ← View.struct_instantiation_at resolver idx;
    struct_acquire actual_acquires (si_def si) (u16 offset)
  | _ => Ok actual_acquires
  end.

(** An annotation is used and names a resource. *)
Definition verify_annotation (actual_acquires : gset nat) (annotation : nat) : vm () :=
  if negb (bool_decide (annotation ∈ actual_acquires)) then Err (error_new StatusCode.EXTRANEOUS_ACQUIRES_ANNOTATION) else
  struct_def ← index (cm_struct_defs module) annotation;
  struct_handle ← View.struct_handle_at resolver (sd_struct_handle struct_def);
  if negb (AbilitySet.has_key (sh_abilities struct_handle)) then Err (error_new StatusCode.INVALID_ACQUIRES_ANNOTATION) else Ok ().
End Verifier.

Definition verify (module : CompiledModule) (index : nat) (function_definition : FunctionDefinition) : vm () :=
  let annotated_acquires : gset nat := list_to_set (fn_acquires_global_resources function_definition) in
  match fn_code function_definition with
  | None => Panicked
  | Some code =>
    actual_acquires ← vfold (verify_instruction module index annotated_acquires) (imap pair (cu_code code)) ∅;
    vfor (verify_annotation module actual_acquires) (sort_by Nat.leb (elements annotated_acquires))
  end.

(** ** What it accepts *)

Section Spec.
Context (module : CompiledModule).

(** The resource an instruction takes or borrows from global storage. *)
Definition accesses (instruction : Bytecode) : option nat :=
  match instruction with
  | Bytecode.MoveFrom idx | Bytecode.MutBorrowGlobal idx | Bytecode.ImmBorrowGlobal idx => Some idx
  | Bytecode.MoveFromGeneric idx | Bytecode.MutBorrowGlobalGeneric idx | Bytecode.ImmBorrowGlobalGeneric idx =>
    si_def <$> struct_def_instantiations module !! idx
  | _ => None
  end.

(** The handle an instruction calls. *)
Definition calls (instruction : Bytecode) : option nat :=
  match instruction with
  | Bytecode.Call idx => Some idx
  | Bytecode.CallGeneric idx => fi_handle <$> cm_function_instantiations module !! idx
  | _ => None
  end.

(** A call of the function of a handle can access a resource, through any chain
    of calls of functions of the module; a native function accesses what it
    declares. *)
Inductive reaches : nat -> nat -> Prop :=
| reaches_native fd s :
    fd ∈ cm_function_defs module -> fn_code fd = None -> s ∈ fn_acquires_global_resources fd -> reaches (fn_function fd) s
| reaches_access fd cu i s :
    fd ∈ cm_function_defs module -> fn_code fd = Some cu -> i ∈ cu_code cu -> accesses i = Some s -> reaches (fn_function fd) s
| reaches_call fd cu i h s :
    fd ∈ cm_function_defs module -> fn_code fd = Some cu -> i ∈ cu_code cu -> calls i = Some h -> reaches h s -> reaches (fn_function fd) s.

(** The function of the handle [f] has a call of [g] in its body. *)
Definition called_by (g f : nat) : Prop :=
  exists fd cu i, fd ∈ cm_function_defs module /\ fn_function fd = f /\ fn_code fd = Some cu /\ i ∈ cu_code cu /\ calls i = Some g.

(** What one instruction makes its function acquire. *)
Definition acquired_by (instruction : Bytecode) (s : nat) : Prop :=
  accesses instruction = Some s \/
  exists h fd, calls instruction = Some h /\ fd ∈ cm_function_defs module /\ fn_function fd = h /\ s ∈ fn_acquires_global_resources fd.

Definition is_resource (s : nat) : Prop :=
  exists sd sh, cm_struct_defs module !! s = Some sd /\ cm_struct_handles module !! sd_struct_handle sd = Some sh /\ AbilitySet.has_key (sh_abilities sh) = true.

(** The list of a function names what its instructions acquire, and nothing but
    resources. *)
Definition acquires_ok (fd : FunctionDefinition) (code : list Bytecode) : Prop :=
  (forall i s, i ∈ code -> acquired_by i s -> s ∈ fn_acquires_global_resources fd) /\
  forall s, s ∈ fn_acquires_global_resources fd -> (exists i, i ∈ code /\ acquired_by i s) /\ is_resource s.

(** The list of a function names the resources a call of it can access. *)
Definition list_exact (fd : FunctionDefinition) : Prop :=
  forall s, (s ∈ fn_acquires_global_resources fd <-> reaches (fn_function fd) s) /\
    (s ∈ fn_acquires_global_resources fd -> is_resource s).
End Spec.

Lemma elem_of_positions {A} (l : list A) x : x ∈ l <-> exists p, p ∈ imap pair l /\ p.2 = x.
Proof.
  split.
  - intros [k Hk]%list_elem_of_lookup. exists (k, x). split; [|done]. apply list_elem_of_lookup. exists k. by rewrite list_lookup_imap, Hk.
  - intros ([k y] & [j Hj]%list_elem_of_lookup & <-). rewrite list_lookup_imap in Hj. destruct (l !! j) as [z|] eqn:Hz; [|done].
    cbn in Hj. injection Hj as <- <-. by eapply list_elem_of_lookup_2.
Qed.

Section Decided.
Context (module : CompiledModule) (Hwb : Bounds.WellBounded (View.Module_ module)) (Hdup : Duplication.function_definitions_ok module).
Notation resolver := (View.Module_ module).

Lemma handle_to_def_lookup h fd : handle_to_def module !! h = Some fd <-> fd ∈ cm_function_defs module /\ fn_function fd = h.
Proof.
  destruct Hdup as [Hnd _]. unfold handle_to_def. revert Hnd.
  induction (cm_function_defs module) as [|d l IH] using rev_ind; intros Hnd; [cbn; rewrite lookup_empty; set_solver|].
  rewrite map_app in Hnd. apply NoDup_app in Hnd as (Hnd & Hdis & _). rewrite fold_left_app. cbn. rewrite lookup_insert_Some, (IH Hnd).
  rewrite elem_of_app, list_elem_of_singleton. split; [naive_solver|].
  intros [[Hin| ->] Hh]; [right|by left]. split; [|done]. intros He. apply (Hdis h); [subst h; by apply list_elem_of_fmap_2|]. rewrite <- He. left.
Qed.

Lemma function_acquired_spec h fh s : cm_function_handles module !! h = Some fh ->
  s ∈ function_acquired_resources module fh h <-> exists fd, fd ∈ cm_function_defs module /\ fn_function fd = h /\ s ∈ fn_acquires_global_resources fd.
Proof.
  intros Hfh. unfold function_acquired_resources. destruct Hdup as (_ & _ & Himp). specialize (Himp _ _ Hfh).
  case_bool_decide as Hm.
  - split; [set_solver|]. intros (fd & Hin & <- & _). destruct Hm. apply Himp. by apply list_elem_of_fmap_2.
  - destruct (handle_to_def module !! h) as [fd|] eqn:Hd.
    + pose proof Hd as Hd'. apply handle_to_def_lookup in Hd' as [Hin Hh]. rewrite elem_of_list_to_set. split; [eauto|].
      intros (fd' & Hin' & Hh' & Hs). assert (handle_to_def module !! h = Some fd') by by apply handle_to_def_lookup. by simplify_eq.
    + split; [set_solver|]. intros (fd & Hin & Hh & _). assert (handle_to_def module !! h = Some fd) by by apply handle_to_def_lookup. congruence.
Qed.

(** One instruction adds what it acquires, if that is annotated. *)
Definition adds (annotated actual : gset nat) (i : Bytecode) (r : vm (gset nat)) : Prop :=
  exists acquired : gset nat, (forall s, s ∈ acquired <-> acquired_by module i s) /\
    ((acquired ⊆ annotated /\ r = Ok (acquired ∪ actual)) \/ (~ acquired ⊆ annotated /\ exists e, r = Err e)).

Lemma call_acquire_adds idx annotated actual off i h : h < length (cm_function_handles module) -> calls module i = Some h -> accesses module i = None ->
  adds annotated actual i (call_acquire module idx annotated actual h off).
Proof.
  intros Hh Hc Ha. destruct (lookup_lt_is_Some_2 _ _ Hh) as [fh Hfh]. unfold call_acquire.
  rewrite (proj2 (FunctionViews.function_handle_at_Ok resolver Hwb _ _) Hfh). vm_cbn. exists (function_acquired_resources module fh h). split.
  - intros s. rewrite (function_acquired_spec _ _ _ Hfh). unfold acquired_by. rewrite Ha, Hc. naive_solver.
  - case_bool_decide; [left|right; eauto]. split; [done|]. by rewrite (union_comm_L actual).
Qed.

Lemma struct_acquire_adds idx annotated actual off i sd : calls module i = None -> accesses module i = Some sd ->
  adds annotated actual i (struct_acquire idx annotated actual sd off).
Proof.
  intros Hc Ha. unfold struct_acquire. exists {[sd]}. split; [intros s; unfold acquired_by; rewrite Ha, Hc; set_solver|].
  case_bool_decide; [left|right]; (split; [set_solver|eauto]).
Qed.

Lemma verify_instruction_adds idx annotated actual off i tpc lc cl : Bounds.instr_bounded resolver tpc lc cl i ->
  adds annotated actual i (verify_instruction module idx annotated actual (off, i)).
Proof.
  intros Hb. destruct i; cbn [verify_instruction]; try (by apply struct_acquire_adds); cbn in Hb;
    try (exists ∅; split; [intros s; unfold acquired_by; cbn; set_solver|]; left; split; [set_solver|]; by rewrite union_empty_l_L).
  1: by apply call_acquire_adds.
  1: {
    destruct Hb as [Hlt _]. destruct (index_lt _ _ Hlt) as (fi & Hi & Hfi). assert (View.function_instantiation_at resolver idx0 = Ok fi) as -> by exact Hi. vm_cbn.
    apply call_acquire_adds; cbn; [exact (FunctionViews.function_instantiation_bounded resolver _ _ Hwb Hfi)| |done]. by rewrite Hfi. }
  all: destruct Hb as [Hlt _]; cbn in Hlt; destruct (index_lt _ _ Hlt) as (si & Hi & Hsi);
    assert (View.struct_instantiation_at resolver idx0 = Ok si) as -> by exact Hi; vm_cbn; apply struct_acquire_adds; [done|]; cbn; by rewrite Hsi.
Qed.

Lemma instructions_spec idx annotated tpc lc cl l actual :
  Forall (fun p => Bounds.instr_bounded resolver tpc lc cl p.2) l ->
  settles (vfold (verify_instruction module idx annotated) l actual) /\
  ((exists actual', vfold (verify_instruction module idx annotated) l actual = Ok actual' /\
      (forall p s, p ∈ l -> acquired_by module p.2 s -> s ∈ annotated) /\
      (forall s, s ∈ actual' <-> s ∈ actual \/ exists p, p ∈ l /\ acquired_by module p.2 s)) \/
   (exists e p s, vfold (verify_instruction module idx annotated) l actual = Err e /\ p ∈ l /\ acquired_by module p.2 s /\ s ∉ annotated)).
Proof.
  intros Hl. revert actual. induction Hl as [|[off i] l Hi _ IH]; intros actual; cbn [vfold].
  { split; [apply settles_Ok|]. left. exists actual. split; [done|]. set_solver. }
  destruct (verify_instruction_adds idx annotated actual off i _ _ _ Hi) as (acq & Hacq & [[Hsub ->]|[Hsub [e ->]]]); vm_cbn.
  - destruct (IH (acq ∪ actual)) as [Hset [(actual' & He & Hall & Hel)|(e & p & s & He & Hp & Ha & Hs)]]; (split; [done|]).
    + left. exists actual'. split; [done|]. split.
      * intros p s [->|Hp]%elem_of_cons Ha; [by apply Hsub, Hacq|by eapply Hall].
      * intros s. rewrite Hel, elem_of_union, Hacq. setoid_rewrite elem_of_cons. naive_solver.
    + right. exists e, p, s. split; [done|]. split; [by right|done].
  - split; [apply settles_Err|]. right. assert (exists s, s ∈ acq /\ s ∉ annotated) as (s & Hs & Hn).
    { destruct (decide (set_Exists (fun s => s ∉ annotated) acq)) as [(s & ? & ?)|Hn]; [eauto|]. destruct Hsub. intros s Hs.
      destruct (decide (s ∈ annotated)); [done|]. destruct Hn. by exists s. }
    exists e, (off, i), s. split; [done|]. split; [left|]. split; [by apply Hacq|done].
Qed.

Lemma verify_annotation_decides actual s : s < length (cm_struct_defs module) ->
  decides (verify_annotation module actual s) (s ∈ actual /\ is_resource module s).
Proof.
  intros Hlt. unfold verify_annotation, is_resource. case_bool_decide as Hin; cbn [negb]; [|split; [auto with settle|]; split; [done|]; by intros []].
  destruct (index_lt _ _ Hlt) as (sd & -> & Hsd). vm_cbn. pose proof (Bounds.wb_struct_defs _ Hwb) as Hd. cbn in Hd. rewrite Forall_lookup in Hd.
  destruct (Hd _ _ Hsd) as (sh & Hsh & _). rewrite (proj2 (FunctionViews.struct_handle_at_Ok resolver Hwb _ _) Hsh). vm_cbn.
  eapply decides_iff; [apply decides_guard|]. rewrite negb_false_iff, Hsd. cbn in Hsh. naive_solver.
Qed.

Lemma acquires_verify_decides idx fd cu : fd ∈ cm_function_defs module -> fn_code fd = Some cu ->
  decides (verify module idx fd) (acquires_ok module fd (cu_code cu)).
Proof.
  intros Hfd Hcu. unfold verify, acquires_ok. rewrite Hcu.
  pose proof (Bounds.wb_function_defs _ Hwb) as Hd. cbn in Hd. rewrite Forall_forall in Hd. destruct (Hd _ Hfd) as (fh & _ & Hacq & Hc). rewrite Hcu in Hc.
  destruct Hc as (params & _ & locals & _ & _ & _ & Hin). rewrite Forall_forall in Hacq. rewrite Forall_forall in Hin.
  destruct (instructions_spec idx (list_to_set (fn_acquires_global_resources fd)) (length (fh_type_parameters fh)) (length locals + length params) (length (cu_code cu)) (imap pair (cu_code cu)) ∅) as [Hset Hcase].
  { apply Forall_forall. intros p Hp. apply Hin. apply elem_of_positions. eauto. }
  setoid_rewrite elem_of_list_to_set in Hcase. setoid_rewrite (elem_of_positions (cu_code cu)).
  destruct Hcase as [(actual & -> & Hall & Hel)|(e & p & s & -> & Hp & Ha & Hs)]; vm_cbn.
  - eapply decides_iff; [apply (decides_vfor _ (fun s => s ∈ actual /\ is_resource module s))|].
    + intros s. rewrite elem_of_sort_by, elem_of_elements, elem_of_list_to_set. intros Hs. apply verify_annotation_decides. exact (Hacq _ Hs).
    + rewrite Forall_forall. setoid_rewrite elem_of_sort_by. setoid_rewrite elem_of_elements. setoid_rewrite elem_of_list_to_set. setoid_rewrite Hel. set_solver.
  - split; [auto with settle|]. split; [done|]. intros [Hall _]. destruct Hs. eapply Hall; eauto.
Qed.

Lemma definition_unique fd fd' :
  fd ∈ cm_function_defs module -> fd' ∈ cm_function_defs module -> fn_function fd = fn_function fd' -> fd = fd'.
Proof.
  intros H1 H2 He. assert (handle_to_def module !! fn_function fd = Some fd) by by apply handle_to_def_lookup.
  assert (handle_to_def module !! fn_function fd = Some fd') by by apply handle_to_def_lookup. congruence.
Qed.

(** Every function with a body is accepted. *)
Definition accepted : Prop :=
  forall idx fd cu, cm_function_defs module !! idx = Some fd -> fn_code fd = Some cu -> verify module idx fd = Ok ().

Lemma accepted_ok : accepted <-> forall fd cu, fd ∈ cm_function_defs module -> fn_code fd = Some cu -> acquires_ok module fd (cu_code cu).
Proof.
  split.
  - intros Hall fd cu Hfd Hcu. apply list_elem_of_lookup in Hfd as Hi. destruct Hi as [idx Hi].
    apply (acquires_verify_decides idx fd cu Hfd Hcu). by eapply Hall.
  - intros Hok idx fd cu Hi Hcu. assert (fd ∈ cm_function_defs module) as Hfd by by eapply list_elem_of_lookup_2.
    apply (acquires_verify_decides idx fd cu Hfd Hcu). by apply Hok.
Qed.

(** Nothing is missing: what a call reaches is on the list. *)
Lemma reaches_annotated : accepted ->
  forall h s, reaches module h s -> forall fd, fd ∈ cm_function_defs module -> fn_function fd = h -> s ∈ fn_acquires_global_resources fd.
Proof.
  rewrite accepted_ok. intros Hok.
  induction 1 as [fd s Hfd Hn Hs|fd cu i s Hfd Hcu Hi Ha|fd cu i h s Hfd Hcu Hi Hc Hr IH]; intros fd' Hfd' He;
    rewrite (definition_unique fd' fd Hfd' Hfd He).
  - done.
  - destruct (Hok _ _ Hfd Hcu) as [Hin _]. eapply Hin; [done|]. by left.
  - destruct (Hok _ _ Hfd Hcu) as [Hin _]. eapply Hin; [done|]. right.
    assert (exists callee, callee ∈ cm_function_defs module /\ fn_function callee = h) as (callee & Hcallee & Hh) by (destruct Hr; eauto).
    exists h, callee. split; [done|]. split; [done|]. split; [done|]. by apply (IH callee).
Qed.

(** Without recursion nothing is listed in vain. *)
Lemma annotated_reaches : accepted -> well_founded (called_by module) ->
  forall fd s, fd ∈ cm_function_defs module -> s ∈ fn_acquires_global_resources fd -> reaches module (fn_function fd) s.
Proof.
  rewrite accepted_ok. intros Hok Hwf fd. remember (fn_function fd) as h eqn:Hh. revert fd Hh.
  induction h as [h IH] using (well_founded_ind Hwf). intros fd -> s Hfd Hs.
  destruct (fn_code fd) as [cu|] eqn:Hcu; [|by apply reaches_native].
  destruct (Hok _ _ Hfd Hcu) as [_ Hin]. destruct (Hin s Hs) as [(i & Hi & Hacq) _]. destruct Hacq as [Ha|(g & gd & Hc & Hgd & <- & Hgs)].
  - by eapply reaches_access.
  - eapply reaches_call; [done..|]. apply (IH (fn_function gd)) with gd; try done. by exists fd, cu, i.
Qed.

Lemma exact_accepted : (forall fd cu, fd ∈ cm_function_defs module -> fn_code fd = Some cu -> list_exact module fd) -> accepted.
Proof.
  intros Hex. apply accepted_ok. intros fd cu Hfd Hcu. pose proof (Hex _ _ Hfd Hcu) as Hfex.
  assert (forall gd s, gd ∈ cm_function_defs module -> s ∈ fn_acquires_global_resources gd <-> reaches module (fn_function gd) s) as Hiff.
  { intros gd s Hgd. destruct (fn_code gd) as [cu'|] eqn:Hcu'; [by apply (Hex _ _ Hgd Hcu')|]. split; [by apply reaches_native|].
    intros Hr. remember (fn_function gd) as h eqn:Hh. destruct Hr as [fd' ? Hfd'|fd' ? ? ? Hfd'|fd' ? ? ? ? Hfd'];
      apply (definition_unique fd' gd Hfd' Hgd) in Hh as ->; congruence. }
  split.
  - intros i s Hi [Ha|(g & gd & Hc & Hgd & <- & Hgs)]; apply Hfex; [by eapply reaches_access|].
    eapply reaches_call; [done..|]. by apply Hiff.
  - intros s Hs. split; [|by apply Hfex]. apply (proj1 (proj1 (Hfex s))) in Hs. remember (fn_function fd) as h eqn:Hh.
    destruct Hs as [fd' s Hfd' Hn|fd' cu' i s Hfd' Hcu' Hi Ha|fd' cu' i g s Hfd' Hcu' Hi Hc Hr];
      apply (definition_unique fd' fd Hfd' Hfd) in Hh as ->; simplify_eq.
    + exists i. split; [done|]. by left.
    + exists i. split; [done|]. right. assert (exists gd, gd ∈ cm_function_defs module /\ fn_function gd = g) as (gd & Hgd & <-) by (destruct Hr; eauto).
      exists (fn_function gd), gd. split; [done|]. split; [done|]. split; [done|]. by apply Hiff.
Qed.

Lemma accepted_resources fd cu s : accepted -> fd ∈ cm_function_defs module -> fn_code fd = Some cu ->
  s ∈ fn_acquires_global_resources fd -> is_resource module s.
Proof. rewrite accepted_ok. intros Hok Hfd Hcu Hs. by apply (Hok _ _ Hfd Hcu). Qed.
End Decided.

(** C25: In a module the bounds and duplication checkers accepted, the check of
    acquires lists returns a verdict on every function with a body. If it accepts
    all of them no resource is missing: whatever a call can take or borrow from
    storage, through any chain of calls in the module, is on the list of the
    called function. If moreover no function calls itself, directly or through
    others, acceptance is exact: the lists are those of the resources that a call
    can access, no more and no less, all of them structures with the key ability.
    Native functions are taken to access what they declare. *)
Theorem acquires_sound module :
  Bounds.verify_module module = Ok () -> Duplication.verify_module module = Ok () ->
  (Z.of_nat (length (cm_struct_handles module)) <= 65536)%Z -> (Z.of_nat (length (cm_function_handles module)) <= 65536)%Z ->
  (forall idx fd cu, fd ∈ cm_function_defs module -> fn_code fd = Some cu -> settles (verify module idx fd)) /\
  (accepted module -> forall fd s, fd ∈ cm_function_defs module -> reaches module (fn_function fd) s -> s ∈ fn_acquires_global_resources fd) /\
  (well_founded (called_by module) ->
   accepted module <-> forall fd cu, fd ∈ cm_function_defs module -> fn_code fd = Some cu -> list_exact module fd).
Proof.
  intros [_ Hwb]%Bounds.verify_module_Ok Hdup Hsh Hfh.
  apply (Duplication.duplication_verify_decides module Hwb Hsh Hfh) in Hdup as (_ & _ & _ & _ & _ & _ & _ & _ & _ & _ & _ & Hfd & _).
  split; [intros; by eapply acquires_verify_decides|]. split; [intros Hall fd s Hin Hr; by eapply reaches_annotated|].
  intros Hwf. split; [|by apply exact_accepted]. intros Hall fd cu Hin Hcu s.
  split; [split; [by apply annotated_reaches|intros Hr; by eapply reaches_annotated]|by eapply accepted_resources].
Qed.

(** ** A sample module *)

(** [struct Coin has key { v: u64 }], a function that borrows it, one that calls
    that one, and one that only calls itself; all list [Coin]. *)
Definition key_only : AbilitySet := Ability.to_u8 Ability.Key.

Definition coin_function (name : nat) (code : list Bytecode) : FunctionHandle * FunctionDefinition :=
  ({| fh_module := 0; fh_name := name; fh_parameters := 1; fh_return := 0; fh_type_parameters := [] |},
   {| fn_function := name; fn_visibility := Public; fn_is_entry := false; fn_acquires_global_resources := [0];
      fn_code := Some {| cu_locals := 0; cu_code := code |} |}).

Definition coin_functions : list (FunctionHandle * FunctionDefinition) :=
  [coin_function 0 [Bytecode.MoveLoc 0; Bytecode.ImmBorrowGlobal 0; Bytecode.Pop; Bytecode.Ret];
   coin_function 1 [Bytecode.MoveLoc 0; Bytecode.Call 0; Bytecode.Ret];
   coin_function 2 [Bytecode.MoveLoc 0; Bytecode.Call 2; Bytecode.Ret]].

Definition coin_module : CompiledModule :=
  empty_module <| cm_signatures := [[]; [SignatureToken.Address]] |> <| cm_identifiers := ["coin"; "transfer"; "spin"] |>
    <| cm_struct_handles := [{| sh_module := 0; sh_name := 0; sh_abilities := key_only; sh_type_parameters := [] |}] |>
    <| cm_struct_defs := [{| sd_struct_handle := 0; field_information := Declared [{| fd_name := 0; fd_signature := SignatureToken.U64 |}] |}] |>
    <| cm_function_handles := map fst coin_functions |> <| cm_function_defs := map snd coin_functions |>.

(** The same without the function that calls itself. *)
Definition transfer_module : CompiledModule :=
  coin_module <| cm_function_handles := map fst (take 2 coin_functions) |> <| cm_function_defs := map snd (take 2 coin_functions) |>.

Lemma transfer_calls : well_founded (called_by transfer_module).
Proof.
  assert (forall g f, called_by transfer_module g f -> g < f) as Hlt; [|apply (well_founded_lt_compat _ id); exact Hlt].
  intros g f (fd & cu & i & Hfd & <- & Hcu & Hi & Hc).
  repeat (apply elem_of_cons in Hfd as [->|Hfd]; [cbn in Hcu; injection Hcu as <-; cbn in Hi|]); try (by apply not_elem_of_nil in Hfd);
    repeat (apply elem_of_cons in Hi as [->|Hi]; [cbn in Hc; try done; injection Hc as <-; cbn; lia|]); by apply not_elem_of_nil in Hi.
Qed.

Lemma acquires_sound_witness :
  accepted transfer_module /\ reaches transfer_module 1 0 /\ forall s, reaches transfer_module 1 s -> s ∈ [0].
Proof.
  destruct (acquires_sound transfer_module) as (_ & Hs & Hex); [vm_compute; reflexivity..|vm_compute; discriminate|vm_compute; discriminate|].
  assert (accepted transfer_module) as Hall.
  { intros [|[|idx]] fd cu Hfd Hcu; [injection Hfd as <-; vm_compute; reflexivity..|discriminate]. }
  set (fd := (coin_function 1 [Bytecode.MoveLoc 0; Bytecode.Call 0; Bytecode.Ret]).2).
  assert (fd ∈ cm_function_defs transfer_module) as Hfd by (right; left).
  split; [exact Hall|]. split.
  - apply (proj1 (proj1 (Hex transfer_calls) Hall fd _ Hfd eq_refl 0)). left.
  - intros s Hr. exact (Hs Hall fd s Hfd Hr).
Defined.

(** The lists are not exact: a function that only calls itself lists a resource
    that none of its calls can access, and is accepted. *)
Lemma acquires_not_exact :
  verify coin_module 2 (coin_function 2 [Bytecode.MoveLoc 0; Bytecode.Call 2; Bytecode.Ret]).2 = Ok () /\ forall s, ~ reaches coin_module 2 s.
Proof.
  split; [vm_compute; reflexivity|]. intros s Hr. remember 2 as h eqn:Hh.
  induction Hr as [fd s Hfd Hcu Hs|fd cu i s Hfd Hcu Hi Ha|fd cu i h s Hfd Hcu Hi Hc Hr IH];
    repeat (apply elem_of_cons in Hfd as [->|Hfd]; [cbn in Hh, Hcu; simplify_eq|]); try (by apply not_elem_of_nil in Hfd).
  - set_solver.
  - apply IH. set_solver.
Qed.
End Acquires.
