(* ===== verification/MoveAbilities.v ===== *)
(** Abilities of structures and of their fields: ability_field_requirements.rs
    of external/move/move-bytecode-verifier/src.

    The checker compares the abilities a structure declares with those of its
    field types, taking every type parameter to have all abilities. Together
    with the phantom check of [MoveSignatures] this is enough for every
    instance: the theorem is that a value can be copied, dropped or stored only
    if the values in it can. *)

From stdpp Require Import list.
From S2P Require Import Prelude MoveFormat MoveBounds MoveCfg MoveSearch MoveFunction MoveSignatures MoveConsistency MoveStack MoveAbsint MoveTypes MoveTyping MoveTypeSafety.

Module AbilityFields.
Section Checker.
Context (module : CompiledModule).
Notation resolver := (View.Module_ module).

Definition required_abilities (abilities : AbilitySet) : AbilitySet :=
  foldl AbilitySet.bitor AbilitySet.EMPTY (map Ability.requires (AbilitySet.into_iter abilities)).

Definition verify_field (idx : nat) (required : AbilitySet) (type_parameter_abilities : list AbilitySet) (field : FieldDefinition) : vm () :=
  field_abilities ← View.abilities resolver (fd_signature field) type_parameter_abilities;
  if negb (AbilitySet.is_subset required field_abilities)
  then Err (verification_error StatusCode.FIELD_MISSING_TYPE_ABILITY IndexKind.StructDefinition (u16 idx)) else Ok ().

Definition verify_struct_def (p : nat * StructDefinition) : vm () :=
  let '(idx, struct_def) := p in
  sh ← View.struct_handle_at resolver (sd_struct_handle struct_def);
  match field_information struct_def with
  | Native => Ok ()
  | Declared fields =>
    let type_parameter_abilities := map (fun _ => AbilitySet.ALL) (sh_type_parameters sh) in
    vfor (verify_field idx (required_abilities (sh_abilities sh)) type_parameter_abilities) fields
  end.

Definition verify_module : vm () := vfor verify_struct_def (imap pair (cm_struct_defs module)).
End Checker.

(** ** Sets of abilities *)

Lemma required_has s a : AbilitySet.has_ability s a = true -> AbilitySet.has_ability (required_abilities s) (Ability.requires a) = true.
Proof.
  intros Ha. unfold required_abilities. rewrite FormatSafety.into_iter_spec, !filter_cons, filter_nil.
  destruct (AbilitySet.has_ability s Ability.Copy) eqn:H0, (AbilitySet.has_ability s Ability.Drop) eqn:H1,
    (AbilitySet.has_ability s Ability.Store) eqn:H2, (AbilitySet.has_ability s Ability.Key) eqn:H3;
    destruct a; cbn [Ability.requires]; first [vm_compute; reflexivity|congruence].
Qed.

Lemma subset_has s t a : AbilitySet.is_subset s t = true -> AbilitySet.has_ability s a = true -> AbilitySet.has_ability t a = true.
Proof.
  unfold AbilitySet.is_subset, AbilitySet.is_subset_bits. rewrite Z.eqb_eq, !FormatSafety.has_ability_bit. intros <-. rewrite Z.land_spec. by intros [_ ?]%andb_true_iff.
Qed.

Lemma requires_idemp a : Ability.requires (Ability.requires a) = Ability.requires a.
Proof. by destruct a. Qed.

Lemma forallb_zip {A B} (f : A * B -> bool) (l : list A) (k : list B) :
  forallb f (zip l k) = true <-> forall i x y, l !! i = Some x -> k !! i = Some y -> f (x, y) = true.
Proof.
  revert k. induction l as [|a l IH]; intros [|b k]; cbn; try (by split; [intros _ [|i]|]); rewrite andb_true_iff, IH. split.
  - intros [H0 Hr] [|i] x y Hx Hy; cbn in *; [by simplify_eq|by eapply Hr].
  - intros H. split; [by apply (H 0)|]. intros i. apply (H (S i)).
Qed.

(** ** Instances *)

Section Instances.
Context (resolver : BinaryIndexedView) (Hwb : Bounds.WellBounded resolver).
Context (args : Signature) (arg_abilities constraints : list AbilitySet).
Context (Hargs : Forall2 (fun arg a => View.abilities resolver arg constraints = Ok a) args arg_abilities).

Lemma instantiate_vector t ty' : TypeSafety.instantiate (SignatureToken.Vector t) args = Ok ty' ->
  exists t', TypeSafety.instantiate t args = Ok t' /\ ty' = SignatureToken.Vector t'.
Proof. clear. cbn. destruct args; [intros [= <-]; exists t; split; [by destruct t|done]|]. intros H. vm_inv. eauto. Qed.

Lemma instantiate_struct idx ts ty' : TypeSafety.instantiate (SignatureToken.StructInstantiation idx ts) args = Ok ty' ->
  exists ts', vmap (fun t => TypeSafety.instantiate t args) ts = Ok ts' /\ ty' = SignatureToken.StructInstantiation idx ts'.
Proof.
  clear. cbn. destruct args as [|a r]; [|intros H; vm_inv; eauto]. intros [= <-]. exists ts. split; [|done].
  induction ts as [|t ts IH]; [done|]. cbn. destruct t; cbn; by rewrite IH.
Qed.

(** An ability that passes to the contents survives instantiation, if the
    arguments that matter have it. *)
Lemma instantiate_keeps b : Ability.requires b = b -> forall ty ty' fa fa',
  Bounds.params_bounded (length args) ty ->
  View.abilities resolver ty (replicate (length args) AbilitySet.ALL) = Ok fa -> AbilitySet.has_ability fa b = true ->
  (forall i a, Signatures.occurs resolver false ty i false -> arg_abilities !! i = Some a -> AbilitySet.has_ability a b = true) ->
  TypeSafety.instantiate ty args = Ok ty' -> View.abilities resolver ty' constraints = Ok fa' -> AbilitySet.has_ability fa' b = true.
Proof.
  intros Hb. induction ty as [| | | | | |t IH|idx|idx ts IH|t IH|t IH|idx| | |] using SignatureToken.token_ind; intros ty' fa fa' Hp Hfa Hhas Hocc Hi Hfa';
    try (by cbn in Hi, Hfa; destruct args; injection Hi as <-; cbn in Hfa'; congruence).
  - apply instantiate_vector in Hi as (t' & Ht' & ->). cbn in Hfa, Hfa', Hp. vm_inv.
    rewrite (FormatSafety.polymorphic_abilities_spec _ _ _ _ b Hfa') . rewrite (FormatSafety.polymorphic_abilities_spec _ _ _ _ b Hfa) in Hhas.
    cbn in Hhas |- *. rewrite Hb in *. rewrite !andb_true_r in *. apply andb_true_iff in Hhas as [-> Hc]. cbn.
    eapply IH; [done..| |done|done]. intros i a Ho. apply Hocc. by constructor.
  - apply instantiate_struct in Hi as (ts' & Hts' & ->). cbn [View.abilities] in Hfa, Hfa'. cbn in Hp. rewrite Bounds.foldr_and_Forall in Hp.
    apply vm_bind_Ok in Hfa as (sh & Hsh & Hfa), Hfa' as (sh' & Hsh' & Hfa'). rewrite Hsh in Hsh'. injection Hsh' as <-.
    apply vm_bind_Ok in Hfa as (fs & Hfs%vmap_Ok & Hfa), Hfa' as (fs' & Hfs'%vmap_Ok & Hfa'). apply vmap_Ok in Hts'.
    rewrite (FormatSafety.polymorphic_abilities_spec _ _ _ _ b Hfa'). rewrite (FormatSafety.polymorphic_abilities_spec _ _ _ _ b Hfa) in Hhas.
    apply andb_true_iff in Hhas as [-> Hall]. cbn [andb]. rewrite forallb_zip in Hall |- *. intros k x ph Hx Hph. cbn [fst snd] in *.
    destruct ph eqn:Hphe; [done|]. cbn [orb]. rewrite Hb in *.
    destruct (Forall2_lookup_r _ _ _ _ _ Hfs' Hx) as (t' & Ht' & Hxa). destruct (Forall2_lookup_r _ _ _ _ _ Hts' Ht') as (t & Ht & Hti).
    destruct (Forall2_lookup_l _ _ _ _ _ Hfs Ht) as (y & Hy & Hya). specialize (Hall _ _ _ Hy Hph). cbn in Hall.
    rewrite Forall_lookup in IH. rewrite Forall_lookup in Hp. eapply (IH _ _ Ht); [by eapply Hp|done|done| |done|done].
    intros i a Ho. apply Hocc. apply FunctionViews.struct_handle_at_Ok in Hsh; [|done].
    rewrite list_lookup_fmap in Hph. destruct (sh_type_parameters sh !! k) as [tp|] eqn:Htp; [|done]. cbn in Hph. injection Hph as Hph.
    econstructor; [done..|]. by rewrite Hph.
  - cbn in Hi, Hfa. destruct args; vm_inv; simplify_eq; cbn in Hfa'; congruence.
  - cbn in Hi, Hfa. destruct args; vm_inv; simplify_eq; cbn in Hfa'; congruence.
  - cbn in Hi, Hp. destruct args as [|a0 r]; [cbn in Hp; lia|]. apply vm_bind_Ok in Hi as (? & _ & Hi%index_Ok).
    destruct (Forall2_lookup_l _ _ _ _ _ Hargs Hi) as (a & Ha & Hab). rewrite Hfa' in Hab. injection Hab as <-. eapply Hocc; [constructor|done].
Qed.
End Instances.

Section Decided.
Context (module : CompiledModule) (Hwb : Bounds.WellBounded (View.Module_ module)).
Notation resolver := (View.Module_ module).

(** The fields of a structure have the abilities it requires, type parameters
    being taken to have all. *)
Definition fields_ok (sd : StructDefinition) : Prop :=
  match field_information sd with
  | Native => True
  | Declared fields =>
    forall sh, cm_struct_handles module !! sd_struct_handle sd = Some sh ->
    Forall (fun fd => exists fa, View.abilities resolver (fd_signature fd) (map (fun _ => AbilitySet.ALL) (sh_type_parameters sh)) = Ok fa /\
      AbilitySet.is_subset (required_abilities (sh_abilities sh)) fa = true) fields
  end.

Lemma ability_verify_decides : decides (verify_module module) (Forall fields_ok (cm_struct_defs module)).
Proof.
  apply decides_imap. intros i sd Hsd. unfold verify_struct_def, fields_ok.
  pose proof (Bounds.wb_struct_defs _ Hwb) as Hd. cbn in Hd. rewrite Forall_lookup in Hd. destruct (Hd _ _ Hsd) as (sh & Hsh & Hf).
  rewrite (proj2 (FunctionViews.struct_handle_at_Ok resolver Hwb _ _) Hsh). vm_cbn. destruct (field_information sd) as [|fields]; [apply decides_true|].
  rewrite Forall_forall in Hf. eapply decides_iff; [eapply decides_vfor|].
  - intros fd Hin. destruct (Hf _ Hin) as (_ & Ht & Hp). unfold verify_field.
    destruct (FunctionViews.abilities_total resolver (fd_signature fd) (map (fun _ => AbilitySet.ALL) (sh_type_parameters sh)) Hwb Ht) as [fa Hfa]; [by rewrite length_map|].
    rewrite Hfa. vm_cbn. eapply decides_iff; [apply decides_guard|]. rewrite negb_false_iff.
    instantiate (1 := fun fd => exists fa, View.abilities resolver (fd_signature fd) (map (fun _ => AbilitySet.ALL) (sh_type_parameters sh)) = Ok fa /\
      AbilitySet.is_subset (required_abilities (sh_abilities sh)) fa = true). cbn. rewrite Hfa. naive_solver.
  - cbn in Hsh. rewrite Hsh. naive_solver.
Qed.

Lemma map_const {A B} (b : B) (l : list A) : map (fun _ => b) l = replicate (length l) b.
Proof. induction l; cbn; by f_equal. Qed.

(** What an instance with an ability says of the structure and the arguments. *)
Lemma instance_has idx sh args aa constraints A :
  cm_struct_handles module !! idx = Some sh -> vmap (fun arg => View.abilities resolver arg constraints) args = Ok aa ->
  View.abilities resolver (TypeSafety.materialize_type idx args) constraints = Ok A ->
  forall a, AbilitySet.has_ability A a = true -> AbilitySet.has_ability (sh_abilities sh) a = true /\
    forall k tp x, sh_type_parameters sh !! k = Some tp -> is_phantom tp = false -> aa !! k = Some x -> AbilitySet.has_ability x (Ability.requires a) = true.
Proof.
  intros Hsh Haa HA a Ha. apply (FunctionViews.struct_handle_at_Ok resolver Hwb) in Hsh.
  destruct args as [|t r]; cbn [TypeSafety.materialize_type View.abilities] in HA; rewrite Hsh in HA; cbn [mbind vm_bind] in HA.
  - injection HA as <-. injection Haa as <-. split; [done|]. by intros k tp x _ _ Hx.
  - rewrite Haa in HA. cbn [mbind vm_bind] in HA. rewrite (FormatSafety.polymorphic_abilities_spec _ _ _ _ a HA) in Ha.
    apply andb_true_iff in Ha as [Hd Hall]. rewrite forallb_zip in Hall. split; [done|]. intros k tp x Htp Hnp Hx.
    specialize (Hall k x false Hx). apply Hall. by rewrite list_lookup_fmap, Htp, <- Hnp.
Qed.

Lemma instance_fields sd sh fields fd args constraints n :
  n = length constraints -> sd ∈ cm_struct_defs module -> cm_struct_handles module !! sd_struct_handle sd = Some sh ->
  field_information sd = Declared fields -> fd ∈ fields -> fields_ok sd -> Signatures.phantom_ok resolver (sh_type_parameters sh) false (fd_signature fd) ->
  Forall (TypeTotal.good resolver n) args -> length args = length (sh_type_parameters sh) ->
  exists ty A F, TypeSafety.instantiate (fd_signature fd) args = Ok ty /\
    View.abilities resolver (TypeSafety.materialize_type (sd_struct_handle sd) args) constraints = Ok A /\
    View.abilities resolver ty constraints = Ok F /\
    forall a, AbilitySet.has_ability A a = true -> AbilitySet.has_ability F (Ability.requires a) = true.
Proof.
  intros -> Hsd Hsh Hinfo Hfd Hok Hph Hgood Hlen.
  pose proof (Bounds.wb_struct_defs _ Hwb) as Hd. cbn in Hd. rewrite Forall_forall in Hd. destruct (Hd _ Hsd) as (sh' & Hsh' & Hf).
  cbn in Hsh'. simplify_eq. rewrite Hinfo, Forall_forall in Hf. destruct (Hf _ Hfd) as (_ & Ht & Hp).
  destruct (TypeTotal.instantiate_good resolver (length constraints) (fd_signature fd) args Ht) as (ty & Hty & Hg); [by rewrite Hlen|done|].
  destruct (FunctionViews.abilities_total resolver ty constraints Hwb) as [F HF]; [apply Hg..|].
  pose proof (TypeTotal.materialize_good resolver (length constraints) _ _ args Hsh (eq_sym Hlen) Hgood) as Hmat.
  destruct (FunctionViews.abilities_total resolver _ constraints Hwb (proj1 Hmat) (proj2 Hmat)) as [A HA].
  exists ty, A, F. split; [done|]. split; [done|]. split; [done|]. intros a Ha.
  unfold fields_ok in Hok. rewrite Hinfo in Hok. specialize (Hok _ Hsh). rewrite Forall_forall in Hok. destruct (Hok _ Hfd) as (fa & Hfa & Hsub).
  destruct (FunctionViews.vmap_total (fun arg => View.abilities resolver arg constraints) args) as (aa & Haa & _).
  { eapply Forall_impl; [exact Hgood|]. intros t [? ?]. by apply FunctionViews.abilities_total. }
  destruct (instance_has _ _ _ _ _ _ Hsh Haa HA a Ha) as [Hdecl Hparams]. apply vmap_Ok in Haa.
  rewrite map_const, <- Hlen in Hfa.
  eapply (instantiate_keeps resolver Hwb args aa constraints Haa (Ability.requires a) (requires_idemp a) _ _ _ _ ltac:(by rewrite Hlen) Hfa);
    [by eapply subset_has, required_has| |done|done].
  intros i x Ho Hx. destruct (lookup_lt_is_Some_2 (sh_type_parameters sh) i) as [tp Htp].
  { rewrite <- Hlen. rewrite (Forall2_length _ _ _ Haa). by eapply lookup_lt_Some. }
  eapply Hparams; [done| |done]. destruct (is_phantom tp) eqn:Hpt; [|done]. by specialize (Hph _ _ _ Ho Htp Hpt).
Qed.
End Decided.

(** C15: On a module the bounds checker accepted the check of field abilities
    returns a verdict. If it and the signature checker accept, then for every
    structure and all type arguments, whatever abilities these have in their
    context: the structure and the field types made with the arguments have
    abilities, and when the structure can be copied, dropped or stored so can
    every field, and when it can be a key every field can be stored. *)
Theorem abilities_of_contents module :
  Bounds.verify_module module = Ok () -> (Z.of_nat (length (cm_signatures module)) <= 65536)%Z ->
  settles (verify_module module) /\
  (Signatures.verify_module module = Ok () -> verify_module module = Ok () ->
   forall sd sh fields fd args constraints,
   sd ∈ cm_struct_defs module -> cm_struct_handles module !! sd_struct_handle sd = Some sh -> field_information sd = Declared fields -> fd ∈ fields ->
   Forall (TypeTotal.good (View.Module_ module) (length constraints)) args -> length args = length (sh_type_parameters sh) ->
   exists ty A F, TypeSafety.instantiate (fd_signature fd) args = Ok ty /\
    View.abilities (View.Module_ module) (TypeSafety.materialize_type (sd_struct_handle sd) args) constraints = Ok A /\
    View.abilities (View.Module_ module) ty constraints = Ok F /\
    forall a, AbilitySet.has_ability A a = true -> AbilitySet.has_ability F (Ability.requires a) = true).
Proof.
  intros Hb Hlen. pose proof Hb as [_ Hwb]%Bounds.verify_module_Ok. pose proof (ability_verify_decides module Hwb) as [Hset Hdec].
  split; [done|]. intros Hsig Hv sd sh fields fd args constraints Hsd Hsh Hinfo Hfd Hgood Hl.
  apply Hdec in Hv. rewrite Forall_forall in Hv.
  apply (Signatures.signatures_verify_decides module Hb Hlen) in Hsig as (_ & _ & Hsig & _). rewrite Forall_forall in Hsig.
  specialize (Hsig _ Hsd). unfold Signatures.struct_def_ok in Hsig. rewrite Hinfo in Hsig. destruct Hsig as (sh' & Hsh' & Hfields).
  apply (FunctionViews.struct_handle_at_Ok (View.Module_ module) Hwb) in Hsh'. cbn in Hsh'. simplify_eq. rewrite Forall_forall in Hfields.
  destruct (Hfields _ Hfd) as (_ & _ & Hph). by eapply instance_fields; [..|apply Hv|exact Hph|exact Hgood|].
Qed.

Lemma abilities_of_contents_witness :
  exists A F, View.abilities (View.Module_ FunctionViews.box_module) (SignatureToken.StructInstantiation 0 [SignatureToken.Vector SignatureToken.U8]) [] = Ok A /\
    View.abilities (View.Module_ FunctionViews.box_module) (SignatureToken.Vector SignatureToken.U8) [] = Ok F /\
    AbilitySet.has_ability A Ability.Store = true /\ AbilitySet.has_ability F Ability.Store = true.
Proof.
  destruct (abilities_of_contents FunctionViews.box_module) as [_ H]; [vm_compute; reflexivity|vm_compute; discriminate|].
  destruct (H ltac:(vm_compute; reflexivity) ltac:(vm_compute; reflexivity)
    {| sd_struct_handle := 0; field_information := Declared [{| fd_name := 0; fd_signature := SignatureToken.TypeParameter 0 |}] |}
    {| sh_module := 0; sh_name := 0; sh_abilities := FunctionViews.store_only; sh_type_parameters := [{| tp_constraints := FunctionViews.store_only; is_phantom := false |}] |}
    [{| fd_name := 0; fd_signature := SignatureToken.TypeParameter 0 |}] {| fd_name := 0; fd_signature := SignatureToken.TypeParameter 0 |}
    [SignatureToken.Vector SignatureToken.U8] []) as (ty & A & F & Hty & HA & HF & Hhas);
    [by left|reflexivity|reflexivity|by left|by repeat constructor|reflexivity|].
  injection Hty as <-. exists A, F. split; [exact HA|]. split; [exact HF|].
  assert (AbilitySet.has_ability A Ability.Store = true) as Hs by (vm_compute in HA; injection HA as <-; reflexivity).
  split; [exact Hs|]. exact (Hhas Ability.Store Hs).
Defined.
End AbilityFields.
