(* ===== verification/MoveStructDefs.v ===== *)
(** Recursive structures: struct_defs.rs of external/move/move-bytecode-verifier/src.

    The checker collects which structures of the module occur in the fields of
    which and has [petgraph] sort the graph; it rejects when the sort reports a
    cycle. [toposort] is a parameter, with what its documentation says of its
    result. The theorem: the checker accepts exactly when no structure contains
    itself, directly or through others, and then every structure has a finite
    nesting depth. *)

From stdpp Require Import list gmap relations strings.
From S2P Require Import Prelude MoveFormat MoveBounds MoveCfg MoveSearch MoveFunction MoveSignatures MoveStack MoveModuleChecks.

Module StructDefs.
Section Builder.
Context (module : CompiledModule).

(** The definitions by their handles. *)
Definition handle_to_def : gmap nat nat :=
  fold_left (fun m '(idx, struct_def) => <[sd_struct_handle struct_def := u16 idx]> m) (imap pair (cm_struct_defs module)) ∅.

(** [neighbors.entry(cur_idx).or_insert_with(BTreeSet::new).insert(..)]. *)
Definition add_neighbor (neighbors : gmap nat (gset nat)) (cur_idx def : nat) : gmap nat (gset nat) :=
  <[cur_idx := {[def]} ∪ default ∅ (neighbors !! cur_idx)]> neighbors.

Definition add_handle (neighbors : gmap nat (gset nat)) (cur_idx sh_idx : nat) : gmap nat (gset nat) :=
  match handle_to_def !! sh_idx with
  | Some struct_def_idx => add_neighbor neighbors cur_idx struct_def_idx
  | None => neighbors
  end.

Fixpoint add_signature_token (cur_idx : nat) (token : SignatureToken) (neighbors : gmap nat (gset nat)) {struct token} : vm (gmap nat (gset nat)) :=
  match token with
  | SignatureToken.Bool | SignatureToken.U8 | SignatureToken.U16 | SignatureToken.U32 | SignatureToken.U64 | SignatureToken.U128
  | SignatureToken.U256 | SignatureToken.Address | SignatureToken.Signer | SignatureToken.TypeParameter _ => Ok neighbors
  | SignatureToken.Reference _ | SignatureToken.MutableReference _ => Err (error_new StatusCode.UNKNOWN_INVARIANT_VIOLATION_ERROR)
  | SignatureToken.Vector inner => add_signature_token cur_idx inner neighbors
  | SignatureToken.Struct sh_idx => Ok (add_handle neighbors cur_idx sh_idx)
  | SignatureToken.StructInstantiation sh_idx inners =>
    vfold (fun neighbors t => add_signature_token cur_idx t neighbors) inners (add_handle neighbors cur_idx sh_idx)
  end.

Definition add_struct_defs (neighbors : gmap nat (gset nat)) (idx : nat) : vm (gmap nat (gset nat)) :=
  struct_def ← View.struct_def_at (View.Module_ module) idx;
  match field_information struct_def with
  | Native => Ok neighbors
  | Declared fields => vfold (fun neighbors field => add_signature_token idx (fd_signature field) neighbors) fields neighbors
  end.

(** The edges the graph is made of. *)
Definition build : vm (list (nat * nat)) :=
  neighbors ← vfold (fun neighbors idx => add_struct_defs neighbors (u16 idx)) (seq 0 (length (cm_struct_defs module))) ∅;
  Ok (flat_map (fun p => map (pair p.1) (sort_by Nat.leb (elements p.2))) (sort_by (fun p q => p.1 <=? q.1) (map_to_list neighbors))).

(** [toposort]: an order of the nodes, or a node of a cycle. *)
Context (toposort : list (nat * nat) -> list nat + nat).

Definition verify_module : vm () :=
  graph ← build;
  match toposort graph with
  | inl _ => Ok ()
  | inr cycle => Err (verification_error StatusCode.RECURSIVE_STRUCT_DEFINITION IndexKind.StructDefinition (u16 cycle))
  end.
End Builder.

(** What the documentation of [toposort] says of its result on a graph. *)
Definition before (order : list nat) (a b : nat) : Prop :=
  exists i j, order !! i = Some a /\ order !! j = Some b /\ i < j.

Definition topo_ok (edges : list (nat * nat)) (res : list nat + nat) : Prop :=
  match res with
  | inl order => NoDup order /\ forall a b, (a, b) ∈ edges -> before order a b
  | inr n => tc (fun a b => (a, b) ∈ edges) n n
  end.

(** ** What it accepts *)

Section Spec.
Context (module : CompiledModule).

(** The handle occurs in the type. *)
Inductive mentions (h : nat) : SignatureToken -> Prop :=
| mentions_struct : mentions h (SignatureToken.Struct h)
| mentions_instance ts : mentions h (SignatureToken.StructInstantiation h ts)
| mentions_arg idx ts t : t ∈ ts -> mentions h t -> mentions h (SignatureToken.StructInstantiation idx ts)
| mentions_vector t : mentions h t -> mentions h (SignatureToken.Vector t).

(** A field of the structure [a] has a type that names the structure [b]. *)
Definition contains (a b : nat) : Prop :=
  exists sd fields fd sd', cm_struct_defs module !! a = Some sd /\ field_information sd = Declared fields /\ fd ∈ fields /\
    cm_struct_defs module !! b = Some sd' /\ mentions (sd_struct_handle sd') (fd_signature fd).
End Spec.

Section Decided.
Context (module : CompiledModule) (Hwb : Bounds.WellBounded (View.Module_ module)).
Context (Hnd : NoDup (map sd_struct_handle (cm_struct_defs module))) (Hlen : (Z.of_nat (length (cm_struct_defs module)) <= 65536)%Z).

Lemma struct_handle_lookup h b : handle_to_def module !! h = Some b <-> exists sd, cm_struct_defs module !! b = Some sd /\ sd_struct_handle sd = h.
Proof. by apply index_map_lookup. Qed.

(** The graph a map of neighbours stands for. *)
Definition edge (neighbors : gmap nat (gset nat)) (a b : nat) : Prop := b ∈ default ∅ (neighbors !! a).

Definition mentions_def (t : SignatureToken) (b : nat) : Prop :=
  exists sd, cm_struct_defs module !! b = Some sd /\ mentions (sd_struct_handle sd) t.

Lemma add_neighbor_edge neighbors cur def a b : edge (add_neighbor neighbors cur def) a b <-> edge neighbors a b \/ (a = cur /\ b = def).
Proof.
  unfold edge, add_neighbor. destruct (decide (a = cur)) as [->|Hne].
  - rewrite lookup_insert_eq. cbn. set_solver.
  - rewrite lookup_insert_ne by done. naive_solver.
Qed.

Lemma add_handle_edge neighbors cur h a b : edge (add_handle module neighbors cur h) a b <->
  edge neighbors a b \/ (a = cur /\ exists sd, cm_struct_defs module !! b = Some sd /\ sd_struct_handle sd = h).
Proof.
  unfold add_handle. setoid_rewrite <- struct_handle_lookup. destruct (handle_to_def module !! h) as [def|]; [rewrite add_neighbor_edge|]; naive_solver.
Qed.

Lemma add_signature_token_edges cur t : Signatures.ref_free t -> forall neighbors,
  exists neighbors', add_signature_token module cur t neighbors = Ok neighbors' /\
    forall a b, edge neighbors' a b <-> edge neighbors a b \/ (a = cur /\ mentions_def t b).
Proof.
  assert (forall neighbors t, (forall h, ~ mentions h t) -> forall a b, edge neighbors a b <-> edge neighbors a b \/ (a = cur /\ mentions_def t b)) as Hnone.
  { intros N u Hu a b. split; [by left|]. intros [?|(_ & sd & _ & Hm)]; [done|]. by apply Hu in Hm. }
  induction t as [| | | | | |t IH|idx|idx ts IH|t IH|t IH|idx| | |] using SignatureToken.token_ind; intros Href neighbors; cbn in Href; try done;
    cbn [add_signature_token]; try (eexists; split; [done|]; apply Hnone; intros h Hm; by inversion Hm).
  - destruct (IH Href neighbors) as (N & -> & HN). exists N. split; [done|]. intros a b. rewrite HN. unfold mentions_def.
    split; (intros [?|(-> & sd & Hsd & Hm)]; [by left|right; split; [done|]; exists sd; split; [done|]]); [by constructor|by inversion Hm].
  - eexists. split; [done|]. intros a b. rewrite add_handle_edge. unfold mentions_def.
    split; (intros [?|(-> & sd & Hsd & Hm)]; [by left|right; split; [done|]; exists sd; split; [done|]]); [subst; by constructor|by inversion Hm].
  - rewrite Bounds.foldr_and_Forall in Href.
    assert (forall N0, exists N, vfold (fun n t => add_signature_token module cur t n) ts N0 = Ok N /\
      forall a b, edge N a b <-> edge N0 a b \/ (a = cur /\ exists t, t ∈ ts /\ mentions_def t b)) as Hfold.
    { induction ts as [|t ts IHts]; intros N0; [exists N0; split; [done|]; set_solver|]. inversion IH; inversion Href; subst. cbn [vfold].
      destruct (H1 H5 N0) as (N1 & -> & HN1). vm_cbn. destruct (IHts H2 H6 N1) as (N & -> & HN). exists N. split; [done|].
      intros a b. rewrite HN, HN1. setoid_rewrite elem_of_cons. naive_solver. }
    destruct (Hfold (add_handle module neighbors cur idx)) as (N & -> & HN). exists N. split; [done|]. intros a b. rewrite HN, add_handle_edge.
    unfold mentions_def. split.
    + intros [[?|(-> & sd & Hsd & <-)]|(-> & t & Ht & sd & Hsd & Hm)]; [by left| |]; right; (split; [done|]); exists sd; (split; [done|]); [by constructor|by econstructor].
    + intros [?|(-> & sd & Hsd & Hm)]; [by left; left|]. inversion Hm; subst; [left; right|right]; eauto 10.
Qed.

Context (Href : Forall (fun sd => match field_information sd with Native => True | Declared fields => Forall (fun fd => Signatures.ref_free (fd_signature fd)) fields end) (cm_struct_defs module)).

Lemma add_struct_defs_edges cur neighbors : cur < length (cm_struct_defs module) ->
  exists neighbors', add_struct_defs module neighbors cur = Ok neighbors' /\
    forall a b, edge neighbors' a b <-> edge neighbors a b \/ (a = cur /\ contains module cur b).
Proof.
  intros Hcur. destruct (index_lt _ _ Hcur) as (sd & Hi & Hsd). unfold add_struct_defs.
  assert (View.struct_def_at (View.Module_ module) cur = Ok sd) as -> by exact Hi. vm_cbn. rewrite Forall_lookup in Href. specialize (Href _ _ Hsd).
  unfold contains. destruct (field_information sd) as [|fields] eqn:Hf.
  { eexists. split; [done|]. intros a b. split; [by left|]. intros [?|(_ & sd1 & fields & fd & sd2 & H1 & H2 & _)]; [done|]. congruence. }
  assert (forall N0 l, Forall (fun fd => Signatures.ref_free (fd_signature fd)) l -> exists N, vfold (fun n fd => add_signature_token module cur (fd_signature fd) n) l N0 = Ok N /\
    forall a b, edge N a b <-> edge N0 a b \/ (a = cur /\ exists fd, fd ∈ l /\ mentions_def (fd_signature fd) b)) as Hfold.
  { intros N0 l Hl. revert N0. induction Hl as [|fd l Hfd _ IH]; intros N0; [exists N0; split; [done|]; set_solver|]. cbn [vfold].
    destruct (add_signature_token_edges cur (fd_signature fd) Hfd N0) as (N1 & -> & HN1). vm_cbn. destruct (IH N1) as (N & -> & HN). exists N. split; [done|].
    intros a b. rewrite HN, HN1. setoid_rewrite elem_of_cons. naive_solver. }
  destruct (Hfold neighbors fields Href) as (N & -> & HN). exists N. split; [done|]. intros a b. rewrite HN. unfold mentions_def. split.
  - intros [?|(-> & fd & Hfd & sd2 & Hsd2 & Hm)]; [by left|]. right. split; [done|]. by exists sd, fields, fd, sd2.
  - intros [?|(-> & sd1 & fields1 & fd & sd2 & H1 & H2 & Hfd & Hsd2 & Hm)]; [by left|]. simplify_eq. assert (fields1 = fields) as -> by congruence. right. split; [done|]. exists fd. split; [done|]. by exists sd2.
Qed.

(** The graph is that of the structures' contents. *)
Lemma build_edges : exists edges, build module = Ok edges /\ forall a b, (a, b) ∈ edges <-> contains module a b.
Proof.
  unfold build. destruct (vfold_seq (fun k N => forall a b, edge N a b <-> a < k /\ contains module a b)
    (fun neighbors idx => add_struct_defs module neighbors (u16 idx)) (length (cm_struct_defs module)) ∅) as (N & -> & HN).
  - intros a b. unfold edge. rewrite lookup_empty. cbn. split; [set_solver|lia].
  - intros i N Hi HN. rewrite u16_small by lia. destruct (add_struct_defs_edges i N Hi) as (N' & HN' & He). exists N'. split; [done|].
    intros a b. rewrite He, HN. split; [intros [[? ?]|[-> ?]]; (split; [lia|done])|]. intros [Hlt Hc]. destruct (decide (a = i)) as [->|]; [by right|]. left. split; [lia|done].
  - vm_cbn. eexists. split; [done|]. intros a b. rewrite list_elem_of_In, in_flat_map. split.
    + intros ([x xs] & Hin & Hx). apply list_elem_of_In, elem_of_sort_by, elem_of_map_to_list in Hin. cbn in Hx.
      apply in_map_iff in Hx as (y & [= <- <-] & Hy). apply list_elem_of_In, elem_of_sort_by, elem_of_elements in Hy.
      apply (HN x y). unfold edge. by rewrite Hin.
    + intros Hc. assert (edge N a b) as He. { apply HN. split; [|done]. destruct Hc as (sd & ? & ? & ? & Hsd & _). by eapply lookup_lt_Some. }
      unfold edge in He. destruct (N !! a) as [xs|] eqn:Ha; [|cbn in He; set_solver]. exists (a, xs). split.
      * by apply list_elem_of_In, elem_of_sort_by, elem_of_map_to_list.
      * apply in_map. by apply list_elem_of_In, elem_of_sort_by, elem_of_elements.
Qed.
End Decided.

(** The distance from the end of an order. *)
Definition depth_in (order : list nat) (a : nat) : nat :=
  match list_find (eq a) order with Some (i, _) => length order - i | None => 0 end.

Lemma depth_in_before order a b : NoDup order -> before order a b -> depth_in order b < depth_in order a.
Proof.
  intros Hnd (i & j & Hi & Hj & Hlt). assert (forall k x, order !! k = Some x -> depth_in order x = length order - k) as Hd.
  { intros k x Hk. unfold depth_in. rewrite (proj2 (list_find_Some (eq x) order k x)); [done|]. split; [done|]. split; [done|].
    intros k' y Hy Hlt' ->. pose proof (NoDup_lookup _ _ _ _ Hnd Hk Hy). lia. }
  rewrite (Hd _ _ Hi), (Hd _ _ Hj). apply lookup_lt_Some in Hj. lia.
Qed.

Lemma depth_acyclic (R : nat -> nat -> Prop) (depth : nat -> nat) : (forall a b, R a b -> depth b < depth a) -> forall a b, tc R a b -> depth b < depth a.
Proof. intros Hd. induction 1 as [a b Hab|a b c Hab _ IH]; [by apply Hd|]. apply Hd in Hab. lia. Qed.

(** C28: On a module the bounds, duplication and signature checkers accepted, and
    for a sort of the graph that does what its documentation says, the check of
    recursive structures returns a verdict and accepts exactly when no structure
    contains itself through the types of its fields, type arguments included.
    Then structures have nesting depths that decrease from a structure to those
    in it. *)
Theorem recursion_decided module toposort :
  Bounds.verify_module module = Ok () -> Duplication.verify_module module = Ok () -> Signatures.verify_module module = Ok () ->
  (Z.of_nat (length (cm_struct_handles module)) <= 65536)%Z -> (Z.of_nat (length (cm_function_handles module)) <= 65536)%Z ->
  (Z.of_nat (length (cm_signatures module)) <= 65536)%Z -> (Z.of_nat (length (cm_struct_defs module)) <= 65536)%Z ->
  (forall edges, build module = Ok edges -> topo_ok edges (toposort edges)) ->
  decides (verify_module module toposort) (forall a, ~ tc (contains module) a a) /\
  (verify_module module toposort = Ok () -> exists depth : nat -> nat, forall a b, contains module a b -> depth b < depth a).
Proof.
  intros Hb Hdup Hsig Hsh Hfh Hsigs Hlen Htopo. pose proof Hb as [_ Hwb]%Bounds.verify_module_Ok.
  apply (Duplication.duplication_verify_decides module Hwb Hsh Hfh) in Hdup as (_ & _ & _ & _ & _ & _ & _ & _ & _ & _ & _ & _ & (Hnd & _) & _).
  apply (Signatures.signatures_verify_decides module Hb Hsigs) in Hsig as (_ & _ & Hsig & _).
  destruct (build_edges module Hwb Hnd Hlen) as (edges & Hbuild & Hedges).
  { eapply Forall_impl; [exact Hsig|]. intros sd Hsd. unfold Signatures.struct_def_ok in Hsd. destruct (field_information sd); [done|].
    destruct Hsd as (sh & _ & Hf). eapply Forall_impl; [exact Hf|]. by intros fd (? & _). }
  specialize (Htopo _ Hbuild). unfold verify_module. rewrite Hbuild. vm_cbn. destruct (toposort edges) as [order|n].
  - destruct Htopo as [Ho Hbefore]. assert (forall a b, contains module a b -> depth_in order b < depth_in order a) as Hd.
    { intros a b Hab. apply depth_in_before; [done|]. by apply Hbefore, Hedges. }
    split; [|by exists (depth_in order)]. split; [auto with settle|]. split; [|done]. intros _ a Ha. apply (depth_acyclic _ _ Hd) in Ha. lia.
  - split; [|done]. split; [auto with settle|]. split; [done|]. intros Hn. destruct (Hn n). eapply (tc_congruence (fun x : nat => x)); [|exact Htopo]. intros a b Hab. by apply Hedges.
Qed.

(** [struct Inner { x: u64 }] and [struct Outer { inner: vector<Inner> }]. *)
Definition nested_module : CompiledModule :=
  empty_module <| cm_identifiers := ["inner"; "outer"] |>
    <| cm_struct_handles := [{| sh_module := 0; sh_name := 0; sh_abilities := 0; sh_type_parameters := [] |};
                             {| sh_module := 0; sh_name := 1; sh_abilities := 0; sh_type_parameters := [] |}] |>
    <| cm_struct_defs := [{| sd_struct_handle := 0; field_information := Declared [{| fd_name := 0; fd_signature := SignatureToken.U64 |}] |};
                          {| sd_struct_handle := 1; field_information := Declared [{| fd_name := 0; fd_signature := SignatureToken.Vector (SignatureToken.Struct 0) |}] |}] |>.

Lemma recursion_decided_witness : exists depth : nat -> nat, depth 0 < depth 1.
Proof.
  destruct (recursion_decided nested_module (fun _ => inl [1; 0])) as [_ Hd]; [vm_compute; reflexivity..|vm_compute; discriminate|
    vm_compute; discriminate|vm_compute; discriminate|vm_compute; discriminate| |].
  - intros edges He. vm_compute in He. injection He as <-. split; [repeat constructor; set_solver|].
    intros a b Hab. apply list_elem_of_singleton in Hab. injection Hab as -> ->. exists 0, 1. repeat split; lia.
  - destruct Hd as [depth Hdepth]; [vm_compute; reflexivity|]. exists depth. apply Hdepth.
    eexists _, _, _, _. split; [reflexivity|]. split; [reflexivity|]. split; [by left|]. split; [reflexivity|]. repeat constructor.
Defined.
End StructDefs.
