(* ===== verification/MoveInstLoops.v ===== *)
(** Loops in the instantiation of generic functions: instantiation_loops.rs of
    external/move/move-bytecode-verifier/src.

    The checker builds a graph over the type parameters of the module's
    functions: an edge for every type parameter of a caller that occurs in a
    type argument of a call, telling whether it is the argument or inside it.
    It asks [petgraph] for the strongly connected components and rejects when
    one has an edge of the second kind. [tarjan_scc] is a parameter, with what
    its documentation says; the graph is its lists of nodes and edges. Proved is
    what the check is for: the types that chains of generic calls can make have
    bounded depth. *)

From stdpp Require Import list gmap relations strings.
From S2P Require Import Prelude MoveFormat MoveBounds MoveCfg MoveSearch MoveFunction MoveAbsint MoveStack MoveTypes MoveModuleChecks.

Module InstLoops.
(** A type formal: the index of a function definition and of a type parameter. *)
Notation Node := (nat * nat)%type.

Inductive Edge := Identity | TyConApp (ty : SignatureToken).

Record InstantiationLoopChecker := {
  graph_nodes : list Node;
  graph_edges : list (nat * nat * Edge);
  node_map : gmap Node nat;
}.

Section Checker.
Context (module : CompiledModule).
Notation resolver := (View.Module_ module).

Definition func_handle_def_map : gmap nat nat :=
  fold_left (fun m '(def_idx, def) => <[fn_function def := u16 def_idx]> m) (imap pair (cm_function_defs module)) ∅.

Definition new : InstantiationLoopChecker := {| graph_nodes := []; graph_edges := []; node_map := ∅ |}.

Definition get_or_add_node (c : InstantiationLoopChecker) (node : Node) : nat * InstantiationLoopChecker :=
  match node_map c !! node with
  | Some idx => (idx, c)
  | None =>
    let idx := length (graph_nodes c) in
    (idx, {| graph_nodes := graph_nodes c ++ [node]; graph_edges := graph_edges c; node_map := <[node := idx]> (node_map c) |})
  end.

Fixpoint extract_type_parameters (ty : SignatureToken) : gset nat :=
  match ty with
  | SignatureToken.TypeParameter idx => {[idx]}
  | SignatureToken.Vector ty | SignatureToken.Reference ty | SignatureToken.MutableReference ty => extract_type_parameters ty
  | SignatureToken.StructInstantiation _ tys => ⋃ (map extract_type_parameters tys)
  | _ => ∅
  end.

Definition add_edge (c : InstantiationLoopChecker) (node_from node_to : Node) (edge : Edge) : InstantiationLoopChecker :=
  let '(node_from_idx, c) := get_or_add_node c node_from in
  let '(node_to_idx, c) := get_or_add_node c node_to in
  {| graph_nodes := graph_nodes c; graph_edges := graph_edges c ++ [(node_from_idx, node_to_idx, edge)]; node_map := node_map c |}.

Definition add_actual (caller_idx callee_idx : nat) (c : InstantiationLoopChecker) (p : nat * SignatureToken) : InstantiationLoopChecker :=
  let '(formal_idx, ty) := p in
  match ty with
  | SignatureToken.TypeParameter actual_idx => add_edge c (caller_idx, actual_idx) (callee_idx, u16 formal_idx) Identity
  | _ => fold_left (fun c type_param => add_edge c (caller_idx, type_param) (callee_idx, u16 formal_idx) (TyConApp ty))
           (elements (extract_type_parameters ty)) c
  end.

Definition build_graph_call (caller_idx callee_idx type_actuals_idx : nat) (c : InstantiationLoopChecker) : vm InstantiationLoopChecker :=
  type_actuals ← View.signature_at resolver type_actuals_idx;
  Ok (fold_left (add_actual caller_idx callee_idx) (imap pair type_actuals) c).

Definition build_graph_instr (caller_idx : nat) (c : InstantiationLoopChecker) (instr : Bytecode) : vm InstantiationLoopChecker :=
  match instr with
  | Bytecode.CallGeneric callee_inst_idx =>
    callee_si ← View.function_instantiation_at resolver callee_inst_idx;
    match func_handle_def_map !! fi_handle callee_si with
    | Some callee_idx => build_graph_call caller_idx callee_idx (fi_type_parameters callee_si) c
    | None => Ok c
    end
  | _ => Ok c
  end.

Definition build_graph_function_def (caller_idx : nat) (caller_def : FunctionDefinition) (c : InstantiationLoopChecker) : vm InstantiationLoopChecker :=
  match fn_code caller_def with
  | Some code => vfold (build_graph_instr caller_idx) (cu_code code) c
  | None => Ok c
  end.

Definition build_graph (c : InstantiationLoopChecker) : vm InstantiationLoopChecker :=
  vfold (fun c '(def_idx, func_def) => if is_native func_def then Ok c else build_graph_function_def (u16 def_idx) func_def c)
    (imap pair (cm_function_defs module)) c.

(** The strongly connected components of the graph. *)
Context (tarjan_scc : list Node -> list (nat * nat * Edge) -> list (list nat)).

Definition is_constructor (e : nat * nat * Edge) : bool := match e.2 with TyConApp _ => true | Identity => false end.

(** The edges of a component, if one of them applies a constructor. *)
Definition non_trivial (c : InstantiationLoopChecker) (nodes : list nat) : option (list nat * list (nat * nat * Edge)) :=
  let edges := flat_map (fun node_idx => filter (fun e => bool_decide (e.1.1 = node_idx /\ e.1.2 ∈ nodes)) (graph_edges c)) nodes in
  if existsb is_constructor edges then Some (nodes, edges) else None.

Definition find_non_trivial_components (c : InstantiationLoopChecker) : list (list nat * list (nat * nat * Edge)) :=
  omap (non_trivial c) (tarjan_scc (graph_nodes c) (graph_edges c)).

Definition verify_module : vm () :=
  checker ← build_graph new;
  match last (find_non_trivial_components checker) with
  | None => Ok ()
  | Some _ => Err (error_new StatusCode.LOOP_IN_INSTANTIATION_GRAPH)
  end.
End Checker.

(** ** The graph *)

(** The graph stands for a relation on type formals. *)
Record Rep (c : InstantiationLoopChecker) (E : Node -> Edge -> Node -> Prop) : Prop := {
  rep_nodup : NoDup (graph_nodes c);
  rep_map n i : node_map c !! n = Some i <-> graph_nodes c !! i = Some n;
  rep_edge i j e : (i, j, e) ∈ graph_edges c <-> exists u v, graph_nodes c !! i = Some u /\ graph_nodes c !! j = Some v /\ E u e v;
  rep_in u e v : E u e v -> u ∈ graph_nodes c /\ v ∈ graph_nodes c;
}.

Lemma rep_iff c E F : (forall u e v, E u e v <-> F u e v) -> Rep c E -> Rep c F.
Proof.
  intros Hiff [H1 H2 H3 H4]. split; [done|done| |].
  - intros i j e. rewrite H3. setoid_rewrite Hiff. done.
  - intros u e v. rewrite <- Hiff. apply H4.
Qed.

Lemma rep_new : Rep new (fun _ _ _ => False).
Proof. split; cbn; [constructor| | |done]. - intros n i. by rewrite lookup_empty. - intros i j e. split; [|naive_solver]. by intros ?%not_elem_of_nil. Qed.

Lemma get_or_add_node_rep c E n : Rep c E ->
  let '(i, c') := get_or_add_node c n in
  Rep c' E /\ graph_nodes c' !! i = Some n /\ forall k u, graph_nodes c !! k = Some u -> graph_nodes c' !! k = Some u.
Proof.
  intros HR. pose proof HR as [H1 H2 H3 H4]. unfold get_or_add_node. destruct (node_map c !! n) as [i|] eqn:Hn; [split; [done|]; split; [by apply H2|done]|].
  assert (n ∉ graph_nodes c) as Hnew. { intros [i Hi%H2]%list_elem_of_lookup. congruence. }
  cbn. split; [|split; [by rewrite lookup_app_r, Nat.sub_diag by lia|intros; by apply lookup_app_l_Some]]. split; cbn.
  - apply NoDup_app. split; [done|]. split; [set_solver|apply NoDup_singleton].
  - intros m i. destruct (decide (m = n)) as [->|Hne].
    + rewrite lookup_insert_eq. split; [intros [= <-]; by rewrite lookup_app_r, Nat.sub_diag by lia|].
      intros [Hi|[Hle Hi]]%lookup_app_Some; [by apply list_elem_of_lookup_2 in Hi|]. apply list_lookup_singleton_Some in Hi as [Hi _]. f_equal. lia.
    + rewrite lookup_insert_ne, H2 by done. rewrite lookup_app_Some. split; [by left|]. intros [?|[_ Hi]]; [done|].
      apply list_lookup_singleton_Some in Hi as [_ ?]. congruence.
  - intros i j e. rewrite H3. split; intros (u & v & Hu & Hv & HE); exists u, v.
    + split; [by apply lookup_app_l_Some|]. split; [by apply lookup_app_l_Some|done].
    + destruct (H4 _ _ _ HE) as [Hiu Hiv]. assert (forall k x, (graph_nodes c ++ [n]) !! k = Some x -> x ∈ graph_nodes c -> graph_nodes c !! k = Some x) as Hold.
      { intros k x [?|[_ Hx]]%lookup_app_Some Hin; [done|]. apply list_lookup_singleton_Some in Hx as [_ <-]. done. }
      split; [by apply Hold|]. split; [by apply Hold|done].
  - intros u e v HE. destruct (H4 _ _ _ HE). set_solver.
Qed.

Lemma add_edge_rep c E u v e : Rep c E -> Rep (add_edge c u v e) (fun a x b => E a x b \/ (a = u /\ x = e /\ b = v)).
Proof.
  intros HR. unfold add_edge. pose proof (get_or_add_node_rep c E u HR) as Hu. destruct (get_or_add_node c u) as [i c1]. destruct Hu as (HR1 & Hi & _).
  pose proof (get_or_add_node_rep c1 E v HR1) as Hv. destruct (get_or_add_node c1 v) as [j c2]. destruct Hv as (HR2 & Hj & Hin).
  pose proof HR2 as [H1 H2 H3 H4]. apply Hin in Hi as Hi2.
  split; cbn; [done|done| |].
  - intros i' j' e'. rewrite elem_of_app, list_elem_of_singleton, H3. split.
    + intros [(a & b & ? & ? & ?)|[= -> -> ->]]; [exists a, b; by auto|]. exists u, v. split; [done|]. split; [done|]. by right.
    + intros (a & b & Ha & Hb & [HE|(-> & -> & ->)]); [left; eauto|]. right.
      rewrite (NoDup_lookup _ _ _ _ H1 Ha Hi2), (NoDup_lookup _ _ _ _ H1 Hb Hj). done.
  - intros a x b [HE|(-> & -> & ->)]; [by eapply H4|]. split; by eapply list_elem_of_lookup_2.
Qed.

Lemma fold_rep {A} (f : InstantiationLoopChecker -> A -> InstantiationLoopChecker) (R : A -> Node -> Edge -> Node -> Prop) l :
  (forall c E x, x ∈ l -> Rep c E -> Rep (f c x) (fun u e v => E u e v \/ R x u e v)) ->
  forall c E, Rep c E -> Rep (fold_left f l c) (fun u e v => E u e v \/ exists x, x ∈ l /\ R x u e v).
Proof.
  induction l as [|x l IH]; intros Hf c E HR; cbn [fold_left]; [eapply rep_iff; [|exact HR]; set_solver|].
  eapply rep_iff; [|apply IH; [intros; apply Hf; [by right|done]|apply Hf; [by left|exact HR]]].
  intros u e v. cbn. setoid_rewrite elem_of_cons. naive_solver.
Qed.

Lemma vfold_rep {A} (f : InstantiationLoopChecker -> A -> vm InstantiationLoopChecker) (R : A -> Node -> Edge -> Node -> Prop) l :
  (forall c E x, x ∈ l -> Rep c E -> exists c', f c x = Ok c' /\ Rep c' (fun u e v => E u e v \/ R x u e v)) ->
  forall c E, Rep c E -> exists c', vfold f l c = Ok c' /\ Rep c' (fun u e v => E u e v \/ exists x, x ∈ l /\ R x u e v).
Proof.
  induction l as [|x l IH]; intros Hf c E HR; cbn [vfold]; [eexists; split; [done|]; eapply rep_iff; [|exact HR]; set_solver|].
  destruct (Hf c E x) as (c1 & -> & HR1); [by left|done|]. vm_cbn. destruct (IH ltac:(intros; apply Hf; [by right|done]) c1 _ HR1) as (c' & -> & HR').
  exists c'. split; [done|]. eapply rep_iff; [|exact HR']. intros u e v. cbn. setoid_rewrite elem_of_cons. naive_solver.
Qed.

(** How a type argument uses a type parameter of the caller. *)
Definition binds (ty : SignatureToken) (i : nat) (e : Edge) : Prop :=
  match ty with
  | SignatureToken.TypeParameter k => i = k /\ e = Identity
  | _ => i ∈ extract_type_parameters ty /\ e = TyConApp ty
  end.

Section Spec.
Context (module : CompiledModule).

(** The body of a definition calls a generic function of the module. *)
Definition generic_call (f g : nat) (actuals : Signature) : Prop :=
  exists fd cu idx fi gd, cm_function_defs module !! f = Some fd /\ fn_code fd = Some cu /\ Bytecode.CallGeneric idx ∈ cu_code cu /\
    cm_function_instantiations module !! idx = Some fi /\ cm_function_defs module !! g = Some gd /\ fn_function gd = fi_handle fi /\
    cm_signatures module !! fi_type_parameters fi = Some actuals.

(** The edges of the graph. *)
Definition passes (u : Node) (e : Edge) (v : Node) : Prop :=
  exists actuals ty, generic_call u.1 v.1 actuals /\ actuals !! v.2 = Some ty /\ binds ty u.2 e.

Context (Hwb : Bounds.WellBounded (View.Module_ module)) (Hnd : NoDup (map fn_function (cm_function_defs module))).
Context (Hdefs : (Z.of_nat (length (cm_function_defs module)) <= 65536)%Z).
Context (Hsigs : Forall (fun sig : Signature => (Z.of_nat (length sig) <= 65536)%Z) (cm_signatures module)).

Lemma func_handle_lookup h g : func_handle_def_map module !! h = Some g <-> exists gd, cm_function_defs module !! g = Some gd /\ fn_function gd = h.
Proof. by apply index_map_lookup. Qed.

Lemma add_actual_rep caller callee c E j ty : Rep c E -> (Z.of_nat j < 65536)%Z ->
  Rep (add_actual caller callee c (j, ty)) (fun u e v => E u e v \/ (u.1 = caller /\ v = (callee, j) /\ binds ty u.2 e)).
Proof.
  intros HR Hj. unfold add_actual. rewrite u16_small by done.
  assert (forall c E, Rep c E -> Rep (fold_left (fun c i => add_edge c (caller, i) (callee, j) (TyConApp ty)) (elements (extract_type_parameters ty)) c)
    (fun u e v => E u e v \/ (u.1 = caller /\ v = (callee, j) /\ u.2 ∈ extract_type_parameters ty /\ e = TyConApp ty))) as Hfold.
  { intros c0 E0 HR0. eapply rep_iff; [|apply (fold_rep _ (fun i u e v => u = (caller, i) /\ e = TyConApp ty /\ v = (callee, j))); [|exact HR0]].
    - intros [u1 u2] e v. cbn. setoid_rewrite elem_of_elements. split; [intros [?|(i & Hi & [= -> ->] & -> & ->)]; auto|].
      intros [?|(-> & -> & Hi & ->)]; [by left|]. right. eauto.
    - intros c1 E1 i _ HR1. by apply add_edge_rep. }
  destruct ty; cbn [binds]; try (by apply Hfold). eapply rep_iff; [|by apply add_edge_rep].
  intros [u1 u2] e v. cbn. split; [intros [?|([= -> ->] & -> & ->)]; auto|]. intros [?|(-> & -> & -> & ->)]; auto.
Qed.

Lemma build_graph_call_rep f g sig_idx actuals c E : Rep c E -> cm_signatures module !! sig_idx = Some actuals ->
  exists c', build_graph_call module f g sig_idx c = Ok c' /\
    Rep c' (fun u e v => E u e v \/ exists ty, u.1 = f /\ v.1 = g /\ actuals !! v.2 = Some ty /\ binds ty u.2 e).
Proof.
  intros HR Hs. unfold build_graph_call. assert (View.signature_at (View.Module_ module) sig_idx = Ok actuals) as -> by by apply index_Ok. vm_cbn.
  eexists. split; [done|]. rewrite Forall_lookup in Hsigs. specialize (Hsigs _ _ Hs). cbn in Hsigs.
  eapply rep_iff; [|apply (fold_rep _ (fun p u e v => u.1 = f /\ v = (g, p.1) /\ binds p.2 u.2 e)); [|exact HR]].
  - intros u e [v1 v2]. cbn. split.
    + intros [?|([j ty] & [k Hk]%list_elem_of_lookup & Hu & [= -> ->] & Hb)]; [by left|]. right. exists ty. cbn in *.
      rewrite list_lookup_imap in Hk. destruct (actuals !! k) as [t|] eqn:Ht; [|done]. cbn in Hk. injection Hk as -> ->. auto.
    + intros [?|(ty & Hu & -> & Ht & Hb)]; [by left|]. right. exists (v2, ty). split; [|auto]. apply list_elem_of_lookup. exists v2. by rewrite list_lookup_imap, Ht.
  - intros c1 E1 [j ty] [k Hk]%list_elem_of_lookup HR1. rewrite list_lookup_imap in Hk. destruct (actuals !! k) as [t|] eqn:Ht; [|done]. cbn in Hk. injection Hk as -> ->.
    apply lookup_lt_Some in Ht. apply add_actual_rep; [done|cbn; lia].
Qed.

Lemma build_graph_instr_rep f i tpc lc cl c E : Rep c E -> Bounds.instr_bounded (View.Module_ module) tpc lc cl i ->
  exists c', build_graph_instr module f c i = Ok c' /\
    Rep c' (fun u e v => E u e v \/ exists idx fi gd actuals ty, i = Bytecode.CallGeneric idx /\ cm_function_instantiations module !! idx = Some fi /\
      cm_function_defs module !! v.1 = Some gd /\ fn_function gd = fi_handle fi /\ cm_signatures module !! fi_type_parameters fi = Some actuals /\
      u.1 = f /\ actuals !! v.2 = Some ty /\ binds ty u.2 e).
Proof.
  intros HR Hb. destruct i; try (exists c; split; [done|]; eapply rep_iff; [|exact HR]; naive_solver).
  destruct Hb as [Hlt _]. destruct (index_lt _ _ Hlt) as (fi & Hi & Hfi). cbn [build_graph_instr].
  assert (View.function_instantiation_at (View.Module_ module) idx = Ok fi) as -> by exact Hi. vm_cbn.
  destruct (FunctionViews.function_instantiation_at_bounded (View.Module_ module) idx fi Hwb Hi) as [_ Hsig]. destruct (lookup_lt_is_Some_2 _ _ Hsig) as [actuals Hact].
  cbn in Hact, Hfi. destruct (func_handle_def_map module !! fi_handle fi) as [g|] eqn:Hg.
  - apply func_handle_lookup in Hg as (gd & Hgd & Hh). destruct (build_graph_call_rep f g _ _ c E HR Hact) as (c' & -> & HR'). exists c'. split; [done|].
    eapply rep_iff; [|exact HR']. intros u e v. cbn. split.
    + intros [?|(ty & Hu & <- & Ht & Hbi)]; [by left|]. right. exists idx, fi, gd, actuals, ty. done.
    + intros [?|(idx' & fi' & gd' & actuals' & ty & [= <-] & Hfi' & Hgd' & Hh' & Hact' & Hu & Ht & Hbi)]; [by left|]. right. simplify_eq. exists ty.
      split; [done|]. split; [|done]. assert (func_handle_def_map module !! fi_handle fi = Some v.1) as H1 by (apply func_handle_lookup; eauto).
      assert (func_handle_def_map module !! fi_handle fi = Some g) as H2 by (apply func_handle_lookup; eauto). congruence.
  - exists c. split; [done|]. eapply rep_iff; [|exact HR]. intros u e v. split; [by left|].
    intros [?|(idx' & fi' & gd' & actuals' & ty & [= <-] & Hfi' & Hgd' & Hh' & _)]; [done|]. simplify_eq.
    assert (func_handle_def_map module !! fi_handle fi = Some v.1) as H1 by (apply func_handle_lookup; eauto). congruence.
Qed.

Lemma build_graph_rep : exists c, build_graph module new = Ok c /\ Rep c passes.
Proof.
  unfold build_graph. destruct (vfold_rep (fun c '(def_idx, func_def) => if is_native func_def then Ok c else build_graph_function_def module (u16 def_idx) func_def c)
    (fun p u e v => u.1 = p.1 /\ passes u e v) (imap pair (cm_function_defs module))) with (c := new) (E := fun (_ : Node) (_ : Edge) (_ : Node) => False) as (c & -> & HR).
  - intros c E [f fd] [k Hk]%list_elem_of_lookup HR. rewrite list_lookup_imap in Hk. destruct (cm_function_defs module !! k) as [fd'|] eqn:Hfd; [|done].
    cbn in Hk. injection Hk as <- <-. pose proof (lookup_lt_Some _ _ _ Hfd). rewrite u16_small by lia. unfold is_native, build_graph_function_def.
    destruct (fn_code fd') as [cu|] eqn:Hcu.
    2: { exists c. split; [done|]. eapply rep_iff; [|exact HR]. intros u e v. cbn. split; [by left|]. intros [?|(Hu & actuals & ty & Hcall & _)]; [done|].
         destruct Hcall as (fd2 & cu & idx & fi & gd & Hfd2 & Hcu2 & _). rewrite Hu in Hfd2. congruence. }
    pose proof (Bounds.wb_function_defs _ Hwb) as Hd. cbn in Hd. rewrite Forall_lookup in Hd. destruct (Hd _ _ Hfd) as (fh & _ & _ & Hc). rewrite Hcu in Hc.
    destruct Hc as (params & _ & locals & _ & _ & _ & Hin). rewrite Forall_forall in Hin.
    destruct (vfold_rep (build_graph_instr module k) (fun i u e v => exists idx fi gd actuals ty, i = Bytecode.CallGeneric idx /\ cm_function_instantiations module !! idx = Some fi /\
      cm_function_defs module !! v.1 = Some gd /\ fn_function gd = fi_handle fi /\ cm_signatures module !! fi_type_parameters fi = Some actuals /\
      u.1 = k /\ actuals !! v.2 = Some ty /\ binds ty u.2 e) (cu_code cu)) with (c := c) (E := E) as (c' & -> & HR'); [|exact HR|].
    { intros c1 E1 i Hi HR1. by eapply build_graph_instr_rep; [|apply Hin]. }
    exists c'. split; [done|]. eapply rep_iff; [|exact HR']. intros u e v. cbn. split.
    + intros [?|(i & Hi & idx & fi & gd & actuals & ty & -> & Hfi & Hgd & Hh & Hact & Hu & Ht & Hbi)]; [by left|]. right. split; [done|].
      exists actuals, ty. split; [|done]. rewrite Hu. by exists fd', cu, idx, fi, gd.
    + intros [?|(Hu & actuals & ty & (fd2 & cu2 & idx & fi & gd & Hfd2 & Hcu2 & Hi & Hfi & Hgd & Hh & Hact) & Ht & Hbi)]; [by left|]. right.
      rewrite Hu in Hfd2. simplify_eq. exists (Bytecode.CallGeneric idx). split; [done|]. by exists idx, fi, gd, actuals, ty.
  - apply rep_new.
  - exists c. split; [done|]. eapply rep_iff; [|exact HR]. intros u e v. cbn. split; [by intros [?|(p & _ & _ & ?)]|].
    intros Hp. right. pose proof Hp as (actuals & ty & (fd & cu & idx & fi & gd & Hfd & _) & _). exists (u.1, fd). split; [|done].
    apply list_elem_of_lookup. exists u.1. by rewrite list_lookup_imap, Hfd.
Qed.

(** One formal is used to instantiate another. *)
Definition step (u v : Node) : Prop := exists e, passes u e v.

(** No chain of calls leads from a formal back to it through a constructor. *)
Definition no_growth : Prop := forall u ty v, passes u (TyConApp ty) v -> ~ rtc step v u.
End Spec.

(** What the documentation of [tarjan_scc] says of its result: every node is in
    a component, and a component holds the nodes that reach each other. *)
Definition linked (edges : list (nat * nat * Edge)) (i j : nat) : Prop := exists e, (i, j, e) ∈ edges.

Definition scc_ok (nodes : list Node) (edges : list (nat * nat * Edge)) (components : list (list nat)) : Prop :=
  (forall i, i < length nodes -> exists c, c ∈ components /\ i ∈ c) /\
  forall c i j, c ∈ components -> i ∈ c -> (j ∈ c <-> rtc (linked edges) i j /\ rtc (linked edges) j i).

Section Verdict.
Context (module : CompiledModule) (c : InstantiationLoopChecker) (HR : Rep c (passes module)).

Lemma linked_step i j u : rtc (linked (graph_edges c)) i j -> graph_nodes c !! i = Some u ->
  exists v, graph_nodes c !! j = Some v /\ rtc (step module) u v.
Proof.
  intros Hr. revert u. induction Hr as [i|i k j [e He] _ IH]; intros u Hu; [by exists u|].
  apply (rep_edge _ _ HR) in He as (u' & w & Hu' & Hw & Hp). simplify_eq. destruct (IH _ Hw) as (v & Hv & Hs). exists v. split; [done|].
  eapply rtc_l; [by exists e|done].
Qed.

Lemma step_linked u v i : rtc (step module) u v -> graph_nodes c !! i = Some u ->
  exists j, graph_nodes c !! j = Some v /\ rtc (linked (graph_edges c)) i j.
Proof.
  intros Hr. revert i. induction Hr as [u|u w v [e He] _ IH]; intros i Hi; [by exists i|].
  destruct (rep_in _ _ HR _ _ _ He) as [_ [k Hk]%list_elem_of_lookup]. destruct (IH _ Hk) as (j & Hj & Hl). exists j. split; [done|].
  eapply rtc_l; [|done]. exists e. apply (rep_edge _ _ HR). eauto.
Qed.

Lemma non_trivial_None nodes : non_trivial c nodes = None <->
  forall i j ty, i ∈ nodes -> j ∈ nodes -> (i, j, TyConApp ty) ∉ graph_edges c.
Proof.
  unfold non_trivial. destruct (existsb _ _) eqn:Hex; (split; [try done|]).
  - intros Hn. apply existsb_exists in Hex as ([[i j] e] & Hin & Hc). apply in_flat_map in Hin as (k & Hk & Hin). rewrite <- !list_elem_of_In in *.
    apply list_elem_of_filter in Hin as [Hcond%Is_true_true Hin]. rewrite bool_decide_eq_true in Hcond. cbn in Hcond. destruct Hcond as [-> Hj].
    destruct e as [|ty]; [done|]. by destruct (Hn k j ty Hk Hj).
  - intros _ i j ty Hi Hj Hin. enough (existsb is_constructor (flat_map (fun node_idx => filter (fun e => bool_decide (e.1.1 = node_idx /\ e.1.2 ∈ nodes)) (graph_edges c)) nodes) = true) by congruence.
    apply existsb_exists. exists (i, j, TyConApp ty). split; [|done]. apply in_flat_map. exists i. rewrite <- !list_elem_of_In. split; [done|].
    apply list_elem_of_filter. split; [|done]. apply Is_true_true. by rewrite bool_decide_eq_true.
  - done.
Qed.

Lemma components_none tarjan_scc : scc_ok (graph_nodes c) (graph_edges c) (tarjan_scc (graph_nodes c) (graph_edges c)) ->
  last (find_non_trivial_components tarjan_scc c) = None <-> no_growth module.
Proof.
  intros [Hcover Hcomp]. rewrite last_None. unfold find_non_trivial_components. split.
  - intros Hnil u ty v Hp Hback.
    destruct (rep_in _ _ HR _ _ _ Hp) as [[i Hi]%list_elem_of_lookup [j Hj]%list_elem_of_lookup].
    destruct (Hcover i) as (comp & Hc & Hic); [by eapply lookup_lt_Some|].
    assert ((i, j, TyConApp ty) ∈ graph_edges c) as He by (apply (rep_edge _ _ HR); eauto).
    destruct (step_linked _ _ _ Hback Hj) as (i' & Hi' & Hl). assert (i' = i) as -> by (eapply NoDup_lookup; [apply HR|done..]).
    assert (j ∈ comp) as Hjc by (apply (Hcomp comp i j Hc Hic); split; [apply rtc_once; by exists (TyConApp ty)|done]).
    assert (non_trivial c comp = None) as Hn; [|by destruct (proj1 (non_trivial_None comp) Hn i j ty Hic Hjc)].
    destruct (non_trivial c comp) as [x|] eqn:Hx; [|done].
    assert (x ∈ omap (non_trivial c) (tarjan_scc (graph_nodes c) (graph_edges c))) as Hin by (apply list_elem_of_omap; eauto).
    rewrite Hnil in Hin. by apply not_elem_of_nil in Hin.
  - intros Hg. destruct (omap _ _) as [|x l] eqn:Ho; [done|]. assert (x ∈ x :: l) as Hx by left. rewrite <- Ho in Hx.
    apply list_elem_of_omap in Hx as (comp & Hc & Hx). assert (non_trivial c comp = None) as Hn; [|congruence].
    apply non_trivial_None. intros i j ty Hi Hj He. apply (rep_edge _ _ HR) in He as (u & v & Hu & Hv & Hp).
    destruct (proj1 (Hcomp _ _ _ Hc Hi) Hj) as [_ Hl]. destruct (linked_step _ _ _ Hl Hv) as (u' & Hu' & Hs). simplify_eq. by eapply Hg.
Qed.
End Verdict.

(** ** The types of instances *)

Fixpoint ty_depth (t : SignatureToken) : nat :=
  match t with
  | SignatureToken.Vector t | SignatureToken.Reference t | SignatureToken.MutableReference t => S (ty_depth t)
  | SignatureToken.StructInstantiation _ ts => S (max_list (map ty_depth ts))
  | _ => 0
  end.

Lemma max_list_bound l b : Forall (fun x => x <= b) l -> max_list l <= b.
Proof. induction 1; cbn; lia. Qed.

(** Instantiation adds at most the depth of the arguments that are used. *)
Lemma instantiate_depth ty args ty' D : TypeSafety.instantiate ty args = Ok ty' ->
  (forall i t, i ∈ extract_type_parameters ty -> args !! i = Some t -> ty_depth t <= D) -> ty_depth ty' <= ty_depth ty + D.
Proof.
  destruct args as [|a0 r] eqn:Hargs; [destruct ty; intros [= <-]; lia|]. rewrite <- Hargs. assert (args <> []) as Hne by (by rewrite Hargs). clear Hargs.
  revert ty'. induction ty as [| | | | | |t IH|idx|idx ts IH|t IH|t IH|idx| | |] using SignatureToken.token_ind; intros ty' Hi Hd;
    cbn [TypeSafety.instantiate] in Hi; destruct args as [|a1 r1]; try done; try (injection Hi as <-; cbn; lia).
  - apply vm_bind_Ok in Hi as (t' & Ht & [= <-]). cbn. apply le_n_S, IH; done.
  - apply vm_bind_Ok in Hi as (ts' & Hts%vmap_Ok & [= <-]). cbn. apply le_n_S, max_list_bound. rewrite Forall_map, Forall_lookup. intros k t' Hk.
    destruct (Forall2_lookup_r _ _ _ _ _ Hts Hk) as (t & Ht & Hti). rewrite Forall_lookup in IH. cbn in Hd.
    etrans; [eapply (IH _ _ Ht); [done|]|apply Nat.add_le_mono_r, max_list_elem_of_le, list_elem_of_fmap_2; by eapply list_elem_of_lookup_2].
    intros i x Hix. apply Hd. apply elem_of_union_list. exists (extract_type_parameters t). split; [|done]. by eapply list_elem_of_fmap_2, list_elem_of_lookup_2.
  - apply vm_bind_Ok in Hi as (t' & Ht & [= <-]). cbn. apply le_n_S, IH; done.
  - apply vm_bind_Ok in Hi as (t' & Ht & [= <-]). cbn. apply le_n_S, IH; done.
  - apply vm_bind_Ok in Hi as (? & _ & Hi%index_Ok). cbn in *. eapply (Hd idx); [set_solver|done].
Qed.

Section Depth.
Context (module : CompiledModule) (c : InstantiationLoopChecker) (HR : Rep c (passes module)) (Hgrow : no_growth module).

(** A generic call of one instance from another. *)
Definition instance_step (p q : nat * Signature) : Prop :=
  exists actuals, generic_call module p.1 q.1 actuals /\ vmap (fun ty => TypeSafety.instantiate ty p.2) actuals = Ok q.2.

(** A chain of edges, with the ends of those that apply a constructor. *)
Inductive walk : list Node -> Node -> Prop :=
| walk_start n : walk [] n
| walk_identity l u v : walk l u -> passes module u Identity v -> walk l v
| walk_constructor l u ty v : walk l u -> passes module u (TyConApp ty) v -> walk (v :: l) v.

Lemma walk_distinct l n : walk l n -> NoDup l /\ forall x, x ∈ l -> x ∈ graph_nodes c /\ rtc (step module) x n.
Proof.
  induction 1 as [n|l u v _ [Hnd Hall] Hp|l u ty v _ [Hnd Hall] Hp]; [split; [constructor|set_solver]| |].
  - split; [done|]. intros x Hx. destruct (Hall x Hx) as [Hin Hr]. split; [done|]. eapply rtc_r; [done|by eexists].
  - split.
    + constructor; [|done]. intros Hv. destruct (Hall v Hv) as [_ Hr]. by eapply Hgrow.
    + intros x [->|Hx]%elem_of_cons; [split; [by eapply (rep_in _ _ HR)|done]|]. destruct (Hall x Hx) as [Hin Hr]. split; [done|]. eapply rtc_r; [done|by eexists].
Qed.

Lemma walk_length l n : walk l n -> length l <= length (graph_nodes c).
Proof. intros [Hnd Hall]%walk_distinct. apply submseteq_length, NoDup_submseteq; [done|]. intros x Hx. by apply Hall. Qed.

Let dmax := max_list (map ty_depth (concat (cm_signatures module))).

Lemma actuals_depth f g actuals ty : generic_call module f g actuals -> ty ∈ actuals -> ty_depth ty <= dmax.
Proof.
  intros (fd & cu & idx & fi & gd & _ & _ & _ & _ & _ & _ & Hs) Hty. apply max_list_elem_of_le, list_elem_of_fmap_2. apply list_elem_of_In, in_concat.
  exists actuals. rewrite <- !list_elem_of_In. split; [by eapply list_elem_of_lookup_2|done].
Qed.

(** The argument that is used and deepest. *)
Lemma deepest (params : gset nat) (args : Signature) :
  (forall i t, i ∈ params -> args !! i = Some t -> ty_depth t <= 0) \/
  exists i t, i ∈ params /\ args !! i = Some t /\ forall k t', k ∈ params -> args !! k = Some t' -> ty_depth t' <= ty_depth t.
Proof.
  set (l := omap (fun i => ty_depth <$> args !! i) (elements params)).
  assert (forall k t', k ∈ params -> args !! k = Some t' -> ty_depth t' ∈ l) as Hin.
  { intros k t' Hk Ht. apply list_elem_of_omap. exists k. rewrite Ht. split; [by apply elem_of_elements|done]. }
  destruct (decide (l = [])) as [Hl|Hl].
  - left. intros i t Hi Ht. specialize (Hin i t Hi Ht). rewrite Hl in Hin. by apply not_elem_of_nil in Hin.
  - right. pose proof (max_list_elem_of l Hl) as Hm. apply list_elem_of_omap in Hm as (i & Hi%elem_of_elements & Hm).
    destruct (args !! i) as [t|] eqn:Ht; [|done]. injection Hm as Hm. exists i, t. split; [done|]. split; [done|]. intros k t' Hk Ht'. rewrite Hm. apply max_list_elem_of_le. by eapply Hin.
Qed.

Lemma instance_walk p q : rtc instance_step p q -> forall j t, q.2 !! j = Some t ->
  exists l, walk l (q.1, j) /\ ty_depth t <= Nat.max (max_list (map ty_depth p.2)) dmax + length l * dmax.
Proof.
  revert q. apply (rtc_ind_r (fun q => forall j t, q.2 !! j = Some t -> exists l, walk l (q.1, j) /\ _) p).
  { intros j t Ht. exists []. split; [constructor|]. assert (ty_depth t <= max_list (map ty_depth p.2)) by (by eapply max_list_elem_of_le, list_elem_of_fmap_2, list_elem_of_lookup_2). lia. }
  intros q r Hr (actuals & Hcall & Hact%vmap_Ok) IH j t Ht. destruct (Forall2_lookup_r _ _ _ _ _ Hact Ht) as (ty & Hty & Hi).
  assert (ty_depth ty <= dmax) as Hd by (by eapply actuals_depth, list_elem_of_lookup_2).
  destruct (deepest (extract_type_parameters ty) q.2) as [Hnone|(i & t0 & Hin & Ht0 & Hmax)].
  - exists []. split; [constructor|]. pose proof (instantiate_depth _ _ _ 0 Hi Hnone). lia.
  - destruct (IH i t0 Ht0) as (l & Hw & Hb). pose proof (instantiate_depth _ _ _ _ Hi Hmax) as Hdepth.
    destruct (decide (ty = SignatureToken.TypeParameter i)) as [->|Hne].
    + exists l. split; [|cbn in Hdepth; lia]. eapply walk_identity; [done|]. exists actuals, (SignatureToken.TypeParameter i). done.
    + exists ((r.1, j) :: l). split; [|cbn [length]; lia]. eapply (walk_constructor _ _ ty); [done|]. exists actuals, ty. split; [done|]. split; [done|].
      destruct ty; try done. cbn in Hin. apply elem_of_singleton in Hin. by subst.
Qed.

Lemma instance_depth p q : rtc instance_step p q ->
  Forall (fun t => ty_depth t <= Nat.max (max_list (map ty_depth p.2)) dmax + length (graph_nodes c) * dmax) q.2.
Proof.
  intros Hr. apply Forall_lookup. intros j t Ht. destruct (instance_walk _ _ Hr j t Ht) as (l & Hw & Hd). apply walk_length in Hw. nia.
Qed.
End Depth.

(** C13: On a module the bounds and duplication checkers accepted, and for a
    computation of components that does what its documentation says, the check
    of instantiation loops returns a verdict and accepts exactly when no chain
    of generic calls leads from a type parameter back to it through a type that
    has it as a proper part. Then the depth of every type argument that any
    chain of generic calls inside the module can make is bounded: it exceeds
    the depths it started from by at most the number of type parameters in the
    graph times the deepest type of the module. *)
Theorem instantiation_bounded module tarjan_scc :
  Bounds.verify_module module = Ok () -> Duplication.verify_module module = Ok () ->
  (Z.of_nat (length (cm_struct_handles module)) <= 65536)%Z -> (Z.of_nat (length (cm_function_handles module)) <= 65536)%Z ->
  (Z.of_nat (length (cm_function_defs module)) <= 65536)%Z ->
  Forall (fun sig : Signature => (Z.of_nat (length sig) <= 65536)%Z) (cm_signatures module) ->
  (forall c, build_graph module new = Ok c -> scc_ok (graph_nodes c) (graph_edges c) (tarjan_scc (graph_nodes c) (graph_edges c))) ->
  decides (verify_module module tarjan_scc) (no_growth module) /\
  (verify_module module tarjan_scc = Ok () -> exists c, build_graph module new = Ok c /\
    forall p q, rtc (instance_step module) p q ->
    Forall (fun t => ty_depth t <= Nat.max (max_list (map ty_depth p.2)) (max_list (map ty_depth (concat (cm_signatures module)))) +
      length (graph_nodes c) * max_list (map ty_depth (concat (cm_signatures module)))) q.2).
Proof.
  intros Hb Hdup Hsh Hfh Hdefs Hsigs Hscc. pose proof Hb as [_ Hwb]%Bounds.verify_module_Ok.
  apply (Duplication.duplication_verify_decides module Hwb Hsh Hfh) in Hdup as (_ & _ & _ & _ & _ & _ & _ & _ & _ & _ & _ & (Hnd & _) & _ & _).
  destruct (build_graph_rep module Hwb Hnd Hdefs Hsigs) as (c & Hc & HR). specialize (Hscc c Hc). unfold verify_module. rewrite Hc. vm_cbn.
  pose proof (components_none module c HR tarjan_scc Hscc) as Hnone.
  assert (decides (match last (find_non_trivial_components tarjan_scc c) with None => Ok () | Some _ => Err (error_new StatusCode.LOOP_IN_INSTANTIATION_GRAPH) end)
    (no_growth module)) as Hdec.
  { rewrite <- Hnone. destruct (last _); split; auto with settle; done. }
  split; [done|]. intros Hok. exists c. split; [done|]. intros p q Hr. apply (instance_depth module c HR); [|done]. by apply Hdec.
Qed.

(** [fun f<T>() { g<vector<T>>() }] and [fun g<T>() { }]. *)
Definition loop_handle (name : nat) : FunctionHandle :=
  {| fh_module := 0; fh_name := name; fh_parameters := 0; fh_return := 0; fh_type_parameters := [AbilitySet.EMPTY] |}.

Definition loop_definition (handle : nat) (code : list Bytecode) : FunctionDefinition :=
  {| fn_function := handle; fn_visibility := Public; fn_is_entry := false; fn_acquires_global_resources := [];
     fn_code := Some {| cu_locals := 0; cu_code := code |} |}.

Definition chain_module : CompiledModule :=
  empty_module <| cm_identifiers := ["f"; "g"] |> <| cm_signatures := [[]; [SignatureToken.Vector (SignatureToken.TypeParameter 0)]] |>
    <| cm_function_handles := [loop_handle 0; loop_handle 1] |>
    <| cm_function_instantiations := [{| fi_handle := 1; fi_type_parameters := 1 |}] |>
    <| cm_function_defs := [loop_definition 0 [Bytecode.CallGeneric 0; Bytecode.Ret]; loop_definition 1 [Bytecode.Ret]] |>.

Lemma chain_scc c : build_graph chain_module new = Ok c -> scc_ok (graph_nodes c) (graph_edges c) [[1]; [0]].
Proof.
  intros Hc. vm_compute in Hc. injection Hc as <-. cbn [graph_nodes graph_edges].
  assert (forall i j, rtc (linked [(0, 1, TyConApp (SignatureToken.Vector (SignatureToken.TypeParameter 0)))]) i j -> i = j \/ (i = 0 /\ j = 1)) as Hr.
  { induction 1 as [i|i k j [e He] _ IH]; [by left|]. apply list_elem_of_singleton in He. injection He as -> -> _. right. lia. }
  split.
  - intros [|[|i]] Hi; [exists [0]|exists [1]|cbn in Hi; lia]; set_solver.
  - intros comp i j Hcomp Hi. assert (comp = [i]) as ->.
    { apply elem_of_cons in Hcomp as [->|Hcomp]; [|apply list_elem_of_singleton in Hcomp as ->]; by apply list_elem_of_singleton in Hi as ->. }
    rewrite list_elem_of_singleton. split; [intros ->; by split|].
    intros [H1%Hr H2%Hr]. lia.
Qed.

Lemma instantiation_bounded_witness :
  verify_module chain_module (fun _ _ => [[1]; [0]]) = Ok () /\
  forall q, rtc (instance_step chain_module) (0, [SignatureToken.U8]) q -> Forall (fun t => ty_depth t <= 3) q.2.
Proof.
  split; [vm_compute; reflexivity|].
  destruct (instantiation_bounded chain_module (fun _ _ => [[1]; [0]])) as [_ Hd]; [vm_compute; reflexivity..|vm_compute; discriminate|
    vm_compute; discriminate|vm_compute; discriminate|repeat constructor; vm_compute; discriminate|exact chain_scc|].
  destruct Hd as (c & Hc & Hd); [vm_compute; reflexivity|]. vm_compute in Hc. injection Hc as <-. intros q Hq. specialize (Hd _ _ Hq). exact Hd.
Defined.
End InstLoops.
